(* ===== verification/_CoqProject ===== *)
-Q . S2P
Prelude.v
Text.v
Paths.v
Vfs.v
GamePaths.v
Network.v
Wire.v
PackagePath.v
Package.v
PackageWrite.v
PackageRead.v
PackageTrip.v
Opcodes.v
Stream.v
Pool.v
Ingress.v
Sync.v
Resource.v
Commands.v
Decode.v
RenderStream.v
Clock.v
Tickets.v
Damage.v
Atlas.v
Sender.v
RelAcq.v
Surface.v
SurfaceLife.v
External.v
Keyed.v
Budget.v
Shadow.v
FrameStats.v
StateTracker.v
Errors.v
FrameDamage.v
Driver.v
Handler.v
Dedup.v
Invisible.v
Reach.v
FrameReach.v
ObjectLife.v
Accounts.v
CanvasLife.v
HostChannel.v
HostIngress.v
