(* ===== verification/Prelude.v ===== *)
(** * The frame lane of the engine

    The engine runs a game's JavaScript or an external producer in one place and
    draws in another; what crosses between them each frame is a packet of bytes
    and a stream of 32-bit records in it.  This development models the crates
    that give those bytes their meaning, [engine/crates/frame-wire] and
    [engine/crates/frame-decode], the part of [engine/crates/shared] they decode
    into, the session that owns one end of the lane
    ([engine/crates/core/src/runtime/external.rs]), and the parts of the renderer
    that decide when and what to present.  It proves that what one side writes is
    what the other draws, that nothing a producer sends makes the consumer panic,
    and that every credit, request, upload, barrier, surface generation and
    damaged pixel is accounted for.  Beside the lane it models the sandbox the
    game runs in: the files and the hosts it can reach.

    ** How the parts interact

    A producer fills a packet with [WireFrameBuilder]; the session's
    [FrameIngress] receives it, calls [WireFrame::validate], checks it against
    the session's generations and sequence, takes a credit from the
    [CreditWindow] and a buffer from the [FramePool], and hands on a
    [PooledFrame].  The packet's command section is a word stream:
    [validate_stream] is pass one over its structure, [decode_record] and
    [canvas2d::decode_record] are pass two, and [decode_render_stream_into]
    groups the commands into batches with materialize barriers between 2D and
    WebGL work.  Packets name uploads of the [ResourceTable], and calls that need
    an answer go through the one-slot [SyncMailbox].

    [SubmitPath::submit_frame] of an external session composes these: it submits
    to the ingress, decodes, sends the [FramePacket] through the
    [CommandSender], and holds the credit until the frame clock ticks.  The clock
    ticks when the render thread answers a [RafDemand], which the software frame
    clock or the platform's vsync drives; what is presented is bounded by the
    damage of the frame and the age of its buffer, and whether anything is
    presented by the surface lifecycle, whose surfaces are identified by the
    generations of a [SurfaceControl].

    A game is identified by an id that [GamePaths] validates and turns into its
    directories; [VirtualFS] maps the virtual paths of the game into them, checks
    what it resolves against the file system and opens files by descriptors.
    Every connection passes [evaluate_policy] of the network gate, which asks
    [is_blocked_address].  The game's code comes in packages that [PackageWriter]
    makes at install time and [PackageReader] serves ranges of.

    ** The files

    - Prelude: outcomes (value, error, panic, fuel), machine integers with their
      overflow, slices, little-endian bytes, and their lemmas and tactics.
    - Text: strings as bytes, with the standard library's operations on them.
    - Paths: the standard library's paths and a file system of inodes and links.
    - Vfs: [shared/src/vfs/mod.rs] and [vfs/unix.rs].  The file system is an
      argument of every check, and of opening a file one file system per system
      call; the kernel's calls are the class [Syscalls].
    - GamePaths: [shared/src/vfs/game_paths.rs] and the sandbox built on it.
    - PackagePath, Package, PackageWrite, PackageRead, PackageTrip: the package
      format of a game's code, [shared/src/vfs/package.rs]: the paths of entries,
      the format and its writer, what the writer does, the reader, and both
      together.  zstd is the class [Zstd], which a compressor that stores
      instantiates; the file written to has finite room, the file read from is an
      argument of every call.  The loops over chunks take fuel where the code has
      [while] and it is proved that one more than the bytes of the entry is enough.
    - Network: [runtime-v8/src/network/address_filter.rs] and [gate.rs], with the
      standard library's parser of socket addresses.
    - Wire: [frame-wire/src/lib.rs] and [builder.rs].  [validate] is
      [WireFrame::validate], [build] is [WireFrameBuilder::build]; [encode] is
      the specification of the packet format.  The CRC-32 of the [crc32fast]
      crate is the class [Crc32], of which only the width of the value is
      assumed; a bitwise CRC instantiates it.
    - Opcodes: the opcode tables of [frame-wire/src/gl.rs], [canvas2d.rs] and the
      record specifications of [stream.rs].
    - Stream: [frame-wire/src/stream.rs], the record header and
      [validate_stream]; [record_wf] and [stream_of] are the specification.
    - Pool: [frame-wire/src/pool.rs].  Module Credits has the credit window,
      with its compare-and-swap loops as a step relation over any number of
      threads; Module Pool has the buffers, with the capacities an allocation
      gets as the class [VecAlloc].
    - Ingress: [frame-wire/src/ingress.rs], [submit] on every branch, and whole
      sessions of submissions, frames dropped and generations advanced.
    - Sync: [frame-wire/src/sync.rs], the mailbox and its record layout.
    - Resource: [frame-wire/src/resource.rs], the reservation table and uploads.
    - Commands: the [GLCmd] and [Canvas2DCmd] of
      [shared/src/protocol/render_cmd.rs] that a record can stand for, and the
      record of each.
    - Decode: [frame-decode/src/validate.rs], [canvas2d.rs] and [decode_record]
      of [lib.rs], generic in the host ([GlDecodeContext]).
    - RenderStream: the rest of [frame-decode/src/lib.rs], generic in the sink
      ([RenderSink]), and the frame operations of [frame_packet.rs].
    - Clock: [shared/src/frame_rate.rs], the software frame clock of
      [graphics/src/frame_scheduler.rs] and its wait in [render_wait.rs].
    - Tickets: numbers that must not repeat: callback ids
      ([shared/src/callback_id.rs]), runtime generations
      ([core/src/runtime/restart_boundary.rs]) and RAF tickets
      ([shared/src/raf_signal.rs]).
    - Damage: Module Present is [graphics/src/present_damage.rs], Module Tracker
      [damage_tracker.rs].
    - Atlas: [graphics/src/atlas/allocator.rs], the shelf allocator.
    - Sender: the frame packet builder, the [RenderCommand] envelope and
      [shared/src/render_command_sender.rs] over a bounded channel, the class
      [Channel]; a list instantiates it.
    - RelAcq: memory with release and acquire accesses, as views and messages.
    - Surface: the generation gate and the control of [shared/src/surface/], as
      threads that make one atomic access at a time to that memory; the wake channel
      is the class [WakeChannel].
    - SurfaceLife: the host's attachment slot, the lifecycle of
      [graphics/src/surface_system.rs] and the release of native surfaces.
    - External: the session of [core/src/runtime/external.rs], as functions and
      as a system of interleaved steps.
    - Keyed: [graphics/src/canvas_keyed.rs], tables by canvas with a memo.
    - Budget: [graphics/src/webgl_gpu_budget.rs], the bytes of textures and
      renderbuffers against the quotas of a context and of the process.
    - Shadow: [graphics/src/canvas/manager/types.rs] and
      [backend/gl/uniform_cache.rs], what the renderer remembers of a context's
      state; every shadow is an instance of the class [Dedup].  The iteration
      order of a hash map is the class [HashOrder].
    - FrameStats: [graphics/src/render_frame_state.rs] and the thread's half of
      [render_diagnostics.rs], the counters of a frame.
    - StateTracker: [graphics/src/backend/gl/state_tracker.rs], which calls must
      reach the driver.
    - Errors: [shared/src/error/codes.rs].
    - FrameDamage: [graphics/src/damage_effect.rs] and the present's bookkeeping
      in [canvas/manager/mod.rs], from effects to the region presented.
    - Driver: the OpenGL ES calls the handler makes, the state each sets, and the
      class [GlDriver] of the drivers that set it.
    - Handler: [graphics/src/renderergl/handler.rs] on the commands the wire
      carries, with the parts of [canvas/manager/mod.rs] it calls, and the loop of
      [execute_gl_batch].  It is written over what is done with the tracker's
      answer, so that the handler that issues every call is the same text.
    - Dedup, Invisible: the shadows agree with the contexts, and skipping a call
      cannot be seen.
    - Reach, FrameReach: the context each call is made in, and the damage of what
      calls can change, up to the presented region.
    - ObjectLife: the commands that create, allocate and delete GL objects,
      [canvas/manager/gl_object.rs], and of [canvas/manager/mod.rs] the coming and
      going of canvases, the bypass of the drawing buffer, the framebuffer of image
      copies and the teardown of the share group.
    - Accounts, CanvasLife: the objects the driver holds and the manager's entries
      for them, over single commands and whole runs.
    - HostChannel: [shared/src/host_channel.rs], the queue of commands to a host.
    - HostIngress: the sends of [core/src/runtime/registry.rs]'s ingress, with the
      pools of [shared/src/payload_pool.rs].

    ** What the theorems show

    - Packets (Wire): validation after building gives the packet back; what
      validation accepts is exactly the canonical encodings; it never panics, on
      any bytes; every error of it is the answer to some bytes.
    - Streams (Stream, Opcodes): pass one accepts exactly the runs of
      well-formed records, the run is unique, and every input gets an answer.
    - Records (Decode): pass two is total on what pass one accepts; records are
      a code for commands, floats bit for bit; the host checks are WebGL's.
    - Order (RenderStream): the sink gets the commands of the records in their
      order, refining a specification without batches; no WebGL batch comes
      before the 2D work ahead of it is materialized; every sink, the
      frame-operation one included, gets the same calls.
    - Sessions (Ingress, Pool): what submission accepts, in terms of packets;
      every outcome leaves the session as the code's contract says; over any
      session, accepted sequences are 1, 2, 3, ..., and credits in flight are the
      frames alive; the credit window is linearizable; the pool's byte ledger is
      exact.
    - Calls with an answer (Sync): a request is settled exactly once, and
      nothing is outstanding after the end of a session.
    - Uploads (Resource): what a frame may reference has received all its bytes,
      in order, and matched its digest, in the current epoch.
    - The lane end to end (External, Sender): a packet built by a producer reaches
      the renderer's queue as its meaning; every interleaving of a session is a
      run of the ingress; credits come back; a frame refused late is lost; every
      command is delivered or counted.
    - Surfaces (Surface, SurfaceLife): generations are never reused; a shutdown that
      retires a generation is final and a teardown one side saw of the other is not
      lost, and runs that release and acquire allow show that neither holds without
      that; the slot takes the live generation only, a release is accounted for and
      notified once.
    - Presenting (Clock, Tickets, Damage, Atlas): frames are paced, signals stay in
      their session, the repaired region makes an aged buffer the current frame,
      atlas regions do not overlap.
    - Executing commands (Keyed, Budget, Shadow, FrameStats): keyed tables are
      maps whatever their memo; no quota is exceeded and the process counter is
      what its objects add up to; the counters of a frame are those of its events.
    - What reaches the screen (FrameDamage, Dedup to FrameReach): a batch run with
      its redundant calls skipped is the batch run with every call issued, up to
      three cases the tracker does not follow, each with its counterexample; the
      calls of a command are made in the context of its canvas; every pixel some
      call of a batch without those cases can change is in the region presented, and
      with them one may not be; a present that fails loses no damage.
    - Objects (Accounts, CanvasLife): over any run of commands and of canvas
      operations the entries of shared objects and of the canvases that are there are
      in bijection with the driver's objects, the entries left over are containers of
      canvases that are gone, and the budget charges for what the tables have; a
      command deletes a container in its canvas's context only; where a context
      cannot be made current, a canvas is destroyed or an image is copied, the file
      ends with what is not kept.
    - Input (HostChannel, HostIngress): what the host's queue accepts is delivered
      once and in order but for state that newer state of its stream replaced; the
      budgets hold; a payload pool never runs out before the queue does; saturation
      is notified once in an episode.
    - The sandbox (Vfs, GamePaths, Network): a resolved path stays inside the
      directory of its mapping whatever links there are, except through a dangling
      link, which the check of links misses; an opened file is inside even while
      the file system changes; portable paths resolve; games and sessions are
      apart; the gate admits exactly what its policy says, and no literal of a
      blocked range.
    - Packages (Package to PackageTrip): what is packed is unpacked, whole, in
      ranges and through the cache; opening survives any bytes and establishes
      what reading relies on; a streamed entry is the buffered one; an entry that
      inflates short panics the readers after the first that go past its bytes.

    ** Conventions

    A machine integer is a [Z] with its width in the statement ([is_u32], ...);
    plain [+] panics on overflow as a checked build does, and the saturating,
    wrapping and checked forms are written out.  A float is its bit pattern
    ([F32]), since the code only moves floats.  [usize] is 64 bits wide.  A loop
    takes fuel where its measure is not structural: the number of words left for
    the walks over records, each of which moves by at least one word, and it is
    proved that it does not run out.  A [debug_assert] is a panic.  Instants and
    durations are nanoseconds in [Z].  Channels and other libraries are classes of
    operations with the laws the code relies on, each with an instance.

    ** What is not modelled

    The rest of the workspace: the JavaScript runtime, audio, input and output,
    the platform layers and the C ABI are calls into systems this development
    cannot read.  Of command execution, the commands that fill, read back or query
    objects are left out, the image registry, the install of the window's surface
    and 2D drawing.  The runs of CanvasLife leave out commands that draw, which
    change no object but may overflow.  The accesses of a
    [SurfaceControl] are release and acquire ones; the credit window is a single
    atomic location, whose accesses are totally ordered, and its steps are one after
    the other; the pool's mutex makes each of its operations one step, and so a
    host's one producer makes the taking of a payload slot and the send that uses
    it.  Text renderings of errors, logging, metrics and the
    [Drop] order of unrelated values are left out. *)
From stdpp Require Export base tactics list numbers strings gmap.
From Stdlib Require Export ZArith Lia.
#[global] Open Scope Z_scope.
#[export] Set Warnings "-clear-no-such-hyp".

(** * Outcomes of fallible code *)

(** What a piece of the program does: it returns a value, it returns an error
    of its own error type, or it panics (an index or slice out of range, an
    arithmetic overflow in a checked build, an [expect] on [None]).
    [OutOfFuel] is no behaviour of the program: it is what a fuel-bounded loop
    answers when its fuel ends, and every loop of the development comes with
    the theorem that it does not happen. *)
Inductive outcome (E A : Type) : Type :=
  | Ret (a : A)
  | Fail (e : E)
  | Panic
  | OutOfFuel.
Arguments Ret {E A} a.
Arguments Fail {E A} e.
Arguments Panic {E A}.
Arguments OutOfFuel {E A}.

#[global] Instance outcome_ret {E} : MRet (outcome E) := λ A a, Ret a.
#[global] Instance outcome_bind {E} : MBind (outcome E) := λ A B f m,
  match m with
  | Ret a => f a
  | Fail e => Fail e
  | Panic => Panic
  | OutOfFuel => OutOfFuel
  end.
#[global] Instance outcome_eq_dec {E A} `{EqDecision E, EqDecision A} :
  EqDecision (outcome E A).
Proof. solve_decision. Defined.

(** The computation ends, with a value or with an error of its own. *)
Definition safe {E A} (m : outcome E A) : Prop :=
  match m with Ret _ | Fail _ => True | Panic | OutOfFuel => False end.

(** A computation with no error of its own. *)
Abbreviation result := (outcome Empty_set).

Definition is_ret {E A} (m : outcome E A) : bool :=
  match m with Ret _ => true | _ => false end.

(** [Option::ok_or] of the standard library. *)
Definition ok_or {E A} (o : option A) (e : E) : outcome E A :=
  match o with Some a => Ret a | None => Fail e end.

(** * Machine integers *)

Definition u8_max : Z := 2 ^ 8 - 1.
Definition u32_max : Z := 2 ^ 32 - 1.
Definition u64_max : Z := 2 ^ 64 - 1.
Definition i32_min : Z := - 2 ^ 31.
Definition i32_max : Z := 2 ^ 31 - 1.

Definition is_u8 (z : Z) : Prop := 0 ≤ z < 2 ^ 8.
Definition is_u32 (z : Z) : Prop := 0 ≤ z < 2 ^ 32.
Definition is_u64 (z : Z) : Prop := 0 ≤ z < 2 ^ 64.
Definition is_u128 (z : Z) : Prop := 0 ≤ z < 2 ^ 128.
Definition is_i32 (z : Z) : Prop := - 2 ^ 31 ≤ z < 2 ^ 31.

#[global] Instance is_u8_dec z : Decision (is_u8 z).
Proof. unfold is_u8. apply _. Defined.
#[global] Instance is_u32_dec z : Decision (is_u32 z).
Proof. unfold is_u32. apply _. Defined.
#[global] Instance is_u64_dec z : Decision (is_u64 z).
Proof. unfold is_u64. apply _. Defined.
#[global] Instance is_u128_dec z : Decision (is_u128 z).
Proof. unfold is_u128. apply _. Defined.
#[global] Instance is_i32_dec z : Decision (is_i32 z).
Proof. unfold is_i32. apply _. Defined.

(** [u32::checked_add] and [u32::checked_mul]. *)
Definition u32_checked_add (a b : Z) : option Z :=
  if a + b <=? u32_max then Some (a + b) else None.
Definition u32_checked_mul (a b : Z) : option Z :=
  if a * b <=? u32_max then Some (a * b) else None.

(** The plain [+] and [*] on [u32], which panic on overflow in a checked
    build. *)
Definition u32_add {E} (a b : Z) : outcome E Z :=
  if a + b <=? u32_max then Ret (a + b) else Panic.
Definition u32_mul {E} (a b : Z) : outcome E Z :=
  if a * b <=? u32_max then Ret (a * b) else Panic.

(** The plain [+], [-] and [*] on [u64] and [usize], and [-] on [u32]. *)
Definition u64_add {E} (a b : Z) : outcome E Z :=
  if a + b <=? u64_max then Ret (a + b) else Panic.
Definition u64_sub {E} (a b : Z) : outcome E Z := if b <=? a then Ret (a - b) else Panic.
Definition u64_mul {E} (a b : Z) : outcome E Z :=
  if a * b <=? u64_max then Ret (a * b) else Panic.
Definition u32_sub {E} (a b : Z) : outcome E Z := if b <=? a then Ret (a - b) else Panic.

(** Bitwise [!] on [u32]. *)
Definition u32_not (a : Z) : Z := Z.lxor a u32_max.

(** [u64::saturating_add], [u32::saturating_sub], [u32::wrapping_add]. *)
Definition u64_saturating_add (a b : Z) : Z := Z.min (a + b) u64_max.
Definition u32_saturating_sub (a b : Z) : Z := Z.max (a - b) 0.
Definition u32_wrapping_add (a b : Z) : Z := (a + b) mod 2 ^ 32.

(** [usize::checked_add], on a 64-bit target. *)
Definition usize_checked_add (a b : Z) : option Z :=
  if a + b <=? u64_max then Some (a + b) else None.

(** [u64::checked_add] and [u64::checked_mul], and the cast of a length to
    [u32] and [u16]. *)
Definition u64_checked_add (a b : Z) : option Z := if a + b <=? u64_max then Some (a + b) else None.
Definition u64_checked_mul (a b : Z) : option Z := if a * b <=? u64_max then Some (a * b) else None.
(** [+] and [-] on [i32]. *)
Definition i32_add {E} (a b : Z) : outcome E Z :=
  if (i32_min <=? a + b) && (a + b <=? i32_max) then Ret (a + b) else Panic.
Definition i32_sub {E} (a b : Z) : outcome E Z :=
  if (i32_min <=? a - b) && (a - b <=? i32_max) then Ret (a - b) else Panic.
Definition as_u32 (z : Z) : Z := z mod 2 ^ 32.
Definition as_u16 (z : Z) : Z := z mod 2 ^ 16.

(** [w as i32] on a [u32], and [w as u8]. *)
Definition u32_as_i32 (w : Z) : Z := if w <? 2 ^ 31 then w else w - 2 ^ 32.
Definition u32_as_u8 (w : Z) : Z := w mod 2 ^ 8.

(** * Slices *)

Abbreviation lenZ l := (Z.of_nat (length l)).

(** [l[i]]: panics out of range. *)
Definition idx {E A} (l : list A) (i : Z) : outcome E A :=
  match l !! Z.to_nat i with Some x => Ret x | None => Panic end.

(** The elements of [l] at positions [lo..hi]. *)
Definition sub {A} (l : list A) (lo hi : Z) : list A :=
  take (Z.to_nat (hi - lo)) (drop (Z.to_nat lo) l).

(** [&l[lo..hi]]: panics when the range is reversed or runs past the end. *)
Definition slice {E A} (l : list A) (lo hi : Z) : outcome E (list A) :=
  if (0 <=? lo) && (lo <=? hi) && (hi <=? lenZ l) then Ret (sub l lo hi) else Panic.

(** [l[i] = x] on a fixed-size array. *)
Definition set_idx {E A} (l : list A) (i : Z) (x : A) : outcome E (list A) :=
  if (0 <=? i) && (i <? lenZ l) then Ret (<[Z.to_nat i := x]> l) else Panic.

(** [l[at..at + bs.len()].copy_from_slice(bs)]. *)
Definition copy_from_slice {E A} (l : list A) (at_ : Z) (bs : list A) : outcome E (list A) :=
  if (0 <=? at_) && (at_ + lenZ bs <=? lenZ l)
  then Ret (take (Z.to_nat at_) l ++ bs ++ drop (Z.to_nat (at_ + lenZ bs)) l)
  else Panic.

Definition zeros (n : Z) : list Z := replicate (Z.to_nat n) 0.

(** * Little-endian integers *)

(** [to_le_bytes] and [from_le_bytes]: an integer is a list of bytes, the least
    significant first. *)
Fixpoint le_bytes (n : nat) (v : Z) : list Z :=
  match n with
  | O => []
  | S n => v mod 256 :: le_bytes n (v / 256)
  end.

Fixpoint le_value (l : list Z) : Z :=
  match l with
  | [] => 0
  | b :: l => b + 256 * le_value l
  end.

(** * Record updates *)

(** A record type registers the expansion of its values into their fields; the
    setter of a field is the expansion with that projection replaced.  [r <| p := v |>]
    is the Rust [r.p = v]. *)
Class Eta (R : Type) := eta : R → R.
Class Setter {R T : Type} (proj : R → T) := set_field : (T → T) → R → R.

Ltac solve_setter :=
  match goal with
  | |- @Setter ?R _ ?proj =>
      let E := constr:(_ : Eta R) in
      let e := (eval hnf in E) in
      match e with
      | context [proj] =>
          match eval pattern proj in e with
          | ?setter ?p => exact (λ f r, setter (λ x, f (p x)) r)
          end
      end
  end.
#[export] Hint Extern 1 (Setter _) => solve_setter : typeclass_instances.

Notation "r <| proj := v |>" := (set_field (proj:=proj) (λ _, v) r)
  (at level 1, left associativity, proj at level 200, v at level 200).

(** * Tactics *)

(** Break a monadic computation known to succeed into its steps. *)
Ltac inv_outcome :=
  repeat match goal with
  | H : mbind _ ?m = Ret _ |- _ =>
      let E := fresh "E" in destruct m eqn:E; simpl in H; try discriminate H
  | H : Ret _ = Ret _ |- _ => injection H; clear H; intros; subst
  | H : (if ?b then _ else _) = Ret _ |- _ =>
      let E := fresh "E" in destruct b eqn:E; try discriminate H
  | H : ok_or ?o _ = Ret _ |- _ =>
      let E := fresh "E" in destruct o eqn:E; simpl in H; try discriminate H
  end.

(** Turn boolean comparisons into propositions. *)
Ltac bool_to_prop :=
  repeat match goal with
  | H : _ && _ = true |- _ => apply andb_true_iff in H; destruct H
  | H : _ || _ = false |- _ => apply orb_false_iff in H; destruct H
  | H : negb _ = true |- _ => apply negb_true_iff in H
  | H : negb _ = false |- _ => apply negb_false_iff in H
  | H : (_ <? _) = true |- _ => apply Z.ltb_lt in H
  | H : (_ <? _) = false |- _ => apply Z.ltb_ge in H
  | H : (_ <=? _) = true |- _ => apply Z.leb_le in H
  | H : (_ <=? _) = false |- _ => apply Z.leb_gt in H
  | H : (_ =? _) = true |- _ => apply Z.eqb_eq in H
  | H : (_ =? _) = false |- _ => apply Z.eqb_neq in H
  | H : bool_decide _ = true |- _ => apply bool_decide_eq_true_1 in H
  | H : bool_decide _ = false |- _ => apply bool_decide_eq_false_1 in H
  end.

(** * Lemmas: the outcome monad *)

Lemma bind_ret {E A B} (a : A) (f : A → outcome E B) : mbind f (Ret a) = f a.
Proof. done. Qed.

Lemma Ret_inj {E A} (a b : A) : Ret (E:=E) a = Ret b → a = b.
Proof. by injection 1. Qed.

Lemma safe_bind {E A B} (m : outcome E A) (f : A → outcome E B) :
  safe m → (∀ a, m = Ret a → safe (f a)) → safe (mbind f m).
Proof. destruct m; simpl; auto. Qed.

Lemma safe_ok_or {E A} (o : option A) (e : E) : safe (ok_or o e).
Proof. by destruct o. Qed.

Lemma u64_add_ret {E} a b : a + b ≤ u64_max → u64_add (E:=E) a b = Ret (a + b).
Proof. intros. unfold u64_add. by rewrite (proj2 (Z.leb_le _ _)). Qed.
Lemma u64_sub_ret {E} a b : b ≤ a → u64_sub (E:=E) a b = Ret (a - b).
Proof. intros. unfold u64_sub. by rewrite (proj2 (Z.leb_le _ _)). Qed.
Lemma u64_mul_ret {E} a b : a * b ≤ u64_max → u64_mul (E:=E) a b = Ret (a * b).
Proof. intros. unfold u64_mul. by rewrite (proj2 (Z.leb_le _ _)). Qed.
Lemma u32_add_ret {E} a b : a + b ≤ u32_max → u32_add (E:=E) a b = Ret (a + b).
Proof. intros. unfold u32_add. by rewrite (proj2 (Z.leb_le _ _)). Qed.
Lemma u32_sub_ret {E} a b : b ≤ a → u32_sub (E:=E) a b = Ret (a - b).
Proof. intros. unfold u32_sub. by rewrite (proj2 (Z.leb_le _ _)). Qed.
Lemma i32_add_ret {E} a b : i32_min ≤ a + b ≤ i32_max → i32_add (E:=E) a b = Ret (a + b).
Proof.
  intros. unfold i32_add. rewrite (proj2 (Z.leb_le _ _)), (proj2 (Z.leb_le (a + b) _)) by lia. done.
Qed.
Lemma i32_sub_ret {E} a b : i32_min ≤ a - b ≤ i32_max → i32_sub (E:=E) a b = Ret (a - b).
Proof.
  intros. unfold i32_sub. rewrite (proj2 (Z.leb_le _ _)), (proj2 (Z.leb_le (a - b) _)) by lia. done.
Qed.
Lemma as_u32_small z : 0 ≤ z < 2 ^ 32 → as_u32 z = z.
Proof. apply Z.mod_small. Qed.
Lemma as_u16_small z : 0 ≤ z < 2 ^ 16 → as_u16 z = z.
Proof. apply Z.mod_small. Qed.

(** * Lemmas: slices *)

Lemma length_sub {A} (l : list A) lo hi :
  0 ≤ lo → lo ≤ hi → hi ≤ lenZ l → lenZ (sub l lo hi) = hi - lo.
Proof. intros. unfold sub. rewrite length_take, length_drop. lia. Qed.

Lemma sub_app_split {A} (l : list A) a b c :
  0 ≤ a → a ≤ b → b ≤ c → sub l a c = sub l a b ++ sub l b c.
Proof.
  intros. unfold sub.
  rewrite <- (take_drop (Z.to_nat (b - a)) (take (Z.to_nat (c - a)) (drop (Z.to_nat a) l))).
  rewrite take_take, skipn_firstn_comm, drop_drop.
  f_equal; [f_equal; lia|]. f_equal; [lia|f_equal; lia].
Qed.

Lemma sub_all {A} (l : list A) n : n = lenZ l → sub l 0 n = l.
Proof. intros ->. unfold sub. rewrite drop_0. apply take_ge. lia. Qed.

Lemma sub_app_r {A} (p l : list A) lo hi :
  lenZ p ≤ lo → lo ≤ hi → sub (p ++ l) lo hi = sub l (lo - lenZ p) (hi - lenZ p).
Proof.
  intros. unfold sub. rewrite drop_app_ge by lia.
  f_equal; [lia|]. f_equal. lia.
Qed.

Lemma sub_app_l {A} (l p : list A) lo hi :
  0 ≤ lo → hi ≤ lenZ l → sub (l ++ p) lo hi = sub l lo hi.
Proof.
  intros. destruct (decide (hi ≤ lo)) as [|Hlt].
  { unfold sub. replace (Z.to_nat (hi - lo)) with 0%nat by lia. done. }
  unfold sub. rewrite drop_app_le by lia. rewrite take_app_le; [done|].
  rewrite length_drop. lia.
Qed.

Lemma sub_mid {A} (p m s : list A) lo hi :
  lo = lenZ p → hi = lo + lenZ m → sub (p ++ m ++ s) lo hi = m.
Proof.
  intros -> ->. rewrite sub_app_r by lia.
  replace (lenZ p - lenZ p) with 0 by lia.
  rewrite sub_app_l by lia. apply sub_all. lia.
Qed.

Lemma sub_suffix {A} (p m : list A) lo hi :
  lo = lenZ p → hi = lo + lenZ m → sub (p ++ m) lo hi = m.
Proof.
  intros -> ->. pose proof (sub_mid p m [] (lenZ p) (lenZ p + lenZ m)) as H.
  rewrite app_nil_r in H. auto.
Qed.

Lemma slice_ret {E A} (l : list A) lo hi :
  0 ≤ lo → lo ≤ hi → hi ≤ lenZ l → slice (E:=E) l lo hi = Ret (sub l lo hi).
Proof.
  intros. unfold slice.
  rewrite (proj2 (Z.leb_le 0 lo)), (proj2 (Z.leb_le lo hi)), (proj2 (Z.leb_le hi _)) by lia.
  done.
Qed.

Lemma slice_inv {E A} (l r : list A) lo hi :
  slice (E:=E) l lo hi = Ret r → 0 ≤ lo ∧ lo ≤ hi ∧ hi ≤ lenZ l ∧ r = sub l lo hi.
Proof. unfold slice. intros. inv_outcome. bool_to_prop. repeat split; auto; lia. Qed.

Lemma idx_ret {E A} (l : list A) i :
  0 ≤ i → i < lenZ l → ∃ x, idx (E:=E) l i = Ret x ∧ l !! Z.to_nat i = Some x.
Proof.
  intros. destruct (lookup_lt_is_Some_2 l (Z.to_nat i)) as [x Hx]; [lia|].
  exists x. unfold idx. by rewrite Hx.
Qed.

Lemma copy_mid {E A} (p m s bs : list A) at_ :
  at_ = lenZ p → length m = length bs →
  copy_from_slice (E:=E) (p ++ m ++ s) at_ bs = Ret (p ++ bs ++ s).
Proof.
  intros -> Hl. unfold copy_from_slice. rewrite !length_app.
  rewrite (proj2 (Z.leb_le 0 _)) by lia. rewrite (proj2 (Z.leb_le _ _)) by lia. simpl.
  rewrite take_app_length' by lia.
  rewrite drop_app_ge by lia. rewrite drop_app_length' by lia. done.
Qed.

Lemma length_zeros n : 0 ≤ n → lenZ (zeros n) = n.
Proof. intros. unfold zeros. rewrite length_replicate. lia. Qed.

Lemma zeros_app a b : 0 ≤ a → 0 ≤ b → zeros (a + b) = zeros a ++ zeros b.
Proof. intros. unfold zeros. rewrite Z2Nat.inj_add by lia. apply replicate_add. Qed.

Lemma all_zero_zeros (l : list Z) n :
  existsb (λ b, negb (b =? 0)) l = false → lenZ l = n → l = zeros n.
Proof.
  intros H <-. unfold zeros. rewrite Nat2Z.id.
  induction l as [|b l IH]; simpl in *; [done|]. bool_to_prop. subst.
  f_equal. auto.
Qed.

Lemma zeros_all_zero n : existsb (λ b, negb (b =? 0)) (zeros n) = false.
Proof. unfold zeros. induction (Z.to_nat n); simpl; auto. Qed.

(** * Lemmas: little-endian integers *)

Lemma length_le_bytes n v : length (le_bytes n v) = n.
Proof. revert v. induction n; cbn [le_bytes length]; auto. Qed.

Lemma le_bytes_bytes n v : Forall is_u8 (le_bytes n v).
Proof.
  revert v. induction n; cbn [le_bytes]; constructor; auto.
  unfold is_u8. apply Z.mod_pos_bound. lia.
Qed.

Lemma le_value_le_bytes n v : le_value (le_bytes n v) = v mod 256 ^ Z.of_nat n.
Proof.
  revert v. induction n as [|n IH]; intros v; cbn [le_bytes le_value].
  { by rewrite Z.mod_1_r. }
  rewrite IH, Nat2Z.inj_succ, Z.pow_succ_r, Z.rem_mul_r by lia. lia.
Qed.

Lemma le_value_roundtrip n v :
  0 ≤ v < 256 ^ Z.of_nat n → le_value (le_bytes n v) = v.
Proof. intros. rewrite le_value_le_bytes. by apply Z.mod_small. Qed.

Lemma le_value_bound l : Forall is_u8 l → 0 ≤ le_value l < 256 ^ lenZ l.
Proof.
  induction 1 as [|b l Hb _ IH]; [simpl; lia|].
  cbn [le_value length]. rewrite Nat2Z.inj_succ, Z.pow_succ_r by lia.
  unfold is_u8 in Hb. lia.
Qed.

Lemma le_bytes_le_value l : Forall is_u8 l → le_bytes (length l) (le_value l) = l.
Proof.
  induction 1 as [|b l Hb _ IH]; [done|]. cbn [le_bytes length le_value].
  unfold is_u8 in Hb.
  replace ((b + 256 * le_value l) mod 256) with b
    by (rewrite (Z.mul_comm 256), Z_mod_plus_full, Z.mod_small; lia).
  replace ((b + 256 * le_value l) / 256) with (le_value l)
    by (rewrite (Z.mul_comm 256), Z_div_plus_full, (Z.div_small b); lia).
  by rewrite IH.
Qed.

Lemma sub_Forall {A} (P : A → Prop) l lo hi : Forall P l → Forall P (sub l lo hi).
Proof. intros. unfold sub. by apply Forall_take, Forall_drop. Qed.

#[global] Hint Resolve le_bytes_bytes sub_Forall : core.

Arguments le_bytes : simpl never.
Arguments le_value : simpl never.
Arguments zeros : simpl never.
Arguments sub : simpl never.
Arguments slice : simpl never.
Arguments idx : simpl never.
