(* ===== verification/Text.v ===== *)
(** Strings as the code sees them: UTF-8 bytes, with the operations of the
    standard library's [str] that the modelled code calls. *)
From stdpp Require Import pretty sorting.
From S2P Require Import Prelude.
Open Scope Z_scope.

Definition text : Type := list Z.

(** A literal. *)
Definition str (s : string) : text :=
  (λ c, Z.of_N (Ascii.N_of_ascii c)) <$> String.list_ascii_of_string s.

(** [strip_prefix] and [strip_suffix]. *)
Fixpoint strip_prefix {A} `{EqDecision A} (p s : list A) : option (list A) :=
  match p, s with
  | [], s => Some s
  | a :: p, b :: s => if decide (a = b) then strip_prefix p s else None
  | _ :: _, [] => None
  end.

Definition strip_suffix {A} `{EqDecision A} (p s : list A) : option (list A) :=
  reverse <$> strip_prefix (reverse p) (reverse s).

Definition starts_with {A} `{EqDecision A} (p s : list A) : bool :=
  if strip_prefix p s is Some _ then true else false.
Definition ends_with {A} `{EqDecision A} (p s : list A) : bool :=
  if strip_suffix p s is Some _ then true else false.

(** [split(c)]: the pieces between separators, one more than there are. *)
Fixpoint split_on (c : Z) (s : text) : list text :=
  match s with
  | [] => [[]]
  | a :: s =>
      if a =? c then [] :: split_on c s else
      match split_on c s with
      | piece :: pieces => (a :: piece) :: pieces
      | [] => [[a]]
      end
  end.

(** [trim_start_matches] and [trim_end_matches], of any byte of [cs]. *)
Fixpoint trim_start (cs s : text) : text :=
  match s with
  | [] => []
  | a :: s' => if bool_decide (a ∈ cs) then trim_start cs s' else s
  end.
Definition trim_end (cs s : text) : text := reverse (trim_start cs (reverse s)).

Definition is_ascii_digit (b : Z) : bool := (48 <=? b) && (b <=? 57).
Definition is_ascii_lowercase (b : Z) : bool := (97 <=? b) && (b <=? 122).
Definition is_ascii_uppercase (b : Z) : bool := (65 <=? b) && (b <=? 90).
Definition byte_to_ascii_uppercase (b : Z) : Z := if is_ascii_lowercase b then b - 32 else b.
Definition byte_to_ascii_lowercase (b : Z) : Z := if is_ascii_uppercase b then b + 32 else b.
Definition to_ascii_uppercase (s : text) : text := byte_to_ascii_uppercase <$> s.
Definition to_ascii_lowercase (s : text) : text := byte_to_ascii_lowercase <$> s.

(** [to_string] of an integer. *)
Definition to_string (z : Z) : text := str (pretty z).

(** * Lemmas *)

Lemma strip_prefix_Some {A} `{EqDecision A} (p s r : list A) : strip_prefix p s = Some r ↔ s = p ++ r.
Proof.
  revert s. induction p as [|a p IH]; intros [|b s]; cbn [strip_prefix app]; try naive_solver.
  destruct (decide (a = b)) as [->|]; [rewrite IH|]; naive_solver.
Qed.

Lemma strip_prefix_app {A} `{EqDecision A} (p r : list A) : strip_prefix p (p ++ r) = Some r.
Proof. by apply strip_prefix_Some. Qed.

Lemma starts_with_spec {A} `{EqDecision A} (p s : list A) : starts_with p s = true ↔ ∃ r, s = p ++ r.
Proof.
  unfold starts_with. destruct (strip_prefix p s) as [r|] eqn:E.
  - apply strip_prefix_Some in E. naive_solver.
  - split; [done|]. intros [r ->]. by rewrite strip_prefix_app in E.
Qed.

Lemma starts_with_app {A} `{EqDecision A} (p r : list A) : starts_with p (p ++ r) = true.
Proof. apply starts_with_spec. eauto. Qed.

Lemma strip_suffix_Some {A} `{EqDecision A} (p s r : list A) : strip_suffix p s = Some r ↔ s = r ++ p.
Proof.
  unfold strip_suffix. rewrite fmap_Some. setoid_rewrite strip_prefix_Some. split.
  - intros (x & E & ->). rewrite <- (reverse_involutive s), E, reverse_app, reverse_involutive. done.
  - intros ->. exists (reverse r). by rewrite reverse_app, reverse_involutive.
Qed.

Lemma ends_with_spec {A} `{EqDecision A} (p s : list A) : ends_with p s = true ↔ ∃ r, s = r ++ p.
Proof.
  unfold ends_with. destruct (strip_suffix p s) as [r|] eqn:E.
  - apply strip_suffix_Some in E. naive_solver.
  - split; [done|]. intros [r Hr]. apply strip_suffix_Some in Hr. congruence.
Qed.

Lemma split_on_nonempty c s : split_on c s ≠ [].
Proof. destruct s as [|a s]; cbn [split_on]; [done|]. destruct (a =? c); [done|]. by destruct (split_on c s). Qed.

(** No piece has a separator, and every byte of a piece is a byte of the text. *)
Lemma split_on_pieces c s : Forall (λ p, (c ∉ p) ∧ p ⊆ s) (split_on c s).
Proof.
  induction s as [|a s IH]; cbn [split_on].
  - apply Forall_singleton. split; [apply not_elem_of_nil|done].
  - destruct (Z.eqb_spec a c) as [->|Ha].
    + apply Forall_cons. split; [split; [apply not_elem_of_nil|set_solver]|].
      eapply Forall_impl; [exact IH|]. cbn. intros p [H1 H2]. split; [done|set_solver].
    + destruct (split_on c s) as [|p ps]; [apply Forall_singleton; set_solver|].
      apply Forall_cons in IH as [[H1 H2] IH]. apply Forall_cons. split; [set_solver|].
      eapply Forall_impl; [exact IH|]. cbn. intros q [H3 H4]. split; [done|set_solver].
Qed.

Lemma split_on_none c s : c ∉ s → split_on c s = [s].
Proof.
  induction s as [|a s IH]; cbn [split_on]; [done|]. intros [Ha Hs]%not_elem_of_cons.
  destruct (Z.eqb_spec a c); [congruence|]. by rewrite (IH Hs).
Qed.

(** Splitting at a separator. *)
Lemma split_on_app c s1 s2 : c ∉ s1 → split_on c (s1 ++ c :: s2) = s1 :: split_on c s2.
Proof.
  induction s1 as [|a s1 IH]; cbn [split_on app].
  - by rewrite Z.eqb_refl.
  - intros [Ha Hs]%not_elem_of_cons. destruct (Z.eqb_spec a c); [congruence|]. by rewrite (IH Hs).
Qed.

Lemma str_inj s1 s2 : str s1 = str s2 → s1 = s2.
Proof.
  unfold str. intros E. rewrite <- (String.string_of_list_ascii_of_string s1),
    <- (String.string_of_list_ascii_of_string s2). f_equal.
  apply (list_fmap_eq_inj (λ c, Z.of_N (Ascii.N_of_ascii c))) in E; [done|].
  intros a b Hab%N2Z.inj. by rewrite <- (Ascii.ascii_N_embedding a), Hab, Ascii.ascii_N_embedding.
Qed.

Lemma to_string_inj a b : to_string a = to_string b → a = b.
Proof. intros E%str_inj. by apply (inj pretty) in E. Qed.

(** ** Joining *)

(** [join], of the pieces with a separator. *)
Fixpoint join_on (c : Z) (pieces : list text) : text :=
  match pieces with
  | [] => []
  | [p] => p
  | p :: pieces => p ++ c :: join_on c pieces
  end.

Lemma join_on_cons c p ps : ps ≠ [] → join_on c (p :: ps) = p ++ c :: join_on c ps.
Proof. by destruct ps. Qed.

Lemma split_on_join c ps :
  ps ≠ [] → Forall (λ p, c ∉ p) ps → split_on c (join_on c ps) = ps.
Proof.
  induction ps as [|p ps IH]; [done|]. intros _ [Hp Hps]%Forall_cons.
  destruct (decide (ps = [])) as [->|Hne].
  - by apply split_on_none.
  - rewrite join_on_cons by done. rewrite split_on_app by done. by rewrite IH.
Qed.

Lemma join_split_on c s : join_on c (split_on c s) = s.
Proof.
  induction s as [|a s IH]; cbn [split_on]; [done|].
  pose proof (split_on_nonempty c s) as Hne. destruct (Z.eqb_spec a c) as [->|].
  - rewrite join_on_cons by done. by rewrite IH.
  - destruct (split_on c s) as [|p ps]; [done|]. destruct ps as [|q ps]; cbn in IH |- *; by rewrite <- IH.
Qed.

Lemma elem_of_join_on c ps b : b ∈ join_on c ps → b = c ∨ ∃ p, p ∈ ps ∧ b ∈ p.
Proof.
  induction ps as [|p ps IH]; [by intros ?%elem_of_nil|].
  destruct (decide (ps = [])) as [->|Hne]; [set_solver|].
  rewrite join_on_cons by done. set_solver.
Qed.

(** ** UTF-8 *)

(** Between two characters, or inside one: the next byte lies in [lo..hi], and
    [more] continuation bytes follow it. *)
Inductive utf8_state := Boundary | Within (lo hi : Z) (more : nat).
#[global] Instance utf8_state_eq_dec : EqDecision utf8_state.
Proof. solve_decision. Defined.

Definition utf8_first (b : Z) : option utf8_state :=
  if (0 <=? b) && (b <? 0x80) then Some Boundary
  else if (0xC2 <=? b) && (b <=? 0xDF) then Some (Within 0x80 0xBF 0)
  else if b =? 0xE0 then Some (Within 0xA0 0xBF 1)
  else if b =? 0xED then Some (Within 0x80 0x9F 1)
  else if (0xE1 <=? b) && (b <=? 0xEF) then Some (Within 0x80 0xBF 1)
  else if b =? 0xF0 then Some (Within 0x90 0xBF 2)
  else if (0xF1 <=? b) && (b <=? 0xF3) then Some (Within 0x80 0xBF 2)
  else if b =? 0xF4 then Some (Within 0x80 0x8F 2)
  else None.

Definition utf8_step (st : option utf8_state) (b : Z) : option utf8_state :=
  match st with
  | None => None
  | Some Boundary => utf8_first b
  | Some (Within lo hi more) =>
      if (lo <=? b) && (b <=? hi)
      then Some match more with O => Boundary | S more => Within 0x80 0xBF more end
      else None
  end.

(** [str::from_utf8] accepts. *)
Definition utf8 (s : text) : bool := bool_decide (foldl utf8_step (Some Boundary) s = Some Boundary).

Lemma utf8_stuck s : foldl utf8_step None s = None.
Proof. by induction s. Qed.

(** A state inside a character waits for a byte that is not ASCII. *)
Definition waits (st : option utf8_state) : Prop :=
  match st with Some (Within lo _ _) => 0x80 ≤ lo | _ => True end.

Lemma utf8_step_waits st b : waits st → waits (utf8_step st b).
Proof.
  destruct st as [[|lo hi more]|]; cbn [utf8_step]; intros H; [|destruct (_ && _); [destruct more; cbn; lia|done]|done].
  unfold utf8_first. repeat case_match; cbn; lia || done.
Qed.

Lemma utf8_steps_wait s : ∀ st, waits st → waits (foldl utf8_step st s).
Proof. induction s as [|b s IH]; intros st Hst; [done|]. cbn [foldl]. by apply IH, utf8_step_waits. Qed.

(** An ASCII byte separates: both sides are texts of their own. *)
Lemma utf8_ascii_split s1 c s2 : 0 ≤ c < 0x80 → utf8 (s1 ++ c :: s2) = utf8 s1 && utf8 s2.
Proof.
  intros Hc. unfold utf8. rewrite foldl_app. cbn [foldl].
  pose proof (utf8_steps_wait s1 (Some Boundary) I) as Hw.
  destruct (foldl utf8_step (Some Boundary) s1) as [[|lo hi more]|]; cbn [utf8_step].
  - unfold utf8_first. rewrite (proj2 (Z.leb_le 0 c)), (proj2 (Z.ltb_lt c 128)) by lia. cbn [andb].
    by rewrite (bool_decide_true (Some Boundary = Some Boundary)).
  - cbn in Hw. rewrite (proj2 (Z.leb_gt lo c)) by lia. cbn [andb].
    rewrite utf8_stuck, (bool_decide_eq_false_2 (None = _)) by done.
    by rewrite (bool_decide_eq_false_2 (Some (Within lo hi more) = _)) by done.
  - by rewrite utf8_stuck, bool_decide_eq_false_2.
Qed.

Lemma utf8_split_on c s : 0 ≤ c < 0x80 → utf8 s = true → Forall (λ p, utf8 p = true) (split_on c s).
Proof.
  intros Hc. rewrite <- (join_split_on c s) at 1. generalize (split_on c s). intros ps.
  induction ps as [|p ps IH]; [constructor|].
  destruct (decide (ps = [])) as [->|Hne]; [by intros ?; apply Forall_singleton|].
  rewrite join_on_cons, utf8_ascii_split by done. intros [Hp Hps]%andb_true_iff. constructor; auto.
Qed.

Lemma utf8_join_on c ps : 0 ≤ c < 0x80 → Forall (λ p, utf8 p = true) ps → utf8 (join_on c ps) = true.
Proof.
  intros Hc. induction 1 as [|p ps Hp Hps IH]; [by vm_compute|].
  destruct (decide (ps = [])) as [->|Hne]; [done|].
  rewrite join_on_cons, utf8_ascii_split by done. by rewrite Hp, IH.
Qed.

(** ** Order *)

(** [cmp] on [str]: byte by byte, a prefix first. *)
Fixpoint text_leb (s t : text) : bool :=
  match s, t with
  | [], _ => true
  | _ :: _, [] => false
  | a :: s, b :: t => if a =? b then text_leb s t else a <? b
  end.

Lemma text_leb_refl s : text_leb s s = true.
Proof. induction s as [|a s IH]; cbn [text_leb]; [done|]. by rewrite Z.eqb_refl. Qed.

Lemma text_leb_total s t : text_leb s t = true ∨ text_leb t s = true.
Proof.
  revert t. induction s as [|a s IH]; intros [|b t]; cbn [text_leb]; auto.
  rewrite (Z.eqb_sym b a). destruct (Z.eqb_spec a b); [apply IH|]. rewrite !Z.ltb_lt. lia.
Qed.

Lemma text_leb_antisym s t : text_leb s t = true → text_leb t s = true → s = t.
Proof.
  revert t. induction s as [|a s IH]; intros [|b t]; cbn [text_leb]; auto; try done.
  rewrite (Z.eqb_sym b a). destruct (Z.eqb_spec a b) as [->|]; [intros; f_equal; auto|]. rewrite !Z.ltb_lt. lia.
Qed.

Lemma text_leb_trans s t u : text_leb s t = true → text_leb t u = true → text_leb s u = true.
Proof.
  revert t u. induction s as [|a s IH]; intros [|b t] [|c u]; cbn [text_leb]; auto; try done.
  destruct (Z.eqb_spec a b), (Z.eqb_spec b c), (Z.eqb_spec a c); rewrite ?Z.ltb_lt; eauto; lia.
Qed.

(** [sort_by] on a key that is a string. *)
Section by_key.
Context {A : Type} (key : A → text).

Definition key_le (x y : A) : Prop := text_leb (key x) (key y) = true.
#[export] Instance key_le_dec x y : Decision (key_le x y).
Proof. unfold key_le. apply _. Defined.
#[export] Instance key_le_trans : Transitive key_le.
Proof. intros x y z. apply text_leb_trans. Qed.
#[export] Instance key_le_total : Total key_le.
Proof. intros x y. apply text_leb_total. Qed.

Definition sort_by_key (l : list A) : list A := sorting.merge_sort key_le l.

(** What is sorted depends on the elements only, when the keys are different. *)
Lemma sort_by_key_perm (l1 l2 : list A) : NoDup (key <$> l1) → l1 ≡ₚ l2 → sort_by_key l1 = sort_by_key l2.
Proof.
  intros Hnd Hp. unfold sort_by_key. apply (sorting.Sorted_unique_strong key_le).
  - intros x y Hx Hy Hxy Hyx. rewrite sorting.merge_sort_Permutation in Hx, Hy. rewrite <- Hp in Hy.
    pose proof (text_leb_antisym _ _ Hxy Hyx) as Hk.
    apply list_elem_of_lookup in Hx as [i Hi], Hy as [j Hj].
    assert (i = j) as ->; [|congruence]. eapply NoDup_lookup; [exact Hnd| |];
      rewrite list_lookup_fmap; [by rewrite Hi|rewrite Hj; cbn; by rewrite Hk].
  - apply sorting.Sorted_merge_sort, _.
  - apply sorting.Sorted_merge_sort, _.
  - by rewrite !sorting.merge_sort_Permutation.
Qed.
End by_key.
