(* ===== verification/Paths.v ===== *)
(** Paths of the standard library on Unix, and a filesystem to resolve them in.

    A [Path] is its components, which is what every operation the modelled code
    uses looks at.  A filesystem is inodes: a path is resolved one component at
    a time, a symbolic link in it by resolving its target in its place, at most
    [MAXSYMLINKS] times.  A process may search every directory. *)
From S2P Require Import Prelude Text.

(** * Paths *)

(** [std::path::Component]; a [Prefix] is Windows'. *)
Inductive component := RootDir | CurDir | ParentDir | Normal (name : text).

#[global] Instance component_eq_dec : EqDecision component.
Proof. solve_decision. Defined.

Definition path : Type := list component.

Definition SLASH : Z := 47.
Definition DOT : Z := 46.

(** A piece between slashes; a [.] is a component only where a path starts. *)
Definition component_of (piece : text) : option component :=
  if bool_decide (piece = []) || bool_decide (piece = [DOT]) then None
  else if bool_decide (piece = [DOT; DOT]) then Some ParentDir
  else Some (Normal piece).

(** [Path::new(s).components()]. *)
Definition components (s : text) : path :=
  let pieces := split_on SLASH s in
  let rest := omap component_of pieces in
  match s, pieces with
  | [], _ => []
  | a :: _, first :: _ =>
      if a =? SLASH then RootDir :: rest
      else if bool_decide (first = [DOT]) then CurDir :: rest else rest
  | _ :: _, [] => rest
  end.

(** [join], of a path. *)
Definition join (p q : path) : path :=
  match q with RootDir :: _ => q | _ => p ++ q end.

(** [parent] and [file_name]. *)
Definition parent (p : path) : option path :=
  match last p with
  | None | Some RootDir => None
  | Some _ => Some (removelast p)
  end.
Definition file_name (p : path) : option text :=
  match last p with Some (Normal n) => Some n | _ => None end.

(** * The filesystem *)

Inductive node :=
  | NFile
  | NLink (target : path)
  | NDir (entries : gmap text Z).

Record filesystem := { inodes : gmap Z node; root_inode : Z }.

Definition MAXSYMLINKS : nat := 40.

(** The entry of a directory. *)
Definition entry (fs : filesystem) (dir : Z) (name : text) : option Z :=
  match inodes fs !! dir with Some (NDir entries) => entries !! name | _ => None end.

(** The inode of a chain of names from an inode, and what is there; no link is
    followed. *)
Definition inode_from (fs : filesystem) (i : Z) (names : list text) : option Z :=
  foldl (λ i name, i ← i; entry fs i name) (Some i) names.
Definition node_at (fs : filesystem) (names : list text) : option node :=
  i ← inode_from fs (root_inode fs) names; inodes fs !! i.

Definition is_dir_at (fs : filesystem) (names : list text) : bool :=
  if node_at fs names is Some (NDir _) then true else false.

(** Resolution, from a directory given by its names: where the path leads, and
    how many links may still be followed.  When a file is being created, the last
    name may be missing. *)
Fixpoint walk (create : bool) (fs : filesystem) (links : nat) :
    list text → path → option (list text * nat) :=
  fix go (cwd : list text) (p : path) :=
    match p with
    | [] => Some (cwd, links)
    | RootDir :: p => go [] p
    | CurDir :: p => if is_dir_at fs cwd then go cwd p else None
    | ParentDir :: p => if is_dir_at fs cwd then go (removelast cwd) p else None
    | Normal n :: p =>
        match node_at fs (cwd ++ [n]) with
        | None =>
            if create && is_dir_at fs cwd && bool_decide (p = []) then Some (cwd ++ [n], links) else None
        | Some (NLink target) =>
            match links with
            | O => None
            | S links => walk create fs links cwd (target ++ p)
            end
        | Some _ => go (cwd ++ [n]) p
        end
    end.

(** [canonicalize] and [exists] of an absolute path. *)
Definition canonicalize (fs : filesystem) (p : path) : option (list text) :=
  fst <$> walk false fs MAXSYMLINKS [] p.
Definition exists_ (fs : filesystem) (p : path) : bool :=
  if canonicalize fs p is Some _ then true else false.

(** The path of some names from the root. *)
Definition abs (names : list text) : path := RootDir :: (Normal <$> names).

(** [symlink_metadata]: the last component is not followed. *)
Definition symlink_metadata (fs : filesystem) (p : path) : option node :=
  match last p with
  | Some (Normal n) => r ← walk false fs MAXSYMLINKS [] (removelast p); node_at fs (fst r ++ [n])
  | _ => r ← walk false fs MAXSYMLINKS [] p; node_at fs (fst r)
  end.

(** Where a file is once created, or opened for writing, through a path. *)
Definition created (fs : filesystem) (p : path) : option (list text) :=
  fst <$> walk true fs MAXSYMLINKS [] p.

(** * Lemmas *)

Lemma inode_from_snoc fs i ns n : inode_from fs i (ns ++ [n]) = (j ← inode_from fs i ns; entry fs j n).
Proof. unfold inode_from. by rewrite foldl_app. Qed.

Lemma inode_from_cons fs i n ns : inode_from fs i (n :: ns) = (j ← entry fs i n; inode_from fs j ns).
Proof.
  unfold inode_from. cbn [foldl mbind option_bind]. destruct (entry fs i n) as [j|]; [done|].
  cbn [mbind option_bind]. by induction ns.
Qed.

Lemma entry_dir fs i n j : entry fs i n = Some j → ∃ m, inodes fs !! i = Some (NDir m).
Proof. unfold entry. destruct (inodes fs !! i) as [[| |m]|]; try done. by eexists. Qed.

(** There is something below directories only. *)
Lemma node_at_parent fs ns n x : node_at fs (ns ++ [n]) = Some x → is_dir_at fs ns = true.
Proof.
  unfold is_dir_at, node_at. rewrite inode_from_snoc.
  destruct (inode_from fs (root_inode fs) ns) as [j|]; [|done]. cbn [mbind option_bind].
  unfold entry. by destruct (inodes fs !! j) as [[]|].
Qed.

Lemma is_dir_solid fs ns : is_dir_at fs ns = true → ∃ m, node_at fs ns = Some (NDir m).
Proof. unfold is_dir_at. destruct (node_at fs ns) as [[| |m]|]; try done. eauto. Qed.

(** A chain of names that resolves to something, and not to a link. *)
Definition solid (fs : filesystem) (ns : list text) : Prop :=
  ∃ x, node_at fs ns = Some x ∧ ∀ t, x ≠ NLink t.

Lemma is_dir_at_solid fs ns : is_dir_at fs ns = true → solid fs ns.
Proof. intros [m Hm]%is_dir_solid. by exists (NDir m). Qed.

Lemma solid_parent fs ns n : solid fs (ns ++ [n]) → solid fs ns.
Proof. intros (x & Hx & _). by apply is_dir_at_solid, (node_at_parent _ _ n x). Qed.

Lemma walk_nil create fs links cwd : walk create fs links cwd [] = Some (cwd, links).
Proof. by destruct links. Qed.

Lemma walk_cons create fs links cwd c p :
  walk create fs links cwd (c :: p) =
    match c with
    | RootDir => walk create fs links [] p
    | CurDir => if is_dir_at fs cwd then walk create fs links cwd p else None
    | ParentDir => if is_dir_at fs cwd then walk create fs links (removelast cwd) p else None
    | Normal n =>
        match node_at fs (cwd ++ [n]) with
        | None =>
            if create && is_dir_at fs cwd && bool_decide (p = []) then Some (cwd ++ [n], links) else None
        | Some (NLink target) =>
            match links with
            | O => None
            | S links => walk create fs links cwd (target ++ p)
            end
        | Some _ => walk create fs links (cwd ++ [n]) p
        end
    end.
Proof. destruct links; by destruct c. Qed.

(** A path resolves in two parts; only the last name may be missing. *)
Lemma walk_app create fs links p q :
  create = false ∨ q ≠ [] → ∀ cwd,
  walk create fs links cwd (p ++ q) =
    (r ← walk false fs links cwd p; walk create fs (snd r) (fst r) q).
Proof.
  intros Hq. revert p. induction links as [|links IHl]; intros p;
    induction p as [|c p IHp]; intros cwd; cbn [app]; try by rewrite !walk_nil.
  all: rewrite !walk_cons; destruct c as [| | |n]; [apply IHp| | |];
    [destruct (is_dir_at fs cwd); [apply IHp|done]|destruct (is_dir_at fs cwd); [apply IHp|done]|].
  all: destruct (node_at fs (cwd ++ [n])) as [[|t|m]|]; try apply IHp; try done.
  all: try (rewrite app_assoc; apply IHl).
  all: rewrite andb_false_l; destruct Hq as [->|Hq]; [done|];
    rewrite bool_decide_eq_false_2, andb_false_r; [done|]; intros [_ ?]%app_nil; done.
Qed.

Lemma walk_prefix fs links cwd p q r :
  walk false fs links cwd (p ++ q) = Some r → ∃ r', walk false fs links cwd p = Some r'.
Proof. rewrite walk_app by by left. destruct (walk false fs links cwd p) as [r'|]; [by exists r'|done]. Qed.

(** Names without a link among them lead where they say. *)
Lemma walk_names create fs links cwd ns :
  solid fs (cwd ++ ns) → walk create fs links cwd (Normal <$> ns) = Some (cwd ++ ns, links).
Proof.
  revert cwd. induction ns as [|n ns IH]; intros cwd Hs; cbn [fmap list_fmap].
  - by rewrite walk_nil, app_nil_r.
  - rewrite walk_cons. replace (cwd ++ n :: ns) with ((cwd ++ [n]) ++ ns) in * by by rewrite <- app_assoc.
    assert (solid fs (cwd ++ [n])) as (x & Hx & Hl).
    { clear IH. revert Hs. induction ns as [|m ns IH] using rev_ind; [by rewrite app_nil_r|].
      intros Hs. apply IH. apply (solid_parent _ _ m). by rewrite <- app_assoc. }
    rewrite Hx. destruct x as [|t|m]; [by apply IH|by destruct (Hl t)|by apply IH].
Qed.

Lemma solid_removelast fs ns : solid fs ns → solid fs (removelast ns).
Proof.
  induction ns as [|n ns _] using rev_ind; [done|]. rewrite removelast_last. apply solid_parent.
Qed.

(** A resolution ends at something that is not a link. *)
Lemma walk_solid fs links p : ∀ cwd r l,
  is_dir_at fs [] = true → solid fs cwd → walk false fs links cwd p = Some (r, l) → solid fs r.
Proof.
  revert p. induction links as [|links IHl]; intros p; induction p as [|c p IHp]; intros cwd r l Hroot Hcwd;
    rewrite ?walk_nil; try (by intros [= <- _]); rewrite walk_cons;
    (destruct c as [| | |n];
     [apply IHp; [done|by apply is_dir_at_solid]
     |destruct (is_dir_at fs cwd); [by apply IHp|done]
     |destruct (is_dir_at fs cwd); [apply IHp; [done|by apply solid_removelast]|done]
     |destruct (node_at fs (cwd ++ [n])) as [[|t|m]|] eqn:En; try done;
      try (apply IHp; [done|]; by eexists)]).
  by apply IHl.
Qed.

Lemma canonicalize_solid fs p c : is_dir_at fs [] = true → canonicalize fs p = Some c → solid fs c.
Proof.
  unfold canonicalize. intros Hr ([r l] & E & ->)%fmap_Some. eapply walk_solid; [done| |done].
  by apply is_dir_at_solid.
Qed.

Lemma exists_canonicalize fs p : exists_ fs p = true ↔ is_Some (canonicalize fs p).
Proof. unfold exists_. destruct (canonicalize fs p); [naive_solver|]. split; [done|by intros []]. Qed.

(** What is there is there for a creation too. *)
Lemma walk_create fs links p : ∀ cwd r,
  walk false fs links cwd p = Some r → walk true fs links cwd p = Some r.
Proof.
  revert p. induction links as [|links IHl]; intros p; induction p as [|c p IHp]; intros cwd r;
    rewrite ?walk_nil; try done; rewrite !walk_cons;
    (destruct c as [| | |n];
     [apply IHp|destruct (is_dir_at fs cwd); [apply IHp|done]|destruct (is_dir_at fs cwd); [apply IHp|done]
     |destruct (node_at fs (cwd ++ [n])) as [[|t|m]|]; try done; try apply IHp; apply IHl]).
Qed.

Lemma canonicalize_created fs p q : canonicalize fs p = Some q → created fs p = Some q.
Proof.
  unfold canonicalize, created. intros (r & Hr & ->)%fmap_Some. by rewrite (walk_create _ _ _ _ _ Hr).
Qed.

Lemma canonicalize_abs fs ns : solid fs ns → canonicalize fs (abs ns) = Some ns.
Proof. intros Hs. unfold canonicalize, abs. rewrite walk_cons, walk_names; [done|exact Hs]. Qed.
