(* ===== verification/Vfs.v ===== *)
(** The virtual file system that sandboxes a game
    ([engine/crates/shared/src/vfs/mod.rs]) and its descriptor-anchored reads
    ([vfs/unix.rs]), on Unix.

    A call of [resolve] sees one filesystem; a read by descriptors sees another
    one at each system call, whatever happens in between. *)
From S2P Require Import Prelude Text Paths.

(** * Operations, permissions, policies *)

Inductive FileOp := Read | Write | Create | Delete.

Record FilePermissions := { p_read : bool; p_write : bool; p_create : bool; p_delete : bool }.

Definition READ_ONLY : FilePermissions :=
  {| p_read := true; p_write := false; p_create := false; p_delete := false |}.
Definition READ_WRITE : FilePermissions :=
  {| p_read := true; p_write := true; p_create := true; p_delete := true |}.

Definition allows (p : FilePermissions) (op : FileOp) : bool :=
  match op with
  | Read => p_read p
  | Write => p_write p
  | Create => p_create p
  | Delete => p_delete p
  end.

Record VfsPolicy := { deny_symlinks_in_code_dir : bool; deny_symlinks_in_writable_dirs : bool }.

Definition policy_default : VfsPolicy :=
  {| deny_symlinks_in_code_dir := true; deny_symlinks_in_writable_dirs := true |}.

Inductive VfsError :=
  | PathNotAllowed
  | PermissionDenied
  | PathTraversal
  | SymlinkEscape
  | SymlinkNotAllowed
  | InvalidPath.

Inductive VfsOpenError :=
  | Policy (error : VfsError)
  | NotFound
  | NotRegularFile
  | AccessDenied
  | UnsafePath
  | OpenFailed.

#[global] Instance VfsError_eq_dec : EqDecision VfsError.
Proof. solve_decision. Defined.
#[global] Instance VfsOpenError_eq_dec : EqDecision VfsOpenError.
Proof. solve_decision. Defined.

(** [strict_root] is the inode of the pinned directory. *)
Record PathMapping := {
  virtual_prefix : text;
  real_path : path;
  canonical_base : path;
  strict_root : option Z;
  permissions : FilePermissions
}.

(** The mappings of the [HashMap], in the order it iterates them. *)
Record VirtualFS := { mappings : list PathMapping; policy : VfsPolicy }.

(** * Textual checks *)

(** [normalize_path]: a [..] takes away the component before it, the root too. *)
Definition normalize_step (components : path) (c : component) : path :=
  match c with
  | ParentDir => removelast components
  | CurDir => components
  | c => components ++ [c]
  end.
Definition normalize_path (p : path) : path := foldl normalize_step [] p.

Definition is_unsafe_windows_component (component : text) : bool :=
  if ends_with (str " ") component || ends_with (str ".") component then true else
  let stem := trim_end (str " .") (default component (head (split_on DOT component))) in
  let upper := to_ascii_uppercase stem in
  if bool_decide (upper ∈ (str <$> ["CON"; "PRN"; "AUX"; "NUL"; "CLOCK$"; "CONIN$"; "CONOUT$"]%string))
  then true
  else existsb (λ prefix,
    match strip_prefix (str prefix) upper with
    | Some suffix =>
        bool_decide (suffix ∈ (str <$> ["1"; "2"; "3"; "4"; "5"; "6"; "7"; "8"; "9"; "¹"; "²"; "³"]%string))
    | None => false
    end) ["COM"; "LPT"]%string.

Definition BACKSLASH : Z := 92.
Definition COLON : Z := 58.

Definition validate_input (virtual_path : text) : outcome VfsError unit :=
  if negb (starts_with [SLASH] virtual_path) then Fail InvalidPath
  else if existsb (λ b, (b <? 32) || (b =? BACKSLASH) || (b =? COLON)) virtual_path
  then Fail InvalidPath
  else mret tt.

Fixpoint normalize_relative (normalized : list text) (cs : path) : outcome VfsError (list text) :=
  match cs with
  | [] => mret normalized
  | Normal value :: cs =>
      if is_unsafe_windows_component value then Fail InvalidPath
      else normalize_relative (normalized ++ [value]) cs
  | CurDir :: cs => normalize_relative normalized cs
  | ParentDir :: cs =>
      match normalized with
      | [] => Fail PathTraversal
      | _ => normalize_relative (removelast normalized) cs
      end
  | RootDir :: _ => Fail InvalidPath
  end.

(** A path of a mapping: its prefix, or below it. *)
Definition selects (virtual_path : text) (m : PathMapping) : bool :=
  bool_decide (virtual_path = virtual_prefix m)
  || starts_with (virtual_prefix m ++ [SLASH]) virtual_path.

Definition is_virtual_path (v : VirtualFS) (p : text) : bool := existsb (selects p) (mappings v).

Definition resolve_textual (v : VirtualFS) (virtual_path : text) (op : FileOp) :
    outcome VfsError (PathMapping * list text) :=
  _ ← validate_input virtual_path;
  mapping ← ok_or (List.find (selects virtual_path) (mappings v)) PathNotAllowed;
  if negb (allows (permissions mapping) op) then Fail PermissionDenied else
  let relative := trim_start [SLASH] (default [] (strip_prefix (virtual_prefix mapping) virtual_path)) in
  normalized ← normalize_relative [] (components relative);
  mret (mapping, normalized).

(** * Checks on disk *)

(** [canonical_base_fresh]. *)
Definition canonical_base_fresh (fs : filesystem) (m : PathMapping) : path :=
  if exists_ fs (real_path m) then
    match canonicalize fs (real_path m) with
    | Some c => abs c
    | None => canonical_base m
    end
  else canonical_base m.

Definition should_deny_symlinks (v : VirtualFS) (m : PathMapping) : bool :=
  if p_write (permissions m) then deny_symlinks_in_writable_dirs (policy v)
  else deny_symlinks_in_code_dir (policy v).

Fixpoint check_chain (fs : filesystem) (current : path) (relative : path) : outcome VfsError unit :=
  match relative with
  | [] => mret tt
  | c :: relative =>
      let current := current ++ [c] in
      if exists_ fs current then
        meta ← ok_or (symlink_metadata fs current) InvalidPath;
        if meta is NLink _ then Fail SymlinkNotAllowed else check_chain fs current relative
      else check_chain fs current relative
  end.

Definition check_no_symlinks_in_chain (fs : filesystem) (full_path base : path) : outcome VfsError unit :=
  relative ← ok_or (strip_prefix base full_path) PathTraversal;
  check_chain fs base relative.

Definition verify_existing_path (v : VirtualFS) (fs : filesystem) (p : path) (m : PathMapping) :
    outcome VfsError unit :=
  canonical ← ok_or (canonicalize fs p) InvalidPath;
  if negb (starts_with (canonical_base_fresh fs m) (abs canonical)) then Fail SymlinkEscape else
  if should_deny_symlinks v m then check_no_symlinks_in_chain fs p (real_path m) else mret tt.

(** Up to the closest ancestor there is, with the names that are missing, the
    last one first; [None] when the walk ends at a path without a name. *)
Fixpoint closest_ancestor (fs : filesystem) (fuel : nat) (current : path) (missing_tail : list text) :
    result (option (path * list text)) :=
  match fuel with
  | O => OutOfFuel
  | S fuel =>
      if exists_ fs current then mret (Some (current, missing_tail)) else
      match file_name current with
      | None => mret None
      | Some name =>
          match parent current with
          | None => mret None
          | Some p => closest_ancestor fs fuel p (missing_tail ++ [name])
          end
      end
  end.

Definition verify_nonexistent_path (v : VirtualFS) (fs : filesystem) (p : path) (m : PathMapping) :
    outcome VfsError unit :=
  match closest_ancestor fs (S (length p)) p [] with
  | Ret None => mret tt
  | Ret (Some (current, missing_tail)) =>
      canonical_ancestor ← ok_or (canonicalize fs current) InvalidPath;
      let base_canonical := canonical_base_fresh fs m in
      if starts_with base_canonical (abs canonical_ancestor) then
        let projected := abs canonical_ancestor ++ (Normal <$> reverse missing_tail) in
        if negb (starts_with base_canonical (normalize_path projected)) then Fail PathTraversal else
        if should_deny_symlinks v m then check_no_symlinks_in_chain fs current (real_path m) else mret tt
      else if starts_with current (normalize_path (real_path m)) then mret tt
      else Fail SymlinkEscape
  | Fail e => match e with end
  | Panic => Panic
  | OutOfFuel => OutOfFuel
  end.

Definition check_real_path (v : VirtualFS) (fs : filesystem) (normalized : path) (m : PathMapping) :
    outcome VfsError unit :=
  if exists_ fs normalized then verify_existing_path v fs normalized m
  else if bool_decide (normalized ≠ real_path m) && bool_decide (normalized ≠ canonical_base m)
  then verify_nonexistent_path v fs normalized m
  else mret tt.

Definition resolve (v : VirtualFS) (fs : filesystem) (virtual_path : text) (op : FileOp) :
    outcome VfsError path :=
  r ← resolve_textual v virtual_path op;
  let '(mapping, relative) := r in
  let real := if bool_decide (relative = []) then real_path mapping
              else join (real_path mapping) (Normal <$> relative) in
  let normalized := normalize_path real in
  if negb (starts_with (canonical_base mapping) normalized)
     && negb (starts_with (normalize_path (real_path mapping)) normalized)
  then Fail PathTraversal else
  _ ← check_real_path v fs normalized mapping;
  mret normalized.

(** * Construction *)

(** [pin_root]: [open] of a directory with [O_NOFOLLOW]. *)
Definition pin_root (fs : filesystem) (base : path) : option Z :=
  names ← match last base with
          | Some (Normal n) => r ← walk false fs MAXSYMLINKS [] (removelast base); Some (fst r ++ [n])
          | _ => canonicalize fs base
          end;
  i ← inode_from fs (root_inode fs) names;
  if inodes fs !! i is Some (NDir _) then Some i else None.

Definition make_mapping (fs : filesystem) (prefix : text) (real : path) (p : FilePermissions) : PathMapping :=
  {| virtual_prefix := prefix; real_path := real;
     canonical_base := match canonicalize fs real with Some c => abs c | None => normalize_path real end;
     strict_root := pin_root fs real; permissions := p |}.

Definition with_policy (fs : filesystem) (code_dir user_data_dir cache_dir temp_dir : path)
    (p : VfsPolicy) : VirtualFS :=
  {| mappings := [make_mapping fs (str "/code") code_dir READ_ONLY;
                  make_mapping fs (str "/user") user_data_dir READ_WRITE;
                  make_mapping fs (str "/cache") cache_dir READ_WRITE;
                  make_mapping fs (str "/tmp") temp_dir READ_WRITE];
     policy := p |}.

(** [GamePaths] without its directories: a production file system wants every
    root pinned. *)
Definition try_with_policy (fs : filesystem) (code_dir user_data_dir cache_dir temp_dir : path) :
    outcome VfsOpenError VirtualFS :=
  let v := with_policy fs code_dir user_data_dir cache_dir temp_dir policy_default in
  if existsb (λ m, if strict_root m is None then true else false) (mappings v) then Fail OpenFailed
  else mret v.

(** * Reads by descriptors *)

Inductive errno := ENOENT | EACCES | EPERM | ELOOP | ENOSYS | EINVAL | EOTHER.

(** The system calls, with the flags of the code: [openat] of one name with
    [O_NOFOLLOW], a directory when asked, and [openat2] of a path with
    [RESOLVE_BENEATH] and [RESOLVE_NO_SYMLINKS].  Neither follows a link; which
    error says so is the kernel's business. *)
Class Syscalls := {
  sys_openat : filesystem → Z → text → bool → errno + Z;
  sys_openat2 : filesystem → Z → list text → errno + Z;
  openat_opens : ∀ fs d n directory i, sys_openat fs d n directory = inr i ↔
    entry fs d n = Some i ∧ ∃ x, inodes fs !! i = Some x ∧ (∀ t, x ≠ NLink t) ∧
    (directory = true → ∃ m, x = NDir m);
  openat2_opens : ∀ fs d names i, sys_openat2 fs d names = inr i →
    inode_from fs d names = Some i ∧ ∃ x, inodes fs !! i = Some x ∧ ∀ t, x ≠ NLink t;
  openat2_fails : ∀ fs d names i x, inode_from fs d names = Some i → inodes fs !! i = Some x →
    (∀ t, x ≠ NLink t) → sys_openat2 fs d names = inr i ∨
    sys_openat2 fs d names = inl ENOSYS ∨ sys_openat2 fs d names = inl EINVAL
}.

Section Descriptors.
Context {K : Syscalls}.

(** The target has [openat2]: Linux, Android. *)
Context (linux : bool).

Definition map_open_error (e : errno) : VfsOpenError :=
  match e with
  | ENOENT => NotFound
  | EACCES | EPERM => AccessDenied
  | ELOOP => UnsafePath
  | _ => OpenFailed
  end.

Fixpoint relative_components_from (components : list text) (relative : path) :
    outcome VfsOpenError (list text) :=
  match relative with
  | [] => match components with [] => Fail UnsafePath | _ => mret components end
  | Normal n :: relative => relative_components_from (components ++ [n]) relative
  | CurDir :: relative => relative_components_from components relative
  | ParentDir :: _ | RootDir :: _ => Fail UnsafePath
  end.
Definition relative_components (relative : path) : outcome VfsOpenError (list text) :=
  relative_components_from [] relative.

Definition openat (fs : filesystem) (parent_fd : Z) (component : text) (directory : bool) :
    outcome VfsOpenError Z :=
  match sys_openat fs parent_fd component directory with
  | inr fd => mret fd
  | inl e => Fail (map_open_error e)
  end.

(** [metadata] of an open descriptor. *)
Definition ensure_regular (fs : filesystem) (file : Z) : outcome VfsOpenError Z :=
  match inodes fs !! file with
  | Some NFile => mret file
  | Some _ => Fail NotRegularFile
  | None => Fail OpenFailed
  end.

(** The filesystem is [fss t] at the [t]th system call. *)
Fixpoint open_parents (fss : nat → filesystem) (t : nat) (parent : Z) (parents : list text) :
    outcome VfsOpenError (Z * nat) :=
  match parents with
  | [] => mret (parent, t)
  | component :: parents =>
      parent ← openat (fss t) parent component true;
      open_parents fss (S t) parent parents
  end.

(** [split_last], which [expect]s a component. *)
Definition open_by_descriptor_walk (fss : nat → filesystem) (t : nat) (parent : Z)
    (components : list text) : outcome VfsOpenError Z :=
  match last components with
  | None => Panic
  | Some final_component =>
      r ← open_parents fss t parent (removelast components);
      let '(parent, t) := r in
      file ← openat (fss t) parent final_component false;
      ensure_regular (fss (S t)) file
  end.

Definition open_regular (fss : nat → filesystem) (root : Z) (relative : path) : outcome VfsOpenError Z :=
  components ← relative_components relative;
  if linux then
    match sys_openat2 (fss 0%nat) root components with
    | inr file => ensure_regular (fss 1%nat) file
    | inl ENOSYS | inl EINVAL => open_by_descriptor_walk fss 1 root components
    | inl e => Fail (map_open_error e)
    end
  else open_by_descriptor_walk fss 0 root components.

Definition lift_policy {A} (m : outcome VfsError A) : outcome VfsOpenError A :=
  match m with Ret a => Ret a | Fail e => Fail (Policy e) | Panic => Panic | OutOfFuel => OutOfFuel end.

Definition open_regular_for_read (v : VirtualFS) (fss : nat → filesystem) (virtual_path : text) :
    outcome VfsOpenError Z :=
  r ← lift_policy (resolve_textual v virtual_path Read);
  let '(mapping, relative) := r in
  match relative with
  | [] => Fail NotRegularFile
  | _ =>
      root ← ok_or (strict_root mapping) OpenFailed;
      open_regular fss root (Normal <$> relative)
  end.

End Descriptors.

(** * Lemmas *)

(** ** Normal form *)

Lemma normalize_app p ns : normalize_path (p ++ (Normal <$> ns)) = normalize_path p ++ (Normal <$> ns).
Proof.
  unfold normalize_path. rewrite foldl_app. generalize (foldl normalize_step [] p).
  induction ns as [|n ns IH]; intros q; cbn [fmap list_fmap foldl]; [by rewrite app_nil_r|].
  rewrite IH. cbn [normalize_step]; by rewrite <- app_assoc.
Qed.

Definition plain (c : component) : Prop := c = RootDir ∨ ∃ n, c = Normal n.

Lemma normalize_steps_plain p : ∀ q, Forall plain q → Forall plain (foldl normalize_step q p).
Proof.
  induction p as [|c p IH]; intros q Hq; cbn [foldl]; [done|].
  apply IH. destruct c as [| | |n]; cbn [normalize_step]; [|done| |].
  - apply Forall_app. split; [done|]. apply Forall_singleton. by left.
  - destruct q as [|a q _] using rev_ind; [done|]. rewrite removelast_last. by apply Forall_app in Hq as [? _].
  - apply Forall_app. split; [done|]. apply Forall_singleton. right. by exists n.
Qed.

Lemma normalize_plain p : Forall plain (normalize_path p).
Proof. apply normalize_steps_plain. constructor. Qed.

Lemma normalize_steps_fixed p : ∀ q, Forall plain p → foldl normalize_step q p = q ++ p.
Proof.
  induction p as [|c p IH]; intros q Hp; cbn [foldl]; [by rewrite app_nil_r|].
  apply Forall_cons in Hp as [[->|[n ->]] Hp]; rewrite (IH _ Hp); cbn [normalize_step]; by rewrite <- app_assoc.
Qed.

Lemma normalize_fixed p : Forall plain p → normalize_path p = p.
Proof. apply (normalize_steps_fixed p []). Qed.

(** The base of a symlink check is a prefix only when it is normal itself. *)
Lemma strip_normalized real ns x :
  strip_prefix real (normalize_path real ++ (Normal <$> ns)) = Some x →
  normalize_path real = real ∧ x = Normal <$> ns.
Proof.
  intros E%strip_prefix_Some. assert (Forall plain real) as Hr.
  { assert (Forall plain (real ++ x)) as Hp.
    { rewrite <- E. apply Forall_app. split; [apply normalize_plain|].
      apply Forall_fmap, Forall_true. intros n. right. by exists n. }
    by apply Forall_app in Hp as [? _]. }
  rewrite (normalize_fixed _ Hr) in *. split; [done|]. by apply app_inv_head in E.
Qed.

(** ** The symlink check *)

Lemma symlink_metadata_snoc fs p n c l :
  walk false fs MAXSYMLINKS [] p = Some (c, l) → symlink_metadata fs (p ++ [Normal n]) = node_at fs (c ++ [n]).
Proof. intros Hw. unfold symlink_metadata. by rewrite last_snoc, removelast_last, Hw. Qed.

Lemma walk_snoc create fs p n c l :
  walk false fs MAXSYMLINKS [] p = Some (c, l) →
  walk create fs MAXSYMLINKS [] (p ++ [Normal n]) = walk create fs l c [Normal n].
Proof. intros Hw. rewrite walk_app by by right. by rewrite Hw. Qed.

Lemma exists_prefix fs p q : exists_ fs (p ++ q) = true → exists_ fs p = true.
Proof.
  rewrite !exists_canonicalize. unfold canonicalize. intros [x (r & Hr & _)%fmap_Some].
  destruct (walk_prefix _ _ _ _ _ _ Hr) as [r' ->]. by eexists.
Qed.

(** A path whose chain has no link below [p] is where it says it is. *)
Lemma check_chain_names fs ns : ∀ p c l,
  walk false fs MAXSYMLINKS [] p = Some (c, l) → exists_ fs (p ++ (Normal <$> ns)) = true →
  check_chain fs p (Normal <$> ns) = Ret tt →
  walk false fs MAXSYMLINKS [] (p ++ (Normal <$> ns)) = Some (c ++ ns, l).
Proof.
  induction ns as [|n ns IH]; intros p c l Hw He Hc; [by rewrite !app_nil_r|].
  cbn [fmap list_fmap check_chain] in *. replace (p ++ Normal n :: (Normal <$> ns)) with
    ((p ++ [Normal n]) ++ (Normal <$> ns)) in * by by rewrite <- app_assoc.
  replace (c ++ n :: ns) with ((c ++ [n]) ++ ns) by by rewrite <- app_assoc.
  pose proof (exists_prefix _ _ _ He) as He1. rewrite He1, (symlink_metadata_snoc _ _ _ _ _ Hw) in Hc.
  apply IH; [|done|].
  - rewrite (walk_snoc _ _ _ _ _ _ Hw), walk_cons.
    destruct (node_at fs (c ++ [n])) as [[|t|m]|]; try done; by rewrite walk_nil.
  - destruct (node_at fs (c ++ [n])) as [[|t|m]|]; done.
Qed.

(** Names that lead where they say pass the check. *)
Lemma check_chain_solid fs ns : ∀ p c l,
  walk false fs MAXSYMLINKS [] p = Some (c, l) → solid fs (c ++ ns) → check_chain fs p (Normal <$> ns) = Ret tt.
Proof.
  induction ns as [|n ns IH]; intros p c l Hw Hs; [done|]. cbn [fmap list_fmap check_chain].
  replace (c ++ n :: ns) with ((c ++ [n]) ++ ns) in Hs by by rewrite <- app_assoc.
  assert (solid fs (c ++ [n])) as (x & Hx & Hl).
  { clear IH. induction ns as [|m ns IH] using rev_ind; [by rewrite app_nil_r in Hs|].
    apply IH, (solid_parent _ _ m). by rewrite <- app_assoc. }
  assert (walk false fs MAXSYMLINKS [] (p ++ [Normal n]) = Some (c ++ [n], l)) as Hw1.
  { rewrite (walk_snoc _ _ _ _ _ _ Hw), walk_cons, Hx. destruct x as [|t|m]; [|by destruct (Hl t)|]; by rewrite walk_nil. }
  rewrite (symlink_metadata_snoc _ _ _ _ _ Hw), Hx. unfold exists_, canonicalize. rewrite Hw1. cbn.
  destruct x as [|t|m]; [|by destruct (Hl t)|]; by eapply IH.
Qed.

(** ** The walk to the closest ancestor *)

Lemma parent_snoc p n : parent (p ++ [Normal n]) = Some p.
Proof. unfold parent. by rewrite last_snoc, removelast_last. Qed.

Lemma file_name_snoc p n : file_name (p ++ [Normal n]) = Some n.
Proof. unfold file_name. by rewrite last_snoc. Qed.

Lemma closest_ancestor_answers fs fuel : ∀ p tail,
  (length p < fuel)%nat → ∃ o, closest_ancestor fs fuel p tail = Ret o.
Proof.
  induction fuel as [|fuel IH]; intros p tail Hf; [lia|]. cbn [closest_ancestor].
  destruct (exists_ fs p); [by eexists|].
  destruct p as [|c p _] using rev_ind; [by eexists|]. unfold file_name, parent. rewrite last_snoc, removelast_last.
  rewrite length_app in Hf. cbn [length] in Hf. destruct c; try by eexists. apply IH. lia.
Qed.

(** Below a directory there is, the walk stops at the longest part there is. *)
Lemma closest_ancestor_spec fs ns : ∀ fuel p tail,
  exists_ fs p = true → (length ns < fuel)%nat → ∃ k,
  closest_ancestor fs fuel (p ++ (Normal <$> ns)) tail =
    Ret (Some (p ++ (Normal <$> take k ns), tail ++ reverse (drop k ns))) ∧
  exists_ fs (p ++ (Normal <$> take k ns)) = true ∧
  ∀ n rest, drop k ns = n :: rest → exists_ fs ((p ++ (Normal <$> take k ns)) ++ [Normal n]) = false.
Proof.
  induction ns as [|n ns IH] using rev_ind; intros fuel p tail He Hf;
    (destruct fuel as [|fuel]; [lia|]); cbn [closest_ancestor].
  - rewrite app_nil_r, He. exists 0%nat. cbn. rewrite !app_nil_r. split; [done|]. split; [done|]. by intros ? ? [=].
  - rewrite fmap_app, app_assoc. cbn [fmap list_fmap].
    destruct (exists_ fs ((p ++ (Normal <$> ns)) ++ [Normal n])) eqn:En.
    + exists (length (ns ++ [n])). rewrite take_ge, drop_ge, fmap_app, app_assoc by lia. cbn.
      rewrite app_nil_r. split; [done|]. split; [done|]. by intros ? ? [=].
    + rewrite file_name_snoc, parent_snoc. rewrite length_app in Hf. cbn [length] in Hf.
      destruct (IH fuel p (tail ++ [n]) He ltac:(lia)) as (k & Hk & Hek & Hnext).
      assert (k ≤ length ns ∨ length ns < k)%nat as [Hle|Hgt] by lia.
      * exists k. rewrite Hk, take_app_le, drop_app_le, reverse_snoc, <- app_assoc by done.
        split; [done|]. split; [done|]. intros m rest Hd.
        destruct (drop k ns) as [|m' rest'] eqn:Ed; [|injection Hd as <- _; by eapply Hnext].
        injection Hd as <- _. rewrite take_ge by (apply (f_equal length) in Ed; rewrite length_drop in Ed; cbn in Ed; lia).
        done.
      * exists (length ns). rewrite Hk. rewrite (take_ge ns k), (drop_ge ns k) in * by lia.
        rewrite take_app_length, drop_app_length. split; [by rewrite reverse_nil, app_nil_r|]. split; [done|].
        by intros m rest [= <- _].
Qed.

(** ** What [resolve] answers *)

Lemma resolve_inv v fs vp op p :
  resolve v fs vp op = Ret p → ∃ m rel, resolve_textual v vp op = Ret (m, rel) ∧
    p = normalize_path (real_path m) ++ (Normal <$> rel) ∧ check_real_path v fs p m = Ret tt.
Proof.
  unfold resolve. destruct (resolve_textual v vp op) as [[m rel]|e| |]; try done. cbn [mbind outcome_bind].
  intros E. exists m, rel. split; [done|].
  assert ((if bool_decide (rel = []) then real_path m else join (real_path m) (Normal <$> rel)) =
          real_path m ++ (Normal <$> rel)) as Hj.
  { case_bool_decide as Hr; [by rewrite Hr, app_nil_r|]. by destruct rel. }
  rewrite Hj, normalize_app in E. destruct (_ && _); [done|].
  destruct (check_real_path _ _ _ _) as [[]|e| |] eqn:Ec; try done. injection E as <-. by split.
Qed.

(** A mapping whose directory is there, and is the one it was built with. *)
Record rooted (fs : filesystem) (m : PathMapping) (c : list text) : Prop := {
  rt_root : is_dir_at fs [] = true;
  rt_normal : normalize_path (real_path m) = real_path m;
  rt_there : canonicalize fs (real_path m) = Some c;
  rt_base : canonical_base m = abs c
}.

Lemma rooted_exists fs m c : rooted fs m c → exists_ fs (real_path m) = true.
Proof. intros [_ _ H _]. apply exists_canonicalize. by rewrite H. Qed.

Lemma rooted_base fs m c : rooted fs m c → canonical_base_fresh fs m = abs c.
Proof. intros H. unfold canonical_base_fresh. rewrite (rooted_exists _ _ _ H). by destruct H as [_ _ -> _]. Qed.

Lemma rooted_walk fs m c : rooted fs m c → ∃ l, walk false fs MAXSYMLINKS [] (real_path m) = Some (c, l).
Proof. intros [_ _ H _]. unfold canonicalize in H. apply fmap_Some in H as ([c' l] & H & ->). by exists l. Qed.

Lemma starts_with_abs c d : starts_with (abs c) (abs d) = true ↔ c `prefix_of` d.
Proof.
  unfold abs. rewrite starts_with_spec. cbn [app]. split.
  - intros [r E]. injection E as E. apply (f_equal (omap (λ x, if x is Normal n then Some n else None))) in E.
    rewrite omap_app in E. assert (∀ l : list text, omap (λ x, if x is Normal n then Some n else None) (Normal <$> l) = l) as Ho.
    { intros l. induction l as [|a l IH]; cbn; [done|]. by rewrite IH. }
    rewrite !Ho in E. by eexists.
  - intros [r ->]. exists (Normal <$> r). by rewrite fmap_app.
Qed.

Lemma check_no_symlinks_inv fs real ns :
  normalize_path real = real →
  check_no_symlinks_in_chain fs (real ++ (Normal <$> ns)) real = check_chain fs real (Normal <$> ns).
Proof. intros Hr. unfold check_no_symlinks_in_chain. by rewrite strip_prefix_app. Qed.

(** A path that exists and is accepted. *)
Lemma existing_accepted v fs m c rel :
  rooted fs m c → exists_ fs (real_path m ++ (Normal <$> rel)) = true →
  check_real_path v fs (real_path m ++ (Normal <$> rel)) m = Ret tt →
  (∀ q, canonicalize fs (real_path m ++ (Normal <$> rel)) = Some q → c `prefix_of` q) ∧
  (should_deny_symlinks v m = true →
   canonicalize fs (real_path m ++ (Normal <$> rel)) = Some (c ++ rel)).
Proof.
  intros Hm He. unfold check_real_path, verify_existing_path. rewrite He, (rooted_base _ _ _ Hm).
  pose proof He as [q Hq]%exists_canonicalize. rewrite Hq. cbn [ok_or mbind outcome_bind].
  destruct (starts_with (abs c) (abs q)) eqn:Es; [|done]. apply starts_with_abs in Es. cbn [negb]. intros Hc.
  split; [by intros ? [= <-]|]. intros Hd. rewrite Hd, check_no_symlinks_inv in Hc by apply Hm.
  destruct (rooted_walk _ _ _ Hm) as [l Hl].
  pose proof (check_chain_names _ _ _ _ _ Hl He Hc) as Hw. unfold canonicalize in Hq. rewrite Hw in Hq.
  cbn in Hq. congruence.
Qed.

(** What the check of a path that is missing comes to. *)
Lemma check_missing v fs m c rel :
  rooted fs m c → exists_ fs (real_path m ++ (Normal <$> rel)) = false →
  ∃ k, exists_ fs (real_path m ++ (Normal <$> take k rel)) = true ∧
    (∀ n rest, drop k rel = n :: rest →
       exists_ fs ((real_path m ++ (Normal <$> take k rel)) ++ [Normal n]) = false) ∧
    check_real_path v fs (real_path m ++ (Normal <$> rel)) m =
      (a ← ok_or (canonicalize fs (real_path m ++ (Normal <$> take k rel))) InvalidPath;
       if starts_with (abs c) (abs a) then
         if should_deny_symlinks v m then check_chain fs (real_path m) (Normal <$> take k rel) else Ret tt
       else Fail SymlinkEscape).
Proof.
  intros Hm He. pose proof Hm as [Hroot Hnorm Hthere Hbase].
  pose proof (rooted_exists _ _ _ Hm) as Hreal.
  destruct (closest_ancestor_spec fs rel (S (length (real_path m ++ (Normal <$> rel)))) (real_path m) [] Hreal)
    as (k & Hk & Hek & Hnext). { rewrite length_app, length_fmap. lia. }
  exists k. do 2 (split; [done|]). unfold check_real_path, verify_nonexistent_path.
  rewrite He, Hk, (rooted_base _ _ _ Hm), Hbase, !bool_decide_eq_true_2.
  2:{ intros E. rewrite E, (proj2 (exists_canonicalize fs (abs c))) in He; [done|].
      rewrite canonicalize_abs; [by eexists|]. by eapply canonicalize_solid. }
  2:{ intros E. congruence. }
  cbn [andb]. destruct (canonicalize fs (real_path m ++ (Normal <$> take k rel))) as [a|] eqn:Ea; [|done].
  cbn [ok_or mbind outcome_bind]. destruct (starts_with (abs c) (abs a)) eqn:Es.
  - rewrite app_nil_l, normalize_app, (normalize_fixed (abs a)).
    2:{ apply Forall_cons. split; [by left|]. apply Forall_fmap, Forall_true. intros n. right. by exists n. }
    apply starts_with_spec in Es as [r ->]. rewrite <- app_assoc, starts_with_app. cbn [negb].
    destruct (should_deny_symlinks v m); [|done]. by rewrite check_no_symlinks_inv.
  - destruct (starts_with _ (normalize_path (real_path m))) eqn:En; [|done].
    rewrite Hnorm in En. apply starts_with_spec in En as [r E].
    rewrite <- app_assoc in E. rewrite <- (app_nil_r (real_path m)) in E at 1. apply app_inv_head in E.
    destruct (take k rel) as [|x y]; [|done]. cbn [fmap list_fmap] in Ea. rewrite app_nil_r, Hthere in Ea. injection Ea as <-.
    rewrite (proj2 (starts_with_abs c c)) in Es; done.
Qed.

(** Where a creation through a missing path lands. *)
Lemma missing_created fs p c l n rest q :
  walk false fs MAXSYMLINKS [] p = Some (c, l) → exists_ fs (p ++ [Normal n]) = false →
  (∀ t, rest = [] → node_at fs (c ++ [n]) ≠ Some (NLink t)) →
  created fs (p ++ (Normal <$> n :: rest)) = Some q → q = c ++ n :: rest.
Proof.
  intros Hw He Hlink. unfold created. rewrite walk_app by by right. rewrite Hw. cbn [mbind option_bind fst snd].
  cbn [fmap list_fmap]. rewrite walk_cons.
  assert (walk false fs l c [Normal n] = None) as Hn.
  { destruct (walk false fs l c [Normal n]) as [r|] eqn:E; [|done].
    assert (exists_ fs (p ++ [Normal n]) = true); [|congruence].
    apply exists_canonicalize. unfold canonicalize. rewrite (walk_snoc _ _ _ _ _ _ Hw), E. by eexists. }
  rewrite walk_cons in Hn. destruct (node_at fs (c ++ [n])) as [[|t|d]|] eqn:En.
  - by rewrite walk_nil in Hn.
  - destruct rest as [|n' rest]; [by destruct (Hlink t)|]. destruct l as [|l]; [done|].
    rewrite app_nil_r in Hn. rewrite walk_app by by right. by rewrite Hn.
  - by rewrite walk_nil in Hn.
  - clear Hn. destruct rest; cbn [fmap list_fmap]; [|by rewrite andb_false_r].
    destruct (_ && _); [|done]. by intros [= <-].
Qed.

Lemma missing_accepted v fs m c rel q :
  rooted fs m c → exists_ fs (real_path m ++ (Normal <$> rel)) = false →
  check_real_path v fs (real_path m ++ (Normal <$> rel)) m = Ret tt → should_deny_symlinks v m = true →
  (∀ t, node_at fs (c ++ rel) ≠ Some (NLink t)) →
  created fs (real_path m ++ (Normal <$> rel)) = Some q → q = c ++ rel.
Proof.
  intros Hm He Hc Hd Hlink. destruct (check_missing v _ _ _ _ Hm He) as (k & Hek & Hnext & Hcheck).
  rewrite Hcheck in Hc. destruct (canonicalize _ _) as [a|]; [|done]. cbn [ok_or mbind outcome_bind] in Hc.
  destruct (starts_with _ _); [|done]. rewrite Hd in Hc. destruct (rooted_walk _ _ _ Hm) as [l Hl].
  pose proof (check_chain_names _ _ _ _ _ Hl Hek Hc) as Hw.
  pose proof (take_drop k rel) as Hsplit. clear Hc Hcheck.
  revert Hsplit Hnext Hw Hek. generalize (take k rel) (drop k rel). intros front back <- Hnext Hw Hek.
  rewrite fmap_app, app_assoc in *. destruct back as [|n rest]; [rewrite app_nil_r in He; congruence|].
  intros Hq. rewrite (app_assoc c front). eapply missing_created; [exact Hw|by eapply Hnext| |exact Hq].
  intros t -> Hn. by apply (Hlink t).
Qed.

(** ** Textual resolution *)

(** A name that is one component, on every system. *)
Definition portable (n : text) : Prop :=
  n ≠ [] ∧ n ≠ [DOT] ∧ n ≠ [DOT; DOT] ∧ is_unsafe_windows_component n = false ∧
  Forall (λ b, 32 ≤ b ∧ b ≠ SLASH ∧ b ≠ BACKSLASH ∧ b ≠ COLON) n.

Lemma component_names s n : Normal n ∈ components s → n ≠ [] ∧ n ≠ [DOT] ∧ n ≠ [DOT; DOT] ∧ (SLASH ∉ n) ∧ n ⊆ s.
Proof.
  intros Hn. assert (Normal n ∈ omap component_of (split_on SLASH s)) as Hin.
  { unfold components in Hn. destruct s as [|a s]; [by apply not_elem_of_nil in Hn|].
    destruct (split_on SLASH (a :: s)) as [|first rest] eqn:E; [done|].
    destruct (a =? SLASH); [by apply elem_of_cons in Hn as [[=]|?]|].
    case_bool_decide; [|done]. by apply elem_of_cons in Hn as [[=]|?]. }
  apply list_elem_of_omap in Hin as (piece & Hpiece & Hc).
  pose proof (split_on_pieces SLASH s) as Hs. rewrite Forall_forall in Hs. destruct (Hs piece Hpiece) as [H1 H2].
  unfold component_of in Hc. repeat case_bool_decide; try done. cbn in Hc. injection Hc as ->. done.
Qed.

Lemma normalize_relative_names (P : text → Prop) cs : ∀ acc r,
  (∀ n, Normal n ∈ cs → is_unsafe_windows_component n = false → P n) →
  normalize_relative acc cs = Ret r → Forall P acc → Forall P r.
Proof.
  induction cs as [|c cs IH]; intros acc r Hcs; cbn [normalize_relative]; [by intros [= <-]|].
  assert (∀ n, Normal n ∈ cs → is_unsafe_windows_component n = false → P n) as Hcs'.
  { intros n Hn. apply Hcs. set_solver. }
  destruct c as [| | |n]; [done|by apply IH| |].
  - destruct acc as [|a acc _] using rev_ind; [done|]. rewrite removelast_last.
    destruct (acc ++ [a]) eqn:E; [by destruct acc|]. intros H Ha. rewrite <- E in Ha. apply (IH _ _ Hcs' H).
    by apply Forall_app in Ha as [? _].
  - destruct (is_unsafe_windows_component n) eqn:Eu; [done|]. intros H Ha. apply (IH _ _ Hcs' H).
    apply Forall_app. split; [done|]. apply Forall_singleton. apply Hcs; [set_solver|done].
Qed.

Lemma trim_start_sub cs s : trim_start cs s ⊆ s.
Proof. induction s as [|a s IH]; cbn [trim_start]; [done|]. case_bool_decide; set_solver. Qed.

Lemma resolve_textual_inv v vp op m rel :
  resolve_textual v vp op = Ret (m, rel) →
  m ∈ mappings v ∧ selects vp m = true ∧ allows (permissions m) op = true ∧ Forall portable rel.
Proof.
  unfold resolve_textual. destruct (validate_input vp) as [[]|e| |] eqn:Ev; try done. cbn [mbind outcome_bind].
  destruct (List.find (selects vp) (mappings v)) as [m'|] eqn:Ef; [|done]. cbn [ok_or mbind outcome_bind].
  apply List.find_some in Ef as [Hin Hsel]. destruct (allows (permissions m') op) eqn:Ea; [|done]. cbn [negb].
  destruct (normalize_relative [] _) as [r|e| |] eqn:En; try done. intros [= <- <-].
  split; [by apply list_elem_of_In|]. do 2 (split; [done|]).
  eapply normalize_relative_names; [|exact En|constructor]. intros n Hn Hu.
  destruct (component_names _ _ Hn) as (H1 & H2 & H3 & H4 & H5). do 4 (split; [done|]).
  apply Forall_forall. intros b Hb. assert (b ∈ vp) as Hbv.
  { apply H5, trim_start_sub in Hb. destruct (strip_prefix (virtual_prefix m') vp) as [r0|] eqn:Es;
      [|by apply not_elem_of_nil in Hb]. apply strip_prefix_Some in Es as ->. cbn in Hb. set_solver. }
  unfold validate_input in Ev. destruct (negb _); [done|].
  destruct (existsb _ vp) eqn:Ee; [done|].
  assert (((b <? 32) || (b =? BACKSLASH) || (b =? COLON)) = false) as Hf.
  { destruct (_ || (b =? COLON)) eqn:Eb; [|done].
    rewrite <- Ee. symmetry. apply existsb_exists. exists b. split; [by apply list_elem_of_In|done]. }
  apply orb_false_iff in Hf as [[?%Z.ltb_ge ?%Z.eqb_neq]%orb_false_iff ?%Z.eqb_neq].
  split; [lia|]. split; [set_solver|]. done.
Qed.

(** ** Acceptance *)

Lemma solid_prefix fs ns ms : solid fs (ns ++ ms) → solid fs ns.
Proof.
  induction ms as [|m ms IH] using rev_ind; [by rewrite app_nil_r|]. rewrite app_assoc.
  intros Hs. by apply IH, (solid_parent _ _ m).
Qed.

Lemma solid_walk fs m c l ns :
  walk false fs MAXSYMLINKS [] (real_path m) = Some (c, l) → solid fs (c ++ ns) →
  walk false fs MAXSYMLINKS [] (real_path m ++ (Normal <$> ns)) = Some (c ++ ns, l).
Proof. intros Hw Hs. rewrite walk_app by by left. rewrite Hw. by apply walk_names. Qed.

(** A path is accepted when what there is of it is where it says it is. *)
Lemma resolve_accepts v fs vp op m rel c :
  resolve_textual v vp op = Ret (m, rel) → rooted fs m c →
  (∀ k, exists_ fs (real_path m ++ (Normal <$> take k rel)) = true → solid fs (c ++ take k rel)) →
  resolve v fs vp op = Ret (real_path m ++ (Normal <$> rel)).
Proof.
  intros Ht Hm Hs. pose proof Hm as [Hroot Hnorm Hthere Hbase]. destruct (rooted_walk _ _ _ Hm) as [l Hl].
  unfold resolve. rewrite Ht. cbn [mbind outcome_bind].
  assert ((if bool_decide (rel = []) then real_path m else join (real_path m) (Normal <$> rel)) =
          real_path m ++ (Normal <$> rel)) as ->.
  { case_bool_decide as Hr; [by rewrite Hr, app_nil_r|]. by destruct rel. }
  rewrite normalize_app, Hnorm, (starts_with_app (real_path m)), andb_false_r.
  assert (check_real_path v fs (real_path m ++ (Normal <$> rel)) m = Ret tt) as ->; [|done].
  destruct (exists_ fs (real_path m ++ (Normal <$> rel))) eqn:He.
  - pose proof (Hs (length rel)) as Hk. rewrite take_ge in Hk by lia. specialize (Hk He).
    pose proof (solid_walk _ _ _ _ _ Hl Hk) as Hw. unfold check_real_path, verify_existing_path.
    rewrite He, (rooted_base _ _ _ Hm). unfold canonicalize. rewrite Hw. cbn [fmap option_fmap option_map fst ok_or mbind outcome_bind].
    rewrite (proj2 (starts_with_abs c (c ++ rel))) by by eexists. cbn [negb].
    destruct (should_deny_symlinks v m); [|done]. rewrite check_no_symlinks_inv by done.
    by eapply check_chain_solid.
  - destruct (check_missing v _ _ _ _ Hm He) as (k & Hek & _ & ->). specialize (Hs k Hek).
    pose proof (solid_walk _ _ _ _ _ Hl Hs) as Hw. unfold canonicalize. rewrite Hw.
    cbn [fmap option_fmap option_map fst ok_or mbind outcome_bind].
    rewrite (proj2 (starts_with_abs c (c ++ take k rel))) by by eexists.
    destruct (should_deny_symlinks v m); [|done]. by eapply check_chain_solid.
Qed.

(** Without links, what there is of a path is where it says it is. *)
Lemma linkless_solid fs m c rel :
  rooted fs m c → (∀ k t, node_at fs (c ++ take k rel) ≠ Some (NLink t)) →
  ∀ k, exists_ fs (real_path m ++ (Normal <$> take k rel)) = true → solid fs (c ++ take k rel).
Proof.
  intros Hm Hlinks k He. pose proof Hm as [Hroot _ Hthere _]. destruct (rooted_walk _ _ _ Hm) as [l Hl].
  induction k as [|k IH].
  - rewrite take_0, app_nil_r. by eapply canonicalize_solid.
  - assert (take (S k) rel = take k rel ∨ ∃ n, take (S k) rel = take k rel ++ [n]) as [E|[n E]].
    { destruct (rel !! k) as [n|] eqn:En; [right; exists n; by apply take_S_r|].
      left. apply lookup_ge_None in En. by rewrite !take_ge by lia. }
    { rewrite E in *. by apply IH. }
    rewrite E, fmap_app, app_assoc in He. cbn [fmap list_fmap] in He.
    specialize (IH (exists_prefix _ _ _ He)). pose proof (solid_walk _ _ _ _ _ Hl IH) as Hw.
    apply exists_canonicalize in He. unfold canonicalize in He. rewrite (walk_snoc _ _ _ _ _ _ Hw), walk_cons in He.
    specialize (Hlinks (S k)). rewrite E, app_assoc in *.
    destruct (node_at fs _) as [x|] eqn:En; [|by destruct He]. exists x. split; [done|].
    intros t ->. by apply (Hlinks t).
Qed.

(** * Theorems *)

(** C13: a resolved path stays in its directory.  When the directory of a mapping
    is there and is the one it was built with, an accepted path is the directory's
    path with the names of the virtual path after it; whatever it resolves to is in
    the directory; and while links are denied it resolves to exactly that name in the
    directory, and a file created through it is created there, provided the name is
    not itself a link that leads nowhere. *)
Theorem resolve_stays_inside (v : VirtualFS) (fs : filesystem) (vp : text) (op : FileOp) (p : path)
    (m : PathMapping) (rel c : list text)
    (Hp : resolve v fs vp op = Ret p) (Ht : resolve_textual v vp op = Ret (m, rel)) (Hm : rooted fs m c) :
  p = real_path m ++ (Normal <$> rel) ∧
  (∀ q, canonicalize fs p = Some q → c `prefix_of` q) ∧
  (should_deny_symlinks v m = true →
   (∀ q, canonicalize fs p = Some q → q = c ++ rel) ∧
   ((∀ t, node_at fs (c ++ rel) ≠ Some (NLink t)) → ∀ q, created fs p = Some q → q = c ++ rel)).
Proof.
  destruct (resolve_inv _ _ _ _ _ Hp) as (m' & rel' & Ht' & -> & Hc). rewrite Ht in Ht'. injection Ht' as <- <-.
  pose proof Hm as [_ Hnorm _ _]. rewrite Hnorm in *. split; [done|].
  destruct (exists_ fs (real_path m ++ (Normal <$> rel))) eqn:He.
  - destruct (existing_accepted _ _ _ _ _ Hm He Hc) as [H1 H2]. split; [done|]. intros Hd.
    specialize (H2 Hd). split; [intros q; by rewrite H2; intros [= <-]|].
    intros _ q. rewrite (canonicalize_created _ _ _ H2). by intros [= <-].
  - assert (canonicalize fs (real_path m ++ (Normal <$> rel)) = None) as Hn.
    { unfold exists_ in He. by destruct (canonicalize fs _). }
    split; [by rewrite Hn|]. intros Hd. split; [by rewrite Hn|]. intros Hlink q. by eapply missing_accepted.
Qed.

(** C39: a link that leads nowhere is accepted.  With links denied, a name that is
    a symbolic link to a missing file is accepted like a missing file, since the
    check of the chain looks only at what exists, and a file created through it is
    created where the link points. *)
Theorem dangling_link_accepted (v : VirtualFS) (fs : filesystem) (vp : text) (op : FileOp)
    (m : PathMapping) (rel c : list text) (n : text) (t : path) (links : nat)
    (Ht : resolve_textual v vp op = Ret (m, rel ++ [n])) (Hm : rooted fs m c)
    (Hdir : solid fs (c ++ rel)) (Hlink : node_at fs (c ++ rel ++ [n]) = Some (NLink t))
    (Hdangling : exists_ fs (real_path m ++ (Normal <$> rel ++ [n])) = false)
    (Hleft : walk false fs MAXSYMLINKS [] (real_path m) = Some (c, S links)) :
  resolve v fs vp op = Ret (real_path m ++ (Normal <$> rel ++ [n])) ∧
  created fs (real_path m ++ (Normal <$> rel ++ [n])) = fst <$> walk true fs links (c ++ rel) t.
Proof.
  split.
  - apply (resolve_accepts v fs vp op m (rel ++ [n]) c Ht Hm). intros k Hk.
    destruct (Nat.le_gt_cases k (length rel)) as [Hle|Hgt].
    + rewrite take_app_le by done. apply (solid_prefix _ _ (drop k rel)). by rewrite <- app_assoc, take_drop.
    + rewrite take_ge in Hk by (rewrite length_app; cbn; lia). congruence.
  - unfold created. rewrite fmap_app, app_assoc, walk_app by by right.
    rewrite (solid_walk _ _ _ _ _ Hleft Hdir). cbn [mbind option_bind fst snd fmap list_fmap].
    rewrite walk_cons, <- app_assoc, Hlink, app_nil_r. done.
Qed.

(** The sandbox lets through what it should.  When the directory of a mapping
    is there and no name on the way is a link, every path that passes the textual
    rules is resolved, to the path it names, whether or not there is something. *)
Theorem resolve_complete (v : VirtualFS) (fs : filesystem) (vp : text) (op : FileOp)
    (m : PathMapping) (rel c : list text)
    (Ht : resolve_textual v vp op = Ret (m, rel)) (Hm : rooted fs m c)
    (Hlinks : ∀ k t, node_at fs (c ++ take k rel) ≠ Some (NLink t)) :
  resolve v fs vp op = Ret (real_path m ++ (Normal <$> rel)).
Proof. eapply resolve_accepts; [done|done|]. by apply linkless_solid. Qed.

(** ** Lemmas: which mapping *)

Lemma selects_prefix vp m : selects vp m = true → ∃ r, vp = virtual_prefix m ++ r.
Proof.
  unfold selects. intros [H|H]%orb_true_iff.
  - apply bool_decide_eq_true in H as ->. exists []. by rewrite app_nil_r.
  - apply starts_with_spec in H as [r ->]. exists (SLASH :: r). by rewrite <- app_assoc.
Qed.

(** No path is of two of the mappings. *)
Lemma selects_unique fs code user cache temp pol vp m m' :
  m ∈ mappings (with_policy fs code user cache temp pol) →
  m' ∈ mappings (with_policy fs code user cache temp pol) →
  selects vp m = true → selects vp m' = true → m = m'.
Proof.
  intros Hm Hm' [r ->]%selects_prefix [r' E]%selects_prefix.
  cbn [with_policy mappings] in Hm, Hm'. rewrite !elem_of_cons, elem_of_nil in Hm, Hm'.
  destruct Hm as [->|[->|[->|[->|[]]]]], Hm' as [->|[->|[->|[->|[]]]]]; try done; cbn in E; discriminate.
Qed.

Lemma find_permutation {A} (f : A → bool) (l l' : list A) :
  l ≡ₚ l' → (∀ x y, x ∈ l → y ∈ l → f x = true → f y = true → x = y) → List.find f l = List.find f l'.
Proof.
  intros Hl Hu. destruct (List.find f l) as [x|] eqn:E, (List.find f l') as [y|] eqn:E'; try done.
  - apply List.find_some in E as [H1 H2], E' as [H3 H4]. f_equal.
    apply Hu; [by apply list_elem_of_In| |done|done]. rewrite Hl. by apply list_elem_of_In.
  - apply List.find_some in E as [H1 H2]. pose proof (List.find_none _ _ E' x) as Hn. rewrite Hn in H2; [done|].
    apply list_elem_of_In. rewrite <- Hl. by apply list_elem_of_In.
  - apply List.find_some in E' as [H1 H2]. pose proof (List.find_none _ _ E y) as Hn. rewrite Hn in H2; [done|].
    apply list_elem_of_In. rewrite Hl. by apply list_elem_of_In.
Qed.

(** ** Lemmas: no panic *)

Lemma normalize_relative_safe cs : ∀ acc, safe (normalize_relative acc cs).
Proof.
  induction cs as [|[| | |n] cs IH]; intros acc; cbn [normalize_relative]; try done; try apply IH.
  - destruct acc; [done|apply IH].
  - destruct (is_unsafe_windows_component n); [done|apply IH].
Qed.

Lemma resolve_textual_safe v vp op : safe (resolve_textual v vp op).
Proof.
  unfold resolve_textual. apply safe_bind; [unfold validate_input; by repeat case_match|]. intros [] _.
  apply safe_bind; [apply safe_ok_or|]. intros m _. destruct (negb _); [done|].
  apply safe_bind; [apply normalize_relative_safe|]. by intros.
Qed.

Lemma check_chain_safe fs cs : ∀ p, safe (check_chain fs p cs).
Proof.
  induction cs as [|c cs IH]; intros p; cbn [check_chain]; [done|]. destruct (exists_ fs _); [|apply IH].
  apply safe_bind; [apply safe_ok_or|]. intros x _. destruct x; [apply IH|done|apply IH].
Qed.

Lemma check_no_symlinks_safe fs p q : safe (check_no_symlinks_in_chain fs p q).
Proof. apply safe_bind; [apply safe_ok_or|]. intros; apply check_chain_safe. Qed.

Lemma check_real_path_safe v fs p m : safe (check_real_path v fs p m).
Proof.
  unfold check_real_path. destruct (exists_ fs p).
  - apply safe_bind; [apply safe_ok_or|]. intros c _. destruct (negb _); [done|].
    destruct (should_deny_symlinks v m); [apply check_no_symlinks_safe|done].
  - destruct (_ && _); [|done]. unfold verify_nonexistent_path.
    destruct (closest_ancestor_answers fs (S (length p)) p [] ltac:(lia)) as [[[a t]|] ->]; [|done].
    apply safe_bind; [apply safe_ok_or|]. intros c _. destruct (starts_with _ (abs c)).
    + destruct (negb _); [done|]. destruct (should_deny_symlinks v m); [apply check_no_symlinks_safe|done].
    + by destruct (starts_with _ _).
Qed.

(** The textual rules.  Whatever the order the map of mappings iterates in, the
    same paths are accepted; every call is answered; an accepted path is of one of the
    mappings, allowed the operation, only reads below [/code]; and its names are single
    components on every system: not empty, no separators, no control characters, no
    dots alone, no device names. *)
Theorem resolve_textual_sound (fs0 : filesystem) (code user cache temp : path) (pol : VfsPolicy)
    (v : VirtualFS) (fs : filesystem) (vp : text) (op : FileOp)
    (Hv : mappings v ≡ₚ mappings (with_policy fs0 code user cache temp pol)) :
  safe (resolve v fs vp op) ∧
  resolve_textual v vp op = resolve_textual (with_policy fs0 code user cache temp pol) vp op ∧
  ∀ m rel, resolve_textual v vp op = Ret (m, rel) →
    m ∈ mappings v ∧ allows (permissions m) op = true ∧ Forall portable rel ∧
    (starts_with (str "/code") vp = true → op = Read ∧ real_path m = code).
Proof.
  split; [|split].
  - unfold resolve. apply safe_bind; [apply resolve_textual_safe|]. intros [m rel] _.
    destruct (_ && _); [done|]. apply safe_bind; [apply check_real_path_safe|done].
  - unfold resolve_textual. destruct (validate_input vp); [|done..]. cbn [mbind outcome_bind].
    rewrite (find_permutation _ _ _ Hv); [done|]. intros x y Hx Hy. rewrite Hv in Hx, Hy.
    by eapply selects_unique.
  - intros m rel H. destruct (resolve_textual_inv _ _ _ _ _ H) as (H1 & H2 & H3 & H4).
    do 3 (split; [done|]). intros [r' E]%starts_with_spec. rewrite Hv in H1.
    apply selects_prefix in H2 as [r E']. rewrite E in E'. cbn [with_policy mappings] in H1.
    rewrite !elem_of_cons, elem_of_nil in H1. destruct H1 as [->|[->|[->|[->|[]]]]]; cbn in E'; try discriminate.
    by destruct op.
Qed.

(** ** Lemmas: descriptors *)

Section Confinement.
Context {K : Syscalls}.

(** Nothing a directory inside names is outside, links apart, at any time. *)
Definition closed_in (fss : nat → filesystem) (inside : Z → Prop) : Prop :=
  ∀ t d n i x, inside d → entry (fss t) d n = Some i → inodes (fss t) !! i = Some x →
    (∀ target, x ≠ NLink target) → inside i.

Lemma openat_inside fss inside t d n directory i :
  closed_in fss inside → inside d → openat (fss t) d n directory = Ret i → inside i.
Proof.
  intros Hc Hd. unfold openat. destruct (sys_openat _ _ _ _) as [e|j] eqn:E; [done|]. intros [= <-].
  apply openat_opens in E as (He & x & Hx & Hl & _). by eapply Hc.
Qed.

Lemma open_parents_inside fss inside ns : ∀ t d r t',
  closed_in fss inside → inside d → open_parents fss t d ns = Ret (r, t') → inside r.
Proof.
  induction ns as [|n ns IH]; intros t d r t' Hc Hd; cbn [open_parents]; [by intros [= <- _]|].
  destruct (openat _ _ _ _) as [j|e| |] eqn:E; try done. cbn [mbind outcome_bind]. intros H.
  eapply IH; [done| |done]. by eapply openat_inside.
Qed.

Lemma ensure_regular_inv fs i j : ensure_regular fs i = Ret j → j = i ∧ inodes fs !! i = Some NFile.
Proof. unfold ensure_regular. destruct (inodes fs !! i) as [[]|]; try done. by intros [= <-]. Qed.

Lemma walk_inside fss inside t d ns i :
  closed_in fss inside → inside d → open_by_descriptor_walk fss t d ns = Ret i →
  inside i ∧ ∃ t', inodes (fss t') !! i = Some NFile.
Proof.
  intros Hc Hd. unfold open_by_descriptor_walk. destruct (last ns) as [n|]; [|done].
  destruct (open_parents _ _ _ _) as [[r t']|e| |] eqn:Ep; try done. cbn [mbind outcome_bind].
  destruct (openat _ _ _ _) as [j|e| |] eqn:Ej; try done. cbn [mbind outcome_bind].
  intros [-> Hi]%ensure_regular_inv. split; [|by eexists].
  eapply openat_inside; [done| |done]. by eapply open_parents_inside.
Qed.

(** On one filesystem the descriptors follow the names. *)
Lemma open_parents_names fs ns : ∀ t d i,
  inode_from fs d ns = Some i → (∃ m, inodes fs !! i = Some (NDir m)) →
  open_parents (λ _, fs) t d ns = Ret (i, t + length ns)%nat.
Proof.
  induction ns as [|n ns IH]; intros t d i Hi Hdir; cbn [open_parents length].
  - injection Hi as <-. by rewrite Nat.add_0_r.
  - rewrite inode_from_cons in Hi. destruct (entry fs d n) as [j|] eqn:Ej; [|done]. cbn [mbind option_bind] in Hi.
    assert (∃ m, inodes fs !! j = Some (NDir m)) as [m Hm].
    { destruct ns as [|n' ns]; [injection Hi as <-; exact Hdir|]. rewrite inode_from_cons in Hi.
      destruct (entry fs j n') as [k|] eqn:Ek; [|done]. by eapply entry_dir. }
    unfold openat. rewrite (proj2 (openat_opens fs d n true j)).
    + unfold mret, outcome_ret. rewrite bind_ret, (IH (S t) j i Hi Hdir). f_equal. f_equal. lia.
    + split; [done|]. exists (NDir m). split; [done|]. split; [done|]. by exists m.
Qed.

End Confinement.

(** The kernel's resolution stays inside too. *)
Lemma inode_from_inside {K : Syscalls} fss inside ns : ∀ t d i x,
  closed_in fss inside → inside d → inode_from (fss t) d ns = Some i → inodes (fss t) !! i = Some x →
  (∀ target, x ≠ NLink target) → inside i.
Proof.
  induction ns as [|n ns IH]; intros t d i x Hc Hd Hi Hx Hl; [by injection Hi as <-|].
  rewrite inode_from_cons in Hi. destruct (entry _ d n) as [k|] eqn:Ek; [|done]. cbn [mbind option_bind] in Hi.
  apply (IH t k i x); try done. destruct ns as [|n' ns]; [injection Hi as <-; by eapply Hc|].
  rewrite inode_from_cons in Hi. destruct (entry _ k n') as [k'|] eqn:Ek'; [|done].
  apply entry_dir in Ek' as [m Hk]. by eapply Hc.
Qed.

Lemma relative_components_names {K : Syscalls} n ns :
  relative_components (Normal <$> n :: ns) = Ret (n :: ns).
Proof.
  assert (∀ ns acc, acc ≠ [] → relative_components_from acc (Normal <$> ns) = Ret (acc ++ ns)) as H.
  { intros ms. induction ms as [|m ms IH]; intros acc Ha; cbn [fmap list_fmap relative_components_from];
      [rewrite app_nil_r; by destruct acc|]. rewrite IH by by destruct acc. by rewrite <- app_assoc. }
  by apply (H ns [n]).
Qed.

(** On one filesystem a walk reads the file that is named. *)
Lemma walk_reads {K : Syscalls} fs t root ns n i :
  inode_from fs root (ns ++ [n]) = Some i → inodes fs !! i = Some NFile →
  open_by_descriptor_walk (λ _, fs) t root (ns ++ [n]) = Ret i.
Proof.
  intros Hi Hf. unfold open_by_descriptor_walk. rewrite last_snoc, removelast_last.
  rewrite inode_from_snoc in Hi. destruct (inode_from fs root ns) as [d|] eqn:Ed; [|done].
  cbn [mbind option_bind] in Hi. pose proof (entry_dir _ _ _ _ Hi) as Hd.
  rewrite (open_parents_names _ _ _ _ _ Ed Hd), bind_ret. unfold openat.
  rewrite (proj2 (openat_opens fs d n false i)); [|split; [done|]; by exists NFile].
  unfold mret, outcome_ret. rewrite bind_ret. unfold ensure_regular. by rewrite Hf.
Qed.

(** C27: a read stays in its directory whatever happens meanwhile.  With the
    filesystem changing arbitrarily between system calls, a file that is opened is
    inside any set of inodes that holds the pinned directory and, at every moment,
    whatever its directories name without a link; and it was a regular file.  On a
    filesystem at rest, a regular file named without links is opened, the file itself. *)
Theorem open_confined {K : Syscalls} (linux : bool) (v : VirtualFS) (fss : nat → filesystem) (vp : text)
    (inside : Z → Prop)
    (Hclosed : closed_in fss inside)
    (Hroots : ∀ m i, m ∈ mappings v → strict_root m = Some i → inside i) :
  (∀ i, open_regular_for_read linux v fss vp = Ret i →
     inside i ∧ ∃ t, inodes (fss t) !! i = Some NFile) ∧
  ∀ m rel n root i fs,
    resolve_textual v vp Read = Ret (m, rel ++ [n]) → strict_root m = Some root →
    inode_from fs root (rel ++ [n]) = Some i → inodes fs !! i = Some NFile →
    open_regular_for_read linux v (λ _, fs) vp = Ret i.
Proof.
  unfold open_regular_for_read, open_regular. split.
  - intros i. destruct (resolve_textual v vp Read) as [[m rel]|e| |] eqn:Et; try done. cbn [lift_policy mbind outcome_bind].
    destruct rel as [|n rel]; [done|]. destruct (strict_root m) as [root|] eqn:Er; [|done].
    cbn [ok_or mbind outcome_bind]. rewrite relative_components_names, bind_ret.
    apply resolve_textual_inv in Et as (Hm & _). pose proof (Hroots _ _ Hm Er) as Hin.
    destruct linux; [|by apply walk_inside]. destruct (sys_openat2 _ _ _) as [[]|j] eqn:Eo; try done;
      [by apply walk_inside..|]. intros [-> Hi]%ensure_regular_inv. split; [|by eexists].
    apply openat2_opens in Eo as (He & x & Hx & Hl). by eapply inode_from_inside.
  - intros m rel n root i fs -> Hr Hi Hf. cbn [lift_policy mbind outcome_bind]. rewrite Hr.
    pose proof (λ t, walk_reads fs t root rel n i Hi Hf) as Hwalk.
    destruct (rel ++ [n]) as [|a ns] eqn:E; [by destruct rel|]; clear E. cbn [ok_or mbind outcome_bind].
    rewrite relative_components_names, bind_ret. destruct linux; [|done].
    destruct (openat2_fails fs root (a :: ns) i NFile Hi Hf ltac:(done)) as [->|[->| ->]]; [|done|done].
    unfold ensure_regular. by rewrite Hf.
Qed.

(** * Examples and witnesses *)

(** [/data] has the four directories of a game; [/data/user/new] is a link to
    [/etc/new], which is missing. *)
Definition sample_fs : filesystem := {|
  inodes := list_to_map
    [(0, NDir (list_to_map [(str "data", 1); (str "etc", 2)]));
     (1, NDir (list_to_map [(str "code", 3); (str "user", 4); (str "cache", 5); (str "tmp", 6)]));
     (2, NDir ∅); (3, NDir ∅);
     (4, NDir (list_to_map [(str "save.json", 7); (str "new", 8)])); (5, NDir ∅); (6, NDir ∅); (7, NFile);
     (8, NLink [RootDir; Normal (str "etc"); Normal (str "new")])];
  root_inode := 0 |}.

Definition sample_dir (name : string) : path := abs [str "data"; str name].

Definition sample_vfs : VirtualFS :=
  with_policy sample_fs (sample_dir "code") (sample_dir "user") (sample_dir "cache") (sample_dir "tmp")
    policy_default.

Definition user_mapping : PathMapping := make_mapping sample_fs (str "/user") (sample_dir "user") READ_WRITE.

Lemma sample_rooted : rooted sample_fs user_mapping [str "data"; str "user"].
Proof. split; vm_compute; reflexivity. Qed.

Lemma resolve_stays_inside_witness :
  resolve sample_vfs sample_fs (str "/user/./a/../save.json") Write = Ret (abs [str "data"; str "user"; str "save.json"]) ∧
  ∀ q, created sample_fs (abs [str "data"; str "user"; str "save.json"]) = Some q →
    q = [str "data"; str "user"; str "save.json"].
Proof.
  split; [vm_compute; reflexivity|].
  destruct (resolve_stays_inside sample_vfs sample_fs (str "/user/./a/../save.json") Write
              (abs [str "data"; str "user"; str "save.json"]) user_mapping [str "save.json"]
              [str "data"; str "user"] ltac:(vm_compute; reflexivity) ltac:(vm_compute; reflexivity) sample_rooted)
    as (_ & _ & H).
  refine (proj2 (H eq_refl) _). intros t Ht. vm_compute in Ht. discriminate Ht.
Defined.

Lemma dangling_link_accepted_witness :
  resolve sample_vfs sample_fs (str "/user/new") Create = Ret (abs [str "data"; str "user"; str "new"]) ∧
  created sample_fs (abs [str "data"; str "user"; str "new"]) = Some [str "etc"; str "new"].
Proof.
  assert (solid sample_fs ([str "data"; str "user"] ++ [])) as Hdir.
  { apply is_dir_at_solid. vm_compute. reflexivity. }
  destruct (dangling_link_accepted sample_vfs sample_fs (str "/user/new") Create user_mapping []
              [str "data"; str "user"] (str "new") [RootDir; Normal (str "etc"); Normal (str "new")] 39
              ltac:(vm_compute; reflexivity) sample_rooted Hdir ltac:(vm_compute; reflexivity)
              ltac:(vm_compute; reflexivity) ltac:(vm_compute; reflexivity)) as [H1 H2].
  split; [exact H1|]. etransitivity; [exact H2|]. vm_compute. reflexivity.
Defined.

Lemma resolve_complete_witness :
  resolve sample_vfs sample_fs (str "/user/b/c") Create =
    Ret (abs [str "data"; str "user"; str "b"; str "c"]).
Proof.
  apply (resolve_complete sample_vfs sample_fs (str "/user/b/c") Create user_mapping [str "b"; str "c"]
           [str "data"; str "user"] ltac:(vm_compute; reflexivity) sample_rooted).
  intros [|[|k]] t H; [discriminate H|discriminate H|].
  rewrite take_ge in H by (cbn [length]; lia). discriminate H.
Defined.

Lemma resolve_textual_sound_witness :
  resolve_textual {| mappings := reverse (mappings sample_vfs); policy := policy_default |}
    (str "/code/main.js") Write = Fail PermissionDenied.
Proof.
  rewrite (proj1 (proj2 (resolve_textual_sound sample_fs (sample_dir "code") (sample_dir "user")
    (sample_dir "cache") (sample_dir "tmp") policy_default
    {| mappings := reverse (mappings sample_vfs); policy := policy_default |} sample_fs (str "/code/main.js") Write
    (reverse_Permutation _)))). vm_compute. reflexivity.
Defined.

(** A kernel whose [openat2] is there. *)
Definition opens (fs : filesystem) (i : Z) (directory : bool) : errno + Z :=
  match inodes fs !! i with
  | None => inl ENOENT
  | Some (NLink _) => inl ELOOP
  | Some NFile => if directory then inl EOTHER else inr i
  | Some (NDir _) => inr i
  end.

#[export] Instance kernel : Syscalls.
Proof.
  refine {| sys_openat fs d n directory := match entry fs d n with Some i => opens fs i directory | None => inl ENOENT end;
            sys_openat2 fs d names := match inode_from fs d names with Some i => opens fs i false | None => inl ENOENT end |}.
  - intros fs d n directory i. destruct (entry fs d n) as [j|]; [|naive_solver]. unfold opens. split.
    + destruct (inodes fs !! j) as [[|t|m]|] eqn:E; try done; destruct directory; try done;
        intros [= <-]; (split; [done|]; eexists; split; [exact E|]; split; [done|]); naive_solver.
    + intros ([= ->] & x & -> & Hl & Hd). destruct x as [|t|m]; [|by destruct (Hl t)|done].
      destruct directory; [|done]. destruct Hd; done.
  - intros fs d names i. destruct (inode_from fs d names) as [j|]; [|done]. unfold opens.
    destruct (inodes fs !! j) as [[|t|m]|] eqn:E; try done; intros [= <-]; (split; [done|]); by eexists.
  - intros fs d names i x -> E Hl. left. unfold opens. rewrite E. destruct x as [|t|m]; [done|by destruct (Hl t)|done].
Defined.

Lemma open_confined_witness :
  open_regular_for_read true sample_vfs (λ _, sample_fs) (str "/user/save.json") = Ret 7.
Proof.
  refine (proj2 (open_confined true sample_vfs (λ _, sample_fs) (str "/user/save.json") (λ _, True) _ _)
    user_mapping [] (str "save.json") 4 7 sample_fs ltac:(vm_compute; reflexivity) ltac:(vm_compute; reflexivity)
    ltac:(vm_compute; reflexivity) ltac:(vm_compute; reflexivity)).
  - intros t d n i x _ _ _ _. exact I.
  - intros m i _ _. exact I.
Defined.
