(* ===== verification/GamePaths.v ===== *)
(** Where a game's files are: [engine/crates/shared/src/vfs/game_paths.rs].  The
    identifier of a game is one component of every path of it, and the paths of
    different games, and of different sessions of one game, must not meet. *)
From stdpp Require Import pretty.
From S2P Require Import Prelude Text Paths Vfs.
Open Scope Z_scope.

Inductive GamePathError := InvalidGameId (id : text) | ReservedGameId (id : text) | InvalidBaseDir.

#[global] Instance GamePathError_eq_dec : EqDecision GamePathError.
Proof. solve_decision. Defined.

Definition is_reserved_device_name (game_id : text) : bool :=
  if bool_decide (game_id ∈ (str <$> ["con"; "prn"; "aux"; "nul"]%string)) then true else
  match match strip_prefix (str "com") game_id with
        | Some suffix => Some suffix
        | None => strip_prefix (str "lpt") game_id
        end with
  | Some [digit] => is_ascii_digit digit
  | _ => false
  end.

(** [b'a'..=b'z' | b'0'..=b'9' | b'_' | b'-']. *)
Definition id_byte (b : Z) : bool :=
  is_ascii_lowercase b || is_ascii_digit b || (b =? 95) || (b =? 45).

Definition validate_game_id (game_id : text) : outcome GamePathError unit :=
  if bool_decide (game_id = []) || (64 <? lenZ game_id) then Fail (InvalidGameId game_id)
  else if existsb (λ b, negb (id_byte b)) game_id then Fail (InvalidGameId game_id)
  else if is_reserved_device_name game_id then Fail (ReservedGameId game_id)
  else mret tt.

Record GamePaths := {
  game_id : text;
  code_dir : path;
  user_data_dir : path;
  cache_dir : path;
  sandbox_cache_dir : path;
  temp_dir : path
}.

Definition GAMES_SUBDIR : text := str "migo/games".
Definition TEMP_SUBDIR : text := str "tmp".

(** [join], of a string. *)
Definition join_text (p : path) (s : text) : path := join p (components s).

Definition game_paths (files_dir cache_dir : path) (game_id : text) (session_id : Z) :
    outcome GamePathError GamePaths :=
  _ ← validate_game_id game_id;
  let files_base := join_text (join_text files_dir GAMES_SUBDIR) game_id in
  let cache_base := join_text (join_text cache_dir GAMES_SUBDIR) game_id in
  mret {|
    game_id := game_id;
    code_dir := join_text files_base (str "code");
    user_data_dir := join_text files_base (str "user_data");
    cache_dir := cache_base;
    sandbox_cache_dir := join_text cache_base (str "sandbox");
    temp_dir := join_text (join_text cache_base TEMP_SUBDIR) (to_string session_id)
  |}.

(** [with_file_name]. *)
Definition with_file_name (p : path) (s : text) : path :=
  join_text (if file_name p is Some _ then default [] (parent p) else p) s.

Definition integrity_receipt_path (g : GamePaths) : path :=
  with_file_name (code_dir g) (str "code.integrity-receipt-v1.json").

(** [from_game_paths] of [VirtualFS]: the game's roots. *)
Definition from_game_paths (fs : filesystem) (g : GamePaths) : VirtualFS :=
  with_policy fs (code_dir g) (user_data_dir g) (sandbox_cache_dir g) (temp_dir g) policy_default.

(** * Lemmas *)

(** A string that is one component. *)
Lemma components_name n :
  n ≠ [] → SLASH ∉ n → DOT ∉ n → components n = [Normal n].
Proof.
  intros Hn Hs Hd. unfold components. rewrite (split_on_none _ _ Hs).
  assert (component_of n = Some (Normal n)) as Hc.
  { unfold component_of. rewrite !bool_decide_eq_false_2; [done|..]; try done; intros ->; apply Hd; set_solver. }
  destruct n as [|a n]; [done|]. destruct (Z.eqb_spec a SLASH) as [->|_]; [exfalso; apply Hs; set_solver|].
  rewrite bool_decide_eq_false_2; [cbn [omap list_omap]; by rewrite Hc|]. intros E. apply Hd. rewrite E. set_solver.
Qed.

Lemma join_name p n : n ≠ [] → SLASH ∉ n → DOT ∉ n → join_text p n = p ++ [Normal n].
Proof. intros. unfold join_text. by rewrite components_name. Qed.

(** The digits of a number: none is a separator, and there is one. *)
Definition plain_text (s : text) : Prop := Forall (λ b, b ≠ SLASH ∧ b ≠ DOT ∧ is_ascii_uppercase b = false) s.

Lemma digits_plain n : ∀ s, plain_text (str s) → plain_text (str (pretty_N_go n s)).
Proof.
  induction (N.lt_wf_0 n) as [n _ IH]. intros s Hs. destruct (decide (n = 0)%N) as [->|Hn].
  - by rewrite pretty_N_go_0.
  - rewrite pretty_N_go_step by lia. apply IH; [apply N.div_lt; lia|].
    apply Forall_cons. split; [|done]. unfold pretty_N_char. by repeat case_match.
Qed.

Lemma digits_some n : ∀ s, str s ≠ [] → str (pretty_N_go n s) ≠ [].
Proof.
  induction (N.lt_wf_0 n) as [n _ IH]. intros s Hs. destruct (decide (n = 0)%N) as [->|Hn].
  - by rewrite pretty_N_go_0.
  - rewrite pretty_N_go_step by lia. apply IH; [apply N.div_lt; lia|done].
Qed.

Lemma positive_digits (p : positive) : plain_text (str (pretty p)) ∧ str (pretty p) ≠ [].
Proof.
  unfold pretty, pretty_positive, pretty, pretty_N. rewrite decide_False by done.
  split; [apply digits_plain; constructor|]. rewrite pretty_N_go_step by lia. by apply digits_some.
Qed.

Lemma to_string_plain z : plain_text (to_string z) ∧ to_string z ≠ [].
Proof.
  unfold to_string, pretty, pretty_Z. destruct z as [|p|p].
  - split; [|done]. by apply Forall_singleton.
  - apply positive_digits.
  - split; [|done]. apply Forall_cons. split; [done|]. apply positive_digits.
Qed.

Lemma to_string_name z : to_string z ≠ [] ∧ (SLASH ∉ to_string z) ∧ DOT ∉ to_string z.
Proof.
  destruct (to_string_plain z) as [H Hne].
  unfold plain_text in H. rewrite Forall_forall in H.
  split; [done|]. split; intros Hin; by destruct (H _ Hin) as (? & ? & ?).
Qed.

(** ** Identifiers *)

(** What the rules of an identifier are. *)
Definition reserved_names : list text :=
  (str <$> ["con"; "prn"; "aux"; "nul"]%string) ++
  ((λ d, str "com" ++ [48 + Z.of_nat d]) <$> seq 0 10) ++ ((λ d, str "lpt" ++ [48 + Z.of_nat d]) <$> seq 0 10).

Definition valid_id (id : text) : Prop :=
  1 ≤ lenZ id ≤ 64 ∧ Forall (λ b, id_byte b = true) id ∧ id ∉ reserved_names.

Lemma digit_suffix (prefix id : text) (d : Z) :
  strip_prefix prefix id = Some [d] → is_ascii_digit d = true →
  id ∈ ((λ d, prefix ++ [48 + Z.of_nat d]) <$> seq 0 10).
Proof.
  intros ->%strip_prefix_Some Hd. unfold is_ascii_digit in Hd. bool_to_prop. apply list_elem_of_fmap.
  exists (Z.to_nat (d - 48)). split; [|apply elem_of_seq; lia]. do 2 f_equal. lia.
Qed.

Lemma reserved_spec id : is_reserved_device_name id = true ↔ id ∈ reserved_names.
Proof.
  unfold reserved_names. split.
  - unfold is_reserved_device_name. case_bool_decide as Hin; [intros _; apply elem_of_app; by left|].
    destruct (strip_prefix (str "com") id) as [[|d [|]]|] eqn:E1; try done.
    + intros Hd. apply elem_of_app. right. apply elem_of_app. left. by eapply digit_suffix.
    + destruct (strip_prefix (str "lpt") id) as [[|d [|]]|] eqn:E2; try done.
      intros Hd. apply elem_of_app. right. apply elem_of_app. right. by eapply digit_suffix.
  - assert (Forall (λ id, is_reserved_device_name id = true) reserved_names) as H.
    { by repeat (apply Forall_cons; split; [vm_compute; reflexivity|]). }
    rewrite Forall_forall in H. apply H.
Qed.

Lemma validate_spec id : validate_game_id id = Ret tt ↔ valid_id id.
Proof.
  unfold validate_game_id, valid_id. rewrite <- reserved_spec.
  assert (existsb (λ b, negb (id_byte b)) id = false ↔ Forall (λ b, id_byte b = true) id) as He.
  { induction id as [|b id IH]; cbn [existsb]; [split; [constructor|done]|].
    rewrite orb_false_iff, negb_false_iff, IH, Forall_cons. done. }
  destruct (bool_decide_reflect (id = [])) as [->|Hne]; cbn [orb].
  { split; [done|]. by intros [[? _] _]. }
  assert (1 ≤ lenZ id) by (destruct id; [done|cbn [length]; lia]).
  destruct (Z.ltb_spec 64 (lenZ id)); [split; [done|lia]|].
  destruct (existsb _ id) eqn:E.
  { split; [done|]. intros (_ & H1 & _). apply He in H1. congruence. }
  destruct (is_reserved_device_name id); [split; [done|]; by intros (_ & _ & [])|].
  split; [intros _; split; [lia|]; split; [by apply He|done]|done].
Qed.

Lemma id_byte_bounds b : id_byte b = true → 45 ≤ b ≤ 122 ∧ b ≠ SLASH ∧ b ≠ DOT ∧ b ≠ BACKSLASH ∧ b ≠ COLON.
Proof.
  unfold id_byte, is_ascii_lowercase, is_ascii_digit, SLASH, DOT, BACKSLASH, COLON. intros H.
  rewrite !orb_true_iff, !andb_true_iff, !Z.leb_le, !Z.eqb_eq in H. lia.
Qed.

Lemma valid_id_name id : valid_id id → id ≠ [] ∧ (SLASH ∉ id) ∧ DOT ∉ id.
Proof.
  intros ([H1 _] & H2 & _). rewrite Forall_forall in H2.
  split; [intros ->; cbn in H1; lia|]. split; intros Hin%H2%id_byte_bounds; tauto.
Qed.

(** An identifier is its own lower case, so upper case loses nothing of it. *)
Lemma id_case id : valid_id id → to_ascii_lowercase (to_ascii_uppercase id) = id.
Proof.
  intros (_ & H & _). unfold to_ascii_lowercase, to_ascii_uppercase.
  induction H as [|b id Hb _ IH]; [done|]. cbn [fmap list_fmap]. f_equal; [|exact IH].
  unfold id_byte in Hb. rewrite !orb_true_iff, !Z.eqb_eq in Hb.
  unfold byte_to_ascii_lowercase, byte_to_ascii_uppercase, is_ascii_uppercase, is_ascii_lowercase, is_ascii_digit in *.
  rewrite !andb_true_iff, !Z.leb_le in Hb.
  destruct ((97 <=? b) && (b <=? 122)) eqn:E1.
  - apply andb_true_iff in E1 as [?%Z.leb_le ?%Z.leb_le].
    destruct ((65 <=? b - 32) && (b - 32 <=? 90)) eqn:E2; [lia|].
    apply andb_false_iff in E2 as [?%Z.leb_gt|?%Z.leb_gt]; lia.
  - destruct ((65 <=? b) && (b <=? 90)) eqn:E2; [|done].
    apply andb_true_iff in E2 as [?%Z.leb_le ?%Z.leb_le].
    apply andb_false_iff in E1 as [?%Z.leb_gt|?%Z.leb_gt]; lia.
Qed.

(** The names that Windows keeps for devices, in upper case. *)
Definition device_names : list text :=
  (str <$> ["CON"; "PRN"; "AUX"; "NUL"; "CLOCK$"; "CONIN$"; "CONOUT$"]%string) ++
  (prefix ← ["COM"; "LPT"]%string;
   suffix ← ["1"; "2"; "3"; "4"; "5"; "6"; "7"; "8"; "9"; "¹"; "²"; "³"]%string;
   [str prefix ++ str suffix]).

Lemma not_ends (c : Z) (id : text) : Forall (λ b, b ≠ c) id → ends_with [c] id = false.
Proof.
  intros H. destruct (ends_with [c] id) eqn:E; [|done]. apply ends_with_spec in E as [r ->].
  apply Forall_app in H as [_ H]. apply Forall_cons in H as [H _]. by destruct H.
Qed.

Lemma trim_end_id (cs id : text) : Forall (λ b, b ∉ cs) id → trim_end cs id = id.
Proof.
  intros H. unfold trim_end. rewrite <- (reverse_involutive id) at 2. f_equal.
  apply Forall_reverse in H. destruct H as [|b l Hb _]; [done|]. cbn [trim_start]. by rewrite bool_decide_eq_false_2.
Qed.

Lemma unsafe_device id :
  SLASH ∉ id → DOT ∉ id → 32 ∉ id → is_unsafe_windows_component id = true → to_ascii_uppercase id ∈ device_names.
Proof.
  intros Hs Hd Hsp. assert (Forall (λ b, b ≠ DOT ∧ b ≠ 32) id) as H.
  { apply Forall_forall. intros b Hb. split; intros ->; done. }
  unfold is_unsafe_windows_component. change (str " ") with [32]. change (str ".") with [DOT].
  rewrite !not_ends by (eapply Forall_impl; [exact H|]; cbn; tauto). cbn [orb].
  rewrite (split_on_none _ _ Hd). change (default id (head [id])) with id.
  rewrite trim_end_id by (eapply Forall_impl; [exact H|]; cbn; intros b [H1 H2]; change (str " .") with [32; DOT]; set_solver).
  unfold device_names. case_bool_decide as Hin; [intros _; apply elem_of_app; by left|].
  intros (prefix & Hp & Hsuf)%existsb_exists. apply elem_of_app. right.
  destruct (strip_prefix (str prefix) _) as [suffix|] eqn:E; [|done]. apply strip_prefix_Some in E as ->.
  apply bool_decide_eq_true in Hsuf. apply list_elem_of_fmap in Hsuf as (suf & -> & Hsuf).
  apply list_elem_of_In in Hp. apply list_elem_of_bind. exists prefix. split; [|done].
  apply list_elem_of_bind. exists suf. split; [|done]. by apply list_elem_of_singleton.
Qed.

Lemma valid_id_portable id : valid_id id → portable id.
Proof.
  intros Hid. pose proof Hid as (_ & Hb & Hr). destruct (valid_id_name id Hid) as (Hne & Hs & Hd).
  split; [done|]. split; [intros ->; apply Hd; set_solver|]. split; [intros ->; apply Hd; set_solver|]. split.
  - destruct (is_unsafe_windows_component id) eqn:E; [|done]. exfalso. apply unsafe_device in E; [|done|done|].
    2:{ rewrite Forall_forall in Hb. intros Hin%Hb%id_byte_bounds. lia. }
    assert (forallb (λ u, bool_decide (to_ascii_lowercase u ∈ reserved_names) ||
              existsb (λ b, negb (id_byte b)) (to_ascii_lowercase u)) device_names = true) as Hdev
      by (vm_compute; reflexivity).
    rewrite forallb_forall in Hdev. apply list_elem_of_In in E. specialize (Hdev _ E).
    rewrite (id_case id Hid) in Hdev. apply orb_true_iff in Hdev as [?%bool_decide_eq_true|He]; [done|].
apply existsb_exists in He as (b & Hin & Hn).
    rewrite Forall_forall in Hb. apply list_elem_of_In in Hin. by rewrite (Hb b Hin) in Hn.
  - eapply Forall_impl; [exact Hb|]. cbn. intros b (H1 & H2 & H3 & H4 & H5)%id_byte_bounds. repeat split; (done || lia).
Qed.

(** ** Paths that do not meet *)

(** Neither is the other or above it. *)
Definition apart (p q : path) : Prop := (¬ p `prefix_of` q) ∧ ¬ q `prefix_of` p.

(** Compared as a filesystem that ignores case does. *)
Definition fold_component (c : component) : component :=
  match c with Normal n => Normal (to_ascii_lowercase n) | c => c end.
Definition apart_nocase (p q : path) : Prop := apart (fold_component <$> p) (fold_component <$> q).

Lemma apart_head a b x y :
  to_ascii_lowercase a ≠ to_ascii_lowercase b → apart_nocase (Normal a :: x) (Normal b :: y).
Proof. intros Hab. split; intros [r E]; injection E; congruence. Qed.

Lemma apart_app base p q : apart_nocase p q → apart_nocase (base ++ p) (base ++ q).
Proof.
  intros [H1 H2]. unfold apart_nocase. rewrite !fmap_app.
  split; intros [r E]; rewrite <- app_assoc in E; apply app_inv_head in E; [apply H1|apply H2]; by exists r.
Qed.

Lemma apart_cons c p q : apart_nocase p q → apart_nocase (c :: p) (c :: q).
Proof. apply (apart_app [c]). Qed.

Lemma lowercase_inj (s t : text) :
  Forall (λ b, is_ascii_uppercase b = false) s → Forall (λ b, is_ascii_uppercase b = false) t →
  to_ascii_lowercase s = to_ascii_lowercase t → s = t.
Proof.
  assert (∀ s, Forall (λ b, is_ascii_uppercase b = false) s → to_ascii_lowercase s = s) as H.
  { intros u Hu. unfold to_ascii_lowercase. induction Hu as [|b u Hb _ IH]; [done|]. cbn [fmap list_fmap].
    unfold byte_to_ascii_lowercase at 1. by rewrite Hb, IH. }
  intros Hs Ht. by rewrite (H _ Hs), (H _ Ht).
Qed.

Lemma id_lower id : valid_id id → Forall (λ b, is_ascii_uppercase b = false) id.
Proof.
  intros (_ & H & _). eapply Forall_impl; [exact H|]. cbn. intros b Hb.
  destruct (is_ascii_uppercase b) eqn:E; [|done].
  unfold is_ascii_uppercase in E. unfold id_byte, is_ascii_lowercase, is_ascii_digit in Hb.
  rewrite !orb_true_iff, !andb_true_iff, !Z.leb_le, !Z.eqb_eq in Hb. apply andb_true_iff in E as [?%Z.leb_le ?%Z.leb_le]. lia.
Qed.

(** ** The paths of a game *)

Definition games_dir (base : path) : path := base ++ [Normal (str "migo"); Normal (str "games")].

Lemma game_paths_inv files cache id s g :
  game_paths files cache id s = Ret g → valid_id id ∧
  g = {| game_id := id;
         code_dir := games_dir files ++ [Normal id; Normal (str "code")];
         user_data_dir := games_dir files ++ [Normal id; Normal (str "user_data")];
         cache_dir := games_dir cache ++ [Normal id];
         sandbox_cache_dir := games_dir cache ++ [Normal id; Normal (str "sandbox")];
         temp_dir := games_dir cache ++ [Normal id; Normal (str "tmp"); Normal (to_string s)] |}.
Proof.
  unfold game_paths. destruct (validate_game_id id) as [[]|e| |] eqn:E; try done. apply validate_spec in E.
  cbn [mbind outcome_bind]. intros [= <-]. split; [done|].
  destruct (valid_id_name id E) as (H1 & H2 & H3). destruct (to_string_name s) as (H4 & H5 & H6).
  assert (∀ p, join_text p GAMES_SUBDIR = games_dir p) as -> by done.
  assert (∀ p, join_text p GAMES_SUBDIR = games_dir p) as -> by done.
  rewrite !(join_name _ id), !(join_name _ (to_string s)) by done.
  unfold join_text. change (components (str "code")) with [Normal (str "code")].
  change (components (str "user_data")) with [Normal (str "user_data")].
  change (components (str "sandbox")) with [Normal (str "sandbox")].
  change (components TEMP_SUBDIR) with [Normal (str "tmp")]. unfold join. by rewrite <- !app_assoc.
Qed.

(** ** Two sandboxes *)

Lemma apart_below p q x y : apart_nocase p q → apart_nocase (p ++ x) (q ++ y).
Proof.
  intros [H1 H2]. unfold apart_nocase. rewrite !fmap_app.
  split; intros [r E].
  - assert (fold_component <$> p `prefix_of` (fold_component <$> p) ++ (fold_component <$> x) ++ r) as Hp by by eexists.
    assert (fold_component <$> q `prefix_of` (fold_component <$> p) ++ (fold_component <$> x) ++ r) as Hq
      by (rewrite app_assoc, <- E; by eexists).
    by destruct (prefix_weak_total _ _ _ Hp Hq).
  - assert (fold_component <$> q `prefix_of` (fold_component <$> q) ++ (fold_component <$> y) ++ r) as Hq by by eexists.
    assert (fold_component <$> p `prefix_of` (fold_component <$> q) ++ (fold_component <$> y) ++ r) as Hp
      by (rewrite app_assoc, <- E; by eexists).
    by destruct (prefix_weak_total _ _ _ Hp Hq).
Qed.

Lemma apart_nocase_sym p q : apart_nocase p q → apart_nocase q p.
Proof. intros [H1 H2]. by split. Qed.

(** The mapped directories of a game, by their base. *)
Lemma game_roots files cache id s g fs m :
  game_paths files cache id s = Ret g → m ∈ mappings (from_game_paths fs g) →
  ∃ base x, (base = files ∨ base = cache) ∧ real_path m = games_dir base ++ Normal id :: (Normal <$> x).
Proof.
  intros [_ ->]%game_paths_inv. cbn [from_game_paths with_policy mappings code_dir user_data_dir sandbox_cache_dir temp_dir].
  rewrite !elem_of_cons, elem_of_nil. intros [->|[->|[->|[->|[]]]]]; cbn [make_mapping real_path].
  - exists files, [str "code"]. split; [by left|done].
  - exists files, [str "user_data"]. split; [by left|done].
  - exists cache, [str "sandbox"]. split; [by right|done].
  - exists cache, [str "tmp"; to_string s]. split; [by right|done].
Qed.

Lemma plain_games_dir base id x : Forall plain base → Forall plain (games_dir base ++ Normal id :: (Normal <$> x)).
Proof.
  intros Hb. apply Forall_app. split; [apply Forall_app; split; [done|]|];
    repeat (apply Forall_cons; split; [right; by eexists|]); [constructor|].
  apply Forall_fmap, Forall_true. intros n. right. by exists n.
Qed.

(** * Theorems *)

(** Games do not share directories.  A valid identifier is a portable name, so the
    paths of a game are built for exactly the identifiers of the documented form; the
    directories that two games write under one base do not meet, even on a filesystem
    that ignores case; nor do the code and the user data of one game, its sandboxed
    cache and its temporary directory, the temporary directories of two of its
    sessions, and the receipt of its code is outside everything mapped. *)
Theorem games_isolated (files cache : path) (a b : text) (s t : Z) :
  (∀ id, (∃ g, game_paths files cache id s = Ret g) ↔ valid_id id) ∧
  (valid_id a → portable a) ∧
  ∀ ga gb, game_paths files cache a s = Ret ga → game_paths files cache b t = Ret gb →
    (a ≠ b → ∀ p q,
       (p ∈ [code_dir ga; user_data_dir ga] ∧ q ∈ [code_dir gb; user_data_dir gb]) ∨
       (p ∈ [cache_dir ga; sandbox_cache_dir ga; temp_dir ga] ∧
        q ∈ [cache_dir gb; sandbox_cache_dir gb; temp_dir gb]) → apart_nocase p q) ∧
    apart_nocase (code_dir ga) (user_data_dir ga) ∧
    apart_nocase (sandbox_cache_dir ga) (temp_dir ga) ∧
    (a = b → s ≠ t → apart_nocase (temp_dir ga) (temp_dir gb)) ∧
    apart_nocase (integrity_receipt_path ga) (code_dir ga) ∧
    apart_nocase (integrity_receipt_path ga) (user_data_dir ga).
Proof.
  split; [|split; [apply valid_id_portable|]].
  - intros id. unfold game_paths. rewrite <- validate_spec.
    destruct (validate_game_id id) as [[]|e| |]; split; try done; [by intros _; eexists|by intros [g [=]]..].
  - intros ga gb [Ha ->]%game_paths_inv [Hb ->]%game_paths_inv.
    cbn [code_dir user_data_dir cache_dir sandbox_cache_dir temp_dir]. split; [|split; [|split; [|split]]].
    + intros Hne p q. assert (to_ascii_lowercase a ≠ to_ascii_lowercase b) as Hl.
      { intros E. apply lowercase_inj in E; [done|by apply id_lower..]. }
      rewrite !elem_of_cons, !elem_of_nil.
      intros [[Hp Hq]|[Hp Hq]]; destruct_or! Hp; destruct_or! Hq; subst; try done; by apply apart_app, apart_head.
    + by apply apart_app, apart_cons, apart_head.
    + by apply apart_app, apart_cons, apart_head.
    + intros <- Hst. do 3 (apply apart_app || apply apart_cons). apply apart_head.
      intros E. apply Hst, to_string_inj.
      eapply lowercase_inj in E; [exact E|..]; (eapply Forall_impl; [apply to_string_plain|]; cbn; tauto).
    + unfold integrity_receipt_path. cbn [code_dir].
      assert (with_file_name (games_dir files ++ [Normal a; Normal (str "code")]) (str "code.integrity-receipt-v1.json")
        = games_dir files ++ [Normal a; Normal (str "code.integrity-receipt-v1.json")]) as ->; [|split].
      { replace (games_dir files ++ [Normal a; Normal (str "code")]) with
          ((games_dir files ++ [Normal a]) ++ [Normal (str "code")]) by by rewrite <- app_assoc.
        unfold with_file_name. rewrite file_name_snoc, parent_snoc.
        change (default [] (Some ?p)) with p.
        change (join_text ?p (str "code.integrity-receipt-v1.json")) with
          (p ++ [Normal (str "code.integrity-receipt-v1.json")]). by rewrite <- app_assoc. }
      all: by apply apart_app, apart_cons, apart_head.
Qed.

(** C28: no path of one game leads to another game's.  With the file systems of two
    games built on the same bases, which are the same or apart, whatever each resolves,
    the resolved paths do not meet, even on a filesystem that ignores case. *)
Theorem sandboxes_apart (files cache : path) (a b : text) (s t : Z) (ga gb : GamePaths)
    (fs fsa fsb : filesystem) (vp vq : text) (op oq : FileOp) (p q : path)
    (Ha : game_paths files cache a s = Ret ga) (Hb : game_paths files cache b t = Ret gb) (Hab : a ≠ b)
    (Hplain : Forall plain files ∧ Forall plain cache) (Hbases : files = cache ∨ apart_nocase files cache)
    (Hp : resolve (from_game_paths fs ga) fsa vp op = Ret p)
    (Hq : resolve (from_game_paths fs gb) fsb vq oq = Ret q) :
  apart_nocase p q.
Proof.
  destruct (resolve_inv _ _ _ _ _ Hp) as (m & rel & Hm%resolve_textual_inv & -> & _).
  destruct (resolve_inv _ _ _ _ _ Hq) as (n & rel' & Hn%resolve_textual_inv & -> & _).
  destruct Hm as (Hm & _), Hn as (Hn & _).
  destruct (game_roots _ _ _ _ _ _ _ Ha Hm) as (base & x & Hbase & Em).
  destruct (game_roots _ _ _ _ _ _ _ Hb Hn) as (base' & y & Hbase' & En).
  apply game_paths_inv in Ha as [Ha _], Hb as [Hb _].
  assert (to_ascii_lowercase a ≠ to_ascii_lowercase b) as Hl.
  { intros E. apply lowercase_inj in E; [done|by apply id_lower..]. }
  assert (Forall plain base ∧ Forall plain base') as [Hb1 Hb2].
  { destruct Hplain, Hbase as [->| ->], Hbase' as [->| ->]; done. }
  rewrite Em, En, !normalize_fixed by by apply plain_games_dir. apply apart_below.
  assert (base = base' ∨ apart_nocase base base') as [<-|Hapart].
  { destruct Hbases as [<-|Hfc]; [left; destruct Hbase, Hbase'; congruence|].
    destruct Hbase as [->| ->], Hbase' as [->| ->]; auto using apart_nocase_sym. }
  - by apply apart_app, apart_head.
  - unfold games_dir. rewrite <- !app_assoc. by apply apart_below.
Qed.

(** * Witnesses *)

Lemma games_isolated_witness :
  ∃ ga gb, game_paths (abs [str "f"]) (abs [str "c"]) (str "my-game") 1 = Ret ga ∧
    game_paths (abs [str "f"]) (abs [str "c"]) (str "game_123") 2 = Ret gb ∧
    apart_nocase (user_data_dir ga) (user_data_dir gb).
Proof.
  eexists _, _. split; [vm_compute; reflexivity|]. split; [vm_compute; reflexivity|].
  refine (proj1 (proj2 (proj2 (games_isolated (abs [str "f"]) (abs [str "c"]) (str "my-game") (str "game_123") 1 2))
    _ _ _ _) _ _ _ _).
  - vm_compute. reflexivity.
  - vm_compute. reflexivity.
  - intros E. vm_compute in E. discriminate E.
  - left. split; apply elem_of_cons; right; apply elem_of_cons; left; reflexivity.
Defined.

Lemma sandboxes_apart_witness :
  ∃ p q, apart_nocase p q ∧ p = abs [str "f"; str "migo"; str "games"; str "a"; str "user_data"; str "x"].
Proof.
  eexists _, _. split; [|reflexivity].
  refine (sandboxes_apart (abs [str "f"]) (abs [str "c"]) (str "a") (str "b") 1 2 _ _ sample_fs sample_fs sample_fs
    (str "/user/x") (str "/tmp/x") Write Write _ _ _ _ _ _ _ _ _).
  - vm_compute. reflexivity.
  - vm_compute. reflexivity.
  - intros E. vm_compute in E. discriminate E.
  - split; apply Forall_cons; (split; [left; reflexivity|]); apply Forall_cons; (split; [right; eexists; reflexivity|constructor]).
  - right. apply (apart_cons RootDir). apply apart_head. intros E. vm_compute in E. discriminate E.
  - vm_compute. reflexivity.
  - vm_compute. reflexivity.
Defined.
