(* ===== verification/Network.v ===== *)
(** Which connections a game may open: the address filter
    ([engine/crates/runtime-v8/src/network/address_filter.rs]) and the policy gate
    every entry point passes ([network/gate.rs]).

    A URL is what the [url] crate parsed of it: its scheme, host and port.  The
    standard library's parser of socket addresses is written out. *)
From Stdlib Require Import Btauto.
From S2P Require Import Prelude Text.

(** * Addresses of the standard library *)

(** Four octets, and eight segments. *)
Record Ipv4Addr := { o0 : Z; o1 : Z; o2 : Z; o3 : Z }.
Record Ipv6Addr := { s0 : Z; s1 : Z; s2 : Z; s3 : Z; s4 : Z; s5 : Z; s6 : Z; s7 : Z }.

Inductive SocketAddr := V4 (ip : Ipv4Addr) (port : Z) | V6 (ip : Ipv6Addr) (port : Z).

Definition ipv4_is_loopback (ip : Ipv4Addr) : bool := o0 ip =? 127.
Definition ipv4_is_private (ip : Ipv4Addr) : bool :=
  (o0 ip =? 10) || ((o0 ip =? 172) && (16 <=? o1 ip) && (o1 ip <=? 31)) || ((o0 ip =? 192) && (o1 ip =? 168)).
Definition ipv4_is_link_local (ip : Ipv4Addr) : bool := (o0 ip =? 169) && (o1 ip =? 254).
Definition ipv4_is_broadcast (ip : Ipv4Addr) : bool :=
  (o0 ip =? 255) && (o1 ip =? 255) && (o2 ip =? 255) && (o3 ip =? 255).
Definition ipv4_is_unspecified (ip : Ipv4Addr) : bool :=
  (o0 ip =? 0) && (o1 ip =? 0) && (o2 ip =? 0) && (o3 ip =? 0).
Definition ipv6_is_loopback (ip : Ipv6Addr) : bool :=
  (s0 ip =? 0) && (s1 ip =? 0) && (s2 ip =? 0) && (s3 ip =? 0) && (s4 ip =? 0) && (s5 ip =? 0) &&
  (s6 ip =? 0) && (s7 ip =? 1).
Definition ipv6_is_unspecified (ip : Ipv6Addr) : bool :=
  (s0 ip =? 0) && (s1 ip =? 0) && (s2 ip =? 0) && (s3 ip =? 0) && (s4 ip =? 0) && (s5 ip =? 0) &&
  (s6 ip =? 0) && (s7 ip =? 0).

(** * The address filter *)

Definition is_cgn (ip : Ipv4Addr) : bool := (o0 ip =? 100) && (Z.land (o1 ip) 0xC0 =? 64).
Definition is_multicast_v4 (ip : Ipv4Addr) : bool := Z.land (o0 ip) 0xF0 =? 0xE0.
Definition is_documentation_v4 (ip : Ipv4Addr) : bool :=
  ((o0 ip =? 192) && (o1 ip =? 0) && (o2 ip =? 2)) ||
  ((o0 ip =? 198) && (o1 ip =? 51) && (o2 ip =? 100)) ||
  ((o0 ip =? 203) && (o1 ip =? 0) && (o2 ip =? 113)).
Definition is_benchmark_v4 (ip : Ipv4Addr) : bool := (o0 ip =? 198) && (Z.land (o1 ip) 0xFE =? 18).
Definition is_reserved_future_v4 (ip : Ipv4Addr) : bool :=
  (Z.land (o0 ip) 0xF0 =? 0xF0) && negb (ipv4_is_broadcast ip).

Definition is_blocked_ipv4 (ip : Ipv4Addr) : bool :=
  ipv4_is_loopback ip || ipv4_is_private ip || ipv4_is_link_local ip || ipv4_is_broadcast ip
  || ipv4_is_unspecified ip || is_cgn ip || is_multicast_v4 ip || is_documentation_v4 ip
  || is_benchmark_v4 ip || is_reserved_future_v4 ip.

Definition is_unique_local (ip : Ipv6Addr) : bool := Z.land (s0 ip) 0xFE00 =? 0xFC00.
Definition is_ipv6_link_local (ip : Ipv6Addr) : bool := Z.land (s0 ip) 0xFFC0 =? 0xFE80.
Definition is_multicast_v6 (ip : Ipv6Addr) : bool := Z.land (s0 ip) 0xFF00 =? 0xFF00.
Definition is_documentation_v6 (ip : Ipv6Addr) : bool := (s0 ip =? 0x2001) && (s1 ip =? 0x0DB8).

Definition mapped_ipv4 (ip : Ipv6Addr) : Ipv4Addr :=
  {| o0 := u32_as_u8 (Z.shiftr (s6 ip) 8); o1 := u32_as_u8 (s6 ip);
     o2 := u32_as_u8 (Z.shiftr (s7 ip) 8); o3 := u32_as_u8 (s7 ip) |}.

Definition is_ipv4_mapped_blocked (ip : Ipv6Addr) : bool :=
  if (s0 ip =? 0) && (s1 ip =? 0) && (s2 ip =? 0) && (s3 ip =? 0) && (s4 ip =? 0) && (s5 ip =? 0xFFFF)
  then is_blocked_ipv4 (mapped_ipv4 ip) else false.

Definition is_blocked_ipv6 (ip : Ipv6Addr) : bool :=
  ipv6_is_loopback ip || ipv6_is_unspecified ip || is_unique_local ip || is_ipv6_link_local ip
  || is_ipv4_mapped_blocked ip || is_multicast_v6 ip || is_documentation_v6 ip.

Definition is_blocked_address (addr : SocketAddr) : bool :=
  match addr with V4 ip _ => is_blocked_ipv4 ip | V6 ip _ => is_blocked_ipv6 ip end.

(** * The parser of socket addresses *)

Definition parser (A : Type) : Type := text → option (A * text).

Definition read_given_char (c : Z) : parser unit := λ s,
  match s with a :: s => if a =? c then Some (tt, s) else None | [] => None end.

(** [char::to_digit]. *)
Definition to_digit (radix c : Z) : option Z :=
  let d := if is_ascii_digit c then c - 48
           else if is_ascii_lowercase c then c - 97 + 10
           else if is_ascii_uppercase c then c - 65 + 10
           else radix in
  if d <? radix then Some d else None.

(** The digits at the front: their number, their value, and what follows. *)
Fixpoint read_digits (radix : Z) (count value : Z) (s : text) : Z * Z * text :=
  match s with
  | [] => (count, value, [])
  | c :: s' =>
      match to_digit radix c with
      | Some d => read_digits radix (count + 1) (value * radix + d) s'
      | None => (count, value, s)
      end
  end.

(** [read_number], for a type whose values end at [max]: with a bound on the
    digits it fails as soon as there is one too many, without one as soon as the
    value does not fit; either way it fails. *)
Definition read_number (radix : Z) (max_digits : option Z) (allow_zero_prefix : bool) (max : Z) : parser Z :=
  λ s,
  let '(count, value, rest) := read_digits radix 0 0 s in
  if match max_digits with Some m => m <? count | None => false end then None
  else if max <? value then None
  else if count =? 0 then None
  else if negb allow_zero_prefix && bool_decide (head s = Some 48) && (1 <? count) then None
  else Some (value, rest).

Definition read_separator {A} (sep : Z) (index : Z) (p : parser A) : parser A := λ s,
  if index =? 0 then p s else r ← read_given_char sep s; p (snd r).

Definition read_ipv4_addr : parser Ipv4Addr := λ s,
  let octet := read_number 10 (Some 3) false u8_max in
  a ← read_separator 46 0 octet s;
  b ← read_separator 46 1 octet (snd a);
  c ← read_separator 46 2 octet (snd b);
  d ← read_separator 46 3 octet (snd c);
  Some ({| o0 := fst a; o1 := fst b; o2 := fst c; o3 := fst d |}, snd d).

Definition u16_max : Z := 2 ^ 16 - 1.

(** [read_groups] from the [i]th group on, [limit] in all: the groups read,
    whether they end with an embedded IPv4 address, and what follows. *)
Fixpoint read_groups (limit i : Z) (k : nat) (s : text) : list Z * bool * text :=
  match k with
  | O => ([], false, s)
  | S k =>
      match (if i <? limit - 1 then read_separator 58 i read_ipv4_addr s else None) with
      | Some (ip, s) => ([o0 ip * 256 + o1 ip; o2 ip * 256 + o3 ip], true, s)
      | None =>
          match read_separator 58 i (read_number 16 (Some 4) true u16_max) s with
          | None => ([], false, s)
          | Some (g, s) =>
              let '(gs, v4, s) := read_groups limit (i + 1) k s in (g :: gs, v4, s)
          end
      end
  end.

Definition ipv6_of (gs : list Z) : option Ipv6Addr :=
  match gs with
  | [a; b; c; d; e; f; g; h] =>
      Some {| s0 := a; s1 := b; s2 := c; s3 := d; s4 := e; s5 := f; s6 := g; s7 := h |}
  | _ => None
  end.

Definition read_ipv6_addr : parser Ipv6Addr := λ s,
  let '(head_, head_ipv4, s) := read_groups 8 0 8 s in
  if lenZ head_ =? 8 then ip ← ipv6_of head_; Some (ip, s)
  else if head_ipv4 then None else
  r ← read_given_char 58 s;
  r ← read_given_char 58 (snd r);
  let limit := 8 - (lenZ head_ + 1) in
  let '(tail_, _, s) := read_groups limit 0 (Z.to_nat limit) (snd r) in
  ip ← ipv6_of (head_ ++ replicate (8 - length head_ - length tail_) 0 ++ tail_);
  Some (ip, s).

Definition read_port : parser Z := λ s,
  r ← read_given_char 58 s; read_number 10 None true u16_max (snd r).

Definition read_socket_addr_v4 : parser SocketAddr := λ s,
  ip ← read_ipv4_addr s; port ← read_port (snd ip); Some (V4 (fst ip) (fst port), snd port).

Definition read_scope_id : parser Z := λ s,
  r ← read_given_char 37 s; read_number 10 None true u32_max (snd r).

Definition read_socket_addr_v6 : parser SocketAddr := λ s,
  r ← read_given_char 91 s;
  ip ← read_ipv6_addr (snd r);
  let s := match read_scope_id (snd ip) with Some r => snd r | None => snd ip end in
  r ← read_given_char 93 s;
  port ← read_port (snd r);
  Some (V6 (fst ip) (fst port), snd port).

(** [parse::<SocketAddr>]: of all of the text. *)
Definition parse_socket_addr (s : text) : option SocketAddr :=
  r ← match read_socket_addr_v4 s with Some r => Some r | None => read_socket_addr_v6 s end;
  if bool_decide (snd r = []) then Some (fst r) else None.

(** * The gate *)

Record Url := { scheme : text; host_str : option text; port_or_known_default : option Z }.

Record NetworkPolicy := { domain_whitelist : list text; enforce_https : bool }.

Inductive GateKind :=
  | Fetch
  | FetchRedirect
  | AudioStream
  | AudioStreamRedirect
  | FetchUpload
  | Prefetch
  | ImageInlineSrc
  | WebSocket
  | TcpSocket
  | UdpSocket.

#[global] Instance GateKind_eq_dec : EqDecision GateKind.
Proof. solve_decision. Defined.

Inductive GateReject :=
  | UnsupportedScheme (scheme : text)
  | BlockedAddress
  | NotWhitelisted (host : text)
  | HttpsRequired
  | MissingHost.

#[global] Instance GateReject_eq_dec : EqDecision GateReject.
Proof. solve_decision. Defined.

Definition is_http_kind (k : GateKind) : bool :=
  match k with
  | Fetch | FetchRedirect | AudioStream | AudioStreamRedirect | FetchUpload | Prefetch | ImageInlineSrc => true
  | WebSocket | TcpSocket | UdpSocket => false
  end.

Definition scheme_allowed (k : GateKind) (scheme : text) : bool :=
  match k with
  | WebSocket => bool_decide (scheme ∈ [str "ws"; str "wss"])
  | TcpSocket => bool_decide (scheme = str "tcp")
  | UdpSocket => bool_decide (scheme = str "udp")
  | _ => bool_decide (scheme ∈ [str "http"; str "https"])
  end.

Definition is_host_whitelisted (host : text) (p : NetworkPolicy) : bool :=
  match domain_whitelist p with
  | [] => true
  | _ => existsb (λ allowed,
           bool_decide (host = allowed) ||
           match strip_suffix allowed host with
           | Some prefix => ends_with (str ".") prefix
           | None => false
           end) (domain_whitelist p)
  end.

Definition evaluate_policy (u : Url) (p : NetworkPolicy) (k : GateKind) : outcome GateReject unit :=
  if negb (scheme_allowed k (scheme u)) then Fail (UnsupportedScheme (scheme u)) else
  host ← ok_or (host_str u) MissingHost;
  let port := match port_or_known_default u with
              | Some port => port
              | None => if bool_decide (scheme u ∈ [str "https"; str "wss"]) then 443 else 80
              end in
  if match parse_socket_addr (host ++ str ":" ++ to_string port) with
     | Some addr => is_blocked_address addr
     | None => false
     end
  then Fail BlockedAddress else
  if negb (is_host_whitelisted host p) then Fail (NotWhitelisted host) else
  if enforce_https p &&
     ((is_http_kind k && bool_decide (scheme u = str "http"))
      || (bool_decide (k = WebSocket) && bool_decide (scheme u = str "ws")))
  then Fail HttpsRequired
  else mret tt.

(** * The specification *)

Definition ipv4_ok (ip : Ipv4Addr) : Prop := is_u8 (o0 ip) ∧ is_u8 (o1 ip) ∧ is_u8 (o2 ip) ∧ is_u8 (o3 ip).
Definition is_u16 (z : Z) : Prop := 0 ≤ z < 2 ^ 16.
Definition ipv6_ok (ip : Ipv6Addr) : Prop :=
  is_u16 (s0 ip) ∧ is_u16 (s1 ip) ∧ is_u16 (s2 ip) ∧ is_u16 (s3 ip) ∧ is_u16 (s4 ip) ∧ is_u16 (s5 ip) ∧
  is_u16 (s6 ip) ∧ is_u16 (s7 ip).

Definition ipv4_value (ip : Ipv4Addr) : Z := ((o0 ip * 256 + o1 ip) * 256 + o2 ip) * 256 + o3 ip.
Definition ipv6_value (ip : Ipv6Addr) : Z :=
  ((((((s0 ip * 2^16 + s1 ip) * 2^16 + s2 ip) * 2^16 + s3 ip) * 2^16 + s4 ip) * 2^16 + s5 ip) * 2^16 + s6 ip)
    * 2^16 + s7 ip.

(** A block of addresses: its first address, and how many bits vary. *)
Definition in_block (v : Z) (block : Z * Z) : bool :=
  (fst block <=? v) && (v <? fst block + 2 ^ snd block).

Definition ipv4 (a b c d : Z) : Z := ipv4_value {| o0 := a; o1 := b; o2 := c; o3 := d |}.

Definition blocked_v4 : list (Z * Z) :=
  [(ipv4 127 0 0 0, 24); (ipv4 10 0 0 0, 24); (ipv4 172 16 0 0, 20); (ipv4 192 168 0 0, 16);
   (ipv4 169 254 0 0, 16); (ipv4 0 0 0 0, 0); (ipv4 100 64 0 0, 22); (ipv4 224 0 0 0, 28);
   (ipv4 192 0 2 0, 8); (ipv4 198 51 100 0, 8); (ipv4 203 0 113 0, 8); (ipv4 198 18 0 0, 17);
   (ipv4 240 0 0 0, 28)].

Definition blocked_v6 : list (Z * Z) :=
  [(1, 0); (0, 0); (0xFC00 * 2^112, 121); (0xFE80 * 2^112, 118); (0xFF00 * 2^112, 120);
   (0x20010DB8 * 2^96, 96)].
Definition mapped_block : Z * Z := (0xFFFF * 2^32, 32).

(** A host is a domain, or a subdomain of it. *)
Definition under (host domain : text) : Prop := host = domain ∨ ∃ sub, host = sub ++ str "." ++ domain.

(** The schemes of an entry point, and those without transport security. *)
Definition schemes_of (k : GateKind) : list text :=
  match k with
  | WebSocket => [str "ws"; str "wss"]
  | TcpSocket => [str "tcp"]
  | UdpSocket => [str "udp"]
  | _ => [str "http"; str "https"]
  end.
Definition insecure (scheme : text) : Prop := scheme = str "http" ∨ scheme = str "ws".

(** * Lemmas *)

(** ** Blocks *)

Fixpoint check_from (f : Z → bool) (z : Z) (k : nat) : bool :=
  match k with O => true | S k => f z && check_from f (z + 1) k end.

Lemma check_below (n : Z) (f : Z → bool) :
  check_from f 0 (Z.to_nat n) = true → ∀ z, 0 ≤ z < n → f z = true.
Proof.
  assert (∀ k z0, check_from f z0 k = true → ∀ z, z0 ≤ z < z0 + Z.of_nat k → f z = true) as H.
  { intros k. induction k as [|k IH]; intros z0 Hc z Hz; [lia|]. cbn [check_from] in Hc.
    apply andb_true_iff in Hc as [H1 H2]. destruct (decide (z = z0)) as [->|]; [done|]. apply (IH _ H2). lia. }
  intros Hc z Hz. eapply H; [exact Hc|]. lia.
Qed.

Lemma equal_below (n : Z) (f g : Z → bool) :
  check_from (λ z, Bool.eqb (f z) (g z)) 0 (Z.to_nat n) = true → ∀ z, 0 ≤ z < n → f z = g z.
Proof. intros H z Hz. apply Bool.eqb_prop. revert z Hz. by apply check_below. Qed.

#[local] Ltac by_values n :=
  match goal with |- forall o, _ -> @?f o = @?g o => refine (equal_below n f g _) end;
  vm_compute; reflexivity.

Lemma land_C0 : ∀ o, 0 ≤ o < 256 → (Z.land o 0xC0 =? 64) = ((64 <=? o) && (o <? 128)).
Proof. by_values 256. Qed.
Lemma land_E0 : ∀ o, 0 ≤ o < 256 → (Z.land o 0xF0 =? 0xE0) = ((224 <=? o) && (o <? 240)).
Proof. by_values 256. Qed.
Lemma land_F0 : ∀ o, 0 ≤ o < 256 → (Z.land o 0xF0 =? 0xF0) = (240 <=? o).
Proof. by_values 256. Qed.
Lemma land_FE : ∀ o, 0 ≤ o < 256 → (Z.land o 0xFE =? 18) = ((18 <=? o) && (o <? 20)).
Proof. by_values 256. Qed.
Lemma land_FE00 : ∀ s, 0 ≤ s < 65536 → (Z.land s 0xFE00 =? 0xFC00) = ((0xFC00 <=? s) && (s <? 0xFE00)).
Proof. by_values 65536. Qed.
Lemma land_FFC0 : ∀ s, 0 ≤ s < 65536 → (Z.land s 0xFFC0 =? 0xFE80) = ((0xFE80 <=? s) && (s <? 0xFEC0)).
Proof. by_values 65536. Qed.
Lemma land_FF00 : ∀ s, 0 ≤ s < 65536 → (Z.land s 0xFF00 =? 0xFF00) = (0xFF00 <=? s).
Proof. by_values 65536. Qed.

(** A test of octets or segments is a block of addresses. *)
#[local] Ltac block :=
  apply eq_true_iff_eq; unfold in_block, ipv4, ipv4_value, ipv6_value;
  cbn [fst snd o0 o1 o2 o3 s0 s1 s2 s3 s4 s5 s6 s7];
  rewrite ?orb_true_iff, ?andb_true_iff, ?negb_true_iff, ?Z.eqb_eq, ?Z.leb_le, ?Z.ltb_lt; lia.

Lemma blocked_v4_spec ip :
  ipv4_ok ip → is_blocked_ipv4 ip = existsb (in_block (ipv4_value ip)) blocked_v4.
Proof.
  destruct ip as [a b c d]. unfold ipv4_ok, is_u8. cbn [o0 o1 o2 o3]. intros (Ha & Hb & Hc & Hd).
  unfold is_blocked_ipv4, ipv4_is_loopback, ipv4_is_private, ipv4_is_link_local,
    ipv4_is_unspecified, is_cgn, is_multicast_v4, is_documentation_v4, is_benchmark_v4, is_reserved_future_v4,
    blocked_v4, existsb. cbn [o0 o1 o2 o3]. rewrite land_C0, land_E0, land_F0, land_FE by done.
  remember (ipv4_value {| o0 := a; o1 := b; o2 := c; o3 := d |}) as v eqn:Hv. unfold ipv4_value in Hv.
  cbn [o0 o1 o2 o3] in Hv.
  replace (a =? 127) with (in_block v (ipv4 127 0 0 0, 24)) by block.
  replace (a =? 10) with (in_block v (ipv4 10 0 0 0, 24)) by block.
  replace ((a =? 172) && (16 <=? b) && (b <=? 31)) with (in_block v (ipv4 172 16 0 0, 20)) by block.
  replace ((a =? 192) && (b =? 168)) with (in_block v (ipv4 192 168 0 0, 16)) by block.
  replace ((a =? 169) && (b =? 254)) with (in_block v (ipv4 169 254 0 0, 16)) by block.
  replace ((a =? 0) && (b =? 0) && (c =? 0) && (d =? 0)) with (in_block v (ipv4 0 0 0 0, 0)) by block.
  replace ((a =? 100) && ((64 <=? b) && (b <? 128))) with (in_block v (ipv4 100 64 0 0, 22)) by block.
  replace ((224 <=? a) && (a <? 240)) with (in_block v (ipv4 224 0 0 0, 28)) by block.
  replace ((a =? 192) && (b =? 0) && (c =? 2)) with (in_block v (ipv4 192 0 2 0, 8)) by block.
  replace ((a =? 198) && (b =? 51) && (c =? 100)) with (in_block v (ipv4 198 51 100 0, 8)) by block.
  replace ((a =? 203) && (b =? 0) && (c =? 113)) with (in_block v (ipv4 203 0 113 0, 8)) by block.
  replace ((a =? 198) && ((18 <=? b) && (b <? 20))) with (in_block v (ipv4 198 18 0 0, 17)) by block.
  replace (240 <=? a) with (in_block v (ipv4 240 0 0 0, 28)) by block.
  assert (ipv4_is_broadcast {| o0 := a; o1 := b; o2 := c; o3 := d |} = true → in_block v (ipv4 240 0 0 0, 28) = true) as Hbc.
  { unfold ipv4_is_broadcast, in_block, ipv4, ipv4_value. cbn [fst snd o0 o1 o2 o3].
    rewrite !andb_true_iff, !Z.eqb_eq, Z.leb_le, Z.ltb_lt. lia. }
  revert Hbc. destruct (ipv4_is_broadcast _); [intros H; rewrite (H eq_refl)|intros _]; btauto.
Qed.

Lemma mapped_ipv4_value ip :
  ipv6_ok ip → ipv4_value (mapped_ipv4 ip) = ipv6_value ip mod 2 ^ 32 ∧ ipv4_ok (mapped_ipv4 ip).
Proof.
  unfold ipv6_ok, is_u16. intros (_ & _ & _ & _ & _ & _ & Hg & Hh).
  assert (∀ x, 0 ≤ x < 2 ^ 16 → u32_as_u8 (Z.shiftr x 8) = x / 256 ∧ u32_as_u8 x = x mod 256 ∧ x / 256 < 256) as Hb.
  { intros x Hx. unfold u32_as_u8. rewrite Z.shiftr_div_pow2 by lia. change (2 ^ 8) with 256.
    assert (x / 256 < 256) by (apply Z.div_lt_upper_bound; lia).
    pose proof (Z.div_pos x 256). rewrite (Z.mod_small (x / 256)) by lia. done. }
  destruct (Hb _ Hg) as (Eg & Eg' & Hg'), (Hb _ Hh) as (Eh & Eh' & Hh').
  unfold mapped_ipv4, ipv4_value, ipv4_ok, is_u8. cbn [o0 o1 o2 o3]. rewrite Eg, Eg', Eh, Eh'.
  pose proof (Z.div_mod (s6 ip) 256 ltac:(lia)). pose proof (Z.div_mod (s7 ip) 256 ltac:(lia)).
  pose proof (Z.mod_pos_bound (s6 ip) 256 ltac:(lia)). pose proof (Z.mod_pos_bound (s7 ip) 256 ltac:(lia)).
  pose proof (Z.div_pos (s6 ip) 256). pose proof (Z.div_pos (s7 ip) 256).
  split; [|lia]. unfold ipv6_value.
  apply (Z.mod_unique _ _ (((((s0 ip * 2^16 + s1 ip) * 2^16 + s2 ip) * 2^16 + s3 ip) * 2^16 + s4 ip) * 2^16 + s5 ip)).
  - left. lia.
  - lia.
Qed.

Lemma blocked_v6_spec ip :
  ipv6_ok ip →
  is_blocked_ipv6 ip = existsb (in_block (ipv6_value ip)) blocked_v6 ||
    (in_block (ipv6_value ip) mapped_block && existsb (in_block (ipv6_value ip mod 2 ^ 32)) blocked_v4).
Proof.
  destruct ip as [a b c d e f g h]. intros Hok. pose proof Hok as Hok'. revert Hok'.
  unfold ipv6_ok, is_u16. cbn [s0 s1 s2 s3 s4 s5 s6 s7]. intros (Ha & Hb & Hc & Hd & He & Hf & Hg & Hh).
  unfold is_blocked_ipv6, ipv6_is_loopback, ipv6_is_unspecified, is_unique_local, is_ipv6_link_local,
    is_multicast_v6, is_documentation_v6, is_ipv4_mapped_blocked, blocked_v6, existsb at 1.
  cbn [s0 s1 s2 s3 s4 s5 s6 s7]. rewrite land_FE00, land_FFC0, land_FF00 by done.
  remember (ipv6_value {| s0 := a; s1 := b; s2 := c; s3 := d; s4 := e; s5 := f; s6 := g; s7 := h |}) as v eqn:Hv.
  unfold ipv6_value in Hv. cbn [s0 s1 s2 s3 s4 s5 s6 s7] in Hv.
  replace ((a =? 0) && (b =? 0) && (c =? 0) && (d =? 0) && (e =? 0) && (f =? 0) && (g =? 0) && (h =? 1))
    with (in_block v (1, 0)) by block.
  replace ((a =? 0) && (b =? 0) && (c =? 0) && (d =? 0) && (e =? 0) && (f =? 0) && (g =? 0) && (h =? 0))
    with (in_block v (0, 0)) by block.
  replace ((0xFC00 <=? a) && (a <? 0xFE00)) with (in_block v (0xFC00 * 2^112, 121)) by block.
  replace ((0xFE80 <=? a) && (a <? 0xFEC0)) with (in_block v (0xFE80 * 2^112, 118)) by block.
  replace (0xFF00 <=? a) with (in_block v (0xFF00 * 2^112, 120)) by block.
  replace ((a =? 0x2001) && (b =? 0x0DB8)) with (in_block v (0x20010DB8 * 2^96, 96)) by block.
  replace ((a =? 0) && (b =? 0) && (c =? 0) && (d =? 0) && (e =? 0) && (f =? 0xFFFF))
    with (in_block v mapped_block) by (unfold mapped_block; block).
  destruct (mapped_ipv4_value {| s0 := a; s1 := b; s2 := c; s3 := d; s4 := e; s5 := f; s6 := g; s7 := h |} Hok)
    as [Hm Hm4].
  rewrite (blocked_v4_spec _ Hm4), Hm. unfold ipv6_value. cbn [s0 s1 s2 s3 s4 s5 s6 s7]. rewrite <- Hv.
  destruct (in_block v mapped_block); btauto.
Qed.

(** ** Hosts *)

Lemma is_host_whitelisted_spec host p :
  is_host_whitelisted host p = true ↔
  domain_whitelist p = [] ∨ ∃ d, d ∈ domain_whitelist p ∧ under host d.
Proof.
  assert (∀ d, (bool_decide (host = d) || match strip_suffix d host with
                 Some prefix => ends_with (str ".") prefix | None => false end) = true ↔ under host d) as Hd.
  { intros d. unfold under. rewrite orb_true_iff, bool_decide_eq_true.
    destruct (strip_suffix d host) as [r|] eqn:E.
    - apply strip_suffix_Some in E as ->. rewrite ends_with_spec. split.
      + intros [H|[sub ->]]; [by left|right]. exists sub. by rewrite <- app_assoc.
      + intros [H|[sub H]]; [by left|right]. exists sub. rewrite app_assoc in H. by apply app_inv_tail in H.
    - split; [naive_solver|]. intros [H|[sub H]]; [by left|].
      rewrite app_assoc in H. apply strip_suffix_Some in H. congruence. }
  unfold is_host_whitelisted. destruct (domain_whitelist p) as [|d ds] eqn:El.
  - split; [by left|done].
  - rewrite existsb_exists. split.
    + intros (x & Hx & Hu). right. exists x. rewrite list_elem_of_In. by rewrite <- Hd.
    + intros [|(x & Hx & Hu)]; [done|]. exists x. rewrite <- list_elem_of_In. by rewrite Hd.
Qed.

Lemma scheme_allowed_spec k s : scheme_allowed k s = true ↔ s ∈ schemes_of k.
Proof. destruct k; unfold scheme_allowed, schemes_of; rewrite bool_decide_eq_true; set_solver. Qed.

(** ** Dotted quads *)

(** A number ends at the first byte that is no digit. *)
Lemma read_digits_app radix s t count value count' value' :
  read_digits radix count value s = (count', value', []) →
  match t with [] => True | a :: _ => to_digit radix a = None end →
  read_digits radix count value (s ++ t) = (count', value', t).
Proof.
  revert count value. induction s as [|a s IH]; intros count value; cbn [read_digits app].
  - intros [= -> ->] Ht. destruct t as [|b t]; [done|]. cbn [read_digits]. by rewrite Ht.
  - destruct (to_digit radix a); [apply IH|by intros [=]].
Qed.

(** A printed number: at most [digits] digits, which read back as it, and no
    leading zero that another digit follows. *)
Definition prints_well (digits z : Z) : bool :=
  match read_digits 10 0 0 (to_string z), to_string z with
  | (count, value, []), a :: _ =>
      (1 <=? count) && (count <=? digits) && (value =? z) && (negb (a =? 48) || (count <=? 1))
  | _, _ => false
  end.

Lemma octets_print_well : ∀ z, 0 ≤ z < 256 → prints_well 3 z = true.
Proof. apply check_below. vm_compute. reflexivity. Qed.
Lemma ports_print_well : ∀ z, 0 ≤ z < 65536 → prints_well 5 z = true.
Proof. apply check_below. vm_compute. reflexivity. Qed.

Lemma read_number_to_string digits max_digits zero max z t :
  prints_well digits z = true → match max_digits with Some m => digits <= m | None => True end → z <= max →
  match t with [] => True | a :: _ => to_digit 10 a = None end →
  read_number 10 max_digits zero max (to_string z ++ t) = Some (z, t).
Proof.
  unfold prints_well, read_number. intros Hp Hm Hz Ht.
  destruct (read_digits 10 0 0 (to_string z)) as [[count value] rest] eqn:E.
  destruct rest; [|done]. rewrite (read_digits_app _ _ t _ _ _ _ E Ht).
  destruct (to_string z) as [|a s]; [done|]. cbn [app head].
  apply andb_true_iff in Hp as [[[H1%Z.leb_le H2%Z.leb_le]%andb_true_iff H3%Z.eqb_eq]%andb_true_iff H4].
  subst value. rewrite (proj2 (Z.ltb_ge max z)) by lia. rewrite (proj2 (Z.eqb_neq count 0)) by lia.
  replace (match max_digits with Some m => m <? count | None => false end) with false
    by (destruct max_digits; [symmetry; apply Z.ltb_ge; lia|done]).
  destruct zero; [done|]. cbn [negb andb].
  destruct (bool_decide_reflect (Some a = Some 48)) as [[= ->]|]; [|done].
  cbn [negb orb] in H4. apply Z.leb_le in H4. by rewrite (proj2 (Z.ltb_ge 1 count)) by lia.
Qed.

(** A dotted quad, as [Ipv4Addr] prints. *)
Definition quad (ip : Ipv4Addr) : text :=
  to_string (o0 ip) ++ str "." ++ to_string (o1 ip) ++ str "." ++ to_string (o2 ip) ++ str "." ++ to_string (o3 ip).

Lemma parse_quad ip port :
  ipv4_ok ip → is_u16 port → parse_socket_addr (quad ip ++ str ":" ++ to_string port) = Some (V4 ip port).
Proof.
  destruct ip as [a b c d]. unfold ipv4_ok, is_u8, is_u16, quad. cbn [o0 o1 o2 o3].
  intros (Ha & Hb & Hc & Hd) Hp. unfold parse_socket_addr, read_socket_addr_v4, read_ipv4_addr.
  change (str ".") with [46]. change (str ":") with [58]. rewrite <- !app_assoc. cbn [app].
  unfold read_separator. cbn [Z.eqb]. unfold read_given_char.
  assert (∀ o t, 0 ≤ o < 256 → match t with [] => True | x :: _ => to_digit 10 x = None end →
    read_number 10 (Some 3) false u8_max (to_string o ++ t) = Some (o, t)) as Ho.
  { intros o t H Ht. apply (read_number_to_string 3); [by apply octets_print_well| |unfold u8_max|]; try done. lia. }
  rewrite Ho by (unfold u8_max; done). cbn [mbind option_bind fst snd Z.eqb Pos.eqb].
  rewrite Ho by done. cbn [mbind option_bind fst snd Z.eqb Pos.eqb].
  rewrite Ho by done. cbn [mbind option_bind fst snd Z.eqb Pos.eqb].
  rewrite Ho by done. cbn [mbind option_bind fst snd].
  unfold read_port, read_given_char. cbn [Z.eqb Pos.eqb mbind option_bind fst snd].
  rewrite <- (app_nil_r (to_string port)).
  rewrite (read_number_to_string 5 None true u16_max port []);
    [|by apply ports_print_well|done|unfold u16_max; lia|done].
  done.
Qed.

(** * Theorems *)

(** The address filter, which the code writes as masks and comparisons of
    octets and segments, refuses exactly the addresses of the blocks its comments
    name: for IPv4 thirteen CIDR blocks, for IPv6 six and the IPv4-mapped
    addresses whose last 32 bits are a refused IPv4 address.  Hence every address
    outside these blocks is admitted. *)
Theorem filter_is_ranges (v4 : Ipv4Addr) (v6 : Ipv6Addr) (port : Z) :
  ipv4_ok v4 → ipv6_ok v6 →
  is_blocked_address (V4 v4 port) = existsb (in_block (ipv4_value v4)) blocked_v4 ∧
  is_blocked_address (V6 v6 port) =
    existsb (in_block (ipv6_value v6)) blocked_v6 ||
    (in_block (ipv6_value v6) mapped_block && existsb (in_block (ipv6_value v6 mod 2 ^ 32)) blocked_v4).
Proof. intros H4 H6. cbn [is_blocked_address]. by rewrite blocked_v4_spec, blocked_v6_spec. Qed.

(** The port the gate looks at. *)
Definition gate_port (u : Url) : Z :=
  default (if bool_decide (scheme u ∈ [str "https"; str "wss"]) then 443 else 80) (port_or_known_default u).

(** The gate lets a request through exactly when its scheme is one of the
    entry point's, it has a host, the host and port do not spell a blocked
    address, the host is a listed domain or under one (or no domain is listed),
    and, when transport security is enforced, the scheme is not the insecure one
    of an HTTP or WebSocket entry point. *)
Theorem gate_admits_iff (u : Url) (p : NetworkPolicy) (k : GateKind) :
  evaluate_policy u p k = Ret tt ↔
  scheme u ∈ schemes_of k ∧
  ∃ host, host_str u = Some host ∧
    (∀ addr, parse_socket_addr (host ++ str ":" ++ to_string (gate_port u)) = Some addr →
             is_blocked_address addr = false) ∧
    (domain_whitelist p = [] ∨ ∃ d, d ∈ domain_whitelist p ∧ under host d) ∧
    (enforce_https p = true → ¬ insecure (scheme u)).
Proof.
  unfold evaluate_policy. rewrite <- scheme_allowed_spec.
  destruct (scheme_allowed k (scheme u)) eqn:Ek; [|naive_solver]. cbn [negb].
  destruct (host_str u) as [host|]; [|naive_solver]. unfold ok_or. rewrite bind_ret. cbn zeta.
  change (match port_or_known_default u with Some port => port | None => _ end) with (gate_port u).
  remember (parse_socket_addr (host ++ str ":" ++ to_string (gate_port u))) as parsed eqn:Ep.
  setoid_rewrite <- is_host_whitelisted_spec.
  assert (enforce_https p && ((is_http_kind k && bool_decide (scheme u = str "http"))
            || (bool_decide (k = WebSocket) && bool_decide (scheme u = str "ws"))) = true
          ↔ enforce_https p = true ∧ insecure (scheme u)) as Hsec.
  { rewrite andb_true_iff. apply and_iff_compat_l. apply scheme_allowed_spec in Ek. unfold insecure.
    assert (str "http" ≠ str "ws" ∧ str "http" ≠ str "wss" ∧ str "http" ≠ str "tcp" ∧ str "http" ≠ str "udp" ∧
            str "ws" ≠ str "https" ∧ str "ws" ≠ str "tcp" ∧ str "ws" ≠ str "udp") as Hne
      by (repeat split; by vm_compute).
    revert Hne Ek. unfold schemes_of. generalize (str "http") (str "https") (str "ws") (str "wss") (str "tcp") (str "udp").
    intros ?????? Hne Ek. rewrite orb_true_iff, !andb_true_iff, !bool_decide_eq_true.
    destruct k; cbn [is_http_kind]; rewrite ?list_elem_of_In in Ek; cbn [In] in Ek; naive_solver. }
  destruct (match parsed with Some addr => is_blocked_address addr | None => false end) eqn:Eb.
  - split; [done|]. intros (_ & ? & [= <-] & H & _). destruct parsed as [a|]; [|done].
    rewrite <- Ep in H. rewrite (H a) in Eb; done.
  - destruct (is_host_whitelisted host p) eqn:Ew; cbn [negb].
    + destruct (enforce_https p && _).
      * split; [done|]. intros (_ & ? & [= <-] & _ & _ & H). destruct (proj1 Hsec eq_refl) as [He Hi]. by destruct (H He).
      * split; [|done]. intros _. split; [done|]. exists host. rewrite <- Ep. split; [done|].
        split; [by intros addr ->|]. split; [done|]. intros He Hi. discriminate (proj2 Hsec (conj He Hi)).
    + split; [done|]. intros (_ & ? & [= <-] & _ & H & _). congruence.
Qed.

(** A request to a dotted IPv4 literal in a refused range is refused as a
    blocked address by every entry point whose scheme it has, on every port and
    under every policy, whitelisted or not: reading the printed address and port
    back gives the address the filter then looks up. *)
Theorem blocked_literal_refused (u : Url) (p : NetworkPolicy) (k : GateKind) (ip : Ipv4Addr) :
  ipv4_ok ip → host_str u = Some (quad ip) → is_u16 (gate_port u) → scheme u ∈ schemes_of k →
  existsb (in_block (ipv4_value ip)) blocked_v4 = true →
  evaluate_policy u p k = Fail BlockedAddress.
Proof.
  intros Hip Hh Hport Hs Hb. unfold evaluate_policy. rewrite (proj2 (scheme_allowed_spec _ _) Hs). cbn [negb].
  rewrite Hh. unfold ok_or. rewrite bind_ret. cbn zeta.
  change (match port_or_known_default u with Some port => port | None => _ end) with (gate_port u).
  rewrite parse_quad by done. cbn [is_blocked_address]. by rewrite blocked_v4_spec, Hb.
Qed.

(** * Witnesses *)

Definition example_policy : NetworkPolicy :=
  {| domain_whitelist := [str "mygame.com"; str "169.254.169.254"]; enforce_https := true |}.
Definition example_url (s h : string) : Url :=
  {| scheme := str s; host_str := Some (str h); port_or_known_default := None |}.

(** What the gate says of some requests. *)
Example gate_examples :
  evaluate_policy (example_url "https" "cdn.mygame.com") example_policy Fetch = Ret tt ∧
  evaluate_policy (example_url "https" "evilmygame.com") example_policy Fetch = Fail (NotWhitelisted (str "evilmygame.com")) ∧
  evaluate_policy (example_url "ws" "mygame.com") example_policy WebSocket = Fail HttpsRequired ∧
  evaluate_policy (example_url "http" "[::ffff:127.0.0.1]") example_policy AudioStream = Fail BlockedAddress ∧
  evaluate_policy (example_url "https" "[fe80::1%25]") example_policy Fetch = Fail BlockedAddress ∧
  evaluate_policy (example_url "tcp" "mygame.com") example_policy Fetch = Fail (UnsupportedScheme (str "tcp")).
Proof. repeat split; vm_compute; reflexivity. Qed.

(** Ranges that are not public unicast and that the filter admits: 0.0.0.1,
    192.0.0.1, NAT64 of 127.0.0.1, 6to4 of 127.0.0.1, ::127.0.0.1, fec0::1. *)
Example admitted_ranges :
  is_blocked_ipv4 {| o0 := 0; o1 := 0; o2 := 0; o3 := 1 |} = false ∧
  is_blocked_ipv4 {| o0 := 192; o1 := 0; o2 := 0; o3 := 1 |} = false ∧
  (is_blocked_ipv6 <$> ipv6_of [0x64; 0xFF9B; 0; 0; 0; 0; 0x7F00; 1]) = Some false ∧
  (is_blocked_ipv6 <$> ipv6_of [0x2002; 0x7F00; 1; 0; 0; 0; 0; 1]) = Some false ∧
  (is_blocked_ipv6 <$> ipv6_of [0; 0; 0; 0; 0; 0; 0x7F00; 1]) = Some false ∧
  (is_blocked_ipv6 <$> ipv6_of [0xFEC0; 0; 0; 0; 0; 0; 0; 1]) = Some false.
Proof. repeat split; vm_compute; reflexivity. Qed.

Definition metadata : Ipv4Addr := {| o0 := 169; o1 := 254; o2 := 169; o3 := 254 |}.
Definition mapped_loopback : Ipv6Addr :=
  {| s0 := 0; s1 := 0; s2 := 0; s3 := 0; s4 := 0; s5 := 0xFFFF; s6 := 0x7F00; s7 := 1 |}.

Lemma filter_is_ranges_witness :
  is_blocked_address (V4 metadata 80) = true ∧ is_blocked_address (V6 mapped_loopback 80) = true.
Proof.
  destruct (filter_is_ranges metadata mapped_loopback 80) as [-> ->];
    [unfold ipv4_ok, is_u8; cbn; lia|unfold ipv6_ok, is_u16; cbn; lia|].
  vm_compute. split; reflexivity.
Defined.

Lemma blocked_literal_refused_witness :
  evaluate_policy (example_url "http" "169.254.169.254") example_policy Fetch = Fail BlockedAddress.
Proof.
  apply (blocked_literal_refused _ _ _ metadata).
  - unfold ipv4_ok, is_u8; cbn; lia.
  - vm_compute. reflexivity.
  - vm_compute. split; [discriminate|reflexivity].
  - vm_compute. apply list_elem_of_In. left. reflexivity.
  - vm_compute. reflexivity.
Defined.
