(* ===== verification/Wire.v ===== *)
(** The packet envelope of [engine/crates/frame-wire]: the header and section
    table constants, [validate], the accessors of a validated frame and the
    checksum ([lib.rs]), and the packet builder ([builder.rs]).

    [encode] is the abstract specification: the one byte string a header and a
    list of sections stand for.  The theorems say that [validate] accepts
    exactly the encodings of well-formed packets, and that [build] produces
    them. *)
From S2P Require Import Prelude.

(** The CRC of the [crc32fast] crate: a hasher is fed byte strings and its
    result is a [u32] that depends only on their concatenation. *)
Class Crc32 := {
  crc32 : list Z → Z;
  crc32_u32 : ∀ l, is_u32 (crc32 l)
}.

(** * Constants *)

Definition WIRE_MAGIC : Z := 0x4D475046.
Definition WIRE_VERSION : Z := 1.
Definition HEADER_BYTES : Z := 80.
Definition SECTION_ENTRY_BYTES : Z := 16.
Definition SECTION_ALIGNMENT : Z := 8.
Definition MAX_SECTIONS : Z := 8.
Definition MAX_TOTAL_BYTES : Z := 4 * 1024 * 1024.

Definition SECTION_KIND_COMMAND_STREAM : Z := 1.
Definition SECTION_KIND_INLINE_DATA : Z := 2.
Definition SECTION_KIND_RESOURCE_REFERENCES : Z := 3.
Definition SECTION_KIND_DAMAGE : Z := 0x80000001.
Definition SECTION_KIND_TIMING : Z := 0x80000002.
Definition SECTION_KIND_ADVISORY_BIT : Z := 0x80000000.
Definition RESOURCE_REFERENCE_BYTES : Z := 4.
Definition DAMAGE_RECT_BYTES : Z := 16.

Definition FLAG_PRESENT : Z := Z.shiftl 1 0.
Definition FLAG_KNOWN_MASK : Z := FLAG_PRESENT.

Definition OFF_MAGIC : Z := 0.
Definition OFF_WIRE_VERSION : Z := 4.
Definition OFF_HEADER_BYTES : Z := 8.
Definition OFF_TOTAL_BYTES : Z := 12.
Definition OFF_LAUNCH_NONCE : Z := 16.
Definition OFF_SEQUENCE : Z := 32.
Definition OFF_RUNTIME_GENERATION : Z := 40.
Definition OFF_SURFACE_GENERATION : Z := 48.
Definition OFF_RESOURCE_EPOCH : Z := 56.
Definition OFF_FRAME_ID : Z := 64.
Definition OFF_FLAGS : Z := 68.
Definition OFF_SECTION_COUNT : Z := 72.
Definition OFF_CHECKSUM : Z := 76.
Definition OFF_CHECKSUM_END : Z := OFF_CHECKSUM + 4.

(** * The header layout, as the wire document declares it *)

Record HeaderField := { hf_offset : Z; hf_size : Z; hf_name : string }.

Definition HEADER_LAYOUT : list HeaderField := [
  {| hf_offset := OFF_MAGIC; hf_size := 4; hf_name := "magic" |};
  {| hf_offset := OFF_WIRE_VERSION; hf_size := 4; hf_name := "wire_version" |};
  {| hf_offset := OFF_HEADER_BYTES; hf_size := 4; hf_name := "header_bytes" |};
  {| hf_offset := OFF_TOTAL_BYTES; hf_size := 4; hf_name := "total_bytes" |};
  {| hf_offset := OFF_LAUNCH_NONCE; hf_size := 16; hf_name := "launch_nonce" |};
  {| hf_offset := OFF_SEQUENCE; hf_size := 8; hf_name := "sequence" |};
  {| hf_offset := OFF_RUNTIME_GENERATION; hf_size := 8; hf_name := "runtime_generation" |};
  {| hf_offset := OFF_SURFACE_GENERATION; hf_size := 8; hf_name := "surface_generation" |};
  {| hf_offset := OFF_RESOURCE_EPOCH; hf_size := 8; hf_name := "resource_epoch" |};
  {| hf_offset := OFF_FRAME_ID; hf_size := 4; hf_name := "frame_id" |};
  {| hf_offset := OFF_FLAGS; hf_size := 4; hf_name := "flags" |};
  {| hf_offset := OFF_SECTION_COUNT; hf_size := 4; hf_name := "section_count" |};
  {| hf_offset := OFF_CHECKSUM; hf_size := 4; hf_name := "payload_checksum" |}
].

(** The layout covers [start..finish] with no gap and no overlap. *)
Fixpoint layout_contiguous (start finish : Z) (fields : list HeaderField) : bool :=
  match fields with
  | [] => start =? finish
  | f :: fields => (hf_offset f =? start) && layout_contiguous (start + hf_size f) finish fields
  end.

(** * Errors *)

Inductive WireError :=
  | ShorterThanHeader
  | BadMagic
  | UnsupportedVersion
  | BadHeaderBytes
  | BadTotalBytes
  | LengthMismatch
  | TooManySections
  | SectionTableOutOfBounds
  | SectionOutOfBounds
  | SectionNotCanonical
  | PaddingNotZero
  | DuplicateSection
  | UnknownRequiredSection
  | ChecksumMismatch
  | UnknownFlags
  | MissingPresent
  | CommandStreamNotWordAligned
  | ItemCountInconsistent
  | MissingCommandStream
  | TotalBytesNotCanonical.

#[global] Instance WireError_eq_dec : EqDecision WireError.
Proof. solve_decision. Defined.

Definition WireError_code (e : WireError) : Z :=
  match e with
  | ShorterThanHeader => 1
  | BadMagic => 2
  | UnsupportedVersion => 3
  | BadHeaderBytes => 4
  | BadTotalBytes => 5
  | LengthMismatch => 6
  | TooManySections => 7
  | SectionTableOutOfBounds => 8
  | SectionOutOfBounds => 9
  | SectionNotCanonical => 10
  | PaddingNotZero => 11
  | DuplicateSection => 12
  | UnknownRequiredSection => 13
  | ChecksumMismatch => 14
  | UnknownFlags => 15
  | MissingPresent => 16
  | CommandStreamNotWordAligned => 17
  | ItemCountInconsistent => 18
  | MissingCommandStream => 19
  | TotalBytesNotCanonical => 20
  end.

Definition WireError_ALL : list WireError := [
  ShorterThanHeader; BadMagic; UnsupportedVersion; BadHeaderBytes; BadTotalBytes;
  LengthMismatch; TooManySections; SectionTableOutOfBounds; SectionOutOfBounds;
  SectionNotCanonical; PaddingNotZero; DuplicateSection; UnknownRequiredSection;
  ChecksumMismatch; UnknownFlags; MissingPresent; CommandStreamNotWordAligned;
  ItemCountInconsistent; MissingCommandStream; TotalBytesNotCanonical].

(** * Reading *)

Definition read_u32 {E} (bytes : list Z) (at_ : Z) : outcome E Z :=
  b0 ← idx bytes at_;
  b1 ← idx bytes (at_ + 1);
  b2 ← idx bytes (at_ + 2);
  b3 ← idx bytes (at_ + 3);
  mret (le_value [b0; b1; b2; b3]).

Definition read_u64 {E} (bytes : list Z) (at_ : Z) : outcome E Z :=
  buffer ← slice bytes at_ (at_ + 8);
  mret (le_value buffer).

Definition read_u128 {E} (bytes : list Z) (at_ : Z) : outcome E Z :=
  buffer ← slice bytes at_ (at_ + 16);
  mret (le_value buffer).

Definition align_up (value : Z) : option Z :=
  match u32_checked_add value (SECTION_ALIGNMENT - 1) with
  | Some sum => Some (Z.land sum (u32_not (SECTION_ALIGNMENT - 1)))
  | None => None
  end.

(** * A validated frame *)

Record Section_ := { sec_kind : Z; sec_item_count : Z; sec_bytes : list Z }.

Record WireFrame := {
  wf_bytes : list Z;
  wf_launch_nonce : Z;
  wf_sequence : Z;
  wf_runtime_generation : Z;
  wf_surface_generation : Z;
  wf_resource_epoch : Z;
  wf_frame_id : Z;
  wf_flags : Z;
  wf_section_count : Z
}.

Definition presents (f : WireFrame) : bool := negb (Z.land (wf_flags f) FLAG_PRESENT =? 0).
Definition total_bytes (f : WireFrame) : Z := lenZ (wf_bytes f).

(** The section at [index], as the iterator of [sections] reads it. *)
Definition section_at (bytes : list Z) (index : Z) : outcome WireError Section_ :=
  let entry := HEADER_BYTES + index * SECTION_ENTRY_BYTES in
  kind ← read_u32 bytes entry;
  offset ← read_u32 bytes (entry + 4);
  length ← read_u32 bytes (entry + 8);
  item_count ← read_u32 bytes (entry + 12);
  payload ← slice bytes offset (offset + length);
  mret {| sec_kind := kind; sec_item_count := item_count; sec_bytes := payload |}.

Fixpoint sections_from (bytes : list Z) (index : Z) (count : nat) : outcome WireError (list Section_) :=
  match count with
  | O => mret []
  | S count =>
      s ← section_at bytes index;
      rest ← sections_from bytes (index + 1) count;
      mret (s :: rest)
  end.

Definition sections (f : WireFrame) : outcome WireError (list Section_) :=
  sections_from (wf_bytes f) 0 (Z.to_nat (wf_section_count f)).

(** [find] and [any] over the section iterator, which stops at the first hit. *)
Fixpoint find_section (bytes : list Z) (kind : Z) (index : Z) (count : nat) :
    outcome WireError (option Section_) :=
  match count with
  | O => mret None
  | S count =>
      s ← section_at bytes index;
      if sec_kind s =? kind then mret (Some s)
      else find_section bytes kind (index + 1) count
  end.

Definition command_stream (f : WireFrame) : outcome WireError (option Section_) :=
  find_section (wf_bytes f) SECTION_KIND_COMMAND_STREAM 0 (Z.to_nat (wf_section_count f)).

Definition references_resources (f : WireFrame) : outcome WireError bool :=
  found ← find_section (wf_bytes f) SECTION_KIND_RESOURCE_REFERENCES 0
            (Z.to_nat (wf_section_count f));
  mret (match found with Some _ => true | None => false end).

(** * Validation *)

Definition any_nonzero (l : list Z) : bool := existsb (λ byte, negb (byte =? 0)) l.

(** The [match kind] on [item_count] against [byte_length]. *)
Definition check_item_count (kind length item_count : Z) : outcome WireError unit :=
  if kind =? SECTION_KIND_COMMAND_STREAM then
    if negb (length mod 4 =? 0) then Fail CommandStreamNotWordAligned
    else if length / 4 <? item_count then Fail ItemCountInconsistent
    else mret tt
  else if kind =? SECTION_KIND_RESOURCE_REFERENCES then
    if bool_decide (u32_checked_mul item_count RESOURCE_REFERENCE_BYTES ≠ Some length)
    then Fail ItemCountInconsistent else mret tt
  else if kind =? SECTION_KIND_DAMAGE then
    if bool_decide (u32_checked_mul item_count DAMAGE_RECT_BYTES ≠ Some length)
    then Fail ItemCountInconsistent else mret tt
  else
    if length <? item_count then Fail ItemCountInconsistent else mret tt.

(** What the section loop carries from one iteration to the next. *)
Record SectionWalk := {
  seen_kinds : list Z;
  previous_end : Z;
  has_command_stream : bool
}.

(** One iteration of the section loop of [validate]. *)
Definition validate_section (bytes : list Z) (total : Z) (w : SectionWalk) (index : Z) :
    outcome WireError SectionWalk :=
  let entry := HEADER_BYTES + index * SECTION_ENTRY_BYTES in
  kind ← read_u32 bytes entry;
  offset ← read_u32 bytes (entry + 4);
  length ← read_u32 bytes (entry + 8);
  item_count ← read_u32 bytes (entry + 12);
  if (kind <? SECTION_KIND_ADVISORY_BIT) &&
     negb ((kind =? SECTION_KIND_COMMAND_STREAM) || (kind =? SECTION_KIND_INLINE_DATA)
           || (kind =? SECTION_KIND_RESOURCE_REFERENCES))
  then Fail UnknownRequiredSection else
  recorded_kinds ← slice (seen_kinds w) 0 index;
  if existsb (λ previous, previous =? kind) recorded_kinds then Fail DuplicateSection else
  seen ← set_idx (seen_kinds w) index kind;
  expected ← ok_or (align_up (previous_end w)) SectionNotCanonical;
  if negb (offset =? expected) then Fail SectionNotCanonical else
  end_ ← ok_or (u32_checked_add offset length) SectionOutOfBounds;
  if total <? end_ then Fail SectionOutOfBounds else
  pad ← slice bytes (previous_end w) offset;
  if any_nonzero pad then Fail PaddingNotZero else
  _ ← check_item_count kind length item_count;
  mret {| seen_kinds := seen;
          previous_end := end_;
          has_command_stream := has_command_stream w || (kind =? SECTION_KIND_COMMAND_STREAM) |}.

(** [for index in 0..section_count]. *)
Fixpoint validate_sections (bytes : list Z) (total : Z) (w : SectionWalk) (index : Z)
    (count : nat) : outcome WireError SectionWalk :=
  match count with
  | O => mret w
  | S count =>
      w' ← validate_section bytes total w index;
      validate_sections bytes total w' (index + 1) count
  end.

Section WithCrc.
Context {C : Crc32}.

(** The bytes the checksum covers: the packet with the checksum field read as
    zero, with the short inputs handled as the code handles them. *)
Definition checksum_input (bytes : list Z) : list Z :=
  let head := Z.min (lenZ bytes) OFF_CHECKSUM in
  take (Z.to_nat head) bytes ++
  (if OFF_CHECKSUM_END <=? lenZ bytes
   then zeros 4 ++ drop (Z.to_nat OFF_CHECKSUM_END) bytes
   else if OFF_CHECKSUM <? lenZ bytes then zeros 4 else []).

Definition checksum (bytes : list Z) : Z := crc32 (checksum_input bytes).

Definition stamp_checksum {E} (bytes : list Z) : outcome E (list Z) :=
  if lenZ bytes <? HEADER_BYTES then mret bytes
  else copy_from_slice bytes OFF_CHECKSUM (le_bytes 4 (checksum bytes)).

Definition validate (bytes : list Z) : outcome WireError WireFrame :=
  if lenZ bytes <? HEADER_BYTES then Fail ShorterThanHeader else
  magic ← read_u32 bytes OFF_MAGIC;
  if negb (magic =? WIRE_MAGIC) then Fail BadMagic else
  version ← read_u32 bytes OFF_WIRE_VERSION;
  if negb (version =? WIRE_VERSION) then Fail UnsupportedVersion else
  header_bytes ← read_u32 bytes OFF_HEADER_BYTES;
  if negb (header_bytes =? HEADER_BYTES) then Fail BadHeaderBytes else
  total ← read_u32 bytes OFF_TOTAL_BYTES;
  if negb ((HEADER_BYTES <=? total) && (total <=? MAX_TOTAL_BYTES)) then Fail BadTotalBytes else
  if negb (total =? lenZ bytes) then Fail LengthMismatch else
  flags ← read_u32 bytes OFF_FLAGS;
  if negb (Z.land flags (u32_not FLAG_KNOWN_MASK) =? 0) then Fail UnknownFlags else
  if Z.land flags FLAG_PRESENT =? 0 then Fail MissingPresent else
  section_count ← read_u32 bytes OFF_SECTION_COUNT;
  if MAX_SECTIONS <? section_count then Fail TooManySections else
  table_bytes ← ok_or (u32_checked_mul section_count SECTION_ENTRY_BYTES) SectionTableOutOfBounds;
  payload_start ← ok_or (u32_checked_add HEADER_BYTES table_bytes) SectionTableOutOfBounds;
  if total <? payload_start then Fail SectionTableOutOfBounds else
  w ← validate_sections bytes total
        {| seen_kinds := zeros MAX_SECTIONS; previous_end := payload_start;
           has_command_stream := false |} 0 (Z.to_nat section_count);
  if negb (has_command_stream w) then Fail MissingCommandStream else
  canonical_total ← ok_or (align_up (previous_end w)) TotalBytesNotCanonical;
  if negb (total =? canonical_total) then Fail TotalBytesNotCanonical else
  pad ← slice bytes (previous_end w) total;
  if any_nonzero pad then Fail PaddingNotZero else
  stored ← read_u32 bytes OFF_CHECKSUM;
  if negb (checksum bytes =? stored) then Fail ChecksumMismatch else
  launch_nonce ← read_u128 bytes OFF_LAUNCH_NONCE;
  sequence ← read_u64 bytes OFF_SEQUENCE;
  runtime_generation ← read_u64 bytes OFF_RUNTIME_GENERATION;
  surface_generation ← read_u64 bytes OFF_SURFACE_GENERATION;
  resource_epoch ← read_u64 bytes OFF_RESOURCE_EPOCH;
  frame_id ← read_u32 bytes OFF_FRAME_ID;
  mret {| wf_bytes := bytes;
          wf_launch_nonce := launch_nonce;
          wf_sequence := sequence;
          wf_runtime_generation := runtime_generation;
          wf_surface_generation := surface_generation;
          wf_resource_epoch := resource_epoch;
          wf_frame_id := frame_id;
          wf_flags := flags;
          wf_section_count := section_count |}.

End WithCrc.

(** * The packet builder *)

Record WireFrameBuilder := {
  wb_launch_nonce : Z;
  wb_sequence : Z;
  wb_runtime_generation : Z;
  wb_surface_generation : Z;
  wb_resource_epoch : Z;
  wb_frame_id : Z;
  wb_flags : Z;
  wb_extra_gap : Z;
  wb_pad_fill : Z;
  wb_trailing_bytes : Z;
  wb_sections : list Section_
}.

Definition builder_new : WireFrameBuilder := {|
  wb_launch_nonce := 0; wb_sequence := 1; wb_runtime_generation := 1;
  wb_surface_generation := 0; wb_resource_epoch := 0; wb_frame_id := 1;
  wb_flags := FLAG_PRESENT; wb_extra_gap := 0; wb_pad_fill := 0;
  wb_trailing_bytes := 0; wb_sections := [] |}.

Definition builder_section (b : WireFrameBuilder) (kind item_count : Z) (bytes : list Z) :
    WireFrameBuilder := {|
  wb_launch_nonce := wb_launch_nonce b; wb_sequence := wb_sequence b;
  wb_runtime_generation := wb_runtime_generation b;
  wb_surface_generation := wb_surface_generation b;
  wb_resource_epoch := wb_resource_epoch b; wb_frame_id := wb_frame_id b;
  wb_flags := wb_flags b; wb_extra_gap := wb_extra_gap b; wb_pad_fill := wb_pad_fill b;
  wb_trailing_bytes := wb_trailing_bytes b;
  wb_sections := wb_sections b ++
    [{| sec_kind := kind; sec_item_count := item_count; sec_bytes := bytes |}] |}.

(** [align_up] of [builder.rs]: [value.div_ceil(8) * 8]. *)
Definition builder_align_up {E} (value : Z) : outcome E Z :=
  u32_mul ((value + 7) / SECTION_ALIGNMENT) SECTION_ALIGNMENT.

(** [bytes.len() as u32]. *)
Definition len_as_u32 {A} (l : list A) : Z := lenZ l mod 2 ^ 32.

Definition put_u32 {E} (bytes : list Z) (at_ value : Z) : outcome E (list Z) :=
  copy_from_slice bytes at_ (le_bytes 4 value).
Definition put_u64 {E} (bytes : list Z) (at_ value : Z) : outcome E (list Z) :=
  copy_from_slice bytes at_ (le_bytes 8 value).
Definition put_u128 {E} (bytes : list Z) (at_ value : Z) : outcome E (list Z) :=
  copy_from_slice bytes at_ (le_bytes 16 value).

(** The first loop of [build]: where each section payload starts, and the
    cursor after the last. *)
Fixpoint build_offsets {E} (extra_gap : Z) (cursor : Z) (secs : list Section_) :
    outcome E (list Z * Z) :=
  match secs with
  | [] => mret ([], cursor)
  | s :: secs =>
      aligned ← builder_align_up cursor;
      offset ← u32_add aligned extra_gap;
      cursor' ← u32_add offset (len_as_u32 (sec_bytes s));
      '(offsets, last) ← build_offsets extra_gap cursor' secs;
      mret (offset :: offsets, last)
  end.

(** The second loop of [build]: the table entries and the payloads. *)
Fixpoint build_sections {E} (out : list Z) (index : Z) (secs : list (Section_ * Z)) :
    outcome E (list Z) :=
  match secs with
  | [] => mret out
  | (s, offset) :: secs =>
      let entry := HEADER_BYTES + index * SECTION_ENTRY_BYTES in
      out ← put_u32 out entry (sec_kind s);
      out ← put_u32 out (entry + 4) offset;
      out ← put_u32 out (entry + 8) (len_as_u32 (sec_bytes s));
      out ← put_u32 out (entry + 12) (sec_item_count s);
      out ← copy_from_slice out offset (sec_bytes s);
      build_sections out (index + 1) secs
  end.

Definition build {C : Crc32} {E} (b : WireFrameBuilder) : outcome E (list Z) :=
  let count := len_as_u32 (wb_sections b) in
  table_bytes ← u32_mul count SECTION_ENTRY_BYTES;
  start ← u32_add HEADER_BYTES table_bytes;
  '(offsets, cursor) ← build_offsets (wb_extra_gap b) start (wb_sections b);
  aligned ← builder_align_up cursor;
  total ← u32_add aligned (wb_trailing_bytes b);
  let out := replicate (Z.to_nat total) (wb_pad_fill b) in
  out ← put_u32 out OFF_MAGIC WIRE_MAGIC;
  out ← put_u32 out OFF_WIRE_VERSION WIRE_VERSION;
  out ← put_u32 out OFF_HEADER_BYTES HEADER_BYTES;
  out ← put_u32 out OFF_TOTAL_BYTES total;
  out ← put_u128 out OFF_LAUNCH_NONCE (wb_launch_nonce b);
  out ← put_u64 out OFF_SEQUENCE (wb_sequence b);
  out ← put_u64 out OFF_RUNTIME_GENERATION (wb_runtime_generation b);
  out ← put_u64 out OFF_SURFACE_GENERATION (wb_surface_generation b);
  out ← put_u64 out OFF_RESOURCE_EPOCH (wb_resource_epoch b);
  out ← put_u32 out OFF_FRAME_ID (wb_frame_id b);
  out ← put_u32 out OFF_FLAGS (wb_flags b);
  out ← put_u32 out OFF_SECTION_COUNT count;
  out ← build_sections out 0 (zip (wb_sections b) offsets);
  out ← put_u32 out OFF_CHECKSUM 0;
  stamp_checksum out.

(** * The abstract packet *)

(** A packet's content, free of any layout. *)
Record Packet := {
  pk_launch_nonce : Z;
  pk_sequence : Z;
  pk_runtime_generation : Z;
  pk_surface_generation : Z;
  pk_resource_epoch : Z;
  pk_frame_id : Z;
  pk_sections : list Section_
}.

Definition align8 (x : Z) : Z := (x + 7) / 8 * 8.

(** The end of the last section, the table and the payload area of a list of
    sections whose payloads start after [prev]. *)
Fixpoint layout_end (prev : Z) (secs : list Section_) : Z :=
  match secs with
  | [] => prev
  | s :: secs => layout_end (align8 prev + lenZ (sec_bytes s)) secs
  end.

Definition table_entry (s : Section_) (offset : Z) : list Z :=
  le_bytes 4 (sec_kind s) ++ le_bytes 4 offset ++
  le_bytes 4 (lenZ (sec_bytes s)) ++ le_bytes 4 (sec_item_count s).

Fixpoint encode_table (prev : Z) (secs : list Section_) : list Z :=
  match secs with
  | [] => []
  | s :: secs =>
      table_entry s (align8 prev) ++ encode_table (align8 prev + lenZ (sec_bytes s)) secs
  end.

Fixpoint encode_body (prev : Z) (secs : list Section_) : list Z :=
  match secs with
  | [] => zeros (align8 prev - prev)
  | s :: secs =>
      zeros (align8 prev - prev) ++ sec_bytes s ++
      encode_body (align8 prev + lenZ (sec_bytes s)) secs
  end.

Definition payload_start (secs : list Section_) : Z := 80 + 16 * lenZ secs.
Definition packet_total (secs : list Section_) : Z := align8 (layout_end (payload_start secs) secs).

(** The 76 header bytes before the checksum. *)
Definition encode_header (p : Packet) : list Z :=
  le_bytes 4 WIRE_MAGIC ++ le_bytes 4 WIRE_VERSION ++ le_bytes 4 HEADER_BYTES ++
  le_bytes 4 (packet_total (pk_sections p)) ++ le_bytes 16 (pk_launch_nonce p) ++
  le_bytes 8 (pk_sequence p) ++ le_bytes 8 (pk_runtime_generation p) ++
  le_bytes 8 (pk_surface_generation p) ++ le_bytes 8 (pk_resource_epoch p) ++
  le_bytes 4 (pk_frame_id p) ++ le_bytes 4 FLAG_PRESENT ++ le_bytes 4 (lenZ (pk_sections p)).

Definition encode_rest (p : Packet) : list Z :=
  let secs := pk_sections p in
  encode_table (payload_start secs) secs ++ encode_body (payload_start secs) secs.

Definition encode_with (p : Packet) (check : list Z) : list Z :=
  encode_header p ++ check ++ encode_rest p.

Definition encode {C : Crc32} (p : Packet) : list Z :=
  encode_with p (le_bytes 4 (crc32 (encode_with p (zeros 4)))).

(** What the envelope requires of one section. *)
Definition kind_known (kind : Z) : Prop :=
  SECTION_KIND_ADVISORY_BIT ≤ kind ∨ kind = SECTION_KIND_COMMAND_STREAM ∨
  kind = SECTION_KIND_INLINE_DATA ∨ kind = SECTION_KIND_RESOURCE_REFERENCES.

Definition item_count_ok (s : Section_) : Prop :=
  let n := lenZ (sec_bytes s) in
  if decide (sec_kind s = SECTION_KIND_COMMAND_STREAM) then n mod 4 = 0 ∧ sec_item_count s ≤ n / 4
  else if decide (sec_kind s = SECTION_KIND_RESOURCE_REFERENCES) then n = 4 * sec_item_count s
  else if decide (sec_kind s = SECTION_KIND_DAMAGE) then n = 16 * sec_item_count s
  else sec_item_count s ≤ n.

Definition section_wf (s : Section_) : Prop :=
  is_u32 (sec_kind s) ∧ is_u32 (sec_item_count s) ∧ Forall is_u8 (sec_bytes s) ∧
  kind_known (sec_kind s) ∧ item_count_ok s.

Definition packet_wf (p : Packet) : Prop :=
  is_u128 (pk_launch_nonce p) ∧ is_u64 (pk_sequence p) ∧ is_u64 (pk_runtime_generation p) ∧
  is_u64 (pk_surface_generation p) ∧ is_u64 (pk_resource_epoch p) ∧ is_u32 (pk_frame_id p) ∧
  lenZ (pk_sections p) ≤ MAX_SECTIONS ∧ Forall section_wf (pk_sections p) ∧
  NoDup (sec_kind <$> pk_sections p) ∧
  SECTION_KIND_COMMAND_STREAM ∈ (sec_kind <$> pk_sections p) ∧
  packet_total (pk_sections p) ≤ MAX_TOTAL_BYTES.

(** The frame a packet with the given bytes is read as. *)
Definition frame_with (p : Packet) (bytes : list Z) : WireFrame := {|
  wf_bytes := bytes;
  wf_launch_nonce := pk_launch_nonce p;
  wf_sequence := pk_sequence p;
  wf_runtime_generation := pk_runtime_generation p;
  wf_surface_generation := pk_surface_generation p;
  wf_resource_epoch := pk_resource_epoch p;
  wf_frame_id := pk_frame_id p;
  wf_flags := FLAG_PRESENT;
  wf_section_count := lenZ (pk_sections p) |}.

Definition frame_of {C : Crc32} (p : Packet) : WireFrame := frame_with p (encode p).

(** The builder with every knob at its canonical value. *)
Definition builder_of (p : Packet) : WireFrameBuilder := {|
  wb_launch_nonce := pk_launch_nonce p; wb_sequence := pk_sequence p;
  wb_runtime_generation := pk_runtime_generation p;
  wb_surface_generation := pk_surface_generation p;
  wb_resource_epoch := pk_resource_epoch p; wb_frame_id := pk_frame_id p;
  wb_flags := FLAG_PRESENT; wb_extra_gap := 0; wb_pad_fill := 0;
  wb_trailing_bytes := 0; wb_sections := pk_sections p |}.

(** * Lemmas: alignment *)

Lemma align8_bounds x : x ≤ align8 x < x + 8.
Proof. unfold align8. pose proof (Z.mod_pos_bound (x + 7) 8). pose proof (Z.div_mod (x + 7) 8). lia. Qed.

Lemma align8_mono x y : x ≤ y → align8 x ≤ align8 y.
Proof. intros. unfold align8. apply Z.mul_le_mono_nonneg_r; [lia|]. apply Z.div_le_mono; lia. Qed.

Lemma ones_testbit k n : 0 ≤ k → 0 ≤ n → Z.testbit (Z.ones k) n = (n <? k).
Proof.
  intros. destruct (Z.ltb_spec n k).
  - by apply Z.ones_spec_low.
  - by apply Z.ones_spec_high.
Qed.

(** [s & !(2^k - 1)] clears the low [k] bits. *)
Lemma land_not_ones k s :
  0 ≤ k ≤ 32 → is_u32 s → Z.land s (u32_not (Z.ones k)) = s / 2 ^ k * 2 ^ k.
Proof.
  intros Hk Hs. rewrite <- Z.shiftr_div_pow2, <- Z.shiftl_mul_pow2 by lia.
  apply Z.bits_inj'. intros n Hn. unfold u32_not. change u32_max with (Z.ones 32).
  rewrite Z.land_spec, Z.lxor_spec, Z.shiftl_spec, !ones_testbit by lia.
  destruct (Z.ltb_spec n k) as [Hlt|Hge].
  { rewrite (Z.testbit_neg_r _ (n - k)), (proj2 (Z.ltb_lt n 32)) by lia. apply andb_false_r. }
  rewrite Z.shiftr_spec by lia. replace (n - k + k) with n by lia.
  destruct (Z.ltb_spec n 32) as [Hlt|Hge'].
  { by rewrite andb_true_r. }
  rewrite (proj1 (Z.bounded_iff_bits_nonneg 32 s ltac:(lia) ltac:(unfold is_u32 in Hs; lia))
    ltac:(unfold is_u32 in Hs; lia) n Hge'). done.
Qed.

Lemma align_up_spec v : 0 ≤ v → v + 7 ≤ u32_max → align_up v = Some (align8 v).
Proof.
  intros ? Hv. unfold align_up, u32_checked_add.
  change (SECTION_ALIGNMENT - 1) with 7.
  rewrite (proj2 (Z.leb_le _ _) Hv). f_equal.
  apply (land_not_ones 3); [lia|]. unfold is_u32, u32_max in *. lia.
Qed.

(** * Lemmas: reading *)

Lemma read_u32_slice {E} bytes at_ :
  0 ≤ at_ → at_ + 4 ≤ lenZ bytes →
  read_u32 (E:=E) bytes at_ = Ret (le_value (sub bytes at_ (at_ + 4))).
Proof.
  intros H0 H1. unfold read_u32, sub.
  replace (Z.to_nat (at_ + 4 - at_)) with 4%nat by lia.
  assert (Hi : ∀ k : nat, idx (E:=E) bytes (at_ + Z.of_nat k) =
    match drop (Z.to_nat at_) bytes !! k with Some x => Ret x | None => Panic end).
  { intros k. unfold idx. rewrite lookup_drop. repeat f_equal.
    replace (Z.to_nat (at_ + Z.of_nat k)) with (Z.to_nat at_ + k)%nat by lia. done. }
  pose proof (Hi 0%nat) as G0. pose proof (Hi 1%nat) as G1.
  pose proof (Hi 2%nat) as G2. pose proof (Hi 3%nat) as G3.
  rewrite Z.add_0_r in G0. change (Z.of_nat 1) with 1 in G1.
  change (Z.of_nat 2) with 2 in G2. change (Z.of_nat 3) with 3 in G3.
  rewrite G0, G1, G2, G3.
  pose proof (length_drop bytes (Z.to_nat at_)) as Hl.
  destruct (drop (Z.to_nat at_) bytes) as [|a [|b [|c [|d r]]]]; simpl in Hl; try lia.
  done.
Qed.

Lemma read_u32_at {E} (p s : list Z) v at_ :
  at_ = lenZ p → is_u32 v → read_u32 (E:=E) (p ++ le_bytes 4 v ++ s) at_ = Ret v.
Proof.
  intros -> Hv. pose proof (length_le_bytes 4 v) as Hl.
  rewrite read_u32_slice by (rewrite ?length_app, ?Hl; lia).
  rewrite sub_mid by (rewrite ?Hl; lia). by rewrite le_value_roundtrip.
Qed.

Lemma slice_at {E} (p m s : list Z) at_ hi :
  at_ = lenZ p → hi = at_ + lenZ m → slice (E:=E) (p ++ m ++ s) at_ hi = Ret m.
Proof.
  intros -> ->. rewrite slice_ret by (rewrite ?length_app; lia). by rewrite sub_mid.
Qed.

Lemma read_u64_at {E} (p s : list Z) v at_ :
  at_ = lenZ p → is_u64 v → read_u64 (E:=E) (p ++ le_bytes 8 v ++ s) at_ = Ret v.
Proof.
  intros -> Hv. unfold read_u64. rewrite slice_at by (rewrite ?length_le_bytes; lia).
  rewrite bind_ret. unfold mret, outcome_ret. by rewrite le_value_roundtrip.
Qed.

Lemma read_u128_at {E} (p s : list Z) v at_ :
  at_ = lenZ p → is_u128 v → read_u128 (E:=E) (p ++ le_bytes 16 v ++ s) at_ = Ret v.
Proof.
  intros -> Hv. unfold read_u128. rewrite slice_at by (rewrite ?length_le_bytes; lia).
  rewrite bind_ret. unfold mret, outcome_ret. by rewrite le_value_roundtrip.
Qed.

(** The value read determines the bytes it was read from. *)
Lemma sub_le_bytes bytes at_ (n : nat) :
  Forall is_u8 bytes → 0 ≤ at_ → at_ + Z.of_nat n ≤ lenZ bytes →
  sub bytes at_ (at_ + Z.of_nat n) = le_bytes n (le_value (sub bytes at_ (at_ + Z.of_nat n))).
Proof.
  intros Hb H0 H1. set (l := sub bytes _ _).
  assert (length l = n) as Hl.
  { pose proof (length_sub bytes at_ (at_ + Z.of_nat n)). unfold l. lia. }
  rewrite <- Hl at 1. symmetry. apply le_bytes_le_value. unfold l. auto.
Qed.

Lemma le_value_sub_bound bytes at_ (n : nat) :
  Forall is_u8 bytes → 0 ≤ at_ → at_ + Z.of_nat n ≤ lenZ bytes →
  0 ≤ le_value (sub bytes at_ (at_ + Z.of_nat n)) < 256 ^ Z.of_nat n.
Proof.
  intros Hb H0 H1. pose proof (length_sub bytes at_ (at_ + Z.of_nat n)) as Hl.
  replace (Z.of_nat n) with (lenZ (sub bytes at_ (at_ + Z.of_nat n))) at 3 by lia.
  apply le_value_bound. auto.
Qed.

Lemma read_u32_inv {E} bytes at_ v :
  Forall is_u8 bytes → 0 ≤ at_ → at_ + 4 ≤ lenZ bytes →
  read_u32 (E:=E) bytes at_ = Ret v →
  sub bytes at_ (at_ + 4) = le_bytes 4 v ∧ is_u32 v.
Proof.
  intros Hb H0 H1. rewrite read_u32_slice by done. intros [= <-].
  split; [by apply (sub_le_bytes bytes at_ 4)|by apply (le_value_sub_bound bytes at_ 4)].
Qed.

Lemma read_u64_inv {E} bytes at_ v :
  Forall is_u8 bytes → 0 ≤ at_ → at_ + 8 ≤ lenZ bytes →
  read_u64 (E:=E) bytes at_ = Ret v →
  sub bytes at_ (at_ + 8) = le_bytes 8 v ∧ is_u64 v.
Proof.
  intros Hb H0 H1. unfold read_u64. rewrite slice_ret by lia. intros [= <-].
  split; [by apply (sub_le_bytes bytes at_ 8)|by apply (le_value_sub_bound bytes at_ 8)].
Qed.

Lemma read_u128_inv {E} bytes at_ v :
  Forall is_u8 bytes → 0 ≤ at_ → at_ + 16 ≤ lenZ bytes →
  read_u128 (E:=E) bytes at_ = Ret v →
  sub bytes at_ (at_ + 16) = le_bytes 16 v ∧ is_u128 v.
Proof.
  intros Hb H0 H1. unfold read_u128. rewrite slice_ret by lia. intros [= <-].
  split; [by apply (sub_le_bytes bytes at_ 16)|by apply (le_value_sub_bound bytes at_ 16)].
Qed.

(** * Lemmas: the layout *)

(** The payload area without the pad after the last section. *)
Fixpoint encode_payload (prev : Z) (secs : list Section_) : list Z :=
  match secs with
  | [] => []
  | s :: secs =>
      zeros (align8 prev - prev) ++ sec_bytes s ++
      encode_payload (align8 prev + lenZ (sec_bytes s)) secs
  end.

Lemma encode_body_payload prev secs :
  encode_body prev secs =
  encode_payload prev secs ++ zeros (align8 (layout_end prev secs) - layout_end prev secs).
Proof.
  revert prev. induction secs as [|s secs IH]; intros prev; simpl; [done|].
  by rewrite IH, !app_assoc.
Qed.

Lemma layout_end_ge prev secs : prev ≤ layout_end prev secs.
Proof.
  revert prev. induction secs as [|s secs IH]; intros prev; simpl; [lia|].
  pose proof (IH (align8 prev + lenZ (sec_bytes s))). pose proof (align8_bounds prev). lia.
Qed.

Lemma layout_end_app prev l1 l2 :
  layout_end prev (l1 ++ l2) = layout_end (layout_end prev l1) l2.
Proof. revert prev. induction l1; intros; simpl; auto. Qed.

Lemma encode_table_app prev l1 l2 :
  encode_table prev (l1 ++ l2) = encode_table prev l1 ++ encode_table (layout_end prev l1) l2.
Proof.
  revert prev. induction l1 as [|a l1 IH]; intros; cbn [app encode_table layout_end]; [done|].
  by rewrite IH, app_assoc.
Qed.

Lemma encode_payload_app prev l1 l2 :
  encode_payload prev (l1 ++ l2) = encode_payload prev l1 ++ encode_payload (layout_end prev l1) l2.
Proof.
  revert prev. induction l1 as [|a l1 IH]; intros; cbn [app encode_payload layout_end]; [done|].
  by rewrite IH, !app_assoc.
Qed.

Lemma length_table_entry s off : length (table_entry s off) = 16%nat.
Proof. unfold table_entry. by rewrite !length_app, !length_le_bytes. Qed.

Lemma length_encode_table prev secs : lenZ (encode_table prev secs) = 16 * lenZ secs.
Proof.
  revert prev. induction secs as [|s secs IH]; intros prev; [done|]. cbn [encode_table].
  rewrite length_app, length_table_entry, Nat2Z.inj_add, IH. simpl length. lia.
Qed.

Lemma length_encode_payload prev secs :
  lenZ (encode_payload prev secs) = layout_end prev secs - prev.
Proof.
  revert prev. induction secs as [|s secs IH]; intros prev; cbn [encode_payload layout_end];
    [simpl; lia|].
  pose proof (align8_bounds prev).
  rewrite !length_app, !Nat2Z.inj_add, IH, length_zeros by lia. lia.
Qed.

Lemma length_encode_body prev secs :
  lenZ (encode_body prev secs) = align8 (layout_end prev secs) - prev.
Proof.
  pose proof (align8_bounds (layout_end prev secs)).
  rewrite encode_body_payload, length_app, Nat2Z.inj_add, length_encode_payload, length_zeros by lia.
  lia.
Qed.

Lemma length_encode_header p : length (encode_header p) = 76%nat.
Proof. unfold encode_header. by rewrite !length_app, !length_le_bytes. Qed.

Lemma length_encode_rest p : lenZ (encode_rest p) = packet_total (pk_sections p) - 80.
Proof.
  unfold encode_rest, packet_total.
  rewrite length_app, Nat2Z.inj_add, length_encode_table, length_encode_body.
  unfold payload_start. lia.
Qed.

Lemma length_encode_with p check :
  length check = 4%nat → lenZ (encode_with p check) = packet_total (pk_sections p).
Proof.
  intros Hc. unfold encode_with.
  rewrite !length_app, !Nat2Z.inj_add, length_encode_rest, length_encode_header, Hc. lia.
Qed.

Lemma packet_total_ge secs : 80 + 16 * lenZ secs ≤ packet_total secs.
Proof.
  unfold packet_total. pose proof (align8_bounds (layout_end (payload_start secs) secs)).
  pose proof (layout_end_ge (payload_start secs) secs). unfold payload_start in *. lia.
Qed.

(** * Lemmas: one section *)

Lemma u32_checked_add_some a b : a + b ≤ u32_max → u32_checked_add a b = Some (a + b).
Proof. intros H. unfold u32_checked_add. by rewrite (proj2 (Z.leb_le _ _) H). Qed.

Lemma u32_checked_mul_some a b : a * b ≤ u32_max → u32_checked_mul a b = Some (a * b).
Proof. intros H. unfold u32_checked_mul. by rewrite (proj2 (Z.leb_le _ _) H). Qed.

(** The guard of the kind check, as a proposition. *)
Lemma kind_guard kind :
  (kind <? SECTION_KIND_ADVISORY_BIT) &&
  negb ((kind =? SECTION_KIND_COMMAND_STREAM) || (kind =? SECTION_KIND_INLINE_DATA)
        || (kind =? SECTION_KIND_RESOURCE_REFERENCES)) = false ↔ kind_known kind.
Proof.
  unfold kind_known.
  destruct (Z.ltb_spec kind SECTION_KIND_ADVISORY_BIT); simpl; [|split; auto].
  destruct (Z.eqb_spec kind SECTION_KIND_COMMAND_STREAM); simpl; [tauto|].
  destruct (Z.eqb_spec kind SECTION_KIND_INLINE_DATA); simpl; [tauto|].
  destruct (Z.eqb_spec kind SECTION_KIND_RESOURCE_REFERENCES); simpl; [tauto|].
  split; [done|lia].
Qed.

Lemma existsb_kind k (l : list Z) : existsb (λ p, p =? k) l = false ↔ k ∉ l.
Proof.
  induction l as [|a l IH]; simpl; [split; [set_solver|done]|].
  rewrite orb_false_iff, IH, Z.eqb_neq. set_solver.
Qed.

Lemma check_item_count_ok s :
  is_u32 (sec_item_count s) → lenZ (sec_bytes s) ≤ u32_max →
  check_item_count (sec_kind s) (lenZ (sec_bytes s)) (sec_item_count s) = Ret tt ↔ item_count_ok s.
Proof.
  intros Hi Hl. unfold check_item_count, item_count_ok, is_u32 in *.
  destruct (Z.eqb_spec (sec_kind s) SECTION_KIND_COMMAND_STREAM) as [->|Hk].
  { rewrite decide_True by done.
    destruct (Z.eqb_spec (lenZ (sec_bytes s) mod 4) 0); simpl; [|naive_solver].
    destruct (Z.ltb_spec (lenZ (sec_bytes s) / 4) (sec_item_count s)); naive_solver lia. }
  rewrite (decide_False (P := sec_kind s = SECTION_KIND_COMMAND_STREAM)) by done.
  assert (Hmul : ∀ w, 0 < w → u32_checked_mul (sec_item_count s) w = Some (lenZ (sec_bytes s))
    ↔ lenZ (sec_bytes s) = w * sec_item_count s).
  { intros w Hw. unfold u32_checked_mul. destruct (Z.leb_spec (sec_item_count s * w) u32_max).
    - split; [intros [= <-]; lia|intros ->; f_equal; lia].
    - split; [done|intros; lia]. }
  destruct (Z.eqb_spec (sec_kind s) SECTION_KIND_RESOURCE_REFERENCES) as [->|Hk2].
  { rewrite decide_True by done. rewrite <- (Hmul 4) by lia.
    case_bool_decide; naive_solver. }
  rewrite (decide_False (P := sec_kind s = SECTION_KIND_RESOURCE_REFERENCES)) by done.
  destruct (Z.eqb_spec (sec_kind s) SECTION_KIND_DAMAGE) as [->|Hk3].
  { rewrite decide_True by done. rewrite <- (Hmul 16) by lia.
    case_bool_decide; naive_solver. }
  rewrite (decide_False (P := sec_kind s = SECTION_KIND_DAMAGE)) by done.
  destruct (Z.ltb_spec (lenZ (sec_bytes s)) (sec_item_count s)); naive_solver lia.
Qed.

Lemma check_item_count_safe k l n : safe (check_item_count k l n).
Proof. unfold check_item_count. by repeat case_match. Qed.

(** The shape [validate] requires at [index], given where the previous section
    ended and which kinds were seen. *)
Definition section_fits (bytes : list Z) (w : SectionWalk) (index : Z) (s : Section_) : Prop :=
  let e := align8 (previous_end w) + lenZ (sec_bytes s) in
  sub bytes (80 + index * 16) (80 + index * 16 + 16) = table_entry s (align8 (previous_end w)) ∧
  section_wf s ∧ ¬ (sec_kind s ∈ sub (seen_kinds w) 0 index) ∧ e ≤ lenZ bytes ∧
  sub bytes (previous_end w) e =
    (zeros (align8 (previous_end w) - previous_end w) ++ sec_bytes s).

Definition walk_next (w : SectionWalk) (index : Z) (s : Section_) : SectionWalk := {|
  seen_kinds := <[Z.to_nat index := sec_kind s]> (seen_kinds w);
  previous_end := align8 (previous_end w) + lenZ (sec_bytes s);
  has_command_stream := has_command_stream w || (sec_kind s =? SECTION_KIND_COMMAND_STREAM) |}.

(** What holds of the walk before every iteration. *)
Definition walk_ok (bytes : list Z) (w : SectionWalk) (index : Z) : Prop :=
  Forall is_u8 bytes ∧ lenZ bytes ≤ MAX_TOTAL_BYTES ∧ 0 ≤ index < 8 ∧
  80 + index * 16 + 16 ≤ lenZ bytes ∧ length (seen_kinds w) = 8%nat ∧
  0 ≤ previous_end w ≤ lenZ bytes.

Lemma table_entry_reads {E} bytes entry s off :
  0 ≤ entry → entry + 16 ≤ lenZ bytes →
  is_u32 (sec_kind s) → is_u32 off → is_u32 (lenZ (sec_bytes s)) → is_u32 (sec_item_count s) →
  sub bytes entry (entry + 16) = table_entry s off →
  read_u32 (E:=E) bytes entry = Ret (sec_kind s) ∧
  read_u32 (E:=E) bytes (entry + 4) = Ret off ∧
  read_u32 (E:=E) bytes (entry + 8) = Ret (lenZ (sec_bytes s)) ∧
  read_u32 (E:=E) bytes (entry + 12) = Ret (sec_item_count s).
Proof.
  intros H0 H1 Hk Ho Hl Hi Hs.
  pose proof (length_sub bytes 0 entry) as Hp.
  assert (bytes = sub bytes 0 entry ++ table_entry s off ++ sub bytes (entry + 16) (lenZ bytes)) as ->.
  { rewrite <- Hs, <- sub_app_split, <- sub_app_split by lia. by rewrite sub_all. }
  unfold table_entry. rewrite <- !app_assoc. set (p := sub bytes 0 entry) in *.
  set (r := sub bytes _ _).
  repeat split.
  - apply read_u32_at; [lia|done].
  - rewrite (app_assoc p). apply read_u32_at; [|done].
    rewrite length_app, length_le_bytes. lia.
  - rewrite (app_assoc p), (app_assoc (p ++ _)). apply read_u32_at; [|done].
    rewrite !length_app, !length_le_bytes. lia.
  - rewrite (app_assoc p), (app_assoc (p ++ _)), (app_assoc ((p ++ _) ++ _)).
    apply read_u32_at; [|done]. rewrite !length_app, !length_le_bytes. lia.
Qed.

Lemma set_idx_ret {E A} (l : list A) i x :
  0 ≤ i → i < lenZ l → set_idx (E:=E) l i x = Ret (<[Z.to_nat i := x]> l).
Proof.
  intros. unfold set_idx. by rewrite (proj2 (Z.leb_le 0 i)), (proj2 (Z.ltb_lt i _)) by lia.
Qed.

Lemma section_fits_at bytes w index s :
  walk_ok bytes w index → section_fits bytes w index s → section_at bytes index = Ret s.
Proof.
  intros (Hb & Hmax & Hi & Hen & Hseen & Hprev) (Hent & (Hk & Hic & Hsb & Hkk & Hicok) & _ & Hend & Hpay).
  pose proof (align8_bounds (previous_end w)) as Hal.
  unfold MAX_TOTAL_BYTES, is_u32 in *.
  destruct (table_entry_reads (E:=WireError) bytes (80 + index * 16) s (align8 (previous_end w)))
    as (R1 & R2 & R3 & R4); unfold is_u32; [lia..|done|].
  unfold section_at, HEADER_BYTES, SECTION_ENTRY_BYTES.
  rewrite R1, bind_ret, R2, bind_ret, R3, bind_ret, R4, bind_ret.
  rewrite slice_ret by lia. rewrite bind_ret.
  enough (sub bytes (align8 (previous_end w)) (align8 (previous_end w) + lenZ (sec_bytes s))
    = sec_bytes s) as -> by (by destruct s).
  rewrite (sub_app_split _ _ (align8 (previous_end w))) in Hpay by lia.
  apply app_inj_1 in Hpay as [_ ?]; [done|].
  apply Nat2Z.inj. rewrite length_sub, length_zeros by lia. lia.
Qed.

Lemma validate_section_ret bytes w index s :
  walk_ok bytes w index → section_fits bytes w index s →
  validate_section bytes (lenZ bytes) w index = Ret (walk_next w index s).
Proof.
  intros (Hb & Hmax & Hi & Hen & Hseen & Hprev) (Hent & (Hk & Hic & Hsb & Hkk & Hicok) & Hnin & Hend & Hpay).
  pose proof (align8_bounds (previous_end w)) as Hal.
  unfold MAX_TOTAL_BYTES, is_u32 in *.
  destruct (table_entry_reads (E:=WireError) bytes (80 + index * 16) s (align8 (previous_end w)))
    as (R1 & R2 & R3 & R4); unfold is_u32; [lia..|done|].
  unfold validate_section, HEADER_BYTES, SECTION_ENTRY_BYTES.
  rewrite R1, bind_ret, R2, bind_ret, R3, bind_ret, R4, bind_ret.
  rewrite (proj2 (kind_guard _) Hkk). rewrite (slice_ret (seen_kinds w)) by lia. rewrite bind_ret.
  rewrite (proj2 (existsb_kind _ _) Hnin). rewrite set_idx_ret by lia. rewrite bind_ret.
  rewrite align_up_spec by (unfold u32_max; lia). cbn [ok_or]. rewrite bind_ret, Z.eqb_refl.
  rewrite u32_checked_add_some by (unfold u32_max; lia). cbn [negb ok_or]. rewrite bind_ret.
  rewrite (proj2 (Z.ltb_ge _ _)) by lia. rewrite slice_ret by lia. rewrite bind_ret.
  rewrite (sub_app_split _ _ (align8 (previous_end w))) in Hpay by lia.
  apply app_inj_1 in Hpay as [Hz _];
    [|apply Nat2Z.inj; rewrite length_sub, length_zeros by lia; lia].
  rewrite Hz. unfold any_nonzero. rewrite zeros_all_zero.
  rewrite (proj2 (check_item_count_ok s ltac:(done) ltac:(unfold u32_max; lia)) Hicok). done.
Qed.

Lemma validate_section_inv bytes w index w' :
  walk_ok bytes w index → validate_section bytes (lenZ bytes) w index = Ret w' →
  ∃ s, section_fits bytes w index s ∧ w' = walk_next w index s.
Proof.
  intros (Hb & Hmax & Hi & Hen & Hseen & Hprev) HV.
  pose proof (align8_bounds (previous_end w)) as Hal.
  unfold validate_section, HEADER_BYTES, SECTION_ENTRY_BYTES in HV.
  unfold MAX_TOTAL_BYTES in *. set (entry := 80 + index * 16) in *.
  rewrite align_up_spec in HV by (unfold u32_max; lia).
  destruct (read_u32 bytes entry) as [kind| | |] eqn:R1; try discriminate.
  destruct (read_u32 bytes (entry + 4)) as [offset| | |] eqn:R2; try discriminate.
  destruct (read_u32 bytes (entry + 8)) as [len| | |] eqn:R3; try discriminate.
  destruct (read_u32 bytes (entry + 12)) as [item| | |] eqn:R4; try discriminate.
  rewrite !bind_ret in HV.
  apply read_u32_inv in R1 as [S1 B1], R2 as [S2 B2], R3 as [S3 B3], R4 as [S4 B4]; try lia; auto.
  destruct (_ && _) eqn:G1; [discriminate|]. apply kind_guard in G1.
  rewrite (slice_ret (seen_kinds w)), bind_ret in HV by lia.
  destruct (existsb _ _) eqn:G2; [discriminate|]. apply existsb_kind in G2.
  rewrite set_idx_ret, bind_ret in HV by lia.
  cbn [ok_or] in HV. rewrite bind_ret in HV.
  destruct (Z.eqb_spec offset (align8 (previous_end w))) as [->|]; [|discriminate].
  cbn [negb] in HV. destruct (u32_checked_add _ _) as [e|] eqn:G3; [|discriminate].
  assert (e = align8 (previous_end w) + len) as ->.
  { unfold u32_checked_add in G3. case_match; congruence. }
  cbn [ok_or] in HV. rewrite bind_ret in HV.
  destruct (Z.ltb_spec (lenZ bytes) (align8 (previous_end w) + len)); [discriminate|].
  unfold is_u32 in *. rewrite slice_ret, bind_ret in HV by lia.
  destruct (any_nonzero _) eqn:G4; [discriminate|].
  apply all_zero_zeros with (n := align8 (previous_end w) - previous_end w) in G4;
    [|apply length_sub; lia].
  destruct (check_item_count _ _ _) as [[]| | |] eqn:G5; try discriminate.
  rewrite bind_ret in HV. injection HV as <-.
  set (payload := sub bytes (align8 (previous_end w)) (align8 (previous_end w) + len)).
  assert (lenZ payload = len) as Hlen by (unfold payload; rewrite length_sub; lia).
  exists {| sec_kind := kind; sec_item_count := item; sec_bytes := payload |}.
  unfold section_fits, walk_next. cbn [sec_kind sec_item_count sec_bytes]. rewrite Hlen.
  split; [|done]. split_and!; [| |done|lia|].
  - unfold table_entry. cbn [sec_kind sec_item_count sec_bytes]. rewrite Hlen, <- S1, <- S2, <- S3, <- S4.
    replace (entry + 4 + 4) with (entry + 8) by lia. replace (entry + 8 + 4) with (entry + 12) by lia.
    replace (entry + 12 + 4) with (entry + 16) by lia.
    by rewrite <- !sub_app_split by lia.
  - unfold section_wf. cbn [sec_kind sec_item_count sec_bytes].
    split_and!; auto; [unfold payload; auto|].
    apply (check_item_count_ok {| sec_kind := kind; sec_item_count := item; sec_bytes := payload |});
      cbn [sec_kind sec_item_count sec_bytes]; [done|unfold u32_max; lia|by rewrite Hlen].
  - rewrite <- G4. apply sub_app_split; lia.
Qed.

Lemma read_u32_safe {E} bytes at_ :
  0 ≤ at_ → at_ + 4 ≤ lenZ bytes → safe (read_u32 (E:=E) bytes at_).
Proof. intros. by rewrite read_u32_slice. Qed.

Lemma validate_section_safe bytes w index :
  walk_ok bytes w index → safe (validate_section bytes (lenZ bytes) w index).
Proof.
  intros (Hb & Hmax & Hi & Hen & Hseen & Hprev).
  pose proof (align8_bounds (previous_end w)) as Hal.
  unfold validate_section, HEADER_BYTES, SECTION_ENTRY_BYTES, MAX_TOTAL_BYTES in *.
  rewrite align_up_spec by (unfold u32_max; lia). cbn [ok_or].
  apply safe_bind; [apply read_u32_safe; lia|intros kind _].
  apply safe_bind; [apply read_u32_safe; lia|intros offset R2].
  apply safe_bind; [apply read_u32_safe; lia|intros len R3].
  apply safe_bind; [apply read_u32_safe; lia|intros item _].
  apply read_u32_inv in R2 as [_ B2], R3 as [_ B3]; try lia; auto.
  destruct (_ && _); [done|]. rewrite (slice_ret (seen_kinds w)), bind_ret by lia.
  destruct (existsb _ _); [done|]. rewrite set_idx_ret, !bind_ret by lia.
  destruct (Z.eqb_spec offset (align8 (previous_end w))) as [->|]; [|done]. cbn [negb].
  apply safe_bind; [apply safe_ok_or|intros e He].
  unfold u32_checked_add in He. case_match; [|done]. injection He as <-.
  destruct (Z.ltb_spec (lenZ bytes) (align8 (previous_end w) + len)); [done|].
  unfold is_u32 in *. rewrite slice_ret, bind_ret by lia.
  destruct (any_nonzero _); [done|].
  apply safe_bind; [apply check_item_count_safe|done].
Qed.

(** * Lemmas: the section loop *)

(** The runs of the section loop that succeed, with the sections they read. *)
Inductive walk (bytes : list Z) : SectionWalk → Z → list Section_ → SectionWalk → Prop :=
  | walk_nil w index : walk bytes w index [] w
  | walk_cons w index s secs w' :
      walk_ok bytes w index → section_fits bytes w index s →
      walk bytes (walk_next w index s) (index + 1) secs w' →
      walk bytes w index (s :: secs) w'.

(** What holds of the walk before the loop and after every iteration. *)
Definition walk_bounds (bytes : list Z) (w : SectionWalk) (index : Z) (count : nat) : Prop :=
  Forall is_u8 bytes ∧ lenZ bytes ≤ MAX_TOTAL_BYTES ∧ 0 ≤ index ∧
  index + Z.of_nat count ≤ 8 ∧ 80 + (index + Z.of_nat count) * 16 ≤ lenZ bytes ∧
  length (seen_kinds w) = 8%nat ∧ 0 ≤ previous_end w ≤ lenZ bytes.

Lemma walk_bounds_ok bytes w index count :
  walk_bounds bytes w index (S count) → walk_ok bytes w index.
Proof. intros (?&?&?&?&?&?&?). repeat split; auto; lia. Qed.

Lemma walk_bounds_next bytes w index count s :
  walk_bounds bytes w index (S count) → section_fits bytes w index s →
  walk_bounds bytes (walk_next w index s) (index + 1) count.
Proof.
  intros (?&?&?&?&?&?&?) (_&_&_&?&_). pose proof (align8_bounds (previous_end w)).
  unfold walk_bounds, walk_next; simpl. rewrite length_insert. repeat split; auto; lia.
Qed.

Lemma validate_sections_walk bytes secs w index w' :
  walk bytes w index secs w' →
  validate_sections bytes (lenZ bytes) w index (length secs) = Ret w' ∧
  sections_from bytes index (length secs) = Ret secs.
Proof.
  induction 1 as [|w index s secs w' Hok Hfit Hw [IH1 IH2]]; [done|].
  simpl. erewrite validate_section_ret, section_fits_at by done.
  by rewrite !bind_ret, IH1, IH2.
Qed.

Lemma validate_sections_inv bytes count w index w' :
  walk_bounds bytes w index count →
  validate_sections bytes (lenZ bytes) w index count = Ret w' →
  ∃ secs, length secs = count ∧ walk bytes w index secs w'.
Proof.
  revert w index. induction count as [|count IH]; simpl; intros w index Hb HV.
  { injection HV as <-. exists []. split; [done|constructor]. }
  destruct (validate_section _ _ _ _) as [w1| | |] eqn:E1; try discriminate.
  apply validate_section_inv in E1 as (s & Hfit & ->); [|by eapply walk_bounds_ok].
  apply IH in HV as (secs & <- & Hw); [|by eapply walk_bounds_next].
  exists (s :: secs). split; [done|]. constructor; [by eapply walk_bounds_ok|done..].
Qed.

Lemma validate_sections_safe bytes count w index :
  walk_bounds bytes w index count →
  safe (validate_sections bytes (lenZ bytes) w index count).
Proof.
  revert w index. induction count as [|count IH]; simpl; intros w index Hb; [done|].
  apply safe_bind; [by eapply validate_section_safe, walk_bounds_ok|].
  intros w1 (s & Hfit & ->)%validate_section_inv; [|by eapply walk_bounds_ok].
  by eapply IH, walk_bounds_next.
Qed.

Lemma sub_insert_le (l : list Z) i x :
  0 ≤ i → i < lenZ l → sub (<[Z.to_nat i := x]> l) 0 (i + 1) = sub l 0 i ++ [x].
Proof.
  intros. unfold sub. rewrite !drop_0, !Z.sub_0_r.
  replace (Z.to_nat (i + 1)) with (S (Z.to_nat i)) by lia.
  erewrite take_S_r; [|apply list_lookup_insert_eq; lia].
  by rewrite take_insert_ge by lia.
Qed.

Lemma walk_facts bytes w index secs w' :
  walk bytes w index secs w' →
  sub bytes (80 + index * 16) (80 + (index + lenZ secs) * 16) = encode_table (previous_end w) secs ∧
  sub bytes (previous_end w) (previous_end w') = encode_payload (previous_end w) secs ∧
  previous_end w' = layout_end (previous_end w) secs ∧
  Forall section_wf secs ∧
  sub (seen_kinds w') 0 (index + lenZ secs) = sub (seen_kinds w) 0 index ++ (sec_kind <$> secs) ∧
  (NoDup (sub (seen_kinds w) 0 index) → NoDup (sub (seen_kinds w') 0 (index + lenZ secs))) ∧
  (has_command_stream w' = true ↔
   has_command_stream w = true ∨ SECTION_KIND_COMMAND_STREAM ∈ (sec_kind <$> secs)) ∧
  (previous_end w ≤ lenZ bytes → previous_end w' ≤ lenZ bytes).
Proof.
  induction 1 as [w index|w index s secs w' Hok Hfit Hw IH].
  { cbn [length encode_table encode_payload layout_end fmap list_fmap]. rewrite !Z.add_0_r, app_nil_r.
    unfold sub. rewrite !Z.sub_diag. split_and!; auto. set_solver. }
  destruct Hok as (Hb & Hmax & Hi & Hen & Hseen & Hprev), Hfit as (F1 & F2 & F3 & F4 & F5).
  destruct IH as (I1 & I2 & I3 & I4 & I5 & I6 & I7 & I8).
  unfold walk_next in *. cbn [seen_kinds previous_end has_command_stream] in *.
  pose proof (align8_bounds (previous_end w)).
  pose proof (layout_end_ge (align8 (previous_end w) + lenZ (sec_bytes s)) secs).
  cbn [length encode_table encode_payload layout_end]. rewrite Nat2Z.inj_succ.
  rewrite sub_insert_le in I5, I6 by lia.
  replace (index + Z.succ (lenZ secs)) with (index + 1 + lenZ secs) by lia.
  split_and!.
  - rewrite (sub_app_split _ _ (80 + index * 16 + 16)) by lia. rewrite F1. f_equal.
    rewrite <- I1. f_equal; lia.
  - rewrite (sub_app_split _ _ (align8 (previous_end w) + lenZ (sec_bytes s))) by lia.
    by rewrite F5, I2, <- app_assoc.
  - done.
  - by constructor.
  - by rewrite I5, <- app_assoc.
  - intros Hnd. apply I6. apply NoDup_app. split_and!; [done| |apply NoDup_singleton].
    set_solver.
  - rewrite I7, orb_true_iff, Z.eqb_eq. set_solver.
  - intros _. apply I8. lia.
Qed.

(** * Lemmas: the encoding is accepted *)

Lemma encode_split_entry p chk d s r :
  length chk = 4%nat → pk_sections p = d ++ s :: r →
  let prev := layout_end (payload_start (pk_sections p)) d in
  ∃ pre post, encode_with p chk = pre ++ table_entry s (align8 prev) ++ post ∧
    lenZ pre = 80 + lenZ d * 16.
Proof.
  intros Hc Hs prev. unfold encode_with, encode_rest.
  exists (encode_header p ++ chk ++ encode_table (payload_start (pk_sections p)) d).
  rewrite !length_app, length_encode_header, Hc, !Nat2Z.inj_add, length_encode_table.
  eexists. split; [|lia].
  replace (encode_table (payload_start (pk_sections p)) (pk_sections p))
    with (encode_table (payload_start (pk_sections p)) (d ++ s :: r)) by (by rewrite <- Hs).
  rewrite encode_table_app. cbn [encode_table].
  fold prev. by rewrite <- !app_assoc.
Qed.

Lemma encode_split_payload p chk d s r :
  length chk = 4%nat → pk_sections p = d ++ s :: r →
  let prev := layout_end (payload_start (pk_sections p)) d in
  ∃ pre post, encode_with p chk = pre ++ (zeros (align8 prev - prev) ++ sec_bytes s) ++ post ∧
    lenZ pre = prev.
Proof.
  intros Hc Hs prev. set (secs := pk_sections p) in *. unfold encode_with, encode_rest. fold secs.
  exists (encode_header p ++ chk ++ encode_table (payload_start secs) secs ++
          encode_payload (payload_start secs) d).
  rewrite !length_app, length_encode_header, Hc, !Nat2Z.inj_add, length_encode_table,
    length_encode_payload.
  eexists. split; [|unfold payload_start in *; unfold prev; lia].
  rewrite encode_body_payload.
  replace (encode_payload (payload_start secs) secs)
    with (encode_payload (payload_start secs) (d ++ s :: r)) by (by rewrite <- Hs).
  rewrite encode_payload_app.
  cbn [encode_payload]. fold prev. by rewrite <- !app_assoc.
Qed.

Lemma layout_end_mid d s r start :
  let prev := layout_end start d in
  align8 prev + lenZ (sec_bytes s) ≤ layout_end start (d ++ s :: r).
Proof. intros prev. rewrite layout_end_app. cbn [layout_end]. apply layout_end_ge. Qed.

Lemma section_wf_bytes s : section_wf s → Forall is_u8 (sec_bytes s).
Proof. by intros (_&_&?&_). Qed.

Lemma zeros_bytes n : Forall is_u8 (zeros n).
Proof. apply Forall_replicate. unfold is_u8. lia. Qed.

#[local] Hint Resolve zeros_bytes section_wf_bytes : core.

Lemma encode_table_bytes prev secs : Forall is_u8 (encode_table prev secs).
Proof.
  revert prev. induction secs; intros; cbn [encode_table]; [done|].
  unfold table_entry. rewrite !Forall_app. auto 10.
Qed.

Lemma encode_body_bytes prev secs :
  Forall section_wf secs → Forall is_u8 (encode_body prev secs).
Proof.
  intros H. revert prev. induction H; intros; cbn [encode_body]; [auto|].
  rewrite !Forall_app. auto.
Qed.

Lemma encode_with_bytes p chk :
  packet_wf p → Forall is_u8 chk → Forall is_u8 (encode_with p chk).
Proof.
  intros (_&_&_&_&_&_&_&Hs&_) Hc. unfold encode_with, encode_header, encode_rest.
  rewrite !Forall_app. split_and!; auto using encode_table_bytes, encode_body_bytes.
Qed.

(** The loop reads the sections of an encoded packet back. *)
Lemma encode_walk p chk todo : ∀ done_ w,
  packet_wf p → length chk = 4%nat → Forall is_u8 chk →
  pk_sections p = done_ ++ todo →
  length (seen_kinds w) = 8%nat → sub (seen_kinds w) 0 (lenZ done_) = sec_kind <$> done_ →
  previous_end w = layout_end (payload_start (pk_sections p)) done_ →
  ∃ w', walk (encode_with p chk) w (lenZ done_) todo w'.
Proof.
  induction todo as [|s todo IH]; intros d w Hwf Hc Hcb Hs Hlen Hseen Hprev.
  { exists w. constructor. }
  pose proof (length_encode_with p chk Hc) as Htot.
  pose proof (packet_total_ge (pk_sections p)) as Hge.
  destruct Hwf as (W1&W2&W3&W4&W5&W6&W7&W8&W9&W10&W11) eqn:Hwf'. clear Hwf'.
  assert (lenZ (pk_sections p) = lenZ d + 1 + lenZ todo) as Hn
    by (rewrite Hs, length_app; simpl; lia).
  pose proof (layout_end_mid d s todo (payload_start (pk_sections p))) as Hmid.
  rewrite <- Hs, <- Hprev in Hmid.
  pose proof (align8_bounds (layout_end (payload_start (pk_sections p)) (pk_sections p))) as Hal.
  pose proof (align8_bounds (previous_end w)) as Hal'.
  pose proof (layout_end_ge (payload_start (pk_sections p)) d) as Hge'.
  unfold MAX_SECTIONS, packet_total, payload_start in *. rewrite <- Hprev in Hge'.
  destruct (encode_split_entry p chk d s todo Hc Hs) as (pre & post & E1 & L1).
  destruct (encode_split_payload p chk d s todo Hc Hs) as (pre' & post' & E2 & L2).
  unfold payload_start in *. rewrite <- Hprev in E1, E2, L2.
  assert (Hok : walk_ok (encode_with p chk) w (lenZ d)).
  { split_and!; try lia; auto using encode_with_bytes. }
  assert (Hfit : section_fits (encode_with p chk) w (lenZ d) s).
  { split_and!.
    - rewrite E1. apply sub_mid; rewrite ?length_table_entry; lia.
    - rewrite Hs in W8. apply Forall_app in W8 as [_ W8]. by apply Forall_cons_1 in W8 as [? _].
    - rewrite Hseen. rewrite Hs, fmap_app, fmap_cons, NoDup_app in W9.
      destruct W9 as (_ & W9 & _). intros Hin. apply (W9 _ Hin). set_solver.
    - lia.
    - rewrite E2. apply sub_mid; [lia|]. rewrite length_app, Nat2Z.inj_add, length_zeros; lia. }
  destruct (IH (d ++ [s]) (walk_next w (lenZ d) s)) as [w' Hw']; auto.
  - by rewrite <- app_assoc.
  - unfold walk_next; simpl. by rewrite length_insert.
  - rewrite length_app, fmap_app. simpl. rewrite Nat2Z.inj_add. change (Z.of_nat 1) with 1.
    rewrite sub_insert_le by lia. by rewrite Hseen.
  - simpl. rewrite layout_end_app. cbn [layout_end]. unfold payload_start. by rewrite <- Hprev.
  - exists w'. constructor; [done..|]. rewrite length_app, Nat2Z.inj_add in Hw'. done.
Qed.

(** * Lemmas: reading the header of an encoded packet *)

Lemma read_u32_skip {E} p l at_ :
  lenZ p ≤ at_ → read_u32 (E:=E) (p ++ l) at_ = read_u32 l (at_ - lenZ p).
Proof.
  intros Hp. unfold read_u32, idx.
  assert (∀ k, 0 ≤ k → (p ++ l) !! Z.to_nat (at_ + k) = l !! Z.to_nat (at_ - lenZ p + k)) as H.
  { intros k Hk. rewrite lookup_app_r by lia. f_equal. lia. }
  pose proof (H 0 ltac:(lia)) as H0. rewrite !Z.add_0_r in H0.
  by rewrite H0, !H by lia.
Qed.

Lemma slice_skip {E A} (p l : list A) lo hi :
  lenZ p ≤ lo → slice (E:=E) (p ++ l) lo hi = slice l (lo - lenZ p) (hi - lenZ p).
Proof.
  intros Hp. unfold slice. rewrite length_app.
  destruct (Z.leb_spec lo hi) as [Hle|Hgt].
  - rewrite sub_app_r by done.
    replace (lo - lenZ p <=? hi - lenZ p) with true by (symmetry; apply Z.leb_le; lia).
    replace (hi <=? Z.of_nat (length p + length l)) with (hi - lenZ p <=? lenZ l)
      by (apply eq_true_iff_eq; rewrite !Z.leb_le; lia).
    by rewrite !(proj2 (Z.leb_le 0 _)) by lia.
  - replace (lo - lenZ p <=? hi - lenZ p) with false by (symmetry; apply Z.leb_gt; lia).
    by rewrite !andb_false_r.
Qed.

Lemma read_u32_head {E} l v at_ :
  at_ = 0 → is_u32 v → read_u32 (E:=E) (le_bytes 4 v ++ l) at_ = Ret v.
Proof. intros -> Hv. by apply (read_u32_at [] l v 0). Qed.

Lemma slice_head {E} (m s : list Z) at_ hi :
  at_ = 0 → hi = lenZ m → slice (E:=E) (m ++ s) at_ hi = Ret m.
Proof. intros -> ->. by apply (slice_at [] m s). Qed.

Ltac read_field :=
  unfold encode_with, encode_header, read_u64, read_u128; rewrite <- ?app_assoc;
  repeat first
    [ rewrite read_u32_skip by (rewrite ?length_le_bytes; simpl; lia)
    | rewrite slice_skip by (rewrite ?length_le_bytes; simpl; lia) ];
  rewrite ?length_le_bytes;
  first [ apply read_u32_head; [simpl; lia|first [assumption|vm_compute; split; [discriminate|reflexivity]]]
        | rewrite slice_head by (rewrite ?length_le_bytes; simpl; lia);
          rewrite bind_ret; unfold mret, outcome_ret; rewrite le_value_roundtrip; [reflexivity|assumption] ].

(** Every header field of an encoded packet is read back. *)
Lemma header_reads {E} p chk c :
  packet_wf p → chk = le_bytes 4 c → is_u32 c →
  let bytes := encode_with p chk in
  read_u32 (E:=E) bytes OFF_MAGIC = Ret WIRE_MAGIC ∧
  read_u32 (E:=E) bytes OFF_WIRE_VERSION = Ret WIRE_VERSION ∧
  read_u32 (E:=E) bytes OFF_HEADER_BYTES = Ret HEADER_BYTES ∧
  read_u32 (E:=E) bytes OFF_TOTAL_BYTES = Ret (packet_total (pk_sections p)) ∧
  read_u128 (E:=E) bytes OFF_LAUNCH_NONCE = Ret (pk_launch_nonce p) ∧
  read_u64 (E:=E) bytes OFF_SEQUENCE = Ret (pk_sequence p) ∧
  read_u64 (E:=E) bytes OFF_RUNTIME_GENERATION = Ret (pk_runtime_generation p) ∧
  read_u64 (E:=E) bytes OFF_SURFACE_GENERATION = Ret (pk_surface_generation p) ∧
  read_u64 (E:=E) bytes OFF_RESOURCE_EPOCH = Ret (pk_resource_epoch p) ∧
  read_u32 (E:=E) bytes OFF_FRAME_ID = Ret (pk_frame_id p) ∧
  read_u32 (E:=E) bytes OFF_FLAGS = Ret FLAG_PRESENT ∧
  read_u32 (E:=E) bytes OFF_SECTION_COUNT = Ret (lenZ (pk_sections p)) ∧
  read_u32 (E:=E) bytes OFF_CHECKSUM = Ret c.
Proof.
  intros (W1&W2&W3&W4&W5&W6&W7&W8&W9&W10&W11) -> Hc bytes.
  pose proof (packet_total_ge (pk_sections p)) as Hge.
  assert (is_u32 (packet_total (pk_sections p))) by (unfold is_u32, MAX_TOTAL_BYTES in *; lia).
  assert (is_u32 (lenZ (pk_sections p))) by (unfold is_u32, MAX_SECTIONS in *; lia).
  unfold OFF_MAGIC, OFF_WIRE_VERSION, OFF_HEADER_BYTES, OFF_TOTAL_BYTES, OFF_LAUNCH_NONCE,
    OFF_SEQUENCE, OFF_RUNTIME_GENERATION, OFF_SURFACE_GENERATION, OFF_RESOURCE_EPOCH,
    OFF_FRAME_ID, OFF_FLAGS, OFF_SECTION_COUNT, OFF_CHECKSUM, bytes.
  split_and!; read_field.
Qed.

(** * Lemmas: the checksum *)

Lemma checksum_input_split pre chk rest :
  length pre = 76%nat → length chk = 4%nat →
  checksum_input (pre ++ chk ++ rest) = pre ++ zeros 4 ++ rest.
Proof.
  intros Hp Hc. unfold checksum_input, OFF_CHECKSUM_END, OFF_CHECKSUM.
  rewrite !length_app, Hp, Hc.
  rewrite Z.min_r by lia. rewrite take_app_length' by lia. f_equal.
  rewrite (proj2 (Z.leb_le _ _)) by lia. f_equal.
  rewrite app_assoc, drop_app_length'; [done|]. rewrite length_app, Hp, Hc. lia.
Qed.

Lemma checksum_encode_with {C : Crc32} p chk :
  length chk = 4%nat → checksum (encode_with p chk) = crc32 (encode_with p (zeros 4)).
Proof.
  intros Hc. unfold checksum, encode_with.
  rewrite checksum_input_split; auto using length_encode_header.
Qed.

(** The flag checks leave one value. *)
Lemma flags_present flags :
  is_u32 flags → Z.land flags (u32_not FLAG_KNOWN_MASK) = 0 → Z.land flags FLAG_PRESENT ≠ 0 →
  flags = FLAG_PRESENT.
Proof.
  intros Hf H1 H2. change FLAG_KNOWN_MASK with (Z.ones 1) in H1.
  rewrite land_not_ones in H1 by (done || lia).
  change FLAG_PRESENT with (Z.ones 1) in *. rewrite Z.land_ones in H2 by lia.
  change (2 ^ 1) with 2 in *. change (Z.ones 1) with 1.
  pose proof (Z.div_mod flags 2). pose proof (Z.mod_pos_bound flags 2). lia.
Qed.

(** * Lemmas: validation against the abstract packet *)

(** A packet with any stored checksum: everything but the checksum is accepted. *)
Lemma validate_encode_with {C : Crc32} p c :
  packet_wf p → is_u32 c →
  validate (encode_with p (le_bytes 4 c)) =
    (if crc32 (encode_with p (zeros 4)) =? c
     then Ret (frame_with p (encode_with p (le_bytes 4 c))) else Fail ChecksumMismatch) ∧
  sections (frame_with p (encode_with p (le_bytes 4 c))) = Ret (pk_sections p).
Proof.
  intros Hwf Hc. set (chk := le_bytes 4 c). assert (length chk = 4%nat) as Hchk by apply length_le_bytes.
  destruct (header_reads (E:=WireError) p chk c Hwf eq_refl Hc)
    as (R1&R2&R3&R4&R5&R6&R7&R8&R9&R10&R11&R12&R13).
  pose proof (length_encode_with p chk Hchk) as Hlen.
  pose proof (packet_total_ge (pk_sections p)) as Hge.
  set (w0 := {| seen_kinds := zeros MAX_SECTIONS; previous_end := payload_start (pk_sections p);
                has_command_stream := false |}).
  destruct (encode_walk p chk (pk_sections p) [] w0) as [w' Hw]; auto; [by unfold chk|].
  change (lenZ []) with 0 in Hw.
  destruct (walk_facts _ _ _ _ _ Hw) as (F1&F2&F3&F4&F5&F6&F7&F8).
  apply validate_sections_walk in Hw as [V1 V2].
  destruct Hwf as (W1&W2&W3&W4&W5&W6&W7&W8&W9&W10&W11).
  unfold MAX_SECTIONS in W7. unfold MAX_TOTAL_BYTES in W11.
  assert (previous_end w' ≤ lenZ (encode_with p chk)) as Hpe
    by (apply F8; unfold w0, payload_start; cbn [previous_end]; lia).
  assert (payload_start (pk_sections p) ≤ previous_end w') as Hpe'
    by (rewrite F3; apply layout_end_ge).
  change (previous_end w0) with (payload_start (pk_sections p)) in F3.
  split; [|unfold sections, frame_with; simpl; rewrite Nat2Z.id; done].
  unfold validate.
  rewrite (proj2 (Z.ltb_ge _ _)) by (unfold HEADER_BYTES; lia).
  rewrite R1, bind_ret, R2, bind_ret, R3, bind_ret, R4, bind_ret.
  rewrite !Z.eqb_refl. cbn [negb].
  rewrite (proj2 (Z.leb_le HEADER_BYTES _)) by (unfold HEADER_BYTES; lia).
  rewrite (proj2 (Z.leb_le _ MAX_TOTAL_BYTES)) by (unfold MAX_TOTAL_BYTES; lia).
  rewrite Hlen, Z.eqb_refl. cbn [negb andb].
  rewrite R11, bind_ret. cbn [Z.land FLAG_PRESENT Z.eqb negb].
  change (Z.land FLAG_PRESENT (u32_not FLAG_KNOWN_MASK) =? 0) with true.
  change (Z.land FLAG_PRESENT FLAG_PRESENT =? 0) with false. cbn [negb].
  rewrite R12, bind_ret. rewrite (proj2 (Z.ltb_ge _ _)) by (unfold MAX_SECTIONS; lia).
  rewrite u32_checked_mul_some by (unfold SECTION_ENTRY_BYTES, u32_max; lia). cbn [ok_or].
  rewrite bind_ret, u32_checked_add_some by (unfold SECTION_ENTRY_BYTES, HEADER_BYTES, u32_max; lia).
  cbn [ok_or]. rewrite bind_ret.
  replace (HEADER_BYTES + lenZ (pk_sections p) * SECTION_ENTRY_BYTES)
    with (payload_start (pk_sections p))
    by (unfold payload_start, HEADER_BYTES, SECTION_ENTRY_BYTES; lia).
  rewrite (proj2 (Z.ltb_ge _ _)) by (unfold payload_start; lia).
  rewrite Nat2Z.id, <- Hlen. fold w0. rewrite V1, bind_ret.
  rewrite (proj2 F7) by auto. cbn [negb].
  rewrite align_up_spec by (unfold payload_start, u32_max in *; lia). cbn [ok_or]. rewrite bind_ret.
  rewrite F3 at 1. fold (packet_total (pk_sections p)). rewrite Hlen, Z.eqb_refl. cbn [negb].
  rewrite slice_ret by (unfold payload_start in *; lia). rewrite bind_ret.
  assert (any_nonzero (sub (encode_with p chk) (previous_end w') (packet_total (pk_sections p)))
    = false) as ->.
  { unfold encode_with, encode_rest. rewrite encode_body_payload, <- F3, !app_assoc.
    rewrite sub_suffix; [apply zeros_all_zero|..].
    all: rewrite ?length_app, ?length_encode_header, ?Hchk, ?Nat2Z.inj_add, ?length_encode_table,
      ?length_encode_payload, <- ?F3, ?length_zeros; unfold packet_total, payload_start in *.
    all: rewrite <- ?F3 in *; pose proof (align8_bounds (previous_end w')); lia. }
  rewrite R13, bind_ret, checksum_encode_with by done.
  destruct (crc32 (encode_with p (zeros 4)) =? c); [|done]. cbn [negb].
  rewrite R5, bind_ret, R6, bind_ret, R7, bind_ret, R8, bind_ret, R9, bind_ret, R10, bind_ret.
  done.
Qed.

Lemma validate_encode {C : Crc32} p :
  packet_wf p → validate (encode p) = Ret (frame_of p) ∧ sections (frame_of p) = Ret (pk_sections p).
Proof.
  intros Hwf. destruct (validate_encode_with p (crc32 (encode_with p (zeros 4))) Hwf (crc32_u32 _))
    as [H1 H2].
  rewrite Z.eqb_refl in H1. done.
Qed.

(** What a successful validation read, as slices of the packet. *)
Lemma validate_header_inv {C : Crc32} bytes f :
  Forall is_u8 bytes → validate bytes = Ret f →
  ∃ w c,
    80 ≤ lenZ bytes ≤ MAX_TOTAL_BYTES ∧ f = {| wf_bytes := bytes;
      wf_launch_nonce := wf_launch_nonce f; wf_sequence := wf_sequence f;
      wf_runtime_generation := wf_runtime_generation f;
      wf_surface_generation := wf_surface_generation f;
      wf_resource_epoch := wf_resource_epoch f; wf_frame_id := wf_frame_id f;
      wf_flags := FLAG_PRESENT; wf_section_count := wf_section_count f |} ∧
    sub bytes 0 4 = le_bytes 4 WIRE_MAGIC ∧ sub bytes 4 8 = le_bytes 4 WIRE_VERSION ∧
    sub bytes 8 12 = le_bytes 4 HEADER_BYTES ∧ sub bytes 12 16 = le_bytes 4 (lenZ bytes) ∧
    sub bytes 16 32 = le_bytes 16 (wf_launch_nonce f) ∧ sub bytes 32 40 = le_bytes 8 (wf_sequence f) ∧
    sub bytes 40 48 = le_bytes 8 (wf_runtime_generation f) ∧
    sub bytes 48 56 = le_bytes 8 (wf_surface_generation f) ∧
    sub bytes 56 64 = le_bytes 8 (wf_resource_epoch f) ∧ sub bytes 64 68 = le_bytes 4 (wf_frame_id f) ∧
    sub bytes 68 72 = le_bytes 4 FLAG_PRESENT ∧ sub bytes 72 76 = le_bytes 4 (wf_section_count f) ∧
    sub bytes 76 80 = le_bytes 4 c ∧ c = checksum bytes ∧
    is_u128 (wf_launch_nonce f) ∧ is_u64 (wf_sequence f) ∧ is_u64 (wf_runtime_generation f) ∧
    is_u64 (wf_surface_generation f) ∧ is_u64 (wf_resource_epoch f) ∧ is_u32 (wf_frame_id f) ∧
    0 ≤ wf_section_count f ≤ 8 ∧ 80 + 16 * wf_section_count f ≤ lenZ bytes ∧
    validate_sections bytes (lenZ bytes)
      {| seen_kinds := zeros MAX_SECTIONS; previous_end := 80 + 16 * wf_section_count f;
         has_command_stream := false |} 0 (Z.to_nat (wf_section_count f)) = Ret w ∧
    has_command_stream w = true ∧
    (0 ≤ previous_end w ≤ lenZ bytes → align8 (previous_end w) = lenZ bytes ∧
      sub bytes (previous_end w) (lenZ bytes) = zeros (lenZ bytes - previous_end w)).
Proof.
  intros Hb HV. unfold validate in HV.
  unfold OFF_MAGIC, OFF_WIRE_VERSION, OFF_HEADER_BYTES, OFF_TOTAL_BYTES, OFF_LAUNCH_NONCE,
    OFF_SEQUENCE, OFF_RUNTIME_GENERATION, OFF_SURFACE_GENERATION, OFF_RESOURCE_EPOCH,
    OFF_FRAME_ID, OFF_FLAGS, OFF_SECTION_COUNT, OFF_CHECKSUM, SECTION_ENTRY_BYTES in HV.
  destruct (Z.ltb_spec (lenZ bytes) HEADER_BYTES) as [|Hlen]; [discriminate|].
  change HEADER_BYTES with 80 in Hlen.
  destruct (read_u32 bytes 0) as [x0| | |] eqn:R0; try discriminate. rewrite bind_ret in HV.
  destruct (Z.eqb_spec x0 WIRE_MAGIC) as [->|]; [|discriminate]. cbn [negb] in HV.
  destruct (read_u32 bytes 4) as [x1| | |] eqn:R1; try discriminate. rewrite bind_ret in HV.
  destruct (Z.eqb_spec x1 WIRE_VERSION) as [->|]; [|discriminate]. cbn [negb] in HV.
  destruct (read_u32 bytes 8) as [x2| | |] eqn:R2; try discriminate. rewrite bind_ret in HV.
  destruct (Z.eqb_spec x2 HEADER_BYTES) as [->|]; [|discriminate]. cbn [negb] in HV.
  destruct (read_u32 bytes 12) as [total| | |] eqn:R3; try discriminate. rewrite bind_ret in HV.
  destruct (Z.leb_spec HEADER_BYTES total); [|discriminate].
  destruct (Z.leb_spec total MAX_TOTAL_BYTES); [|discriminate]. cbn [negb andb] in HV.
  destruct (Z.eqb_spec total (lenZ bytes)) as [->|]; [|discriminate]. cbn [negb] in HV.
  destruct (read_u32 bytes 68) as [flags| | |] eqn:R4; try discriminate. rewrite bind_ret in HV.
  destruct (Z.eqb_spec (Z.land flags (u32_not FLAG_KNOWN_MASK)) 0) as [Hf1|]; [|discriminate].
  destruct (Z.eqb_spec (Z.land flags FLAG_PRESENT) 0) as [|Hf2]; [discriminate|]. cbn [negb] in HV.
  destruct (read_u32 bytes 72) as [n| | |] eqn:R5; try discriminate. rewrite bind_ret in HV.
  destruct (Z.ltb_spec MAX_SECTIONS n) as [|Hn]; [discriminate|].
  change MAX_SECTIONS with 8 in Hn.
  apply read_u32_inv in R0 as [S0 B0], R1 as [S1 B1], R2 as [S2 B2], R3 as [S3 B3],
    R4 as [S4 B4], R5 as [S5 B5]; auto; try lia.
  apply flags_present in Hf2 as ->; try done.
  unfold is_u32 in B5.
  rewrite u32_checked_mul_some in HV by (unfold u32_max; lia). cbn [ok_or] in HV.
  rewrite bind_ret, u32_checked_add_some in HV by (unfold HEADER_BYTES, u32_max; lia).
  cbn [ok_or] in HV. rewrite bind_ret in HV.
  change HEADER_BYTES with 80 in HV. rewrite (Z.mul_comm n) in HV.
  destruct (Z.ltb_spec (lenZ bytes) (80 + 16 * n)); [discriminate|].
  destruct (validate_sections _ _ _ _ _) as [w| | |] eqn:HW; try discriminate.
  rewrite bind_ret in HV.
  destruct (has_command_stream w) eqn:Hcs; [|discriminate]. cbn [negb] in HV.
  destruct (align_up (previous_end w)) as [ct|] eqn:Hal; [|discriminate].
  cbn [ok_or] in HV. rewrite bind_ret in HV.
  destruct (Z.eqb_spec (lenZ bytes) ct) as [<-|]; [|discriminate]. cbn [negb] in HV.
  destruct (slice bytes (previous_end w) (lenZ bytes)) as [pad| | |] eqn:Hpad; try discriminate.
  rewrite bind_ret in HV. destruct (any_nonzero pad) eqn:Hz; [discriminate|].
  destruct (read_u32 bytes 76) as [c| | |] eqn:R6; try discriminate. rewrite bind_ret in HV.
  destruct (Z.eqb_spec (checksum bytes) c) as [<-|]; [|discriminate]. cbn [negb] in HV.
  destruct (read_u128 bytes 16) as [x7| | |] eqn:R7; try discriminate. rewrite bind_ret in HV.
  destruct (read_u64 bytes 32) as [x8| | |] eqn:R8; try discriminate. rewrite bind_ret in HV.
  destruct (read_u64 bytes 40) as [x9| | |] eqn:R9; try discriminate. rewrite bind_ret in HV.
  destruct (read_u64 bytes 48) as [xa| | |] eqn:Ra; try discriminate. rewrite bind_ret in HV.
  destruct (read_u64 bytes 56) as [xb| | |] eqn:Rb; try discriminate. rewrite bind_ret in HV.
  destruct (read_u32 bytes 64) as [xc| | |] eqn:Rc; try discriminate. rewrite bind_ret in HV.
  injection HV as <-. cbn [wf_launch_nonce wf_sequence wf_runtime_generation
    wf_surface_generation wf_resource_epoch wf_frame_id wf_section_count].
  apply read_u32_inv in R6 as [S6 B6], Rc as [Sc Bc]; auto; try lia.
  apply read_u128_inv in R7 as [S7 B7]; auto; try lia.
  apply read_u64_inv in R8 as [S8 B8], R9 as [S9 B9], Ra as [Sa Ba], Rb as [Sb Bb]; auto; try lia.
  exists w, (checksum bytes). split_and!; auto; try lia.
  intros Hpe. apply slice_inv in Hpad as (_&_&_&->). split.
  - rewrite align_up_spec in Hal; [congruence|lia|].
    unfold MAX_TOTAL_BYTES, u32_max in *. lia.
  - apply all_zero_zeros; [done|]. apply length_sub; lia.
Qed.

Lemma validate_inv {C : Crc32} bytes f :
  Forall is_u8 bytes → validate bytes = Ret f →
  ∃ p, packet_wf p ∧ bytes = encode p ∧ f = frame_of p.
Proof.
  intros Hb HV.
  apply validate_header_inv in HV as (w&c&Hlen&Hf&S0&S1&S2&S3&S4&S5&S6&S7&S8&S9&S10&S11&S12&Hc&
    B1&B2&B3&B4&B5&B6&B7&B8&HW&Hcs&Hend); [|done].
  unfold MAX_TOTAL_BYTES in *.
  apply validate_sections_inv in HW as (secs & Hn & Hw);
    [|repeat split; simpl; auto; unfold MAX_TOTAL_BYTES; lia].
  apply walk_facts in Hw as (F1&F2&F3&F4&F5&F6&F7&F8).
  cbn [seen_kinds previous_end has_command_stream] in *.
  assert (wf_section_count f = lenZ secs) as Hcount by lia.
  rewrite Hcount in *. fold (payload_start secs) in *.
  pose proof (layout_end_ge (payload_start secs) secs) as Hge. rewrite <- F3 in Hge.
  destruct Hend as [Hal Hpad]; [unfold payload_start in *; lia|].
  set (p := {| pk_launch_nonce := wf_launch_nonce f; pk_sequence := wf_sequence f;
    pk_runtime_generation := wf_runtime_generation f;
    pk_surface_generation := wf_surface_generation f;
    pk_resource_epoch := wf_resource_epoch f; pk_frame_id := wf_frame_id f;
    pk_sections := secs |}).
  assert (packet_total secs = lenZ bytes) as Htot by (unfold packet_total; by rewrite <- F3).
  assert (Hbytes : bytes = encode_with p (le_bytes 4 c)).
  { rewrite <- (sub_all bytes (lenZ bytes)) at 1 by done.
    unfold encode_with, encode_header, encode_rest, p.
    cbn [pk_launch_nonce pk_sequence pk_runtime_generation pk_surface_generation
      pk_resource_epoch pk_frame_id pk_sections].
    rewrite Htot, encode_body_payload, <- F3, <- F2, Hal, <- Hpad.
    replace (encode_table (payload_start secs) secs) with (sub bytes 80 (payload_start secs))
      by (rewrite <- F1; f_equal; unfold payload_start; lia).
    rewrite <- S0, <- S1, <- S2, <- S3, <- S4, <- S5, <- S6, <- S7, <- S8, <- S9, <- S10, <- S11,
      <- S12, <- !app_assoc.
    unfold payload_start in *. rewrite <- !sub_app_split by lia. done. }
  exists p. split_and!.
  - split_and!; auto; simpl; unfold MAX_SECTIONS, MAX_TOTAL_BYTES; try lia.
    + rewrite F5 in F6. unfold sub in F6. simpl in F6. apply F6. constructor.
    + apply F7 in Hcs as [|]; [done|done].
  - unfold encode. rewrite <- (checksum_encode_with p (le_bytes 4 c)) by apply length_le_bytes.
    by rewrite <- Hbytes, <- Hc.
  - rewrite Hf. unfold frame_of, frame_with, p; cbn -[encode]. f_equal.
    unfold encode. rewrite <- (checksum_encode_with p (le_bytes 4 c)) by apply length_le_bytes.
    by rewrite <- Hbytes, <- Hc.
Qed.

Lemma validate_safe_aux {C : Crc32} bytes : Forall is_u8 bytes → safe (validate bytes).
Proof.
  intros Hb. unfold validate, OFF_MAGIC, OFF_WIRE_VERSION, OFF_HEADER_BYTES, OFF_TOTAL_BYTES,
    OFF_LAUNCH_NONCE, OFF_SEQUENCE, OFF_RUNTIME_GENERATION, OFF_SURFACE_GENERATION,
    OFF_RESOURCE_EPOCH, OFF_FRAME_ID, OFF_FLAGS, OFF_SECTION_COUNT, OFF_CHECKSUM.
  destruct (Z.ltb_spec (lenZ bytes) HEADER_BYTES) as [|Hlen]; [done|].
  change HEADER_BYTES with 80 in *.
  assert (R : ∀ at_, 0 ≤ at_ → at_ + 4 ≤ 80 → safe (read_u32 (E:=WireError) bytes at_))
    by (intros; apply read_u32_safe; lia).
  do 3 (apply safe_bind; [apply R; lia|intros ? ?]; destruct (negb _); [done|]).
  apply safe_bind; [apply R; lia|intros total _].
  destruct (Z.leb_spec 80 total) as [Ht1|]; [|done].
  destruct (Z.leb_spec total MAX_TOTAL_BYTES) as [Ht2|]; [|done]. cbn [negb andb].
  destruct (Z.eqb_spec total (lenZ bytes)) as [->|]; [|done]. cbn [negb].
  apply safe_bind; [apply R; lia|intros flags _].
  destruct (negb _); [done|]. destruct (_ =? 0); [done|].
  apply safe_bind; [apply R; lia|intros n Hn]. apply read_u32_inv in Hn as [_ Hn]; auto; try lia.
  destruct (Z.ltb_spec MAX_SECTIONS n) as [|Hn8]; [done|].
  unfold is_u32, MAX_SECTIONS, SECTION_ENTRY_BYTES in *.
  rewrite u32_checked_mul_some by (unfold u32_max; lia). cbn [ok_or].
  rewrite bind_ret, u32_checked_add_some by (unfold u32_max; lia).
  cbn [ok_or]. rewrite bind_ret.
  destruct (Z.ltb_spec (lenZ bytes) (80 + n * 16)); [done|].
  set (w0 := {| seen_kinds := _; previous_end := _; has_command_stream := _ |}).
  assert (walk_bounds bytes w0 0 (Z.to_nat n)) as Hw0 by (repeat split; simpl; auto; lia).
  apply safe_bind; [by apply validate_sections_safe|intros w Hw].
  apply validate_sections_inv in Hw as (secs & Hlens & Hw); [|done].
  apply walk_facts in Hw as (_&_&Hpe&_&_&_&_&Hle).
  pose proof (layout_end_ge (previous_end w0) secs) as Hge. rewrite <- Hpe in Hge.
  assert (previous_end w ≤ lenZ bytes) by (apply Hle; simpl; lia).
  assert (0 ≤ previous_end w) by (simpl in Hge; lia).
  destruct (negb _); [done|]. apply safe_bind; [apply safe_ok_or|intros ct _].
  destruct (negb _); [done|]. rewrite slice_ret, bind_ret by lia.
  destruct (any_nonzero _); [done|].
  apply safe_bind; [apply R; lia|intros stored _]. destruct (negb _); [done|].
  unfold read_u128, read_u64. rewrite !slice_ret by lia.
  do 5 (apply safe_bind; [done|intros ? _]).
  apply safe_bind; [apply R; lia|done].
Qed.

(** * Lemmas: the builder *)

Lemma builder_align_up_spec {E} v :
  0 ≤ v → v ≤ MAX_TOTAL_BYTES → builder_align_up (E:=E) v = Ret (align8 v).
Proof.
  intros. pose proof (align8_bounds v). unfold builder_align_up, u32_mul, SECTION_ALIGNMENT.
  unfold MAX_TOTAL_BYTES in *. fold (align8 v).
  by rewrite (proj2 (Z.leb_le _ _)) by (unfold u32_max; lia).
Qed.

Lemma u32_mul_ret {E} a b : a * b ≤ u32_max → u32_mul (E:=E) a b = Ret (a * b).
Proof. intros. unfold u32_mul. by rewrite (proj2 (Z.leb_le _ _)). Qed.

Lemma len_as_u32_small {A} (l : list A) : lenZ l ≤ MAX_TOTAL_BYTES → len_as_u32 l = lenZ l.
Proof. intros. unfold len_as_u32, MAX_TOTAL_BYTES in *. apply Z.mod_small. lia. Qed.

(** Where the builder puts each section. *)
Fixpoint layout_offsets (prev : Z) (secs : list Section_) : list Z :=
  match secs with
  | [] => []
  | s :: secs => align8 prev :: layout_offsets (align8 prev + lenZ (sec_bytes s)) secs
  end.

Lemma build_offsets_spec {E} prev secs :
  0 ≤ prev → layout_end prev secs ≤ MAX_TOTAL_BYTES →
  build_offsets (E:=E) 0 prev secs = Ret (layout_offsets prev secs, layout_end prev secs).
Proof.
  revert prev. induction secs as [|s secs IH]; intros prev H0 H1;
    cbn [build_offsets layout_offsets layout_end] in *; [done|].
  pose proof (align8_bounds prev).
  pose proof (layout_end_ge (align8 prev + lenZ (sec_bytes s)) secs).
  unfold MAX_TOTAL_BYTES in *.
  rewrite builder_align_up_spec by (unfold MAX_TOTAL_BYTES; lia). rewrite bind_ret.
  rewrite u32_add_ret by (unfold u32_max; lia). rewrite bind_ret, Z.add_0_r.
  rewrite len_as_u32_small by (unfold MAX_TOTAL_BYTES; lia).
  rewrite u32_add_ret by (unfold u32_max; lia). rewrite bind_ret, IH by lia.
  by rewrite bind_ret.
Qed.

Lemma put_mid {E} p m s v at_ :
  at_ = lenZ p → length m = 4%nat →
  put_u32 (E:=E) (p ++ m ++ s) at_ v = Ret (p ++ le_bytes 4 v ++ s).
Proof. intros. unfold put_u32. apply copy_mid; [done|]. by rewrite length_le_bytes. Qed.

(** One table entry and its payload, written into zeroed space. *)
Lemma build_sections_spec {E} secs : ∀ hdr tbl pay prev index,
  length hdr = 80%nat → lenZ tbl = 16 * index → 0 ≤ index →
  lenZ hdr + lenZ tbl + 16 * lenZ secs + lenZ pay = prev →
  layout_end prev secs ≤ MAX_TOTAL_BYTES →
  build_sections (E:=E)
    (hdr ++ tbl ++ zeros (16 * lenZ secs) ++ pay ++ zeros (align8 (layout_end prev secs) - prev))
    index (zip secs (layout_offsets prev secs)) =
  Ret (hdr ++ tbl ++ encode_table prev secs ++ pay ++ encode_body prev secs).
Proof.
  induction secs as [|s secs IH]; intros hdr tbl pay prev index Hh Ht Hi Hprev Hmax.
  { cbn [length zip layout_offsets layout_end encode_table encode_body build_sections].
    done. }
  cbn [zip zip_with layout_offsets layout_end encode_table encode_body build_sections] in *.
  pose proof (align8_bounds prev) as Hal.
  pose proof (layout_end_ge (align8 prev + lenZ (sec_bytes s)) secs) as Hge.
  set (e := layout_end (align8 prev + lenZ (sec_bytes s)) secs) in *.
  pose proof (align8_bounds e) as Hal2.
  simpl length in Hprev |- *. rewrite Nat2Z.inj_succ in *.
  unfold MAX_TOTAL_BYTES in *. rewrite len_as_u32_small by (unfold MAX_TOTAL_BYTES; lia).
  replace (16 * Z.succ (lenZ secs)) with (4 + (4 + (4 + (4 + 16 * lenZ secs)))) by lia.
  rewrite !(zeros_app 4) by lia. rewrite <- !app_assoc.
  replace (align8 e - prev) with
    ((align8 prev - prev) + (lenZ (sec_bytes s) + (align8 e - (align8 prev + lenZ (sec_bytes s)))))
    by lia.
  rewrite !zeros_app by lia. unfold HEADER_BYTES, SECTION_ENTRY_BYTES.
  rewrite (app_assoc hdr), put_mid by (rewrite ?length_app; done || lia).
  rewrite bind_ret, (app_assoc (hdr ++ tbl)).
  rewrite put_mid by (rewrite ?length_app, ?length_le_bytes; done || lia).
  rewrite bind_ret, (app_assoc ((hdr ++ tbl) ++ _)).
  rewrite put_mid by (rewrite ?length_app, ?length_le_bytes; done || lia).
  rewrite bind_ret, (app_assoc (((hdr ++ tbl) ++ _) ++ _)).
  rewrite put_mid by (rewrite ?length_app, ?length_le_bytes; done || lia).
  rewrite bind_ret.
  pose proof (length_table_entry s (align8 prev)) as HT.
  rewrite <- !app_assoc.
  match goal with |- mbind _ (copy_from_slice ?L _ _) = _ =>
    replace L with ((hdr ++ tbl ++ table_entry s (align8 prev) ++ zeros (16 * lenZ secs) ++ pay ++
        zeros (align8 prev - prev)) ++ zeros (lenZ (sec_bytes s)) ++
        zeros (align8 e - (align8 prev + lenZ (sec_bytes s))))
      by (unfold table_entry; by rewrite <- !app_assoc)
  end.
  rewrite copy_mid.
  2: { rewrite !length_app, !Nat2Z.inj_add, !length_zeros, HT by lia. lia. }
  2: { apply Nat2Z.inj. by rewrite length_zeros by lia. }
  rewrite bind_ret, <- !app_assoc, (app_assoc tbl), (app_assoc pay), (app_assoc (pay ++ _)).
  etransitivity;
    [apply (IH hdr (tbl ++ table_entry s (align8 prev))
      ((pay ++ zeros (align8 prev - prev)) ++ sec_bytes s) (align8 prev + lenZ (sec_bytes s)))|].
  all: rewrite ?length_app, ?Nat2Z.inj_add, ?HT, ?length_zeros by lia; try (done || lia).
  by rewrite <- !app_assoc.
Qed.

Lemma copy_skip {E A} (p l bs : list A) at_ :
  lenZ p ≤ at_ →
  copy_from_slice (E:=E) (p ++ l) at_ bs =
  (r ← copy_from_slice l (at_ - lenZ p) bs; mret (p ++ r)).
Proof.
  intros Hp. unfold copy_from_slice. rewrite length_app, Nat2Z.inj_add.
  rewrite !(proj2 (Z.leb_le 0 _)) by lia. simpl.
  replace (at_ - lenZ p + lenZ bs <=? lenZ l) with (at_ + lenZ bs <=? lenZ p + lenZ l)
    by (apply eq_true_iff_eq; rewrite !Z.leb_le; lia).
  case_match; [|done]. rewrite bind_ret. unfold mret, outcome_ret. f_equal.
  rewrite take_app_ge, drop_app_ge, <- app_assoc by lia.
  repeat f_equal; lia.
Qed.

Lemma copy_head {E A} (m s bs : list A) at_ :
  at_ = 0 → length m = length bs → copy_from_slice (E:=E) (m ++ s) at_ bs = Ret (bs ++ s).
Proof. intros -> H. by apply (copy_mid [] m s bs). Qed.

Ltac put_field :=
  repeat rewrite copy_skip by (rewrite ?length_le_bytes, ?length_zeros by lia; simpl; lia);
  rewrite ?length_le_bytes, ?length_zeros by lia;
  rewrite copy_head by (rewrite ?length_le_bytes; simpl; lia || done);
  rewrite ?bind_ret; unfold mret, outcome_ret; rewrite ?bind_ret.

(** The builder with canonical knobs writes the encoding. *)
Lemma build_encode {C : Crc32} {E} p :
  packet_wf p → build (E:=E) (builder_of p) = Ret (encode p).
Proof.
  intros (W1&W2&W3&W4&W5&W6&W7&W8&W9&W10&W11).
  pose proof (packet_total_ge (pk_sections p)) as Hge.
  pose proof (align8_bounds (layout_end (payload_start (pk_sections p)) (pk_sections p))) as Hal.
  pose proof (layout_end_ge (payload_start (pk_sections p)) (pk_sections p)) as Hle.
  fold (packet_total (pk_sections p)) in Hal.
  unfold MAX_SECTIONS, MAX_TOTAL_BYTES in *.
  assert (packet_total (pk_sections p) ≤ u32_max) by (unfold u32_max; lia).
  unfold build, builder_of. cbn -[build_offsets build_sections put_u32 put_u64 put_u128 lenZ].
  rewrite len_as_u32_small by (unfold MAX_TOTAL_BYTES; lia).
  unfold SECTION_ENTRY_BYTES, HEADER_BYTES.
  rewrite u32_mul_ret, bind_ret by (unfold u32_max; lia).
  rewrite u32_add_ret, bind_ret by (unfold u32_max; lia).
  replace (80 + lenZ (pk_sections p) * 16) with (payload_start (pk_sections p))
    by (unfold payload_start; lia).
  rewrite build_offsets_spec, bind_ret by (unfold payload_start, MAX_TOTAL_BYTES in *; lia).
  rewrite builder_align_up_spec, bind_ret by (unfold payload_start, MAX_TOTAL_BYTES in *; lia).
  fold (packet_total (pk_sections p)).
  rewrite u32_add_ret, bind_ret, Z.add_0_r by lia.
  set (n := lenZ (pk_sections p)) in *. set (total := packet_total (pk_sections p)) in *.
  change (replicate (Z.to_nat total) 0) with (zeros total).
  assert (zeros total = zeros 4 ++ zeros 4 ++ zeros 4 ++ zeros 4 ++ zeros 16 ++ zeros 8 ++
    zeros 8 ++ zeros 8 ++ zeros 8 ++ zeros 4 ++ zeros 4 ++ zeros 4 ++ zeros 4 ++
    zeros (16 * n) ++ zeros (total - payload_start (pk_sections p))) as ->.
  { rewrite <- !zeros_app by (unfold payload_start in *; lia). f_equal. unfold payload_start. lia. }
  unfold put_u32, put_u64, put_u128, OFF_MAGIC, OFF_WIRE_VERSION, OFF_HEADER_BYTES, OFF_TOTAL_BYTES,
    OFF_LAUNCH_NONCE, OFF_SEQUENCE, OFF_RUNTIME_GENERATION, OFF_SURFACE_GENERATION,
    OFF_RESOURCE_EPOCH, OFF_FRAME_ID, OFF_FLAGS, OFF_SECTION_COUNT.
  do 12 put_field.
  fold HEADER_BYTES. change (le_bytes 4 80) with (le_bytes 4 HEADER_BYTES).
  pose proof (build_sections_spec (E:=E) (pk_sections p) (encode_header p ++ zeros 4) [] []
    (payload_start (pk_sections p)) 0) as HB.
  rewrite length_app, length_encode_header in HB. cbn [app length] in HB.
  change (length (zeros 4)) with 4%nat in HB.
  fold (packet_total (pk_sections p)) n total in HB.
  match goal with |- mbind _ (build_sections ?L _ _) = _ =>
    replace L with ((encode_header p ++ zeros 4) ++ zeros (16 * n) ++
        zeros (total - payload_start (pk_sections p)))
      by (unfold encode_header; fold total n; by rewrite <- !app_assoc)
  end.
  rewrite HB by (unfold total, n, payload_start, MAX_TOTAL_BYTES in *; done || lia). clear HB. rewrite bind_ret.
  rewrite <- app_assoc. unfold OFF_CHECKSUM.
  rewrite copy_mid by (rewrite ?length_encode_header; done). rewrite bind_ret.
  change (le_bytes 4 0) with (zeros 4).
  fold (encode_rest p). fold (encode_with p (zeros 4)).
  unfold stamp_checksum. rewrite length_encode_with by done. fold total.
  rewrite (proj2 (Z.ltb_ge _ _)) by (unfold HEADER_BYTES; lia).
  rewrite checksum_encode_with by done. unfold OFF_CHECKSUM, encode. unfold encode_with at 1.
  by rewrite copy_mid by (rewrite ?length_encode_header, ?length_le_bytes; done).
Qed.

(** * Lemmas: looking sections up *)

Lemma find_section_spec bytes kind count index secs :
  sections_from bytes index count = Ret secs →
  find_section bytes kind index count = Ret (List.find (λ s, sec_kind s =? kind) secs).
Proof.
  revert index secs. induction count as [|count IH]; intros index secs H; simpl in *.
  { by injection H as <-. }
  destruct (section_at bytes index) as [s| | |]; try discriminate. rewrite bind_ret in *.
  destruct (sections_from bytes (index + 1) count) as [rest| | |] eqn:E; try discriminate.
  injection H as <-. simpl. case_match; [done|]. eauto.
Qed.

Lemma find_kind_in secs kind :
  kind ∈ (sec_kind <$> secs) →
  ∃ s, List.find (λ s, sec_kind s =? kind) secs = Some s ∧ s ∈ secs ∧ sec_kind s = kind.
Proof.
  induction secs as [|s secs IH]; simpl; [set_solver|].
  destruct (Z.eqb_spec (sec_kind s) kind) as [Hk|Hk].
  - exists s. set_solver.
  - intros Hin. destruct IH as (t & ? & ? & ?); [set_solver|]. exists t. set_solver.
Qed.

Lemma command_stream_found {C : Crc32} p :
  packet_wf p → ∃ s, command_stream (frame_of p) = Ret (Some s) ∧ s ∈ pk_sections p ∧
    sec_kind s = SECTION_KIND_COMMAND_STREAM.
Proof.
  intros Hwf. destruct (validate_encode p Hwf) as [_ Hs].
  destruct Hwf as (_&_&_&_&_&_&_&_&_&W10&_).
  destruct (find_kind_in _ _ W10) as (s & Hf & Hin & Hk). exists s.
  unfold command_stream. split; [|done]. rewrite <- Hf. by apply find_section_spec.
Qed.

Lemma references_resources_spec {C : Crc32} p :
  packet_wf p →
  references_resources (frame_of p) =
  Ret (existsb (λ s, sec_kind s =? SECTION_KIND_RESOURCE_REFERENCES) (pk_sections p)).
Proof.
  intros Hwf. destruct (validate_encode p Hwf) as [_ Hs].
  unfold references_resources. rewrite (find_section_spec _ _ _ _ _ Hs), bind_ret.
  unfold mret, outcome_ret. f_equal.
  clear. induction (pk_sections p) as [|s secs IH]; simpl; [done|]. by destruct (_ =? _); simpl.
Qed.

Lemma encode_bytes {C : Crc32} p : packet_wf p → Forall is_u8 (encode p).
Proof. intros. apply encode_with_bytes; auto. Qed.

(** * A concrete instance *)

(** The bitwise CRC-32 of IEEE 802.3, which [crc32fast] computes. *)
Fixpoint crc_bits (n : nat) (c : Z) : Z :=
  match n with
  | O => c
  | S n => crc_bits n (if Z.odd c then Z.lxor (Z.shiftr c 1) 0xEDB88320 else Z.shiftr c 1)
  end.

Definition crc_ieee : Crc32.
Proof.
  refine {| crc32 := λ l,
    (Z.lxor (fold_left (λ c b, crc_bits 8 (Z.lxor c b)) l 0xFFFFFFFF) 0xFFFFFFFF) mod 2 ^ 32 |}.
  intros l. apply Z.mod_pos_bound. lia.
Defined.

Definition sample_packet : Packet := {|
  pk_launch_nonce := 0x0123456789ABCDEF0123456789ABCDEF; pk_sequence := 1;
  pk_runtime_generation := 1; pk_surface_generation := 2; pk_resource_epoch := 0;
  pk_frame_id := 7;
  pk_sections := [
    {| sec_kind := SECTION_KIND_COMMAND_STREAM; sec_item_count := 0;
       sec_bytes := le_bytes 4 0x4D474C31 ++ le_bytes 4 1 |};
    {| sec_kind := SECTION_KIND_INLINE_DATA; sec_item_count := 1; sec_bytes := [1; 2; 3] |} ] |}.

#[global] Instance kind_known_dec k : Decision (kind_known k).
Proof. unfold kind_known. apply _. Defined.
#[global] Instance item_count_ok_dec s : Decision (item_count_ok s).
Proof. unfold item_count_ok. simpl. repeat case_decide; apply _. Defined.
#[global] Instance section_wf_dec s : Decision (section_wf s).
Proof. unfold section_wf. apply _. Defined.
#[global] Instance packet_wf_dec p : Decision (packet_wf p).
Proof. unfold packet_wf. apply _. Defined.

Lemma sample_packet_wf : packet_wf sample_packet.
Proof. apply (bool_decide_unpack _). by vm_compute. Qed.

Lemma sample_packet_bytes : Forall is_u8 (@encode crc_ieee sample_packet).
Proof. apply (bool_decide_unpack _). by vm_compute. Qed.

(** [bytes] with a [u32] field replaced. *)
Definition patch (bytes : list Z) (at_ : nat) (v : Z) : list Z :=
  take at_ bytes ++ le_bytes 4 v ++ drop (at_ + 4) bytes.

(** A packet that fails with each error, given the CRC. *)
Definition failing_packet {C : Crc32} (e : WireError) : list Z :=
  let base := encode_with sample_packet (zeros 4) in
  match e with
  | ShorterThanHeader => []
  | BadMagic => patch base 0 0
  | UnsupportedVersion => patch base 4 2
  | BadHeaderBytes => patch base 8 81
  | BadTotalBytes => patch base 12 79
  | LengthMismatch => patch base 12 (lenZ base + 1)
  | TooManySections => patch base 72 9
  | SectionTableOutOfBounds => patch (patch (take 80 base) 12 80) 72 1
  | SectionOutOfBounds => patch base 88 0xFFFFFF00
  | SectionNotCanonical => patch base 84 120
  | PaddingNotZero => patch base (length base - 4) 1
  | DuplicateSection => patch base 96 1
  | UnknownRequiredSection => patch base 80 4
  | ChecksumMismatch =>
      encode_with sample_packet (le_bytes 4
        (if crc32 (encode_with sample_packet (zeros 4)) =? 0 then 1 else 0))
  | UnknownFlags => patch base 68 3
  | MissingPresent => patch base 68 0
  | CommandStreamNotWordAligned => patch base 88 6
  | ItemCountInconsistent => patch base 92 3
  | MissingCommandStream => patch base 80 SECTION_KIND_TIMING
  | TotalBytesNotCanonical => patch (base ++ zeros 8) 12 (lenZ base + 8)
  end.

(** * Properties *)

(** C1: Round trip. Every well-formed packet is encoded by the builder, and
    [validate] accepts the result and reads back exactly the header fields and
    the sections that went in. *)
Theorem validate_build_roundtrip {C : Crc32} (p : Packet) :
  packet_wf p →
  ∃ bytes, build (E := WireError) (builder_of p) = Ret bytes ∧
    validate bytes = Ret (frame_with p bytes) ∧
    sections (frame_with p bytes) = Ret (pk_sections p).
Proof.
  intros Hwf. exists (encode p). split; [by apply build_encode|by apply validate_encode].
Qed.

Theorem validate_build_roundtrip_witness :
  packet_wf sample_packet ∧
  ∃ bytes, @build crc_ieee WireError (builder_of sample_packet) = Ret bytes ∧
    @validate crc_ieee bytes = Ret (frame_with sample_packet bytes) ∧
    sections (frame_with sample_packet bytes) = Ret (pk_sections sample_packet).
Proof.
  split; [apply sample_packet_wf|].
  apply (@validate_build_roundtrip crc_ieee sample_packet), sample_packet_wf.
Defined.

(** C2: The envelope is canonical: an accepted byte string is the builder's
    encoding of one well-formed packet, of no other, and of that packet's
    header fields and sections the frame consists. *)
Theorem validate_canonical {C : Crc32} (bytes : list Z) (f : WireFrame) :
  Forall is_u8 bytes → validate bytes = Ret f →
  ∃ p, packet_wf p ∧ build (E := WireError) (builder_of p) = Ret bytes ∧
    f = frame_with p bytes ∧ sections f = Ret (pk_sections p) ∧
    ∀ q, packet_wf q → build (E := WireError) (builder_of q) = Ret bytes → q = p.
Proof.
  intros Hb HV. destruct (validate_inv bytes f Hb HV) as (p & Hwf & -> & ->). exists p.
  destruct (validate_encode p Hwf) as [_ Hs]. split_and!; auto using build_encode.
  intros q Hq. rewrite build_encode by done. intros Heq%Ret_inj.
  destruct (validate_encode q Hq) as [Hqv Hqs]. unfold frame_of in *.
  rewrite Heq in Hqv, Hqs. rewrite HV in Hqv.
  assert (frame_with p (encode p) = frame_with q (encode p)) as Hf by congruence.
  rewrite <- Hf, Hs in Hqs.
  pose proof (f_equal wf_launch_nonce Hf). pose proof (f_equal wf_sequence Hf).
  pose proof (f_equal wf_runtime_generation Hf). pose proof (f_equal wf_surface_generation Hf).
  pose proof (f_equal wf_resource_epoch Hf). pose proof (f_equal wf_frame_id Hf).
  clear -Hqs H H0 H1 H2 H3 H4. destruct p, q; simpl in *. congruence.
Qed.

Theorem validate_canonical_witness :
  ∃ p, packet_wf p ∧ @build crc_ieee WireError (builder_of p) = Ret (@encode crc_ieee sample_packet) ∧
    @frame_of crc_ieee sample_packet = frame_with p (@encode crc_ieee sample_packet) ∧
    sections (@frame_of crc_ieee sample_packet) = Ret (pk_sections p) ∧
    ∀ q, packet_wf q →
      @build crc_ieee WireError (builder_of q) = Ret (@encode crc_ieee sample_packet) → q = p.
Proof.
  apply (@validate_canonical crc_ieee (encode sample_packet)); [apply sample_packet_bytes|].
  by vm_compute.
Defined.

(** C4: No input makes the parser panic: [validate] answers every byte string,
    and on an accepted one the section iterator, [command_stream] and
    [references_resources] answer too, the command stream being there. *)
Theorem validate_never_panics {C : Crc32} (bytes : list Z) :
  Forall is_u8 bytes →
  safe (validate bytes) ∧
  ∀ f, validate bytes = Ret f → presents f = true ∧
    ∃ secs s, sections f = Ret secs ∧ command_stream f = Ret (Some s) ∧ s ∈ secs ∧
      sec_kind s = SECTION_KIND_COMMAND_STREAM ∧ lenZ (sec_bytes s) mod 4 = 0 ∧
      references_resources f =
        Ret (existsb (λ s, sec_kind s =? SECTION_KIND_RESOURCE_REFERENCES) secs).
Proof.
  intros Hb. split; [by apply validate_safe_aux|].
  intros f HV. destruct (validate_inv bytes f Hb HV) as (p & Hwf & -> & ->).
  split; [done|]. destruct (command_stream_found p Hwf) as (s & Hs & Hin & Hk).
  exists (pk_sections p), s. destruct (validate_encode p Hwf) as [_ Hsec].
  split_and!; auto using references_resources_spec.
  destruct Hwf as (_&_&_&_&_&_&_&W8&_). rewrite Forall_forall in W8.
  destruct (W8 s Hin) as (_&_&_&_&Hi). unfold item_count_ok in Hi.
  rewrite decide_True in Hi by done. tauto.
Qed.

Theorem validate_never_panics_witness :
  safe (@validate crc_ieee (@encode crc_ieee sample_packet)) ∧
  ∀ f, @validate crc_ieee (@encode crc_ieee sample_packet) = Ret f → presents f = true ∧
    ∃ secs s, sections f = Ret secs ∧ command_stream f = Ret (Some s) ∧ s ∈ secs ∧
      sec_kind s = SECTION_KIND_COMMAND_STREAM ∧ lenZ (sec_bytes s) mod 4 = 0 ∧
      references_resources f =
        Ret (existsb (λ s, sec_kind s =? SECTION_KIND_RESOURCE_REFERENCES) secs).
Proof. apply (@validate_never_panics crc_ieee), sample_packet_bytes. Defined.

(** Every error of the envelope is one some packet gets: no code of
    [WireError] names an unreachable branch, whatever the CRC. *)
Theorem every_wire_error_reachable {C : Crc32} (e : WireError) :
  validate (failing_packet e) = Fail e.
Proof.
  destruct (decide (e = ChecksumMismatch)) as [->|He].
  2: { destruct e; lazymatch goal with
       | He : ChecksumMismatch ≠ ChecksumMismatch |- _ => by destruct He
       | _ => vm_compute; reflexivity end. }
  unfold failing_packet. set (k := crc32 _).
  destruct (validate_encode_with sample_packet (if k =? 0 then 1 else 0) sample_packet_wf) as [-> _].
  { by destruct (k =? 0). }
  fold k. destruct (Z.eqb_spec k 0) as [->|Hk]; [done|].
  by rewrite (proj2 (Z.eqb_neq k 0)).
Qed.

(** The error codes are the numbers [1..=20] in the order of [ALL], so two
    errors never share a code; and the header layout is the 80 header bytes
    with no gap. *)
Theorem wire_codes_and_layout :
  (WireError_code <$> WireError_ALL) = seqZ 1 20 ∧
  (∀ e, e ∈ WireError_ALL) ∧
  (∀ e1 e2, WireError_code e1 = WireError_code e2 → e1 = e2) ∧
  layout_contiguous 0 HEADER_BYTES HEADER_LAYOUT = true.
Proof.
  split_and!; [done| |intros [] []; done|done].
  intros []; apply (bool_decide_unpack _); by vm_compute.
Qed.
