(* ===== verification/PackagePath.v ===== *)
(** The paths of the entries of a package
    ([validate_entry_path] of [engine/crates/shared/src/vfs/package.rs]): their
    normal form, and when two of them conflict. *)
From S2P Require Import Prelude Text.

(** * Errors *)

(** The kinds of [io::Error] that occur. *)
Inductive io_error := NotFound | UnexpectedEof | StorageFull | InvalidData | InvalidInput | OtherError.

(** The errors of a package, without their texts. *)
Inductive PackageError :=
  | Io (e : io_error)
  | BadMagic
  | UnsupportedVersion (version : Z)
  | BadIndex
  | InvalidEntryPath
  | ChecksumMismatch (path : text) (expected actual : Z)
  | DecompressSizeMismatch (path : text) (expected actual : Z).

#[global] Instance io_error_eq_dec : EqDecision io_error.
Proof. solve_decision. Defined.
#[global] Instance PackageError_eq_dec : EqDecision PackageError.
Proof. solve_decision. Defined.

(** * Paths *)

Definition SLASH : Z := 47.

Fixpoint normalize_parts (parts cs : list text) : option (list text) :=
  match cs with
  | [] => Some parts
  | c :: cs =>
      if bool_decide (c = []) || bool_decide (c = str ".") then normalize_parts parts cs
      else if bool_decide (c = str "..") then
        match parts with [] => None | _ => normalize_parts (removelast parts) cs end
      else normalize_parts (parts ++ [c]) cs
  end.

Definition validate_entry_path (path : text) : outcome PackageError text :=
  if bool_decide (path = []) then Fail InvalidEntryPath else
  if starts_with (str "/") path then Fail InvalidEntryPath else
  if existsb (λ b, (b <? 0x20) || (b =? 92)) path then Fail InvalidEntryPath else
  parts ← ok_or (normalize_parts [] (split_on SLASH path)) InvalidEntryPath;
  if bool_decide (parts = []) then Fail InvalidEntryPath else mret (join_on SLASH parts).

(** One of two paths names a directory the other is in. *)
Definition prefix_conflict (a b : text) : bool :=
  starts_with (a ++ str "/") b || starts_with (b ++ str "/") a.

(** * The specification *)

(** A name of a file in a directory. *)
Definition part_ok (n : text) : Prop :=
  n ≠ [] ∧ n ≠ str "." ∧ n ≠ str ".." ∧ (SLASH ∉ n) ∧ Forall (λ b, 0x20 ≤ b ∧ b ≠ 92) n.

(** A normal path: the names on the way to a file, from the root of the package. *)
Definition normal_path (parts : list text) : Prop := parts ≠ [] ∧ Forall part_ok parts.

(** * Lemmas *)

Lemma str_slash : str "/" = [SLASH].
Proof. done. Qed.

Lemma normalize_parts_ok (P : text → Prop) cs : ∀ parts r,
  (∀ c, c ∈ cs → c ≠ [] → c ≠ str "." → c ≠ str ".." → P c) →
  Forall P parts → normalize_parts parts cs = Some r → Forall P r.
Proof.
  induction cs as [|c cs IH]; intros parts r HP Hparts; cbn [normalize_parts]; [by intros [= <-]|].
  assert (∀ c, c ∈ cs → c ≠ [] → c ≠ str "." → c ≠ str ".." → P c) as HP' by set_solver.
  destruct (bool_decide_reflect (c = [])), (bool_decide_reflect (c = str ".")); cbn [orb]; eauto.
  destruct (bool_decide_reflect (c = str "..")).
  - destruct parts as [|q parts _] using rev_ind; [done|].
    replace (match parts ++ [q] with [] => None | _ :: _ => _ end)
      with (normalize_parts (removelast (parts ++ [q])) cs) by by destruct parts.
    rewrite removelast_last. apply Forall_app in Hparts as [? _]. eauto.
  - apply IH; [done|]. apply Forall_app. split; [done|]. constructor; [|constructor].
    apply HP; [|done..]. set_solver.
Qed.

Lemma normalize_parts_fixed ps : ∀ parts, Forall part_ok ps → normalize_parts parts ps = Some (parts ++ ps).
Proof.
  induction ps as [|p ps IH]; intros parts; cbn [normalize_parts]; [by rewrite app_nil_r|].
  intros [(? & ? & ? & _) Hps]%Forall_cons. rewrite !bool_decide_eq_false_2 by done. cbn [orb].
  rewrite IH by done. by rewrite <- app_assoc.
Qed.

Lemma starts_with_slash s : starts_with (str "/") s = true ↔ ∃ r, s = SLASH :: r.
Proof. rewrite starts_with_spec. done. Qed.

Lemma existsb_bytes s :
  existsb (λ b, (b <? 0x20) || (b =? 92)) s = false ↔ Forall (λ b, 0x20 ≤ b ∧ b ≠ 92) s.
Proof.
  induction s as [|b s IH]; cbn [existsb]; [by split|].
  rewrite Forall_cons, <- IH, !orb_false_iff, Z.ltb_ge, Z.eqb_neq. tauto.
Qed.

Lemma entry_path_inv p n :
  validate_entry_path p = Ret n →
  ∃ parts, normal_path parts ∧ n = join_on SLASH parts ∧ normalize_parts [] (split_on SLASH p) = Some parts ∧
           (utf8 p = true → utf8 n = true).
Proof.
  unfold validate_entry_path. intros H. inv_outcome. rename a into parts.
  apply existsb_bytes in E1. apply bool_decide_eq_false in E3. apply Ret_inj in H as <-.
  exists parts. split; [split; [done|]|split; [done|split; [done|]]].
  - eapply normalize_parts_ok; [|constructor|exact E4]. intros c Hc H1 H2 H3.
    pose proof (split_on_pieces SLASH p) as Hp. rewrite Forall_forall in Hp. destruct (Hp _ Hc) as [Hs Hsub].
    unfold part_ok. repeat split; try done. rewrite Forall_forall in E1 |- *. auto.
  - intros Hu. apply utf8_join_on; [unfold SLASH; lia|].
    pose proof (utf8_split_on SLASH p ltac:(unfold SLASH; lia) Hu) as Hps. rewrite Forall_forall in Hps.
    eapply normalize_parts_ok; [|constructor|exact E4]. auto.
Qed.

Lemma part_ok_no_slash parts : Forall part_ok parts → Forall (λ p, SLASH ∉ p) parts.
Proof. intros H. eapply Forall_impl; [exact H|]. intros n (_ & _ & _ & ? & _). done. Qed.

Lemma join_nonempty parts : normal_path parts → join_on SLASH parts ≠ [].
Proof.
  intros [Hne Hok]. destruct parts as [|p ps]; [done|]. apply Forall_cons in Hok as [(Hp & _) _].
  destruct (decide (ps = [])) as [->|]; [done|]. rewrite join_on_cons by done. by destruct p.
Qed.

(** A normal path is its own normal form. *)
Lemma validate_normal parts : normal_path parts → validate_entry_path (join_on SLASH parts) = Ret (join_on SLASH parts).
Proof.
  intros Hn. pose proof (join_nonempty _ Hn) as Hj. destruct Hn as [Hne Hok]. unfold validate_entry_path.
  rewrite bool_decide_eq_false_2 by done.
  destruct (starts_with (str "/") (join_on SLASH parts)) eqn:Es.
  { apply starts_with_slash in Es as [r Hr]. destruct parts as [|p ps]; [done|].
    apply Forall_cons in Hok as [(Hp & _ & _ & Hs & _) _]. destruct p as [|a p]; [done|].
    destruct (decide (ps = [])) as [->|]; [|rewrite join_on_cons in Hr by done];
      injection Hr as -> _; exfalso; apply Hs; set_solver. }
  rewrite (proj2 (existsb_bytes _)).
  - rewrite split_on_join by auto using part_ok_no_slash. rewrite normalize_parts_fixed by done. cbn [app ok_or].
    rewrite bind_ret. by rewrite bool_decide_eq_false_2.
  - rewrite Forall_forall. intros b [->|(p & Hp & Hb)]%elem_of_join_on; [unfold SLASH; lia|].
    rewrite Forall_forall in Hok. destruct (Hok _ Hp) as (_ & _ & _ & _ & H). rewrite Forall_forall in H. auto.
Qed.

Lemma validate_idempotent p n : validate_entry_path p = Ret n → validate_entry_path n = Ret n.
Proof. intros (parts & Hn & -> & _)%entry_path_inv. by apply validate_normal. Qed.

Lemma entry_path_safe p : safe (validate_entry_path p).
Proof.
  unfold validate_entry_path. repeat (case_match; [done|]). apply safe_bind; [apply safe_ok_or|]. intros a _.
  by case_match.
Qed.

Lemma validate_fails p e : validate_entry_path p = Fail e → e = InvalidEntryPath.
Proof.
  unfold validate_entry_path. repeat (case_match; [by intros [= <-]|]). destruct (normalize_parts _ _); cbn; [|by intros [= <-]].
  case_match; [by intros [= <-]|done].
Qed.

Lemma join_on_app c ps qs :
  ps ≠ [] → qs ≠ [] → join_on c (ps ++ qs) = join_on c ps ++ c :: join_on c qs.
Proof.
  intros Hp Hq. induction ps as [|p ps IH]; [done|]. destruct (decide (ps = [])) as [->|Hne]; cbn [app].
  - by rewrite join_on_cons.
  - rewrite !join_on_cons by (try done; by destruct ps). rewrite IH by done. by rewrite <- app_assoc.
Qed.

Lemma join_inj ps qs : normal_path ps → normal_path qs → join_on SLASH ps = join_on SLASH qs → ps = qs.
Proof.
  intros [H1 H1'] [H2 H2'] H. rewrite <- (split_on_join SLASH ps) by auto using part_ok_no_slash.
  rewrite H. by apply split_on_join; auto using part_ok_no_slash.
Qed.

(** A path starts with another and a slash when it lies under it. *)
Lemma under_dir ps qs :
  normal_path ps → normal_path qs →
  starts_with (join_on SLASH ps ++ str "/") (join_on SLASH qs) = true ↔ ∃ rest, rest ≠ [] ∧ qs = ps ++ rest.
Proof.
  intros Hp Hq. rewrite starts_with_spec. rewrite str_slash. split.
  - intros [r Hr]. rewrite <- app_assoc in Hr. cbn [app] in Hr.
    exists (split_on SLASH r). split; [apply split_on_nonempty|].
    destruct Hp as [Hp Hp'], Hq as [Hq Hq'].
    rewrite <- (split_on_join SLASH qs) by auto using part_ok_no_slash. rewrite Hr.
    rewrite <- (join_split_on SLASH r) at 1. rewrite <- join_on_app by (try done; apply split_on_nonempty).
    apply split_on_join; [by destruct ps|]. apply Forall_app. split; [by apply part_ok_no_slash|].
    eapply Forall_impl; [apply split_on_pieces|]. by intros p [? _].
  - intros (rest & Hne & ->). exists (join_on SLASH rest). destruct Hp as [Hp _].
    rewrite join_on_app by done. by rewrite <- app_assoc.
Qed.
