(* ===== verification/Package.v ===== *)
(** The package format of a game's code
    ([engine/crates/shared/src/vfs/package.rs]): entries cut into chunks, each
    compressed on its own, with a table of the chunks and an index of the
    entries.  Here: the format and its writer.

    The zstd compressor is the class [Zstd].  The writer's file is a [Disk] with
    room for so many bytes; a source that is streamed in delivers pieces or an
    error, whatever it likes. *)
From S2P Require Import Prelude Text Wire PackagePath.

(** * Constants *)

(** "MPKG". *)
Definition MAGIC : list Z := [77; 80; 75; 71].
Definition FORMAT_VERSION : Z := 1.
Definition HEADER_SIZE : Z := 32.
Definition DEFAULT_CHUNK_SIZE : Z := 64 * 1024.
Definition MAX_CHUNK_RAW_SIZE : Z := 4 * DEFAULT_CHUNK_SIZE.

(** * The compressor *)

(** [zstd::bulk::compress] at the writer's level, and [decompress] with the
    capacity of its output.  What was compressed comes back where it fits, and
    nothing larger than the capacity comes out; compressed data is larger than its
    source by one part in 256 and a small constant at most. *)
Class Zstd := {
  compress : list Z → option (list Z);
  decompress : list Z → Z → option (list Z);
  decompress_compress d c cap : compress d = Some c → lenZ d ≤ cap → decompress c cap = Some d;
  decompress_fits c cap d : decompress c cap = Some d → lenZ d ≤ cap;
  compress_bound d c : compress d = Some c → lenZ c ≤ lenZ d + lenZ d / 256 + 64
}.

(** * Data *)

Record PackageIdentity := { name : text; version : text; checksum : Z }.

Record ChunkEntry := { data_offset : Z; compressed_size : Z; raw_size : Z }.

Record EntryMeta := {
  entry_path : text;
  entry_raw_size : Z;
  entry_crc32 : Z;
  first_chunk : Z;
  chunk_count : Z
}.

Record Header := {
  header_entries : Z;
  header_chunks : Z;
  chunk_table_offset : Z;
  index_offset : Z
}.

(** The fields of the three records, in the order they are written. *)
Definition header_fields (h : Header) : list (list Z) :=
  [MAGIC; le_bytes 4 FORMAT_VERSION; le_bytes 4 (header_entries h); le_bytes 4 (header_chunks h);
   le_bytes 8 (chunk_table_offset h); le_bytes 8 (index_offset h)].
Definition chunk_fields (c : ChunkEntry) : list (list Z) :=
  [le_bytes 8 (data_offset c); le_bytes 4 (compressed_size c); le_bytes 4 (raw_size c)].
Definition entry_fields (e : EntryMeta) : list (list Z) :=
  [le_bytes 2 (as_u16 (lenZ (entry_path e))); entry_path e; le_bytes 8 (entry_raw_size e);
   le_bytes 4 (entry_crc32 e); le_bytes 4 (first_chunk e); le_bytes 4 (chunk_count e)].

(** * The file written to *)

Record Disk := { contents : list Z; cursor : Z; room : Z }.

(** [write_all] at the cursor, over what is there and past its end; on a full
    disk the bytes that fit are written. *)
Definition write_all (d : Disk) (bs : list Z) : option io_error * Disk :=
  let fits := take (Z.to_nat (room d - cursor d)) bs in
  let d' := {|
    contents := take (Z.to_nat (cursor d)) (contents d) ++ fits ++
                drop (Z.to_nat (cursor d + lenZ fits)) (contents d);
    cursor := cursor d + lenZ fits;
    room := room d |} in
  (if cursor d + lenZ bs <=? room d then None else Some StorageFull, d').

(** Write after write, up to the first that fails. *)
Fixpoint write_each (d : Disk) (bss : list (list Z)) : option io_error * Disk :=
  match bss with
  | [] => (None, d)
  | bs :: bss =>
      match write_all d bs with
      | (None, d) => write_each d bss
      | r => r
      end
  end.

(** [seek(SeekFrom::Start(n))]. *)
Definition seek (d : Disk) (n : Z) : Disk := {| contents := contents d; cursor := n; room := room d |}.

(** * A source that is streamed *)

(** What a reader will deliver: pieces, of which a read takes what it wants, and
    errors.  An empty piece is a read of no bytes, and so is the end. *)
Definition reader : Type := list (io_error + list Z).

Definition read (r : reader) (want : Z) : (io_error + list Z) * reader :=
  match r with
  | [] => (inr [], [])
  | inl e :: r => (inl e, r)
  | inr piece :: r =>
      if lenZ piece <=? want then (inr piece, r)
      else (inr (take (Z.to_nat want) piece), inr (drop (Z.to_nat want) piece) :: r)
  end.

(** * The writer *)

Record PackageWriter := {
  writer : Disk;
  entries : list EntryMeta;
  chunks : list ChunkEntry;
  seen_paths : gset text;
  data_pos : Z;
  chunk_size : Z;
  poisoned : bool
}.

Definition set_writer (w : PackageWriter) (d : Disk) : PackageWriter :=
  {| writer := d; entries := entries w; chunks := chunks w; seen_paths := seen_paths w;
     data_pos := data_pos w; chunk_size := chunk_size w; poisoned := poisoned w |}.
Definition poison (w : PackageWriter) : PackageWriter :=
  {| writer := writer w; entries := entries w; chunks := chunks w; seen_paths := seen_paths w;
     data_pos := data_pos w; chunk_size := chunk_size w; poisoned := true |}.
Definition push_chunk (w : PackageWriter) (c : ChunkEntry) (pos : Z) : PackageWriter :=
  {| writer := writer w; entries := entries w; chunks := chunks w ++ [c]; seen_paths := seen_paths w;
     data_pos := pos; chunk_size := chunk_size w; poisoned := poisoned w |}.
Definition push_entry (w : PackageWriter) (e : EntryMeta) : PackageWriter :=
  {| writer := writer w; entries := entries w ++ [e]; chunks := chunks w;
     seen_paths := {[entry_path e]} ∪ seen_paths w;
     data_pos := data_pos w; chunk_size := chunk_size w; poisoned := poisoned w |}.

Definition with_chunk_size (d : Disk) (size : Z) : io_error + PackageWriter :=
  let placeholder := {| header_entries := 0; header_chunks := 0; chunk_table_offset := 0; index_offset := 0 |} in
  match write_each d (header_fields placeholder) with
  | (Some e, _) => inl e
  | (None, d) =>
      inr {| writer := d; entries := []; chunks := []; seen_paths := ∅; data_pos := HEADER_SIZE;
             chunk_size := size; poisoned := false |}
  end.

Definition writer_new (d : Disk) : io_error + PackageWriter := with_chunk_size d DEFAULT_CHUNK_SIZE.

(** What a call on the writer answers, and the writer it leaves. *)
Definition answer : Type := option PackageError * PackageWriter.

(** The checks on the path of a new entry. *)
Definition check_path (w : PackageWriter) (path : text) : outcome PackageError text :=
  if poisoned w then Fail (Io OtherError) else
  normalized ← validate_entry_path path;
  if bool_decide (normalized ∈ seen_paths w) then Fail InvalidEntryPath else
  if existsb (prefix_conflict normalized) (elements (seen_paths w)) then Fail InvalidEntryPath else
  mret normalized.

Section Compressor.
Context `{Zstd}.

(** Compress a chunk, write it, and enter it in the table. *)
Definition emit_chunk (w : PackageWriter) (chunk_data : list Z) : result answer :=
  match compress chunk_data with
  | None => mret (Some (Io OtherError), w)
  | Some compressed =>
      match write_all (writer w) compressed with
      | (Some e, d) => mret (Some (Io e), poison (set_writer w d))
      | (None, d) =>
          let chunk := {| data_offset := data_pos w; compressed_size := as_u32 (lenZ compressed);
                          raw_size := as_u32 (lenZ chunk_data) |} in
          pos ← u64_add (data_pos w) (lenZ compressed);
          mret (None, push_chunk (set_writer w d) chunk pos)
      end
  end.

(** The loop of [add_entry] over the chunks of its data. *)
Fixpoint add_chunks (fuel : nat) (w : PackageWriter) (data : list Z) (offset : Z) : result answer :=
  match fuel with
  | O => OutOfFuel
  | S fuel =>
      if offset <? lenZ data then
        end_ ← u64_add offset (chunk_size w);
        let end_ := Z.min end_ (lenZ data) in
        chunk_data ← slice data offset end_;
        r ← emit_chunk w chunk_data;
        match r with
        | (None, w) => add_chunks fuel w data end_
        | r => mret r
        end
      else mret (None, w)
  end.

Context {C : Crc32}.

(** Enter the entry whose chunks were written from [first] on. *)
Definition enter (w : PackageWriter) (normalized : text) (raw crc first : Z) : result answer :=
  count ← u32_sub (as_u32 (lenZ (chunks w))) first;
  mret (None, push_entry w {| entry_path := normalized; entry_raw_size := raw; entry_crc32 := crc;
                              first_chunk := first; chunk_count := count |}).

Definition add_entry (fuel : nat) (w : PackageWriter) (path : text) (data : list Z) : result answer :=
  match check_path w path with
  | Ret normalized =>
      let first := as_u32 (lenZ (chunks w)) in
      r ← add_chunks fuel w data 0;
      match r with
      | (None, w) => enter w normalized (lenZ data) (crc32 data) first
      | r => mret r
      end
  | Fail e => mret (Some e, w)
  | Panic => Panic
  | OutOfFuel => OutOfFuel
  end.

(** Read up to [remaining] bytes, 8192 at a time, or until a read of none. *)
Fixpoint fill_chunk (fuel : nat) (remaining : Z) (buf : list Z) (r : reader) :
    result ((io_error + list Z) * reader) :=
  match fuel with
  | O => OutOfFuel
  | S fuel =>
      if 0 <? remaining then
        match read r (Z.min 8192 remaining) with
        | (inl e, r) => mret (inl e, r)
        | (inr bs, r) =>
            if lenZ bs =? 0 then mret (inr buf, r)
            else fill_chunk fuel (remaining - lenZ bs) (buf ++ bs) r
        end
      else mret (inr buf, r)
  end.

(** The loop of [add_entry_streaming]: what was streamed so far is [hashed]. *)
Fixpoint stream_chunks (fuel : nat) (w : PackageWriter) (r : reader) (max_entry_bytes : Z) (hashed : list Z)
    (total_bytes : Z) : result (option PackageError * PackageWriter * list Z * Z) :=
  match fuel with
  | O => OutOfFuel
  | S fuel =>
      f ← fill_chunk (S (Z.to_nat (chunk_size w))) (chunk_size w) [] r;
      match f with
      | (inl e, _) => mret (Some (Io e), w, hashed, total_bytes)
      | (inr chunk_buf, r) =>
          if lenZ chunk_buf =? 0 then mret (None, w, hashed, total_bytes) else
          let total_bytes := u64_saturating_add total_bytes (lenZ chunk_buf) in
          if max_entry_bytes <? total_bytes
          then mret (Some (Io InvalidData), poison w, hashed, total_bytes) else
          let hashed := hashed ++ chunk_buf in
          e ← emit_chunk w chunk_buf;
          match e with
          | (None, w) => stream_chunks fuel w r max_entry_bytes hashed total_bytes
          | (Some e, w) => mret (Some e, w, hashed, total_bytes)
          end
      end
  end.

Definition add_entry_streaming (fuel : nat) (w : PackageWriter) (path : text) (r : reader)
    (max_entry_bytes : Z) : result answer :=
  match check_path w path with
  | Ret normalized =>
      let first := as_u32 (lenZ (chunks w)) in
      s ← stream_chunks fuel w r max_entry_bytes [] 0;
      match s with
      | (None, w, hashed, total_bytes) => enter w normalized total_bytes (crc32 hashed) first
      | (Some e, w, _, _) => mret (Some e, w)
      end
  | Fail e => mret (Some e, w)
  | Panic => Panic
  | OutOfFuel => OutOfFuel
  end.

(** The checksum that identifies a package: of the checksum and path of its
    entries, in the order of their paths. *)
Definition identity_of (name version : text) (es : list (text * Z)) : PackageIdentity :=
  {| name := name; version := version;
     checksum := crc32 (concat ((λ e, le_bytes 4 (snd e) ++ fst e) <$> sort_by_key fst es)) |}.

Definition finish (w : PackageWriter) (name version : text) : outcome PackageError (PackageIdentity * Disk) :=
  if poisoned w then Fail (Io OtherError) else
  let table := data_pos w in
  d ← match write_each (writer w) (chunks w ≫= chunk_fields) with (Some e, _) => Fail (Io e) | (None, d) => mret d end;
  size ← u64_mul (lenZ (chunks w)) 16;
  index ← u64_add table size;
  d ← match write_each d (entries w ≫= entry_fields) with (Some e, _) => Fail (Io e) | (None, d) => mret d end;
  let h := {| header_entries := as_u32 (lenZ (entries w)); header_chunks := as_u32 (lenZ (chunks w));
              chunk_table_offset := table; index_offset := index |} in
  d ← match write_each (seek d 0) (header_fields h) with (Some e, _) => Fail (Io e) | (None, d) => mret d end;
  mret (identity_of name version ((λ e, (entry_path e, entry_crc32 e)) <$> entries w), d).

End Compressor.

(** * Lemmas *)

(** ** The disk *)

Lemma write_all_end d bs d' :
  cursor d = lenZ (contents d) → write_all d bs = (None, d') →
  d' = {| contents := contents d ++ bs; cursor := cursor d + lenZ bs; room := room d |} ∧
  cursor d + lenZ bs ≤ room d.
Proof.
  unfold write_all. intros Hc [= Hfit <-]. case_match; [|done]. apply Z.leb_le in H.
  rewrite (take_ge bs) by lia. rewrite (take_ge (contents d)) by lia. rewrite drop_ge by lia.
  by rewrite app_nil_r.
Qed.

Lemma write_each_end bss : ∀ d d',
  cursor d = lenZ (contents d) → write_each d bss = (None, d') →
  d' = {| contents := contents d ++ concat bss; cursor := cursor d + lenZ (concat bss); room := room d |} ∧
  (bss ≠ [] → cursor d + lenZ (concat bss) ≤ room d).
Proof.
  induction bss as [|bs bss IH]; intros d d' Hc; cbn [write_each concat].
  - intros [= <-]. cbn [length]. rewrite app_nil_r, Z.add_0_r. by destruct d.
  - destruct (write_all d bs) as [[e|] d1] eqn:Ew; [done|]. intros H.
    apply write_all_end in Ew as [-> Hfit]; [|done].
    apply IH in H as [-> Hroom]; [|cbn; rewrite length_app; lia]. cbn [contents cursor room].
    rewrite <- app_assoc, length_app, Nat2Z.inj_add. split; [by rewrite Z.add_assoc|]. intros _.
    destruct bss as [|b bss]; [cbn; lia|]. cbn [cursor contents room] in Hroom.
    specialize (Hroom ltac:(done)). by rewrite Z.add_assoc.
Qed.

Lemma write_all_over d bs d' :
  0 ≤ cursor d → cursor d + lenZ bs ≤ lenZ (contents d) → write_all d bs = (None, d') →
  d' = {| contents := take (Z.to_nat (cursor d)) (contents d) ++ bs ++
                      drop (Z.to_nat (cursor d + lenZ bs)) (contents d);
          cursor := cursor d + lenZ bs; room := room d |}.
Proof.
  unfold write_all. intros Hc Hl [= Hfit <-]. case_match; [|done]. apply Z.leb_le in H.
  by rewrite (take_ge bs) by lia.
Qed.

Lemma write_each_over bss : ∀ d d' p,
  cursor d = lenZ p → take (length p) (contents d) = p →
  lenZ p + lenZ (concat bss) ≤ lenZ (contents d) → write_each d bss = (None, d') →
  contents d' = p ++ concat bss ++ drop (length p + length (concat bss)) (contents d).
Proof.
  induction bss as [|bs bss IH]; intros d d' p Hc Hp Hl; cbn [write_each concat] in Hl |- *.
  - intros [= <-]. cbn [app length]. rewrite Nat.add_0_r. rewrite <- Hp at 1. by rewrite take_drop.
  - rewrite length_app, Nat2Z.inj_add in Hl.
    destruct (write_all d bs) as [[e|] d1] eqn:Ew; [done|]. intros H.
    apply write_all_over in Ew as ->; [|lia|lia].
    rewrite Hc, Nat2Z.id, Hp in H. replace (Z.to_nat (lenZ p + lenZ bs)) with (length p + length bs)%nat in H by lia.
    apply (IH _ _ (p ++ bs)) in H; cbn [contents cursor] in *.
    + rewrite H. rewrite !length_app, <- !app_assoc. do 3 f_equal.
      rewrite (app_assoc p bs), drop_app_ge by (rewrite length_app; lia).
      rewrite length_app, drop_drop. f_equal. lia.
    + rewrite length_app. lia.
    + by rewrite app_assoc, take_app_length.
    + rewrite !length_app, length_drop. lia.
Qed.

(** ** Sizes of the records *)

Lemma length_chunk_fields c : length (concat (chunk_fields c)) = 16%nat.
Proof. unfold chunk_fields. cbn [concat]. by rewrite !length_app, !length_le_bytes. Qed.

Lemma length_header_fields h : length (concat (header_fields h)) = 32%nat.
Proof. unfold header_fields. cbn [concat]. by rewrite !length_app, !length_le_bytes. Qed.

Lemma concat_bind {A B} (f : A → list (list B)) (l : list A) : concat (l ≫= f) = concat ((@concat _ ∘ f) <$> l).
Proof.
  induction l as [|x l IH]; [done|]. cbn [mbind list_bind fmap list_fmap concat].
  by rewrite concat_app, <- IH.
Qed.

Lemma length_concat_const {A} (l : list (list A)) n :
  Forall (λ x, length x = n) l → length (concat l) = (n * length l)%nat.
Proof. induction 1 as [|x l Hx Hl IH]; cbn [concat length]; [lia|]. rewrite length_app. lia. Qed.

(** ** Chunks *)

(** The table of chunks compressed and laid out one after the other. *)
Fixpoint lay (pos : Z) (raws comps : list (list Z)) : list ChunkEntry :=
  match raws, comps with
  | raw :: raws, comp :: comps =>
      {| data_offset := pos; compressed_size := as_u32 (lenZ comp); raw_size := as_u32 (lenZ raw) |}
      :: lay (pos + lenZ comp) raws comps
  | _, _ => []
  end.

Lemma lay_snoc raws comps raw comp : ∀ pos,
  length raws = length comps →
  lay pos (raws ++ [raw]) (comps ++ [comp]) =
  lay pos raws comps ++ [{| data_offset := pos + lenZ (concat comps); compressed_size := as_u32 (lenZ comp);
                            raw_size := as_u32 (lenZ raw) |}].
Proof.
  revert comps. induction raws as [|r raws IH]; intros [|c comps] pos Hl; try done; cbn [lay app].
  - cbn [concat length]. by rewrite Z.add_0_r.
  - rewrite IH by (cbn in Hl; lia). cbn [concat]. rewrite length_app, Nat2Z.inj_add. do 4 f_equal. lia.
Qed.

(** Pieces of one size, but for the last, which may be shorter. *)
Fixpoint cut (size : Z) (parts : list (list Z)) : Prop :=
  match parts with
  | [] => True
  | [p] => 0 < lenZ p ≤ size
  | p :: parts => lenZ p = size ∧ cut size parts
  end.

Lemma cut_cons size p parts : cut size (p :: parts) ↔ 
  if decide (parts = []) then 0 < lenZ p ≤ size else lenZ p = size ∧ cut size parts.
Proof. destruct parts; done. Qed.
