(* ===== verification/PackageWrite.v ===== *)
(** What the package writer does: its state after any calls, that a streamed
    entry is the buffered one, and what it does not check. *)
From S2P Require Import Prelude Text Wire PackagePath Package.

(** * The specification *)

(** A source that delivers these bytes, in pieces as it likes, and ends. *)
Inductive delivers : reader → list Z → Prop :=
  | delivers_end : delivers [] []
  | delivers_piece bs r data : bs ≠ [] → delivers r data → delivers (inr bs :: r) (bs ++ data).

(** A chunk as the writer cuts them. *)
Definition chunk_fits (size : Z) (raw : list Z) : Prop := raw ≠ [] ∧ lenZ raw ≤ size.

Section Writer.
Context `{Zstd} {C : Crc32}.

(** The file holds a header and then the chunks, one after the other, and the
    table says where; [raws] are the chunks before compression. *)
Record packed (w : PackageWriter) (raws comps : list (list Z)) : Prop := {
  packed_contents : ∃ head, length head = 32%nat ∧ contents (writer w) = head ++ concat comps;
  packed_cursor : cursor (writer w) = lenZ (contents (writer w));
  packed_pos : data_pos w = lenZ (contents (writer w));
  packed_room : data_pos w ≤ room (writer w) ≤ u64_max;
  packed_comps : Forall2 (λ raw comp, compress raw = Some comp) raws comps;
  packed_fits : Forall (chunk_fits (chunk_size w)) raws;
  packed_table : chunks w = lay 32 raws comps
}.

(** The entry is the file of that path with that content: its chunks are the
    content cut to size. *)
Definition holds (size : Z) (raws : list (list Z)) (e : EntryMeta) (f : text * list Z) : Prop :=
  ∃ (first : nat) parts,
    validate_entry_path (fst f) = Ret (entry_path e) ∧
    entry_raw_size e = lenZ (snd f) ∧ entry_crc32 e = crc32 (snd f) ∧
    first_chunk e = as_u32 (Z.of_nat first) ∧
    chunk_count e = as_u32 (Z.of_nat (first + length parts)) - as_u32 (Z.of_nat first) ∧
    parts `prefix_of` drop first raws ∧ (first + length parts ≤ length raws)%nat ∧
    concat parts = snd f ∧ cut size parts.

(** No two entries have one path, or paths one of which is inside the other. *)
Definition paths_apart (es : list EntryMeta) : Prop :=
  NoDup (entry_path <$> es) ∧
  ∀ a b, a ∈ entry_path <$> es → b ∈ entry_path <$> es → a ≠ b → prefix_conflict a b = false.

(** A writer of these files, [raws] being all chunks it wrote: also those of
    entries that failed. *)
Record written (size : Z) (w : PackageWriter) (files : list (text * list Z)) (raws comps : list (list Z)) :
    Prop := {
  written_packed : packed w raws comps;
  written_size : chunk_size w = size;
  written_entries : Forall2 (holds size raws) (entries w) files;
  written_seen : seen_paths w = list_to_set (entry_path <$> entries w);
  written_apart : paths_apart (entries w)
}.

(** * Lemmas *)

(** ** One chunk *)

(** What stays when chunks are added. *)
Definition same_index (w w' : PackageWriter) : Prop :=
  entries w' = entries w ∧ seen_paths w' = seen_paths w ∧ chunk_size w' = chunk_size w ∧
  room (writer w') = room (writer w).

Lemma same_index_refl w : same_index w w.
Proof. done. Qed.
Lemma same_index_trans w1 w2 w3 : same_index w1 w2 → same_index w2 w3 → same_index w1 w3.
Proof. unfold same_index. intros (-> & -> & -> & ->) (-> & -> & -> & ->). done. Qed.

Lemma emit_spec w raws comps d o w' :
  packed w raws comps → chunk_fits (chunk_size w) d → emit_chunk w d = Ret (o, w') →
  same_index w w' ∧
  match o with
  | None => poisoned w' = poisoned w ∧ ∃ comp, packed w' (raws ++ [d]) (comps ++ [comp])
  | Some _ => poisoned w' = true ∨ w' = w
  end.
Proof.
  intros [(head & Hhead & Hcont) Hcur Hpos Hroom Hcomps Hfits Htab] Hd. unfold emit_chunk.
  destruct (compress d) as [comp|] eqn:Ec; [|intros [= <- <-]; by auto using same_index_refl].
  destruct (write_all (writer w) comp) as [[e|] disk] eqn:Ew.
  - intros [= <- <-]. split; [|by left]. unfold write_all in Ew. injection Ew as _ <-. done.
  - apply write_all_end in Ew as [-> Hfit]; [|done]. unfold u64_add.
    destruct (data_pos w + lenZ comp <=? u64_max) eqn:Eo; [|done]. rewrite bind_ret. intros [= <- <-].
    split; [done|]. split; [done|]. exists comp. split; cbn.
    + exists head. split; [done|]. by rewrite concat_app, Hcont, <- app_assoc; cbn; rewrite app_nil_r.
    + rewrite length_app. lia.
    + rewrite length_app. lia.
    + lia.
    + apply Forall2_app; [done|]. by constructor.
    + apply Forall_app. split; [done|]. by constructor.
    + rewrite lay_snoc by (eapply Forall2_length, Hcomps). rewrite Htab. do 3 f_equal.
      rewrite Hpos, Hcont, length_app, Hhead. lia.
Qed.

Lemma emit_returns w raws comps d :
  packed w raws comps → ∃ a, emit_chunk w d = Ret a.
Proof.
  intros [_ Hcur Hpos Hroom _ _ _]. unfold emit_chunk.
  destruct (compress d) as [comp|]; [|eauto].
  destruct (write_all (writer w) comp) as [[e|] disk] eqn:Ew; [eauto|].
  apply write_all_end in Ew as [-> Hfit]; [|done].
  rewrite u64_add_ret by lia. rewrite bind_ret. eauto.
Qed.

(** ** The chunks of an entry *)

(** The loop over what is left of the data. *)
Fixpoint add_rest (fuel : nat) (w : PackageWriter) (rest : list Z) : result answer :=
  match fuel with
  | O => OutOfFuel
  | S fuel =>
      if lenZ rest =? 0 then mret (None, w) else
      r ← emit_chunk w (take (Z.to_nat (chunk_size w)) rest);
      match r with
      | (None, w) => add_rest fuel w (drop (Z.to_nat (chunk_size w)) rest)
      | r => mret r
      end
  end.

Lemma emit_size w d o w' : emit_chunk w d = Ret (o, w') → chunk_size w' = chunk_size w.
Proof.
  unfold emit_chunk. destruct (compress d) as [comp|]; [|by intros [= _ <-]].
  destruct (write_all _ _) as [[e|] disk]; [by intros [= _ <-]|].
  destruct (u64_add _ _); [rewrite bind_ret|done..]. by intros [= _ <-].
Qed.

Lemma add_chunks_rest data : ∀ fuel w offset,
  0 < chunk_size w → 0 ≤ offset ≤ lenZ data → lenZ data + chunk_size w ≤ u64_max →
  add_chunks fuel w data offset = add_rest fuel w (drop (Z.to_nat offset) data).
Proof.
  induction fuel as [|fuel IH]; intros w offset Hsize Hoff Hmax; [done|]. cbn [add_chunks add_rest].
  rewrite length_drop. destruct (Z.ltb_spec offset (lenZ data)) as [Hlt|Hge].
  - rewrite (proj2 (Z.eqb_neq _ 0)) by lia. rewrite u64_add_ret by lia. rewrite bind_ret. cbn zeta.
    rewrite slice_ret by lia. rewrite bind_ret.
    assert (sub data offset (Z.min (offset + chunk_size w) (lenZ data)) =
            take (Z.to_nat (chunk_size w)) (drop (Z.to_nat offset) data)) as ->.
    { unfold sub. destruct (Z.min_spec (offset + chunk_size w) (lenZ data)) as [[_ ->]|[? ->]].
      - f_equal. lia.
      - rewrite !take_ge by (rewrite length_drop; lia). done. }
    destruct (emit_chunk w _) as [[[e|] w']|[]| |] eqn:Ee; [done| |done..]. rewrite !bind_ret.
    pose proof (emit_size _ _ _ _ Ee) as Hw'. rewrite IH by lia. rewrite drop_drop, Hw'.
    f_equal. destruct (Z.min_spec (offset + chunk_size w) (lenZ data)) as [[_ ->]|[? ->]].
    + f_equal. lia.
    + rewrite !drop_ge by lia. done.
  - by rewrite (proj2 (Z.eqb_eq _ 0)) by lia.
Qed.

(** What the loop adds. *)
Definition chunks_added (w w' : PackageWriter) (raws : list (list Z)) (o : option PackageError) (rest : list Z) :
    Prop :=
  same_index w w' ∧
  (poisoned w' = true ∧ o ≠ None ∨
   ∃ parts comps, packed w' (raws ++ parts) comps ∧ poisoned w' = poisoned w ∧
     (o = None → concat parts = rest ∧ cut (chunk_size w) parts)).

Lemma add_rest_spec : ∀ fuel w raws comps rest o w',
  packed w raws comps → 0 < chunk_size w → add_rest fuel w rest = Ret (o, w') → chunks_added w w' raws o rest.
Proof.
  induction fuel as [|fuel IH]; intros w raws comps rest o w' Hp Hs; cbn [add_rest]; [done|].
  destruct (Z.eqb_spec (lenZ rest) 0) as [Hz|Hz].
  { intros [= <- <-]. split; [apply same_index_refl|]. right. exists [], comps. rewrite app_nil_r.
    destruct rest; [|done]. done. }
  assert (chunk_fits (chunk_size w) (take (Z.to_nat (chunk_size w)) rest)) as Hfit.
  { split; [|rewrite length_take; lia]. intros E%(f_equal length). rewrite length_take in E. cbn in E. lia. }
  destruct (emit_chunk w _) as [[[e|] w1]|[]| |] eqn:Ee; [| |done..]; rewrite bind_ret.
  - intros [= <- <-]. destruct (emit_spec _ _ _ _ _ _ Hp Hfit Ee) as [Hi [Hpo| ->]]; (split; [done|]).
    + by left.
    + right. exists [], comps. by rewrite app_nil_r.
  - destruct (emit_spec _ _ _ _ _ _ Hp Hfit Ee) as [Hi (Hpo & comp & Hp1)].
    pose proof (emit_size _ _ _ _ Ee) as Hs1. intros Hr.
    apply (IH _ _ _ _ _ _ Hp1) in Hr as [Hi' Hr]; [|lia]. split; [by eapply same_index_trans|].
    destruct Hr as [Hr|(parts & comps' & Hp' & Hpo' & Hparts)]; [by left|right].
    rewrite <- app_assoc in Hp'. eexists _, _. split; [exact Hp'|]. split; [congruence|]. intros Ho.
    destruct (Hparts Ho) as [Hc Hcut]. rewrite Hs1 in Hc, Hcut. cbn [app concat]. split.
    + by rewrite Hc, take_drop.
    + rewrite cut_cons. case_decide as Hnil.
      * destruct Hfit as [Hne Hle]. split; [|done]. destruct (take _ rest); [done|cbn; lia].
      * split; [|done]. rewrite length_take.
        assert (concat parts ≠ []) as Hne.
        { destruct parts as [|q parts]; [done|]. destruct q; [|done]. cbn in Hcut. destruct parts; cbn in Hcut; lia. }
        rewrite Hc in Hne. assert (length (drop (Z.to_nat (chunk_size w)) rest) ≠ 0%nat) as Hl by (by intros ?%length_zero_iff_nil).
        rewrite length_drop in Hl. lia.
Qed.

Lemma add_rest_returns : ∀ fuel w raws comps rest,
  packed w raws comps → 0 < chunk_size w → (length rest < fuel)%nat →
  ∃ a, add_rest fuel w rest = Ret a.
Proof.
  induction fuel as [|fuel IH]; intros w raws comps rest Hp Hs Hf; [lia|]. cbn [add_rest].
  destruct (Z.eqb_spec (lenZ rest) 0) as [Hz|Hz]; [by eexists|].
  destruct (emit_returns w raws comps (take (Z.to_nat (chunk_size w)) rest) Hp) as [[[e|] w1] Ee];
    rewrite Ee, bind_ret; [by eexists|].
  assert (chunk_fits (chunk_size w) (take (Z.to_nat (chunk_size w)) rest)) as Hfit.
  { split; [|rewrite length_take; lia]. intros E%(f_equal length). rewrite length_take in E. cbn in E. lia. }
  destruct (emit_spec _ _ _ _ _ _ Hp Hfit Ee) as [(_ & _ & Hs1 & Hr1) (_ & comp & Hp1)].
  apply (IH _ _ _ _ Hp1); [lia..|]. rewrite length_drop. lia.
Qed.

(** ** Entries *)

Lemma check_path_inv w p n :
  check_path w p = Ret n →
  poisoned w = false ∧ validate_entry_path p = Ret n ∧ (n ∉ seen_paths w) ∧
  ∀ a, a ∈ seen_paths w → prefix_conflict n a = false.
Proof.
  unfold check_path. destruct (poisoned w); [done|]. destruct (validate_entry_path p) as [m| | |]; [|done..].
  rewrite bind_ret. case_bool_decide as Hm; [done|].
  destruct (existsb _ _) eqn:E; [done|]. intros [= <-]. repeat split; try done. intros a Ha.
  destruct (prefix_conflict m a) eqn:Ea; [|done]. exfalso.
  apply not_true_iff_false in E. apply E, existsb_exists. exists a. split; [|done].
  apply list_elem_of_In, elem_of_elements. done.
Qed.

Lemma check_path_safe w p : safe (check_path w p).
Proof.
  unfold check_path. destruct (poisoned w); [done|]. apply safe_bind; [apply entry_path_safe|]. intros n _.
  case_bool_decide; [done|]. by destruct (existsb _ _).
Qed.

Lemma holds_more size raws more e f : holds size raws e f → holds size (raws ++ more) e f.
Proof.
  intros (first & parts & Hpath & H1 & H2 & H3 & H4 & Hpre & Hlen & H5 & H6). exists first, parts.
  repeat split; try done; [|rewrite length_app; lia].
  rewrite drop_app_le by lia. by apply prefix_app_r.
Qed.

Lemma prefix_conflict_sym a b : prefix_conflict a b = prefix_conflict b a.
Proof. unfold prefix_conflict. apply orb_comm. Qed.

Lemma paths_apart_snoc es e :
  paths_apart es → entry_path e ∉ entry_path <$> es →
  (∀ a, a ∈ entry_path <$> es → prefix_conflict (entry_path e) a = false) → paths_apart (es ++ [e]).
Proof.
  unfold paths_apart. rewrite fmap_app. cbn [fmap list_fmap]. intros [Hnd Hap] Hnew Hc. split.
  - apply NoDup_app. split; [done|]. split; [|apply NoDup_singleton]. intros x Hx ->%list_elem_of_singleton. done.
  - intros a b [Ha|Ha%list_elem_of_singleton]%elem_of_app [Hb|Hb%list_elem_of_singleton]%elem_of_app Hne; subst; auto.
    + rewrite prefix_conflict_sym. auto.
    + done.
Qed.

Lemma enter_spec size w w1 files raws comps parts comps1 n data o w' :
  written size w files raws comps → same_index w w1 → packed w1 (raws ++ parts) comps1 →
  concat parts = data → cut size parts → check_path w n = Ret o →
  enter w1 o (lenZ data) (crc32 data) (as_u32 (lenZ (chunks w))) = Ret w' →
  ∃ w2, w' = (None, w2) ∧ written size w2 (files ++ [(n, data)]) (raws ++ parts) comps1.
Proof.
  intros [Hp Hs He Hseen Hap] (He1 & Hseen1 & Hs1 & _) Hp1 Hc Hcut Hpath. unfold enter, u32_sub.
  destruct (as_u32 (lenZ (chunks w)) <=? as_u32 (lenZ (chunks w1))) eqn:Ele; [|done].
  rewrite bind_ret. intros [= <-]. eexists. split; [done|].
  apply check_path_inv in Hpath as (_ & Hv & Hnew & Hconf). rewrite Hseen in Hnew, Hconf.
  assert (∀ v rs cs, packed v rs cs → length (chunks v) = length rs) as Hlen.
  { intros v rs cs [_ _ _ _ Hf _ ->]. clear -Hf. generalize 32. induction Hf; intros pos; cbn [lay length]; auto. }
  split.
  - by destruct Hp1.
  - cbn. congruence.
  - cbn. rewrite He1. apply Forall2_app; [eapply Forall2_impl; [exact He|]; intros; by apply holds_more|].
    constructor; [|constructor]. exists (length raws), parts. cbn.
    rewrite (Hlen _ _ _ Hp), (Hlen _ _ _ Hp1), length_app. repeat split; auto; try lia.
    by rewrite drop_app_length.
  - cbn. rewrite He1, Hseen1, Hseen, fmap_app, list_to_set_app_L. cbn. set_solver.
  - cbn. rewrite He1. apply paths_apart_snoc; [done|..]; cbn; set_solver.
Qed.

Lemma written_failed size w w' files raws comps parts comps1 :
  written size w files raws comps → same_index w w' → packed w' (raws ++ parts) comps1 →
  written size w' files (raws ++ parts) comps1.
Proof.
  intros [Hp Hs He Hseen Hap] (He1 & Hseen1 & Hs1 & _) Hp1. split; [done|congruence|..].
  - rewrite He1. eapply Forall2_impl; [exact He|]. intros. by apply holds_more.
  - congruence.
  - by rewrite He1.
Qed.

(** One call: it poisons the writer, or it adds the file, or it fails and adds
    none. *)
Definition call_adds (size : Z) (files : list (text * list Z)) (f : text * list Z) (a : answer) : Prop :=
  poisoned (snd a) = true ∨
  ∃ raws comps, written size (snd a) (if fst a is None then files ++ [f] else files) raws comps.

Lemma add_entry_adds fuel size w files raws comps p data a :
  written size w files raws comps → 0 < size → lenZ data + size ≤ u64_max →
  add_entry fuel w p data = Ret a → call_adds size files (p, data) a.
Proof.
  intros Hw Hsize Hmax. pose proof (written_size _ _ _ _ _ Hw) as Hs. unfold add_entry.
  destruct (check_path w p) as [n|e| |] eqn:Ep; [| |done..].
  2:{ intros [= <-]. right. by exists raws, comps. }
  rewrite add_chunks_rest by lia. rewrite drop_0.
  destruct (add_rest fuel w data) as [[o w1]|[]| |] eqn:Er; [|done..]. rewrite bind_ret.
  pose proof (add_rest_spec _ _ _ _ _ _ _ (written_packed _ _ _ _ _ Hw) ltac:(lia) Er) as [Hi Hadd].
  destruct Hadd as [[Hpo Ho]|(parts & comps1 & Hp1 & Hpo & Hok)].
  - destruct o as [e|]; [|done]. intros [= <-]. by left.
  - destruct o as [e|]; intros Hr.
    + injection Hr as <-. right. exists (raws ++ parts), comps1. by eapply written_failed.
    + destruct (Hok eq_refl) as [Hc Hcut]. rewrite Hs in Hcut.
      eapply enter_spec in Hr as (w2 & -> & Hw2); [|eassumption..]. right. by eexists _, _.
Qed.

(** ** Streaming *)

Lemma fill_chunk_delivers : ∀ fuel remaining buf r data,
  delivers r data → 0 ≤ remaining → (Z.to_nat remaining < fuel)%nat →
  ∃ r', fill_chunk fuel remaining buf r = Ret (inr (buf ++ take (Z.to_nat remaining) data), r') ∧
        delivers r' (drop (Z.to_nat remaining) data).
Proof.
  induction fuel as [|fuel IH]; intros remaining buf r data Hd Hr Hf; [lia|]. cbn [fill_chunk].
  destruct (Z.ltb_spec 0 remaining) as [Hlt|Hge].
  2:{ replace (Z.to_nat remaining) with 0%nat by lia. rewrite app_nil_r. by exists r. }
  destruct Hd as [|bs r data Hne Hd]; cbn [read].
  { cbn. rewrite take_nil, drop_nil, app_nil_r. exists []. by split; [|constructor]. }
  assert (0 < lenZ bs) as Hpos by (destruct bs; [done|cbn; lia]).
  destruct (Z.leb_spec (lenZ bs) (Z.min 8192 remaining)) as [Hle|Hgt].
  - rewrite (proj2 (Z.eqb_neq (lenZ bs) 0)) by lia.
    destruct (IH (remaining - lenZ bs) (buf ++ bs) r data Hd ltac:(lia) ltac:(lia)) as (r' & -> & Hr').
    exists r'. rewrite take_app_ge, drop_app_ge by lia. rewrite <- app_assoc.
    replace (Z.to_nat remaining - length bs)%nat with (Z.to_nat (remaining - lenZ bs)) by lia. done.
  - set (k := Z.to_nat (Z.min 8192 remaining)). rewrite length_take.
    rewrite (proj2 (Z.eqb_neq _ 0)) by lia.
    assert (delivers (inr (drop k bs) :: r) (drop k bs ++ data)) as Hd'.
    { constructor; [|done]. intros E%(f_equal length). rewrite length_drop in E. cbn in E. lia. }
    destruct (IH (remaining - Z.of_nat (Nat.min k (length bs))) (buf ++ take k bs) _ _ Hd' ltac:(lia) ltac:(lia))
      as (r' & -> & Hr').
    exists r'. rewrite <- app_assoc. 
    assert (bs ++ data = take k bs ++ drop k bs ++ data) as -> by (by rewrite app_assoc, take_drop).
    assert (length (take k bs) = k) as Hk by (rewrite length_take; lia).
    rewrite (take_app_ge (take k bs)), (drop_app_ge (take k bs)) by lia.
    replace (Z.to_nat remaining - length (take k bs))%nat
      with (Z.to_nat (remaining - Z.of_nat (Nat.min k (length bs)))) by lia. done.
Qed.

Lemma stream_add_rest max : ∀ fuel w r data hashed total o w',
  delivers r data → 0 < chunk_size w → 0 ≤ total → total + lenZ data ≤ max → max ≤ u64_max →
  add_rest fuel w data = Ret (o, w') →
  ∃ h t, stream_chunks fuel w r max hashed total = Ret (o, w', h, t) ∧
         (o = None → h = hashed ++ data ∧ t = total + lenZ data).
Proof.
  induction fuel as [|fuel IH]; intros w r data hashed total o w' Hd Hs Ht Hmax Hu; [done|].
  cbn [add_rest stream_chunks].
  destruct (fill_chunk_delivers (S (Z.to_nat (chunk_size w))) (chunk_size w) [] r data Hd) as (r' & -> & Hd'); [lia..|].
  rewrite bind_ret. cbn [app].
  assert ((lenZ (take (Z.to_nat (chunk_size w)) data) =? 0) = (lenZ data =? 0)) as ->.
  { rewrite length_take. apply eq_true_iff_eq. rewrite !Z.eqb_eq. lia. }
  destruct (Z.eqb_spec (lenZ data) 0) as [Hz|Hz].
  { intros [= <- <-]. exists hashed, total. split; [done|]. intros _. destruct data; [|done]. rewrite app_nil_r. by split; [|cbn; lia]. }
  unfold u64_saturating_add. pose proof (length_take data (Z.to_nat (chunk_size w))) as Hlt.
  rewrite Z.min_l by lia. rewrite (proj2 (Z.ltb_ge max _)) by lia.
  destruct (emit_chunk w _) as [[[e|] w1]|[]| |] eqn:Ee; [| |done..]; rewrite !bind_ret.
  - intros [= <- <-]. eexists _, _. by split.
  - pose proof (emit_size _ _ _ _ Ee) as Hs1. rewrite <- Hs1 in Hd'. intros Hr.
    pose proof (length_drop data (Z.to_nat (chunk_size w1))) as Hld.
    eapply (IH w1 r' _ (hashed ++ take (Z.to_nat (chunk_size w)) data)
      (total + lenZ (take (Z.to_nat (chunk_size w)) data))) in Hr as (h & t & Hst & Hok); [|done|lia..].
    exists h, t. split; [done|]. intros Ho. destruct (Hok Ho) as [-> ->]. rewrite <- app_assoc, Hs1, take_drop.
    split; [done|]. rewrite Hs1 in Hld. lia.
Qed.

(** ** A failed streaming *)

Lemma fill_chunk_fits : ∀ fuel remaining buf r x r',
  0 ≤ remaining → fill_chunk fuel remaining buf r = Ret (inr x, r') → lenZ x ≤ lenZ buf + remaining.
Proof.
  induction fuel as [|fuel IH]; intros remaining buf r x r' Hr; cbn [fill_chunk]; [done|].
  destruct (Z.ltb_spec 0 remaining); [|intros [= -> _]; lia].
  destruct (read r _) as [[e|bs] r1] eqn:Er; [done|].
  assert (lenZ bs ≤ Z.min 8192 remaining) as Hbs.
  { unfold read in Er. destruct r as [|[e|piece] r]; [injection Er as <- _; cbn; lia|done|].
    destruct (Z.leb_spec (lenZ piece) (Z.min 8192 remaining)); injection Er as <- _; [lia|]. rewrite length_take. lia. }
  destruct (lenZ bs =? 0); [intros [= -> _]; lia|]. intros Hx%IH; [|lia]. rewrite length_app in Hx. lia.
Qed.

Lemma stream_chunks_spec max : ∀ fuel w raws comps r hashed total o w' h t,
  packed w raws comps → 0 < chunk_size w → stream_chunks fuel w r max hashed total = Ret (o, w', h, t) →
  o ≠ None → chunks_added w w' raws o [].
Proof.
  induction fuel as [|fuel IH]; intros w raws comps r hashed total o w' h t Hp Hs; cbn [stream_chunks]; [done|].
  assert (∃ parts comps, packed w (raws ++ parts) comps ∧ poisoned w = poisoned w ∧
            (o = None → concat parts = [] ∧ cut (chunk_size w) parts)) as Hnone.
  { exists [], comps. by rewrite app_nil_r. }
  destruct (fill_chunk _ _ _ r) as [[[e|x] r1]|[]| |] eqn:Ef; [| |done..]; rewrite bind_ret.
  - intros [= <- <- <- <-] _. split; [apply same_index_refl|by right].
  - destruct (Z.eqb_spec (lenZ x) 0) as [Hz|Hz]; [by intros [= <- <- <- <-]|].
    case_match eqn:Em; [intros [= <- <- <- <-] _; split; [done|left; by split]|].
    assert (chunk_fits (chunk_size w) x) as Hfit.
    { split; [by intros ->|]. apply fill_chunk_fits in Ef; [cbn in Ef; lia|lia]. }
    destruct (emit_chunk w x) as [[[e|] w1]|[]| |] eqn:Ee; [| |done..]; rewrite bind_ret.
    + intros [= <- <- <- <-] _. destruct (emit_spec _ _ _ _ _ _ Hp Hfit Ee) as [Hi [Hpo| ->]].
      * split; [done|]. left. by split.
      * split; [done|by right].
    + destruct (emit_spec _ _ _ _ _ _ Hp Hfit Ee) as [Hi (Hpo & comp & Hp1)]. intros Hr Ho.
      pose proof (emit_size _ _ _ _ Ee) as Hs1.
      eapply IH in Hr as [Hi' Hr]; [|exact Hp1|lia|done]. split; [by eapply same_index_trans|].
      destruct Hr as [Hr|(parts & comps' & Hp' & Hpo' & _)]; [by left|right].
      rewrite <- app_assoc in Hp'. eexists _, _. split; [exact Hp'|]. split; [congruence|]. done.
Qed.

Lemma streaming_fails fuel size w files raws comps p r max e w' :
  written size w files raws comps → 0 < size →
  add_entry_streaming fuel w p r max = Ret (Some e, w') → ∀ f, call_adds size files f (Some e, w').
Proof.
  intros Hw Hsize. pose proof (written_size _ _ _ _ _ Hw) as Hs. unfold add_entry_streaming.
  destruct (check_path w p) as [n|e'| |] eqn:Ep; [| |done..].
  2:{ intros [= <- <-] f. right. by exists raws, comps. }
  destruct (stream_chunks _ _ _ _ _ _) as [[[[[e'|] w1] h] t]|[]| |] eqn:Er; [| |done..]; rewrite bind_ret.
  - intros [= <- <-] f.
    destruct (stream_chunks_spec _ _ _ _ _ _ _ _ _ _ _ _ (written_packed _ _ _ _ _ Hw) ltac:(lia) Er ltac:(done))
      as [Hi [[Hpo _]|(parts & comps1 & Hp1 & _ & _)]]; [by left|right].
    exists (raws ++ parts), comps1. by eapply written_failed.
  - unfold enter, u32_sub. case_match; [|done]. by rewrite bind_ret.
Qed.

(** ** Runs of the writer *)

(** What a writer made over an empty file becomes by calls, with the files whose
    calls succeeded.  A call that failed is allowed, its reader delivering
    anything. *)
Inductive built (size : Z) : PackageWriter → list (text * list Z) → Prop :=
  | built_new d w :
      contents d = [] → cursor d = 0 → room d ≤ u64_max →
      with_chunk_size d size = inr w → built size w []
  | built_add w files fuel p data a :
      built size w files → lenZ data + size ≤ u64_max → add_entry fuel w p data = Ret a →
      built size (snd a) (if fst a is None then files ++ [(p, data)] else files)
  | built_stream w files fuel p r data max w' :
      built size w files → delivers r data → lenZ data + size ≤ u64_max → lenZ data ≤ max ≤ u64_max →
      (length data < fuel)%nat → add_entry_streaming fuel w p r max = Ret (None, w') →
      built size w' (files ++ [(p, data)])
  | built_fail w files fuel p r max e w' :
      built size w files → add_entry_streaming fuel w p r max = Ret (Some e, w') → built size w' files.

Lemma streaming_same fuel size w files raws comps p r data max a :
  written size w files raws comps → 0 < size → delivers r data →
  lenZ data + size ≤ u64_max → lenZ data ≤ max ≤ u64_max →
  add_entry fuel w p data = Ret a → add_entry_streaming fuel w p r max = Ret a.
Proof.
  intros Hw Hsize Hd Hm1 Hm2. pose proof (written_size _ _ _ _ _ Hw) as Hs.
  unfold add_entry, add_entry_streaming. destruct (check_path w p); [|done..].
  rewrite add_chunks_rest by lia. rewrite drop_0.
  destruct (add_rest fuel w data) as [[o w1]|[]| |] eqn:Er; [|done..]. rewrite bind_ret.
  destruct (stream_add_rest max fuel w r data [] 0 o w1 Hd) as (h & t & -> & Hok); [lia..|done|].
  rewrite bind_ret. destruct o; [done|]. by destruct (Hok eq_refl) as [-> ->].
Qed.

Lemma cut_count size parts :
  0 < size → cut size parts → lenZ parts ≤ (lenZ (concat parts) + size - 1) / size.
Proof.
  intros Hs Hc. apply Z.div_le_lower_bound; [done|]. induction parts as [|p parts IH]; [cbn; lia|].
  rewrite cut_cons in Hc. cbn [concat length]. rewrite length_app. case_decide as Hn; [subst; cbn; lia|].
  destruct Hc as [Hp Hc]. specialize (IH Hc). lia.
Qed.

Lemma packed_length w raws comps : packed w raws comps → length (chunks w) = length raws.
Proof.
  intros [_ _ _ _ Hf _ ->]. clear -Hf. generalize 32. induction Hf; intros pos; cbn [lay length]; auto.
Qed.

Lemma add_entry_ret fuel size w files raws comps p data :
  written size w files raws comps → 0 < size → lenZ data + size ≤ u64_max → (length data < fuel)%nat →
  lenZ (chunks w) + (lenZ data + size - 1) / size < 2 ^ 32 → ∃ a, add_entry fuel w p data = Ret a.
Proof.
  intros Hw Hsize Hm Hf Hn. pose proof (written_size _ _ _ _ _ Hw) as Hs. unfold add_entry.
  pose proof (check_path_safe w p) as Hsafe. destruct (check_path w p) as [n|e| |]; [|by eexists|done..].
  rewrite add_chunks_rest by lia. rewrite drop_0.
  destruct (add_rest_returns fuel w raws comps data (written_packed _ _ _ _ _ Hw)) as [[o w1] Er]; [lia..|].
  rewrite Er, bind_ret. destruct o; [by eexists|]. unfold enter.
  pose proof (add_rest_spec _ _ _ _ _ _ _ (written_packed _ _ _ _ _ Hw) ltac:(lia) Er) as [Hi Hadd].
  destruct Hadd as [[_ ?]|(parts & comps1 & Hp1 & _ & Hok)]; [done|]. destruct (Hok eq_refl) as [Hc Hcut].
  rewrite Hs in Hcut. pose proof (cut_count _ _ Hsize Hcut) as Hcount. rewrite Hc in Hcount.
  pose proof (packed_length _ _ _ (written_packed _ _ _ _ _ Hw)) as Hl0.
  pose proof (packed_length _ _ _ Hp1) as Hl1. rewrite length_app in Hl1.
  rewrite !as_u32_small by lia. rewrite u32_sub_ret by lia. rewrite bind_ret. by eexists.
Qed.

Lemma written_new size d w :
  contents d = [] → cursor d = 0 → room d ≤ u64_max → with_chunk_size d size = inr w → written size w [] [] [].
Proof.
  intros Hc Hcur Hroom. unfold with_chunk_size. destruct (write_each d _) as [[e|] d1] eqn:Ew; [done|].
  intros [= <-]. apply write_each_end in Ew as [-> Hr]; [|by rewrite Hc, Hcur].
  specialize (Hr ltac:(done)). rewrite length_header_fields, Hc, Hcur in *.
  split; [split|..]; cbn [writer contents cursor room data_pos chunks chunk_size entries seen_paths lay app].
  - eexists. split; [apply length_header_fields|]. cbn [concat]. by rewrite app_nil_r.
  - by rewrite length_header_fields.
  - by rewrite length_header_fields.
  - unfold HEADER_SIZE. lia.
  - constructor.
  - constructor.
  - done.
  - done.
  - constructor.
  - done.
  - split; [constructor|]. intros a b Ha. by apply elem_of_nil in Ha.
Qed.

Lemma poisoned_add fuel w p data a : poisoned w = true → add_entry fuel w p data = Ret a → a = (Some (Io OtherError), w).
Proof. unfold add_entry, check_path. intros ->. by intros [= <-]. Qed.
Lemma poisoned_stream fuel w p r max a :
  poisoned w = true → add_entry_streaming fuel w p r max = Ret a → a = (Some (Io OtherError), w).
Proof. unfold add_entry_streaming, check_path. intros ->. by intros [= <-]. Qed.

(** The writer's invariant, over any run. *)
Lemma built_written size w files :
  0 < size → built size w files → poisoned w = true ∨ ∃ raws comps, written size w files raws comps.
Proof.
  intros Hsize. induction 1 as [d w Hc Hcur Hroom Hw|w files fuel p data a Hb IH Hm Ha
    |w files fuel p r data max w' Hb IH Hd Hm1 Hm2 Hf Ha|w files fuel p r max e w' Hb IH Ha].
  - right. exists [], []. by eapply written_new.
  - destruct IH as [Hpo|(raws & comps & Hw)]; [left; by rewrite (poisoned_add _ _ _ _ _ Hpo Ha)|].
    by eapply add_entry_adds in Ha.
  - destruct IH as [Hpo|(raws & comps & Hw)]; [by apply (poisoned_stream _ _ _ _ _ _ Hpo) in Ha|].
    pose proof (written_size _ _ _ _ _ Hw) as Hs.
    assert (add_entry fuel w p data = Ret (None, w')) as Ha'.
    { unfold add_entry_streaming in Ha. unfold add_entry. destruct (check_path w p); [|done..].
      rewrite add_chunks_rest by lia. rewrite drop_0.
      destruct (add_rest_returns fuel w raws comps data (written_packed _ _ _ _ _ Hw)) as [[o w1] Er]; [lia..|].
      destruct (stream_add_rest max fuel w r data [] 0 o w1 Hd) as (h & t & Hst & Hok); [lia..|done|].
      rewrite Er. rewrite Hst in Ha. rewrite !bind_ret in *. destruct o; [done|].
      by destruct (Hok eq_refl) as [-> ->]. }
    eapply (add_entry_adds _ _ _ _ _ _ _ _ _ Hw Hsize Hm1) in Ha' as [?|?]; [by left|by right].
  - destruct IH as [Hpo|(raws & comps & Hw)]; [left; by injection (poisoned_stream _ _ _ _ _ _ Hpo Ha) as _ ->|].
    by eapply (streaming_fails _ _ _ _ _ _ _ _ _ _ _ Hw Hsize) in Ha as [?|?]; [left|right].
  Unshelve. exact ([], []).
Qed.

(** * Theorems *)

(** An entry that is streamed in, in whatever pieces its source delivers, is
    written as the same bytes and enters the index as the same record as when it
    is added from a buffer, and both calls return, a full disk or a refused
    compression included; the entry must stay below the limit given for it and
    the chunks of the package below [2^32]. *)
Theorem streaming_is_buffered (size : Z) (w : PackageWriter) (files : list (text * list Z)) (fuel : nat)
    (p : text) (r : reader) (data : list Z) (max : Z) :
  0 < size → built size w files → delivers r data →
  lenZ data + size ≤ u64_max → lenZ data ≤ max ≤ u64_max → (length data < fuel)%nat →
  lenZ (chunks w) + (lenZ data + size - 1) / size < 2 ^ 32 →
  ∃ a, add_entry fuel w p data = Ret a ∧ add_entry_streaming fuel w p r max = Ret a.
Proof.
  intros Hsize Hb Hd Hm1 Hm2 Hf Hn. destruct (built_written _ _ _ Hsize Hb) as [Hpo|(raws & comps & Hw)].
  - exists (Some (Io OtherError), w). unfold add_entry, add_entry_streaming, check_path. by rewrite Hpo.
  - destruct (add_entry_ret fuel _ _ _ _ _ p data Hw Hsize Hm1 Hf Hn) as [a Ha]. exists a.
    split; [done|]. by eapply streaming_same.
Qed.

(** A poisoned writer refuses every entry, buffered or streamed, stays as it
    is, and refuses to finish. *)
Theorem poison_is_final (w : PackageWriter) (p : text) :
  poisoned w = true →
  (∀ fuel data, add_entry fuel w p data = Ret (Some (Io OtherError), w)) ∧
  (∀ fuel r max, add_entry_streaming fuel w p r max = Ret (Some (Io OtherError), w)) ∧
  (∀ name version, finish w name version = Fail (Io OtherError)).
Proof.
  intros Hpo. unfold add_entry, add_entry_streaming, finish, check_path. by rewrite Hpo.
Qed.

End Writer.

(** * Witnesses *)

(** A compressor that stores. *)
#[export, refine] Instance stored : Zstd := {
  compress d := Some d;
  decompress c cap := if lenZ c <=? cap then Some c else None
}.
Proof.
  - intros d c cap [= ->] Hc. by rewrite (proj2 (Z.leb_le _ _)).
  - intros c cap d. case_match eqn:E; [|done]. intros [= ->]. by apply Z.leb_le.
  - intros d c [= ->]. pose proof (Z.div_pos (lenZ c) 256). lia.
Defined.

Definition sample_disk : Disk := {| contents := []; cursor := 0; room := 2 ^ 20 |}.
Definition sample_writer : PackageWriter :=
  match with_chunk_size sample_disk 4 with inr w => w | inl _ => poison
    {| writer := sample_disk; entries := []; chunks := []; seen_paths := ∅; data_pos := 0; chunk_size := 4;
       poisoned := true |} end.

Lemma streaming_is_buffered_witness :
  ∃ a, add_entry (C:=crc_ieee) 20 sample_writer (str "a/b.js") (str "hello world") = Ret a ∧
       add_entry_streaming (C:=crc_ieee) 20 sample_writer (str "a/b.js")
         [inr (str "hel"); inr (str "lo wor"); inr (str "ld")] 100 = Ret a.
Proof.
  apply (streaming_is_buffered 4 sample_writer []).
  - lia.
  - eapply (built_new 4 sample_disk); [reflexivity|reflexivity|unfold sample_disk, u64_max; cbn; lia|reflexivity].
  - change (str "hello world") with (str "hel" ++ str "lo wor" ++ str "ld" ++ []).
    repeat (constructor; [discriminate|]). constructor.
  - vm_compute. discriminate.
  - vm_compute. split; discriminate.
  - vm_compute. lia.
  - vm_compute. reflexivity.
Defined.
Lemma poison_is_final_witness : finish (C:=crc_ieee) (poison sample_writer) [] [] = Fail (Io OtherError).
Proof. apply (poison_is_final (C:=crc_ieee) _ []). reflexivity. Defined.
