(* ===== verification/PackageRead.v ===== *)
(** The reader of packages
    ([engine/crates/shared/src/vfs/package.rs]): opening a file that may hold
    anything, and reading ranges of its entries through a cache.

    A package is opened and later read from a file, whose contents are an argument
    of each call: the file may have changed, or be gone. *)
From S2P Require Import Prelude Text Wire PackagePath Package.

(** * Reading a file *)

(** [read_exact] of [n] bytes at a position. *)
Definition read_exact (f : list Z) (pos n : Z) : outcome PackageError (list Z) :=
  if pos + n <=? lenZ f then mret (sub f pos (pos + n)) else Fail (Io UnexpectedEof).

Definition read_header (f : list Z) : outcome PackageError Header :=
  buf ← read_exact f 0 HEADER_SIZE;
  if negb (bool_decide (sub buf 0 4 = MAGIC)) then Fail BadMagic else
  let version := le_value (sub buf 4 8) in
  if negb (version =? FORMAT_VERSION) then Fail (UnsupportedVersion version) else
  mret {| header_entries := le_value (sub buf 8 12); header_chunks := le_value (sub buf 12 16);
          chunk_table_offset := le_value (sub buf 16 24); index_offset := le_value (sub buf 24 32) |}.

(** * Opening *)

Definition MIN_INDEX_RECORD_BYTES : Z := 22.

Definition check_bounds (h : Header) (file_len : Z) : outcome PackageError unit :=
  size ← ok_or (u64_checked_mul (header_chunks h) 16) BadIndex;
  chunk_table_end ← ok_or (u64_checked_add (chunk_table_offset h) size) BadIndex;
  if file_len <? chunk_table_end then Fail BadIndex else
  if index_offset h <? chunk_table_end then Fail BadIndex else
  let index_region := Z.max (file_len - index_offset h) 0 in
  if index_region / MIN_INDEX_RECORD_BYTES <? header_entries h then Fail BadIndex else
  mret tt.

Definition read_chunk_entry (f : list Z) (table pos : Z) : outcome PackageError ChunkEntry :=
  buf ← read_exact f pos 16;
  let data_offset := le_value (sub buf 0 8) in
  let compressed_size := le_value (sub buf 8 12) in
  let raw_size := le_value (sub buf 12 16) in
  chunk_end ← ok_or (u64_checked_add data_offset compressed_size) BadIndex;
  if table <? chunk_end then Fail BadIndex else
  if data_offset <? HEADER_SIZE then Fail BadIndex else
  if MAX_CHUNK_RAW_SIZE <? raw_size then Fail BadIndex else
  mret {| data_offset := data_offset; compressed_size := compressed_size; raw_size := raw_size |}.

Fixpoint read_chunk_table (n : nat) (f : list Z) (table pos : Z) : outcome PackageError (list ChunkEntry) :=
  match n with
  | O => mret []
  | S n =>
      c ← read_chunk_entry f table pos;
      cs ← read_chunk_table n f table (pos + 16);
      mret (c :: cs)
  end.

(** The loop over the chunks of an entry: all of the stride's size, the last one
    no larger; the answer is their sum. *)
Fixpoint span_sum (stride chunk_sum : Z) (span : list ChunkEntry) : outcome PackageError Z :=
  match span with
  | [] => mret chunk_sum
  | c :: rest =>
      let is_last := bool_decide (rest = []) in
      if negb is_last && negb (raw_size c =? stride) then Fail BadIndex else
      if is_last && (stride <? raw_size c) then Fail BadIndex else
      chunk_sum ← ok_or (u64_checked_add chunk_sum (raw_size c)) BadIndex;
      span_sum stride chunk_sum rest
  end.

Definition check_entry (cs : list ChunkEntry) (e : EntryMeta) : outcome PackageError unit :=
  last ← ok_or (u32_checked_add (first_chunk e) (chunk_count e)) BadIndex;
  if as_u32 (lenZ cs) <? last then Fail BadIndex else
  if chunk_count e =? 0 then
    (if negb (entry_raw_size e =? 0) then Fail BadIndex else mret tt)
  else
    c ← idx cs (first_chunk e);
    let stride := raw_size c in
    if stride =? 0 then Fail BadIndex else
    span ← slice cs (first_chunk e) last;
    chunk_sum ← span_sum stride 0 span;
    if negb (chunk_sum =? entry_raw_size e) then Fail BadIndex else mret tt.

(** One record of the index, and where the next one starts. *)
Definition read_entry_record (f : list Z) (pos : Z) : outcome PackageError (EntryMeta * Z) :=
  len_buf ← read_exact f pos 2;
  let path_len := le_value len_buf in
  path ← read_exact f (pos + 2) path_len;
  if negb (utf8 path) then Fail BadIndex else
  meta ← read_exact f (pos + 2 + path_len) 20;
  mret ({| entry_path := path; entry_raw_size := le_value (sub meta 0 8); entry_crc32 := le_value (sub meta 8 12);
           first_chunk := le_value (sub meta 12 16); chunk_count := le_value (sub meta 16 20) |},
        pos + 2 + path_len + 20).

Fixpoint read_index (n : nat) (f : list Z) (cs : list ChunkEntry) (pos : Z) (es : gmap text EntryMeta) :
    outcome PackageError (gmap text EntryMeta) :=
  match n with
  | O => mret es
  | S n =>
      r ← read_entry_record f pos;
      let '(e, pos) := r in
      normalized ← validate_entry_path (entry_path e);
      if bool_decide (is_Some (es !! normalized)) then Fail InvalidEntryPath else
      _ ← check_entry cs e;
      read_index n f cs pos (<[normalized := e]> es)
  end.

(** The check of all pairs of paths. *)
Fixpoint any_conflict (ps : list text) : bool :=
  match ps with
  | [] => false
  | a :: ps => existsb (prefix_conflict a) ps || any_conflict ps
  end.

Definition INFLATE_CACHE_MAX_ENTRY_BYTES : Z := 128 * 1024.
Definition INFLATE_CACHE_CAPACITY : nat := 128.

Record PackageReader := {
  r_chunks : list ChunkEntry;
  r_entries : gmap text EntryMeta;
  identity : PackageIdentity;
  inflate_cache : list (text * list Z)
}.

Definition open_package {C : Crc32} (f : list Z) (name version : text) : outcome PackageError PackageReader :=
  header ← read_header f;
  _ ← check_bounds header (lenZ f);
  cs ← read_chunk_table (Z.to_nat (header_chunks header)) f (chunk_table_offset header) (chunk_table_offset header);
  es ← read_index (Z.to_nat (header_entries header)) f cs (index_offset header) ∅;
  if any_conflict (fst <$> map_to_list es) then Fail InvalidEntryPath else
  mret {| r_chunks := cs; r_entries := es;
          identity := identity_of name version (prod_map id entry_crc32 <$> map_to_list es);
          inflate_cache := [] |}.

(** * Reading *)

(** The cache of the [lru] crate: the most recently used first. *)
Definition cache_get (path : text) (c : list (text * list Z)) : option (list Z * list (text * list Z)) :=
  match List.find (λ kv, bool_decide (fst kv = path)) c with
  | Some kv => Some (snd kv, kv :: List.filter (λ kv, negb (bool_decide (fst kv = path))) c)
  | None => None
  end.
Definition cache_put (path : text) (v : list Z) (c : list (text * list Z)) : list (text * list Z) :=
  take INFLATE_CACHE_CAPACITY ((path, v) :: List.filter (λ kv, negb (bool_decide (fst kv = path))) c).

Definition set_cache (r : PackageReader) (c : list (text * list Z)) : PackageReader :=
  {| r_chunks := r_chunks r; r_entries := r_entries r; identity := identity r; inflate_cache := c |}.

Section Reader.
Context `{Zstd}.

Definition inflate (f : list Z) (c : ChunkEntry) (max_output : Z) : outcome PackageError (list Z) :=
  compressed ← read_exact f (data_offset c) (compressed_size c);
  ok_or (decompress compressed max_output) (Io InvalidData).

(** The loop of [read_range] over [n] chunks from the [i]th of the entry on. *)
Fixpoint read_loop (n : nat) (i : Z) (r : PackageReader) (f : list Z) (e : EntryMeta)
    (chunk_size position end_ : Z) (acc : list Z) : outcome PackageError (list Z) :=
  match n with
  | O => mret acc
  | S n =>
      ci ← u32_add (first_chunk e) i;
      chunk ← idx (r_chunks r) ci;
      decompressed ← inflate f chunk (Z.min (raw_size chunk) MAX_CHUNK_RAW_SIZE);
      chunk_offset ← u64_mul i chunk_size;
      let copy_start := if chunk_offset <? position then position - chunk_offset else 0 in
      after ← u64_add chunk_offset (lenZ decompressed);
      copy_end ← if end_ <? after then u64_sub end_ chunk_offset else mret (lenZ decompressed);
      piece ← if copy_start <? copy_end then slice decompressed copy_start copy_end else mret [];
      read_loop n (i + 1) r f e chunk_size position end_ (acc ++ piece)
  end.

(** The range read past the cache. *)
Definition read_uncached (r : PackageReader) (file : option (list Z)) (e : EntryMeta) (position end_ : Z) :
    outcome PackageError (list Z) :=
  c ← idx (r_chunks r) (first_chunk e);
  let chunk_size := raw_size c in
  if chunk_size =? 0 then Fail BadIndex else
  let first_needed := as_u32 (position / chunk_size) in
  before_end ← u64_sub end_ 1;
  let last_needed := as_u32 (before_end / chunk_size) in
  _ ← u64_sub end_ position;
  f ← ok_or file (Io NotFound);
  last_chunk ← u32_sub (chunk_count e) 1;
  read_loop (Z.to_nat (Z.min last_needed last_chunk - first_needed + 1)) first_needed r f e chunk_size
    position end_ [].

Definition read_range (r : PackageReader) (file : option (list Z)) (path : text) (position : Z)
    (len : option Z) : outcome PackageError (list Z * PackageReader) :=
  e ← ok_or (r_entries r !! path) (Io NotFound);
  if (entry_raw_size e <=? position) || bool_decide (len = Some 0) then mret ([], r) else
  let end_ := match len with
              | Some len => Z.min (u64_saturating_add position len) (entry_raw_size e)
              | None => entry_raw_size e
              end in
  if chunk_count e =? 0 then mret ([], r) else
  let cacheable := entry_raw_size e <=? INFLATE_CACHE_MAX_ENTRY_BYTES in
  match (if cacheable then cache_get path (inflate_cache r) else None) with
  | Some (full, c) => bs ← slice full position end_; mret (bs, set_cache r c)
  | None =>
      result ← read_uncached r file e position end_;
      if cacheable && (position =? 0) && (end_ =? entry_raw_size e)
      then mret (result, set_cache r (cache_put path result (inflate_cache r)))
      else mret (result, r)
  end.

(** [read_entry]: what the cache keeps it keeps also when the checksum is wrong,
    so the answer is beside the reader. *)
Definition read_entry {C : Crc32} (r : PackageReader) (file : option (list Z)) (path : text) :
    outcome PackageError ((PackageError + list Z) * PackageReader) :=
  d ← read_range r file path 0 None;
  let '(data, r') := d in
  match r_entries r !! path with
  | None => Panic
  | Some e =>
      if negb (crc32 data =? entry_crc32 e)
      then mret (inl (ChecksumMismatch path (entry_crc32 e) (crc32 data)), r')
      else mret (inr data, r')
  end.

Definition read_range_limited (r : PackageReader) (file : option (list Z)) (path : text) (position : Z)
    (len : option Z) (max_inflate : Z) : outcome PackageError (list Z * PackageReader) :=
  e ← ok_or (r_entries r !! path) (Io NotFound);
  if max_inflate <? entry_raw_size e then Fail (Io InvalidInput) else read_range r file path position len.

(** The loop of [get_file_info]: the size and the bytes hashed. *)
Fixpoint info_loop (n : nat) (i : Z) (r : PackageReader) (f : list Z) (e : EntryMeta) (total : Z)
    (hashed : list Z) : outcome PackageError (Z * list Z) :=
  match n with
  | O => mret (total, hashed)
  | S n =>
      ci ← u32_add (first_chunk e) i;
      chunk ← idx (r_chunks r) ci;
      decompressed ← inflate f chunk (raw_size chunk);
      total ← u64_add total (lenZ decompressed);
      info_loop n (i + 1) r f e total (hashed ++ decompressed)
  end.

Definition get_file_info (digest : text → option (list Z → text)) (r : PackageReader) (file : option (list Z))
    (path algorithm : text) : outcome PackageError (Z * text) :=
  e ← ok_or (r_entries r !! path) (Io NotFound);
  finalize ← ok_or (digest algorithm) (Io InvalidInput);
  f ← ok_or file (Io NotFound);
  s ← info_loop (Z.to_nat (chunk_count e)) 0 r f e 0 [];
  mret (fst s, finalize (snd s)).

End Reader.

(** * The entries as a tree *)

Definition contains (r : PackageReader) (path : text) : bool := bool_decide (is_Some (r_entries r !! path)).
Definition entry_count (r : PackageReader) : Z := Z.of_nat (size (r_entries r)).
Definition entry_size (r : PackageReader) (path : text) : option Z := entry_raw_size <$> r_entries r !! path.
Definition entry_paths (r : PackageReader) : list text := fst <$> map_to_list (r_entries r).

Definition is_file (r : PackageReader) (p : text) : bool := contains r p.
Definition is_dir (r : PackageReader) (p : text) : bool :=
  if bool_decide (p = []) then true else existsb (starts_with (p ++ str "/")) (entry_paths r).

Definition list_dir (r : PackageReader) (dir : text) : gset text :=
  let prefix := if bool_decide (dir = []) then [] else dir ++ str "/" in
  list_to_set (omap (λ path,
    tail ← (if bool_decide (prefix = []) then Some path else strip_prefix prefix path);
    name ← head (split_on SLASH tail);
    if bool_decide (name = []) then None else Some name) (entry_paths r)).

(** * Validation and trust *)

Fixpoint read_entries `{Zstd} {C : Crc32} (r : PackageReader) (file : option (list Z)) (paths : list text) :
    outcome PackageError unit :=
  match paths with
  | [] => mret tt
  | p :: paths =>
      d ← read_entry r file p;
      match d with
      | (inl e, _) => Fail e
      | (inr _, r) => read_entries r file paths
      end
  end.

Definition validate_package `{Zstd} {C : Crc32} (f : list Z) (verify_checksums : bool) :
    outcome PackageError PackageIdentity :=
  r ← open_package f [] [];
  _ ← if verify_checksums then read_entries r (Some f) (entry_paths r) else mret tt;
  mret (identity r).

(** The verifier the host may have registered. *)
Definition verify_package_signature (verifier : option (list Z → list Z → list Z → bool))
    (pkg_bytes : list Z) (manifest signature : option (list Z)) : outcome PackageError unit :=
  match verifier with
  | Some verify =>
      manifest ← ok_or manifest BadIndex;
      signature ← ok_or signature BadIndex;
      if verify pkg_bytes manifest signature then mret tt else Fail BadIndex
  | None => mret tt
  end.

(** * The specification *)

(** Sizes of one stride, but for the last, which may be smaller. *)
Fixpoint strided (stride : Z) (sizes : list Z) : Prop :=
  match sizes with
  | [] => True
  | [x] => 0 ≤ x ≤ stride
  | x :: sizes => x = stride ∧ strided stride sizes
  end.

Definition sum_Z (l : list Z) : Z := foldr Z.add 0 l.

(** The chunks of an entry. *)
Definition span (cs : list ChunkEntry) (e : EntryMeta) : list ChunkEntry :=
  sub cs (first_chunk e) (first_chunk e + chunk_count e).

(** The entry's chunks are in the table, and add up to it. *)
Definition entry_wf (cs : list ChunkEntry) (e : EntryMeta) : Prop :=
  0 ≤ first_chunk e ∧ 0 ≤ chunk_count e ∧ first_chunk e + chunk_count e ≤ lenZ cs ∧
  entry_raw_size e = sum_Z (raw_size <$> span cs e) ∧
  (chunk_count e ≠ 0 → ∃ c, cs !! Z.to_nat (first_chunk e) = Some c ∧ 0 < raw_size c ∧
                            strided (raw_size c) (raw_size <$> span cs e)).

Definition chunk_wf (c : ChunkEntry) : Prop :=
  HEADER_SIZE ≤ data_offset c ∧ 0 ≤ compressed_size c ∧ 0 ≤ raw_size c ≤ MAX_CHUNK_RAW_SIZE.

(** What opening establishes. *)
Record reader_wf (r : PackageReader) : Prop := {
  reader_count : lenZ (r_chunks r) < 2 ^ 32;
  reader_chunks : Forall chunk_wf (r_chunks r);
  reader_entries : map_Forall (λ n e, validate_entry_path n = Ret n ∧ entry_wf (r_chunks r) e) (r_entries r);
  reader_apart : ∀ a b, a ∈ dom (r_entries r) → b ∈ dom (r_entries r) → a ≠ b → prefix_conflict a b = false
}.

(** What is cached of an entry has its size. *)
Definition cache_full (r : PackageReader) : Prop :=
  Forall (λ kv, ∃ e, r_entries r !! fst kv = Some e ∧ lenZ (snd kv) = entry_raw_size e) (inflate_cache r).

(** * Lemmas *)

(** ** Reading bytes *)

Lemma read_exact_inv f pos n b :
  Forall is_u8 f → 0 ≤ pos → 0 ≤ n → read_exact f pos n = Ret b → lenZ b = n ∧ Forall is_u8 b ∧ pos + n ≤ lenZ f.
Proof.
  unfold read_exact. intros Hf Hp Hn. destruct (Z.leb_spec (pos + n) (lenZ f)); [|done]. intros [= <-].
  split; [rewrite length_sub; lia|]. split; [|done]. unfold sub. by apply Forall_take, Forall_drop.
Qed.

Lemma read_exact_safe f pos n : safe (read_exact f pos n).
Proof. unfold read_exact. by case_match. Qed.

Lemma le_value_sub b lo hi :
  Forall is_u8 b → 0 ≤ lo → lo ≤ hi → hi ≤ lenZ b → 0 ≤ le_value (sub b lo hi) < 256 ^ (hi - lo).
Proof.
  intros Hb Hl Hh Hle. rewrite <- (length_sub b lo hi) by done. apply le_value_bound. unfold sub.
  by apply Forall_take, Forall_drop.
Qed.

(** ** Opening *)

Lemma read_header_inv f h :
  Forall is_u8 f → read_header f = Ret h →
  is_u32 (header_entries h) ∧ is_u32 (header_chunks h) ∧ is_u64 (chunk_table_offset h) ∧ is_u64 (index_offset h).
Proof.
  unfold read_header. intros Hf H. destruct (read_exact f 0 HEADER_SIZE) as [buf| | |] eqn:E; [|done..].
  apply read_exact_inv in E as (Hl & Hb & _); [|done|lia|done]. unfold HEADER_SIZE in Hl.
  rewrite bind_ret in H. case_match; [done|]. cbv zeta in H. case_match; [done|]. injection H as <-. cbn.
  pose proof (le_value_sub buf 8 12 Hb). pose proof (le_value_sub buf 12 16 Hb).
  pose proof (le_value_sub buf 16 24 Hb). pose proof (le_value_sub buf 24 32 Hb).
  unfold is_u32, is_u64. change (2 ^ 32) with (256 ^ 4). change (2 ^ 64) with (256 ^ 8).
  repeat split; lia.
Qed.

Lemma read_header_safe f : safe (read_header f).
Proof.
  apply safe_bind; [apply read_exact_safe|]. intros buf _. case_match; [done|]. cbv zeta. by case_match.
Qed.

Lemma read_chunk_entry_safe f table pos : safe (read_chunk_entry f table pos).
Proof.
  apply safe_bind; [apply read_exact_safe|]. intros buf _. cbv zeta. apply safe_bind; [apply safe_ok_or|].
  intros a _. by repeat case_match.
Qed.

Lemma read_chunk_entry_wf f table pos c :
  Forall is_u8 f → 0 ≤ pos → read_chunk_entry f table pos = Ret c → chunk_wf c.
Proof.
  unfold read_chunk_entry. intros Hf Hp H. destruct (read_exact f pos 16) as [buf| | |] eqn:E; [|done..].
  apply read_exact_inv in E as (Hl & Hb & _); [|done|lia|done]. rewrite bind_ret in H. cbv zeta in H.
  destruct (u64_checked_add _ _); [|done]. cbn [ok_or] in H. rewrite bind_ret in H.
  destruct (table <? z); [done|]. destruct (Z.ltb_spec (le_value (sub buf 0 8)) HEADER_SIZE); [done|].
  destruct (Z.ltb_spec MAX_CHUNK_RAW_SIZE (le_value (sub buf 12 16))); [done|]. injection H as <-.
  pose proof (le_value_sub buf 8 12 Hb). pose proof (le_value_sub buf 12 16 Hb).
  unfold chunk_wf. cbn [data_offset compressed_size raw_size]. lia.
Qed.

Lemma read_chunk_table_safe n f table : ∀ pos, safe (read_chunk_table n f table pos).
Proof.
  induction n as [|n IH]; intros pos; [done|]. cbn [read_chunk_table].
  apply safe_bind; [apply read_chunk_entry_safe|]. intros c _. by apply safe_bind.
Qed.

Lemma read_chunk_table_wf n f table : ∀ pos cs,
  Forall is_u8 f → 0 ≤ pos → read_chunk_table n f table pos = Ret cs → length cs = n ∧ Forall chunk_wf cs.
Proof.
  induction n as [|n IH]; intros pos cs Hf Hp; cbn [read_chunk_table]; [by intros [= <-]|].
  destruct (read_chunk_entry f table pos) as [c| | |] eqn:Ec; [|done..]. rewrite bind_ret.
  destruct (read_chunk_table n f table (pos + 16)) as [cs'| | |] eqn:Ecs; [|done..]. intros [= <-].
  apply IH in Ecs as [Hl Hw]; [|done|lia]. cbn [length]. split; [by f_equal|].
  constructor; [|done]. by eapply read_chunk_entry_wf.
Qed.

Lemma span_sum_safe stride cs : ∀ acc, safe (span_sum stride acc cs).
Proof.
  induction cs as [|c cs IH]; intros acc; [done|]. cbn [span_sum]. cbv zeta. do 2 (case_match; [done|]).
  apply safe_bind; [apply safe_ok_or|]. auto.
Qed.

Lemma span_sum_inv stride cs : ∀ acc s,
  Forall chunk_wf cs → span_sum stride acc cs = Ret s →
  strided stride (raw_size <$> cs) ∧ s = acc + sum_Z (raw_size <$> cs).
Proof.
  induction cs as [|c cs IH]; intros acc s; cbn [span_sum fmap list_fmap]; [intros _ [= <-]; split; [done|cbn; lia]|].
  intros [(_ & _ & Hc) Hcs]%Forall_cons H. cbv zeta in H.
  destruct (negb _ && negb _) eqn:E1 in H; [done|]. destruct (bool_decide _ && _) eqn:E2 in H; [done|].
  unfold u64_checked_add in H. case_match; [|done]. cbn [ok_or] in H. rewrite bind_ret in H.
  destruct (IH _ _ Hcs H) as [Hst ->]. cbn [sum_Z foldr]. split; [|unfold sum_Z; lia].
  destruct cs as [|c' cs].
  - rewrite bool_decide_true in E2 by done. cbn [andb] in E2. apply Z.ltb_ge in E2. cbn. lia.
  - rewrite bool_decide_false in E1 by done. cbn [negb andb] in E1.
    apply negb_false_iff, Z.eqb_eq in E1. cbn [strided fmap list_fmap] in Hst |- *. by split.
Qed.

Lemma check_entry_safe cs e : 0 ≤ first_chunk e → 0 ≤ chunk_count e → lenZ cs < 2 ^ 32 → safe (check_entry cs e).
Proof.
  intros H1 H2 Hl. unfold check_entry, u32_checked_add. destruct (_ <=? u32_max) eqn:Eu; [|done]. cbn [ok_or].
  rewrite bind_ret, as_u32_small by lia. destruct (Z.ltb_spec (lenZ cs) (first_chunk e + chunk_count e)); [done|].
  destruct (Z.eqb_spec (chunk_count e) 0); [by case_match|].
  destruct (idx_ret (E:=PackageError) cs (first_chunk e)) as (c & -> & _); [lia..|]. rewrite bind_ret. cbv zeta.
  case_match; [done|]. rewrite slice_ret by lia. rewrite bind_ret.
  apply safe_bind; [apply span_sum_safe|]. intros s _. by case_match.
Qed.

Lemma check_entry_wf cs e :
  0 ≤ first_chunk e → 0 ≤ chunk_count e → lenZ cs < 2 ^ 32 → Forall chunk_wf cs → check_entry cs e = Ret tt →
  entry_wf cs e.
Proof.
  intros H1 H2 Hl Hcs. unfold check_entry, u32_checked_add. destruct (_ <=? u32_max) eqn:Eu; [|done]. cbn [ok_or].
  rewrite bind_ret, as_u32_small by lia. destruct (Z.ltb_spec (lenZ cs) (first_chunk e + chunk_count e)) as [|Hle]; [done|].
  unfold entry_wf, span. destruct (Z.eqb_spec (chunk_count e) 0) as [Hz|Hz].
  { destruct (Z.eqb_spec (entry_raw_size e) 0) as [Hr|]; [|done]. intros _. rewrite Hz, Hr, Z.add_0_r.
    unfold sub. rewrite Z.sub_diag. repeat split; try done; lia. }
  destruct (idx_ret (E:=PackageError) cs (first_chunk e)) as (c & -> & Hc); [lia..|]. rewrite bind_ret. cbv zeta.
  destruct (Z.eqb_spec (raw_size c) 0) as [|Hc0]; [done|]. rewrite slice_ret by lia. rewrite bind_ret.
  destruct (span_sum _ _ _) as [s| | |] eqn:Es; [|done..]. rewrite bind_ret.
  destruct (Z.eqb_spec s (entry_raw_size e)) as [->|]; [|done]. intros _.
  apply span_sum_inv in Es as [Hst ->]; [|unfold sub; by apply Forall_take, Forall_drop].
  pose proof (Forall_lookup_1 _ _ _ _ Hcs Hc) as (_ & _ & Hcr).
  do 4 (split; [done || lia|]). intros _. exists c. split; [done|]. split; [lia|done].
Qed.

Lemma read_entry_record_safe f pos : safe (read_entry_record f pos).
Proof.
  apply safe_bind; [apply read_exact_safe|]. intros b _. cbv zeta. apply safe_bind; [apply read_exact_safe|].
  intros p _. case_match; [done|]. by apply safe_bind; [apply read_exact_safe|].
Qed.

Lemma read_entry_record_inv f pos e pos' :
  Forall is_u8 f → 0 ≤ pos → read_entry_record f pos = Ret (e, pos') →
  0 ≤ first_chunk e ∧ 0 ≤ chunk_count e ∧ pos < pos'.
Proof.
  unfold read_entry_record. intros Hf Hp H. destruct (read_exact f pos 2) as [b| | |] eqn:E1; [|done..].
  apply read_exact_inv in E1 as (Hl & Hb & _); [|done|lia|lia]. rewrite bind_ret in H. cbv zeta in H.
  pose proof (le_value_bound b Hb) as Hv.
  destruct (read_exact f (pos + 2) _) as [p| | |] eqn:E2; [|done..]. rewrite bind_ret in H. case_match; [done|].
  destruct (read_exact f _ 20) as [m| | |] eqn:E3; [|done..].
  apply read_exact_inv in E3 as (Hlm & Hbm & _); [|done|lia|lia]. rewrite bind_ret in H. injection H as <- <-. cbn.
  pose proof (le_value_sub m 12 16 Hbm). pose proof (le_value_sub m 16 20 Hbm). lia.
Qed.

Definition entries_wf (cs : list ChunkEntry) (es : gmap text EntryMeta) : Prop :=
  map_Forall (λ n e, validate_entry_path n = Ret n ∧ entry_wf cs e) es.

Lemma read_index_spec n f cs : ∀ pos es,
  Forall is_u8 f → 0 ≤ pos → lenZ cs < 2 ^ 32 → Forall chunk_wf cs → entries_wf cs es →
  safe (read_index n f cs pos es) ∧ ∀ es', read_index n f cs pos es = Ret es' → entries_wf cs es'.
Proof.
  induction n as [|n IH]; intros pos es Hf Hp Hl Hcs Hes; cbn [read_index].
  { split; [done|]. by intros es' [= <-]. }
  pose proof (read_entry_record_safe f pos) as Hsr.
  destruct (read_entry_record f pos) as [[e pos']| | |] eqn:Er; try done. rewrite bind_ret.
  apply read_entry_record_inv in Er as (H1 & H2 & H3); [|done..].
  pose proof (entry_path_safe (entry_path e)) as Hsp.
  destruct (validate_entry_path (entry_path e)) as [m| | |] eqn:Ep; try done. rewrite bind_ret.
  case_bool_decide; [done|]. pose proof (check_entry_safe cs e H1 H2 Hl) as Hse.
  destruct (check_entry cs e) as [[]| | |] eqn:Ee; try done. rewrite bind_ret.
  apply IH; [done|lia|done..|]. apply map_Forall_insert_2; [|done].
  split; [by eapply validate_idempotent|]. by apply check_entry_wf.
Qed.

Lemma any_conflict_spec ps :
  any_conflict ps = false → ∀ a b, a ∈ ps → b ∈ ps → a ≠ b → prefix_conflict a b = false.
Proof.
  induction ps as [|p ps IH]; cbn [any_conflict]; [by intros _ a b Ha%elem_of_nil|].
  intros [Hp Hps]%orb_false_iff a b. rewrite !elem_of_cons.
  assert (∀ x, x ∈ ps → prefix_conflict p x = false) as Hx.
  { intros x Hx. destruct (prefix_conflict p x) eqn:E; [|done]. exfalso. apply not_true_iff_false in Hp. apply Hp.
    apply existsb_exists. exists x. by rewrite <- list_elem_of_In. }
  intros [->|Ha] [->|Hb] Hne; try done; auto. unfold prefix_conflict in *. rewrite orb_comm. auto.
Qed.

Lemma check_bounds_inv h file_len :
  check_bounds h file_len = Ret tt →
  0 ≤ index_offset h → 0 ≤ chunk_table_offset h → 0 ≤ header_chunks h →
  chunk_table_offset h + 16 * header_chunks h ≤ file_len ∧
  chunk_table_offset h + 16 * header_chunks h ≤ index_offset h ∧ 22 * header_entries h ≤ Z.max (file_len - index_offset h) 0.
Proof.
  unfold check_bounds, u64_checked_mul, u64_checked_add. intros H Hi Ht Hc.
  destruct (header_chunks h * 16 <=? u64_max); [|done]. cbn [ok_or] in H. rewrite bind_ret in H.
  destruct (chunk_table_offset h + header_chunks h * 16 <=? u64_max); [|done]. cbn [ok_or] in H.
  rewrite bind_ret in H. destruct (Z.ltb_spec file_len (chunk_table_offset h + header_chunks h * 16)); [done|].
  destruct (Z.ltb_spec (index_offset h) (chunk_table_offset h + header_chunks h * 16)); [done|]. cbv zeta in H.
  destruct (Z.ltb_spec (Z.max (file_len - index_offset h) 0 / MIN_INDEX_RECORD_BYTES) (header_entries h)); [done|].
  unfold MIN_INDEX_RECORD_BYTES in *. split; [lia|]. split; [lia|].
  pose proof (Z.mul_div_le (Z.max (file_len - index_offset h) 0) 22). lia.
Qed.

Lemma check_bounds_safe h n : safe (check_bounds h n).
Proof.
  unfold check_bounds. apply safe_bind; [apply safe_ok_or|]. intros s _. apply safe_bind; [apply safe_ok_or|].
  intros t _. cbv zeta. by repeat case_match.
Qed.

Lemma read_index_size n f cs : ∀ pos es es', read_index n f cs pos es = Ret es' → (size es' ≤ size es + n)%nat.
Proof.
  induction n as [|n IH]; intros pos es es'; cbn [read_index]; [intros [= <-]; lia|].
  destruct (read_entry_record f pos) as [[e pos']| | |]; [|done..]. rewrite bind_ret.
  destruct (validate_entry_path _); [|done..]. rewrite bind_ret. case_bool_decide; [done|].
  destruct (check_entry cs e); [|done..]. rewrite bind_ret. intros H'%IH. rewrite map_size_insert in H'.
  case_match; unfold id in H'; lia.
Qed.

Lemma elem_of_keys (es : gmap text EntryMeta) a : a ∈ (fst <$> map_to_list es) ↔ a ∈ dom es.
Proof. rewrite (dom_alt es), elem_of_list_to_set. done. Qed.

Lemma open_inv `{C : Crc32} f name version r :
  Forall is_u8 f → open_package f name version = Ret r →
  reader_wf r ∧ inflate_cache r = [] ∧ 16 * lenZ (r_chunks r) + 22 * Z.of_nat (size (r_entries r)) ≤ lenZ f.
Proof.
  unfold open_package. intros Hf H. destruct (read_header f) as [h| | |] eqn:Eh; [|done..]. rewrite bind_ret in H.
  destruct (read_header_inv _ _ Hf Eh) as (He & Hc & Ht & Hi). unfold is_u32, is_u64 in *.
  destruct (check_bounds h (lenZ f)) as [[]| | |] eqn:Eb; [|done..]. rewrite bind_ret in H.
  apply check_bounds_inv in Eb as (Hb1 & Hb2 & Hb3); [|lia..].
  destruct (read_chunk_table _ _ _ _) as [cs| | |] eqn:Ec; [|done..]. rewrite bind_ret in H.
  apply read_chunk_table_wf in Ec as [Hl Hcs]; [|done|lia].
  destruct (read_index _ _ _ _ _) as [es| | |] eqn:Ei; [|done..]. rewrite bind_ret in H.
  destruct (any_conflict _) eqn:Ea; [done|]. injection H as <-. cbn.
  assert (lenZ cs < 2 ^ 32) as Hlt by lia.
  pose proof (read_index_spec (Z.to_nat (header_entries h)) f cs (index_offset h) ∅ Hf ltac:(lia) Hlt Hcs) as Hr.
  specialize (Hr ltac:(apply map_Forall_empty)) as [_ Hes]. specialize (Hes _ Ei).
  split; [split; try done|].
  - cbn. intros a b Ha Hb. apply (any_conflict_spec _ Ea); by apply elem_of_keys.
  - split; [done|].
    assert (size es ≤ Z.to_nat (header_entries h))%nat; [|lia].
    apply read_index_size in Ei. by rewrite map_size_empty in Ei.
Qed.

(** ** Ranges *)

Lemma sub_sub {A} (l : list A) lo hi a b :
  0 ≤ lo → 0 ≤ a → lo + b ≤ hi → sub (sub l lo hi) a b = sub l (lo + a) (lo + b).
Proof.
  intros Hlo Ha Hb. unfold sub. rewrite skipn_firstn_comm, take_take, drop_drop.
  f_equal; [lia|]. f_equal. lia.
Qed.

Lemma sub_empty {A} (l : list A) lo hi : hi ≤ lo → sub l lo hi = [].
Proof. intros. unfold sub. by replace (Z.to_nat (hi - lo)) with 0%nat by lia. Qed.

(** The part of a list in two adjacent windows. *)
Lemma sub_windows {A} (l : list A) pos end_ a b c :
  0 ≤ pos → 0 ≤ a → a ≤ b → b ≤ c →
  sub l (Z.max pos a) (Z.min end_ b) ++ sub l (Z.max pos b) (Z.min end_ c) =
  sub l (Z.max pos a) (Z.min end_ c).
Proof.
  intros. destruct (Z.le_gt_cases end_ b).
  { rewrite (sub_empty l (Z.max pos b)) by lia. rewrite app_nil_r. f_equal. lia. }
  destruct (Z.le_gt_cases pos b).
  - rewrite (Z.min_r end_ b), (Z.max_r pos b) by lia.
    destruct (Z.le_gt_cases (Z.max pos a) b); [|lia]. symmetry. apply sub_app_split; lia.
  - rewrite sub_empty by lia. cbn [app]. f_equal. lia.
Qed.

Lemma strided_cons s x xs : xs ≠ [] → strided s (x :: xs) ↔ x = s ∧ strided s xs.
Proof. by destruct xs. Qed.

(** The [i]th part of a strided content. *)
Lemma strided_part s parts : ∀ i p,
  0 < s → strided s ((λ p : list Z, lenZ p) <$> parts) → parts !! i = Some p →
  p = sub (concat parts) (Z.of_nat i * s) (Z.min ((Z.of_nat i + 1) * s) (lenZ (concat parts))) ∧
  Z.of_nat i * s + lenZ p = Z.min ((Z.of_nat i + 1) * s) (lenZ (concat parts)) ∧ lenZ p ≤ s.
Proof.
  induction parts as [|q parts IH]; intros i p Hs Hst Hi; [done|]. cbn [fmap list_fmap] in Hst. cbn [concat].
  destruct (decide (parts = [])) as [->|Hne].
  - destruct i; [|done]. injection Hi as ->. cbn in Hst. cbn [concat]. rewrite app_nil_r.
    replace (Z.of_nat 0 * s) with 0 by lia. rewrite Z.min_r by lia. split; [by rewrite sub_all|lia].
  - rewrite strided_cons in Hst by (by destruct parts). destruct Hst as [Hq Hst]. cbv beta in Hq.
    rewrite length_app, Nat2Z.inj_add. destruct i as [|i]; cbn [lookup list_lookup] in Hi.
    + injection Hi as ->. replace (Z.of_nat 0 * s) with 0 by lia. replace ((Z.of_nat 0 + 1) * s) with s by lia.
      rewrite Z.min_l by lia. rewrite sub_app_l by lia. split; [by rewrite sub_all|lia].
    + destruct (IH _ _ Hs Hst Hi) as (Hp & Hl & Hle). split; [|lia].
      rewrite sub_app_r by lia. rewrite Hp at 1. f_equal; lia.
Qed.

Section Reads.
Context `{Zstd}.

(** The chunks of an entry, in this file, inflate to these parts of its content. *)
Definition inflates (cs : list ChunkEntry) (f : list Z) (e : EntryMeta) (parts : list (list Z)) : Prop :=
  Forall2 (λ c p, lenZ p = raw_size c ∧ inflate f c (raw_size c) = Ret p) (span cs e) parts.

Lemma span_lookup cs e i :
  entry_wf cs e → 0 ≤ i < chunk_count e → span cs e !! Z.to_nat i = cs !! Z.to_nat (first_chunk e + i).
Proof.
  intros (H1 & H2 & H3 & _) Hi. unfold span, sub. rewrite lookup_take_lt by lia. rewrite lookup_drop. f_equal. lia.
Qed.

Lemma span_length cs e : entry_wf cs e → lenZ (span cs e) = chunk_count e.
Proof. intros (H1 & H2 & H3 & _). unfold span. rewrite length_sub; lia. Qed.

Lemma inflate_safe f c m : safe (inflate f c m).
Proof. apply safe_bind; [apply read_exact_safe|]. intros. apply safe_ok_or. Qed.

Lemma inflate_fits f c m d : inflate f c m = Ret d → lenZ d ≤ m.
Proof.
  unfold inflate. destruct (read_exact f _ _); [|done..]. rewrite bind_ret.
  destruct (decompress _ m) eqn:E; [|done]. intros [= <-]. by eapply decompress_fits.
Qed.

(** One turn of the loop, whatever the file holds: the part of the window that is
    asked for. *)
Lemma read_step i s position end_ (d : list Z) :
  0 ≤ i → 0 ≤ s → 0 ≤ position → i * s < end_ → i * s + lenZ d ≤ u64_max →
  (chunk_offset ← u64_mul i s;
   let copy_start := if chunk_offset <? position then position - chunk_offset else 0 in
   after ← u64_add chunk_offset (lenZ d);
   copy_end ← if end_ <? after then u64_sub end_ chunk_offset else mret (lenZ d);
   if copy_start <? copy_end then slice d copy_start copy_end else mret []) =
  Ret (E:=PackageError) (sub d (Z.max position (i * s) - i * s) (Z.min end_ (i * s + lenZ d) - i * s)).
Proof.
  intros Hi Hs Hp He Hm. rewrite u64_mul_ret by lia. rewrite bind_ret. cbv zeta. rewrite u64_add_ret by lia.
  rewrite bind_ret.
  assert ((if end_ <? i * s + lenZ d then u64_sub end_ (i * s) else mret (lenZ d)) =
          Ret (E:=PackageError) (Z.min end_ (i * s + lenZ d) - i * s)) as ->.
  { destruct (Z.ltb_spec end_ (i * s + lenZ d)).
    - rewrite u64_sub_ret by lia. f_equal. lia.
    - unfold mret, outcome_ret. f_equal. lia. }
  rewrite bind_ret.
  replace (if i * s <? position then position - i * s else 0) with (Z.max position (i * s) - i * s)
    by (destruct (Z.ltb_spec (i * s) position); lia).
  match goal with |- context [?a <? ?b] => destruct (Z.ltb_spec a b) end.
  - rewrite slice_ret by lia. done.
  - rewrite sub_empty by lia. done.
Qed.

Lemma bind_bind {E A B D} (m : outcome E A) (g : A → outcome E B) (h : B → outcome E D) :
  mbind h (mbind g m) = mbind (λ a, mbind h (g a)) m.
Proof. by destruct m. Qed.

(** The loop's body, in the order of the lemma above. *)
Lemma read_loop_step n i r f e s position end_ acc :
  read_loop (S n) i r f e s position end_ acc =
  (ci ← u32_add (first_chunk e) i;
   chunk ← idx (r_chunks r) ci;
   d ← inflate f chunk (Z.min (raw_size chunk) MAX_CHUNK_RAW_SIZE);
   piece ← (chunk_offset ← u64_mul i s;
            let copy_start := if chunk_offset <? position then position - chunk_offset else 0 in
            after ← u64_add chunk_offset (lenZ d);
            copy_end ← if end_ <? after then u64_sub end_ chunk_offset else mret (lenZ d);
            if copy_start <? copy_end then slice d copy_start copy_end else mret []);
   read_loop n (i + 1) r f e s position end_ (acc ++ piece)).
Proof.
  cbn [read_loop]. destruct (u32_add _ _); [|done..]. rewrite !bind_ret. destruct (idx _ _); [|done..].
  rewrite !bind_ret. destruct (inflate _ _ _); [|done..]. rewrite !bind_ret. rewrite bind_bind.
  destruct (u64_mul _ _); [|done..]. rewrite !bind_ret. cbv zeta. rewrite bind_bind.
  destruct (u64_add _ _); [|done..]. rewrite !bind_ret. by rewrite bind_bind.
Qed.

Lemma small_offset i s : 0 ≤ i < 2 ^ 32 → 0 ≤ s ≤ MAX_CHUNK_RAW_SIZE → i * s ≤ 2 ^ 50.
Proof. unfold MAX_CHUNK_RAW_SIZE, DEFAULT_CHUNK_SIZE. intros. nia. Qed.

(** The loop never panics, and what it adds is no more than what was asked for. *)
Lemma read_loop_safe r f e c position end_ : ∀ n i acc,
  reader_wf r → entry_wf (r_chunks r) e → r_chunks r !! Z.to_nat (first_chunk e) = Some c →
  0 ≤ position → 0 ≤ i → (n = 0%nat ∨ (i + Z.of_nat n - 1) * raw_size c < end_) →
  i + Z.of_nat n ≤ chunk_count e → safe (read_loop n i r f e (raw_size c) position end_ acc).
Proof.
  induction n as [|n IH]; intros i acc Hr He Hc Hp Hi Hn Hcount; [done|]. rewrite read_loop_step.
  pose proof Hr as [Hlen Hcs _ _]. pose proof He as (H1 & H2 & H3 & _).
  pose proof (Forall_lookup_1 _ _ _ _ Hcs Hc) as (_ & _ & Hcr).
  rewrite u32_add_ret by (unfold u32_max; lia). rewrite bind_ret.
  destruct (idx_ret (E:=PackageError) (r_chunks r) (first_chunk e + i)) as (ch & -> & Hch); [lia..|]. rewrite bind_ret.
  pose proof (Forall_lookup_1 _ _ _ _ Hcs Hch) as (_ & _ & Hchr).
  pose proof (inflate_safe f ch (Z.min (raw_size ch) MAX_CHUNK_RAW_SIZE)) as Hs.
  destruct (inflate _ _ _) as [d| | |] eqn:Ed; try done. rewrite bind_ret.
  apply inflate_fits in Ed. pose proof (small_offset i (raw_size c) ltac:(lia) ltac:(lia)).
  destruct Hn as [Hn|Hn]; [lia|].
  rewrite read_step; [|lia..|nia|unfold u64_max, MAX_CHUNK_RAW_SIZE, DEFAULT_CHUNK_SIZE in *; lia]. rewrite bind_ret.
  apply IH; try done; [lia| |lia]. destruct n; [by left|right]. replace (i + 1 + Z.of_nat (S n) - 1) with (i + Z.of_nat (S (S n)) - 1) by lia. done.
Qed.

(** In a file whose chunks inflate, it gives the part of the content in its
    windows. *)
Lemma read_loop_spec r f e c parts position end_ : ∀ n i acc,
  reader_wf r → entry_wf (r_chunks r) e → r_chunks r !! Z.to_nat (first_chunk e) = Some c → 0 < raw_size c →
  strided (raw_size c) (raw_size <$> span (r_chunks r) e) → inflates (r_chunks r) f e parts →
  0 ≤ position → 0 ≤ i → end_ ≤ lenZ (concat parts) → (n = 0%nat ∨ (i + Z.of_nat n - 1) * raw_size c < end_) →
  i + Z.of_nat n ≤ chunk_count e →
  read_loop n i r f e (raw_size c) position end_ acc =
  Ret (acc ++ sub (concat parts) (Z.max position (i * raw_size c)) (Z.min end_ ((i + Z.of_nat n) * raw_size c))).
Proof.
  induction n as [|n IH]; intros i acc Hr He Hc Hc0 Hst Hinf Hp Hi Hend Hn Hcount.
  { cbn [read_loop]. rewrite sub_empty by lia. by rewrite app_nil_r. }
  rewrite read_loop_step. destruct Hn as [Hn|Hn]; [lia|].
  pose proof Hr as [Hlen Hcs _ _]. pose proof He as (H1 & H2 & H3 & _).
  pose proof (Forall_lookup_1 _ _ _ _ Hcs Hc) as (_ & _ & Hcr).
  rewrite u32_add_ret by (unfold u32_max; lia). rewrite bind_ret.
  destruct (idx_ret (E:=PackageError) (r_chunks r) (first_chunk e + i)) as (ch & -> & Hch); [lia..|]. rewrite bind_ret.
  pose proof (Forall_lookup_1 _ _ _ _ Hcs Hch) as (_ & _ & Hchr). rewrite Z.min_l by lia.
  rewrite <- (span_lookup _ _ _ He) in Hch by lia.
  destruct (Forall2_lookup_l _ _ _ _ _ Hinf Hch) as (d & Hd & Hdl & ->). rewrite bind_ret.
  assert (strided (raw_size c) ((λ p : list Z, lenZ p) <$> parts)) as Hstp.
  { replace ((λ p : list Z, lenZ p) <$> parts) with (raw_size <$> span (r_chunks r) e); [done|].
    clear -Hinf. induction Hinf as [|c' p' l k [Hl _] _ IH]; cbn [fmap list_fmap]; [done|]. by rewrite IH, Hl. }
  destruct (strided_part _ _ _ _ Hc0 Hstp Hd) as (Hdp & Hdl' & Hds). rewrite Z2Nat.id in Hdp, Hdl' by lia.
  pose proof (small_offset i (raw_size c) ltac:(lia) ltac:(lia)).
  rewrite read_step; [|lia..|nia|unfold u64_max, MAX_CHUNK_RAW_SIZE, DEFAULT_CHUNK_SIZE in *; lia]. rewrite bind_ret.
  rewrite IH; try done; [|lia| |lia].
  2:{ destruct n; [by left|right]. replace (i + 1 + Z.of_nat (S n) - 1) with (i + Z.of_nat (S (S n)) - 1) by lia. done. }
  rewrite <- app_assoc. do 2 f_equal. rewrite Hdp at 1. rewrite sub_sub by lia. rewrite Hdl'.
  replace (i * raw_size c + (Z.max position (i * raw_size c) - i * raw_size c)) with (Z.max position (i * raw_size c)) by lia.
  replace (i * raw_size c + (Z.min end_ (Z.min ((i + 1) * raw_size c) (lenZ (concat parts))) - i * raw_size c))
    with (Z.min end_ ((i + 1) * raw_size c)) by lia.
  rewrite sub_windows by nia. do 2 f_equal. lia.
Qed.
End Reads.

(** ** Range reads *)

Lemma strided_sum s sizes : 0 < s → strided s sizes → 0 ≤ sum_Z sizes ≤ lenZ sizes * s.
Proof.
  intros Hs. induction sizes as [|x sizes IH]; [cbn; lia|].
  destruct (decide (sizes = [])) as [->|Hne]; [cbn; lia|].
  rewrite strided_cons by done. intros [-> Hst]. specialize (IH Hst).
  unfold sum_Z in *. cbn [foldr length]. lia.
Qed.

(** The chunks a window of an entry needs: no cast loses anything. *)
Lemma window_chunks r e c position end_ :
  reader_wf r → entry_wf (r_chunks r) e → r_chunks r !! Z.to_nat (first_chunk e) = Some c → 0 < raw_size c →
  strided (raw_size c) (raw_size <$> span (r_chunks r) e) →
  0 ≤ position → position < end_ → end_ ≤ entry_raw_size e →
  as_u32 (position / raw_size c) = position / raw_size c ∧
  as_u32 ((end_ - 1) / raw_size c) = (end_ - 1) / raw_size c ∧
  0 ≤ position / raw_size c ≤ (end_ - 1) / raw_size c ∧ (end_ - 1) / raw_size c ≤ chunk_count e - 1 ∧
  position / raw_size c * raw_size c ≤ position ∧ (end_ - 1) / raw_size c * raw_size c < end_ ≤
  ((end_ - 1) / raw_size c + 1) * raw_size c.
Proof.
  intros [Hlen _ _ _] He Hc Hs Hst Hp Hpe Hend. pose proof He as (H1 & H2 & H3 & Hsum & _).
  pose proof (strided_sum _ _ Hs Hst) as Hle. rewrite length_fmap, (span_length _ _ He), <- Hsum in Hle.
  assert (0 ≤ position / raw_size c) by (apply Z.div_pos; lia).
  assert (position / raw_size c ≤ (end_ - 1) / raw_size c) by (apply Z.div_le_mono; lia).
  assert ((end_ - 1) / raw_size c < chunk_count e) by (apply Z.div_lt_upper_bound; lia).
  pose proof (Z.mul_div_le position (raw_size c) ltac:(lia)).
  pose proof (Z.mul_div_le (end_ - 1) (raw_size c) ltac:(lia)).
  pose proof (Z.mul_succ_div_gt (end_ - 1) (raw_size c) ltac:(lia)).
  rewrite !as_u32_small by lia. repeat split; lia.
Qed.

Section Ranges.
Context `{Zstd}.

Lemma read_uncached_safe r file e position end_ :
  reader_wf r → entry_wf (r_chunks r) e → chunk_count e ≠ 0 →
  0 ≤ position → position < end_ → end_ ≤ entry_raw_size e → safe (read_uncached r file e position end_).
Proof.
  intros Hr He Hc0 Hp Hpe Hend. pose proof He as (H1 & H2 & H3 & _ & Hch).
  destruct (Hch Hc0) as (c & Hc & Hs & Hst). unfold read_uncached.
  destruct (idx_ret (E:=PackageError) (r_chunks r) (first_chunk e)) as (c' & -> & Hc'); [lia..|].
  assert (c' = c) as -> by congruence. rewrite bind_ret. cbv zeta. rewrite (proj2 (Z.eqb_neq _ 0)) by lia.
  destruct (window_chunks r e c position end_) as (E1 & E2 & ?); try done.
  rewrite (u64_sub_ret end_ 1) by lia. rewrite bind_ret. rewrite (u64_sub_ret end_ position) by lia. rewrite bind_ret.
  apply safe_bind; [apply safe_ok_or|]. intros f _. rewrite (u32_sub_ret (chunk_count e) 1) by lia. rewrite bind_ret, E1, E2.
  apply read_loop_safe; try done; [lia| |lia]. right.
  rewrite Z2Nat.id by lia. rewrite Z.min_l by lia.
  replace (position / raw_size c + ((end_ - 1) / raw_size c - position / raw_size c + 1) - 1)
    with ((end_ - 1) / raw_size c) by lia. lia.
Qed.

Lemma sizes_sum cs f e parts : entry_wf cs e → inflates cs f e parts → lenZ (concat parts) = entry_raw_size e.
Proof.
  intros (_ & _ & _ & -> & _). unfold inflates. induction 1 as [|c p l k [Hl _] _ IH]; [done|].
  cbn [concat fmap list_fmap sum_Z foldr]. rewrite length_app, Nat2Z.inj_add, IH, Hl. done.
Qed.

Lemma read_uncached_spec r f e parts position end_ :
  reader_wf r → entry_wf (r_chunks r) e → chunk_count e ≠ 0 → inflates (r_chunks r) f e parts →
  0 ≤ position → position < end_ → end_ ≤ entry_raw_size e →
  read_uncached r (Some f) e position end_ = Ret (sub (concat parts) position end_).
Proof.
  intros Hr He Hc0 Hinf Hp Hpe Hend. pose proof He as (H1 & H2 & H3 & _ & Hch).
  destruct (Hch Hc0) as (c & Hc & Hs & Hst). unfold read_uncached.
  destruct (idx_ret (E:=PackageError) (r_chunks r) (first_chunk e)) as (c' & -> & Hc'); [lia..|].
  assert (c' = c) as -> by congruence. rewrite bind_ret. cbv zeta. rewrite (proj2 (Z.eqb_neq _ 0)) by lia.
  destruct (window_chunks r e c position end_) as (E1 & E2 & ? & ? & ? & ?); try done.
  rewrite (u64_sub_ret end_ 1) by lia. rewrite bind_ret. rewrite (u64_sub_ret end_ position) by lia. rewrite bind_ret.
  change (ok_or (Some f) (Io NotFound)) with (Ret (E:=PackageError) f).
  rewrite bind_ret. rewrite (u32_sub_ret (chunk_count e) 1) by lia. rewrite bind_ret, E1, E2.
  rewrite (Z.min_l ((end_ - 1) / raw_size c)) by lia.
  rewrite (read_loop_spec r f e c parts); try done; [|lia|by rewrite (sizes_sum _ _ _ _ He Hinf)|right|lia];
    rewrite Z2Nat.id by lia.
  - cbn [app]. rewrite Z.max_l by lia.
    replace (position / raw_size c + ((end_ - 1) / raw_size c - position / raw_size c + 1))
      with ((end_ - 1) / raw_size c + 1) by lia. by rewrite Z.min_l by lia.
  - replace (position / raw_size c + ((end_ - 1) / raw_size c - position / raw_size c + 1) - 1)
      with ((end_ - 1) / raw_size c) by lia. lia.
Qed.

(** ** The cache *)

Lemma cache_get_inv path c full c' :
  cache_get path c = Some (full, c') → (path, full) ∈ c ∧ ∀ kv, kv ∈ c' → kv ∈ c.
Proof.
  unfold cache_get. destruct (List.find _ c) as [[k v]|] eqn:E; [|done]. intros [= <- <-].
  apply find_some in E as [Hin Hk]. cbn in Hk. apply bool_decide_eq_true in Hk as ->.
  apply list_elem_of_In in Hin. split; [done|]. intros kv [->|Hkv]%elem_of_cons; [done|].
  apply list_elem_of_In, filter_In in Hkv as [Hkv _]. by apply list_elem_of_In.
Qed.

Lemma cache_put_inv path v c kv : kv ∈ cache_put path v c → kv = (path, v) ∨ kv ∈ c.
Proof.
  unfold cache_put. intros Hin%subseteq_take. apply elem_of_cons in Hin as [->|Hin]; [by left|right].
  apply list_elem_of_In, filter_In in Hin as [Hin _]. by apply list_elem_of_In.
Qed.

Lemma cache_put_get path v c : cache_get path (cache_put path v c) =
  Some (v, (path, v) :: List.filter (λ kv, negb (bool_decide (fst kv = path)))
                          (take (INFLATE_CACHE_CAPACITY - 1) (List.filter (λ kv, negb (bool_decide (fst kv = path))) c))).
Proof.
  unfold cache_get, cache_put, INFLATE_CACHE_CAPACITY. cbn [take List.find fst]. rewrite bool_decide_true by done.
  cbn [List.filter fst snd]. by rewrite bool_decide_true.
Qed.

(** What is cached is the content of its entry in this file. *)
Definition cache_ok (r : PackageReader) (f : list Z) : Prop :=
  ∀ k v, (k, v) ∈ inflate_cache r →
  ∃ e parts, r_entries r !! k = Some e ∧ inflates (r_chunks r) f e parts ∧ concat parts = v.

(** The same package, whatever is cached of it. *)
Definition same_package (r r' : PackageReader) : Prop :=
  r_chunks r' = r_chunks r ∧ r_entries r' = r_entries r ∧ identity r' = identity r.

Lemma inflates_unique cs f e parts parts' : inflates cs f e parts → inflates cs f e parts' → parts = parts'.
Proof.
  unfold inflates. generalize (span cs e). intros l H1. revert parts'.
  induction H1 as [|c p l k [_ Hp] _ IH]; intros parts' H2; inversion H2 as [|? p' ? k' [_ Hp'] H2']; subst; [done|].
  f_equal; [congruence|auto].
Qed.

(** The end of a range. *)
Definition range_end (e : EntryMeta) (position : Z) (len : option Z) : Z :=
  match len with
  | Some len => Z.min (u64_saturating_add position len) (entry_raw_size e)
  | None => entry_raw_size e
  end.

Lemma range_end_bounds e position len :
  0 ≤ position → position < entry_raw_size e → entry_raw_size e ≤ u64_max →
  match len with Some n => 0 < n | None => True end →
  position < range_end e position len ≤ entry_raw_size e.
Proof.
  unfold range_end, u64_saturating_add. intros. destruct len; lia.
Qed.

Lemma entry_size_bound r e : reader_wf r → entry_wf (r_chunks r) e → 0 ≤ entry_raw_size e ≤ u64_max.
Proof.
  intros [Hlen Hcs _ _] (H1 & H2 & H3 & -> & _).
  assert (Forall chunk_wf (span (r_chunks r) e)) as Hsp by (unfold span, sub; by apply Forall_take, Forall_drop).
  assert (lenZ (span (r_chunks r) e) < 2 ^ 32) as Hl by (unfold span; rewrite length_sub; lia).
  assert (0 ≤ sum_Z (raw_size <$> span (r_chunks r) e) ≤ lenZ (span (r_chunks r) e) * MAX_CHUNK_RAW_SIZE).
  { clear -Hsp. induction Hsp as [|c l (_ & _ & Hc) _ IH]; [done|]. unfold sum_Z in *.
    cbn [fmap list_fmap foldr length]. lia. }
  unfold MAX_CHUNK_RAW_SIZE, DEFAULT_CHUNK_SIZE, u64_max in *. lia.
Qed.

Lemma range_safe r file path position len :
  reader_wf r → cache_full r → 0 ≤ position → match len with Some n => 0 ≤ n | None => True end →
  safe (read_range r file path position len).
Proof.
  intros Hr Hcache Hp Hlen. unfold read_range. destruct (r_entries r !! path) as [e|] eqn:Ee; [|done].
  cbn [ok_or]. rewrite bind_ret. pose proof Hr as [_ _ Hes _]. destruct (Hes _ _ Ee) as [_ He].
  destruct (Z.leb_spec (entry_raw_size e) position) as [|Hlt]; [done|]. cbn [orb].
  case_bool_decide as Hl0; [done|]. cbv zeta. destruct (Z.eqb_spec (chunk_count e) 0); [done|].
  assert (position < range_end e position len ≤ entry_raw_size e) as Hre.
  { pose proof (entry_size_bound _ _ Hr He). apply range_end_bounds; try done; [lia|]. destruct len as [n'|]; [|done].
    assert (n' ≠ 0) by congruence. lia. }
  change (match len with Some len => _ | None => _ end) with (range_end e position len).
  destruct (if entry_raw_size e <=? _ then cache_get path (inflate_cache r) else None) as [[full c]|] eqn:Ec.
  - case_match; [|done]. apply cache_get_inv in Ec as [Hin _].
    unfold cache_full in Hcache. rewrite Forall_forall in Hcache. destruct (Hcache _ Hin) as (e' & He' & Hfull).
    cbn in He', Hfull. assert (e' = e) as -> by congruence. rewrite slice_ret by lia. done.
  - apply safe_bind; [apply read_uncached_safe; (done || lia)|]. intros a _. by destruct (_ && _ && _).
Qed.

Lemma range_slices r f path e parts position len :
  reader_wf r → cache_ok r f → r_entries r !! path = Some e → inflates (r_chunks r) f e parts →
  0 ≤ position → match len with Some n => 0 ≤ n | None => True end →
  ∃ r', read_range r (Some f) path position len = Ret (sub (concat parts) position (range_end e position len), r') ∧
        same_package r r' ∧ cache_ok r' f.
Proof.
  intros Hr Hcache Ee Hinf Hp Hlen. pose proof Hr as [_ _ Hes _]. destruct (Hes _ _ Ee) as [_ He].
  pose proof (sizes_sum _ _ _ _ He Hinf) as Hsize. pose proof (entry_size_bound _ _ Hr He) as Hbound.
  unfold read_range. rewrite Ee. cbn [ok_or]. rewrite bind_ret.
  destruct (Z.leb_spec (entry_raw_size e) position) as [|Hlt]; cbn [orb].
  { exists r. split; [|done]. rewrite sub_empty; [done|]. unfold range_end. destruct len; lia. }
  case_bool_decide as Hl0.
  { exists r. split; [|done]. subst len. unfold range_end, u64_saturating_add. rewrite sub_empty; [done|lia]. }
  assert (position < range_end e position len ≤ entry_raw_size e) as Hre.
  { apply range_end_bounds; try done; [lia|]. destruct len as [n'|]; [|done]. assert (n' ≠ 0) by congruence. lia. }
  cbv zeta. destruct (Z.eqb_spec (chunk_count e) 0) as [Hz|Hz].
  { exfalso. destruct He as (_ & _ & _ & Hsum & _). unfold span in Hsum. rewrite Hz, Z.add_0_r, sub_empty in Hsum by lia.
    cbn in Hsum. lia. }
  change (match len with Some len => _ | None => _ end) with (range_end e position len).
  destruct (if entry_raw_size e <=? _ then cache_get path (inflate_cache r) else None) as [[full c]|] eqn:Ec.
  - case_match; [|done]. apply cache_get_inv in Ec as [Hin Hsub].
    destruct (Hcache _ _ Hin) as (e' & parts' & He' & Hinf' & <-). assert (e' = e) as -> by congruence.
    rewrite (inflates_unique _ _ _ _ _ Hinf' Hinf). rewrite slice_ret by lia. rewrite bind_ret. eexists. split; [done|].
    split; [done|]. intros k v Hkv. cbn in Hkv. exact (Hcache _ _ (Hsub _ Hkv)).
  - rewrite (read_uncached_spec _ _ _ _ _ _ Hr He Hz Hinf) by lia. rewrite bind_ret.
    destruct (_ && _ && _) eqn:Eput; eexists; (split; [done|]); (split; [done|]); [|done].
    intros k v Hkv. cbn in Hkv. apply cache_put_inv in Hkv as [[= -> ->]|Hkv]; [|exact (Hcache _ _ Hkv)].
    bool_to_prop. exists e, parts. split; [done|]. split; [done|]. subst position.
    rewrite H1. symmetry. apply sub_all. lia.
Qed.
End Ranges.

(** ** The tree of entries *)

Definition child (dir name : text) : text := if bool_decide (dir = []) then name else dir ++ str "/" ++ name.

Lemma key_normal r k : reader_wf r → k ∈ entry_paths r → ∃ ps, normal_path ps ∧ k = join_on SLASH ps.
Proof.
  intros [_ _ Hes _] Hk. apply elem_of_keys, elem_of_dom in Hk as [e He]. destruct (Hes _ _ He) as [Hv _].
  apply entry_path_inv in Hv as (ps & Hps & E & _). by exists ps.
Qed.

Lemma is_file_key r p : is_file r p = true ↔ p ∈ entry_paths r.
Proof. unfold is_file, contains. by rewrite bool_decide_eq_true, <- elem_of_dom, <- elem_of_keys. Qed.

Lemma is_dir_key r p :
  p ≠ [] → is_dir r p = true ↔ ∃ k, k ∈ entry_paths r ∧ starts_with (p ++ str "/") k = true.
Proof.
  intros Hp. unfold is_dir. rewrite bool_decide_false by done. rewrite existsb_exists.
  by setoid_rewrite list_elem_of_In.
Qed.

(** A directory: the root, or a normal path. *)
Definition dir_path (dir : text) (ds : list text) : Prop :=
  (dir = [] ∧ ds = []) ∨ (dir = join_on SLASH ds ∧ normal_path ds).

Lemma child_join dir ds n : dir_path dir ds → part_ok n → child dir n = join_on SLASH (ds ++ [n]) ∧ normal_path (ds ++ [n]).
Proof.
  intros Hd Hn. unfold child. destruct Hd as [[-> ->]|[-> Hds]].
  - split; [done|]. split; [done|by apply Forall_singleton].
  - rewrite bool_decide_false by by apply join_nonempty. destruct Hds as [Hne Hok]. split.
    + by rewrite join_on_app, str_slash.
    + split; [by destruct ds|]. apply Forall_app. by split; [|apply Forall_singleton].
Qed.

(** What a path adds to the listing of a directory. *)
Definition listed (dir path : text) : option text :=
  let prefix := if bool_decide (dir = []) then [] else dir ++ str "/" in
  tail ← (if bool_decide (prefix = []) then Some path else strip_prefix prefix path);
  name ← head (split_on SLASH tail);
  if bool_decide (name = []) then None else Some name.

Lemma listed_spec dir ds ps n :
  dir_path dir ds → normal_path ps →
  listed dir (join_on SLASH ps) = Some n ↔ ∃ rest, ps = ds ++ n :: rest.
Proof.
  intros Hd Hps. assert (∀ rest, ps = ds ++ rest → rest ≠ [] →
    (name ← head (split_on SLASH (join_on SLASH rest)); if bool_decide (name = []) then None else Some name) = Some n
    ↔ ∃ rest', rest = n :: rest') as Hhead.
  { intros rest -> Hne. destruct Hps as [_ Hok]. apply Forall_app in Hok as [_ Hok].
    rewrite split_on_join by auto using part_ok_no_slash. destruct rest as [|m rest]; [done|].
    apply Forall_cons in Hok as [(Hm & _) _]. cbn. rewrite bool_decide_false by done. naive_solver. }
  unfold listed. destruct Hd as [[-> ->]|[-> Hds]]; cbv zeta.
  - rewrite !bool_decide_true by done. cbn [mbind option_bind].
    rewrite (Hhead ps eq_refl); [done|]. by destruct Hps.
  - rewrite (bool_decide_false (join_on SLASH ds = [])) by by apply join_nonempty.
    rewrite bool_decide_false by by intros [_ ?]%app_nil.
    destruct (strip_prefix _ _) as [tail|] eqn:Es.
    + apply strip_prefix_Some in Es.
      assert (starts_with (join_on SLASH ds ++ str "/") (join_on SLASH ps) = true) as Hsw.
      { apply starts_with_spec. eauto. }
      apply under_dir in Hsw as (rest & Hne & ->); [|done..].
      rewrite join_on_app in Es by (try done; by destruct Hds). rewrite str_slash, <- app_assoc in Es.
      apply app_inv_head in Es. injection Es as <-. cbn [mbind option_bind].
      rewrite (Hhead rest eq_refl Hne). split; [intros [r' ->]; by exists r'|].
      intros [r' Hr]. apply app_inv_head in Hr. by exists r'.
    + split; [done|]. intros [rest ->]. exfalso.
      assert (starts_with (join_on SLASH ds ++ str "/") (join_on SLASH (ds ++ n :: rest)) = true) as Hsw.
      { apply under_dir; [done..|]. by exists (n :: rest). }
      apply starts_with_spec in Hsw as [t Ht]. by rewrite (proj2 (strip_prefix_Some _ _ t) Ht) in Es.
Qed.

Lemma list_dir_elem r dir n : n ∈ list_dir r dir ↔ ∃ k, k ∈ entry_paths r ∧ listed dir k = Some n.
Proof.
  unfold list_dir. cbv zeta. rewrite elem_of_list_to_set, list_elem_of_omap. done.
Qed.

(** * Theorems *)

(** C24: Opening never panics, whatever the file holds; and what it opens is well
    formed: the chunks of an entry are in the table, of one size but for the last,
    and add up to the entry, no chunk inflates to more than the limit, the paths
    are normal and none is inside another, and the two tables are no longer than
    the file has room for. *)
Theorem open_sound `{C : Crc32} (f : list Z) (name version : text) :
  Forall is_u8 f →
  safe (open_package f name version) ∧
  ∀ r, open_package f name version = Ret r →
    reader_wf r ∧ cache_full r ∧ 16 * lenZ (r_chunks r) + 22 * entry_count r ≤ lenZ f.
Proof.
  intros Hf. split.
  - unfold open_package. apply safe_bind; [apply read_header_safe|]. intros h Eh.
    destruct (read_header_inv _ _ Hf Eh) as (He & Hc & Ht & Hi). unfold is_u32, is_u64 in *.
    apply safe_bind; [apply check_bounds_safe|]. intros [] Eb.
    apply safe_bind; [apply read_chunk_table_safe|]. intros cs Ec.
    apply read_chunk_table_wf in Ec as [Hl Hcs]; [|done|lia].
    assert (lenZ cs < 2 ^ 32) as Hlt by lia.
    apply safe_bind; [|intros; by case_match].
    refine (proj1 (read_index_spec _ _ _ _ _ Hf _ Hlt Hcs _)); [lia|apply map_Forall_empty].
  - intros r Hr. destruct (open_inv _ _ _ _ Hf Hr) as (Hwf & Hcache & Hsize).
    split; [done|]. split; [by unfold cache_full; rewrite Hcache|done].
Qed.

(** Reading never panics either, with any range and whatever has become of the
    file since, as long as what is cached has the size of its entry. *)
Theorem reads_never_panic `{Zstd} {C : Crc32} (r : PackageReader) (file : option (list Z)) (path : text) :
  reader_wf r → cache_full r →
  (∀ position len, is_u64 position → match len with Some n => is_u64 n | None => True end →
     safe (read_range r file path position len)) ∧
  safe (read_entry r file path).
Proof.
  intros Hr Hc. split.
  - intros position len [Hp _] Hl. apply range_safe; try done. destruct len as [n|]; [by destruct Hl|done].
  - unfold read_entry. apply safe_bind; [by apply range_safe|]. intros [data r'] Hd.
    unfold read_range in Hd. destruct (r_entries r !! path); [|done]. by case_match.
Qed.

(** In a file whose chunks inflate to the sizes the table gives, every range
    of every entry is the part of its content, cut off at its end, through the
    cache or not, and after any reads before. *)
Theorem read_range_is_slice `{Zstd} (r : PackageReader) (f : list Z) (path : text) (e : EntryMeta)
    (parts : list (list Z)) (position : Z) (len : option Z) :
  reader_wf r → cache_ok r f → r_entries r !! path = Some e → inflates (r_chunks r) f e parts →
  is_u64 position → match len with Some n => is_u64 n | None => True end →
  ∃ r', read_range r (Some f) path position len = Ret (sub (concat parts) position (range_end e position len), r') ∧
        same_package r r' ∧ cache_ok r' f.
Proof.
  intros Hr Hc Ee Hinf [Hp _] Hl. apply range_slices; try done. destruct len as [n|]; [by destruct Hl|done].
Qed.

(** C36: An entry whose chunks inflate to fewer bytes than the table says, which
    opening cannot see, is answered short by a first read of all of it, and cached.
    After that, whatever file is there, every read that begins inside the entry and
    ends past what was inflated panics, the whole reads and the checked one among
    them; a read that ends before that is answered from the short copy. *)
Theorem short_entry_panics `{Zstd} {C : Crc32} (r : PackageReader) (f : list Z) (path : text) (e : EntryMeta)
    (d : list Z) :
  reader_wf r → r_entries r !! path = Some e → 0 < entry_raw_size e ≤ INFLATE_CACHE_MAX_ENTRY_BYTES →
  cache_get path (inflate_cache r) = None →
  read_uncached r (Some f) e 0 (entry_raw_size e) = Ret d → lenZ d < entry_raw_size e →
  ∃ r', read_range r (Some f) path 0 None = Ret (d, r') ∧ is_ret (read_entry r (Some f) path) = true ∧
        ∀ file, read_entry r' file path = Panic ∧ ∀ position len, 0 ≤ position < entry_raw_size e →
          (match len with Some n => 0 < n ∧ lenZ d < position + n | None => True end →
           read_range r' file path position len = Panic) ∧
          (∀ n, len = Some n → 0 < n → position + n ≤ lenZ d →
           ∃ r'', read_range r' file path position len = Ret (sub d position (position + n), r'')).
Proof.
  intros Hr Ee Hsz Hmiss Hd Hshort. pose proof Hr as [_ _ Hes _]. destruct (Hes _ _ Ee) as [_ He].
  assert (chunk_count e ≠ 0) as Hc0.
  { intros Hz. destruct He as (_ & _ & _ & Hsum & _). unfold span in Hsum. rewrite Hz, Z.add_0_r, sub_empty in Hsum by lia.
    cbn in Hsum. lia. }
  exists (set_cache r (cache_put path d (inflate_cache r))).
  assert (read_range r (Some f) path 0 None = Ret (d, set_cache r (cache_put path d (inflate_cache r)))) as H1.
  { unfold read_range. rewrite Ee. cbn [ok_or]. rewrite bind_ret.
    rewrite (proj2 (Z.leb_gt _ 0)) by lia. rewrite bool_decide_false by done. cbn [orb]. cbv zeta.
    rewrite (proj2 (Z.eqb_neq _ 0)) by done. rewrite (proj2 (Z.leb_le _ _)) by lia. rewrite Hmiss, Hd, bind_ret.
    by rewrite !Z.eqb_refl. }
  split; [done|]. split; [unfold read_entry; rewrite H1, bind_ret, Ee; by case_match|]. intros file.
  assert (Hmax : INFLATE_CACHE_MAX_ENTRY_BYTES ≤ u64_max) by by vm_compute.
  assert (Hread : ∀ position len, 0 ≤ position < entry_raw_size e → len ≠ Some 0 →
    ∃ r'', read_range (set_cache r (cache_put path d (inflate_cache r))) file path position len =
    bs ← slice d position (match len with Some n => Z.min (u64_saturating_add position n) (entry_raw_size e)
                                     | None => entry_raw_size e end); Ret (bs, r'')).
  { intros position len Hpos Hlen. unfold read_range. cbn [r_entries set_cache inflate_cache]. rewrite Ee. cbn [ok_or]. rewrite bind_ret.
    rewrite (proj2 (Z.leb_gt _ position)) by lia. rewrite bool_decide_false by done. cbn [orb]. cbv zeta.
    rewrite (proj2 (Z.eqb_neq _ 0)) by done. rewrite (proj2 (Z.leb_le _ _)) by lia. rewrite cache_put_get. by eexists. }
  assert (Hpanic : ∀ position len, 0 ≤ position < entry_raw_size e →
    match len with Some n => 0 < n ∧ lenZ d < position + n | None => True end →
    read_range (set_cache r (cache_put path d (inflate_cache r))) file path position len = Panic).
  { intros position len Hpos Hend. destruct (Hread position len Hpos) as [r'' ->].
    { destruct len as [n|]; [|done]. intros [= ->]. lia. }
    unfold slice. rewrite (proj2 (Z.leb_gt _ (lenZ d))); [by rewrite andb_false_r|].
    destruct len as [n|]; [|lia]. unfold u64_saturating_add. lia. }
  split; [unfold read_entry; by rewrite Hpanic by (done || lia)|]. intros position len Hpos. split; [by apply Hpanic|].
  intros n -> Hn Hle. destruct (Hread position (Some n) Hpos) as [r'' ->]; [intros [= ->]; lia|]. exists r''.
  unfold u64_saturating_add. rewrite !Z.min_l by lia. unfold slice.
  by rewrite !(proj2 (Z.leb_le _ _)) by lia.
Qed.

(** The listing of a directory is its files and directories, and nothing is
    both. *)
Theorem list_dir_consistent (r : PackageReader) (dir : text) (ds : list text) (n : text) :
  reader_wf r → dir_path dir ds → part_ok n →
  (n ∈ list_dir r dir ↔ is_file r (child dir n) = true ∨ is_dir r (child dir n) = true) ∧
  is_file r (child dir n) && is_dir r (child dir n) = false.
Proof.
  intros Hr Hd Hn. destruct (child_join _ _ _ Hd Hn) as [-> Hc]. pose proof (join_nonempty _ Hc) as Hne.
  rewrite list_dir_elem, is_file_key, is_dir_key by done. split.
  - split.
    + intros (k & Hk & Hl). destruct (key_normal _ _ Hr Hk) as (ps & Hps & ->).
      apply (listed_spec _ _ _ _ Hd Hps) in Hl as [rest ->].
      destruct (decide (rest = [])) as [->|Hrest]; [by left|right]. exists (join_on SLASH (ds ++ n :: rest)).
      split; [done|]. apply under_dir; [done..|]. exists rest. split; [done|]. by rewrite <- app_assoc.
    + intros [Hk|(k & Hk & Hs)].
      * eexists. split; [exact Hk|]. apply (listed_spec _ _ _ _ Hd Hc). by exists [].
      * exists k. split; [done|]. destruct (key_normal _ _ Hr Hk) as (ps & Hps & ->).
        apply under_dir in Hs as (rest & _ & ->); [|done..]. apply (listed_spec _ _ _ _ Hd Hps).
        exists rest. by rewrite <- app_assoc.
  - apply not_true_iff_false. intros [Hf Hdir]%andb_true_iff. apply is_file_key in Hf.
    apply is_dir_key in Hdir as (k & Hk & Hs); [|done]. destruct Hr as [_ _ _ Hap].
    assert (prefix_conflict (join_on SLASH (ds ++ [n])) k = false) as Hconf.
    { apply Hap; [by apply elem_of_keys..|]. intros <-. apply starts_with_spec in Hs as [t Ht].
      apply (f_equal length) in Ht. rewrite !length_app in Ht. cbn in Ht. lia. }
    unfold prefix_conflict in Hconf. by rewrite Hs in Hconf.
Qed.

(** * Witnesses *)

(** A compressor that stores. *)
#[local, refine] Instance storing : Zstd := {
  compress d := Some d;
  decompress c cap := if lenZ c <=? cap then Some c else None
}.
Proof.
  - intros d c cap [= ->] Hc. by rewrite (proj2 (Z.leb_le _ _)).
  - intros c cap d. case_match eqn:E; [|done]. intros [= ->]. by apply Z.leb_le.
  - intros d c [= ->]. pose proof (Z.div_pos (lenZ c) 256). lia.
Defined.
#[local] Existing Instance crc_ieee.

(** A package of one file of four bytes, whose chunk holds [data]. *)
Definition sample_package (data : list Z) : list Z :=
  concat (header_fields {| header_entries := 1; header_chunks := 1; chunk_table_offset := 32 + lenZ data;
                           index_offset := 48 + lenZ data |}) ++
  data ++
  concat (chunk_fields {| data_offset := 32; compressed_size := lenZ data; raw_size := 4 |}) ++
  concat (entry_fields {| entry_path := str "a/b"; entry_raw_size := 4; entry_crc32 := crc32 (str "abcd");
                          first_chunk := 0; chunk_count := 1 |}).

Definition sample_entry : EntryMeta :=
  {| entry_path := str "a/b"; entry_raw_size := 4; entry_crc32 := crc32 (str "abcd"); first_chunk := 0; chunk_count := 1 |}.

Definition opened (f : list Z) : PackageReader :=
  match open_package f [] [] with
  | Ret r => r
  | _ => {| r_chunks := []; r_entries := ∅; identity := identity_of [] [] []; inflate_cache := [] |}
  end.

Lemma sample_bytes : Forall is_u8 (sample_package (str "abcd")) ∧ Forall is_u8 (sample_package (str "abc")).
Proof.
  assert (∀ l, forallb (λ b, (0 <=? b) && (b <? 256)) l = true → Forall is_u8 l) as Hb.
  { intros l Hl. rewrite forallb_forall in Hl. apply Forall_forall. intros b Hin%list_elem_of_In.
    specialize (Hl _ Hin). bool_to_prop. unfold is_u8. lia. }
  split; apply Hb; vm_compute; reflexivity.
Qed.

Lemma sample_wf : reader_wf (opened (sample_package (str "abcd"))) ∧ reader_wf (opened (sample_package (str "abc"))).
Proof.
  destruct sample_bytes as [H1 H2].
  split; eapply (open_inv _ [] []); [exact H1|vm_compute; reflexivity|exact H2|vm_compute; reflexivity].
Qed.

Lemma open_sound_witness :
  safe (open_package (sample_package (str "abc")) [] []) ∧
  open_package (sample_package (str "abc")) [] [] = Ret (opened (sample_package (str "abc"))).
Proof.
  split; [apply (open_sound (sample_package (str "abc")) [] []); apply sample_bytes|vm_compute; reflexivity].
Defined.

Lemma reads_never_panic_witness : safe (read_entry (opened (sample_package (str "abc"))) None (str "a/b")).
Proof.
  apply (reads_never_panic (opened (sample_package (str "abc"))) None (str "a/b")); [apply sample_wf|].
  vm_compute. constructor.
Defined.

Lemma read_range_is_slice_witness :
  ∃ r', read_range (opened (sample_package (str "abcd"))) (Some (sample_package (str "abcd"))) (str "a/b") 1 (Some 2) =
        Ret (str "bc", r').
Proof.
  destruct (read_range_is_slice (opened (sample_package (str "abcd"))) (sample_package (str "abcd")) (str "a/b")
              sample_entry [str "abcd"] 1 (Some 2)) as (r' & Hr & _).
  - apply sample_wf.
  - vm_compute. intros k v H. inversion H.
  - vm_compute. reflexivity.
  - unfold inflates. vm_compute. repeat constructor.
  - unfold is_u64. lia.
  - unfold is_u64. lia.
  - exists r'. exact Hr.
Defined.

Lemma short_entry_panics_witness :
  ∃ r', read_range (opened (sample_package (str "abc"))) (Some (sample_package (str "abc"))) (str "a/b") 0 None =
        Ret (str "abc", r') ∧ read_range r' (Some (sample_package (str "abc"))) (str "a/b") 0 None = Panic ∧
        read_range r' None (str "a/b") 2 (Some 2) = Panic.
Proof.
  destruct (short_entry_panics (opened (sample_package (str "abc"))) (sample_package (str "abc")) (str "a/b")
              sample_entry (str "abc")) as (r' & H1 & _ & H2).
  - apply sample_wf.
  - vm_compute. reflexivity.
  - vm_compute. split; [reflexivity|discriminate].
  - vm_compute. reflexivity.
  - vm_compute. reflexivity.
  - vm_compute. reflexivity.
  - exists r'. split; [exact H1|]. split.
    + apply (H2 (Some (sample_package (str "abc")))); [split; [discriminate|reflexivity]|exact I].
    + apply (H2 None); [split; [discriminate|reflexivity]|split; reflexivity].
Defined.

Lemma list_dir_consistent_witness : str "a" ∈ list_dir (opened (sample_package (str "abcd"))) [].
Proof.
  apply (list_dir_consistent (opened (sample_package (str "abcd"))) [] [] (str "a")).
  - apply sample_wf.
  - left. split; reflexivity.
  - repeat split; try discriminate.
    + vm_compute. intros H. inversion H as [|? ? ? H']. inversion H'.
    + repeat constructor; vm_compute; discriminate.
  - right. vm_compute. reflexivity.
Defined.
