(* ===== verification/PackageTrip.v ===== *)
(** A package that is written and opened again: the reader sees the files the
    writer was given
    ([engine/crates/shared/src/vfs/package.rs]). *)
From S2P Require Import Prelude Text Wire PackagePath Package PackageWrite PackageRead.

(** * The specification *)

Section Trip.
Context `{Zstd} {C : Crc32}.

(** The readers of a package after any range reads of it. *)
Inductive after_reads (f : list Z) (r : PackageReader) : PackageReader → Prop :=
  | after_none : after_reads f r r
  | after_range r1 path position len data r2 :
      after_reads f r r1 → is_u64 position → match len with Some n => is_u64 n | None => True end →
      read_range r1 (Some f) path position len = Ret (data, r2) → after_reads f r r2.

(** * Lemmas *)

(** ** Records *)

Lemma read_exact_at p m s pos n :
  pos = lenZ p → n = lenZ m → read_exact (p ++ m ++ s) pos n = Ret m.
Proof.
  intros -> ->. unfold read_exact. rewrite !length_app, (proj2 (Z.leb_le _ _)) by lia.
  by rewrite (sub_mid p m s).
Qed.

(** A field of a record. *)
Lemma field_value p n v s lo hi :
  lo = lenZ p → hi = lo + Z.of_nat n → 0 ≤ v < 256 ^ Z.of_nat n → le_value (sub (p ++ le_bytes n v ++ s) lo hi) = v.
Proof.
  intros -> -> Hv. rewrite sub_mid; [by apply le_value_roundtrip|done|]. by rewrite length_le_bytes.
Qed.

Lemma chunk_record_fields c :
  is_u64 (data_offset c) → is_u32 (compressed_size c) → is_u32 (raw_size c) →
  le_value (sub (concat (chunk_fields c)) 0 8) = data_offset c ∧
  le_value (sub (concat (chunk_fields c)) 8 12) = compressed_size c ∧
  le_value (sub (concat (chunk_fields c)) 12 16) = raw_size c.
Proof.
  unfold is_u64, is_u32, chunk_fields. intros H1 H2 H3. cbn [concat]. repeat split.
  - by apply (field_value [] 8).
  - apply (field_value (le_bytes 8 _) 4); [by rewrite length_le_bytes|done|done].
  - rewrite (app_assoc (le_bytes 8 _)).
    apply (field_value _ 4); [by rewrite length_app, !length_le_bytes|done|done].
Qed.

Lemma read_chunk_entry_at p c s table pos :
  pos = lenZ p → is_u64 (data_offset c) → is_u32 (compressed_size c) →
  HEADER_SIZE ≤ data_offset c → data_offset c + compressed_size c ≤ table → table ≤ u64_max →
  0 ≤ raw_size c ≤ MAX_CHUNK_RAW_SIZE →
  read_chunk_entry (p ++ concat (chunk_fields c) ++ s) table pos = Ret c.
Proof.
  intros Hpos H1 H2 H3 H4 Ht H5. unfold read_chunk_entry.
  rewrite read_exact_at by (try done; by rewrite length_chunk_fields). rewrite bind_ret. cbv zeta.
  destruct (chunk_record_fields c H1 H2) as (-> & -> & ->).
  { unfold is_u32, MAX_CHUNK_RAW_SIZE, DEFAULT_CHUNK_SIZE in *. lia. }
  unfold u64_checked_add. rewrite (proj2 (Z.leb_le _ _)) by lia. cbn [ok_or]. rewrite bind_ret.
  rewrite !(proj2 (Z.ltb_ge _ _)) by lia. by destruct c.
Qed.

(** A chunk the table of a file of this layout may hold. *)
Definition chunk_entry_ok (table : Z) (c : ChunkEntry) : Prop :=
  is_u64 (data_offset c) ∧ is_u32 (compressed_size c) ∧ HEADER_SIZE ≤ data_offset c ∧
  data_offset c + compressed_size c ≤ table ∧ 0 ≤ raw_size c ≤ MAX_CHUNK_RAW_SIZE.

Lemma read_chunk_table_at table s cs : ∀ p pos,
  pos = lenZ p → table ≤ u64_max → Forall (chunk_entry_ok table) cs →
  read_chunk_table (length cs) (p ++ concat (cs ≫= chunk_fields) ++ s) table pos = Ret cs.
Proof.
  induction cs as [|c cs IH]; intros p pos Hpos Ht Hcs; [done|]. cbn [length read_chunk_table mbind list_bind].
  apply Forall_cons in Hcs as [(H1 & H2 & H3 & H4 & H5) Hcs]. rewrite concat_app, <- app_assoc.
  rewrite read_chunk_entry_at by done. rewrite bind_ret.
  rewrite app_assoc. change (fix go (l : list ChunkEntry) := _) with (@mbind list list_bind ChunkEntry (list Z) chunk_fields).
  rewrite (IH (p ++ concat (chunk_fields c))); [done| |done..].
  rewrite length_app, length_chunk_fields. lia.
Qed.

Lemma length_entry_fields e : lenZ (concat (entry_fields e)) = 22 + lenZ (entry_path e).
Proof. unfold entry_fields. cbn [concat]. rewrite !length_app, !length_le_bytes. cbn [length]. lia. Qed.

(** An index record that fits its fields. *)
Definition entry_record_ok (e : EntryMeta) : Prop :=
  lenZ (entry_path e) < 2 ^ 16 ∧ utf8 (entry_path e) = true ∧ is_u64 (entry_raw_size e) ∧
  is_u32 (entry_crc32 e) ∧ is_u32 (first_chunk e) ∧ is_u32 (chunk_count e).

Lemma read_entry_record_at p e s pos :
  pos = lenZ p → entry_record_ok e →
  read_entry_record (p ++ concat (entry_fields e) ++ s) pos = Ret (e, pos + lenZ (concat (entry_fields e))).
Proof.
  intros -> (Hl & Hu & H1 & H2 & H3 & H4). unfold is_u64, is_u32 in *. unfold read_entry_record.
  rewrite length_entry_fields. unfold entry_fields. cbn [concat]. rewrite app_nil_r, as_u16_small by lia.
  set (meta := le_bytes 8 (entry_raw_size e) ++ le_bytes 4 (entry_crc32 e) ++ le_bytes 4 (first_chunk e) ++
               le_bytes 4 (chunk_count e)).
  assert (lenZ meta = 20) as Hm by (unfold meta; by rewrite !length_app, !length_le_bytes).
  rewrite <- (app_assoc (le_bytes 2 _)). rewrite read_exact_at by (try done; by rewrite length_le_bytes).
  rewrite bind_ret. cbv zeta. rewrite le_value_roundtrip by (change (256 ^ Z.of_nat 2) with (2 ^ 16); lia).
  rewrite (app_assoc p), <- (app_assoc (entry_path e)).
  rewrite (read_exact_at (p ++ le_bytes 2 _) (entry_path e) _ (lenZ p + 2) (lenZ (entry_path e)))
    by (rewrite ?length_app, ?length_le_bytes; lia).
  rewrite bind_ret, Hu. cbn [negb]. rewrite (app_assoc (p ++ _)).
  rewrite (read_exact_at ((p ++ _) ++ _) meta) by (try done; rewrite !length_app, length_le_bytes; lia).
  rewrite bind_ret. unfold mret, outcome_ret. do 2 f_equal; [|lia]. unfold meta.
  destruct e as [path raw crc first count]. cbn [entry_path entry_raw_size entry_crc32 first_chunk chunk_count] in *.
  f_equal.
  - by apply (field_value [] 8).
  - apply (field_value (le_bytes 8 _) 4); [by rewrite length_le_bytes|done|done].
  - rewrite (app_assoc (le_bytes 8 _)). apply (field_value _ 4); [by rewrite length_app, !length_le_bytes|done|done].
  - rewrite <- (app_nil_r (le_bytes 4 count)), !(app_assoc (le_bytes 8 _)), (app_assoc (_ ++ _)).
    apply (field_value _ 4); [by rewrite !length_app, !length_le_bytes|done|done].
Qed.

Definition index_of (es : gmap text EntryMeta) (l : list EntryMeta) : gmap text EntryMeta :=
  foldl (λ m e, <[entry_path e := e]> m) es l.

Lemma read_index_at s cs l : ∀ p pos es,
  pos = lenZ p → Forall entry_record_ok l →
  Forall (λ e, validate_entry_path (entry_path e) = Ret (entry_path e) ∧ check_entry cs e = Ret tt) l →
  NoDup (entry_path <$> l) → (∀ e, e ∈ l → es !! entry_path e = None) →
  read_index (length l) (p ++ concat (l ≫= entry_fields) ++ s) cs pos es = Ret (index_of es l).
Proof.
  induction l as [|e l IH]; intros p pos es Hpos Hok Hchk Hnd Hfresh; [done|].
  cbn [length read_index mbind list_bind]. apply Forall_cons in Hok as [He Hok], Hchk as [[Hv Hc] Hchk].
  cbn [fmap list_fmap] in Hnd. apply NoDup_cons in Hnd as [Hn Hnd].
  rewrite concat_app, <- app_assoc. rewrite read_entry_record_at by done. rewrite bind_ret, Hv, bind_ret.
  rewrite bool_decide_false by (rewrite (Hfresh e) by left; by intros [? ?]). rewrite Hc, bind_ret.
  rewrite app_assoc. change (fix go (l : list EntryMeta) := _) with (@mbind list list_bind EntryMeta (list Z) entry_fields).
  rewrite (IH (p ++ concat (entry_fields e))); try done.
  - rewrite length_app. lia.
  - intros e' He'. rewrite lookup_insert_ne; [apply Hfresh; by right|]. intros E. apply Hn. rewrite E.
    apply list_elem_of_fmap. by exists e'.
Qed.

Lemma index_of_perm l : ∀ es,
  NoDup (entry_path <$> l) → (∀ e, e ∈ l → es !! entry_path e = None) →
  map_to_list (index_of es l) ≡ₚ ((λ e, (entry_path e, e)) <$> l) ++ map_to_list es.
Proof.
  induction l as [|e l IH]; intros es Hnd Hfresh; [done|]. cbn [fmap list_fmap] in Hnd |- *.
  apply NoDup_cons in Hnd as [Hn Hnd]. cbn [index_of foldl]. change (foldl _ ?m l) with (index_of m l).
  rewrite IH; [|done|].
  - rewrite map_to_list_insert by (apply Hfresh; left). cbn [app]. by rewrite <- Permutation_middle.
  - intros e' He'. rewrite lookup_insert_ne; [apply Hfresh; by right|]. intros E. apply Hn. rewrite E.
    apply list_elem_of_fmap. by exists e'.
Qed.

Lemma any_conflict_false ps :
  NoDup ps → (∀ a b, a ∈ ps → b ∈ ps → a ≠ b → prefix_conflict a b = false) → any_conflict ps = false.
Proof.
  induction 1 as [|p ps Hp Hnd IH]; intros Hap; [done|]. cbn [any_conflict]. apply orb_false_iff. split.
  - apply not_true_iff_false. intros (x & Hx & Hc)%existsb_exists. apply list_elem_of_In in Hx.
    rewrite Hap in Hc; [done|by left|by right|]. by intros ->.
  - apply IH. intros a b Ha Hb. apply Hap; by right.
Qed.

(** ** Chunks as they were laid out *)

Definition raws_fit (raws comps : list (list Z)) : Prop :=
  Forall2 (λ raw comp, compress raw = Some comp ∧ raw ≠ [] ∧ lenZ raw ≤ MAX_CHUNK_RAW_SIZE) raws comps.

Lemma comp_small raw comp :
  compress raw = Some comp → lenZ raw ≤ MAX_CHUNK_RAW_SIZE → is_u32 (lenZ comp) ∧ is_u32 (lenZ raw).
Proof.
  intros Hc Hr. apply compress_bound in Hc. unfold MAX_CHUNK_RAW_SIZE, DEFAULT_CHUNK_SIZE, is_u32 in *.
  pose proof (Z.div_le_mono (lenZ raw) (4 * (64 * 1024)) 256 ltac:(lia) Hr).
  change (4 * (64 * 1024) / 256) with 1024 in *. lia.
Qed.

Lemma lay_ok table raws comps : raws_fit raws comps → ∀ pos,
  HEADER_SIZE ≤ pos → pos + lenZ (concat comps) ≤ table → table ≤ u64_max →
  Forall (chunk_entry_ok table) (lay pos raws comps).
Proof.
  induction 1 as [|raw comp raws comps (Hc & Hne & Hr) _ IH]; intros pos Hpos Ht Hm; cbn [lay]; [constructor|].
  cbn [concat] in Ht. rewrite length_app in Ht. destruct (comp_small _ _ Hc Hr) as [H1 H2].
  constructor; [|apply IH; lia]. unfold chunk_entry_ok. cbn [data_offset compressed_size raw_size].
  unfold is_u64, is_u32, u64_max, HEADER_SIZE in *. rewrite !as_u32_small by lia. lia.
Qed.

Lemma lay_inflates f raws comps rest : raws_fit raws comps → ∀ pre,
  f = pre ++ concat comps ++ rest →
  Forall2 (λ c p, lenZ p = raw_size c ∧ inflate f c (raw_size c) = Ret p) (lay (lenZ pre) raws comps) raws.
Proof.
  induction 1 as [|raw comp raws comps (Hc & Hne & Hr) _ IH]; intros pre Hf; cbn [lay]; [constructor|].
  cbn [concat] in Hf. rewrite <- app_assoc in Hf. destruct (comp_small _ _ Hc Hr) as [H1 H2].
  unfold is_u32 in *. constructor.
  - cbn [raw_size]. rewrite as_u32_small by lia. split; [done|]. unfold inflate. cbn [data_offset compressed_size].
    rewrite as_u32_small by lia. rewrite Hf, read_exact_at by done. rewrite bind_ret.
    by rewrite (decompress_compress raw) by (done || lia).
  - specialize (IH (pre ++ comp)). rewrite length_app, Nat2Z.inj_add in IH. apply IH. by rewrite <- app_assoc.
Qed.

Lemma span_sum_ret stride cs : ∀ acc,
  strided stride (raw_size <$> cs) → Forall (λ c, 0 ≤ raw_size c) cs → acc + sum_Z (raw_size <$> cs) ≤ u64_max →
  span_sum stride acc cs = Ret (acc + sum_Z (raw_size <$> cs)).
Proof.
  induction cs as [|c cs IH]; intros acc Hst Hpos Hmax; cbn [span_sum fmap list_fmap].
  { cbn. by rewrite Z.add_0_r. }
  cbn [fmap list_fmap] in Hst, Hmax. apply Forall_cons in Hpos as [Hc Hpos]. unfold sum_Z in *. cbn [foldr] in *. cbv zeta.
  assert (0 ≤ foldr Z.add 0 (raw_size <$> cs)).
  { clear -Hpos. induction Hpos; cbn [fmap list_fmap foldr]; lia. }
  unfold u64_checked_add. destruct cs as [|c' cs].
  - rewrite bool_decide_true by done. cbn in Hst. cbn [negb andb]. rewrite (proj2 (Z.ltb_ge _ _)) by lia.
    rewrite (proj2 (Z.leb_le _ _)) by lia. cbn [ok_or]. rewrite bind_ret. cbn. by rewrite Z.add_0_r.
  - rewrite bool_decide_false by done. cbn [negb andb]. rewrite strided_cons in Hst by done. destruct Hst as [E Hst]; rewrite E in *.
    rewrite Z.eqb_refl. cbn [negb]. rewrite (proj2 (Z.leb_le _ _)) by lia. cbn [ok_or]. rewrite bind_ret.
    rewrite IH; [f_equal; cbn [fmap list_fmap foldr] in *; lia|done|done|]. cbn [fmap list_fmap foldr] in *. lia.
Qed.

Lemma cut_pos size parts : parts ≠ [] → cut size parts → 0 < size.
Proof.
  induction parts as [|p parts IH]; [done|]. intros _. rewrite cut_cons. case_decide; [lia|]. intros [_ Hc]. auto.
Qed.

Lemma cut_strided size p parts :
  cut size (p :: parts) → 0 < lenZ p ∧ strided (lenZ p) (lenZ p :: ((λ q : list Z, lenZ q) <$> parts)).
Proof.
  assert (∀ parts, cut size parts → 0 < size → strided size ((λ q : list Z, lenZ q) <$> parts)) as Hall.
  { induction parts0 as [|q parts0 IH]; [done|]. rewrite cut_cons. cbn [fmap list_fmap].
    case_decide as Hn; [subst; cbn; lia|]. intros [<- Hc] Hs. rewrite strided_cons by (by destruct parts0). auto. }
  rewrite cut_cons. case_decide as Hn; [subst; cbn; lia|]. intros [<- Hc].
  pose proof (cut_pos _ _ Hn Hc).
  split; [done|]. rewrite strided_cons by (by destruct parts). split; [done|]. by apply Hall.
Qed.

(** An entry the writer holds passes the reader's check, and inflates. *)
Lemma holds_entry size raws comps f rest head e path data :
  holds size raws e (path, data) → raws_fit raws comps → lenZ raws < 2 ^ 32 →
  length head = 32%nat → f = head ++ concat comps ++ rest → entry_raw_size e ≤ u64_max →
  let cs := lay 32 raws comps in
  is_u32 (first_chunk e) ∧ is_u32 (chunk_count e) ∧ check_entry cs e = Ret tt ∧ entry_wf cs e ∧
  ∃ parts, inflates cs f e parts ∧ concat parts = data.
Proof.
  intros (first & parts & Hv & Hraw & Hcrc & Hfirst & Hcount & Hpre & Hlen & Hdata & Hcut) Hfit Hn Hhead Hf Hmax cs.
  cbn [fst snd] in *. rewrite as_u32_small in Hfirst by lia. rewrite !as_u32_small in Hcount by lia.
  assert (chunk_count e = lenZ parts) as Hcount' by lia. clear Hcount.
  assert (take (length parts) (drop first raws) = parts) as Hparts.
  { destruct Hpre as [k Hk]. rewrite Hk. apply take_app_length. }
  pose proof (lay_inflates f raws comps rest Hfit head Hf) as Hinf. rewrite Hhead in Hinf.
  change (Z.of_nat 32) with 32 in Hinf. fold cs in Hinf.
  assert (length cs = length raws) as Hcs by (by eapply Forall2_length). clearbody cs.
  assert (span cs e = take (length parts) (drop first cs)) as Hspan.
  { unfold span, sub. rewrite Hcount', Hfirst. f_equal; [lia|f_equal; lia]. }
  assert (inflates cs f e parts) as Hinfe.
  { unfold inflates. rewrite Hspan, <- Hparts at 1. rewrite Hparts. rewrite <- Hparts at 2.
    by apply Forall2_take, Forall2_drop. }
  assert (raw_size <$> span cs e = (λ q : list Z, lenZ q) <$> parts) as Hsizes.
  { clear -Hinfe. induction Hinfe as [|c p l k [Hl _] _ IH]; cbn [fmap list_fmap]; [done|]. by rewrite IH, Hl. }
  assert (entry_raw_size e = sum_Z (raw_size <$> span cs e)) as Hsum.
  { rewrite Hraw, Hsizes, <- Hdata. clear. induction parts as [|p parts IH]; [done|].
    unfold sum_Z in *. cbn [concat fmap list_fmap foldr]. rewrite length_app. lia. }
  assert (Forall (λ c, 0 ≤ raw_size c) (span cs e)) as Hpos.
  { clear -Hinfe. induction Hinfe as [|c p l k [Hl _] _ IH]; constructor; [lia|done]. }
  assert (∀ p ps, parts = p :: ps → ∃ c, cs !! first = Some c ∧ raw_size c = lenZ p ∧ 0 < raw_size c ∧
            strided (raw_size c) (raw_size <$> span cs e)) as Hstride.
  { intros p ps ->. inversion Hinfe as [|c ? l ? [Hl _] _ Heq]; subst. exists c.
    assert (span cs e !! 0%nat = Some c) as Hc by (by rewrite <- Heq).
    rewrite Hspan, lookup_take_lt, lookup_drop, Nat.add_0_r in Hc by (cbn; lia).
    split; [done|]. destruct (cut_strided _ _ _ Hcut) as [H1 H2]. rewrite Heq, Hsizes, <- Hl. repeat split; try done; lia. }
  split; [unfold is_u32; lia|]. split; [unfold is_u32; lia|]. split; [|split; [|by exists parts]].
  - unfold check_entry, u32_checked_add. rewrite Hfirst, Hcount'. rewrite (proj2 (Z.leb_le _ u32_max)) by (unfold u32_max; lia).
    cbn [ok_or]. rewrite bind_ret, Hcs, as_u32_small by lia. rewrite (proj2 (Z.ltb_ge _ _)) by lia.
    destruct (Z.eqb_spec (lenZ parts) 0) as [Hz|Hz].
    { assert (parts = []) as -> by (by destruct parts). rewrite Hraw, <- Hdata. done. }
    destruct parts as [|p ps]; [done|]. destruct (Hstride p ps eq_refl) as (c & Hc & Hcr & Hc0 & Hst).
    unfold idx. rewrite Nat2Z.id, Hc, bind_ret. cbv zeta. rewrite (proj2 (Z.eqb_neq _ 0)) by lia.
    rewrite slice_ret by lia. rewrite bind_ret.
    replace (sub cs (Z.of_nat first) (Z.of_nat first + lenZ (p :: ps))) with (span cs e)
      by (unfold span; by rewrite Hfirst, Hcount').
    rewrite span_sum_ret by (done || lia). rewrite bind_ret, <- Hsum, Z.add_0_l, Z.eqb_refl. done.
  - split; [lia|]. split; [lia|]. split; [lia|]. split; [done|]. intros Hz. rewrite Hfirst, Nat2Z.id.
    destruct parts as [|p ps]; [rewrite Hcount' in Hz; done|].
    destruct (Hstride p ps eq_refl) as (c & Hc & _ & Hc0 & Hst). by exists c.
Qed.

(** ** The file the writer finishes *)

Lemma finish_inv size w files raws comps nm ver id d :
  written size w files raws comps → poisoned w = false → finish w nm ver = Ret (id, d) →
  ∃ h tables index,
    contents d = concat (header_fields h) ++ concat comps ++ tables ++ index ∧
    tables = concat (chunks w ≫= chunk_fields) ∧ index = concat (entries w ≫= entry_fields) ∧
    h = {| header_entries := as_u32 (lenZ (entries w)); header_chunks := as_u32 (lenZ (chunks w));
           chunk_table_offset := 32 + lenZ (concat comps);
           index_offset := 32 + lenZ (concat comps) + lenZ (chunks w) * 16 |} ∧
    32 + lenZ (concat comps) + lenZ (chunks w) * 16 ≤ u64_max ∧
    id = identity_of nm ver ((λ e, (entry_path e, entry_crc32 e)) <$> entries w).
Proof.
  intros [[(head & Hhead & Hcont) Hcur Hpos _ _ _ _] _ _ _ _] Hpo. unfold finish, mret, outcome_ret. rewrite Hpo. cbv zeta. intros H1.
  destruct (write_each (writer w) _) as [[e|] d1] eqn:E1; [done|]. apply write_each_end in E1 as [-> _]; [|done].
  rewrite bind_ret in H1. unfold u64_mul, u64_add in H1.
  destruct (lenZ (chunks w) * 16 <=? u64_max) eqn:Em; [|done]. rewrite bind_ret in H1.
  destruct (data_pos w + lenZ (chunks w) * 16 <=? u64_max) eqn:Ea; [|done]. rewrite bind_ret in H1.
  destruct (write_each _ _) as [[e|] d2] eqn:E2 in H1; [done|].
  apply write_each_end in E2 as [-> _]; [|cbn; rewrite length_app; lia].
  rewrite bind_ret in H1.
  destruct (write_each _ _) as [[e|] d3] eqn:E3 in H1; [done|]. rewrite bind_ret in H1.
  injection H1 as <- <-. apply Z.leb_le in Em, Ea.
  assert (data_pos w = 32 + lenZ (concat comps)) as Hdp by (rewrite Hpos, Hcont, length_app, Hhead; lia).
  apply (write_each_over _ _ _ []) in E3; [|done|done|].
  - cbn [app length contents seek] in E3. rewrite length_header_fields in E3.
    rewrite Hcont, <- !app_assoc, Nat.add_0_l, <- Hhead, drop_app_length, Hdp in E3.
    eexists _, _, _. split; [exact E3|]. rewrite Hdp in Ea. done.
  - cbn [contents seek length]. rewrite length_header_fields, Hcont, !length_app. lia.
Qed.

Lemma read_header_at h rest :
  is_u32 (header_entries h) → is_u32 (header_chunks h) → is_u64 (chunk_table_offset h) → is_u64 (index_offset h) →
  read_header (concat (header_fields h) ++ rest) = Ret h.
Proof.
  unfold is_u32, is_u64. intros H1 H2 H3 H4. unfold read_header.
  pose proof (read_exact_at [] (concat (header_fields h)) rest 0 HEADER_SIZE eq_refl) as Hr. cbn [app] in Hr.
  rewrite Hr by (by rewrite length_header_fields). clear Hr. rewrite bind_ret.
  unfold header_fields. cbn [concat]. pose proof (sub_mid [] MAGIC) as Hm. cbn [app] in Hm. rewrite Hm by done. clear Hm. rewrite bool_decide_true by done. cbn [negb].
  cbv zeta. rewrite (field_value MAGIC 4) by (done || (cbn; unfold FORMAT_VERSION; lia)). rewrite Z.eqb_refl. cbn [negb].
  set (a := MAGIC ++ le_bytes 4 FORMAT_VERSION).
  rewrite (app_assoc MAGIC). fold a. assert (lenZ a = 8) as Ha by done.
  rewrite (field_value a 4) by (done || lia).
  rewrite (app_assoc a). rewrite (field_value (a ++ _) 4) by (done || rewrite length_app, length_le_bytes; lia).
  rewrite (app_assoc (a ++ _)).
  rewrite (field_value ((a ++ _) ++ _) 8) by (done || rewrite !length_app, !length_le_bytes; lia).
  rewrite (app_assoc ((a ++ _) ++ _)).
  rewrite (field_value (((a ++ _) ++ _) ++ _) 8) by (done || rewrite !length_app, !length_le_bytes; lia).
  by destruct h.
Qed.

Lemma lenZ_index es : 22 * lenZ es ≤ lenZ (concat (es ≫= entry_fields)).
Proof.
  induction es as [|e es IH]; [done|]. cbn [mbind list_bind]. rewrite concat_app, length_app.
  pose proof (length_entry_fields e). cbn [length]. change (fix go (l : list EntryMeta) := _) with (@mbind list list_bind EntryMeta (list Z) entry_fields).
  lia.
Qed.

Lemma lenZ_tables cs : lenZ (concat (cs ≫= chunk_fields)) = 16 * lenZ cs.
Proof.
  induction cs as [|c cs IH]; [done|]. cbn [mbind list_bind]. rewrite concat_app, length_app, length_chunk_fields.
  cbn [length]. change (fix go (l : list ChunkEntry) := _) with (@mbind list list_bind ChunkEntry (list Z) chunk_fields).
  lia.
Qed.

Lemma packed_fit w raws comps : packed w raws comps → chunk_size w ≤ MAX_CHUNK_RAW_SIZE → raws_fit raws comps.
Proof.
  intros [_ _ _ _ Hc Hf _] Hs. unfold raws_fit. clear -Hc Hf Hs.
  induction Hc as [|raw comp raws comps Hc _ IH]; constructor; apply Forall_cons in Hf as [[Hne Hle] Hf].
  - repeat split; try done. lia.
  - by apply IH.
Qed.

Lemma index_of_lookup l n e :
  NoDup (entry_path <$> l) → index_of ∅ l !! n = Some e ↔ e ∈ l ∧ entry_path e = n.
Proof.
  intros Hnd. rewrite <- elem_of_map_to_list, index_of_perm by (done || (intros; apply lookup_empty)).
  rewrite map_to_list_empty, app_nil_r, list_elem_of_fmap. naive_solver.
Qed.

(** What the reader needs of the writer's entries. *)
Definition entry_good (cs : list ChunkEntry) (f : list Z) (e : EntryMeta) : Prop :=
  entry_record_ok e ∧ validate_entry_path (entry_path e) = Ret (entry_path e) ∧ check_entry cs e = Ret tt ∧
  entry_wf cs e ∧ ∃ parts, inflates cs f e parts.

Lemma holds_good size raws comps f rest head e path data :
  holds size raws e (path, data) → raws_fit raws comps → lenZ raws < 2 ^ 32 → length head = 32%nat →
  f = head ++ concat comps ++ rest → lenZ (entry_path e) < 2 ^ 16 → utf8 path = true → lenZ data ≤ u64_max →
  entry_good (lay 32 raws comps) f e ∧ validate_entry_path path = Ret (entry_path e) ∧ entry_crc32 e = crc32 data ∧
  ∃ parts, inflates (lay 32 raws comps) f e parts ∧ concat parts = data.
Proof.
  intros Hh Hfit Hn Hhead Hf Hl Hu Hd. pose proof Hh as (first & parts & Hv & Hraw & Hcrc & _). cbn [fst snd] in *.
  destruct (holds_entry _ _ _ _ _ _ _ _ _ Hh Hfit Hn Hhead Hf) as (H1 & H2 & H3 & H4 & parts' & Hinf & Hc); [lia|].
  split; [|by eauto]. split; [|split; [by eapply validate_idempotent|split; [done|split; [done|by exists parts']]]]. unfold entry_record_ok.
  rewrite Hcrc. pose proof (crc32_u32 data). destruct (entry_path_inv _ _ Hv) as (? & _ & _ & _ & Hutf).
  unfold is_u64, u64_max in *. repeat split; (done || apply H0 || apply H1 || apply H2 || (by apply Hutf) || lia).
Qed.

(** The reader of a finished file. *)
Lemma open_finished w raws comps nm ver f h :
  packed w raws comps → raws_fit raws comps → paths_apart (entries w) →
  Forall (entry_good (chunks w) f) (entries w) → lenZ (chunks w) < 2 ^ 32 → lenZ (entries w) < 2 ^ 32 →
  32 + lenZ (concat comps) + lenZ (chunks w) * 16 ≤ u64_max →
  h = {| header_entries := as_u32 (lenZ (entries w)); header_chunks := as_u32 (lenZ (chunks w));
         chunk_table_offset := 32 + lenZ (concat comps);
         index_offset := 32 + lenZ (concat comps) + lenZ (chunks w) * 16 |} →
  f = concat (header_fields h) ++ concat comps ++ concat (chunks w ≫= chunk_fields) ++ concat (entries w ≫= entry_fields) →
  open_package f nm ver =
  Ret {| r_chunks := chunks w; r_entries := index_of ∅ (entries w);
         identity := identity_of nm ver ((λ e, (entry_path e, entry_crc32 e)) <$> entries w); inflate_cache := [] |}.
Proof.
  intros Hp Hfit [Hnd Hap] Hgood Hc He Hmax Hh Hf. rewrite !as_u32_small in Hh by lia.
  pose proof (lenZ_tables (chunks w)) as Ht. pose proof (lenZ_index (entries w)) as Hi.
  assert (Forall (chunk_entry_ok (chunk_table_offset h)) (chunks w)) as Hok.
  { rewrite (packed_table _ _ _ Hp), Hh. apply lay_ok; [done|unfold HEADER_SIZE; lia|cbn; lia|cbn; lia]. }
  unfold open_package. rewrite Hf at 1. rewrite read_header_at
    by (rewrite Hh; unfold is_u32, is_u64, u64_max in *; cbn; lia). rewrite bind_ret.
  assert (lenZ f = 32 + lenZ (concat comps) + 16 * lenZ (chunks w) + lenZ (concat (entries w ≫= entry_fields))) as Hlen.
  { rewrite Hf, !length_app, length_header_fields. lia. }
  assert (check_bounds h (lenZ f) = Ret tt) as ->.
  { unfold check_bounds, u64_checked_mul, u64_checked_add. rewrite Hh. cbn [header_chunks chunk_table_offset index_offset header_entries].
    rewrite (proj2 (Z.leb_le _ _)) by lia. cbn [ok_or]. rewrite bind_ret. rewrite (proj2 (Z.leb_le _ _)) by lia. cbn [ok_or].
    rewrite bind_ret. rewrite !(proj2 (Z.ltb_ge _ _)) by lia. cbv zeta. rewrite (proj2 (Z.ltb_ge _ _)); [done|].
    apply Z.div_le_lower_bound; unfold MIN_INDEX_RECORD_BYTES; lia. }
  rewrite bind_ret. replace (Z.to_nat (header_chunks h)) with (length (chunks w)) by (rewrite Hh; cbn; lia).
  replace (Z.to_nat (header_entries h)) with (length (entries w)) by (rewrite Hh; cbn; lia).
  assert (read_chunk_table (length (chunks w)) f (chunk_table_offset h) (chunk_table_offset h) = Ret (chunks w)) as ->.
  { rewrite Hf, app_assoc. apply read_chunk_table_at; [|rewrite Hh; cbn; lia|done].
    rewrite length_app, length_header_fields, Hh. cbn. lia. }
  rewrite bind_ret.
  assert (read_index (length (entries w)) f (chunks w) (index_offset h) ∅ = Ret (index_of ∅ (entries w))) as ->.
  { rewrite Hf, !app_assoc. rewrite <- (app_nil_r (concat (entries w ≫= entry_fields))). apply read_index_at; try done.
    - rewrite !length_app, length_header_fields, Hh. cbn. lia.
    - eapply Forall_impl; [exact Hgood|]. by intros e [? _].
    - eapply Forall_impl; [exact Hgood|]. by intros e (_ & ? & ? & _). }
  rewrite bind_ret. pose proof (index_of_perm (entries w) ∅ Hnd ltac:(intros; apply lookup_empty)) as Hperm.
  rewrite map_to_list_empty, app_nil_r in Hperm.
  rewrite any_conflict_false; [|rewrite Hperm, <- list_fmap_compose; done|].
  - unfold identity_of. rewrite <- (sort_by_key_perm fst ((λ e, (entry_path e, entry_crc32 e)) <$> entries w)); [done|..].
    + rewrite <- list_fmap_compose. done.
    + rewrite Hperm, <- list_fmap_compose. done.
  - intros a b. rewrite Hperm, <- list_fmap_compose. apply Hap.
Qed.

(** ** Reading back *)

Lemma wf_same r r' : same_package r r' → reader_wf r → reader_wf r'.
Proof. intros (Hc & He & _) [H1 H2 H3 H4]. split; rewrite ?Hc, ?He; done. Qed.

Lemma after_reads_ok f r r' :
  reader_wf r → inflate_cache r = [] → (∀ n e, r_entries r !! n = Some e → ∃ parts, inflates (r_chunks r) f e parts) →
  after_reads f r r' → same_package r r' ∧ cache_ok r' f.
Proof.
  intros Hr Hcache Hinf. induction 1 as [|r1 path position len data r2 _ [Hs Hok] [Hp _] Hl Hread].
  - split; [done|]. intros k v Hkv. rewrite Hcache in Hkv. by apply elem_of_nil in Hkv.
  - destruct (r_entries r1 !! path) as [e|] eqn:Ee; [|unfold read_range in Hread; by rewrite Ee in Hread].
    pose proof (wf_same _ _ Hs Hr) as Hr1. destruct Hs as (Hc & He & Hid).
    destruct (Hinf path e) as [parts Hparts]; [by rewrite <- He|]. rewrite <- Hc in Hparts.
    destruct (range_slices r1 f path e parts position len) as (r2' & Hread' & (Hc' & He' & Hid') & Hok'); try done.
    { destruct len; [by destruct Hl|done]. }
    rewrite Hread in Hread'. injection Hread' as _ <-. split; [|done]. unfold same_package. by rewrite Hc', He', Hid'.
Qed.

Lemma info_loop_spec r f e parts : ∀ n i total hashed,
  reader_wf r → entry_wf (r_chunks r) e → inflates (r_chunks r) f e parts → 0 ≤ i → i + Z.of_nat n = chunk_count e →
  total + lenZ (concat (drop (Z.to_nat i) parts)) ≤ u64_max →
  info_loop n i r f e total hashed =
  Ret (total + lenZ (concat (drop (Z.to_nat i) parts)), hashed ++ concat (drop (Z.to_nat i) parts)).
Proof.
  intros n i total hashed Hr He Hinf. pose proof He as (H1 & H2 & H3 & _). pose proof Hr as [Hlen _ _ _].
  pose proof (Forall2_length _ _ _ Hinf) as Hpl. pose proof (span_length _ _ He) as Hsl.
  revert i total hashed. induction n as [|n IH]; intros i total hashed Hi Hn Hmax; cbn [info_loop].
  { rewrite drop_ge by lia. cbn [concat length]. by rewrite Z.add_0_r, app_nil_r. }
  rewrite u32_add_ret by (unfold u32_max; lia). rewrite bind_ret.
  destruct (idx_ret (E:=PackageError) (r_chunks r) (first_chunk e + i)) as (ch & -> & Hch); [lia..|]. rewrite bind_ret.
  rewrite <- (span_lookup _ _ _ He) in Hch by lia.
  destruct (Forall2_lookup_l _ _ _ _ _ Hinf Hch) as (d & Hd & Hdl & ->). rewrite bind_ret.
  rewrite (drop_S _ _ _ Hd) in Hmax |- *. cbn [concat] in Hmax |- *. rewrite length_app in Hmax |- *.
  rewrite u64_add_ret by lia. rewrite bind_ret. replace (S (Z.to_nat i)) with (Z.to_nat (i + 1)) in * by lia.
  rewrite IH by lia. rewrite <- app_assoc. f_equal. f_equal. lia.
Qed.

(** The part of a content a range asks for. *)
Definition window (data : list Z) (position : Z) (len : option Z) : list Z :=
  sub data position match len with Some n => Z.min (u64_saturating_add position n) (lenZ data) | None => lenZ data end.

(** Every way of reading a file of the package. *)
Lemma read_back r f n e parts :
  reader_wf r → cache_ok r f → r_entries r !! n = Some e → inflates (r_chunks r) f e parts →
  entry_crc32 e = crc32 (concat parts) →
  (∃ r', read_entry r (Some f) n = Ret (inr (concat parts), r')) ∧
  (∀ position len, is_u64 position → match len with Some n => is_u64 n | None => True end →
     ∃ r', read_range r (Some f) n position len = Ret (window (concat parts) position len, r')) ∧
  (∀ digest algorithm finalize, digest algorithm = Some finalize →
     get_file_info digest r (Some f) n algorithm = Ret (lenZ (concat parts), finalize (concat parts))).
Proof.
  intros Hr Hok He Hinf Hcrc. pose proof Hr as [_ _ Hes _]. destruct (Hes _ _ He) as [_ Hwf].
  pose proof (sizes_sum _ _ _ _ Hwf Hinf) as Hsize. pose proof (entry_size_bound _ _ Hr Hwf) as Hb.
  split; [|split].
  - destruct (range_slices r f n e parts 0 None) as (r' & Hread & _); try done. exists r'. unfold read_entry.
    rewrite Hread, bind_ret, He. unfold range_end. rewrite <- Hsize, sub_all by done.
    by rewrite Hcrc, Z.eqb_refl.
  - intros position len [Hp _] Hl. destruct (range_slices r f n e parts position len) as (r' & Hread & _); try done.
    { destruct len; [by destruct Hl|done]. }
    exists r'. rewrite Hread. unfold range_end, window. by rewrite <- Hsize.
  - intros digest algorithm finalize Hd. unfold get_file_info. rewrite He. cbn [ok_or]. rewrite bind_ret, Hd.
    cbn [ok_or]. rewrite bind_ret. change (ok_or (Some f) (Io NotFound)) with (Ret (E:=PackageError) f). rewrite bind_ret.
    pose proof Hwf as (_ & Hc & _).
    rewrite (info_loop_spec r f e parts) by (done || lia || (change (Z.to_nat 0) with 0%nat; rewrite drop_0; lia)).
    done.
Qed.

Lemma finished_wf w raws comps h nm ver f :
  packed w raws comps → raws_fit raws comps → paths_apart (entries w) →
  Forall (entry_good (chunks w) f) (entries w) → lenZ (chunks w) < 2 ^ 32 →
  chunk_table_offset h = 32 + lenZ (concat comps) → 32 + lenZ (concat comps) ≤ u64_max →
  reader_wf {| r_chunks := chunks w; r_entries := index_of ∅ (entries w);
               identity := identity_of nm ver ((λ e, (entry_path e, entry_crc32 e)) <$> entries w);
               inflate_cache := [] |}.
Proof.
  intros Hp Hfit [Hnd Hap] Hgood Hc Hh Hmax. split; cbn [r_chunks r_entries].
  - done.
  - rewrite (packed_table _ _ _ Hp).
    pose proof (lay_ok (32 + lenZ (concat comps)) raws comps Hfit 32 ltac:(done) ltac:(lia) Hmax) as Hok.
    eapply Forall_impl; [exact Hok|]. intros c (_ & Hu & H1 & _ & H2). unfold chunk_wf, is_u32 in *. lia.
  - intros n e [Hin <-]%index_of_lookup; [|done]. rewrite Forall_forall in Hgood.
    destruct (Hgood _ Hin) as (_ & Hv & _ & Hwf & _). done.
  - intros a b Ha Hb Hne. apply elem_of_dom in Ha as [ea [Ha <-]%index_of_lookup], Hb as [eb [Hb <-]%index_of_lookup]; [|done..].
    apply Hap; [apply list_elem_of_fmap; by exists ea|apply list_elem_of_fmap; by exists eb|done].
Qed.

(** * Theorems *)

(** C7: What is packed is unpacked: a package written by any calls, failed ones
    among them, opens; it has the identity the writer returned; its entries are
    the files whose calls succeeded, under the normal form of their paths; and
    after any reads every file reads back whole, in every range and with its
    digest.  Chunks have at most the reader's limit, paths less than [2^16] bytes,
    and the tables less than [2^32] records. *)
Theorem package_roundtrip (size : Z) (w : PackageWriter) (files : list (text * list Z)) (nm ver : text)
    (id : PackageIdentity) (d : Disk) :
  0 < size ≤ MAX_CHUNK_RAW_SIZE → built size w files → finish w nm ver = Ret (id, d) →
  Forall (λ e, lenZ (entry_path e) < 2 ^ 16) (entries w) → lenZ (chunks w) < 2 ^ 32 → lenZ (entries w) < 2 ^ 32 →
  Forall (λ f, utf8 (fst f) = true ∧ lenZ (snd f) ≤ u64_max) files →
  ∃ r, open_package (contents d) nm ver = Ret r ∧ identity r = id ∧
    (∀ n, contains r n = true ↔ ∃ p data, (p, data) ∈ files ∧ validate_entry_path p = Ret n) ∧
    ∀ p data r', (p, data) ∈ files → after_reads (contents d) r r' →
      ∃ n, validate_entry_path p = Ret n ∧
        (∃ r2, read_entry r' (Some (contents d)) n = Ret (inr data, r2)) ∧
        (∀ position len, is_u64 position → match len with Some n => is_u64 n | None => True end →
           ∃ r2, read_range r' (Some (contents d)) n position len = Ret (window data position len, r2)) ∧
        (∀ digest algorithm finalize, digest algorithm = Some finalize →
           get_file_info digest r' (Some (contents d)) n algorithm = Ret (lenZ data, finalize data)).
Proof.
  intros Hsize Hb Hfin Hpaths Hchunks Hentries Hfiles.
  destruct (poisoned w) eqn:Hpo; [unfold finish in Hfin; by rewrite Hpo in Hfin|].
  destruct (built_written size w files ltac:(lia) Hb) as [?|(raws & comps & Hw)]; [congruence|].
  destruct (finish_inv _ _ _ _ _ _ _ _ _ Hw Hpo Hfin) as (h & ts & ix & Hcont & -> & -> & Hh & Hmax & ->).
  pose proof Hw as [Hp Hs He _ Hap]. assert (raws_fit raws comps) as Hfit by (eapply packed_fit; [exact Hp|lia]).
  pose proof (packed_length _ _ _ Hp) as Hcl.
  assert (Forall2 (λ e f, entry_good (chunks w) (contents d) e ∧ validate_entry_path (fst f) = Ret (entry_path e) ∧
            entry_crc32 e = crc32 (snd f) ∧
            ∃ parts, inflates (chunks w) (contents d) e parts ∧ concat parts = snd f) (entries w) files) as Hall.
  { rewrite (packed_table _ _ _ Hp). clear -Hpaths Hfiles He Hfit Hchunks Hcont Hcl.
    revert He Hpaths. generalize (entries w). intros es He Hpaths.
    induction He as [|e [p data] es fs Hh' _ IH]; [constructor|].
    apply Forall_cons in Hpaths as [Hp1 Hpaths], Hfiles as [[Hf1 Hf2] Hfiles]. constructor; [|by apply IH].
    eapply (holds_good _ _ _ _ _ (concat (header_fields h)));
      (eassumption || apply length_header_fields || lia). }
  assert (Forall (entry_good (chunks w) (contents d)) (entries w)) as Hgood.
  { clear -Hall. induction Hall as [|e f es fs [? _] _ IH]; by constructor. }
  pose proof (open_finished w raws comps nm ver _ h Hp Hfit Hap Hgood Hchunks Hentries Hmax Hh Hcont) as Hopen.
  eexists. split; [exact Hopen|]. split; [done|]. destruct Hap as [Hnd Hap].
  match type of Hopen with _ = Ret ?r => set (r0 := r) in * end.
  assert (reader_wf r0) as Hr.
  { eapply (finished_wf w raws comps h); try done; [by rewrite Hh|lia]. }
  split.
  - intros n. unfold contains. rewrite bool_decide_eq_true. split.
    + intros [e Hn%index_of_lookup]; [|done]. destruct Hn as [Hin <-].
      apply list_elem_of_lookup in Hin as [i Hi]. destruct (Forall2_lookup_l _ _ _ _ _ Hall Hi) as ([p data] & Hf & _ & Hv & _).
      exists p, data. split; [by eapply list_elem_of_lookup_2|done].
    + intros (p & data & Hin & Hv). apply list_elem_of_lookup in Hin as [i Hi].
      destruct (Forall2_lookup_r _ _ _ _ _ Hall Hi) as (e & He' & _ & Hv' & _). exists e.
      apply index_of_lookup; [done|]. cbn in Hv'. split; [by eapply list_elem_of_lookup_2|congruence].
  - intros p data r' Hin Hreads. apply list_elem_of_lookup in Hin as [i Hi].
    destruct (Forall2_lookup_r _ _ _ _ _ Hall Hi) as (e & He' & _ & Hv & Hcrc & parts & Hinf & Hd).
    cbn [fst snd] in Hv, Hcrc, Hd. subst data. exists (entry_path e). split; [done|].
    assert (∀ n e, r_entries r0 !! n = Some e → ∃ parts, inflates (r_chunks r0) (contents d) e parts) as Hinfs.
    { intros n e' [Hin _]%index_of_lookup; [|done]. rewrite Forall_forall in Hgood. by apply Hgood. }
    destruct (after_reads_ok _ _ _ Hr eq_refl Hinfs Hreads) as [Hsame Hok].
    pose proof (wf_same _ _ Hsame Hr) as Hr'. destruct Hsame as (Hc' & He'' & _).
    apply (read_back r' (contents d) (entry_path e) e parts); try done.
    + rewrite He''. apply index_of_lookup; [done|]. split; [by eapply list_elem_of_lookup_2|done].
    + by rewrite Hc'.
Qed.
End Trip.

(** * Witnesses *)

#[local] Existing Instance crc_ieee.

Definition trip_writer : PackageWriter :=
  match add_entry 20 sample_writer (str "a/./b.js") (str "hello world") with
  | Ret (None, w) => w
  | _ => sample_writer
  end.
Definition trip_disk : Disk :=
  match finish trip_writer (str "game") (str "1") with Ret (_, d) => d | _ => sample_disk end.

Lemma package_roundtrip_witness :
  ∃ r r2, open_package (contents trip_disk) (str "game") (str "1") = Ret r ∧
    read_range r (Some (contents trip_disk)) (str "a/b.js") 3 (Some 5) = Ret (str "lo wo", r2).
Proof.
  destruct (package_roundtrip 4 trip_writer [(str "a/./b.js", str "hello world")] (str "game") (str "1")
    (identity_of (str "game") (str "1") ((λ e, (entry_path e, entry_crc32 e)) <$> entries trip_writer)) trip_disk)
    as (r & Hopen & _ & _ & Hread).
  - split; vm_compute; [reflexivity|discriminate].
  - refine (built_add 4 sample_writer [] 20 (str "a/./b.js") (str "hello world") (None, trip_writer) _ _ _).
    + eapply (built_new 4 sample_disk); [reflexivity|reflexivity|unfold sample_disk, u64_max; cbn; lia|reflexivity].
    + vm_compute. discriminate.
    + vm_compute. reflexivity.
  - vm_compute. reflexivity.
  - repeat constructor; vm_compute; reflexivity.
  - vm_compute. reflexivity.
  - vm_compute. reflexivity.
  - repeat constructor; vm_compute; discriminate.
  - destruct (Hread (str "a/./b.js") (str "hello world") r) as (n & Hn & _ & Hrange & _).
    + apply list_elem_of_In. left. reflexivity.
    + constructor.
    + destruct (Hrange 3 (Some 5)) as [r2 Hr2]; [unfold is_u64; lia|unfold is_u64; lia|].
      exists r, r2. split; [exact Hopen|].
      assert (n = str "a/b.js") as Hn'.
      { apply (Ret_inj (E:=PackageError)). rewrite <- Hn. vm_compute. reflexivity. }
      rewrite <- Hn'. exact Hr2.
Defined.
