(* ===== verification/Opcodes.v ===== *)
(** The record shapes of [engine/crates/frame-wire]: the opcodes of the WebGL
    block ([gl.rs]) and of the Canvas2D block ([canvas2d.rs]), and the
    structural specification each block holds for its opcodes.

    A Rust [match] on opcode constants is a list of arms, tried in order. *)
From S2P Require Import Prelude.

(** * Record specifications ([stream.rs]) *)

Inductive UniformElementKind := Int | Float.

Inductive RecordSpec :=
  | Fixed (word_count : Z) (bool_words : list Z)
  | VectorUniform (element_kind : UniformElementKind)
  | MatrixUniform (element_kind : UniformElementKind) (transpose_word_idx : Z).

#[global] Instance UniformElementKind_eq_dec : EqDecision UniformElementKind.
Proof. solve_decision. Defined.
#[global] Instance RecordSpec_eq_dec : EqDecision RecordSpec.
Proof. solve_decision. Defined.

(** * The WebGL block *)

Definition MAX_STREAM_UNIFORM_WORDS : Z := 512.

Definition OP_VIEWPORT : Z := 1.
Definition OP_CLEAR : Z := 2.
Definition OP_CLEAR_COLOR : Z := 3.
Definition OP_CLEAR_DEPTH : Z := 4.
Definition OP_CLEAR_STENCIL : Z := 5.
Definition OP_ENABLE : Z := 6.
Definition OP_DISABLE : Z := 7.
Definition OP_USE_PROGRAM : Z := 8.
Definition OP_BIND_BUFFER : Z := 9.
Definition OP_BIND_TEXTURE : Z := 10.
Definition OP_ACTIVE_TEXTURE : Z := 11.
Definition OP_BIND_FRAMEBUFFER : Z := 12.
Definition OP_BIND_RENDERBUFFER : Z := 13.
Definition OP_BIND_VERTEX_ARRAY : Z := 14.
Definition OP_BIND_SAMPLER : Z := 15.
Definition OP_ENABLE_VERTEX_ATTRIB_ARRAY : Z := 16.
Definition OP_DISABLE_VERTEX_ATTRIB_ARRAY : Z := 17.
Definition OP_VERTEX_ATTRIB_POINTER : Z := 18.
Definition OP_VERTEX_ATTRIB_DIVISOR : Z := 19.
Definition OP_BLEND_FUNC : Z := 20.
Definition OP_BLEND_FUNC_SEPARATE : Z := 21.
Definition OP_BLEND_EQUATION : Z := 22.
Definition OP_BLEND_EQUATION_SEPARATE : Z := 23.
Definition OP_BLEND_COLOR : Z := 24.
Definition OP_DEPTH_FUNC : Z := 25.
Definition OP_DEPTH_MASK : Z := 26.
Definition OP_DEPTH_RANGE : Z := 27.
Definition OP_STENCIL_FUNC : Z := 28.
Definition OP_STENCIL_FUNC_SEPARATE : Z := 29.
Definition OP_STENCIL_OP : Z := 30.
Definition OP_STENCIL_OP_SEPARATE : Z := 31.
Definition OP_STENCIL_MASK : Z := 32.
Definition OP_STENCIL_MASK_SEPARATE : Z := 33.
Definition OP_CULL_FACE : Z := 34.
Definition OP_FRONT_FACE : Z := 35.
Definition OP_COLOR_MASK : Z := 36.
Definition OP_SCISSOR : Z := 37.
Definition OP_LINE_WIDTH : Z := 38.
Definition OP_POLYGON_OFFSET : Z := 39.
Definition OP_TEX_PARAMETER_I : Z := 40.
Definition OP_TEX_PARAMETER_F : Z := 41.
Definition OP_GENERATE_MIPMAP : Z := 42.
Definition OP_PIXEL_STORE_I : Z := 43.
Definition OP_HINT : Z := 44.
Definition OP_SAMPLER_PARAMETER_I : Z := 45.
Definition OP_SAMPLER_PARAMETER_F : Z := 46.
Definition OP_DRAW_ARRAYS : Z := 47.
Definition OP_DRAW_ELEMENTS : Z := 48.
Definition OP_DRAW_ARRAYS_INSTANCED : Z := 49.
Definition OP_DRAW_ELEMENTS_INSTANCED : Z := 50.
Definition OP_BIND_BUFFER_BASE : Z := 51.
Definition OP_BIND_BUFFER_RANGE : Z := 52.
Definition OP_READ_BUFFER : Z := 53.
Definition OP_UNIFORM1I : Z := 54.
Definition OP_UNIFORM1F : Z := 55.
Definition OP_UNIFORM2F : Z := 56.
Definition OP_UNIFORM3F : Z := 57.
Definition OP_UNIFORM4F : Z := 58.
Definition OP_UNIFORM1IV : Z := 256.
Definition OP_UNIFORM1FV : Z := 257.
Definition OP_UNIFORM2IV : Z := 258.
Definition OP_UNIFORM2FV : Z := 259.
Definition OP_UNIFORM3IV : Z := 260.
Definition OP_UNIFORM3FV : Z := 261.
Definition OP_UNIFORM4IV : Z := 262.
Definition OP_UNIFORM4FV : Z := 263.
Definition OP_UNIFORM_MATRIX2FV : Z := 264.
Definition OP_UNIFORM_MATRIX3FV : Z := 265.
Definition OP_UNIFORM_MATRIX4FV : Z := 266.

(** The arms of the state calls. *)
Definition gl_state_arms : list (Z * RecordSpec) := [
  (OP_VIEWPORT, Fixed 6 []);
  (OP_CLEAR, Fixed 3 []);
  (OP_CLEAR_COLOR, Fixed 6 []);
  (OP_CLEAR_DEPTH, Fixed 3 []);
  (OP_CLEAR_STENCIL, Fixed 3 []);
  (OP_ENABLE, Fixed 3 []);
  (OP_DISABLE, Fixed 3 []);
  (OP_USE_PROGRAM, Fixed 3 []);
  (OP_BIND_BUFFER, Fixed 4 []);
  (OP_BIND_TEXTURE, Fixed 4 []);
  (OP_ACTIVE_TEXTURE, Fixed 3 []);
  (OP_BIND_FRAMEBUFFER, Fixed 4 []);
  (OP_BIND_RENDERBUFFER, Fixed 4 []);
  (OP_BIND_VERTEX_ARRAY, Fixed 3 []);
  (OP_BIND_SAMPLER, Fixed 4 []);
  (OP_ENABLE_VERTEX_ATTRIB_ARRAY, Fixed 3 []);
  (OP_DISABLE_VERTEX_ATTRIB_ARRAY, Fixed 3 []);
  (OP_VERTEX_ATTRIB_POINTER, Fixed 8 [5]);
  (OP_VERTEX_ATTRIB_DIVISOR, Fixed 4 []);
  (OP_BLEND_FUNC, Fixed 4 []);
  (OP_BLEND_FUNC_SEPARATE, Fixed 6 []);
  (OP_BLEND_EQUATION, Fixed 3 []);
  (OP_BLEND_EQUATION_SEPARATE, Fixed 4 []);
  (OP_BLEND_COLOR, Fixed 6 []);
  (OP_DEPTH_FUNC, Fixed 3 []);
  (OP_DEPTH_MASK, Fixed 3 [2]);
  (OP_DEPTH_RANGE, Fixed 4 []);
  (OP_STENCIL_FUNC, Fixed 5 []);
  (OP_STENCIL_FUNC_SEPARATE, Fixed 6 []);
  (OP_STENCIL_OP, Fixed 5 []);
  (OP_STENCIL_OP_SEPARATE, Fixed 6 []);
  (OP_STENCIL_MASK, Fixed 3 []);
  (OP_STENCIL_MASK_SEPARATE, Fixed 4 [])].

(** The arms of the rest of the fixed block. *)
Definition gl_draw_arms : list (Z * RecordSpec) := [
  (OP_CULL_FACE, Fixed 3 []);
  (OP_FRONT_FACE, Fixed 3 []);
  (OP_COLOR_MASK, Fixed 6 [2; 3; 4; 5]);
  (OP_SCISSOR, Fixed 6 []);
  (OP_LINE_WIDTH, Fixed 3 []);
  (OP_POLYGON_OFFSET, Fixed 4 []);
  (OP_TEX_PARAMETER_I, Fixed 5 []);
  (OP_TEX_PARAMETER_F, Fixed 5 []);
  (OP_GENERATE_MIPMAP, Fixed 3 []);
  (OP_PIXEL_STORE_I, Fixed 4 []);
  (OP_HINT, Fixed 4 []);
  (OP_SAMPLER_PARAMETER_I, Fixed 4 []);
  (OP_SAMPLER_PARAMETER_F, Fixed 4 []);
  (OP_DRAW_ARRAYS, Fixed 5 []);
  (OP_DRAW_ELEMENTS, Fixed 6 []);
  (OP_DRAW_ARRAYS_INSTANCED, Fixed 6 []);
  (OP_DRAW_ELEMENTS_INSTANCED, Fixed 7 []);
  (OP_BIND_BUFFER_BASE, Fixed 5 []);
  (OP_BIND_BUFFER_RANGE, Fixed 7 []);
  (OP_READ_BUFFER, Fixed 3 []);
  (OP_UNIFORM1I, Fixed 4 []);
  (OP_UNIFORM1F, Fixed 4 []);
  (OP_UNIFORM2F, Fixed 5 []);
  (OP_UNIFORM3F, Fixed 6 []);
  (OP_UNIFORM4F, Fixed 7 [])].

(** The arms of the variable block: vector and matrix uniforms. *)
Definition gl_uniform_arms : list (Z * RecordSpec) := [
  (OP_UNIFORM1IV, VectorUniform Int);
  (OP_UNIFORM1FV, VectorUniform Float);
  (OP_UNIFORM2IV, VectorUniform Int);
  (OP_UNIFORM2FV, VectorUniform Float);
  (OP_UNIFORM3IV, VectorUniform Int);
  (OP_UNIFORM3FV, VectorUniform Float);
  (OP_UNIFORM4IV, VectorUniform Int);
  (OP_UNIFORM4FV, VectorUniform Float);
  (OP_UNIFORM_MATRIX2FV, MatrixUniform Float 3);
  (OP_UNIFORM_MATRIX3FV, MatrixUniform Float 3);
  (OP_UNIFORM_MATRIX4FV, MatrixUniform Float 3)].

(** A [match] on the opcode: the first arm that names it. *)
Fixpoint match_arms {A} (arms : list (Z * A)) (opcode : Z) : option A :=
  match arms with
  | [] => None
  | (op, a) :: arms => if opcode =? op then Some a else match_arms arms opcode
  end.

Definition gl_arms : list (Z * RecordSpec) := gl_state_arms ++ gl_draw_arms ++ gl_uniform_arms.

Definition gl_record_spec (opcode : Z) : option RecordSpec := match_arms gl_arms opcode.

(** * The Canvas2D block *)

Definition OP2D_BASE : Z := 512.
Definition OP2D_SELECT_CANVAS : Z := 512.
Definition OP2D_BEGIN_PATH : Z := 513.
Definition OP2D_CLOSE_PATH : Z := 514.
Definition OP2D_MOVE_TO : Z := 515.
Definition OP2D_LINE_TO : Z := 516.
Definition OP2D_QUADRATIC_CURVE_TO : Z := 517.
Definition OP2D_BEZIER_CURVE_TO : Z := 518.
Definition OP2D_ARC : Z := 519.
Definition OP2D_ARC_TO : Z := 520.
Definition OP2D_RECT : Z := 521.
Definition OP2D_ELLIPSE : Z := 522.
Definition OP2D_FILL : Z := 523.
Definition OP2D_STROKE : Z := 524.
Definition OP2D_CLIP : Z := 525.
Definition OP2D_FILL_RECT : Z := 526.
Definition OP2D_STROKE_RECT : Z := 527.
Definition OP2D_CLEAR_RECT : Z := 528.
Definition OP2D_SAVE : Z := 529.
Definition OP2D_RESTORE : Z := 530.
Definition OP2D_SET_TRANSFORM : Z := 531.
Definition OP2D_RESET_TRANSFORM : Z := 532.
Definition OP2D_TRANSLATE : Z := 533.
Definition OP2D_ROTATE : Z := 534.
Definition OP2D_SCALE : Z := 535.
Definition OP2D_SET_LINE_WIDTH : Z := 536.
Definition OP2D_SET_GLOBAL_ALPHA : Z := 537.
Definition OP2D_SET_MITER_LIMIT : Z := 538.
Definition OP2D_SET_LINE_DASH_OFFSET : Z := 539.
Definition OP2D_SET_SHADOW_BLUR : Z := 540.
Definition OP2D_SET_SHADOW_OFFSET_X : Z := 541.
Definition OP2D_SET_SHADOW_OFFSET_Y : Z := 542.
Definition OP2D_SET_LINE_CAP : Z := 543.
Definition OP2D_SET_LINE_JOIN : Z := 544.
Definition OP2D_SET_COMPOSITE_OPERATION : Z := 545.
Definition OP2D_SET_FILL_STYLE : Z := 546.
Definition OP2D_SET_STROKE_STYLE : Z := 547.
Definition OP2D_SET_SHADOW_COLOR : Z := 548.
Definition OP2D_END : Z := 549.

Definition canvas2d_arms : list (Z * (Z * list Z)) := [
  (OP2D_SELECT_CANVAS, (2, []));
  (OP2D_BEGIN_PATH, (1, []));
  (OP2D_CLOSE_PATH, (1, []));
  (OP2D_MOVE_TO, (3, []));
  (OP2D_LINE_TO, (3, []));
  (OP2D_QUADRATIC_CURVE_TO, (5, []));
  (OP2D_BEZIER_CURVE_TO, (7, []));
  (OP2D_ARC, (7, [6]));
  (OP2D_ARC_TO, (6, []));
  (OP2D_RECT, (5, []));
  (OP2D_ELLIPSE, (9, [8]));
  (OP2D_FILL, (1, []));
  (OP2D_STROKE, (1, []));
  (OP2D_CLIP, (1, []));
  (OP2D_FILL_RECT, (5, []));
  (OP2D_STROKE_RECT, (5, []));
  (OP2D_CLEAR_RECT, (5, []));
  (OP2D_SAVE, (1, []));
  (OP2D_RESTORE, (1, []));
  (OP2D_RESET_TRANSFORM, (1, []));
  (OP2D_SET_TRANSFORM, (7, []));
  (OP2D_TRANSLATE, (3, []));
  (OP2D_SCALE, (3, []));
  (OP2D_ROTATE, (2, []));
  (OP2D_SET_LINE_WIDTH, (2, []));
  (OP2D_SET_GLOBAL_ALPHA, (2, []));
  (OP2D_SET_MITER_LIMIT, (2, []));
  (OP2D_SET_LINE_DASH_OFFSET, (2, []));
  (OP2D_SET_SHADOW_BLUR, (2, []));
  (OP2D_SET_SHADOW_OFFSET_X, (2, []));
  (OP2D_SET_SHADOW_OFFSET_Y, (2, []));
  (OP2D_SET_LINE_CAP, (2, []));
  (OP2D_SET_LINE_JOIN, (2, []));
  (OP2D_SET_COMPOSITE_OPERATION, (2, []));
  (OP2D_SET_FILL_STYLE, (5, []));
  (OP2D_SET_STROKE_STYLE, (5, []));
  (OP2D_SET_SHADOW_COLOR, (5, []))].

Definition canvas2d_record_spec (opcode : Z) : option RecordSpec :=
  match match_arms canvas2d_arms opcode with
  | Some (word_count, bool_words) => Some (Fixed word_count bool_words)
  | None => None
  end.

(** * Routing ([stream.rs]) *)

Definition record_spec (opcode : Z) : option RecordSpec :=
  if OP2D_BASE <=? opcode then canvas2d_record_spec opcode else gl_record_spec opcode.

(** * Lemmas *)

Lemma match_arms_in {A} (arms : list (Z * A)) op a :
  match_arms arms op = Some a → (op, a) ∈ arms.
Proof.
  induction arms as [|[o b] arms IH]; [done|]. cbn [match_arms].
  destruct (op =? o) eqn:E; intros H.
  - apply Z.eqb_eq in E as ->. injection H as ->. by left.
  - right. auto.
Qed.

Lemma in_match_arms {A} (arms : list (Z * A)) op a :
  NoDup (map fst arms) → (op, a) ∈ arms → match_arms arms op = Some a.
Proof.
  induction arms as [|[o b] arms IH]; [by intros _ ?%elem_of_nil|].
  cbn [map fst match_arms]. intros [Hn Hd]%NoDup_cons Hin.
  apply elem_of_cons in Hin as [[= -> ->]|Hin]; [by rewrite Z.eqb_refl|].
  destruct (op =? o) eqn:E; [|auto]. apply Z.eqb_eq in E as ->.
  destruct Hn. apply list_elem_of_fmap. by exists (o, a).
Qed.

Lemma match_arms_none {A} (arms : list (Z * A)) op :
  match_arms arms op = None → ¬ (op ∈ map fst arms).
Proof.
  induction arms as [|[o b] arms IH]; cbn [match_arms map fst].
  { intros _ ?%elem_of_nil. done. }
  destruct (op =? o) eqn:E; intros H; [done|]. apply Z.eqb_neq in E.
  intros [->|Hin]%elem_of_cons; [done|]. by apply IH.
Qed.

(** Every arm of both blocks, with its specification. *)
Definition all_specs : list (Z * RecordSpec) :=
  gl_arms ++ map (λ '(op, (wc, bws)), (op, Fixed wc bws)) canvas2d_arms.

Lemma record_spec_in op spec : record_spec op = Some spec → (op, spec) ∈ all_specs.
Proof.
  unfold record_spec, all_specs, gl_record_spec, canvas2d_record_spec. intros H.
  apply elem_of_app. destruct (OP2D_BASE <=? op).
  - destruct (match_arms canvas2d_arms op) as [[wc bws]|] eqn:E; [|done].
    injection H as <-. right. apply match_arms_in in E.
    apply list_elem_of_fmap. by exists (op, (wc, bws)).
  - left. by apply match_arms_in.
Qed.

(** A decidable fact of every arm is a fact of every specification. *)
Lemma record_spec_forall (P : Z → RecordSpec → bool) :
  forallb (λ '(op, spec), P op spec) all_specs = true →
  ∀ op spec, record_spec op = Some spec → P op spec = true.
Proof.
  intros H op spec Hs%record_spec_in. rewrite forallb_forall in H.
  apply list_elem_of_In in Hs. exact (H _ Hs).
Qed.

(** The positions a specification names lie inside the shortest record it
    allows. *)
Definition spec_positions_ok (spec : RecordSpec) : bool :=
  match spec with
  | Fixed wc bws => (1 <=? wc) && (wc <? 2 ^ 20) && forallb (λ bi, (0 <=? bi) && (bi <? wc)) bws
  | VectorUniform _ => true
  | MatrixUniform _ t => (0 <=? t) && (t <? 4)
  end.

Lemma record_spec_positions op spec : record_spec op = Some spec → spec_positions_ok spec = true.
Proof. apply (record_spec_forall (λ _ spec, spec_positions_ok spec)). by vm_compute. Qed.

(** The opcodes the two documents number. *)
Definition opcode_known (op : Z) : bool :=
  ((1 <=? op) && (op <=? 58)) || ((256 <=? op) && (op <=? 266))
  || ((OP2D_BASE <=? op) && (op <? OP2D_END)).

(** * Properties *)

(** The two blocks partition the opcodes.  An opcode has a record shape
    exactly when it is a WebGL opcode (1..=58 fixed, 256..=266 variable) or a
    Canvas2D opcode ([OP2D_BASE..OP2D_END]); no two arms name the same opcode;
    an opcode of one block never gets the other block's shape; every opcode
    fits the twelve bits of a record header. *)
Theorem record_spec_partition :
  (∀ op, is_Some (record_spec op) ↔
    1 ≤ op ≤ 58 ∨ 256 ≤ op ≤ 266 ∨ OP2D_BASE ≤ op < OP2D_END) ∧
  NoDup (map fst all_specs) ∧
  (∀ op spec, gl_record_spec op = Some spec → op < OP2D_BASE ∧ record_spec op = Some spec) ∧
  (∀ op spec, canvas2d_record_spec op = Some spec → OP2D_BASE ≤ op ∧ record_spec op = Some spec) ∧
  (∀ op spec, record_spec op = Some spec → 0 ≤ op < 2 ^ 12).
Proof.
  split_and!.
  - intros op. split.
    + intros [spec Hs]. pose proof (record_spec_forall (λ op _, opcode_known op)) as H.
      specialize (H ltac:(by vm_compute) _ _ Hs). unfold opcode_known in H.
      rewrite !orb_true_iff, !andb_true_iff, !Z.leb_le, Z.ltb_lt in H. unfold OP2D_BASE, OP2D_END in *. lia.
    + intros Hop.
      assert (Forall (λ op, is_Some (record_spec op)) (seqZ 1 58 ++ seqZ 256 11 ++ seqZ 512 37)) as Hall.
      { apply (bool_decide_unpack _). by vm_compute. }
      rewrite Forall_forall in Hall. apply Hall. rewrite !elem_of_app, !elem_of_seqZ.
      unfold OP2D_BASE, OP2D_END in Hop. lia.
  - apply (bool_decide_unpack _). by vm_compute.
  - intros op spec Hs.
    pose proof (match_arms_in _ _ _ Hs) as Hin%list_elem_of_In.
    assert (op < OP2D_BASE) as Hlt.
    { apply Z.ltb_lt.
      assert (forallb (λ '(op, _), op <? OP2D_BASE) gl_arms = true) as H by by vm_compute.
      rewrite forallb_forall in H. exact (H _ Hin). }
    split; [done|]. unfold record_spec. by rewrite (proj2 (Z.leb_gt _ _)).
  - intros op spec Hs.
    assert (OP2D_BASE ≤ op) as Hle.
    { unfold canvas2d_record_spec in Hs.
      destruct (match_arms canvas2d_arms op) as [a|] eqn:E; [|done].
      apply match_arms_in, list_elem_of_In in E. apply Z.leb_le.
      assert (forallb (λ '(op, _), OP2D_BASE <=? op) canvas2d_arms = true) as H by by vm_compute.
      rewrite forallb_forall in H. exact (H _ E). }
    split; [done|]. unfold record_spec. by rewrite (proj2 (Z.leb_le _ _)).
  - intros op spec Hs. pose proof (record_spec_forall (λ op _, (0 <=? op) && (op <? 2 ^ 12))) as H.
    specialize (H ltac:(by vm_compute) _ _ Hs). cbv beta in H. bool_to_prop. lia.
Qed.
