(* ===== verification/Stream.v ===== *)
(** The record envelope of [engine/crates/frame-wire] ([stream.rs]): the record
    header codec and pass one of the decoder, [validate_stream].

    [record_wf] is the abstract specification of one record.  The theorems say
    that pass one accepts a word sequence exactly when it is the magic, the
    version and a run of well-formed records, and that the run is unique. *)
From S2P Require Import Prelude Opcodes.

(** * The record header *)

Definition MAGIC : Z := 0x4D474C31.
Definition STREAM_VERSION : Z := 1.

(** [<<] on a [u32] drops the bits shifted out. *)
Definition pack_header (opcode word_count : Z) : Z :=
  Z.lor (Z.shiftl word_count 12 mod 2 ^ 32) (Z.land opcode 0xFFF).
Definition opcode_of (h : Z) : Z := Z.land h 0xFFF.
Definition word_count_of (h : Z) : Z := Z.shiftr h 12.

(** * Errors *)

Inductive StreamError :=
  | TooShort
  | BadMagic
  | BadVersion
  | UsedTooLarge
  | ZeroWordCount
  | UnknownOpcode (opcode : Z)
  | BadArity
  | Truncated
  | Overflow
  | BadBool
  | UniformPayloadTooLarge.

#[global] Instance StreamError_eq_dec : EqDecision StreamError.
Proof. solve_decision. Defined.

Definition StreamError_code (e : StreamError) : Z :=
  match e with
  | TooShort => 1
  | BadMagic => 2
  | BadVersion => 3
  | UsedTooLarge => 4
  | ZeroWordCount => 5
  | UnknownOpcode _ => 6
  | BadArity => 7
  | Truncated => 8
  | BadBool => 10
  | UniformPayloadTooLarge => 11
  | Overflow => 12
  end.

(** * Pass one *)

Record ValidatedStream := { words : list Z }.

(** [for &bi in bool_words]. *)
Fixpoint check_bool_words (ws : list Z) (cursor : Z) (bool_words : list Z) :
    outcome StreamError unit :=
  match bool_words with
  | [] => mret tt
  | bi :: bool_words =>
      val ← ok_or (ws !! Z.to_nat (cursor + bi)) Truncated;
      if 1 <? val then Fail BadBool else check_bool_words ws cursor bool_words
  end.

(** The [match spec]. *)
Definition check_record (ws : list Z) (cursor wc : Z) (spec : RecordSpec) :
    outcome StreamError unit :=
  match spec with
  | Fixed word_count bool_words =>
      if negb (wc =? word_count) then Fail BadArity
      else check_bool_words ws cursor bool_words
  | VectorUniform _ =>
      if wc <? 3 then Fail BadArity else
      let payload_words := wc - 3 in
      if MAX_STREAM_UNIFORM_WORDS <? payload_words then Fail UniformPayloadTooLarge else mret tt
  | MatrixUniform _ transpose_word_idx =>
      if wc <? 4 then Fail BadArity else
      let payload_words := wc - 4 in
      if MAX_STREAM_UNIFORM_WORDS <? payload_words then Fail UniformPayloadTooLarge else
      t_val ← ok_or (ws !! Z.to_nat (cursor + transpose_word_idx)) Truncated;
      if 1 <? t_val then Fail BadBool else mret tt
  end.

(** One iteration of the record walk: the cursor of the next record. *)
Definition walk_record (ws : list Z) (used cursor : Z) : outcome StreamError Z :=
  header ← ok_or (ws !! Z.to_nat cursor) Truncated;
  let opcode := opcode_of header in
  let wc := word_count_of header in
  if wc =? 0 then Fail ZeroWordCount else
  record_end ← ok_or (usize_checked_add cursor wc) Overflow;
  if used <? record_end then Fail Truncated else
  spec ← ok_or (record_spec opcode) (UnknownOpcode opcode);
  _ ← check_record ws cursor wc spec;
  mret record_end.

(** The loop.  A record is at least one word, so [used] iterations are enough. *)
Fixpoint walk_records (fuel : nat) (ws : list Z) (used cursor : Z) : outcome StreamError Z :=
  if used <=? cursor then mret cursor else
  match fuel with
  | O => OutOfFuel
  | S fuel =>
      record_end ← walk_record ws used cursor;
      walk_records fuel ws used record_end
  end.

Definition validate_stream (ws : list Z) (used_words : Z) : outcome StreamError ValidatedStream :=
  if used_words <? 2 then Fail TooShort else
  let max_used := Z.min (lenZ ws) 8192 in
  if max_used <? used_words then Fail UsedTooLarge else
  w0 ← ok_or (ws !! 0%nat) TooShort;
  if negb (w0 =? MAGIC) then Fail BadMagic else
  w1 ← ok_or (ws !! 1%nat) TooShort;
  if negb (w1 =? STREAM_VERSION) then Fail BadVersion else
  cursor ← walk_records (Z.to_nat used_words) ws used_words 2;
  (* the [debug_assert_eq!] *)
  if negb (cursor =? used_words) then Panic else
  used ← slice ws 0 used_words;
  mret {| words := used |}.

(** * The specification of a record *)

(** The words of a record have the shape its specification asks for. *)
Definition shape_ok (spec : RecordSpec) (r : list Z) : bool :=
  let bool_at bi := match r !! Z.to_nat bi with Some v => v <=? 1 | None => false end in
  match spec with
  | Fixed word_count bool_words => (lenZ r =? word_count) && forallb bool_at bool_words
  | VectorUniform _ => (3 <=? lenZ r) && (lenZ r - 3 <=? MAX_STREAM_UNIFORM_WORDS)
  | MatrixUniform _ t =>
      (4 <=? lenZ r) && (lenZ r - 4 <=? MAX_STREAM_UNIFORM_WORDS) && bool_at t
  end.

(** A well-formed record: its header names its own length and a known opcode,
    whose specification it meets. *)
Definition record_ok (r : list Z) : bool :=
  match r with
  | [] => false
  | h :: _ =>
      (word_count_of h =? lenZ r) &&
      match record_spec (opcode_of h) with
      | Some spec => shape_ok spec r
      | None => false
      end
  end.
Definition record_wf (r : list Z) : Prop := record_ok r = true.

(** The words a run of records stands for. *)
Definition stream_of (records : list (list Z)) : list Z :=
  MAGIC :: STREAM_VERSION :: concat records.

(** * Lemmas *)

Lemma lookup_mid {A} (p r s : list A) cursor i :
  cursor = lenZ p → 0 ≤ i → i < lenZ r →
  (p ++ r ++ s) !! Z.to_nat (cursor + i) = r !! Z.to_nat i.
Proof.
  intros -> ??. rewrite lookup_app_r by lia. rewrite lookup_app_l by lia.
  f_equal. lia.
Qed.

Lemma check_bool_words_spec p r s cursor bws :
  cursor = lenZ p → forallb (λ bi, (0 <=? bi) && (bi <? lenZ r)) bws = true →
  check_bool_words (p ++ r ++ s) cursor bws = Ret tt ↔
  forallb (λ bi, match r !! Z.to_nat bi with Some v => v <=? 1 | None => false end) bws = true.
Proof.
  intros Hc. induction bws as [|bi bws IH]; cbn [check_bool_words forallb]; [done|].
  intros H. bool_to_prop. rewrite lookup_mid by done.
  destruct (lookup_lt_is_Some_2 r (Z.to_nat bi)) as [v Hv]; [lia|]. rewrite Hv.
  cbn [ok_or mbind outcome_bind]. rewrite andb_true_iff, <- IH by done.
  destruct (1 <? v) eqn:E; bool_to_prop.
  - split; [done|]. intros [? _]. bool_to_prop. lia.
  - rewrite (proj2 (Z.leb_le v 1)) by lia. naive_solver.
Qed.

Lemma check_record_spec p r s cursor spec :
  cursor = lenZ p → spec_positions_ok spec = true →
  check_record (p ++ r ++ s) cursor (lenZ r) spec = Ret tt ↔ shape_ok spec r = true.
Proof.
  intros Hc Hpos. destruct spec as [wc bws|k|k t]; cbn [check_record shape_ok spec_positions_ok] in *.
  - destruct (lenZ r =? wc) eqn:E; cbn [negb andb]; [|done]. bool_to_prop. subst wc.
    by apply check_bool_words_spec.
  - destruct (lenZ r <? 3) eqn:E; bool_to_prop.
    { rewrite (proj2 (Z.leb_gt 3 _)) by lia. done. }
    rewrite (proj2 (Z.leb_le 3 _)) by lia. cbn [andb]. rewrite Z.leb_antisym.
    by destruct (_ <? _).
  - destruct (lenZ r <? 4) eqn:E; bool_to_prop.
    { rewrite (proj2 (Z.leb_gt 4 _)) by lia. done. }
    rewrite (proj2 (Z.leb_le 4 _)) by lia. cbn [andb]. rewrite Z.leb_antisym.
    destruct (_ <? lenZ r - 4); [done|]. cbn [andb negb].
    rewrite lookup_mid by (done || lia).
    destruct (lookup_lt_is_Some_2 r (Z.to_nat t)) as [v Hv]; [lia|]. rewrite Hv.
    cbn [ok_or mbind outcome_bind]. rewrite Z.leb_antisym. by destruct (1 <? v).
Qed.

(** A sequence splits around a range. *)
Lemma split_at {A} (l : list A) a b :
  0 ≤ a → a ≤ b → b ≤ lenZ l →
  ∃ p s, l = p ++ sub l a b ++ s ∧ lenZ p = a ∧ lenZ (sub l a b) = b - a.
Proof.
  intros. exists (sub l 0 a), (sub l b (lenZ l)).
  rewrite <- !sub_app_split, sub_all, !length_sub by lia.
  split_and!; [done|lia|done].
Qed.

Lemma sub_cons_lookup {A} (l : list A) a b x :
  0 ≤ a → a < b → b ≤ lenZ l → l !! Z.to_nat a = Some x → ∃ t, sub l a b = x :: t.
Proof.
  intros ??? Hx. unfold sub.
  rewrite (drop_S _ _ _ Hx). replace (Z.to_nat (b - a)) with (S (Z.to_nat (b - a - 1))) by lia.
  cbn [take]. eauto.
Qed.

Lemma word_count_of_nonneg h : is_u32 h → 0 ≤ word_count_of h.
Proof. unfold is_u32, word_count_of. intros. apply Z.shiftr_nonneg. lia. Qed.

Lemma lookup_u32 ws i h : Forall is_u32 ws → ws !! i = Some h → is_u32 h.
Proof. intros HF Hl. rewrite Forall_lookup in HF. eauto. Qed.

Lemma walk_record_inv ws used cursor c' :
  Forall is_u32 ws → 0 ≤ cursor → used ≤ lenZ ws →
  walk_record ws used cursor = Ret c' →
  cursor < c' ∧ c' ≤ used ∧ record_wf (sub ws cursor c').
Proof.
  intros HF ?? H. unfold walk_record in H. inv_outcome.
  match goal with E : ws !! _ = Some ?x |- _ => rename x into h; rename E into Hh end.
  pose proof (word_count_of_nonneg h (lookup_u32 _ _ _ HF Hh)).
  match goal with E : record_spec _ = Some ?x |- _ => rename x into spec; rename E into Hs end.
  match goal with E : check_record _ _ _ _ = Ret ?u |- _ => destruct u; rename E into Hc end.
  unfold usize_checked_add in *. bool_to_prop.
  apply Ret_inj in H as ->.
  match goal with E : (if ?b then _ else _) = Some c' |- _ =>
    destruct b; [injection E as <-|done] end.
  split_and!; [lia|lia|].
  destruct (split_at ws cursor (cursor + word_count_of h)) as (p & s & Hws & Hp & Hr); [lia..|].
  destruct (sub_cons_lookup ws cursor (cursor + word_count_of h) h) as [t Ht]; [lia..|done|].
  unfold record_wf, record_ok. rewrite Ht, <- Ht, Hr, Hs.
  replace (cursor + word_count_of h - cursor) with (word_count_of h) in * by lia.
  rewrite Z.eqb_refl. cbn [andb]. apply (check_record_spec p _ s cursor).
  - done.
  - by apply (record_spec_positions (opcode_of h)).
  - rewrite <- Hws, Hr. done.
Qed.

Lemma walk_record_ret p r s used cursor :
  cursor = lenZ p → record_wf r → cursor + lenZ r ≤ used → used ≤ u64_max →
  walk_record (p ++ r ++ s) used cursor = Ret (cursor + lenZ r).
Proof.
  intros Hc Hr ??. unfold record_wf, record_ok in Hr. destruct r as [|h t]; [done|].
  apply andb_true_iff in Hr as [Hwc Hs]. apply Z.eqb_eq in Hwc.
  destruct (record_spec (opcode_of h)) as [spec|] eqn:Espec; [|done].
  unfold walk_record.
  pose proof (lookup_mid p (h :: t) s cursor 0 Hc) as Hl. rewrite Z.add_0_r in Hl.
  rewrite Hl by (cbn [length]; lia).
  change ((h :: t) !! Z.to_nat 0) with (Some h). cbn [ok_or mbind outcome_bind].
  rewrite Hwc. rewrite (proj2 (Z.eqb_neq (lenZ (h :: t)) 0)) by (cbn [length]; lia).
  unfold usize_checked_add. rewrite (proj2 (Z.leb_le _ u64_max)) by lia.
  cbn [ok_or mbind outcome_bind]. rewrite (proj2 (Z.ltb_ge used _)) by lia.
  rewrite Espec. cbn [ok_or mbind outcome_bind].
  rewrite (proj2 (check_record_spec p (h :: t) s cursor spec Hc
             (record_spec_positions _ _ Espec)) Hs). done.
Qed.

Lemma walk_records_inv fuel ws used cursor c' :
  Forall is_u32 ws → 0 ≤ cursor → cursor ≤ used → used ≤ lenZ ws →
  walk_records fuel ws used cursor = Ret c' →
  c' = used ∧ ∃ rs, Forall record_wf rs ∧ sub ws cursor used = concat rs.
Proof.
  intros HF. revert cursor. induction fuel as [|fuel IH]; intros cursor ??? H;
    cbn [walk_records] in H; destruct (used <=? cursor) eqn:E; bool_to_prop; try done.
  1,2: assert (cursor = used) by lia; subst cursor; apply Ret_inj in H as <-; split; [done|];
    exists []; split; [done|]; unfold sub; by rewrite Z.sub_diag.
  destruct (walk_record ws used cursor) as [c| | |] eqn:Ew; try done.
  apply walk_record_inv in Ew as (?&?&Hwf); [|done..].
  destruct (IH c) as (-> & rs & Hrs & Hsub); [lia..|done|].
  split; [done|]. exists (sub ws cursor c :: rs). split; [by constructor|].
  cbn [concat]. rewrite <- Hsub. apply sub_app_split; lia.
Qed.

Lemma record_wf_nonempty r : record_wf r → 1 ≤ lenZ r.
Proof. destruct r; [done|]. cbn [length]. lia. Qed.

Lemma walk_records_ret fuel p rs s used :
  Forall record_wf rs → used = lenZ p + lenZ (concat rs) → used ≤ u64_max →
  (length (concat rs) ≤ fuel)%nat →
  walk_records fuel (p ++ concat rs ++ s) used (lenZ p) = Ret used.
Proof.
  intros Hrs. revert p fuel. induction Hrs as [|r rs Hr Hrs IH]; intros p fuel Hu ? Hf.
  { cbn [concat length] in *. destruct fuel; cbn [walk_records];
      rewrite (proj2 (Z.leb_le used _)) by lia; f_equal; lia. }
  pose proof (record_wf_nonempty r Hr). cbn [concat] in *. rewrite length_app in *.
  destruct fuel as [|fuel]; [lia|]. cbn [walk_records].
  rewrite (proj2 (Z.leb_gt used _)) by lia. rewrite <- app_assoc.
  rewrite (walk_record_ret p r) by (done || lia). cbn [mbind outcome_bind].
  rewrite app_assoc. replace (lenZ p + lenZ r) with (lenZ (p ++ r)) by (rewrite length_app; lia).
  apply IH; [rewrite length_app; lia|done|lia].
Qed.

Lemma check_record_safe ws cursor wc spec : safe (check_record ws cursor wc spec).
Proof.
  destruct spec as [n bws|k|k t]; cbn [check_record].
  - destruct (negb _); [done|]. induction bws as [|bi bws IH]; cbn [check_bool_words]; [done|].
    apply safe_bind; [apply safe_ok_or|]. intros v _. by destruct (1 <? v).
  - destruct (_ <? 3); [done|]. by destruct (_ <? _).
  - destruct (_ <? 4); [done|]. destruct (_ <? _); [done|].
    apply safe_bind; [apply safe_ok_or|]. intros v _. by destruct (1 <? v).
Qed.

Lemma walk_record_safe ws used cursor : safe (walk_record ws used cursor).
Proof.
  unfold walk_record. apply safe_bind; [apply safe_ok_or|]. intros h _.
  destruct (_ =? 0); [done|]. apply safe_bind; [apply safe_ok_or|]. intros e _.
  destruct (_ <? _); [done|]. apply safe_bind; [apply safe_ok_or|]. intros spec _.
  apply safe_bind; [apply check_record_safe|]. done.
Qed.

Lemma walk_records_safe fuel ws used cursor :
  Forall is_u32 ws → 0 ≤ cursor → used ≤ lenZ ws → used - cursor ≤ Z.of_nat fuel →
  safe (walk_records fuel ws used cursor).
Proof.
  intros HF. revert cursor. induction fuel as [|fuel IH]; intros cursor ???;
    cbn [walk_records]; destruct (used <=? cursor) eqn:E; bool_to_prop; try done; [lia|].
  apply safe_bind; [apply walk_record_safe|]. intros c Hc.
  apply walk_record_inv in Hc as (?&?&_); [|done..]. apply IH; lia.
Qed.

(** What pass one accepts, from the walk. *)
Lemma validate_stream_inv ws used v :
  Forall is_u32 ws → validate_stream ws used = Ret v →
  ∃ rs, Forall record_wf rs ∧ words v = stream_of rs ∧ words v = take (Z.to_nat used) ws ∧
        2 ≤ used ≤ 8192 ∧ used ≤ lenZ ws.
Proof.
  intros HF H. unfold validate_stream in H. inv_outcome. bool_to_prop. subst.
  match goal with E : walk_records _ _ _ _ = Ret _ |- _ =>
    apply walk_records_inv in E as (_ & rs & Hrs & Hsub); [|done|lia..] end.
  apply Ret_inj in H as <-.
  match goal with E : slice _ _ _ = Ret _ |- _ => apply slice_inv in E as (_ & _ & _ & ->) end.
  cbn [words].
  exists rs. split_and!; [done| |unfold sub; rewrite drop_0; f_equal; lia|lia..].
  rewrite (sub_app_split ws 0 2) by lia. rewrite Hsub. unfold stream_of.
  destruct ws as [|a [|b ws]]; try done.
  repeat match goal with E : (_ :: _) !! _ = Some _ |- _ => cbn in E; injection E as -> end.
  done.
Qed.

Lemma validate_stream_ret rs s :
  Forall record_wf rs → lenZ (stream_of rs) ≤ 8192 →
  validate_stream (stream_of rs ++ s) (lenZ (stream_of rs)) = Ret {| words := stream_of rs |}.
Proof.
  intros Hrs Hlen. unfold validate_stream.
  assert (lenZ (stream_of rs) = 2 + lenZ (concat rs)) as Hl
    by (unfold stream_of; cbn [length]; lia).
  rewrite (proj2 (Z.ltb_ge _ 2)) by lia. cbv zeta.
  rewrite (proj2 (Z.ltb_ge (Z.min _ 8192) _)) by (rewrite length_app; lia).
  change ((stream_of rs ++ s) !! 0%nat) with (Some MAGIC).
  change ((stream_of rs ++ s) !! 1%nat) with (Some STREAM_VERSION).
  cbn [ok_or mbind outcome_bind]. rewrite !Z.eqb_refl. cbn [negb].
  pose proof (walk_records_ret (Z.to_nat (lenZ (stream_of rs))) [MAGIC; STREAM_VERSION] rs s
                (lenZ (stream_of rs)) Hrs) as Hw.
  change ([MAGIC; STREAM_VERSION] ++ concat rs ++ s) with (stream_of rs ++ s) in Hw.
  change (lenZ [MAGIC; STREAM_VERSION]) with 2 in Hw.
  rewrite Hw by (unfold u64_max; lia). cbn [mbind outcome_bind]. rewrite Z.eqb_refl. cbn [negb].
  rewrite slice_ret by (rewrite ?length_app; lia). rewrite sub_app_l by lia.
  by rewrite sub_all.
Qed.

Lemma record_wf_head h t : record_wf (h :: t) → word_count_of h = lenZ (h :: t).
Proof. unfold record_wf, record_ok. intros H. bool_to_prop. done. Qed.

(** The headers delimit the records. *)
Lemma concat_records_inj rs rs' :
  Forall record_wf rs → Forall record_wf rs' → concat rs = concat rs' → rs = rs'.
Proof.
  intros Hrs. revert rs'. induction Hrs as [|r rs Hr Hrs IH]; intros rs' Hrs' Heq.
  { destruct Hrs' as [|r' rs' Hr' _]; [done|]. destruct r'; [done|]. done. }
  destruct Hrs' as [|r' rs' Hr' Hrs']; [by destruct r|]. cbn [concat] in Heq.
  destruct r as [|h t]; [done|]. destruct r' as [|h' t']; [done|].
  assert (h = h') as <- by (by injection Heq).
  assert (length (h :: t) = length (h :: t')) as Hlen.
  { apply record_wf_head in Hr, Hr'. lia. }
  apply app_inj_1 in Heq as [-> Heq]; [|done]. f_equal. auto.
Qed.

Lemma land_fff x : Z.land x 0xFFF = x mod 2 ^ 12.
Proof. change 0xFFF with (Z.ones 12). by rewrite Z.land_ones. Qed.

(** Bits below [n] and bits from [n] up are disjoint. *)
Lemma land_disjoint a b n : 0 ≤ n → 0 ≤ b < 2 ^ n → Z.land (Z.shiftl a n) b = 0.
Proof.
  intros Hn Hb. apply Z.bits_inj'. intros i Hi. rewrite Z.land_spec, Z.bits_0.
  destruct (decide (i < n)).
  - by rewrite Z.shiftl_spec_low.
  - rewrite <- (Z.mod_small b (2 ^ n)) by done.
    rewrite Z.mod_pow2_bits_high by lia. apply andb_false_r.
Qed.

Lemma lor_disjoint_add a b n :
  0 ≤ n → 0 ≤ b < 2 ^ n → Z.lor (Z.shiftl a n) b = a * 2 ^ n + b.
Proof.
  intros Hn Hb. pose proof (land_disjoint a b n Hn Hb).
  rewrite <- Z.shiftl_mul_pow2, Z.add_nocarry_lxor, Z.lxor_lor by done. done.
Qed.

Lemma header_read op wc :
  0 ≤ op < 2 ^ 12 → 0 ≤ wc < 2 ^ 20 →
  opcode_of (pack_header op wc) = op ∧ word_count_of (pack_header op wc) = wc.
Proof.
  unfold pack_header, opcode_of, word_count_of. intros Hop Hwc.
  assert (0 ≤ Z.shiftl wc 12 < 2 ^ 32) as Hs by (rewrite Z.shiftl_mul_pow2 by lia; lia).
  rewrite (Z.mod_small (Z.shiftl wc 12)), (land_fff op), (Z.mod_small op) by done.
  rewrite lor_disjoint_add, land_fff, Z.shiftr_div_pow2 by (done || lia).
  rewrite (Z.add_comm (wc * 2 ^ 12)), Z_mod_plus_full, (Z.mod_small op) by done.
  rewrite Z_div_plus_full, (Z.div_small op) by (done || lia). lia.
Qed.

Lemma header_u32 op wc :
  0 ≤ op < 2 ^ 12 → 0 ≤ wc < 2 ^ 20 → is_u32 (pack_header op wc).
Proof.
  unfold pack_header, is_u32. intros Hop Hwc.
  assert (0 ≤ Z.shiftl wc 12 < 2 ^ 32) as Hs by (rewrite Z.shiftl_mul_pow2 by lia; lia).
  rewrite (Z.mod_small (Z.shiftl wc 12)), (land_fff op), (Z.mod_small op) by done.
  rewrite lor_disjoint_add by (done || lia). lia.
Qed.

Lemma walk_record_no_overflow ws used cursor :
  Forall is_u32 ws → cursor ≤ 8192 → walk_record ws used cursor ≠ Fail Overflow.
Proof.
  intros HF Hc H. unfold walk_record in H.
  destruct (ws !! Z.to_nat cursor) as [h|] eqn:Eh; cbn [ok_or mbind outcome_bind] in H; [|done].
  destruct (_ =? 0); [done|].
  pose proof (lookup_u32 _ _ _ HF Eh) as Hh. unfold is_u32 in Hh.
  assert (word_count_of h < 2 ^ 20) as Hwc.
  { unfold word_count_of. rewrite Z.shiftr_div_pow2 by lia. apply Z.div_lt_upper_bound; lia. }
  unfold usize_checked_add in H. rewrite (proj2 (Z.leb_le _ _)) in H by (unfold u64_max; lia).
  cbn [ok_or mbind outcome_bind] in H. destruct (_ <? _); [done|].
  destruct (record_spec _) as [[n bws|k|k t]|]; cbn [ok_or mbind outcome_bind check_record] in H; [..|done].
  - destruct (negb _); [done|]. induction bws as [|bi bws IH]; cbn [check_bool_words] in H; [done|].
    destruct (ws !! Z.to_nat (cursor + bi)); cbn [ok_or mbind outcome_bind] in H; [|done].
    destruct (1 <? _); [done|]. auto.
  - destruct (_ <? 3); [done|]. by destruct (_ <? _).
  - destruct (_ <? 4); [done|]. destruct (_ <? _); [done|].
    destruct (ws !! Z.to_nat (cursor + t)); cbn [ok_or mbind outcome_bind] in H; [|done].
    by destruct (1 <? _).
Qed.

Lemma walk_records_no_overflow fuel ws used cursor :
  Forall is_u32 ws → 0 ≤ cursor → used ≤ lenZ ws → used ≤ 8192 →
  walk_records fuel ws used cursor ≠ Fail Overflow.
Proof.
  intros HF. revert cursor. induction fuel as [|fuel IH]; intros cursor ???;
    cbn [walk_records]; destruct (used <=? cursor) eqn:E; try done. bool_to_prop.
  pose proof (walk_record_no_overflow ws used cursor HF ltac:(lia)) as Hn.
  destruct (walk_record ws used cursor) as [c|e| |] eqn:Ew; cbn [mbind outcome_bind]; try done.
  apply walk_record_inv in Ew as (?&?&_); [|done..]. apply IH; lia.
Qed.

(** A stream of three records and the words around it. *)
Definition sample_records : list (list Z) := [
  [pack_header OP_CLEAR 3; 7; 16384];
  [pack_header OP2D_BEGIN_PATH 1];
  [pack_header OP_UNIFORM_MATRIX2FV 6; 7; 0; 1; 0; 0]].

Lemma validate_stream_answers ws used :
  Forall is_u32 ws → safe (validate_stream ws used) ∧ validate_stream ws used ≠ Fail Overflow.
Proof.
  intros Hws.
  unfold validate_stream.
  destruct (used <? 2) eqn:E2; [done|]. cbv zeta.
  destruct (Z.min (lenZ ws) 8192 <? used) eqn:Em; [done|]. bool_to_prop.
  destruct ws as [|w0 [|w1 ws]]; [cbn in *; lia..|].
  change ((w0 :: w1 :: ws) !! 0%nat) with (Some w0).
  change ((w0 :: w1 :: ws) !! 1%nat) with (Some w1). cbn [ok_or mbind outcome_bind].
  destruct (negb _); [done|]. destruct (negb _); [done|].
  pose proof (walk_records_safe (Z.to_nat used) (w0 :: w1 :: ws) used 2 Hws ltac:(lia)
                ltac:(lia) ltac:(lia)) as Hsafe.
  pose proof (walk_records_no_overflow (Z.to_nat used) (w0 :: w1 :: ws) used 2 Hws ltac:(lia)
                ltac:(lia) ltac:(lia)) as Hover.
  destruct (walk_records _ _ _ _) as [c|e| |] eqn:Ew; cbn [mbind outcome_bind] in *; try done.
  - apply walk_records_inv in Ew as (-> & _); [|done|lia..]. rewrite Z.eqb_refl. cbn [negb].
    by rewrite slice_ret by lia.
  - split; [done|]. intros [= ->]. done.
Qed.

(** * Properties *)

(** A record header is a code for its opcode and word count: packing any
    opcode of twelve bits and any word count of twenty reads back as both, and
    every [u32] is the header of exactly what it reads as. *)
Theorem header_roundtrip :
  (∀ opcode word_count, 0 ≤ opcode < 2 ^ 12 → 0 ≤ word_count < 2 ^ 20 →
     is_u32 (pack_header opcode word_count) ∧
     opcode_of (pack_header opcode word_count) = opcode ∧
     word_count_of (pack_header opcode word_count) = word_count) ∧
  (∀ h, is_u32 h → pack_header (opcode_of h) (word_count_of h) = h).
Proof.
  split.
  - intros op wc Hop Hwc. split; [by apply header_u32|by apply header_read].
  - unfold is_u32, pack_header, opcode_of, word_count_of.
    intros h Hh. rewrite !land_fff, Zmod_mod, Z.mod_small.
    + rewrite lor_disjoint_add by (lia || apply Z.mod_pos_bound; lia).
      rewrite Z.shiftr_div_pow2 by lia. pose proof (Z.div_mod h (2 ^ 12)). lia.
    + rewrite Z.shiftl_mul_pow2, Z.shiftr_div_pow2 by lia.
      pose proof (Z.mul_div_le h (2 ^ 12)). pose proof (Z.div_pos h (2 ^ 12)). lia.
Qed.

(** C5: pass one accepts exactly the well-formed streams.  [validate_stream]
    answers the first [used] words when they are the magic, the version and a
    run of well-formed records (each header names its record's length and a
    known opcode whose shape, bool words and payload bound it meets) of at most
    8192 words in all, and nothing else; and the run is unique, so the words
    say what the records are. *)
Theorem validate_stream_iff (ws : list Z) (used : Z) (v : ValidatedStream)
    (Hws : Forall is_u32 ws) :
  (validate_stream ws used = Ret v ↔
   ∃ records rest, Forall record_wf records ∧ ws = stream_of records ++ rest ∧
     lenZ (stream_of records) = used ∧ used ≤ 8192 ∧ words v = stream_of records) ∧
  (∀ records records', Forall record_wf records → Forall record_wf records' →
     stream_of records = stream_of records' → records = records').
Proof.
  split; [split|].
  - intros H. destruct (validate_stream_inv _ _ _ Hws H) as (rs & Hrs & Hv & Ht & ? & ?).
    exists rs, (drop (Z.to_nat used) ws). rewrite <- Hv, Ht. split_and!; try done; [| |lia].
    + by rewrite take_drop.
    + rewrite length_take. lia.
  - intros (rs & rest & Hrs & -> & <- & ? & Hv). rewrite validate_stream_ret by done.
    destruct v. cbn [words] in Hv. by subst.
  - intros rs rs' Hrs Hrs' [= Heq]. by apply concat_records_inj.
Qed.

Lemma validate_stream_iff_witness :
  validate_stream (stream_of sample_records ++ [0]) 12 = Ret {| words := stream_of sample_records |}.
Proof.
  apply (validate_stream_iff (stream_of sample_records ++ [0]) 12
           {| words := stream_of sample_records |}).
  - apply (bool_decide_unpack _). by vm_compute.
  - exists sample_records, [0]. split_and!; [|done|done|done|done].
    repeat constructor; by vm_compute.
Defined.

(** C19: pass one answers every input: for any words and any claimed length it
    returns a stream or an error, without a panic (its [debug_assert] on the
    final cursor holds) and within [used] iterations, and the answer is never
    [Overflow], whose check a 64-bit cursor under 8192 cannot trip. *)
Theorem validate_stream_total (ws : list Z) (used : Z) (Hws : Forall is_u32 ws) :
  safe (validate_stream ws used) ∧ validate_stream ws used ≠ Fail Overflow.
Proof. by apply validate_stream_answers. Qed.

Lemma validate_stream_total_witness :
  safe (validate_stream [MAGIC; STREAM_VERSION; 0x1FFF] 3).
Proof.
  apply (validate_stream_total [MAGIC; STREAM_VERSION; 0x1FFF] 3).
  apply (bool_decide_unpack _). by vm_compute.
Defined.

(** Every other error of pass one is the answer to some stream, and no two
    of them (up to the opcode an unknown one carries) share a code. *)
Theorem stream_errors_reachable :
  (∀ e, e ≠ Overflow → (∀ op, e ≠ UnknownOpcode op) →
     ∃ ws used, Forall is_u32 ws ∧ validate_stream ws used = Fail e) ∧
  (∃ ws used, Forall is_u32 ws ∧ validate_stream ws used = Fail (UnknownOpcode 59)) ∧
  (∀ e e', StreamError_code e = StreamError_code e' →
     e = e' ∨ ∃ op op', e = UnknownOpcode op ∧ e' = UnknownOpcode op') ∧
  (∀ e, StreamError_code e ≠ 0).
Proof.
  split_and!.
  - intros e Ho Hu. destruct e; try done.
    + exists [], 0. split; [constructor|done].
    + exists [0; 1], 2. split; [by apply (bool_decide_unpack _)|done].
    + exists [MAGIC; 0], 2. split; [by apply (bool_decide_unpack _); vm_compute|done].
    + exists [MAGIC; 1], 3. split; [by apply (bool_decide_unpack _); vm_compute|done].
    + exists [MAGIC; 1; 0], 3. split; [by apply (bool_decide_unpack _); vm_compute|done].
    + by destruct (Hu opcode).
    + exists [MAGIC; 1; pack_header OP_CLEAR 1], 3.
      split; [by apply (bool_decide_unpack _); vm_compute|done].
    + exists [MAGIC; 1; pack_header OP_CLEAR 3], 3.
      split; [by apply (bool_decide_unpack _); vm_compute|done].
    + exists [MAGIC; 1; pack_header OP_DEPTH_MASK 3; 0; 2], 5.
      split; [by apply (bool_decide_unpack _); vm_compute|done].
    + exists (MAGIC :: 1 :: pack_header OP_UNIFORM1IV 516 :: repeat 0 515), 518.
      split; [by apply (bool_decide_unpack _); vm_compute|done].
  - exists [MAGIC; 1; pack_header 59 1], 3.
    split; [by apply (bool_decide_unpack _); vm_compute|done].
  - intros e e'. destruct e, e'; cbn; try discriminate; eauto.
  - by intros [].
Qed.
