(* ===== verification/Pool.v ===== *)
(** Credits and buffers of [engine/crates/frame-wire] ([pool.rs]).

    [Credits]: the window as a sequential object, and the compare-and-swap loops
    the code runs on it from several threads as a step relation; the window is
    linearisable with the sequential object as its specification.

    [Pool]: the bounded set of idle buffers, which the code changes only under
    its lock, and the frame that holds a buffer and a credit. *)
From S2P Require Import Prelude Wire.

(** * The credit window *)

Module Credits.

Record CreditWindow := { max : Z; in_flight : Z }.

#[global] Instance CreditWindow_eq_dec : EqDecision CreditWindow.
Proof. solve_decision. Defined.

Definition new (max : Z) : CreditWindow := {| max := max; in_flight := 0 |}.
Definition remaining (w : CreditWindow) : Z := u32_saturating_sub (max w) (in_flight w).

(** The two operations when nothing runs between the load and the swap. *)
Definition try_acquire (w : CreditWindow) : bool * CreditWindow :=
  let current := in_flight w in
  if max w <=? current then (false, w)
  else (true, {| max := max w; in_flight := current + 1 |}).

Definition release (w : CreditWindow) : CreditWindow :=
  let current := in_flight w in
  if current =? 0 then w else {| max := max w; in_flight := current - 1 |}.

Definition window_ok (w : CreditWindow) : Prop := 0 ≤ in_flight w ∧ in_flight w ≤ max w.

(** ** The loops, one shared access at a time *)

(** Where a thread is in [try_acquire] or [release]. *)
Inductive thread :=
  | AcqLoad
  | AcqTest (current : Z)
  | AcqSwap (current : Z)
  | AcqDone (taken : bool)
  | RelLoad
  | RelTest (current : Z)
  | RelSwap (current : Z)
  | RelDone.

#[global] Instance thread_eq_dec : EqDecision thread.
Proof. solve_decision. Defined.

(** What an operation did to the window, at the access that decided it. *)
Inductive event := Acquire (taken : bool) | Release.

#[global] Instance event_eq_dec : EqDecision event.
Proof. solve_decision. Defined.

(** A read of [in_flight] decides an operation that will find no credit to
    take, or none to give back. *)
Definition acquire_decided (max current : Z) : list event :=
  if max <=? current then [Acquire false] else [].
Definition release_decided (current : Z) : list event :=
  if current =? 0 then [Release] else [].

(** One step of one thread: its next state, the window, and what it decided.
    [compare_exchange_weak] may fail on an equal value, and a failure reads the
    value it found. *)
Inductive thread_step (w : CreditWindow) : thread → thread → CreditWindow → list event → Prop :=
  | step_acquire_load :
      thread_step w AcqLoad (AcqTest (in_flight w)) w (acquire_decided (max w) (in_flight w))
  | step_acquire_full current : max w ≤ current →
      thread_step w (AcqTest current) (AcqDone false) w []
  | step_acquire_free current : current < max w →
      thread_step w (AcqTest current) (AcqSwap current) w []
  | step_acquire_swap current : in_flight w = current →
      thread_step w (AcqSwap current) (AcqDone true)
        {| max := max w; in_flight := current + 1 |} [Acquire true]
  | step_acquire_retry current :
      thread_step w (AcqSwap current) (AcqTest (in_flight w)) w
        (acquire_decided (max w) (in_flight w))
  | step_release_load :
      thread_step w RelLoad (RelTest (in_flight w)) w (release_decided (in_flight w))
  | step_release_none current : current = 0 →
      thread_step w (RelTest current) RelDone w []
  | step_release_some current : current ≠ 0 →
      thread_step w (RelTest current) (RelSwap current) w []
  | step_release_swap current : in_flight w = current →
      thread_step w (RelSwap current) RelDone
        {| max := max w; in_flight := current - 1 |} [Release]
  | step_release_retry current :
      thread_step w (RelSwap current) (RelTest (in_flight w)) w
        (release_decided (in_flight w)).

(** The window, the threads that use it, and what was decided, oldest first. *)
Record system := {
  window : CreditWindow;
  threads : list thread;
  history : list (nat * event)
}.

Inductive step : system → system → Prop :=
  | step_thread s tid t t' w' es :
      threads s !! tid = Some t → thread_step (window s) t t' w' es →
      step s {| window := w'; threads := <[tid := t']> (threads s);
                history := history s ++ map (pair tid) es |}.

Definition starting (t : thread) : bool :=
  match t with AcqLoad | RelLoad => true | _ => false end.

Inductive reachable (w : CreditWindow) : system → Prop :=
  | reach_start ts : Forall (λ t, starting t = true) ts →
      reachable w {| window := w; threads := ts; history := [] |}
  | reach_step s s' : reachable w s → step s s' → reachable w s'.

(** ** The specification: the sequential object *)

Definition apply_event (w : CreditWindow) (e : event) : option CreditWindow :=
  match e with
  | Acquire taken => if eqb taken (fst (try_acquire w)) then Some (snd (try_acquire w)) else None
  | Release => Some (release w)
  end.

Fixpoint replay (w : CreditWindow) (es : list event) : option CreditWindow :=
  match es with
  | [] => Some w
  | e :: es => match apply_event w e with Some w => replay w es | None => None end
  end.

(** What a thread's state says it has decided. *)
Definition decided (max : Z) (t : thread) : list event :=
  match t with
  | AcqLoad | RelLoad | AcqSwap _ | RelSwap _ => []
  | AcqTest current => acquire_decided max current
  | RelTest current => release_decided current
  | AcqDone taken => [Acquire taken]
  | RelDone => [Release]
  end.

(** What a thread about to swap knows. *)
Definition thread_ok (max : Z) (t : thread) : Prop :=
  match t with
  | AcqSwap current => current < max
  | RelSwap current => current ≠ 0
  | _ => True
  end.

Definition events_of (tid : nat) (h : list (nat * event)) : list event :=
  map snd (filter (λ p, fst p = tid) h).

(** ** Lemmas *)

Lemma replay_app w es es' :
  replay w (es ++ es') = match replay w es with Some w => replay w es' | None => None end.
Proof.
  revert w. induction es as [|e es IH]; intros w; [done|]. cbn [replay app].
  destruct (apply_event w e); auto.
Qed.

Lemma events_of_app tid h h' : events_of tid (h ++ h') = events_of tid h ++ events_of tid h'.
Proof. unfold events_of. by rewrite filter_app, map_app. Qed.

Lemma events_of_pair_eq tid es : events_of tid (map (pair tid) es) = es.
Proof.
  unfold events_of. induction es as [|e es IH]; [done|]. cbn [map].
  rewrite filter_cons_True by done. cbn [map snd]. by rewrite IH.
Qed.

Lemma events_of_pair_ne tid tid' es : tid ≠ tid' → events_of tid (map (pair tid') es) = [].
Proof.
  intros. unfold events_of. induction es as [|e es IH]; [done|]. cbn [map].
  rewrite filter_cons_False by (simpl; congruence). done.
Qed.

Lemma map_snd_pair {A B} (a : A) (l : list B) : map snd (map (pair a) l) = l.
Proof. induction l; simpl; congruence. Qed.

(** What a step decides is what the sequential object does. *)
Lemma thread_step_replay w t t' w' es :
  thread_step w t t' w' es → thread_ok (max w) t →
  replay w es = Some w' ∧ max w' = max w ∧ thread_ok (max w) t' ∧
  decided (max w) t' = decided (max w) t ++ es.
Proof.
  intros Hs Hok. destruct Hs; cbn in Hok |- *; unfold acquire_decided, release_decided;
    split_and!; try done; try lia.
  all: cbn [replay apply_event]; unfold try_acquire, release; cbn [fst snd].
  all: repeat match goal with
       | |- context [?a <=? ?b] => destruct (Z.leb_spec a b)
       | |- context [?a =? ?b] => destruct (Z.eqb_spec a b)
       end; cbn; unfold try_acquire, release; cbn; try lia; try done.
  all: repeat match goal with
       | |- context [?a <=? ?b] => destruct (Z.leb_spec a b)
       | |- context [?a =? ?b] => destruct (Z.eqb_spec a b)
       end; cbn; try lia; try done.
  all: by subst.
Qed.

(** The simulation invariant of the system. *)
Record simulates (w : CreditWindow) (s : system) : Prop := {
  sim_replay : replay w (map snd (history s)) = Some (window s);
  sim_max : max (window s) = max w;
  sim_threads : ∀ tid t, threads s !! tid = Some t →
    thread_ok (max w) t ∧ events_of tid (history s) = decided (max w) t
}.

Lemma reachable_simulates w s : reachable w s → simulates w s.
Proof.
  induction 1 as [ts Hts|s s' _ IH Hs].
  { split; [done..|]. cbn [threads history]. intros tid t Ht.
    rewrite Forall_lookup in Hts. specialize (Hts _ _ Ht). by destruct t. }
  destruct Hs as [s tid t t' w' es Ht Hstep]. destruct IH as [Hr Hm Hts].
  destruct (Hts _ _ Ht) as [Hok Hev]. rewrite <- Hm in Hok, Hev.
  destruct (thread_step_replay _ _ _ _ _ Hstep Hok) as (Hre & Hmax & Hok' & Hdec).
  split; cbn [window threads history].
  - rewrite map_app, replay_app, Hr, map_snd_pair. done.
  - congruence.
  - intros tid' u Hu. rewrite events_of_app. destruct (decide (tid' = tid)) as [->|Hne].
    + rewrite list_lookup_insert_eq in Hu by (by eapply lookup_lt_Some). injection Hu as <-.
      rewrite events_of_pair_eq, Hev, <- Hm. done.
    + rewrite list_lookup_insert_ne in Hu by done.
      rewrite events_of_pair_ne, app_nil_r by done. auto.
Qed.

Lemma try_acquire_ok w : window_ok w → window_ok (snd (try_acquire w)).
Proof.
  unfold window_ok, try_acquire. destruct (Z.leb_spec (max w) (in_flight w)); cbn; lia.
Qed.

Lemma release_ok w : window_ok w → window_ok (release w).
Proof.
  unfold window_ok, release. destruct (Z.eqb_spec (in_flight w) 0); cbn; lia.
Qed.

Lemma replay_ok es w w' : window_ok w → replay w es = Some w' → window_ok w' ∧ max w' = max w.
Proof.
  revert w. induction es as [|e es IH]; intros w Hw H; cbn [replay] in H.
  { by injection H as <-. }
  destruct (apply_event w e) as [w1|] eqn:E; [|done].
  assert (window_ok w1 ∧ max w1 = max w) as [H1 Hm1].
  { destruct e as [b|]; cbn [apply_event] in E.
    - destruct (eqb _ _); [|done]. injection E as <-. split; [by apply try_acquire_ok|].
      unfold try_acquire. by destruct (_ <=? _).
    - injection E as <-. split; [by apply release_ok|]. unfold release. by destruct (_ =? _). }
  destruct (IH _ H1 H). split; [done|congruence].
Qed.

(** ** Properties *)

(** C21: the credit window is linearisable, so the limit holds under any
    interleaving.  Whatever the threads in [try_acquire] and [release] do, in
    any order and with any spurious failure of the swap, the window is what the
    sequential object gives for the operations in the order they were decided;
    each operation is decided exactly once, with the answer it returns; and the
    credits in flight never leave [0..=max]. *)
Theorem credit_window_linearizable (w : CreditWindow) (s : system)
    (Hw : window_ok w) (Hs : reachable w s) :
  replay w (map snd (history s)) = Some (window s) ∧
  (∀ tid taken, threads s !! tid = Some (AcqDone taken) →
     events_of tid (history s) = [Acquire taken]) ∧
  (∀ tid, threads s !! tid = Some RelDone → events_of tid (history s) = [Release]) ∧
  0 ≤ in_flight (window s) ≤ max w.
Proof.
  destruct (reachable_simulates _ _ Hs) as [Hr Hm Hts]. split_and!.
  - done.
  - intros tid b Ht. by apply (Hts _ _ Ht).
  - intros tid Ht. by apply (Hts _ _ Ht).
  - apply (replay_ok _ _ _ Hw Hr).
  - rewrite <- Hm. apply (replay_ok _ _ _ Hw Hr).
Qed.

Definition race_start : system :=
  {| window := new 1; threads := [AcqLoad; AcqLoad]; history := [] |}.
Definition race_end : system :=
  {| window := {| max := 1; in_flight := 1 |}; threads := [AcqDone true; AcqDone false];
     history := [(0%nat, Acquire true); (1%nat, Acquire false)] |}.

(** Two threads load the same free window; one swaps, the other retries. *)
Lemma race_reachable : reachable (new 1) race_end.
Proof.
  assert (reachable (new 1) race_start) as H by (apply reach_start; by repeat constructor).
  do 7 (eapply reach_step in H; [|first
    [ apply (step_thread _ 0 AcqLoad); [done|apply step_acquire_load]
    | apply (step_thread _ 1 AcqLoad); [done|apply step_acquire_load]
    | apply (step_thread _ 0 (AcqTest 0)); [done|by apply step_acquire_free]
    | apply (step_thread _ 1 (AcqTest 0)); [done|by apply step_acquire_free]
    | apply (step_thread _ 0 (AcqSwap 0)); [done|by apply step_acquire_swap]
    | apply (step_thread _ 1 (AcqSwap 0)); [done|apply step_acquire_retry]
    | apply (step_thread _ 1 (AcqTest 1)); [done|by apply step_acquire_full] ]]).
  exact H.
Qed.

Lemma credit_window_linearizable_witness :
  reachable (new 1) race_end ∧ 0 ≤ in_flight (window race_end) ≤ max (new 1).
Proof.
  split; [exact race_reachable|].
  apply (credit_window_linearizable (new 1) race_end); [|exact race_reachable].
  split; cbn; lia.
Defined.

End Credits.

(** * The buffer pool *)

(** The capacity [Vec::with_capacity] gives: at least what it is asked for. *)
Class VecAlloc := {
  with_capacity : Z → Z;
  with_capacity_ge : ∀ n, 0 ≤ n → n ≤ with_capacity n
}.

Module Pool.

(** A [Vec<u8>]. *)
Record Buffer := { capacity : Z; contents : list Z }.

#[global] Instance Buffer_eq_dec : EqDecision Buffer.
Proof. solve_decision. Defined.

Record FramePool := {
  idle : list Buffer;
  max_idle : Z;
  max_bytes : Z;
  idle_bytes : Z;
  allocations : Z
}.

Definition new (max_idle max_bytes : Z) : FramePool :=
  {| idle := []; max_idle := max_idle; max_bytes := max_bytes; idle_bytes := 0; allocations := 0 |}.

(** [AtomicUsize::fetch_add] and [fetch_sub] wrap. *)
Definition usize_fetch_add (a b : Z) : Z := (a + b) mod 2 ^ 64.
Definition usize_fetch_sub (a b : Z) : Z := (a - b) mod 2 ^ 64.

(** [enumerate().filter(..).min_by_key(..)]: the first of the smallest buffers
    that fit. *)
Fixpoint best_fit (bs : list Buffer) (index : nat) (wanted : Z) (best : option (nat * Z)) :
    option nat :=
  match bs with
  | [] => match best with Some (i, _) => Some i | None => None end
  | b :: bs =>
      let best :=
        if wanted <=? capacity b then
          match best with
          | Some (i, c) => if capacity b <? c then Some (index, capacity b) else best
          | None => Some (index, capacity b)
          end
        else best in
      best_fit bs (S index) wanted best
  end.

(** [Vec::swap_remove]: the last element takes the removed one's place. *)
Definition swap_remove {A} (l : list A) (i : nat) : option (A * list A) :=
  match l !! i, last l with
  | Some x, Some y => Some (x, take (pred (length l)) (<[i := y]> l))
  | _, _ => None
  end.

Section Alloc.
Context {V : VecAlloc}.

Definition acquire {E} (p : FramePool) (wanted : Z) : outcome E (option Buffer * FramePool) :=
  if max_bytes p <? wanted then mret (None, p) else
  match best_fit (idle p) 0 wanted None with
  | Some index =>
      match swap_remove (idle p) index with
      | None => Panic
      | Some (buffer, rest) =>
          mret (Some {| capacity := capacity buffer; contents := [] |},
                {| idle := rest; max_idle := max_idle p; max_bytes := max_bytes p;
                   idle_bytes := usize_fetch_sub (idle_bytes p) (capacity buffer);
                   allocations := allocations p |})
      end
  | None =>
      mret (Some {| capacity := with_capacity wanted; contents := [] |},
            {| idle := idle p; max_idle := max_idle p; max_bytes := max_bytes p;
               idle_bytes := idle_bytes p;
               allocations := usize_fetch_add (allocations p) 1 |})
  end.

Definition release (p : FramePool) (buffer : Buffer) : FramePool :=
  if max_bytes p <? capacity buffer then p else
  if max_idle p <=? lenZ (idle p) then p else
  {| idle := idle p ++ [buffer]; max_idle := max_idle p; max_bytes := max_bytes p;
     idle_bytes := usize_fetch_add (idle_bytes p) (capacity buffer);
     allocations := allocations p |}.

(** [extend_from_slice]: within the capacity the vector is not moved; past it
    the vector is reallocated to a capacity that fits. *)
Definition extend_from_slice (b : Buffer) (source : list Z) : Buffer :=
  let contents' := contents b ++ source in
  {| capacity := if lenZ contents' <=? capacity b then capacity b
                 else with_capacity (lenZ contents');
     contents := contents' |}.

(** ** Frames *)

(** The pool and the window are the shared ones of its ingress. *)
Record PooledFrame := { pf_bytes : Buffer; pf_sequence : Z }.

Definition pooled_frame_new {E} (source : list Z) (p : FramePool) (sequence : Z) :
    outcome E (option PooledFrame * FramePool) :=
  r ← acquire p (lenZ source);
  match r with
  | (Some bytes, p) =>
      mret (Some {| pf_bytes := extend_from_slice bytes source; pf_sequence := sequence |}, p)
  | (None, p) => mret (None, p)
  end.

Definition drop_frame (f : PooledFrame) (w : Credits.CreditWindow) (p : FramePool) :
    Credits.CreditWindow * FramePool :=
  (Credits.release w, release p (pf_bytes f)).

Definition frame `{Crc32} (f : PooledFrame) : outcome WireError WireFrame :=
  validate (contents (pf_bytes f)).

(** ** The invariant *)

Fixpoint total_capacity (bs : list Buffer) : Z :=
  match bs with [] => 0 | b :: bs => capacity b + total_capacity bs end.

(** The ledger is the sum of what is idle, which the two bounds bound. *)
Record pool_ok (p : FramePool) : Prop := {
  ok_count : lenZ (idle p) ≤ max_idle p;
  ok_each : Forall (λ b, 0 ≤ capacity b ≤ max_bytes p) (idle p);
  ok_ledger : idle_bytes p = total_capacity (idle p);
  ok_fits : max_idle p * max_bytes p < 2 ^ 64
}.

(** ** Lemmas *)

Lemma total_capacity_app bs bs' :
  total_capacity (bs ++ bs') = total_capacity bs + total_capacity bs'.
Proof. induction bs as [|b bs IH]; cbn [app total_capacity]; [done|lia]. Qed.

#[global] Instance total_capacity_proper : Proper (Permutation ==> eq) total_capacity.
Proof. intros l l' H. induction H; cbn [total_capacity]; lia. Qed.

Lemma total_capacity_bound bs m :
  Forall (λ b, 0 ≤ capacity b ≤ m) bs → 0 ≤ total_capacity bs ≤ lenZ bs * m.
Proof. induction 1; cbn [total_capacity length]; lia. Qed.

Lemma swap_remove_perm {A} (l : list A) i x :
  l !! i = Some x → ∃ l', swap_remove l i = Some (x, l') ∧ l ≡ₚ x :: l'.
Proof.
  intros Hx. unfold swap_remove. rewrite Hx.
  destruct l as [|z l] using rev_ind; [done|]. clear IHl. rewrite last_snoc.
  eexists. split; [done|]. rewrite length_app. cbn [length].
  replace (pred (length l + 1)) with (length l) by lia.
  destruct (decide (i = length l)) as [->|Hi].
  - rewrite lookup_app_r, Nat.sub_diag in Hx by done. injection Hx as ->.
    replace (<[length l:=x]> (l ++ [x])) with (l ++ [x]).
    2:{ rewrite insert_app_r_alt, Nat.sub_diag by done. done. }
    rewrite take_app_length. symmetry. apply Permutation_cons_append.
  - assert (i < length l)%nat as Hl.
    { apply lookup_lt_Some in Hx. rewrite length_app in Hx. cbn [length] in Hx. lia. }
    rewrite lookup_app_l in Hx by done. rewrite insert_app_l by done.
    rewrite take_app_length' by (by rewrite length_insert).
    rewrite (Permutation_app_comm l [z]). cbn [app].
    rewrite insert_take_drop by done. rewrite <- (take_drop_middle l i x) at 1 by done.
    rewrite <- !Permutation_middle. apply perm_swap.
Qed.

(** What [best_fit] answers, from what it has looked at so far. *)
Lemma best_fit_spec bs seen wanted best :
  (match best with
   | Some (i, c) => ∃ b, seen !! i = Some b ∧ c = capacity b ∧ wanted ≤ c ∧
                    Forall (λ b', wanted ≤ capacity b' → c ≤ capacity b') seen
   | None => Forall (λ b', capacity b' < wanted) seen
   end) →
  match best_fit bs (length seen) wanted best with
  | Some i => ∃ b, (seen ++ bs) !! i = Some b ∧ wanted ≤ capacity b ∧
              Forall (λ b', wanted ≤ capacity b' → capacity b ≤ capacity b') (seen ++ bs)
  | None => Forall (λ b', capacity b' < wanted) (seen ++ bs)
  end.
Proof.
  revert seen best. induction bs as [|b bs IH]; intros seen best H; cbn [best_fit].
  { rewrite app_nil_r. destruct best as [[i c]|]; [|done]. naive_solver. }
  set (best' := if wanted <=? capacity b then _ else _).
  specialize (IH (seen ++ [b]) best').
  rewrite length_app, <- app_assoc in IH. cbn [length app] in IH.
  rewrite Nat.add_1_r in IH. apply IH. clear IH.
  destruct (wanted <=? capacity b) eqn:E; bool_to_prop; subst best'; cbn.
  - destruct best as [[i c]|].
    + destruct H as (b0 & Hb0 & -> & Hw & HF). destruct (capacity b <? capacity b0) eqn:E'; bool_to_prop.
      * exists b. split_and!; [|done|lia|].
        { by rewrite lookup_app_r, Nat.sub_diag. }
        apply Forall_app; split; [|by repeat constructor].
        eapply Forall_impl; [exact HF|]. cbn. intros x Hx ?. specialize (Hx ltac:(lia)). lia.
      * exists b0. split_and!; [|done|lia|].
        { rewrite lookup_app_l; [done|]. by eapply lookup_lt_Some. }
        apply Forall_app; split; [done|]. repeat constructor. lia.
    + exists b. split_and!; [|done|lia|].
      { by rewrite lookup_app_r, Nat.sub_diag. }
      apply Forall_app; split; [|by repeat constructor].
      eapply Forall_impl; [exact H|]. cbn. intros x Hx ?. lia.
  - destruct best as [[i c]|].
    + destruct H as (b0 & Hb0 & -> & Hw & HF). exists b0. split_and!; [|done|lia|].
      { rewrite lookup_app_l; [done|]. by eapply lookup_lt_Some. }
      apply Forall_app; split; [done|]. repeat constructor. lia.
    + apply Forall_app; split; [done|]. by repeat constructor.
Qed.

Lemma acquire_cases {E} p wanted :
  (max_bytes p < wanted ∧ acquire (E:=E) p wanted = Ret (None, p)) ∨
  (wanted ≤ max_bytes p ∧ ∃ b rest, idle p ≡ₚ b :: rest ∧ wanted ≤ capacity b ∧
     Forall (λ b', wanted ≤ capacity b' → capacity b ≤ capacity b') (idle p) ∧
     acquire (E:=E) p wanted = Ret (Some {| capacity := capacity b; contents := [] |},
       {| idle := rest; max_idle := max_idle p; max_bytes := max_bytes p;
          idle_bytes := usize_fetch_sub (idle_bytes p) (capacity b);
          allocations := allocations p |})) ∨
  (wanted ≤ max_bytes p ∧ Forall (λ b', capacity b' < wanted) (idle p) ∧
     acquire (E:=E) p wanted = Ret (Some {| capacity := with_capacity wanted; contents := [] |},
       {| idle := idle p; max_idle := max_idle p; max_bytes := max_bytes p;
          idle_bytes := idle_bytes p;
          allocations := usize_fetch_add (allocations p) 1 |})).
Proof.
  unfold acquire. destruct (max_bytes p <? wanted) eqn:E1; bool_to_prop; [by left|right].
  pose proof (best_fit_spec (idle p) [] wanted None ltac:(constructor)) as H.
  cbn [length app] in H. destruct (best_fit _ _ _ _) as [i|].
  - left. destruct H as (b & Hb & Hw & HF).
    destruct (swap_remove_perm _ _ _ Hb) as (rest & -> & Hp). eauto 10.
  - right. auto.
Qed.

Lemma pool_ok_remove p b rest :
  pool_ok p → idle p ≡ₚ b :: rest →
  pool_ok {| idle := rest; max_idle := max_idle p; max_bytes := max_bytes p;
             idle_bytes := usize_fetch_sub (idle_bytes p) (capacity b);
             allocations := allocations p |}.
Proof.
  intros [Hc He Hl Hf] Hp. rewrite Hp in He. apply Forall_cons in He as [Hb He].
  rewrite Hp in Hc, Hl. cbn [length total_capacity] in Hc, Hl.
  pose proof (total_capacity_bound _ _ He). split; cbn [idle max_idle max_bytes idle_bytes].
  - lia.
  - done.
  - unfold usize_fetch_sub. rewrite Hl. rewrite Z.mod_small; [lia|]. split; [lia|]. nia.
  - done.
Qed.

Lemma pool_ok_release p b : pool_ok p → 0 ≤ capacity b → pool_ok (release p b).
Proof.
  intros [Hc He Hl Hf] Hb. unfold release.
  destruct (max_bytes p <? capacity b) eqn:E1; [by split|].
  destruct (max_idle p <=? lenZ (idle p)) eqn:E2; [by split|]. bool_to_prop.
  assert (Forall (λ b, 0 ≤ capacity b ≤ max_bytes p) (idle p ++ [b])) as He'.
  { apply Forall_app. split; [done|]. repeat constructor; lia. }
  pose proof (total_capacity_bound _ _ He').
  split; cbn [idle max_idle max_bytes idle_bytes]; [|done| |done].
  - rewrite length_app. cbn [length]. lia.
  - unfold usize_fetch_add. rewrite Hl, total_capacity_app in *. cbn [total_capacity] in *.
    rewrite Z.mod_small; [lia|]. split; [lia|]. rewrite length_app in *. cbn [length] in *. nia.
Qed.

Lemma pool_ok_acquire {E} p wanted r :
  pool_ok p → acquire (E:=E) p wanted = Ret r → pool_ok (snd r).
Proof.
  intros Hp H. destruct (acquire_cases (E:=E) p wanted)
    as [(?&Ha)|[(?&b&rest&Hperm&?&?&Ha)|(?&?&Ha)]]; rewrite Ha in H; apply Ret_inj in H as <-; cbn [snd].
  - done.
  - by apply pool_ok_remove.
  - destruct Hp. by split.
Qed.

Lemma pooled_frame_new_spec {E} source p sequence :
  lenZ source ≤ max_bytes p →
  ∃ f p', pooled_frame_new (E:=E) source p sequence = Ret (Some f, p') ∧
    contents (pf_bytes f) = source ∧ lenZ source ≤ capacity (pf_bytes f) ∧
    pf_sequence f = sequence ∧ max_idle p' = max_idle p ∧ max_bytes p' = max_bytes p ∧
    (pool_ok p → pool_ok p').
Proof.
  intros Hl. unfold pooled_frame_new.
  destruct (acquire_cases (E:=E) p (lenZ source))
    as [(?&Ha)|[(?&b&rest&Hperm&?&?&Ha)|(?&?&Ha)]]; [lia|..];
    pose proof (λ Hp r, pool_ok_acquire (E:=E) p (lenZ source) r Hp) as Hok;
    rewrite Ha in *; cbn [mbind outcome_bind];
    do 2 eexists; split; try reflexivity; cbn [pf_bytes pf_sequence extend_from_slice contents capacity app].
  - rewrite (proj2 (Z.leb_le _ _)) by lia. split_and!; try done. intros Hp. by apply (Hok Hp _ eq_refl).
  - pose proof (with_capacity_ge (lenZ source)). rewrite (proj2 (Z.leb_le _ _)) by lia.
    split_and!; try done; [lia|]. intros Hp. by apply (Hok Hp _ eq_refl).
Qed.

(** Every fitting request finds a buffer, so it allocates nothing. *)
Lemma acquire_fit_no_alloc {E} p b wanted :
  b ∈ idle p → wanted ≤ capacity b → wanted ≤ max_bytes p →
  ∃ b' p', acquire (E:=E) p wanted = Ret (Some b', p') ∧ allocations p' = allocations p.
Proof.
  intros Hb ??. destruct (acquire_cases (E:=E) p wanted)
    as [(?&Ha)|[(?&b'&rest&Hperm&?&?&Ha)|(?&HF&Ha)]]; [lia|eauto|].
  rewrite Forall_forall in HF. specialize (HF _ Hb). lia.
Qed.

(** What happens to a pool. *)
Inductive pool_op := Take (wanted : Z) | Give (buffer : Buffer).

Definition op_ok (o : pool_op) : Prop :=
  match o with Take wanted => 0 ≤ wanted | Give buffer => 0 ≤ capacity buffer end.

Definition pool_step {E} (p : FramePool) (o : pool_op) : outcome E FramePool :=
  match o with
  | Take wanted => r ← acquire p wanted; mret (snd r)
  | Give buffer => mret (release p buffer)
  end.

Fixpoint pool_run {E} (p : FramePool) (os : list pool_op) : outcome E FramePool :=
  match os with
  | [] => mret p
  | o :: os => p ← pool_step p o; pool_run p os
  end.

Lemma pool_step_ok {E} p o :
  pool_ok p → op_ok o →
  ∃ p', pool_step (E:=E) p o = Ret p' ∧ pool_ok p' ∧
    max_idle p' = max_idle p ∧ max_bytes p' = max_bytes p.
Proof.
  intros Hp Ho. destruct o as [n|b]; cbn [pool_step].
  - pose proof (λ r, pool_ok_acquire (E:=E) p n r Hp) as Hok.
    destruct (acquire_cases (E:=E) p n) as [(?&Ha)|[(?&b&rest&Hperm&?&?&Ha)|(?&?&Ha)]];
      rewrite Ha in *; cbn [mbind outcome_bind snd]; eexists; split; try reflexivity;
      split_and!; try done; apply (Hok _ eq_refl).
  - eexists. split; [done|]. split; [by apply pool_ok_release|].
    unfold release. destruct (_ <? _); [done|]. by destruct (_ <=? _).
Qed.

(** ** Properties *)

(** The pool's memory is bounded and its ledger is exact.  From a new pool,
    after any sequence of acquisitions and releases of any buffers, no index is
    out of range, [idle_bytes] is the sum of the idle capacities (the wrapping
    counter never wraps), at most [max_idle] buffers of at most [max_bytes] are
    kept, so at most [max_idle * max_bytes] bytes are retained. *)
Theorem pool_ledger_exact {E} (max_idle_ max_bytes_ : Z) (os : list pool_op)
    (Hi : 0 ≤ max_idle_) (Hf : max_idle_ * max_bytes_ < 2 ^ 64) (Hos : Forall op_ok os) :
  ∃ p, pool_run (E:=E) (new max_idle_ max_bytes_) os = Ret p ∧
    idle_bytes p = total_capacity (idle p) ∧ lenZ (idle p) ≤ max_idle_ ∧
    Forall (λ b, capacity b ≤ max_bytes_) (idle p) ∧
    0 ≤ idle_bytes p ∧ (0 ≤ max_bytes_ → idle_bytes p ≤ max_idle_ * max_bytes_).
Proof.
  assert (∀ p, pool_ok p → ∃ p', pool_run (E:=E) p os = Ret p' ∧ pool_ok p' ∧
    max_idle p' = max_idle p ∧ max_bytes p' = max_bytes p) as H.
  { induction Hos as [|o os Ho Hos IH]; intros p Hp; cbn [pool_run]; [by eauto|].
    destruct (pool_step_ok (E:=E) p o Hp Ho) as (p1 & -> & Hp1 & <- & <-). by apply IH. }
  destruct (H (new max_idle_ max_bytes_)) as (p & Hr & [Hc He Hl _] & Hmi & Hmb).
  { split; cbn; [lia|constructor|done|done]. }
  exists p. rewrite Hmi, Hmb in *. cbn [new max_idle max_bytes] in *.
  pose proof (total_capacity_bound _ _ He). split_and!; try done; [|lia|].
  - eapply Forall_impl; [exact He|]. cbn. lia.
  - intros ?. rewrite Hl. nia.
Qed.

(** Acquisition is best fit.  A request above the ceiling is refused and
    changes nothing; a request some idle buffer fits gets an emptied buffer of
    the smallest capacity that fits, takes exactly that buffer out of the idle
    set and allocates nothing; any other request allocates one buffer and
    leaves the idle set alone. *)
Theorem acquire_best_fit {E} (p : FramePool) (wanted : Z) (Hw : 0 ≤ wanted) :
  (max_bytes p < wanted → acquire (E:=E) p wanted = Ret (None, p)) ∧
  (wanted ≤ max_bytes p →
   ∃ b p', acquire (E:=E) p wanted = Ret (Some b, p') ∧
     contents b = [] ∧ wanted ≤ capacity b ∧
     (Exists (λ b', wanted ≤ capacity b') (idle p) →
        Forall (λ b', wanted ≤ capacity b' → capacity b ≤ capacity b') (idle p) ∧
        (∃ old, capacity old = capacity b ∧ idle p ≡ₚ old :: idle p') ∧
        allocations p' = allocations p) ∧
     (Forall (λ b', capacity b' < wanted) (idle p) →
        idle p' = idle p ∧ allocations p' = usize_fetch_add (allocations p) 1)).
Proof.
  destruct (acquire_cases (E:=E) p wanted) as [(?&Ha)|[(?&b&rest&Hperm&?&HF&Ha)|(?&HF&Ha)]].
  - split; [done|lia].
  - split; [lia|]. intros _. rewrite Ha. do 2 eexists. split; [done|]. split_and!; try done.
    + intros _. split_and!; [done|by exists b|done].
    + intros HF'. rewrite Hperm in HF'. apply Forall_cons in HF' as [Hb _]. lia.
  - split; [lia|]. intros _. rewrite Ha. do 2 eexists. split; [done|].
    pose proof (with_capacity_ge wanted Hw). split_and!; try done.
    intros Hex. exfalso. apply Exists_exists in Hex as (b & Hb & ?).
    rewrite Forall_forall in HF. specialize (HF _ Hb). lia.
Qed.

(** A frame is a copy of its packet, and dropping it gives back everything
    it holds.  A packet within the ceiling always gets a frame whose bytes are
    the packet; dropping the frame returns its credit and, when the buffer is
    within the ceiling and the pool has room, its buffer, after which a packet
    of up to that size is copied in without an allocation. *)
Theorem frame_copies_and_returns {E} (source : list Z) (w : Credits.CreditWindow)
    (p : FramePool) (sequence : Z) (Hl : lenZ source ≤ max_bytes p) :
  ∃ f p', pooled_frame_new (E:=E) source p sequence = Ret (Some f, p') ∧
    contents (pf_bytes f) = source ∧ pf_sequence f = sequence ∧
    ∀ w' p'', (0 < Credits.in_flight w) → drop_frame f w p' = (w', p'') →
      Credits.in_flight w' = Credits.in_flight w - 1 ∧
      (capacity (pf_bytes f) ≤ max_bytes p' → lenZ (idle p') < max_idle p' →
       ∀ wanted, 0 ≤ wanted ≤ lenZ source → ∃ b q,
         acquire (E:=E) p'' wanted = Ret (Some b, q) ∧ allocations q = allocations p'').
Proof.
  destruct (pooled_frame_new_spec (E:=E) source p sequence Hl)
    as (f & p' & Hn & Hc & Hcap & Hseq & _ & Hmb & _).
  exists f, p'. split_and!; [done..|]. intros w' p'' Hw [= <- <-]. split.
  - unfold Credits.release. rewrite (proj2 (Z.eqb_neq _ 0)) by lia. done.
  - intros Hle Hroom wanted Hwanted. unfold release.
    rewrite (proj2 (Z.ltb_ge _ _)), (proj2 (Z.leb_gt _ _)) by lia.
    apply (acquire_fit_no_alloc _ (pf_bytes f)); cbn [idle max_bytes]; [|lia|lia].
    rewrite elem_of_app. right. by apply list_elem_of_singleton.
Qed.

End Alloc.

(** An allocator that gives what it is asked for. *)
#[local] Instance exact_alloc : VecAlloc.
Proof. refine {| with_capacity := λ n, n |}. lia. Defined.

Lemma pool_ledger_exact_witness : ∃ p,
  pool_run (E:=WireError) (new 3 4096) [Take 100; Give {| capacity := 100; contents := [] |}; Take 50] = Ret p
  ∧ idle_bytes p = total_capacity (idle p).
Proof.
  destruct (pool_ledger_exact (E:=WireError) 3 4096
    [Take 100; Give {| capacity := 100; contents := [] |}; Take 50]) as (p & Hr & Hl & _).
  - lia.
  - lia.
  - repeat constructor; cbn; lia.
  - by exists p.
Defined.

Lemma acquire_best_fit_witness :
  acquire (E:=WireError) (new 3 16) 32 = Ret (None, new 3 16).
Proof. apply (acquire_best_fit (E:=WireError) (new 3 16) 32); cbn; lia. Defined.

Lemma frame_copies_and_returns_witness : ∃ f p',
  pooled_frame_new (E:=WireError) [1; 2; 3] (new 3 16) 7 = Ret (Some f, p') ∧
  contents (pf_bytes f) = [1; 2; 3].
Proof.
  destruct (frame_copies_and_returns (E:=WireError) [1; 2; 3]
    {| Credits.max := 2; Credits.in_flight := 1 |} (new 3 16) 7) as (f & p' & Hn & Hc & _).
  - cbn. lia.
  - by exists f, p'.
Defined.

End Pool.
