(* ===== verification/Ingress.v ===== *)
(** The door frames come in through ([engine/crates/frame-wire/src/ingress.rs]).

    [submit] is the whole function.  [verdict] is the specification of its
    legality checks on abstract packets; the theorems say that [submit] answers
    as [verdict] does, that a packet it does not accept leaves no trace, and what
    holds of every run of an ingress with its frames in flight.

    The window and the pool are shared with the frames in flight; they are kept
    in the ingress, and a frame's drop acts on them there.  Each call is one
    step: the interleaving inside the credit loops is the subject of
    [Pool.Credits], and the pool changes under its lock. *)
From S2P Require Import Prelude Wire Pool.

(** * Answers *)

Inductive IngressDecision := Accepted | WouldBlock | Rejected | GenerationLost.

#[global] Instance IngressDecision_eq_dec : EqDecision IngressDecision.
Proof. solve_decision. Defined.

Definition IngressDecision_code (d : IngressDecision) : Z :=
  match d with Accepted => 1 | WouldBlock => 2 | Rejected => 3 | GenerationLost => 4 end.

Record IngressOutcome := {
  decision : IngressDecision;
  io_remaining_credits : Z;
  accepted_sequence : Z;
  wire_error_code : Z
}.

#[global] Instance IngressOutcome_eq_dec : EqDecision IngressOutcome.
Proof. solve_decision. Defined.

Definition rejected (error : WireError) (remaining_credits : Z) : IngressOutcome :=
  {| decision := Rejected; io_remaining_credits := remaining_credits;
     accepted_sequence := 0; wire_error_code := WireError_code error |}.

Definition refused (code remaining_credits : Z) : IngressOutcome :=
  {| decision := Rejected; io_remaining_credits := remaining_credits;
     accepted_sequence := 0; wire_error_code := code |}.

Definition INGRESS_ERROR_FOREIGN_SESSION : Z := 1001.
Definition INGRESS_ERROR_NONCONTIGUOUS_SEQUENCE : Z := 1002.
Definition INGRESS_ERROR_STALE_SURFACE : Z := 1003.
Definition INGRESS_ERROR_STALE_RESOURCE_EPOCH : Z := 1004.
Definition INGRESS_ERROR_PACKET_TOO_LARGE : Z := 1005.
Definition INGRESS_ERROR_RESOURCES_NOT_READY : Z := 1006.

Definition INGRESS_ERROR_CODES : list Z := [
  INGRESS_ERROR_FOREIGN_SESSION; INGRESS_ERROR_NONCONTIGUOUS_SEQUENCE;
  INGRESS_ERROR_STALE_SURFACE; INGRESS_ERROR_STALE_RESOURCE_EPOCH;
  INGRESS_ERROR_PACKET_TOO_LARGE; INGRESS_ERROR_RESOURCES_NOT_READY].

Definition INGRESS_ERROR_BASE : Z := 1001.
Definition MAX_CREDITS : Z := 2.
Definition DEFAULT_MAX_CREDITS : Z := MAX_CREDITS.

(** * The ingress *)

Record FrameIngress := {
  launch_nonce : Z;
  runtime_generation : Z;
  surface_generation : Z;
  resource_epoch : Z;
  resources_ready : bool;
  max_packet_bytes : Z;
  credits : Credits.CreditWindow;
  pool : Pool.FramePool;
  last_accepted_sequence : Z
}.

Definition clamp (x lo hi : Z) : Z := Z.max lo (Z.min x hi).

Definition ingress_new (nonce generation : Z) : FrameIngress := {|
  launch_nonce := nonce; runtime_generation := generation;
  surface_generation := 0; resource_epoch := 0; resources_ready := false;
  max_packet_bytes := MAX_TOTAL_BYTES;
  credits := Credits.new DEFAULT_MAX_CREDITS;
  pool := Pool.new (DEFAULT_MAX_CREDITS + 1) MAX_TOTAL_BYTES;
  last_accepted_sequence := 0 |}.

Definition with_max_credits (g : FrameIngress) (n : Z) : FrameIngress :=
  let max := clamp n 1 MAX_CREDITS in {|
  launch_nonce := launch_nonce g; runtime_generation := runtime_generation g;
  surface_generation := surface_generation g; resource_epoch := resource_epoch g;
  resources_ready := resources_ready g; max_packet_bytes := max_packet_bytes g;
  credits := Credits.new max;
  pool := Pool.new (max + 1) (max_packet_bytes g);
  last_accepted_sequence := last_accepted_sequence g |}.

Definition with_max_packet_bytes (g : FrameIngress) (bytes : Z) : FrameIngress :=
  let max := clamp bytes HEADER_BYTES MAX_TOTAL_BYTES in {|
  launch_nonce := launch_nonce g; runtime_generation := runtime_generation g;
  surface_generation := surface_generation g; resource_epoch := resource_epoch g;
  resources_ready := resources_ready g; max_packet_bytes := max;
  credits := credits g;
  pool := Pool.new (Credits.max (credits g) + 1) max;
  last_accepted_sequence := last_accepted_sequence g |}.

Definition max_credits (g : FrameIngress) : Z := Credits.max (credits g).
Definition remaining_credits (g : FrameIngress) : Z := Credits.remaining (credits g).
Definition in_flight (g : FrameIngress) : Z := Credits.in_flight (credits g).

(** Assignments to one or two fields. *)
Definition set_timelines (g : FrameIngress) (surface epoch : Z) (ready : bool) : FrameIngress := {|
  launch_nonce := launch_nonce g; runtime_generation := runtime_generation g;
  surface_generation := surface; resource_epoch := epoch; resources_ready := ready;
  max_packet_bytes := max_packet_bytes g; credits := credits g; pool := pool g;
  last_accepted_sequence := last_accepted_sequence g |}.

Definition set_flow (g : FrameIngress) (w : Credits.CreditWindow) (p : Pool.FramePool)
    (sequence : Z) : FrameIngress := {|
  launch_nonce := launch_nonce g; runtime_generation := runtime_generation g;
  surface_generation := surface_generation g; resource_epoch := resource_epoch g;
  resources_ready := resources_ready g; max_packet_bytes := max_packet_bytes g;
  credits := w; pool := p; last_accepted_sequence := sequence |}.

Definition set_surface_generation (g : FrameIngress) (generation : Z) : bool * FrameIngress :=
  if generation <? surface_generation g then (false, g)
  else (true, set_timelines g generation (resource_epoch g) (resources_ready g)).

Definition set_resource_epoch (g : FrameIngress) (epoch : Z) : bool * FrameIngress :=
  if epoch <? resource_epoch g then (false, g)
  else if negb (epoch =? resource_epoch g)
  then (true, set_timelines g (surface_generation g) epoch false)
  else (true, g).

Definition mark_resources_ready (g : FrameIngress) : FrameIngress :=
  set_timelines g (surface_generation g) (resource_epoch g) true.

Section Ingress.
Context {C : Crc32} {V : VecAlloc}.

(** [try_acquire], the copy and the answer, once every check has passed. *)
Definition take_frame (g : FrameIngress) (bytes : list Z) (sequence : Z) :
    outcome WireError (IngressOutcome * option Pool.PooledFrame * FrameIngress) :=
  let '(taken, w) := Credits.try_acquire (credits g) in
  if negb taken then
    mret ({| decision := WouldBlock; io_remaining_credits := 0;
             accepted_sequence := 0; wire_error_code := 0 |}, None,
          set_flow g w (pool g) (last_accepted_sequence g)) else
  r ← Pool.pooled_frame_new bytes (pool g) sequence;
  match r with
  | (None, p) =>
      (* [drop(PooledFrame::new(&[], ..))] *)
      r' ← Pool.pooled_frame_new [] p 0;
      let '(w, p) := match r' with
                     | (Some f, p) => Pool.drop_frame f w p
                     | (None, p) => (w, p)
                     end in
      let g := set_flow g w p (last_accepted_sequence g) in
      mret (refused INGRESS_ERROR_PACKET_TOO_LARGE (remaining_credits g), None, g)
  | (Some owned, p) =>
      let g := set_flow g w p sequence in
      mret ({| decision := Accepted; io_remaining_credits := remaining_credits g;
               accepted_sequence := sequence; wire_error_code := 0 |}, Some owned, g)
  end.

Definition submit (g : FrameIngress) (bytes : list Z) :
    outcome WireError (IngressOutcome * option Pool.PooledFrame * FrameIngress) :=
  if max_packet_bytes g <? lenZ bytes
  then mret (refused INGRESS_ERROR_PACKET_TOO_LARGE (remaining_credits g), None, g) else
  match validate bytes with
  | Fail error => mret (rejected error (remaining_credits g), None, g)
  | Panic => Panic
  | OutOfFuel => OutOfFuel
  | Ret frame =>
      if negb (wf_launch_nonce frame =? launch_nonce g)
      then mret (refused INGRESS_ERROR_FOREIGN_SESSION (remaining_credits g), None, g) else
      if negb (wf_runtime_generation frame =? runtime_generation g)
      then mret ({| decision := GenerationLost; io_remaining_credits := remaining_credits g;
                    accepted_sequence := 0; wire_error_code := 0 |}, None, g) else
      if negb (surface_generation g =? 0)
         && negb (wf_surface_generation frame =? surface_generation g)
      then mret (refused INGRESS_ERROR_STALE_SURFACE (remaining_credits g), None, g) else
      if negb (wf_resource_epoch frame =? resource_epoch g)
      then mret (refused INGRESS_ERROR_STALE_RESOURCE_EPOCH (remaining_credits g), None, g) else
      names_resources ← (if resources_ready g then mret false else references_resources frame);
      if names_resources : bool
      then mret (refused INGRESS_ERROR_RESOURCES_NOT_READY (remaining_credits g), None, g) else
      if negb (wf_sequence frame =? u64_saturating_add (last_accepted_sequence g) 1)
      then mret (refused INGRESS_ERROR_NONCONTIGUOUS_SEQUENCE (remaining_credits g), None, g) else
      take_frame g bytes (wf_sequence frame)
  end.

(** * The specification *)

(** What the checks say of a packet, given what the host has said. *)
Inductive Verdict := Legal | Refuse (code : Z) | Lost.

Definition names_resources (p : Packet) : bool :=
  existsb (λ s, sec_kind s =? SECTION_KIND_RESOURCE_REFERENCES) (pk_sections p).

Definition verdict (g : FrameIngress) (p : Packet) : Verdict :=
  if bool_decide (max_packet_bytes g < lenZ (encode p)) then Refuse INGRESS_ERROR_PACKET_TOO_LARGE
  else if bool_decide (pk_launch_nonce p ≠ launch_nonce g) then Refuse INGRESS_ERROR_FOREIGN_SESSION
  else if bool_decide (pk_runtime_generation p ≠ runtime_generation g) then Lost
  else if bool_decide (surface_generation g ≠ 0 ∧ pk_surface_generation p ≠ surface_generation g)
  then Refuse INGRESS_ERROR_STALE_SURFACE
  else if bool_decide (pk_resource_epoch p ≠ resource_epoch g)
  then Refuse INGRESS_ERROR_STALE_RESOURCE_EPOCH
  else if negb (resources_ready g) && names_resources p
  then Refuse INGRESS_ERROR_RESOURCES_NOT_READY
  else if bool_decide (pk_sequence p ≠ Z.min (last_accepted_sequence g + 1) u64_max)
  then Refuse INGRESS_ERROR_NONCONTIGUOUS_SEQUENCE
  else Legal.

(** What an ingress keeps true of itself. *)
Record ingress_ok (g : FrameIngress) : Prop := {
  ok_window : Credits.window_ok (credits g);
  ok_depth : 1 ≤ max_credits g ≤ MAX_CREDITS;
  ok_pool : Pool.pool_ok (pool g);
  ok_ceiling : Pool.max_bytes (pool g) = max_packet_bytes g;
  ok_packet : HEADER_BYTES ≤ max_packet_bytes g ≤ MAX_TOTAL_BYTES;
  ok_idle : Pool.max_idle (pool g) = max_credits g + 1;
  ok_sequence : is_u64 (last_accepted_sequence g)
}.

(** * Lemmas *)

Lemma set_flow_id g : set_flow g (credits g) (pool g) (last_accepted_sequence g) = g.
Proof. by destruct g. Qed.

Definition accepted_outcome (g : FrameIngress) (sequence : Z) : IngressOutcome :=
  {| decision := Accepted; io_remaining_credits := max_credits g - in_flight g - 1;
     accepted_sequence := sequence; wire_error_code := 0 |}.
Definition blocked_outcome : IngressOutcome :=
  {| decision := WouldBlock; io_remaining_credits := 0;
     accepted_sequence := 0; wire_error_code := 0 |}.
Definition lost_outcome (g : FrameIngress) : IngressOutcome :=
  {| decision := GenerationLost; io_remaining_credits := remaining_credits g;
     accepted_sequence := 0; wire_error_code := 0 |}.

(** The ingress after a frame is accepted: a credit and a buffer are out. *)
Record accepts (g : FrameIngress) (bytes : list Z) (sequence : Z)
    (f : Pool.PooledFrame) (g' : FrameIngress) : Prop := {
  acc_bytes : Pool.contents (Pool.pf_bytes f) = bytes;
  acc_capacity : 0 ≤ Pool.capacity (Pool.pf_bytes f);
  acc_sequence : Pool.pf_sequence f = sequence;
  acc_ingress : g' = set_flow g {| Credits.max := max_credits g;
                                   Credits.in_flight := in_flight g + 1 |} (pool g') sequence;
  acc_ok : ingress_ok g';
  acc_pool : Pool.pooled_frame_new (E:=WireError) bytes (pool g) sequence = Ret (Some f, pool g')
}.

Lemma take_frame_spec g bytes sequence :
  ingress_ok g → lenZ bytes ≤ max_packet_bytes g → is_u64 sequence →
  (in_flight g = max_credits g ∧ take_frame g bytes sequence = Ret (blocked_outcome, None, g)) ∨
  (in_flight g < max_credits g ∧ ∃ f g',
     take_frame g bytes sequence = Ret (accepted_outcome g sequence, Some f, g') ∧
     accepts g bytes sequence f g').
Proof.
  intros [[Hw1 Hw2] Hd Hp Hc Hb Hi Hs] Hl Hseq. unfold take_frame, Credits.try_acquire, in_flight, max_credits in *.
  destruct (Z.leb_spec (Credits.max (credits g)) (Credits.in_flight (credits g))); cbn [negb].
  { left. split; [lia|]. by rewrite set_flow_id. }
  right. split; [lia|].
  destruct (Pool.pooled_frame_new_spec (E:=WireError) bytes (pool g) sequence)
    as (f & p' & Hnew & Hct & Hcap & Hpf & Hmi & Hmb & Hok); [lia|].
  rewrite Hnew. cbn [mbind outcome_bind]. exists f. eexists. split.
  - unfold mret, outcome_ret. repeat f_equal.
    unfold accepted_outcome, remaining_credits, Credits.remaining, u32_saturating_sub, max_credits, in_flight.
    cbn [credits set_flow Credits.max Credits.in_flight]. f_equal. lia.
  - split; cbn [pool set_flow]; try done; [lia|].
    split; cbn [credits pool set_flow max_packet_bytes last_accepted_sequence max_credits]; try done.
    + split; cbn [Credits.in_flight Credits.max]; lia.
    + by apply Hok.
    + congruence.
    + unfold max_credits. cbn [credits set_flow Credits.max]. congruence.
Qed.

(** What [submit] answers to a packet, by its verdict. *)
Definition answers (g : FrameIngress) (bytes : list Z) (p : Packet)
    (r : IngressOutcome * option Pool.PooledFrame * FrameIngress) : Prop :=
  match verdict g p with
  | Refuse code => r = (refused code (remaining_credits g), None, g)
  | Lost => r = (lost_outcome g, None, g)
  | Legal =>
      (in_flight g = max_credits g ∧ r = (blocked_outcome, None, g)) ∨
      (in_flight g < max_credits g ∧ ∃ f g',
         r = (accepted_outcome g (pk_sequence p), Some f, g') ∧
         accepts g bytes (pk_sequence p) f g')
  end.

Lemma submit_packet g p :
  ingress_ok g → packet_wf p → ∃ r, submit g (encode p) = Ret r ∧ answers g (encode p) p r.
Proof.
  intros Hg Hp. unfold submit, answers, verdict.
  destruct (Z.ltb_spec (max_packet_bytes g) (lenZ (encode p))) as [Hl|Hl].
  { rewrite bool_decide_eq_true_2 by done. eauto. }
  rewrite bool_decide_eq_false_2 by lia.
  destruct (validate_encode p Hp) as [-> _].
  cbn [frame_of frame_with wf_launch_nonce wf_runtime_generation wf_surface_generation
       wf_resource_epoch wf_sequence].
  destruct (Z.eqb_spec (pk_launch_nonce p) (launch_nonce g)); cbn [negb];
    [rewrite bool_decide_eq_false_2 by auto|rewrite bool_decide_eq_true_2 by auto; by eauto].
  destruct (Z.eqb_spec (pk_runtime_generation p) (runtime_generation g)); cbn [negb];
    [rewrite bool_decide_eq_false_2 by auto|rewrite bool_decide_eq_true_2 by auto; by eauto].
  destruct (negb (surface_generation g =? 0) && _) eqn:Es.
  { bool_to_prop. rewrite bool_decide_eq_true_2 by done. eauto. }
  rewrite (bool_decide_eq_false_2 (surface_generation g ≠ 0 ∧ _)).
  2:{ intros [H1 H2]. rewrite (proj2 (Z.eqb_neq _ _) H1), (proj2 (Z.eqb_neq _ _) H2) in Es. done. }
  destruct (Z.eqb_spec (pk_resource_epoch p) (resource_epoch g)); cbn [negb];
    [rewrite bool_decide_eq_false_2 by auto|rewrite bool_decide_eq_true_2 by auto; by eauto].
  replace (if resources_ready g then mret false else references_resources _)
    with (Ret (E:=WireError) (negb (resources_ready g) && names_resources p)).
  2:{ destruct (resources_ready g); cbn [negb andb]; [done|].
      fold (frame_of p). by rewrite references_resources_spec. }
  cbn [mbind outcome_bind].
  destruct (negb (resources_ready g) && names_resources p); [by eauto|].
  unfold u64_saturating_add.
  destruct (Z.eqb_spec (pk_sequence p) (Z.min (last_accepted_sequence g + 1) u64_max)) as [Hsq|];
    cbn [negb];
    [rewrite bool_decide_eq_false_2 by auto|rewrite bool_decide_eq_true_2 by auto; by eauto].
  destruct (take_frame_spec g (encode p) (pk_sequence p)) as [[? ->]|(? & f & g' & -> & ?)];
    [done|lia|by apply Hp|eauto|]. eexists. split; [done|]. right. eauto.
Qed.

(** Bytes that are no packet. *)
Lemma submit_malformed g bytes :
  Forall is_u8 bytes → (∀ p, packet_wf p → bytes ≠ encode p) →
  ∃ code, submit g bytes = Ret (refused code (remaining_credits g), None, g) ∧
    (max_packet_bytes g < lenZ bytes ∧ code = INGRESS_ERROR_PACKET_TOO_LARGE ∨
     ∃ e, validate bytes = Fail e ∧ code = WireError_code e).
Proof.
  intros Hb Hn. unfold submit.
  destruct (Z.ltb_spec (max_packet_bytes g) (lenZ bytes)) as [Hl|Hl]; [by eauto|].
  pose proof (validate_safe_aux bytes Hb) as Hs.
  destruct (validate bytes) as [f|e| |] eqn:E; [|by eauto 10|done..].
  apply validate_inv in E as (p & Hp & -> & _); [|done]. by destruct (Hn p).
Qed.

(** Every input is one or the other. *)
Lemma packet_or_not bytes :
  Forall is_u8 bytes →
  (∃ p, packet_wf p ∧ bytes = encode p) ∨ (∀ p, packet_wf p → bytes ≠ encode p).
Proof.
  intros Hb. pose proof (validate_safe_aux bytes Hb) as Hs.
  destruct (validate bytes) as [f|e| |] eqn:E; [| |done..].
  - left. apply validate_inv in E as (p & Hp & -> & _); eauto.
  - right. intros p Hp ->. by rewrite (proj1 (validate_encode p Hp)) in E.
Qed.

(** The packet is addressed to this ingress, as it stands, and is the next. *)
Definition addressed (g : FrameIngress) (p : Packet) : Prop :=
  lenZ (encode p) ≤ max_packet_bytes g ∧
  pk_launch_nonce p = launch_nonce g ∧
  pk_runtime_generation p = runtime_generation g ∧
  (surface_generation g = 0 ∨ pk_surface_generation p = surface_generation g) ∧
  pk_resource_epoch p = resource_epoch g ∧
  (resources_ready g = true ∨ names_resources p = false) ∧
  pk_sequence p = Z.min (last_accepted_sequence g + 1) u64_max.

Lemma verdict_legal g p : verdict g p = Legal ↔ addressed g p.
Proof.
  unfold verdict, addressed.
  repeat case_bool_decide; try (split; [done|]; naive_solver lia).
  - destruct (resources_ready g), (names_resources p); cbn [negb andb]; try (split; [done|]; naive_solver lia).
  - destruct (resources_ready g) eqn:Er, (names_resources p) eqn:En; cbn [negb andb];
      (split; [intros Hv|naive_solver]); try done; split_and!; auto; try lia;
      destruct (decide (surface_generation g = 0)); auto; right; apply dec_stable; naive_solver.
Qed.

(** ** Runs of a session *)

(** An ingress, the frames its renderer holds, and the sequence numbers it has
    accepted, oldest first. *)
Record session := {
  ingress : FrameIngress;
  frames : list Pool.PooledFrame;
  accepted_log : list Z
}.

Inductive host_op :=
  | Submit (bytes : list Z)
  | Complete (i : nat)
  | SetSurface (generation : Z)
  | SetEpoch (epoch : Z)
  | MarkReady.

Definition op_ok (o : host_op) : Prop :=
  match o with Submit bytes => Forall is_u8 bytes | _ => True end.

(** [Complete] drops the frame: its credit and its buffer go back. *)
Definition session_step (s : session) (o : host_op) : outcome WireError session :=
  match o with
  | Submit bytes =>
      r ← submit (ingress s) bytes;
      let '(out, frame, g) := r in
      mret {| ingress := g;
              frames := match frame with Some f => frames s ++ [f] | None => frames s end;
              accepted_log := match decision out with
                              | Accepted => accepted_log s ++ [accepted_sequence out]
                              | _ => accepted_log s
                              end |}
  | Complete i =>
      match frames s !! i with
      | None => mret s
      | Some f =>
          let g := ingress s in
          let '(w, p) := Pool.drop_frame f (credits g) (pool g) in
          mret {| ingress := set_flow g w p (last_accepted_sequence g);
                  frames := delete i (frames s); accepted_log := accepted_log s |}
      end
  | SetSurface n =>
      mret {| ingress := snd (set_surface_generation (ingress s) n);
              frames := frames s; accepted_log := accepted_log s |}
  | SetEpoch n =>
      mret {| ingress := snd (set_resource_epoch (ingress s) n);
              frames := frames s; accepted_log := accepted_log s |}
  | MarkReady =>
      mret {| ingress := mark_resources_ready (ingress s);
              frames := frames s; accepted_log := accepted_log s |}
  end.

Fixpoint session_run (s : session) (os : list host_op) : outcome WireError session :=
  match os with
  | [] => mret s
  | o :: os => s ← session_step s o; session_run s os
  end.

Definition start (g : FrameIngress) : session :=
  {| ingress := g; frames := []; accepted_log := [] |}.

(** The first [n] sequence numbers an ingress hands out. *)
Definition sequences (n : nat) : list Z := (λ i, Z.min (Z.of_nat i + 1) u64_max) <$> seq 0 n.

Record session_ok (s : session) : Prop := {
  sok_ingress : ingress_ok (ingress s);
  sok_credits : in_flight (ingress s) = lenZ (frames s);
  sok_frames : Forall (λ f, 0 ≤ Pool.capacity (Pool.pf_bytes f) ∧
    ∃ p, packet_wf p ∧ Pool.contents (Pool.pf_bytes f) = encode p ∧
         pk_launch_nonce p = launch_nonce (ingress s) ∧
         pk_runtime_generation p = runtime_generation (ingress s)) (frames s);
  sok_log : accepted_log s = sequences (length (accepted_log s));
  sok_last : last_accepted_sequence (ingress s) = Z.min (lenZ (accepted_log s)) u64_max
}.

Lemma set_timelines_ok g a b c : ingress_ok g → ingress_ok (set_timelines g a b c).
Proof. intros []. by split. Qed.

Lemma session_ok_timelines s a b c :
  session_ok s →
  session_ok {| ingress := set_timelines (ingress s) a b c; frames := frames s;
                accepted_log := accepted_log s |}.
Proof. intros [Hg Hc Hf Hl Hn]. split; try done. by apply set_timelines_ok. Qed.

Lemma session_eta s :
  {| ingress := ingress s; frames := frames s; accepted_log := accepted_log s |} = s.
Proof. by destruct s. Qed.

Lemma session_ok_submit s bytes :
  session_ok s → Forall is_u8 bytes →
  ∃ s', session_step s (Submit bytes) = Ret s' ∧ session_ok s'.
Proof.
  intros Hok Hb. pose proof Hok as [Hg Hc Hf Hl Hn]. cbn [session_step].
  destruct (packet_or_not bytes Hb) as [(p & Hp & ->)|Hno].
  2:{ destruct (submit_malformed (ingress s) bytes Hb Hno) as (code & -> & _).
      cbn. rewrite session_eta. eauto. }
  destruct (submit_packet (ingress s) p Hg Hp) as (r & -> & Ha). cbn [mbind outcome_bind].
  unfold answers in Ha. destruct (verdict _ _) eqn:Ev.
  - destruct Ha as [[_ ->]|(Hlt & f & g' & -> & Hacc)].
    { cbn. rewrite session_eta. eauto. }
    cbn. eexists. split; [done|]. destruct Hacc as [Hct Hcap Hseq Hg' Hok'].
    apply verdict_legal in Ev as (_ & Hno & Hgen & _ & _ & _ & Hsq).
    split; cbn [ingress frames accepted_log].
    + done.
    + rewrite Hg'. unfold in_flight in *. cbn. rewrite length_app. cbn [length]. lia.
    + assert (launch_nonce g' = launch_nonce (ingress s) ∧
              runtime_generation g' = runtime_generation (ingress s)) as [-> ->].
      { rewrite Hg'. done. }
      apply Forall_app. split; [done|]. repeat constructor; [done|]. eauto 6.
    + rewrite Hsq, Hn, length_app. cbn [length]. unfold sequences. rewrite seq_app, fmap_app.
      cbn [seq fmap list_fmap Nat.add]. rewrite Hl at 1. unfold sequences. do 2 f_equal. lia.
    + rewrite Hg', length_app. cbn. rewrite Hsq, Hn. lia.
  - subst r. cbn. rewrite session_eta. eauto.
  - subst r. cbn. rewrite session_eta. eauto.
Qed.

(** Dropping a frame keeps the ingress in order. *)
Lemma drop_frame_ok g f :
  ingress_ok g → 0 ≤ Pool.capacity (Pool.pf_bytes f) →
  ingress_ok (set_flow g (Credits.release (credits g)) (Pool.release (pool g) (Pool.pf_bytes f))
                (last_accepted_sequence g)).
Proof.
  intros [] Hcap. split; cbn [set_flow credits pool max_packet_bytes last_accepted_sequence];
    unfold max_credits in *; cbn [credits set_flow]; try done.
  - by apply Credits.release_ok.
  - unfold Credits.release. by destruct (_ =? 0).
  - by apply Pool.pool_ok_release.
  - unfold Pool.release. destruct (_ <? _); [done|]. by destruct (_ <=? _).
  - unfold Pool.release, Credits.release.
    destruct (_ =? 0), (_ <? _); try done; by destruct (_ <=? _).
Qed.

Lemma session_ok_complete s i :
  session_ok s → ∃ s', session_step s (Complete i) = Ret s' ∧ session_ok s'.
Proof.
  intros Hok. pose proof Hok as [Hg Hc Hf Hl Hn]. cbn [session_step].
  destruct (frames s !! i) as [f|] eqn:Ef; [|by eauto]. unfold Pool.drop_frame.
  eexists. split; [done|].
  assert (lenZ (frames s) = 1 + lenZ (delete i (frames s))) as Hlen.
  { pose proof (lookup_lt_Some _ _ _ Ef).
    rewrite (length_delete (frames s) i) by eauto. lia. }
  rewrite Forall_lookup in Hf. pose proof (Hf _ _ Ef) as [Hcap _].
  split; cbn [ingress frames accepted_log set_flow last_accepted_sequence credits]; try done.
  - by apply drop_frame_ok.
  - unfold in_flight, Credits.release in *. cbn [credits set_flow].
    destruct (Z.eqb_spec (Credits.in_flight (credits (ingress s))) 0); cbn; lia.
  - apply Forall_delete. by rewrite Forall_lookup.
Qed.

Lemma session_ok_step s o :
  session_ok s → op_ok o → ∃ s', session_step s o = Ret s' ∧ session_ok s'.
Proof.
  intros Hs Ho. destruct o as [bytes|i|n|n|]; cbn [op_ok] in Ho.
  - by apply session_ok_submit.
  - by apply session_ok_complete.
  - eexists. split; [done|]. unfold set_surface_generation.
    destruct (_ <? _); cbn [snd]; [by rewrite session_eta|by apply session_ok_timelines].
  - eexists. split; [done|]. unfold set_resource_epoch.
    destruct (_ <? _); cbn [snd]; [by rewrite session_eta|].
    destruct (negb _); cbn [snd]; [by apply session_ok_timelines|by rewrite session_eta].
  - eexists. split; [done|]. by apply session_ok_timelines.
Qed.

Lemma session_ok_run s os :
  session_ok s → Forall op_ok os → ∃ s', session_run s os = Ret s' ∧ session_ok s'.
Proof.
  intros Hs Hos. revert s Hs. induction Hos as [|o os Ho Hos IH]; intros s Hs; cbn [session_run].
  { eauto. }
  destruct (session_ok_step s o Hs Ho) as (s1 & -> & H1). cbn [mbind outcome_bind]. auto.
Qed.

(** The ways to build an ingress. *)
Inductive built : FrameIngress → Prop :=
  | built_new nonce generation : built (ingress_new nonce generation)
  | built_credits g n : built g → built (with_max_credits g n)
  | built_packet g n : built g → built (with_max_packet_bytes g n).

Lemma built_ok g :
  built g → ingress_ok g ∧ last_accepted_sequence g = 0 ∧ in_flight g = 0.
Proof.
  induction 1 as [nonce gen|g n _ [[Hw Hd Hp Hc Hb Hi Hs] [Hl Hf]]|g n _ [[Hw Hd Hp Hc Hb Hi Hs] [Hl Hf]]].
  - split; [|done]. split; cbn; try done; repeat split; cbn; try done; lia.
  - unfold with_max_credits, clamp, max_credits, MAX_CREDITS, HEADER_BYTES, MAX_TOTAL_BYTES in *.
    split; [|done].
    split; unfold max_credits, MAX_CREDITS; cbn; try done; repeat split; cbn; try done; try lia.
  - unfold with_max_packet_bytes, clamp, max_credits, in_flight, HEADER_BYTES, MAX_TOTAL_BYTES, MAX_CREDITS in *.
    split; [|done]. destruct Hw.
    split; unfold max_credits, HEADER_BYTES, MAX_TOTAL_BYTES, MAX_CREDITS; cbn; try done;
      repeat split; cbn; try done; try lia.
    assert (Z.max 80 (Z.min n (4 * 1024 * 1024)) ≤ 4 * 1024 * 1024) by lia. nia.
Qed.

Lemma start_ok g : built g → session_ok (start g).
Proof. intros (Hok & Hl & Hf)%built_ok. by split. Qed.

(** * Properties *)

(** C8: what gets in.  [submit] answers every byte string without a panic.  It
    accepts exactly the encodings of well-formed packets that are within the
    session's ceiling, carry its launch nonce, its runtime generation, its
    surface generation (once it has one) and its resource epoch, name resources
    only once they are ready, and have the next sequence number; and only while
    a credit is left. *)
Theorem submit_accepts_iff (g : FrameIngress) (bytes : list Z)
    (Hg : ingress_ok g) (Hb : Forall is_u8 bytes) :
  ∃ out frame g', submit g bytes = Ret (out, frame, g') ∧ ingress_ok g' ∧
    (decision out = Accepted ↔
     in_flight g < max_credits g ∧ ∃ p, packet_wf p ∧ bytes = encode p ∧ addressed g p) ∧
    (decision out = WouldBlock ↔
     in_flight g = max_credits g ∧ ∃ p, packet_wf p ∧ bytes = encode p ∧ addressed g p).
Proof.
  destruct (packet_or_not bytes Hb) as [(p & Hp & ->)|Hno].
  2:{ destruct (submit_malformed g bytes Hb Hno) as (code & -> & _).
      do 3 eexists. split; [done|]. split; [done|]. split; (split; [done|]);
        intros (_ & p & Hp & Heq & _); by destruct (Hno p). }
  assert (∀ q, packet_wf q → encode p = encode q → addressed g q → verdict g p = Legal) as Hinj.
  { intros q Hq Heq Ha. apply verdict_legal. pose proof (proj1 (validate_encode q Hq)) as Hv.
    rewrite <- Heq, (proj1 (validate_encode p Hp)) in Hv. apply Ret_inj in Hv.
    pose proof (proj2 (validate_encode q Hq)) as Hsec.
    rewrite <- Hv, (proj2 (validate_encode p Hp)) in Hsec. apply Ret_inj in Hsec.
    unfold addressed, names_resources in *. rewrite Heq, Hsec.
    change (pk_launch_nonce p) with (wf_launch_nonce (frame_of p)).
    change (pk_runtime_generation p) with (wf_runtime_generation (frame_of p)).
    change (pk_surface_generation p) with (wf_surface_generation (frame_of p)).
    change (pk_resource_epoch p) with (wf_resource_epoch (frame_of p)).
    change (pk_sequence p) with (wf_sequence (frame_of p)). by rewrite Hv. }
  destruct (submit_packet g p Hg Hp) as ([[out fr] g'] & -> & Ha). exists out, fr, g'.
  split; [done|]. unfold answers in Ha. destruct (verdict g p) eqn:Ev.
  - apply verdict_legal in Ev. destruct Ha as [[? [= -> -> ->]]|(? & f & g1 & [= -> -> ->] & Hacc)].
    + split; [done|]. split; [split; [done|lia]|]. split; [|done]. eauto 6.
    + split; [apply Hacc|]. split; [|split; [done|lia]]. split; [|done]. eauto 6.
  - injection Ha as -> -> ->. split; [done|].
    split; (split; [done|]); intros (_ & q & Hq & Heq & Haq); by specialize (Hinj q Hq Heq Haq).
  - injection Ha as -> -> ->. split; [done|].
    split; (split; [done|]); intros (_ & q & Hq & Heq & Haq); by specialize (Hinj q Hq Heq Haq).
Qed.

(** C35: a packet that is not accepted leaves no trace, and its answer says why.
    Unless the decision is [Accepted] the ingress is unchanged, no frame comes
    out and no sequence number is reported; the wire error code is non-zero
    exactly for [Rejected], and then the code of a wire error (1..=20, what
    [validate] answered) or one of [INGRESS_ERROR_CODES], which share none.  An
    accepted packet takes one credit, advances the sequence by one and comes out
    as an owned copy of its bytes. *)
Theorem submit_outcome_complete (g : FrameIngress) (bytes : list Z)
    (Hg : ingress_ok g) (Hb : Forall is_u8 bytes) :
  ∃ out frame g', submit g bytes = Ret (out, frame, g') ∧
    (decision out ≠ Accepted → g' = g ∧ frame = None ∧ accepted_sequence out = 0) ∧
    (wire_error_code out ≠ 0 ↔ decision out = Rejected) ∧
    (decision out = Rejected →
       (∃ e, validate bytes = Fail e ∧ wire_error_code out = WireError_code e ∧
             wire_error_code out < INGRESS_ERROR_BASE) ∨
       wire_error_code out ∈ INGRESS_ERROR_CODES ∧ INGRESS_ERROR_BASE ≤ wire_error_code out) ∧
    (decision out = Accepted →
       ∃ f, frame = Some f ∧ Pool.contents (Pool.pf_bytes f) = bytes ∧
       Pool.pf_sequence f = accepted_sequence out ∧
       accepted_sequence out = last_accepted_sequence g' ∧
       last_accepted_sequence g' = Z.min (last_accepted_sequence g + 1) u64_max ∧
       in_flight g' = in_flight g + 1 ∧
       io_remaining_credits out = max_credits g' - in_flight g').
Proof.
  assert (∀ e, 0 < WireError_code e < INGRESS_ERROR_BASE) as Hcode
    by (intros []; cbn; unfold INGRESS_ERROR_BASE; lia).
  destruct (packet_or_not bytes Hb) as [(p & Hp & ->)|Hno].
  2:{ destruct (submit_malformed g bytes Hb Hno) as (code & -> & Hwhy).
      do 3 eexists. split; [done|]. cbn [decision wire_error_code refused accepted_sequence].
      split; [done|]. destruct Hwhy as [(_ & ->)|(e & He & ->)].
      - split_and!; try done. intros _. right. split; [|done].
        by apply (bool_decide_unpack _).
      - pose proof (Hcode e). split_and!; try done.
        + split; [done|]. lia.
        + intros _. left. eauto with lia. }
  destruct (submit_packet g p Hg Hp) as ([[out fr] g'] & -> & Ha). exists out, fr, g'.
  split; [done|]. unfold answers in Ha. destruct (verdict g p) eqn:Ev.
  - apply verdict_legal in Ev as (_&_&_&_&_&_&Hsq).
    destruct Ha as [[? [= -> -> ->]]|(? & f & g1 & [= -> -> ->] & [H1 H2 H3 H4 H5])];
      cbn [decision wire_error_code blocked_outcome accepted_outcome accepted_sequence io_remaining_credits].
    + split_and!; try done.
    + split_and!; try done. intros _. exists f. rewrite H4. unfold in_flight, max_credits.
      cbn. split_and!; try done; unfold in_flight, max_credits in *; lia.
  - injection Ha as -> -> ->. cbn [decision wire_error_code refused accepted_sequence].
    assert (code ∈ INGRESS_ERROR_CODES) as Hin.
    { unfold verdict in Ev. repeat case_match; simplify_eq; by apply (bool_decide_unpack _). }
    assert (INGRESS_ERROR_BASE ≤ code) as Hle.
    { assert (Forall (λ c, INGRESS_ERROR_BASE ≤ c) INGRESS_ERROR_CODES) as HF
        by by apply (bool_decide_unpack _).
      rewrite Forall_forall in HF. auto. }
    unfold INGRESS_ERROR_BASE in *. split_and!; try done; [split; [done|lia]|auto].
  - injection Ha as -> -> ->. cbn. split_and!; try done.
Qed.

(** Whether a packet is legal does not depend on how busy the renderer is.
    Two ingresses that the host has told the same things, whatever their credits
    and buffers, give any bytes the same decision and code, but for [Accepted]
    on one and [WouldBlock] on the other. *)
Theorem submit_legality_ignores_load (g1 g2 : FrameIngress) (bytes : list Z)
    (H1 : ingress_ok g1) (H2 : ingress_ok g2) (Hb : Forall is_u8 bytes)
    (Hsame : g2 = set_flow g1 (credits g2) (pool g2) (last_accepted_sequence g1)) :
  ∃ out1 f1 g1' out2 f2 g2', submit g1 bytes = Ret (out1, f1, g1') ∧
    submit g2 bytes = Ret (out2, f2, g2') ∧
    wire_error_code out1 = wire_error_code out2 ∧
    (decision out1 = decision out2 ∨
     (∃ p, packet_wf p ∧ bytes = encode p ∧ addressed g1 p ∧ addressed g2 p) ∧
     decision out1 ∈ [Accepted; WouldBlock] ∧ decision out2 ∈ [Accepted; WouldBlock]).
Proof.
  destruct (packet_or_not bytes Hb) as [(p & Hp & ->)|Hno].
  - destruct (submit_packet g1 p H1 Hp) as ([[o1 f1] g1'] & -> & A1).
    destruct (submit_packet g2 p H2 Hp) as ([[o2 f2] g2'] & -> & A2).
    exists o1, f1, g1', o2, f2, g2'. split; [done|]. split; [done|].
    assert (verdict g2 p = verdict g1 p) as Hv by (rewrite Hsame; done).
    unfold answers in *. rewrite Hv in A2. destruct (verdict g1 p) eqn:E.
    + rewrite verdict_legal in Hv, E.
      destruct A1 as [[_ [= -> -> ->]]|(_ & ? & ? & [= -> -> ->] & _)],
               A2 as [[_ [= -> -> ->]]|(_ & ? & ? & [= -> -> ->] & _)];
        cbn; (split; [done|]); auto; right.
      all: split; [exists p; split_and!; auto|split; by apply (bool_decide_unpack _)].
      all: unfold addressed in *; rewrite Hsame; done.
    + injection A1 as -> -> ->. injection A2 as -> -> ->. auto.
    + injection A1 as -> -> ->. injection A2 as -> -> ->. auto.
  - unfold submit. rewrite Hsame. cbn [max_packet_bytes set_flow].
    destruct (_ <? _); [do 6 eexists; split; [done|]; split; [done|]; auto|].
    pose proof (validate_safe_aux bytes Hb) as Hs.
    destruct (validate bytes) as [f|e| |] eqn:E; try done.
    + apply validate_inv in E as (p & Hp & -> & _); [|done]. by destruct (Hno p).
    + do 6 eexists; split; [done|]; split; [done|]; auto.
Qed.

(** C11: every run of a session keeps its accounts.  From any ingress as built,
    whatever packets are offered (legal or not), frames completed and timelines
    moved, in whatever order, nothing panics; the sequence numbers accepted are
    1, 2, 3, ... with no gap, repeat or reorder; the credits in flight are
    exactly the frames the renderer holds, so never more than the window and
    none once all are completed; and every frame it holds is a well-formed packet
    of this launch and this generation. *)
Theorem session_accounts (g : FrameIngress) (os : list host_op)
    (Hg : built g) (Hos : Forall op_ok os) :
  ∃ s, session_run (start g) os = Ret s ∧
    accepted_log s = sequences (length (accepted_log s)) ∧
    in_flight (ingress s) = lenZ (frames s) ∧
    lenZ (frames s) ≤ max_credits (ingress s) ≤ MAX_CREDITS ∧
    (∀ f, f ∈ frames s → ∃ p, packet_wf p ∧ Pool.contents (Pool.pf_bytes f) = encode p ∧
       pk_launch_nonce p = launch_nonce (ingress s) ∧
       pk_runtime_generation p = runtime_generation (ingress s)).
Proof.
  destruct (session_ok_run _ os (start_ok g Hg) Hos) as (s & Hr & [Hi Hc Hf Hl _]).
  exists s. destruct Hi as [[? ?] ? ? ? ? ? ?]. unfold max_credits, in_flight in *.
  split_and!; try done; try lia. intros f Hin. rewrite Forall_forall in Hf. by apply Hf.
Qed.

(** Timelines only move forward, and moving one closes the door on what came
    before.  A move backwards is refused and changes nothing; advancing the epoch
    clears readiness; and after an advance no packet of the old epoch, and none
    of the old surface, is accepted, and none that names a resource until the
    host says they are ready. *)
Theorem timelines_advance (g : FrameIngress) (n : Z) :
  (n < surface_generation g → set_surface_generation g n = (false, g)) ∧
  (n < resource_epoch g → set_resource_epoch g n = (false, g)) ∧
  (surface_generation g ≤ n → ∃ g', set_surface_generation g n = (true, g') ∧
     surface_generation g' = n ∧ resource_epoch g' = resource_epoch g ∧
     ∀ p, n ≠ 0 → pk_surface_generation p ≠ n → ¬ addressed g' p) ∧
  (resource_epoch g ≤ n → ∃ g', set_resource_epoch g n = (true, g') ∧
     resource_epoch g' = n ∧ surface_generation g' = surface_generation g ∧
     (∀ p, pk_resource_epoch p ≠ n → ¬ addressed g' p) ∧
     (resource_epoch g < n → resources_ready g' = false ∧
        ∀ p, names_resources p = true → ¬ addressed g' p)) ∧
  resources_ready (mark_resources_ready g) = true.
Proof.
  unfold set_surface_generation, set_resource_epoch, addressed. split_and!.
  - intros H. by rewrite (proj2 (Z.ltb_lt _ _)).
  - intros H. by rewrite (proj2 (Z.ltb_lt _ _)).
  - intros H. rewrite (proj2 (Z.ltb_ge _ _)) by done. eexists. split; [done|].
    cbn. split_and!; try done. naive_solver.
  - intros H. rewrite (proj2 (Z.ltb_ge _ _)) by done.
    destruct (Z.eqb_spec n (resource_epoch g)) as [->|Hne]; cbn [negb].
    + exists g. split_and!; try done; [naive_solver|lia].
    + eexists. split; [done|]. cbn. split_and!; try done; [naive_solver|].
      intros _. split; [done|]. intros p Hp. rewrite Hp. naive_solver.
  - done.
Qed.

End Ingress.

(** * A concrete session *)

#[local] Existing Instances crc_ieee Pool.exact_alloc.

Definition sample_ingress : FrameIngress := ingress_new 0x0123456789ABCDEF0123456789ABCDEF 1.

Lemma sample_ingress_ok : ingress_ok sample_ingress.
Proof. apply built_ok. apply built_new. Qed.

Lemma submit_accepts_iff_witness : ∃ out frame g',
  submit sample_ingress (encode sample_packet) = Ret (out, frame, g') ∧
  decision out = Accepted.
Proof.
  destruct (submit_accepts_iff sample_ingress (encode sample_packet) sample_ingress_ok
              sample_packet_bytes) as (out & fr & g' & Hs & _ & [_ Ha] & _).
  exists out, fr, g'. split; [exact Hs|]. apply Ha. split; [done|].
  exists sample_packet. split; [exact sample_packet_wf|]. split; [done|].
  split; [apply Z.leb_le; by vm_compute|]. split_and!; try reflexivity; [by left|by right].
Defined.

Lemma submit_outcome_complete_witness : ∃ out frame g',
  submit sample_ingress [1; 2; 3] = Ret (out, frame, g') ∧ (decision out ≠ Accepted → g' = sample_ingress).
Proof.
  destruct (submit_outcome_complete sample_ingress [1; 2; 3] sample_ingress_ok)
    as (out & fr & g' & Hs & Hn & _).
  - by apply (bool_decide_unpack _).
  - exists out, fr, g'. split; [exact Hs|]. intros Hd. exact (proj1 (Hn Hd)).
Defined.

(** The same ingress with every credit out. *)
Definition busy_ingress : FrameIngress :=
  set_flow sample_ingress {| Credits.max := 2; Credits.in_flight := 2 |} (pool sample_ingress) 0.

Lemma busy_ingress_ok : ingress_ok busy_ingress.
Proof. destruct sample_ingress_ok. by split. Qed.

Lemma submit_legality_ignores_load_witness : ∃ out1 f1 g1' out2 f2 g2',
  submit sample_ingress (encode sample_packet) = Ret (out1, f1, g1') ∧
  submit busy_ingress (encode sample_packet) = Ret (out2, f2, g2') ∧
  wire_error_code out1 = wire_error_code out2.
Proof.
  destruct (submit_legality_ignores_load sample_ingress busy_ingress (encode sample_packet)
    sample_ingress_ok busy_ingress_ok sample_packet_bytes eq_refl)
    as (o1 & f1 & g1 & o2 & f2 & g2 & H1 & H2 & H3 & _).
  exists o1, f1, g1, o2, f2, g2. split; [exact H1|]. split; [exact H2|exact H3].
Defined.

Lemma session_accounts_witness : ∃ s,
  session_run (start (with_max_credits sample_ingress 1))
    [Submit (encode sample_packet); SetEpoch 3; Complete 0; MarkReady] = Ret s ∧
  in_flight (ingress s) = lenZ (frames s).
Proof.
  destruct (session_accounts (with_max_credits sample_ingress 1)
    [Submit (encode sample_packet); SetEpoch 3; Complete 0; MarkReady]) as (s & Hr & _ & Hc & _).
  - apply built_credits, built_new.
  - apply Forall_cons; split; [exact sample_packet_bytes|by repeat constructor].
  - exists s. split; [exact Hr|exact Hc].
Defined.
