(* ===== verification/Sync.v ===== *)
(** The synchronous mailbox of [engine/crates/frame-wire] ([sync.rs]): one slot,
    a state machine, and the rules that keep a blocked producer safe.

    Every call of the host is an operation of [sync_step]; the theorems are
    about any sequence of them. *)
From S2P Require Import Prelude Wire.

(** * Constants and layout *)

Definition SYNC_RECORD_BYTES : Z := 64.
Definition MAX_REPLY_BYTES : Z := 16 * 1024 * 1024.
Definition MAX_IN_FLIGHT : Z := 1.

Definition SYNC_OFF_STATE : Z := 0.
Definition SYNC_OFF_REQUEST_ID : Z := 4.
Definition SYNC_OFF_RUNTIME_GENERATION : Z := 8.
Definition SYNC_OFF_SURFACE_GENERATION : Z := 16.
Definition SYNC_OFF_RESOURCE_EPOCH : Z := 24.
Definition SYNC_OFF_TRIGGERING_SEQUENCE : Z := 32.
Definition SYNC_OFF_OPERATION : Z := 40.
Definition SYNC_OFF_MAX_REPLY_BYTES : Z := 44.
Definition SYNC_OFF_REPLY_BYTES : Z := 48.
Definition SYNC_OFF_ERROR : Z := 52.
Definition SYNC_OFF_DEADLINE_NANOS : Z := 56.

Definition SYNC_LAYOUT : list HeaderField := [
  {| hf_offset := SYNC_OFF_STATE; hf_size := 4; hf_name := "state" |};
  {| hf_offset := SYNC_OFF_REQUEST_ID; hf_size := 4; hf_name := "request_id" |};
  {| hf_offset := SYNC_OFF_RUNTIME_GENERATION; hf_size := 8; hf_name := "runtime_generation" |};
  {| hf_offset := SYNC_OFF_SURFACE_GENERATION; hf_size := 8; hf_name := "surface_generation" |};
  {| hf_offset := SYNC_OFF_RESOURCE_EPOCH; hf_size := 8; hf_name := "resource_epoch" |};
  {| hf_offset := SYNC_OFF_TRIGGERING_SEQUENCE; hf_size := 8; hf_name := "triggering_sequence" |};
  {| hf_offset := SYNC_OFF_OPERATION; hf_size := 4; hf_name := "operation" |};
  {| hf_offset := SYNC_OFF_MAX_REPLY_BYTES; hf_size := 4; hf_name := "max_reply_bytes" |};
  {| hf_offset := SYNC_OFF_REPLY_BYTES; hf_size := 4; hf_name := "reply_bytes" |};
  {| hf_offset := SYNC_OFF_ERROR; hf_size := 4; hf_name := "error" |};
  {| hf_offset := SYNC_OFF_DEADLINE_NANOS; hf_size := 8; hf_name := "deadline_nanos" |}
].

(** * States and errors *)

Inductive SyncState := Free | Pending | Ready | Failed | Cancelled.

#[global] Instance SyncState_eq_dec : EqDecision SyncState.
Proof. solve_decision. Defined.

Definition SyncState_ALL : list SyncState := [Free; Pending; Ready; Failed; Cancelled].

Definition SyncState_code (s : SyncState) : Z :=
  match s with Free => 0 | Pending => 1 | Ready => 2 | Failed => 3 | Cancelled => 4 end.

Definition SyncState_from_code (code : Z) : option SyncState :=
  match code with
  | 0 => Some Free
  | 1 => Some Pending
  | 2 => Some Ready
  | 3 => Some Failed
  | 4 => Some Cancelled
  | _ => None
  end.

Definition is_settled (s : SyncState) : bool :=
  match s with Ready | Failed | Cancelled => true | _ => false end.

Inductive SyncError :=
  | AlreadyPending
  | RequestIdMismatch
  | StaleGeneration
  | ReplyTooLarge
  | TimedOut
  | SessionEnded
  | UnsupportedOperation
  | LateReply
  | BadDeadline
  | BadReplyReservation.

#[global] Instance SyncError_eq_dec : EqDecision SyncError.
Proof. solve_decision. Defined.

Definition SyncError_ALL : list SyncError := [
  AlreadyPending; RequestIdMismatch; StaleGeneration; ReplyTooLarge; TimedOut;
  SessionEnded; UnsupportedOperation; LateReply; BadDeadline; BadReplyReservation].

Definition SyncError_code (e : SyncError) : Z :=
  match e with
  | AlreadyPending => 1
  | RequestIdMismatch => 2
  | StaleGeneration => 3
  | ReplyTooLarge => 4
  | TimedOut => 5
  | SessionEnded => 6
  | UnsupportedOperation => 7
  | LateReply => 8
  | BadDeadline => 9
  | BadReplyReservation => 10
  end.

(** * The mailbox *)

Record SyncRequest := {
  request_id : Z;
  rq_runtime_generation : Z;
  rq_surface_generation : Z;
  rq_resource_epoch : Z;
  triggering_sequence : Z;
  operation : Z;
  max_reply_bytes : Z;
  deadline_nanos : Z
}.

Record SyncMailbox := {
  mb_runtime_generation : Z;
  state : SyncState;
  request : option SyncRequest;
  error : option SyncError;
  reply_bytes : Z;
  next_request_id : Z;
  ended : bool
}.

Definition mailbox_new (runtime_generation : Z) : SyncMailbox := {|
  mb_runtime_generation := runtime_generation; state := Free; request := None; error := None;
  reply_bytes := 0; next_request_id := 1; ended := false |}.

(** What an operation leaves, and the fields no operation but [post] and
    [end_session] touches. *)
Definition settle (m : SyncMailbox) (s : SyncState) (e : option SyncError) (n : Z) : SyncMailbox := {|
  mb_runtime_generation := mb_runtime_generation m; state := s; request := request m;
  error := e; reply_bytes := n; next_request_id := next_request_id m; ended := ended m |}.

Definition fail (m : SyncMailbox) (e : SyncError) : SyncMailbox := settle m Failed (Some e) 0.

(** [SyncRequest { request_id: id, ..request }]. *)
Definition with_request_id (r : SyncRequest) (id : Z) : SyncRequest := {|
  request_id := id; rq_runtime_generation := rq_runtime_generation r;
  rq_surface_generation := rq_surface_generation r; rq_resource_epoch := rq_resource_epoch r;
  triggering_sequence := triggering_sequence r; operation := operation r;
  max_reply_bytes := max_reply_bytes r; deadline_nanos := deadline_nanos r |}.

Definition post (m : SyncMailbox) (r : SyncRequest) (now_nanos : Z) :
    (Z + SyncError) * SyncMailbox :=
  if ended m then (inr SessionEnded, m) else
  if decide (state m = Pending) then (inr AlreadyPending, m) else
  if negb (rq_runtime_generation r =? mb_runtime_generation m) then (inr StaleGeneration, m) else
  if (max_reply_bytes r =? 0) || (MAX_REPLY_BYTES <? max_reply_bytes r)
  then (inr BadReplyReservation, m) else
  if deadline_nanos r <=? now_nanos then (inr BadDeadline, m) else
  let id := next_request_id m in
  (inl id, {|
     mb_runtime_generation := mb_runtime_generation m; state := Pending;
     request := Some (with_request_id r id); error := None; reply_bytes := 0;
     next_request_id := Z.max (u32_wrapping_add (next_request_id m) 1) 1; ended := ended m |}).

Definition complete (m : SyncMailbox) (id n : Z) : (unit + SyncError) * SyncMailbox :=
  match request m with
  | None => (inr LateReply, m)
  | Some r =>
      if negb (bool_decide (state m = Pending)) then (inr LateReply, m) else
      if negb (id =? request_id r) then (inr RequestIdMismatch, fail m RequestIdMismatch) else
      if max_reply_bytes r <? n then (inr ReplyTooLarge, fail m ReplyTooLarge) else
      (inl tt, settle m Ready None n)
  end.

Definition expire_if_due (m : SyncMailbox) (now_nanos : Z) : bool * SyncMailbox :=
  if negb (bool_decide (state m = Pending)) then (false, m) else
  match request m with
  | None => (false, m)
  | Some r =>
      if now_nanos <? deadline_nanos r then (false, m) else (true, fail m TimedOut)
  end.

Definition cancel (m : SyncMailbox) : bool * SyncMailbox :=
  if negb (bool_decide (state m = Pending)) then (false, m)
  else (true, settle m Cancelled None (reply_bytes m)).

Definition invalidate (m : SyncMailbox) : bool * SyncMailbox :=
  if negb (bool_decide (state m = Pending)) then (false, m)
  else (true, fail m StaleGeneration).

Definition set_ended (m : SyncMailbox) : SyncMailbox := {|
  mb_runtime_generation := mb_runtime_generation m; state := state m; request := request m;
  error := error m; reply_bytes := reply_bytes m; next_request_id := next_request_id m;
  ended := true |}.

Definition end_session (m : SyncMailbox) : bool * SyncMailbox :=
  let m := set_ended m in
  if negb (bool_decide (state m = Pending)) then (false, m) else (true, fail m SessionEnded).

Definition acknowledge (m : SyncMailbox) : SyncMailbox :=
  if is_settled (state m) then {|
    mb_runtime_generation := mb_runtime_generation m; state := Free; request := None;
    error := None; reply_bytes := 0; next_request_id := next_request_id m; ended := ended m |}
  else m.

(** * The state machine *)

Inductive sync_op :=
  | Post (r : SyncRequest) (now_nanos : Z)
  | Complete (id n : Z)
  | Expire (now_nanos : Z)
  | Cancel
  | Invalidate
  | EndSession
  | Acknowledge.

(** What the caller learns: the id of a request it posted, that its call settled
    the outstanding request, or neither. *)
Inductive sync_event := Posted (id : Z) | Settled | Nothing.

Definition sync_step (m : SyncMailbox) (o : sync_op) : sync_event * SyncMailbox :=
  match o with
  | Post r now =>
      match post m r now with (inl id, m) => (Posted id, m) | (inr _, m) => (Nothing, m) end
  | Complete id n =>
      match complete m id n with
      | (inr LateReply, m) => (Nothing, m)
      | (_, m) => (Settled, m)
      end
  | Expire now => match expire_if_due m now with (b, m) => (if b then Settled else Nothing, m) end
  | Cancel => match cancel m with (b, m) => (if b then Settled else Nothing, m) end
  | Invalidate => match invalidate m with (b, m) => (if b then Settled else Nothing, m) end
  | EndSession => match end_session m with (b, m) => (if b then Settled else Nothing, m) end
  | Acknowledge => (Nothing, acknowledge m)
  end.

Fixpoint sync_run (m : SyncMailbox) (os : list sync_op) : list sync_event * SyncMailbox :=
  match os with
  | [] => ([], m)
  | o :: os =>
      let (e, m) := sync_step m o in
      let (es, m) := sync_run m os in (e :: es, m)
  end.

(** The fields of a request and of a call are machine integers. *)
Definition op_wf (o : sync_op) : Prop :=
  match o with
  | Post r _ => 0 ≤ max_reply_bytes r
  | Complete id n => is_u32 id ∧ 0 ≤ n
  | _ => True
  end.

(** A request the mailbox holds. *)
Definition request_ok (m : SyncMailbox) (r : SyncRequest) : Prop :=
  1 ≤ request_id r ≤ u32_max ∧ rq_runtime_generation r = mb_runtime_generation m ∧
  1 ≤ max_reply_bytes r ≤ MAX_REPLY_BYTES.

Record mailbox_ok (m : SyncMailbox) : Prop := {
  ok_request : match request m with
               | None => state m = Free
               | Some r => state m ≠ Free ∧ request_ok m r ∧
                           0 ≤ reply_bytes m ≤ max_reply_bytes r
               end;
  ok_reply : state m ≠ Ready → reply_bytes m = 0;
  ok_error : is_Some (error m) ↔ state m = Failed;
  ok_next : 1 ≤ next_request_id m ≤ u32_max;
  ok_ended : ended m = true → state m ≠ Pending
}.

(** * Lemmas *)

Definition is_posted (e : sync_event) : bool := match e with Posted _ => true | _ => false end.
Definition is_settle (e : sync_event) : bool := match e with Settled => true | _ => false end.
Definition count (p : sync_event → bool) (es : list sync_event) : nat := length (List.filter p es).

(** The number of requests outstanding. *)
Definition outstanding (m : SyncMailbox) : nat :=
  if decide (state m = Pending) then 1%nat else 0%nat.

Lemma next_id_range n : 1 ≤ n ≤ u32_max → 1 ≤ Z.max (u32_wrapping_add n 1) 1 ≤ u32_max.
Proof.
  unfold u32_wrapping_add, u32_max. pose proof (Z.mod_pos_bound (n + 1) (2 ^ 32)). lia.
Qed.

Lemma settle_ok m s e n r :
  mailbox_ok m → request m = Some r → s ≠ Free → s ≠ Pending →
  (is_Some e ↔ s = Failed) → (s ≠ Ready → n = 0) → 0 ≤ n ≤ max_reply_bytes r →
  mailbox_ok (settle m s e n).
Proof.
  intros [Hr Hp He Hn Hd] Hreq ?????. rewrite Hreq in Hr. split; cbn; try done.
  rewrite Hreq. destruct Hr as (_ & Hr & _). done.
Qed.

Lemma pending_request m :
  mailbox_ok m → state m = Pending → ∃ r, request m = Some r ∧ request_ok m r.
Proof.
  intros [Hr _ _ _ _] Hs. destruct (request m) as [r|]; [|congruence]. exists r. by destruct Hr as (_&?&_).
Qed.

(** Each step keeps the invariant, and balances posts against settlements. *)
Lemma sync_step_ok m o :
  mailbox_ok m → op_wf o →
  mailbox_ok (snd (sync_step m o)) ∧
  (outstanding (snd (sync_step m o)) + count is_settle [fst (sync_step m o)] =
   outstanding m + count is_posted [fst (sync_step m o)])%nat ∧
  (ended m = true → ended (snd (sync_step m o)) = true ∧ is_posted (fst (sync_step m o)) = false).
Proof.
  intros Hm Ho. pose proof Hm as [Hreq Hrep Herr Hnext Hend].
  destruct o as [r now|id n|now| | | |]; cbn [sync_step op_wf] in *.
  - unfold post. destruct (ended m) eqn:Ee; [done|]. case_decide; [done|].
    destruct (negb _) eqn:E1; [done|]. destruct (_ || _) eqn:E2; [done|].
    destruct (_ <=? _) eqn:E3; [done|]. bool_to_prop. cbn. split_and!; [|unfold outstanding; cbn [state]; rewrite decide_True, (decide_False _ _ H) by done; done|done].
    split; cbn; try done; [|by apply next_id_range].
    split; [done|]. unfold request_ok, MAX_REPLY_BYTES in *. cbn. lia.
  - unfold complete. destruct (request m) as [r|] eqn:Er; [|done].
    destruct (negb _) eqn:E1; [done|]. bool_to_prop.
    destruct Hreq as (_ & Hr & _). unfold request_ok in Hr.
    destruct (negb (id =? _)) eqn:E2; [|destruct (_ <? n) eqn:E3]; bool_to_prop; cbn;
      unfold outstanding; rewrite (decide_True _ _ E1); cbn.
    all: split; [eapply settle_ok; try done; try lia; by split|].
    all: split; [done|]; intros Ht; specialize (Hend Ht); done.
  - unfold expire_if_due. destruct (negb _) eqn:E1; [done|]. bool_to_prop.
    destruct (request m) as [r|] eqn:Er; [|done].
    destruct (_ <? _); [done|]. cbn. unfold outstanding; rewrite (decide_True _ _ E1); cbn.
    destruct Hreq as (_ & Hr & _). unfold request_ok in Hr.
    split; [eapply settle_ok; try done; try lia; by split|]. split; [done|]. intros Ht. by specialize (Hend Ht).
  - unfold cancel. destruct (negb _) eqn:E1; [done|]. bool_to_prop. cbn.
    destruct (pending_request m Hm E1) as (r & Er & Hr). unfold request_ok in Hr.
    unfold outstanding; rewrite (decide_True _ _ E1); cbn. rewrite Hrep by congruence.
    split; [eapply settle_ok; try done; try lia|]. split; [done|]. intros Ht. by specialize (Hend Ht).
  - unfold invalidate. destruct (negb _) eqn:E1; [done|]. bool_to_prop. cbn.
    destruct (pending_request m Hm E1) as (r & Er & Hr). unfold request_ok in Hr.
    unfold outstanding; rewrite (decide_True _ _ E1); cbn.
    split; [eapply settle_ok; try done; try lia; by split|]. split; [done|]. intros Ht. by specialize (Hend Ht).
  - unfold end_session. destruct (negb _) eqn:E1; bool_to_prop; cbn in *.
    + split; [by split|]. split; [|done]. unfold outstanding. cbn. lia.
    + destruct (pending_request m Hm E1) as (r & Er & Hr). unfold request_ok in Hr.
      unfold outstanding; rewrite (decide_True _ _ E1); cbn.
      split; [|done]. rewrite Er in Hreq. split; cbn; rewrite ?Er; try done.
      unfold request_ok in *. cbn. split_and!; try done; lia.
  - unfold acknowledge. destruct (is_settled (state m)) eqn:E; [|done]. cbn.
    split; [split; cbn; try done|]. split; [|done].
    unfold outstanding. cbn [state]. rewrite !decide_False; [done|..|done].
    intros Hs. by rewrite Hs in E.
Qed.

Lemma count_cons p e es : count p (e :: es) = (count p [e] + count p es)%nat.
Proof. unfold count. cbn. by destruct (p e). Qed.

Lemma sync_run_ok m os :
  mailbox_ok m → Forall op_wf os →
  mailbox_ok (snd (sync_run m os)) ∧
  (outstanding (snd (sync_run m os)) + count is_settle (fst (sync_run m os)) =
   outstanding m + count is_posted (fst (sync_run m os)))%nat ∧
  (ended m = true → ended (snd (sync_run m os)) = true ∧
     Forall (λ e, is_posted e = false) (fst (sync_run m os))).
Proof.
  intros Hm Hos. revert m Hm. induction Hos as [|o os Ho Hos IH]; intros m Hm; cbn [sync_run].
  { split; [done|]. split; [done|]. by constructor. }
  destruct (sync_step_ok m o Hm Ho) as (H1 & H2 & H3).
  destruct (sync_step m o) as [e m1]. cbn [fst snd] in *.
  destruct (IH m1 H1) as (J1 & J2 & J3). destruct (sync_run m1 os) as [es m2]. cbn [fst snd] in *.
  split; [done|]. split.
  - rewrite (count_cons is_settle), (count_cons is_posted). lia.
  - intros He. destruct (H3 He) as [He1 Hp]. destruct (J3 He1). split; [done|]. by constructor.
Qed.

Lemma mailbox_new_ok g : mailbox_ok (mailbox_new g).
Proof. split; cbn; try done. Qed.

(** The ids of the requests a run accepted. *)
Fixpoint posted_ids (es : list sync_event) : list Z :=
  match es with
  | [] => []
  | Posted id :: es => id :: posted_ids es
  | _ :: es => posted_ids es
  end.

(** The [n]th id after [id]: 1..=[u32_max], then 1 again. *)
Definition nth_id (id : Z) (n : nat) : Z := (id - 1 + Z.of_nat n) mod u32_max + 1.

Lemma nth_id_next id n :
  1 ≤ id ≤ u32_max → nth_id (Z.max (u32_wrapping_add id 1) 1) n = nth_id id (S n).
Proof.
  intros Hid. unfold nth_id, u32_wrapping_add. change (2 ^ 32) with (u32_max + 1).
  destruct (decide (id = u32_max)) as [->|].
  - rewrite Z_mod_same_full. cbn [Z.max]. f_equal.
    replace (u32_max - 1 + Z.of_nat (S n)) with (Z.of_nat n + 1 * u32_max) by lia.
    rewrite Z_mod_plus_full. f_equal; lia.
  - rewrite (Z.mod_small (id + 1)) by lia. f_equal. f_equal. lia.
Qed.

Lemma sync_step_ids m o :
  mailbox_ok m →
  posted_ids [fst (sync_step m o)] = [] ∧ next_request_id (snd (sync_step m o)) = next_request_id m ∨
  posted_ids [fst (sync_step m o)] = [next_request_id m] ∧
    next_request_id (snd (sync_step m o)) = Z.max (u32_wrapping_add (next_request_id m) 1) 1.
Proof.
  intros Hm. destruct o as [r now|id n|now| | | |]; cbn [sync_step];
    unfold post, complete, expire_if_due, cancel, invalidate, end_session, acknowledge.
  - destruct (ended m); [by left|]. case_decide; [by left|]. destruct (negb _); [by left|].
    destruct (_ || _); [by left|]. destruct (_ <=? _); [by left|]. by right.
  - left. destruct (request m); [|done]. destruct (negb _); [done|]. destruct (negb _); [done|].
    by destruct (_ <? _).
  - left. destruct (negb _); [done|]. destruct (request m); [|done]. by destruct (_ <? _).
  - left. by destruct (negb _).
  - left. by destruct (negb _).
  - left. by destruct (negb _).
  - left. by destruct (is_settled _).
Qed.

Lemma sync_run_ids m os :
  mailbox_ok m → Forall op_wf os →
  posted_ids (fst (sync_run m os)) =
  nth_id (next_request_id m) <$> seq 0 (length (posted_ids (fst (sync_run m os)))).
Proof.
  intros Hm Hos. revert m Hm. induction Hos as [|o os Ho Hos IH]; intros m Hm; [done|].
  cbn [sync_run]. destruct (sync_step_ok m o Hm Ho) as (H1 & _ & _).
  pose proof (sync_step_ids m o Hm) as Hids.
  destruct (sync_step m o) as [e m1]. cbn [fst snd] in *. specialize (IH m1 H1).
  destruct (sync_run m1 os) as [es m2]. cbn [fst snd] in *.
  destruct Hids as [[He Hn]|[He Hn]].
  - destruct e; try done; cbn [posted_ids]; by rewrite <- Hn.
  - destruct e as [id| |]; try done. cbn [posted_ids] in He |- *. injection He as ->.
    cbn [length seq fmap list_fmap]. f_equal.
    + destruct Hm as [_ _ _ Hid _]. unfold nth_id. rewrite Z.add_0_r, Z.mod_small by lia. lia.
    + rewrite IH at 1. rewrite <- fmap_S_seq, <- list_fmap_compose. apply list_fmap_ext.
      intros i x _. cbn. rewrite Hn. apply nth_id_next, Hm.
Qed.

(** * Properties *)

(** C14: the mailbox never strands or misleads its waiter.  Over any sequence of
    calls on a new mailbox: every accepted request is settled exactly once (the
    posts accepted are the settlements plus the one outstanding request, if
    any); reply bytes are reported only for an answered request, and never more
    than the producer reserved, nor than the protocol's ceiling; an error is
    present exactly when the request failed; and an outstanding request is of
    this mailbox's generation. *)
Theorem mailbox_settles_once (generation : Z) (os : list sync_op) (es : list sync_event)
    (m : SyncMailbox) (Hos : Forall op_wf os)
    (Hrun : sync_run (mailbox_new generation) os = (es, m)) :
  (count is_posted es = count is_settle es + outstanding m)%nat ∧
  (outstanding m ≤ Z.to_nat MAX_IN_FLIGHT)%nat ∧
  (state m = Ready → ∃ r, request m = Some r ∧
     0 ≤ reply_bytes m ≤ max_reply_bytes r ∧ max_reply_bytes r ≤ MAX_REPLY_BYTES) ∧
  (state m ≠ Ready → reply_bytes m = 0) ∧
  (is_Some (error m) ↔ state m = Failed) ∧
  (state m = Pending → ∃ r, request m = Some r ∧ request_id r ≠ 0 ∧
     rq_runtime_generation r = mb_runtime_generation m).
Proof.
  destruct (sync_run_ok (mailbox_new generation) os (mailbox_new_ok _) Hos) as (Hm & Hc & _).
  rewrite Hrun in *. cbn [fst snd] in *. pose proof Hm as [Hr Hp He _ _].
  change (outstanding (mailbox_new generation)) with 0%nat in Hc.
  split_and!; try done.
  - lia.
  - change (Z.to_nat MAX_IN_FLIGHT) with 1%nat. unfold outstanding. case_decide; lia.
  - intros Hs. destruct (request m) as [r|]; [|congruence].
    destruct Hr as (_ & (_ & _ & ?) & ?). exists r. split_and!; auto; lia.
  - intros Hs. destruct (pending_request m Hm Hs) as (r & ? & (? & ? & _)).
    exists r. split_and!; auto. lia.
Qed.

(** C40: an ended session blocks nobody.  [end_session] fails the outstanding
    request, if there is one, and from then on no sequence of calls gets a
    request accepted or leaves one outstanding: every [post] answers
    [SessionEnded] and changes nothing. *)
Theorem ended_session_final (m : SyncMailbox) (os : list sync_op)
    (Hm : mailbox_ok m) (Hos : Forall op_wf os) :
  (state m = Pending → end_session m = (true, fail (set_ended m) SessionEnded)) ∧
  ∀ es m', sync_run (snd (end_session m)) os = (es, m') →
    state m' ≠ Pending ∧ posted_ids es = [] ∧
    ∀ r now, post m' r now = (inr SessionEnded, m').
Proof.
  split.
  { intros Hs. unfold end_session. cbn [state set_ended]. by rewrite bool_decide_eq_true_2. }
  intros es m' Hrun.
  pose proof (sync_step_ok m EndSession Hm I) as (H1 & _ & _). cbn [sync_step] in H1.
  assert (ended (snd (end_session m)) = true) as He by (unfold end_session; by destruct (negb _)).
  destruct (end_session m) as [b m1]. cbn [snd] in *.
  destruct (sync_run_ok m1 os H1 Hos) as (H2 & _ & H3). rewrite Hrun in *. cbn [fst snd] in *.
  destruct (H3 He) as [He' Hn]. split_and!.
  - by apply H2.
  - clear -Hn. induction Hn as [|e es Hn _ IH]; [done|]. by destruct e.
  - intros. unfold post. by rewrite He'.
Qed.

(** A reply reaches the producer only as the answer to its request.
    [complete] makes the request [Ready], with the size given, exactly when one
    is outstanding, the reply names it and fits what was reserved.  A reply to
    another request, or one too large, fails the outstanding request, so its
    waiter wakes; a reply with no request outstanding changes nothing. *)
Theorem complete_delivers (m : SyncMailbox) (id n : Z) (Hm : mailbox_ok m) :
  (state m ≠ Pending → complete m id n = (inr LateReply, m)) ∧
  (state m = Pending → ∃ r, request m = Some r ∧
     (id = request_id r → n ≤ max_reply_bytes r →
        ∃ m', complete m id n = (inl tt, m') ∧ state m' = Ready ∧ reply_bytes m' = n ∧
              request m' = Some r ∧ error m' = None) ∧
     (id ≠ request_id r → complete m id n = (inr RequestIdMismatch, fail m RequestIdMismatch)) ∧
     (id = request_id r → max_reply_bytes r < n →
        complete m id n = (inr ReplyTooLarge, fail m ReplyTooLarge))) ∧
  (∀ e, is_settled (state (fail m e)) = true ∧ error (fail m e) = Some e ∧
        reply_bytes (fail m e) = 0).
Proof.
  split_and!; [| |done].
  - intros Hs. unfold complete. destruct (request m); [|done]. by rewrite bool_decide_eq_false_2.
  - intros Hs. destruct (pending_request m Hm Hs) as (r & Hr & _). exists r. split; [done|].
    unfold complete. rewrite Hr, bool_decide_eq_true_2 by done. cbn [negb]. split_and!.
    + intros -> ?. rewrite Z.eqb_refl, (proj2 (Z.ltb_ge _ _)) by done. cbn. by eexists.
    + intros Hne. by rewrite (proj2 (Z.eqb_neq _ _)).
    + intros -> ?. by rewrite Z.eqb_refl, (proj2 (Z.ltb_lt _ _)).
Qed.

(** What [post] accepts.  A request is accepted exactly when the session has
    not ended, none is outstanding, it is of this generation, reserves between
    one byte and the ceiling, and its deadline is in the future; it then is
    the outstanding request under the mailbox's own id.  Any other request is
    refused with the reason of the first check it fails, and changes nothing.
    (A settled request that was not acknowledged does not stand in the way.) *)
Theorem post_accepts_iff (m : SyncMailbox) (r : SyncRequest) (now : Z) :
  (ended m = false ∧ state m ≠ Pending ∧ rq_runtime_generation r = mb_runtime_generation m ∧
   max_reply_bytes r ≠ 0 ∧ max_reply_bytes r ≤ MAX_REPLY_BYTES ∧ now < deadline_nanos r ∧
   ∃ m', post m r now = (inl (next_request_id m), m') ∧ state m' = Pending ∧
         request m' = Some (with_request_id r (next_request_id m)) ∧ reply_bytes m' = 0) ∨
  (∃ e, post m r now = (inr e, m) ∧
     (e = SessionEnded ∧ ended m = true ∨
      e = AlreadyPending ∧ ended m = false ∧ state m = Pending ∨
      e = StaleGeneration ∧ rq_runtime_generation r ≠ mb_runtime_generation m ∨
      e = BadReplyReservation ∧ (max_reply_bytes r = 0 ∨ MAX_REPLY_BYTES < max_reply_bytes r) ∨
      e = BadDeadline ∧ deadline_nanos r ≤ now)).
Proof.
  unfold post. destruct (ended m); [right; eauto 10|]. case_decide; [right; eauto 10|].
  destruct (negb _) eqn:E1; bool_to_prop; [right; eauto 10|].
  destruct (_ || _) eqn:E2.
  { right. eexists. split; [done|]. do 3 right. left. split; [done|].
    apply orb_true_iff in E2 as [?|?]; bool_to_prop; [by left|by right]. }
  destruct (_ <=? _) eqn:E3; bool_to_prop; [right; eauto 10|].
  left. split_and!; auto. eexists. split; [done|]. done.
Qed.

(** Request ids count up from one and skip zero, and come round again only
    after every other id has been used. *)
Theorem request_ids_cycle (generation : Z) (os : list sync_op) (Hos : Forall op_wf os) :
  let ids := posted_ids (fst (sync_run (mailbox_new generation) os)) in
  ids = nth_id 1 <$> seq 0 (length ids) ∧
  Forall (λ id, 1 ≤ id ≤ u32_max) ids ∧
  (∀ i j, (i < length ids)%nat → (j < i)%nat → Z.of_nat (i - j) < u32_max → ids !! i ≠ ids !! j).
Proof.
  cbv zeta. pose proof (sync_run_ids _ os (mailbox_new_ok generation) Hos) as H.
  cbn [next_request_id mailbox_new] in H. set (ids := posted_ids _) in *.
  assert (∀ i, (i < length ids)%nat → ids !! i = Some (nth_id 1 i)) as Hl.
  { intros i Hi. rewrite H, list_lookup_fmap, lookup_seq_lt; done. }
  split_and!; [done| |].
  - apply Forall_lookup. intros i id Hi. rewrite Hl in Hi by by eapply lookup_lt_Some.
    injection Hi as <-. unfold nth_id, u32_max.
    pose proof (Z.mod_pos_bound (1 - 1 + Z.of_nat i) (2 ^ 32 - 1)). lia.
  - intros i j Hi Hj Hd. rewrite !Hl by lia. unfold nth_id. intros [= Heq].
    assert ((1 - 1 + Z.of_nat i) mod u32_max = (1 - 1 + Z.of_nat j) mod u32_max) as Hmod by lia.
    assert ((Z.of_nat i - Z.of_nat j) mod u32_max = 0) as H0.
    { replace (Z.of_nat i - Z.of_nat j) with ((1 - 1 + Z.of_nat i) - (1 - 1 + Z.of_nat j)) by lia.
      by rewrite Zminus_mod, Hmod, Z.sub_diag. }
    rewrite Z.mod_small in H0 by lia. lia.
Qed.

(** The record and the codes are what the wire document can hold: the
    layout covers the 64 bytes with no gap and no overlap, and every state and
    error reads back from its code. *)
Theorem sync_codes_and_layout :
  layout_contiguous 0 SYNC_RECORD_BYTES SYNC_LAYOUT = true ∧
  (∀ s code, SyncState_from_code code = Some s ↔ code = SyncState_code s) ∧
  SyncState_code <$> SyncState_ALL = seqZ 0 5 ∧
  SyncError_code <$> SyncError_ALL = seqZ 1 10 ∧
  (∀ e, e ∈ SyncError_ALL) ∧ (∀ s, s ∈ SyncState_ALL).
Proof.
  split_and!; try done.
  - intros s code. split.
    + destruct code as [|[[[]|[]|]|[[]|[]|]|]|]; cbn; intros [= <-]; done.
    + intros ->. by destruct s.
  - intros e. destruct e; by apply (bool_decide_unpack _).
  - intros s. destruct s; by apply (bool_decide_unpack _).
Qed.

(** ** Concrete runs *)

Definition sample_request : SyncRequest := {|
  request_id := 0; rq_runtime_generation := 7; rq_surface_generation := 1;
  rq_resource_epoch := 0; triggering_sequence := 3; operation := 1;
  max_reply_bytes := 4096; deadline_nanos := 1000 |}.

Definition sample_run : list sync_op :=
  [Post sample_request 10; Complete 1 64; Complete 1 64; Acknowledge; Post sample_request 20; Expire 2000].

Lemma sample_run_wf : Forall op_wf sample_run.
Proof. unfold sample_run. repeat constructor; cbn; lia. Qed.

Lemma mailbox_settles_once_witness :
  (count is_posted (fst (sync_run (mailbox_new 7) sample_run)) =
   count is_settle (fst (sync_run (mailbox_new 7) sample_run)) + 0)%nat.
Proof.
  exact (proj1 (mailbox_settles_once 7 sample_run _ _ sample_run_wf (surjective_pairing _))).
Defined.

Lemma ended_session_final_witness :
  posted_ids (fst (sync_run (snd (end_session (mailbox_new 7))) sample_run)) = [].
Proof.
  refine (proj1 (proj2 (proj2 (ended_session_final (mailbox_new 7) sample_run
            (mailbox_new_ok 7) sample_run_wf) _ _ (surjective_pairing _)))).
Defined.

Lemma complete_delivers_witness :
  complete (mailbox_new 7) 1 4 = (inr LateReply, mailbox_new 7).
Proof. apply (complete_delivers (mailbox_new 7) 1 4 (mailbox_new_ok 7)). done. Defined.

Lemma request_ids_cycle_witness :
  posted_ids (fst (sync_run (mailbox_new 7) sample_run)) = [1; 2].
Proof. exact (proj1 (request_ids_cycle 7 sample_run sample_run_wf)). Defined.
