(* ===== verification/Resource.v ===== *)
(** The resource table of [engine/crates/frame-wire] ([resource.rs]): declared
    uploads, their chunks, their verification and their epoch.

    A [find] that yields a mutable entry is [update_entry]: the transition of
    one entry, applied to the first entry of the id.  The theorems are about any
    sequence of calls on a new table. *)
From S2P Require Import Prelude.

(** * Constants, states and errors *)

Definition MAX_RESOURCE_BYTES : Z := 64 * 1024 * 1024.
Definition MAX_CHUNK_BYTES : Z := 1024 * 1024.
Definition MAX_RESERVATIONS : Z := 64.

Inductive ResourceState := Reserved | Uploading | Verifying | Ready | Failed.

#[global] Instance ResourceState_eq_dec : EqDecision ResourceState.
Proof. solve_decision. Defined.

Definition ResourceState_ALL : list ResourceState :=
  [Reserved; Uploading; Verifying; Ready; Failed].
Definition ResourceState_code (s : ResourceState) : Z :=
  match s with Reserved => 0 | Uploading => 1 | Verifying => 2 | Ready => 3 | Failed => 4 end.

Inductive ResourceError :=
  | TooManyReservations
  | BadSize
  | BadChunkCount
  | UnknownReservation
  | NonContiguousChunk
  | ChunkOutOfBounds
  | DigestMismatch
  | TimedOut
  | EpochAdvanced
  | Incomplete
  | NotUploading.

#[global] Instance ResourceError_eq_dec : EqDecision ResourceError.
Proof. solve_decision. Defined.

Definition ResourceError_ALL : list ResourceError := [
  TooManyReservations; BadSize; BadChunkCount; UnknownReservation; NonContiguousChunk;
  ChunkOutOfBounds; DigestMismatch; TimedOut; EpochAdvanced; Incomplete; NotUploading].

Definition ResourceError_code (e : ResourceError) : Z :=
  match e with
  | TooManyReservations => 1
  | BadSize => 2
  | BadChunkCount => 3
  | UnknownReservation => 4
  | NonContiguousChunk => 5
  | ChunkOutOfBounds => 6
  | DigestMismatch => 7
  | TimedOut => 8
  | EpochAdvanced => 9
  | Incomplete => 10
  | NotUploading => 11
  end.

(** * The table *)

Record Reservation := {
  id : Z;
  total_bytes : Z;
  chunk_count : Z;
  resource_epoch : Z;
  format : Z;
  sha256 : list Z;
  deadline_nanos : Z;
  state : ResourceState;
  error : option ResourceError;
  received_bytes : Z;
  next_chunk : Z
}.

Record ResourceTable := { entries : list Reservation; epoch : Z; next_id : Z }.

Definition table_new (resource_epoch : Z) : ResourceTable :=
  {| entries := []; epoch := resource_epoch; next_id := 1 |}.

Definition entry_referenceable (e : Reservation) : bool :=
  match state e with Ready => true | _ => false end.

Definition get (t : ResourceTable) (i : Z) : option Reservation :=
  List.find (λ e, id e =? i) (entries t).

Definition is_referenceable (t : ResourceTable) (i : Z) : bool :=
  match get t i with Some e => entry_referenceable e | None => false end.

(** Assignments to an entry's state, error and progress. *)
Definition set_state (e : Reservation) (s : ResourceState) (err : option ResourceError)
    (received next : Z) : Reservation := {|
  id := id e; total_bytes := total_bytes e; chunk_count := chunk_count e;
  resource_epoch := resource_epoch e; format := format e; sha256 := sha256 e;
  deadline_nanos := deadline_nanos e; state := s; error := err;
  received_bytes := received; next_chunk := next |}.

Definition fail_entry (e : Reservation) (err : ResourceError) : Reservation :=
  set_state e Failed (Some err) (received_bytes e) (next_chunk e).

Definition reserve (t : ResourceTable) (total chunks format_ : Z) (sha : list Z) (deadline : Z) :
    result ((Z + ResourceError) * ResourceTable) :=
  if MAX_RESERVATIONS <=? lenZ (entries t) then mret (inr TooManyReservations, t) else
  if (total =? 0) || (MAX_RESOURCE_BYTES <? total) then mret (inr BadSize, t) else
  if (chunks =? 0) || (chunks * MAX_CHUNK_BYTES <? total) then mret (inr BadChunkCount, t) else
  let i := next_id t in
  next ← u64_add (next_id t) 1;
  mret (inl i, {|
    entries := entries t ++ [{|
      id := i; total_bytes := total; chunk_count := chunks; resource_epoch := epoch t;
      format := format_; sha256 := sha; deadline_nanos := deadline; state := Reserved;
      error := None; received_bytes := 0; next_chunk := 0 |}];
    epoch := epoch t; next_id := next |}).

(** What a mutable borrow of one entry does. *)
Fixpoint update_entry {A} (l : list Reservation) (i : Z)
    (f : Reservation → result ((A + ResourceError) * Reservation)) :
    result ((A + ResourceError) * list Reservation) :=
  match l with
  | [] => mret (inr UnknownReservation, [])
  | e :: l =>
      if id e =? i then r ← f e; mret (fst r, snd r :: l)
      else r ← update_entry l i f; mret (fst r, e :: snd r)
  end.

Definition accept_chunk_entry (current_epoch : Z) (e : Reservation) (chunk_index byte_length : Z) :
    result ((ResourceState + ResourceError) * Reservation) :=
  if negb (resource_epoch e =? current_epoch) then mret (inr EpochAdvanced, e) else
  if negb (match state e with Reserved | Uploading => true | _ => false end)
  then mret (inr NotUploading, e) else
  if negb (chunk_index =? next_chunk e)
  then mret (inr NonContiguousChunk, fail_entry e NonContiguousChunk) else
  if (byte_length =? 0) || (MAX_CHUNK_BYTES <? byte_length)
  then mret (inr ChunkOutOfBounds, fail_entry e ChunkOutOfBounds) else
  received ← u64_add (received_bytes e) byte_length;
  if (total_bytes e <? received) || (chunk_count e <=? next_chunk e)
  then mret (inr ChunkOutOfBounds, fail_entry e ChunkOutOfBounds) else
  next ← u32_add (next_chunk e) 1;
  let s := if (received =? total_bytes e) && (next =? chunk_count e)
           then Verifying else Uploading in
  mret (inl s, set_state e s (error e) received next).

Definition with_entries {A} (t : ResourceTable) (r : A * list Reservation) : A * ResourceTable :=
  (fst r, {| entries := snd r; epoch := epoch t; next_id := next_id t |}).

Definition accept_chunk (t : ResourceTable) (i chunk_index byte_length : Z) :
    result ((ResourceState + ResourceError) * ResourceTable) :=
  r ← update_entry (entries t) i (λ e, accept_chunk_entry (epoch t) e chunk_index byte_length);
  mret (with_entries t r).

Definition verify_entry (e : Reservation) (computed : list Z) :
    result ((unit + ResourceError) * Reservation) :=
  if negb (bool_decide (state e = Verifying)) then
    let err := match state e with Reserved | Uploading => Incomplete | _ => NotUploading end in
    mret (inr err, fail_entry e err)
  else if negb (bool_decide (computed = sha256 e))
  then mret (inr DigestMismatch, fail_entry e DigestMismatch)
  else mret (inl tt, set_state e Ready None (received_bytes e) (next_chunk e)).

Definition verify (t : ResourceTable) (i : Z) (computed : list Z) :
    result ((unit + ResourceError) * ResourceTable) :=
  r ← update_entry (entries t) i (λ e, verify_entry e computed);
  mret (with_entries t r).

Definition due (now_nanos : Z) (e : Reservation) : bool :=
  match state e with Reserved | Uploading | Verifying => true | _ => false end
  && (deadline_nanos e <=? now_nanos).

Definition expire (t : ResourceTable) (now_nanos : Z) : Z * ResourceTable :=
  (lenZ (List.filter (due now_nanos) (entries t)),
   {| entries := map (λ e, if due now_nanos e then fail_entry e TimedOut else e) (entries t);
      epoch := epoch t; next_id := next_id t |}).

Definition release (t : ResourceTable) (i : Z) : bool * ResourceTable :=
  let before := lenZ (entries t) in
  let kept := List.filter (λ e, negb (id e =? i)) (entries t) in
  (negb (lenZ kept =? before), {| entries := kept; epoch := epoch t; next_id := next_id t |}).

Definition advance_epoch (t : ResourceTable) (e : Z) : (Z + ResourceError) * ResourceTable :=
  if e <? epoch t then (inr EpochAdvanced, t)
  else (inl (lenZ (entries t)), {| entries := []; epoch := e; next_id := next_id t |}).

(** * Runs *)

Inductive resource_op :=
  | Reserve (total chunks format_ : Z) (sha : list Z) (deadline : Z)
  | Chunk (i chunk_index byte_length : Z)
  | Verify (i : Z) (computed : list Z)
  | Expire (now_nanos : Z)
  | Release (i : Z)
  | AdvanceEpoch (e : Z).

(** What succeeded, for the history. *)
Inductive resource_event :=
  | EvReserved (i total chunks : Z) (sha : list Z)
  | EvChunk (i chunk_index byte_length : Z)
  | EvVerified (i : Z) (computed : list Z).

Definition op_wf (o : resource_op) : Prop :=
  match o with
  | Reserve total chunks _ _ _ => is_u64 total ∧ is_u32 chunks
  | Chunk _ chunk_index byte_length => is_u32 chunk_index ∧ is_u32 byte_length
  | _ => True
  end.

Definition resource_step (t : ResourceTable) (o : resource_op) :
    result (list resource_event * ResourceTable) :=
  match o with
  | Reserve total chunks f sha deadline =>
      r ← reserve t total chunks f sha deadline;
      mret (match fst r with inl i => [EvReserved i total chunks sha] | inr _ => [] end, snd r)
  | Chunk i k n =>
      r ← accept_chunk t i k n;
      mret (match fst r with inl _ => [EvChunk i k n] | inr _ => [] end, snd r)
  | Verify i computed =>
      r ← verify t i computed;
      mret (match fst r with inl _ => [EvVerified i computed] | inr _ => [] end, snd r)
  | Expire now => mret ([], snd (expire t now))
  | Release i => mret ([], snd (release t i))
  | AdvanceEpoch e => mret ([], snd (advance_epoch t e))
  end.

Fixpoint resource_run (t : ResourceTable) (h : list resource_event) (os : list resource_op) :
    result (list resource_event * ResourceTable) :=
  match os with
  | [] => mret (h, t)
  | o :: os => r ← resource_step t o; resource_run (snd r) (h ++ fst r) os
  end.

(** * Invariants *)

(** An upload in progress: what it has received is what its chunks carried. *)
Record entry_ok (e : Reservation) : Prop := {
  ok_size : 1 ≤ total_bytes e ≤ MAX_RESOURCE_BYTES;
  ok_chunks : 1 ≤ chunk_count e ≤ u32_max;
  ok_received : 0 ≤ received_bytes e ≤ total_bytes e;
  ok_next : 0 ≤ next_chunk e ≤ chunk_count e;
  ok_least : next_chunk e ≤ received_bytes e;
  ok_most : received_bytes e ≤ next_chunk e * MAX_CHUNK_BYTES;
  ok_state : match state e with
             | Reserved => next_chunk e = 0
             | Uploading => 0 < next_chunk e ∧
                            ¬ (received_bytes e = total_bytes e ∧ next_chunk e = chunk_count e)
             | Verifying | Ready =>
                 received_bytes e = total_bytes e ∧ next_chunk e = chunk_count e
             | Failed => True
             end;
  ok_error : is_Some (error e) ↔ state e = Failed
}.

Record table_ok (t : ResourceTable) : Prop := {
  ok_entries : Forall entry_ok (entries t);
  ok_count : lenZ (entries t) ≤ MAX_RESERVATIONS;
  ok_ids : NoDup (id <$> entries t);
  ok_fresh : Forall (λ e, 1 ≤ id e < next_id t) (entries t);
  ok_epoch : Forall (λ e, resource_epoch e = epoch t) (entries t);
  ok_next_id : 1 ≤ next_id t
}.

(** The bytes the accepted chunks of [i] carried. *)
Definition chunks_of (i : Z) (h : list resource_event) : list (Z * Z) :=
  omap (λ ev, match ev with
              | EvChunk j k n => if j =? i then Some (k, n) else None
              | _ => None
              end) h.

Fixpoint sum (l : list Z) : Z := match l with [] => 0 | x :: l => x + sum l end.

(** What the history holds of an entry: its declaration; its chunks, in order
    with no gap, each within the bounds, in all the bytes received; and, once
    it is ready, a verification of the declared digest. *)
Record traced (h : list resource_event) (e : Reservation) : Prop := {
  tr_reserved : EvReserved (id e) (total_bytes e) (chunk_count e) (sha256 e) ∈ h;
  tr_order : (chunks_of (id e) h).*1 = seqZ 0 (next_chunk e);
  tr_bounds : Forall (λ c, 1 ≤ c.2 ≤ MAX_CHUNK_BYTES) (chunks_of (id e) h);
  tr_bytes : sum (chunks_of (id e) h).*2 = received_bytes e;
  tr_verified : state e = Ready → EvVerified (id e) (sha256 e) ∈ h
}.

Record history_ok (h : list resource_event) (t : ResourceTable) : Prop := {
  h_entries : Forall (traced h) (entries t);
  h_chunks : ∀ i, next_id t ≤ i → chunks_of i h = []
}.

(** * Lemmas *)

Lemma sum_app l l' : sum (l ++ l') = sum l + sum l'.
Proof. induction l; cbn [sum app]; lia. Qed.

Lemma chunks_of_app i h h' : chunks_of i (h ++ h') = chunks_of i h ++ chunks_of i h'.
Proof. apply omap_app. Qed.

Lemma update_entry_spec {A} (l : list Reservation) i (f : Reservation → result ((A + ResourceError) * Reservation)) :
  ((i ∉ id <$> l) ∧ update_entry l i f = Ret (inr UnknownReservation, l)) ∨
  (∃ pre e post, l = pre ++ e :: post ∧ id e = i ∧ (i ∉ id <$> pre) ∧
     update_entry l i f = (r ← f e; mret (fst r, pre ++ snd r :: post))).
Proof.
  induction l as [|e l IH]; cbn [update_entry].
  { left. split; [by intros ?%elem_of_nil|done]. }
  destruct (Z.eqb_spec (id e) i) as [<-|Hne].
  { right. exists [], e, l. split_and!; try done. by intros ?%elem_of_nil. }
  destruct IH as [[Hn ->]|(pre & e' & post & -> & Hi & Hn & ->)].
  - left. split; [|done]. cbn. by intros [?|?]%elem_of_cons.
  - right. exists (e :: pre), e', post. split_and!; try done.
    + cbn. by intros [?|?]%elem_of_cons.
    + destruct (f e') as [[a e2]| | |]; done.
Qed.

Lemma fail_entry_ok e err : entry_ok e → entry_ok (fail_entry e err).
Proof. intros []. by split. Qed.

(** Why a chunk fails the upload it is for. *)
Definition chunk_refused (e : Reservation) (k n : Z) (err : ResourceError) : Prop :=
  k ≠ next_chunk e ∧ err = NonContiguousChunk ∨
  k = next_chunk e ∧ err = ChunkOutOfBounds ∧
    (n = 0 ∨ MAX_CHUNK_BYTES < n ∨ total_bytes e < received_bytes e + n ∨
     chunk_count e ≤ next_chunk e).

(** What a chunk does to an entry in good order. *)
Lemma accept_chunk_entry_spec ep e k n :
  entry_ok e → is_u32 k → is_u32 n →
  ∃ r e', accept_chunk_entry ep e k n = Ret (r, e') ∧ entry_ok e' ∧
    ((r = inr EpochAdvanced ∧ resource_epoch e ≠ ep ∧ e' = e) ∨
     (r = inr NotUploading ∧ state e ≠ Reserved ∧ state e ≠ Uploading ∧ e' = e) ∨
     (∃ err, r = inr err ∧ chunk_refused e k n err ∧ e' = fail_entry e err) ∨
     (∃ s, r = inl s ∧ k = next_chunk e ∧ 1 ≤ n ≤ MAX_CHUNK_BYTES ∧
        next_chunk e < chunk_count e ∧ received_bytes e + n ≤ total_bytes e ∧
        e' = set_state e s (error e) (received_bytes e + n) (next_chunk e + 1) ∧
        s = (if (received_bytes e + n =? total_bytes e) && (next_chunk e + 1 =? chunk_count e)
             then Verifying else Uploading))).
Proof.
  intros He Hk Hn. unfold is_u32 in *. pose proof He as [H1 H2 H3 H4 H5 H6 H7 H8].
  unfold accept_chunk_entry, u32_max, MAX_RESOURCE_BYTES in *.
  destruct (Z.eqb_spec (resource_epoch e) ep); cbn [negb]; [|by eauto 10].
  destruct (match state e with Reserved | Uploading => true | _ => false end) eqn:Es; cbn [negb].
  2:{ do 2 eexists. split; [done|]. split; [done|]. right; left. by destruct (state e). }
  assert (state e = Reserved ∨ state e = Uploading) as Hs by (destruct (state e); auto; done).
  assert (∀ err, chunk_refused e k n err → ∃ r e', Ret (inr err, fail_entry e err) =
    Ret (E:=Empty_set) (r, e') ∧ entry_ok e' ∧ ∃ err, r = inr (A:=ResourceState) err ∧ chunk_refused e k n err ∧
      e' = fail_entry e err) as Hfail.
  { intros err Herr. do 2 eexists. split; [done|]. split; [by apply fail_entry_ok|eauto]. }
  unfold chunk_refused in Hfail.
  destruct (Z.eqb_spec k (next_chunk e)) as [->|]; cbn [negb];
    [|destruct (Hfail NonContiguousChunk) as (? & ? & ? & ? & ?); eauto 10].
  destruct (_ || _) eqn:E1.
  { destruct (Hfail ChunkOutOfBounds) as (? & ? & ? & ? & ?); [|by eauto 10].
    right. split_and!; [done..|]. apply orb_true_iff in E1 as [?|?]; bool_to_prop; auto. }
  unfold MAX_CHUNK_BYTES in *. bool_to_prop.
  unfold u64_add, u64_max. rewrite (proj2 (Z.leb_le (received_bytes e + n) _)) by lia.
  cbn [mbind outcome_bind].
  destruct (_ || _) eqn:E2.
  { destruct (Hfail ChunkOutOfBounds) as (? & ? & ? & ? & ?); [|by eauto 10].
    right. split_and!; [done..|]. apply orb_true_iff in E2 as [?|?]; bool_to_prop; auto. }
  bool_to_prop. unfold u32_add, u32_max. rewrite (proj2 (Z.leb_le (next_chunk e + 1) _)) by lia.
  cbn [mbind outcome_bind]. do 2 eexists. split; [done|]. split.
  2:{ do 3 right. eexists. split; [done|]. split_and!; auto; lia. }
  assert (state e ≠ Failed) as Hnf by (destruct Hs; congruence). clear Hfail.
  destruct ((received_bytes e + n =? total_bytes e) && _) eqn:E3.
  - bool_to_prop. split; cbn; unfold u32_max, MAX_RESOURCE_BYTES, MAX_CHUNK_BYTES in *; try lia; naive_solver.
  - split; cbn; unfold u32_max, MAX_RESOURCE_BYTES, MAX_CHUNK_BYTES in *; try lia.
    all: try (split; [lia|]; intros [Ha%Z.eqb_eq Hb%Z.eqb_eq]; rewrite Ha, Hb in E3; done).
    all: naive_solver.
Qed.

Lemma verify_entry_spec e computed :
  entry_ok e → ∃ r e', verify_entry e computed = Ret (r, e') ∧ entry_ok e' ∧
    ((∃ err, r = inr err ∧ e' = fail_entry e err) ∨
     (r = inl tt ∧ state e = Verifying ∧ computed = sha256 e ∧
      e' = set_state e Ready None (received_bytes e) (next_chunk e))).
Proof.
  intros He. pose proof He as [H1 H2 H3 H4 H5 H6 H7 H8]. unfold verify_entry.
  case_bool_decide as Hs; cbn [negb];
    [|do 2 eexists; split; [done|]; split; [by apply fail_entry_ok|eauto]].
  case_bool_decide as Hc; cbn [negb];
    [|do 2 eexists; split; [done|]; split; [by apply fail_entry_ok|eauto]].
  do 2 eexists. split; [done|]. split; [|auto]. rewrite Hs in H7.
  split; cbn; try done; try lia.
Qed.

(** Replacing one entry by another of the same id and epoch. *)
Lemma table_ok_replace t pre e e' post :
  table_ok t → entries t = pre ++ e :: post → entry_ok e' → id e' = id e →
  resource_epoch e' = resource_epoch e →
  table_ok {| entries := pre ++ e' :: post; epoch := epoch t; next_id := next_id t |}.
Proof.
  intros [H1 H2 H3 H4 H5 H6] Heq He' Hid Hep. rewrite Heq in *.
  apply Forall_app in H1 as [H1a [H1b H1c]%Forall_cons].
  apply Forall_app in H4 as [H4a [H4b H4c]%Forall_cons].
  apply Forall_app in H5 as [H5a [H5b H5c]%Forall_cons].
  split; cbn [entries epoch next_id]; auto.
  - apply Forall_app; split; [done|]. by constructor.
  - rewrite length_app in *. done.
  - rewrite fmap_app in *. cbn [fmap list_fmap] in *. by rewrite Hid.
  - apply Forall_app; split; [done|]. constructor; [lia|done].
  - apply Forall_app; split; [done|]. constructor; [congruence|done].
Qed.

Lemma table_ok_sublist t es e :
  table_ok t → es `sublist_of` entries t → e = epoch t ∨ es = [] →
  table_ok {| entries := es; epoch := e; next_id := next_id t |}.
Proof.
  intros [H1 H2 H3 H4 H5 H6] Hs He.
  assert (∀ x, x ∈ es → x ∈ entries t) as Hin by (intros x ?; by eapply elem_of_sublist).
  split; cbn [entries epoch next_id]; auto.
  - rewrite Forall_forall in *. auto.
  - apply sublist_length in Hs. lia.
  - eapply sublist_NoDup; [exact H3|]. by apply fmap_sublist.
  - rewrite Forall_forall in *. auto.
  - destruct He as [->| ->]; [|constructor]. rewrite Forall_forall in *. auto.
Qed.

(** A history grows; an entry whose chunks did not stays traced. *)
Lemma traced_grow h ev e :
  traced h e → chunks_of (id e) ev = [] → traced (h ++ ev) e.
Proof.
  intros [H1 H2 H3 H4 H5] Hev. split; rewrite ?chunks_of_app, ?Hev, ?app_nil_r; auto.
  - by apply elem_of_app; left.
  - intros Hs. apply elem_of_app. auto.
Qed.

Lemma traced_fail h e err : traced h e → traced h (fail_entry e err).
Proof. intros []. by split. Qed.

Lemma traced_chunk h e n s :
  traced h e → 0 ≤ next_chunk e → 1 ≤ n ≤ MAX_CHUNK_BYTES → s ≠ Ready →
  traced (h ++ [EvChunk (id e) (next_chunk e) n])
    (set_state e s (error e) (received_bytes e + n) (next_chunk e + 1)).
Proof.
  intros [H1 H2 H3 H4 H5] ???.
  assert (chunks_of (id e) [EvChunk (id e) (next_chunk e) n] = [(next_chunk e, n)]) as Hc.
  { unfold chunks_of. cbn. by rewrite Z.eqb_refl. }
  split; cbn [id total_bytes chunk_count sha256 next_chunk received_bytes state set_state];
    rewrite ?chunks_of_app, ?Hc.
  - by apply elem_of_app; left.
  - rewrite fmap_app, H2. cbn [fmap list_fmap fst]. by rewrite seqZ_app by lia.
  - apply Forall_app. split; [done|]. apply Forall_singleton. done.
  - rewrite fmap_app, sum_app, H4. cbn [fmap list_fmap snd sum]. lia.
  - done.
Qed.

(** The table and its history, as one invariant. *)
Definition run_ok (h : list resource_event) (t : ResourceTable) : Prop :=
  table_ok t ∧ history_ok h t.

Lemma run_ok_new e : run_ok [] (table_new e).
Proof. split; split; cbn; try done; try constructor. Qed.

Lemma run_ok_reserve h t total chunks f sha deadline :
  run_ok h t → is_u64 total → is_u32 chunks → next_id t < u64_max →
  ∃ r t', reserve t total chunks f sha deadline = Ret (r, t') ∧
    run_ok (h ++ match r with inl i => [EvReserved i total chunks sha] | inr _ => [] end) t' ∧
    next_id t' ≤ next_id t + 1.
Proof.
  intros [Ht Hh] Ht64 Hc32 Hn. unfold reserve, is_u64, is_u32 in *.
  destruct (_ <=? _) eqn:E1;
    [exists (inr TooManyReservations), t; rewrite app_nil_r; split; [done|]; split; [done|lia]|].
  destruct ((total =? 0) || _) eqn:E2;
    [exists (inr BadSize), t; rewrite app_nil_r; split; [done|]; split; [done|lia]|].
  destruct ((chunks =? 0) || _) eqn:E3;
    [exists (inr BadChunkCount), t; rewrite app_nil_r; split; [done|]; split; [done|lia]|].
  bool_to_prop. unfold u64_add. rewrite (proj2 (Z.leb_le _ u64_max)) by lia. cbn [mbind outcome_bind].
  exists (inl (next_id t)). eexists. split; [done|]. cbn [next_id]. split; [|lia].
  destruct Ht as [T1 T2 T3 T4 T5 T6]. destruct Hh as [J1 J2].
  split; split; cbn [entries epoch next_id].
  - apply Forall_app. split; [done|]. apply Forall_singleton.
    split; cbn; unfold u32_max, MAX_RESOURCE_BYTES, MAX_CHUNK_BYTES in *; try done; lia.
  - rewrite length_app. unfold MAX_RESERVATIONS in *. cbn [length]. lia.
  - rewrite fmap_app. apply NoDup_app. split; [done|]. split; [|by apply NoDup_singleton].
    intros x (e & -> & He)%list_elem_of_fmap Hx%list_elem_of_singleton. cbn in Hx.
    rewrite Forall_forall in T4. specialize (T4 _ He). lia.
  - apply Forall_app. split; [|apply Forall_singleton; cbn; lia].
    eapply Forall_impl; [exact T4|]. cbn. lia.
  - apply Forall_app. split; [done|]. by repeat constructor.
  - lia.
  - apply Forall_app. split.
    + eapply Forall_impl; [exact J1|]. intros e He. by apply traced_grow.
    + apply Forall_singleton.
      split; cbn [id total_bytes chunk_count sha256 next_chunk received_bytes state];
        rewrite ?chunks_of_app, ?J2 by lia; try done.
      apply elem_of_app. right. by apply list_elem_of_singleton.
  - intros i Hi. rewrite chunks_of_app, J2 by lia. done.
Qed.

(** Replacing one entry keeps the history when the others' chunks did not grow. *)
Lemma history_ok_replace h ev t pre e e' post :
  history_ok h t → entries t = pre ++ e :: post → traced (h ++ ev) e' →
  (∀ i, i ≠ id e → chunks_of i ev = []) →
  NoDup (id <$> entries t) → id e < next_id t →
  history_ok (h ++ ev) {| entries := pre ++ e' :: post; epoch := epoch t; next_id := next_id t |}.
Proof.
  intros [J1 J2] Heq He' Hev Hnd Hlt. rewrite Heq in *.
  apply Forall_app in J1 as [Ja [_ Jc]%Forall_cons].
  rewrite fmap_app in Hnd. cbn in Hnd. apply NoDup_app in Hnd as (_ & Hd & Hn).
  apply NoDup_cons in Hn as [Hn _].
  split; cbn [entries next_id].
  - apply Forall_app; split; [|constructor; [done|]].
    + rewrite Forall_forall in *. intros x Hx. apply traced_grow; [auto|]. apply Hev.
      intros Hid. apply (Hd (id x)); [by apply list_elem_of_fmap_2|]. rewrite Hid. by left.
    + rewrite Forall_forall in *. intros x Hx. apply traced_grow; [auto|]. apply Hev.
      intros Hid. apply Hn. rewrite <- Hid. by apply list_elem_of_fmap_2.
  - intros i Hi. rewrite chunks_of_app, J2, Hev by lia. done.
Qed.

Lemma entry_in_middle {P : Reservation → Prop} l pre e post :
  Forall P l → l = pre ++ e :: post → P e.
Proof. intros H ->. by apply Forall_app in H as [_ [H _]%Forall_cons]. Qed.

(** An update that leaves the entry in order and the history true. *)
Lemma run_ok_update {A} h ev t pre e post (r : A) e' :
  run_ok h t → entries t = pre ++ e :: post → entry_ok e' → id e' = id e →
  resource_epoch e' = resource_epoch e → traced (h ++ ev) e' →
  (∀ i, i ≠ id e → chunks_of i ev = []) →
  run_ok (h ++ ev) (snd (with_entries t (r, pre ++ e' :: post))).
Proof.
  intros [Ht Hh] Heq ?????. split.
  - by eapply table_ok_replace.
  - destruct Ht. eapply history_ok_replace; eauto.
    pose proof (entry_in_middle _ _ _ _ ok_fresh0 Heq). cbn in *. lia.
Qed.

Lemma with_entries_same {A} t (a : A) : with_entries t (a, entries t) = (a, t).
Proof. by destruct t. Qed.

Lemma run_ok_chunk h t i k n :
  run_ok h t → is_u32 k → is_u32 n →
  ∃ r t', accept_chunk t i k n = Ret (r, t') ∧
    run_ok (h ++ match r with inl _ => [EvChunk i k n] | inr _ => [] end) t' ∧
    next_id t' = next_id t.
Proof.
  intros Hok Hk Hn. unfold accept_chunk.
  destruct (update_entry_spec (entries t) i (λ e, accept_chunk_entry (epoch t) e k n))
    as [[_ ->]|(pre & e & post & Heq & <- & _ & ->)].
  { exists (inr UnknownReservation), t. rewrite app_nil_r. cbn [mbind outcome_bind].
    by rewrite with_entries_same. }
  destruct Hok as [Ht Hh].
  pose proof (entry_in_middle _ _ _ _ (ok_entries _ Ht) Heq) as He.
  pose proof (entry_in_middle _ _ _ _ (h_entries _ _ Hh) Heq) as Htr.
  destruct (accept_chunk_entry_spec (epoch t) e k n He Hk Hn)
    as (r & e' & -> & He' & [(-> & _ & ->)|[(-> & _ & _ & ->)|[(err & -> & _ & ->)|
          (s & -> & -> & Hnb & _ & _ & -> & Hs)]]]);
    cbn [mbind outcome_bind fst snd]; do 2 eexists; (split; [done|]); (split; [|done]).
  1,2: apply (run_ok_update h [] t pre e post (inr NotUploading : ResourceState + _) _ (conj Ht Hh) Heq He');
      try done; by rewrite app_nil_r.
  - apply (run_ok_update h [] t pre e post (inr err : ResourceState + _) _ (conj Ht Hh) Heq He');
      try done; rewrite app_nil_r; by apply traced_fail.
  - apply (run_ok_update h [_] t pre e post (inl s : _ + ResourceError) _ (conj Ht Hh) Heq He');
      [done|done| |].
    + apply traced_chunk; [done|apply He|lia|]. rewrite Hs. by destruct (_ && _).
    + intros j Hj. unfold chunks_of. cbn. rewrite (proj2 (Z.eqb_neq _ _)); [done|congruence].
Qed.

Lemma traced_verified h e computed :
  traced h e → computed = sha256 e →
  traced (h ++ [EvVerified (id e) computed])
    (set_state e Ready None (received_bytes e) (next_chunk e)).
Proof.
  intros Htr ->. destruct (traced_grow h [EvVerified (id e) (sha256 e)] e Htr eq_refl).
  split; try done. intros _. apply elem_of_app. right. by apply list_elem_of_singleton.
Qed.

Lemma run_ok_verify h t i computed :
  run_ok h t →
  ∃ r t', verify t i computed = Ret (r, t') ∧
    run_ok (h ++ match r with inl _ => [EvVerified i computed] | inr _ => [] end) t' ∧
    next_id t' = next_id t.
Proof.
  intros Hok. unfold verify.
  destruct (update_entry_spec (entries t) i (λ e, verify_entry e computed))
    as [[_ ->]|(pre & e & post & Heq & <- & _ & ->)].
  { exists (inr UnknownReservation), t. rewrite app_nil_r. cbn [mbind outcome_bind].
    by rewrite with_entries_same. }
  destruct Hok as [Ht Hh].
  pose proof (entry_in_middle _ _ _ _ (ok_entries _ Ht) Heq) as He.
  pose proof (entry_in_middle _ _ _ _ (h_entries _ _ Hh) Heq) as Htr.
  destruct (verify_entry_spec e computed He)
    as (r & e' & -> & He' & [(err & -> & ->)|(-> & _ & Hc & ->)]);
    cbn [mbind outcome_bind fst snd]; do 2 eexists; (split; [done|]); (split; [|done]).
  - apply (run_ok_update h [] t pre e post (inr err : unit + _) _ (conj Ht Hh) Heq He'); try done.
    rewrite app_nil_r. by apply traced_fail.
  - apply (run_ok_update h [_] t pre e post (inl tt : _ + ResourceError) _ (conj Ht Hh) Heq He'); try done.
    by apply traced_verified.
Qed.

Lemma run_ok_expire h t now : run_ok h t → run_ok h (snd (expire t now)).
Proof.
  intros [[H1 H2 H3 H4 H5 H6] [J1 J2]]. unfold expire. cbn [snd].
  set (f := λ e, if due now e then fail_entry e TimedOut else e).
  assert (∀ e, id (f e) = id e) as Hid by (intros e; unfold f; by destruct (due _ _)).
  split; split; cbn [entries epoch next_id]; auto.
  - apply Forall_map. eapply Forall_impl; [exact H1|]. intros e He. unfold f.
    destruct (due _ _); [by apply fail_entry_ok|done].
  - by rewrite length_map.
  - change (map f (entries t)) with (f <$> entries t). rewrite <- list_fmap_compose.
    erewrite list_fmap_ext; [exact H3|]. intros ? e _. apply Hid.
  - apply Forall_map. eapply Forall_impl; [exact H4|]. intros e He. cbn. by rewrite Hid.
  - apply Forall_map. eapply Forall_impl; [exact H5|]. intros e He. unfold f. by destruct (due _ _).
  - apply Forall_map. eapply Forall_impl; [exact J1|]. intros e He. unfold f.
    destruct (due _ _); [by apply traced_fail|done].
Qed.

Lemma filter_sublist {A} (p : A → bool) l : List.filter p l `sublist_of` l.
Proof. induction l as [|x l IH]; cbn; [done|]. by destruct (p x); constructor. Qed.

Lemma run_ok_sublist h t es e :
  run_ok h t → es `sublist_of` entries t → e = epoch t ∨ es = [] →
  run_ok h {| entries := es; epoch := e; next_id := next_id t |}.
Proof.
  intros [Ht [J1 J2]] Hs He. split; [by apply table_ok_sublist|].
  split; cbn [entries next_id]; [|done]. rewrite Forall_forall in *. intros x Hx.
  by eapply J1, elem_of_sublist.
Qed.

Lemma run_ok_step h t o :
  run_ok h t → op_wf o → next_id t < u64_max →
  ∃ ev t', resource_step t o = Ret (ev, t') ∧ run_ok (h ++ ev) t' ∧ next_id t' ≤ next_id t + 1.
Proof.
  intros Hok Ho Hn. destruct o as [total chunks f sha d|i k n|i c|now|i|e]; cbn [resource_step op_wf] in *.
  - destruct (run_ok_reserve h t total chunks f sha d Hok (proj1 Ho) (proj2 Ho) Hn)
      as (r & t' & -> & Hr & ?).
    cbn [mbind outcome_bind fst snd]. eauto.
  - destruct (run_ok_chunk h t i k n Hok (proj1 Ho) (proj2 Ho)) as (r & t' & -> & Hr & ?).
    cbn [mbind outcome_bind fst snd]. do 2 eexists. split; [done|]. split; [done|lia].
  - destruct (run_ok_verify h t i c Hok) as (r & t' & -> & Hr & ?).
    cbn [mbind outcome_bind fst snd]. do 2 eexists. split; [done|]. split; [done|lia].
  - do 2 eexists. split; [done|]. rewrite app_nil_r. split; [by apply run_ok_expire|]. cbn. lia.
  - do 2 eexists. split; [done|]. rewrite app_nil_r. split; [|cbn; lia].
    apply run_ok_sublist; [done|apply filter_sublist|by left].
  - do 2 eexists. split; [done|]. rewrite app_nil_r. unfold advance_epoch.
    destruct (_ <? _); cbn; [split; [done|lia]|]. split; [|lia].
    apply run_ok_sublist; [done|apply sublist_nil_l|by right].
Qed.

Lemma run_ok_run h t os :
  run_ok h t → Forall op_wf os → next_id t + lenZ os ≤ u64_max →
  ∃ h' t', resource_run t h os = Ret (h', t') ∧ run_ok h' t'.
Proof.
  intros Hok Hos. revert h t Hok. induction Hos as [|o os Ho Hos IH]; intros h t Hok Hn; cbn [resource_run].
  { eauto. }
  cbn [length] in Hn.
  destruct (run_ok_step h t o Hok Ho) as (ev & t1 & -> & H1 & ?); [lia|].
  cbn [mbind outcome_bind fst snd]. apply IH; [done|lia].
Qed.

Lemma get_in t i e : get t i = Some e → e ∈ entries t ∧ id e = i.
Proof.
  unfold get. intros H. apply List.find_some in H as [Hin Hi]. apply Z.eqb_eq in Hi.
  split; [by apply list_elem_of_In|done].
Qed.

(** The ids handed out, oldest first. *)
Definition reserved_ids (h : list resource_event) : list Z :=
  omap (λ ev, match ev with EvReserved i _ _ _ => Some i | _ => None end) h.

Lemma resource_step_ids t o ev t' :
  resource_step t o = Ret (ev, t') →
  reserved_ids ev = [] ∧ next_id t' = next_id t ∨
  reserved_ids ev = [next_id t] ∧ next_id t' = next_id t + 1.
Proof.
  destruct o as [total chunks f sha d|i k n|i c|now|i|e]; cbn [resource_step]; intros H.
  - unfold reserve in H. destruct (_ <=? _); [apply Ret_inj in H; simplify_eq; by left|].
    destruct ((total =? 0) || _); [apply Ret_inj in H; simplify_eq; by left|].
    destruct ((chunks =? 0) || _); [apply Ret_inj in H; simplify_eq; by left|].
    unfold u64_add in H. destruct (next_id t + 1 <=? u64_max); [|done].
    apply Ret_inj in H; simplify_eq. by right.
  - unfold accept_chunk in H. destruct (update_entry _ _ _) as [r| | |]; [|done..].
    apply Ret_inj in H; simplify_eq. left. cbn. by destruct (fst r).
  - unfold verify in H. destruct (update_entry _ _ _) as [r| | |]; [|done..].
    apply Ret_inj in H; simplify_eq. left. cbn. by destruct (fst r).
  - apply Ret_inj in H; simplify_eq. by left.
  - apply Ret_inj in H; simplify_eq. by left.
  - apply Ret_inj in H; simplify_eq. left. unfold advance_epoch. by destruct (_ <? _).
Qed.

Lemma resource_run_ids os t h h' t' :
  reserved_ids h = seqZ 1 (next_id t - 1) → 1 ≤ next_id t →
  resource_run t h os = Ret (h', t') →
  reserved_ids h' = seqZ 1 (next_id t' - 1) ∧ next_id t ≤ next_id t'.
Proof.
  revert t h. induction os as [|o os IH]; intros t h Hh Hn H; cbn [resource_run] in H.
  { apply Ret_inj in H. simplify_eq. split; [done|lia]. }
  destruct (resource_step t o) as [[ev t1]| | |] eqn:E; [|done..]. cbn [mbind outcome_bind fst snd] in H.
  pose proof (resource_step_ids _ _ _ _ E) as Hs. apply IH in H.
  - destruct H. split; [done|]. destruct Hs as [[_ ?]|[_ ?]]; lia.
  - unfold reserved_ids in *. rewrite omap_app, Hh.
    destruct Hs as [[He Hn1]|[He Hn1]]; rewrite He, Hn1.
    + by rewrite app_nil_r.
    + replace (next_id t + 1 - 1) with (next_id t - 1 + 1) by lia. rewrite seqZ_app by lia.
      f_equal. by replace (1 + (next_id t - 1)) with (next_id t) by lia.
  - destruct Hs as [[_ ?]|[_ ?]]; lia.
Qed.

(** * Properties *)

(** C15: only a verified upload can be named.  Over any sequence of calls on a
    new table, none panics, and a frame may name an id only when that id was
    reserved in the current epoch, every declared chunk was then accepted, in
    order from 0 with no gap, each of 1 byte to 1 MiB and together exactly the
    declared size, and a computed digest equal to the declared one was
    presented. *)
Theorem referenceable_only_verified (first_epoch : Z) (os : list resource_op)
    (Hos : Forall op_wf os) (Hlen : 1 + lenZ os ≤ u64_max) :
  ∃ h t, resource_run (table_new first_epoch) [] os = Ret (h, t) ∧
    ∀ i, is_referenceable t i = true → ∃ e, get t i = Some e ∧
      resource_epoch e = epoch t ∧
      EvReserved i (total_bytes e) (chunk_count e) (sha256 e) ∈ h ∧
      (chunks_of i h).*1 = seqZ 0 (chunk_count e) ∧
      Forall (λ c, 1 ≤ c.2 ≤ MAX_CHUNK_BYTES) (chunks_of i h) ∧
      sum (chunks_of i h).*2 = total_bytes e ∧
      EvVerified i (sha256 e) ∈ h.
Proof.
  destruct (run_ok_run [] (table_new first_epoch) os (run_ok_new _) Hos Hlen) as (h & t & Hr & [Ht Hh]).
  exists h, t. split; [done|]. intros i Hi. unfold is_referenceable in Hi.
  destruct (get t i) as [e|] eqn:Eg; [|done]. exists e. apply get_in in Eg as [Hin <-].
  unfold entry_referenceable in Hi. destruct (state e) eqn:Es; try done.
  destruct Ht as [H1 _ _ _ H5 _]. rewrite Forall_forall in H1, H5.
  destruct (H1 _ Hin) as [_ _ _ _ _ _ Hst _]. rewrite Es in Hst. destruct Hst as [Hb Hc].
  destruct Hh as [J _]. rewrite Forall_forall in J. destruct (J _ Hin) as [K1 K2 K3 K4 K5].
  rewrite Hc in K2. rewrite Hb in K4. split_and!; auto.
Qed.

(** The table is bounded in everything a producer can influence, and its ids
    are its own.  Over any sequence of calls: at most 64 reservations are open,
    none has received more than it declared, nor more than 64 MiB; no two share
    an id, and every id ever handed out is new (they count up from 1, across
    releases and epochs); an entry has an error exactly when it failed. *)
Theorem table_bounded (first_epoch : Z) (os : list resource_op)
    (Hos : Forall op_wf os) (Hlen : 1 + lenZ os ≤ u64_max) :
  ∃ h t, resource_run (table_new first_epoch) [] os = Ret (h, t) ∧
    lenZ (entries t) ≤ MAX_RESERVATIONS ∧
    NoDup (id <$> entries t) ∧
    reserved_ids h = seqZ 1 (next_id t - 1) ∧
    ∀ e, e ∈ entries t →
      0 ≤ received_bytes e ≤ total_bytes e ∧ total_bytes e ≤ MAX_RESOURCE_BYTES ∧
      resource_epoch e = epoch t ∧ (is_Some (error e) ↔ state e = Failed).
Proof.
  destruct (run_ok_run [] (table_new first_epoch) os (run_ok_new _) Hos Hlen) as (h & t & Hr & [Ht _]).
  exists h, t. split; [done|]. apply resource_run_ids in Hr as [Hids _]; [|done..].
  destruct Ht as [H1 H2 H3 H4 H5 H6]. split_and!; try done.
  intros e He. rewrite Forall_forall in H1, H5. destruct (H1 _ He) as [? ? ? ? ? ? ? ?].
  split_and!; try done; try lia. by apply H5.
Qed.

(** What a chunk may do.  A chunk for no reservation changes nothing, nor
    does one for a reservation that is not taking chunks.  For one that is, the
    next chunk in order, of 1 byte to 1 MiB, within the declared size and count,
    is accepted and advances the upload, to [Verifying] exactly when size and
    count are both met; any other chunk fails the upload, out of order as
    [NonContiguousChunk] and out of bounds as [ChunkOutOfBounds]. *)
Theorem accept_chunk_cases (t : ResourceTable) (i k n : Z)
    (Ht : table_ok t) (Hk : is_u32 k) (Hn : is_u32 n) :
  (get t i = None → accept_chunk t i k n = Ret (inr UnknownReservation, t)) ∧
  ∀ e, get t i = Some e → ∃ pre post, entries t = pre ++ e :: post ∧
    ((state e ≠ Reserved ∧ state e ≠ Uploading ∧
       accept_chunk t i k n = Ret (inr NotUploading, t)) ∨
    (∃ err, chunk_refused e k n err ∧
       accept_chunk t i k n = Ret (inr err,
         {| entries := pre ++ fail_entry e err :: post; epoch := epoch t; next_id := next_id t |})) ∨
    (∃ s, k = next_chunk e ∧ 1 ≤ n ≤ MAX_CHUNK_BYTES ∧ received_bytes e + n ≤ total_bytes e ∧
       next_chunk e < chunk_count e ∧
       (s = Verifying ↔ received_bytes e + n = total_bytes e ∧ next_chunk e + 1 = chunk_count e) ∧
       accept_chunk t i k n = Ret (inl s,
         {| entries := pre ++ set_state e s (error e) (received_bytes e + n) (next_chunk e + 1) :: post;
            epoch := epoch t; next_id := next_id t |}))).
Proof.
  unfold accept_chunk.
  destruct (update_entry_spec (entries t) i (λ e, accept_chunk_entry (epoch t) e k n))
    as [[Hno ->]|(pre & e & post & Heq & Hid & Hpre & ->)].
  { split; [intros _; cbn [mbind outcome_bind]; by rewrite with_entries_same|].
    intros e [Hin <-]%get_in. destruct Hno. by apply list_elem_of_fmap_2. }
  assert (get t i = Some e) as Hget.
  { unfold get. rewrite Heq. clear Heq. induction pre as [|x pre IH]; cbn.
    - by rewrite (proj2 (Z.eqb_eq _ _)).
    - rewrite (proj2 (Z.eqb_neq _ _)); [apply IH; intros ?; apply Hpre; by right|].
      intros <-. apply Hpre. by left. }
  split; [by rewrite Hget|]. intros e1. rewrite Hget. intros [= <-].
  exists pre, post. split; [done|].
  pose proof (entry_in_middle _ _ _ _ (ok_entries _ Ht) Heq) as He.
  pose proof (entry_in_middle _ _ _ _ (ok_epoch _ Ht) Heq) as Hep. cbn in Hep.
  assert (∀ (A : Type) (a : A), with_entries t (a, pre ++ e :: post) = (a, t)) as Hsame
    by (intros; rewrite <- Heq; apply with_entries_same).
  destruct (accept_chunk_entry_spec (epoch t) e k n He Hk Hn)
    as (r & e' & -> & _ & [(_ & ? & _)|[(-> & ? & ? & ->)|[(err & -> & ? & ->)|
          (s & -> & ? & ? & ? & ? & -> & Hs)]]]);
    unfold mret, outcome_ret; cbn [mbind outcome_bind fst snd].
  - congruence.
  - left. by rewrite Hsame.
  - right; left. eauto.
  - right; right. exists s. do 4 (split; [done|]). split; [|done]. rewrite Hs.
    destruct (Z.eqb_spec (received_bytes e + n) (total_bytes e)),
      (Z.eqb_spec (next_chunk e + 1) (chunk_count e)); cbn; naive_solver.
Qed.

(** A reservation may be declared so that it can never become ready.
    [reserve] checks that the chunk count can carry the declared size, but not
    that the size has a byte for every chunk: a one-byte resource in two chunks
    is accepted, and no sequence of calls ever verifies a reservation of more
    chunks than bytes. *)
Theorem overchunked_never_ready (first_epoch : Z) (os : list resource_op)
    (Hos : Forall op_wf os) (Hlen : 1 + lenZ os ≤ u64_max) :
  (∃ t, reserve (table_new first_epoch) 1 2 0 [] 0 = Ret (inl 1, t)) ∧
  ∃ h t, resource_run (table_new first_epoch) [] os = Ret (h, t) ∧
    ∀ e, e ∈ entries t → total_bytes e < chunk_count e →
      state e ≠ Verifying ∧ state e ≠ Ready.
Proof.
  split; [by eexists|].
  destruct (run_ok_run [] (table_new first_epoch) os (run_ok_new _) Hos Hlen) as (h & t & Hr & [Ht _]).
  exists h, t. split; [done|]. intros e He ?. destruct Ht as [H1 _ _ _ _ _].
  rewrite Forall_forall in H1. destruct (H1 _ He) as [? ? ? ? ? ? Hst _].
  split; intros Hs; rewrite Hs in Hst; lia.
Qed.

(** An epoch advance leaves nothing to name.  It is refused, changing
    nothing, if it would move back; otherwise every reservation is discarded,
    and counted, so no id is referenceable; and releasing an id drops it and
    only it. *)
Theorem epoch_and_release_discard (t : ResourceTable) (e i : Z) (Ht : table_ok t) :
  (e < epoch t → advance_epoch t e = (inr EpochAdvanced, t)) ∧
  (epoch t ≤ e → ∃ t', advance_epoch t e = (inl (lenZ (entries t)), t') ∧ table_ok t' ∧
     epoch t' = e ∧ ∀ j, is_referenceable t' j = false) ∧
  (∃ t', release t i = (bool_decide (is_Some (get t i)), t') ∧ table_ok t' ∧
     get t' i = None ∧ ∀ j, j ≠ i → get t' j = get t j).
Proof.
  split_and!.
  - intros H. unfold advance_epoch. by rewrite (proj2 (Z.ltb_lt _ _)).
  - intros H. unfold advance_epoch. rewrite (proj2 (Z.ltb_ge _ _)) by done. eexists. split; [done|].
    split_and!; [|done|done]. apply table_ok_sublist; [done|apply sublist_nil_l|by right].
  - exists (snd (release t i)). split_and!.
    + unfold release, get. cbn [snd]. f_equal.
      induction (entries t) as [|x l IH]; cbn; [done|].
      destruct (id x =? i); cbn [negb].
      * rewrite bool_decide_eq_true_2 by done.
        pose proof (sublist_length _ _ (filter_sublist (λ e, negb (id e =? i)) l)).
        rewrite (proj2 (Z.eqb_neq _ _)); [done|]. lia.
      * cbn [length]. rewrite <- IH. f_equal.
        destruct (Z.eqb_spec (lenZ (List.filter (λ e0, negb (id e0 =? i)) l)) (lenZ l)) as [Heq|];
          [apply Z.eqb_eq; lia|apply Z.eqb_neq; lia].
    + apply table_ok_sublist; [done|apply filter_sublist|by left].
    + unfold release, get. cbn [snd entries].
      induction (entries t) as [|x l IH]; cbn; [done|].
      destruct (id x =? i) eqn:E; cbn [negb]; [done|]. cbn. by rewrite E.
    + intros j Hj. unfold release, get. cbn [snd entries].
      induction (entries t) as [|x l IH]; cbn; [done|].
      destruct (Z.eqb_spec (id x) i) as [->|]; cbn [negb].
      * rewrite (proj2 (Z.eqb_neq i j)) by done. done.
      * cbn. by destruct (id x =? j).
Qed.

(** ** Concrete runs *)

Definition sample_upload : list resource_op := [
  Reserve 1048577 2 0 [1; 2] 1000; Chunk 1 0 1048576; Chunk 1 1 1; Verify 1 [1; 2];
  Reserve 1 2 0 [3] 1000; Chunk 2 0 1; Expire 2000].

Lemma sample_upload_wf : Forall op_wf sample_upload.
Proof. unfold sample_upload. repeat (apply Forall_cons; split; [cbn; unfold is_u64, is_u32; lia || exact I|]). constructor. Qed.

Lemma sample_upload_len : 1 + lenZ sample_upload ≤ u64_max.
Proof. by vm_compute. Qed.

Lemma referenceable_only_verified_witness : ∃ h t,
  resource_run (table_new 3) [] sample_upload = Ret (h, t) ∧
  (is_referenceable t 1 = true → EvVerified 1 [1; 2] ∈ h).
Proof.
  destruct (referenceable_only_verified 3 sample_upload sample_upload_wf sample_upload_len)
    as (h & t & Hr & Hi). exists h, t. split; [exact Hr|]. intros H1.
  vm_compute in Hr. injection Hr as <- <-. do 3 right. by left.
Defined.

Lemma table_bounded_witness : ∃ h t,
  resource_run (table_new 3) [] sample_upload = Ret (h, t) ∧ NoDup (id <$> entries t).
Proof.
  destruct (table_bounded 3 sample_upload sample_upload_wf sample_upload_len)
    as (h & t & Hr & _ & Hn & _). exists h, t. split; [exact Hr|exact Hn].
Defined.

Lemma table_new_ok e : table_ok (table_new e).
Proof. apply run_ok_new. Qed.

Lemma accept_chunk_cases_witness :
  accept_chunk (table_new 3) 1 0 10 = Ret (inr UnknownReservation, table_new 3).
Proof.
  apply (accept_chunk_cases (table_new 3) 1 0 10 (table_new_ok 3)); [unfold is_u32; lia..|done].
Defined.

Lemma overchunked_never_ready_witness :
  ∃ t, reserve (table_new 3) 1 2 0 [] 0 = Ret (inl 1, t).
Proof.
  exact (proj1 (overchunked_never_ready 3 sample_upload sample_upload_wf sample_upload_len)).
Defined.

Lemma epoch_and_release_discard_witness :
  advance_epoch (table_new 3) 2 = (inr EpochAdvanced, table_new 3).
Proof. apply (epoch_and_release_discard (table_new 3) 2 1 (table_new_ok 3)). done. Defined.
