(* ===== verification/Commands.v ===== *)
(** The render commands the wire can carry ([engine/crates/shared],
    [protocol/render_cmd.rs] and [protocol/color.rs]), and the words that stand
    for each of them.

    [GLCmd] and [Canvas2DCmd] are the constructors the decoder builds; the other
    constructors of the two enums (replies, uploads, text, images) are built by
    the in-process calls and never cross as words.  An [f32] is its bit pattern:
    nothing here computes with it, and the code moves it by its bits.

    [gl_encode] and [canvas2d_encode] are the specification of the record layouts
    ("H C I I U U"): a header, then one word per field, in order. *)
From S2P Require Import Prelude Opcodes Stream.

(** * Words and fields *)

(** [f32::from_bits] and back. *)
Inductive F32 := from_bits (w : Z).
Definition bits (x : F32) : Z := match x with from_bits w => w end.

#[global] Instance F32_eq_dec : EqDecision F32.
Proof. solve_decision. Defined.

Record Color := { color_r : F32; color_g : F32; color_b : F32; color_a : F32 }.

#[global] Instance Color_eq_dec : EqDecision Color.
Proof. solve_decision. Defined.

(** * Commands *)

Inductive GLCmd :=
  | Viewport (canvas_id x y width height : Z)
  | Clear (canvas_id bit_field : Z)
  | ClearColor (canvas_id : Z) (r g b a : F32)
  | ClearDepth (canvas_id : Z) (depth : F32)
  | ClearStencil (canvas_id s : Z)
  | Enable (canvas_id cap : Z)
  | Disable (canvas_id cap : Z)
  | UseProgram (canvas_id program_id : Z)
  | BindBuffer (canvas_id target : Z) (buffer : option Z)
  | BindTexture (canvas_id target : Z) (texture : option Z)
  | ActiveTexture (canvas_id unit : Z)
  | BindFramebuffer (canvas_id target : Z) (framebuffer : option Z)
  | BindRenderbuffer (canvas_id target : Z) (renderbuffer : option Z)
  | BindVertexArray (canvas_id : Z) (vao : option Z)
  | BindSampler (canvas_id unit : Z) (sampler : option Z)
  | EnableVertexAttribArray (canvas_id index : Z)
  | DisableVertexAttribArray (canvas_id index : Z)
  | VertexAttribPointer (canvas_id index size type_ : Z) (normalized : bool) (stride offset : Z)
  | VertexAttribDivisor (canvas_id index divisor : Z)
  | BlendFunc (canvas_id sfactor dfactor : Z)
  | BlendFuncSeparate (canvas_id src_rgb dst_rgb src_alpha dst_alpha : Z)
  | BlendEquation (canvas_id mode : Z)
  | BlendEquationSeparate (canvas_id mode_rgb mode_alpha : Z)
  | BlendColor (canvas_id : Z) (r g b a : F32)
  | DepthFunc (canvas_id func : Z)
  | DepthMask (canvas_id : Z) (flag : bool)
  | DepthRange (canvas_id : Z) (near far : F32)
  | StencilFunc (canvas_id func ref_ mask : Z)
  | StencilFuncSeparate (canvas_id face func ref_ mask : Z)
  | StencilOp (canvas_id fail zfail zpass : Z)
  | StencilOpSeparate (canvas_id face fail zfail zpass : Z)
  | StencilMask (canvas_id mask : Z)
  | StencilMaskSeparate (canvas_id face mask : Z)
  | CullFace (canvas_id mode : Z)
  | FrontFace (canvas_id mode : Z)
  | ColorMask (canvas_id : Z) (r g b a : bool)
  | Scissor (canvas_id x y width height : Z)
  | LineWidth (canvas_id : Z) (width : F32)
  | PolygonOffset (canvas_id : Z) (factor units : F32)
  | TexParameteri (canvas_id target pname param : Z)
  | TexParameterf (canvas_id target pname : Z) (param : F32)
  | GenerateMipmap (canvas_id target : Z)
  | PixelStorei (canvas_id pname param : Z)
  | Hint (canvas_id target mode : Z)
  | SamplerParameteri (sampler pname param : Z)
  | SamplerParameterf (sampler pname : Z) (param : F32)
  | DrawArrays (canvas_id mode first count : Z)
  | DrawElements (canvas_id mode count index_type offset : Z)
  | DrawArraysInstanced (canvas_id mode first count instance_count : Z)
  | DrawElementsInstanced (canvas_id mode count index_type offset instance_count : Z)
  | BindBufferBase (canvas_id target index : Z) (buffer : option Z)
  | BindBufferRange (canvas_id target index : Z) (buffer : option Z) (offset size : Z)
  | ReadBuffer (canvas_id src : Z)
  | Uniform1i (canvas_id : Z) (location : option Z) (x : Z)
  | Uniform1f (canvas_id : Z) (location : option Z) (x : F32)
  | Uniform2f (canvas_id : Z) (location : option Z) (x y : F32)
  | Uniform3f (canvas_id : Z) (location : option Z) (x y z : F32)
  | Uniform4f (canvas_id : Z) (location : option Z) (x y z w : F32)
  | Uniform1iv (canvas_id : Z) (location : option Z) (value : list Z)
  | Uniform1fv (canvas_id : Z) (location : option Z) (value : list F32)
  | Uniform2iv (canvas_id : Z) (location : option Z) (value : list Z)
  | Uniform2fv (canvas_id : Z) (location : option Z) (value : list F32)
  | Uniform3iv (canvas_id : Z) (location : option Z) (value : list Z)
  | Uniform3fv (canvas_id : Z) (location : option Z) (value : list F32)
  | Uniform4iv (canvas_id : Z) (location : option Z) (value : list Z)
  | Uniform4fv (canvas_id : Z) (location : option Z) (value : list F32)
  | UniformMatrix2fv (canvas_id : Z) (location : option Z) (transpose : bool) (value : list F32)
  | UniformMatrix3fv (canvas_id : Z) (location : option Z) (transpose : bool) (value : list F32)
  | UniformMatrix4fv (canvas_id : Z) (location : option Z) (transpose : bool) (value : list F32).

#[global] Instance GLCmd_eq_dec : EqDecision GLCmd.
Proof. solve_decision. Defined.

Inductive Canvas2DCmd :=
  | BeginPath
  | ClosePath
  | MoveTo (x y : F32)
  | LineTo (x y : F32)
  | QuadraticCurveTo (cpx cpy x y : F32)
  | BezierCurveTo (cp1x cp1y cp2x cp2y x y : F32)
  | Arc (x y radius start_angle end_angle : F32) (counterclockwise : bool)
  | ArcTo (x1 y1 x2 y2 radius : F32)
  | Rect (x y w h : F32)
  | Ellipse (x y radius_x radius_y rotation start_angle end_angle : F32)
      (counterclockwise : bool)
  | Fill
  | Stroke
  | Clip
  | FillRect (x y w h : F32)
  | StrokeRect (x y w h : F32)
  | ClearRect (x y w h : F32)
  | Save
  | Restore
  | SetTransform (a b c d e f : F32)
  | ResetTransform
  | Translate (x y : F32)
  | Rotate (angle : F32)
  | Scale (x y : F32)
  | SetLineWidth (width : F32)
  | SetGlobalAlpha (alpha : F32)
  | SetMiterLimit (limit : F32)
  | SetLineDashOffset (offset : F32)
  | SetShadowBlur (blur : F32)
  | SetShadowOffsetX (offset : F32)
  | SetShadowOffsetY (offset : F32)
  | SetLineCap (cap : Z)
  | SetLineJoin (join : Z)
  | SetCompositeOperation (op : Z)
  | SetFillStyle (color : Color)
  | SetStrokeStyle (color : Color)
  | SetShadowColor (color : Color).

#[global] Instance Canvas2DCmd_eq_dec : EqDecision Canvas2DCmd.
Proof. solve_decision. Defined.

(** * The words of a field *)

Definition of_i (x : Z) : Z := x mod 2 ^ 32.
Definition of_b (x : bool) : Z := if x then 1 else 0.
(** An id whose absence is any negative number, and one whose absence is zero. *)
Definition of_signed (x : option Z) : Z := match x with Some w => w | None => 2 ^ 32 - 1 end.
Definition of_nonzero (x : option Z) : Z := match x with Some w => w | None => 0 end.

Definition f32_ok (x : F32) : Prop := is_u32 (bits x).
Definition signed_ok (x : option Z) : Prop :=
  match x with Some w => 0 ≤ w < 2 ^ 31 | None => True end.
Definition nonzero_ok (x : option Z) : Prop :=
  match x with Some w => 1 ≤ w < 2 ^ 32 | None => True end.
Definition values_ok {A} (P : A → Prop) (l : list A) : Prop :=
  Forall P l ∧ lenZ l ≤ MAX_STREAM_UNIFORM_WORDS.
Definition color_ok (x : Color) : Prop :=
  f32_ok (color_r x) ∧ f32_ok (color_g x) ∧ f32_ok (color_b x) ∧ f32_ok (color_a x).

(** * The record of a command *)

Definition gl_opcode (cmd : GLCmd) : Z :=
  match cmd with
  | Viewport _ _ _ _ _ => OP_VIEWPORT
  | Clear _ _ => OP_CLEAR
  | ClearColor _ _ _ _ _ => OP_CLEAR_COLOR
  | ClearDepth _ _ => OP_CLEAR_DEPTH
  | ClearStencil _ _ => OP_CLEAR_STENCIL
  | Enable _ _ => OP_ENABLE
  | Disable _ _ => OP_DISABLE
  | UseProgram _ _ => OP_USE_PROGRAM
  | BindBuffer _ _ _ => OP_BIND_BUFFER
  | BindTexture _ _ _ => OP_BIND_TEXTURE
  | ActiveTexture _ _ => OP_ACTIVE_TEXTURE
  | BindFramebuffer _ _ _ => OP_BIND_FRAMEBUFFER
  | BindRenderbuffer _ _ _ => OP_BIND_RENDERBUFFER
  | BindVertexArray _ _ => OP_BIND_VERTEX_ARRAY
  | BindSampler _ _ _ => OP_BIND_SAMPLER
  | EnableVertexAttribArray _ _ => OP_ENABLE_VERTEX_ATTRIB_ARRAY
  | DisableVertexAttribArray _ _ => OP_DISABLE_VERTEX_ATTRIB_ARRAY
  | VertexAttribPointer _ _ _ _ _ _ _ => OP_VERTEX_ATTRIB_POINTER
  | VertexAttribDivisor _ _ _ => OP_VERTEX_ATTRIB_DIVISOR
  | BlendFunc _ _ _ => OP_BLEND_FUNC
  | BlendFuncSeparate _ _ _ _ _ => OP_BLEND_FUNC_SEPARATE
  | BlendEquation _ _ => OP_BLEND_EQUATION
  | BlendEquationSeparate _ _ _ => OP_BLEND_EQUATION_SEPARATE
  | BlendColor _ _ _ _ _ => OP_BLEND_COLOR
  | DepthFunc _ _ => OP_DEPTH_FUNC
  | DepthMask _ _ => OP_DEPTH_MASK
  | DepthRange _ _ _ => OP_DEPTH_RANGE
  | StencilFunc _ _ _ _ => OP_STENCIL_FUNC
  | StencilFuncSeparate _ _ _ _ _ => OP_STENCIL_FUNC_SEPARATE
  | StencilOp _ _ _ _ => OP_STENCIL_OP
  | StencilOpSeparate _ _ _ _ _ => OP_STENCIL_OP_SEPARATE
  | StencilMask _ _ => OP_STENCIL_MASK
  | StencilMaskSeparate _ _ _ => OP_STENCIL_MASK_SEPARATE
  | CullFace _ _ => OP_CULL_FACE
  | FrontFace _ _ => OP_FRONT_FACE
  | ColorMask _ _ _ _ _ => OP_COLOR_MASK
  | Scissor _ _ _ _ _ => OP_SCISSOR
  | LineWidth _ _ => OP_LINE_WIDTH
  | PolygonOffset _ _ _ => OP_POLYGON_OFFSET
  | TexParameteri _ _ _ _ => OP_TEX_PARAMETER_I
  | TexParameterf _ _ _ _ => OP_TEX_PARAMETER_F
  | GenerateMipmap _ _ => OP_GENERATE_MIPMAP
  | PixelStorei _ _ _ => OP_PIXEL_STORE_I
  | Hint _ _ _ => OP_HINT
  | SamplerParameteri _ _ _ => OP_SAMPLER_PARAMETER_I
  | SamplerParameterf _ _ _ => OP_SAMPLER_PARAMETER_F
  | DrawArrays _ _ _ _ => OP_DRAW_ARRAYS
  | DrawElements _ _ _ _ _ => OP_DRAW_ELEMENTS
  | DrawArraysInstanced _ _ _ _ _ => OP_DRAW_ARRAYS_INSTANCED
  | DrawElementsInstanced _ _ _ _ _ _ => OP_DRAW_ELEMENTS_INSTANCED
  | BindBufferBase _ _ _ _ => OP_BIND_BUFFER_BASE
  | BindBufferRange _ _ _ _ _ _ => OP_BIND_BUFFER_RANGE
  | ReadBuffer _ _ => OP_READ_BUFFER
  | Uniform1i _ _ _ => OP_UNIFORM1I
  | Uniform1f _ _ _ => OP_UNIFORM1F
  | Uniform2f _ _ _ _ => OP_UNIFORM2F
  | Uniform3f _ _ _ _ _ => OP_UNIFORM3F
  | Uniform4f _ _ _ _ _ _ => OP_UNIFORM4F
  | Uniform1iv _ _ _ => OP_UNIFORM1IV
  | Uniform1fv _ _ _ => OP_UNIFORM1FV
  | Uniform2iv _ _ _ => OP_UNIFORM2IV
  | Uniform2fv _ _ _ => OP_UNIFORM2FV
  | Uniform3iv _ _ _ => OP_UNIFORM3IV
  | Uniform3fv _ _ _ => OP_UNIFORM3FV
  | Uniform4iv _ _ _ => OP_UNIFORM4IV
  | Uniform4fv _ _ _ => OP_UNIFORM4FV
  | UniformMatrix2fv _ _ _ _ => OP_UNIFORM_MATRIX2FV
  | UniformMatrix3fv _ _ _ _ => OP_UNIFORM_MATRIX3FV
  | UniformMatrix4fv _ _ _ _ => OP_UNIFORM_MATRIX4FV
  end.

Definition gl_payload (cmd : GLCmd) : list Z :=
  match cmd with
  | Viewport canvas_id x y width height => [canvas_id; of_i x; of_i y; width; height]
  | Clear canvas_id bit_field => [canvas_id; bit_field]
  | ClearColor canvas_id r g b a => [canvas_id; bits r; bits g; bits b; bits a]
  | ClearDepth canvas_id depth => [canvas_id; bits depth]
  | ClearStencil canvas_id s => [canvas_id; of_i s]
  | Enable canvas_id cap => [canvas_id; cap]
  | Disable canvas_id cap => [canvas_id; cap]
  | UseProgram canvas_id program_id => [canvas_id; program_id]
  | BindBuffer canvas_id target buffer => [canvas_id; target; of_signed buffer]
  | BindTexture canvas_id target texture => [canvas_id; target; of_signed texture]
  | ActiveTexture canvas_id unit => [canvas_id; unit]
  | BindFramebuffer canvas_id target framebuffer =>
      [canvas_id; target; of_signed framebuffer]
  | BindRenderbuffer canvas_id target renderbuffer =>
      [canvas_id; target; of_signed renderbuffer]
  | BindVertexArray canvas_id vao => [canvas_id; of_nonzero vao]
  | BindSampler canvas_id unit sampler => [canvas_id; unit; of_nonzero sampler]
  | EnableVertexAttribArray canvas_id index => [canvas_id; index]
  | DisableVertexAttribArray canvas_id index => [canvas_id; index]
  | VertexAttribPointer canvas_id index size type_ normalized stride offset =>
      [canvas_id; index; of_i size; type_; of_b normalized; of_i stride; of_i offset]
  | VertexAttribDivisor canvas_id index divisor => [canvas_id; index; divisor]
  | BlendFunc canvas_id sfactor dfactor => [canvas_id; sfactor; dfactor]
  | BlendFuncSeparate canvas_id src_rgb dst_rgb src_alpha dst_alpha =>
      [canvas_id; src_rgb; dst_rgb; src_alpha; dst_alpha]
  | BlendEquation canvas_id mode => [canvas_id; mode]
  | BlendEquationSeparate canvas_id mode_rgb mode_alpha => [canvas_id; mode_rgb; mode_alpha]
  | BlendColor canvas_id r g b a => [canvas_id; bits r; bits g; bits b; bits a]
  | DepthFunc canvas_id func => [canvas_id; func]
  | DepthMask canvas_id flag => [canvas_id; of_b flag]
  | DepthRange canvas_id near far => [canvas_id; bits near; bits far]
  | StencilFunc canvas_id func ref_ mask => [canvas_id; func; of_i ref_; mask]
  | StencilFuncSeparate canvas_id face func ref_ mask =>
      [canvas_id; face; func; of_i ref_; mask]
  | StencilOp canvas_id fail zfail zpass => [canvas_id; fail; zfail; zpass]
  | StencilOpSeparate canvas_id face fail zfail zpass =>
      [canvas_id; face; fail; zfail; zpass]
  | StencilMask canvas_id mask => [canvas_id; mask]
  | StencilMaskSeparate canvas_id face mask => [canvas_id; face; mask]
  | CullFace canvas_id mode => [canvas_id; mode]
  | FrontFace canvas_id mode => [canvas_id; mode]
  | ColorMask canvas_id r g b a => [canvas_id; of_b r; of_b g; of_b b; of_b a]
  | Scissor canvas_id x y width height =>
      [canvas_id; of_i x; of_i y; of_i width; of_i height]
  | LineWidth canvas_id width => [canvas_id; bits width]
  | PolygonOffset canvas_id factor units => [canvas_id; bits factor; bits units]
  | TexParameteri canvas_id target pname param => [canvas_id; target; pname; of_i param]
  | TexParameterf canvas_id target pname param => [canvas_id; target; pname; bits param]
  | GenerateMipmap canvas_id target => [canvas_id; target]
  | PixelStorei canvas_id pname param => [canvas_id; pname; of_i param]
  | Hint canvas_id target mode => [canvas_id; target; mode]
  | SamplerParameteri sampler pname param => [sampler; pname; of_i param]
  | SamplerParameterf sampler pname param => [sampler; pname; bits param]
  | DrawArrays canvas_id mode first count => [canvas_id; mode; of_i first; of_i count]
  | DrawElements canvas_id mode count index_type offset =>
      [canvas_id; mode; of_i count; index_type; of_i offset]
  | DrawArraysInstanced canvas_id mode first count instance_count =>
      [canvas_id; mode; of_i first; of_i count; of_i instance_count]
  | DrawElementsInstanced canvas_id mode count index_type offset instance_count =>
      [canvas_id; mode; of_i count; index_type; of_i offset; of_i instance_count]
  | BindBufferBase canvas_id target index buffer =>
      [canvas_id; target; index; of_nonzero buffer]
  | BindBufferRange canvas_id target index buffer offset size =>
      [canvas_id; target; index; of_nonzero buffer; of_i offset; of_i size]
  | ReadBuffer canvas_id src => [canvas_id; src]
  | Uniform1i canvas_id location x => [canvas_id; of_signed location; of_i x]
  | Uniform1f canvas_id location x => [canvas_id; of_signed location; bits x]
  | Uniform2f canvas_id location x y => [canvas_id; of_signed location; bits x; bits y]
  | Uniform3f canvas_id location x y z =>
      [canvas_id; of_signed location; bits x; bits y; bits z]
  | Uniform4f canvas_id location x y z w =>
      [canvas_id; of_signed location; bits x; bits y; bits z; bits w]
  | Uniform1iv canvas_id location value => [canvas_id; of_signed location] ++ map of_i value
  | Uniform1fv canvas_id location value => [canvas_id; of_signed location] ++ map bits value
  | Uniform2iv canvas_id location value => [canvas_id; of_signed location] ++ map of_i value
  | Uniform2fv canvas_id location value => [canvas_id; of_signed location] ++ map bits value
  | Uniform3iv canvas_id location value => [canvas_id; of_signed location] ++ map of_i value
  | Uniform3fv canvas_id location value => [canvas_id; of_signed location] ++ map bits value
  | Uniform4iv canvas_id location value => [canvas_id; of_signed location] ++ map of_i value
  | Uniform4fv canvas_id location value => [canvas_id; of_signed location] ++ map bits value
  | UniformMatrix2fv canvas_id location transpose value =>
      [canvas_id; of_signed location; of_b transpose] ++ map bits value
  | UniformMatrix3fv canvas_id location transpose value =>
      [canvas_id; of_signed location; of_b transpose] ++ map bits value
  | UniformMatrix4fv canvas_id location transpose value =>
      [canvas_id; of_signed location; of_b transpose] ++ map bits value
  end.

Definition gl_cmd_ok (cmd : GLCmd) : Prop :=
  match cmd with
  | Viewport canvas_id x y width height =>
      is_u32 canvas_id ∧ is_i32 x ∧ is_i32 y ∧ is_u32 width ∧ is_u32 height
  | Clear canvas_id bit_field => is_u32 canvas_id ∧ is_u32 bit_field
  | ClearColor canvas_id r g b a =>
      is_u32 canvas_id ∧ f32_ok r ∧ f32_ok g ∧ f32_ok b ∧ f32_ok a
  | ClearDepth canvas_id depth => is_u32 canvas_id ∧ f32_ok depth
  | ClearStencil canvas_id s => is_u32 canvas_id ∧ is_i32 s
  | Enable canvas_id cap => is_u32 canvas_id ∧ is_u32 cap
  | Disable canvas_id cap => is_u32 canvas_id ∧ is_u32 cap
  | UseProgram canvas_id program_id => is_u32 canvas_id ∧ is_u32 program_id
  | BindBuffer canvas_id target buffer => is_u32 canvas_id ∧ is_u32 target ∧ signed_ok buffer
  | BindTexture canvas_id target texture =>
      is_u32 canvas_id ∧ is_u32 target ∧ signed_ok texture
  | ActiveTexture canvas_id unit => is_u32 canvas_id ∧ is_u32 unit
  | BindFramebuffer canvas_id target framebuffer =>
      is_u32 canvas_id ∧ is_u32 target ∧ signed_ok framebuffer
  | BindRenderbuffer canvas_id target renderbuffer =>
      is_u32 canvas_id ∧ is_u32 target ∧ signed_ok renderbuffer
  | BindVertexArray canvas_id vao => is_u32 canvas_id ∧ nonzero_ok vao
  | BindSampler canvas_id unit sampler => is_u32 canvas_id ∧ is_u32 unit ∧ nonzero_ok sampler
  | EnableVertexAttribArray canvas_id index => is_u32 canvas_id ∧ is_u32 index
  | DisableVertexAttribArray canvas_id index => is_u32 canvas_id ∧ is_u32 index
  | VertexAttribPointer canvas_id index size type_ normalized stride offset =>
      is_u32 canvas_id ∧ is_u32 index ∧ is_i32 size ∧ is_u32 type_ ∧ is_i32 stride ∧ is_i32 offset
  | VertexAttribDivisor canvas_id index divisor =>
      is_u32 canvas_id ∧ is_u32 index ∧ is_u32 divisor
  | BlendFunc canvas_id sfactor dfactor => is_u32 canvas_id ∧ is_u32 sfactor ∧ is_u32 dfactor
  | BlendFuncSeparate canvas_id src_rgb dst_rgb src_alpha dst_alpha =>
      is_u32 canvas_id ∧ is_u32 src_rgb ∧ is_u32 dst_rgb ∧ is_u32 src_alpha ∧ is_u32 dst_alpha
  | BlendEquation canvas_id mode => is_u32 canvas_id ∧ is_u32 mode
  | BlendEquationSeparate canvas_id mode_rgb mode_alpha =>
      is_u32 canvas_id ∧ is_u32 mode_rgb ∧ is_u32 mode_alpha
  | BlendColor canvas_id r g b a =>
      is_u32 canvas_id ∧ f32_ok r ∧ f32_ok g ∧ f32_ok b ∧ f32_ok a
  | DepthFunc canvas_id func => is_u32 canvas_id ∧ is_u32 func
  | DepthMask canvas_id flag => is_u32 canvas_id
  | DepthRange canvas_id near far => is_u32 canvas_id ∧ f32_ok near ∧ f32_ok far
  | StencilFunc canvas_id func ref_ mask =>
      is_u32 canvas_id ∧ is_u32 func ∧ is_i32 ref_ ∧ is_u32 mask
  | StencilFuncSeparate canvas_id face func ref_ mask =>
      is_u32 canvas_id ∧ is_u32 face ∧ is_u32 func ∧ is_i32 ref_ ∧ is_u32 mask
  | StencilOp canvas_id fail zfail zpass =>
      is_u32 canvas_id ∧ is_u32 fail ∧ is_u32 zfail ∧ is_u32 zpass
  | StencilOpSeparate canvas_id face fail zfail zpass =>
      is_u32 canvas_id ∧ is_u32 face ∧ is_u32 fail ∧ is_u32 zfail ∧ is_u32 zpass
  | StencilMask canvas_id mask => is_u32 canvas_id ∧ is_u32 mask
  | StencilMaskSeparate canvas_id face mask => is_u32 canvas_id ∧ is_u32 face ∧ is_u32 mask
  | CullFace canvas_id mode => is_u32 canvas_id ∧ is_u32 mode
  | FrontFace canvas_id mode => is_u32 canvas_id ∧ is_u32 mode
  | ColorMask canvas_id r g b a => is_u32 canvas_id
  | Scissor canvas_id x y width height =>
      is_u32 canvas_id ∧ is_i32 x ∧ is_i32 y ∧ is_i32 width ∧ is_i32 height
  | LineWidth canvas_id width => is_u32 canvas_id ∧ f32_ok width
  | PolygonOffset canvas_id factor units => is_u32 canvas_id ∧ f32_ok factor ∧ f32_ok units
  | TexParameteri canvas_id target pname param =>
      is_u32 canvas_id ∧ is_u32 target ∧ is_u32 pname ∧ is_i32 param
  | TexParameterf canvas_id target pname param =>
      is_u32 canvas_id ∧ is_u32 target ∧ is_u32 pname ∧ f32_ok param
  | GenerateMipmap canvas_id target => is_u32 canvas_id ∧ is_u32 target
  | PixelStorei canvas_id pname param => is_u32 canvas_id ∧ is_u32 pname ∧ is_i32 param
  | Hint canvas_id target mode => is_u32 canvas_id ∧ is_u32 target ∧ is_u32 mode
  | SamplerParameteri sampler pname param => is_u32 sampler ∧ is_u32 pname ∧ is_i32 param
  | SamplerParameterf sampler pname param => is_u32 sampler ∧ is_u32 pname ∧ f32_ok param
  | DrawArrays canvas_id mode first count =>
      is_u32 canvas_id ∧ is_u32 mode ∧ is_i32 first ∧ is_i32 count
  | DrawElements canvas_id mode count index_type offset =>
      is_u32 canvas_id ∧ is_u32 mode ∧ is_i32 count ∧ is_u32 index_type ∧ is_i32 offset
  | DrawArraysInstanced canvas_id mode first count instance_count =>
      is_u32 canvas_id ∧ is_u32 mode ∧ is_i32 first ∧ is_i32 count ∧ is_i32 instance_count
  | DrawElementsInstanced canvas_id mode count index_type offset instance_count =>
      is_u32 canvas_id ∧ is_u32 mode ∧ is_i32 count ∧ is_u32 index_type ∧ is_i32 offset ∧ is_i32 instance_count
  | BindBufferBase canvas_id target index buffer =>
      is_u32 canvas_id ∧ is_u32 target ∧ is_u32 index ∧ nonzero_ok buffer
  | BindBufferRange canvas_id target index buffer offset size =>
      is_u32 canvas_id ∧ is_u32 target ∧ is_u32 index ∧ nonzero_ok buffer ∧ is_i32 offset ∧ is_i32 size
  | ReadBuffer canvas_id src => is_u32 canvas_id ∧ is_u32 src
  | Uniform1i canvas_id location x => is_u32 canvas_id ∧ signed_ok location ∧ is_i32 x
  | Uniform1f canvas_id location x => is_u32 canvas_id ∧ signed_ok location ∧ f32_ok x
  | Uniform2f canvas_id location x y =>
      is_u32 canvas_id ∧ signed_ok location ∧ f32_ok x ∧ f32_ok y
  | Uniform3f canvas_id location x y z =>
      is_u32 canvas_id ∧ signed_ok location ∧ f32_ok x ∧ f32_ok y ∧ f32_ok z
  | Uniform4f canvas_id location x y z w =>
      is_u32 canvas_id ∧ signed_ok location ∧ f32_ok x ∧ f32_ok y ∧ f32_ok z ∧ f32_ok w
  | Uniform1iv canvas_id location value =>
      is_u32 canvas_id ∧ signed_ok location ∧ values_ok is_i32 value
  | Uniform1fv canvas_id location value =>
      is_u32 canvas_id ∧ signed_ok location ∧ values_ok f32_ok value
  | Uniform2iv canvas_id location value =>
      is_u32 canvas_id ∧ signed_ok location ∧ values_ok is_i32 value
  | Uniform2fv canvas_id location value =>
      is_u32 canvas_id ∧ signed_ok location ∧ values_ok f32_ok value
  | Uniform3iv canvas_id location value =>
      is_u32 canvas_id ∧ signed_ok location ∧ values_ok is_i32 value
  | Uniform3fv canvas_id location value =>
      is_u32 canvas_id ∧ signed_ok location ∧ values_ok f32_ok value
  | Uniform4iv canvas_id location value =>
      is_u32 canvas_id ∧ signed_ok location ∧ values_ok is_i32 value
  | Uniform4fv canvas_id location value =>
      is_u32 canvas_id ∧ signed_ok location ∧ values_ok f32_ok value
  | UniformMatrix2fv canvas_id location transpose value =>
      is_u32 canvas_id ∧ signed_ok location ∧ values_ok f32_ok value
  | UniformMatrix3fv canvas_id location transpose value =>
      is_u32 canvas_id ∧ signed_ok location ∧ values_ok f32_ok value
  | UniformMatrix4fv canvas_id location transpose value =>
      is_u32 canvas_id ∧ signed_ok location ∧ values_ok f32_ok value
  end.

Definition canvas2d_opcode (cmd : Canvas2DCmd) : Z :=
  match cmd with
  | BeginPath => OP2D_BEGIN_PATH
  | ClosePath => OP2D_CLOSE_PATH
  | MoveTo _ _ => OP2D_MOVE_TO
  | LineTo _ _ => OP2D_LINE_TO
  | QuadraticCurveTo _ _ _ _ => OP2D_QUADRATIC_CURVE_TO
  | BezierCurveTo _ _ _ _ _ _ => OP2D_BEZIER_CURVE_TO
  | Arc _ _ _ _ _ _ => OP2D_ARC
  | ArcTo _ _ _ _ _ => OP2D_ARC_TO
  | Rect _ _ _ _ => OP2D_RECT
  | Ellipse _ _ _ _ _ _ _ _ => OP2D_ELLIPSE
  | Fill => OP2D_FILL
  | Stroke => OP2D_STROKE
  | Clip => OP2D_CLIP
  | FillRect _ _ _ _ => OP2D_FILL_RECT
  | StrokeRect _ _ _ _ => OP2D_STROKE_RECT
  | ClearRect _ _ _ _ => OP2D_CLEAR_RECT
  | Save => OP2D_SAVE
  | Restore => OP2D_RESTORE
  | SetTransform _ _ _ _ _ _ => OP2D_SET_TRANSFORM
  | ResetTransform => OP2D_RESET_TRANSFORM
  | Translate _ _ => OP2D_TRANSLATE
  | Rotate _ => OP2D_ROTATE
  | Scale _ _ => OP2D_SCALE
  | SetLineWidth _ => OP2D_SET_LINE_WIDTH
  | SetGlobalAlpha _ => OP2D_SET_GLOBAL_ALPHA
  | SetMiterLimit _ => OP2D_SET_MITER_LIMIT
  | SetLineDashOffset _ => OP2D_SET_LINE_DASH_OFFSET
  | SetShadowBlur _ => OP2D_SET_SHADOW_BLUR
  | SetShadowOffsetX _ => OP2D_SET_SHADOW_OFFSET_X
  | SetShadowOffsetY _ => OP2D_SET_SHADOW_OFFSET_Y
  | SetLineCap _ => OP2D_SET_LINE_CAP
  | SetLineJoin _ => OP2D_SET_LINE_JOIN
  | SetCompositeOperation _ => OP2D_SET_COMPOSITE_OPERATION
  | SetFillStyle _ => OP2D_SET_FILL_STYLE
  | SetStrokeStyle _ => OP2D_SET_STROKE_STYLE
  | SetShadowColor _ => OP2D_SET_SHADOW_COLOR
  end.

Definition canvas2d_payload (cmd : Canvas2DCmd) : list Z :=
  match cmd with
  | BeginPath => []
  | ClosePath => []
  | MoveTo x y => [bits x; bits y]
  | LineTo x y => [bits x; bits y]
  | QuadraticCurveTo cpx cpy x y => [bits cpx; bits cpy; bits x; bits y]
  | BezierCurveTo cp1x cp1y cp2x cp2y x y =>
      [bits cp1x; bits cp1y; bits cp2x; bits cp2y; bits x; bits y]
  | Arc x y radius start_angle end_angle counterclockwise =>
      [bits x; bits y; bits radius; bits start_angle; bits end_angle; of_b counterclockwise]
  | ArcTo x1 y1 x2 y2 radius => [bits x1; bits y1; bits x2; bits y2; bits radius]
  | Rect x y w h => [bits x; bits y; bits w; bits h]
  | Ellipse x y radius_x radius_y rotation start_angle end_angle counterclockwise =>
      [bits x; bits y; bits radius_x; bits radius_y; bits rotation; bits start_angle; bits end_angle; of_b counterclockwise]
  | Fill => []
  | Stroke => []
  | Clip => []
  | FillRect x y w h => [bits x; bits y; bits w; bits h]
  | StrokeRect x y w h => [bits x; bits y; bits w; bits h]
  | ClearRect x y w h => [bits x; bits y; bits w; bits h]
  | Save => []
  | Restore => []
  | SetTransform a b c d e f => [bits a; bits b; bits c; bits d; bits e; bits f]
  | ResetTransform => []
  | Translate x y => [bits x; bits y]
  | Rotate angle => [bits angle]
  | Scale x y => [bits x; bits y]
  | SetLineWidth width => [bits width]
  | SetGlobalAlpha alpha => [bits alpha]
  | SetMiterLimit limit => [bits limit]
  | SetLineDashOffset offset => [bits offset]
  | SetShadowBlur blur => [bits blur]
  | SetShadowOffsetX offset => [bits offset]
  | SetShadowOffsetY offset => [bits offset]
  | SetLineCap cap => [cap]
  | SetLineJoin join => [join]
  | SetCompositeOperation op => [op]
  | SetFillStyle color =>
      [bits (color_r color); bits (color_g color); bits (color_b color); bits (color_a color)]
  | SetStrokeStyle color =>
      [bits (color_r color); bits (color_g color); bits (color_b color); bits (color_a color)]
  | SetShadowColor color =>
      [bits (color_r color); bits (color_g color); bits (color_b color); bits (color_a color)]
  end.

Definition canvas2d_cmd_ok (cmd : Canvas2DCmd) : Prop :=
  match cmd with
  | BeginPath => True
  | ClosePath => True
  | MoveTo x y => f32_ok x ∧ f32_ok y
  | LineTo x y => f32_ok x ∧ f32_ok y
  | QuadraticCurveTo cpx cpy x y => f32_ok cpx ∧ f32_ok cpy ∧ f32_ok x ∧ f32_ok y
  | BezierCurveTo cp1x cp1y cp2x cp2y x y =>
      f32_ok cp1x ∧ f32_ok cp1y ∧ f32_ok cp2x ∧ f32_ok cp2y ∧ f32_ok x ∧ f32_ok y
  | Arc x y radius start_angle end_angle counterclockwise =>
      f32_ok x ∧ f32_ok y ∧ f32_ok radius ∧ f32_ok start_angle ∧ f32_ok end_angle
  | ArcTo x1 y1 x2 y2 radius => f32_ok x1 ∧ f32_ok y1 ∧ f32_ok x2 ∧ f32_ok y2 ∧ f32_ok radius
  | Rect x y w h => f32_ok x ∧ f32_ok y ∧ f32_ok w ∧ f32_ok h
  | Ellipse x y radius_x radius_y rotation start_angle end_angle counterclockwise =>
      f32_ok x ∧ f32_ok y ∧ f32_ok radius_x ∧ f32_ok radius_y ∧ f32_ok rotation ∧ f32_ok start_angle ∧ f32_ok end_angle
  | Fill => True
  | Stroke => True
  | Clip => True
  | FillRect x y w h => f32_ok x ∧ f32_ok y ∧ f32_ok w ∧ f32_ok h
  | StrokeRect x y w h => f32_ok x ∧ f32_ok y ∧ f32_ok w ∧ f32_ok h
  | ClearRect x y w h => f32_ok x ∧ f32_ok y ∧ f32_ok w ∧ f32_ok h
  | Save => True
  | Restore => True
  | SetTransform a b c d e f =>
      f32_ok a ∧ f32_ok b ∧ f32_ok c ∧ f32_ok d ∧ f32_ok e ∧ f32_ok f
  | ResetTransform => True
  | Translate x y => f32_ok x ∧ f32_ok y
  | Rotate angle => f32_ok angle
  | Scale x y => f32_ok x ∧ f32_ok y
  | SetLineWidth width => f32_ok width
  | SetGlobalAlpha alpha => f32_ok alpha
  | SetMiterLimit limit => f32_ok limit
  | SetLineDashOffset offset => f32_ok offset
  | SetShadowBlur blur => f32_ok blur
  | SetShadowOffsetX offset => f32_ok offset
  | SetShadowOffsetY offset => f32_ok offset
  | SetLineCap cap => is_u8 cap
  | SetLineJoin join => is_u8 join
  | SetCompositeOperation op => is_u8 op
  | SetFillStyle color => color_ok color
  | SetStrokeStyle color => color_ok color
  | SetShadowColor color => color_ok color
  end.

(** A header naming the opcode and the length, and the payload. *)
Definition record_of (opcode : Z) (payload : list Z) : list Z :=
  pack_header opcode (1 + lenZ payload) :: payload.

Definition gl_encode (cmd : GLCmd) : list Z := record_of (gl_opcode cmd) (gl_payload cmd).
Definition canvas2d_encode (cmd : Canvas2DCmd) : list Z :=
  record_of (canvas2d_opcode cmd) (canvas2d_payload cmd).
