(* ===== verification/Decode.v ===== *)
(** Pass two of the decoder, one record at a time ([engine/crates/frame-decode]):
    the host interface and the parameter validation ([validate.rs], [codes.rs]),
    [decode_record] for WebGL ([lib.rs]) and for Canvas2D ([canvas2d.rs]).

    The host is the class [GlDecodeContext]: the decoder is generic in it, and so
    are its theorems.  A [match] on the opcode is a list of arms, as for the
    record specifications; the arm of an unknown opcode is the [debug_assert]. *)
From S2P Require Import Prelude Opcodes Stream Commands.

(** * WebGL error codes *)

Definition NO_ERROR : Z := 0.
Definition INVALID_ENUM : Z := 0x0500.
Definition INVALID_VALUE : Z := 0x0501.
Definition INVALID_OPERATION : Z := 0x0502.
Definition OUT_OF_MEMORY : Z := 0x0505.
Definition INVALID_FRAMEBUFFER_OPERATION : Z := 0x0506.
Definition CONTEXT_LOST_WEBGL : Z := 0x9242.

(** * The host *)

Class GlDecodeContext (H : Type) := {
  push_error : H → Z → Z → H;
  transform_feedback_captures : H → Z → bool
}.

Definition GL_TRANSFORM_FEEDBACK_BUFFER : Z := 0x8C8E.
Definition GL_UNIFORM_BUFFER : Z := 0x8A11.

(** * Readers of a word *)

Definition to_i (w : Z) : Z := u32_as_i32 w.
Definition to_f (w : Z) : F32 := from_bits w.
Definition to_b (w : Z) : bool := negb (w =? 0).
Definition signed_id (w : Z) : option Z := if u32_as_i32 w <? 0 then None else Some w.
Definition nonzero_id (w : Z) : option Z := if w =? 0 then None else Some w.
Definition location (w : Z) : option Z := if u32_as_i32 w <? 0 then None else Some w.

Definition copy_f32_words (words : list Z) : list F32 := map from_bits words.
Definition copy_i32_words (words : list Z) : list Z := map u32_as_i32 words.

Section Host.
Context {H : Type} {HC : GlDecodeContext H}.

(** * Validation: [true], or an error pushed and [false] *)

Definition validate_bind_buffer_target (ctx : H) (canvas_id target : Z) : bool * H :=
  if existsb (Z.eqb target)
       [0x8892; 0x8893; 0x8F36; 0x8F37; 0x8C8E; 0x8A11; 0x88EB; 0x88EC]
  then (true, ctx) else (false, push_error ctx canvas_id INVALID_ENUM).

Definition validate_bind_buffer_indexed_target (ctx : H) (canvas_id target : Z) : bool * H :=
  if (target =? GL_TRANSFORM_FEEDBACK_BUFFER) || (target =? GL_UNIFORM_BUFFER)
  then (true, ctx) else (false, push_error ctx canvas_id INVALID_ENUM).

Definition validate_bind_buffer_base (ctx : H) (canvas_id target index : Z)
    (buffer : option Z) : bool * H :=
  let '(ok, ctx) := validate_bind_buffer_indexed_target ctx canvas_id target in
  if negb ok then (false, ctx) else
  if (target =? GL_TRANSFORM_FEEDBACK_BUFFER) && transform_feedback_captures ctx canvas_id
  then (false, push_error ctx canvas_id INVALID_OPERATION) else
  (true, ctx).

Definition validate_bind_buffer_range (ctx : H) (canvas_id target index : Z)
    (buffer : option Z) (offset size : Z) : bool * H :=
  let is_some := match buffer with Some _ => true | None => false end in
  if is_some && (offset <? 0) then (false, push_error ctx canvas_id INVALID_VALUE) else
  if is_some && (size <=? 0) then (false, push_error ctx canvas_id INVALID_VALUE) else
  let '(ok, ctx) := validate_bind_buffer_base ctx canvas_id target index buffer in
  if negb ok then (false, ctx) else
  if (target =? GL_TRANSFORM_FEEDBACK_BUFFER) && is_some
     && (negb (Z.rem offset 4 =? 0) || negb (Z.rem size 4 =? 0))
  then (false, push_error ctx canvas_id INVALID_VALUE) else
  (true, ctx).

Definition validate_vertex_attrib_pointer (ctx : H) (canvas_id size type_ stride offset : Z) :
    bool * H :=
  if negb ((1 <=? size) && (size <=? 4)) then (false, push_error ctx canvas_id INVALID_VALUE) else
  if negb (existsb (Z.eqb type_)
             [0x1400; 0x1401; 0x1402; 0x1403; 0x1406; 0x140B; 0x1404; 0x1405])
  then (false, push_error ctx canvas_id INVALID_ENUM) else
  if negb ((0 <=? stride) && (stride <=? 255))
  then (false, push_error ctx canvas_id INVALID_VALUE) else
  if offset <? 0 then (false, push_error ctx canvas_id INVALID_VALUE) else
  (true, ctx).

Definition validate_viewport_like (ctx : H) (canvas_id width height : Z) : bool * H :=
  if (width <? 0) || (height <? 0)
  then (false, push_error ctx canvas_id INVALID_VALUE) else (true, ctx).

(** * WebGL records *)

(** What an arm of the [match] does with the record. *)
Definition gl_arm : Type := H → list Z → result (option GLCmd * H).

(** State and bindings. *)
Definition decode_state_arms : list (Z * gl_arm) := [
  (OP_VIEWPORT, λ ctx record,
     canvas_id ← idx record 1; x ← idx record 2; y ← idx record 3; width ← idx record 4;
     height ← idx record 5;
     mret (Some (Viewport canvas_id (to_i x) (to_i y) width height), ctx));
  (OP_CLEAR, λ ctx record,
     canvas_id ← idx record 1; bit_field ← idx record 2;
     mret (Some (Clear canvas_id bit_field), ctx));
  (OP_CLEAR_COLOR, λ ctx record,
     canvas_id ← idx record 1; r ← idx record 2; g ← idx record 3; b ← idx record 4;
     a ← idx record 5;
     mret (Some (ClearColor canvas_id (to_f r) (to_f g) (to_f b) (to_f a)), ctx));
  (OP_CLEAR_DEPTH, λ ctx record,
     canvas_id ← idx record 1; depth ← idx record 2;
     mret (Some (ClearDepth canvas_id (to_f depth)), ctx));
  (OP_CLEAR_STENCIL, λ ctx record,
     canvas_id ← idx record 1; s ← idx record 2;
     mret (Some (ClearStencil canvas_id (to_i s)), ctx));
  (OP_ENABLE, λ ctx record,
     canvas_id ← idx record 1; cap ← idx record 2;
     mret (Some (Enable canvas_id cap), ctx));
  (OP_DISABLE, λ ctx record,
     canvas_id ← idx record 1; cap ← idx record 2;
     mret (Some (Disable canvas_id cap), ctx));
  (OP_USE_PROGRAM, λ ctx record,
     canvas_id ← idx record 1; program_id ← idx record 2;
     mret (Some (UseProgram canvas_id program_id), ctx));
  (OP_BIND_BUFFER, λ ctx record,
     canvas_id ← idx record 1; target ← idx record 2; buffer ← idx record 3;
     let '(ok, ctx) := validate_bind_buffer_target ctx canvas_id target in
     if negb ok then mret (None, ctx) else
     mret (Some (BindBuffer canvas_id target (signed_id buffer)), ctx));
  (OP_BIND_TEXTURE, λ ctx record,
     canvas_id ← idx record 1; target ← idx record 2; texture ← idx record 3;
     mret (Some (BindTexture canvas_id target (signed_id texture)), ctx));
  (OP_ACTIVE_TEXTURE, λ ctx record,
     canvas_id ← idx record 1; unit ← idx record 2;
     mret (Some (ActiveTexture canvas_id unit), ctx));
  (OP_BIND_FRAMEBUFFER, λ ctx record,
     canvas_id ← idx record 1; target ← idx record 2; framebuffer ← idx record 3;
     mret (Some (BindFramebuffer canvas_id target (signed_id framebuffer)), ctx));
  (OP_BIND_RENDERBUFFER, λ ctx record,
     canvas_id ← idx record 1; target ← idx record 2; renderbuffer ← idx record 3;
     mret (Some (BindRenderbuffer canvas_id target (signed_id renderbuffer)), ctx));
  (OP_BIND_VERTEX_ARRAY, λ ctx record,
     canvas_id ← idx record 1; vao ← idx record 2;
     mret (Some (BindVertexArray canvas_id (nonzero_id vao)), ctx));
  (OP_BIND_SAMPLER, λ ctx record,
     canvas_id ← idx record 1; unit ← idx record 2; sampler ← idx record 3;
     mret (Some (BindSampler canvas_id unit (nonzero_id sampler)), ctx));
  (OP_ENABLE_VERTEX_ATTRIB_ARRAY, λ ctx record,
     canvas_id ← idx record 1; index ← idx record 2;
     mret (Some (EnableVertexAttribArray canvas_id index), ctx));
  (OP_DISABLE_VERTEX_ATTRIB_ARRAY, λ ctx record,
     canvas_id ← idx record 1; index ← idx record 2;
     mret (Some (DisableVertexAttribArray canvas_id index), ctx))].

(** Vertex attributes, blending, depth and stencil. *)
Definition decode_vertex_arms : list (Z * gl_arm) := [
  (OP_VERTEX_ATTRIB_POINTER, λ ctx record,
     canvas_id ← idx record 1; index ← idx record 2; size ← idx record 3;
     type_ ← idx record 4; normalized ← idx record 5; stride ← idx record 6;
     offset ← idx record 7;
     let '(ok, ctx) := validate_vertex_attrib_pointer ctx canvas_id (to_i size) type_ (to_i stride) (to_i offset) in
     if negb ok then mret (None, ctx) else
     mret (Some (VertexAttribPointer canvas_id index (to_i size) type_ (to_b normalized) (to_i stride) (to_i offset)), ctx));
  (OP_VERTEX_ATTRIB_DIVISOR, λ ctx record,
     canvas_id ← idx record 1; index ← idx record 2; divisor ← idx record 3;
     mret (Some (VertexAttribDivisor canvas_id index divisor), ctx));
  (OP_BLEND_FUNC, λ ctx record,
     canvas_id ← idx record 1; sfactor ← idx record 2; dfactor ← idx record 3;
     mret (Some (BlendFunc canvas_id sfactor dfactor), ctx));
  (OP_BLEND_FUNC_SEPARATE, λ ctx record,
     canvas_id ← idx record 1; src_rgb ← idx record 2; dst_rgb ← idx record 3;
     src_alpha ← idx record 4; dst_alpha ← idx record 5;
     mret (Some (BlendFuncSeparate canvas_id src_rgb dst_rgb src_alpha dst_alpha), ctx));
  (OP_BLEND_EQUATION, λ ctx record,
     canvas_id ← idx record 1; mode ← idx record 2;
     mret (Some (BlendEquation canvas_id mode), ctx));
  (OP_BLEND_EQUATION_SEPARATE, λ ctx record,
     canvas_id ← idx record 1; mode_rgb ← idx record 2; mode_alpha ← idx record 3;
     mret (Some (BlendEquationSeparate canvas_id mode_rgb mode_alpha), ctx));
  (OP_BLEND_COLOR, λ ctx record,
     canvas_id ← idx record 1; r ← idx record 2; g ← idx record 3; b ← idx record 4;
     a ← idx record 5;
     mret (Some (BlendColor canvas_id (to_f r) (to_f g) (to_f b) (to_f a)), ctx));
  (OP_DEPTH_FUNC, λ ctx record,
     canvas_id ← idx record 1; func ← idx record 2;
     mret (Some (DepthFunc canvas_id func), ctx));
  (OP_DEPTH_MASK, λ ctx record,
     canvas_id ← idx record 1; flag ← idx record 2;
     mret (Some (DepthMask canvas_id (to_b flag)), ctx));
  (OP_DEPTH_RANGE, λ ctx record,
     canvas_id ← idx record 1; near ← idx record 2; far ← idx record 3;
     mret (Some (DepthRange canvas_id (to_f near) (to_f far)), ctx));
  (OP_STENCIL_FUNC, λ ctx record,
     canvas_id ← idx record 1; func ← idx record 2; ref_ ← idx record 3; mask ← idx record 4;
     mret (Some (StencilFunc canvas_id func (to_i ref_) mask), ctx));
  (OP_STENCIL_FUNC_SEPARATE, λ ctx record,
     canvas_id ← idx record 1; face ← idx record 2; func ← idx record 3; ref_ ← idx record 4;
     mask ← idx record 5;
     mret (Some (StencilFuncSeparate canvas_id face func (to_i ref_) mask), ctx));
  (OP_STENCIL_OP, λ ctx record,
     canvas_id ← idx record 1; fail ← idx record 2; zfail ← idx record 3;
     zpass ← idx record 4;
     mret (Some (StencilOp canvas_id fail zfail zpass), ctx));
  (OP_STENCIL_OP_SEPARATE, λ ctx record,
     canvas_id ← idx record 1; face ← idx record 2; fail ← idx record 3;
     zfail ← idx record 4; zpass ← idx record 5;
     mret (Some (StencilOpSeparate canvas_id face fail zfail zpass), ctx));
  (OP_STENCIL_MASK, λ ctx record,
     canvas_id ← idx record 1; mask ← idx record 2;
     mret (Some (StencilMask canvas_id mask), ctx));
  (OP_STENCIL_MASK_SEPARATE, λ ctx record,
     canvas_id ← idx record 1; face ← idx record 2; mask ← idx record 3;
     mret (Some (StencilMaskSeparate canvas_id face mask), ctx))].

(** Rasterisation, textures, samplers. *)
Definition decode_raster_arms : list (Z * gl_arm) := [
  (OP_CULL_FACE, λ ctx record,
     canvas_id ← idx record 1; mode ← idx record 2;
     mret (Some (CullFace canvas_id mode), ctx));
  (OP_FRONT_FACE, λ ctx record,
     canvas_id ← idx record 1; mode ← idx record 2;
     mret (Some (FrontFace canvas_id mode), ctx));
  (OP_COLOR_MASK, λ ctx record,
     canvas_id ← idx record 1; r ← idx record 2; g ← idx record 3; b ← idx record 4;
     a ← idx record 5;
     mret (Some (ColorMask canvas_id (to_b r) (to_b g) (to_b b) (to_b a)), ctx));
  (OP_SCISSOR, λ ctx record,
     canvas_id ← idx record 1; x ← idx record 2; y ← idx record 3; width ← idx record 4;
     height ← idx record 5;
     let '(ok, ctx) := validate_viewport_like ctx canvas_id (to_i width) (to_i height) in
     if negb ok then mret (None, ctx) else
     mret (Some (Scissor canvas_id (to_i x) (to_i y) (to_i width) (to_i height)), ctx));
  (OP_LINE_WIDTH, λ ctx record,
     canvas_id ← idx record 1; width ← idx record 2;
     mret (Some (LineWidth canvas_id (to_f width)), ctx));
  (OP_POLYGON_OFFSET, λ ctx record,
     canvas_id ← idx record 1; factor ← idx record 2; units ← idx record 3;
     mret (Some (PolygonOffset canvas_id (to_f factor) (to_f units)), ctx));
  (OP_TEX_PARAMETER_I, λ ctx record,
     canvas_id ← idx record 1; target ← idx record 2; pname ← idx record 3;
     param ← idx record 4;
     mret (Some (TexParameteri canvas_id target pname (to_i param)), ctx));
  (OP_TEX_PARAMETER_F, λ ctx record,
     canvas_id ← idx record 1; target ← idx record 2; pname ← idx record 3;
     param ← idx record 4;
     mret (Some (TexParameterf canvas_id target pname (to_f param)), ctx));
  (OP_GENERATE_MIPMAP, λ ctx record,
     canvas_id ← idx record 1; target ← idx record 2;
     mret (Some (GenerateMipmap canvas_id target), ctx));
  (OP_PIXEL_STORE_I, λ ctx record,
     canvas_id ← idx record 1; pname ← idx record 2; param ← idx record 3;
     mret (Some (PixelStorei canvas_id pname (to_i param)), ctx));
  (OP_HINT, λ ctx record,
     canvas_id ← idx record 1; target ← idx record 2; mode ← idx record 3;
     mret (Some (Hint canvas_id target mode), ctx));
  (OP_SAMPLER_PARAMETER_I, λ ctx record,
     sampler ← idx record 1; pname ← idx record 2; param ← idx record 3;
     mret (Some (SamplerParameteri sampler pname (to_i param)), ctx));
  (OP_SAMPLER_PARAMETER_F, λ ctx record,
     sampler ← idx record 1; pname ← idx record 2; param ← idx record 3;
     mret (Some (SamplerParameterf sampler pname (to_f param)), ctx))].

(** Draws, indexed buffers and scalar uniforms. *)
Definition decode_draw_arms : list (Z * gl_arm) := [
  (OP_DRAW_ARRAYS, λ ctx record,
     canvas_id ← idx record 1; mode ← idx record 2; first ← idx record 3;
     count ← idx record 4;
     mret (Some (DrawArrays canvas_id mode (to_i first) (to_i count)), ctx));
  (OP_DRAW_ELEMENTS, λ ctx record,
     canvas_id ← idx record 1; mode ← idx record 2; count ← idx record 3;
     index_type ← idx record 4; offset ← idx record 5;
     mret (Some (DrawElements canvas_id mode (to_i count) index_type (to_i offset)), ctx));
  (OP_DRAW_ARRAYS_INSTANCED, λ ctx record,
     canvas_id ← idx record 1; mode ← idx record 2; first ← idx record 3;
     count ← idx record 4; instance_count ← idx record 5;
     mret (Some (DrawArraysInstanced canvas_id mode (to_i first) (to_i count) (to_i instance_count)), ctx));
  (OP_DRAW_ELEMENTS_INSTANCED, λ ctx record,
     canvas_id ← idx record 1; mode ← idx record 2; count ← idx record 3;
     index_type ← idx record 4; offset ← idx record 5; instance_count ← idx record 6;
     mret (Some (DrawElementsInstanced canvas_id mode (to_i count) index_type (to_i offset) (to_i instance_count)), ctx));
  (OP_BIND_BUFFER_BASE, λ ctx record,
     canvas_id ← idx record 1; target ← idx record 2; index ← idx record 3;
     buffer ← idx record 4;
     let '(ok, ctx) := validate_bind_buffer_base ctx canvas_id target index (nonzero_id buffer) in
     if negb ok then mret (None, ctx) else
     mret (Some (BindBufferBase canvas_id target index (nonzero_id buffer)), ctx));
  (OP_BIND_BUFFER_RANGE, λ ctx record,
     canvas_id ← idx record 1; target ← idx record 2; index ← idx record 3;
     buffer ← idx record 4; offset ← idx record 5; size ← idx record 6;
     let '(ok, ctx) := validate_bind_buffer_range ctx canvas_id target index (nonzero_id buffer) (to_i offset) (to_i size) in
     if negb ok then mret (None, ctx) else
     mret (Some (BindBufferRange canvas_id target index (nonzero_id buffer) (to_i offset) (to_i size)), ctx));
  (OP_READ_BUFFER, λ ctx record,
     canvas_id ← idx record 1; src ← idx record 2;
     mret (Some (ReadBuffer canvas_id src), ctx));
  (OP_UNIFORM1I, λ ctx record,
     canvas_id ← idx record 1; loc ← idx record 2; x ← idx record 3;
     mret (Some (Uniform1i canvas_id (location loc) (to_i x)), ctx));
  (OP_UNIFORM1F, λ ctx record,
     canvas_id ← idx record 1; loc ← idx record 2; x ← idx record 3;
     mret (Some (Uniform1f canvas_id (location loc) (to_f x)), ctx));
  (OP_UNIFORM2F, λ ctx record,
     canvas_id ← idx record 1; loc ← idx record 2; x ← idx record 3; y ← idx record 4;
     mret (Some (Uniform2f canvas_id (location loc) (to_f x) (to_f y)), ctx));
  (OP_UNIFORM3F, λ ctx record,
     canvas_id ← idx record 1; loc ← idx record 2; x ← idx record 3; y ← idx record 4;
     z ← idx record 5;
     mret (Some (Uniform3f canvas_id (location loc) (to_f x) (to_f y) (to_f z)), ctx));
  (OP_UNIFORM4F, λ ctx record,
     canvas_id ← idx record 1; loc ← idx record 2; x ← idx record 3; y ← idx record 4;
     z ← idx record 5; w ← idx record 6;
     mret (Some (Uniform4f canvas_id (location loc) (to_f x) (to_f y) (to_f z) (to_f w)), ctx))].

(** Vector and matrix uniforms. *)
Definition decode_uniform_arms : list (Z * gl_arm) := [
  (OP_UNIFORM1IV, λ ctx record,
     canvas_id ← idx record 1; loc ← idx record 2; ws ← slice record 3 (lenZ record);
     mret (Some (Uniform1iv canvas_id (location loc) (copy_i32_words ws)), ctx));
  (OP_UNIFORM1FV, λ ctx record,
     canvas_id ← idx record 1; loc ← idx record 2; ws ← slice record 3 (lenZ record);
     mret (Some (Uniform1fv canvas_id (location loc) (copy_f32_words ws)), ctx));
  (OP_UNIFORM2IV, λ ctx record,
     canvas_id ← idx record 1; loc ← idx record 2; ws ← slice record 3 (lenZ record);
     mret (Some (Uniform2iv canvas_id (location loc) (copy_i32_words ws)), ctx));
  (OP_UNIFORM2FV, λ ctx record,
     canvas_id ← idx record 1; loc ← idx record 2; ws ← slice record 3 (lenZ record);
     mret (Some (Uniform2fv canvas_id (location loc) (copy_f32_words ws)), ctx));
  (OP_UNIFORM3IV, λ ctx record,
     canvas_id ← idx record 1; loc ← idx record 2; ws ← slice record 3 (lenZ record);
     mret (Some (Uniform3iv canvas_id (location loc) (copy_i32_words ws)), ctx));
  (OP_UNIFORM3FV, λ ctx record,
     canvas_id ← idx record 1; loc ← idx record 2; ws ← slice record 3 (lenZ record);
     mret (Some (Uniform3fv canvas_id (location loc) (copy_f32_words ws)), ctx));
  (OP_UNIFORM4IV, λ ctx record,
     canvas_id ← idx record 1; loc ← idx record 2; ws ← slice record 3 (lenZ record);
     mret (Some (Uniform4iv canvas_id (location loc) (copy_i32_words ws)), ctx));
  (OP_UNIFORM4FV, λ ctx record,
     canvas_id ← idx record 1; loc ← idx record 2; ws ← slice record 3 (lenZ record);
     mret (Some (Uniform4fv canvas_id (location loc) (copy_f32_words ws)), ctx));
  (OP_UNIFORM_MATRIX2FV, λ ctx record,
     canvas_id ← idx record 1; loc ← idx record 2; transpose ← idx record 3;
     ws ← slice record 4 (lenZ record);
     mret (Some (UniformMatrix2fv canvas_id (location loc) (to_b transpose) (copy_f32_words ws)), ctx));
  (OP_UNIFORM_MATRIX3FV, λ ctx record,
     canvas_id ← idx record 1; loc ← idx record 2; transpose ← idx record 3;
     ws ← slice record 4 (lenZ record);
     mret (Some (UniformMatrix3fv canvas_id (location loc) (to_b transpose) (copy_f32_words ws)), ctx));
  (OP_UNIFORM_MATRIX4FV, λ ctx record,
     canvas_id ← idx record 1; loc ← idx record 2; transpose ← idx record 3;
     ws ← slice record 4 (lenZ record);
     mret (Some (UniformMatrix4fv canvas_id (location loc) (to_b transpose) (copy_f32_words ws)), ctx))].

Definition decode_arms : list (Z * gl_arm) :=
  decode_state_arms ++ decode_vertex_arms ++ decode_raster_arms ++ decode_draw_arms
  ++ decode_uniform_arms.

(** An opcode past the arms is the [debug_assert]. *)
Definition decode_record (ctx : H) (opcode : Z) (record : list Z) : result (option GLCmd * H) :=
  match match_arms decode_arms opcode with
  | Some arm => arm ctx record
  | None => Panic
  end.

End Host.

(** * Canvas2D records *)

(** Four floats, in the order the destination declares them. *)
Definition color_of (record : list Z) : result Color :=
  r ← idx record 1; g ← idx record 2; b ← idx record 3; a ← idx record 4;
  mret {| color_r := to_f r; color_g := to_f g; color_b := to_f b; color_a := to_f a |}.

Definition canvas2d_arm : Type := list Z → result Canvas2DCmd.

Definition canvas2d_decode_arms : list (Z * canvas2d_arm) := [
  (OP2D_BEGIN_PATH, λ record,
     mret BeginPath);
  (OP2D_CLOSE_PATH, λ record,
     mret ClosePath);
  (OP2D_MOVE_TO, λ record,
     x ← idx record 1; y ← idx record 2;
     mret (MoveTo (to_f x) (to_f y)));
  (OP2D_LINE_TO, λ record,
     x ← idx record 1; y ← idx record 2;
     mret (LineTo (to_f x) (to_f y)));
  (OP2D_QUADRATIC_CURVE_TO, λ record,
     cpx ← idx record 1; cpy ← idx record 2; x ← idx record 3; y ← idx record 4;
     mret (QuadraticCurveTo (to_f cpx) (to_f cpy) (to_f x) (to_f y)));
  (OP2D_BEZIER_CURVE_TO, λ record,
     cp1x ← idx record 1; cp1y ← idx record 2; cp2x ← idx record 3; cp2y ← idx record 4;
     x ← idx record 5; y ← idx record 6;
     mret (BezierCurveTo (to_f cp1x) (to_f cp1y) (to_f cp2x) (to_f cp2y) (to_f x) (to_f y)));
  (OP2D_ARC, λ record,
     x ← idx record 1; y ← idx record 2; radius ← idx record 3; start_angle ← idx record 4;
     end_angle ← idx record 5; counterclockwise ← idx record 6;
     mret (Arc (to_f x) (to_f y) (to_f radius) (to_f start_angle) (to_f end_angle) (to_b counterclockwise)));
  (OP2D_ARC_TO, λ record,
     x1 ← idx record 1; y1 ← idx record 2; x2 ← idx record 3; y2 ← idx record 4;
     radius ← idx record 5;
     mret (ArcTo (to_f x1) (to_f y1) (to_f x2) (to_f y2) (to_f radius)));
  (OP2D_RECT, λ record,
     x ← idx record 1; y ← idx record 2; w ← idx record 3; h ← idx record 4;
     mret (Rect (to_f x) (to_f y) (to_f w) (to_f h)));
  (OP2D_ELLIPSE, λ record,
     x ← idx record 1; y ← idx record 2; radius_x ← idx record 3; radius_y ← idx record 4;
     rotation ← idx record 5; start_angle ← idx record 6; end_angle ← idx record 7;
     counterclockwise ← idx record 8;
     mret (Ellipse (to_f x) (to_f y) (to_f radius_x) (to_f radius_y) (to_f rotation) (to_f start_angle) (to_f end_angle) (to_b counterclockwise)));
  (OP2D_FILL, λ record,
     mret Fill);
  (OP2D_STROKE, λ record,
     mret Stroke);
  (OP2D_CLIP, λ record,
     mret Clip);
  (OP2D_FILL_RECT, λ record,
     x ← idx record 1; y ← idx record 2; w ← idx record 3; h ← idx record 4;
     mret (FillRect (to_f x) (to_f y) (to_f w) (to_f h)));
  (OP2D_STROKE_RECT, λ record,
     x ← idx record 1; y ← idx record 2; w ← idx record 3; h ← idx record 4;
     mret (StrokeRect (to_f x) (to_f y) (to_f w) (to_f h)));
  (OP2D_CLEAR_RECT, λ record,
     x ← idx record 1; y ← idx record 2; w ← idx record 3; h ← idx record 4;
     mret (ClearRect (to_f x) (to_f y) (to_f w) (to_f h)));
  (OP2D_SAVE, λ record,
     mret Save);
  (OP2D_RESTORE, λ record,
     mret Restore);
  (OP2D_SET_TRANSFORM, λ record,
     a ← idx record 1; b ← idx record 2; c ← idx record 3; d ← idx record 4;
     e ← idx record 5; f ← idx record 6;
     mret (SetTransform (to_f a) (to_f b) (to_f c) (to_f d) (to_f e) (to_f f)));
  (OP2D_RESET_TRANSFORM, λ record,
     mret ResetTransform);
  (OP2D_TRANSLATE, λ record,
     x ← idx record 1; y ← idx record 2;
     mret (Translate (to_f x) (to_f y)));
  (OP2D_ROTATE, λ record,
     angle ← idx record 1;
     mret (Rotate (to_f angle)));
  (OP2D_SCALE, λ record,
     x ← idx record 1; y ← idx record 2;
     mret (Scale (to_f x) (to_f y)));
  (OP2D_SET_LINE_WIDTH, λ record,
     width ← idx record 1;
     mret (SetLineWidth (to_f width)));
  (OP2D_SET_GLOBAL_ALPHA, λ record,
     alpha ← idx record 1;
     mret (SetGlobalAlpha (to_f alpha)));
  (OP2D_SET_MITER_LIMIT, λ record,
     limit ← idx record 1;
     mret (SetMiterLimit (to_f limit)));
  (OP2D_SET_LINE_DASH_OFFSET, λ record,
     offset ← idx record 1;
     mret (SetLineDashOffset (to_f offset)));
  (OP2D_SET_SHADOW_BLUR, λ record,
     blur ← idx record 1;
     mret (SetShadowBlur (to_f blur)));
  (OP2D_SET_SHADOW_OFFSET_X, λ record,
     offset ← idx record 1;
     mret (SetShadowOffsetX (to_f offset)));
  (OP2D_SET_SHADOW_OFFSET_Y, λ record,
     offset ← idx record 1;
     mret (SetShadowOffsetY (to_f offset)));
  (OP2D_SET_LINE_CAP, λ record,
     cap ← idx record 1;
     mret (SetLineCap (u32_as_u8 cap)));
  (OP2D_SET_LINE_JOIN, λ record,
     join ← idx record 1;
     mret (SetLineJoin (u32_as_u8 join)));
  (OP2D_SET_COMPOSITE_OPERATION, λ record,
     op ← idx record 1;
     mret (SetCompositeOperation (u32_as_u8 op)));
  (OP2D_SET_FILL_STYLE, λ record,
     color ← color_of record;
     mret (SetFillStyle color));
  (OP2D_SET_STROKE_STYLE, λ record,
     color ← color_of record;
     mret (SetStrokeStyle color));
  (OP2D_SET_SHADOW_COLOR, λ record,
     color ← color_of record;
     mret (SetShadowColor color))].

Definition canvas2d_decode_record (opcode : Z) (record : list Z) : result (option Canvas2DCmd) :=
  match match_arms canvas2d_decode_arms opcode with
  | Some arm => cmd ← arm record; mret (Some cmd)
  | None => mret None
  end.
(** * Lemmas: fields *)

Create HintDb fields.
Create Rewrite HintDb fields.

Lemma to_i_ok w : is_u32 w → is_i32 (to_i w).
Proof. unfold is_u32, is_i32, to_i, u32_as_i32. intros. destruct (Z.ltb_spec w (2 ^ 31)); lia. Qed.

Lemma to_f_ok w : is_u32 w → f32_ok (to_f w).
Proof. done. Qed.

Lemma signed_id_ok w : is_u32 w → signed_ok (signed_id w).
Proof.
  unfold is_u32, signed_id, signed_ok, u32_as_i32. intros.
  destruct (Z.ltb_spec w (2 ^ 31)).
  - rewrite (proj2 (Z.ltb_ge w 0)) by lia. lia.
  - rewrite (proj2 (Z.ltb_lt (w - 2 ^ 32) 0)) by lia. done.
Qed.

Lemma location_ok w : is_u32 w → signed_ok (location w).
Proof. apply signed_id_ok. Qed.

Lemma nonzero_id_ok w : is_u32 w → nonzero_ok (nonzero_id w).
Proof. unfold is_u32, nonzero_id, nonzero_ok. intros. destruct (Z.eqb_spec w 0); [done|lia]. Qed.

Lemma as_u8_ok w : is_u8 (u32_as_u8 w).
Proof. apply Z.mod_pos_bound. lia. Qed.

Lemma copy_f32_ok l : Forall is_u32 l → Forall f32_ok (copy_f32_words l).
Proof. intros. by apply Forall_map. Qed.

Lemma copy_i32_ok l : Forall is_u32 l → Forall is_i32 (copy_i32_words l).
Proof. intros Hl. apply Forall_map. eapply Forall_impl; [exact Hl|]. exact to_i_ok. Qed.

#[export] Hint Resolve to_i_ok to_f_ok signed_id_ok location_ok nonzero_id_ok as_u8_ok
  copy_f32_ok copy_i32_ok : fields.

Lemma of_i_u32 x : is_u32 (of_i x).
Proof. apply Z.mod_pos_bound. lia. Qed.

Lemma to_i_of_i x : is_i32 x → to_i (of_i x) = x.
Proof.
  unfold is_i32, to_i, of_i, u32_as_i32. intros.
  destruct (decide (0 ≤ x)).
  - rewrite Z.mod_small by lia. rewrite (proj2 (Z.ltb_lt x _)) by lia. done.
  - rewrite <- (Z_mod_plus_full x 1), Z.mod_small by lia.
    rewrite (proj2 (Z.ltb_ge _ _)) by lia. lia.
Qed.

Lemma to_f_bits x : to_f (bits x) = x.
Proof. by destruct x. Qed.

Lemma of_b_u32 b : is_u32 (of_b b).
Proof. destruct b; unfold is_u32; cbn; lia. Qed.

Lemma to_b_of_b b : to_b (of_b b) = b.
Proof. by destruct b. Qed.

Lemma of_signed_u32 x : signed_ok x → is_u32 (of_signed x).
Proof. destruct x; unfold signed_ok, is_u32; cbn; lia. Qed.

Lemma signed_id_of_signed x : signed_ok x → signed_id (of_signed x) = x.
Proof.
  destruct x as [w|]; [|done]. cbn. unfold signed_id, u32_as_i32. intros.
  rewrite (proj2 (Z.ltb_lt w _)), (proj2 (Z.ltb_ge w 0)) by lia. done.
Qed.

Lemma location_of_signed x : signed_ok x → location (of_signed x) = x.
Proof. apply signed_id_of_signed. Qed.

Lemma of_nonzero_u32 x : nonzero_ok x → is_u32 (of_nonzero x).
Proof. destruct x; unfold nonzero_ok, is_u32; cbn; lia. Qed.

Lemma nonzero_id_of_nonzero x : nonzero_ok x → nonzero_id (of_nonzero x) = x.
Proof.
  destruct x as [w|]; [|done]. cbn. unfold nonzero_id. intros.
  rewrite (proj2 (Z.eqb_neq w 0)) by lia. done.
Qed.

Lemma copy_f32_bits l : copy_f32_words (map bits l) = l.
Proof. unfold copy_f32_words. rewrite map_map. induction l as [|[w] l IH]; cbn; congruence. Qed.

Lemma copy_i32_of_i l : Forall is_i32 l → copy_i32_words (map of_i l) = l.
Proof.
  unfold copy_i32_words. rewrite map_map. induction 1 as [|x l Hx _ IH]; cbn; [done|].
  rewrite IH. f_equal. by apply to_i_of_i.
Qed.

Lemma as_u8_small x : is_u8 x → u32_as_u8 x = x.
Proof. apply Z.mod_small. Qed.

#[export] Hint Rewrite to_f_bits to_b_of_b copy_f32_bits : fields.
#[export] Hint Rewrite to_i_of_i signed_id_of_signed location_of_signed nonzero_id_of_nonzero
  copy_i32_of_i as_u8_small using done : fields.

(** * Lemmas: the arms *)

(** Split a record of a known shape into its words. *)
Ltac split_words r Hlen :=
  repeat (destruct r as [|? r]; [exfalso; cbn [length] in Hlen; lia|]);
  try (destruct r; [|exfalso; cbn [length] in Hlen; lia]).

Ltac split_forall :=
  repeat match goal with HF : Forall _ (_ :: _) |- _ => apply Forall_cons in HF as [? HF] end.

Ltac read_words := lazy [idx mbind outcome_bind lookup list_lookup Z.to_nat
  Pos.to_nat Pos.iter_op Nat.add Init.Nat.add].

Ltac arms tac := repeat (apply Forall_cons; split; [tac|]); apply Forall_nil; exact I.

Section HostLemmas.
Context {H : Type} {HC : GlDecodeContext H}.

Definition webgl_error (code : Z) : Prop :=
  code = INVALID_ENUM ∨ code = INVALID_VALUE ∨ code = INVALID_OPERATION.

(** A validation accepts and leaves the host alone, or pushes one error. *)
Definition checks (ctx : H) (canvas_id : Z) (v : bool * H) : Prop :=
  v = (true, ctx) ∨ ∃ code, webgl_error code ∧ v = (false, push_error ctx canvas_id code).

Ltac checks_cases :=
  repeat case_match; unfold checks, webgl_error; simplify_eq; auto; right; eexists; (split; [|reflexivity]); auto.

Lemma bind_buffer_target_checks ctx canvas_id target :
  checks ctx canvas_id (validate_bind_buffer_target ctx canvas_id target).
Proof. unfold validate_bind_buffer_target. checks_cases. Qed.

Lemma bind_buffer_base_checks ctx canvas_id target index buffer :
  checks ctx canvas_id (validate_bind_buffer_base ctx canvas_id target index buffer).
Proof.
  unfold validate_bind_buffer_base, validate_bind_buffer_indexed_target. checks_cases.
Qed.

Lemma bind_buffer_range_checks ctx canvas_id target index buffer offset size :
  checks ctx canvas_id (validate_bind_buffer_range ctx canvas_id target index buffer offset size).
Proof.
  unfold validate_bind_buffer_range.
  destruct (match buffer with Some _ => true | None => false end && (offset <? 0)); [checks_cases|].
  destruct (match buffer with Some _ => true | None => false end && (size <=? 0)); [checks_cases|].
  destruct (bind_buffer_base_checks ctx canvas_id target index buffer) as [->|(code & Hc & ->)]; cbn [negb].
  - checks_cases.
  - right. eauto.
Qed.

Lemma vertex_attrib_pointer_checks ctx canvas_id size type_ stride offset :
  checks ctx canvas_id (validate_vertex_attrib_pointer ctx canvas_id size type_ stride offset).
Proof. unfold validate_vertex_attrib_pointer. checks_cases. Qed.

Lemma viewport_like_checks ctx canvas_id width height :
  checks ctx canvas_id (validate_viewport_like ctx canvas_id width height).
Proof. unfold validate_viewport_like. checks_cases. Qed.

(** What a record of opcode [op] is decoded to: a command of that opcode with
    every field in its range, and the host untouched; or, for an illegal call,
    nothing, and one WebGL error on the record's canvas. *)
Definition decodes (op : Z) (ctx : H) (record : list Z) (r : result (option GLCmd * H)) : Prop :=
  (∃ cmd, r = Ret (Some cmd, ctx) ∧ gl_cmd_ok cmd ∧ gl_opcode cmd = op) ∨
  (∃ canvas_id code, record !! 1%nat = Some canvas_id ∧ webgl_error code ∧
     r = Ret (None, push_error ctx canvas_id code)).

(** An arm decodes every record of its opcode's shape. *)
Definition arm_ok (a : Z * gl_arm) : Prop :=
  ∃ spec, record_spec (fst a) = Some spec ∧
    ∀ ctx record, Forall is_u32 record → shape_ok spec record = true →
      decodes (fst a) ctx record (snd a ctx record).

Lemma arm_ok_fixed op (arm : gl_arm) wc bws :
  record_spec op = Some (Fixed wc bws) →
  (∀ ctx record, Forall is_u32 record → lenZ record = wc → decodes op ctx record (arm ctx record)) →
  arm_ok (op, arm).
Proof.
  intros Hs Ha. exists (Fixed wc bws). split; [done|]. cbn [fst snd shape_ok].
  intros ctx record HF Hsh. bool_to_prop. auto.
Qed.

Ltac finish_arm :=
  left; eexists; split; [reflexivity|]; split; [|reflexivity];
  cbn [gl_cmd_ok]; unfold values_ok; split_and?; auto with fields.

(** The host checks of an arm: [destruct] what the validation says. *)
Ltac case_checks :=
  match goal with
  | |- context [validate_bind_buffer_target ?a ?b ?c] =>
      destruct (bind_buffer_target_checks a b c) as [->|(? & ? & ->)]
  | |- context [validate_bind_buffer_base ?a ?b ?c ?d ?e] =>
      destruct (bind_buffer_base_checks a b c d e) as [->|(? & ? & ->)]
  | |- context [validate_bind_buffer_range ?a ?b ?c ?d ?e ?f ?g] =>
      destruct (bind_buffer_range_checks a b c d e f g) as [->|(? & ? & ->)]
  | |- context [validate_vertex_attrib_pointer ?a ?b ?c ?d ?e ?f] =>
      destruct (vertex_attrib_pointer_checks a b c d e f) as [->|(? & ? & ->)]
  | |- context [validate_viewport_like ?a ?b ?c ?d] =>
      destruct (viewport_like_checks a b c d) as [->|(? & ? & ->)]
  end; cbn [negb].

Ltac fixed_arm :=
  eapply arm_ok_fixed; [vm_compute; reflexivity|];
  let ctx := fresh "ctx" in let r := fresh "r" in let HF := fresh in let Hl := fresh "Hl" in
  intros ctx r HF Hl; split_words r Hl; split_forall; clear Hl; read_words;
  first
    [ case_checks; [finish_arm|right; do 2 eexists; split_and!; [reflexivity|eassumption|reflexivity]]
    | finish_arm ].

Lemma decode_state_arms_ok : Forall arm_ok decode_state_arms.
Proof. unfold decode_state_arms. arms fixed_arm. Qed.
Lemma decode_vertex_arms_ok : Forall arm_ok decode_vertex_arms.
Proof. unfold decode_vertex_arms. arms fixed_arm. Qed.
Lemma decode_raster_arms_ok : Forall arm_ok decode_raster_arms.
Proof. unfold decode_raster_arms. arms fixed_arm. Qed.
Lemma decode_draw_arms_ok : Forall arm_ok decode_draw_arms.
Proof. unfold decode_draw_arms. arms fixed_arm. Qed.

(** The payload of a variable record. *)
Lemma slice_tail {E A} (p l : list A) k :
  k = lenZ p → slice (E:=E) (p ++ l) k (lenZ (p ++ l)) = Ret l.
Proof.
  intros ->. rewrite slice_ret by (rewrite ?length_app; lia). f_equal.
  apply sub_suffix; [done|]. rewrite length_app. lia.
Qed.

Lemma arm_ok_vector op (arm : gl_arm) kind :
  record_spec op = Some (VectorUniform kind) →
  (∀ ctx h c loc l, is_u32 c → is_u32 loc → Forall is_u32 l → lenZ l ≤ MAX_STREAM_UNIFORM_WORDS →
     decodes op ctx ([h; c; loc] ++ l) (arm ctx ([h; c; loc] ++ l))) →
  arm_ok (op, arm).
Proof.
  intros Hs Ha. eexists. split; [exact Hs|]. cbn [fst snd shape_ok]. intros ctx r HF Hsh. bool_to_prop.
  do 3 (destruct r as [|? r]; [exfalso; cbn [length] in *; lia|]). split_forall.
  apply Ha; try done. cbn [length] in *. lia.
Qed.

Lemma arm_ok_matrix op (arm : gl_arm) kind :
  record_spec op = Some (MatrixUniform kind 3) →
  (∀ ctx h c loc t l, is_u32 c → is_u32 loc → is_u32 t → Forall is_u32 l →
     lenZ l ≤ MAX_STREAM_UNIFORM_WORDS →
     decodes op ctx ([h; c; loc; t] ++ l) (arm ctx ([h; c; loc; t] ++ l))) →
  arm_ok (op, arm).
Proof.
  intros Hs Ha. eexists. split; [exact Hs|]. cbn [fst snd shape_ok]. intros ctx r HF Hsh. bool_to_prop.
  do 4 (destruct r as [|? r]; [exfalso; cbn [length] in *; lia|]). split_forall.
  apply Ha; try done. cbn [length] in *. lia.
Qed.

Lemma length_copies l : length (copy_f32_words l) = length l ∧ length (copy_i32_words l) = length l.
Proof. unfold copy_f32_words, copy_i32_words. by rewrite !length_map. Qed.

Ltac uniform_arm :=
  first [ eapply arm_ok_vector; [vm_compute; reflexivity|]
        | eapply arm_ok_matrix; [vm_compute; reflexivity|] ];
  intros; rewrite slice_tail by reflexivity; cbn [app]; read_words;
  finish_arm; rewrite ?(proj1 (length_copies _)), ?(proj2 (length_copies _)); auto.

Lemma decode_uniform_arms_ok : Forall arm_ok decode_uniform_arms.
Proof. unfold decode_uniform_arms. arms uniform_arm. Qed.

Lemma decode_arms_ok : Forall arm_ok decode_arms.
Proof.
  unfold decode_arms. rewrite !Forall_app. split_and!.
  - apply decode_state_arms_ok.
  - apply decode_vertex_arms_ok.
  - apply decode_raster_arms_ok.
  - apply decode_draw_arms_ok.
  - apply decode_uniform_arms_ok.
Qed.

(** Every WebGL opcode has its arm. *)
Lemma decode_arms_complete op spec :
  gl_record_spec op = Some spec → is_Some (match_arms decode_arms op).
Proof.
  intros Hs. destruct (match_arms decode_arms op) as [arm|] eqn:E; [done|].
  exfalso. apply match_arms_none in E. apply E. clear E.
  assert (map fst decode_arms = map fst gl_arms) as -> by reflexivity.
  apply match_arms_in in Hs. apply list_elem_of_fmap. by exists (op, spec).
Qed.

Lemma decode_record_decodes ctx op spec record :
  gl_record_spec op = Some spec → shape_ok spec record = true → Forall is_u32 record →
  decodes op ctx record (decode_record ctx op record).
Proof.
  intros Hs Hsh HF. unfold decode_record.
  destruct (decode_arms_complete op spec Hs) as [arm Harm]. rewrite Harm.
  apply match_arms_in in Harm. pose proof decode_arms_ok as Hall. rewrite Forall_forall in Hall.
  destruct (Hall _ Harm) as (spec' & Hs' & Hd). cbn [fst snd] in *.
  assert (record_spec op = Some spec) as Hrs.
  { unfold record_spec. apply match_arms_in in Hs.
    assert (forallb (λ '(o, _), o <? OP2D_BASE) gl_arms = true) as Hlt by by vm_compute.
    rewrite forallb_forall in Hlt. apply list_elem_of_In in Hs. specialize (Hlt _ Hs). cbn in Hlt.
    bool_to_prop. rewrite (proj2 (Z.leb_gt _ _)) by done.
    apply in_match_arms; [|by apply list_elem_of_In].
    apply (bool_decide_unpack _). by vm_compute. }
  rewrite Hrs in Hs'. injection Hs' as <-. auto.
Qed.

End HostLemmas.

(** ** Canvas2D *)

Definition canvas2d_arm_ok (a : Z * canvas2d_arm) : Prop :=
  ∃ wc bws, match_arms canvas2d_arms (fst a) = Some (wc, bws) ∧
    ∀ record, Forall is_u32 record → lenZ record = wc →
      ∃ cmd, snd a record = Ret cmd ∧ canvas2d_cmd_ok cmd ∧ canvas2d_opcode cmd = fst a.

Ltac canvas2d_arm_tac :=
  do 2 eexists; split; [vm_compute; reflexivity|]; cbn [fst snd];
  let r := fresh "r" in let HF := fresh in let Hl := fresh "Hl" in
  intros r HF Hl; split_words r Hl; split_forall; clear Hl; unfold color_of; read_words;
  eexists; split; [reflexivity|]; split; [|reflexivity];
  cbn [canvas2d_cmd_ok]; unfold color_ok; split_and?; auto with fields.

Lemma canvas2d_decode_arms_ok : Forall canvas2d_arm_ok canvas2d_decode_arms.
Proof. unfold canvas2d_decode_arms. arms canvas2d_arm_tac. Qed.

Lemma canvas2d_decode_spec op spec record :
  canvas2d_record_spec op = Some spec → op ≠ OP2D_SELECT_CANVAS →
  shape_ok spec record = true → Forall is_u32 record →
  ∃ cmd, canvas2d_decode_record op record = Ret (Some cmd) ∧
    canvas2d_cmd_ok cmd ∧ canvas2d_opcode cmd = op.
Proof.
  intros Hs Hne Hsh HF. unfold canvas2d_record_spec in Hs.
  destruct (match_arms canvas2d_arms op) as [[wc bws]|] eqn:E; [|done]. injection Hs as <-.
  cbn [shape_ok] in Hsh. bool_to_prop. unfold canvas2d_decode_record.
  destruct (match_arms canvas2d_decode_arms op) as [arm|] eqn:Ea.
  - apply match_arms_in in Ea. pose proof canvas2d_decode_arms_ok as Hall. rewrite Forall_forall in Hall.
    destruct (Hall _ Ea) as (wc' & bws' & E' & Hd). cbn [fst snd] in *.
    rewrite E in E'. injection E' as <- <-. destruct (Hd record HF) as (cmd & -> & ? & ?); [done|].
    cbn. eauto.
  - exfalso. apply match_arms_none in Ea. apply match_arms_in in E.
    assert (Forall (λ o, o = OP2D_SELECT_CANVAS ∨ o ∈ map fst canvas2d_decode_arms)
              (map fst canvas2d_arms)) as Hall by (apply (bool_decide_unpack _); by vm_compute).
    rewrite Forall_forall in Hall. destruct (Hall op) as [?|?]; try done.
    apply list_elem_of_fmap. by exists (op, (wc, bws)).
Qed.

(** ** Round trips *)

Lemma record_of_wf op payload spec :
  record_spec op = Some spec → shape_ok spec (record_of op payload) = true →
  lenZ payload < 2 ^ 20 - 1 → record_wf (record_of op payload).
Proof.
  intros Hs Hsh Hl. unfold record_wf, record_ok, record_of in *.
  assert (0 ≤ op < 2 ^ 12) as Hop.
  { pose proof (record_spec_forall (λ op _, (0 <=? op) && (op <? 2 ^ 12))) as Hb.
    specialize (Hb ltac:(by vm_compute) _ _ Hs). cbv beta in Hb. bool_to_prop. lia. }
  destruct (header_read op (1 + lenZ payload) Hop ltac:(lia)) as [Ho Hw].
  rewrite Hw, Ho, Hs, Hsh. apply andb_true_iff. split; [|done]. apply Z.eqb_eq.
  cbn [length]. lia.
Qed.

(** What the host says of the calls it is asked about. *)
Definition host_check {H} {HC : GlDecodeContext H} (ctx : H) (cmd : GLCmd) : bool * H :=
  match cmd with
  | BindBuffer canvas_id target _ => validate_bind_buffer_target ctx canvas_id target
  | VertexAttribPointer canvas_id _ size type_ _ stride offset =>
      validate_vertex_attrib_pointer ctx canvas_id size type_ stride offset
  | Scissor canvas_id _ _ width height => validate_viewport_like ctx canvas_id width height
  | BindBufferBase canvas_id target index buffer =>
      validate_bind_buffer_base ctx canvas_id target index buffer
  | BindBufferRange canvas_id target index buffer offset size =>
      validate_bind_buffer_range ctx canvas_id target index buffer offset size
  | _ => (true, ctx)
  end.

#[export] Hint Resolve of_i_u32 of_b_u32 of_signed_u32 of_nonzero_u32 : fields.

Lemma of_b_le b : (of_b b <=? 1) = true.
Proof. by destruct b. Qed.

Lemma map_bits_u32 l : Forall f32_ok l → Forall is_u32 (map bits l).
Proof. intros. by apply Forall_map. Qed.

Lemma map_of_i_u32 l : Forall is_i32 l → Forall is_u32 (map of_i l).
Proof. intros. apply Forall_map. apply Forall_true. apply of_i_u32. Qed.

#[export] Hint Resolve map_bits_u32 map_of_i_u32 : fields.

Lemma opcode_12 op spec : record_spec op = Some spec → 0 ≤ op < 2 ^ 12.
Proof.
  intros Hs. pose proof (record_spec_forall (λ op _, (0 <=? op) && (op <? 2 ^ 12))) as Hb.
  specialize (Hb ltac:(by vm_compute) _ _ Hs). cbv beta in Hb. bool_to_prop. lia.
Qed.

(** The record of a command, from its opcode's specification. *)
Lemma record_of_ok op payload spec :
  record_spec op = Some spec → shape_ok spec (record_of op payload) = true →
  lenZ payload < 2 ^ 20 - 1 → Forall is_u32 payload →
  record_wf (record_of op payload) ∧ Forall is_u32 (record_of op payload).
Proof.
  intros Hs Hsh Hl HF. split; [by eapply record_of_wf|].
  apply Forall_cons. split; [|done]. apply header_u32; [by eapply opcode_12|lia].
Qed.

Ltac ok_parts := repeat match goal with Hok : _ ∧ _ |- _ => destruct Hok end.

(** The shape of a record written out. *)
Ltac shape_tac :=
  unfold shape_ok, record_of, MAX_STREAM_UNIFORM_WORDS; cbn [app length forallb]; rewrite ?length_map;
  lazy [lookup list_lookup Z.to_nat Pos.to_nat Pos.iter_op Nat.add Init.Nat.add];
  rewrite ?of_b_le, ?andb_true_r, ?andb_true_iff, ?Z.leb_le, ?Z.eqb_eq;
  split_and?; lia.

Ltac words_tac :=
  cbn [app]; repeat (apply Forall_cons; split; [auto with fields; fail|]);
  first [apply Forall_nil; exact I | auto with fields].

Ltac record_tac payload :=
  unfold values_ok, MAX_STREAM_UNIFORM_WORDS in *; ok_parts;
  eapply record_of_ok; [vm_compute; reflexivity|..]; cbn [payload];
  [shape_tac|cbn [app length]; rewrite ?length_map; lia|words_tac].

Lemma gl_encode_ok cmd :
  gl_cmd_ok cmd → record_wf (gl_encode cmd) ∧ Forall is_u32 (gl_encode cmd).
Proof.
  unfold gl_encode. intros Hok. destruct cmd; cbn [gl_cmd_ok] in Hok; record_tac gl_payload.
Qed.

Lemma u8_u32 x : is_u8 x → is_u32 x.
Proof. unfold is_u8, is_u32. lia. Qed.

#[export] Hint Resolve u8_u32 : fields.

Lemma canvas2d_encode_ok cmd :
  canvas2d_cmd_ok cmd → record_wf (canvas2d_encode cmd) ∧ Forall is_u32 (canvas2d_encode cmd).
Proof.
  unfold canvas2d_encode. intros Hok.
  destruct cmd; cbn [canvas2d_cmd_ok] in Hok; unfold color_ok in *; record_tac canvas2d_payload.
Qed.

(** Find an arm, read its words, and read its fields back. *)
Ltac find_arm :=
  match goal with
  | |- context [match_arms ?arms ?op] =>
      let a := eval hnf in (match_arms arms op) in change (match_arms arms op) with a; cbv iota beta
  end.

Lemma slice_tail3 {E A} (a b c : A) l : slice (E:=E) (a :: b :: c :: l) 3 (lenZ (a :: b :: c :: l)) = Ret l.
Proof. exact (slice_tail [a; b; c] l 3 eq_refl). Qed.

Lemma slice_tail4 {E A} (a b c d : A) l :
  slice (E:=E) (a :: b :: c :: d :: l) 4 (lenZ (a :: b :: c :: d :: l)) = Ret l.
Proof. exact (slice_tail [a; b; c; d] l 4 eq_refl). Qed.

Ltac round_trip_tac :=
  find_arm; cbn [app]; unfold color_of; read_words; rewrite ?slice_tail3, ?slice_tail4;
  autorewrite with fields; try reflexivity.

Lemma gl_decode_encode {H} {HC : GlDecodeContext H} (ctx : H) cmd :
  gl_cmd_ok cmd →
  decode_record ctx (gl_opcode cmd) (gl_encode cmd) =
  Ret (let '(ok, ctx) := host_check ctx cmd in (if ok then Some cmd else None, ctx)).
Proof.
  intros Hok. unfold decode_record.
  destruct cmd; cbn [gl_opcode gl_cmd_ok host_check] in *; unfold values_ok in Hok; ok_parts;
    unfold gl_encode, record_of; cbn [gl_opcode gl_payload]; round_trip_tac.
  all: match goal with |- context [let '(_, _) := ?v in _] => by destruct v as [[] ?] end.
Qed.

Lemma canvas2d_decode_encode cmd :
  canvas2d_cmd_ok cmd →
  canvas2d_decode_record (canvas2d_opcode cmd) (canvas2d_encode cmd) = Ret (Some cmd).
Proof.
  intros Hok. unfold canvas2d_decode_record.
  destruct cmd; cbn [canvas2d_opcode canvas2d_cmd_ok] in *; unfold color_ok in *; ok_parts;
    unfold canvas2d_encode, record_of; cbn [canvas2d_opcode canvas2d_payload]; round_trip_tac.
  all: by destruct color.
Qed.

Lemma existsb_eqb_in x l : existsb (Z.eqb x) l = true ↔ x ∈ l.
Proof.
  rewrite existsb_exists. split.
  - intros (y & Hy & ->%Z.eqb_eq). by apply list_elem_of_In.
  - intros Hx%list_elem_of_In. exists x. split; [done|]. apply Z.eqb_refl.
Qed.

Lemma rem4 x : Z.rem x 4 = 0 ↔ (4 | x).
Proof. by apply Z.rem_divide. Qed.

Lemma bind_buffer_base_accepts {H} {HC : GlDecodeContext H} (ctx : H) canvas_id target index buffer :
  fst (validate_bind_buffer_base ctx canvas_id target index buffer) = true ↔
  target ∈ [GL_TRANSFORM_FEEDBACK_BUFFER; GL_UNIFORM_BUFFER] ∧
  (target = GL_TRANSFORM_FEEDBACK_BUFFER → transform_feedback_captures ctx canvas_id = false).
Proof.
  unfold validate_bind_buffer_base, validate_bind_buffer_indexed_target.
  rewrite !elem_of_cons, elem_of_nil.
  destruct (Z.eqb_spec target GL_TRANSFORM_FEEDBACK_BUFFER) as [->|]; cbn [orb negb andb].
  - destruct (transform_feedback_captures _ _); cbn; naive_solver.
  - destruct (Z.eqb_spec target GL_UNIFORM_BUFFER); cbn; naive_solver.
Qed.

(** ** What a well-formed record meets *)

Lemma record_wf_gl h payload :
  record_wf (h :: payload) → opcode_of h < OP2D_BASE →
  ∃ spec, gl_record_spec (opcode_of h) = Some spec ∧ shape_ok spec (h :: payload) = true.
Proof.
  intros Hwf Hlt. unfold record_wf, record_ok, record_spec in Hwf.
  rewrite (proj2 (Z.leb_gt _ _)) in Hwf by done. apply andb_true_iff in Hwf as [_ Hs].
  destruct (gl_record_spec (opcode_of h)) as [spec|]; [|done]. eauto.
Qed.

Lemma record_wf_canvas2d h payload :
  record_wf (h :: payload) → OP2D_BASE ≤ opcode_of h →
  ∃ spec, canvas2d_record_spec (opcode_of h) = Some spec ∧ shape_ok spec (h :: payload) = true.
Proof.
  intros Hwf Hge. unfold record_wf, record_ok, record_spec in Hwf.
  rewrite (proj2 (Z.leb_le _ _)) in Hwf by done. apply andb_true_iff in Hwf as [_ Hs].
  destruct (canvas2d_record_spec (opcode_of h)) as [spec|]; [|done]. eauto.
Qed.

(** ** The decoder treats every host alike *)

Section Natural.
Context {H1 H2 : Type} {HC1 : GlDecodeContext H1} {HC2 : GlDecodeContext H2}.
Variables (ctx1 : H1) (ctx2 : H2).
Hypothesis same_captures :
  ∀ id, transform_feedback_captures ctx1 id = transform_feedback_captures ctx2 id.

(** The two hosts get the same command, or the same error. *)
Definition alike (m1 : result (option GLCmd * H1)) (m2 : result (option GLCmd * H2)) : Prop :=
  match m1, m2 with
  | Ret (Some c1, x1), Ret (Some c2, x2) => c1 = c2 ∧ x1 = ctx1 ∧ x2 = ctx2
  | Ret (None, x1), Ret (None, x2) =>
      ∃ id code, x1 = push_error ctx1 id code ∧ x2 = push_error ctx2 id code
  | Panic, Panic => True
  | _, _ => False
  end.

Definition checked_alike (v1 : bool * H1) (v2 : bool * H2) : Prop :=
  (v1 = (true, ctx1) ∧ v2 = (true, ctx2)) ∨
  ∃ id code, v1 = (false, push_error ctx1 id code) ∧ v2 = (false, push_error ctx2 id code).

Ltac alike_cases :=
  repeat case_match; unfold checked_alike; simplify_eq; auto; right; do 2 eexists; split; reflexivity.

Lemma bind_buffer_target_alike id t :
  checked_alike (validate_bind_buffer_target ctx1 id t) (validate_bind_buffer_target ctx2 id t).
Proof. unfold validate_bind_buffer_target. alike_cases. Qed.

Lemma bind_buffer_base_alike id t i b :
  checked_alike (validate_bind_buffer_base ctx1 id t i b) (validate_bind_buffer_base ctx2 id t i b).
Proof.
  unfold validate_bind_buffer_base, validate_bind_buffer_indexed_target.
  destruct (_ || _); cbn [negb]; [|alike_cases]. rewrite same_captures. alike_cases.
Qed.

Lemma bind_buffer_range_alike id t i b o s :
  checked_alike (validate_bind_buffer_range ctx1 id t i b o s)
    (validate_bind_buffer_range ctx2 id t i b o s).
Proof.
  unfold validate_bind_buffer_range.
  destruct (match b with Some _ => true | None => false end && (o <? 0)); [alike_cases|].
  destruct (match b with Some _ => true | None => false end && (s <=? 0)); [alike_cases|].
  destruct (bind_buffer_base_alike id t i b) as [[-> ->]|(j & code & -> & ->)]; cbn [negb].
  - alike_cases.
  - right. eauto.
Qed.

Lemma vertex_attrib_pointer_alike id s t st o :
  checked_alike (validate_vertex_attrib_pointer ctx1 id s t st o)
    (validate_vertex_attrib_pointer ctx2 id s t st o).
Proof. unfold validate_vertex_attrib_pointer. alike_cases. Qed.

Lemma viewport_like_alike id w h :
  checked_alike (validate_viewport_like ctx1 id w h) (validate_viewport_like ctx2 id w h).
Proof. unfold validate_viewport_like. alike_cases. Qed.

Definition arms_alike (a1 : Z * gl_arm) (a2 : Z * gl_arm) : Prop :=
  fst a1 = fst a2 ∧ ∀ record, alike (snd a1 ctx1 record) (snd a2 ctx2 record).

Ltac alike_checks :=
  first
    [ match goal with |- context [validate_bind_buffer_target ctx1 ?b ?c] =>
        destruct (bind_buffer_target_alike b c) as [[-> ->]|(? & ? & -> & ->)] end
    | match goal with |- context [validate_bind_buffer_base ctx1 ?b ?c ?d ?e] =>
        destruct (bind_buffer_base_alike b c d e) as [[-> ->]|(? & ? & -> & ->)] end
    | match goal with |- context [validate_bind_buffer_range ctx1 ?b ?c ?d ?e ?f ?g] =>
        destruct (bind_buffer_range_alike b c d e f g) as [[-> ->]|(? & ? & -> & ->)] end
    | match goal with |- context [validate_vertex_attrib_pointer ctx1 ?b ?c ?d ?e ?f] =>
        destruct (vertex_attrib_pointer_alike b c d e f) as [[-> ->]|(? & ? & -> & ->)] end
    | match goal with |- context [validate_viewport_like ctx1 ?b ?c ?d] =>
        destruct (viewport_like_alike b c d) as [[-> ->]|(? & ? & -> & ->)] end ].

Ltac alike_arm :=
  split; [reflexivity|]; intros record; cbn [snd];
  repeat (unfold idx, slice; match goal with
    | |- context [record !! ?k] => destruct (record !! k); cbn [mbind outcome_bind]; [|exact I]
    end);
  try (match goal with |- context [if ?c then Ret (sub _ _ _) else Panic] =>
         destruct c; cbn [mbind outcome_bind]; [|exact I] end);
  first [ alike_checks; [|do 2 eexists; split; reflexivity] | idtac ];
  split_and!; reflexivity.

Lemma decode_arms_alike : Forall2 arms_alike decode_arms decode_arms.
Proof.
  unfold decode_arms. repeat apply Forall2_app.
  all: [> unfold decode_state_arms | unfold decode_vertex_arms | unfold decode_raster_arms
        | unfold decode_draw_arms | unfold decode_uniform_arms ].
  all: repeat (apply Forall2_cons; split; [alike_arm|]); apply Forall2_nil; exact I.
Qed.

Lemma decode_record_alike op record :
  alike (decode_record ctx1 op record) (decode_record ctx2 op record).
Proof.
  unfold decode_record. pose proof decode_arms_alike as Hall.
  induction Hall as [|[o1 a1] [o2 a2] l1 l2 [Ho Ha] _ IH]; cbn [match_arms]; [exact I|].
  cbn [fst snd] in *. subst o2. destruct (op =? o1); auto.
Qed.

End Natural.

(** * Properties *)

(** C9: pass two accepts what pass one accepted.  On every well-formed WebGL
    record, for every host, [decode_record] reads no word out of range and does
    not reach its [debug_assert]: it builds one command of the record's opcode,
    with every field in its range, and leaves the host alone; or, for a call
    WebGL rejects, it builds none and pushes exactly one error, of the record's
    canvas. *)
Theorem decode_record_total {H} {HC : GlDecodeContext H} (ctx : H) (h : Z) (payload : list Z)
    (Hwords : Forall is_u32 (h :: payload)) (Hwf : record_wf (h :: payload))
    (Hgl : opcode_of h < OP2D_BASE) :
  decodes (opcode_of h) ctx (h :: payload) (decode_record ctx (opcode_of h) (h :: payload)).
Proof.
  destruct (record_wf_gl h payload Hwf Hgl) as (spec & ? & ?).
  by eapply decode_record_decodes.
Qed.

(** The same for Canvas2D: on every well-formed 2D record but
    [OP2D_SELECT_CANVAS], which is not a command, a command of the record's
    opcode comes out, every field in its range. *)
Theorem canvas2d_decode_total (h : Z) (payload : list Z)
    (Hwords : Forall is_u32 (h :: payload)) (Hwf : record_wf (h :: payload))
    (H2d : OP2D_SELECT_CANVAS < opcode_of h) :
  ∃ cmd, canvas2d_decode_record (opcode_of h) (h :: payload) = Ret (Some cmd) ∧
    canvas2d_cmd_ok cmd ∧ canvas2d_opcode cmd = opcode_of h.
Proof.
  destruct (record_wf_canvas2d h payload Hwf) as (spec & ? & ?);
    [unfold OP2D_BASE, OP2D_SELECT_CANVAS in *; lia|].
  eapply canvas2d_decode_spec; [done|lia|done|done].
Qed.

(** C23: the records are a code for the WebGL commands.  The record of a command
    with fields in range (its header, then its fields in the documented order)
    is one pass one accepts, and decodes to that same command, whenever the
    host's checks let the call through; when they do not, the call is skipped
    with the error the check pushed. *)
Theorem gl_records_roundtrip {H} {HC : GlDecodeContext H} (ctx : H) (cmd : GLCmd)
    (Hok : gl_cmd_ok cmd) :
  record_wf (gl_encode cmd) ∧
  decode_record ctx (gl_opcode cmd) (gl_encode cmd) =
    Ret (if fst (host_check ctx cmd) then Some cmd else None, snd (host_check ctx cmd)).
Proof.
  split; [by apply gl_encode_ok|]. rewrite gl_decode_encode by done.
  by destruct (host_check ctx cmd).
Qed.

(** And for the Canvas2D commands. *)
Theorem canvas2d_records_roundtrip (cmd : Canvas2DCmd) (Hok : canvas2d_cmd_ok cmd) :
  record_wf (canvas2d_encode cmd) ∧
  canvas2d_decode_record (canvas2d_opcode cmd) (canvas2d_encode cmd) = Ret (Some cmd).
Proof. split; [by apply canvas2d_encode_ok|by apply canvas2d_decode_encode]. Qed.

(** What the host checks let through: the legal buffer targets; an indexed
    binding of a transform feedback or uniform buffer, not while feedback is
    captured into it, with a non-negative offset and a positive size when a
    buffer is bound, both multiples of four for feedback; a vertex attribute of
    one to four components of a legal type with a stride in [0..=255] and a
    non-negative offset; and a scissor box of non-negative size. *)
Theorem host_checks_accept_iff {H} {HC : GlDecodeContext H} (ctx : H)
    (canvas_id target index : Z) (buffer : option Z) (offset size type_ stride width height : Z) :
  (fst (validate_bind_buffer_target ctx canvas_id target) = true ↔
     target ∈ [0x8892; 0x8893; 0x8F36; 0x8F37; 0x8C8E; 0x8A11; 0x88EB; 0x88EC]) ∧
  (fst (validate_bind_buffer_base ctx canvas_id target index buffer) = true ↔
     target ∈ [GL_TRANSFORM_FEEDBACK_BUFFER; GL_UNIFORM_BUFFER] ∧
     (target = GL_TRANSFORM_FEEDBACK_BUFFER → transform_feedback_captures ctx canvas_id = false)) ∧
  (fst (validate_bind_buffer_range ctx canvas_id target index buffer offset size) = true ↔
     target ∈ [GL_TRANSFORM_FEEDBACK_BUFFER; GL_UNIFORM_BUFFER] ∧
     (target = GL_TRANSFORM_FEEDBACK_BUFFER → transform_feedback_captures ctx canvas_id = false) ∧
     (is_Some buffer → 0 ≤ offset ∧ 0 < size ∧
        (target = GL_TRANSFORM_FEEDBACK_BUFFER → (4 | offset) ∧ (4 | size)))) ∧
  (fst (validate_vertex_attrib_pointer ctx canvas_id size type_ stride offset) = true ↔
     1 ≤ size ≤ 4 ∧
     type_ ∈ [0x1400; 0x1401; 0x1402; 0x1403; 0x1406; 0x140B; 0x1404; 0x1405] ∧
     0 ≤ stride ≤ 255 ∧ 0 ≤ offset) ∧
  (fst (validate_viewport_like ctx canvas_id width height) = true ↔ 0 ≤ width ∧ 0 ≤ height).
Proof.
  split; [|split; [apply bind_buffer_base_accepts|split; [|split]]].
  - unfold validate_bind_buffer_target. rewrite <- existsb_eqb_in. by destruct (existsb _ _).
  - unfold validate_bind_buffer_range.
    pose proof (bind_buffer_base_accepts ctx canvas_id target index buffer) as Hb.
    destruct (validate_bind_buffer_base _ _ _ _ _) as [ok ctx']. cbn [fst] in Hb.
    destruct buffer as [b|]; cbn [andb].
    + destruct (Z.ltb_spec offset 0); [cbn; split; [done|intros (_&_&Hs); specialize (Hs ltac:(done)); lia]|].
      destruct (Z.leb_spec size 0); [cbn; split; [done|intros (_&_&Hs); specialize (Hs ltac:(done)); lia]|].
      destruct ok; cbn [negb];
        [|cbn; split; [done|]; intros (Ha1 & Ha2 & _); by rewrite (proj2 Hb (conj Ha1 Ha2))].
      destruct (proj1 Hb eq_refl) as [Ha1 Ha2]. rewrite <- !rem4.
      assert (∀ P : Prop, (is_Some (Some b) → 0 ≤ offset ∧ 0 < size ∧ P) ↔ P) as HP.
      { intros P. split; [intros Hs; by apply Hs|]. intros; split_and!; auto; lia. }
      rewrite HP. clear HP.
      destruct (Z.eqb_spec target GL_TRANSFORM_FEEDBACK_BUFFER) as [Ht|]; cbn [andb]; [|by cbn [fst]; tauto].
      destruct (Z.eqb_spec (Z.rem offset 4) 0), (Z.eqb_spec (Z.rem size 4) 0);
        cbn [fst negb orb]; intuition (discriminate || auto).
    + destruct ok; cbn [negb];
        [|cbn; split; [done|]; intros (Ha1 & Ha2 & _); by rewrite (proj2 Hb (conj Ha1 Ha2))].
      rewrite andb_false_r. cbn. split; [|done]. intros _. split_and!; [by apply Hb..|].
      by intros [? ?].
  - unfold validate_vertex_attrib_pointer. rewrite <- existsb_eqb_in.
    destruct (Z.leb_spec 1 size), (Z.leb_spec size 4); cbn [andb negb]; try (cbn; split; [done|lia]).
    destruct (existsb _ _); cbn [negb]; [|cbn; split; [done|by intros (_ & ? & _)]].
    destruct (Z.leb_spec 0 stride), (Z.leb_spec stride 255); cbn [andb negb]; try (cbn; split; [done|lia]).
    destruct (Z.ltb_spec offset 0); cbn; split; try done; lia.
  - unfold validate_viewport_like.
    destruct (Z.ltb_spec width 0), (Z.ltb_spec height 0); cbn; split; try done; lia.
Qed.

(** ** A concrete host: it keeps the errors, and is never capturing *)

Definition ErrorLog : Type := list (Z * Z).
#[export] Instance error_log : GlDecodeContext ErrorLog := {|
  push_error := λ log canvas_id code, log ++ [(canvas_id, code)];
  transform_feedback_captures := λ _ _, false
|}.

Lemma decode_record_total_witness :
  decodes (HC := error_log) OP_SCISSOR [] [pack_header OP_SCISSOR 6; 7; 0; 0; 0xFFFFFFFF; 4]
    (decode_record ([] : ErrorLog) OP_SCISSOR [pack_header OP_SCISSOR 6; 7; 0; 0; 0xFFFFFFFF; 4]).
Proof.
  apply (decode_record_total ([] : ErrorLog) (pack_header OP_SCISSOR 6) [7; 0; 0; 0xFFFFFFFF; 4]).
  - apply (bool_decide_unpack _). by vm_compute.
  - by vm_compute.
  - by vm_compute.
Defined.

Lemma canvas2d_decode_total_witness : ∃ cmd,
  canvas2d_decode_record OP2D_ROTATE [pack_header OP2D_ROTATE 2; 0x3F800000] = Ret (Some cmd) ∧
  canvas2d_opcode cmd = OP2D_ROTATE.
Proof.
  destruct (canvas2d_decode_total (pack_header OP2D_ROTATE 2) [0x3F800000]) as (cmd & Hc & _ & Ho).
  - apply (bool_decide_unpack _). by vm_compute.
  - by vm_compute.
  - by vm_compute.
  - exists cmd. split; [exact Hc|exact Ho].
Defined.

Lemma gl_records_roundtrip_witness :
  decode_record ([] : ErrorLog) OP_UNIFORM3F
    (gl_encode (Uniform3f 7 (Some 2) (from_bits 0) (from_bits 0x7FC00001) (from_bits 1))) =
  Ret (Some (Uniform3f 7 (Some 2) (from_bits 0) (from_bits 0x7FC00001) (from_bits 1)), []).
Proof.
  refine (proj2 (gl_records_roundtrip ([] : ErrorLog)
    (Uniform3f 7 (Some 2) (from_bits 0) (from_bits 0x7FC00001) (from_bits 1)) _)).
  cbn. unfold is_u32, f32_ok, is_u32. cbn. lia.
Defined.

Lemma canvas2d_records_roundtrip_witness :
  canvas2d_decode_record OP2D_SET_LINE_CAP (canvas2d_encode (SetLineCap 2)) = Ret (Some (SetLineCap 2)).
Proof.
  refine (proj2 (canvas2d_records_roundtrip (SetLineCap 2) _)). cbn. unfold is_u8. lia.
Defined.
