(* ===== verification/RenderStream.v ===== *)
(** The mixed stream ([engine/crates/frame-decode/src/lib.rs]): a validated
    stream of 2D and WebGL records becomes an ordered sequence of batches and
    materialize barriers.

    [decode_render_stream_into] is generic in its target, which is both the host
    of the decoder and the sink of the batches ([RenderSink]).  The theorems are
    proved for the sink that records the calls it gets ([Trace]) and carried to
    every other sink by [sink_sees_trace]: whatever the sink, it gets exactly
    the recorded calls.  [meaning] is the specification: the commands and the
    errors of a run of records, one record at a time, with no batching. *)
From S2P Require Import Prelude Opcodes Stream Commands Decode.

(** The size of a [GLCmd] and the capacity of a [SmallVec] of sixteen inline
    words collected from [n]: at least [n], and inline while [n] fits. *)
Class CommandSize := {
  size_of_GLCmd : Z;
  values_capacity : Z → Z;
  values_capacity_ge : ∀ n, 0 ≤ n → n ≤ values_capacity n;
  values_capacity_inline : ∀ n, n ≤ 16 → values_capacity n ≤ 16
}.

(** Where a stream's work goes. *)
Class RenderSink (T : Type) := {
  canvas_batch : T → Z → list Canvas2DCmd → T;
  gl_batch : T → list GLCmd → Z → T;
  materialize : T → Z → T
}.

Section Size.
Context {SZ : CommandSize}.

(** [spilled] and the heap bytes of a value vector of four-byte elements. *)
Definition values_bytes (n : Z) : Z :=
  let base := size_of_GLCmd in
  if 16 <? values_capacity n then u64_saturating_add base (values_capacity n * 4) else base.

Definition cmd_approx_bytes (cmd : GLCmd) : Z :=
  let base := size_of_GLCmd in
  match cmd with
  | Uniform1iv _ _ value | Uniform2iv _ _ value
  | Uniform3iv _ _ value | Uniform4iv _ _ value => values_bytes (lenZ value)
  | Uniform1fv _ _ value | Uniform2fv _ _ value
  | Uniform3fv _ _ value | Uniform4fv _ _ value
  | UniformMatrix2fv _ _ _ value | UniformMatrix3fv _ _ _ value
  | UniformMatrix4fv _ _ _ value => values_bytes (lenZ value)
  | _ => base
  end.

(** * The WebGL-only view *)

Section ValidatedStream.
Context {H : Type} {HC : GlDecodeContext H}.

Fixpoint decode_loop (fuel : nat) (ctx : H) (ws : list Z) (cursor : Z) (out : list GLCmd)
    (approx_bytes : Z) : result (H * list GLCmd * Z) :=
  if lenZ ws <=? cursor then mret (ctx, out, approx_bytes) else
  match fuel with
  | O => OutOfFuel
  | S fuel =>
      header ← idx ws cursor;
      let opcode := opcode_of header in
      let wc := word_count_of header in
      record ← slice ws cursor (cursor + wc);
      r ← decode_record ctx opcode record;
      match r with
      | (Some cmd, ctx) =>
          decode_loop fuel ctx ws (cursor + wc) (out ++ [cmd])
            (u64_saturating_add approx_bytes (cmd_approx_bytes cmd))
      | (None, ctx) => decode_loop fuel ctx ws (cursor + wc) out approx_bytes
      end
  end.

Definition decode_validated_stream (ctx : H) (stream : ValidatedStream) (out : list GLCmd) :
    result (H * list GLCmd * Z) :=
  decode_loop (length (words stream)) ctx (words stream) 2 out 0.

End ValidatedStream.

(** * The mixed stream *)

Section Into.
Context {T : Type} {HC : GlDecodeContext T} {HS : RenderSink T}.

(** The locals of the walk. *)
Record Walk := {
  target : T;
  decoded : Z;
  gl : list GLCmd;
  gl_bytes : Z;
  canvas : list Canvas2DCmd;
  canvas_id : option Z;
  pending_materialize : list Z
}.

Definition flush_canvas (w : Walk) : Walk :=
  match canvas w with
  | [] => w
  | commands =>
      let id := match canvas_id w with Some id => id | None => 0 end in
      {| target := canvas_batch (target w) id commands;
         decoded := decoded w; gl := gl w; gl_bytes := gl_bytes w;
         canvas := []; canvas_id := canvas_id w;
         pending_materialize :=
           if existsb (Z.eqb id) (pending_materialize w) then pending_materialize w
           else pending_materialize w ++ [id] |}
  end.

Definition flush_gl (w : Walk) : Walk :=
  match gl w with
  | [] => w
  | commands =>
      {| target := gl_batch (target w) commands (gl_bytes w);
         decoded := decoded w; gl := []; gl_bytes := 0;
         canvas := canvas w; canvas_id := canvas_id w;
         pending_materialize := pending_materialize w |}
  end.

(** [for id in pending_materialize.drain(..)]. *)
Definition drain_materialize (w : Walk) : Walk :=
  {| target := fold_left materialize (pending_materialize w) (target w);
     decoded := decoded w; gl := gl w; gl_bytes := gl_bytes w;
     canvas := canvas w; canvas_id := canvas_id w; pending_materialize := [] |}.

Definition set_target (w : Walk) (t : T) : Walk :=
  {| target := t; decoded := decoded w; gl := gl w; gl_bytes := gl_bytes w;
     canvas := canvas w; canvas_id := canvas_id w;
     pending_materialize := pending_materialize w |}.

Definition select_canvas (w : Walk) (id : Z) : Walk :=
  {| target := target w; decoded := decoded w; gl := gl w; gl_bytes := gl_bytes w;
     canvas := canvas w; canvas_id := Some id;
     pending_materialize := pending_materialize w |}.

Definition push_canvas (w : Walk) (command : Canvas2DCmd) : Walk :=
  {| target := target w; decoded := decoded w + 1; gl := gl w; gl_bytes := gl_bytes w;
     canvas := canvas w ++ [command]; canvas_id := canvas_id w;
     pending_materialize := pending_materialize w |}.

Definition push_gl (w : Walk) (command : GLCmd) : Walk :=
  {| target := target w; decoded := decoded w + 1; gl := gl w ++ [command];
     gl_bytes := u64_saturating_add (gl_bytes w) (cmd_approx_bytes command);
     canvas := canvas w; canvas_id := canvas_id w;
     pending_materialize := pending_materialize w |}.

(** One record. *)
Definition render_record (w : Walk) (opcode : Z) (record : list Z) : result Walk :=
  if opcode =? OP2D_SELECT_CANVAS then
    let w := flush_canvas w in
    id ← idx record 1;
    mret (select_canvas w id)
  else if OP2D_BASE <=? opcode then
    match canvas_id w with
    | None => mret (set_target w (push_error (target w) 0 INVALID_OPERATION))
    | Some _ =>
        let w := flush_gl w in
        command ← canvas2d_decode_record opcode record;
        match command with
        | Some command => mret (push_canvas w command)
        | None => mret w
        end
    end
  else
    let w := drain_materialize (flush_canvas w) in
    r ← decode_record (target w) opcode record;
    match r with
    | (Some command, t) => mret (push_gl (set_target w t) command)
    | (None, t) => mret (set_target w t)
    end.

Fixpoint render_loop (fuel : nat) (ws : list Z) (cursor : Z) (w : Walk) : result Walk :=
  if lenZ ws <=? cursor then mret w else
  match fuel with
  | O => OutOfFuel
  | S fuel =>
      header ← idx ws cursor;
      let opcode := opcode_of header in
      let word_count := word_count_of header in
      record ← slice ws cursor (cursor + word_count);
      w ← render_record w opcode record;
      render_loop fuel ws (cursor + word_count) w
  end.

Definition walk_start (t : T) : Walk :=
  {| target := t; decoded := 0; gl := []; gl_bytes := 0; canvas := []; canvas_id := None;
     pending_materialize := [] |}.

Definition decode_render_stream_into (t : T) (stream : ValidatedStream) : result (Z * T) :=
  w ← render_loop (length (words stream)) (words stream) 2 (walk_start t);
  let w := drain_materialize (flush_gl (flush_canvas w)) in
  mret (decoded w, target w).

End Into.

(** * Frame operations ([shared/src/protocol/frame_packet.rs]) *)

Record DirtyRect := { dr_x : F32; dr_y : F32; dr_width : F32; dr_height : F32 }.

Record CanvasBatchPayload := {
  cb_canvas_id : Z;
  cb_commands : list Canvas2DCmd;
  cb_present : bool;
  cb_dirty_rect : option DirtyRect
}.

Inductive FrameOp :=
  | BeginFrame
  | CanvasBatch (payload : CanvasBatchPayload)
  | GlBatch (commands : list GLCmd)
  | Materialize (canvas_id : Z)
  | Present.

Record FrameOpSink (H : Type) := { context : H; out : list FrameOp }.
Arguments context {H}.
Arguments out {H}.

Definition emit {H} (s : FrameOpSink H) (op : FrameOp) : FrameOpSink H :=
  {| context := context s; out := out s ++ [op] |}.

#[export] Instance frame_op_host {H} {HC : GlDecodeContext H} : GlDecodeContext (FrameOpSink H) := {|
  push_error := λ s canvas_id code,
    {| context := push_error (context s) canvas_id code; out := out s |};
  transform_feedback_captures := λ s canvas_id, transform_feedback_captures (context s) canvas_id
|}.

#[export] Instance frame_op_sink {H} : RenderSink (FrameOpSink H) := {|
  canvas_batch := λ s id commands,
    emit s (CanvasBatch {| cb_canvas_id := id; cb_commands := commands;
                           cb_present := false; cb_dirty_rect := None |});
  gl_batch := λ s commands _, emit s (GlBatch commands);
  materialize := λ s id, emit s (Materialize id)
|}.

Definition decode_render_stream {H} {HC : GlDecodeContext H} (ctx : H) (stream : ValidatedStream)
    (ops : list FrameOp) : result (Z * H * list FrameOp) :=
  r ← decode_render_stream_into {| context := ctx; out := ops |} stream;
  mret (fst r, context (snd r), out (snd r)).

(** * The sink that records its calls *)

Inductive sink_event :=
  | EvCanvas (id : Z) (commands : list Canvas2DCmd)
  | EvGl (commands : list GLCmd) (bytes : Z)
  | EvMaterialize (id : Z)
  | EvError (id code : Z).

(** Recorded under a host whose capture state is [cap]. *)
Definition Trace (cap : Z → bool) : Type := list sink_event.

#[export] Instance trace_host cap : GlDecodeContext (Trace cap) := {|
  push_error := λ tr id code, tr ++ [EvError id code];
  transform_feedback_captures := λ _ id, cap id
|}.

#[export] Instance trace_sink cap : RenderSink (Trace cap) := {|
  canvas_batch := λ tr id commands, tr ++ [EvCanvas id commands];
  gl_batch := λ tr commands bytes, tr ++ [EvGl commands bytes];
  materialize := λ tr id, tr ++ [EvMaterialize id]
|}.

(** The recorded calls, made on another sink. *)
Definition play {T} {HC : GlDecodeContext T} {HS : RenderSink T} (t : T) (ev : sink_event) : T :=
  match ev with
  | EvCanvas id commands => canvas_batch t id commands
  | EvGl commands bytes => gl_batch t commands bytes
  | EvMaterialize id => materialize t id
  | EvError id code => push_error t id code
  end.

(** * The specification *)

(** A command, and the canvas a 2D one is for. *)
Inductive Command := On2D (canvas_id : Z) (command : Canvas2DCmd) | OnGl (command : GLCmd).

(** The errors a trace reports. *)
Definition event_error (ev : sink_event) : option (Z * Z) :=
  match ev with EvError id code => Some (id, code) | _ => None end.
Definition errors (tr : list sink_event) : list (Z * Z) := omap event_error tr.

Definition opcode_head (record : list Z) : Z :=
  match record with h :: _ => opcode_of h | [] => 0 end.

(** One record: the canvas selected after it, its command, its error. *)
Definition record_meaning (cap : Z → bool) (current : option Z) (record : list Z) :
    option Z * list Command * list (Z * Z) :=
  let opcode := opcode_head record in
  if opcode =? OP2D_SELECT_CANVAS then
    (record !! 1%nat, [], [])
  else if OP2D_BASE <=? opcode then
    match current with
    | None => (current, [], [(0, INVALID_OPERATION)])
    | Some id =>
        (current,
         match canvas2d_decode_record opcode record with
         | Ret (Some command) => [On2D id command]
         | _ => []
         end, [])
    end
  else
    match decode_record (H := Trace cap) [] opcode record with
    | Ret (Some command, _) => (current, [OnGl command], [])
    | Ret (None, tr) =>
        (current, [], errors tr)
    | _ => (current, [], [])
    end.

Fixpoint meaning (cap : Z → bool) (current : option Z) (records : list (list Z)) :
    list Command * list (Z * Z) :=
  match records with
  | [] => ([], [])
  | record :: records =>
      let '(current, commands, errors) := record_meaning cap current record in
      let '(commands', errors') := meaning cap current records in
      (commands ++ commands', errors ++ errors')
  end.

(** The commands a trace delivers, in order. *)
Definition event_commands (ev : sink_event) : list Command :=
  match ev with
  | EvCanvas id commands => map (On2D id) commands
  | EvGl commands _ => map OnGl commands
  | _ => []
  end.
Definition delivered (tr : list sink_event) : list Command := flat_map event_commands tr.

(** The barrier: the canvases with work delivered and not yet materialized, or
    [None] if a WebGL batch comes while there is one, or a canvas without any is
    materialized. *)
Definition barrier_event (open : list Z) (ev : sink_event) : option (list Z) :=
  match ev with
  | EvCanvas id _ => Some (if existsb (Z.eqb id) open then open else open ++ [id])
  | EvGl _ _ => if open is [] then Some [] else None
  | EvMaterialize id =>
      if existsb (Z.eqb id) open then Some (List.filter (λ j, negb (j =? id)) open) else None
  | EvError _ _ => Some open
  end.

Fixpoint barrier (open : list Z) (tr : list sink_event) : option (list Z) :=
  match tr with
  | [] => Some open
  | ev :: tr => match barrier_event open ev with Some open => barrier open tr | None => None end
  end.

Definition batch_bytes (commands : list GLCmd) : Z :=
  fold_left (λ a command, u64_saturating_add a (cmd_approx_bytes command)) commands 0.

(** A batch is never empty, and a WebGL batch comes with its size. *)
Definition event_ok (ev : sink_event) : Prop :=
  match ev with
  | EvCanvas _ commands => commands ≠ []
  | EvGl commands bytes => commands ≠ [] ∧ bytes = batch_bytes commands
  | _ => True
  end.

(** * Lemmas: the walk over records *)

(** A step for each record of a run. *)
Fixpoint run {S} (step : S → Z → list Z → result S) (s : S) (records : list (list Z)) : result S :=
  match records with
  | [] => mret s
  | record :: records => s ← step s (opcode_head record) record; run step s records
  end.

(** What a walk reads at the head of a well-formed record. *)
Lemma read_record p r s :
  record_wf r → ∃ h t, r = h :: t ∧
    idx (E:=Empty_set) (p ++ r ++ s) (lenZ p) = Ret h ∧
    slice (E:=Empty_set) (p ++ r ++ s) (lenZ p) (lenZ p + word_count_of h) = Ret r ∧
    word_count_of h = lenZ r.
Proof.
  intros Hr. destruct r as [|h t]; [done|]. exists h, t.
  pose proof (record_wf_head h t Hr) as Hwc.
  pose proof (lookup_mid p (h :: t) s (lenZ p) 0 eq_refl ltac:(lia) ltac:(cbn [length]; lia)) as Hl.
  rewrite Z.add_0_r in Hl. split_and!; [done| | |done].
  - unfold idx. rewrite Hl. done.
  - rewrite slice_ret by (rewrite ?length_app; lia). by rewrite sub_mid by lia.
Qed.

Section Runs.
Context {T : Type} {HC : GlDecodeContext T} {HS : RenderSink T}.

Lemma render_loop_run fuel p rs (w : Walk) :
  Forall record_wf rs → (length (concat rs) ≤ fuel)%nat →
  render_loop fuel (p ++ concat rs) (lenZ p) w = run render_record w rs.
Proof.
  intros Hrs. revert p fuel w. induction Hrs as [|r rs Hr Hrs IH]; intros p fuel w Hf.
  { cbn [concat]. rewrite app_nil_r. destruct fuel; cbn [render_loop];
      by rewrite (proj2 (Z.leb_le _ _)) by lia. }
  pose proof (record_wf_nonempty r Hr). cbn [concat] in *. rewrite length_app in Hf.
  destruct fuel as [|fuel]; [lia|]. cbn [render_loop run].
  rewrite (proj2 (Z.leb_gt _ _)) by (rewrite !length_app; lia).
  destruct (read_record p r (concat rs) Hr) as (h & t & -> & Hi & Hsl & Hwc).
  rewrite Hi. cbn [mbind outcome_bind]. rewrite Hsl. cbn [mbind outcome_bind opcode_head].
  destruct (render_record w (opcode_of h) (h :: t)) as [w'| | |]; cbn [mbind outcome_bind]; try done.
  rewrite Hwc, app_assoc.
  replace (lenZ p + lenZ (h :: t)) with (lenZ (p ++ h :: t)) by (rewrite length_app; lia).
  apply IH. lia.
Qed.

Lemma decode_into_run (t : T) v rs :
  Forall record_wf rs → words v = stream_of rs →
  decode_render_stream_into t v =
    (w ← run render_record (walk_start t) rs;
     let w := drain_materialize (flush_gl (flush_canvas w)) in mret (decoded w, target w)).
Proof.
  intros Hrs Hv. unfold decode_render_stream_into. rewrite Hv.
  change (stream_of rs) with ([MAGIC; STREAM_VERSION] ++ concat rs) at 2.
  change 2 with (lenZ [MAGIC; STREAM_VERSION]). rewrite render_loop_run; [done|done|].
  unfold stream_of. cbn [length]. lia.
Qed.

End Runs.

(** ** Traces *)

Lemma delivered_app tr tr' : delivered (tr ++ tr') = delivered tr ++ delivered tr'.
Proof. apply flat_map_app. Qed.

Lemma errors_app tr tr' : errors (tr ++ tr') = errors tr ++ errors tr'.
Proof. apply omap_app. Qed.

Lemma barrier_app open tr tr' :
  barrier open (tr ++ tr') =
  match barrier open tr with Some open => barrier open tr' | None => None end.
Proof.
  revert open. induction tr as [|ev tr IH]; intros open; cbn [barrier app]; [done|].
  by destruct (barrier_event open ev).
Qed.

Lemma existsb_eqb_false x l : existsb (Z.eqb x) l = false ↔ x ∉ l.
Proof. rewrite <- not_true_iff_false, existsb_eqb_in. done. Qed.

Lemma filter_absent x l : x ∉ l → List.filter (λ j, negb (j =? x)) l = l.
Proof.
  induction l as [|y l IH]; cbn [List.filter]; [done|]. rewrite not_elem_of_cons. intros [Hx Hl].
  rewrite (proj2 (Z.eqb_neq y x)) by done. cbn [negb]. by rewrite IH.
Qed.

(** Materializing every canvas with work left closes the barrier. *)
Lemma barrier_materialize open : NoDup open → barrier open (map EvMaterialize open) = Some [].
Proof.
  induction 1 as [|x l Hx _ IH]; cbn [map barrier barrier_event]; [done|].
  cbn [existsb List.filter]. rewrite Z.eqb_refl. cbn [orb negb]. by rewrite filter_absent.
Qed.

Lemma fold_materialize {cap} (tr : Trace cap) ids :
  fold_left materialize ids tr = tr ++ map EvMaterialize ids.
Proof.
  revert tr. induction ids as [|id ids IH]; intros tr; cbn [fold_left map].
  - by rewrite app_nil_r.
  - rewrite IH. cbn [materialize trace_sink]. by rewrite <- app_assoc.
Qed.

Lemma delivered_materialize ids : delivered (map EvMaterialize ids) = [].
Proof. by induction ids. Qed.
Lemma errors_materialize ids : errors (map EvMaterialize ids) = [].
Proof. by induction ids. Qed.
Lemma materialize_ok ids : Forall event_ok (map EvMaterialize ids).
Proof. induction ids; constructor; done. Qed.

Lemma batch_bytes_snoc l c :
  batch_bytes (l ++ [c]) = u64_saturating_add (batch_bytes l) (cmd_approx_bytes c).
Proof. unfold batch_bytes. by rewrite fold_left_app. Qed.

(** ** The invariant of the walk *)

Ltac walk_fields :=
  cbn [target decoded gl gl_bytes canvas canvas_id pending_materialize canvas_batch gl_batch
       materialize push_error trace_sink trace_host] in *.

Section Invariant.
Context (cap : Z → bool).

(** Between two records: the work delivered and the work in the two batches are
    the commands of the records so far, the batches do not overlap, and what is
    due to be materialized is what the trace leaves open. *)
Record Inv (w : Walk (T := Trace cap)) (commands : list Command) (errs : list (Z * Z)) : Prop := {
  inv_gl : gl w ≠ [] → canvas w = [] ∧ pending_materialize w = [];
  inv_canvas : canvas w ≠ [] → is_Some (canvas_id w);
  inv_delivered :
    delivered (target w) ++ map (On2D (default 0 (canvas_id w))) (canvas w) ++ map OnGl (gl w)
    = commands;
  inv_errors : errors (target w) = errs;
  inv_barrier : barrier [] (target w) = Some (pending_materialize w);
  inv_nodup : NoDup (pending_materialize w);
  inv_ok : Forall event_ok (target w);
  inv_bytes : gl_bytes w = batch_bytes (gl w);
  inv_decoded : decoded w = lenZ commands
}.

Lemma inv_start : Inv (walk_start ([] : Trace cap)) [] [].
Proof. split; done || constructor. Qed.

(** Each flush keeps the invariant, and empties its batch. *)
Lemma flush_canvas_inv w commands errs :
  Inv w commands errs →
  Inv (flush_canvas w) commands errs ∧ canvas (flush_canvas w) = [] ∧
  canvas_id (flush_canvas w) = canvas_id w ∧ gl (flush_canvas w) = gl w.
Proof.
  intros []. destruct w as [tr n g gb c cid pm]. unfold flush_canvas. walk_fields.
  destruct c as [|c0 c]; walk_fields; [split; [by split|done]|].
  destruct inv_canvas0 as [id Hid]; [done|]. subst cid. cbn [default] in *.
  assert (g = []) as -> by (destruct g; [done|]; by destruct (inv_gl0 ltac:(done))).
  split; [|done]. split; walk_fields; try done.
  - rewrite delivered_app, <- app_assoc. unfold delivered at 2. cbn [flat_map event_commands].
    by rewrite app_nil_r.
  - by rewrite errors_app, app_nil_r.
  - rewrite barrier_app, inv_barrier0. cbn. done.
  - destruct (existsb _ pm) eqn:E; [done|]. apply existsb_eqb_false in E.
    apply NoDup_app. split_and!; [done| |by apply NoDup_singleton]. set_solver.
  - apply Forall_app. split; [done|]. by repeat constructor.
Qed.

Lemma flush_gl_inv w commands errs :
  Inv w commands errs →
  Inv (flush_gl w) commands errs ∧ gl (flush_gl w) = [] ∧
  canvas_id (flush_gl w) = canvas_id w ∧ canvas (flush_gl w) = canvas w.
Proof.
  intros []. destruct w as [tr n g gb c cid pm]. unfold flush_gl. walk_fields.
  destruct g as [|g0 g]; walk_fields; [split; [by split|done]|].
  destruct inv_gl0 as [-> ->]; [done|].
  split; [|done]. split; walk_fields; try done.
  - rewrite delivered_app, <- app_assoc. unfold delivered at 2. cbn [flat_map event_commands app map].
    by rewrite !app_nil_r.
  - by rewrite errors_app, app_nil_r.
  - by rewrite barrier_app, inv_barrier0.
  - apply Forall_app. split; [done|]. constructor; [|constructor]. done.
Qed.

Lemma drain_inv w commands errs :
  Inv w commands errs → Inv (drain_materialize w) commands errs.
Proof.
  intros []. destruct w as [tr n g gb c cid pm]. unfold drain_materialize. walk_fields.
  split; walk_fields; rewrite ?fold_materialize; try done.
  - naive_solver.
  - by rewrite delivered_app, delivered_materialize, app_nil_r.
  - by rewrite errors_app, errors_materialize, app_nil_r.
  - rewrite barrier_app, inv_barrier0. by apply barrier_materialize.
  - constructor.
  - apply Forall_app. split; [done|]. apply materialize_ok.
Qed.

Lemma select_inv w id commands errs :
  Inv w commands errs → canvas w = [] → Inv (select_canvas w id) commands errs.
Proof.
  intros [] Hc. destruct w as [tr n g gb c cid pm]. unfold select_canvas. walk_fields.
  subst c. split; walk_fields; try done.
Qed.

Lemma push_canvas_inv w id command commands errs :
  Inv w commands errs → gl w = [] → canvas_id w = Some id →
  Inv (push_canvas w command) (commands ++ [On2D id command]) errs.
Proof.
  intros [] Hg Hid. destruct w as [tr n g gb c cid pm]. unfold push_canvas. walk_fields.
  subst g cid. change (default 0 (Some id)) with id in *. rewrite !app_nil_r in *. split; walk_fields; try done.
  - change (default 0 (Some id)) with id. cbn [map]. rewrite map_app, app_nil_r, app_assoc. by rewrite inv_delivered0.
  - rewrite length_app. cbn [length]. lia.
Qed.

Lemma push_gl_inv w command commands errs :
  Inv w commands errs → canvas w = [] → pending_materialize w = [] →
  Inv (push_gl w command) (commands ++ [OnGl command]) errs.
Proof.
  intros [] Hc Hp. destruct w as [tr n g gb c cid pm]. unfold push_gl. walk_fields.
  subst c pm. split; walk_fields; try done.
  - rewrite map_app, !app_assoc. rewrite !app_assoc in inv_delivered0. by rewrite inv_delivered0.
  - by rewrite batch_bytes_snoc, inv_bytes0.
  - rewrite length_app. cbn [length]. lia.
Qed.

Lemma error_inv w id code commands errs :
  Inv w commands errs →
  Inv (set_target w (push_error (target w) id code)) commands (errs ++ [(id, code)]).
Proof.
  intros []. destruct w as [tr n g gb c cid pm]. unfold set_target. walk_fields.
  split; walk_fields; try done.
  - rewrite delivered_app, <- inv_delivered0. unfold delivered at 2.
    cbn [flat_map event_commands]. by rewrite app_nil_r.
  - by rewrite errors_app, inv_errors0.
  - by rewrite barrier_app, inv_barrier0.
  - apply Forall_app. split; [done|]. by repeat constructor.
Qed.

Lemma set_target_id (w : Walk (T := Trace cap)) : set_target w (target w) = w.
Proof. by destruct w. Qed.

(** A WebGL record, under any trace so far. *)
Lemma decode_record_meaning (tr : Trace cap) h t :
  Forall is_u32 (h :: t) → record_wf (h :: t) → opcode_of h < OP2D_BASE →
  (∃ cmd, decode_record tr (opcode_of h) (h :: t) = Ret (Some cmd, tr) ∧
     ∀ cur, record_meaning cap cur (h :: t) = (cur, [OnGl cmd], [])) ∨
  (∃ id code, decode_record tr (opcode_of h) (h :: t) = Ret (None, push_error tr id code) ∧
     ∀ cur, record_meaning cap cur (h :: t) = (cur, [], [(id, code)])).
Proof.
  intros HF Hwf Hlt. destruct (record_wf_gl h t Hwf Hlt) as (spec & Hs & Hsh).
  pose proof (decode_record_decodes tr _ _ _ Hs Hsh HF) as Hd.
  pose proof (decode_record_alike tr ([] : Trace cap) (λ _, eq_refl) (opcode_of h) (h :: t)) as Ha.
  unfold record_meaning. cbn [opcode_head].
  rewrite (proj2 (Z.eqb_neq _ OP2D_SELECT_CANVAS)) by (unfold OP2D_SELECT_CANVAS, OP2D_BASE in *; lia).
  rewrite (proj2 (Z.leb_gt _ _)) by done.
  destruct Hd as [(cmd & Hd & _)|(id & code & _ & _ & Hd)]; rewrite Hd in Ha |- *; unfold alike in Ha.
  - left. exists cmd. split; [done|].
    destruct (decode_record ([] : Trace cap) _ _) as [[[c|] x]| | |]; try done. by destruct Ha as (-> & _).
  - right.
    destruct (decode_record ([] : Trace cap) _ _) as [[[c|] x]| | |]; try done.
    destruct Ha as (j & k & Hj & ->). rewrite Hj. exists j, k. done.
Qed.

(** One record: no panic, and the invariant with the record's meaning added. *)
Lemma render_record_inv w commands errs h t :
  Forall is_u32 (h :: t) → record_wf (h :: t) → Inv w commands errs →
  ∃ w', render_record w (opcode_of h) (h :: t) = Ret w' ∧
    let '(cur, cs, es) := record_meaning cap (canvas_id w) (h :: t) in
    canvas_id w' = cur ∧ Inv w' (commands ++ cs) (errs ++ es).
Proof.
  intros HF Hwf Hinv. unfold render_record.
  destruct (Z.eqb_spec (opcode_of h) OP2D_SELECT_CANVAS) as [Hsel|Hsel].
  - destruct (record_wf_canvas2d h t Hwf) as (spec & Hs & Hsh).
    { rewrite Hsel. unfold OP2D_BASE, OP2D_SELECT_CANVAS. lia. }
    rewrite Hsel in Hs. vm_compute in Hs. injection Hs as <-. cbn [shape_ok] in Hsh. bool_to_prop.
    destruct t as [|id t]; [done|]. unfold idx. cbn [lookup list_lookup Z.to_nat Pos.to_nat].
    change ((h :: id :: t) !! Z.to_nat 1) with (Some id). cbn [mbind outcome_bind].
    eexists. split; [reflexivity|]. unfold record_meaning. cbn [opcode_head].
    rewrite (proj2 (Z.eqb_eq _ _) Hsel). split; [done|]. rewrite !app_nil_r.
    apply flush_canvas_inv in Hinv as (? & ? & ?). by apply select_inv.
  - destruct (Z.leb_spec OP2D_BASE (opcode_of h)) as [Hge|Hlt].
    + unfold record_meaning. cbn [opcode_head].
      rewrite (proj2 (Z.eqb_neq _ _) Hsel), (proj2 (Z.leb_le _ _) Hge).
      destruct (canvas_id w) as [id|] eqn:Hid.
      * destruct (record_wf_canvas2d h t Hwf Hge) as (spec & Hs & Hsh).
        destruct (canvas2d_decode_spec _ _ _ Hs Hsel Hsh HF) as (cmd & -> & _).
        cbn [mbind outcome_bind]. eexists. split; [reflexivity|].
        apply flush_gl_inv in Hinv as (? & ? & Hid' & ?). rewrite Hid in Hid'.
        rewrite app_nil_r. split; [done|]. by apply push_canvas_inv.
      * eexists. split; [reflexivity|]. rewrite app_nil_r. split; [done|]. by apply error_inv.
    + apply flush_canvas_inv in Hinv as (Hinv & Hc & Hid & _). apply drain_inv in Hinv.
      rewrite <- Hid. set (w' := drain_materialize (flush_canvas w)) in *.
      change (canvas_id (flush_canvas w)) with (canvas_id w').
      assert (canvas w' = []) as Hc' by exact Hc. assert (pending_materialize w' = []) as Hp by done.
      destruct (decode_record_meaning (target w') h t HF Hwf Hlt)
        as [(cmd & -> & Hm)|(id & code & -> & Hm)]; rewrite Hm; cbn [mbind outcome_bind];
        (eexists; split; [reflexivity|]); rewrite app_nil_r; split; try done.
      * rewrite set_target_id. by apply push_gl_inv.
      * by apply error_inv.
Qed.

Lemma run_inv w commands errs rs :
  Forall (Forall is_u32) rs → Forall record_wf rs → Inv w commands errs →
  ∃ w', run render_record w rs = Ret w' ∧
    Inv w' (commands ++ fst (meaning cap (canvas_id w) rs))
      (errs ++ snd (meaning cap (canvas_id w) rs)).
Proof.
  intros HF Hrs. revert w commands errs HF.
  induction Hrs as [|r rs Hr Hrs IH]; intros w commands errs HF Hinv; cbn [run meaning].
  { exists w. cbn [fst snd]. by rewrite !app_nil_r. }
  apply Forall_cons in HF as [HFr HF]. destruct r as [|h t]; [done|]. cbn [opcode_head].
  destruct (render_record_inv w commands errs h t HFr Hr Hinv) as (w1 & -> & Hm).
  destruct (record_meaning cap (canvas_id w) (h :: t)) as [[cur cs] es].
  destruct Hm as [<- Hinv1]. cbn [mbind outcome_bind].
  destruct (IH w1 _ _ HF Hinv1) as (w' & Hw & Hinv').
  exists w'. split; [done|]. destruct (meaning cap (canvas_id w1) rs) as [cs' es'].
  cbn [fst snd] in *. by rewrite !app_assoc.
Qed.

End Invariant.

(** ** Any sink gets the recorded calls *)

Section AnySink.
Context {T : Type} {HC : GlDecodeContext T} {HS : RenderSink T}.
Variable t0 : T.
(** A stream does not change what the host is capturing. *)
Hypothesis captures_stable : ∀ t ev id,
  transform_feedback_captures (play t ev) id = transform_feedback_captures t id.

Definition captures0 : Z → bool := transform_feedback_captures t0.

(** The walk of the trace, on the sink. *)
Definition on_sink (w : Walk (T := Trace captures0)) : Walk (T := T) :=
  {| target := fold_left play (target w) t0; decoded := decoded w; gl := gl w;
     gl_bytes := gl_bytes w; canvas := canvas w; canvas_id := canvas_id w;
     pending_materialize := pending_materialize w |}.

Lemma captures_sink tr id :
  transform_feedback_captures (fold_left play tr t0) id = captures0 id.
Proof.
  induction tr as [|ev tr IH] using rev_ind; [done|].
  rewrite fold_left_app. cbn [fold_left]. by rewrite captures_stable.
Qed.

Lemma play_snoc tr ev : fold_left play (tr ++ [ev]) t0 = play (fold_left play tr t0) ev.
Proof. by rewrite fold_left_app. Qed.

Lemma on_sink_flush_canvas w : flush_canvas (on_sink w) = on_sink (flush_canvas w).
Proof.
  destruct w as [tr n g gb c cid pm]. unfold flush_canvas, on_sink. walk_fields.
  destruct c; walk_fields; [done|]. by rewrite play_snoc.
Qed.

Lemma on_sink_flush_gl w : flush_gl (on_sink w) = on_sink (flush_gl w).
Proof.
  destruct w as [tr n g gb c cid pm]. unfold flush_gl, on_sink. walk_fields.
  destruct g; walk_fields; [done|]. by rewrite play_snoc.
Qed.

Lemma play_materialize ids : ∀ t,
  fold_left play (map EvMaterialize ids) t = fold_left materialize ids t.
Proof. induction ids as [|id ids IH]; intros t; cbn [fold_left map]; [done|]. by rewrite IH. Qed.

Lemma on_sink_drain w : drain_materialize (on_sink w) = on_sink (drain_materialize w).
Proof.
  destruct w as [tr n g gb c cid pm]. unfold drain_materialize, on_sink. walk_fields.
  by rewrite fold_materialize, fold_left_app, play_materialize.
Qed.

Lemma on_sink_error w id code :
  set_target (on_sink w) (push_error (target (on_sink w)) id code) =
  on_sink (set_target w (push_error (target w) id code)).
Proof.
  destruct w as [tr n g gb c cid pm]. unfold set_target, on_sink. walk_fields.
  by rewrite play_snoc.
Qed.

Lemma on_sink_record w op record :
  render_record (on_sink w) op record =
  (w ← render_record w op record; mret (on_sink w)).
Proof.
  unfold render_record. destruct (op =? OP2D_SELECT_CANVAS).
  { rewrite on_sink_flush_canvas. unfold idx.
    destruct (record !! Z.to_nat 1); cbn [mbind outcome_bind]; done. }
  destruct (OP2D_BASE <=? op).
  { change (canvas_id (on_sink w)) with (canvas_id w).
    destruct (canvas_id w); [|by rewrite on_sink_error].
    rewrite on_sink_flush_gl.
    destruct (canvas2d_decode_record op record) as [[command|]| | |]; done. }
  rewrite on_sink_flush_canvas, on_sink_drain.
  set (w' := drain_materialize (flush_canvas w)). clearbody w'. clear w.
  pose proof (decode_record_alike (target (on_sink w')) (target w') (captures_sink (target w')) op record)
    as Ha. unfold alike in Ha.
  destruct (decode_record (target (on_sink w')) op record) as [[[c1|] x1]| | |],
    (decode_record (target w') op record) as [[[c2|] x2]| | |]; try done; cbn [mbind outcome_bind].
  - destruct Ha as (-> & -> & ->). done.
  - destruct Ha as (id & code & -> & ->). unfold mret, outcome_ret. by rewrite on_sink_error.
Qed.

Lemma on_sink_loop fuel ws cursor w :
  render_loop fuel ws cursor (on_sink w) =
  (w ← render_loop fuel ws cursor w; mret (on_sink w)).
Proof.
  revert cursor w. induction fuel as [|fuel IH]; intros cursor w; cbn [render_loop];
    destruct (lenZ ws <=? cursor); try done.
  destruct (idx ws cursor) as [h| | |]; cbn [mbind outcome_bind]; try done.
  destruct (slice ws cursor _) as [r| | |]; cbn [mbind outcome_bind]; try done.
  rewrite on_sink_record.
  destruct (render_record w (opcode_of h) r) as [w1| | |]; cbn [mbind outcome_bind]; try done.
  apply IH.
Qed.

Lemma decode_into_on_sink v :
  decode_render_stream_into t0 v =
  (r ← decode_render_stream_into ([] : Trace captures0) v;
   mret (fst r, fold_left play (snd r) t0)).
Proof.
  unfold decode_render_stream_into.
  change (walk_start t0) with (on_sink (walk_start ([] : Trace captures0))).
  rewrite on_sink_loop.
  destruct (render_loop _ _ _ _) as [w| | |]; cbn [mbind outcome_bind]; try done.
  unfold mret, outcome_ret. cbn [mbind outcome_bind].
  by rewrite on_sink_flush_canvas, on_sink_flush_gl, on_sink_drain.
Qed.

End AnySink.

(** ** The trace of an accepted stream *)

(** What the walk over a run of well-formed records comes to. *)
Lemma decode_into_meaning cap v rs :
  Forall (Forall is_u32) rs → Forall record_wf rs → words v = stream_of rs →
  ∃ tr, decode_render_stream_into ([] : Trace cap) v = Ret (lenZ (delivered tr), tr) ∧
    delivered tr = fst (meaning cap None rs) ∧ errors tr = snd (meaning cap None rs) ∧
    barrier [] tr = Some [] ∧ Forall event_ok tr.
Proof.
  intros HF Hrs Hv. rewrite (decode_into_run _ v rs Hrs Hv).
  destruct (run_inv cap (walk_start ([] : Trace cap)) [] [] rs HF Hrs (inv_start cap)) as (w & -> & Hinv).
  cbn [mbind outcome_bind app] in *. change (canvas_id (walk_start _)) with (@None Z) in Hinv.
  apply flush_canvas_inv in Hinv as (Hinv & Hc & _).
  apply flush_gl_inv in Hinv as (Hinv & Hg & _ & Hc'). rewrite Hc in Hc'.
  set (w1 := flush_gl (flush_canvas w)) in *. clearbody w1. clear w Hc.
  apply drain_inv in Hinv. set (w2 := drain_materialize w1) in *.
  assert (delivered (target w2) = fst (meaning cap None rs)) as Hd.
  { destruct Hinv. rewrite <- inv_delivered0.
    change (canvas w2) with (canvas w1). change (gl w2) with (gl w1).
    rewrite Hc', Hg. cbn [map]. by rewrite !app_nil_r. }
  exists (target w2). destruct Hinv. split_and!; try done.
  by rewrite inv_decoded0, Hd.
Qed.

Lemma stream_of_words_u32 rs :
  Forall is_u32 (stream_of rs) → Forall (Forall is_u32) rs.
Proof.
  unfold stream_of. intros HF. apply Forall_cons in HF as [_ HF]. apply Forall_cons in HF as [_ HF].
  induction rs as [|r rs IH]; [constructor|]. cbn [concat] in HF. apply Forall_app in HF as [??].
  constructor; auto.
Qed.

(** The records of an accepted stream. *)
Lemma accepted_records ws used v :
  Forall is_u32 ws → validate_stream ws used = Ret v →
  ∃ rs, words v = stream_of rs ∧ Forall record_wf rs ∧ Forall (Forall is_u32) rs.
Proof.
  intros HF Hv. destruct (validate_stream_inv ws used v HF Hv) as (rs & Hrs & Hw & Ht & _).
  exists rs. split_and!; [done|done|]. apply stream_of_words_u32. rewrite <- Hw, Ht. by apply Forall_take.
Qed.

(** ** The frame operations *)

(** A frame operation as a call of the sink, and back. *)
Definition op_event (op : FrameOp) : option sink_event :=
  match op with
  | CanvasBatch payload => Some (EvCanvas (cb_canvas_id payload) (cb_commands payload))
  | GlBatch commands => Some (EvGl commands (batch_bytes commands))
  | Materialize id => Some (EvMaterialize id)
  | BeginFrame | Present => None
  end.

Definition event_op (ev : sink_event) : option FrameOp :=
  match ev with
  | EvCanvas id commands =>
      Some (CanvasBatch {| cb_canvas_id := id; cb_commands := commands;
                           cb_present := false; cb_dirty_rect := None |})
  | EvGl commands _ => Some (GlBatch commands)
  | EvMaterialize id => Some (Materialize id)
  | EvError _ _ => None
  end.

(** An operation the decoder emits: a batch that is not empty and carries no
    presentation of its own, or a barrier. *)
Definition op_ok (op : FrameOp) : Prop :=
  match op with
  | CanvasBatch payload =>
      cb_commands payload ≠ [] ∧ cb_present payload = false ∧ cb_dirty_rect payload = None
  | GlBatch commands => commands ≠ []
  | Materialize _ => True
  | BeginFrame | Present => False
  end.

Definition push_errors {H} {HC : GlDecodeContext H} (ctx : H) (errs : list (Z * Z)) : H :=
  fold_left (λ ctx '(id, code), push_error ctx id code) errs ctx.

Lemma play_frame_ops {H} {HC : GlDecodeContext H} tr : ∀ s : FrameOpSink H,
  fold_left play tr s =
  {| context := push_errors (context s) (errors tr); out := out s ++ omap event_op tr |}.
Proof.
  induction tr as [|ev tr IH]; intros [c o]; cbn [fold_left].
  { cbn. by rewrite app_nil_r. }
  rewrite IH. destruct ev; cbn; rewrite <- ?app_assoc; done.
Qed.

(** Nothing but the errors is lost on the way. *)
Lemma frame_ops_view tr : Forall event_ok tr →
  delivered (omap op_event (omap event_op tr)) = delivered tr ∧
  (∀ open, barrier open (omap op_event (omap event_op tr)) = barrier open tr) ∧
  Forall op_ok (omap event_op tr).
Proof.
  induction 1 as [|ev tr Hev _ (IHd & IHb & IHo)]; [by repeat constructor|].
  destruct ev as [id cs|cs bytes|id|id code]; cbn -[barrier_event].
  - split_and!; [|intros open|constructor; done].
    + unfold delivered in *. by rewrite IHd.
    + cbn. apply IHb.
  - destruct Hev as [? ->]. split_and!; [|intros open|by constructor].
    + unfold delivered in *. by rewrite IHd.
    + cbn. destruct open; [apply IHb|done].
  - split_and!; [done|intros open|by constructor]. cbn. by destruct (existsb _ open).
  - split_and!; [done| |done]. intros open. cbn. apply IHb.
Qed.

(** ** The WebGL-only view *)

(** The frame operations of a run of records, for any host. *)
Lemma decode_render_stream_meaning {H} {HC : GlDecodeContext H} (ctx : H) ops v rs :
  (∀ (ctx : H) id code j,
     transform_feedback_captures (push_error ctx id code) j = transform_feedback_captures ctx j) →
  Forall (Forall is_u32) rs → Forall record_wf rs → words v = stream_of rs →
  ∃ new,
    let '(commands, errs) := meaning (transform_feedback_captures ctx) None rs in
    decode_render_stream ctx v ops = Ret (lenZ commands, push_errors ctx errs, ops ++ new) ∧
    delivered (omap op_event new) = commands ∧
    barrier [] (omap op_event new) = Some [] ∧
    Forall op_ok new.
Proof.
  intros captures_stable HF Hrs Hw.
  set (cap := transform_feedback_captures ctx).
  destruct (decode_into_meaning cap v rs HF Hrs Hw) as (tr & Hd & Hdel & Herr & Hb & Hok).
  destruct (frame_ops_view tr Hok) as (Vd & Vb & Vo). exists (omap event_op tr).
  destruct (meaning cap None rs) as [commands errs]. cbn [fst snd] in *.
  rewrite Vd, Vb. split_and!; try done.
  unfold decode_render_stream. rewrite decode_into_on_sink.
  - change (captures0 {| context := ctx; out := ops |}) with cap. rewrite Hd.
    unfold mret, outcome_ret. cbn [mbind outcome_bind fst snd].
    by rewrite play_frame_ops, Hdel, Herr.
  - intros [c o] [] j; cbn; auto.
Qed.

Section GlOnly.
Context {H : Type} {HC : GlDecodeContext H}.

Definition gl_step (s : H * list GLCmd * Z) (opcode : Z) (record : list Z) :
    result (H * list GLCmd * Z) :=
  let '(ctx, out, bytes) := s in
  r ← decode_record ctx opcode record;
  match r with
  | (Some cmd, ctx) => mret (ctx, out ++ [cmd], u64_saturating_add bytes (cmd_approx_bytes cmd))
  | (None, ctx) => mret (ctx, out, bytes)
  end.

Lemma decode_loop_run fuel p rs (ctx : H) out bytes :
  Forall record_wf rs → (length (concat rs) ≤ fuel)%nat →
  decode_loop fuel ctx (p ++ concat rs) (lenZ p) out bytes = run gl_step (ctx, out, bytes) rs.
Proof.
  intros Hrs. revert p fuel ctx out bytes.
  induction Hrs as [|r rs Hr Hrs IH]; intros p fuel ctx out bytes Hf.
  { cbn [concat]. rewrite app_nil_r. destruct fuel; cbn [decode_loop];
      by rewrite (proj2 (Z.leb_le _ _)) by lia. }
  pose proof (record_wf_nonempty r Hr). cbn [concat] in *. rewrite length_app in Hf.
  destruct fuel as [|fuel]; [lia|]. cbn [decode_loop run].
  rewrite (proj2 (Z.leb_gt _ _)) by (rewrite !length_app; lia).
  destruct (read_record p r (concat rs) Hr) as (h & t & -> & Hi & Hsl & Hwc).
  rewrite Hi. cbn [mbind outcome_bind]. rewrite Hsl. cbn [mbind outcome_bind opcode_head gl_step].
  rewrite Hwc, app_assoc.
  replace (lenZ p + lenZ (h :: t)) with (lenZ (p ++ h :: t)) by (rewrite length_app; lia).
  destruct (decode_record ctx (opcode_of h) (h :: t)) as [[[cmd|] ctx']| | |];
    cbn [mbind outcome_bind]; try done; apply IH; lia.
Qed.

Lemma decode_validated_run ctx v out rs :
  Forall record_wf rs → words v = stream_of rs →
  decode_validated_stream ctx v out = run gl_step (ctx, out, 0) rs.
Proof.
  intros Hrs Hv. unfold decode_validated_stream. rewrite Hv.
  change (stream_of rs) with ([MAGIC; STREAM_VERSION] ++ concat rs) at 2.
  change 2 with (lenZ [MAGIC; STREAM_VERSION]). apply decode_loop_run; [done|].
  unfold stream_of. cbn [length]. lia.
Qed.

(** The mixed walk, as long as it has met WebGL records only. *)
Definition gl_walk (ctx : H) (ops : list FrameOp) (cmds : list GLCmd) :
    Walk (T := FrameOpSink H) :=
  {| target := {| context := ctx; out := ops |}; decoded := lenZ cmds; gl := cmds;
     gl_bytes := batch_bytes cmds; canvas := []; canvas_id := None; pending_materialize := [] |}.

Lemma gl_walk_push ctx ops cmds cmd :
  push_gl (set_target (gl_walk ctx ops cmds) {| context := ctx; out := ops |}) cmd =
  gl_walk ctx ops (cmds ++ [cmd]).
Proof.
  unfold gl_walk, push_gl, set_target. walk_fields.
  rewrite batch_bytes_snoc, length_app. cbn [length]. f_equal. lia.
Qed.

Lemma gl_only_run ops out rs : ∀ ctx cmds,
  Forall (Forall is_u32) rs → Forall record_wf rs →
  Forall (λ r, opcode_head r < OP2D_BASE) rs →
  ∃ ctx' cmds',
    run gl_step (ctx, out ++ cmds, batch_bytes cmds) rs = Ret (ctx', out ++ cmds', batch_bytes cmds') ∧
    run render_record (gl_walk ctx ops cmds) rs = Ret (gl_walk ctx' ops cmds').
Proof.
  induction rs as [|r rs IH]; intros ctx cmds HF Hwf Hgl; cbn [run]; [eauto|].
  apply Forall_cons in HF as [HFr HF], Hwf as [Hr Hwf], Hgl as [Hlt Hgl].
  destruct r as [|h t]; [done|]. cbn [opcode_head] in *.
  destruct (record_wf_gl h t Hr Hlt) as (spec & Hs & Hsh).
  pose proof (decode_record_decodes ctx _ _ _ Hs Hsh HFr) as Hd.
  pose proof (decode_record_alike ctx {| context := ctx; out := ops |} (λ _, eq_refl) (opcode_of h) (h :: t))
    as Ha.
  unfold render_record.
  rewrite (proj2 (Z.eqb_neq _ OP2D_SELECT_CANVAS)) by (unfold OP2D_SELECT_CANVAS, OP2D_BASE in *; lia).
  rewrite (proj2 (Z.leb_gt _ _)) by done. cbn [gl_step].
  change (drain_materialize (flush_canvas (gl_walk ctx ops cmds))) with (gl_walk ctx ops cmds).
  change (target (gl_walk ctx ops cmds)) with {| context := ctx; out := ops |}.
  destruct Hd as [(cmd & Hd & _)|(id & code & _ & _ & Hd)]; rewrite Hd in Ha |- *; unfold alike in Ha;
    destruct (decode_record {| context := ctx; out := ops |} _ _) as [[[c|] x]| | |]; try done;
    cbn [mbind outcome_bind].
  - destruct Ha as (<- & _ & ->). destruct (IH ctx (cmds ++ [cmd])) as (ctx' & cmds' & H1 & H2); [done..|].
    exists ctx', cmds'. rewrite batch_bytes_snoc, app_assoc in H1. split; [done|].
    rewrite <- (gl_walk_push ctx ops cmds cmd) in H2. apply H2.
  - destruct Ha as (j & k & Hj & ->). rewrite Hj. apply IH; done.
Qed.

Lemma decode_record_canvas2d (ctx : H) op record :
  OP2D_BASE ≤ op → decode_record ctx op record = Panic.
Proof.
  intros Hge. unfold decode_record. destruct (match_arms decode_arms op) as [arm|] eqn:E; [|done].
  exfalso. apply match_arms_in in E.
  assert (Forall (λ o, o < OP2D_BASE) (map fst (decode_arms (H := H)))) as Hall.
  { assert (map fst (decode_arms (H := H)) = map fst gl_arms) as -> by reflexivity.
    apply (bool_decide_unpack _). by vm_compute. }
  rewrite Forall_forall in Hall. specialize (Hall op).
  assert (op < OP2D_BASE); [|lia]. apply Hall. apply list_elem_of_fmap. by exists (op, arm).
Qed.

Lemma gl_run_panics rs : ∀ s,
  Forall (Forall is_u32) rs → Forall record_wf rs →
  ¬ Forall (λ r, opcode_head r < OP2D_BASE) rs → run gl_step s rs = Panic.
Proof.
  induction rs as [|r rs IH]; intros [[ctx out] bytes] HF Hwf Hno; [by destruct Hno|].
  cbn [run]. apply Forall_cons in HF as [HFr HF], Hwf as [Hr Hwf].
  destruct r as [|h t]; [done|]. cbn [opcode_head gl_step] in *.
  destruct (Z.lt_ge_cases (opcode_of h) OP2D_BASE) as [Hlt|Hge]; [|by rewrite decode_record_canvas2d].
  destruct (record_wf_gl h t Hr Hlt) as (spec & Hs & Hsh).
  rewrite Forall_cons in Hno. cbn [opcode_head] in Hno.
  destruct (decode_record_decodes ctx _ _ _ Hs Hsh HFr) as [(cmd & -> & _)|(id & code & _ & _ & ->)];
    cbn [mbind outcome_bind]; apply IH; tauto.
Qed.

End GlOnly.

(** * Properties *)

(** C6: the mixed stream keeps its order.  On every stream pass one accepts,
    [decode_render_stream_into] ends without a panic, and what its sink is given
    is the commands of the records, one by one and in record order, each 2D one
    on the canvas selected for it, with the errors of the records that have
    none; no batch is empty, and each WebGL batch comes with its size. *)
Theorem render_stream_meaning (cap : Z → bool) (ws : list Z) (used : Z) (v : ValidatedStream)
    (Hws : Forall is_u32 ws) (Hv : validate_stream ws used = Ret v) :
  ∃ records tr, words v = stream_of records ∧ Forall record_wf records ∧
    decode_render_stream_into ([] : Trace cap) v = Ret (lenZ (delivered tr), tr) ∧
    delivered tr = fst (meaning cap None records) ∧
    errors tr = snd (meaning cap None records) ∧
    Forall event_ok tr.
Proof.
  destruct (accepted_records ws used v Hws Hv) as (rs & Hw & Hrs & HF).
  destruct (decode_into_meaning cap v rs HF Hrs Hw) as (tr & ? & ? & ? & _ & ?). eauto 10.
Qed.

(** C16: the barrier.  On every stream pass one accepts, whenever a WebGL batch
    is given to the sink, every canvas that was given 2D work before has been
    materialized since; a canvas is materialized only when it has such work; and
    at the end none is left. *)
Theorem render_stream_barrier (cap : Z → bool) (ws : list Z) (used : Z) (v : ValidatedStream)
    (Hws : Forall is_u32 ws) (Hv : validate_stream ws used = Ret v) :
  ∃ n tr, decode_render_stream_into ([] : Trace cap) v = Ret (n, tr) ∧
    barrier [] tr = Some [].
Proof.
  destruct (accepted_records ws used v Hws Hv) as (rs & Hw & Hrs & HF).
  destruct (decode_into_meaning cap v rs HF Hrs Hw) as (tr & ? & ? & ? & ? & ?). eauto.
Qed.

(** Every sink gets the same calls.  The order lives once: whatever the
    host and the sink, on any words at all, the decode comes to what it comes to
    on the recording sink (the same count, the same panic), and the sink has
    been given exactly the recorded calls in their order. *)
Theorem sink_sees_trace {T} {HC : GlDecodeContext T} {HS : RenderSink T} (t : T)
    (captures_stable : ∀ t ev id,
       transform_feedback_captures (play t ev) id = transform_feedback_captures t id)
    (v : ValidatedStream) :
  decode_render_stream_into t v =
  (r ← decode_render_stream_into ([] : Trace (transform_feedback_captures t)) v;
   mret (fst r, fold_left play (snd r) t)).
Proof. by apply (decode_into_on_sink t). Qed.

(** C30: the frame operations of an accepted stream.  [decode_render_stream]
    appends to the operations it was given, pushes the errors of the records to
    the host, answers the number of commands, and the operations it appends are
    nothing but non-empty batches and barriers that carry the commands of the
    records in order and leave no canvas unmaterialized before a WebGL batch or
    at the end. *)
Theorem frame_ops_meaning {H} {HC : GlDecodeContext H}
    (captures_stable : ∀ (ctx : H) id code j,
       transform_feedback_captures (push_error ctx id code) j = transform_feedback_captures ctx j)
    (ctx : H) (ops : list FrameOp) (ws : list Z) (used : Z) (v : ValidatedStream)
    (Hws : Forall is_u32 ws) (Hv : validate_stream ws used = Ret v) :
  ∃ records new,
    words v = stream_of records ∧ Forall record_wf records ∧
    let '(commands, errs) := meaning (transform_feedback_captures ctx) None records in
    decode_render_stream ctx v ops = Ret (lenZ commands, push_errors ctx errs, ops ++ new) ∧
    delivered (omap op_event new) = commands ∧
    barrier [] (omap op_event new) = Some [] ∧
    Forall op_ok new.
Proof.
  destruct (accepted_records ws used v Hws Hv) as (rs & Hw & Hrs & HF).
  destruct (decode_render_stream_meaning ctx ops v rs captures_stable HF Hrs Hw) as (new & H1).
  exists rs, new. split; [done|]. split; [done|]. exact H1.
Qed.

(** The two views agree.  On an accepted stream of WebGL records alone, for
    every host, [decode_validated_stream] appends the very commands
    [decode_render_stream] puts in its one batch, with the same host left behind
    and the size of that batch; on an accepted stream that has a 2D record, which
    only the mixed decode knows, it reaches the [debug_assert]. *)
Theorem gl_only_view_agrees {H} {HC : GlDecodeContext H} (ctx : H) (cmds0 : list GLCmd)
    (ops : list FrameOp) (ws : list Z) (used : Z) (v : ValidatedStream)
    (Hws : Forall is_u32 ws) (Hv : validate_stream ws used = Ret v) :
  ∃ records, words v = stream_of records ∧ Forall record_wf records ∧
    (Forall (λ r, opcode_head r < OP2D_BASE) records → ∃ ctx' cmds,
       decode_validated_stream ctx v cmds0 = Ret (ctx', cmds0 ++ cmds, batch_bytes cmds) ∧
       decode_render_stream ctx v ops =
         Ret (lenZ cmds, ctx', ops ++ (if cmds is [] then [] else [GlBatch cmds]))) ∧
    (¬ Forall (λ r, opcode_head r < OP2D_BASE) records →
       decode_validated_stream ctx v cmds0 = Panic).
Proof.
  destruct (accepted_records ws used v Hws Hv) as (rs & Hw & Hrs & HF).
  exists rs. split; [done|]. split; [done|]. rewrite (decode_validated_run ctx v cmds0 rs) by done.
  split; [|by apply gl_run_panics]. intros Hgl.
  destruct (gl_only_run ops cmds0 rs ctx [] HF Hrs Hgl) as (ctx' & cmds & H1 & H2).
  rewrite app_nil_r in H1. exists ctx', cmds. split; [exact H1|].
  unfold decode_render_stream. rewrite (decode_into_run _ v rs Hrs Hw).
  change (walk_start {| context := ctx; out := ops |}) with (gl_walk ctx ops []).
  rewrite H2. unfold mret, outcome_ret. cbn [mbind outcome_bind].
  destruct cmds; cbn; [by rewrite app_nil_r|done].
Qed.

End Size.

(** ** A concrete size, and a stream: 2D on canvas 7, WebGL over it, 2D on 8 *)

#[local] Instance sample_size : CommandSize.
Proof.
  refine {| size_of_GLCmd := 96; values_capacity := λ n, Z.max n 16 |}; lia.
Defined.

Definition mixed_records : list (list Z) := [
  [pack_header OP2D_BEGIN_PATH 1];
  [pack_header OP2D_SELECT_CANVAS 2; 7];
  [pack_header OP2D_BEGIN_PATH 1];
  [pack_header OP2D_ROTATE 2; 0];
  [pack_header OP_CLEAR 3; 1; 16384];
  [pack_header OP2D_SELECT_CANVAS 2; 8];
  [pack_header OP2D_BEGIN_PATH 1]].

Definition mixed_stream : ValidatedStream := {| words := stream_of mixed_records |}.

Definition gl_stream : ValidatedStream :=
  {| words := stream_of [[pack_header OP_CLEAR 3; 1; 16384]] |}.

Lemma mixed_words : Forall is_u32 (words mixed_stream).
Proof. apply (bool_decide_unpack _). by vm_compute. Defined.
Lemma gl_words : Forall is_u32 (words gl_stream).
Proof. apply (bool_decide_unpack _). by vm_compute. Defined.

(** What the recording sink is given. *)
Example mixed_trace :
  decode_render_stream_into ([] : Trace (λ _, false)) mixed_stream =
  Ret (4, [EvError 0 INVALID_OPERATION;
           EvCanvas 7 [BeginPath; Rotate (from_bits 0)]; EvMaterialize 7;
           EvGl [Clear 1 16384] 96;
           EvCanvas 8 [BeginPath]; EvMaterialize 8]).
Proof. by vm_compute. Qed.

Lemma render_stream_meaning_witness :
  ∃ records tr, words mixed_stream = stream_of records ∧ Forall record_wf records ∧
    decode_render_stream_into ([] : Trace (λ _, false)) mixed_stream = Ret (lenZ (delivered tr), tr) ∧
    delivered tr = fst (meaning (λ _, false) None records) ∧
    errors tr = snd (meaning (λ _, false) None records) ∧ Forall event_ok tr.
Proof.
  apply (render_stream_meaning (λ _, false) (words mixed_stream) 14 mixed_stream mixed_words).
  by vm_compute.
Defined.

Lemma render_stream_barrier_witness :
  ∃ n tr, decode_render_stream_into ([] : Trace (λ _, false)) mixed_stream = Ret (n, tr) ∧
    barrier [] tr = Some [].
Proof.
  apply (render_stream_barrier (λ _, false) (words mixed_stream) 14 mixed_stream mixed_words).
  by vm_compute.
Defined.

Definition sample_sink : FrameOpSink ErrorLog := {| context := []; out := [] |}.

Lemma sink_sees_trace_witness :
  decode_render_stream_into sample_sink mixed_stream =
  (r ← decode_render_stream_into ([] : Trace (transform_feedback_captures sample_sink)) mixed_stream;
   mret (fst r, fold_left play (snd r) sample_sink)).
Proof. refine (sink_sees_trace sample_sink _ mixed_stream). by intros t [] j. Defined.

Lemma frame_ops_meaning_witness :
  ∃ records new, words mixed_stream = stream_of records ∧
    let '(commands, errs) := meaning (λ _, false) None records in
    decode_render_stream ([] : ErrorLog) mixed_stream [BeginFrame] =
      Ret (lenZ commands, push_errors ([] : ErrorLog) errs, BeginFrame :: new) ∧
    barrier [] (omap op_event new) = Some [].
Proof.
  destruct (frame_ops_meaning (HC := error_log) (λ _ _ _ _, eq_refl) [] [BeginFrame]
    (words mixed_stream) 14 mixed_stream mixed_words) as (rs & new & Hw & _ & H).
  - by vm_compute.
  - exists rs, new. split; [exact Hw|]. cbn [transform_feedback_captures error_log] in H.
    destruct (meaning _ None rs) as [cs es]. destruct H as (H1 & _ & H2 & _). by split.
Defined.

Lemma gl_only_view_agrees_witness :
  (∃ records, words gl_stream = stream_of records ∧ Forall record_wf records ∧
    (Forall (λ r, opcode_head r < OP2D_BASE) records → ∃ ctx' cmds,
       decode_validated_stream ([] : ErrorLog) gl_stream [] = Ret (ctx', cmds, batch_bytes cmds))).
Proof.
  destruct (gl_only_view_agrees ([] : ErrorLog) [] [] (words gl_stream) 5 gl_stream gl_words)
    as (rs & Hw & Hrs & H & _); [by vm_compute|].
  exists rs. split; [exact Hw|]. split; [exact Hrs|]. intros Hgl.
  destruct (H Hgl) as (ctx' & cmds & H1 & _). by exists ctx', cmds.
Defined.
