(* ===== verification/Clock.v ===== *)
(** The frame clocks: what rate may be asked for
    ([engine/crates/shared/src/frame_rate.rs]) and the engine-paced clock with
    the predicates that arm it ([engine/crates/graphics/src/frame_scheduler.rs]).

    An [Instant] is its number of nanoseconds, without the bound of the
    platform's clock; a [Duration] is its number of nanoseconds. *)
From S2P Require Import Prelude.

(** * Rates *)

Definition MIN_FPS : Z := 1.
Definition MAX_FPS : Z := 240.
Definition DEFAULT_FPS : Z := 60.

Definition clamp_fps (fps : Z) : Z := Z.max MIN_FPS (Z.min fps MAX_FPS).

(** * Demand *)

Definition raf_demand_remains (waiter_pending dirty upload_work recovery_pending : bool) : bool :=
  waiter_pending || dirty || upload_work || recovery_pending.

Definition should_arm_one_shot
    (has_vsync arm_available paused can_present demand_remains already_armed : bool) : bool :=
  has_vsync && arm_available && negb paused && can_present && demand_remains && negb already_armed.

Definition outstanding_upload_work (pending deferred in_flight : Z) : bool :=
  (0 <? pending) || (0 <? deferred) || (0 <? in_flight).

Definition should_arm_engine_paced (paused demand_remains : bool) : bool :=
  negb paused && demand_remains.

(** * The engine-paced clock *)

Definition NANOS_PER_SEC : Z := 10 ^ 9.

Record SoftwareFrameClock := {
  interval : Z;
  armed_at : option Z;
  earliest_next : option Z
}.

(** [Duration::from_secs(1) / clamp_fps(fps)]. *)
Definition interval_for (fps : Z) : Z := NANOS_PER_SEC / clamp_fps fps.

Definition clock_new (fps : Z) : SoftwareFrameClock :=
  {| interval := interval_for fps; armed_at := None; earliest_next := None |}.

Definition set_fps (c : SoftwareFrameClock) (fps : Z) : SoftwareFrameClock :=
  {| interval := interval_for fps; armed_at := armed_at c; earliest_next := earliest_next c |}.

Definition arm (c : SoftwareFrameClock) (now : Z) : SoftwareFrameClock :=
  match armed_at c with
  | Some _ => c
  | None =>
      let at_ := match earliest_next c with
                 | Some slot => if now <? slot then slot else now
                 | None => now
                 end in
      {| interval := interval c; armed_at := Some at_; earliest_next := Some at_ |}
  end.

Definition stop (c : SoftwareFrameClock) : SoftwareFrameClock :=
  {| interval := interval c; armed_at := None; earliest_next := earliest_next c |}.

Definition deadline (c : SoftwareFrameClock) : option Z := armed_at c.

(** [%] panics on a zero interval; [as u64] wraps. *)
Definition on_frame_ran (c : SoftwareFrameClock) (ran_at : Z) : result SoftwareFrameClock :=
  let slot := default ran_at (earliest_next c) in
  if interval c =? 0 then Panic else
  let into_slot := Z.max 0 (ran_at - slot) mod interval c in
  mret {| interval := interval c; armed_at := None;
          earliest_next := Some (ran_at + interval c - into_slot mod 2 ^ 64) |}.

(** * Runs *)

(** A frame that ran: its deadline, when it ran, and the interval then. *)
Record frame_run := { fr_deadline : Z; fr_ran : Z; fr_interval : Z }.

(** What the render loop does with the clock.  [Wake now] is a wait that ends
    at [now]; the frame runs if its deadline has come ([RenderWait::next]). *)
Inductive clock_op := Arm (now : Z) | Stop | SetFps (fps : Z) | Wake (now : Z).

Definition clock_step (s : SoftwareFrameClock * list frame_run) (o : clock_op) :
    result (SoftwareFrameClock * list frame_run) :=
  let '(c, log) := s in
  match o with
  | Arm now => mret (arm c now, log)
  | Stop => mret (stop c, log)
  | SetFps fps => mret (set_fps c fps, log)
  | Wake now =>
      match deadline c with
      | Some d =>
          if d <=? now then
            c' ← on_frame_ran c now;
            mret (c', log ++ [{| fr_deadline := d; fr_ran := now; fr_interval := interval c |}])
          else mret s
      | None => mret s
      end
  end.

Fixpoint clock_run (s : SoftwareFrameClock * list frame_run) (os : list clock_op) :
    result (SoftwareFrameClock * list frame_run) :=
  match os with
  | [] => mret s
  | o :: os => s ← clock_step s o; clock_run s os
  end.

(** ** The specification *)

Definition op_time (o : clock_op) : option Z :=
  match o with Arm now | Wake now => Some now | Stop | SetFps _ => None end.

(** Time does not go back from [t]. *)
Fixpoint timed (t : Z) (os : list clock_op) : Prop :=
  match os with
  | [] => True
  | o :: os =>
      match op_time o with Some now => t ≤ now ∧ timed now os | None => timed t os end
  end.

(** Two frames one after the other: the second has a slot of its own, at least
    an interval later, and did not run before it. *)
Definition paced (f f' : frame_run) : Prop :=
  fr_deadline f + fr_interval f ≤ fr_deadline f' ∧ fr_ran f < fr_deadline f' ≤ fr_ran f'.

(** How often the loop asked for a frame, and the time it is after [os]. *)
Fixpoint arms (os : list clock_op) : Z :=
  match os with [] => 0 | Arm _ :: os => 1 + arms os | _ :: os => arms os end.

Fixpoint time_after (t : Z) (os : list clock_op) : Z :=
  match os with [] => t | o :: os => time_after (default t (op_time o)) os end.

Definition all_paced (log : list frame_run) : Prop :=
  ∀ i f f', log !! i = Some f → log !! S i = Some f' → paced f f'.

(** When the slot after the last frame starts, at the latest. *)
Definition next_slot (t : Z) (log : list frame_run) : Z :=
  match last log with Some f => Z.max t (fr_ran f + fr_interval f) | None => t end.

(** * Lemmas *)

Record clock_ok (t : Z) (s : SoftwareFrameClock * list frame_run) : Prop := {
  ck_interval : 0 < interval (fst s) < 2 ^ 64;
  ck_armed : ∀ d, armed_at (fst s) = Some d → earliest_next (fst s) = Some d;
  ck_next : ∀ f, last (snd s) = Some f → ∃ e, earliest_next (fst s) = Some e ∧
      fr_deadline f + fr_interval f ≤ e ∧ fr_ran f < e;
  ck_soon : ∀ e, earliest_next (fst s) = Some e → e ≤ next_slot t (snd s);
  ck_log : all_paced (snd s)
}.

Lemma interval_for_pos fps : 0 < interval_for fps < 2 ^ 64.
Proof.
  unfold interval_for, NANOS_PER_SEC, clamp_fps, MIN_FPS, MAX_FPS.
  set (f := Z.max 1 (Z.min fps 240)). assert (1 ≤ f ≤ 240) by lia.
  split; [apply Z.div_str_pos; lia|]. apply Z.div_lt_upper_bound; lia.
Qed.

Lemma next_slot_mono t t' log : t ≤ t' → next_slot t log ≤ next_slot t' log.
Proof. unfold next_slot. destruct (last log); lia. Qed.

Lemma clock_ok_later t t' s : t ≤ t' → clock_ok t s → clock_ok t' s.
Proof.
  intros Ht [Hi Ha Hn Hs Hl]. split; try done. intros e He.
  pose proof (Hs e He). pose proof (next_slot_mono t t' (snd s) Ht). lia.
Qed.

Lemma arm_ok t c log : clock_ok t (c, log) → clock_ok t (arm c t, log).
Proof.
  intros Hok. unfold arm. destruct (armed_at c) eqn:Ea; [done|].
  destruct Hok as [Hi Ha Hn Hs Hl]. cbn [fst snd] in *. split; cbn [fst snd interval armed_at earliest_next]; try done.
  - intros f Hf. destruct (Hn f Hf) as (e & -> & ? & ?). eexists. split; [done|].
    destruct (Z.ltb_spec t e); lia.
  - intros e [= <-]. destruct (earliest_next c) as [slot|] eqn:En.
    + pose proof (Hs _ eq_refl). destruct (Z.ltb_spec t slot); [done|].
      unfold next_slot in *. destruct (last log); lia.
    + unfold next_slot. destruct (last log); lia.
Qed.

Lemma all_paced_snoc log f :
  all_paced log → (∀ g, last log = Some g → paced g f) → all_paced (log ++ [f]).
Proof.
  intros Hl Hf i g g' Hg Hg'. apply lookup_app_Some in Hg' as [Hg'|[Hlen Hg']].
  - apply (Hl i); [|done]. rewrite lookup_app_l in Hg; [done|]. apply lookup_lt_Some in Hg'. lia.
  - apply list_lookup_singleton_Some in Hg' as [Hi <-].
    apply Hf. rewrite last_lookup. rewrite lookup_app_l in Hg by lia.
    by replace (pred (length log)) with i by lia.
Qed.

(** The slot after a frame: the first one on the grid that is not over. *)
Lemma frame_slot c ran d :
  0 < interval c < 2 ^ 64 → earliest_next c = Some d → d ≤ ran →
  ∃ e, on_frame_ran c ran =
      Ret {| interval := interval c; armed_at := None; earliest_next := Some e |} ∧
    d + interval c ≤ e ∧ ran < e ≤ ran + interval c ∧ (e - d) mod interval c = 0.
Proof.
  intros Hi Hd Hran. unfold on_frame_ran. rewrite Hd, (proj2 (Z.eqb_neq _ _)) by lia. cbn [default].
  change (id d) with d. rewrite Z.max_r by lia.
  pose proof (Z.mod_pos_bound (ran - d) (interval c) ltac:(lia)).
  pose proof (Z.div_mod (ran - d) (interval c) ltac:(lia)).
  pose proof (Z.div_pos (ran - d) (interval c) ltac:(lia) ltac:(lia)).
  rewrite (Z.mod_small _ (2 ^ 64)) by lia. eexists. split; [done|].
  set (q := (ran - d) / interval c) in *. set (m := (ran - d) mod interval c) in *.
  split; [nia|]. split; [lia|].
  replace (ran + interval c - m - d) with ((q + 1) * interval c) by lia. apply Z.mod_mul. lia.
Qed.

Lemma wake_ok t c log d :
  clock_ok t (c, log) → armed_at c = Some d → d ≤ t →
  ∃ c', on_frame_ran c t = Ret c' ∧ armed_at c' = None ∧
    clock_ok t (c', log ++ [{| fr_deadline := d; fr_ran := t; fr_interval := interval c |}]).
Proof.
  intros [Hi Ha Hn Hs Hl] Hd Ht. cbn [fst snd] in *.
  destruct (frame_slot c t d Hi (Ha d Hd) Ht) as (e & -> & ? & ? & _). eexists. split; [done|].
  split; [done|]. split; cbn [fst snd interval armed_at earliest_next]; try done.
  - intros f. rewrite last_snoc. intros [= <-]. exists e. split; [done|]. cbn [fr_deadline fr_ran fr_interval]. lia.
  - intros e' [= <-]. unfold next_slot. rewrite last_snoc. cbn [fr_ran fr_interval]. lia.
  - apply all_paced_snoc; [done|]. intros g Hg. destruct (Hn g Hg) as (e' & He' & ? & ?).
    rewrite (Ha d Hd) in He'. injection He' as <-. unfold paced. cbn [fr_deadline fr_ran fr_interval]. lia.
Qed.

Definition pending (c : SoftwareFrameClock) : Z := if armed_at c is Some _ then 1 else 0.

Lemma clock_step_ok t s o :
  clock_ok t s → match op_time o with Some now => t ≤ now | None => True end →
  ∃ s', clock_step s o = Ret s' ∧ clock_ok (default t (op_time o)) s' ∧
    lenZ (snd s') + pending (fst s') ≤ lenZ (snd s) + pending (fst s) + arms [o].
Proof.
  intros Hok Ht. destruct s as [c log]. destruct o as [now| |fps|now]; cbn [clock_step op_time default] in *.
  - eexists. split; [done|]. split; [by apply arm_ok, (clock_ok_later t)|].
    cbn [fst snd arms]. unfold pending, arm. destruct (armed_at c) eqn:E; cbn [armed_at]; rewrite ?E; lia.
  - eexists. split; [done|]. split; [|cbn [fst snd arms]; unfold pending, stop; cbn [armed_at]; destruct (armed_at c); lia].
    destruct Hok. by split.
  - eexists. split; [done|]. split; [|unfold pending; cbn [fst snd arms set_fps armed_at]; lia]. destruct Hok. split; try done.
    apply interval_for_pos.
  - unfold deadline. destruct (armed_at c) as [d|] eqn:Ea.
    2:{ eexists. split; [done|]. split; [by apply (clock_ok_later t)|cbn [arms]; lia]. }
    destruct (Z.leb_spec d now).
    2:{ eexists. split; [done|]. split; [by apply (clock_ok_later t)|cbn [arms]; lia]. }
    destruct (wake_ok now c log d) as (c' & -> & Hc' & Hok'); [by apply (clock_ok_later t)|done|done|].
    cbn [mbind outcome_bind]. eexists. split; [done|]. split; [done|].
    cbn [fst snd arms]. rewrite length_app. unfold pending. rewrite Ea, Hc'. cbn. lia.
Qed.

Lemma clock_run_ok os : ∀ t s,
  clock_ok t s → timed t os →
  ∃ s', clock_run s os = Ret s' ∧ clock_ok (time_after t os) s' ∧
    lenZ (snd s') + pending (fst s') ≤ lenZ (snd s) + pending (fst s) + arms os.
Proof.
  induction os as [|o os IH]; intros t s Hok Ht; cbn [clock_run time_after timed] in *.
  { exists s. split; [done|]. split; [done|cbn; lia]. }
  assert (match op_time o with Some now => t ≤ now | None => True end ∧
          timed (default t (op_time o)) os) as [Ho Hos] by by destruct (op_time o).
  destruct (clock_step_ok t s o Hok Ho) as (s1 & -> & Hok1 & Hn1). cbn [mbind outcome_bind].
  destruct (IH _ s1 Hok1 Hos) as (s2 & -> & Hok2 & Hn2). exists s2. split; [done|]. split; [done|].
  destruct o; cbn [arms] in *; lia.
Qed.

Lemma clock_new_ok t fps : clock_ok t (clock_new fps, []).
Proof. split; cbn; try done. apply interval_for_pos. Qed.

(** * Properties *)

(** The engine-paced clock never runs faster than it was asked to and never
    runs unasked.  Whatever rates are set and however arming, stopping and waking
    are interleaved, as long as time does not go back, no frame panics; each frame
    has a slot of its own, a whole interval after the one before, and runs in it
    or late; there are at most as many frames as requests for one; and a pending
    frame is due at once, or within an interval of the last one. *)
Theorem clock_paces (fps t : Z) (os : list clock_op) (Ht : timed t os) :
  ∃ c log, clock_run (clock_new fps, []) os = Ret (c, log) ∧
    all_paced log ∧
    lenZ log + (if deadline c is Some _ then 1 else 0) ≤ arms os ∧
    (∀ d, deadline c = Some d → d ≤ next_slot (time_after t os) log).
Proof.
  destruct (clock_run_ok os t _ (clock_new_ok t fps) Ht) as ([c log] & Hr & [Hi Ha Hn Hs Hl] & Hlen).
  cbn in *. exists c, log. split_and!; try done.
  intros d Hd. by apply Hs, Ha.
Qed.

(** Demand inside a slot waits for it; demand after an idle time does not. *)
Definition sample_clock_ops : list clock_op :=
  [Arm 0; Wake 3; Arm 2000000; Wake 9000000; Wake 16666670; SetFps 240; Arm 16666671; Stop;
   Arm 900000000; Wake 900000000].

Lemma clock_paces_witness :
  (∃ c, clock_run (clock_new 60, []) [Arm 0; Wake 3; Arm 2000000; Wake 9000000; Wake 16666670] =
     Ret (c, [{| fr_deadline := 0; fr_ran := 3; fr_interval := 16666666 |};
              {| fr_deadline := 16666666; fr_ran := 16666670; fr_interval := 16666666 |}])) ∧
  ∃ c log, clock_run (clock_new 60, []) sample_clock_ops = Ret (c, log) ∧ all_paced log.
Proof.
  split; [eexists; vm_compute; reflexivity|].
  destruct (clock_paces 60 0 sample_clock_ops) as (c & log & H1 & H2 & _); [cbn; lia|].
  exists c, log. split; [exact H1|exact H2].
Defined.
