(* ===== verification/Tickets.v ===== *)
(** The identities a session hands out and never hands out again: callback ids
    ([engine/crates/shared/src/callback_id.rs]), runtime generations
    ([engine/crates/core/src/runtime/restart_boundary.rs]) and the tickets of the
    frame demand latch ([engine/crates/shared/src/raf_signal.rs]).

    Each operation on one atomic is one step, so a run of operations in any
    order stands for every interleaving of the threads that call them. *)
From S2P Require Import Prelude.

(** * Callback ids *)

Module CallbackId.

(** [last_issued]. *)
Definition CallbackIdAllocator := Z.

Definition default_ : CallbackIdAllocator := 0.

(** [None] is [Err(CallbackIdExhausted)]; [as i32] is the identity below. *)
Definition allocate (last : CallbackIdAllocator) : option Z * CallbackIdAllocator :=
  if last <? i32_max then (Some (u32_as_i32 (last + 1)), last + 1) else (None, last).

Fixpoint allocate_many (last : CallbackIdAllocator) (n : nat) : list (option Z) :=
  match n with
  | O => []
  | S n => let '(id_, last) := allocate last in id_ :: allocate_many last n
  end.

Lemma allocate_many_spec n : ∀ k,
  (k ≤ Z.to_nat i32_max)%nat →
  allocate_many (Z.of_nat k) n =
  (λ i, if Z.of_nat i <? i32_max then Some (Z.of_nat i + 1) else None) <$> seq k n.
Proof.
  induction n as [|n IH]; intros k Hk; [done|]. cbn [allocate_many seq fmap list_fmap].
  unfold allocate. destruct (Z.ltb_spec (Z.of_nat k) i32_max) as [H|H].
  - f_equal.
    + f_equal. unfold u32_as_i32, i32_max in *. by rewrite (proj2 (Z.ltb_lt _ _)) by lia.
    + rewrite <- IH by lia. f_equal. lia.
  - f_equal. clear IH. assert (∀ m j, i32_max ≤ Z.of_nat j →
      allocate_many (Z.of_nat k) m =
      (λ i, if Z.of_nat i <? i32_max then Some (Z.of_nat i + 1) else None) <$> seq j m) as Hspent.
    { induction m as [|m IHm]; intros j Hj; [done|]. cbn [allocate_many seq fmap list_fmap].
      unfold allocate. rewrite !(proj2 (Z.ltb_ge _ _)) by lia. f_equal. apply IHm. lia. }
    apply Hspent. lia.
Qed.

End CallbackId.

(** * Runtime generations *)

Module Restart.

(** [current], an [AtomicI64]. *)
Definition RestartBoundary := Z.

Definition new : RestartBoundary := 1.

Inductive RestartError := Exhausted | NotSuccessor | LostRace (observed : Z).

#[global] Instance RestartError_eq_dec : EqDecision RestartError.
Proof. solve_decision. Defined.

Definition candidate_generation (current : RestartBoundary) : outcome RestartError Z :=
  if current + 1 <=? 2 ^ 63 - 1 then Ret (current + 1) else Fail Exhausted.

(** [retired + 1] is a plain addition. *)
Definition commit (current : RestartBoundary) (retired candidate : Z) :
    outcome RestartError unit * RestartBoundary :=
  if 2 ^ 63 - 1 <? retired + 1 then (Panic, current) else
  if negb (candidate =? retired + 1) then (Fail NotSuccessor, current) else
  if retired =? current then (Ret tt, candidate) else (Fail (LostRace current), current).

(** The committers of a session, in the order their exchanges take place:
    the candidates that became current, oldest first. *)
Fixpoint commits (current : RestartBoundary) (cs : list (Z * Z)) : RestartBoundary * list Z :=
  match cs with
  | [] => (current, [])
  | (retired, candidate) :: cs =>
      let '(answer, current) := commit current retired candidate in
      let '(last, won) := commits current cs in
      (last, match answer with Ret _ => candidate :: won | _ => won end)
  end.

Lemma commits_spec cs : ∀ current last_ won,
  commits current cs = (last_, won) →
  won = (λ i, current + 1 + Z.of_nat i) <$> seq 0 (length won) ∧ last_ = current + lenZ won.
Proof.
  induction cs as [|[retired candidate] cs IH]; intros current last_ won; cbn [commits].
  { intros [= <- <-]. split; [done|cbn; lia]. }
  destruct (commit current retired candidate) as [answer current'] eqn:Ec.
  destruct (commits current' cs) as [last' won'] eqn:E. intros [= <- <-].
  destruct (IH _ _ _ E) as [Hw Hl]. unfold commit in Ec.
  destruct (_ <? _); [by injection Ec as <- <-|].
  destruct (Z.eqb_spec candidate (retired + 1)); cbn [negb] in Ec; [|by injection Ec as <- <-].
  destruct (Z.eqb_spec retired current); injection Ec as <- <-; [|done]. subst.
  split; [|cbn [length]; lia]. cbn [length seq fmap list_fmap]. f_equal; [lia|].
  rewrite Hw at 1. rewrite <- fmap_S_seq, <- list_fmap_compose. apply list_fmap_ext. intros. cbn. lia.
Qed.

End Restart.

(** * Frame demand *)

Module Raf.

Record RafDemand := { next_ticket : Z; waiter_ticket : Z; session : Z }.

Definition new : RafDemand := {| next_ticket := 0; waiter_ticket := 0; session := 0 |}.

(** [fetch_add(1) + 1]: the atomic wraps, the plain addition does not. *)
Definition begin_session (d : RafDemand) : result (Z * RafDemand) :=
  ticket ← u64_add (next_ticket d) 1;
  mret (ticket, {| next_ticket := (next_ticket d + 1) mod 2 ^ 64; waiter_ticket := waiter_ticket d;
                   session := ticket |}).

Definition session_ticket (d : RafDemand) : result (Z * RafDemand) :=
  if negb (session d =? 0) then mret (session d, d) else begin_session d.

Definition mark_waiting (d : RafDemand) : result (Z * RafDemand) :=
  r ← session_ticket d;
  let '(ticket, d) := r in
  mret (ticket, {| next_ticket := next_ticket d; waiter_ticket := ticket; session := session d |}).

Definition is_waiting (d : RafDemand) : bool := negb (waiter_ticket d =? 0).

Definition take_waiter (d : RafDemand) : option Z * RafDemand :=
  (if waiter_ticket d =? 0 then None else Some (waiter_ticket d),
   {| next_ticket := next_ticket d; waiter_ticket := 0; session := session d |}).

Definition restore_waiter (d : RafDemand) (ticket : Z) : RafDemand :=
  if waiter_ticket d =? 0
  then {| next_ticket := next_ticket d; waiter_ticket := ticket; session := session d |} else d.

Definition frame_matches_ticket (delivered_ticket expected_ticket : Z) : bool :=
  expected_ticket <=? delivered_ticket.

(** What is done with a latch.  [Signal] is the render thread's signal, with the
    session's ticket; [Restore] puts back what the last take got. *)
Inductive demand_op := Begin | Mark | Take | Restore | Signal.

(** The latch, the tickets of the signals sent, newest first, the sessions
    begun, newest first, and the ticket the render thread holds. *)
Record history := {
  latch : RafDemand;
  signals : list Z;
  sessions : list Z;
  taken : option Z
}.

Definition demand_start : history := {| latch := new; signals := []; sessions := []; taken := None |}.

(** A session that begins lazily is a session begun. *)
Definition note_session (d d' : RafDemand) (ss : list Z) : list Z :=
  if session d =? session d' then ss else session d' :: ss.

Definition demand_step (h : history) (o : demand_op) : result history :=
  let d := latch h in
  match o with
  | Begin =>
      r ← begin_session d;
      mret {| latch := snd r; signals := signals h; sessions := fst r :: sessions h; taken := taken h |}
  | Mark =>
      r ← mark_waiting d;
      mret {| latch := snd r; signals := signals h; sessions := note_session d (snd r) (sessions h);
              taken := taken h |}
  | Take =>
      let '(t, d') := take_waiter d in
      mret {| latch := d'; signals := signals h; sessions := sessions h; taken := t |}
  | Restore =>
      mret {| latch := match taken h with Some t => restore_waiter d t | None => d end;
              signals := signals h; sessions := sessions h; taken := taken h |}
  | Signal =>
      r ← session_ticket d;
      mret {| latch := snd r; signals := fst r :: signals h;
              sessions := note_session d (snd r) (sessions h); taken := taken h |}
  end.

Fixpoint demand_run (h : history) (os : list demand_op) : result history :=
  match os with
  | [] => mret h
  | o :: os => h ← demand_step h o; demand_run h os
  end.

(** ** Lemmas *)

(** Sessions are numbered from one, and nothing names a session to come. *)
Record demand_ok (h : history) : Prop := {
  dk_next : next_ticket (latch h) = lenZ (sessions h);
  dk_session : session (latch h) = lenZ (sessions h);
  dk_sessions : ∀ i s, sessions h !! i = Some s → s = lenZ (sessions h) - Z.of_nat i;
  dk_waiter : 0 ≤ waiter_ticket (latch h) ≤ session (latch h);
  dk_signals : Forall (λ t, 0 < t ≤ session (latch h)) (signals h);
  dk_taken : ∀ t, taken h = Some t → 0 < t ≤ session (latch h)
}.

Lemma begin_spec d :
  0 ≤ next_ticket d < u64_max →
  begin_session d = Ret (next_ticket d + 1,
    {| next_ticket := next_ticket d + 1; waiter_ticket := waiter_ticket d; session := next_ticket d + 1 |}).
Proof.
  intros H. unfold begin_session, u64_add, u64_max in *.
  rewrite (proj2 (Z.leb_le _ _)) by lia. cbn [mbind outcome_bind]. by rewrite Z.mod_small by lia.
Qed.

(** The sessions after one more. *)
Lemma begun_ok h :
  demand_ok h →
  demand_ok {| latch := {| next_ticket := next_ticket (latch h) + 1; waiter_ticket := waiter_ticket (latch h);
                           session := next_ticket (latch h) + 1 |};
               signals := signals h; sessions := next_ticket (latch h) + 1 :: sessions h; taken := taken h |}.
Proof.
  intros [Hn Hs Hss Hw Hg Ht]. split; cbn [latch next_ticket session waiter_ticket sessions signals taken length].
  - lia.
  - lia.
  - intros [|i] s; cbn [lookup list_lookup]; [intros [= <-]; lia|]. intros Hi%Hss. lia.
  - lia.
  - eapply Forall_impl; [done|]. cbn. lia.
  - intros t Hk%Ht. lia.
Qed.

(** A ticket is the session's, begun on the way if there is none. *)
Lemma session_ticket_spec h :
  demand_ok h → lenZ (sessions h) < u64_max →
  ∃ d, session_ticket (latch h) = Ret (session d, d) ∧
    waiter_ticket d = waiter_ticket (latch h) ∧ 0 < session d ∧
    demand_ok {| latch := d; signals := signals h;
                 sessions := note_session (latch h) d (sessions h); taken := taken h |} ∧
    lenZ (note_session (latch h) d (sessions h)) ≤ lenZ (sessions h) + 1.
Proof.
  intros Hok Hlt. pose proof Hok as [Hn Hs _ _ _ _]. unfold session_ticket, note_session.
  destruct (Z.eqb_spec (session (latch h)) 0) as [H0|H0]; cbn [negb].
  - rewrite begin_spec by lia. eexists (Build_RafDemand _ _ _). split; [done|]. cbn [session waiter_ticket].
    rewrite (proj2 (Z.eqb_neq _ _)) by lia. split; [done|]. split; [lia|].
    split; [by apply begun_ok|cbn [length]; lia].
  - exists (latch h). rewrite Z.eqb_refl. split; [done|]. split; [done|]. split; [lia|].
    split; [by destruct h|lia].
Qed.

Lemma demand_step_ok h o :
  demand_ok h → lenZ (sessions h) < u64_max →
  ∃ h', demand_step h o = Ret h' ∧ demand_ok h' ∧ lenZ (sessions h') ≤ lenZ (sessions h) + 1.
Proof.
  intros Hok Hlt. pose proof Hok as [Hn Hs Hss Hw Hg Ht]. destruct o; cbn [demand_step].
  - rewrite begin_spec by lia. eexists. split; [done|]. split; [by apply begun_ok|cbn [sessions length fst]; lia].
  - destruct (session_ticket_spec h Hok Hlt) as (d & E & Hwd & Hp & [Hn' Hs' Hss' Hw' Hg' Ht'] & Hl).
    unfold mark_waiting. rewrite E. cbn [mbind outcome_bind fst snd]. eexists. split; [done|].
    split; [|exact Hl]. cbn [latch session] in *. unfold note_session in *. cbn [session snd].
    split; cbn [latch waiter_ticket session next_ticket]; try done; cbn [snd waiter_ticket session]; lia.
  - eexists. split; [done|]. split; [|cbn [sessions]; lia]. split; try done.
    + cbn. lia.
    + cbn [taken latch session]. intros t. destruct (Z.eqb_spec (waiter_ticket (latch h)) 0); [done|].
      intros [= <-]. lia.
  - eexists. split; [done|]. split; [|cbn [sessions]; lia]. unfold restore_waiter.
    destruct (taken h) as [t|] eqn:Et; [|by rewrite <- Et; destruct h].
    rewrite <- Et. destruct (_ =? 0); [|by destruct h].
    specialize (Ht t eq_refl) as Ht0. rewrite <- Et in Ht.
    split; try done; cbn [latch waiter_ticket session]. lia.
  - destruct (session_ticket_spec h Hok Hlt) as (d & E & Hwd & Hp & [Hn' Hs' Hss' Hw' Hg' Ht'] & Hl).
    rewrite E. cbn [mbind outcome_bind fst snd]. eexists. split; [done|]. split; [|exact Hl].
    split; try done. cbn [signals latch]. constructor; [lia|done].
Qed.

Lemma demand_run_ok os : ∀ h,
  demand_ok h → lenZ (sessions h) + lenZ os < u64_max →
  ∃ h', demand_run h os = Ret h' ∧ demand_ok h' ∧ lenZ (sessions h') ≤ lenZ (sessions h) + lenZ os.
Proof.
  induction os as [|o os IH]; intros h Hok Hlt; cbn [demand_run length] in *.
  { exists h. split; [done|]. split; [done|lia]. }
  destruct (demand_step_ok h o Hok) as (h1 & -> & Hok1 & Hl); [lia|]. cbn [mbind outcome_bind].
  destruct (IH h1 Hok1) as (h' & ? & ? & ?); [lia|]. exists h'. split; [done|]. split; [done|lia].
Qed.

Lemma demand_start_ok : demand_ok demand_start.
Proof. by split; cbn; try constructor. Qed.

End Raf.

(** * Properties *)

Section Properties.
Import Raf.

(** A frame signal never crosses a restart.  However beginning sessions,
    asking for frames, taking and restoring the waiter and signalling are
    interleaved (fewer than 2^64 - 1 times), nothing overflows; sessions are
    numbered 1, 2, 3, ... with no repeat; every ticket signalled, waited with or
    held by the render thread belongs to a session already begun, so a session
    that begins next accepts none of the signals sent before it; and a signal
    sent now is one the current session accepts. *)
Theorem raf_signals_stay_in_session (os : list demand_op) (Hn : lenZ os < u64_max) :
  ∃ h, demand_run demand_start os = Ret h ∧
    (∀ i s, sessions h !! i = Some s → s = lenZ (sessions h) - Z.of_nat i) ∧
    (∀ t, (t ∈ signals h ∨ taken h = Some t ∨ waiter_ticket (latch h) = t ∧ is_waiting (latch h) = true) →
       1 ≤ t ≤ lenZ (sessions h)) ∧
    (lenZ os + 1 < u64_max → ∃ ticket d, begin_session (latch h) = Ret (ticket, d) ∧
       ∀ t, t ∈ signals h → frame_matches_ticket t ticket = false) ∧
    (lenZ os + 1 < u64_max → ∃ ticket d, session_ticket (latch h) = Ret (ticket, d) ∧
       frame_matches_ticket ticket (session d) = true).
Proof.
  destruct (demand_run_ok os demand_start demand_start_ok) as (h & Hr & Hok & Hle); [exact Hn|].
  pose proof Hok as [Hnx Hs Hss Hw Hg Ht]. exists h. rewrite Forall_forall in Hg.
  change (lenZ (sessions demand_start)) with 0 in Hle.
  split; [done|]. split; [done|]. split; [|split].
  - intros t [Hin|[Htk|[Hwt Hwait]]].
    + specialize (Hg t Hin). cbn in Hg. lia.
    + specialize (Ht t Htk). lia.
    + unfold is_waiting in Hwait. bool_to_prop. lia.
  - intros Hn1. rewrite begin_spec by lia. do 2 eexists. split; [done|].
    intros t Hin. specialize (Hg t Hin). cbn in Hg. apply Z.leb_gt. lia.
  - intros Hn1. destruct (session_ticket_spec h Hok) as (d & E & _ & _ & _); [lia|].
    exists (session d), d. split; [done|]. apply Z.leb_refl.
Qed.

Definition sample_demand : list demand_op := [Mark; Take; Signal; Begin; Restore; Mark; Signal; Take].

Lemma raf_signals_stay_in_session_witness : ∃ h, demand_run demand_start sample_demand = Ret h ∧
  signals h = [2; 1] ∧ ∀ t, t ∈ signals h → 1 ≤ t ≤ lenZ (sessions h).
Proof.
  destruct (raf_signals_stay_in_session sample_demand) as (h & Hr & _ & Ht & _); [by vm_compute|].
  exists h. split; [exact Hr|]. split; [|intros t Hin; apply Ht; by left].
  vm_compute in Hr. by injection Hr as <-.
Defined.

(** No generation and no callback id is used twice.  Whatever commits race,
    in whatever order their exchanges take place, exactly the successors of the
    live generation win, so the generations that become current are 2, 3, 4, ...
    with no gap; a candidate is always one the boundary would take, until the
    space is spent.  And the ids a callback allocator hands out are 1, 2, 3, ...
    up to [i32::MAX], after which it hands out none. *)
Theorem identities_never_repeat (cs : list (Z * Z)) (n : nat) :
  (let '(last_, won) := Restart.commits Restart.new cs in
   won = (λ i, Z.of_nat i + 2) <$> seq 0 (length won) ∧ last_ = 1 + lenZ won ∧
   (last_ < 2 ^ 63 - 1 → ∃ c, Restart.candidate_generation last_ = Ret c ∧
      Restart.commit last_ last_ c = (Ret tt, c)) ∧
   (2 ^ 63 - 1 ≤ last_ → Restart.candidate_generation last_ = Fail Restart.Exhausted)) ∧
  CallbackId.allocate_many CallbackId.default_ n =
    (λ i, if Z.of_nat i <? i32_max then Some (Z.of_nat i + 1) else None) <$> seq 0 n.
Proof.
  split.
  - destruct (Restart.commits _ cs) as [last_ won] eqn:E.
    destruct (Restart.commits_spec cs 1 last_ won E) as [Hw Hl].
    split; [rewrite Hw at 1; apply list_fmap_ext; intros; lia|]. split; [done|].
    unfold Restart.candidate_generation, Restart.commit. split; intros H.
    + exists (last_ + 1). rewrite (proj2 (Z.leb_le _ _)), (proj2 (Z.ltb_ge _ _)), !Z.eqb_refl by lia. done.
    + by rewrite (proj2 (Z.leb_gt _ _)) by lia.
  - apply (CallbackId.allocate_many_spec n 0%nat). lia.
Qed.

End Properties.
