(* ===== verification/Damage.v ===== *)
(** Damage: which pixels a frame changed, and which a back buffer is missing
    ([engine/crates/graphics/src/present_damage.rs] and [damage_tracker.rs]).

    A region is specified by the pixels it covers.  The theorems say that no
    changed pixel is ever lost: not in a union, not in the per-frame tracker, and
    not in the repair of a buffer that is several frames old. *)
From S2P Require Import Prelude.

(** [i64::checked_add]; [i32::try_from]. *)
Definition i64_checked_add (a b : Z) : option Z :=
  if (- 2 ^ 63 <=? a + b) && (a + b <=? 2 ^ 63 - 1) then Some (a + b) else None.
Definition i32_try_from (a : Z) : option Z :=
  if (i32_min <=? a) && (a <=? i32_max) then Some a else None.

(** * Presentation damage *)

Module Present.

Record DamageRect := { x : Z; y : Z; width : Z; height : Z }.

#[global] Instance DamageRect_eq_dec : EqDecision DamageRect.
Proof. solve_decision. Defined.

Definition new (x y width height : Z) : option DamageRect :=
  if (width <=? 0) || (height <=? 0) then None else
  match i64_checked_add x width, i64_checked_add y height with
  | Some r, Some t =>
      if (i32_max <? r) || (i32_max <? t) then None
      else Some {| x := x; y := y; width := width; height := height |}
  | _, _ => None
  end.

Definition xywh (r : DamageRect) : Z * Z * Z * Z := (x r, y r, width r, height r).

Definition right (r : DamageRect) : result Z := i32_add (x r) (width r).
Definition top (r : DamageRect) : result Z := i32_add (y r) (height r).

Definition contains (self other : DamageRect) : result bool :=
  if negb (x self <=? x other) then mret false else
  if negb (y self <=? y other) then mret false else
  r ← right self; r' ← right other;
  if negb (r' <=? r) then mret false else
  t ← top self; t' ← top other;
  mret (t' <=? t).

Definition union_aabb (self other : DamageRect) : result (option DamageRect) :=
  let x_ := Z.min (x self) (x other) in
  let y_ := Z.min (y self) (y other) in
  r ← right self; r' ← right other;
  t ← top self; t' ← top other;
  mret (match i32_try_from (Z.max r r' - x_) with
        | None => None
        | Some width =>
            match i32_try_from (Z.max t t' - y_) with
            | None => None
            | Some height => new x_ y_ width height
            end
        end).

(** [[DamageRect; 4]], its live length and the sticky flag. *)
Record PartialRegion := { prects : list DamageRect; len : Z; collapsed : bool }.

Inductive DamageRegion := FullSurface | Partial (p : PartialRegion).

Definition PLACEHOLDER : DamageRect := {| x := 0; y := 0; width := 1; height := 1 |}.

Definition single (r : DamageRect) : PartialRegion :=
  {| prects := [r; PLACEHOLDER; PLACEHOLDER; PLACEHOLDER]; len := 1; collapsed := false |}.

Definition live (p : PartialRegion) : result (list DamageRect) := slice (prects p) 0 (len p).

Definition from_rect (r : DamageRect) : DamageRegion := Partial (single r).

(** [for &existing in live { if existing.contains(new_rect) .. }]. *)
Fixpoint contained_by_any (rs : list DamageRect) (new_rect : DamageRect) : result bool :=
  match rs with
  | [] => mret false
  | r :: rs =>
      c ← contains r new_rect;
      if c : bool then mret true else contained_by_any rs new_rect
  end.

(** The rects the new one does not swallow, written to [buf] from [buf_len]. *)
Fixpoint keep_uncontained (rs : list DamageRect) (new_rect : DamageRect)
    (buf : list DamageRect) (buf_len : Z) : result (list DamageRect * Z) :=
  match rs with
  | [] => mret (buf, buf_len)
  | r :: rs =>
      c ← contains new_rect r;
      if c : bool then keep_uncontained rs new_rect buf buf_len
      else buf ← set_idx buf buf_len r; keep_uncontained rs new_rect buf (buf_len + 1)
  end.

Fixpoint union_all (aabb : DamageRect) (rs : list DamageRect) : result (option DamageRect) :=
  match rs with
  | [] => mret (Some aabb)
  | r :: rs =>
      u ← union_aabb aabb r;
      match u with None => mret None | Some aabb => union_all aabb rs end
  end.

Definition union_rect_into (region : PartialRegion) (new_rect : DamageRect) :
    result (option PartialRegion) :=
  if collapsed region then
    r0 ← idx (prects region) 0;
    u ← union_aabb r0 new_rect;
    match u with
    | None => mret None
    | Some aabb =>
        rects ← set_idx (prects region) 0 aabb;
        mret (Some {| prects := rects; len := len region; collapsed := collapsed region |})
    end
  else
    rs ← live region;
    dropped ← contained_by_any rs new_rect;
    if dropped : bool then mret (Some region) else
    kept ← keep_uncontained rs new_rect (replicate 4 PLACEHOLDER) 0;
    let '(buf, buf_len) := kept in
    rs ← slice buf 0 buf_len;
    if existsb (λ r, bool_decide (r = new_rect)) rs
    then mret (Some {| prects := buf; len := buf_len; collapsed := false |}) else
    if buf_len <? 4 then
      buf ← set_idx buf buf_len new_rect;
      mret (Some {| prects := buf; len := buf_len + 1; collapsed := false |})
    else
      first ← idx buf 0;
      rest ← slice buf 1 buf_len;
      u ← union_all first rest;
      match u with
      | None => mret None
      | Some aabb =>
          u ← union_aabb aabb new_rect;
          match u with
          | None => mret None
          | Some aabb =>
              mret (Some {| prects := [aabb; PLACEHOLDER; PLACEHOLDER; PLACEHOLDER];
                            len := 1; collapsed := true |})
          end
      end.

(** [for &r in b.rects()]. *)
Fixpoint union_rects (a : PartialRegion) (rs : list DamageRect) : result DamageRegion :=
  match rs with
  | [] => mret (Partial a)
  | r :: rs =>
      u ← union_rect_into a r;
      match u with None => mret FullSurface | Some a => union_rects a rs end
  end.

Definition union (self other : DamageRegion) : result DamageRegion :=
  match self, other with
  | FullSurface, _ | _, FullSurface => mret FullSurface
  | Partial a, Partial b => rs ← live b; union_rects a rs
  end.

Definition rects (self : DamageRegion) : result (option (list DamageRect)) :=
  match self with
  | FullSurface => mret None
  | Partial p => rs ← live p; mret (Some rs)
  end.

Definition bounding_rect (self : DamageRegion) : result (option DamageRect) :=
  rs ← rects self;
  match rs with
  | None | Some [] => mret None
  | Some (r :: rs) => union_all r rs
  end.

Definition is_full_surface (self : DamageRegion) : bool :=
  match self with FullSurface => true | _ => false end.

(** ** The history of presented frames, newest first *)

Record PresentDamageHistory := { entries : list (option DamageRegion); hlen : Z }.

Definition history_new : PresentDamageHistory := {| entries := replicate 4 None; hlen := 0 |}.

(** [for i in (1..n).rev() { entries[i] = entries[i - 1].take() }], from [i]
    down. *)
Fixpoint shift_entries (es : list (option DamageRegion)) (i : nat) :
    result (list (option DamageRegion)) :=
  match i with
  | O => mret es
  | S j =>
      e ← idx es (Z.of_nat j);
      es ← set_idx es (Z.of_nat j) None;
      es ← set_idx es (Z.of_nat i) e;
      shift_entries es j
  end.

Definition history_push (h : PresentDamageHistory) (region : DamageRegion) :
    result PresentDamageHistory :=
  let n := if hlen h <? 4 then hlen h + 1 else hlen h in
  es ← shift_entries (entries h) (Z.to_nat (n - 1));
  es ← set_idx es 0 (Some region);
  mret {| entries := es; hlen := n |}.

Definition history_clear (h : PresentDamageHistory) : PresentDamageHistory := history_new.

(** [for i in 0..needed]: [k] entries from [i] on. *)
Fixpoint repair_loop (es : list (option DamageRegion)) (repair : DamageRegion) (i : Z) (k : nat) :
    result DamageRegion :=
  match k with
  | O => mret repair
  | S k =>
      entry ← idx es i;
      match entry with
      | None => Panic
      | Some e =>
          repair ← union repair e;
          if is_full_surface repair then mret FullSurface else repair_loop es repair (i + 1) k
      end
  end.

Definition resolve_with_age (h : PresentDamageHistory) (current : DamageRegion) (buffer_age : Z) :
    result DamageRegion :=
  if buffer_age <=? 0 then mret FullSurface else
  if buffer_age =? 1 then mret current else
  let needed := buffer_age - 1 in
  if hlen h <? needed then mret FullSurface else
  repair_loop (entries h) current 0 (Z.to_nat needed).

(** ** The plan of a frame *)

Record PresentDamagePlan := { current : DamageRegion; repair : DamageRegion }.

Definition build_present_plan (cur : DamageRegion) (h : PresentDamageHistory)
    (age_supported : bool) (buffer_age : Z) (db_matches_surface dest_single_sample : bool) :
    result PresentDamagePlan :=
  rep ← (if negb age_supported || (buffer_age <=? 0) || negb db_matches_surface
            || negb dest_single_sample
         then mret FullSurface
         else if is_full_surface cur then mret FullSurface
         else resolve_with_age h cur buffer_age);
  mret {| current := cur; repair := rep |}.

Definition swap_damage_region (plan : PresentDamagePlan) : DamageRegion := current plan.

Definition surface_damage_to_submit (plan : PresentDamagePlan)
    (extension_available previously_rejected : bool) : result (option (list DamageRect)) :=
  if negb extension_available || previously_rejected then mret None else
  rs ← rects (swap_damage_region plan);
  mret (match rs with Some (_ :: _) => rs | _ => None end).

Definition repair_after_declaration_failure (plan : PresentDamagePlan)
    (ext_buffer_age_independently_advertised : bool) : PresentDamagePlan :=
  if ext_buffer_age_independently_advertised then plan
  else {| current := current plan; repair := FullSurface |}.

Inductive BlitPlan := Full (linear : bool) | Rects (brects : list DamageRect) (blen : Z).

Definition blit_rects (p : BlitPlan) : result (list DamageRect) :=
  match p with Full _ => mret [] | Rects rs n => slice rs 0 n end.

Definition blit_plan (rep : DamageRegion) (db_matches_surface dest_single_sample : bool) :
    result BlitPlan :=
  match rep with
  | Partial p =>
      if db_matches_surface && dest_single_sample then
        rs ← live p;
        (* [rects[..len].copy_from_slice(p.rects())] *)
        buf ← copy_from_slice (replicate 4 PLACEHOLDER) 0 rs;
        mret (Rects buf (len p))
      else mret (Full (negb db_matches_surface))
  | FullSurface => mret (Full (negb db_matches_surface))
  end.

(** ** The specification: pixels *)

Definition pixel : Type := Z * Z.

Definition covers (r : DamageRect) (p : pixel) : Prop :=
  x r ≤ fst p < x r + width r ∧ y r ≤ snd p < y r + height r.

#[global] Instance covers_dec r p : Decision (covers r p).
Proof. unfold covers. apply _. Defined.

(** What [DamageRect::new] lets through. *)
Definition rect_ok (r : DamageRect) : Prop :=
  i32_min ≤ x r ∧ i32_min ≤ y r ∧ 0 < width r ∧ 0 < height r ∧
  x r + width r ≤ i32_max ∧ y r + height r ≤ i32_max.

Definition live_rects (p : PartialRegion) : list DamageRect := take (Z.to_nat (len p)) (prects p).

Definition region_covers (d : DamageRegion) (p : pixel) : Prop :=
  match d with FullSurface => True | Partial r => Exists (λ r, covers r p) (live_rects r) end.

#[global] Instance region_covers_dec d p : Decision (region_covers d p).
Proof. destruct d; cbn [region_covers]; apply _. Defined.

(** A region as the code keeps it: one to four good rects, then placeholders,
    and just one once collapsed. *)
Definition partial_ok (p : PartialRegion) : Prop :=
  ∃ rs, prects p = rs ++ replicate (4 - length rs) PLACEHOLDER ∧ len p = lenZ rs ∧
    (1 ≤ length rs ≤ 4)%nat ∧ Forall rect_ok rs ∧ (collapsed p = true → length rs = 1%nat).

Definition region_ok (d : DamageRegion) : Prop :=
  match d with FullSurface => True | Partial p => partial_ok p end.

Definition is_collapsed (d : DamageRegion) : bool :=
  match d with FullSurface => false | Partial p => collapsed p end.

(** A box, by its corners. *)
Definition within (b : Z * Z * Z * Z) (p : pixel) : Prop :=
  let '(x0, y0, x1, y1) := b in x0 ≤ fst p < x1 ∧ y0 ≤ snd p < y1.

Definition small (b : Z * Z * Z * Z) : Prop :=
  let '(x0, y0, x1, y1) := b in x1 - x0 ≤ i32_max ∧ y1 - y0 ≤ i32_max.

(** No box with [i32] sides holds these pixels. *)
Definition spread (A : pixel → Prop) : Prop :=
  ∀ box, small box → ¬ ∀ p, A p → within box p.

(** ** Lemmas: rects *)

Lemma right_ret r : rect_ok r → right r = Ret (x r + width r).
Proof. unfold rect_ok, right. intros. apply i32_add_ret. lia. Qed.

Lemma top_ret r : rect_ok r → top r = Ret (y r + height r).
Proof. unfold rect_ok, top. intros. apply i32_add_ret. lia. Qed.

Definition contains_b (a b : DamageRect) : bool :=
  (x a <=? x b) && (y a <=? y b) && (x b + width b <=? x a + width a)
  && (y b + height b <=? y a + height a).

Lemma contains_ret a b : rect_ok a → rect_ok b → contains a b = Ret (contains_b a b).
Proof.
  intros Ha Hb. unfold contains, contains_b. rewrite !right_ret, !top_ret by done.
  cbn [mbind outcome_bind].
  destruct (x a <=? x b); cbn [negb andb]; [|done].
  destruct (y a <=? y b); cbn [negb andb]; [|done].
  by destruct (_ <=? x a + width a).
Qed.

Lemma contains_covers a b p : contains_b a b = true → covers b p → covers a p.
Proof. unfold contains_b, covers. intros. bool_to_prop. lia. Qed.

Lemma spread_mono (A B : pixel → Prop) : (∀ p, A p → B p) → spread A → spread B.
Proof. intros HAB HA box Hs HB. apply (HA box Hs). auto. Qed.

(** The union: the smallest rect around both, when [i32] can hold it. *)
Definition aabb_of (a b u : DamageRect) : Prop :=
  rect_ok u ∧ (∀ p, covers a p ∨ covers b p → covers u p) ∧
  ∀ box, (∀ p, covers a p → within box p) → (∀ p, covers b p → within box p) →
         ∀ p, covers u p → within box p.

Lemma new_ret x_ y_ w h :
  i32_min ≤ x_ → i32_min ≤ y_ → 0 < w → 0 < h → x_ + w ≤ i32_max → y_ + h ≤ i32_max →
  new x_ y_ w h = Some {| x := x_; y := y_; width := w; height := h |}.
Proof.
  unfold i32_min, i32_max. intros. unfold new, i64_checked_add, i32_max.
  rewrite (proj2 (Z.leb_gt w 0)), (proj2 (Z.leb_gt h 0)) by lia. cbn [orb].
  rewrite !(proj2 (Z.leb_le _ _)) by lia. cbn [andb].
  rewrite !(proj2 (Z.ltb_ge _ _)) by lia. done.
Qed.

Lemma union_aabb_spec a b :
  rect_ok a → rect_ok b →
  ∃ o, union_aabb a b = Ret o ∧
    match o with
    | Some u => aabb_of a b u
    | None => spread (λ p, covers a p ∨ covers b p)
    end.
Proof.
  intros Ha Hb. unfold union_aabb. rewrite !right_ret, !top_ret by done. cbn [mbind outcome_bind].
  eexists. split; [done|]. unfold i32_try_from.
  assert (∀ box, small box → (∀ p, covers a p ∨ covers b p → within box p) →
    Z.max (x a + width a) (x b + width b) - Z.min (x a) (x b) ≤ i32_max ∧
    Z.max (y a + height a) (y b + height b) - Z.min (y a) (y b) ≤ i32_max) as Hs.
  { intros [[[x0 y0] x1] y1] Hs Hw. unfold rect_ok, covers, within, small in *.
    pose proof (Hw (x a, y a)) as A1. pose proof (Hw (x a + width a - 1, y a + height a - 1)) as A2.
    pose proof (Hw (x b, y b)) as B1. pose proof (Hw (x b + width b - 1, y b + height b - 1)) as B2.
    cbn in *. lia. }
  unfold rect_ok in *.
  destruct (_ && _) eqn:Ew.
  2:{ intros box Hsm Hw. destruct (Hs box Hsm Hw). unfold i32_min, i32_max in *.
      apply andb_false_iff in Ew as [Ew|Ew]; bool_to_prop; lia. }
  destruct (_ && _) eqn:Eh in |- *.
  2:{ intros box Hsm Hw. destruct (Hs box Hsm Hw). unfold i32_min, i32_max in *.
      apply andb_false_iff in Eh as [Eh|Eh]; bool_to_prop; lia. }
  clear Hs. bool_to_prop. rewrite new_ret by lia. split; [|split].
  - unfold rect_ok. cbn. lia.
  - unfold covers. cbn. intros p. lia.
  - intros [[[x0 y0] x1] y1] Hpa Hpb p. unfold covers, within in *. cbn.
    pose proof (Hpa (x a, y a)) as A1. pose proof (Hpa (x a + width a - 1, y a + height a - 1)) as A2.
    pose proof (Hpb (x b, y b)) as B1. pose proof (Hpb (x b + width b - 1, y b + height b - 1)) as B2.
    cbn in *. lia.
Qed.

(** ** Lemmas: regions *)

Definition cov (rs : list DamageRect) (p : pixel) : Prop := Exists (λ r, covers r p) rs.

Lemma cov_app rs rs' p : cov (rs ++ rs') p ↔ cov rs p ∨ cov rs' p.
Proof. apply Exists_app. Qed.

Lemma cov_one r p : cov [r] p ↔ covers r p.
Proof. unfold cov. rewrite Exists_cons, Exists_nil. tauto. Qed.

Lemma cov_cons r rs p : cov (r :: rs) p ↔ covers r p ∨ cov rs p.
Proof. unfold cov. by rewrite Exists_cons. Qed.

(** The array after [rs] is written to its front. *)
Definition array_of (rs : list DamageRect) : list DamageRect :=
  rs ++ replicate (4 - length rs) PLACEHOLDER.

Lemma length_array rs : (length rs ≤ 4)%nat → length (array_of rs) = 4%nat.
Proof. intros. unfold array_of. rewrite length_app, length_replicate. lia. Qed.

Lemma array_push rs r :
  (length rs < 4)%nat → set_idx (E:=Empty_set) (array_of rs) (lenZ rs) r = Ret (array_of (rs ++ [r])).
Proof.
  intros Hl. unfold set_idx. rewrite length_array by lia.
  rewrite (proj2 (Z.leb_le 0 _)), (proj2 (Z.ltb_lt _ _)) by lia. cbn [andb]. f_equal.
  unfold array_of. rewrite Nat2Z.id. rewrite length_app. cbn [length].
  replace (4 - length rs)%nat with (S (4 - (length rs + 1))) by lia. cbn [replicate].
  pose proof (insert_app_r rs (PLACEHOLDER :: replicate (4 - (length rs + 1)) PLACEHOLDER) 0 r) as Hi.
  rewrite Nat.add_0_r in Hi. rewrite Hi. cbn. by rewrite <- app_assoc.
Qed.

Lemma array_slice rs :
  (length rs ≤ 4)%nat → slice (E:=Empty_set) (array_of rs) 0 (lenZ rs) = Ret rs.
Proof.
  intros Hl. rewrite slice_ret by (rewrite ?length_array by lia; lia).
  unfold array_of. rewrite sub_app_l, sub_all by lia. done.
Qed.

Lemma take_array rs : take (Z.to_nat (lenZ rs)) (array_of rs) = rs.
Proof. unfold array_of. rewrite Nat2Z.id. apply take_app_length. Qed.

(** A region with the rects [rs]. *)
Definition holds (p : PartialRegion) (rs : list DamageRect) : Prop :=
  prects p = array_of rs ∧ len p = lenZ rs ∧ (1 ≤ length rs ≤ 4)%nat ∧ Forall rect_ok rs ∧
  (collapsed p = true → length rs = 1%nat).

Lemma partial_ok_holds p : partial_ok p ↔ ∃ rs, holds p rs.
Proof. done. Qed.

Lemma holds_live p rs : holds p rs → live p = Ret rs ∧ live_rects p = rs.
Proof.
  intros (Hp & Hl & Hn & _). unfold live, live_rects. rewrite Hp, Hl, take_array.
  split; [|done]. apply array_slice. lia.
Qed.

Lemma single_ok r : rect_ok r → holds (single r) [r].
Proof.
  intros Hr. unfold holds. repeat (split; [first [reflexivity|cbn; lia|by repeat constructor]|]).
  split; [|done]. by apply Forall_singleton.
Qed.

Lemma contained_by_any_spec rs r :
  Forall rect_ok rs → rect_ok r → contained_by_any rs r = Ret (existsb (λ e, contains_b e r) rs).
Proof.
  intros Hrs Hr. induction Hrs as [|e rs He _ IH]; cbn [contained_by_any existsb]; [done|].
  rewrite contains_ret by done. cbn [mbind outcome_bind].
  destruct (contains_b e r); cbn [orb]; [done|]. apply IH.
Qed.

Lemma keep_uncontained_spec rs r : ∀ ks,
  Forall rect_ok rs → rect_ok r → (length ks + length rs ≤ 4)%nat →
  let fs := List.filter (λ e, negb (contains_b r e)) rs in
  keep_uncontained rs r (array_of ks) (lenZ ks) = Ret (array_of (ks ++ fs), lenZ (ks ++ fs)).
Proof.
  induction rs as [|e rs IH]; intros ks Hrs Hr Hl; cbn [keep_uncontained List.filter length] in *.
  { by rewrite app_nil_r. }
  apply Forall_cons in Hrs as [He Hrs]. rewrite contains_ret by done. cbn [mbind outcome_bind].
  destruct (contains_b r e); cbn [negb].
  - apply IH; [done|done|lia].
  - rewrite array_push by lia. cbn [mbind outcome_bind].
    replace (lenZ ks + 1) with (lenZ (ks ++ [e])) by (rewrite length_app; cbn [length]; lia).
    rewrite IH; [|done|done|rewrite length_app; cbn [length]; lia].
    by rewrite <- !app_assoc.
Qed.

Lemma filter_length_le {A} (f : A → bool) l : (length (List.filter f l) ≤ length l)%nat.
Proof. induction l as [|a l IH]; cbn; [lia|]. destruct (f a); cbn; lia. Qed.

Lemma Forall_filter_list {A} (P : A → Prop) f l : Forall P l → Forall P (List.filter f l).
Proof. induction 1; cbn; [constructor|]. destruct (f _); auto. Qed.

(** Dropping what [r] swallows loses nothing next to [r]. *)
Lemma cov_filter rs r p :
  cov rs p ∨ covers r p ↔ cov (List.filter (λ e, negb (contains_b r e)) rs) p ∨ covers r p.
Proof.
  induction rs as [|e rs IH]; cbn [List.filter]; [done|]. rewrite cov_cons.
  destruct (contains_b r e) eqn:E; cbn [negb].
  - pose proof (contains_covers r e p E). tauto.
  - rewrite cov_cons. tauto.
Qed.

Lemma contained_covers rs r p :
  existsb (λ e, contains_b e r) rs = true → covers r p → cov rs p.
Proof.
  intros (e & Hin & He)%existsb_exists Hp. apply Exists_exists. exists e.
  split; [by apply list_elem_of_In|]. by eapply contains_covers.
Qed.

Lemma union_all_spec rs : ∀ r,
  rect_ok r → Forall rect_ok rs →
  ∃ o, union_all r rs = Ret o ∧
    match o with
    | None => spread (cov (r :: rs))
    | Some u => rect_ok u ∧ (∀ p, cov (r :: rs) p → covers u p) ∧
        ∀ box, (∀ p, cov (r :: rs) p → within box p) → ∀ p, covers u p → within box p
    end.
Proof.
  induction rs as [|e rs IH]; intros r Hr Hrs; cbn [union_all].
  { eexists. split; [done|]. cbn. split; [done|]. split; intros *; rewrite ?cov_one; [done|].
    intros Hb p Hp. apply Hb. by rewrite cov_one. }
  apply Forall_cons in Hrs as [He Hrs].
  destruct (union_aabb_spec r e Hr He) as (o & -> & Ho). cbn [mbind outcome_bind].
  destruct o as [u|].
  2:{ eexists. split; [done|]. revert Ho. apply spread_mono. intros p. rewrite !cov_cons. tauto. }
  destruct Ho as (Hu & Hc & Hb). destruct (IH u Hu Hrs) as (o & -> & Ho).
  eexists. split; [done|]. destruct o as [w|].
  2:{ intros box Hs Hw. apply (Ho box Hs). intros p. rewrite cov_cons. intros [Hp|Hp].
      - revert p Hp. apply Hb; intros p Hp; apply Hw; rewrite !cov_cons; auto.
      - apply Hw. rewrite !cov_cons. auto. }
  destruct Ho as (Hw & Hcw & Hbw). split; [done|]. split.
  - intros p. rewrite !cov_cons. intros Hp. apply Hcw. rewrite cov_cons. naive_solver.
  - intros box Hp. apply Hbw. intros p. rewrite cov_cons. intros [Hp'|Hp'].
    + revert p Hp'. apply Hb; intros p Hp'; apply Hp; rewrite !cov_cons; auto.
    + apply Hp. rewrite !cov_cons. auto.
Qed.

(** [u] is what comes of putting pixels [B] into a region of pixels [A]: nothing
    is lost, nothing is added until it collapses, it stays collapsed, and it never
    leaves a box around both. *)
Definition joins (A B : pixel → Prop) (was : bool) (u : PartialRegion) : Prop :=
  ∃ us, holds u us ∧ (∀ p, A p ∨ B p → cov us p) ∧
    (collapsed u = false → ∀ p, cov us p → A p ∨ B p) ∧
    (was = true → collapsed u = true) ∧
    ∀ box, (∀ p, A p ∨ B p → within box p) → ∀ p, cov us p → within box p.

(** An exact join. *)
Lemma joins_exact A B was u us :
  holds u us → (∀ p, A p ∨ B p ↔ cov us p) → (was = true → collapsed u = true) → joins A B was u.
Proof. intros Hu He Hw. exists us. split_and!; try done; intros *; naive_solver. Qed.

Lemma union_collapsed_spec a rs r :
  holds a rs → collapsed a = true → rect_ok r →
  ∃ o, union_rect_into a r = Ret o ∧
    match o with
    | None => spread (λ p, cov rs p ∨ covers r p)
    | Some u => joins (cov rs) (covers r) true u
    end.
Proof.
  intros (Hp & Hl & Hn & Hok & Hc) Ec Hr. unfold union_rect_into. rewrite Ec, Hp.
  specialize (Hc Ec). destruct rs as [|r0 [|? ?]]; try (cbn in Hc; lia).
  apply Forall_cons in Hok as [H0 _]. change (idx (array_of [r0]) 0) with (Ret (E:=Empty_set) r0).
  cbn [mbind outcome_bind]. destruct (union_aabb_spec r0 r H0 Hr) as (o & -> & Ho).
  cbn [mbind outcome_bind]. destruct o as [u|].
  2:{ eexists. split; [done|]. revert Ho. apply spread_mono. intros p. by rewrite cov_one. }
  change (set_idx (array_of [r0]) 0 u) with (Ret (E:=Empty_set) (array_of [u])).
  cbn [mbind outcome_bind]. eexists. split; [done|]. destruct Ho as (Hu & Hcov & Hbox).
  exists [u]. split.
  { unfold holds. cbn [prects len collapsed length].
    repeat (split; [first [done|lia|by apply Forall_singleton]|]). done. }
  split_and!; try done.
  - intros p. rewrite !cov_one. apply Hcov.
  - intros box Hb p. rewrite cov_one. revert p.
    apply Hbox; intros p Hpx; apply Hb; rewrite cov_one; auto.
Qed.

(** A fifth rect: one box around them all. *)
Lemma overflow_spec fs r :
  length fs = 4%nat → Forall rect_ok fs → rect_ok r →
  ∃ o, (first ← idx (array_of fs) 0;
        rest ← slice (array_of fs) 1 (lenZ fs);
        u ← union_all first rest;
        match u with
        | None => mret None
        | Some aabb =>
            u ← union_aabb aabb r;
            match u with
            | None => mret None
            | Some aabb =>
                mret (Some {| prects := [aabb; PLACEHOLDER; PLACEHOLDER; PLACEHOLDER];
                              len := 1; collapsed := true |})
            end
        end) = Ret (E:=Empty_set) o ∧
    match o with
    | None => spread (λ p, cov fs p ∨ covers r p)
    | Some u => ∃ us, holds u us ∧ (∀ p, cov fs p ∨ covers r p → cov us p) ∧ collapsed u = true ∧
        ∀ box, (∀ p, cov fs p ∨ covers r p → within box p) → ∀ p, cov us p → within box p
    end.
Proof.
  intros Hl Hfok Hr. destruct fs as [|f0 fr]; [done|]. apply Forall_cons in Hfok as [H0 Hfok].
  assert (idx (E:=Empty_set) (array_of (f0 :: fr)) 0 = Ret f0) as -> by done.
  cbn [mbind outcome_bind].
  assert (slice (E:=Empty_set) (array_of (f0 :: fr)) 1 (lenZ (f0 :: fr)) = Ret fr) as ->.
  { rewrite slice_ret by (rewrite ?length_array by lia; lia). f_equal.
    unfold sub, array_of. change (Z.to_nat 1) with 1%nat. cbn [app drop length].
    apply take_app_length'. lia. }
  cbn [mbind outcome_bind].
  destruct (union_all_spec fr f0 H0 Hfok) as (o & -> & Ho). cbn [mbind outcome_bind].
  destruct o as [u|].
  2:{ eexists. split; [done|]. revert Ho. by apply spread_mono; auto. }
  destruct Ho as (Hu & Hcu & Hbu).
  destruct (union_aabb_spec u r Hu Hr) as (o & -> & Ho). cbn [mbind outcome_bind].
  destruct o as [w|].
  2:{ eexists. split; [done|]. intros box Hs Hw. apply (Ho box Hs).
      intros p [Hp|Hp]; [|auto]. revert p Hp. apply Hbu. auto. }
  destruct Ho as (Hw & Hcw & Hbw).
  eexists. split; [done|]. exists [w]. split.
  { unfold holds. cbn [prects len collapsed length].
    repeat (split; [first [done|lia|by apply Forall_singleton]|]). done. }
  split_and!; [|done|].
  - intros p Hp. rewrite cov_one. apply Hcw. naive_solver.
  - intros box Hb p. rewrite cov_one. revert p. apply Hbw.
    + apply Hbu. intros p Hp. apply Hb. auto.
    + intros p Hp. apply Hb. auto.
Qed.

Lemma union_rect_into_spec a rs r :
  holds a rs → rect_ok r →
  ∃ o, union_rect_into a r = Ret o ∧
    match o with
    | None => spread (λ p, cov rs p ∨ covers r p)
    | Some u => joins (cov rs) (covers r) (collapsed a) u
    end.
Proof.
  intros Ha Hr. destruct (collapsed a) eqn:Ec; [by apply union_collapsed_spec|].
  unfold union_rect_into. rewrite Ec, (proj1 (holds_live a rs Ha)). cbn [mbind outcome_bind].
  pose proof Ha as (Hp & Hl & Hn & Hok & Hc).
  rewrite contained_by_any_spec by done. cbn [mbind outcome_bind].
  destruct (existsb _ rs) eqn:Ed.
  { eexists. split; [done|]. apply (joins_exact _ _ _ a rs); [done| |done].
    intros p. pose proof (contained_covers rs r p Ed). tauto. }
  change (replicate 4 PLACEHOLDER) with (array_of []).
  pose proof (keep_uncontained_spec rs r [] Hok Hr) as Hk. cbn [length app] in Hk.
  change (Z.of_nat 0) with 0 in Hk. rewrite Hk by lia. clear Hk. cbn [mbind outcome_bind].
  set (fs := List.filter _ rs).
  assert (length fs ≤ 4)%nat as Hfl by (pose proof (filter_length_le (λ e, negb (contains_b r e)) rs); unfold fs; lia).
  assert (Forall rect_ok fs) as Hfok by by apply Forall_filter_list.
  assert (∀ p, cov rs p ∨ covers r p ↔ cov fs p ∨ covers r p) as Hfc by (intros p; apply cov_filter).
  rewrite array_slice by done. cbn [mbind outcome_bind].
  destruct (existsb _ fs) eqn:Ee.
  { eexists. split; [done|]. apply existsb_exists in Ee as (e & Hin & He%bool_decide_eq_true_1). subst e.
    apply (joins_exact _ _ _ _ fs); [|intros p|done].
    - unfold holds. cbn [prects len collapsed]. repeat (split; [first [done|lia]|]).
      split; [|done]. destruct fs; [by apply in_nil in Hin|cbn in *; lia].
    - rewrite Hfc. split; [|tauto]. intros [?|Hp']; [done|]. apply Exists_exists. exists r.
      split; [by apply list_elem_of_In|done]. }
  destruct (Z.ltb_spec (lenZ fs) 4).
  - rewrite array_push by lia. cbn [mbind outcome_bind]. eexists. split; [done|].
    apply (joins_exact _ _ _ _ (fs ++ [r])); [|intros p; by rewrite Hfc, cov_app, cov_one|done].
    unfold holds. cbn [prects len collapsed]. rewrite length_app. cbn [length].
    repeat (split; [first [done|lia]|]). split; [|done].
    apply Forall_app. split; [done|]. by apply Forall_singleton.
  - destruct (overflow_spec fs r) as (o & -> & Ho); [lia|done|done|].
    exists o. split; [done|]. destruct o as [u|].
    2:{ revert Ho. apply spread_mono. intros q. by rewrite Hfc. }
    destruct Ho as (us & Hu & Hcov & Hcol & Hbox). exists us.
    split_and!; try done; [intros q Hq; by apply Hcov, Hfc|by rewrite Hcol|].
    intros box Hb. apply Hbox. intros q Hq. by apply Hb, Hfc.
Qed.

Lemma joins_trans A B1 B2 was u1 us1 u :
  holds u1 us1 → joins A B1 was u1 → joins (cov us1) B2 (collapsed u1) u →
  joins A (λ p, B1 p ∨ B2 p) was u.
Proof.
  intros H1 (us1' & H1' & C1 & E1 & S1 & X1) (us & Hu & C & Ex & S & X).
  assert (us1' = us1) as ->.
  { by rewrite <- (proj2 (holds_live _ _ H1)), <- (proj2 (holds_live _ _ H1')). }
  exists us. split; [done|]. split; [|split; [|split]].
  - intros p Hp. apply C. naive_solver.
  - intros Hn p Hp. destruct (collapsed u1) eqn:E; [by rewrite S in Hn|].
    specialize (Ex Hn p Hp). specialize (E1 eq_refl p). tauto.
  - auto.
  - intros box Hb. apply X. intros p [Hp|Hp]; [|auto]. revert p Hp. apply X1. naive_solver.
Qed.

Lemma joins_ext A B B' was u : (∀ p, B p ↔ B' p) → joins A B was u → joins A B' was u.
Proof.
  intros HB (us & Hu & C & Ex & S & X). exists us. split; [done|]. split; [|split; [|split; [done|]]].
  - intros p. rewrite <- HB. apply C.
  - intros Hn p. rewrite <- HB. by apply Ex.
  - intros box Hb. apply X. intros p. rewrite HB. apply Hb.
Qed.

Lemma union_rects_spec rs2 : ∀ a rs1,
  holds a rs1 → Forall rect_ok rs2 →
  ∃ d, union_rects a rs2 = Ret d ∧
    match d with
    | FullSurface => spread (λ p, cov rs1 p ∨ cov rs2 p)
    | Partial u => joins (cov rs1) (cov rs2) (collapsed a) u
    end.
Proof.
  induction rs2 as [|r rs2 IH]; intros a rs1 Ha Hrs; cbn [union_rects].
  { eexists. split; [done|]. apply (joins_exact _ _ _ a rs1); [done| |done].
    intros p. unfold cov at 2. rewrite Exists_nil. tauto. }
  apply Forall_cons in Hrs as [Hr Hrs].
  destruct (union_rect_into_spec a rs1 r Ha Hr) as (o & -> & Ho). cbn [mbind outcome_bind].
  destruct o as [u1|].
  2:{ eexists. split; [done|]. revert Ho. apply spread_mono. intros p. rewrite cov_cons. tauto. }
  pose proof Ho as (us1 & H1 & C1 & _ & _ & X1).
  destruct (IH u1 us1 H1 Hrs) as (d & -> & Hd). eexists. split; [done|].
  destruct d as [|u].
  - intros box Hs Hw. apply (Hd box Hs). intros p [Hp|Hp].
    + revert p Hp. apply X1. intros p Hp. apply Hw. rewrite cov_cons. tauto.
    + apply Hw. rewrite cov_cons. auto.
  - eapply joins_ext; [|by eapply joins_trans]. intros p. by rewrite cov_cons.
Qed.

(** What a union is. *)
Record union_of (a b u : DamageRegion) : Prop := {
  uo_ok : region_ok u;
  uo_covers : ∀ p, region_covers a p ∨ region_covers b p → region_covers u p;
  uo_exact : is_full_surface u = false → is_collapsed u = false →
    ∀ p, region_covers u p → region_covers a p ∨ region_covers b p;
  uo_sticky : is_collapsed a = true → is_full_surface u = true ∨ is_collapsed u = true;
  uo_box : is_full_surface u = false → ∀ box,
    (∀ p, region_covers a p ∨ region_covers b p → within box p) →
    ∀ p, region_covers u p → within box p;
  uo_full : is_full_surface u = true →
    is_full_surface a = true ∨ is_full_surface b = true ∨
    spread (λ p, region_covers a p ∨ region_covers b p)
}.

Lemma union_spec a b :
  region_ok a → region_ok b → ∃ u, union a b = Ret u ∧ union_of a b u.
Proof.
  intros Ha Hb. destruct a as [|a]; [eexists; split; [done|]; split; cbn; auto|].
  destruct b as [|b]; [eexists; split; [done|]; split; cbn; auto|].
  apply partial_ok_holds in Ha as [rs1 Ha], Hb as [rs2 Hb].
  pose proof Hb as (_ & _ & _ & Hok2 & _).
  cbn [union]. rewrite (proj1 (holds_live b rs2 Hb)). cbn [mbind outcome_bind].
  destruct (union_rects_spec rs2 a rs1 Ha Hok2) as (d & -> & Hd). exists d. split; [done|].
  assert (∀ p, region_covers (Partial a) p ↔ cov rs1 p) as Ra
    by (intros p; cbn [region_covers]; by rewrite (proj2 (holds_live a rs1 Ha))).
  assert (∀ p, region_covers (Partial b) p ↔ cov rs2 p) as Rb
    by (intros p; cbn [region_covers]; by rewrite (proj2 (holds_live b rs2 Hb))).
  destruct d as [|u].
  - split; cbn [is_full_surface is_collapsed region_ok region_covers]; auto; try done. intros _. do 2 right. revert Hd. apply spread_mono. intros p. by rewrite <- Ra, <- Rb.
  - destruct Hd as (us & Hu & C & Ex & S & X).
    assert (∀ p, region_covers (Partial u) p ↔ cov us p) as Ru
      by (intros p; cbn [region_covers]; by rewrite (proj2 (holds_live u us Hu))).
    split; try done.
    + by exists us.
    + intros p. rewrite Ra, Rb, Ru. apply C.
    + intros _ Hc p. rewrite Ra, Rb, Ru. by apply Ex.
    + intros Hc. right. by apply S.
    + intros _ box Hw p. rewrite Ru. revert p. apply X. intros p. rewrite <- Ra, <- Rb. apply Hw.
Qed.

(** ** Lemmas: the history *)

(** A history of the regions [log], newest first. *)
Definition history_of (log : list DamageRegion) : PresentDamageHistory :=
  {| entries := map Some (take 4 log) ++ replicate (4 - length log) None;
     hlen := Z.min 4 (lenZ log) |}.

Lemma history_push_spec log r : history_push (history_of log) r = Ret (history_of (r :: log)).
Proof.
  destruct log as [|a [|b [|c [|d log]]]]; try reflexivity.
  unfold history_push, history_of. cbn [length hlen entries].
  replace (Z.min 4 (Z.of_nat (S (S (S (S (length log))))))) with 4 by lia.
  replace (Z.min 4 (Z.of_nat (S (S (S (S (S (length log)))))))) with 4 by lia.
  reflexivity.
Qed.

(** The regions of the frames presented, oldest first. *)
Fixpoint push_all (h : PresentDamageHistory) (rs : list DamageRegion) : result PresentDamageHistory :=
  match rs with
  | [] => mret h
  | r :: rs => h ← history_push h r; push_all h rs
  end.

Lemma push_all_spec rs : ∀ log, push_all (history_of log) rs = Ret (history_of (rev rs ++ log)).
Proof.
  induction rs as [|r rs IH]; intros log; cbn [push_all rev]; [done|].
  rewrite history_push_spec. cbn [mbind outcome_bind]. rewrite IH. by rewrite <- app_assoc.
Qed.

Lemma entries_lookup log j e :
  (j < 4)%nat → log !! j = Some e → entries (history_of log) !! j = Some (Some e).
Proof.
  intros Hj He. unfold history_of. cbn [entries]. pose proof (lookup_lt_Some _ _ _ He).
  rewrite lookup_app_l by (rewrite length_map, length_take; lia).
  change (map Some) with (fmap (M := list) (@Some DamageRegion)).
  rewrite list_lookup_fmap, lookup_take_lt by done. by rewrite He.
Qed.

(** The pixels of [k] entries from [i] on, and of a first region. *)
Definition repair_pixels (log : list DamageRegion) (rep : DamageRegion) (i k : nat) (p : pixel) : Prop :=
  region_covers rep p ∨ ∃ j e, (i ≤ j < i + k)%nat ∧ log !! j = Some e ∧ region_covers e p.

Lemma repair_pixels_S log rep e d i k p :
  log !! i = Some e →
  (∀ p, region_covers rep p ∨ region_covers e p → region_covers d p) →
  repair_pixels log rep i (S k) p → repair_pixels log d (S i) k p.
Proof.
  intros He Hd [Hp|(j & e' & Hj & He' & Hp)]; [left; auto|].
  destruct (decide (j = i)) as [->|]; [left; rewrite He in He'; injection He' as ->; auto|].
  right. exists j, e'. split; [lia|done].
Qed.

(** A repair: everything asked for, and no more than a box around it. *)
Definition repairs (asked : pixel → Prop) (any_full : Prop) (d : DamageRegion) : Prop :=
  region_ok d ∧ (∀ p, asked p → region_covers d p) ∧
  (is_full_surface d = true → any_full ∨ spread asked) ∧
  (is_full_surface d = false → ∀ box, (∀ p, asked p → within box p) →
     ∀ p, region_covers d p → within box p).

Definition any_full (log : list DamageRegion) (rep : DamageRegion) (i k : nat) : Prop :=
  is_full_surface rep = true ∨
  ∃ j e, (i ≤ j < i + k)%nat ∧ log !! j = Some e ∧ is_full_surface e = true.

Lemma repair_loop_spec log k : ∀ i rep,
  Forall region_ok log → (i + k ≤ 4)%nat → (i + k ≤ length log)%nat → region_ok rep →
  ∃ d, repair_loop (entries (history_of log)) rep (Z.of_nat i) k = Ret d ∧
    repairs (repair_pixels log rep i k) (any_full log rep i k) d.
Proof.
  induction k as [|k IH]; intros i rep Hlog Hi Hn Hrep; cbn [repair_loop].
  { eexists. split; [done|]. split; [done|]. split; [|split].
    - intros p [Hp|(j & ? & ? & _)]; [done|lia].
    - intros Hf. left. by left.
    - intros _ box Hw p Hp. apply Hw. by left. }
  destruct (lookup_lt_is_Some_2 log i) as [e He]; [lia|].
  unfold idx. rewrite Nat2Z.id, (entries_lookup log i e) by (done || lia). cbn [mbind outcome_bind].
  assert (region_ok e) as Hok by (rewrite Forall_lookup in Hlog; eauto).
  destruct (union_spec rep e Hrep Hok) as (u & -> & [U1 U2 _ _ U5 U6]). cbn [mbind outcome_bind].
  assert (∀ p, region_covers rep p ∨ region_covers e p → repair_pixels log rep i (S k) p) as Hin.
  { intros p [?|?]; [by left|]. right. exists i, e. split; [lia|done]. }
  destruct (is_full_surface u) eqn:Eu.
  { eexists. split; [done|]. split; [done|]. split; [done|]. split; [|done]. intros _.
    destruct (U6 eq_refl) as [Hf|[Hf|Hs]].
    - left. by left.
    - left. right. exists i, e. split; [lia|done].
    - right. revert Hs. by apply spread_mono. }
  replace (Z.of_nat i + 1) with (Z.of_nat (S i)) by lia.
  destruct (IH (S i) u) as (d & Hd & D1 & D2 & D3 & D4); [done|lia|lia|done|].
  exists d. split; [done|].
  assert (∀ box, (∀ p, repair_pixels log rep i (S k) p → within box p) →
            ∀ p, repair_pixels log u (S i) k p → within box p) as Hbox.
  { intros box Hw p [Hp|(j & e' & Hj & He' & Hp)].
    - revert p Hp. apply (U5 eq_refl). intros p Hp. apply Hw. auto.
    - apply Hw. right. exists j, e'. split; [lia|done]. }
  split; [done|]. split; [|split].
  - intros p Hp. apply D2. by eapply repair_pixels_S.
  - intros Hf. destruct (D3 Hf) as [[Hu|(j & e' & Hj & He')]|Hs]; [congruence| |].
    + left. right. exists j, e'. split; [lia|done].
    + right. intros box Hsm Hw. apply (Hs box Hsm). by apply Hbox.
  - intros Hf box Hw. apply (D4 Hf). by apply Hbox.
Qed.

(** Every region a plan can be asked to repair: the current one and those of the
    [age - 1] frames before it. *)
Definition stale (cur : DamageRegion) (log : list DamageRegion) (age : Z) : pixel → Prop :=
  repair_pixels log cur 0 (Z.to_nat (age - 1)).

(** The gate of [build_present_plan]. *)
Definition eligible (cur : DamageRegion) (log : list DamageRegion) (age_supported : bool) (age : Z)
    (db_matches_surface dest_single_sample : bool) : Prop :=
  age_supported = true ∧ 0 < age ∧ db_matches_surface = true ∧ dest_single_sample = true ∧
  is_full_surface cur = false ∧ age - 1 ≤ Z.min 4 (lenZ log).

Lemma build_plan_spec cur log sup age db ss :
  region_ok cur → Forall region_ok log →
  ∃ plan, build_present_plan cur (history_of log) sup age db ss = Ret plan ∧
    current plan = cur ∧ region_ok (repair plan) ∧
    ((¬ eligible cur log sup age db ss ∧ repair plan = FullSurface) ∨
     (eligible cur log sup age db ss ∧
      repairs (stale cur log age) (any_full log cur 0 (Z.to_nat (age - 1))) (repair plan))).
Proof.
  intros Hcur Hlog. unfold build_present_plan, eligible.
  assert (∀ P : Prop, ¬ P → ∃ plan, (rep ← Ret (E:=Empty_set) FullSurface;
      Ret {| current := cur; repair := rep |}) = Ret plan ∧ current plan = cur ∧
      region_ok (repair plan) ∧ (¬ P ∧ repair plan = FullSurface ∨
        P ∧ repairs (stale cur log age) (any_full log cur 0 (Z.to_nat (age - 1))) (repair plan))) as Hfull.
  { intros P HP. eexists. split; [done|]. cbn. auto. }
  destruct sup; cbn [negb orb]; [|apply Hfull; naive_solver].
  destruct (Z.leb_spec age 0) as [Ha|Ha]; cbn [orb]; [apply Hfull; naive_solver lia|].
  destruct db; cbn [negb orb]; [|apply Hfull; naive_solver].
  destruct ss; cbn [negb orb]; [|apply Hfull; naive_solver].
  destruct (is_full_surface cur) eqn:Ec; [apply Hfull; naive_solver|].
  unfold resolve_with_age. rewrite (proj2 (Z.leb_gt _ _)) by done.
  destruct (Z.eqb_spec age 1) as [->|Hne].
  { eexists. split; [done|]. cbn [current repair]. split; [done|]. split; [done|]. right.
    split; [split_and!; try done; lia|]. split; [done|]. split; [|split].
    - intros p [Hp|(j & ? & ? & _)]; [done|cbn in *; lia].
    - congruence.
    - intros _ box Hw p Hp. apply Hw. by left. }
  unfold history_of at 1. cbn [hlen].
  destruct (Z.ltb_spec (Z.min 4 (lenZ log)) (age - 1)); [apply Hfull; naive_solver lia|].
  destruct (repair_loop_spec log (Z.to_nat (age - 1)) 0 cur) as (d & Hd & Hr); [done|lia|lia|done|].
  change (Z.of_nat 0) with 0 in Hd. rewrite Hd. eexists. split; [done|]. cbn [current repair].
  split; [done|]. split; [apply Hr|]. right. split; [|done]. split_and!; try done; lia.
Qed.

(** Blitting the frame to the buffer, as the plan says. *)
Definition blit {A} (plan : BlitPlan) (src dst : pixel → A) : pixel → A :=
  match plan with
  | Full _ => src
  | Rects rs n => λ p, if decide (cov (take (Z.to_nat n) rs) p) then src p else dst p
  end.

Lemma blit_plan_spec rep db ss :
  region_ok rep →
  ∃ plan, blit_plan rep db ss = Ret plan ∧
    match plan with
    | Full linear => linear = negb db
    | Rects rs n => db = true ∧ ss = true ∧
        ∀ p, cov (take (Z.to_nat n) rs) p ↔ region_covers rep p
    end.
Proof.
  intros Hr. unfold blit_plan. destruct rep as [|r]; [by eexists|].
  destruct db, ss; cbn [andb]; try by eexists.
  apply partial_ok_holds in Hr as [rs Hr]. pose proof (holds_live r rs Hr) as [Hl Hlr].
  rewrite Hl. cbn [mbind outcome_bind]. pose proof Hr as (_ & Hlen & Hn & _).
  pose proof (copy_mid (E:=Empty_set) [] (replicate (length rs) PLACEHOLDER)
                (replicate (4 - length rs) PLACEHOLDER) rs 0 eq_refl) as Hcp.
  rewrite length_replicate in Hcp. specialize (Hcp eq_refl). cbn [app] in Hcp.
  rewrite <- replicate_add in Hcp. replace (length rs + (4 - length rs))%nat with 4%nat in Hcp by lia.
  rewrite Hcp. cbn [mbind outcome_bind]. eexists. split; [done|]. split; [done|]. split; [done|].
  intros p. rewrite Hlen, Nat2Z.id, take_app_length. cbn [region_covers]. by rewrite Hlr.
Qed.

(** ** Properties *)

(** A union loses no damage.  The union of two regions is a region (one to
    four rects, one once it collapsed) that covers every pixel of both; it adds
    no pixel until it collapses, then stays collapsed and inside every box that
    holds both; and it is the full surface only if one of them is, or no [i32]
    box holds them both. *)
Theorem union_loses_nothing (a b : DamageRegion) (Ha : region_ok a) (Hb : region_ok b) :
  ∃ u, union a b = Ret u ∧ region_ok u ∧
    (∀ p, region_covers a p ∨ region_covers b p → region_covers u p) ∧
    (is_full_surface u = false → is_collapsed u = false →
       ∀ p, region_covers u p → region_covers a p ∨ region_covers b p) ∧
    (is_collapsed a = true → is_full_surface u = true ∨ is_collapsed u = true) ∧
    (is_full_surface u = false → ∀ box,
       (∀ p, region_covers a p ∨ region_covers b p → within box p) →
       ∀ p, region_covers u p → within box p) ∧
    (is_full_surface u = true → is_full_surface a = true ∨ is_full_surface b = true ∨
       spread (λ p, region_covers a p ∨ region_covers b p)).
Proof.
  destruct (union_spec a b Ha Hb) as (u & Hu & []). exists u. auto 10.
Qed.

(** C31: an aged back buffer is repaired.  Let each frame differ from the one
    before only where its damage says, the frames of the history have been
    presented, and the buffer hold the frame of [age] presentations ago (or
    anything at all, when the age is not positive).  Then blitting the new frame
    as [blit_plan] says for the repair of [build_present_plan] leaves the new
    frame in the buffer, at every pixel. *)
Theorem aged_buffer_repaired {A} (frames : nat → pixel → A) (buffer : pixel → A)
    (cur : DamageRegion) (presented : list DamageRegion) (sup db ss : bool) (age : Z)
    (Hcur : region_ok cur) (Hok : Forall region_ok presented)
    (Hnew : ∀ p, ¬ region_covers cur p → frames 0%nat p = frames 1%nat p)
    (Hold : ∀ j d p, rev presented !! j = Some d → ¬ region_covers d p →
              frames (S j) p = frames (S (S j)) p)
    (Hbuf : 0 < age → ∀ p, buffer p = frames (Z.to_nat age) p) :
  ∃ h plan bp, push_all history_new presented = Ret h ∧
    build_present_plan cur h sup age db ss = Ret plan ∧
    swap_damage_region plan = cur ∧
    blit_plan (repair plan) db ss = Ret bp ∧
    ∀ p, blit bp (frames 0%nat) buffer p = frames 0%nat p.
Proof.
  pose proof (push_all_spec presented []) as Hp. rewrite app_nil_r in Hp.
  change (history_of []) with history_new in Hp.
  assert (Forall region_ok (rev presented)) as Hok' by by apply Forall_rev.
  destruct (build_plan_spec cur (rev presented) sup age db ss Hcur Hok') as (plan & Hb & Hc & Hr & Hcase).
  destruct (blit_plan_spec (repair plan) db ss Hr) as (bp & Hbp & Hm).
  exists (history_of (rev presented)), plan, bp. split_and!; try done. intros p.
  destruct bp as [l|rs n]; [done|]. cbn [blit]. destruct Hm as (_ & _ & Hm).
  destruct (decide (cov (take (Z.to_nat n) rs) p)) as [|Hn]; [done|]. rewrite Hm in Hn.
  destruct Hcase as [[_ Hf]|[(_ & Hage & _ & _ & _ & Hlen) (_ & Hasked & _)]]; [by rewrite Hf in Hn|].
  rewrite (Hbuf Hage). symmetry.
  assert (¬ stale cur (rev presented) age p) as Hns by auto. unfold stale, repair_pixels in Hns.
  assert (∀ m, (1 ≤ m ≤ Z.to_nat age)%nat → (m ≤ S (length (rev presented)))%nat →
            frames 0%nat p = frames m p) as Hall.
  { induction m as [|m IH]; intros Hm1 Hm2; [lia|]. destruct (decide (m = 0%nat)) as [->|].
    - apply Hnew. tauto.
    - rewrite IH by lia. destruct m as [|j]; [done|].
      destruct (lookup_lt_is_Some_2 (rev presented) j) as [d Hd]; [lia|].
      apply (Hold j d); [done|]. intros Hc'. apply Hns. right. exists j, d. split; [lia|done]. }
  apply Hall; lia.
Qed.

(** What the gate costs.  The repair is the full surface whenever the age is
    not supported or not positive, the drawing buffer and the surface differ in
    size, the surface is multisampled, the frame's own damage is full or the
    history is too short; otherwise it covers the current damage and that of the
    [age - 1] frames before, stays inside any box around them, and is full only
    when one of them is or no [i32] box holds them.  What the swap is told is the
    current damage and nothing wider. *)
Theorem present_plan_minimal (cur : DamageRegion) (presented : list DamageRegion)
    (sup db ss : bool) (age : Z) (ext rejected : bool)
    (Hcur : region_ok cur) (Hok : Forall region_ok presented) :
  ∃ h plan submitted, push_all history_new presented = Ret h ∧
    build_present_plan cur h sup age db ss = Ret plan ∧
    (¬ eligible cur (rev presented) sup age db ss → repair plan = FullSurface) ∧
    (eligible cur (rev presented) sup age db ss →
       repairs (stale cur (rev presented) age)
         (any_full (rev presented) cur 0 (Z.to_nat (age - 1))) (repair plan)) ∧
    surface_damage_to_submit plan ext rejected = Ret submitted ∧
    (is_Some submitted ↔ ext = true ∧ rejected = false ∧ is_full_surface cur = false) ∧
    (∀ rs, submitted = Some rs → ∀ p, cov rs p ↔ region_covers cur p).
Proof.
  pose proof (push_all_spec presented []) as Hp. rewrite app_nil_r in Hp.
  change (history_of []) with history_new in Hp.
  assert (Forall region_ok (rev presented)) as Hok' by by apply Forall_rev.
  destruct (build_plan_spec cur (rev presented) sup age db ss Hcur Hok') as (plan & Hb & Hc & Hr & Hcase).
  assert (∃ submitted, surface_damage_to_submit plan ext rejected = Ret submitted ∧
    (is_Some submitted ↔ ext = true ∧ rejected = false ∧ is_full_surface cur = false) ∧
    ∀ rs, submitted = Some rs → ∀ p, cov rs p ↔ region_covers cur p) as (sub & Hs1 & Hs2 & Hs3).
  { unfold surface_damage_to_submit, swap_damage_region. rewrite Hc.
    destruct ext, rejected; cbn [negb orb];
      try (eexists; split; [done|]; split; [by split; [intros []|naive_solver]|done]).
    destruct cur as [|c]; [by eexists; split; [done|]; split; [split; [intros []|naive_solver]|]|].
    apply partial_ok_holds in Hcur as [rs Hcur]. pose proof Hcur as (_ & _ & Hn & _).
    cbn [rects]. rewrite (proj1 (holds_live c rs Hcur)). cbn [mbind outcome_bind].
    unfold mret, outcome_ret. cbn [mbind outcome_bind].
    destruct rs as [|r rs]; [cbn in Hn; lia|]. eexists. split; [done|]. split; [by split|].
    intros rs' [= <-] p. cbn [region_covers]. by rewrite (proj2 (holds_live c _ Hcur)). }
  exists (history_of (rev presented)), plan, sub. split_and!; try done.
  - by destruct Hcase as [[_ ?]|[? _]].
  - by destruct Hcase as [[? _]|[_ ?]].
Qed.

(** ** Concrete damage *)

Definition rect_a : DamageRect := {| x := 0; y := 0; width := 10; height := 10 |}.
Definition rect_b : DamageRect := {| x := 40; y := 40; width := 10; height := 10 |}.

Lemma sample_ok : region_ok (from_rect rect_a) ∧ region_ok (from_rect rect_b).
Proof.
  split; cbn; apply partial_ok_holds; eexists; apply single_ok; unfold rect_ok, i32_min, i32_max; cbn; lia.
Defined.

Lemma union_loses_nothing_witness : ∃ u,
  union (from_rect rect_a) (from_rect rect_b) = Ret u ∧
  ∀ p, region_covers (from_rect rect_a) p ∨ region_covers (from_rect rect_b) p → region_covers u p.
Proof.
  destruct sample_ok as [Ha Hb].
  destruct (union_loses_nothing (from_rect rect_a) (from_rect rect_b) Ha Hb) as (u & Hu & _ & Hc & _).
  exists u. split; [exact Hu|exact Hc].
Defined.

(** Three frames: the last two changed [rect_a], then [rect_b]. *)
Definition sample_frames (i : nat) (p : pixel) : Z :=
  if decide (covers rect_b p) then (match i with O => 2 | _ => 0 end)
  else if decide (covers rect_a p) then (match i with O | S O => 1 | _ => 0 end) else 0.

Lemma aged_buffer_repaired_witness : ∃ h plan bp,
  push_all history_new [from_rect rect_a] = Ret h ∧
  build_present_plan (from_rect rect_b) h true 2 true true = Ret plan ∧
  blit_plan (repair plan) true true = Ret bp ∧
  ∀ p, blit bp (sample_frames 0) (sample_frames 2) p = sample_frames 0 p.
Proof.
  destruct sample_ok as [Ha Hb].
  destruct (aged_buffer_repaired sample_frames (sample_frames 2) (from_rect rect_b) [from_rect rect_a]
    true true true 2 Hb) as (h & plan & bp & H1 & H2 & _ & H3 & H4).
  - constructor; [exact Ha|constructor].
  - intros p Hp. unfold sample_frames. destruct (decide (covers rect_b p)) as [Hc|]; [|done].
    destruct Hp. by apply cov_one.
  - intros j d p Hj Hp. destruct j as [|j]; [|by destruct j]. injection Hj as <-. unfold sample_frames.
    destruct (decide (covers rect_b p)); [done|].
    destruct (decide (covers rect_a p)) as [Hc|]; [|done]. destruct Hp. by apply cov_one.
  - intros _ p. reflexivity.
  - exists h, plan, bp. split; [exact H1|]. split; [exact H2|]. split; [exact H3|exact H4].
Defined.

Lemma present_plan_minimal_witness : ∃ h plan,
  push_all history_new [from_rect rect_a] = Ret h ∧
  build_present_plan (from_rect rect_b) h true 5 true true = Ret plan ∧ repair plan = FullSurface.
Proof.
  destruct sample_ok as [Ha Hb].
  destruct (present_plan_minimal (from_rect rect_b) [from_rect rect_a] true true true 5 true false Hb)
    as (h & plan & sub & H1 & H2 & H3 & _).
  - constructor; [exact Ha|constructor].
  - exists h, plan. split; [exact H1|]. split; [exact H2|]. apply H3. unfold eligible. cbn. lia.
Defined.

End Present.

(** * The tracker of one frame *)

Module Tracker.

Definition rect : Type := Z * Z * Z * Z.

Inductive ResolvedDamage :=
  | FullSurface
  | Partial (x y width height : Z).

Definition MAX_DAMAGE_RECTS : Z := 4.

Record DamageTracker := {
  surface_size : Z * Z;
  dirty : list rect;
  force_full : bool
}.

Definition new (surface_size : Z * Z) : DamageTracker :=
  {| surface_size := surface_size; dirty := []; force_full := false |}.

(** The running corners of a bounding box: [x + w] is computed in [i32]. *)
Fixpoint grow (left top right bottom : Z) (rects : list rect) : result (Z * Z * Z * Z) :=
  match rects with
  | [] => mret (left, top, right, bottom)
  | (x, y, w, h) :: rects =>
      r ← i32_add x w; b ← i32_add y h;
      grow (Z.min left x) (Z.min top y) (Z.max right r) (Z.max bottom b) rects
  end.

Definition box_of (first : rect) (rects : list rect) : result rect :=
  let '(x, y, w, h) := first in
  r ← i32_add x w; b ← i32_add y h;
  c ← grow x y r b rects;
  let '(left_, top, right_, bottom) := c in
  width ← i32_sub right_ left_; height ← i32_sub bottom top;
  mret (left_, top, width, height).

Definition dirty_aabb (rects : list rect) : result (option rect) :=
  match rects with
  | [] => mret None
  | first :: rest => b ← box_of first rest; mret (Some b)
  end.

Definition collapse_to_aabb (existing : list rect) (extra : rect) : result rect :=
  box_of extra existing.

Definition mark_rect (t : DamageTracker) (r : rect) : result DamageTracker :=
  let '(x, y, width, height) := r in
  if (width <=? 0) || (height <=? 0) then mret t else
  let right_ := x + width in
  let bottom := y + height in
  if (i32_max <? right_) || (i32_max <? bottom)
  then mret {| surface_size := surface_size t; dirty := dirty t; force_full := true |} else
  if lenZ (dirty t) <? MAX_DAMAGE_RECTS
  then mret {| surface_size := surface_size t; dirty := dirty t ++ [r];
               force_full := force_full t |} else
  if MAX_DAMAGE_RECTS <=? lenZ (dirty t) then
    collapsed ← collapse_to_aabb (dirty t) r;
    mret {| surface_size := surface_size t; dirty := [collapsed]; force_full := force_full t |}
  else mret t.

Definition mark_requires_full_redraw (t : DamageTracker) : DamageTracker :=
  {| surface_size := surface_size t; dirty := dirty t; force_full := true |}.

Definition resolve (t : DamageTracker) : result ResolvedDamage :=
  if force_full t then mret FullSurface else
  let '(surface_width, surface_height) := surface_size t in
  if (surface_width <=? 0) || (surface_height <=? 0) then mret FullSurface else
  aabb ← dirty_aabb (dirty t);
  match aabb with
  | None => mret FullSurface
  | Some (x, y, width, height) =>
      let left := Z.max x 0 in
      let top := Z.max y 0 in
      r ← i32_add x width;
      let right_ := Z.min r surface_width in
      b ← i32_add y height;
      let bottom := Z.min b surface_height in
      if (right_ <=? left) || (bottom <=? top) then mret FullSurface else
      width ← i32_sub right_ left; height ← i32_sub bottom top;
      if (surface_width <=? width) && (surface_height <=? height) then mret FullSurface
      else mret (Partial left top width height)
  end.

(** The loop of [resolve_rects]. *)
Fixpoint clip_rects (surface_width surface_height : Z) (rects : list rect) : result (list rect) :=
  match rects with
  | [] => mret []
  | (x, y, w, h) :: rects =>
      let left := Z.max x 0 in
      let top := Z.max y 0 in
      r ← i32_add x w;
      let right_ := Z.min r surface_width in
      b ← i32_add y h;
      let bottom := Z.min b surface_height in
      if (right_ <=? left) || (bottom <=? top)
      then clip_rects surface_width surface_height rects
      else
        width ← i32_sub right_ left; height ← i32_sub bottom top;
        out ← clip_rects surface_width surface_height rects;
        mret ((left, top, width, height) :: out)
  end.

Definition resolve_rects (t : DamageTracker) : result (option (list rect)) :=
  if force_full t then mret None else
  let '(surface_width, surface_height) := surface_size t in
  if (surface_width <=? 0) || (surface_height <=? 0) || (lenZ (dirty t) =? 0) then mret None else
  out ← clip_rects surface_width surface_height (dirty t);
  match out with
  | [] => mret None
  | _ =>
      if existsb (λ '(_, _, w, h), (surface_width <=? w) && (surface_height <=? h)) out
      then mret None else mret (Some out)
  end.

Fixpoint mark_all (t : DamageTracker) (rs : list rect) : result DamageTracker :=
  match rs with
  | [] => mret t
  | r :: rs => t ← mark_rect t r; mark_all t rs
  end.

(** ** The specification *)

Definition covers (r : rect) (p : Z * Z) : Prop :=
  let '(x, y, w, h) := r in x ≤ fst p < x + w ∧ y ≤ snd p < y + h.

(** A rect the tracker keeps. *)
Definition usable (r : rect) : Prop :=
  let '(x, y, w, h) := r in
  i32_min ≤ x ∧ i32_min ≤ y ∧ 0 < w ∧ 0 < h ∧ x + w ≤ i32_max ∧ y + h ≤ i32_max.

(** It lies in a box whose sides an [i32] holds. *)
Definition inside (b : rect) (r : rect) : Prop :=
  let '(x0, y0, x1, y1) := b in let '(x, y, w, h) := r in
  x0 ≤ x ∧ y0 ≤ y ∧ x + w ≤ x1 ∧ y + h ≤ y1.

Definition small (b : rect) : Prop :=
  let '(x0, y0, x1, y1) := b in x1 - x0 ≤ i32_max ∧ y1 - y0 ≤ i32_max.

Definition kept (box r : rect) : Prop := usable r ∧ inside box r.

(** The pixels the tracker has recorded. *)
Definition recorded (t : DamageTracker) (p : Z * Z) : Prop :=
  force_full t = true ∨ Exists (λ r, covers r p) (dirty t).

Definition tracker_ok (box : rect) (t : DamageTracker) : Prop :=
  lenZ (dirty t) ≤ MAX_DAMAGE_RECTS ∧ Forall (kept box) (dirty t).

Definition on_surface (t : DamageTracker) (p : Z * Z) : Prop :=
  0 ≤ fst p < fst (surface_size t) ∧ 0 ≤ snd p < snd (surface_size t).

(** ** Lemmas *)

Lemma usable_edges {E} x y w h :
  usable (x, y, w, h) → i32_add (E:=E) x w = Ret (x + w) ∧ i32_add (E:=E) y h = Ret (y + h).
Proof. unfold usable. intros. split; apply i32_add_ret; lia. Qed.

(** The corners of a box that holds what it has been grown by. *)
Definition corners_ok (box c : rect) : Prop :=
  let '(x0, y0, x1, y1) := box in let '(l, t, r, b) := c in
  i32_min ≤ l < r ∧ i32_min ≤ t < b ∧ r ≤ i32_max ∧ b ≤ i32_max ∧
  x0 ≤ l ∧ y0 ≤ t ∧ r ≤ x1 ∧ b ≤ y1.

Definition in_corners (c : rect) (p : Z * Z) : Prop :=
  let '(l, t, r, b) := c in l ≤ fst p < r ∧ t ≤ snd p < b.

Lemma grow_spec box rs : ∀ l t r b,
  Forall (kept box) rs → corners_ok box (l, t, r, b) →
  ∃ c, grow l t r b rs = Ret c ∧ corners_ok box c ∧
    (∀ p, in_corners (l, t, r, b) p ∨ Exists (λ r, covers r p) rs → in_corners c p) ∧
    ∀ b', inside b' (l, t, r - l, b - t) → Forall (inside b') rs →
          let '(l', t', r', b'') := c in inside b' (l', t', r' - l', b'' - t').
Proof.
  induction rs as [|[[[x y] w] h] rs IH]; intros l t r b Hrs Hc; cbn [grow].
  { eexists. split; [done|]. split; [done|]. split; [|done].
    intros p [?|H]; [done|by apply Exists_nil in H]. }
  apply Forall_cons in Hrs as [[Hu Hi] Hrs]. destruct (usable_edges (E:=Empty_set) x y w h Hu) as [-> ->].
  cbn [mbind outcome_bind].
  destruct (IH (Z.min l x) (Z.min t y) (Z.max r (x + w)) (Z.max b (y + h)) Hrs) as (c & Hg & Hok & Hin & Ht).
  { destruct box as [[[x0 y0] x1] y1]. unfold usable, inside, corners_ok in *. lia. }
  exists c. split; [done|]. split; [done|]. split.
  - intros p Hp. apply Hin. rewrite Exists_cons in Hp.
    unfold in_corners, covers in *. destruct Hp as [?|[?|?]]; [left; lia|left; lia|by right].
  - intros b' Hb Hf. apply Forall_cons in Hf as [Hf1 Hf]. apply Ht; [|done].
    destruct b' as [[[x0 y0] x1] y1]. unfold inside in *. lia.
Qed.

Lemma box_of_spec box first rs :
  small box → kept box first → Forall (kept box) rs →
  ∃ u, box_of first rs = Ret u ∧ kept box u ∧
    (∀ p, covers first p ∨ Exists (λ r, covers r p) rs → covers u p) ∧
    ∀ b', inside b' first → Forall (inside b') rs → inside b' u.
Proof.
  intros Hs [Hu Hi] Hrs. destruct first as [[[x y] w] h]. unfold box_of.
  destruct (usable_edges (E:=Empty_set) x y w h Hu) as [-> ->]. cbn [mbind outcome_bind].
  destruct (grow_spec box rs x y (x + w) (y + h) Hrs) as ([[[l t] r] b] & -> & Hok & Hin & Ht).
  { destruct box as [[[x0 y0] x1] y1]. unfold usable, inside, corners_ok in *. lia. }
  cbn [mbind outcome_bind].
  assert (i32_min ≤ r - l ≤ i32_max ∧ i32_min ≤ b - t ≤ i32_max) as [Hw Hh].
  { destruct box as [[[x0 y0] x1] y1]. unfold corners_ok, small, i32_min in *. lia. }
  rewrite !i32_sub_ret by done. cbn [mbind outcome_bind]. eexists. split; [done|]. split; [|split].
  - destruct box as [[[x0 y0] x1] y1]. unfold kept, usable, inside, corners_ok, small in *. lia.
  - intros p Hp. specialize (Hin p). unfold covers, in_corners in *. destruct Hp; [|naive_solver lia].
    destruct Hin; [by left|]. lia.
  - intros b' Hf. apply Ht. replace (x + w - x) with w by lia. by replace (y + h - y) with h by lia.
Qed.

(** A mark: recorded, or too large to represent, and then everything is. *)
Definition mark_ok (box r : rect) : Prop :=
  let '(x, y, w, h) := r in
  is_i32 x ∧ is_i32 y ∧ is_i32 w ∧ is_i32 h ∧ (usable r → inside box r).

Lemma mark_rect_spec box t r :
  small box → tracker_ok box t → mark_ok box r →
  ∃ t', mark_rect t r = Ret t' ∧ tracker_ok box t' ∧ surface_size t' = surface_size t ∧
    ∀ p, recorded t p ∨ covers r p → recorded t' p.
Proof.
  intros Hs [Hl Hd] Hm. destruct r as [[[x y] w] h]. unfold mark_rect.
  destruct Hm as (Hx & Hy & Hw & Hh & Hin). unfold is_i32 in *.
  destruct (Z.leb_spec w 0), (Z.leb_spec h 0); cbn [orb].
  1-3: eexists; split; [done|]; split; [done|]; split; [done|]; intros p [?|Hp]; [done|];
    unfold covers in Hp; lia.
  destruct ((i32_max <? x + w) || (i32_max <? y + h)) eqn:Eo.
  { eexists. split; [done|]. split; [done|]. split; [done|]. intros p _. by left. }
  apply orb_false_iff in Eo as [Ex Ey]. bool_to_prop.
  assert (usable (x, y, w, h)) as Hu by (unfold usable, i32_min; lia).
  assert (kept box (x, y, w, h)) as Hk by by split; auto.
  destruct (Z.ltb_spec (lenZ (dirty t)) MAX_DAMAGE_RECTS).
  { eexists. split; [done|]. split; [|split; [done|]].
    - split; cbn [dirty].
      + rewrite length_app. cbn [length]. lia.
      + apply Forall_app. split; [done|]. by apply Forall_singleton.
    - intros p. unfold recorded. cbn [force_full dirty].
      rewrite Exists_app, Exists_cons, Exists_nil. tauto. }
  rewrite (proj2 (Z.leb_le _ _)) by done. unfold collapse_to_aabb.
  destruct (box_of_spec box (x, y, w, h) (dirty t) Hs Hk Hd) as (u & -> & Hku & Hcu & _).
  cbn [mbind outcome_bind]. eexists. split; [done|]. split; [|split; [done|]].
  - split; cbn [dirty length]; [unfold MAX_DAMAGE_RECTS; lia|by apply Forall_singleton].
  - intros p. unfold recorded. cbn [force_full dirty]. rewrite Exists_cons, Exists_nil.
    specialize (Hcu p). tauto.
Qed.

Lemma mark_all_spec box rs : ∀ t,
  small box → tracker_ok box t → Forall (mark_ok box) rs →
  ∃ t', mark_all t rs = Ret t' ∧ tracker_ok box t' ∧ surface_size t' = surface_size t ∧
    ∀ p, recorded t p ∨ Exists (λ r, covers r p) rs → recorded t' p.
Proof.
  induction rs as [|r rs IH]; intros t Hs Ht Hrs; cbn [mark_all].
  { eexists. split; [done|]. split; [done|]. split; [done|].
    intros p [?|H]; [done|by apply Exists_nil in H]. }
  apply Forall_cons in Hrs as [Hr Hrs].
  destruct (mark_rect_spec box t r Hs Ht Hr) as (t1 & -> & H1 & S1 & R1). cbn [mbind outcome_bind].
  destruct (IH t1 Hs H1 Hrs) as (t' & H' & Ht' & S' & R'). exists t'. split; [done|].
  split; [done|]. split; [congruence|]. intros p. rewrite Exists_cons. intros Hp. apply R'.
  specialize (R1 p). tauto.
Qed.

Definition sized (t : DamageTracker) : Prop :=
  is_i32 (fst (surface_size t)) ∧ is_i32 (snd (surface_size t)).

(** What a resolved frame says of the damage recorded. *)
Definition resolves (t : DamageTracker) (d : ResolvedDamage) : Prop :=
  match d with
  | Partial x y w h =>
      0 ≤ x ∧ 0 ≤ y ∧ 0 < w ∧ 0 < h ∧ x + w ≤ fst (surface_size t) ∧ y + h ≤ snd (surface_size t) ∧
      ∀ p, on_surface t p → recorded t p → covers (x, y, w, h) p
  | FullSurface =>
      force_full t = true ∨ (∀ p, ¬ (on_surface t p ∧ recorded t p)) ∨
      ∀ b', Forall (inside b') (dirty t) → inside b' (0, 0, fst (surface_size t), snd (surface_size t))
  end.

Lemma resolve_spec box t :
  small box → tracker_ok box t → sized t → ∃ d, resolve t = Ret d ∧ resolves t d.
Proof.
  intros Hs [Hl Hd] Hsz. unfold resolve, resolves, on_surface, recorded.
  destruct (force_full t); [eexists; split; [done|]; by left|].
  destruct Hsz as [Hsw Hsh]. destruct (surface_size t) as [sw sh]. cbn [fst snd] in *.
  destruct ((sw <=? 0) || (sh <=? 0)) eqn:Ez.
  { eexists. split; [done|]. right. left. intros p [Hp _].
    apply orb_true_iff in Ez as [?%Z.leb_le|?%Z.leb_le]; lia. }
  apply orb_false_iff in Ez as [Ez1 Ez2]. bool_to_prop.
  destruct (dirty t) as [|first rs]; cbn [dirty_aabb].
  { eexists. split; [done|]. right. left. intros p [_ [?|Hp]]; [done|by apply Exists_nil in Hp]. }
  apply Forall_cons in Hd as [Hf Hd].
  destruct (box_of_spec box first rs Hs Hf Hd) as ([[[x y] w] h] & -> & [Hu _] & Hcov & Ht).
  cbn [mbind outcome_bind]. unfold mret, outcome_ret. cbn [mbind outcome_bind].
  destruct (usable_edges (E:=Empty_set) x y w h Hu) as [-> ->]. cbn [mbind outcome_bind].
  unfold is_i32, usable, i32_min, i32_max in *.
  assert (∀ p, false = true ∨ Exists (λ r, covers r p) (first :: rs) → covers (x, y, w, h) p) as Hc.
  { intros p [?|Hp]; [done|]. apply Hcov. by apply Exists_cons in Hp. }
  destruct ((Z.min (x + w) sw <=? Z.max x 0) || (Z.min (y + h) sh <=? Z.max y 0)) eqn:Ee.
  { eexists. split; [done|]. right. left. intros p [Hp1 Hp2]. specialize (Hc p Hp2).
    unfold covers in Hc. apply orb_true_iff in Ee as [?%Z.leb_le|?%Z.leb_le]; lia. }
  apply orb_false_iff in Ee as [Ee1 Ee2]. bool_to_prop.
  rewrite !i32_sub_ret by (unfold i32_min, i32_max; lia). cbn [mbind outcome_bind].
  destruct ((sw <=? _) && _) eqn:Ea.
  - eexists. split; [done|]. right. right. intros b' Hb. apply Forall_cons in Hb as [Hb1 Hb2].
    specialize (Ht b' Hb1 Hb2). bool_to_prop. destruct b' as [[[x0 y0] x1] y1].
    unfold inside in *. lia.
  - eexists. split; [done|]. split_and!; try lia. intros p Hp Hr. specialize (Hc p Hr).
    unfold covers in *. lia.
Qed.

Lemma clip_rects_spec box sw sh rs :
  is_i32 sw → is_i32 sh → Forall (kept box) rs →
  ∃ out, clip_rects sw sh rs = Ret out ∧ (length out ≤ length rs)%nat ∧
    ∀ p, Exists (λ r, covers r p) out ↔
      (0 ≤ fst p < sw ∧ 0 ≤ snd p < sh) ∧ Exists (λ r, covers r p) rs.
Proof.
  intros Hsw Hsh. induction rs as [|[[[x y] w] h] rs IH]; intros Hrs; cbn [clip_rects].
  { eexists. split; [done|]. split; [done|]. intros p. rewrite !Exists_nil. tauto. }
  apply Forall_cons in Hrs as [[Hu _] Hrs]. destruct (IH Hrs) as (out & Ho & Hn & Hc).
  destruct (usable_edges (E:=Empty_set) x y w h Hu) as [-> ->]. cbn [mbind outcome_bind].
  unfold is_i32, usable, i32_min, i32_max in *.
  destruct ((Z.min (x + w) sw <=? Z.max x 0) || (Z.min (y + h) sh <=? Z.max y 0)) eqn:Ee.
  { exists out. split; [done|]. split; [cbn [length]; lia|].
    intros p. rewrite Hc, Exists_cons. unfold covers at 2.
    assert (¬ ((0 ≤ fst p < sw ∧ 0 ≤ snd p < sh) ∧ x ≤ fst p < x + w ∧ y ≤ snd p < y + h))
      by (apply orb_true_iff in Ee as [?%Z.leb_le|?%Z.leb_le]; lia).
    tauto. }
  apply orb_false_iff in Ee as [Ee1 Ee2]. bool_to_prop.
  rewrite !i32_sub_ret by (unfold i32_min, i32_max; lia). cbn [mbind outcome_bind].
  rewrite Ho. cbn [mbind outcome_bind]. eexists. split; [done|]. split; [cbn [length]; lia|].
  intros p. rewrite !Exists_cons, Hc. unfold covers at 1 3. 
  assert ((Z.max x 0 ≤ fst p < Z.max x 0 + (Z.min (x + w) sw - Z.max x 0) ∧
           Z.max y 0 ≤ snd p < Z.max y 0 + (Z.min (y + h) sh - Z.max y 0)) ↔
          (0 ≤ fst p < sw ∧ 0 ≤ snd p < sh) ∧ x ≤ fst p < x + w ∧ y ≤ snd p < y + h) by lia.
  tauto.
Qed.

Lemma resolve_rects_spec box t :
  tracker_ok box t → sized t →
  ∃ o, resolve_rects t = Ret o ∧
    match o with
    | None => True
    | Some out => force_full t = false ∧ lenZ out ≤ MAX_DAMAGE_RECTS ∧
        ∀ p, Exists (λ r, covers r p) out ↔ on_surface t p ∧ recorded t p
    end.
Proof.
  intros [Hl Hd] [Hsw Hsh]. unfold resolve_rects, on_surface, recorded.
  destruct (force_full t); [by eexists|]. destruct (surface_size t) as [sw sh]. cbn [fst snd] in *.
  destruct (_ || _); [by eexists|].
  destruct (clip_rects_spec box sw sh (dirty t) Hsw Hsh Hd) as (out & -> & Hn & Hc).
  cbn [mbind outcome_bind]. destruct out as [|r out]; [by eexists|].
  destruct (existsb _ _); [by eexists|]. eexists. split; [done|]. split; [done|]. split; [lia|].
  intros p. rewrite Hc. split; intros [? Hp]; (split; [done|]); [by right|by destruct Hp].
Qed.

(** ** Properties *)

(** No damage is lost within a frame.  Whatever [i32] rects are marked, if
    those the tracker can represent fit a box with [i32] sides, nothing panics,
    at most four rects are held, and every pixel of the surface that a mark covers is
    in what [resolve] answers and in what [resolve_rects] answers (which answers
    those pixels exactly, or [None] for a full redraw); both answers lie on the
    surface, and [resolve] gives up only on a full redraw asked for, no damage
    on the surface, or damage around all of it. *)
Theorem tracker_loses_nothing (size : Z * Z) (marks : list rect) (box : rect)
    (Hsize : is_i32 (fst size) ∧ is_i32 (snd size)) (Hbox : small box)
    (Hmarks : Forall (mark_ok box) marks) :
  ∃ t d o, mark_all (new size) marks = Ret t ∧ resolve t = Ret d ∧ resolve_rects t = Ret o ∧
    lenZ (dirty t) ≤ MAX_DAMAGE_RECTS ∧
    (∀ p, Exists (λ r, covers r p) marks → recorded t p) ∧
    resolves t d ∧
    match o with
    | None => True
    | Some out => force_full t = false ∧ lenZ out ≤ MAX_DAMAGE_RECTS ∧
        ∀ p, Exists (λ r, covers r p) out ↔ on_surface t p ∧ recorded t p
    end.
Proof.
  destruct (mark_all_spec box marks (new size) Hbox) as (t & Hm & Ht & Hs & Hr);
    [split; [done|constructor]|done|].
  assert (sized t) as Hsz by (unfold sized; by rewrite Hs).
  destruct (resolve_spec box t Hbox Ht Hsz) as (d & Hd & Hdr).
  destruct (resolve_rects_spec box t Ht Hsz) as (o & Ho & Hor).
  exists t, d, o. split_and!; try done; [apply Ht|]. intros p Hp. apply Hr. by right.
Qed.

(** The guard of [mark_rect] bounds each edge but not the span: two rects it
    lets through, one at each end of the [i32] range, make [resolve] overflow
    when it takes the width of their bounding box, and one more mark past the cap
    overflows in the collapse.  And the collapse is not sticky: the mark after it
    opens a second rect next to the bounding box. *)
Theorem tracker_span_overflows (size : Z * Z) (Hw : 0 < fst size) (Hh : 0 < snd size) :
  (∃ t, mark_all (new size) [(i32_min, 0, 1, 1); (i32_max - 1, 0, 1, 1)] = Ret t ∧
     force_full t = false ∧ resolve t = Panic) ∧
  mark_all (new size) [(i32_min, 0, 1, 1); (0, 0, 1, 1); (2, 0, 1, 1); (4, 0, 1, 1);
                       (i32_max - 1, 0, 1, 1)] = Panic ∧
  (∃ t, mark_all (new size) [(0, 0, 1, 1); (2, 0, 1, 1); (4, 0, 1, 1); (6, 0, 1, 1); (8, 0, 1, 1);
                             (90, 90, 1, 1)] = Ret t ∧
     dirty t = [(0, 0, 9, 1); (90, 90, 1, 1)]).
Proof.
  split; [|split].
  - eexists. split; [by vm_compute|]. split; [done|]. unfold resolve. cbn [force_full surface_size].
    destruct size as [w h]. cbn [fst snd] in *.
    rewrite (proj2 (Z.leb_gt _ _)), (proj2 (Z.leb_gt h _)) by done. by vm_compute.
  - by vm_compute.
  - eexists. split; by vm_compute.
Qed.

(** ** A concrete frame *)

Lemma tracker_loses_nothing_witness : ∃ t d,
  mark_all (new (1080, 1920)) [(10, 20, 30, 40); (-5, 0, 10, 10); (0, 0, 0, 7)] = Ret t ∧
  resolve t = Ret d ∧ resolves t d.
Proof.
  destruct (tracker_loses_nothing (1080, 1920) [(10, 20, 30, 40); (-5, 0, 10, 10); (0, 0, 0, 7)]
    (-100, -100, 5000, 5000)) as (t & d & o & H1 & H2 & _ & _ & _ & H3 & _).
  - cbn. unfold is_i32. lia.
  - cbn. unfold i32_max. lia.
  - repeat (apply Forall_cons; split; [cbn; unfold is_i32; lia|]). constructor.
  - exists t, d. split; [exact H1|]. split; [exact H2|exact H3].
Defined.

Lemma tracker_span_overflows_witness : ∃ t,
  mark_all (new (1080, 1920)) [(i32_min, 0, 1, 1); (i32_max - 1, 0, 1, 1)] = Ret t ∧ resolve t = Panic.
Proof.
  destruct (tracker_span_overflows (1080, 1920)) as ((t & H1 & _ & H2) & _); [cbn; lia|cbn; lia|].
  exists t. split; [exact H1|exact H2].
Defined.

End Tracker.
