(* ===== verification/Atlas.v ===== *)
(** The shelf allocator of the texture atlas
    ([engine/crates/graphics/src/atlas/allocator.rs]): pages of shelves, each
    shelf as high as its first image.

    The specification is geometric: images that are out at the same time lie in
    their page and, with their padding, do not touch. *)
From S2P Require Import Prelude.

(** Plain [-] and [+] on [u16], and [u16::checked_add], [checked_sub]. *)
Definition u16_max : Z := 2 ^ 16 - 1.
Definition is_u16 (z : Z) : Prop := 0 ≤ z ≤ u16_max.
Definition u16_add (a b : Z) : result Z := if a + b <=? u16_max then Ret (a + b) else Panic.
Definition u16_sub (a b : Z) : result Z := if 0 <=? a - b then Ret (a - b) else Panic.
Definition u16_checked_add (a b : Z) : option Z := if a + b <=? u16_max then Some (a + b) else None.
Definition u16_checked_sub (a b : Z) : option Z := if 0 <=? a - b then Some (a - b) else None.

Definition MAX_INPUT_DIM : Z := 256.
Definition DEFAULT_ATLAS_SIZE : Z := 2048.
Definition PAD : Z := 1.

Record AtlasRegion := { atlas_id : Z; rx : Z; ry : Z; rw : Z; rh : Z }.
Record Shelf := { sy : Z; height : Z; cursor_x : Z }.
Record Page := { shelves : list Shelf; next_shelf_y : Z }.
Record AtlasAllocator := { atlas_size : Z; pages : list Page }.

Definition new (size : Z) : AtlasAllocator := {| atlas_size := size; pages := [] |}.
Definition with_default_size : AtlasAllocator := new DEFAULT_ATLAS_SIZE.
Definition page_count (a : AtlasAllocator) : Z := lenZ (pages a) mod 2 ^ 32.

(** [for shelf in page.shelves.iter_mut()]: the region and the shelves after. *)
Fixpoint fit_shelves (size page_idx w h pw ph : Z) (ss : list Shelf) :
    result (option (AtlasRegion * list Shelf)) :=
  match ss with
  | [] => mret None
  | shelf :: ss =>
      let next :=
        r ← fit_shelves size page_idx w h pw ph ss;
        mret (match r with Some (region, ss) => Some (region, shelf :: ss) | None => None end) in
      if ph <=? height shelf then
        left_ ← u16_sub size (cursor_x shelf);
        if pw <=? left_ then
          cursor ← u16_add (cursor_x shelf) pw;
          mret (Some ({| atlas_id := page_idx; rx := cursor_x shelf; ry := sy shelf; rw := w; rh := h |},
                      {| sy := sy shelf; height := height shelf; cursor_x := cursor |} :: ss))
        else next
      else next
  end.

Definition try_fit_in_page (page : Page) (size page_idx w h pw ph : Z) :
    result (option AtlasRegion * Page) :=
  r ← fit_shelves size page_idx w h pw ph (shelves page);
  match r with
  | Some (region, ss) =>
      mret (Some region, {| shelves := ss; next_shelf_y := next_shelf_y page |})
  | None =>
      match u16_checked_sub size (next_shelf_y page) with
      | None => mret (None, page)
      | Some remaining_y =>
          if remaining_y <? ph then mret (None, page) else
          let shelf_y := next_shelf_y page in
          next ← u16_add shelf_y ph;
          mret (Some {| atlas_id := page_idx; rx := 0; ry := shelf_y; rw := w; rh := h |},
                {| shelves := shelves page ++ [{| sy := shelf_y; height := ph; cursor_x := pw |}];
                   next_shelf_y := next |})
      end
  end.

(** [for (page_idx, page) in self.pages.iter_mut().enumerate()]. *)
Fixpoint fit_pages (size page_idx w h pw ph : Z) (ps : list Page) :
    result (option AtlasRegion * list Page) :=
  match ps with
  | [] => mret (None, [])
  | page :: ps =>
      r ← try_fit_in_page page size (page_idx mod 2 ^ 32) w h pw ph;
      match r with
      | (Some region, page) => mret (Some region, page :: ps)
      | (None, page) =>
          r ← fit_pages size (page_idx + 1) w h pw ph ps;
          mret (fst r, page :: snd r)
      end
  end.

Definition allocate (a : AtlasAllocator) (w h : Z) : result (option AtlasRegion * AtlasAllocator) :=
  if (w =? 0) || (h =? 0) || (MAX_INPUT_DIM <? w) || (MAX_INPUT_DIM <? h) then mret (None, a) else
  match u16_checked_add w PAD with
  | None => mret (None, a)
  | Some pw =>
      match u16_checked_add h PAD with
      | None => mret (None, a)
      | Some ph =>
          if (atlas_size a <? pw) || (atlas_size a <? ph) then mret (None, a) else
          r ← fit_pages (atlas_size a) 0 w h pw ph (pages a);
          match r with
          | (Some region, ps) => mret (Some region, {| atlas_size := atlas_size a; pages := ps |})
          | (None, ps) =>
              let page_idx := lenZ ps mod 2 ^ 32 in
              r ← try_fit_in_page {| shelves := []; next_shelf_y := 0 |} (atlas_size a) page_idx
                    w h pw ph;
              let '(region, page) := r in
              mret (region, {| atlas_size := atlas_size a; pages := ps ++ [page] |})
          end
      end
  end.

Definition clear (a : AtlasAllocator) : AtlasAllocator :=
  {| atlas_size := atlas_size a; pages := [] |}.

(** * Runs: the calls of a caller, and the regions it holds *)

Inductive atlas_op := Allocate (w h : Z) | Clear.

Definition atlas_step (s : AtlasAllocator * list AtlasRegion) (o : atlas_op) :
    result (AtlasAllocator * list AtlasRegion) :=
  let '(a, held) := s in
  match o with
  | Allocate w h =>
      r ← allocate a w h;
      mret (snd r, match fst r with Some region => held ++ [region] | None => held end)
  | Clear => mret (clear a, [])
  end.

Fixpoint atlas_run (s : AtlasAllocator * list AtlasRegion) (os : list atlas_op) :
    result (AtlasAllocator * list AtlasRegion) :=
  match os with
  | [] => mret s
  | o :: os => s ← atlas_step s o; atlas_run s os
  end.

(** * The specification *)

(** The image and its padding lie in the page. *)
Definition in_page (size : Z) (r : AtlasRegion) : Prop :=
  0 ≤ rx r ∧ 0 ≤ ry r ∧ 0 < rw r ∧ 0 < rh r ∧ rx r + rw r + PAD ≤ size ∧ ry r + rh r + PAD ≤ size.

(** Two images with their padding do not touch. *)
Definition apart (r q : AtlasRegion) : Prop :=
  atlas_id r ≠ atlas_id q ∨
  rx r + rw r + PAD ≤ rx q ∨ rx q + rw q + PAD ≤ rx r ∨
  ry r + rh r + PAD ≤ ry q ∨ ry q + rh q + PAD ≤ ry r.

(** What the allocator can place at all. *)
Definition placeable (size w h : Z) : Prop :=
  0 < w ≤ MAX_INPUT_DIM ∧ 0 < h ≤ MAX_INPUT_DIM ∧ w + PAD ≤ size ∧ h + PAD ≤ size.

(** * Lemmas *)

Lemma apart_sym r q : apart r q → apart q r.
Proof. unfold apart. naive_solver. Qed.

(** Shelves stacked from [y0] up to [y1], each within the width. *)
Fixpoint stacked (size y0 y1 : Z) (ss : list Shelf) : Prop :=
  match ss with
  | [] => y0 = y1
  | s :: ss =>
      sy s = y0 ∧ 0 ≤ height s ∧ 0 ≤ cursor_x s ≤ size ∧ stacked size (y0 + height s) y1 ss
  end.

Definition page_ok (size : Z) (p : Page) : Prop :=
  stacked size 0 (next_shelf_y p) (shelves p) ∧ next_shelf_y p ≤ size.

Lemma stacked_le size ss : ∀ y0 y1, stacked size y0 y1 ss → y0 ≤ y1.
Proof. induction ss as [|s ss IH]; cbn; intros y0 y1; [lia|]. intros (_&?&_&Hs%IH). lia. Qed.

Lemma stacked_lookup size ss : ∀ y0 y1 i s,
  stacked size y0 y1 ss → ss !! i = Some s →
  y0 ≤ sy s ∧ sy s + height s ≤ y1 ∧ 0 ≤ height s ∧ 0 ≤ cursor_x s ≤ size.
Proof.
  induction ss as [|s0 ss IH]; intros y0 y1 i s; [done|]. cbn [stacked].
  intros (<-&?&?&Hs) Hi. destruct i as [|i]; cbn in Hi.
  - injection Hi as <-. apply stacked_le in Hs. lia.
  - specialize (IH _ _ _ _ Hs Hi). lia.
Qed.

Lemma stacked_order size ss : ∀ y0 y1 i j s t,
  stacked size y0 y1 ss → ss !! i = Some s → ss !! j = Some t → (i < j)%nat →
  sy s + height s ≤ sy t.
Proof.
  induction ss as [|s0 ss IH]; intros y0 y1 i j s t; [done|]. cbn [stacked].
  intros (<-&?&?&Hs) Hi Hj Hlt. destruct j as [|j]; [lia|]. cbn in Hj. destruct i as [|i]; cbn in Hi.
  - injection Hi as <-. apply (stacked_lookup _ _ _ _ _ _ Hs) in Hj. lia.
  - eapply IH; [done..|lia].
Qed.

Lemma stacked_app size ss : ∀ y0 y1 h c,
  stacked size y0 y1 ss → 0 ≤ h → 0 ≤ c ≤ size →
  stacked size y0 (y1 + h) (ss ++ [{| sy := y1; height := h; cursor_x := c |}]).
Proof.
  induction ss as [|s ss IH]; intros y0 y1 h c; cbn; [intros ->; auto|].
  intros (?&?&?&?) ??. auto.
Qed.

(** ** Placement on a shelf *)

(** The region [r] is on the shelf [s]. *)
Definition on_shelf (s : Shelf) (r : AtlasRegion) : Prop :=
  ry r = sy s ∧ 0 ≤ rx r ∧ 0 < rw r ∧ 0 < rh r ∧
  rh r + PAD ≤ height s ∧ rx r + rw r + PAD ≤ cursor_x s.

(** A shelf after something was added to its right. *)
Definition grown (s s' : Shelf) : Prop :=
  sy s' = sy s ∧ height s' = height s ∧ cursor_x s ≤ cursor_x s'.

Lemma on_shelf_grown s s' r : grown s s' → on_shelf s r → on_shelf s' r.
Proof. unfold grown, on_shelf. intros (-> & -> & ?). lia. Qed.

Lemma stacked_grow size ss : ∀ y0 y1 i s s',
  stacked size y0 y1 ss → ss !! i = Some s → grown s s' → cursor_x s' ≤ size →
  stacked size y0 y1 (<[i := s']> ss).
Proof.
  induction ss as [|s0 ss IH]; intros y0 y1 i s s'; [done|]. cbn [stacked].
  intros (Hy&Hh&Hc&Hs) Hi Hg Hle. destruct i as [|i]; cbn in Hi |- *.
  - injection Hi as ->. destruct Hg as (-> & -> & ?). split_and!; auto; lia.
  - split_and!; auto; try lia. eapply IH; eauto.
Qed.

Lemma u16_add_ret a b : a + b ≤ u16_max → u16_add a b = Ret (a + b).
Proof. intros. unfold u16_add. by rewrite (proj2 (Z.leb_le _ _)). Qed.

Lemma u16_sub_ret a b : 0 ≤ a - b → u16_sub a b = Ret (a - b).
Proof. intros. unfold u16_sub. by rewrite (proj2 (Z.leb_le _ _)). Qed.

Definition region (id x y w h : Z) : AtlasRegion :=
  {| atlas_id := id; rx := x; ry := y; rw := w; rh := h |}.

Lemma fit_shelves_spec size id w h ss : ∀ y0 y1,
  size ≤ u16_max → 0 < w → 0 < h → stacked size y0 y1 ss →
  ∃ o, fit_shelves size id w h (w + PAD) (h + PAD) ss = Ret o ∧
    match o with
    | None => True
    | Some (r, ss') => ∃ i s s', ss !! i = Some s ∧ ss' = <[i := s']> ss ∧ grown s s' ∧
        cursor_x s' ≤ size ∧ r = region id (cursor_x s) (sy s) w h ∧ on_shelf s' r
    end.
Proof.
  intros y0 y1 Hsz Hw Hh. revert y0. induction ss as [|s ss IH]; intros y0; cbn [fit_shelves stacked].
  { intros _. by eexists. }
  intros (Hy & Hh0 & Hc & Hs). destruct (IH _ Hs) as (o & Ho & Hspec). rewrite Ho.
  cbn [mbind outcome_bind]. rewrite u16_sub_ret by lia. cbn [mbind outcome_bind]. clear Ho.
  assert (∃ o', mret (match o with Some (region, ss0) => Some (region, s :: ss0) | None => None end)
      = Ret (E:=Empty_set) o' ∧
    match o' with
    | None => True
    | Some (r, ss') => ∃ i s0 s', (s :: ss) !! i = Some s0 ∧ ss' = <[i := s']> (s :: ss) ∧ grown s0 s' ∧
        cursor_x s' ≤ size ∧ r = region id (cursor_x s0) (sy s0) w h ∧ on_shelf s' r
    end) as Hnext.
  { eexists. split; [done|]. destruct o as [[r ss']|]; [|done].
    destruct Hspec as (i & s0 & s' & Hi & -> & ?). by exists (S i), s0, s'. }
  destruct (Z.leb_spec (h + PAD) (height s)); [|exact Hnext].
  destruct (Z.leb_spec (w + PAD) (size - cursor_x s)); [|exact Hnext].
  rewrite u16_add_ret by lia. cbn [mbind outcome_bind]. eexists. split; [done|].
  unfold PAD in *. eexists 0%nat, s, _. split; [done|]. split; [done|].
  unfold grown, on_shelf, region, PAD. cbn. split_and!; try done; lia.
Qed.

(** ** Placement on a page *)

Definition on_page (p : Page) (r : AtlasRegion) : Prop := ∃ i s, shelves p !! i = Some s ∧ on_shelf s r.

Lemma on_page_in size p r : page_ok size p → on_page p r → in_page size r.
Proof.
  intros [Hs Hn] (i & s & Hi & Hr). pose proof (stacked_lookup _ _ _ _ _ _ Hs Hi).
  unfold in_page, on_shelf in *. lia.
Qed.

(** The page after [r] was put on it: what was there stays, away from [r]. *)
Definition adds (p p' : Page) (r : AtlasRegion) : Prop :=
  on_page p' r ∧ ∀ q, on_page p q → on_page p' q ∧ apart r q.

Lemma adds_to_shelf size p i s s' r :
  page_ok size p → shelves p !! i = Some s → grown s s' → cursor_x s' ≤ size →
  on_shelf s' r → rx r = cursor_x s →
  let p' := {| shelves := <[i := s']> (shelves p); next_shelf_y := next_shelf_y p |} in
  page_ok size p' ∧ adds p p' r.
Proof.
  intros [Hs Hn] Hi Hg Hle Hr Hx p'. split.
  { split; [|done]. by eapply stacked_grow. }
  subst p'. unfold adds, on_page. cbn [shelves].
  assert (i < length (shelves p))%nat as Hlt by by eapply lookup_lt_Some.
  split; [exists i, s'; split; [by apply list_lookup_insert_eq|done]|].
  intros q (j & t & Hj & Hq). destruct (decide (i = j)) as [->|Hne].
  - rewrite Hi in Hj. injection Hj as <-. split.
    + exists j, s'. split; [by apply list_lookup_insert_eq|by eapply on_shelf_grown].
    + unfold apart, on_shelf in *. lia.
  - split.
    + exists j, t. split; [by rewrite list_lookup_insert_ne|done].
    + destruct (decide (i < j)%nat).
      * pose proof (stacked_order _ _ _ _ i j s t Hs Hi Hj). unfold apart, on_shelf, grown in *. lia.
      * pose proof (stacked_order _ _ _ _ j i t s Hs Hj Hi). unfold apart, on_shelf, grown in *. lia.
Qed.

Lemma adds_shelf size p id w h :
  page_ok size p → size ≤ u16_max → 0 < w → 0 < h → w + PAD ≤ size →
  next_shelf_y p + (h + PAD) ≤ size →
  let p' := {| shelves := shelves p ++ [{| sy := next_shelf_y p; height := h + PAD; cursor_x := w + PAD |}];
               next_shelf_y := next_shelf_y p + (h + PAD) |} in
  page_ok size p' ∧ adds p p' (region id 0 (next_shelf_y p) w h).
Proof.
  intros [Hs Hn] Hsz Hw Hh Hpw Hph p'. subst p'. unfold PAD, adds, on_page in *. cbn [shelves]. split.
  { split; cbn [shelves next_shelf_y]; [apply stacked_app; [done|lia|lia]|lia]. }
  split.
  - exists (length (shelves p)). eexists. split; [cbn; rewrite lookup_app_r, Nat.sub_diag by lia; done|].
    unfold on_shelf, region, PAD. cbn. lia.
  - intros q (j & t & Hj & Hq). pose proof (stacked_lookup _ _ _ _ _ _ Hs Hj).
    split; [exists j, t; split; [by apply lookup_app_l_Some|done]|].
    unfold apart, on_shelf, region, PAD in *. cbn. lia.
Qed.

Lemma try_fit_spec size p id w h :
  page_ok size p → size ≤ u16_max → 0 < w → 0 < h → w + PAD ≤ size →
  ∃ o p', try_fit_in_page p size id w h (w + PAD) (h + PAD) = Ret (o, p') ∧ page_ok size p' ∧
    match o with
    | None => p' = p ∧ size < next_shelf_y p + (h + PAD)
    | Some r => atlas_id r = id ∧ rw r = w ∧ rh r = h ∧ adds p p' r
    end.
Proof.
  intros Hp Hsz Hw Hh Hpw. unfold try_fit_in_page. pose proof Hp as [Hs Hn].
  destruct (fit_shelves_spec size id w h (shelves p) 0 (next_shelf_y p) Hsz Hw Hh Hs) as (o & -> & Ho).
  cbn [mbind outcome_bind]. destruct o as [[r ss]|].
  { destruct Ho as (i & s & s' & Hi & -> & Hg & Hle & -> & Hon).
    do 2 eexists. split; [done|].
    destruct (adds_to_shelf size p i s s' _ Hp Hi Hg Hle Hon eq_refl) as [Hok Hadds]. done. }
  pose proof (stacked_le _ _ _ _ Hs).
  unfold u16_checked_sub. rewrite (proj2 (Z.leb_le _ _)) by lia.
  destruct (Z.ltb_spec (size - next_shelf_y p) (h + PAD)).
  { do 2 eexists. split; [done|]. split; [done|]. split; [done|lia]. }
  rewrite u16_add_ret by lia. cbn [mbind outcome_bind]. do 2 eexists. split; [done|].
  destruct (adds_shelf size p id w h) as [Hok Hadds]; try done. lia.
Qed.

(** ** Placement in the atlas *)

Lemma fit_pages_spec size w h ps : ∀ k,
  size ≤ u16_max → 0 < w → 0 < h → w + PAD ≤ size → 0 ≤ k → k + lenZ ps < 2 ^ 32 →
  Forall (page_ok size) ps →
  ∃ o ps', fit_pages size k w h (w + PAD) (h + PAD) ps = Ret (o, ps') ∧ Forall (page_ok size) ps' ∧
    match o with
    | None => ps' = ps
    | Some r => ∃ i p p', ps !! i = Some p ∧ ps' = <[i := p']> ps ∧ adds p p' r ∧
        atlas_id r = k + Z.of_nat i ∧ rw r = w ∧ rh r = h
    end.
Proof.
  induction ps as [|p ps IH]; intros k Hsz Hw Hh Hpw Hk Hlt Hps; cbn [fit_pages length] in *.
  { do 2 eexists. split; [done|]. split; [constructor|done]. }
  apply Forall_cons in Hps as [Hp Hps]. rewrite Z.mod_small by lia.
  destruct (try_fit_spec size p k w h Hp Hsz Hw Hh Hpw) as (o & p' & -> & Hp' & Ho).
  cbn [mbind outcome_bind]. destruct o as [r|].
  - destruct Ho as (? & ? & ? & ?). do 2 eexists. split; [done|]. split; [by constructor|].
    exists 0%nat, p, p'. split_and!; try done. lia.
  - destruct Ho as [-> _]. destruct (IH (k + 1)) as (o & ps' & -> & Hok & Ho); try done; [lia|lia|].
    cbn [mbind outcome_bind fst snd]. do 2 eexists. split; [done|]. split; [by constructor|].
    destruct o as [r|]; [|by subst]. destruct Ho as (i & q & q' & Hi & -> & Hadds & Hid & ? & ?).
    exists (S i), q, q'. split_and!; try done. lia.
Qed.

(** The held region [r] is on its page. *)
Definition placed (a : AtlasAllocator) (r : AtlasRegion) : Prop :=
  ∃ k p, pages a !! k = Some p ∧ atlas_id r = Z.of_nat k ∧ on_page p r.

Definition all_apart (held : list AtlasRegion) : Prop :=
  ∀ i j r q, held !! i = Some r → held !! j = Some q → i ≠ j → apart r q.

Record atlas_ok (size : Z) (s : AtlasAllocator * list AtlasRegion) : Prop := {
  ao_size : atlas_size (fst s) = size;
  ao_pages : Forall (page_ok size) (pages (fst s));
  ao_placed : Forall (placed (fst s)) (snd s);
  ao_apart : all_apart (snd s)
}.

(** What is out after the calls [os]: every placeable request since the last
    [clear], oldest first. *)
Definition live_step (size : Z) (live : list (Z * Z)) (o : atlas_op) : list (Z * Z) :=
  match o with
  | Allocate w h => if bool_decide (placeable size w h) then live ++ [(w, h)] else live
  | Clear => []
  end.

Definition live (size : Z) (os : list atlas_op) : list (Z * Z) := foldl (live_step size) [] os.

Definition dims (r : AtlasRegion) : Z * Z := (rw r, rh r).

Definition op_u16 (o : atlas_op) : Prop :=
  match o with Allocate w h => is_u16 w ∧ is_u16 h | Clear => True end.

Lemma all_apart_snoc held r :
  all_apart held → (∀ q, q ∈ held → apart r q) → all_apart (held ++ [r]).
Proof.
  intros Hh Hr i j x y Hi Hj Hne.
  apply lookup_app_Some in Hi as [Hi|[Hlei Hi]]; apply lookup_app_Some in Hj as [Hj|[Hlej Hj]].
  - by eapply Hh.
  - apply list_lookup_singleton_Some in Hj as [_ <-]. apply apart_sym, Hr. by eapply list_elem_of_lookup_2.
  - apply list_lookup_singleton_Some in Hi as [_ <-]. apply Hr. by eapply list_elem_of_lookup_2.
  - apply list_lookup_singleton_Some in Hi as [? <-]. apply list_lookup_singleton_Some in Hj as [? <-]. lia.
Qed.

(** Everything placed before stays placed, and apart from the new region. *)
Definition places (a a' : AtlasAllocator) (r : AtlasRegion) : Prop :=
  placed a' r ∧ ∀ q, placed a q → placed a' q ∧ apart r q.

Lemma places_on_page a k p p' r :
  pages a !! k = Some p → atlas_id r = Z.of_nat k → adds p p' r →
  places a {| atlas_size := atlas_size a; pages := <[k := p']> (pages a) |} r.
Proof.
  intros Hk Hid [Hr Hq]. unfold places, placed. cbn [pages].
  assert (k < length (pages a))%nat by by eapply lookup_lt_Some.
  assert (<[k := p']> (pages a) !! k = Some p') as Hk' by by apply list_lookup_insert_eq.
  split; [by exists k, p'|]. intros q (j & t & Hj & Hjd & Hon).
  destruct (decide (k = j)) as [->|Hne].
  - rewrite Hk in Hj. injection Hj as <-. destruct (Hq _ Hon). split; [by exists j, p'|done].
  - split; [|left; lia]. exists j, t. by rewrite list_lookup_insert_ne.
Qed.

Lemma places_new_page a p r :
  atlas_id r = lenZ (pages a) → on_page p r →
  places a {| atlas_size := atlas_size a; pages := pages a ++ [p] |} r.
Proof.
  intros Hid Hon. unfold places, placed. cbn [pages]. split.
  - exists (length (pages a)), p. by rewrite lookup_app_r, Nat.sub_diag by lia.
  - intros q (j & t & Hj & Hjd & Hq). pose proof (lookup_lt_Some _ _ _ Hj).
    split; [|left; lia]. exists j, t. by rewrite lookup_app_l by lia.
Qed.

Lemma page_ok_new size : 0 ≤ size → page_ok size {| shelves := []; next_shelf_y := 0 |}.
Proof. intros. split; [done|cbn; lia]. Qed.

Lemma allocate_refused a w h :
  is_u16 w → is_u16 h → ¬ placeable (atlas_size a) w h → allocate a w h = Ret (None, a).
Proof.
  unfold is_u16, u16_max, placeable, allocate, u16_checked_add, u16_max, MAX_INPUT_DIM, PAD.
  intros Hw Hh Hp. repeat case_match; simplify_eq; try done; exfalso; apply Hp; lia.
Qed.

Lemma allocate_placed size a w h :
  size ≤ u16_max → atlas_size a = size → Forall (page_ok size) (pages a) → lenZ (pages a) < 2 ^ 32 →
  placeable size w h →
  ∃ r a', allocate a w h = Ret (Some r, a') ∧ dims r = (w, h) ∧ atlas_size a' = size ∧
    Forall (page_ok size) (pages a') ∧ lenZ (pages a') ≤ lenZ (pages a) + 1 ∧ places a a' r.
Proof.
  intros Hsz <- Hps Hn (Hw & Hh & Hpw & Hph). unfold allocate, u16_checked_add.
  unfold MAX_INPUT_DIM, u16_max in *.
  rewrite (proj2 (Z.eqb_neq w 0)), (proj2 (Z.eqb_neq h 0)), !(proj2 (Z.ltb_ge _ _)) by lia. cbn [orb].
  rewrite !(proj2 (Z.leb_le _ _)) by lia. cbv iota.
  rewrite !(proj2 (Z.ltb_ge _ _)) by lia. cbn [orb].
  destruct (fit_pages_spec (atlas_size a) w h (pages a) 0) as (o & ps & -> & Hok & Ho);
    try done; unfold u16_max; try lia.
  cbn [mbind outcome_bind]. destruct o as [r|].
  - destruct Ho as (i & p & p' & Hi & -> & Hadds & Hid & Hrw & Hrh). do 2 eexists.
    split; [done|]. split; [unfold dims; by rewrite Hrw, Hrh|]. do 2 (split; [done|]).
    split; [cbn [pages]; rewrite length_insert; lia|]. by eapply places_on_page.
  - subst ps. rewrite Z.mod_small by lia.
    destruct (try_fit_spec (atlas_size a) {| shelves := []; next_shelf_y := 0 |} (lenZ (pages a)) w h)
      as (o & p & -> & Hp & Ho); try done; unfold u16_max; try lia; [apply page_ok_new; unfold PAD in *; lia|].
    cbn [mbind outcome_bind]. destruct o as [r|]; [|cbn in Ho; lia].
    destruct Ho as (Hid & Hrw & Hrh & Hadds). do 2 eexists. split; [done|].
    split; [unfold dims; by rewrite Hrw, Hrh|]. split; [done|]. cbn [pages].
    split; [by apply Forall_app_2; [|apply Forall_singleton]|].
    split; [rewrite length_app; cbn; lia|]. by apply places_new_page; [|apply (proj1 Hadds)].
Qed.

Lemma atlas_step_ok size s o :
  size ≤ u16_max → atlas_ok size s → lenZ (pages (fst s)) < 2 ^ 32 → op_u16 o →
  ∃ s', atlas_step s o = Ret s' ∧ atlas_ok size s' ∧
    lenZ (pages (fst s')) ≤ lenZ (pages (fst s)) + 1 ∧
    map dims (snd s') = live_step size (map dims (snd s)) o.
Proof.
  intros Hsz [Ha Hps Hpl Hap] Hn Ho. destruct s as [a held]. cbn [fst snd] in *.
  destruct o as [w h|]; cbn [atlas_step live_step op_u16] in *.
  - destruct Ho as [Hw Hh]. case_bool_decide as Hp.
    + destruct (allocate_placed size a w h Hsz Ha Hps Hn Hp)
        as (r & a' & -> & Hd & Ha' & Hps' & Hn' & Hr & Hq). cbn [mbind outcome_bind fst snd].
      eexists. split; [done|]. split; [|split; [done|by cbn [fst snd]; rewrite map_app; cbn [map]; rewrite Hd]].
      split; cbn [fst snd]; try done.
      * apply Forall_app. split; [|by apply Forall_singleton]. eapply Forall_impl; [done|]. apply Hq.
      * apply all_apart_snoc; [done|]. intros q Hin. apply Hq. by eapply Forall_forall in Hpl.
    + subst size. rewrite allocate_refused by done. eexists. split; [done|]. split; [done|]. cbn [fst snd]. split; [lia|done].
  - eexists. split; [done|]. split; [|split; [cbn; lia|done]]. by split; cbn; try constructor.
Qed.

Lemma atlas_run_ok size os : ∀ s,
  size ≤ u16_max → atlas_ok size s → lenZ (pages (fst s)) + lenZ os < 2 ^ 32 → Forall op_u16 os →
  ∃ s', atlas_run s os = Ret s' ∧ atlas_ok size s' ∧ lenZ (pages (fst s')) < 2 ^ 32 ∧
    map dims (snd s') = foldl (live_step size) (map dims (snd s)) os.
Proof.
  induction os as [|o os IH]; intros s Hsz Hs Hn Hos; cbn [atlas_run foldl length] in *.
  { exists s. split_and!; try done. cbn in Hn. lia. }
  apply Forall_cons in Hos as [Ho Hos].
  destruct (atlas_step_ok size s o) as (s' & -> & Hs' & Hn' & Hd); try done; [lia|].
  cbn [mbind outcome_bind]. rewrite <- Hd. apply IH; try done. lia.
Qed.

Lemma placed_in size a r :
  Forall (page_ok size) (pages a) → placed a r → in_page size r ∧ 0 ≤ atlas_id r < lenZ (pages a).
Proof.
  intros Hps (k & p & Hk & Hid & Hon). pose proof (lookup_lt_Some _ _ _ Hk). split; [|lia].
  apply (on_page_in size p); [|done]. by eapply Forall_lookup_1 in Hps.
Qed.

(** * Properties *)

(** Whatever images are allocated from an atlas, cleared or not, no
    arithmetic of the allocator overflows; exactly the requests of at most 256
    pixels a side that fit the page with their padding are placed, each with the
    size that was asked for, on a page the atlas has and inside it, and no two
    images that are out at the same time touch, padding included. *)
Theorem atlas_never_overlaps size os
    (Hsize : 0 ≤ size ≤ u16_max) (Hos : Forall op_u16 os) (Hn : lenZ os < 2 ^ 32) :
  ∃ a held, atlas_run (new size, []) os = Ret (a, held) ∧
    map dims held = live size os ∧
    Forall (λ r, in_page size r ∧ 0 ≤ atlas_id r < page_count a) held ∧
    all_apart held.
Proof.
  destruct (atlas_run_ok size os (new size, [])) as ([a held] & Hrun & [Ha Hps Hpl Hap] & Hlt & Hd);
    [lia|by split; cbn; try constructor|done|done|]. cbn [fst snd] in *.
  exists a, held. split; [done|]. split; [done|]. split; [|done].
  eapply Forall_impl; [done|]. intros r Hr. unfold page_count. rewrite Z.mod_small by lia.
  by apply placed_in.
Qed.

Definition tiles : list atlas_op :=
  [Allocate 40 30; Allocate 60 20; Allocate 60 60; Allocate 0 7; Allocate 100 100; Allocate 20 29].

Lemma atlas_never_overlaps_witness :
  live 128 tiles = [(40, 30); (60, 20); (60, 60); (100, 100); (20, 29)] ∧
  ∃ a held, atlas_run (new 128, []) tiles = Ret (a, held) ∧
    map dims held = live 128 tiles ∧
    Forall (λ r, in_page 128 r ∧ 0 ≤ atlas_id r < page_count a) held ∧
    all_apart held.
Proof.
  split; [vm_compute; reflexivity|]. apply (atlas_never_overlaps 128 tiles).
  - unfold u16_max. lia.
  - unfold tiles. repeat apply Forall_cons_2; try apply Forall_nil_2; vm_compute; intuition discriminate.
  - vm_compute. reflexivity.
Defined.
