(* ===== verification/Sender.v ===== *)
(** Frame packets and the queue to the render thread
    ([engine/crates/shared/src/protocol/frame_packet.rs],
    [RenderCommand] of [render_cmd.rs], and [render_command_sender.rs]).

    The channel is crossbeam's: the class [Channel] has its operations and what
    its documentation says of them.  The process-wide counters are a record that
    the calls thread; each [fetch_add] is one atomic step, so their order in one
    call is all there is to see. *)
From S2P Require Import Prelude Opcodes Commands Decode RenderStream.

(** * Frame packets *)

Record FramePacket := { fp_frame_id : Z; fp_raf_time_ms : Z; fp_ops : list FrameOp }.

(** The builder has the packet's fields; a float is its bits. *)
Record FramePacketBuilder := { fb_frame_id : Z; fb_raf_time_ms : Z; fb_ops : list FrameOp }.

Definition builder (frame_id raf_time_ms : Z) : FramePacketBuilder :=
  {| fb_frame_id := frame_id; fb_raf_time_ms := raf_time_ms; fb_ops := [] |}.

Definition push (b : FramePacketBuilder) (op : FrameOp) : FramePacketBuilder :=
  {| fb_frame_id := fb_frame_id b; fb_raf_time_ms := fb_raf_time_ms b; fb_ops := fb_ops b ++ [op] |}.

Definition finish (b : FramePacketBuilder) : FramePacket :=
  {| fp_frame_id := fb_frame_id b; fp_raf_time_ms := fb_raf_time_ms b; fp_ops := fb_ops b |}.

Definition for_canvas_batch (frame_id raf_time_ms canvas_id : Z) (commands : list Canvas2DCmd)
    (present : bool) (dirty_rect : option DirtyRect) : FramePacket :=
  let b := push (push (builder frame_id raf_time_ms) BeginFrame)
             (CanvasBatch {| cb_canvas_id := canvas_id; cb_commands := commands;
                             cb_present := present; cb_dirty_rect := dirty_rect |}) in
  if present then finish (push b Present) else finish b.

Definition for_gl_batch (frame_id raf_time_ms : Z) (commands : list GLCmd) : FramePacket :=
  finish (push (push (builder frame_id raf_time_ms) BeginFrame) (GlBatch commands)).

Definition set_frame_metadata (p : FramePacket) (frame_id raf_time_ms : Z) : FramePacket :=
  {| fp_frame_id := frame_id; fp_raf_time_ms := raf_time_ms; fp_ops := fp_ops p |}.

(** * Commands to the render thread *)

(** The payloads only the render thread looks into. *)
Class ControlPayloads := {
  CanvasCmd : Type;
  RenderCmdResp : Type → Type;
  SyncResp : Type → Type;
  SurfaceReleaseDisposition : Type
}.

Inductive RenderCommand `{ControlPayloads} :=
  | FrameRate (fps : Z)
  | Shutdown
  | FramePacketCmd (packet : FramePacket)
  | Canvas (cmd : CanvasCmd)
  | GL (cmd : GLCmd)
  | GLBatch (commands : list GLCmd)
  | Canvas2D (canvas_id : Z) (cmd : Canvas2DCmd)
  | Canvas2DBatch (payload : CanvasBatchPayload)
  | Invalidate
  | LoadFont (family : string) (aliases : list string) (bytes : list Z) (resp : RenderCmdResp string)
  | GetTextLineHeight (font_family : string) (font_size : F32) (bold italic : bool)
      (resp : RenderCmdResp F32)
  | Pause
  | Resume
  | SurfaceDestroyed (generation : Z)
  | ReleaseOnscreen (generation : Z) (diagnostic : option (SyncResp SurfaceReleaseDisposition))
  | TrimTextCache (level : Z).

Inductive CommandClass := Draw | Lifecycle | Sync.
Inductive BackpressurePolicy := DropOnFull | BlockBounded.

#[global] Instance CommandClass_eq_dec : EqDecision CommandClass.
Proof. solve_decision. Defined.

Definition policy (c : CommandClass) : BackpressurePolicy :=
  match c with Draw | Sync => BlockBounded | Lifecycle => DropOnFull end.

Definition class `{ControlPayloads} (cmd : RenderCommand) : CommandClass :=
  match cmd with
  | FramePacketCmd _ | Canvas2DBatch _ | GLBatch _ | Canvas2D _ _ | GL _ => Draw
  | Canvas _ | LoadFont _ _ _ _ | ReleaseOnscreen _ _ => Sync
  | GetTextLineHeight _ _ _ _ _ => Sync
  | FrameRate _ | Pause | Resume | Shutdown | Invalidate | SurfaceDestroyed _ | TrimTextCache _ =>
      Lifecycle
  end.

(** * The channel *)

Definition CHANNEL_CAPACITY : Z := 512.
(** In milliseconds. *)
Definition BLOCKING_SEND_DEADLINE : Z := 8.

Inductive TrySendError := TryFull | TryDisconnected.
Inductive SendTimeoutError := TimedOut | TimeoutDisconnected.

(** crossbeam's bounded channel: a send that answers [Ok] has queued its
    message behind every message queued before, one that answers [Err] has
    queued nothing.  [queued] is everything queued so far, received or not. *)
Class Channel (Ch A : Type) := {
  bounded : Z → Ch;
  queued : Ch → list A;
  try_send : Ch → A → option TrySendError * Ch;
  send_timeout : Ch → A → Z → option SendTimeoutError * Ch;
  queued_bounded : ∀ n, queued (bounded n) = [];
  queued_try_send : ∀ ch a,
    queued (snd (try_send ch a)) = queued ch ++ (if fst (try_send ch a) is None then [a] else []);
  queued_send_timeout : ∀ ch a ms,
    queued (snd (send_timeout ch a ms)) =
    queued ch ++ (if fst (send_timeout ch a ms) is None then [a] else [])
}.

Inductive SendError := Overflow | Timeout | Disconnected.

#[global] Instance SendError_eq_dec : EqDecision SendError.
Proof. solve_decision. Defined.

(** [SEND_OVERFLOW] and [DROP_COUNTERS]. *)
Record Counters := {
  send_overflow : Z;
  draw_dropped : Z;
  draw_timeout : Z;
  lifecycle_dropped : Z;
  sync_timeout : Z
}.

Definition counters_zero : Counters :=
  {| send_overflow := 0; draw_dropped := 0; draw_timeout := 0; lifecycle_dropped := 0;
     sync_timeout := 0 |}.

(** [fetch_add(1)] of an [AtomicU64]. *)
Definition add1 (n : Z) : Z := (n + 1) mod 2 ^ 64.

(** A drop on a full queue, and a timeout, of a command of a class. *)
Definition count_drop (c : CommandClass) (k : Counters) : Counters :=
  {| send_overflow := add1 (send_overflow k);
     draw_dropped := if c is Draw then add1 (draw_dropped k) else draw_dropped k;
     draw_timeout := draw_timeout k;
     lifecycle_dropped := if c is Lifecycle then add1 (lifecycle_dropped k) else lifecycle_dropped k;
     sync_timeout := if c is Sync then add1 (sync_timeout k) else sync_timeout k |}.

Definition count_timeout (c : CommandClass) (k : Counters) : Counters :=
  {| send_overflow := add1 (send_overflow k);
     draw_dropped := draw_dropped k;
     draw_timeout := if c is Draw then add1 (draw_timeout k) else draw_timeout k;
     lifecycle_dropped := if c is Lifecycle then add1 (lifecycle_dropped k) else lifecycle_dropped k;
     sync_timeout := if c is Sync then add1 (sync_timeout k) else sync_timeout k |}.

Section Sender.
Context {P : ControlPayloads} {Ch : Type} {HC : Channel Ch RenderCommand}.

Definition sender_new : Ch := bounded CHANNEL_CAPACITY.

(** [None] is [Ok(())]. *)
Definition send_lifecycle (k : Counters) (ch : Ch) (cmd : RenderCommand) (c : CommandClass) :
    option SendError * Counters * Ch :=
  match try_send ch cmd with
  | (None, ch) => (None, k, ch)
  | (Some TryFull, ch) => (Some Overflow, count_drop c k, ch)
  | (Some TryDisconnected, ch) => (Some Disconnected, k, ch)
  end.

Definition send_blocking (k : Counters) (ch : Ch) (cmd : RenderCommand) (c : CommandClass) :
    option SendError * Counters * Ch :=
  match send_timeout ch cmd BLOCKING_SEND_DEADLINE with
  | (None, ch) => (None, k, ch)
  | (Some TimedOut, ch) => (Some Timeout, count_timeout c k, ch)
  | (Some TimeoutDisconnected, ch) => (Some Disconnected, k, ch)
  end.

Definition dispatch (k : Counters) (ch : Ch) (cmd : RenderCommand) :
    option SendError * Counters * Ch :=
  let c := class cmd in
  match policy c with
  | DropOnFull => send_lifecycle k ch cmd c
  | BlockBounded => send_blocking k ch cmd c
  end.

Definition send (k : Counters) (ch : Ch) (cmd : RenderCommand) : option SendError * Counters * Ch :=
  send_lifecycle k ch cmd (class cmd).

Definition send_blocking_bounded (k : Counters) (ch : Ch) (cmd : RenderCommand) :
    option SendError * Counters * Ch :=
  send_blocking k ch cmd (class cmd).

(** * Runs of a producer *)

Inductive entry := ByDispatch | BySend | ByBlocking.

Definition send_by (e : entry) : Counters → Ch → RenderCommand → option SendError * Counters * Ch :=
  match e with ByDispatch => dispatch | BySend => send | ByBlocking => send_blocking_bounded end.

(** What became of each command. *)
Record attempt := { at_entry : entry; at_command : RenderCommand; at_answer : option SendError }.

Definition step (s : list attempt * Counters * Ch) (x : entry * RenderCommand) :
    list attempt * Counters * Ch :=
  let '(log, k, ch) := s in
  let '(answer, k, ch) := send_by (fst x) k ch (snd x) in
  (log ++ [{| at_entry := fst x; at_command := snd x; at_answer := answer |}], k, ch).

Definition sends (ch : Ch) (xs : list (entry * RenderCommand)) : list attempt * Counters * Ch :=
  foldl step ([], counters_zero, ch) xs.

(** ** The specification *)

Definition delivered_command (a : attempt) : option RenderCommand :=
  match at_answer a with None => Some (at_command a) | Some _ => None end.

Definition lost (e : SendError) (c : CommandClass) (log : list attempt) : Z :=
  lenZ (filter (λ a, at_answer a = Some e ∧ class (at_command a) = c) log).

(** The counter of a loss. *)
Record counted (log : list attempt) (k : Counters) : Prop := {
  cn_total : send_overflow k =
    (lost Overflow Draw log + lost Overflow Lifecycle log + lost Overflow Sync log +
     lost Timeout Draw log + lost Timeout Lifecycle log + lost Timeout Sync log) mod 2 ^ 64;
  cn_draw_dropped : draw_dropped k = lost Overflow Draw log mod 2 ^ 64;
  cn_draw_timeout : draw_timeout k = lost Timeout Draw log mod 2 ^ 64;
  cn_lifecycle : lifecycle_dropped k =
    (lost Overflow Lifecycle log + lost Timeout Lifecycle log) mod 2 ^ 64;
  cn_sync : sync_timeout k = (lost Overflow Sync log + lost Timeout Sync log) mod 2 ^ 64
}.

(** What a way in may answer to a command of a class. *)
Definition answer_ok (a : attempt) : Prop :=
  match at_answer a with
  | None | Some Disconnected => True
  | Some Overflow => at_entry a = BySend ∨ at_entry a = ByDispatch ∧ class (at_command a) = Lifecycle
  | Some Timeout => at_entry a = ByBlocking ∨ at_entry a = ByDispatch ∧ class (at_command a) ≠ Lifecycle
  end.

(** ** Lemmas *)

Lemma lost_snoc e c log a :
  lost e c (log ++ [a]) =
  lost e c log + (if decide (at_answer a = Some e ∧ class (at_command a) = c) then 1 else 0).
Proof.
  unfold lost. rewrite filter_app, length_app. cbn [filter list_filter].
  destruct (decide _); cbn; lia.
Qed.

Lemma add1_mod n : add1 (n mod 2 ^ 64) = (n + 1) mod 2 ^ 64.
Proof. unfold add1. by rewrite Zplus_mod_idemp_l. Qed.

(** One send, whichever way in. *)
Lemma send_by_spec e k ch cmd :
  let '(answer, k', ch') := send_by e k ch cmd in
  queued ch' = queued ch ++ (if answer is None then [cmd] else []) ∧
  k' = match answer with
       | Some Overflow => count_drop (class cmd) k
       | Some Timeout => count_timeout (class cmd) k
       | _ => k
       end ∧
  answer_ok {| at_entry := e; at_command := cmd; at_answer := answer |}.
Proof.
  assert (∀ o, match send_lifecycle k ch cmd o with (answer, _, ch') =>
    queued ch' = queued ch ++ (if answer is None then [cmd] else []) end) as H1.
  { intros o. unfold send_lifecycle. pose proof (queued_try_send ch cmd) as H.
    destruct (try_send ch cmd) as [[[]|] ch']; exact H. }
  assert (∀ o, match send_blocking k ch cmd o with (answer, _, ch') =>
    queued ch' = queued ch ++ (if answer is None then [cmd] else []) end) as H2.
  { intros o. unfold send_blocking.
    pose proof (queued_send_timeout ch cmd BLOCKING_SEND_DEADLINE) as H.
    destruct (send_timeout ch cmd _) as [[[]|] ch']; exact H. }
  specialize (H1 (class cmd)). specialize (H2 (class cmd)).
  unfold send_by, dispatch, send, send_blocking_bounded, send_lifecycle, send_blocking, answer_ok in *.
  destruct e; [destruct (class cmd) eqn:Ec; cbn [policy]|..];
    destruct (try_send ch cmd) as [[[]|] c1], (send_timeout ch cmd _) as [[[]|] c2];
    cbn [at_answer at_entry at_command]; rewrite ?Ec; naive_solver.
Qed.

#[local] Ltac settle_decide :=
  repeat match goal with
  | |- context [decide ?P] =>
      first [rewrite (decide_True (P:=P)) by done | rewrite (decide_False (P:=P)) by (intros [??]; done)]
  end.

Lemma counted_step log k a :
  counted log k →
  counted (log ++ [a])
    match at_answer a with
    | Some Overflow => count_drop (class (at_command a)) k
    | Some Timeout => count_timeout (class (at_command a)) k
    | _ => k
    end.
Proof.
  intros [Ht Hd Hdt Hl Hs].
  destruct a as [en cmd answer]. cbn [at_answer at_command].
  destruct answer as [[]|]; destruct (class cmd) eqn:Ec;
    split; rewrite !lost_snoc; cbn [at_answer at_command]; rewrite Ec; settle_decide;
    cbn [count_drop count_timeout send_overflow draw_dropped draw_timeout lifecycle_dropped sync_timeout];
    rewrite ?Ht, ?Hd, ?Hdt, ?Hl, ?Hs, ?add1_mod; f_equal; lia.
Qed.

Lemma sends_spec xs : ∀ log k ch log' k' ch' base,
  foldl step (log, k, ch) xs = (log', k', ch') →
  counted log k → Forall answer_ok log → queued ch = base ++ omap delivered_command log →
  counted log' k' ∧ Forall answer_ok log' ∧ queued ch' = base ++ omap delivered_command log' ∧
  map (λ a, (at_entry a, at_command a)) log' = map (λ a, (at_entry a, at_command a)) log ++ xs.
Proof.
  induction xs as [|[e cmd] xs IH]; intros log k ch log' k' ch' base; cbn [foldl].
  { intros [= <- <- <-] ???. by rewrite app_nil_r. }
  intros H Hc Ha Hq. unfold step at 2 in H. cbn [fst snd] in H.
  pose proof (send_by_spec e k ch cmd) as Hs. destruct (send_by e k ch cmd) as [[answer k1] ch1].
  destruct Hs as (Hq1 & -> & Hok). set (a := {| at_entry := e; at_command := cmd; at_answer := answer |}) in *.
  destruct (IH _ _ _ _ _ _ base H) as (R1 & R2 & R3 & R4).
  - by apply (counted_step log k a).
  - apply Forall_app; split; [done|by apply Forall_singleton].
  - rewrite Hq1, Hq, <- app_assoc, omap_app. unfold a, delivered_command. cbn. by destruct answer.
  - split_and!; try done. rewrite R4, map_app, <- app_assoc. done.
Qed.

(** * Properties *)

(** Nothing a producer sends is lost without a trace.  Whatever commands are
    sent, by whichever way in, the render thread's queue gets exactly the ones
    answered [Ok], in order; each command that is dropped or timed out is counted
    once, in the counter of its class and in the total; and [dispatch] never
    drops a draw or a reply-carrying command on a full queue (it waits), and
    never waits for a lifecycle command. *)
Theorem sends_accounted (ch : Ch) (xs : list (entry * RenderCommand)) :
  let '(log, k, ch') := sends ch xs in
  map (λ a, (at_entry a, at_command a)) log = xs ∧
  queued ch' = queued ch ++ omap delivered_command log ∧
  counted log k ∧ Forall answer_ok log.
Proof.
  unfold sends. destruct (foldl _ _ xs) as [[log k] ch'] eqn:E.
  destruct (sends_spec xs [] counters_zero ch log k ch' (queued ch) E) as (? & ? & ? & ?);
    [by split|done|by rewrite app_nil_r|done].
Qed.

End Sender.

(** * A concrete channel: room for so many, nothing received *)

Record list_channel (A : Type) := { lc_queued : list A; lc_room : nat; lc_open : bool }.
Arguments lc_queued {A}.
Arguments lc_room {A}.
Arguments lc_open {A}.

Definition lc_send {A E} (closed full : E) (ch : list_channel A) (a : A) : option E * list_channel A :=
  if negb (lc_open ch) then (Some closed, ch) else
  match lc_room ch with
  | O => (Some full, ch)
  | S room => (None, {| lc_queued := lc_queued ch ++ [a]; lc_room := room; lc_open := true |})
  end.

Lemma lc_send_queued {A E} (closed full : E) (ch : list_channel A) a :
  lc_queued (snd (lc_send closed full ch a)) =
  lc_queued ch ++ (if fst (lc_send closed full ch a) is None then [a] else []).
Proof.
  unfold lc_send. destruct (lc_open ch), (lc_room ch); cbn; by rewrite ?app_nil_r.
Qed.

Definition list_channel_laws (A : Type) : Channel (list_channel A) A.
Proof.
  refine {| bounded := λ n, {| lc_queued := []; lc_room := Z.to_nat n; lc_open := true |};
            queued := lc_queued;
            try_send := lc_send TryDisconnected TryFull;
            send_timeout := λ ch a _, lc_send TimeoutDisconnected TimedOut ch a |}.
  - done.
  - intros. apply lc_send_queued.
  - intros. apply lc_send_queued.
Defined.

Definition no_payloads : ControlPayloads :=
  {| CanvasCmd := unit; RenderCmdResp := λ _, unit; SyncResp := λ _, unit;
     SurfaceReleaseDisposition := unit |}.

#[local] Existing Instances no_payloads list_channel_laws.

(** A queue with room for two. *)
Definition small_queue : list_channel RenderCommand := bounded 2.

Definition sample_sends : list (entry * RenderCommand) :=
  [(ByDispatch, Pause); (ByDispatch, GL (Clear 1 2)); (ByDispatch, Resume); (ByDispatch, Canvas tt);
   (BySend, GL (Clear 1 2))].

Lemma sends_accounted_witness :
  let '(log, k, ch) := sends small_queue sample_sends in
  (draw_dropped k = 1 ∧ lifecycle_dropped k = 1 ∧ sync_timeout k = 1 ∧ send_overflow k = 3) ∧
  queued ch = [Pause; GL (Clear 1 2)] ∧ counted log k.
Proof.
  pose proof (sends_accounted small_queue sample_sends) as H.
  destruct (sends small_queue sample_sends) as [[log k] ch] eqn:E.
  destruct H as (_ & Hq & Hc & _). vm_compute in E. injection E as <- <- <-.
  split; [by vm_compute|]. split; [by vm_compute|exact Hc].
Defined.
