(* ===== verification/RelAcq.v ===== *)
(** Memory with release and acquire accesses.

    An atomic location has the list of its messages, in its modification order; a
    message carries the view it releases, and a thread has a view of its own: for each
    location the oldest message it may still read.  A load may answer any message that
    is not older; it acquires that message's view.  A store or a read-modify-write
    releases the thread's; a read-modify-write reads the newest message and follows it,
    so it releases what it acquired too.  Accesses are not totally ordered: of two
    threads that each store in one location and then load from the other's, both may
    read the old message.

    A store is appended: what is lost is only that stores without a read may be ordered
    against the order they were made in, which matters for two stores of different
    values in one location. *)
From S2P Require Import Prelude.

Set Default Proof Using "Type".

Section memory.
Context {L : Type} `{EqDecision L}.

(** * Views *)

Definition view : Type := L → nat.
Definition bot : view := λ _, 0%nat.
Definition raise (v : view) (l : L) (t : nat) : view := λ l', if decide (l' = l) then Nat.max (v l) t else v l'.
Definition join (v u : view) : view := λ l, Nat.max (v l) (u l).
Definition view_le (v u : view) : Prop := ∀ l, (v l ≤ u l)%nat.

(** * Messages *)

Record message := { value : Z; released : view }.
Definition memory : Type := L → list message.

(** Every location with one message. *)
Definition initial (x : L → Z) : memory := λ l, [{| value := x l; released := bot |}].

Definition append (m : memory) (l : L) (x : Z) (v : view) : memory :=
  λ l', if decide (l' = l) then m l ++ [{| value := x; released := v |}] else m l'.

(** The newest message. *)
Definition newest (m : memory) (l : L) : Z := default 0 (value <$> last (m l)).

(** The message a thread has seen last. *)
Definition seen (m : memory) (v : view) (l : L) : Z := default 0 (value <$> m l !! v l).

(** * Accesses *)

(** [load(Acquire)] of message [t]. *)
Definition load (m : memory) (v : view) (l : L) (t : nat) : option (Z * view) :=
  if decide (v l ≤ t)%nat then x ← m l !! t; Some (value x, join (raise v l t) (released x)) else None.

(** [store(Release)] *)
Definition store (m : memory) (v : view) (l : L) (x : Z) : memory * view :=
  let v := raise v l (length (m l)) in (append m l x v, v).

(** A read-modify-write with [AcqRel]: what it writes depends on what it reads, and may
    be nothing. *)
Definition update (m : memory) (v : view) (l : L) (f : Z → option Z) : option (memory * view) :=
  x ← last (m l);
  y ← f (value x);
  let v := raise (join v (released x)) l (length (m l)) in
  Some (append m l y v, v).

(** * Well-formedness *)

(** A view names messages that are there. *)
Definition closed (m : memory) (v : view) : Prop := ∀ l, (v l < length (m l))%nat.

(** A message releases nothing newer than itself of its own location. *)
Record memory_ok (m : memory) : Prop := {
  mo_closed : ∀ l t x, m l !! t = Some x → closed m (released x);
  mo_own : ∀ l t x, m l !! t = Some x → (released x l ≤ t)%nat;
  mo_some : ∀ l, m l ≠ [];
}.

(** * Lemmas *)

#[global] Instance view_le_preorder : PreOrder view_le.
Proof. split; [by intros v l|]. intros u v w H1 H2 l. specialize (H1 l). specialize (H2 l). lia. Qed.

Lemma join_l v u : view_le v (join v u).
Proof. intros l. unfold join. lia. Qed.
Lemma join_r v u : view_le u (join v u).
Proof. intros l. unfold join. lia. Qed.
Lemma raise_le v l t : view_le v (raise v l t).
Proof. intros l'. unfold raise. case_decide; subst; lia. Qed.
Lemma raise_at v l t : raise v l t l = Nat.max (v l) t.
Proof. unfold raise. by rewrite decide_True. Qed.
Lemma raise_other v l l' t : l' ≠ l → raise v l t l' = v l'.
Proof. intros. unfold raise. by rewrite decide_False. Qed.

Lemma append_at m l x v : append m l x v l = m l ++ [{| value := x; released := v |}].
Proof. unfold append. by rewrite decide_True. Qed.
Lemma append_other m l l' x v : l' ≠ l → append m l x v l' = m l'.
Proof. intros. unfold append. by rewrite decide_False. Qed.
Lemma append_length m l x v l' : (length (m l') ≤ length (append m l x v l'))%nat.
Proof. unfold append. case_decide; [subst; rewrite length_app; lia|done]. Qed.
Lemma append_lookup m l x v l' t y : m l' !! t = Some y → append m l x v l' !! t = Some y.
Proof. unfold append. case_decide; [subst|done]. apply lookup_app_l_Some. Qed.
Lemma append_lookup_inv m l x v l' t y :
  append m l x v l' !! t = Some y →
  m l' !! t = Some y ∨ l' = l ∧ t = length (m l) ∧ y = {| value := x; released := v |}.
Proof.
  unfold append. case_decide; [subst|by left]. intros [?|[Hle Hy]]%lookup_app_Some; [by left|right].
  apply list_lookup_singleton_Some in Hy as [? <-]. split; [done|]. split; [lia|done].
Qed.
Lemma newest_append m l x v : newest (append m l x v) l = x.
Proof. unfold newest. by rewrite append_at, last_snoc. Qed.
Lemma newest_other m l l' x v : l' ≠ l → newest (append m l x v) l' = newest m l'.
Proof. intros. unfold newest. by rewrite append_other. Qed.

Lemma closed_append m l x v u : closed m u → closed (append m l x v) u.
Proof. intros H l'. specialize (H l'). pose proof (append_length m l x v l'). lia. Qed.
Lemma closed_join m v u : closed m v → closed m u → closed m (join v u).
Proof. intros H1 H2 l. specialize (H1 l). specialize (H2 l). unfold join. lia. Qed.
Lemma closed_raise m v l t : closed m v → (t < length (m l))%nat → closed m (raise v l t).
Proof. intros H1 H2 l'. specialize (H1 l'). unfold raise. case_decide; subst; lia. Qed.
Lemma closed_bot m : memory_ok m → closed m bot.
Proof. intros Hm l. unfold bot. destruct (m l) eqn:E; [by apply (mo_some m Hm) in E|cbn; lia]. Qed.

(** The view of a store is closed once the store is made. *)
Lemma closed_written m l x v u :
  closed m u → closed (append m l x v) (raise u l (length (m l))).
Proof.
  intros H. apply closed_raise; [by apply closed_append|]. rewrite append_at, length_app. cbn. lia.
Qed.

Lemma seen_append m l x v u l' : closed m u → seen (append m l x v) u l' = seen m u l'.
Proof.
  intros H. unfold seen. destruct (lookup_lt_is_Some_2 (m l') (u l')) as [y Hy]; [apply H|].
  by rewrite Hy, (append_lookup _ _ _ _ _ _ _ Hy).
Qed.

Lemma memory_ok_append m l x v :
  memory_ok m → closed (append m l x v) v → (v l ≤ length (m l))%nat → memory_ok (append m l x v).
Proof.
  intros [Hc Ho Hs] Hv Hl. constructor.
  - intros l' t y [Hy|(-> & -> & ->)]%append_lookup_inv; [|done]. by eapply closed_append, Hc.
  - intros l' t y [Hy|(-> & -> & ->)]%append_lookup_inv; [by eapply Ho|done].
  - intros l'. pose proof (append_length m l x v l'). destruct (m l') eqn:E; [by apply Hs in E|].
    destruct (append m l x v l'); cbn in *; [lia|done].
Qed.

Lemma memory_ok_initial x : memory_ok (initial x).
Proof.
  constructor; unfold initial.
  - intros l [|t] y; cbn; [|done]. intros [= <-] l'. apply Nat.lt_0_1.
  - intros l [|t] y; cbn; [|done]. intros [= <-]. apply Nat.le_refl.
  - done.
Qed.

(** What a load answers, and what the thread knows after it. *)
Lemma load_inv m v l t x v' :
  memory_ok m → closed m v → load m v l t = Some (x, v') →
  (v l ≤ t)%nat ∧ v' l = t ∧ view_le v v' ∧ closed m v' ∧ seen m v' l = x ∧
  ∃ msg, m l !! t = Some msg ∧ value msg = x ∧ view_le (released msg) v' ∧ v' = join (raise v l t) (released msg).
Proof.
  intros [Hc Ho _] Hv. unfold load. case_decide as Ht; [|done].
  destruct (m l !! t) as [msg|] eqn:E; cbn; [|done]. intros [= <- <-].
  assert (Hl : join (raise v l t) (released msg) l = t).
  { unfold join. rewrite raise_at. specialize (Ho l t msg E). lia. }
  split_and!; [done|exact Hl| | | |].
  - etrans; [apply (raise_le v l t)|apply join_l].
  - apply closed_join; [|by eapply Hc]. apply closed_raise; [done|]. by eapply lookup_lt_Some.
  - unfold seen. by rewrite Hl, E.
  - exists msg. split_and!; [done|done|apply join_r|done].
Qed.

Lemma store_inv m v l x m' v' :
  memory_ok m → closed m v → store m v l x = (m', v') →
  memory_ok m' ∧ closed m' v' ∧ view_le v v' ∧ v' l = length (m l) ∧ m' = append m l x v'.
Proof.
  intros Hm Hv [= <- <-]. assert (Hl : raise v l (length (m l)) l = length (m l)).
  { rewrite raise_at. specialize (Hv l). lia. }
  pose proof (closed_written m l x (raise v l (length (m l))) v Hv) as Hc.
  split_and!; [apply memory_ok_append; [done|done|rewrite Hl; lia]|done|apply raise_le|done|done].
Qed.

Lemma update_inv m v l f m' v' :
  memory_ok m → closed m v → update m v l f = Some (m', v') →
  ∃ msg y, last (m l) = Some msg ∧ f (value msg) = Some y ∧ newest m l = value msg ∧
    memory_ok m' ∧ closed m' v' ∧ view_le v v' ∧ view_le (released msg) v' ∧ v' l = length (m l) ∧ m' = append m l y v' ∧
    v' = raise (join v (released msg)) l (length (m l)).
Proof.
  intros Hm Hv. unfold update, newest. destruct (last (m l)) as [msg|] eqn:E; cbn; [|done].
  destruct (f (value msg)) as [y|] eqn:Ef; cbn; [|done]. intros [= <- <-].
  assert (Hlast : m l !! (pred (length (m l))) = Some msg) by by rewrite <- last_lookup.
  pose proof (mo_closed m Hm _ _ _ Hlast) as Hcm.
  set (u := join v (released msg)). assert (Hu : closed m u) by by apply closed_join.
  assert (Hl : raise u l (length (m l)) l = length (m l)) by (rewrite raise_at; specialize (Hu l); lia).
  pose proof (closed_written m l y (raise u l (length (m l))) u Hu) as Hc.
  exists msg, y. split_and!; try done.
  - apply memory_ok_append; [done|done|rewrite Hl; lia].
  - etrans; [apply (join_l v (released msg))|apply raise_le].
  - etrans; [apply (join_r v (released msg))|apply raise_le].
Qed.

(** A thread that has seen the newest message reads it. *)
Lemma load_newest m v l t x v' :
  memory_ok m → closed m v → load m v l t = Some (x, v') → (length (m l) ≤ S (v l))%nat → x = newest m l ∧ v' l = v l.
Proof.
  intros Hm Hv Hld Hlen. destruct (load_inv m v l t x v' Hm Hv Hld) as (Ht & Hv' & _ & Hc & _ & msg & Hmsg & <- & _).
  pose proof (lookup_lt_Some _ _ _ Hmsg). assert (t = v l) as -> by lia. split; [|done].
  unfold newest. rewrite last_lookup. replace (pred (length (m l))) with (v l) by lia. by rewrite Hmsg.
Qed.
End memory.

Arguments view L : clear implicits.
Arguments message L : clear implicits.
Arguments memory L : clear implicits.
