(* ===== verification/Surface.v ===== *)
(** Surfaces: the generation gate and the control that retires generations
    ([engine/crates/shared/src/surface/attachment.rs] and [control.rs]).

    The gate and the control are lock-free: their threads are state machines whose
    steps are one atomic access each, a compare-and-swap that may fail for no reason
    included, over the release-acquire memory of RelAcq, and the theorems are about
    every interleaving and everything a load may answer.

    In that memory the two flags a shutdown and an attach leave for each other can both
    be missed, and so can those a retirement and the installation of the renderer's
    wake leave: [shutdown_missed] and [teardown_missed] at the end are such runs.  What
    holds is [shutdown_is_final], where the shutdown retired something, and
    [teardown_not_lost], where one side saw the other. *)
From S2P Require Import Prelude RelAcq.

(** * The generation gate: a packed word *)

Definition LIVE_BIT : Z := 1.
Definition MAX_GENERATION : Z := Z.shiftr (u64_max - LIVE_BIT) 1.

(** The never-attached state. *)
Definition gate_new : Z := 0.

Definition is_live_word (word : Z) : bool := negb (Z.land word LIVE_BIT =? 0).
Definition generation_of (word : Z) : Z := Z.shiftr word 1.
(** [((generation) << 1) | LIVE_BIT], and [word & !LIVE_BIT]. *)
Definition live_word (generation : Z) : Z := Z.lor (Z.shiftl generation 1) LIVE_BIT.
Definition retired_word (word : Z) : Z := Z.land word (Z.lxor LIVE_BIT u64_max).

(** [SurfaceLivenessToken]: the word it expects. *)
Definition token_is_live (state expected_live_word : Z) : bool := state =? expected_live_word.

(** * The control *)

(** crossbeam's [bounded(1)] of [()] with its receiver alive: after a
    [try_send] a message is waiting, the new one or one that was there, and
    [recv] takes a message when one is waiting. *)
Class WakeChannel (W : Type) := {
  waiting : W → bool;
  try_send_wake : W → W;
  recv_wake : W → option W;
  waiting_try_send : ∀ w, waiting (try_send_wake w) = true;
  recv_waiting : ∀ w, waiting w = false → recv_wake w = None
}.

(** The atomic locations. *)
Inductive loc := AGate | AShuttingDown | ALatestRetired | ARenderWake.
#[export] Instance loc_eq_dec : EqDecision loc.
Proof. solve_decision. Defined.

Section Control.
Context {W : Type} {HW : WakeChannel W}.
Implicit Types (v : view loc).

(** [render_wake] is a [OnceLock]: its state is an atomic location, 1 once it is set,
    and what is set is the channel.  The channel's operations are taken to be totally
    ordered, each with what the ones before it released. *)
Record SurfaceControl := {
  atomics : memory loc;
  channel : option W;
  channel_view : view loc
}.

Definition control_new : SurfaceControl :=
  {| atomics := initial (λ l, match l with AGate => gate_new | _ => 0 end); channel := None; channel_view := bot |}.

Definition set_atomics (c : SurfaceControl) (m : memory loc) : SurfaceControl :=
  {| atomics := m; channel := channel c; channel_view := channel_view c |}.
Definition set_channel (c : SurfaceControl) (w : W) (v : view loc) : SurfaceControl :=
  {| atomics := atomics c; channel := Some w; channel_view := v |}.

(** The newest values. *)
Definition gate (c : SurfaceControl) : Z := newest (atomics c) AGate.
Definition latest_retired (c : SurfaceControl) : Z := newest (atomics c) ALatestRetired.

(** [latest_retired_generation], on what its load answers. *)
Definition latest_retired_generation (generation : Z) : option Z :=
  if generation =? 0 then None else Some generation.

(** What a call answers. *)
Inductive answer :=
  | Token (expected_live_word : Z)
  | ShuttingDown
  | GenerationExhausted
  | Retired (generation : option Z)
  | RetiredExact (done_ : bool)
  | ShutDown (generation : option Z)
  | Installed (done_ : bool).

(** The call a retirement is part of. *)
Inductive caller := ForAttach | ForRetire | ForShutdown | ForExact.

Definition retire_answer (k : caller) (generation : option Z) : answer :=
  match k with
  | ForAttach => ShuttingDown
  | ForRetire => Retired generation
  | ForShutdown => ShutDown generation
  | ForExact => RetiredExact (if generation is Some _ then true else false)
  end.

(** Where a thread is, by what it does next. *)
Inductive pc :=
  (* attach_or_update *)
  | AttachStart
  | AttachLoad
  | AttachTry (current : Z)
  | AttachCheck (word : Z)
  (* retire_current_and_request; shutdown; retire_generation_and_request *)
  | ShutdownStart
  | RetireLoad (k : caller)
  | RetireTry (k : caller) (current : Z)
  | ExactTry (generation : Z)
  | RetireMax (k : caller) (generation : Z)
  | WakeGet (a : answer)
  | WakeSend (a : answer)
  (* install_render_sender *)
  | InstallSet (w : W)
  | InstallLoad
  (* the render thread at its wait, and after a wake *)
  | RenderWait
  | RenderRead
  | Done (a : answer).

(** What there is to see of a run: the words issued and the generations
    retired, newest first, and the generation up to which the renderer has
    torn down. *)
Record history := { issued : list Z; retired : list Z; handled : Z }.

Definition note_issued (h : history) (w : Z) : history :=
  {| issued := w :: issued h; retired := retired h; handled := handled h |}.
Definition note_retired (h : history) (g : Z) : history :=
  {| issued := issued h; retired := g :: retired h; handled := handled h |}.
Definition note_handled (h : history) (g : Z) : history :=
  {| issued := issued h; retired := retired h; handled := Z.max (handled h) g |}.

(** The renderer tears down what its load says was retired. *)
Definition note_read (h : history) (x : Z) : history :=
  match latest_retired_generation x with Some g => note_handled h g | None => h end.

(** What is not the thread's to choose: the message a load reads, or that a
    compare-and-swap reads where it fails; otherwise the access is made. *)
Inductive choice := Read (t : nat) | Act.

(** A thread: where it is and what it has seen. *)
Definition thread : Type := pc * view loc.

Definition reading (c : SurfaceControl) (v : view loc) (l : loc) (o : choice) (next : Z → pc) (h : history) :
    option (SurfaceControl * history * thread) :=
  match o with
  | Read t => '(x, v) ← load (atomics c) v l t; Some (c, h, (next x, v))
  | Act => None
  end.

Definition updating (c : SurfaceControl) (v : view loc) (l : loc) (f : Z → option Z) (next : pc) (h : history) :
    option (SurfaceControl * history * thread) :=
  '(m, v) ← update (atomics c) v l f; Some (set_atomics c m, h, (next, v)).

(** The swap of [expected]. *)
Definition swap (expected new current : Z) : option Z := if current =? expected then Some new else None.

(** [OnceLock::set]'s. *)
Definition set_once (current : Z) : option Z := if current =? 0 then Some 1 else None.

Definition thread_step (c : SurfaceControl) (h : history) (t : thread) (o : choice) :
    option (SurfaceControl * history * thread) :=
  let '(p, v) := t in
  match p with
  | AttachStart => reading c v AShuttingDown o (λ x, if x =? 0 then AttachLoad else Done ShuttingDown) h
  | AttachLoad => reading c v AGate o AttachTry h
  | AttachTry current =>
      if is_live_word current then Some (c, h, (AttachCheck current, v)) else
      if MAX_GENERATION <=? generation_of current then Some (c, h, (Done GenerationExhausted, v)) else
      let next := live_word (generation_of current + 1) in
      match o with
      | Act => updating c v AGate (swap current next) (AttachCheck next) (note_issued h next)
      | Read _ => reading c v AGate o AttachTry h
      end
  | AttachCheck w => reading c v AShuttingDown o (λ x, if x =? 0 then Done (Token w) else RetireLoad ForAttach) h
  | ShutdownStart =>
      let '(m, v) := store (atomics c) v AShuttingDown 1 in Some (set_atomics c m, h, (RetireLoad ForShutdown, v))
  | RetireLoad k => reading c v AGate o (RetireTry k) h
  | RetireTry k current =>
      if negb (is_live_word current) then Some (c, h, (Done (retire_answer k None), v)) else
      match o with
      | Act => updating c v AGate (swap current (retired_word current)) (RetireMax k (generation_of current))
                 (note_retired h (generation_of current))
      | Read _ => reading c v AGate o (RetireTry k) h
      end
  | ExactTry g =>
      match o with
      | Act => updating c v AGate (swap (live_word g) (retired_word (live_word g))) (RetireMax ForExact g) (note_retired h g)
      | Read t =>
          '(x, v) ← load (atomics c) v AGate t;
          if x =? live_word g then None else Some (c, h, (Done (retire_answer ForExact None), v))
      end
  | RetireMax k g => updating c v ALatestRetired (λ x, Some (Z.max x g)) (WakeGet (retire_answer k (Some g))) h
  | WakeGet a => reading c v ARenderWake o (λ x, if x =? 0 then Done a else WakeSend a) h
  | WakeSend a =>
      w ← channel c;
      let v := join v (channel_view c) in
      Some (set_channel c (try_send_wake w) v, h, (Done a, v))
  | InstallSet w =>
      match o with
      | Act =>
          '(m, v) ← update (atomics c) v ARenderWake set_once;
          Some (set_channel (set_atomics c m) w (channel_view c), h, (InstallLoad, v))
      | Read t =>
          '(x, v) ← load (atomics c) v ARenderWake t;
          if x =? 0 then None else Some (c, h, (Done (Installed false), v))
      end
  | InstallLoad => reading c v ALatestRetired o (λ x, if x =? 0 then Done (Installed true) else WakeGet (Installed true)) h
  | RenderWait =>
      w ← channel c; w ← recv_wake w;
      let v := join v (channel_view c) in
      Some (set_channel c w v, h, (RenderRead, v))
  | RenderRead =>
      match o with
      | Read t => '(x, v) ← load (atomics c) v ALatestRetired t;
                  Some (c, note_read h x, (RenderWait, v))
      | Act => None
      end
  | Done _ => None
  end.

(** A control with its threads. *)
Record system := { control : SurfaceControl; past : history; threads : list thread }.

Definition system_step (s : system) (i : nat) (o : choice) : option system :=
  t ← threads s !! i;
  '(c, h, t) ← thread_step (control s) (past s) t o;
  Some {| control := c; past := h; threads := <[i := t]> (threads s) |}.

Definition step (s s' : system) : Prop := ∃ i o, system_step s i o = Some s'.

(** Where a thread may start; the channel a renderer installs is its own. *)
Definition starting (t : pc) : bool :=
  match t with
  | AttachStart | ShutdownStart | RetireLoad ForRetire | ExactTry _ | InstallSet _ | RenderWait => true
  | _ => false
  end.

Definition system_new (ts : list pc) : system :=
  {| control := control_new; past := {| issued := []; retired := []; handled := 0 |}; threads := (λ t, (t, bot)) <$> ts |}.

Inductive reachable : system → Prop :=
  | reach_start ts : Forall (λ t, starting t = true) ts → reachable (system_new ts)
  | reach_step s s' : reachable s → step s s' → reachable s'.

(** Steps one after the other. *)
Fixpoint schedule (l : list (nat * choice)) (s : system) : option system :=
  match l with [] => Some s | (i, o) :: l => s ← system_step s i o; schedule l s end.

(** Every call has returned, and the renderer waits. *)
Definition quiet (s : system) : Prop :=
  Forall (λ t, match t.1 with Done _ | RenderWait => True | _ => False end) (threads s).

(** ** Lemmas: words *)

Lemma lor_odd g : Z.lor (2 * g) 1 = 2 * g + 1.
Proof.
  apply Z.bits_inj'. intros n Hn. rewrite Z.lor_spec.
  destruct (decide (n = 0)) as [->|].
  - rewrite Z.testbit_odd_0. apply orb_true_r.
  - replace n with (Z.succ (n - 1)) by lia.
    rewrite Z.testbit_odd_succ, Z.testbit_even_succ by lia.
    rewrite (Z.bits_above_log2 1) by (cbn; lia). apply orb_false_r.
Qed.

Lemma live_word_eq g : live_word g = 2 * g + 1.
Proof.
  unfold live_word, LIVE_BIT. rewrite Z.shiftl_mul_pow2, (Z.mul_comm g) by lia. apply (lor_odd g).
Qed.

Lemma is_live_odd w : is_live_word w = Z.odd w.
Proof.
  unfold is_live_word, LIVE_BIT. change 1 with (Z.ones 1). rewrite Z.land_ones by lia.
  change (2 ^ 1) with 2. rewrite Zmod_odd. by destruct (Z.odd w).
Qed.

Lemma generation_half w : generation_of w = w / 2.
Proof. unfold generation_of. rewrite Z.shiftr_div_pow2 by lia. done. Qed.

Lemma live_word_live g : is_live_word (live_word g) = true.
Proof. rewrite is_live_odd, live_word_eq, Z.add_comm. apply Z.odd_add_mul_2. Qed.

Lemma even_dead g : is_live_word (2 * g) = false.
Proof. rewrite is_live_odd. by rewrite Z.odd_mul. Qed.

Lemma generation_live g : generation_of (live_word g) = g.
Proof. rewrite generation_half, live_word_eq. symmetry. apply (Z.div_unique _ _ g 1); lia. Qed.

Lemma generation_dead g : generation_of (2 * g) = g.
Proof. rewrite generation_half. rewrite Z.mul_comm, Z.div_mul; lia. Qed.

Lemma retired_live g : 0 ≤ g → 2 * g + 1 < 2 ^ 64 → retired_word (live_word g) = 2 * g.
Proof.
  intros Hg Hlt. unfold retired_word. rewrite live_word_eq. unfold LIVE_BIT.
  transitivity (Z.ldiff (2 * g + 1) (Z.ones 1)).
  - apply Z.bits_inj'. intros n Hn. rewrite Z.land_spec, Z.ldiff_spec, Z.lxor_spec.
    change u64_max with (Z.ones 64). change (Z.ones 1) with 1.
    destruct (Z.lt_ge_cases n 64).
    + rewrite Z.ones_spec_low by lia. by rewrite xorb_true_r.
    + rewrite (Z.bits_above_log2 (2 * g + 1) n); [done|lia|]. apply Z.log2_lt_pow2; [lia|].
      eapply Z.lt_le_trans; [exact Hlt|]. by apply Z.pow_le_mono_r.
  - rewrite Z.ldiff_ones_r by lia. rewrite Z.shiftr_div_pow2, Z.shiftl_mul_pow2 by lia.
    change (2 ^ 1) with 2. rewrite (Z.mul_comm 2 g), Z.div_add_l by lia. change (1 / 2) with 0. lia.
Qed.

Lemma retired_dead w : is_live_word (retired_word w) = false.
Proof.
  rewrite is_live_odd, <- Z.bit0_odd. unfold retired_word. rewrite Z.land_spec. apply andb_false_r.
Qed.

(** ** Lemmas: the gate and its history *)

(** [n, n - 1, ..., 1]. *)
Fixpoint countdown (n : nat) : list Z :=
  match n with O => [] | S m => Z.of_nat n :: countdown m end.

Lemma elem_of_countdown n g : g ∈ countdown n ↔ 1 ≤ g ≤ Z.of_nat n.
Proof.
  induction n as [|n IH]; cbn [countdown].
  - split; [by intros ?%not_elem_of_nil|lia].
  - rewrite elem_of_cons, IH. lia.
Qed.

(** Generations are issued one after the other, each once, and each is retired
    before the next is issued. *)
Definition gate_ok (w : Z) (h : history) : Prop :=
  ∃ n, Z.of_nat n ≤ MAX_GENERATION ∧ issued h = live_word <$> countdown n ∧
    (w = 2 * Z.of_nat n ∧ retired h = countdown n ∨
     ∃ m, n = S m ∧ w = live_word (Z.of_nat n) ∧ retired h = countdown m).

Lemma gate_ok_issue w h :
  gate_ok w h → is_live_word w = false → generation_of w < MAX_GENERATION →
  let next := live_word (generation_of w + 1) in gate_ok next (note_issued h next).
Proof.
  intros (n & Hn & Hi & [[-> Hr]|(m & -> & -> & Hr)]) Hl Hg next; [|by rewrite live_word_live in Hl].
  unfold next. rewrite generation_dead in *. replace (Z.of_nat n + 1) with (Z.of_nat (S n)) in * by lia.
  exists (S n). split; [lia|]. split; [cbn; by rewrite Hi|]. right. by exists n.
Qed.

Lemma gate_ok_retire w h :
  gate_ok w h → is_live_word w = true →
  gate_ok (retired_word w) (note_retired h (generation_of w)).
Proof.
  intros (n & Hn & Hi & [[-> Hr]|(m & -> & -> & Hr)]) Hl; [by rewrite even_dead in Hl|].
  rewrite generation_live, retired_live; [|lia|change MAX_GENERATION with (2 ^ 63 - 1) in Hn; lia].
  exists (S m). split; [done|]. split; [done|]. left. split; [done|]. cbn [note_retired retired countdown].
  by rewrite Hr.
Qed.

(** ** Lemmas: one access *)

(** The access a step made, and what came of it. *)
Ltac inv_access H :=
  unfold thread_step, reading, updating, mbind, option_bind in H; cbn beta iota zeta in H;
  repeat first
    [ discriminate H
    | match type of H with
      | context [match ?x with _ => _ end] =>
          lazymatch x with
          | context [match _ with _ => _ end] => fail
          | _ => let E := fresh "E" in destruct x eqn:E; cbn beta iota zeta in H
          end
      end ];
  injection H as ? ? ? ?; subst.

Definition bounded (c : SurfaceControl) : Prop := memory_ok (atomics c) ∧ closed (atomics c) (channel_view c).

(** What is known of a memory after an access. *)
Definition grows (m m' : memory loc) : Prop :=
  ∀ u, closed m u → closed m' u ∧ ∀ l, seen m' u l = seen m u l.

Lemma grows_append m l x v : grows m (append m l x v).
Proof. intros u Hu. split; [by apply closed_append|]. intros l'. by apply seen_append. Qed.

(** What the access of a step says, given that the memory is well formed. *)
Ltac access_facts Hm Hv :=
  match goal with
  | E : load _ _ _ _ = Some _ |- _ =>
      let F := fresh "F" in pose proof (load_inv _ _ _ _ _ _ Hm Hv E) as F;
      destruct F as (? & ? & ? & ? & ? & ?msg & ? & ? & ? & ?)
  | E : update _ _ _ _ = Some _ |- _ =>
      let F := fresh "F" in pose proof (update_inv _ _ _ _ _ _ Hm Hv E) as F;
      destruct F as (?msg & ?y & ? & ? & ? & ? & ? & ? & ? & ? & ? & ?)
  | E : store _ _ _ _ = _ |- _ =>
      let F := fresh "F" in pose proof (store_inv _ _ _ _ _ _ Hm Hv E) as F;
      destruct F as (? & ? & ? & ? & ?)
  | _ => idtac
  end.

Lemma step_bounded c h p v o c' h' p' v' :
  thread_step c h (p, v) o = Some (c', h', (p', v')) → bounded c → closed (atomics c) v →
  bounded c' ∧ closed (atomics c') v' ∧ view_le v v' ∧ grows (atomics c) (atomics c').
Proof.
  intros H [Hm Hch] Hv. unfold bounded. assert (Hjoin : closed (atomics c) (join v (channel_view c))) by by apply closed_join.
  assert (Hle : view_le v (join v (channel_view c))) by apply join_l.
  destruct p; inv_access H; access_facts Hm Hv; subst; cbn in *;
    split_and!; try done; try (by apply closed_append); try reflexivity; try (by intros u Hu); try apply grows_append.
Qed.

(** ** The invariant *)

(** Nothing is answered that has not happened. *)
Definition answer_ok (h : history) (a : answer) : Prop :=
  match a with
  | Token w => w ∈ issued h
  | Retired (Some g) | ShutDown (Some g) => g ∈ retired h
  | _ => True
  end.

Definition pc_ok (h : history) (p : pc) : Prop :=
  match p with
  | AttachTry w => is_live_word w = true → w ∈ issued h
  | AttachCheck w => w ∈ issued h
  | RetireTry _ w => is_live_word w = true → w ∈ issued h
  | RetireMax _ g => g ∈ retired h
  | WakeGet a | WakeSend a | Done a => answer_ok h a
  | _ => True
  end.

(** Whoever follows the newest word of the gate sees the shutdown. *)
Definition gate_knows (c : SurfaceControl) : Prop :=
  ∃ x, last (atomics c AGate) = Some x ∧ (1 ≤ released x AShuttingDown)%nat.

Record control_ok (c : SurfaceControl) (h : history) : Prop := {
  co_bounded : bounded c;
  co_gate : gate_ok (gate c) h;
  co_words : ∀ t x, atomics c AGate !! t = Some x → is_live_word (value x) = true → value x ∈ issued h;
  co_down : ∀ t x, atomics c AShuttingDown !! t = Some x → value x = 0 ↔ t = 0%nat;
  co_wake : ∀ t x, atomics c ARenderWake !! t = Some x → value x = 0 ↔ t = 0%nat;
  co_max : ∀ t t' x x', (t ≤ t')%nat → atomics c ALatestRetired !! t = Some x → atomics c ALatestRetired !! t' = Some x' →
    0 ≤ value x ≤ value x';
  co_first : ∀ x, atomics c ALatestRetired !! 0%nat = Some x → value x = 0;
  co_channel : newest (atomics c) ARenderWake = 0 → channel c = None ∧ channel_view c = bot;
}.

Lemma newest_lookup (m : memory loc) l : memory_ok m → ∃ x, m l !! (pred (length (m l))) = Some x ∧ last (m l) = Some x ∧ newest m l = value x.
Proof.
  intros Hm. unfold newest. rewrite last_lookup. destruct (lookup_lt_is_Some_2 (m l) (pred (length (m l)))) as [x Hx].
  { destruct (m l) eqn:E; [by apply (mo_some m Hm) in E|cbn; lia]. }
  exists x. by rewrite Hx.
Qed.

Lemma gate_live_issued w h : gate_ok w h → is_live_word w = true → w ∈ issued h.
Proof.
  intros (n & Hn & Hi & [[-> Hr]|(m & -> & -> & Hr)]) Hl; [by rewrite even_dead in Hl|].
  rewrite Hi. apply list_elem_of_fmap. exists (Z.of_nat (S m)). split; [done|]. left.
Qed.

(** A location that is 0 first and 1 from then on. *)
Lemma once_append (m : memory loc) l v u :
  (∀ t x, m l !! t = Some x → value x = 0 ↔ t = 0%nat) → memory_ok m → closed m u →
  ∀ t x, append m l 1 v l !! t = Some x → value x = 0 ↔ t = 0%nat.
Proof.
  intros H Hm Hu t x [Hx|(_ & -> & ->)]%append_lookup_inv; [by eapply H|]. cbn.
  destruct (m l) eqn:E; [by apply (mo_some m Hm) in E|cbn; lia].
Qed.

(** Another word in the gate. *)
Lemma control_gate c h h' y u :
  control_ok c h → bounded (set_atomics c (append (atomics c) AGate y u)) → gate_ok y h' →
  (∀ w, w ∈ issued h → w ∈ issued h') → control_ok (set_atomics c (append (atomics c) AGate y u)) h'.
Proof.
  intros [_ Hg Hwo Hd Hw Hx Hf Hcn] Hb Hy Hi. constructor; unfold gate; cbn [atomics set_atomics]; rewrite ?(append_other _ AGate), ?(newest_other _ AGate) by done; try done.
  - by rewrite newest_append.
  - intros t x [Hxt|(_ & -> & ->)]%append_lookup_inv Hl; [by eapply Hi, Hwo|]. by apply (gate_live_issued y).
Qed.

(** The gate's word is swapped. *)
Lemma swap_gate c v expected new m v' :
  bounded c → closed (atomics c) v → update (atomics c) v AGate (swap expected new) = Some (m, v') →
  gate c = expected ∧ m = append (atomics c) AGate new v' ∧ v' AGate = length (atomics c AGate) ∧ view_le v v' ∧
  (gate_knows c → (1 ≤ v' AShuttingDown)%nat).
Proof.
  intros [Hm _] Hv E. destruct (update_inv _ _ _ _ _ _ Hm Hv E) as (msg & y & Hl & Hsw & Hn & _ & _ & Hle & Hrel & Hat & -> & _).
  unfold swap in Hsw. destruct (Z.eqb_spec (value msg) expected) as [Heq|]; [|done]. injection Hsw as <-.
  split_and!; [unfold gate; congruence|done|done|done|]. intros (x & Hx & Hk). rewrite Hl in Hx. injection Hx as <-.
  specialize (Hrel AShuttingDown). lia.
Qed.

(** Whoever wrote the gate's newest word. *)
Lemma gate_knows_append c new v : gate_knows (set_atomics c (append (atomics c) AGate new v)) ↔ (1 ≤ v AShuttingDown)%nat.
Proof.
  unfold gate_knows. cbn [atomics set_atomics]. rewrite append_at, last_snoc.
  split; [intros (x & [= <-] & ?); done|]. intros ?. by eexists.
Qed.

Lemma step_control c h p v o c' h' p' v' :
  thread_step c h (p, v) o = Some (c', h', (p', v')) → control_ok c h → closed (atomics c) v → pc_ok h p → control_ok c' h'.
Proof.
  intros H Hok Hv Hp. pose proof (step_bounded _ _ _ _ _ _ _ _ _ H (co_bounded _ _ Hok) Hv) as (Hb & _).
  pose proof Hok as [Hbc Hg Hwo Hd Hw Hx Hf Hcn]. pose proof Hbc as [Hm _].
  destruct p; inv_access H; try done.
  - (* a generation is issued *)
    destruct (swap_gate _ _ _ _ _ _ Hbc Hv E2) as (<- & -> & _). apply (control_gate c h); [done|done| |cbn; set_solver].
    apply gate_ok_issue; [done|done|by apply Z.leb_gt].
  - (* shutdown *)
    destruct (store_inv _ _ _ _ _ _ Hm Hv E) as (_ & Hcl & _ & _ & ->).
    constructor; unfold gate; cbn [atomics set_atomics]; rewrite ?(append_other _ AShuttingDown), ?(newest_other _ AShuttingDown) by done; try done.
    by eapply once_append.
  - (* a generation is retired *)
    destruct (swap_gate _ _ _ _ _ _ Hbc Hv E1) as (<- & -> & _). apply (control_gate c h); [done|done| |cbn; set_solver].
    apply gate_ok_retire; [done|by apply negb_false_iff].
  - destruct (swap_gate _ _ _ _ _ _ Hbc Hv E0) as (Hgc & -> & _). apply (control_gate c h); [done|done| |cbn; set_solver].
    pose proof (gate_ok_retire _ _ Hg) as Hr. rewrite Hgc, live_word_live, generation_live in Hr. by apply Hr.
  - (* the newest generation retired *)
    destruct (update_inv _ _ _ _ _ _ Hm Hv E) as (msg & y & Hl & [= <-] & _ & _ & _ & _ & _ & _ & -> & _).
    constructor; unfold gate; cbn [atomics set_atomics]; rewrite ?(append_other _ ALatestRetired), ?(newest_other _ ALatestRetired) by done; try done.
    assert (Hlast : ∀ t x, atomics c ALatestRetired !! t = Some x → 0 ≤ value x ≤ value msg).
    { intros t x Ht. rewrite last_lookup in Hl. eapply Hx; [|exact Ht|exact Hl]. apply lookup_lt_Some in Ht. lia. }
    + intros t t' x x' Ht [Hxt|(_ & -> & ->)]%append_lookup_inv [Hxt'|(_ & -> & ->)]%append_lookup_inv; cbn.
      * by eapply Hx.
      * specialize (Hlast _ _ Hxt). lia.
      * apply lookup_lt_Some in Hxt'. lia.
      * pose proof (Hlast _ _ (eq_trans (eq_sym (last_lookup _)) Hl)). lia.
    + intros x [?|(_ & H0 & _)]%append_lookup_inv; [by apply Hf|]. by apply eq_sym, nil_length_inv, (mo_some _ Hm) in H0.
  - (* a wake *)
    constructor; cbn [atomics set_channel channel]; try done. intros Hn. destruct (Hcn Hn) as [Hcn' _]. congruence.
  - (* the sender is installed *)
    destruct (update_inv _ _ _ _ _ _ Hm Hv E0) as (msg & y & Hl & Hset & _ & _ & Hcl & _ & _ & _ & -> & _).
    unfold set_once in Hset. destruct (value msg =? 0); [|done]. injection Hset as <-.
    constructor; unfold gate; cbn [atomics set_atomics set_channel channel]; rewrite ?(append_other _ ARenderWake), ?(newest_other _ ARenderWake) by done; try done.
    + by eapply once_append.
    + by rewrite newest_append.
  - (* the render thread wakes *)
    constructor; cbn [atomics set_channel channel]; try done. intros Hn. destruct (Hcn Hn) as [Hcn' _]. congruence.
  - (* and reads *) unfold note_read. by case_match.
Qed.

(** ** What each thread knows *)

Definition shutting (p : pc) : bool :=
  match p with RetireLoad ForShutdown | RetireTry ForShutdown _ => true | _ => false end.
Definition shut (p : pc) : bool :=
  match p with
  | RetireMax ForShutdown _ | WakeGet (ShutDown (Some _)) | WakeSend (ShutDown (Some _)) | Done (ShutDown (Some _)) => true
  | _ => false
  end.
Definition installing (p : pc) : bool := match p with InstallLoad | WakeGet (Installed true) => true | _ => false end.
(** The generation an answer says was retired. *)
Definition about (a : answer) : option Z := match a with Retired (Some g) | ShutDown (Some g) => Some g | _ => None end.
Definition answering (p : pc) : option answer := match p with WakeGet a | WakeSend a | Done a => Some a | _ => None end.

(** The newest generation the channel's users have seen retired. *)
Definition announced (c : SurfaceControl) : Z := seen (atomics c) (channel_view c) ALatestRetired.

Record thread_ok (c : SurfaceControl) (h : history) (t : thread) : Prop := {
  to_closed : closed (atomics c) t.2;
  to_pc : pc_ok h t.1;
  to_shutting : shutting t.1 = true → (1 ≤ t.2 AShuttingDown)%nat;
  to_shut : shut t.1 = true → gate_knows c;
  to_retired : ∀ a g, answering t.1 = Some a → about a = Some g → g ≤ seen (atomics c) t.2 ALatestRetired;
  to_installing : installing t.1 = true → (1 ≤ t.2 ARenderWake)%nat;
  to_sent : ∀ a g, t.1 = Done a → about a = Some g → (1 ≤ t.2 ARenderWake)%nat → g ≤ announced c;
  to_installed : t.1 = Done (Installed true) → seen (atomics c) t.2 ALatestRetired ≤ announced c;
}.

(** What a step keeps for the other threads. *)
Record kept (c : SurfaceControl) (h : history) (c' : SurfaceControl) (h' : history) : Prop := {
  ke_grows : grows (atomics c) (atomics c');
  ke_pc : ∀ p, pc_ok h p → pc_ok h' p;
  ke_knows : gate_knows c → gate_knows c';
  ke_announced : announced c ≤ announced c';
  ke_retired : ∀ g, g ∈ retired h → g ∈ retired h';
  ke_issued : ∀ w, w ∈ issued h → w ∈ issued h';
}.

Lemma thread_ok_kept c h c' h' t : kept c h c' h' → thread_ok c h t → thread_ok c' h' t.
Proof.
  intros [Hg Hp Hk Ha _ _] []. destruct (Hg _ to_closed0) as [Hc Hs]. constructor; rewrite ?Hs; auto.
  - intros a g H1 H2 H3. specialize (to_sent0 a g H1 H2 H3). lia.
  - intros H. specialize (to_installed0 H). lia.
Qed.

(** Retirements are seen in their order. *)
Lemma seen_mono c h v u : control_ok c h → closed (atomics c) v → closed (atomics c) u → (v ALatestRetired ≤ u ALatestRetired)%nat →
  seen (atomics c) v ALatestRetired ≤ seen (atomics c) u ALatestRetired.
Proof.
  intros Hok Hv Hu Hle. unfold seen.
  destruct (lookup_lt_is_Some_2 _ _ (Hv ALatestRetired)) as [x Hx], (lookup_lt_is_Some_2 _ _ (Hu ALatestRetired)) as [y Hy].
  rewrite Hx, Hy. cbn. by eapply (co_max _ _ Hok).
Qed.

Lemma seen_bounds c h v : control_ok c h → closed (atomics c) v → 0 ≤ seen (atomics c) v ALatestRetired ≤ latest_retired c.
Proof.
  intros Hok Hv. unfold seen, latest_retired. destruct (lookup_lt_is_Some_2 _ _ (Hv ALatestRetired)) as [x Hx]. rewrite Hx. cbn.
  destruct (newest_lookup (atomics c) ALatestRetired (proj1 (co_bounded _ _ Hok))) as (y & Hy & _ & ->).
  eapply (co_max _ _ Hok); [|exact Hx|exact Hy]. apply lookup_lt_Some in Hx. lia.
Qed.

Lemma pc_ok_more h h' p :
  (∀ w, w ∈ issued h → w ∈ issued h') → (∀ g, g ∈ retired h → g ∈ retired h') → pc_ok h p → pc_ok h' p.
Proof.
  intros Hi Hr. destruct p; cbn [pc_ok answer_ok]; auto; repeat match goal with a : answer |- _ => destruct a as [ | | |[]| |[]| ] end; cbn; auto.
Qed.

Lemma step_kept c h p v o c' h' p' v' :
  thread_step c h (p, v) o = Some (c', h', (p', v')) → control_ok c h → closed (atomics c) v → pc_ok h p → kept c h c' h'.
Proof.
  intros H Hok Hv Hp. pose proof (step_control _ _ _ _ _ _ _ _ _ H Hok Hv Hp) as Hok'. pose proof (step_bounded _ _ _ _ _ _ _ _ _ H (co_bounded _ _ Hok) Hv) as (Hb' & _ & _ & Hgr).
  assert (Hi : ∀ w, w ∈ issued h → w ∈ issued h') by (destruct p; inv_access H; unfold note_read; try case_match; cbn; set_solver).
  assert (Hr : ∀ g, g ∈ retired h → g ∈ retired h').
  { destruct p; inv_access H; unfold note_read; try case_match; cbn; set_solver. }
  constructor; [done| | | |done|done].
  - intros q. by apply pc_ok_more.
  - pose proof (co_bounded _ _ Hok) as Hbc. pose proof Hbc as [Hm _].
    destruct p; inv_access H; try done.
    + destruct (swap_gate _ _ _ _ _ _ Hbc Hv E2) as (_ & -> & _ & _ & Hk). intros ?%Hk. by apply gate_knows_append.
    + destruct (store_inv _ _ _ _ _ _ Hm Hv E) as (_ & _ & _ & _ & ->). unfold gate_knows. cbn [atomics set_atomics]. by rewrite append_other.
    + destruct (swap_gate _ _ _ _ _ _ Hbc Hv E1) as (_ & -> & _ & _ & Hk). intros ?%Hk. by apply gate_knows_append.
    + destruct (swap_gate _ _ _ _ _ _ Hbc Hv E0) as (_ & -> & _ & _ & Hk). intros ?%Hk. by apply gate_knows_append.
    + destruct (update_inv _ _ _ _ _ _ Hm Hv E) as (msg & y & _ & _ & _ & _ & _ & _ & _ & _ & -> & _).
      unfold gate_knows. cbn [atomics set_atomics]. by rewrite append_other.
    + destruct (update_inv _ _ _ _ _ _ Hm Hv E0) as (msg & y & _ & _ & _ & _ & _ & _ & _ & _ & -> & _).
      unfold gate_knows. cbn [atomics set_atomics set_channel]. by rewrite append_other.
  - pose proof (proj2 (co_bounded _ _ Hok)) as Hch. unfold announced. rewrite <- (proj2 (Hgr _ Hch)).
    assert (Hle : view_le (channel_view c) (channel_view c')).
    { destruct p; inv_access H; cbn [channel_view set_atomics set_channel]; first [reflexivity|apply join_r]. }
    apply (seen_mono c' h'); [done|apply Hgr, Hch|apply Hb'|apply Hle].
Qed.

(** ** The thread that steps *)

Lemma loaded_once (m : memory loc) l v t x v' :
  memory_ok m → closed m v → (∀ t y, m l !! t = Some y → value y = 0 ↔ t = 0%nat) → load m v l t = Some (x, v') →
  x = 0 ↔ v' l = 0%nat.
Proof.
  intros Hm Hv Ho E. destruct (load_inv _ _ _ _ _ _ Hm Hv E) as (_ & Ht & _ & _ & _ & msg & Hmsg & <- & _).
  rewrite Ht. by eapply Ho.
Qed.

Lemma loaded_word c h v t x v' :
  control_ok c h → closed (atomics c) v → load (atomics c) v AGate t = Some (x, v') → is_live_word x = true → x ∈ issued h.
Proof.
  intros Hok Hv E. destruct (load_inv _ _ _ _ _ _ (proj1 (co_bounded _ _ Hok)) Hv E) as (_ & _ & _ & _ & _ & msg & Hmsg & <- & _).
  by eapply (co_words _ _ Hok).
Qed.

Lemma step_pc c h p v o c' h' p' v' :
  thread_step c h (p, v) o = Some (c', h', (p', v')) → control_ok c h → closed (atomics c) v → pc_ok h p → pc_ok h' p'.
Proof.
  intros H Hok Hv Hp. pose proof (co_gate _ _ Hok) as Hg.
  destruct p; inv_access H; cbn [pc_ok answer_ok retire_answer note_issued note_retired issued retired] in *; try done;
    try (by eapply loaded_word); try (by auto); try (destruct k; done); try (by left); try (destruct a; set_solver).
Qed.

Lemma step_thread_ok c h p v o c' h' p' v' :
  thread_step c h (p, v) o = Some (c', h', (p', v')) → control_ok c h → thread_ok c h (p, v) → thread_ok c' h' (p', v').
Proof.
  intros H Hok [Hv Hp Hsd Hst Hrt Hil Hsn Hid]. cbn [fst snd] in *.
  pose proof (step_bounded _ _ _ _ _ _ _ _ _ H (co_bounded _ _ Hok) Hv) as (Hb' & Hv' & Hle & Hgr).
  pose proof (step_pc _ _ _ _ _ _ _ _ _ H Hok Hv Hp) as Hp'.
  pose proof (step_control _ _ _ _ _ _ _ _ _ H Hok Hv Hp) as Hok'.
  pose proof (step_kept _ _ _ _ _ _ _ _ _ H Hok Hv Hp) as [_ _ Hk _ _ _].
  pose proof (co_bounded _ _ Hok) as Hbc. pose proof Hbc as [Hm Hch].
  assert (Hsn' : seen (atomics c) v ALatestRetired ≤ seen (atomics c') v' ALatestRetired).
  { rewrite <- (proj2 (Hgr v Hv)). apply (seen_mono c' h'); [done|by apply Hgr|done|apply Hle]. }
  pose proof (Hle ARenderWake) as Hlw. pose proof (Hle AShuttingDown) as Hld.
  constructor; cbn [fst snd]; [done|done|..].
  - (* shutting *)
    intros Hs. destruct p; inv_access H; try done; try (specialize (Hsd Hs)); try lia.
    destruct (store_inv _ _ _ _ _ _ Hm Hv E) as (_ & _ & _ & -> & _).
    destruct (atomics c AShuttingDown) eqn:El; [by apply (mo_some _ Hm) in El|cbn; lia].
  - (* shut *)
    intros Hs. destruct p; inv_access H; try done; try (by apply Hk, Hst).
    + destruct k; done.
    + destruct k; try done. destruct (swap_gate _ _ _ _ _ _ Hbc Hv E1) as (_ & -> & _). apply gate_knows_append.
      specialize (Hsd eq_refl). lia.
    + destruct k; try done. by apply Hk, Hst.
  - (* retired *)
    intros a g Ha Hab. destruct p; inv_access H; cbn [answering] in *; simplify_eq; cbn in Hab; try done;
      try (specialize (Hrt _ _ eq_refl Hab); lia).
    + destruct k; done.
    + destruct (update_inv _ _ _ _ _ _ Hm Hv E) as (msg & y & _ & [= <-] & _ & _ & _ & _ & _ & Hat & -> & _).
      unfold seen. cbn [atomics set_atomics]. rewrite Hat, append_at, list_lookup_middle by done. cbn. destruct k; simplify_eq/=; lia.
  - (* installing *)
    intros Hi. destruct p; inv_access H; try done; try (specialize (Hil Hi)); try (specialize (Hil eq_refl)); try lia.
    + by destruct k.
    + destruct (update_inv _ _ _ _ _ _ Hm Hv E0) as (msg & y & _ & _ & _ & _ & _ & _ & _ & -> & _ & _).
      destruct (atomics c ARenderWake) eqn:El; [by apply (mo_some _ Hm) in El|cbn; lia].
  - (* sent *)
    intros a g Ha Hab Hw. destruct p; inv_access H; simplify_eq; cbn in Hab; try done.
    + by destruct k.
    + pose proof (loaded_once _ _ _ _ _ _ Hm Hv (co_wake _ _ Hok) E0) as Hz. apply Z.eqb_eq in E2. apply Hz in E2. lia.
    + specialize (Hrt _ _ eq_refl Hab). unfold announced. cbn [atomics set_channel channel_view] in *. lia.
  - (* installed *)
    intros Ha. destruct p; inv_access H; simplify_eq; try done.
    + by destruct k.
    + pose proof (loaded_once _ _ _ _ _ _ Hm Hv (co_wake _ _ Hok) E0) as Hz. apply Z.eqb_eq in E2. apply Hz in E2.
      specialize (Hil eq_refl). lia.
    + destruct (load_inv _ _ _ _ _ _ Hm Hv E0) as (_ & _ & _ & _ & -> & _). apply Z.eqb_eq in E2. subst.
      apply (seen_bounds c' h'); done.
Qed.

(** ** The system *)

(** A thread that will see the shutdown and retire what is live. *)
Definition covers (c : SurfaceControl) (t : thread) : Prop :=
  (1 ≤ t.2 AShuttingDown)%nat ∧ (length (atomics c AGate) ≤ S (t.2 AGate))%nat ∧
  match t.1 with AttachCheck _ | RetireLoad _ => True | RetireTry _ w => is_live_word w = true | _ => False end.

(** The render thread, awake, with what was announced. *)
Definition awake (c : SurfaceControl) (t : thread) : Prop :=
  t.1 = RenderRead ∧ (channel_view c ALatestRetired ≤ t.2 ALatestRetired)%nat.

Record sys_ok (s : system) : Prop := {
  so_control : control_ok (control s) (past s);
  so_threads : Forall (thread_ok (control s) (past s)) (threads s);
  so_shutdown : gate_knows (control s) → is_live_word (gate (control s)) = true → Exists (covers (control s)) (threads s);
  so_wake : ∀ w, channel (control s) = Some w →
    waiting w = true ∨ Exists (awake (control s)) (threads s) ∨ announced (control s) ≤ handled (past s);
  so_handled : 0 ≤ handled (past s) ≤ latest_retired (control s);
}.

Lemma exists_insert {A} (P Q : A → Prop) l i x y :
  l !! i = Some x → Exists P l → (∀ z, P z → Q z) → ¬ P x ∨ Q y → Exists Q (<[i := y]> l).
Proof.
  intros Hi (z & Hin & Hz)%Exists_exists HPQ Hxy. apply list_elem_of_lookup in Hin as [j Hj]. apply Exists_exists.
  assert (i < length l)%nat by by eapply lookup_lt_Some.
  destruct (decide (i = j)) as [->|Hne].
  - rewrite Hi in Hj. injection Hj as <-. exists y. split; [|naive_solver].
    apply list_elem_of_lookup. exists j. by apply list_lookup_insert_eq.
  - exists z. split; [|auto]. apply list_elem_of_lookup. exists j. by rewrite list_lookup_insert_ne.
Qed.

Lemma exists_here {A} (P : A → Prop) l i x y : l !! i = Some x → P y → Exists P (<[i := y]> l).
Proof.
  intros Hi Hy. apply Exists_exists. exists y. split; [|done]. apply list_elem_of_lookup. exists i.
  apply list_lookup_insert_eq. by eapply lookup_lt_Some.
Qed.

(** Who is left to retire what is live. *)
Lemma step_shutdown c h p v o c' h' p' v' :
  thread_step c h (p, v) o = Some (c', h', (p', v')) → control_ok c h → thread_ok c h (p, v) →
  gate_knows c' → is_live_word (gate c') = true →
  covers c' (p', v') ∨ (atomics c' AGate = atomics c AGate ∧ ¬ covers c (p, v)).
Proof.
  intros H Hok Ht Hk Hl. pose proof (to_closed _ _ _ Ht) as Hv. cbn in Hv. pose proof (co_bounded _ _ Hok) as Hbc. pose proof Hbc as [Hm _].
  pose proof (step_bounded _ _ _ _ _ _ _ _ _ H Hbc Hv) as (_ & _ & Hle & _). pose proof (Hle AShuttingDown) as Hd.
  unfold covers. cbn [fst snd]. destruct p; inv_access H; try (by right; split; [done|intros (_ & _ & ?)]).
  - (* issued *)
    destruct (swap_gate _ _ _ _ _ _ Hbc Hv E2) as (_ & -> & Hat & _ & _). apply gate_knows_append in Hk. left.
    split; [done|]. split; [|done]. cbn [atomics set_atomics]. rewrite append_at, length_app, Hat. cbn. lia.
  - (* the check after an attach: none *)
    right. split; [done|]. intros (Hs & _). pose proof (loaded_once _ _ _ _ _ _ Hm Hv (co_down _ _ Hok) E0) as Hz.
    apply Z.eqb_eq in E2. apply Hz in E2. lia.
  - destruct (decide (length (atomics c' AGate) ≤ S (v AGate))%nat) as [Hg|Hg]; [|by right; split; [done|intros (_ & ? & _)]].
    left. split; [|split; [specialize (Hle AGate); lia|done]].
    pose proof (loaded_once _ _ _ _ _ _ Hm Hv (co_down _ _ Hok) E0) as Hz. apply Z.eqb_neq in E2. lia.
  - destruct (store_inv _ _ _ _ _ _ Hm Hv E) as (_ & _ & _ & _ & ->). right. cbn [atomics set_atomics].
    rewrite append_other by done. split; [done|]. by intros (_ & _ & ?).
  - (* a retirement loads *)
    destruct (decide (length (atomics c' AGate) ≤ S (v AGate))%nat) as [Hg|Hg]; [|by right; split; [done|intros (_ & ? & _)]].
    destruct (decide (1 ≤ v AShuttingDown)%nat); [|by right; split; [done|intros (? & _)]].
    destruct (load_newest _ _ _ _ _ _ Hm Hv E0 Hg) as [-> Hat]. left. split_and!; [lia|lia|done].
  - right. split; [done|]. intros (_ & _ & Hlive). by rewrite Hlive in E.
  - destruct (decide (length (atomics c' AGate) ≤ S (v AGate))%nat) as [Hg|Hg]; [|by right; split; [done|intros (_ & ? & _)]].
    destruct (decide (1 ≤ v AShuttingDown)%nat); [|by right; split; [done|intros (? & _)]].
    destruct (load_newest _ _ _ _ _ _ Hm Hv E1 Hg) as [-> Hat]. left. split_and!; [lia|lia|done].
  - destruct (swap_gate _ _ _ _ _ _ Hbc Hv E1) as (_ & -> & _). unfold gate in Hl. cbn [atomics set_atomics] in Hl.
    by rewrite newest_append, retired_dead in Hl.
  - destruct (swap_gate _ _ _ _ _ _ Hbc Hv E0) as (_ & -> & _). unfold gate in Hl. cbn [atomics set_atomics] in Hl.
    by rewrite newest_append, retired_dead in Hl.
  - destruct (update_inv _ _ _ _ _ _ Hm Hv E) as (msg & y & _ & _ & _ & _ & _ & _ & _ & _ & -> & _). right. cbn [atomics set_atomics].
    rewrite append_other by done. split; [done|]. by intros (_ & _ & ?).
  - destruct (update_inv _ _ _ _ _ _ Hm Hv E0) as (msg & y & _ & _ & _ & _ & _ & _ & _ & _ & -> & _). right. cbn [atomics set_atomics set_channel].
    rewrite append_other by done. split; [done|]. by intros (_ & _ & ?).
Qed.

(** Who is left to handle what was announced. *)
Lemma step_wake c h p v o c' h' p' v' w' :
  thread_step c h (p, v) o = Some (c', h', (p', v')) → control_ok c h → thread_ok c h (p, v) → 0 ≤ handled h →
  channel c' = Some w' →
  waiting w' = true ∨ awake c' (p', v') ∨ announced c' ≤ handled h' ∨
  (channel c = Some w' ∧ channel_view c' = channel_view c ∧ announced c' = announced c ∧ handled h ≤ handled h' ∧ ¬ awake c (p, v)).
Proof.
  intros H Hok Ht Hh Hw'. pose proof (to_closed _ _ _ Ht) as Hv. cbn in Hv. pose proof (co_bounded _ _ Hok) as Hbc. pose proof Hbc as [Hm Hch].
  pose proof (step_bounded _ _ _ _ _ _ _ _ _ H Hbc Hv) as ([_ Hch'] & _ & _ & Hgr). pose proof (proj2 (Hgr _ Hch) ALatestRetired) as Han.
  unfold awake, announced in *. cbn [fst snd].
  assert (Hsame : channel c' = channel c → channel_view c' = channel_view c → handled h ≤ handled h' → p ≠ RenderRead →
    channel c = Some w' ∧ channel_view c' = channel_view c ∧
    seen (atomics c') (channel_view c') ALatestRetired = seen (atomics c) (channel_view c) ALatestRetired ∧
    handled h ≤ handled h' ∧ ¬ (p = RenderRead ∧ (channel_view c ALatestRetired ≤ v ALatestRetired)%nat)).
  { intros H1 H2 H3 H4. split_and!; [congruence|done|by rewrite H2|done|by intros [? _]]. }
  destruct p; inv_access H; try (by right; right; right; apply Hsame).
  - (* a wake is sent *)
    left. injection Hw' as <-. apply waiting_try_send.
  - (* the channel is installed *)
    right; right; left. destruct (update_inv _ _ _ _ _ _ Hm Hv E0) as (msg & y & _ & Hset & Hn & _).
    unfold set_once in Hset. destruct (Z.eqb_spec (value msg) 0) as [Hz|]; [|done].
    destruct (co_channel _ _ Hok) as [_ Hbot]; [by rewrite Hn|]. cbn [atomics set_atomics set_channel channel_view] in *.
    rewrite Han, Hbot. unfold seen, bot. destruct (atomics c ALatestRetired !! 0%nat) as [x|] eqn:Ex; [|done].
    cbn. by rewrite (co_first _ _ Hok x Ex).
  - (* the render thread wakes *)
    right; left. split; [done|]. reflexivity.
  - (* and reads *)
    destruct (load_inv _ _ _ _ _ _ Hm Hv E0) as (_ & _ & Hle & Hcv' & Hseen & _).
    destruct (decide (channel_view c' ALatestRetired ≤ v ALatestRetired)%nat) as [Haw|Haw].
    + right; right; left. pose proof (Hle ALatestRetired). cbn in Haw.
      pose proof (seen_mono c' h (channel_view c') v' Hok Hch Hcv' ltac:(lia)) as Hx. rewrite Hseen in Hx.
      unfold note_read, latest_retired_generation. destruct (Z.eqb_spec z 0); cbn; lia.
    + right; right; right. split_and!; [done|done|done| |by intros [_ ?]].
      unfold note_read, latest_retired_generation. destruct (z =? 0); cbn; lia.
Qed.

Lemma step_handled c h p v o c' h' p' v' :
  thread_step c h (p, v) o = Some (c', h', (p', v')) → control_ok c h → thread_ok c h (p, v) →
  0 ≤ handled h ≤ latest_retired c → 0 ≤ handled h' ≤ latest_retired c'.
Proof.
  intros H Hok Ht Hh. pose proof (to_closed _ _ _ Ht) as Hv. cbn in Hv. pose proof Hok as [[Hm Hch] _ _ _ _ Hx _ _].
  destruct p; inv_access H; try done; unfold latest_retired in *; cbn [atomics set_atomics set_channel handled note_issued note_retired].
  - destruct (update_inv _ _ _ _ _ _ Hm Hv E2) as (? & ? & _ & _ & _ & _ & _ & _ & _ & _ & -> & _). by rewrite newest_other.
  - destruct (store_inv _ _ _ _ _ _ Hm Hv E) as (_ & _ & _ & _ & ->). by rewrite newest_other.
  - destruct (update_inv _ _ _ _ _ _ Hm Hv E1) as (? & ? & _ & _ & _ & _ & _ & _ & _ & _ & -> & _). by rewrite newest_other.
  - destruct (update_inv _ _ _ _ _ _ Hm Hv E0) as (? & ? & _ & _ & _ & _ & _ & _ & _ & _ & -> & _). by rewrite newest_other.
  - destruct (update_inv _ _ _ _ _ _ Hm Hv E) as (msg & y & _ & [= <-] & Hn & _ & _ & _ & _ & _ & -> & _). rewrite newest_append. lia.
  - destruct (update_inv _ _ _ _ _ _ Hm Hv E0) as (? & ? & _ & _ & _ & _ & _ & _ & _ & _ & -> & _). by rewrite newest_other.
  - destruct (load_inv _ _ _ _ _ _ Hm Hv E0) as (_ & _ & _ & Hcv' & <- & _). pose proof (seen_bounds _ _ _ Hok Hcv').
    unfold note_read, latest_retired_generation, latest_retired in *. destruct (_ =? 0); cbn; lia.
Qed.

Lemma sys_ok_step s s' : sys_ok s → step s s' → sys_ok s'.
Proof.
  intros [Hc Ht Hsd Hwk Hh] (i & o & Hs). unfold system_step, mbind, option_bind in Hs.
  destruct (threads s !! i) as [[p v]|] eqn:Hi; [|done].
  destruct (thread_step (control s) (past s) (p, v) o) as [[[c h] [p' v']]|] eqn:H; [|done]. injection Hs as <-.
  pose proof (Forall_lookup_1 _ _ _ _ Ht Hi) as Hti. pose proof Hti as [Hv Hp _ _ _ _ _ _]. cbn [fst snd] in Hv, Hp.
  pose proof (step_kept _ _ _ _ _ _ _ _ _ H Hc Hv Hp) as Hk.
  split; cbn [control past threads].
  - by eapply step_control.
  - apply Forall_insert; [|by eapply step_thread_ok]. eapply Forall_impl; [exact Ht|]. intros t. by apply thread_ok_kept.
  - intros H1 H2. destruct (step_shutdown _ _ _ _ _ _ _ _ _ H Hc Hti H1 H2) as [Hcov|[Hsame Hcov]]; [by eapply exists_here|].
    assert (Hex : Exists (covers (control s)) (threads s)).
    { apply Hsd; [|unfold gate, newest in *; by rewrite <- Hsame]. unfold gate_knows in *. by rewrite <- Hsame. }
    eapply exists_insert; [exact Hi|exact Hex| |by left]. intros t. unfold covers. by rewrite Hsame.
  - intros w Hw. destruct (step_wake _ _ _ _ _ _ _ _ _ w H Hc Hti ltac:(lia) Hw) as [?|[?|[?|(Hch & Hcv & Ha & Hle & Hna)]]].
    + by left.
    + right; left. by eapply exists_here.
    + by right; right.
    + destruct (Hwk w Hch) as [?|[Hex|?]]; [by left| |right; right; lia]. right; left.
      eapply exists_insert; [exact Hi|exact Hex| |by left]. intros t. unfold awake. by rewrite Hcv.
  - by eapply step_handled.
Qed.

Lemma control_new_ok : control_ok control_new {| issued := []; retired := []; handled := 0 |}.
Proof.
  assert (Hb : closed (atomics control_new) bot) by (apply closed_bot, memory_ok_initial).
  constructor; cbn.
  - split; [apply memory_ok_initial|done].
  - exists 0%nat. split; [done|]. split; [done|]. by left.
  - intros [|t] x; cbn; [|done]. by intros [= <-].
  - intros [|t] x; cbn; [|done]. by intros [= <-].
  - intros [|t] x; cbn; [|done]. by intros [= <-].
  - intros [|t] [|t'] x x' _; cbn; try done. by intros [= <-] [= <-].
  - by intros x [= <-].
  - done.
Qed.

Lemma starting_ok p : starting p = true → thread_ok control_new {| issued := []; retired := []; handled := 0 |} (p, bot).
Proof.
  intros Hp. assert (Hb : closed (atomics control_new) bot) by (apply closed_bot, memory_ok_initial).
  constructor; cbn [fst snd]; [done|..]; destruct p as [| | | | |[]| | | | | | | | | |]; try done.
Qed.

Lemma reachable_ok s : reachable s → sys_ok s.
Proof.
  induction 1 as [ts Hts|s s' _ IH Hs]; [|by eapply sys_ok_step].
  split; cbn [control past threads system_new].
  - apply control_new_ok.
  - apply Forall_fmap. eapply Forall_impl; [exact Hts|]. intros p Hp. by apply starting_ok.
  - intros (x & Hx & Hk). cbn in Hx. injection Hx as <-. by cbn in Hk.
  - done.
  - done.
Qed.

Lemma quiet_none s (P : thread → Prop) :
  quiet s → (∀ t, P t → match t.1 with Done _ | RenderWait => False | _ => True end) → ¬ Exists P (threads s).
Proof.
  intros Hq HP (t & Hin & Ht)%Exists_exists. unfold quiet in Hq. rewrite Forall_forall in Hq.
  specialize (Hq t Hin). specialize (HP t Ht). by destruct t.1.
Qed.

Lemma schedule_reachable l s s' : schedule l s = Some s' → reachable s → reachable s'.
Proof.
  revert s. induction l as [|[i o] l IH]; intros s; cbn; [by intros [= <-]|]. unfold mbind, option_bind.
  destruct (system_step s i o) as [s1|] eqn:E; [|done]. intros H Hr. apply (IH s1 H). eapply reach_step; [exact Hr|]. by exists i, o.
Qed.

(** What was issued stays issued. *)
Lemma step_issues (s s' : system) : step s s' → ∃ new, issued (past s') = new ++ issued (past s).
Proof.
  intros (i & o & Hs). unfold system_step, mbind, option_bind in Hs.
  destruct (threads s !! i) as [[p v]|]; [|done].
  destruct (thread_step (control s) (past s) (p, v) o) as [[[c h] [p' v']]|] eqn:H; [|done]. injection Hs as <-. cbn [past].
  destruct p; inv_access H; unfold note_read; try case_match; cbn [issued note_issued note_retired note_handled];
    first [by exists [] | by eexists [_]].
Qed.

(** A token is live while its generation is not retired. *)
Lemma token_live w h t :
  gate_ok w h → t ∈ issued h → token_is_live w t = true ↔ generation_of t ∉ retired h.
Proof.
  intros (n & Hn & Hi & Hw) Ht. rewrite Hi in Ht. apply list_elem_of_fmap in Ht as (g & -> & Hg).
  apply elem_of_countdown in Hg. rewrite generation_live. unfold token_is_live. rewrite Z.eqb_eq.
  rewrite live_word_eq. destruct Hw as [[-> Hr]|(m & -> & -> & Hr)]; rewrite Hr, elem_of_countdown.
  - lia.
  - rewrite live_word_eq. lia.
Qed.

(** * Properties *)

(** C17: generations are never reused.  Under any interleaving of any number of
    attaching, retiring, shutting-down and installing threads and the renderer, and
    whatever their loads answer, the generations issued are 1, 2, 3, ..., each once,
    and each is retired, once, before the next is issued; every token and every
    retirement that is answered is one of them; and a token is live, by the newest
    word of the gate, exactly until its generation is retired. *)
Theorem generations_never_reused (s : system) (Hs : reachable s) :
  ∃ n m, issued (past s) = live_word <$> countdown n ∧ retired (past s) = countdown m ∧
    (m ≤ n ≤ S m)%nat ∧ Z.of_nat n ≤ MAX_GENERATION ∧
    (∀ w v, (Done (Token w), v) ∈ threads s → w ∈ issued (past s)) ∧
    (∀ g v, (Done (Retired (Some g)), v) ∈ threads s → g ∈ retired (past s)) ∧
    ∀ w, w ∈ issued (past s) →
      token_is_live (gate (control s)) w = true ↔ generation_of w ∉ retired (past s).
Proof.
  pose proof (reachable_ok s Hs) as [Hc Ht _ _ _]. pose proof (co_gate _ _ Hc) as Hg. pose proof Hg as (n & Hn & Hi & Hw).
  rewrite Forall_forall in Ht.
  assert ((∀ w v, (Done (Token w), v) ∈ threads s → w ∈ issued (past s)) ∧
          (∀ g v, (Done (Retired (Some g)), v) ∈ threads s → g ∈ retired (past s))) as [H1 H2].
  { split; intros x v Hx; exact (to_pc _ _ _ (Ht _ Hx)). }
  assert (∀ w, w ∈ issued (past s) →
      token_is_live (gate (control s)) w = true ↔ generation_of w ∉ retired (past s)) as H3
    by (intros; by apply token_live).
  destruct Hw as [[_ Hr]|(m & -> & _ & Hr)].
  - exists n, n. do 2 (split; [done|]). split; [lia|]. by split.
  - exists (S m), m. do 2 (split; [done|]). split; [lia|]. by split.
Qed.

(** C29: a shutdown that retires a generation is final.  Under any interleaving and
    whatever the loads answer, once every call has returned and a shutdown has
    answered that it retired a generation, no generation is live: an attach that
    follows the shutdown's word in the gate sees the shutdown and retires what it
    issued.  (A shutdown that finds nothing live releases nothing through the gate,
    and an attach may miss it: [shutdown_missed].) *)
Theorem shutdown_is_final (s : system) (Hs : reachable s) (Hq : quiet s) (g : Z) (v : view loc)
    (Hdown : (Done (ShutDown (Some g)), v) ∈ threads s) :
  is_live_word (gate (control s)) = false ∧ g ∈ retired (past s) ∧
  ∀ w, w ∈ issued (past s) →
    token_is_live (gate (control s)) w = false ∧ generation_of w ∈ retired (past s).
Proof.
  pose proof (reachable_ok s Hs) as [Hc Ht Hsd _ _]. rewrite Forall_forall in Ht.
  pose proof (Ht _ Hdown) as Hd. pose proof (co_gate _ _ Hc) as Hg.
  assert (is_live_word (gate (control s)) = false) as Hdead.
  { apply not_true_is_false. intros Hl. apply (quiet_none s (covers (control s))); [done| |by apply Hsd, Hl; apply (to_shut _ _ _ Hd)].
    intros [p u] (_ & _ & Hp). cbn in *. by destruct p. }
  split; [done|]. split; [exact (to_pc _ _ _ Hd)|]. intros w Hw. pose proof (token_live _ _ _ Hg Hw) as Htl.
  assert (token_is_live (gate (control s)) w = false) as Hf.
  { destruct Hg as (n & _ & Hi & _). rewrite Hi in Hw. apply list_elem_of_fmap in Hw as (g' & -> & _).
    apply not_true_is_false. unfold token_is_live. intros He%Z.eqb_eq. rewrite He in Hdead.
    by rewrite live_word_live in Hdead. }
  split; [done|]. rewrite Hf in Htl. destruct (decide (generation_of w ∈ retired (past s))); [done|].
  by apply Htl in n.
Qed.

End Control.

(** * Concrete runs *)

#[export] Instance wake_slot : WakeChannel bool := {|
  waiting := λ b, b; try_send_wake := λ _, true; recv_wake := λ b, if b then Some false else None;
  waiting_try_send := λ _, eq_refl;
  recv_waiting := λ b H, match b return b = false → (if b then Some false else None) = None with
                         | true => λ H, ltac:(discriminate H) | false => λ _, eq_refl end H |}.

Definition end_of (l : list (nat * choice)) (ts : list (pc (W := bool))) : system (W := bool) :=
  default (system_new ts) (schedule l (system_new ts)).

Lemma end_reachable l ts : Forall (λ t, starting t = true) ts → reachable (end_of l ts).
Proof.
  intros Hts. unfold end_of. destruct (schedule l (system_new ts)) as [s|] eqn:E; cbn; [|by apply reach_start].
  eapply schedule_reachable; [exact E|by apply reach_start].
Qed.

Lemma quiet_check (s : system (W := bool)) :
  forallb (λ t, match t.1 with Done _ | RenderWait => true | _ => false end) (threads s) = true → quiet s.
Proof.
  intros H%Is_true_true. rewrite forallb_True in H. eapply Forall_impl; [exact H|]. intros [p v] Ht. cbn in *. by destruct p.
Qed.

Lemma thread_at (s : system (W := bool)) i l p n :
  (λ t, (t.1, t.2 l)) <$> threads s !! i = Some (p, n) → ∃ v, (p, v) ∈ threads s ∧ v l = n.
Proof.
  intros ([p' v] & Hi & [= -> ->])%fmap_Some_1. exists v. split; [by eapply list_elem_of_lookup_2|done].
Qed.

(** ** What release and acquire do not order *)

(** The attach swaps the gate and still reads that nobody is shutting down; the
    shutdown has stored that somebody is and still reads that nothing is attached. *)
Definition missed_run : list (nat * choice) :=
  [(0%nat, Read 0); (0%nat, Read 0); (1%nat, Act); (1%nat, Read 0); (1%nat, Act); (0%nat, Act); (0%nat, Read 0)].

(** After a shutdown and an attach have both returned, the attach with a token, the
    token may be live. *)
Lemma shutdown_missed : ∃ (s : system (W := bool)) v u w,
  reachable s ∧ quiet s ∧ (Done (ShutDown None), v) ∈ threads s ∧ (Done (Token w), u) ∈ threads s ∧
  token_is_live (gate (control s)) w = true.
Proof.
  set (s := end_of missed_run [AttachStart; ShutdownStart]).
  destruct (thread_at s 1 AGate (Done (ShutDown None)) 0) as (v & Hv & _); [by vm_compute|].
  destruct (thread_at s 0 AShuttingDown (Done (Token 3)) 0) as (u & Hu & _); [by vm_compute|].
  exists s, v, u, 3. split; [apply end_reachable; by repeat constructor|]. split; [apply quiet_check; by vm_compute|].
  split; [exact Hv|]. split; [exact Hu|]. by vm_compute.
Qed.

(** The retirement records its generation and reads that no wake is installed; the
    installation sets it and reads that nothing was retired. *)
Definition lost_run : list (nat * choice) :=
  [(0%nat, Read 0); (0%nat, Read 0); (0%nat, Act); (0%nat, Read 0); (2%nat, Act);
   (1%nat, Read 1); (1%nat, Act); (1%nat, Act); (1%nat, Read 0); (2%nat, Read 0)].

(** After a retirement and an installation have both returned, no wake may be waiting
    while the generation retired is not torn down. *)
Lemma teardown_missed : ∃ (s : system (W := bool)) v u,
  reachable s ∧ quiet s ∧ (Done (Retired (Some 1)), v) ∈ threads s ∧ (Done (Installed true), u) ∈ threads s ∧
  channel (control s) = Some false ∧ handled (past s) < latest_retired (control s).
Proof.
  set (s := end_of lost_run [AttachStart; RetireLoad ForRetire; InstallSet false; RenderWait]).
  destruct (thread_at s 1 ARenderWake (Done (Retired (Some 1))) 0) as (v & Hv & _); [by vm_compute|].
  destruct (thread_at s 2 ALatestRetired (Done (Installed true)) 0) as (u & Hu & _); [by vm_compute|].
  exists s, v, u. split; [apply end_reachable; by repeat constructor|]. split; [apply quiet_check; by vm_compute|].
  split; [exact Hv|]. split; [exact Hu|]. split; by vm_compute.
Qed.

(** ** A shutdown between two attaches *)

(** One attach has its token before the shutdown; the other passes its first check
    before and swaps the gate after. *)
Definition race_run : list (nat * choice) :=
  [(0%nat, Read 0); (0%nat, Read 0); (0%nat, Act); (0%nat, Read 0); (2%nat, Act); (2%nat, Read 0);
   (4%nat, Read 0); (1%nat, Act); (1%nat, Read 1); (1%nat, Act); (4%nat, Read 2); (4%nat, Act); (4%nat, Read 1);
   (1%nat, Act); (1%nat, Read 1); (1%nat, Act); (3%nat, Act); (3%nat, Read 1);
   (4%nat, Read 3); (4%nat, Act); (4%nat, Act); (4%nat, Read 1); (4%nat, Act); (3%nat, Act); (3%nat, Read 2)].

Definition race_end : system (W := bool) :=
  end_of race_run [AttachStart; ShutdownStart; InstallSet false; RenderWait; AttachStart].

Lemma shutdown_race_reachable : reachable race_end.
Proof. apply end_reachable. by repeat constructor. Qed.

Lemma race_quiet : quiet race_end.
Proof. apply quiet_check. by vm_compute. Qed.

Lemma generations_never_reused_witness : issued (past race_end) = [5; 3] ∧ ∃ n m,
  issued (past race_end) = live_word <$> countdown n ∧ retired (past race_end) = countdown m ∧
  (m ≤ n ≤ S m)%nat.
Proof.
  split; [by vm_compute|].
  destruct (generations_never_reused race_end shutdown_race_reachable) as (n & m & H1 & H2 & H3 & _).
  exists n, m. split; [exact H1|]. split; [exact H2|exact H3].
Defined.

Lemma shutdown_is_final_witness : is_live_word (gate (control race_end)) = false ∧
  ∀ w, w ∈ issued (past race_end) → token_is_live (gate (control race_end)) w = false.
Proof.
  destruct (thread_at race_end 1 AGate (Done (ShutDown (Some 1))) 2) as (v & Hv & _); [by vm_compute|].
  destruct (shutdown_is_final race_end shutdown_race_reachable race_quiet 1 v Hv) as (H1 & _ & H2).
  split; [exact H1|]. intros w Hw. exact (proj1 (H2 w Hw)).
Defined.

