(* ===== verification/SurfaceLife.v ===== *)
(** What is built on surface generations: the host's attachment slot
    ([engine/crates/core/src/services/surface_attachment.rs]), the lifecycle that
    decides whether to present ([engine/crates/graphics/src/surface_system.rs])
    and the release of the native resource
    ([engine/crates/shared/src/surface/attachment.rs]). *)
From S2P Require Import Prelude Surface.

(** * The host's slot *)

Module Slot.

(** A [SurfaceLease] by the word its token expects; the rest of it is the
    platform's. *)
Definition SurfaceLease : Type := Z.

Definition SurfaceAttachmentSlot : Type := option SurfaceLease.

Inductive SurfaceTransitionError := StaleGeneration | ConflictingLiveGeneration.

#[global] Instance SurfaceTransitionError_eq_dec : EqDecision SurfaceTransitionError.
Proof. solve_decision. Defined.

Definition empty : SurfaceAttachmentSlot := None.

(** [debug_assert!(lease.is_live())]. *)
Definition from_initial (gate : Z) (lease : SurfaceLease) : result SurfaceAttachmentSlot :=
  if token_is_live gate lease then mret (Some lease) else Panic.

Definition generation (s : SurfaceAttachmentSlot) : option Z := generation_of <$> s.

Definition has_live_surface (gate : Z) (s : SurfaceAttachmentSlot) : bool :=
  match s with Some lease => token_is_live gate lease | None => false end.

Definition live_lease (gate : Z) (s : SurfaceAttachmentSlot) : option SurfaceLease :=
  match s with Some lease => if token_is_live gate lease then Some lease else None | None => None end.

(** The gate is read twice, for the candidate and for the current lease, and it
    may have moved in between. *)
Definition prepare (gate gate' : Z) (s : SurfaceAttachmentSlot) (candidate : SurfaceLease) :
    outcome SurfaceTransitionError unit :=
  if negb (token_is_live gate candidate) then Fail StaleGeneration else
  match s with
  | None => mret tt
  | Some current =>
      if generation_of candidate <? generation_of current then Fail StaleGeneration
      else if (generation_of current <? generation_of candidate) && token_is_live gate' current
      then Fail ConflictingLiveGeneration
      else mret tt
  end.

Definition commit (gate gate' : Z) (s : SurfaceAttachmentSlot) (candidate : SurfaceLease) :
    outcome SurfaceTransitionError SurfaceAttachmentSlot :=
  _ ← prepare gate gate' s candidate; mret (Some candidate).

Definition detach (s : SurfaceAttachmentSlot) (g : Z) : bool * SurfaceAttachmentSlot :=
  if bool_decide (generation s ≠ Some g) then (false, s) else (true, None).

(** A slot beside the control of its session: what it is given are leases of
    generations that the control issued. *)
Section SlotRun.
Context {W : Type} {HW : WakeChannel W}.

Inductive slot_reachable : system (W := W) → SurfaceAttachmentSlot → Prop :=
  | slot_empty s : reachable s → slot_reachable s empty
  | slot_initial s w slot :
      reachable s → w ∈ issued (past s) → from_initial (gate (control s)) w = Ret slot →
      slot_reachable s slot
  | slot_gate s s' slot : slot_reachable s slot → step s s' → slot_reachable s' slot
  | slot_commit s s' w slot slot' :
      slot_reachable s slot → w ∈ issued (past s) → rtc step s s' →
      commit (gate (control s)) (gate (control s')) slot w = Ret slot' → slot_reachable s' slot'
  | slot_detach s slot g : slot_reachable s slot → slot_reachable s (snd (detach slot g)).

Lemma gate_issued w h v : gate_ok w h → v ∈ issued h → ∃ g, v = live_word g ∧ 1 ≤ g ≤ generation_of w.
Proof.
  intros (n & _ & Hi & Hw) Hv. rewrite Hi in Hv. apply list_elem_of_fmap in Hv as (g & -> & Hg).
  apply elem_of_countdown in Hg. exists g. split; [done|].
  destruct Hw as [[-> _]|(m & _ & -> & _)]; [by rewrite generation_dead|by rewrite generation_live].
Qed.

Lemma gate_issued_length w h : gate_ok w h → generation_of w = Z.of_nat (length (issued h)).
Proof.
  intros (n & _ & -> & Hw). rewrite length_fmap.
  assert (length (countdown n) = n) as -> by (clear; induction n; cbn [countdown length]; congruence).
  destruct Hw as [[-> _]|(m & _ & -> & _)]; [by rewrite generation_dead|by rewrite generation_live].
Qed.

Lemma steps_issued (s s' : system (W := W)) :
  rtc step s s' → ∃ new, issued (past s') = new ++ issued (past s).
Proof.
  induction 1 as [s|s s1 s' Hstep _ [new IH]]; [by exists []|].
  destruct (step_issues _ _ Hstep) as [new1 H1]. exists (new ++ new1). by rewrite IH, H1, app_assoc.
Qed.

Lemma steps_reachable (s s' : system (W := W)) : reachable s → rtc step s s' → reachable s'.
Proof. intros Hs. induction 1 as [|? ? ? Hstep _ IH]; [done|]. apply IH. by eapply reach_step. Qed.

Lemma slot_reachable_ok s slot :
  slot_reachable s slot → reachable s ∧ ∀ v, slot = Some v → v ∈ issued (past s).
Proof.
  induction 1 as [s Hs|s w slot Hs Hw H|s s' slot _ [Hs Hv] Hstep|s s' w slot slot' _ [Hs Hv] Hw Hsteps H
                 |s slot g _ [Hs Hv]].
  - by split.
  - split; [done|]. intros v ->. unfold from_initial in H. case_match; [|done]. by injection H as ->.
  - split; [by eapply reach_step|]. intros v E. destruct (step_issues _ _ Hstep) as [new ->].
    apply elem_of_app. right. by apply Hv.
  - split; [by eapply steps_reachable|]. intros v ->. destruct (steps_issued _ _ Hsteps) as [new ->].
    apply elem_of_app. right. unfold commit in H. destruct (prepare _ _ _ _); try done. by injection H as ->.
  - split; [done|]. intros v. unfold detach. case_bool_decide; [apply Hv|done].
Qed.

End SlotRun.

End Slot.

(** * The lifecycle *)

Module Lifecycle.

Inductive SurfaceLifecycleState := NoSurface | SurfacePending | SurfaceReady | Paused | Recovering | Lost.

#[global] Instance SurfaceLifecycleState_eq_dec : EqDecision SurfaceLifecycleState.
Proof. solve_decision. Defined.

Record SurfaceSystem := { state : SurfaceLifecycleState; size : option (Z * Z) }.

Definition new : SurfaceSystem := {| state := NoSurface; size := None |}.

Definition on_surface_available (s : SurfaceSystem) (sz : Z * Z) : SurfaceSystem :=
  {| state := if bool_decide (state s ≠ Paused) then SurfaceReady else state s; size := Some sz |}.

Definition on_surface_destroyed (s : SurfaceSystem) : SurfaceSystem :=
  {| state := match state s with
              | Paused => Lost
              | NoSurface | SurfacePending => NoSurface
              | SurfaceReady | Recovering | Lost => Lost
              end;
     size := None |}.

Definition on_pause (s : SurfaceSystem) : SurfaceSystem := {| state := Paused; size := size s |}.

Definition on_resume (s : SurfaceSystem) : SurfaceSystem :=
  {| state := match size s with
              | Some _ => SurfaceReady
              | None => match state s with Lost | Paused => Recovering | _ => SurfacePending end
              end;
     size := size s |}.

Definition can_present (s : SurfaceSystem) : bool := bool_decide (state s = SurfaceReady).

Inductive event := Available (sz : Z * Z) | Destroyed | Pause | Resume.

Definition handle (s : SurfaceSystem) (e : event) : SurfaceSystem :=
  match e with
  | Available sz => on_surface_available s sz
  | Destroyed => on_surface_destroyed s
  | Pause => on_pause s
  | Resume => on_resume s
  end.

Definition run (es : list event) : SurfaceSystem := foldl handle new es.

(** The surface there is after some events, and whether the last pause still
    stands: it is lifted by a resume, and forgotten with its surface. *)
Definition surface_after (sz : option (Z * Z)) (e : event) : option (Z * Z) :=
  match e with Available sz => Some sz | Destroyed => None | Pause | Resume => sz end.
Definition pause_after (paused : bool) (e : event) : bool :=
  match e with Available _ => paused | Destroyed => false | Pause => true | Resume => false end.

Definition surface_of (es : list event) : option (Z * Z) := foldl surface_after None es.
Definition pause_stands (es : list event) : bool := foldl pause_after false es.

Definition lifecycle_ok (s : SurfaceSystem) (sz : option (Z * Z)) (paused : bool) : Prop :=
  size s = sz ∧ (state s = Paused ↔ paused = true) ∧
  (state s = SurfaceReady ↔ (∃ d, sz = Some d) ∧ paused = false).

Lemma lifecycle_step s sz paused e :
  lifecycle_ok s sz paused →
  lifecycle_ok (handle s e) (surface_after sz e) (pause_after paused e).
Proof.
  intros (<- & Hp & Hr). destruct s as [st d], e as [sz'| | | ]; unfold lifecycle_ok; cbn in *.
  - case_bool_decide; destruct paused; naive_solver.
  - destruct st; naive_solver.
  - naive_solver.
  - destruct d, st; naive_solver.
Qed.

Lemma lifecycle_run es : lifecycle_ok (run es) (surface_of es) (pause_stands es).
Proof.
  induction es as [|e es IH] using rev_ind; [by split_and!; naive_solver|].
  unfold run, surface_of, pause_stands in *. rewrite !foldl_app. by apply lifecycle_step.
Qed.

End Lifecycle.

(** * The release of a native resource *)

Module Release.

Inductive SurfaceReleasePhase := Pending | Released.

#[global] Instance SurfaceReleasePhase_eq_dec : EqDecision SurfaceReleasePhase.
Proof. solve_decision. Defined.

Inductive SurfaceReleaseRegistrationError := AlreadyRegistered | PendingCountExhausted.

(** [ReleaseRegistration]: whether it has a notification to post. *)
Definition ReleaseRegistration : Type := bool.

(** One resource: the leases of it that are out, counting the pin of a prepared
    release; whether the native anchor is still there. *)
Record SurfaceResource := {
  leases : Z;
  prepared : Z;
  anchored : bool;
  phase : SurfaceReleasePhase;
  registration : option ReleaseRegistration
}.

(** The resources of a session, its pending-release count, and the resources
    whose notification was posted, oldest first. *)
Record Session := { resources : list SurfaceResource; pending_count : Z; notified : list nat }.

Definition resource_new : SurfaceResource :=
  {| leases := 1; prepared := 0; anchored := true; phase := Pending; registration := None |}.

Definition usize_max : Z := 2 ^ 64 - 1.

(** [fetch_sub] after which [debug_assert!(previous > 0)]. *)
Definition count_down (n : Z) : result Z := if 0 <? n then Ret (n - 1) else Panic.

(** [complete]: the registration is taken, the count goes down, the level is
    published, and the notification is posted. *)
Definition complete (i : nat) (r : SurfaceResource) (n : Z) (posted : list nat) :
    result (SurfaceResource * Z * list nat) :=
  let released := {| leases := 0; prepared := prepared r; anchored := false; phase := Released;
                     registration := None |} in
  match registration r with
  | None => mret (released, n, posted)
  | Some notification =>
      n ← count_down n;
      mret (released, n, if notification then posted ++ [i] else posted)
  end.

(** A lease dropped; with the last one goes the resource. *)
Definition drop_lease (i : nat) (r : SurfaceResource) (n : Z) (posted : list nat) :
    result (SurfaceResource * Z * list nat) :=
  if leases r =? 1 then complete i r n posted
  else mret ({| leases := leases r - 1; prepared := prepared r; anchored := anchored r;
                phase := phase r; registration := registration r |}, n, posted).

Definition prepare_release (r : SurfaceResource) (n : Z) (notification : bool) :
    outcome SurfaceReleaseRegistrationError (SurfaceResource * Z) :=
  match registration r with
  | Some _ => Fail AlreadyRegistered
  | None =>
      if usize_max <? n + 1 then Fail PendingCountExhausted else
      Ret ({| leases := leases r + 1; prepared := prepared r + 1; anchored := anchored r;
              phase := phase r; registration := Some notification |}, n + 1)
  end.

(** A prepared release is gone. *)
Definition unprepare (r : SurfaceResource) : SurfaceResource :=
  {| leases := leases r; prepared := prepared r - 1; anchored := anchored r; phase := phase r;
     registration := registration r |}.

(** [PreparedSurfaceRelease::commit]: its pin goes. *)
Definition commit (i : nat) (r : SurfaceResource) (n : Z) (posted : list nat) :
    result (SurfaceResource * Z * list nat) := drop_lease i (unprepare r) n posted.

(** [PreparedSurfaceRelease::drop] without a commit: the registration is taken
    back, its notification dropped, and then the pin goes. *)
Definition rollback (i : nat) (r : SurfaceResource) (n : Z) (posted : list nat) :
    result (SurfaceResource * Z * list nat) :=
  let r := unprepare r in
  match registration r with
  | None => drop_lease i r n posted
  | Some _ =>
      n ← count_down n;
      drop_lease i {| leases := leases r; prepared := prepared r; anchored := anchored r;
                      phase := phase r; registration := None |} n posted
  end.

Inductive release_op :=
  | Attach
  | CloneLease (i : nat)
  | DropLease (i : nat)
  | Prepare (i : nat) (notification : bool)
  | Commit (i : nat)
  | Rollback (i : nat).

#[global] Instance release_op_eq_dec : EqDecision release_op.
Proof. solve_decision. Defined.

(** A holder acts on a lease or a prepared release it has: leases are cloned
    from leases, a release is prepared on one, and the pin of a prepared release
    is not a lease anyone else can drop. *)
Definition enabled (r : SurfaceResource) (o : release_op) : bool :=
  match o with
  | Attach => true
  | CloneLease _ | Prepare _ _ => 0 <? leases r
  | DropLease _ => prepared r <? leases r
  | Commit _ | Rollback _ => 0 <? prepared r
  end.

Definition put (s : Session) (i : nat) (m : result (SurfaceResource * Z * list nat)) : result Session :=
  x ← m;
  let '(r, n, posted) := x in
  mret {| resources := <[i := r]> (resources s); pending_count := n; notified := posted |}.

Definition act (s : Session) (i : nat) (r : SurfaceResource) (o : release_op) : result Session :=
  let n := pending_count s in
  let posted := notified s in
  match o with
  | Attach => mret s
  | CloneLease _ =>
      put s i (mret ({| leases := leases r + 1; prepared := prepared r; anchored := anchored r;
                        phase := phase r; registration := registration r |}, n, posted))
  | DropLease _ => put s i (drop_lease i r n posted)
  | Prepare _ notification =>
      match prepare_release r n notification with
      | Ret (r, n) => put s i (mret (r, n, posted))
      | Fail _ => mret s
      | Panic => Panic
      | OutOfFuel => OutOfFuel
      end
  | Commit _ => put s i (commit i r n posted)
  | Rollback _ => put s i (rollback i r n posted)
  end.

Definition target (o : release_op) : nat :=
  match o with
  | Attach => 0
  | CloneLease i | DropLease i | Prepare i _ | Commit i | Rollback i => i
  end.

Definition release_step (s : Session) (o : release_op) : result Session :=
  match o with
  | Attach =>
      mret {| resources := resources s ++ [resource_new]; pending_count := pending_count s;
              notified := notified s |}
  | _ =>
      match resources s !! target o with
      | Some r => if enabled r o then act s (target o) r o else mret s
      | None => mret s
      end
  end.

Fixpoint release_run (s : Session) (os : list release_op) : result Session :=
  match os with
  | [] => mret s
  | o :: os => s ← release_step s o; release_run s os
  end.

Definition session_new : Session := {| resources := []; pending_count := 0; notified := [] |}.

(** The registrations that are outstanding. *)
Definition registered (r : SurfaceResource) : Z := if registration r is Some _ then 1 else 0.
Fixpoint registrations (rs : list SurfaceResource) : Z :=
  match rs with [] => 0 | r :: rs => registered r + registrations rs end.

(** What is true of a resource: it is released exactly when its last lease has
    gone, with its anchor gone before, and only one release of it is prepared. *)
Record resource_ok (r : SurfaceResource) : Prop := {
  rk_prepared : 0 ≤ prepared r ≤ 1 ∧ prepared r ≤ leases r;
  rk_registered : prepared r = 1 → is_Some (registration r);
  rk_phase : phase r = Released ↔ leases r = 0;
  rk_anchor : anchored r = true ↔ leases r ≠ 0;
  rk_gone : leases r = 0 → registration r = None
}.

Record session_ok (s : Session) : Prop := {
  sk_resources : Forall resource_ok (resources s);
  sk_count : pending_count s = registrations (resources s);
  sk_posted : NoDup (notified s);
  sk_released : ∀ i, i ∈ notified s → ∃ r, resources s !! i = Some r ∧ phase r = Released
}.

Lemma registrations_app rs rs' : registrations (rs ++ rs') = registrations rs + registrations rs'.
Proof. induction rs as [|r rs IH]; cbn [registrations app]; lia. Qed.

Lemma registered_bounds r : 0 ≤ registered r ≤ 1.
Proof. unfold registered. destruct (registration r); lia. Qed.

Lemma registrations_ge rs : 0 ≤ registrations rs.
Proof. induction rs as [|r rs IH]; cbn [registrations]; [lia|]. pose proof (registered_bounds r). lia. Qed.

Lemma registrations_lookup rs i r : rs !! i = Some r → registered r ≤ registrations rs.
Proof.
  revert i. induction rs as [|r0 rs IH]; intros [|i] Hi; cbn [registrations]; try done.
  - injection Hi as ->. pose proof (registrations_ge rs). lia.
  - specialize (IH i Hi). pose proof (registered_bounds r0). lia.
Qed.

Lemma registrations_insert rs i r r' :
  rs !! i = Some r → registrations (<[i := r']> rs) = registrations rs - registered r + registered r'.
Proof.
  revert i. induction rs as [|r0 rs IH]; intros [|i] Hi; try done.
  - injection Hi as ->. change (<[0%nat:=r']> (r :: rs)) with (r' :: rs). cbn [registrations]. lia.
  - change (<[S i:=r']> (r0 :: rs)) with (r0 :: <[i:=r']> rs). cbn [registrations]. rewrite (IH i Hi). lia.
Qed.

(** An operation on the resource [i] of a session: the count follows its
    registration, and it posts only when it releases. *)
Definition sound (i : nat) (r : SurfaceResource) (n : Z) (posted : list nat)
    (m : result (SurfaceResource * Z * list nat)) : Prop :=
  ∃ r' n' posted', m = Ret (r', n', posted') ∧ resource_ok r' ∧
    n' = n - registered r + registered r' ∧
    (posted' = posted ∨ posted' = posted ++ [i] ∧ leases r ≠ 0 ∧ phase r' = Released) ∧
    (leases r = 0 → leases r' = 0).

Lemma put_ok s i r m :
  session_ok s → resources s !! i = Some r → sound i r (pending_count s) (notified s) m →
  ∃ s', put s i m = Ret s' ∧ session_ok s'.
Proof.
  intros [Hr Hc Hn Hp] Hi (r' & n' & posted' & -> & Hok & -> & Hpost & Hgone).
  pose proof (Forall_lookup_1 _ _ _ _ Hr Hi) as [_ _ Hph _ _].
  eexists. split; [done|]. assert (i < length (resources s))%nat by by eapply lookup_lt_Some.
  split; cbn [resources pending_count notified].
  - by apply Forall_insert.
  - rewrite (registrations_insert _ _ _ _ Hi), Hc. lia.
  - destruct Hpost as [->|(-> & Hl & _)]; [done|]. apply NoDup_app. split; [done|].
    split; [|apply NoDup_singleton]. intros j Hj ->%list_elem_of_singleton.
    destruct (Hp i Hj) as (r0 & Hr0 & Hrel). rewrite Hi in Hr0. injection Hr0 as <-. by apply Hph in Hrel.
  - intros j Hj. destruct (decide (i = j)) as [->|Hne].
    + exists r'. split; [by apply list_lookup_insert_eq|]. destruct Hpost as [->|(_ & _ & ?)]; [|done].
      destruct (Hp j Hj) as (r0 & Hr0 & Hrel). rewrite Hi in Hr0. injection Hr0 as <-.
      apply Hok. by apply Hgone, Hph.
    + rewrite list_lookup_insert_ne by done. apply Hp. destruct Hpost as [->|(-> & _ & _)]; [done|].
      apply elem_of_app in Hj as [?|?%list_elem_of_singleton]; congruence.
Qed.

Lemma count_down_ret n : 0 < n → count_down n = Ret (n - 1).
Proof. intros. unfold count_down. by rewrite (proj2 (Z.ltb_lt _ _)). Qed.

(** Dropping a lease there is, of a resource in order but perhaps for the
    registration of a release just unprepared. *)
Lemma drop_lease_sound i r n posted :
  1 ≤ leases r → 0 ≤ prepared r ≤ 1 → prepared r + 1 ≤ leases r → (prepared r = 1 → is_Some (registration r)) →
  phase r = Pending → anchored r = true → registered r ≤ n →
  sound i r n posted (drop_lease i r n posted).
Proof.
  intros Hl Hp Hpl Hreg Hph Ha Hn. unfold drop_lease, sound. destruct (Z.eqb_spec (leases r) 1) as [H1|H1].
  - unfold complete. destruct (registration r) as [b|] eqn:Er.
    + unfold registered in *. rewrite Er in Hn |- *. rewrite count_down_ret by lia. cbn [mbind outcome_bind].
      do 3 eexists. split; [done|]. split; [split; cbn; try done; lia|]. cbn [registration].
      split; [lia|]. split; [destruct b; [right|by left]|done]. cbn. split; [done|]. split; [lia|done].
    + do 3 eexists. split; [done|]. split; [split; cbn; try done; lia|]. unfold registered. rewrite Er.
      cbn [registration]. split; [lia|]. split; [by left|done].
  - do 3 eexists. split; [done|]. split.
    + split; cbn; try done; try lia; [rewrite Hph; split; [done|lia]|rewrite Ha; split; [lia|done]].
    + cbn [registration registered leases]. split; [unfold registered; cbn; lia|]. split; [by left|lia].
Qed.

Lemma act_sound s i r o :
  session_ok s → resources s !! i = Some r → enabled r o = true → target o = i → o ≠ Attach →
  ∃ s', act s i r o = Ret s' ∧ session_ok s'.
Proof.
  intros Hs Hi He Ht Ha. pose proof Hs as [Hr Hc _ _].
  pose proof (Forall_lookup_1 _ _ _ _ Hr Hi) as [Hpr Hreg Hph Hanc Hgone].
  assert (registered r ≤ pending_count s) as Hn by (rewrite Hc; by eapply registrations_lookup).
  assert (leases r ≠ 0 → phase r = Pending ∧ anchored r = true) as Hup.
  { intros Hl. split; [|by apply Hanc]. destruct (phase r); [done|]. exfalso. by apply Hl, Hph. }
  destruct o as [ |j|j|j b|j|j]; try done; cbn [act enabled] in *; bool_to_prop.
  - apply (put_ok s i r); [done|done|]. destruct Hup as [H1 H2]; [lia|].
    do 3 eexists. split; [done|]. split; [split; cbn; try done; try lia; [rewrite H1; split; [done|lia]|rewrite H2; split; [lia|done]]|].
    unfold registered. cbn. split; [lia|]. split; [by left|lia].
  - apply (put_ok s i r); [done|done|]. destruct Hup as [H1 H2]; [lia|].
    apply drop_lease_sound; try done; lia.
  - unfold prepare_release. destruct (registration r) as [b0|] eqn:Er; [by exists s|].
    destruct (usize_max <? pending_count s + 1); [by exists s|].
    apply (put_ok s i r); [done|done|]. destruct Hup as [H1 H2]; [lia|].
    assert (prepared r = 0) as Hp0.
    { destruct (decide (prepared r = 1)) as [E|]; [|lia]. destruct (Hreg E). congruence. }
    do 3 eexists. split; [done|]. split.
    + split; cbn; try lia; [by eexists|rewrite H1; split; [done|lia]|rewrite H2; split; [lia|done]].
    + unfold registered. rewrite Er. cbn. split; [lia|]. split; [by left|lia].
  - apply (put_ok s i r); [done|done|]. destruct Hup as [H1 H2]; [lia|]. unfold commit.
    apply (drop_lease_sound i (unprepare r)); cbn; try done; lia.
  - apply (put_ok s i r); [done|done|]. destruct Hup as [H1 H2]; [lia|]. unfold rollback.
    cbn [unprepare registration]. destruct (Hreg ltac:(lia)) as [b Hb]. rewrite Hb.
    assert (registered r = 1) as Hb1 by by unfold registered; rewrite Hb. rewrite count_down_ret by lia. cbn [mbind outcome_bind].
    edestruct (drop_lease_sound i {| leases := leases r; prepared := prepared r - 1; anchored := anchored r;
       phase := phase r; registration := None |} (pending_count s - 1) (notified s))
      as (r' & n' & posted' & E & Hok & Hcount & Hpost & Hg); cbn; try done; try lia.
    cbn [unprepare leases prepared anchored phase] in *. rewrite E. do 3 eexists. split; [done|].
    split; [done|]. change (registered _) with 0 in Hcount at 1. split; [lia|]. by split.
Qed.

Lemma release_step_ok s o : session_ok s → ∃ s', release_step s o = Ret s' ∧ session_ok s'.
Proof.
  intros Hs. destruct (decide (o = Attach)) as [->|Ha].
  - eexists. split; [done|]. destruct Hs as [Hr Hc Hn Hp]. split; cbn [resources pending_count notified]; try done.
    + apply Forall_app. split; [done|]. apply Forall_singleton. by split; cbn; try done; lia.
    + rewrite registrations_app, Hc. cbn. lia.
    + intros i Hi. destruct (Hp i Hi) as (r & Hr' & ?). exists r. split; [|done]. by apply lookup_app_l_Some.
  - assert (release_step s o = match resources s !! target o with
      | Some r => if enabled r o then act s (target o) r o else Ret s | None => Ret s end) as -> by by destruct o.
    destruct (resources s !! target o) as [r|] eqn:Ei; [|by exists s].
    destruct (enabled r o) eqn:Ee; [|by exists s]. by eapply act_sound.
Qed.

Lemma release_run_ok os : ∀ s, session_ok s → ∃ s', release_run s os = Ret s' ∧ session_ok s'.
Proof.
  induction os as [|o os IH]; intros s Hs; cbn [release_run]; [by exists s|].
  destruct (release_step_ok s o Hs) as (s1 & -> & H1). by apply IH.
Qed.

Lemma session_new_ok : session_ok session_new.
Proof. split; cbn; [constructor|done|constructor|]. by intros i ?%not_elem_of_nil. Qed.

(** A rollback posts nothing. *)
Lemma drop_unregistered i r n posted r' n' posted' :
  registration r = None → drop_lease i r n posted = Ret (r', n', posted') → posted' = posted.
Proof. intros Hr. unfold drop_lease, complete. rewrite Hr. by destruct (_ =? 1); intros [= _ _ <-]. Qed.

Lemma rollback_posts_nothing s i s' :
  session_ok s → release_step s (Rollback i) = Ret s' → notified s' = notified s.
Proof.
  intros [Hr _ _ _]. cbn [release_step target]. destruct (resources s !! i) as [r|] eqn:Ei; [|by intros [= <-]].
  destruct (enabled r (Rollback i)) eqn:Ee; [|by intros [= <-]].
  destruct (Forall_lookup_1 _ _ _ _ Hr Ei) as [Hpr Hreg _ _ _]. cbn [enabled] in Ee. bool_to_prop.
  cbn [act]. unfold rollback. destruct (Hreg ltac:(lia)) as [b Hb]. cbn [unprepare registration]. rewrite Hb.
  destruct (count_down _) as [n| | |]; try done. cbn [mbind outcome_bind put].
  unfold put. destruct (drop_lease _ _ _ _) as [[[r' n'] posted']| | |] eqn:Ed; try done.
  apply drop_unregistered in Ed; [|done]. cbn [mbind outcome_bind]. intros [= <-]. exact Ed.
Qed.

End Release.

(** * Theorems *)

(** The slot takes the live generation and nothing else.  Whatever the
    threads of the control do, between the two reads of the gate too, a lease of an
    issued generation is accepted exactly when it is live at the first read, and a
    refusal is always for a stale generation: the conflict of two live generations
    never arises.  The generation in the slot only grows, and a surface the slot
    reports live is the one whose word is in the gate. *)
Theorem slot_takes_live_generation {W : Type} {HW : WakeChannel W} (s s' : system (W := W))
    (slot : Slot.SurfaceAttachmentSlot) (w : Slot.SurfaceLease)
    (Hslot : Slot.slot_reachable s slot) (Hw : w ∈ issued (past s)) (Hs : rtc step s s') :
  Slot.commit (gate (control s)) (gate (control s')) slot w =
    (if token_is_live (gate (control s)) w then Ret (Some w) else Fail Slot.StaleGeneration) ∧
  (token_is_live (gate (control s)) w = true →
   ∀ g, Slot.generation slot = Some g → g ≤ generation_of w) ∧
  (Slot.has_live_surface (gate (control s)) slot = true ↔
     slot = Some (gate (control s)) ∧ is_live_word (gate (control s)) = true) ∧
  Slot.live_lease (gate (control s)) slot =
    (if Slot.has_live_surface (gate (control s)) slot then slot else None).
Proof.
  destruct (Slot.slot_reachable_ok s slot Hslot) as [Hr Hv].
  pose proof (co_gate _ _ (so_control _ (reachable_ok s Hr))) as Hg.
  pose proof (co_gate _ _ (so_control _ (reachable_ok s' (Slot.steps_reachable s s' Hr Hs)))) as Hg'.
  destruct (Slot.gate_issued _ _ _ Hg Hw) as (gw & -> & Hgw).
  assert (generation_of (gate (control s)) ≤ generation_of (gate (control s'))) as Hmono.
  { rewrite (Slot.gate_issued_length _ _ Hg), (Slot.gate_issued_length _ _ Hg').
    destruct (Slot.steps_issued s s' Hs) as [new ->]. rewrite length_app. lia. }
  unfold Slot.commit, Slot.prepare, Slot.generation, Slot.has_live_surface, Slot.live_lease, token_is_live.
  destruct slot as [v|].
  - destruct (Slot.gate_issued _ _ _ Hg (Hv v eq_refl)) as (gv & -> & Hgv). cbn [fmap option_fmap option_map].
    rewrite !generation_live. split_and!.
    + destruct (Z.eqb_spec (gate (control s)) (live_word gw)) as [E|]; [|done]. cbn [negb].
      rewrite E, generation_live in *. rewrite (proj2 (Z.ltb_ge _ _)) by lia.
      destruct (Z.ltb_spec gv gw); [|done]. cbn [andb].
      destruct (Z.eqb_spec (gate (control s')) (live_word gv)) as [E'|]; [|done].
      rewrite E', generation_live in Hmono. lia.
    + intros E%Z.eqb_eq g [= <-]. rewrite E, generation_live in Hgv. lia.
    + rewrite Z.eqb_eq. split; [intros ->; by rewrite live_word_live|]. by intros [[= ->] _].
    + by destruct (_ =? _).
  - split_and!; try done; [by destruct (_ =? _)|]. split; [done|by intros [? _]].
Qed.

(** When frames are presented.  After any events a frame may be presented
    exactly when there is a surface and no pause stands, where a pause is lifted by a
    resume and also forgotten when its surface is destroyed: a surface that comes
    back while the host is still paused is presented to. *)
Theorem presents_with_a_surface (es : list Lifecycle.event) :
  Lifecycle.can_present (Lifecycle.run es) =
    (bool_decide (is_Some (Lifecycle.surface_of es)) && negb (Lifecycle.pause_stands es)) ∧
  Lifecycle.size (Lifecycle.run es) = Lifecycle.surface_of es ∧
  Lifecycle.can_present (Lifecycle.run
    [Lifecycle.Available (1, 1); Lifecycle.Pause; Lifecycle.Destroyed; Lifecycle.Available (1, 1)]) = true.
Proof.
  destruct (Lifecycle.lifecycle_run es) as (Hsz & _ & Hready). split_and!; [|done|reflexivity].
  unfold Lifecycle.can_present. apply eq_true_iff_eq.
  rewrite andb_true_iff, negb_true_iff, !bool_decide_eq_true. exact Hready.
Qed.

(** A release is accounted for and notified once.  Whatever the holders of
    the leases of a session do, nothing panics: the pending-release count is the
    number of the resources with a registration outstanding, so it never underflows; a
    resource is released exactly when its last lease has gone, its anchor dropped
    before; a release is notified at most once, and only of a resource released.  A
    release rolled back posts no notification. *)
Theorem releases_accounted (os : list Release.release_op) :
  ∃ s, Release.release_run Release.session_new os = Ret s ∧
    Release.pending_count s = Release.registrations (Release.resources s) ∧
    NoDup (Release.notified s) ∧
    (∀ i, i ∈ Release.notified s →
       ∃ r, Release.resources s !! i = Some r ∧ Release.phase r = Release.Released) ∧
    (∀ i r, Release.resources s !! i = Some r →
       (Release.phase r = Release.Released ↔ Release.leases r = 0) ∧
       (Release.anchored r = true ↔ Release.leases r ≠ 0)) ∧
    (∀ i s', Release.release_step s (Release.Rollback i) = Ret s' →
       Release.notified s' = Release.notified s).
Proof.
  destruct (Release.release_run_ok os _ Release.session_new_ok) as (s & -> & Hs).
  pose proof Hs as [Hr Hc Hn Hp]. exists s. do 4 (split; [done|]). split.
  - intros i r Hi. by destruct (Forall_lookup_1 _ _ _ _ Hr Hi).
  - intros i s'. by apply Release.rollback_posts_nothing.
Qed.

(** * Examples and witnesses *)

(** A generation attached, and the slot that holds it. *)
Definition attached : system (W := bool) :=
  end_of [(0%nat, Read 0); (0%nat, Read 0); (0%nat, Act)] [AttachStart].

Lemma attached_reachable : reachable attached.
Proof. apply end_reachable. by repeat constructor. Qed.

Lemma slot_takes_live_generation_witness :
  Slot.commit 3 3 (Some 3) 3 = Ret (Some 3) ∧ Slot.has_live_surface 3 (Some 3) = true.
Proof.
  assert (Slot.slot_reachable attached (Some 3)) as H.
  { eapply (Slot.slot_initial _ 3); [exact attached_reachable| |reflexivity]. apply list_elem_of_singleton. reflexivity. }
  destruct (slot_takes_live_generation attached attached (Some 3) 3 H
              ltac:(apply list_elem_of_singleton; reflexivity) (rtc_refl _ _)) as (H1 & _ & H2 & _).
  split; [exact H1|]. apply H2. split; reflexivity.
Defined.

(** A release prepared, committed while a lease is out, and notified with the
    last lease. *)
Example release_with_last_lease :
  (s ← Release.release_run Release.session_new
         [Release.Attach; Release.CloneLease 0; Release.Prepare 0 true; Release.DropLease 0;
          Release.Commit 0; Release.DropLease 0];
   mret (Release.pending_count s, Release.notified s)) = Ret (0, [0%nat]) :> result _.
Proof. reflexivity. Qed.
