(* ===== verification/External.v ===== *)
(** A session whose JavaScript runs in another process
    ([engine/crates/core/src/runtime/external.rs]) and the events its renderer
    sends back ([engine/crates/shared/src/render_event.rs]).

    The submit path, the session thread and the renderer run concurrently.  What
    one of them does between two locks or sends is one step here, and a session
    is any sequence of such steps: [submit_frame] is four of them (accept, decode,
    send, hold), and other threads may step in between.  The ingress part of a
    session is a session of [Ingress], which the steps refine. *)
From S2P Require Import Prelude Wire Opcodes Stream Pool Ingress Commands Decode RenderStream.
From S2P Require Import Sender Tickets.

(** * WebGL errors kept for the producer *)

Definition EXTERNAL_ERROR_RENDERER_NOT_READY : Z := 2001.
Definition EXTERNAL_ERROR_NO_COMMAND_STREAM : Z := 2002.
Definition EXTERNAL_ERROR_BAD_COMMAND_STREAM : Z := 2003.
Definition EXTERNAL_ERROR_RENDERER_UNREACHABLE : Z := 2004.

Definition MAX_PENDING_ERRORS_PER_CANVAS : Z := 16.
Definition INITIAL_RUNTIME_GENERATION : Z := 1.

Definition ExternalGlErrors : Type := list (Z * list Z).

Definition push_code (queue : list Z) (code : Z) : list Z :=
  (if MAX_PENDING_ERRORS_PER_CANVAS <=? lenZ queue then tail queue else queue) ++ [code].

(** A canvas without a queue gets one at the end. *)
Fixpoint push_gl_error (queues : ExternalGlErrors) (canvas_id code : Z) : ExternalGlErrors :=
  match queues with
  | [] => [(canvas_id, push_code [] code)]
  | (id, queue) :: queues =>
      if id =? canvas_id then (id, push_code queue code) :: queues
      else (id, queue) :: push_gl_error queues canvas_id code
  end.

Fixpoint take_gl_error (queues : ExternalGlErrors) (canvas_id : Z) : option Z * ExternalGlErrors :=
  match queues with
  | [] => (None, [])
  | (id, queue) :: queues =>
      if id =? canvas_id then (head queue, (id, tail queue) :: queues)
      else let '(code, queues) := take_gl_error queues canvas_id in (code, (id, queue) :: queues)
  end.

#[export] Instance external_decode_context : GlDecodeContext ExternalGlErrors := {|
  push_error := push_gl_error;
  transform_feedback_captures := λ _ _, false
|}.

(** * The frame clock *)

(** [f64 as u64]: toward zero, saturating, zero for NaN. *)
Definition f64_as_u64 (bits : Z) : Z :=
  let negative := Z.testbit bits 63 in
  let exponent := Z.land (Z.shiftr bits 52) 0x7FF in
  let mantissa := Z.land bits (Z.ones 52) in
  if exponent =? 0x7FF then
    if (mantissa =? 0) && negb negative then u64_max else 0
  else if negative || (exponent =? 0) then 0
  else
    let significand := mantissa + 2 ^ 52 in
    Z.min u64_max (if 1075 <=? exponent then Z.shiftl significand (exponent - 1075)
                   else Z.shiftr significand (1075 - exponent)).

(** [arm] is there when the platform has a vsync to ask for. *)
Record FrameClockParts := { demand : Raf.RafDemand; arm : bool }.

(** [armed] counts the calls of [arm]. *)
Record ExternalFrameClock := {
  inner : option FrameClockParts;
  ticks : Z;
  last_timestamp_millis : Z;
  armed : Z
}.

Definition clock_default : ExternalFrameClock :=
  {| inner := None; ticks := 0; last_timestamp_millis := 0; armed := 0 |}.

Definition request_frame (c : ExternalFrameClock) : result (bool * ExternalFrameClock) :=
  match inner c with
  | None => mret (false, c)
  | Some parts =>
      r ← Raf.mark_waiting (demand parts);
      mret (true, {| inner := Some {| demand := snd r; arm := arm parts |}; ticks := ticks c;
                     last_timestamp_millis := last_timestamp_millis c;
                     armed := if arm parts then armed c + 1 else armed c |})
  end.

Definition record_tick (c : ExternalFrameClock) (timestamp_millis : Z) : ExternalFrameClock :=
  {| inner := inner c; ticks := (ticks c + 1) mod 2 ^ 64;
     last_timestamp_millis := f64_as_u64 timestamp_millis; armed := armed c |}.

(** * The submit path *)

(** [chunks_exact(4)] and [u32::from_le_bytes]. *)
Fixpoint le_words (bytes : list Z) : list Z :=
  match bytes with
  | a :: b :: c :: d :: bytes => le_value [a; b; c; d] :: le_words bytes
  | _ => []
  end.

Definition map_err {E E' A} (f : E → E') (m : outcome E A) : outcome E' A :=
  match m with
  | Ret a => Ret a
  | Fail e => Fail (f e)
  | Panic => Panic
  | OutOfFuel => OutOfFuel
  end.

Section External.
Context {C : Crc32} {V : VecAlloc} {SZ : CommandSize}.
Context {P : ControlPayloads} {Ch : Type} {HCh : Channel Ch RenderCommand}.

(** The scratch words are emptied before each use; nothing of them lasts. *)
Record RenderDispatch := { rd_sender : Ch; rd_in_flight : list Pool.PooledFrame }.

(** With the counters of the sender, which are the process's. *)
Record SubmitPath := {
  sp_ingress : FrameIngress;
  sp_errors : ExternalGlErrors;
  sp_dispatch : option RenderDispatch;
  sp_counters : Counters
}.

Definition set_ingress (p : SubmitPath) (g : FrameIngress) : SubmitPath :=
  {| sp_ingress := g; sp_errors := sp_errors p; sp_dispatch := sp_dispatch p;
     sp_counters := sp_counters p |}.
Definition set_errors (p : SubmitPath) (e : ExternalGlErrors) : SubmitPath :=
  {| sp_ingress := sp_ingress p; sp_errors := e; sp_dispatch := sp_dispatch p;
     sp_counters := sp_counters p |}.
Definition set_dispatch (p : SubmitPath) (d : RenderDispatch) (k : Counters) : SubmitPath :=
  {| sp_ingress := sp_ingress p; sp_errors := sp_errors p; sp_dispatch := Some d;
     sp_counters := k |}.

(** From a frame to the packet for the renderer, under the lock of the words. *)
Definition decode_frame (errors : ExternalGlErrors) (f : Pool.PooledFrame) :
    outcome Z (ExternalGlErrors * FramePacket) :=
  parsed ← map_err WireError_code (Pool.frame f);
  stream ← map_err WireError_code (command_stream parsed);
  match stream with
  | None => Fail EXTERNAL_ERROR_NO_COMMAND_STREAM
  | Some stream =>
      let scratch := le_words (sec_bytes stream) in
      validated ← map_err (λ _, EXTERNAL_ERROR_BAD_COMMAND_STREAM)
                    (validate_stream scratch (lenZ scratch mod 2 ^ 32));
      r ← map_err (Empty_set_rect _) (decode_render_stream errors validated []);
      let '(_, errors, ops) := r in
      let b := push (builder (wf_frame_id parsed) 0) BeginFrame in
      let b := foldl push b ops in
      mret (errors, finish (push b Present))
  end.

Definition decode_stage (p : SubmitPath) (f : Pool.PooledFrame) : outcome Z (SubmitPath * FramePacket) :=
  match sp_dispatch p with
  | None => Fail EXTERNAL_ERROR_RENDERER_NOT_READY
  | Some _ => r ← decode_frame (sp_errors p) f; mret (set_errors p (fst r), snd r)
  end.

(** [None] is [Ok(())]. *)
Definition send_stage (p : SubmitPath) (packet : FramePacket) : option Z * SubmitPath :=
  match sp_dispatch p with
  | None => (Some EXTERNAL_ERROR_RENDERER_NOT_READY, p)
  | Some d =>
      let '(answer, k, ch) := dispatch (sp_counters p) (rd_sender d) (FramePacketCmd packet) in
      (match answer with None => None | Some _ => Some EXTERNAL_ERROR_RENDERER_UNREACHABLE end,
       set_dispatch p {| rd_sender := ch; rd_in_flight := rd_in_flight d |} k)
  end.

Definition hold_stage (p : SubmitPath) (f : Pool.PooledFrame) : SubmitPath :=
  match sp_dispatch p with
  | None => p
  | Some d => set_dispatch p {| rd_sender := rd_sender d; rd_in_flight := rd_in_flight d ++ [f] |}
                (sp_counters p)
  end.

(** A frame dropped: its credit and its buffer go back. *)
Definition release_frame (p : SubmitPath) (f : Pool.PooledFrame) : SubmitPath :=
  let g := sp_ingress p in
  let '(w, pool) := Pool.drop_frame f (credits g) (pool g) in
  set_ingress p (set_flow g w pool (last_accepted_sequence g)).

(** The [Err] arm: [render] has dropped the frame. *)
Definition refuse_frame (p : SubmitPath) (f : Pool.PooledFrame) (code : Z) : IngressOutcome * SubmitPath :=
  let p := release_frame p f in
  (refused code (remaining_credits (sp_ingress p)), p).

Definition accept_stage (p : SubmitPath) (bytes : list Z) :
    outcome WireError (IngressOutcome * option Pool.PooledFrame * SubmitPath) :=
  r ← submit (sp_ingress p) bytes;
  let '(out, frame, g) := r in
  mret (out, frame, set_ingress p g).

Definition render (p : SubmitPath) (f : Pool.PooledFrame) : result (option Z * SubmitPath) :=
  match decode_stage p f with
  | Fail code => mret (Some code, p)
  | Panic => Panic
  | OutOfFuel => OutOfFuel
  | Ret (p, packet) =>
      match send_stage p packet with
      | (Some code, p) => mret (Some code, p)
      | (None, p) => mret (None, hold_stage p f)
      end
  end.

Definition lift_error {E A} (m : result A) : outcome E A := map_err (Empty_set_rect _) m.

Definition submit_frame (p : SubmitPath) (bytes : list Z) : outcome WireError (IngressOutcome * SubmitPath) :=
  r ← accept_stage p bytes;
  let '(out, frame, p) := r in
  match frame with
  | None => mret (out, p)
  | Some f =>
      r ← lift_error (render p f);
      match r with
      | (None, p) => mret (out, p)
      | (Some code, p) => mret (refuse_frame p f code)
      end
  end.

(** * The session thread *)

Inductive HostCommand :=
  | HostShutdown
  | UpdateSurface (generation : Z)
  | HostSurfaceDestroyed (generation : Z)
  | SurfaceLost
  | OnShow
  | OnHide
  | OnAudioInterruptionBegin
  | OnAudioInterruptionEnd
  | OtherCommand.

(** The calls made on the render and the audio service. *)
Inductive service_call :=
  | RenderUpdateSurface (generation : Z)
  | RenderSurfaceDestroyed (generation : Z)
  | RenderPause
  | RenderResume
  | AudioPause
  | AudioResume.

(** [live] is [render.has_live_surface()].  The answers: whether to go on, the
    ingress, whether the session is in the background, the calls made. *)
Definition handle_command (g : FrameIngress) (backgrounded live : bool) (command : HostCommand) :
    bool * FrameIngress * bool * list service_call :=
  match command with
  | HostShutdown => (false, g, backgrounded, [])
  | UpdateSurface generation =>
      (true, snd (set_surface_generation g generation), backgrounded, [RenderUpdateSurface generation])
  | HostSurfaceDestroyed generation => (true, g, backgrounded, [RenderSurfaceDestroyed generation])
  | SurfaceLost => (true, g, backgrounded, [RenderPause])
  | OnShow => (true, g, false, if live then [RenderResume; AudioResume] else [])
  | OnHide => (true, g, true, [RenderPause; AudioPause])
  | OnAudioInterruptionBegin => (true, g, backgrounded, [AudioPause])
  | OnAudioInterruptionEnd => (true, g, backgrounded, [AudioResume])
  | OtherCommand => (true, g, backgrounded, [])
  end.

Inductive RenderEvent := ContextLost | ContextRecovered (success : bool) | SwapFailed | OtherEvent.

(** One event: the epoch counted here, and the one of the ingress. *)
Definition handle_event (g : FrameIngress) (last_context_epoch : Z) (event : RenderEvent) :
    result (FrameIngress * Z) :=
  match event with
  | ContextLost =>
      epoch ← u64_add last_context_epoch 1;
      mret (snd (set_resource_epoch g epoch), epoch)
  | ContextRecovered _ | SwapFailed | OtherEvent => mret (g, last_context_epoch)
  end.

Fixpoint drain_render_events (g : FrameIngress) (last_context_epoch : Z) (events : list RenderEvent) :
    result (FrameIngress * Z) :=
  match events with
  | [] => mret (g, last_context_epoch)
  | event :: events =>
      r ← handle_event g last_context_epoch event;
      drain_render_events (fst r) (snd r) events
  end.

(** * The session as a system of steps *)

(** A submission under way, by what it does next. *)
Inductive job :=
  | ToDecode (f : Pool.PooledFrame)
  | ToSend (f : Pool.PooledFrame) (packet : FramePacket)
  | ToHold (f : Pool.PooledFrame).

Definition job_frame (j : job) : Pool.PooledFrame :=
  match j with ToDecode f | ToSend f _ | ToHold f => f end.

(** [accepted] is the sequence numbers accepted, oldest first; [calls] what was
    asked of the services. *)
Record system := {
  path : SubmitPath;
  jobs : list job;
  clock : ExternalFrameClock;
  backgrounded : bool;
  last_context_epoch : Z;
  calls : list service_call;
  running : bool;
  accepted : list Z
}.

Definition with_path (s : system) (p : SubmitPath) (js : list job) : system :=
  {| path := p; jobs := js; clock := clock s; backgrounded := backgrounded s;
     last_context_epoch := last_context_epoch s; calls := calls s; running := running s;
     accepted := accepted s |}.

Inductive ext_op :=
  | Offer (bytes : list Z)
  | Decode (i : nat)
  | Send (i : nat)
  | Hold (i : nat)
  | Publish (ch : Ch) (parts : FrameClockParts)
  | Tick (timestamp_millis : Z)
  | Command (live : bool) (command : HostCommand)
  | Events (events : list RenderEvent)
  | Ready
  | TakeError (canvas_id : Z)
  | RequestFrame.

(** The submission at [i] ends with an error. *)
Definition job_fails (s : system) (p : SubmitPath) (i : nat) (f : Pool.PooledFrame) (code : Z) : system :=
  with_path s (snd (refuse_frame p f code)) (delete i (jobs s)).

Definition submit_step (s : system) (bytes : list Z) : outcome WireError system :=
  r ← accept_stage (path s) bytes;
  let '(out, frame, p) := r in
  match frame with
  | None => mret (with_path s p (jobs s))
  | Some f =>
      mret {| path := p; jobs := jobs s ++ [ToDecode f]; clock := clock s;
              backgrounded := backgrounded s; last_context_epoch := last_context_epoch s;
              calls := calls s; running := running s;
              accepted := accepted s ++ [accepted_sequence out] |}
  end.

Definition job_step (s : system) (i : nat) (j : job) : outcome WireError system :=
  match j with
  | ToDecode f =>
      match decode_stage (path s) f with
      | Fail code => mret (job_fails s (path s) i f code)
      | Panic => Panic
      | OutOfFuel => OutOfFuel
      | Ret (p, packet) => mret (with_path s p (<[i := ToSend f packet]> (jobs s)))
      end
  | ToSend f packet =>
      match send_stage (path s) packet with
      | (Some code, p) => mret (job_fails s p i f code)
      | (None, p) => mret (with_path s p (<[i := ToHold f]> (jobs s)))
      end
  | ToHold f => mret (with_path s (hold_stage (path s) f) (delete i (jobs s)))
  end.

(** What the session thread does with a timestamp. *)
Definition tick_step (s : system) (timestamp_millis : Z) : system :=
  let p := match sp_dispatch (path s) with
           | Some d =>
               match rd_in_flight d with
               | f :: rest =>
                   release_frame (set_dispatch (path s)
                     {| rd_sender := rd_sender d; rd_in_flight := rest |} (sp_counters (path s))) f
               | [] => path s
               end
           | None => path s
           end in
  {| path := p; jobs := jobs s; clock := record_tick (clock s) timestamp_millis;
     backgrounded := backgrounded s; last_context_epoch := last_context_epoch s; calls := calls s;
     running := running s; accepted := accepted s |}.

Definition command_step (s : system) (live : bool) (command : HostCommand) : system :=
  let '(go_on, g, bg, called) :=
    handle_command (sp_ingress (path s)) (backgrounded s) live command in
  {| path := set_ingress (path s) g; jobs := jobs s; clock := clock s; backgrounded := bg;
     last_context_epoch := last_context_epoch s; calls := calls s ++ called; running := go_on;
     accepted := accepted s |}.

(** Both [OnceLock]s keep what they were first set to. *)
Definition publish_step (s : system) (ch : Ch) (parts : FrameClockParts) : system :=
  let p := path s in
  let c := clock s in
  {| path := match sp_dispatch p with
             | Some _ => p
             | None => set_dispatch p {| rd_sender := ch; rd_in_flight := [] |} (sp_counters p)
             end;
     jobs := jobs s;
     clock := match inner c with
              | Some _ => c
              | None => {| inner := Some parts; ticks := ticks c;
                           last_timestamp_millis := last_timestamp_millis c; armed := armed c |}
              end;
     backgrounded := backgrounded s; last_context_epoch := last_context_epoch s; calls := calls s;
     running := running s; accepted := accepted s |}.

Definition ext_step (s : system) (o : ext_op) : outcome WireError system :=
  match o with
  | Offer bytes => submit_step s bytes
  | Decode i =>
      match jobs s !! i with Some (ToDecode f) => job_step s i (ToDecode f) | _ => mret s end
  | Send i =>
      match jobs s !! i with Some (ToSend f packet) => job_step s i (ToSend f packet) | _ => mret s end
  | Hold i =>
      match jobs s !! i with Some (ToHold f) => job_step s i (ToHold f) | _ => mret s end
  | Publish ch parts => if running s then mret (publish_step s ch parts) else mret s
  | Tick ts => if running s then mret (tick_step s ts) else mret s
  | Command live command => if running s then mret (command_step s live command) else mret s
  | Events events =>
      if running s then
        r ← lift_error (drain_render_events (sp_ingress (path s)) (last_context_epoch s) events);
        mret {| path := set_ingress (path s) (fst r); jobs := jobs s; clock := clock s;
                backgrounded := backgrounded s; last_context_epoch := snd r; calls := calls s;
                running := running s; accepted := accepted s |}
      else mret s
  | Ready => mret (with_path s (set_ingress (path s) (mark_resources_ready (sp_ingress (path s)))) (jobs s))
  | TakeError canvas_id =>
      mret (with_path s (set_errors (path s) (snd (take_gl_error (sp_errors (path s)) canvas_id))) (jobs s))
  | RequestFrame =>
      r ← lift_error (request_frame (clock s));
      mret {| path := path s; jobs := jobs s; clock := snd r; backgrounded := backgrounded s;
              last_context_epoch := last_context_epoch s; calls := calls s; running := running s;
              accepted := accepted s |}
  end.

Fixpoint ext_run (s : system) (os : list ext_op) : outcome WireError system :=
  match os with
  | [] => mret s
  | o :: os => s ← ext_step s o; ext_run s os
  end.

(** A session as it is spawned, around an ingress. *)
Definition spawn_path (g : FrameIngress) : SubmitPath :=
  {| sp_ingress := g; sp_errors := []; sp_dispatch := None; sp_counters := counters_zero |}.

Definition spawn (g : FrameIngress) : system :=
  {| path := spawn_path g; jobs := []; clock := clock_default; backgrounded := false;
     last_context_epoch := 0; calls := []; running := true; accepted := [] |}.

(** * The specification *)

(** The frames the renderer has been given and not finished. *)
Definition held (p : SubmitPath) : list Pool.PooledFrame :=
  match sp_dispatch p with Some d => rd_in_flight d | None => [] end.

(** Every frame that is out. *)
Definition frames_out (s : system) : list Pool.PooledFrame := map job_frame (jobs s) ++ held (path s).

(** The session of [Ingress] this one is, seen from its ingress. *)
Definition implements (s : system) (t : session) : Prop :=
  ingress t = sp_ingress (path s) ∧ frames t ≡ₚ frames_out s ∧ accepted_log t = accepted s.

(** What is given: bytes are bytes, and the shell has begun a session of the
    frame demand before it hands it over ([raf_demand.begin_session()]). *)
Definition ext_op_ok (o : ext_op) : Prop :=
  match o with
  | Offer bytes => Forall is_u8 bytes
  | Publish _ parts => Raf.session (demand parts) ≠ 0
  | _ => True
  end.

(** How many context losses are reported. *)
Definition op_losses (o : ext_op) : nat :=
  match o with
  | Events events => length (List.filter (λ e, match e with ContextLost => true | _ => false end) events)
  | _ => 0
  end.
Definition losses (os : list ext_op) : nat := sum_list_with op_losses os.

(** ** Lemmas: words *)

Lemma le_words_length bytes : lenZ (le_words bytes) ≤ lenZ bytes.
Proof.
  revert bytes. fix IH 1. intros [|a [|b [|c [|d bytes]]]]; cbn [le_words length]; try lia.
  specialize (IH bytes). lia.
Qed.

Lemma le_words_u32 bytes : Forall is_u8 bytes → Forall is_u32 (le_words bytes).
Proof.
  revert bytes. fix IH 1. intros [|a [|b [|c [|d bytes]]]] H; cbn [le_words]; try constructor.
  - do 4 (apply Forall_cons in H as [? H]).
    pose proof (le_value_bound [a; b; c; d] ltac:(by rewrite !Forall_cons)) as Hb.
    unfold is_u32. cbn [length] in Hb. exact Hb.
  - do 4 (apply Forall_cons in H as [? H]). by apply IH.
Qed.

(** Words written little-endian are read back. *)
Lemma le_words_concat ws : Forall is_u32 ws → le_words (concat (le_bytes 4 <$> ws)) = ws.
Proof.
  induction 1 as [|w ws Hw _ IH]; [done|]. cbn [fmap list_fmap concat].
  pose proof (le_value_roundtrip 4 w Hw) as Hr.
  destruct (le_bytes 4 w) as [|a [|b [|c [|d [|e l]]]]] eqn:E; try discriminate.
  cbn [app le_words]. by rewrite Hr, IH.
Qed.

(** ** Lemmas: a frame decoded *)

Lemma section_small p s :
  packet_wf p → s ∈ pk_sections p → lenZ (sec_bytes s) < 2 ^ 32 ∧ Forall is_u8 (sec_bytes s).
Proof.
  intros (_&_&_&_&_&_&_&W8&_&_&W11) Hin. split; [|rewrite Forall_forall in W8; by apply section_wf_bytes, W8].
  apply list_elem_of_split in Hin as (d & r & E). unfold packet_total, MAX_TOTAL_BYTES in W11. rewrite E in W11.
  pose proof (layout_end_mid d s r (payload_start (d ++ s :: r))) as Hm. cbv zeta in Hm.
  pose proof (align8_bounds (layout_end (payload_start (d ++ s :: r)) (d ++ s :: r))).
  pose proof (align8_bounds (layout_end (payload_start (d ++ s :: r)) d)).
  pose proof (layout_end_ge (payload_start (d ++ s :: r)) d). unfold payload_start in *. lia.
Qed.

(** The packet for the renderer. *)
Definition render_packet (frame_id : Z) (ops : list FrameOp) : FramePacket :=
  {| fp_frame_id := frame_id; fp_raf_time_ms := 0; fp_ops := BeginFrame :: ops ++ [Present] |}.

Lemma push_ops ops : ∀ b,
  foldl push b ops = {| fb_frame_id := fb_frame_id b; fb_raf_time_ms := fb_raf_time_ms b;
                        fb_ops := fb_ops b ++ ops |}.
Proof.
  induction ops as [|op ops IH]; intros b; cbn [foldl]; [by destruct b; rewrite app_nil_r|].
  rewrite IH. cbn [push fb_frame_id fb_raf_time_ms fb_ops]. by rewrite <- app_assoc.
Qed.

(** A command section decodes to what its records mean, or is refused. *)
Definition decodes_to (e : ExternalGlErrors) (p : Packet) (rs : list (list Z))
    (r : ExternalGlErrors * FramePacket) : Prop :=
  let '(commands, errs) := meaning (λ _, false) None rs in
  ∃ new, r = (push_errors e errs, render_packet (pk_frame_id p) new) ∧
    delivered (omap op_event new) = commands ∧ barrier [] (omap op_event new) = Some [] ∧
    Forall op_ok new.

Lemma decode_frame_spec e f p :
  packet_wf p → Pool.contents (Pool.pf_bytes f) = encode p →
  ∃ s, s ∈ pk_sections p ∧ sec_kind s = SECTION_KIND_COMMAND_STREAM ∧
    (decode_frame e f = Fail EXTERNAL_ERROR_BAD_COMMAND_STREAM ∧
       (∀ rs, Forall record_wf rs → le_words (sec_bytes s) = stream_of rs →
          8192 < lenZ (stream_of rs)) ∨
     ∃ rs r, Forall record_wf rs ∧ le_words (sec_bytes s) = stream_of rs ∧
       decode_frame e f = Ret r ∧ decodes_to e p rs r).
Proof.
  intros Hp Hf. destruct (command_stream_found p Hp) as (s & Hs & Hin & Hk).
  exists s. split; [done|]. split; [done|]. destruct (section_small p s Hp Hin) as [Hsmall Hb].
  unfold decode_frame, Pool.frame. rewrite Hf, (proj1 (validate_encode p Hp)).
  cbn [map_err mbind outcome_bind]. rewrite Hs. cbn [map_err mbind outcome_bind].
  set (ws := le_words (sec_bytes s)). pose proof (le_words_length (sec_bytes s)) as Hlen. fold ws in Hlen.
  rewrite Z.mod_small by lia. assert (Forall is_u32 ws) as Hws by by apply le_words_u32.
  pose proof (proj1 (validate_stream_answers ws (lenZ ws) Hws)) as Hsafe.
  destruct (validate_stream ws (lenZ ws)) as [v|err| |] eqn:Ev; [| |done..].
  2:{ left. split; [done|]. intros rs Hrs Hst. apply Z.lt_nge. intros Hle.
      rewrite Hst in Ev. pose proof (validate_stream_ret rs [] Hrs Hle) as Hret.
      rewrite app_nil_r in Hret. by rewrite Hret in Ev. }
  right. destruct (validate_stream_inv ws _ v Hws Ev) as (rs & Hrs & Hv & Ht & _).
  assert (ws = stream_of rs) as Hst.
  { rewrite <- Hv, Ht. by rewrite take_ge by lia. }
  destruct (decode_render_stream_meaning e [] v rs) as (new & Hnew); try done.
  { apply stream_of_words_u32. by rewrite <- Hst. }
  exists rs. cbn [map_err mbind outcome_bind].
  unfold decodes_to. change (transform_feedback_captures e) with (λ _ : Z, false) in Hnew.
  destruct (meaning (λ _, false) None rs) as [commands errs].
  destruct Hnew as (-> & Hd & Hbar & Hok). eexists. split; [done|]. split; [done|].
  split; [reflexivity|]. exists new. split; [|done].
  rewrite push_ops. done.
Qed.

(** ** Lemmas: the ingress underneath *)

(** A frame comes out exactly when the packet is accepted; else nothing has
    changed. *)
Lemma submit_frames g bytes :
  ingress_ok g → Forall is_u8 bytes →
  ∃ out frame g', submit g bytes = Ret (out, frame, g') ∧
    match frame with
    | Some f => decision out = Accepted
    | None => decision out ≠ Accepted ∧ g' = g
    end.
Proof.
  intros Hg Hb. destruct (packet_or_not bytes Hb) as [(p & Hp & ->)|Hno].
  2:{ destruct (submit_malformed g bytes Hb Hno) as (code & -> & _). by do 3 eexists. }
  destruct (submit_packet g p Hg Hp) as ([[out frame] g'] & -> & Ha).
  exists out, frame, g'. split; [done|]. unfold answers in Ha.
  destruct (verdict g p); [destruct Ha as [[_ [= -> -> ->]]|(_ & f & g1 & [= -> -> ->] & _)]|
    injection Ha as -> -> ->..]; done.
Qed.

Lemma session_run_app t t' t'' os os' :
  session_run t os = Ret t' → session_run t' os' = Ret t'' → session_run t (os ++ os') = Ret t''.
Proof.
  revert t. induction os as [|o os IH]; intros t; cbn [session_run app]; [by intros [= ->]|].
  destruct (session_step t o) as [t1| | |]; cbn [mbind outcome_bind]; try done. apply IH.
Qed.

Lemma session_run_one t t' o : session_step t o = Ret t' → session_run t [o] = Ret t'.
Proof. intros H. cbn [session_run]. by rewrite H. Qed.

(** Dropping a frame that is out. *)
Lemma session_complete t f rest :
  frames t ≡ₚ f :: rest →
  ∃ k t', session_step t (Complete k) = Ret t' ∧ frames t' ≡ₚ rest ∧
    accepted_log t' = accepted_log t ∧
    ingress t' = (let '(w, p) := Pool.drop_frame f (credits (ingress t)) (pool (ingress t)) in
                  set_flow (ingress t) w p (last_accepted_sequence (ingress t))).
Proof.
  intros Hp. assert (f ∈ frames t) as Hin by (rewrite Hp; left).
  apply list_elem_of_lookup in Hin as [k Hk]. exists k. cbn [session_step]. rewrite Hk.
  unfold Pool.drop_frame. eexists. split; [done|]. cbn [frames ingress accepted_log].
  split; [|done]. apply (Permutation_cons_inv (a:=f)). by rewrite <- Hp, <- (delete_Permutation _ _ _ Hk).
Qed.

(** ** Lemmas: the simulation *)

(** The frame clock's demand has a session, as the shell begins one. *)
Definition clock_ok (c : ExternalFrameClock) : Prop :=
  match inner c with Some parts => Raf.session (demand parts) ≠ 0 | None => True end.

(** Work past decoding is for a renderer that is there. *)
Definition jobs_ok (s : system) : Prop :=
  sp_dispatch (path s) = None → Forall (λ j, ∃ f, j = ToDecode f) (jobs s).

Record sim (s : system) (t : session) : Prop := {
  sim_implements : implements s t;
  sim_session : session_ok t;
  sim_clock : clock_ok (clock s);
  sim_jobs : jobs_ok s
}.

(** A step of the session under a step of the system, at most one. *)
Definition simulated (s' : system) (t : session) : Prop :=
  ∃ os t', session_run t os = Ret t' ∧ Forall Ingress.op_ok os ∧ sim s' t'.

Lemma sim_stay s s' t :
  sim s t → sp_ingress (path s') = sp_ingress (path s) → frames_out s' ≡ₚ frames_out s →
  accepted s' = accepted s → clock_ok (clock s') → jobs_ok s' → simulated s' t.
Proof.
  intros [(Hi & Hf & Ha) Hok _ _] Hi' Hf' Ha' Hc Hj. exists [], t. split; [done|]. split; [constructor|].
  split; try done. split; [congruence|]. split; [by rewrite Hf', Hf|congruence].
Qed.

Lemma sim_op s s' t o t' :
  sim s t → Ingress.op_ok o → session_step t o = Ret t' →
  implements s' t' → clock_ok (clock s') → jobs_ok s' → simulated s' t.
Proof.
  intros Hsim Ho Hstep Himp Hc Hj. exists [o], t'. split; [by apply session_run_one|].
  split; [by apply Forall_singleton|]. split; try done.
  destruct (session_ok_step t o (sim_session _ _ Hsim) Ho) as (t1 & H1 & Hok).
  rewrite Hstep in H1. by injection H1 as <-.
Qed.

(** A frame that is out is dropped. *)
Lemma sim_release s s' t p f :
  sim s t → frames_out s ≡ₚ f :: frames_out s' → sp_ingress p = sp_ingress (path s) →
  sp_ingress (path s') = sp_ingress (release_frame p f) → accepted s' = accepted s →
  clock_ok (clock s') → jobs_ok s' → simulated s' t.
Proof.
  intros Hsim Hout Hp Hs' Ha Hc Hj. pose proof (sim_implements _ _ Hsim) as (Hi & Hf & Hl).
  destruct (session_complete t f (frames_out s')) as (k & t' & Hstep & Hf' & Hl' & Hi').
  { by rewrite Hf. }
  eapply (sim_op s s' t (Complete k) t'); try done.
  split; [|split; [done|congruence]]. rewrite Hi', Hs'. unfold release_frame. rewrite Hp, Hi.
  by destruct (Pool.drop_frame _ _ _).
Qed.

Lemma frames_jobs s i j :
  jobs s !! i = Some j →
  map job_frame (jobs s) ≡ₚ job_frame j :: map job_frame (delete i (jobs s)).
Proof. intros Hj. rewrite <- (map_cons job_frame). apply Permutation_map. by apply delete_Permutation. Qed.

Lemma frames_insert js i j j' :
  js !! i = Some j → job_frame j' = job_frame j → map job_frame (<[i := j']> js) = map job_frame js.
Proof.
  intros Hj Hf. change (map job_frame) with (fmap (M:=list) job_frame).
  rewrite list_fmap_insert, Hf. apply list_insert_id. by rewrite list_lookup_fmap, Hj.
Qed.

Lemma release_dispatch p f : sp_dispatch (release_frame p f) = sp_dispatch p.
Proof. unfold release_frame. by destruct (Pool.drop_frame _ _ _). Qed.

Lemma held_release p f : held (release_frame p f) = held p.
Proof. unfold held. by rewrite release_dispatch. Qed.

(** A submission that ends with an error. *)
Lemma sim_fails s t i j p code :
  sim s t → jobs s !! i = Some j → sp_ingress p = sp_ingress (path s) → held p = held (path s) →
  (sp_dispatch p = None → sp_dispatch (path s) = None) →
  simulated (job_fails s p i (job_frame j) code) t.
Proof.
  intros Hsim Hj Hi Hh Hd. eapply (sim_release s _ t p (job_frame j)); try done.
  - unfold frames_out, job_fails, with_path. cbn [jobs path refuse_frame snd].
    by rewrite held_release, Hh, (frames_jobs s i j Hj).
  - exact (sim_clock _ _ Hsim).
  - intros Hn. unfold job_fails, with_path in *. cbn [path jobs refuse_frame snd] in *.
    rewrite release_dispatch in Hn. apply Forall_delete, (sim_jobs _ _ Hsim), Hd, Hn.
Qed.

(** The packet of a frame that is out. *)
Lemma sim_frame s t j i :
  sim s t → jobs s !! i = Some j →
  ∃ p, packet_wf p ∧ Pool.contents (Pool.pf_bytes (job_frame j)) = encode p.
Proof.
  intros [(Hi & Hf & Ha) [_ _ Hfr _ _] _ _] Hj. rewrite Hf, Forall_forall in Hfr.
  destruct (Hfr (job_frame j)) as (_ & p & Hp & Hc & _); [|by exists p].
  apply elem_of_app. left. apply list_elem_of_In, in_map, list_elem_of_In. by eapply list_elem_of_lookup_2.
Qed.

Lemma sim_offer s t bytes :
  sim s t → Forall is_u8 bytes → ∃ s', submit_step s bytes = Ret s' ∧ simulated s' t.
Proof.
  intros Hsim Hb. pose proof Hsim as [(Hi & Hf & Ha) [Hg _ _ _ _] Hc Hj]. rewrite Hi in Hg.
  destruct (submit_frames (sp_ingress (path s)) bytes Hg Hb) as (out & frame & g' & Hs & Hfr).
  unfold submit_step, accept_stage. rewrite Hs. cbn [mbind outcome_bind].
  destruct frame as [f|]; eexists; (split; [done|]).
  - eapply (sim_op s _ t (Submit bytes)); [done|done|cbn [session_step]; rewrite Hi, Hs; reflexivity| |done|].
    + split; [done|]. split; [|cbn; by rewrite Hfr, Ha].
      unfold frames_out. cbn [frames jobs path set_ingress]. rewrite Hf, map_app. unfold frames_out.
      cbn [map job_frame]. change (held (set_ingress (path s) g')) with (held (path s)).
      rewrite <- !app_assoc. apply Permutation_app_head. apply Permutation_app_comm.
    + intros Hn. cbn [jobs]. apply Forall_app. split; [by apply Hj|]. apply Forall_singleton. eauto.
  - destruct Hfr as [_ ->]. apply (sim_stay s); done.
Qed.

Lemma sim_job s t i j :
  sim s t → jobs s !! i = Some j → ∃ s', job_step s i j = Ret s' ∧ simulated s' t.
Proof.
  intros Hsim Hji. pose proof Hsim as [_ _ Hc Hj].
  destruct (sim_frame s t j i Hsim Hji) as (p & Hp & Hct). destruct j as [f|f packet|f]; cbn [job_step job_frame] in *.
  - unfold decode_stage. destruct (sp_dispatch (path s)) as [d|] eqn:Ed.
    2:{ eexists. split; [done|]. by apply (sim_fails s t i (ToDecode f)). }
    destruct (decode_frame_spec (sp_errors (path s)) f p Hp Hct) as (sec & _ & _ & [[-> _]|(rs & [e k] & _ & _ & -> & _)]);
      cbn [mbind outcome_bind]; (eexists; split; [done|]).
    + by apply (sim_fails s t i (ToDecode f)).
    + apply (sim_stay s); try done.
      * unfold frames_out, with_path. cbn [jobs path].
        by rewrite (frames_insert _ i (ToDecode f)).
      * intros Hn. cbn in Hn. by rewrite Ed in Hn.
  - unfold send_stage. destruct (sp_dispatch (path s)) as [d|] eqn:Ed.
    2:{ specialize (Hj Ed). rewrite Forall_forall in Hj.
        destruct (Hj (ToSend f packet)) as [? ?]; [by eapply list_elem_of_lookup_2|done]. }
    destruct (dispatch _ _ _) as [[[e|] k] ch]; (eexists; split; [done|]).
    + apply (sim_fails s t i (ToSend f packet)); try done. unfold held. by rewrite Ed.
    + apply (sim_stay s); try done. unfold frames_out, with_path. cbn [jobs path].
      rewrite (frames_insert _ i (ToSend f packet)) by done. unfold held. by rewrite Ed.
  - unfold hold_stage. destruct (sp_dispatch (path s)) as [d|] eqn:Ed.
    2:{ specialize (Hj Ed). rewrite Forall_forall in Hj.
        destruct (Hj (ToHold f)) as [? ?]; [by eapply list_elem_of_lookup_2|done]. }
    eexists. split; [done|]. apply (sim_stay s); try done.
    unfold frames_out, with_path, held. cbn [jobs path set_dispatch sp_dispatch rd_in_flight].
    rewrite Ed, (frames_jobs s i _ Hji). cbn [job_frame app].
    rewrite app_assoc. symmetry. apply Permutation_cons_append.
Qed.

Lemma sim_tick s t ts : sim s t → simulated (tick_step s ts) t.
Proof.
  intros Hsim. pose proof Hsim as [_ _ Hc Hj]. unfold tick_step.
  destruct (sp_dispatch (path s)) as [d|] eqn:Ed; [destruct (rd_in_flight d) as [|f rest] eqn:Er|].
  - by apply (sim_stay s).
  - eapply (sim_release s _ t _ f Hsim); try done.
    unfold frames_out. cbn [jobs path]. rewrite held_release. unfold held at 1. rewrite Ed, Er.
    cbn [held set_dispatch sp_dispatch rd_in_flight]. by rewrite Permutation_middle.
  - by apply (sim_stay s).
Qed.

(** The timelines of the ingress move as the host moves them. *)
Lemma sim_timeline s s' t o g :
  sim s t → (∀ t, Ingress.op_ok o ∧ session_step t o =
     Ret {| ingress := g (ingress t); frames := frames t; accepted_log := accepted_log t |}) →
  path s' = set_ingress (path s) (g (sp_ingress (path s))) → jobs s' = jobs s → accepted s' = accepted s →
  clock s' = clock s → simulated s' t.
Proof.
  intros Hsim Ho Hp Hjs Ha Hc. pose proof Hsim as [(Hi & Hf & Hl) _ Hck Hj].
  destruct (Ho t) as [Hok Hstep]. eapply (sim_op s s' t o); try done.
  - split; [cbn; by rewrite Hp, Hi|]. split; [|cbn; congruence].
    cbn [frames]. rewrite Hf. unfold frames_out. by rewrite Hp, Hjs.
  - by rewrite Hc.
  - unfold jobs_ok. by rewrite Hp, Hjs.
Qed.

Lemma sim_command s t live command : sim s t → simulated (command_step s live command) t.
Proof.
  intros Hsim. pose proof Hsim as [_ _ Hc Hj]. unfold command_step.
  destruct command; cbn [handle_command];
    try (apply (sim_stay s); done).
  by apply (sim_timeline s _ t (SetSurface generation) (λ g, snd (set_surface_generation g generation))).
Qed.

Lemma drain_spec events : ∀ g n,
  0 ≤ n → n + Z.of_nat (op_losses (Events events)) < 2 ^ 64 →
  ∃ epochs, drain_render_events g n events =
    Ret (foldl (λ g epoch, snd (set_resource_epoch g epoch)) g epochs,
         n + Z.of_nat (op_losses (Events events))) ∧
    epochs = (λ i, n + 1 + Z.of_nat i) <$> seq 0 (op_losses (Events events)).
Proof.
  unfold op_losses. induction events as [|ev events IH]; intros g n Hn Hlt; cbn [drain_render_events].
  { exists []. cbn. split; [|done]. by rewrite Z.add_0_r. }
  destruct ev; cbn [handle_event List.filter length] in *.
  2-4: cbn [mbind outcome_bind fst snd mret outcome_ret]; by apply IH.
  unfold u64_add, u64_max. rewrite (proj2 (Z.leb_le _ _)) by lia. cbn [mbind outcome_bind fst snd].
  unfold mret, outcome_ret. cbn [mbind outcome_bind fst snd].
  destruct (IH (snd (set_resource_epoch g (n + 1))) (n + 1)) as (epochs & Hd & He); [lia|lia|].
  exists (n + 1 :: epochs). rewrite Hd. cbn [foldl]. split; [f_equal; f_equal; lia|].
  rewrite He. cbn [seq fmap list_fmap]. f_equal; [lia|].
  rewrite <- fmap_S_seq, <- list_fmap_compose. apply list_fmap_ext. intros. cbn. lia.
Qed.

(** The epochs the ingress is moved through, one session step each. *)
Lemma session_epochs epochs : ∀ t,
  session_run t (SetEpoch <$> epochs) =
  Ret {| ingress := foldl (λ g epoch, snd (set_resource_epoch g epoch)) (ingress t) epochs;
         frames := frames t; accepted_log := accepted_log t |}.
Proof.
  induction epochs as [|e epochs IH]; intros t; cbn [fmap list_fmap session_run foldl].
  { by rewrite session_eta. }
  cbn [session_step]. unfold mret, outcome_ret. cbn [mbind outcome_bind]. by rewrite IH.
Qed.

Lemma sim_events s t (r : FrameIngress * Z) :
  sim s t →
  (∃ epochs, fst r = foldl (λ g epoch, snd (set_resource_epoch g epoch)) (sp_ingress (path s)) epochs) →
  ∀ s', path s' = set_ingress (path s) (fst r) → jobs s' = jobs s → accepted s' = accepted s →
    clock s' = clock s → simulated s' t.
Proof.
  intros [(Hi & Hf & Hl) Hok Hc Hj] [epochs He] s' Hp Hjs Ha Hck.
  exists (SetEpoch <$> epochs). eexists. split; [apply session_epochs|].
  assert (Forall Ingress.op_ok (SetEpoch <$> epochs)) as Hops by (apply Forall_fmap, Forall_true; done).
  split; [done|]. split.
  - split; [cbn [ingress]; rewrite Hp, Hi; cbn; congruence|]. split; [|cbn; congruence].
    cbn [frames]. rewrite Hf. unfold frames_out. by rewrite Hp, Hjs.
  - destruct (session_ok_run t _ Hok Hops) as (t' & Hr & Hok'). rewrite session_epochs in Hr.
    by injection Hr as <-.
  - by rewrite Hck.
  - unfold jobs_ok. by rewrite Hp, Hjs.
Qed.

Lemma request_frame_ok c :
  clock_ok c → ∃ b c', request_frame c = Ret (b, c') ∧ clock_ok c'.
Proof.
  unfold request_frame, clock_ok. destruct (inner c) as [parts|] eqn:E; intros Hc.
  - unfold Raf.mark_waiting, Raf.session_ticket. rewrite (proj2 (Z.eqb_neq _ _) Hc). cbn [negb].
    unfold mret, outcome_ret. cbn [mbind outcome_bind snd]. by do 2 eexists.
  - do 2 eexists. split; [done|]. by rewrite E.
Qed.

Lemma submit_step_epoch s bytes s' :
  submit_step s bytes = Ret s' → last_context_epoch s' = last_context_epoch s.
Proof.
  unfold submit_step. destruct (accept_stage _ _) as [[[out [f|]] q]| | |]; try done; by intros [= <-].
Qed.

Lemma job_step_epoch s i j s' :
  job_step s i j = Ret s' → last_context_epoch s' = last_context_epoch s.
Proof.
  destruct j; cbn [job_step].
  - destruct (decode_stage _ _) as [[q k]| | |]; try done; by intros [= <-].
  - destruct (send_stage _ _) as [[] ]; by intros [= <-].
  - by intros [= <-].
Qed.

(** A step of a submission, if the job at [i] is at it. *)
Lemma sim_job_op s t i (want : job → bool) :
  sim s t →
  ∃ s', match jobs s !! i with Some j => if want j then job_step s i j else Ret s | None => Ret s end =
      Ret s' ∧ simulated s' t ∧ last_context_epoch s' = last_context_epoch s.
Proof.
  intros Hsim. assert (simulated s t) as Hstay by (destruct Hsim; by apply (sim_stay s)).
  destruct (jobs s !! i) as [j|] eqn:Ej; [|by exists s]. destruct (want j); [|by exists s].
  destruct (sim_job s t i j Hsim Ej) as (s' & Hs & Hs'). exists s'. split; [done|]. split; [done|].
  by eapply job_step_epoch.
Qed.

Lemma sim_publish s t ch parts :
  sim s t → Raf.session (demand parts) ≠ 0 → simulated (publish_step s ch parts) t.
Proof.
  intros Hsim Hs. pose proof Hsim as [_ _ Hc Hj]. apply (sim_stay s); try done.
  - unfold publish_step. cbn [path]. by destruct (sp_dispatch _).
  - unfold publish_step, frames_out, held. cbn [path jobs]. by destruct (sp_dispatch (path s)) eqn:E; rewrite ?E.
  - unfold publish_step, clock_ok in *. cbn [clock]. destruct (inner (clock s)) eqn:E; [by rewrite E|done].
  - unfold publish_step, jobs_ok. cbn [path jobs]. destruct (sp_dispatch (path s)) eqn:E; [by rewrite E|done].
Qed.

(** The steps of the session thread. *)
Lemma sim_thread_step s t o :
  sim s t → ext_op_ok o → 0 ≤ last_context_epoch s →
  last_context_epoch s + Z.of_nat (op_losses o) < 2 ^ 64 → running s = true →
  match o with Publish _ _ | Tick _ | Command _ _ | Events _ => True | _ => False end →
  ∃ s', ext_step s o = Ret s' ∧ simulated s' t ∧
    0 ≤ last_context_epoch s' ≤ last_context_epoch s + Z.of_nat (op_losses o).
Proof.
  intros Hsim Ho Hz Hlt Hrun Hk.
  destruct o as [ | | | |ch parts|ts|live command|events| | | ]; try done; cbn [ext_step ext_op_ok] in *;
    rewrite Hrun.
  - eexists. split; [done|]. split; [by apply sim_publish|cbn; lia].
  - eexists. split; [done|]. split; [by apply sim_tick|cbn; lia].
  - eexists. split; [done|]. split; [by apply sim_command|]. unfold command_step.
    destruct (handle_command _ _ _ _) as [[[]]]. cbn. lia.
  - destruct (drain_spec events (sp_ingress (path s)) (last_context_epoch s) Hz Hlt) as (epochs & Hd & _).
    rewrite Hd. cbn [lift_error map_err mbind outcome_bind]. eexists. split; [done|].
    split; [|cbn [last_context_epoch snd]; lia].
    eapply (sim_events s t (foldl _ (sp_ingress (path s)) epochs, 0) Hsim); [by exists epochs|done..].
Qed.

Lemma sim_step s t o :
  sim s t → ext_op_ok o → 0 ≤ last_context_epoch s →
  last_context_epoch s + Z.of_nat (op_losses o) < 2 ^ 64 →
  ∃ s', ext_step s o = Ret s' ∧ simulated s' t ∧
    0 ≤ last_context_epoch s' ≤ last_context_epoch s + Z.of_nat (op_losses o).
Proof.
  intros Hsim Ho Hz Hlt. assert (simulated s t) as Hstay by (destruct Hsim; by apply (sim_stay s)).
  assert (∀ m : outcome WireError system,
    (∃ s', m = Ret s' ∧ simulated s' t ∧ last_context_epoch s' = last_context_epoch s) →
    ∃ s', m = Ret s' ∧ simulated s' t ∧
      0 ≤ last_context_epoch s' ≤ last_context_epoch s + Z.of_nat (op_losses o)) as Hsame.
  { intros m (s' & ? & ? & He). exists s'. split; [done|]. split; [done|lia]. }
  destruct o as [bytes|i|i|i|ch parts|ts|live command|events| |canvas| ];
    try (destruct (running s) eqn:Hrun; [by apply sim_thread_step|cbn [ext_step]; rewrite Hrun; apply Hsame; by exists s]);
    cbn [ext_step ext_op_ok] in *; apply Hsame.
  - destruct (sim_offer s t bytes Hsim Ho) as (s' & Hs & Hs'). exists s'. split; [done|]. split; [done|].
    by eapply submit_step_epoch.
  - destruct (sim_job_op s t i (λ j, if j is ToDecode _ then true else false) Hsim) as (s' & Hs & Hr).
    exists s'. split; [|done]. rewrite <- Hs. by destruct (jobs s !! i) as [[]|].
  - destruct (sim_job_op s t i (λ j, if j is ToSend _ _ then true else false) Hsim) as (s' & Hs & Hr).
    exists s'. split; [|done]. rewrite <- Hs. by destruct (jobs s !! i) as [[]|].
  - destruct (sim_job_op s t i (λ j, if j is ToHold _ then true else false) Hsim) as (s' & Hs & Hr).
    exists s'. split; [|done]. rewrite <- Hs. by destruct (jobs s !! i) as [[]|].
  - eexists. split; [done|]. split; [|done].
    by apply (sim_timeline s _ t MarkReady mark_resources_ready).
  - eexists. split; [done|]. split; [|done]. destruct Hsim. by apply (sim_stay s).
  - destruct (request_frame_ok _ (sim_clock _ _ Hsim)) as (b & c & -> & Hc').
    cbn [lift_error map_err mbind outcome_bind]. eexists. split; [done|]. split; [|done].
    destruct Hsim. by apply (sim_stay s).
Qed.

Lemma simulated_run s t os :
  sim s t → Forall ext_op_ok os → 0 ≤ last_context_epoch s →
  last_context_epoch s + Z.of_nat (losses os) < 2 ^ 64 →
  ∃ s', ext_run s os = Ret s' ∧ simulated s' t.
Proof.
  revert s t. induction os as [|o os IH]; intros s t Hsim Hos Hz Hlt; cbn [ext_run].
  { exists s. split; [done|]. destruct Hsim as [H1 H2 H3 H4]. by apply (sim_stay s). }
  apply Forall_cons in Hos as [Ho Hos]. unfold losses in *. cbn [sum_list_with] in Hlt.
  destruct (sim_step s t o Hsim Ho Hz) as (s1 & -> & (hs & t1 & Hr & Hhs & Hsim1) & Hz1); [lia|].
  cbn [mbind outcome_bind].
  destruct (IH s1 t1 Hsim1 Hos) as (s2 & Hr2 & (hs' & t2 & Hrt & Hhs' & Hsim2)); [lia|lia|].
  exists s2. split; [done|]. exists (hs ++ hs'), t2. split; [by eapply session_run_app|].
  split; [by apply Forall_app|done].
Qed.

Lemma run_epochs s t os :
  sim s t → Forall ext_op_ok os → 0 ≤ last_context_epoch s →
  last_context_epoch s + Z.of_nat (losses os) < 2 ^ 64 →
  ∃ s' t', ext_run s os = Ret s' ∧ sim s' t' ∧
    0 ≤ last_context_epoch s' ≤ last_context_epoch s + Z.of_nat (losses os).
Proof.
  revert s t. induction os as [|o os IH]; intros s t Hsim Hos Hz Hlt; cbn [ext_run].
  { exists s, t. split_and!; try done. cbn. lia. }
  apply Forall_cons in Hos as [Ho Hos]. unfold losses in *. cbn [sum_list_with] in Hlt |- *.
  destruct (sim_step s t o Hsim Ho Hz) as (s1 & -> & (hs & t1 & Hr & Hhs & Hsim1) & Hz1); [lia|].
  cbn [mbind outcome_bind].
  destruct (IH s1 t1 Hsim1 Hos) as (s2 & t2 & ? & ? & ?); [lia|lia|]. exists s2, t2. split_and!; try done; lia.
Qed.

Lemma spawn_sim g : built g → sim (spawn g) (start g).
Proof. intros Hg. split; [done|by apply start_ok|done|]. intros _. constructor. Qed.

(** Every reachable state has a session of the ingress under it. *)
Lemma reachable_sim g os :
  built g → Forall ext_op_ok os → Z.of_nat (losses os) < 2 ^ 64 →
  ∃ s hs t, ext_run (spawn g) os = Ret s ∧ session_run (start g) hs = Ret t ∧
    Forall Ingress.op_ok hs ∧ sim s t.
Proof.
  intros Hg Hos Hlt. destruct (simulated_run (spawn g) (start g) os) as (s & Hr & hs & t & Ht & Hhs & Hsim);
    [by apply spawn_sim|done|cbn; lia|cbn; lia|]. by exists s, hs, t.
Qed.

Lemma sim_accounts s t :
  sim s t →
  ingress_ok (sp_ingress (path s)) ∧
  in_flight (sp_ingress (path s)) = lenZ (frames_out s) ∧
  lenZ (frames_out s) ≤ max_credits (sp_ingress (path s)) ≤ MAX_CREDITS ∧
  accepted s = sequences (length (accepted s)) ∧
  last_accepted_sequence (sp_ingress (path s)) = Z.min (lenZ (accepted s)) u64_max.
Proof.
  intros [(Hi & Hf & Hl) [Hg Hcr _ Hlog Hlast] _ _]. rewrite Hi in *. rewrite Hl in *.
  rewrite Hf in Hcr. split; [done|]. split; [done|]. split; [|done].
  destruct Hg as [[? ?] ? ? ? ? ? ?]. unfold in_flight, max_credits in *. lia.
Qed.

(** ** Lemmas: one submission *)

Definition with_dispatch (p : SubmitPath) (d : option RenderDispatch) : SubmitPath :=
  {| sp_ingress := sp_ingress p; sp_errors := sp_errors p; sp_dispatch := d; sp_counters := sp_counters p |}.

(** What [render] comes to on the frame of a packet. *)
Lemma render_spec p f pk :
  packet_wf pk → Pool.contents (Pool.pf_bytes f) = encode pk →
  ∃ answer p', render p f = Ret (answer, p') ∧ sp_ingress p' = sp_ingress p ∧
    match answer with
    | Some code => code ∈ [EXTERNAL_ERROR_RENDERER_NOT_READY; EXTERNAL_ERROR_BAD_COMMAND_STREAM;
                           EXTERNAL_ERROR_RENDERER_UNREACHABLE] ∧
        (sp_dispatch p = None → code = EXTERNAL_ERROR_RENDERER_NOT_READY) ∧ held p' = held p
    | None => held p' = held p ++ [f]
    end.
Proof.
  intros Hp Hc. unfold render, decode_stage.
  destruct (sp_dispatch p) as [d|] eqn:Ed.
  2:{ do 2 eexists. split; [done|]. split; [done|]. split; [set_solver|done]. }
  destruct (decode_frame_spec (sp_errors p) f pk Hp Hc) as (sec & _ & _ & [[-> _]|(rs & [e k] & _ & _ & -> & _)]);
    cbn [mbind outcome_bind].
  { do 2 eexists. split; [done|]. split; [done|]. split; [set_solver|done]. }
  unfold mret, outcome_ret, send_stage. cbn [fst snd set_errors sp_dispatch]. rewrite Ed.
  destruct (dispatch _ _ _) as [[[err|] k'] ch]; do 2 eexists; (split; [done|]); (split; [done|]).
  - split; [set_solver|]. split; [done|]. unfold held. by rewrite Ed.
  - unfold held. cbn. by rewrite Ed.
Qed.

(** The submission of a packet the ingress accepts. *)
Lemma submit_frame_accepted p pk :
  ingress_ok (sp_ingress p) → packet_wf pk → addressed (sp_ingress p) pk →
  in_flight (sp_ingress p) < max_credits (sp_ingress p) →
  ∃ f g, accepts (sp_ingress p) (encode pk) (pk_sequence pk) f g ∧
    submit_frame p (encode pk) =
    (r ← lift_error (render (set_ingress p g) f);
     match r with
     | (None, p') => mret (accepted_outcome (sp_ingress p) (pk_sequence pk), p')
     | (Some code, p') => mret (refuse_frame p' f code)
     end).
Proof.
  intros Hg Hp Ha Hlt. destruct (submit_packet _ pk Hg Hp) as (r & Hr & Hans).
  unfold answers in Hans. apply verdict_legal in Ha. rewrite Ha in Hans.
  destruct Hans as [[? _]|(_ & f & g & -> & Hacc)]; [lia|].
  exists f, g. split; [done|]. unfold submit_frame, accept_stage. by rewrite Hr.
Qed.

(** An ingress that has the sequence number of a packet refuses it. *)
Lemma submit_again p pk w pool :
  ingress_ok (set_flow (sp_ingress p) w pool (pk_sequence pk)) → packet_wf pk →
  addressed (sp_ingress p) pk → pk_sequence pk < u64_max →
  ∀ d e k, let q := {| sp_ingress := set_flow (sp_ingress p) w pool (pk_sequence pk);
                       sp_errors := e; sp_dispatch := d; sp_counters := k |} in
    submit_frame q (encode pk) =
    Ret (refused INGRESS_ERROR_NONCONTIGUOUS_SEQUENCE (remaining_credits (sp_ingress q)), q).
Proof.
  intros Hg Hp (H1 & H2 & H3 & H4 & H5 & H6 & H7) Hlt d e k q.
  destruct (submit_packet (sp_ingress q) pk Hg Hp) as (r & Hr & Hans). unfold answers in Hans.
  assert (verdict (sp_ingress q) pk = Refuse INGRESS_ERROR_NONCONTIGUOUS_SEQUENCE) as Hv.
  { unfold verdict, q.
    cbn [sp_ingress set_flow max_packet_bytes launch_nonce runtime_generation surface_generation
         resource_epoch resources_ready last_accepted_sequence].
    rewrite !bool_decide_eq_false_2 by (try done; naive_solver lia).
    rewrite bool_decide_eq_true_2 by lia.
    destruct H6 as [->| ->]; [done|]. by rewrite andb_false_r. }
  rewrite Hv in Hans. subst r. unfold submit_frame, accept_stage. by rewrite Hr.
Qed.

Lemma release_accepted g bytes sequence f g' :
  ingress_ok g → accepts g bytes sequence f g' →
  let w := Credits.release (credits g') in
  let pool := Pool.release (Ingress.pool g') (Pool.pf_bytes f) in
  set_flow g' w pool (last_accepted_sequence g') = set_flow g w pool sequence ∧
  w = credits g ∧ ingress_ok (set_flow g w pool sequence).
Proof.
  intros Hg [Hb Hc Hs Hg' Hok]. cbv zeta.
  assert (Credits.release (credits g') = credits g) as Hw.
  { rewrite Hg'. cbn [credits set_flow]. unfold Credits.release. cbn [Credits.in_flight Credits.max].
    destruct Hg as [[? ?] _ _ _ _ _ _]. rewrite (proj2 (Z.eqb_neq _ _)) by (unfold in_flight; lia).
    unfold max_credits, in_flight. rewrite Z.add_simpl_r. by destruct (credits g). }
  assert (set_flow g' (Credits.release (credits g')) (Pool.release (Ingress.pool g') (Pool.pf_bytes f))
            (last_accepted_sequence g') =
          set_flow g (Credits.release (credits g')) (Pool.release (Ingress.pool g') (Pool.pf_bytes f)) sequence)
    as He by (rewrite Hg'; done).
  split; [done|]. split; [done|]. rewrite <- He. by apply drop_frame_ok.
Qed.

(** ** Lemmas: progress *)

(** A step that brings a frame closer to its end, when it does something. *)
Definition moves (s : system) (o : ext_op) : bool :=
  match o with
  | Decode i => match jobs s !! i with Some (ToDecode _) => true | _ => false end
  | Send i => match jobs s !! i with Some (ToSend _ _) => true | _ => false end
  | Hold i => match jobs s !! i with Some (ToHold _) => true | _ => false end
  | Tick _ => running s && negb (length (held (path s)) =? 0)%nat
  | _ => false
  end.

Definition job_work (j : job) : nat :=
  match j with ToDecode _ => 4 | ToSend _ _ => 3 | ToHold _ => 2 end.

(** The steps left until every frame is done. *)
Definition work (s : system) : nat := (sum_list_with job_work (jobs s) + length (held (path s)))%nat.

(** How many steps of a run move a frame. *)
Fixpoint moved (s : system) (os : list ext_op) : nat :=
  match os with
  | [] => 0
  | o :: os =>
      ((if moves s o then 1 else 0) +
       match ext_step s o with Ret s' => moved s' os | _ => 0 end)%nat
  end.

Definition is_offer (o : ext_op) : bool := match o with Offer _ => true | _ => false end.

Lemma work_delete js i j :
  js !! i = Some j →
  sum_list_with job_work js = (job_work j + sum_list_with job_work (delete i js))%nat.
Proof. intros Hj. by rewrite (delete_Permutation js i j Hj) at 1. Qed.

Lemma work_insert js i j j' :
  js !! i = Some j →
  (sum_list_with job_work (<[i := j']> js) + job_work j = sum_list_with job_work js + job_work j')%nat.
Proof.
  revert i. induction js as [|j0 js IH]; intros [|i] Hj; try done.
  - injection Hj as ->. cbn [insert list_insert sum_list_with]. lia.
  - specialize (IH i Hj). change (<[S i:=j']> (j0 :: js)) with (j0 :: <[i:=j']> js).
    cbn [sum_list_with]. lia.
Qed.

Lemma held_set_errors p e : held (set_errors p e) = held p.
Proof. done. Qed.

Lemma job_step_work s i j s' :
  jobs_ok s → jobs s !! i = Some j → job_step s i j = Ret s' → (work s' + 1 ≤ work s)%nat.
Proof.
  intros Hok Hj. unfold work. destruct j as [f|f packet|f]; cbn [job_step].
  - unfold decode_stage. destruct (sp_dispatch (path s)) as [d|] eqn:Ed.
    2:{ intros [= <-]. cbn [job_fails with_path jobs path refuse_frame snd].
        rewrite held_release, (work_delete _ _ _ Hj). cbn [job_work]. lia. }
    destruct (decode_frame _ _) as [[e k]|code| |]; cbn [mbind outcome_bind]; try done; intros [= <-].
    + pose proof (work_insert _ _ _ (ToSend f k) Hj). cbn [job_work with_path jobs path fst snd] in *.
      rewrite held_set_errors. lia.
    + cbn [job_fails with_path jobs path refuse_frame snd].
      rewrite held_release, (work_delete _ _ _ Hj). cbn [job_work]. lia.
  - unfold send_stage. destruct (sp_dispatch (path s)) as [d|] eqn:Ed.
    2:{ intros [= <-]. cbn [job_fails with_path jobs path refuse_frame snd].
        rewrite held_release, (work_delete _ _ _ Hj). cbn [job_work]. lia. }
    destruct (dispatch _ _ _) as [[[e|] k] ch]; intros [= <-].
    + cbn [job_fails with_path jobs path refuse_frame snd].
      rewrite held_release, (work_delete _ _ _ Hj). unfold held. cbn. rewrite Ed. cbn [job_work]. lia.
    + pose proof (work_insert _ _ _ (ToHold f) Hj). cbn [job_work with_path jobs path] in *.
      unfold held. cbn. rewrite Ed. lia.
  - intros [= <-]. cbn [with_path jobs path]. rewrite (work_delete _ _ _ Hj). unfold hold_stage, held.
    destruct (sp_dispatch (path s)) eqn:Ed; cbn; [rewrite length_app; cbn|rewrite Ed; cbn [length]]; lia.
Qed.

Lemma other_step_work s o s' :
  is_offer o = false → moves s o = false → ext_step s o = Ret s' → work s' = work s.
Proof.
  destruct o as [bytes|i|i|i|ch parts|ts|live command|events| |canvas| ]; try done;
    cbn [moves ext_step]; intros _ Hm.
  1-3: destruct (jobs s !! i) as [[]|]; try done; by intros [= <-].
  - destruct (running s); intros [= <-]; [|done]. unfold work, publish_step, held. cbn [jobs path].
    destruct (sp_dispatch (path s)) as [d|] eqn:Ed; [by rewrite Ed|done].
  - destruct (running s); intros [= <-]; [|done]. unfold work, tick_step, held in *. cbn [jobs path andb] in *.
    destruct (sp_dispatch (path s)) as [d|] eqn:Ed; [|by rewrite Ed].
    destruct (rd_in_flight d) eqn:Er; [by rewrite Ed, Er|done].
  - destruct (running s); intros [= <-]; [|done]. unfold command_step.
    by destruct (handle_command _ _ _ _) as [[[]]].
  - destruct (running s); [|by intros [= <-]].
    destruct (drain_render_events _ _ _) as [r| | |]; cbn [lift_error map_err mbind outcome_bind];
      try done. by intros [= <-].
  - by intros [= <-].
  - by intros [= <-].
  - destruct (request_frame _) as [r| | |]; cbn [lift_error map_err mbind outcome_bind]; try done.
    by intros [= <-].
Qed.

Lemma moves_work s o s' :
  jobs_ok s → moves s o = true → ext_step s o = Ret s' → (work s' + 1 ≤ work s)%nat.
Proof.
  intros Hok. destruct o as [ |i|i|i| |ts| | | | | ]; try done; cbn [moves ext_step].
  1-3: destruct (jobs s !! i) as [[]|] eqn:Ej; try done; intros _ Hs; by eapply job_step_work.
  intros [-> Hh]%andb_true_iff [= <-]. unfold work, tick_step, held in *. cbn [jobs path].
  destruct (sp_dispatch (path s)) as [d|] eqn:Ed; [|done].
  destruct (rd_in_flight d) as [|f rest] eqn:Er; [done|].
  rewrite release_dispatch. cbn. lia.
Qed.

(** What [render] does with records it can decode, on a queue that takes them. *)
Lemma render_records p d f pk rs :
  packet_wf pk → Pool.contents (Pool.pf_bytes f) = encode pk →
  (∀ s, s ∈ pk_sections pk → sec_kind s = SECTION_KIND_COMMAND_STREAM →
     sec_bytes s = concat (le_bytes 4 <$> stream_of rs)) →
  Forall record_wf rs → Forall is_u32 (stream_of rs) → lenZ (stream_of rs) ≤ 8192 →
  sp_dispatch p = Some d →
  (∀ cmd, fst (send_timeout (rd_sender d) cmd BLOCKING_SEND_DEADLINE) = None) →
  ∃ p' d' packet, render p f = Ret (None, p') ∧ decodes_to (sp_errors p) pk rs (sp_errors p', packet) ∧
    sp_ingress p' = sp_ingress p ∧ sp_dispatch p' = Some d' ∧ rd_in_flight d' = rd_in_flight d ++ [f] ∧
    queued (rd_sender d') = queued (rd_sender d) ++ [FramePacketCmd packet].
Proof.
  intros Hp Hc Hsec Hrs Hu Hlen Hd Hch.
  destruct (decode_frame_spec (sp_errors p) f pk Hp Hc) as (sec & Hin & Hk & Hdec).
  rewrite (Hsec sec Hin Hk), le_words_concat in Hdec by done.
  destruct Hdec as [[_ Hbad]|(rs' & [e packet] & Hrs' & Heq & Hdf & Hto)].
  { specialize (Hbad rs Hrs eq_refl). lia. }
  assert (rs = rs') as <- by (injection Heq as Heq; by apply concat_records_inj).
  unfold render, decode_stage. rewrite Hd, Hdf. unfold mret, outcome_ret. cbn [mbind outcome_bind fst snd].
  unfold send_stage. cbn [set_errors sp_dispatch sp_counters]. rewrite Hd.
  unfold dispatch. cbn [class policy]. unfold send_blocking.
  pose proof (queued_send_timeout (rd_sender d) (FramePacketCmd packet) BLOCKING_SEND_DEADLINE) as Hq.
  rewrite Hch in Hq. specialize (Hch (FramePacketCmd packet)).
  destruct (send_timeout _ _ _) as [ans ch]. cbn [fst snd] in *. subst ans.
  do 3 eexists. split; [done|]. unfold hold_stage. cbn [set_dispatch sp_dispatch sp_errors sp_ingress].
  by split_and!.
Qed.

(** * Properties *)

(** C3: a frame crosses whole.  When a session that is rendering is offered a
    packet addressed to it, with a credit left, whose command section is the
    little-endian words of a run of well-formed records, and the renderer's queue
    takes what it is sent, then the packet is accepted and the renderer is sent
    exactly one packet: a begin, operations that carry the commands the records
    mean, in their order, with every barrier in its place, and a present; the
    errors of the records are kept for the producer, in order; and the frame is
    held with its credit. *)
Theorem frame_reaches_renderer (p : SubmitPath) (d : RenderDispatch) (pk : Packet)
    (rs : list (list Z))
    (Hg : ingress_ok (sp_ingress p)) (Hp : packet_wf pk) (Ha : addressed (sp_ingress p) pk)
    (Hcredit : in_flight (sp_ingress p) < max_credits (sp_ingress p))
    (Hsec : ∀ s, s ∈ pk_sections pk → sec_kind s = SECTION_KIND_COMMAND_STREAM →
       sec_bytes s = concat (le_bytes 4 <$> stream_of rs))
    (Hrs : Forall record_wf rs) (Hu : Forall is_u32 (stream_of rs))
    (Hlen : lenZ (stream_of rs) ≤ 8192)
    (Hd : sp_dispatch p = Some d)
    (Hch : ∀ cmd, fst (send_timeout (rd_sender d) cmd BLOCKING_SEND_DEADLINE) = None) :
  let '(commands, errs) := meaning (λ _, false) None rs in
  ∃ p' d' ops f,
    submit_frame p (encode pk) = Ret (accepted_outcome (sp_ingress p) (pk_sequence pk), p') ∧
    sp_dispatch p' = Some d' ∧
    queued (rd_sender d') =
      queued (rd_sender d) ++ [FramePacketCmd (render_packet (pk_frame_id pk) ops)] ∧
    delivered (omap op_event ops) = commands ∧ barrier [] (omap op_event ops) = Some [] ∧
    Forall op_ok ops ∧
    sp_errors p' = push_errors (sp_errors p) errs ∧
    rd_in_flight d' = rd_in_flight d ++ [f] ∧ Pool.contents (Pool.pf_bytes f) = encode pk ∧
    in_flight (sp_ingress p') = in_flight (sp_ingress p) + 1.
Proof.
  destruct (submit_frame_accepted p pk Hg Hp Ha Hcredit) as (f & g & [Hct Hcap Hseq Hgs Hok Hpool] & Hs).
  destruct (render_records (set_ingress p g) d f pk rs) as (p' & d' & packet & Hr & Hto & Hi & Hd' & Hfl & Hq);
    try done.
  unfold decodes_to in Hto. destruct (meaning _ None rs) as [commands errs].
  destruct Hto as (ops & [= He ->] & Hdel & Hbar & Hops).
  exists p', d', ops, f. rewrite Hs, Hr. split; [done|]. do 6 (split; [done|]).
  split; [done|]. split; [done|]. rewrite Hi. cbn [set_ingress sp_ingress]. by rewrite Hgs.
Qed.

(** C33: a frame refused after the ingress took it gives its credit back but not
    its sequence number.  Whatever keeps an accepted packet from the renderer (no
    renderer yet, a command stream that is none, a queue that does not take it),
    the producer is told so with a code of its own, the credits are what they
    were, the frame is dropped and the buffer taken for it is released to the pool; but the ingress has moved past the packet, so
    the same packet offered again, whatever has become of the renderer, is
    refused as out of sequence. *)
Theorem refused_frame_is_lost (p : SubmitPath) (pk : Packet)
    (Hg : ingress_ok (sp_ingress p)) (Hp : packet_wf pk) (Ha : addressed (sp_ingress p) pk)
    (Hcredit : in_flight (sp_ingress p) < max_credits (sp_ingress p)) :
  ∃ out p', submit_frame p (encode pk) = Ret (out, p') ∧
    last_accepted_sequence (sp_ingress p') = pk_sequence pk ∧
    (decision out = Accepted ∧ wire_error_code out = 0 ∧
       (∃ f, held p' = held p ++ [f] ∧ Pool.contents (Pool.pf_bytes f) = encode pk) ∧
       in_flight (sp_ingress p') = in_flight (sp_ingress p) + 1 ∨
     decision out = Rejected ∧
       wire_error_code out ∈ [EXTERNAL_ERROR_RENDERER_NOT_READY; EXTERNAL_ERROR_BAD_COMMAND_STREAM;
                              EXTERNAL_ERROR_RENDERER_UNREACHABLE] ∧
       (sp_dispatch p = None → wire_error_code out = EXTERNAL_ERROR_RENDERER_NOT_READY) ∧
       credits (sp_ingress p') = credits (sp_ingress p) ∧
       io_remaining_credits out = remaining_credits (sp_ingress p) ∧ held p' = held p ∧
       (∃ f taken, Pool.pooled_frame_new (E:=WireError) (encode pk) (pool (sp_ingress p)) (pk_sequence pk) =
                     Ret (Some f, taken) ∧
                   pool (sp_ingress p') = Pool.release taken (Pool.pf_bytes f)) ∧
       (pk_sequence pk < u64_max → ∀ d e k,
          let q := {| sp_ingress := sp_ingress p'; sp_errors := e; sp_dispatch := d; sp_counters := k |} in
          submit_frame q (encode pk) =
          Ret (refused INGRESS_ERROR_NONCONTIGUOUS_SEQUENCE (remaining_credits (sp_ingress q)), q))).
Proof.
  destruct (submit_frame_accepted p pk Hg Hp Ha Hcredit) as (f & g & Hacc & Hs).
  pose proof Hacc as [Hct Hcap Hseq Hgs Hok Hpool]. rewrite Hs.
  destruct (render_spec (set_ingress p g) f pk Hp Hct) as (answer & p' & -> & Hi & Hans).
  cbn [lift_error map_err mbind outcome_bind]. destruct answer as [code|].
  - destruct (release_accepted _ _ _ _ _ Hg Hacc) as (He & Hw & Hok').
    destruct Hans as (Hcode & Hnone & Hheld). do 2 eexists. split; [done|].
    unfold refuse_frame, release_frame, Pool.drop_frame, refused. rewrite Hi.
    cbn [set_ingress sp_ingress decision wire_error_code io_remaining_credits]. rewrite He.
    split; [done|]. right. split; [done|]. split; [done|]. split; [done|]. split; [exact Hw|].
    split; [unfold remaining_credits; cbn [credits set_flow]; by rewrite Hw|]. split; [exact Hheld|].
    split; [by exists f, (pool g)|].
    intros Hlt d e k. by apply submit_again.
  - do 2 eexists. split; [done|]. rewrite Hi. cbn [set_ingress sp_ingress].
    split; [by rewrite Hgs|]. left. split; [done|]. split; [done|]. split; [by exists f|]. by rewrite Hgs.
Qed.

(** C10: the session is a session of its ingress, however its threads interleave.
    From an ingress as built, any sequence of packets offered, decoded, sent and
    held on any number of threads, frame signals, host commands, renderer events
    and control calls goes through without a panic; the ingress is in a state it
    could have reached by submissions, completions and timeline moves alone, with
    the same frames out and the same packets accepted; so the sequence numbers
    accepted are 1, 2, 3, ..., and the credits in flight are exactly the frames
    being submitted or held for the renderer, never more than the window. *)
Theorem session_refines_ingress (g : FrameIngress) (os : list ext_op)
    (Hg : built g) (Hos : Forall ext_op_ok os) (Hn : Z.of_nat (losses os) < 2 ^ 64) :
  ∃ s, ext_run (spawn g) os = Ret s ∧
    (∃ hs t, session_run (start g) hs = Ret t ∧ Forall Ingress.op_ok hs ∧ implements s t) ∧
    accepted s = sequences (length (accepted s)) ∧
    in_flight (sp_ingress (path s)) = lenZ (frames_out s) ∧
    lenZ (frames_out s) ≤ max_credits (sp_ingress (path s)) ≤ MAX_CREDITS.
Proof.
  destruct (reachable_sim g os Hg Hos Hn) as (s & hs & t & Hr & Ht & Hhs & Hsim).
  exists s. split; [done|]. split; [exists hs, t; split_and!; try done; apply Hsim|].
  destruct (sim_accounts s t Hsim) as (_ & ? & ? & ? & _). split; [done|]. by split.
Qed.

Lemma work_frames s : (work s ≤ 4 * length (frames_out s))%nat ∧ (work s = 0%nat ↔ frames_out s = []).
Proof.
  unfold work, frames_out. rewrite length_app, length_map.
  assert (length (jobs s) ≤ sum_list_with job_work (jobs s) ≤ 4 * length (jobs s))%nat as Hj.
  { induction (jobs s) as [|j js IH]; [cbn; lia|]. cbn [sum_list_with length].
    assert (1 ≤ job_work j ≤ 4)%nat by (destruct j; cbn; lia). lia. }
  split; [lia|]. split.
  - intros H. assert (jobs s = []) as -> by (apply length_zero_iff_nil; lia).
    apply length_zero_iff_nil. cbn. lia.
  - intros [Hm ->]%app_eq_nil. apply map_eq_nil in Hm. by rewrite Hm.
Qed.

Lemma work_moves s : (0 < work s)%nat → running s = true → ∃ o, moves s o = true ∧ is_offer o = false.
Proof.
  intros Hw Hrun. destruct (jobs s) as [|j js] eqn:Ej.
  - exists (Tick 0). cbn [moves is_offer]. rewrite Hrun. split; [|done].
    unfold work in Hw. rewrite Ej in Hw. cbn in Hw. apply negb_true_iff, Nat.eqb_neq. lia.
  - destruct j; [exists (Decode 0)|exists (Send 0)|exists (Hold 0)]; cbn [moves]; by rewrite Ej.
Qed.

Lemma moved_run os : ∀ s t,
  sim s t → Forall ext_op_ok os → Forall (λ o, is_offer o = false) os → 0 ≤ last_context_epoch s →
  last_context_epoch s + Z.of_nat (losses os) < 2 ^ 64 →
  ∃ s' t', ext_run s os = Ret s' ∧ sim s' t' ∧ (moved s os + work s' ≤ work s)%nat.
Proof.
  induction os as [|o os IH]; intros s t Hsim Hos Hno Hz Hlt; cbn [ext_run moved].
  { exists s, t. split_and!; done. }
  apply Forall_cons in Hos as [Ho Hos]. apply Forall_cons in Hno as [Hn Hno].
  unfold losses in *. cbn [sum_list_with] in Hlt.
  destruct (sim_step s t o Hsim Ho Hz) as (s1 & Hs & (hs & t1 & _ & _ & Hsim1) & Hz1); [lia|].
  rewrite Hs. cbn [mbind outcome_bind].
  destruct (IH s1 t1 Hsim1 Hos Hno) as (s2 & t2 & Hr & Hsim2 & Hw); [lia|lia|].
  exists s2, t2. split; [done|]. split; [done|]. destruct (moves s o) eqn:Em.
  - pose proof (moves_work s o s1 (sim_jobs _ _ Hsim) Em Hs). lia.
  - pose proof (other_step_work s o s1 Hn Em Hs). lia.
Qed.

(** C18: every credit comes back.  In any state a session reaches, at most eight
    steps of the submissions under way and of the frame clock are left before
    every credit is back; each such step that finds something to do brings that
    end closer, and nothing else, short of a new packet, puts it off; and until
    then, while the session runs, such a step is there to take. *)
Theorem credits_come_back (g : FrameIngress) (os more : list ext_op)
    (Hg : built g) (Hos : Forall ext_op_ok os) (Hmore : Forall ext_op_ok more)
    (Hno : Forall (λ o, is_offer o = false) more)
    (Hn : Z.of_nat (losses os) + Z.of_nat (losses more) < 2 ^ 64) :
  ∃ s s', ext_run (spawn g) os = Ret s ∧ ext_run s more = Ret s' ∧
    (moved s more + work s' ≤ work s ≤ 8)%nat ∧
    (work s' = 0%nat ↔ remaining_credits (sp_ingress (path s')) = max_credits (sp_ingress (path s'))) ∧
    ((0 < work s')%nat → running s' = true → ∃ o, moves s' o = true ∧ is_offer o = false).
Proof.
  destruct (run_epochs (spawn g) (start g) os) as (s & t & Hr & Hsim & Hz);
    [by apply spawn_sim|done|cbn; lia|cbn; lia|].
  destruct (moved_run more s t Hsim Hmore Hno) as (s' & t' & Hr' & Hsim' & Hw); [lia|cbn in Hz; lia|].
  exists s, s'. split; [done|]. split; [done|].
  destruct (sim_accounts s t Hsim) as (_ & _ & Hm & _ & _).
  destruct (sim_accounts s' t' Hsim') as (Hok' & Hf' & Hm' & _ & _).
  destruct (work_frames s) as [Hle _], (work_frames s') as [_ Hz'].
  unfold MAX_CREDITS in *. split; [lia|]. split; [|by apply work_moves].
  rewrite Hz', <- length_zero_iff_nil. unfold remaining_credits, Credits.remaining, u32_saturating_sub, max_credits.
  unfold in_flight in Hf'. destruct Hok' as [[? ?] [? ?] _ _ _ _ _]. unfold max_credits in *. lia.
Qed.

(** A submission is its four steps.  When no other submission is under way,
    accepting, decoding, sending and holding a packet as steps of the session is
    [submit_frame], on every branch. *)
Theorem submit_frame_is_steps (s : system) (bytes : list Z) (Hjobs : jobs s = []) :
  (s' ← ext_run s [Offer bytes; Decode 0; Send 0; Hold 0]; mret (path s', jobs s')) =
  (r ← submit_frame (path s) bytes; mret (snd r, [])).
Proof.
  unfold submit_frame. cbn [ext_run ext_step]. unfold submit_step.
  destruct (accept_stage (path s) bytes) as [[[out [f|]] p]| | |]; try done; unfold mret, outcome_ret;
    cbn [mbind outcome_bind]; rewrite Hjobs.
  2:{ done. }
  cbn [app jobs lookup list_lookup job_step path]. unfold render.
  destruct (decode_stage p f) as [[p1 packet]|code| |]; unfold mret, outcome_ret; cbn [mbind outcome_bind]; try done.
  cbn [with_path jobs insert list_insert lookup list_lookup job_step path].
  by destruct (send_stage p1 packet) as [[code|] p2].
Qed.

End External.

(** * The error queues *)

(** What a canvas has waiting. *)
Fixpoint waiting (queues : ExternalGlErrors) (canvas_id : Z) : list Z :=
  match queues with
  | [] => []
  | (id, queue) :: queues => if id =? canvas_id then queue else waiting queues canvas_id
  end.

(** The codes recorded for a canvas, and the newest of them. *)
Definition codes_for (canvas_id : Z) (errs : list (Z * Z)) : list Z :=
  (filter (λ e, e.1 = canvas_id) errs).*2.
Definition newest (codes : list Z) : list Z :=
  drop (length codes - Z.to_nat MAX_PENDING_ERRORS_PER_CANVAS) codes.

(** The answers to [n] calls of [getError] on a canvas. *)
Fixpoint takes (n : nat) (queues : ExternalGlErrors) (canvas_id : Z) : list (option Z) * ExternalGlErrors :=
  match n with
  | O => ([], queues)
  | S n =>
      let '(code, queues) := take_gl_error queues canvas_id in
      let '(codes, queues) := takes n queues canvas_id in (code :: codes, queues)
  end.

Lemma waiting_push queues c code c' :
  waiting (push_gl_error queues c code) c' =
  if c' =? c then push_code (waiting queues c) code else waiting queues c'.
Proof.
  induction queues as [|[i queue] queues IH]; cbn [push_gl_error waiting].
  { rewrite (Z.eqb_sym c c'). by destruct (c' =? c). }
  destruct (Z.eqb_spec i c) as [->|Hi]; cbn [waiting].
  - rewrite (Z.eqb_sym c c'). by destruct (c' =? c).
  - rewrite IH. destruct (Z.eqb_spec i c') as [->|]; [|done]. by rewrite (proj2 (Z.eqb_neq c' c) Hi).
Qed.

Lemma take_waiting queues c :
  fst (take_gl_error queues c) = head (waiting queues c) ∧
  ∀ c', waiting (snd (take_gl_error queues c)) c' =
    if c' =? c then tail (waiting queues c) else waiting queues c'.
Proof.
  induction queues as [|[i queue] queues [IH1 IH2]]; cbn [take_gl_error waiting].
  { split; [done|]. intros c'. by destruct (c' =? c). }
  destruct (Z.eqb_spec i c) as [->|Hi]; cbn [fst snd waiting].
  - split; [done|]. intros c'. rewrite (Z.eqb_sym c c'). by destruct (c' =? c).
  - destruct (take_gl_error queues c) as [code queues']. cbn [fst snd waiting] in *.
    split; [done|]. intros c'. rewrite IH2.
    destruct (Z.eqb_spec i c') as [->|]; [|done]. by rewrite (proj2 (Z.eqb_neq c' c) Hi).
Qed.

Lemma drop_S_tail {A} k (l : list A) : drop (S k) l = tail (drop k l).
Proof. revert l. induction k as [|k IH]; intros [|x l]; try done. apply IH. Qed.

Lemma newest_snoc codes code : newest (codes ++ [code]) = push_code (newest codes) code.
Proof.
  unfold newest, push_code. change (Z.to_nat MAX_PENDING_ERRORS_PER_CANVAS) with 16%nat.
  unfold MAX_PENDING_ERRORS_PER_CANVAS. rewrite length_app, length_drop. cbn [length].
  destruct (Z.leb_spec 16 (Z.of_nat (length codes - (length codes - 16)))).
  - rewrite drop_app_le by lia. f_equal.
    replace (length codes + 1 - 16)%nat with (S (length codes - 16)) by lia.
    apply drop_S_tail.
  - replace (length codes + 1 - 16)%nat with 0%nat by lia.
    replace (length codes - 16)%nat with 0%nat by lia. by rewrite !drop_0.
Qed.

Lemma waiting_pushes errs : ∀ queues base c,
  waiting queues c = newest base →
  waiting (push_errors queues errs) c = newest (base ++ codes_for c errs).
Proof.
  unfold push_errors. induction errs as [|[i code] errs IH]; intros queues base c Hq; cbn [fold_left].
  { unfold codes_for. cbn. by rewrite app_nil_r. }
  unfold codes_for. rewrite filter_cons. cbn [fst]. destruct (decide (i = c)) as [->|Hne].
  - cbn [fmap list_fmap snd]. change (code :: ?l) with ([code] ++ l). rewrite app_assoc. apply IH.
    cbn [push_error external_decode_context]. by rewrite waiting_push, Z.eqb_refl, Hq, newest_snoc.
  - apply IH. cbn [push_error external_decode_context].
    by rewrite waiting_push, (proj2 (Z.eqb_neq c i)) by auto.
Qed.

Lemma takes_waiting n : ∀ queues c,
  fst (takes n queues c) = take n (Some <$> waiting queues c) ++ replicate (n - length (waiting queues c)) None ∧
  ∀ c', c' ≠ c → waiting (snd (takes n queues c)) c' = waiting queues c'.
Proof.
  induction n as [|n IH]; intros queues c; cbn [takes]; [done|].
  destruct (take_waiting queues c) as [H1 H2].
  destruct (take_gl_error queues c) as [code queues']. cbn [fst snd] in *.
  destruct (IH queues' c) as [IH1 IH2]. destruct (takes n queues' c) as [codes queues'']. cbn [fst snd] in *.
  rewrite H1, IH1, H2, Z.eqb_refl. split.
  - destruct (waiting queues c) as [|x l]; cbn [head tail fmap list_fmap length]; [|done].
    rewrite !take_nil. cbn [app]. by rewrite !Nat.sub_0_r.
  - intros c' Hc. rewrite IH2, H2 by done. by rewrite (proj2 (Z.eqb_neq c' c) Hc).
Qed.

(** What [getError] gets.  Whatever errors the decoder records for whatever
    canvases, asking for a canvas's errors answers the newest sixteen of that
    canvas, oldest of them first, and then none; and it takes nothing from
    another canvas. *)
Theorem gl_errors_keep_newest (errs : list (Z * Z)) (c : Z) (n : nat) :
  let '(answers, queues) := takes n (push_errors ([] : ExternalGlErrors) errs) c in
  let recent := newest (codes_for c errs) in
  answers = take n (Some <$> recent) ++ replicate (n - length recent) None ∧
  lenZ recent = Z.min (lenZ (codes_for c errs)) MAX_PENDING_ERRORS_PER_CANVAS ∧
  ∀ c', c' ≠ c → waiting queues c' = newest (codes_for c' errs).
Proof.
  pose proof (λ c, waiting_pushes errs [] [] c eq_refl) as Hw.
  destruct (takes_waiting n (push_errors ([] : ExternalGlErrors) errs) c) as [H1 H2].
  destruct (takes n _ c) as [answers queues]. cbn [fst snd app] in *. rewrite Hw in H1.
  split; [done|]. split.
  - unfold newest. rewrite length_drop. unfold MAX_PENDING_ERRORS_PER_CANVAS. lia.
  - intros c' Hc. by rewrite H2, Hw.
Qed.

(** * A concrete session *)

#[local] Existing Instances crc_ieee Pool.exact_alloc RenderStream.sample_size no_payloads
  list_channel_laws.

(** The mixed records of [RenderStream], in a packet for [sample_ingress]. *)
Definition frame_packet (sequence : Z) (records : list (list Z)) : Packet := {|
  pk_launch_nonce := launch_nonce sample_ingress; pk_sequence := sequence;
  pk_runtime_generation := INITIAL_RUNTIME_GENERATION; pk_surface_generation := 0;
  pk_resource_epoch := 0; pk_frame_id := sequence;
  pk_sections := [{| sec_kind := SECTION_KIND_COMMAND_STREAM; sec_item_count := 0;
                     sec_bytes := concat (le_bytes 4 <$> stream_of records) |}] |}.

Definition first_frame : Packet := frame_packet 1 mixed_records.

Lemma first_frame_wf : packet_wf first_frame.
Proof. apply (bool_decide_unpack _). by vm_compute. Qed.

Lemma first_frame_bytes : Forall is_u8 (encode first_frame).
Proof. apply (bool_decide_unpack _). by vm_compute. Qed.

Lemma second_frame_bytes : Forall is_u8 (encode (frame_packet 2 mixed_records)).
Proof. apply (bool_decide_unpack _). by vm_compute. Qed.

Lemma first_frame_addressed : addressed sample_ingress first_frame.
Proof.
  split; [apply Z.leb_le; by vm_compute|]. split_and!; try reflexivity; [by left|by right].
Qed.

Definition sample_queue : list_channel RenderCommand := sender_new.
Definition sample_clock : FrameClockParts :=
  {| demand := {| Raf.next_ticket := 1; Raf.waiter_ticket := 0; Raf.session := 1 |}; arm := true |}.
Definition sample_dispatch : RenderDispatch := {| rd_sender := sample_queue; rd_in_flight := [] |}.
Definition ready_path : SubmitPath := with_dispatch (spawn_path sample_ingress) (Some sample_dispatch).

Lemma frame_reaches_renderer_witness :
  let '(commands, errs) := meaning (λ _, false) None mixed_records in
  ∃ p' ops, submit_frame ready_path (encode first_frame) = Ret (accepted_outcome sample_ingress 1, p') ∧
    delivered (omap op_event ops) = commands ∧ sp_errors p' = push_errors [] errs.
Proof.
  pose proof (frame_reaches_renderer ready_path sample_dispatch first_frame mixed_records
    sample_ingress_ok first_frame_wf first_frame_addressed eq_refl) as H.
  destruct (meaning (λ _, false) None mixed_records) as [commands errs].
  destruct H as (p' & d' & ops & f & Hs & _ & _ & Hd & _ & _ & He & _).
  - intros s Hin _. apply list_elem_of_singleton in Hin as ->. reflexivity.
  - apply (bool_decide_unpack _). by vm_compute.
  - exact mixed_words.
  - by vm_compute.
  - reflexivity.
  - intros cmd. reflexivity.
  - exists p', ops. split; [exact Hs|]. split; [exact Hd|exact He].
Defined.

Lemma refused_frame_is_lost_witness : ∃ out p',
  submit_frame (spawn_path sample_ingress) (encode first_frame) = Ret (out, p') ∧
  wire_error_code out = EXTERNAL_ERROR_RENDERER_NOT_READY ∧
  submit_frame (with_dispatch p' (Some sample_dispatch)) (encode first_frame) =
    Ret (refused INGRESS_ERROR_NONCONTIGUOUS_SEQUENCE 2, with_dispatch p' (Some sample_dispatch)).
Proof.
  destruct (refused_frame_is_lost (spawn_path sample_ingress) first_frame sample_ingress_ok
    first_frame_wf first_frame_addressed eq_refl) as (out & p' & Hs & _ & [(_ & _ & (f & Hf & _) & _)|H]).
  { exfalso. apply (f_equal (λ r, match r with Ret (_, p) => length (held p) | _ => 0%nat end)) in Hs.
    rewrite Hf in Hs. vm_compute in Hs. discriminate. }
  destruct H as (_ & _ & Hnone & Hc & _ & _ & _ & Hagain). exists out, p'. split; [exact Hs|].
  split; [by apply Hnone|]. specialize (Hagain eq_refl (Some sample_dispatch) (sp_errors p') (sp_counters p')).
  cbv zeta in Hagain. unfold with_dispatch. rewrite Hagain. cbn [sp_ingress].
  unfold remaining_credits. by rewrite Hc.
Defined.

(** Two packets whose submissions overtake each other, a context lost, two
    frame signals and the error of the first record asked for. *)
Definition sample_run : list ext_op := [
  Publish sample_queue sample_clock;
  Offer (encode first_frame);
  Offer (encode (frame_packet 2 mixed_records));
  Decode 0; RequestFrame; Decode 1; Send 1; Send 0; Hold 0; Hold 0;
  Events [SwapFailed; ContextLost]; Ready; TakeError 0].

(** The packets reach the renderer in the order of their sends, not of their
    sequence numbers: nothing holds the ingress from accepting to sending. *)
Example submissions_overtake : ∃ s,
  ext_run (spawn sample_ingress) sample_run = Ret s ∧ accepted s = [1; 2] ∧
  match sp_dispatch (path s) with
  | Some d => omap (λ c, match c with FramePacketCmd k => Some (fp_frame_id k) | _ => None end)
                (queued (rd_sender d)) = [2; 1]
  | None => False
  end.
Proof. eexists. split; [vm_compute; reflexivity|]. split; vm_compute; reflexivity. Qed.

Lemma sample_run_ok : Forall ext_op_ok sample_run.
Proof.
  unfold sample_run. apply Forall_cons; split; [discriminate|].
  apply Forall_cons; split; [exact first_frame_bytes|].
  apply Forall_cons; split; [exact second_frame_bytes|].
  repeat (apply Forall_cons; split; [exact I|]). apply Forall_nil_2.
Qed.

Lemma session_refines_ingress_witness : ∃ s,
  ext_run (spawn sample_ingress) sample_run = Ret s ∧ accepted s = sequences (length (accepted s)) ∧
  in_flight (sp_ingress (path s)) = lenZ (frames_out s).
Proof.
  destruct (session_refines_ingress sample_ingress sample_run) as (s & Hr & _ & Ha & Hf & _).
  - apply built_new.
  - exact sample_run_ok.
  - by vm_compute.
  - exists s. split; [exact Hr|]. split; [exact Ha|exact Hf].
Defined.

Lemma credits_come_back_witness : ∃ s s',
  ext_run (spawn sample_ingress) sample_run = Ret s ∧ ext_run s [Tick 0; Ready; Tick 0] = Ret s' ∧
  (moved s [Tick 0; Ready; Tick 0] + work s' ≤ work s)%nat ∧
  (work s' = 0%nat ↔ remaining_credits (sp_ingress (path s')) = max_credits (sp_ingress (path s'))).
Proof.
  destruct (credits_come_back sample_ingress sample_run [Tick 0; Ready; Tick 0])
    as (s & s' & Hr & Hr' & [Hw _] & Hz & _).
  - apply built_new.
  - exact sample_run_ok.
  - repeat (apply Forall_cons; split; [exact I|]). apply Forall_nil_2.
  - repeat (apply Forall_cons; split; [reflexivity|]). apply Forall_nil_2.
  - by vm_compute.
  - exists s, s'. split; [exact Hr|]. split; [exact Hr'|]. split; [exact Hw|exact Hz].
Defined.

Lemma submit_frame_is_steps_witness :
  (s' ← ext_run (spawn sample_ingress) [Offer (encode first_frame); Decode 0; Send 0; Hold 0];
   mret (path s', jobs s')) =
  (r ← submit_frame (spawn_path sample_ingress) (encode first_frame); mret (snd r, [])).
Proof. apply (submit_frame_is_steps (spawn sample_ingress)). reflexivity. Defined.
