(* ===== verification/Keyed.v ===== *)
(** Keyed tables with an index memo ([engine/crates/graphics], [canvas_keyed.rs]).

    [CanvasKeyed] is an association list in insertion order with the index of
    the entry the previous lookup resolved to; a memo is re-checked against its
    key on every use, so it is a hint and never an answer.  The vertex array
    shadow keeps its entries the same way.

    A [&mut V] handed out by the table is a function applied to the value in
    place: [entry_modify t id f] is [f] run on what [entry(id).or_default()]
    returned, and its result.

    [keyed_get_view] and its companions give the table its contract: it is a
    finite map, whatever the memo holds. *)
From S2P Require Import Prelude.

Set Default Proof Using "Type".

Record CanvasKeyed (V : Type) := { entries : list (Z * V); hot : nat }.
Arguments entries {V}.
Arguments hot {V}.

Section keyed.
Context {V : Type}.
Implicit Types (t : CanvasKeyed V) (id : Z).

Definition keyed_default : CanvasKeyed V := {| entries := []; hot := 0 |}.

(** [entries.iter().position(|(key, _)| *key == id)] *)
Fixpoint position (id : Z) (l : list (Z * V)) : option nat :=
  match l with
  | [] => None
  | (key, _) :: l => if key =? id then Some O else S <$> position id l
  end.

(** [self.entries.get(self.hot)] with its key compared. *)
Definition hot_hit (t : CanvasKeyed V) (id : Z) : bool :=
  match entries t !! hot t with
  | Some (key, _) => key =? id
  | None => false
  end.

Definition get (t : CanvasKeyed V) (id : Z) : option V :=
  match entries t !! hot t with
  | Some (key, value) => if key =? id then Some value else
      snd <$> (position id (entries t) ≫= λ pos, entries t !! pos)
  | None => snd <$> (position id (entries t) ≫= λ pos, entries t !! pos)
  end.

(** The table [get_mut] leaves, with the index of the value it found. *)
Definition get_mut (t : CanvasKeyed V) (id : Z) : option (nat * CanvasKeyed V) :=
  if hot_hit t id then Some (hot t, t)
  else pos ← position id (entries t);
       Some (pos, {| entries := entries t; hot := pos |}).

(** [resolve]: scan, and create a default value on a miss. *)
Definition resolve (d : V) (t : CanvasKeyed V) (id : Z) : nat * CanvasKeyed V :=
  match position id (entries t) with
  | Some pos => (pos, {| entries := entries t; hot := pos |})
  | None =>
      let es := entries t ++ [(id, d)] in
      ((length es - 1)%nat, {| entries := es; hot := (length es - 1)%nat |})
  end.

(** [value_mut]: the index of the value, and the table it is in. *)
Definition value_mut (d : V) (t : CanvasKeyed V) (id : Z) : nat * CanvasKeyed V :=
  if hot_hit t id then (hot t, t) else resolve d t id.

(** What the returned reference points at: the index is in range
    ([value_mut_spec]), the default is never taken. *)
Definition value_at (d : V) (t : CanvasKeyed V) (pos : nat) : V :=
  default d (snd <$> entries t !! pos).

Definition set_at (t : CanvasKeyed V) (pos : nat) (value : V) : CanvasKeyed V :=
  match entries t !! pos with
  | Some (key, _) => {| entries := <[pos := (key, value)]> (entries t); hot := hot t |}
  | None => t
  end.

(** [f(t.entry(id).or_default())]. *)
Definition entry_modify {R} (d : V) (t : CanvasKeyed V) (id : Z) (f : V → R * V) :
    R * CanvasKeyed V :=
  let '(pos, t) := value_mut d t id in
  let '(r, value) := f (value_at d t pos) in
  (r, set_at t pos value).

Definition contains_key (t : CanvasKeyed V) (id : Z) : bool :=
  existsb (λ e, e.1 =? id) (entries t).

(** [insert]: replace in place or push; the memo is not touched. *)
Definition keyed_insert (t : CanvasKeyed V) (id : Z) (value : V) : option V * CanvasKeyed V :=
  match position id (entries t) with
  | Some pos =>
      (snd <$> entries t !! pos,
       {| entries := <[pos := (id, value)]> (entries t); hot := hot t |})
  | None => (None, {| entries := entries t ++ [(id, value)]; hot := hot t |})
  end.

(** [Vec::swap_remove] at an index in range: the last entry takes its place. *)
Definition swap_remove {A} (l : list A) (pos : nat) : list A :=
  match last l with
  | Some x => if (pos =? length l - 1)%nat then take (length l - 1) l
              else take (length l - 1) (<[pos := x]> l)
  | None => l
  end.

Definition keyed_remove (t : CanvasKeyed V) (id : Z) : option V * CanvasKeyed V :=
  match position id (entries t) with
  | Some pos =>
      (snd <$> entries t !! pos, {| entries := swap_remove (entries t) pos; hot := 0 |})
  | None => (None, t)
  end.

(** A sweep over [values_mut()]. *)
Definition values_map (f : V → V) (t : CanvasKeyed V) : CanvasKeyed V :=
  {| entries := (λ e, (e.1, f e.2)) <$> entries t; hot := hot t |}.

Definition keyed_clear (t : CanvasKeyed V) : CanvasKeyed V := {| entries := []; hot := 0 |}.

Definition keyed_drain (t : CanvasKeyed V) : list (Z * V) * CanvasKeyed V :=
  (entries t, {| entries := []; hot := 0 |}).
End keyed.

(** * The table is a finite map *)

Definition keyed_wf {V} (t : CanvasKeyed V) : Prop := NoDup (entries t).*1.

Definition keyed_view {V} (t : CanvasKeyed V) (id : Z) : option V :=
  snd <$> (position id (entries t) ≫= λ pos, entries t !! pos).

Section keyed_lemmas.
Context {V : Type}.
Implicit Types (t : CanvasKeyed V) (l : list (Z * V)) (id : Z).

Lemma position_lookup id l p :
  position id l = Some p → ∃ v, l !! p = Some (id, v).
Proof.
  revert p. induction l as [|[k v] l IH]; intros p; cbn [position]; [done|].
  destruct (Z.eqb_spec k id) as [->|]; [intros [= <-]; by exists v|].
  destruct (position id l) as [q|]; [|done]. intros [= <-]. by apply IH.
Qed.

Lemma lookup_position id l p v :
  NoDup l.*1 → l !! p = Some (id, v) → position id l = Some p.
Proof.
  revert p. induction l as [|[k w] l IH]; intros p ND Hp; [done|].
  cbn [position]. apply NoDup_cons in ND as [Hk ND]. destruct p as [|p].
  { injection Hp as -> ->. by rewrite Z.eqb_refl. }
  cbn in Hp. destruct (Z.eqb_spec k id) as [->|].
  { exfalso. apply Hk. apply list_elem_of_fmap. exists (id, v). split; [done|].
    by eapply list_elem_of_lookup_2. }
  by rewrite (IH p).
Qed.

Lemma position_None id l : position id l = None ↔ id ∉ l.*1.
Proof.
  induction l as [|[k v] l IH]; cbn [position]; [split; [intros _; apply not_elem_of_nil|done]|].
  rewrite fmap_cons, not_elem_of_cons. cbn. destruct (Z.eqb_spec k id) as [->|].
  - split; [done|]. by intros [? _].
  - rewrite fmap_None, IH. naive_solver.
Qed.

Lemma view_lookup t id v :
  keyed_wf t → keyed_view t id = Some v ↔ ∃ p, entries t !! p = Some (id, v).
Proof.
  intros W. unfold keyed_view. split.
  - destruct (position id (entries t)) as [p|] eqn:E; [|done]. cbn.
    destruct (position_lookup _ _ _ E) as [w Hw]. rewrite Hw. cbn. intros [= ->]. by exists p.
  - intros [p Hp]. rewrite (lookup_position id _ p v W Hp). cbn. by rewrite Hp.
Qed.

Lemma get_view t id : keyed_wf t → get t id = keyed_view t id.
Proof.
  intros W. unfold get. destruct (entries t !! hot t) as [[k v]|] eqn:E; [|done].
  destruct (Z.eqb_spec k id) as [->|]; [|done].
  symmetry. apply view_lookup; [done|]. by exists (hot t).
Qed.

Lemma contains_key_view t id : keyed_wf t → contains_key t id = bool_decide (is_Some (keyed_view t id)).
Proof.
  intros W. unfold contains_key, keyed_view. symmetry.
  destruct (existsb _ _) eqn:E.
  - apply bool_decide_eq_true_2. apply existsb_exists in E as ([k v] & Hin & Hk).
    cbn in Hk. apply Z.eqb_eq in Hk. subst k. apply list_elem_of_In, list_elem_of_lookup_1 in Hin as [p Hp].
    rewrite (lookup_position id _ p v W Hp). cbn. rewrite Hp. by eexists.
  - apply bool_decide_eq_false_2. intros [v Hv]. apply view_lookup in Hv as [p Hp]; [|done].
    apply not_true_iff_false in E. apply E, existsb_exists. exists (id, v).
    split; [|by apply Z.eqb_eq]. apply list_elem_of_In. by eapply list_elem_of_lookup_2.
Qed.

(** Entries pushed, replaced and removed, seen through the view. *)
Lemma push_view t h id v :
  keyed_wf t → keyed_view t id = None →
  let t' := {| entries := entries t ++ [(id, v)]; hot := h |} in
  keyed_wf t' ∧ ∀ j, keyed_view t' j = if j =? id then Some v else keyed_view t j.
Proof.
  intros W Hn t'.
  assert (W' : keyed_wf t').
  { unfold keyed_wf, t'. cbn. rewrite fmap_app. apply NoDup_app. split; [done|].
    split; [|cbn; apply NoDup_singleton]. intros k Hk. cbn. rewrite list_elem_of_singleton.
    intros ->. apply list_elem_of_fmap in Hk as ([k w] & -> & Hin).
    apply list_elem_of_lookup_1 in Hin as [p Hp].
    by rewrite (proj2 (view_lookup t _ w W)) in Hn by by exists p. }
  split; [done|]. intros j. apply option_eq. intros w. rewrite (view_lookup t' j w W').
  unfold t'. cbn [entries]. destruct (Z.eqb_spec j id) as [->|Hj].
  - split; [|intros [= <-]; exists (length (entries t)); by rewrite lookup_app_r, Nat.sub_diag by lia].
    intros [p Hp]. apply lookup_app_Some in Hp as [Hp|[_ Hp]].
    + by rewrite (proj2 (view_lookup t id w W)) in Hn by by exists p.
    + by apply list_lookup_singleton_Some in Hp as [_ [= ->]].
  - rewrite (view_lookup t j w W). split; intros [p Hp]; exists p.
    + apply lookup_app_Some in Hp as [?|[_ Hp]]; [done|].
      by apply list_lookup_singleton_Some in Hp as [_ [= ? ?]].
    + by apply lookup_app_l_Some.
Qed.

Lemma set_view t h p id v v0 :
  keyed_wf t → entries t !! p = Some (id, v0) →
  let t' := {| entries := <[p := (id, v)]> (entries t); hot := h |} in
  keyed_wf t' ∧ ∀ j, keyed_view t' j = if j =? id then Some v else keyed_view t j.
Proof.
  intros W Hp t'. assert (Hlt := lookup_lt_Some _ _ _ Hp).
  assert (W' : keyed_wf t').
  { unfold keyed_wf, t'. cbn. rewrite list_fmap_insert. cbn.
    rewrite list_insert_id; [done|]. by rewrite list_lookup_fmap, Hp. }
  split; [done|]. intros j. apply option_eq. intros w. rewrite (view_lookup t' j w W').
  unfold t'. cbn [entries]. destruct (Z.eqb_spec j id) as [->|Hj].
  - split; [|intros [= <-]; exists p; by apply list_lookup_insert_eq].
    intros [q Hq]. destruct (decide (q = p)) as [->|Hqp].
    { by rewrite list_lookup_insert_eq in Hq by done; simplify_eq. }
    rewrite list_lookup_insert_ne in Hq by done. exfalso. apply Hqp.
    pose proof (lookup_position _ _ _ _ W Hq). pose proof (lookup_position _ _ _ _ W Hp). congruence.
  - rewrite (view_lookup t j w W). split; intros [q Hq]; exists q.
    + destruct (decide (q = p)) as [->|].
      * rewrite list_lookup_insert_eq in Hq by done. congruence.
      * by rewrite list_lookup_insert_ne in Hq.
    + rewrite list_lookup_insert_ne; [done|]. intros <-. congruence.
Qed.

(** What [value_mut] hands out: an index in range holding the canvas's value,
    or the default in a new entry. *)
Lemma value_mut_spec d t id pos t' :
  keyed_wf t → value_mut d t id = (pos, t') →
  keyed_wf t' ∧ entries t' !! pos = Some (id, default d (keyed_view t id)) ∧
  ∀ j, j ≠ id → keyed_view t' j = keyed_view t j.
Proof.
  intros W. unfold value_mut, hot_hit.
  assert (Hres : resolve d t id = (pos, t') →
    keyed_wf t' ∧ entries t' !! pos = Some (id, default d (keyed_view t id)) ∧
    ∀ j, j ≠ id → keyed_view t' j = keyed_view t j).
  { unfold resolve. destruct (position id (entries t)) as [p|] eqn:E.
    - intros [= <- <-]. cbn. destruct (position_lookup _ _ _ E) as [v Hv].
      split; [done|]. split; [|done]. unfold keyed_view. rewrite E. cbn. by rewrite Hv.
    - assert (Hn : keyed_view t id = None) by (unfold keyed_view; by rewrite E).
      intros [= <- <-]. rewrite length_app. cbn [length].
      replace (length (entries t) + 1 - 1)%nat with (length (entries t)) by lia.
      destruct (push_view t (length (entries t)) id d W Hn) as [W' Hv].
      split; [done|]. split.
      + cbn [entries]. by rewrite lookup_app_r, Nat.sub_diag, Hn by lia.
      + intros j Hj. rewrite Hv. by rewrite (proj2 (Z.eqb_neq _ _)). }
  destruct (entries t !! hot t) as [[k v]|] eqn:E; [|done].
  destruct (Z.eqb_spec k id) as [->|]; [|done]. intros [= <- <-].
  split; [done|]. split; [|done]. rewrite E.
  by rewrite (proj2 (view_lookup t id v W)) by by exists (hot t).
Qed.

(** The contract of [entry(id).or_default()]: the value of this canvas, and of
    no other, is read and replaced. *)
Lemma entry_modify_spec {R} d t id (f : V → R * V) :
  keyed_wf t →
  let '(r, v) := f (default d (keyed_view t id)) in
  ∃ t', entry_modify d t id f = (r, t') ∧ keyed_wf t' ∧
    ∀ j, keyed_view t' j = if j =? id then Some v else keyed_view t j.
Proof.
  intros W. unfold entry_modify. destruct (value_mut d t id) as [pos t1] eqn:E.
  destruct (value_mut_spec _ _ _ _ _ W E) as (W1 & Hp & Hv).
  unfold value_at. rewrite Hp. cbn [fmap option_fmap option_map snd default].
  destruct (f _) as [r v]. eexists. split; [done|].
  unfold set_at. rewrite Hp. destruct (set_view t1 (hot t1) pos id v _ W1 Hp) as [W' Hv'].
  split; [done|].
  intros j. rewrite Hv'. destruct (Z.eqb_spec j id); [done|]. by apply Hv.
Qed.

Lemma values_map_spec (f : V → V) t :
  keyed_wf t → keyed_wf (values_map f t) ∧ ∀ j, keyed_view (values_map f t) j = f <$> keyed_view t j.
Proof.
  intros W. assert (W' : keyed_wf (values_map f t)).
  { unfold keyed_wf, values_map. cbn. by rewrite <- list_fmap_compose. }
  split; [done|]. intros j. apply option_eq. intros w. rewrite (view_lookup _ j w W').
  cbn [entries values_map]. rewrite fmap_Some. split.
  - intros [p Hp]. rewrite list_lookup_fmap in Hp. destruct (entries t !! p) as [[k v]|] eqn:Ep; [|done].
    cbn in Hp. injection Hp as -> <-. exists v. split; [|done]. apply view_lookup; [done|]. by exists p.
  - intros (v & Hv & ->). apply view_lookup in Hv as [p Hp]; [|done]. exists p.
    by rewrite list_lookup_fmap, Hp.
Qed.

Lemma keyed_insert_spec t id v :
  keyed_wf t →
  (keyed_insert t id v).1 = keyed_view t id ∧ keyed_wf (keyed_insert t id v).2 ∧
  ∀ j, keyed_view (keyed_insert t id v).2 j = if j =? id then Some v else keyed_view t j.
Proof.
  intros W. unfold keyed_insert. destruct (position id (entries t)) as [p|] eqn:E; cbn [fst snd].
  - destruct (position_lookup _ _ _ E) as [w Hw].
    split; [unfold keyed_view; by rewrite E|]. by apply (set_view t (hot t) p id v w).
  - assert (Hn : keyed_view t id = None) by (unfold keyed_view; by rewrite E).
    split; [done|]. by apply (push_view t (hot t) id v).
Qed.

Lemma swap_remove_Permutation {A} (l : list A) p :
  (p < length l)%nat → swap_remove l p ≡ₚ delete p l.
Proof.
  intros Hp. unfold swap_remove. destruct l as [|x l' _] using rev_ind; [cbn in Hp; lia|].
  rewrite last_snoc, length_app. cbn [length].
  replace (length l' + 1 - 1)%nat with (length l') by lia.
  rewrite length_app in Hp. cbn in Hp.
  destruct (Nat.eqb_spec p (length l')) as [->|].
  - rewrite take_app_length. rewrite delete_take_drop.
    rewrite take_app_length, drop_ge by (rewrite length_app; cbn; lia). by rewrite app_nil_r.
  - rewrite insert_app_l by lia.
    rewrite take_app_length' by (by rewrite length_insert).
    rewrite delete_take_drop, take_app_le, drop_app_le by lia.
    rewrite insert_take_drop by lia. solve_Permutation.
Qed.

Lemma Permutation_view l l' h h' j :
  NoDup l.*1 → l ≡ₚ l' →
  keyed_view {| entries := l; hot := h |} j = keyed_view {| entries := l'; hot := h' |} j.
Proof.
  intros ND HP. apply option_eq. intros w.
  rewrite !view_lookup; [|unfold keyed_wf; cbn; by rewrite <- HP|done]. cbn.
  rewrite <- !list_elem_of_lookup. by rewrite HP.
Qed.

Lemma keyed_remove_spec t id :
  keyed_wf t →
  (keyed_remove t id).1 = keyed_view t id ∧ keyed_wf (keyed_remove t id).2 ∧
  ∀ j, keyed_view (keyed_remove t id).2 j = if j =? id then None else keyed_view t j.
Proof.
  intros W. unfold keyed_remove. destruct (position id (entries t)) as [p|] eqn:E; cbn [fst snd].
  - destruct (position_lookup _ _ _ E) as [v Hv].
    assert (Hlt := lookup_lt_Some _ _ _ Hv).
    split; [unfold keyed_view; by rewrite E|].
    assert (HP : entries t ≡ₚ (id, v) :: swap_remove (entries t) p).
    { rewrite swap_remove_Permutation by done. by apply delete_Permutation. }
    assert (ND : NoDup ((id, v) :: swap_remove (entries t) p).*1) by (rewrite <- HP; exact W).
    pose proof ND as ND'. cbn in ND'. apply NoDup_cons in ND' as [Hid ND']. split; [exact ND'|].
    intros j.
    destruct (Z.eqb_spec j id) as [->|Hj].
    + apply position_None in Hid. unfold keyed_view. cbn [entries]. by rewrite Hid.
    + destruct t as [es h]. cbn [entries] in *. unfold keyed_wf in W. cbn [entries] in W.
      etransitivity; [|symmetry; apply (Permutation_view _ _ h 0 j W HP)]. unfold keyed_view. cbn [entries position].
      rewrite (proj2 (Z.eqb_neq _ _)) by congruence.
      by destruct (position j (swap_remove es p)).
  - split; [unfold keyed_view; by rewrite E|]. split; [done|]. intros j.
    destruct (Z.eqb_spec j id) as [->|]; [unfold keyed_view; by rewrite E|done].
Qed.
End keyed_lemmas.

(** * Histories of the table *)

(** One use of the table, with what the caller does through the reference. *)
Inductive TableOp (V : Type) :=
  | TGet (id : Z)
  | TGetMut (id : Z) (f : V → V)
  | TEntry (id : Z) (f : V → V)
  | TContains (id : Z)
  | TInsert (id : Z) (value : V)
  | TRemove (id : Z)
  | TValues (f : V → V)
  | TClear
  | TDrain.
Arguments TGet {V}.
Arguments TGetMut {V}.
Arguments TEntry {V}.
Arguments TContains {V}.
Arguments TInsert {V}.
Arguments TRemove {V}.
Arguments TValues {V}.
Arguments TClear {V}.
Arguments TDrain {V}.

Section history.
Context {V : Type} (d : V).
Implicit Types (t : CanvasKeyed V) (m : gmap Z V).

(** What the caller sees: a value (read before it is changed), or whether
    there is one. *)
Definition table_step (t : CanvasKeyed V) (op : TableOp V) : option V * CanvasKeyed V :=
  match op with
  | TGet id => (get t id, t)
  | TGetMut id f =>
      match get_mut t id with
      | Some (pos, t') =>
          (snd <$> entries t' !! pos,
           match entries t' !! pos with Some (_, v) => set_at t' pos (f v) | None => t' end)
      | None => (None, t)
      end
  | TEntry id f => entry_modify d t id (λ v, (Some v, f v))
  | TContains id => (if contains_key t id then Some d else None, t)
  | TInsert id v => keyed_insert t id v
  | TRemove id => keyed_remove t id
  | TValues f => (None, values_map f t)
  | TClear => (None, keyed_clear t)
  | TDrain => (None, (keyed_drain t).2)
  end.

(** The same uses of a finite map. *)
Definition map_step (m : gmap Z V) (op : TableOp V) : option V * gmap Z V :=
  match op with
  | TGet id => (m !! id, m)
  | TGetMut id f => (m !! id, alter f id m)
  | TEntry id f => (Some (default d (m !! id)), <[id := f (default d (m !! id))]> m)
  | TContains id => (match m !! id with Some _ => Some d | None => None end, m)
  | TInsert id v => (m !! id, <[id := v]> m)
  | TRemove id => (m !! id, delete id m)
  | TValues f => (None, f <$> m)
  | TClear | TDrain => (None, ∅)
  end.

Fixpoint history {S} (step : S → TableOp V → option V * S) (s : S) (ops : list (TableOp V)) :
    list (option V) :=
  match ops with
  | [] => []
  | op :: ops => let '(r, s) := step s op in r :: history step s ops
  end.

Definition represents (t : CanvasKeyed V) (m : gmap Z V) : Prop :=
  keyed_wf t ∧ ∀ id, keyed_view t id = m !! id.

Lemma get_mut_spec t id :
  keyed_wf t →
  match get_mut t id with
  | Some (pos, t') => entries t' = entries t ∧
      ∃ v, entries t !! pos = Some (id, v) ∧ keyed_view t id = Some v
  | None => keyed_view t id = None
  end.
Proof.
  intros W. unfold get_mut, hot_hit.
  destruct (entries t !! hot t) as [[k v]|] eqn:E.
  - destruct (Z.eqb_spec k id) as [->|].
    + split; [done|]. exists v. split; [done|]. apply view_lookup; [done|]. by exists (hot t).
    + unfold keyed_view. destruct (position id (entries t)) as [p|] eqn:Ep; [|done].
      cbn. split; [done|]. destruct (position_lookup _ _ _ Ep) as [w Hw]. exists w. by rewrite Hw.
  - unfold keyed_view. destruct (position id (entries t)) as [p|] eqn:Ep; [|done].
    cbn. split; [done|]. destruct (position_lookup _ _ _ Ep) as [w Hw]. exists w. by rewrite Hw.
Qed.

Lemma get_mut_step t m id f :
  represents t m →
  (table_step t (TGetMut id f)).1 = m !! id ∧
  represents (table_step t (TGetMut id f)).2 (alter f id m).
Proof.
  intros [W Hv]. pose proof (get_mut_spec t id W) as Hg. cbn [table_step].
  destruct (get_mut t id) as [[pos t']|]; cbn [fst snd].
  - destruct Hg as (He & v & Hp & Hm). rewrite He, Hp. rewrite Hv in Hm. rewrite Hm. cbn [fmap option_fmap option_map snd].
    split; [done|]. unfold set_at. rewrite He, Hp.
    destruct (set_view t (hot t') pos id (f v) v W Hp) as [W' Hv']. split; [done|].
    intros j. rewrite Hv'. destruct (Z.eqb_spec j id) as [->|].
    + by rewrite lookup_alter_eq, Hm.
    + by rewrite lookup_alter_ne, Hv.
  - rewrite Hv in Hg. split; [done|]. split; [done|]. intros j. rewrite Hv.
    destruct (decide (j = id)) as [->|]; [by rewrite lookup_alter_eq, Hg|by rewrite lookup_alter_ne].
Qed.

Lemma table_step_spec t m op :
  represents t m →
  (table_step t op).1 = (map_step m op).1 ∧ represents (table_step t op).2 (map_step m op).2.
Proof.
  intros HR. pose proof HR as [W Hv]. destruct op; cbn [table_step map_step fst snd].
  - by rewrite get_view, Hv.
  - by apply get_mut_step.
  - pose proof (entry_modify_spec d t id (λ v, (Some v, f v)) W) as H.
    cbn in H. destruct H as (t' & -> & W' & Hv'). rewrite Hv. split; [done|]. split; [done|].
    intros j. cbn. rewrite Hv', Hv. destruct (Z.eqb_spec j id) as [->|].
    + by rewrite lookup_insert_eq.
    + by rewrite lookup_insert_ne, Hv.
  - rewrite contains_key_view, Hv by done. split; [|done]. by destruct (m !! id).
  - destruct (keyed_insert_spec t id value W) as (-> & W' & Hv'). split; [by rewrite Hv|].
    split; [done|]. intros j. rewrite Hv'. destruct (Z.eqb_spec j id) as [->|].
    + by rewrite lookup_insert_eq.
    + by rewrite lookup_insert_ne, Hv.
  - destruct (keyed_remove_spec t id W) as (-> & W' & Hv'). split; [by rewrite Hv|].
    split; [done|]. intros j. rewrite Hv'. destruct (Z.eqb_spec j id) as [->|].
    + by rewrite lookup_delete_eq.
    + by rewrite lookup_delete_ne, Hv.
  - destruct (values_map_spec f t W) as [W' Hv']. split; [done|]. split; [done|].
    intros j. by rewrite Hv', lookup_fmap, Hv.
  - split; [done|]. split; [apply NoDup_nil_2|]. intros j. by rewrite lookup_empty.
  - split; [done|]. split; [apply NoDup_nil_2|]. intros j. by rewrite lookup_empty.
Qed.

(** The table answers every history of uses as a finite map does: neither
    the index memo, nor the swap of a removal, nor the order of the entries
    can be seen through it. *)
Theorem memo_never_shows ops : history table_step keyed_default ops = history map_step ∅ ops.
Proof.
  assert (H : ∀ t m, represents t m → history table_step t ops = history map_step m ops).
  { induction ops as [|op ops IH]; intros t m HR; cbn [history]; [done|].
    destruct (table_step_spec t m op HR) as [Hr HR'].
    destruct (table_step t op) as [r t'], (map_step m op) as [r' m']. cbn in *. subst r'.
    f_equal. by apply IH. }
  apply H. split; [apply NoDup_nil_2|]. intros id. by rewrite lookup_empty.
Qed.
End history.
