(* ===== verification/Budget.v ===== *)
(** Accounting of WebGL texture and renderbuffer storage ([engine/crates/graphics],
    [webgl_gpu_budget.rs]).

    A budget belongs to one render thread.  It knows which object every binding
    names, so that an allocation command can be charged to it, the bytes of every
    object and their sum per context.  Budgets share one atomic counter of the
    process, [ProcessUsage]; every operation here does at most one atomic
    operation on it, so an operation is one step.

    An allocation is admitted before the driver call and committed after it.  The
    token held in between ([PreparedGpuAllocation]) gives the process bytes back
    when it is dropped. *)
From S2P Require Import Prelude Keyed.

Set Default Proof Using "Type".

(** * Constants *)

Definition GL_TEXTURE0 : Z := 0x84C0.
Definition GL_TEXTURE_2D : Z := 0x0DE1.
Definition GL_TEXTURE_3D : Z := 0x806F.
Definition GL_TEXTURE_CUBE_MAP : Z := 0x8513.
Definition GL_TEXTURE_CUBE_MAP_POSITIVE_X : Z := 0x8515.
Definition GL_TEXTURE_CUBE_MAP_NEGATIVE_Z : Z := 0x851A.
Definition GL_TEXTURE_2D_ARRAY : Z := 0x8C1A.
Definition GL_RENDERBUFFER : Z := 0x8D41.
Definition WEBGL_TEXTURE_UNIT_COUNT : Z := 32.

Definition MAX_CONTEXT_BYTES : Z := 128 * 1024 * 1024.
Definition MAX_PROCESS_BYTES : Z := 512 * 1024 * 1024.
Definition MAX_2D_DIMENSION : Z := 16384.
Definition MAX_3D_DIMENSION : Z := 2048.
Definition MAX_ARRAY_LAYERS : Z := 2048.
Definition MAX_SAMPLES : Z := 16.

Record GpuBudgetLimits := {
  max_context_bytes : Z;
  max_process_bytes : Z;
  max_2d_dimension : Z;
  max_3d_dimension : Z;
  max_array_layers : Z;
  max_samples : Z;
}.

Definition PRODUCTION : GpuBudgetLimits := {|
  max_context_bytes := MAX_CONTEXT_BYTES;
  max_process_bytes := MAX_PROCESS_BYTES;
  max_2d_dimension := MAX_2D_DIMENSION;
  max_3d_dimension := MAX_3D_DIMENSION;
  max_array_layers := MAX_ARRAY_LAYERS;
  max_samples := MAX_SAMPLES;
|}.

Inductive GpuAllocationError := InvalidEnum | InvalidValue | InvalidOperation | OutOfMemory.

Abbreviation res A := (outcome GpuAllocationError A).

(** * The process counter *)

Record ProcessUsage := { max_bytes : Z; bytes : Z }.

Definition process_new (max : Z) : ProcessUsage := {| max_bytes := max; bytes := 0 |}.

(** The [ProcessGrowth] guard: how much a drop gives back, and whether it does. *)
Record ProcessGrowth := { grown : Z; armed : bool }.

Definition try_grow (n : Z) (u : ProcessUsage) : res (ProcessGrowth * ProcessUsage) :=
  if n =? 0 then Ret ({| grown := 0; armed := false |}, u)
  else match u64_checked_add (bytes u) n with
  | Some next =>
      if next <=? max_bytes u
      then Ret ({| grown := n; armed := true |}, {| max_bytes := max_bytes u; bytes := next |})
      else Fail OutOfMemory
  | None => Fail OutOfMemory
  end.

(** [fetch_sub] wraps; the [debug_assert] panics on underflow. *)
Definition release (n : Z) (u : ProcessUsage) : res ProcessUsage :=
  if n =? 0 then Ret u
  else if n <=? bytes u then Ret {| max_bytes := max_bytes u; bytes := bytes u - n |}
  else Panic.

Definition growth_commit (g : ProcessGrowth) : ProcessGrowth := {| grown := grown g; armed := false |}.
Definition growth_drop (g : ProcessGrowth) (u : ProcessUsage) : res ProcessUsage :=
  if armed g then release (grown g) u else Ret u.

(** * Objects *)

(** [(target, level)] *)
Abbreviation TextureSubresource := (Z * Z)%type.

Inductive TextureStorage := Mutable (images : gmap TextureSubresource Z) | Immutable (n : Z).

(** The sum of a map's values; with natural summands the order does not show. *)
Definition map_sum {K V} `{Countable K} (f : V → Z) (m : gmap K V) : Z :=
  map_fold (λ _ v total, f v + total) 0 m.
Abbreviation map_total := (map_sum id).

Definition byte_len (s : TextureStorage) : Z :=
  match s with Mutable images => map_total images | Immutable n => n end.

Record TextureRecord := { tex_owner : Z; storage : TextureStorage }.
Record RenderbufferRecord := { rb_owner : Z; rb_bytes : Z }.

(** * Bindings *)

Definition BINDING_TARGETS : list Z :=
  [GL_TEXTURE_2D; GL_TEXTURE_CUBE_MAP; GL_TEXTURE_3D; GL_TEXTURE_2D_ARRAY].

Fixpoint target_index (target : Z) (l : list Z) : option nat :=
  match l with
  | [] => None
  | t :: l => if t =? target then Some O else fmap S (target_index target l)
  end.

(** [TextureUnitLedger]: [slots[unit_index * 4 + target_index]]. *)
Record TextureUnitLedger := { led_slots : list (option Z) }.
Definition ledger_default : TextureUnitLedger :=
  {| led_slots := replicate (Z.to_nat WEBGL_TEXTURE_UNIT_COUNT * length BINDING_TARGETS) None |}.

Definition ledger_slot (unit_ target : Z) : option nat :=
  let unit_index := (unit_ - GL_TEXTURE0) mod 2 ^ 32 in
  if WEBGL_TEXTURE_UNIT_COUNT <=? unit_index then None
  else i ← target_index target BINDING_TARGETS;
       Some (Z.to_nat unit_index * length BINDING_TARGETS + i)%nat.

Definition ledger_set (unit_ target : Z) (texture : option Z) (l : TextureUnitLedger) : TextureUnitLedger :=
  match ledger_slot unit_ target with
  | Some i => {| led_slots := <[i := texture]> (led_slots l) |}
  | None => l
  end.

Definition ledger_get (unit_ target : Z) (l : TextureUnitLedger) : option Z :=
  i ← ledger_slot unit_ target; mjoin (led_slots l !! i).

Definition ledger_forget_texture (texture : Z) (l : TextureUnitLedger) : TextureUnitLedger :=
  {| led_slots := fmap (λ slot, if bool_decide (slot = Some texture) then None else slot) (led_slots l) |}.

Record BindingState := { active_texture : Z; bound_textures : TextureUnitLedger; renderbuffer : option Z }.
Definition binding_default : BindingState :=
  {| active_texture := GL_TEXTURE0; bound_textures := ledger_default; renderbuffer := None |}.
#[global] Instance eta_BindingState : Eta BindingState := λ r,
  {| active_texture := active_texture r; bound_textures := bound_textures r; renderbuffer := renderbuffer r |}.

(** * The budget *)

Record WebGlGpuBudget := {
  limits : GpuBudgetLimits;
  contexts : gmap Z Z;
  bindings : CanvasKeyed BindingState;
  textures : gmap Z TextureRecord;
  renderbuffers : gmap Z RenderbufferRecord;
}.
#[global] Instance eta_WebGlGpuBudget : Eta WebGlGpuBudget := λ r, {|
  limits := limits r; contexts := contexts r; bindings := bindings r; textures := textures r;
  renderbuffers := renderbuffers r |}.

Definition with_parts (l : GpuBudgetLimits) : WebGlGpuBudget := {|
  limits := l; contexts := ∅; bindings := keyed_default; textures := ∅; renderbuffers := ∅ |}.

Inductive PreparedKind :=
  | TextureImage (texture : Z) (subresource : TextureSubresource) (n : Z)
  | TextureImmutable (texture n : Z)
  | Renderbuffer (renderbuffer n : Z).

Record PreparedGpuAllocation := {
  canvas_id : Z;
  old_object_bytes : Z;
  new_object_bytes : Z;
  kind : PreparedKind;
  process_growth : ProcessGrowth;
}.

(** [reserved] is the allocator's answer to the three [try_reserve]s. *)
Definition create_texture (reserved : bool) (canvas texture : Z) (b : WebGlGpuBudget) : res WebGlGpuBudget :=
  if (texture =? 0) || bool_decide (is_Some (textures b !! texture)) then Fail InvalidOperation
  else if negb reserved then Fail OutOfMemory
  else Ret (b <| contexts := match contexts b !! canvas with
                             | Some _ => contexts b | None => <[canvas := 0]> (contexts b) end |>
              <| bindings := (entry_modify binding_default (bindings b) canvas (λ s, (tt, s))).2 |>
              <| textures := <[texture := {| tex_owner := canvas; storage := Mutable ∅ |}]> (textures b) |>).

Definition create_renderbuffer (reserved : bool) (canvas rb : Z) (b : WebGlGpuBudget) : res WebGlGpuBudget :=
  if (rb =? 0) || bool_decide (is_Some (renderbuffers b !! rb)) then Fail InvalidOperation
  else if negb reserved then Fail OutOfMemory
  else Ret (b <| contexts := match contexts b !! canvas with
                             | Some _ => contexts b | None => <[canvas := 0]> (contexts b) end |>
              <| bindings := (entry_modify binding_default (bindings b) canvas (λ s, (tt, s))).2 |>
              <| renderbuffers := <[rb := {| rb_owner := canvas; rb_bytes := 0 |}]> (renderbuffers b) |>).

Definition is_valid_texture_unit (unit_ : Z) : bool :=
  (GL_TEXTURE0 <=? unit_) && (unit_ <? GL_TEXTURE0 + WEBGL_TEXTURE_UNIT_COUNT).

Definition normalize_binding_target (target : Z) : option Z :=
  if (target =? GL_TEXTURE_2D) || (target =? GL_TEXTURE_CUBE_MAP) || (target =? GL_TEXTURE_3D) ||
     (target =? GL_TEXTURE_2D_ARRAY) then Some target else None.

Definition is_cube_face (target : Z) : bool :=
  (GL_TEXTURE_CUBE_MAP_POSITIVE_X <=? target) && (target <=? GL_TEXTURE_CUBE_MAP_NEGATIVE_Z).

Definition normalize_image_binding_target (target : Z) : option Z :=
  if is_cube_face target then Some GL_TEXTURE_CUBE_MAP else normalize_binding_target target.

Definition on_bindings (canvas : Z) (f : BindingState → BindingState) (b : WebGlGpuBudget) : WebGlGpuBudget :=
  b <| bindings := (entry_modify binding_default (bindings b) canvas (λ s, (tt, f s))).2 |>.

Definition set_active_texture (canvas unit_ : Z) (b : WebGlGpuBudget) : WebGlGpuBudget :=
  if negb (is_valid_texture_unit unit_) then b
  else on_bindings canvas (λ s, s <| active_texture := unit_ |>) b.

Definition bind_texture (canvas target : Z) (texture : option Z) (b : WebGlGpuBudget) : WebGlGpuBudget :=
  match normalize_binding_target target with
  | None => b
  | Some binding_target =>
      on_bindings canvas (λ s, s <| bound_textures :=
        ledger_set (active_texture s) binding_target texture (bound_textures s) |>) b
  end.

Definition bind_renderbuffer (canvas target : Z) (rb : option Z) (b : WebGlGpuBudget) : WebGlGpuBudget :=
  if target =? GL_RENDERBUFFER then on_bindings canvas (λ s, s <| renderbuffer := rb |>) b else b.

Definition bound_texture (canvas target : Z) (b : WebGlGpuBudget) : res Z :=
  binding_target ← ok_or (normalize_image_binding_target target) InvalidEnum;
  s ← ok_or (get (bindings b) canvas) InvalidOperation;
  ok_or (ledger_get (active_texture s) binding_target (bound_textures s)) InvalidOperation.

(** * Sizes *)

(** [32 - x.leading_zeros()] on a [u32]. *)
Definition bit_length (x : Z) : Z := if x =? 0 then 0 else Z.log2 x + 1.

(** [x.checked_shr(level).unwrap_or(0).max(1)] *)
Definition at_level (x level : Z) : Z := Z.max (if level <? 32 then Z.shiftr x level else 0) 1.

Definition validate_image_2d_dimensions (target level width height border max_dimension : Z) :
    res (Z * Z * Z) :=
  if negb (target =? GL_TEXTURE_2D) && negb (is_cube_face target) then Fail InvalidEnum else
  if (level <? 0) || (width <? 0) || (height <? 0) || negb (border =? 0) then Fail InvalidValue else
  if bit_length max_dimension <=? level then Fail InvalidValue else
  let max_at_level := at_level max_dimension level in
  if (max_at_level <? width) || (max_at_level <? height) then Fail InvalidValue else
  if negb (target =? GL_TEXTURE_2D) && negb (width =? height) then Fail InvalidValue else
  Ret (width, height, level).

Definition validate_storage_dimensions (levels width height max_dimension : Z) : res (Z * Z * Z) :=
  if (levels <=? 0) || (width <=? 0) || (height <=? 0) then Fail InvalidValue else
  if (max_dimension <? width) || (max_dimension <? height) then Fail InvalidValue else
  if bit_length (Z.max width height) <? levels then Fail InvalidValue else
  Ret (width, height, levels).

Definition validate_image_3d_dimensions (target level width height depth border : Z) (l : GpuBudgetLimits) :
    res (Z * Z * Z * Z) :=
  if negb (target =? GL_TEXTURE_3D) && negb (target =? GL_TEXTURE_2D_ARRAY) then Fail InvalidEnum else
  if (level <? 0) || (width <? 0) || (height <? 0) || (depth <? 0) || negb (border =? 0)
  then Fail InvalidValue else
  let base_max := if target =? GL_TEXTURE_3D then max_3d_dimension l else max_2d_dimension l in
  if bit_length base_max <=? level then Fail InvalidValue else
  let max_at_level := at_level base_max level in
  let max_depth := if target =? GL_TEXTURE_3D then at_level (max_3d_dimension l) level
                   else max_array_layers l in
  if (max_at_level <? width) || (max_at_level <? height) || (max_depth <? depth) then Fail InvalidValue else
  Ret (width, height, depth, level).

Definition validate_storage_3d_dimensions (target levels width height depth : Z) (l : GpuBudgetLimits) :
    res (Z * Z * Z * Z) :=
  if (levels <=? 0) || (width <=? 0) || (height <=? 0) || (depth <=? 0) then Fail InvalidValue else
  let '(max_xy, max_depth, mip_basis) :=
    if target =? GL_TEXTURE_3D
    then (max_3d_dimension l, max_3d_dimension l, Z.max (Z.max width height) depth)
    else (max_2d_dimension l, max_array_layers l, Z.max width height) in
  if (max_xy <? width) || (max_xy <? height) || (max_depth <? depth) then Fail InvalidValue else
  if bit_length mip_basis <? levels then Fail InvalidValue else
  Ret (width, height, depth, levels).

(** [try_fold] of [checked_mul] from [bpp]. *)
Fixpoint checked_texel_bytes (dimensions : list Z) (bpp : Z) : res Z :=
  match dimensions with
  | [] => Ret bpp
  | d :: ds =>
      match u64_checked_mul bpp d with
      | Some n => checked_texel_bytes ds n
      | None => Fail OutOfMemory
      end
  end.

(** The loop [for _ in 0..levels], [levels] being the structural measure. *)
Fixpoint mip_chain (width height depth : Z) (levels : nat) (mip_depth : bool) (bpp total : Z) : res Z :=
  match levels with
  | O => Ret total
  | S levels =>
      level ← checked_texel_bytes [width; height; depth] bpp;
      total ← ok_or (u64_checked_add total level) OutOfMemory;
      mip_chain (Z.max (width / 2) 1) (Z.max (height / 2) 1)
        (if mip_depth then Z.max (depth / 2) 1 else depth) levels mip_depth bpp total
  end.

Definition checked_mip_chain_bytes (width height depth levels : Z) (mip_depth : bool) (bpp : Z) : res Z :=
  mip_chain width height depth (Z.to_nat levels) mip_depth bpp 0.

Definition member (x : Z) (l : list Z) : bool := existsb (Z.eqb x) l.

Definition format_components (format : Z) : option Z :=
  if member format [0x1906; 0x1909; 0x1902; 0x1903; 0x8D94] then Some 1
  else if member format [0x190A; 0x8227; 0x8228] then Some 2
  else if member format [0x1907; 0x8C40; 0x8D98] then Some 3
  else if member format [0x1908; 0x8C42; 0x8D99] then Some 4
  else if format =? 0x84F9 then Some 1
  else None.

Definition upload_format_bytes (format ty : Z) : option Z :=
  if (ty =? 0x8363) && (format =? 0x1907) then Some 2
  else if member ty [0x8033; 0x8034] && (format =? 0x1908) then Some 2
  else if (ty =? 0x8368) && (format =? 0x1908) then Some 4
  else if (ty =? 0x84FA) && (format =? 0x84F9) then Some 4
  else if (ty =? 0x8DAD) && (format =? 0x84F9) then Some 8
  else if member ty [0x1401; 0x1400] then
    fmap (λ c, if c =? 3 then 4 else c) (format_components format)
  else if member ty [0x1403; 0x1402; 0x140B; 0x8D61] then
    fmap (λ c, if c =? 3 then 8 else c * 2) (format_components format)
  else if member ty [0x1405; 0x1404; 0x1406] then
    fmap (λ c, if c =? 3 then 16 else c * 4) (format_components format)
  else None.

(** The enumerants are OpenGL ES 3.0's, in the order the code lists them. *)
Definition sized_internal_format_bytes (format : Z) : option Z :=
  if member format [0x8229; 0x8F94; 0x8231; 0x8232; 0x8D48] then Some 1
  else if member format [0x822D; 0x8233; 0x8234; 0x822B; 0x8F95; 0x8237; 0x8238; 0x8D62; 0x8056; 0x8057;
                         0x81A5] then Some 2
  else if member format [0x822E; 0x8235; 0x8236; 0x822F; 0x8239; 0x823A; 0x8051; 0x8F96; 0x8C41; 0x8058;
                         0x8F97; 0x8C43; 0x8C3A; 0x8C3D; 0x8D8F; 0x8D7D; 0x8D8E; 0x8D7C; 0x8059; 0x906F;
                         0x81A6; 0x8CAC; 0x88F0; 0x84F9] then Some 4
  else if member format [0x8230; 0x823B; 0x823C; 0x881B; 0x8D89; 0x8D77; 0x881A; 0x8D88; 0x8D76; 0x8CAD]
    then Some 8
  else if member format [0x8815; 0x8D83; 0x8D71; 0x8814; 0x8D82; 0x8D70] then Some 16
  else None.

Definition tex_image_bytes_per_pixel (internal_format format ty : Z) : res Z :=
  if internal_format <? 0 then Fail InvalidEnum else
  match sized_internal_format_bytes internal_format with
  | Some n => Ret n
  | None =>
      if negb (internal_format =? format) then Fail InvalidOperation
      else ok_or (upload_format_bytes format ty) InvalidEnum
  end.

(** * Admission *)

Definition prepare_transition (canvas old_bytes new_bytes : Z) (k : PreparedKind) (b : WebGlGpuBudget)
    (u : ProcessUsage) : res (PreparedGpuAllocation * ProcessUsage) :=
  let context_bytes := default 0 (contexts b !! canvas) in
  if context_bytes <? old_bytes then Fail OutOfMemory else
  match u64_checked_add (context_bytes - old_bytes) new_bytes with
  | Some next =>
      if next <=? max_context_bytes (limits b) then
        '(g, u) ← try_grow (Z.max (new_bytes - old_bytes) 0) u;
        Ret ({| canvas_id := canvas; old_object_bytes := old_bytes; new_object_bytes := new_bytes;
                kind := k; process_growth := g |}, u)
      else Fail OutOfMemory
  | None => Fail OutOfMemory
  end.

(** What [prepare_tex_image_2d] and [prepare_tex_image_3d] do once the size is
    known; [reserved] answers the [try_reserve] of a new image's slot. *)
Definition prepare_image (reserved : bool) (canvas target level n : Z) (b : WebGlGpuBudget) (u : ProcessUsage) :
    res (PreparedGpuAllocation * ProcessUsage) :=
  texture ← bound_texture canvas target b;
  let subresource := (target, level) in
  record ← ok_or (textures b !! texture) InvalidOperation;
  if negb (tex_owner record =? canvas) then Fail InvalidOperation else
  match storage record with
  | Immutable _ => Fail InvalidOperation
  | Mutable images =>
      if negb reserved && bool_decide (images !! subresource = None) then Fail OutOfMemory else
      let old_bytes := map_total images in
      if u64_max <? old_bytes then Fail OutOfMemory else
      let old_subresource := default 0 (images !! subresource) in
      if old_bytes <? old_subresource then Fail OutOfMemory else
      new_bytes ← ok_or (u64_checked_add (old_bytes - old_subresource) n) OutOfMemory;
      prepare_transition canvas old_bytes new_bytes (TextureImage texture subresource n) b u
  end.

Definition prepare_tex_image_2d (reserved : bool)
    (canvas target level internal_format width height border format ty : Z) (b : WebGlGpuBudget)
    (u : ProcessUsage) : res (PreparedGpuAllocation * ProcessUsage) :=
  '(width, height, level) ←
    validate_image_2d_dimensions target level width height border (max_2d_dimension (limits b));
  bpp ← tex_image_bytes_per_pixel internal_format format ty;
  n ← checked_texel_bytes [width; height] bpp;
  prepare_image reserved canvas target level n b u.

Definition prepare_tex_image_3d (reserved : bool)
    (canvas target level internal_format width height depth border format ty : Z) (b : WebGlGpuBudget)
    (u : ProcessUsage) : res (PreparedGpuAllocation * ProcessUsage) :=
  '(width, height, depth, level) ←
    validate_image_3d_dimensions target level width height depth border (limits b);
  bpp ← tex_image_bytes_per_pixel internal_format format ty;
  n ← checked_texel_bytes [width; height; depth] bpp;
  prepare_image reserved canvas target level n b u.

(** What the two immutable allocations do once the size is known.  [byte_len]
    is a plain sum: it panics past [u64]. *)
Definition prepare_storage (canvas target n : Z) (b : WebGlGpuBudget) (u : ProcessUsage) :
    res (PreparedGpuAllocation * ProcessUsage) :=
  texture ← bound_texture canvas target b;
  record ← ok_or (textures b !! texture) InvalidOperation;
  if negb (tex_owner record =? canvas) then Fail InvalidOperation else
  match storage record with
  | Immutable _ => Fail InvalidOperation
  | Mutable images =>
      let old_bytes := map_total images in
      if u64_max <? old_bytes then Panic else
      prepare_transition canvas old_bytes n (TextureImmutable texture n) b u
  end.

Definition prepare_tex_storage_2d (canvas target levels internal_format width height : Z)
    (b : WebGlGpuBudget) (u : ProcessUsage) : res (PreparedGpuAllocation * ProcessUsage) :=
  if negb (target =? GL_TEXTURE_2D) && negb (target =? GL_TEXTURE_CUBE_MAP) then Fail InvalidEnum else
  '(width, height, levels) ←
    validate_storage_dimensions levels width height (max_2d_dimension (limits b));
  bpp ← ok_or (sized_internal_format_bytes internal_format) InvalidEnum;
  let faces := if target =? GL_TEXTURE_CUBE_MAP then 6 else 1 in
  chain ← checked_mip_chain_bytes width height 1 levels false bpp;
  n ← ok_or (u64_checked_mul chain faces) OutOfMemory;
  prepare_storage canvas target n b u.

Definition prepare_tex_storage_3d (canvas target levels internal_format width height depth : Z)
    (b : WebGlGpuBudget) (u : ProcessUsage) : res (PreparedGpuAllocation * ProcessUsage) :=
  if negb (target =? GL_TEXTURE_3D) && negb (target =? GL_TEXTURE_2D_ARRAY) then Fail InvalidEnum else
  '(width, height, depth, levels) ←
    validate_storage_3d_dimensions target levels width height depth (limits b);
  bpp ← ok_or (sized_internal_format_bytes internal_format) InvalidEnum;
  n ← checked_mip_chain_bytes width height depth levels (target =? GL_TEXTURE_3D) bpp;
  prepare_storage canvas target n b u.

Definition prepare_renderbuffer_storage (canvas target internal_format width height samples : Z)
    (b : WebGlGpuBudget) (u : ProcessUsage) : res (PreparedGpuAllocation * ProcessUsage) :=
  if negb (target =? GL_RENDERBUFFER) then Fail InvalidEnum else
  if (width <? 0) || (height <? 0) || (samples <? 0) then Fail InvalidValue else
  if (max_2d_dimension (limits b) <? width) || (max_2d_dimension (limits b) <? height) ||
     (max_samples (limits b) <? samples) then Fail InvalidValue else
  bpp ← ok_or (sized_internal_format_bytes internal_format) InvalidEnum;
  n ← checked_texel_bytes [width; height; Z.max samples 1] bpp;
  rb ← ok_or (get (bindings b) canvas ≫= renderbuffer) InvalidOperation;
  record ← ok_or (renderbuffers b !! rb) InvalidOperation;
  if negb (rb_owner record =? canvas) then Fail InvalidOperation else
  prepare_transition canvas (rb_bytes record) n (Renderbuffer rb n) b u.

(** * Commit and release *)

Definition set_storage (texture : Z) (s : TextureStorage) (r : TextureRecord) (b : WebGlGpuBudget) :
    WebGlGpuBudget :=
  b <| textures := <[texture := {| tex_owner := tex_owner r; storage := s |}]> (textures b) |>.

(** The three [expect]s and the [panic!] of [commit] are panics. *)
Definition commit_kind (k : PreparedKind) (b : WebGlGpuBudget) : res WebGlGpuBudget :=
  match k with
  | TextureImage texture subresource n =>
      match textures b !! texture with
      | None => Panic
      | Some record =>
          match storage record with
          | Mutable images => Ret (set_storage texture (Mutable (<[subresource := n]> images)) record b)
          | Immutable _ => Panic
          end
      end
  | TextureImmutable texture n =>
      match textures b !! texture with
      | None => Panic
      | Some record => Ret (set_storage texture (Immutable n) record b)
      end
  | Renderbuffer rb n =>
      match renderbuffers b !! rb with
      | None => Panic
      | Some record =>
          Ret (b <| renderbuffers := <[rb := {| rb_owner := rb_owner record; rb_bytes := n |}]> (renderbuffers b) |>)
      end
  end.

Definition commit (p : PreparedGpuAllocation) (b : WebGlGpuBudget) (u : ProcessUsage) :
    res (WebGlGpuBudget * ProcessUsage) :=
  let context := default 0 (contexts b !! canvas_id p) in
  if context <? old_object_bytes p then Panic else
  match u64_checked_add (context - old_object_bytes p) (new_object_bytes p) with
  | None => Panic
  | Some next =>
      let b := b <| contexts := <[canvas_id p := next]> (contexts b) |> in
      b ← commit_kind (kind p) b;
      u ← (if new_object_bytes p <? old_object_bytes p
           then release (old_object_bytes p - new_object_bytes p) u else Ret u);
      u ← growth_drop (growth_commit (process_growth p)) u;
      Ret (b, u)
  end.

(** The token dropped without a commit: the driver call failed. *)
Definition rollback (p : PreparedGpuAllocation) (u : ProcessUsage) : res ProcessUsage :=
  growth_drop (process_growth p) u.

Definition release_context_bytes (canvas n : Z) (b : WebGlGpuBudget) (u : ProcessUsage) :
    res (WebGlGpuBudget * ProcessUsage) :=
  if n =? 0 then Ret (b, u) else
  match contexts b !! canvas with
  | None => Panic
  | Some context =>
      if context <? n then Panic else
      u ← release n u;
      Ret (b <| contexts := <[canvas := context - n]> (contexts b) |>, u)
  end.

Definition delete_texture (texture : Z) (b : WebGlGpuBudget) (u : ProcessUsage) :
    res (Z * (WebGlGpuBudget * ProcessUsage)) :=
  match textures b !! texture with
  | None => Ret (0, (b, u))
  | Some record =>
      let b := b <| textures := delete texture (textures b) |>
                 <| bindings := values_map (λ s, s <| bound_textures :=
                      ledger_forget_texture texture (bound_textures s) |>) (bindings b) |> in
      let n := byte_len (storage record) in
      if u64_max <? n then Panic else
      bu ← release_context_bytes (tex_owner record) n b u;
      Ret (n, bu)
  end.

Definition delete_renderbuffer (rb : Z) (b : WebGlGpuBudget) (u : ProcessUsage) :
    res (Z * (WebGlGpuBudget * ProcessUsage)) :=
  match renderbuffers b !! rb with
  | None => Ret (0, (b, u))
  | Some record =>
      let b := b <| renderbuffers := delete rb (renderbuffers b) |>
                 <| bindings := values_map (λ s, if bool_decide (renderbuffer s = Some rb)
                      then s <| renderbuffer := None |> else s) (bindings b) |> in
      bu ← release_context_bytes (rb_owner record) (rb_bytes record) b u;
      Ret (rb_bytes record, bu)
  end.

Definition release_context (canvas : Z) (b : WebGlGpuBudget) (u : ProcessUsage) :
    res (Z * (WebGlGpuBudget * ProcessUsage)) :=
  let n := default 0 (contexts b !! canvas) in
  let b := b <| bindings := (keyed_remove (bindings b) canvas).2 |>
             <| textures := filter (λ kv, tex_owner kv.2 ≠ canvas) (textures b) |>
             <| renderbuffers := filter (λ kv, rb_owner kv.2 ≠ canvas) (renderbuffers b) |>
             <| contexts := delete canvas (contexts b) |> in
  u ← release n u;
  Ret (n, (b, u)).

(** [clear], which [Drop] runs too. *)
Definition budget_clear (b : WebGlGpuBudget) (u : ProcessUsage) : res (Z * (WebGlGpuBudget * ProcessUsage)) :=
  let n := map_total (contexts b) in
  if u64_max <? n then Panic else
  u ← release n u;
  Ret (n, (with_parts (limits b), u)).

(** * Sums over maps *)

Section map_sum.
Context {K V : Type} `{Countable K} (f : V → Z).
Implicit Types (m : gmap K V).

Lemma map_sum_empty : map_sum f (∅ : gmap K V) = 0.
Proof. apply map_fold_empty. Qed.

Lemma map_sum_insert m k v : m !! k = None → map_sum f (<[k := v]> m) = f v + map_sum f m.
Proof. intros. unfold map_sum. rewrite map_fold_insert_L; [done| |done]. intros. lia. Qed.

Lemma map_sum_take m k v : m !! k = Some v → map_sum f m = f v + map_sum f (delete k m).
Proof.
  intros Hk. rewrite <- (insert_delete_id m k v Hk) at 1. apply map_sum_insert. apply lookup_delete_eq.
Qed.

Lemma map_sum_replace m k v w :
  m !! k = Some v → map_sum f (<[k := w]> m) = map_sum f m - f v + f w.
Proof.
  intros Hk. rewrite (map_sum_take m k v Hk), <- insert_delete_eq.
  rewrite map_sum_insert by apply lookup_delete_eq. lia.
Qed.

Lemma map_sum_put m k w :
  map_sum f (<[k := w]> m) = map_sum f m - match m !! k with Some v => f v | None => 0 end + f w.
Proof.
  destruct (m !! k) as [v|] eqn:E; [by apply map_sum_replace|]. rewrite map_sum_insert by done. lia.
Qed.

Lemma map_sum_nonneg m : (∀ k v, m !! k = Some v → 0 ≤ f v) → 0 ≤ map_sum f m.
Proof.
  induction m as [|k v m Hk IH] using map_ind; intros Hn; [by rewrite map_sum_empty|].
  rewrite map_sum_insert by done. pose proof (Hn k v (lookup_insert_eq _ _ _)).
  assert (0 ≤ map_sum f m); [|lia]. apply IH. intros j w Hj. apply (Hn j).
  rewrite lookup_insert_ne; [done|congruence].
Qed.

Lemma map_sum_in m k v : (∀ j w, m !! j = Some w → 0 ≤ f w) → m !! k = Some v → f v ≤ map_sum f m.
Proof.
  intros Hn Hk. rewrite (map_sum_take m k v Hk).
  assert (0 ≤ map_sum f (delete k m)); [|lia]. apply map_sum_nonneg.
  intros j w Hj. apply lookup_delete_Some in Hj as [_ Hj]. by apply (Hn j).
Qed.

Lemma map_sum_filter m (P : K * V → Prop) `{∀ x, Decision (P x)} :
  (∀ k v, m !! k = Some v → ¬ P (k, v) → f v = 0) → map_sum f (filter P m) = map_sum f m.
Proof.
  induction m as [|k v m Hk IH] using map_ind; intros Hz; [done|].
  assert (IH' : map_sum f (filter P m) = map_sum f m).
  { apply IH. intros j w Hj. apply (Hz j). rewrite lookup_insert_ne; [done|congruence]. }
  rewrite map_sum_insert by done. destruct (decide (P (k, v))) as [HP|HP].
  - rewrite map_filter_insert_True by done. rewrite map_sum_insert; [by rewrite IH'|].
    apply map_lookup_filter_None. by left.
  - rewrite map_filter_insert_False, delete_id by done.
    rewrite (Hz k v (lookup_insert_eq _ _ _) HP). lia.
Qed.

Lemma map_sum_zero m : (∀ k v, m !! k = Some v → f v = 0) → map_sum f m = 0.
Proof.
  induction m as [|k v m Hk IH] using map_ind; intros Hz; [apply map_sum_empty|].
  rewrite map_sum_insert, (Hz k v (lookup_insert_eq _ _ _)) by done. rewrite IH; [done|].
  intros j w Hj. apply (Hz j). rewrite lookup_insert_ne; [done|congruence].
Qed.
End map_sum.

(** * What the budget accounts for *)

(** The bytes of the objects a canvas owns. *)
Definition texture_bytes (canvas : Z) (r : TextureRecord) : Z :=
  if tex_owner r =? canvas then byte_len (storage r) else 0.
Definition renderbuffer_bytes (canvas : Z) (r : RenderbufferRecord) : Z :=
  if rb_owner r =? canvas then rb_bytes r else 0.
Definition owned_bytes (canvas : Z) (b : WebGlGpuBudget) : Z :=
  map_sum (texture_bytes canvas) (textures b) + map_sum (renderbuffer_bytes canvas) (renderbuffers b).

Definition storage_ok (s : TextureStorage) : Prop :=
  match s with
  | Mutable images => ∀ k n, images !! k = Some n → 0 ≤ n
  | Immutable n => 0 ≤ n
  end.

(** The sizes are natural, every object's owner has an account, an account is
    the sum of its objects, and no account exceeds the limit. *)
Record budget_ok (b : WebGlGpuBudget) : Prop := {
  ok_limits : 0 ≤ max_context_bytes (limits b) ≤ u64_max;
  ok_bindings : keyed_wf (bindings b);
  ok_textures t r : textures b !! t = Some r → storage_ok (storage r) ∧ is_Some (contexts b !! tex_owner r);
  ok_renderbuffers t r : renderbuffers b !! t = Some r → 0 ≤ rb_bytes r ∧ is_Some (contexts b !! rb_owner r);
  ok_accounts c n : contexts b !! c = Some n → n = owned_bytes c b ∧ n ≤ max_context_bytes (limits b);
}.

Lemma byte_len_nonneg s : storage_ok s → 0 ≤ byte_len s.
Proof. destruct s as [images|n]; cbn; [|done]. intros Hs. by apply map_sum_nonneg. Qed.

Lemma texture_bytes_nonneg c b t r : budget_ok b → textures b !! t = Some r → 0 ≤ texture_bytes c r.
Proof.
  intros Hb Ht. unfold texture_bytes. case_match; [|done]. apply byte_len_nonneg. by eapply ok_textures.
Qed.
Lemma renderbuffer_bytes_nonneg c b t r : budget_ok b → renderbuffers b !! t = Some r → 0 ≤ renderbuffer_bytes c r.
Proof. intros Hb Ht. unfold renderbuffer_bytes. case_match; [|done]. by eapply ok_renderbuffers. Qed.

Lemma owned_nonneg c b : budget_ok b → 0 ≤ owned_bytes c b.
Proof.
  intros Hb. apply Z.add_nonneg_nonneg; apply map_sum_nonneg; intros k r Hk;
    [by eapply texture_bytes_nonneg|by eapply renderbuffer_bytes_nonneg].
Qed.

Lemma account_nonneg b c n : budget_ok b → contexts b !! c = Some n → 0 ≤ n.
Proof. intros Hb Hc. destruct (ok_accounts b Hb c n Hc) as [-> _]. by apply owned_nonneg. Qed.

Lemma texture_owned b t r :
  budget_ok b → textures b !! t = Some r →
  0 ≤ byte_len (storage r) ≤ owned_bytes (tex_owner r) b.
Proof.
  intros Hb Ht. split; [apply byte_len_nonneg; by eapply ok_textures|].
  assert (H1 : texture_bytes (tex_owner r) r ≤ map_sum (texture_bytes (tex_owner r)) (textures b)).
  { apply (map_sum_in _ _ t); [|done]. intros. by eapply texture_bytes_nonneg. }
  assert (H2 : 0 ≤ map_sum (renderbuffer_bytes (tex_owner r)) (renderbuffers b)).
  { apply map_sum_nonneg. intros. by eapply renderbuffer_bytes_nonneg. }
  unfold texture_bytes in H1 at 1. rewrite Z.eqb_refl in H1. unfold owned_bytes. lia.
Qed.

Lemma renderbuffer_owned b t r :
  budget_ok b → renderbuffers b !! t = Some r → 0 ≤ rb_bytes r ≤ owned_bytes (rb_owner r) b.
Proof.
  intros Hb Ht. split; [by eapply ok_renderbuffers|].
  assert (H1 : renderbuffer_bytes (rb_owner r) r ≤ map_sum (renderbuffer_bytes (rb_owner r)) (renderbuffers b)).
  { apply (map_sum_in _ _ t); [|done]. intros. by eapply renderbuffer_bytes_nonneg. }
  assert (H2 : 0 ≤ map_sum (texture_bytes (rb_owner r)) (textures b)).
  { apply map_sum_nonneg. intros. by eapply texture_bytes_nonneg. }
  unfold renderbuffer_bytes in H1 at 1. rewrite Z.eqb_refl in H1. unfold owned_bytes. lia.
Qed.

(** * Sizes never panic and are natural *)

Lemma u64_checked_add_Some a b n : u64_checked_add a b = Some n → n = a + b ∧ n ≤ u64_max.
Proof. unfold u64_checked_add. case_match; [|done]. intros [= <-]. bool_to_prop. done. Qed.

Definition natural (m : res Z) : Prop := match m with Ret n => 0 ≤ n | Fail _ => True | _ => False end.

Lemma checked_texel_bytes_natural ds bpp :
  0 ≤ bpp → Forall (λ d, 0 ≤ d) ds → natural (checked_texel_bytes ds bpp).
Proof.
  revert bpp. induction ds as [|d ds IH]; intros bpp Hb Hds; cbn; [done|].
  apply Forall_cons in Hds as [Hd Hds]. unfold u64_checked_mul. case_match; [|done].
  case_match; [|done]. simplify_eq. apply IH; [nia|done].
Qed.

Lemma mip_chain_natural w h d levels md bpp total :
  0 ≤ bpp → 0 ≤ total → 0 ≤ w → 0 ≤ h → 0 ≤ d → natural (mip_chain w h d levels md bpp total).
Proof.
  revert w h d total. induction levels as [|levels IH]; intros w h d total; intros; cbn [mip_chain]; [done|].
  pose proof (checked_texel_bytes_natural [w; h; d] bpp ltac:(done) ltac:(by repeat constructor)) as Hl.
  destruct (checked_texel_bytes [w; h; d] bpp) as [level| | |]; try done. cbn [mbind outcome_bind natural] in *.
  destruct (u64_checked_add total level) as [n|] eqn:En; [|exact I]. cbn.
  apply u64_checked_add_Some in En as [-> _]. apply IH; try lia. case_match; lia.
Qed.

Lemma sized_natural f n : sized_internal_format_bytes f = Some n → 0 ≤ n.
Proof. unfold sized_internal_format_bytes. repeat case_match; intros; simplify_eq; lia. Qed.

Lemma format_components_natural f n : format_components f = Some n → 0 ≤ n.
Proof. unfold format_components. repeat case_match; intros; simplify_eq; lia. Qed.

Lemma upload_natural f ty n : upload_format_bytes f ty = Some n → 0 ≤ n.
Proof.
  unfold upload_format_bytes. pose proof (format_components_natural f) as Hc.
  destruct (format_components f) as [c|]; [specialize (Hc c eq_refl)|clear Hc];
    repeat case_match; intros; simplify_eq/=; repeat case_match; lia.
Qed.

Lemma bytes_per_pixel_natural i f ty : natural (tex_image_bytes_per_pixel i f ty).
Proof.
  unfold tex_image_bytes_per_pixel. case_match; [done|].
  destruct (sized_internal_format_bytes i) as [n|] eqn:E; [by eapply sized_natural|].
  case_match; [done|]. destruct (upload_format_bytes f ty) as [n|] eqn:Eu; [by eapply upload_natural|done].
Qed.

(** * Admission: the token describes the object it will replace *)

Definition in_flight (p : PreparedGpuAllocation) : Z :=
  if armed (process_growth p) then grown (process_growth p) else 0.

Definition names_object (canvas old new : Z) (k : PreparedKind) (b : WebGlGpuBudget) : Prop :=
  match k with
  | TextureImage t s n => ∃ images, 0 ≤ n ∧
      textures b !! t = Some {| tex_owner := canvas; storage := Mutable images |} ∧
      old = map_total images ∧ new = old - default 0 (images !! s) + n
  | TextureImmutable t n => ∃ images, 0 ≤ n ∧
      textures b !! t = Some {| tex_owner := canvas; storage := Mutable images |} ∧
      old = map_total images ∧ new = n
  | Renderbuffer r n => 0 ≤ n ∧
      renderbuffers b !! r = Some {| rb_owner := canvas; rb_bytes := old |} ∧ new = n
  end.

Record pending_ok (p : PreparedGpuAllocation) (b : WebGlGpuBudget) : Prop := {
  pend_object : names_object (canvas_id p) (old_object_bytes p) (new_object_bytes p) (kind p) b;
  pend_account c : contexts b !! canvas_id p = Some c →
    old_object_bytes p ≤ c ∧ c - old_object_bytes p + new_object_bytes p ≤ max_context_bytes (limits b);
  pend_growth : in_flight p = Z.max (new_object_bytes p - old_object_bytes p) 0;
}.

Definition usage_ok (u : ProcessUsage) : Prop := 0 ≤ bytes u ≤ max_bytes u ∧ max_bytes u ≤ u64_max.

(** The process grew by what is in flight, and stayed within its limit. *)
Definition grew (u u' : ProcessUsage) (n : Z) : Prop :=
  bytes u' = bytes u + n ∧ max_bytes u' = max_bytes u ∧ usage_ok u'.

Definition admitted (m : res (PreparedGpuAllocation * ProcessUsage)) (b : WebGlGpuBudget) (u : ProcessUsage) : Prop :=
  match m with
  | Ret (p, u') => pending_ok p b ∧ grew u u' (in_flight p)
  | Fail _ => True
  | _ => False
  end.

Lemma try_grow_spec n u :
  usage_ok u → 0 ≤ n →
  match try_grow n u with
  | Ret (g, u') => grew u u' n ∧ (if armed g then grown g else 0) = n
  | Fail _ => True
  | _ => False
  end.
Proof.
  intros (Hu & Hm) Hn. unfold try_grow. destruct (Z.eqb_spec n 0) as [->|].
  { cbn. split; [|done]. split; [lia|]. split; [done|]. by split. }
  destruct (u64_checked_add (bytes u) n) as [next|] eqn:En; [|exact I].
  apply u64_checked_add_Some in En as [-> _]. destruct (Z.leb_spec (bytes u + n) (max_bytes u)); [|exact I].
  split; [|done]. split; [done|]. split; [done|]. split; cbn; lia.
Qed.

Lemma release_spec n u :
  usage_ok u → 0 ≤ n ≤ bytes u → ∃ u', release n u = Ret u' ∧ grew u u' (- n).
Proof.
  intros (Hu & Hm) Hn. unfold release. destruct (Z.eqb_spec n 0) as [->|].
  { exists u. split; [done|]. split; [lia|]. split; [done|]. by split. }
  rewrite (proj2 (Z.leb_le _ _)) by lia. eexists. split; [done|].
  split; [cbn; lia|]. split; [done|]. split; cbn; lia.
Qed.

Lemma names_object_natural canvas old new k b :
  budget_ok b → names_object canvas old new k b → 0 ≤ old ∧ 0 ≤ new.
Proof.
  intros Hb. destruct k as [t s n|t n|r n]; cbn.
  - intros (images & Hn & Ht & -> & ->). destruct (ok_textures b Hb _ _ Ht) as [Hs _]. cbn in Hs.
    pose proof (map_sum_nonneg id images Hs). split; [done|].
    destruct (images !! s) as [x|] eqn:Ex; cbn; [|lia].
    pose proof (map_sum_in id images s x Hs Ex). cbn in *. lia.
  - intros (images & Hn & Ht & -> & ->). destruct (ok_textures b Hb _ _ Ht) as [Hs _]. cbn in Hs.
    split; [by apply map_sum_nonneg|done].
  - intros (Hn & Hr & ->). destruct (ok_renderbuffers b Hb _ _ Hr). by split.
Qed.

Lemma prepare_transition_admitted canvas old new k b u :
  budget_ok b → usage_ok u → names_object canvas old new k b →
  admitted (prepare_transition canvas old new k b u) b u.
Proof.
  intros Hb Hu Hk. destruct (names_object_natural _ _ _ _ _ Hb Hk) as [Ho Hn].
  unfold prepare_transition. destruct (Z.ltb_spec (default 0 (contexts b !! canvas)) old); [exact I|].
  destruct (u64_checked_add _ new) as [next|] eqn:En; [|exact I].
  apply u64_checked_add_Some in En as [-> _].
  destruct (Z.leb_spec (default 0 (contexts b !! canvas) - old + new) (max_context_bytes (limits b))); [|exact I].
  pose proof (try_grow_spec (Z.max (new - old) 0) u Hu ltac:(lia)) as Hg.
  destruct (try_grow _ u) as [[g u']| | |]; try done. cbn [mbind outcome_bind admitted].
  destruct Hg as [Hg Ha]. split; [|by unfold in_flight; cbn; rewrite Ha].
  split; cbn; [done| |done]. intros c Hc. rewrite Hc in *. cbn in *. lia.
Qed.

Lemma admitted_bind {A} (m : res A) f b u :
  safe m → (∀ a, m = Ret a → admitted (f a) b u) → admitted (mbind f m) b u.
Proof. destruct m; cbn; auto. Qed.

Lemma prepare_image_admitted reserved canvas target level n b u :
  budget_ok b → usage_ok u → 0 ≤ n → admitted (prepare_image reserved canvas target level n b u) b u.
Proof.
  intros Hb Hu Hn. unfold prepare_image. apply admitted_bind.
  { unfold bound_texture. repeat (apply safe_bind; [apply safe_ok_or|intros]). apply safe_ok_or. }
  intros t _. cbn zeta. apply admitted_bind; [apply safe_ok_or|]. intros r Hr.
  destruct (textures b !! t) as [r'|] eqn:Et; [|done]. injection Hr as ->.
  destruct (Z.eqb_spec (tex_owner r) canvas) as [<-|]; [cbn|done].
  destruct r as [owner [images|m]]; cbn; [|done].
  destruct (negb reserved && _); [exact I|]. destruct (u64_max <? _); [exact I|].
  destruct (map_total images <? _); [exact I|].
  destruct (u64_checked_add _ n) as [new|] eqn:En; [|exact I]. cbn. apply u64_checked_add_Some in En as [-> _].
  apply prepare_transition_admitted; [done..|]. exists images. split_and!; try done; lia.
Qed.

(** A live texture's bytes fit the context's limit, so [byte_len] cannot overflow. *)
Lemma byte_len_fits b t r : budget_ok b → textures b !! t = Some r → 0 ≤ byte_len (storage r) ≤ u64_max.
Proof.
  intros Hb Ht. pose proof (texture_owned b t r Hb Ht). destruct (ok_textures b Hb t r Ht) as [_ [n Hn]].
  destruct (ok_accounts b Hb _ _ Hn) as [-> Hm]. pose proof (ok_limits b Hb). lia.
Qed.

Lemma prepare_storage_admitted canvas target n b u :
  budget_ok b → usage_ok u → 0 ≤ n → admitted (prepare_storage canvas target n b u) b u.
Proof.
  intros Hb Hu Hn. unfold prepare_storage. apply admitted_bind.
  { unfold bound_texture. repeat (apply safe_bind; [apply safe_ok_or|intros]). apply safe_ok_or. }
  intros t _. apply admitted_bind; [apply safe_ok_or|]. intros r Hr.
  destruct (textures b !! t) as [r'|] eqn:Et; [|done]. injection Hr as ->.
  pose proof (byte_len_fits b t r Hb Et) as Hfit.
  destruct (Z.eqb_spec (tex_owner r) canvas) as [<-|]; [cbn|done].
  destruct r as [owner [images|m]]; cbn in *; [|done]. rewrite (proj2 (Z.ltb_ge _ _)) by lia.
  apply prepare_transition_admitted; [done..|]. by exists images.
Qed.

(** ** The five allocation commands *)

Inductive AllocationRequest :=
  | TexImage2d (reserved : bool) (canvas target level internal_format width height border format ty : Z)
  | TexStorage2d (canvas target levels internal_format width height : Z)
  | TexImage3d (reserved : bool) (canvas target level internal_format width height depth border format ty : Z)
  | TexStorage3d (canvas target levels internal_format width height depth : Z)
  | RenderbufferStorage (canvas target internal_format width height samples : Z).

Definition prepare (q : AllocationRequest) : WebGlGpuBudget → ProcessUsage →
    res (PreparedGpuAllocation * ProcessUsage) :=
  match q with
  | TexImage2d reserved c t l i w h bd f ty => prepare_tex_image_2d reserved c t l i w h bd f ty
  | TexStorage2d c t l i w h => prepare_tex_storage_2d c t l i w h
  | TexImage3d reserved c t l i w h d bd f ty => prepare_tex_image_3d reserved c t l i w h d bd f ty
  | TexStorage3d c t l i w h d => prepare_tex_storage_3d c t l i w h d
  | RenderbufferStorage c t i w h s => prepare_renderbuffer_storage c t i w h s
  end.

(** A continuation after a size is computed, or a check is made. *)
Lemma admitted_size (m : res Z) f b u :
  natural m → (∀ n, 0 ≤ n → admitted (f n) b u) → admitted (mbind f m) b u.
Proof. destruct m; cbn; auto. Qed.

Lemma admitted_valid {A} (m : res A) (P : A → Prop) f b u :
  match m with Ret a => P a | Fail _ => True | _ => False end →
  (∀ a, P a → admitted (f a) b u) → admitted (mbind f m) b u.
Proof. destruct m; cbn; auto. Qed.

Lemma admitted_if_fail (c : bool) e m b u : admitted m b u → admitted (if c then Fail e else m) b u.
Proof. by destruct c. Qed.

Lemma image_2d_valid t l w h bd m :
  match validate_image_2d_dimensions t l w h bd m with
  | Ret (w, h, _) => 0 ≤ w ∧ 0 ≤ h | Fail _ => True | _ => False end.
Proof.
  unfold validate_image_2d_dimensions. destruct (negb _ && _); [done|].
  destruct ((_ || _) || _) eqn:E; [done|]. bool_to_prop.
  destruct (_ <=? _); [done|]. destruct (_ || _); [done|]. by destruct (_ && _).
Qed.

Lemma storage_2d_valid l w h m :
  match validate_storage_dimensions l w h m with
  | Ret (w, h, _) => 0 ≤ w ∧ 0 ≤ h | Fail _ => True | _ => False end.
Proof.
  unfold validate_storage_dimensions. destruct ((_ || _) || _) eqn:E; [done|]. bool_to_prop.
  destruct (_ || _); [done|]. destruct (_ <? _); [done|]. lia.
Qed.

Lemma image_3d_valid t l w h d bd m :
  match validate_image_3d_dimensions t l w h d bd m with
  | Ret (w, h, d, _) => 0 ≤ w ∧ 0 ≤ h ∧ 0 ≤ d | Fail _ => True | _ => False end.
Proof.
  unfold validate_image_3d_dimensions. destruct (negb _ && _); [done|].
  destruct ((((_ || _) || _) || _) || _) eqn:E; [done|]. bool_to_prop. cbn zeta.
  destruct (_ <=? _); [done|]. by destruct ((_ || _) || _).
Qed.

Lemma storage_3d_valid t l w h d m :
  match validate_storage_3d_dimensions t l w h d m with
  | Ret (w, h, d, _) => 0 ≤ w ∧ 0 ≤ h ∧ 0 ≤ d | Fail _ => True | _ => False end.
Proof.
  unfold validate_storage_3d_dimensions. destruct (((_ || _) || _) || _) eqn:E; [done|]. bool_to_prop.
  destruct (if t =? GL_TEXTURE_3D then _ else _) as [[xy dp] basis].
  destruct ((_ || _) || _); [done|]. destruct (_ <? _); [done|]. lia.
Qed.

Lemma ok_or_natural o e : (∀ n, o = Some n → 0 ≤ n) → natural (ok_or o e).
Proof. destruct o; cbn; auto. Qed.

Lemma prepare_admitted q b u :
  budget_ok b → usage_ok u → admitted (prepare q b u) b u.
Proof.
  intros Hb Hu. destruct q; cbn [prepare].
  - unfold prepare_tex_image_2d. apply (admitted_valid _ _ _ _ _ (image_2d_valid _ _ _ _ _ _)).
    intros [[w h] l] [Hw Hh]. apply admitted_size; [apply bytes_per_pixel_natural|]. intros bpp Hbpp.
    apply admitted_size; [apply checked_texel_bytes_natural; [done|by repeat constructor]|].
    intros n Hn. by apply prepare_image_admitted.
  - unfold prepare_tex_storage_2d. apply admitted_if_fail.
    apply (admitted_valid _ _ _ _ _ (storage_2d_valid _ _ _ _)). intros [[w h] l] [Hw Hh].
    apply admitted_size; [apply ok_or_natural, sized_natural|]. intros bpp Hbpp. cbn zeta.
    apply admitted_size; [by apply mip_chain_natural|]. intros chain Hchain.
    apply admitted_size; [|intros n Hn; by apply prepare_storage_admitted].
    apply ok_or_natural. intros n. unfold u64_checked_mul. destruct (_ <=? _); [|done].
    intros [= <-]. case_match; lia.
  - unfold prepare_tex_image_3d. apply (admitted_valid _ _ _ _ _ (image_3d_valid _ _ _ _ _ _ _)).
    intros [[[w h] d] l] (Hw & Hh & Hd). apply admitted_size; [apply bytes_per_pixel_natural|]. intros bpp Hbpp.
    apply admitted_size; [apply checked_texel_bytes_natural; [done|by repeat constructor]|].
    intros n Hn. by apply prepare_image_admitted.
  - unfold prepare_tex_storage_3d. apply admitted_if_fail.
    apply (admitted_valid _ _ _ _ _ (storage_3d_valid _ _ _ _ _ _)). intros [[[w h] d] l] (Hw & Hh & Hd).
    apply admitted_size; [apply ok_or_natural, sized_natural|]. intros bpp Hbpp.
    apply admitted_size; [by apply mip_chain_natural|]. intros n Hn. by apply prepare_storage_admitted.
  - unfold prepare_renderbuffer_storage. apply admitted_if_fail.
    destruct ((width <? 0) || _ || _) eqn:E; [exact I|]. bool_to_prop. apply admitted_if_fail.
    apply admitted_size; [apply ok_or_natural, sized_natural|]. intros bpp Hbpp.
    apply admitted_size; [apply checked_texel_bytes_natural; [done|repeat constructor; lia]|]. intros n Hn.
    apply admitted_bind; [apply safe_ok_or|]. intros r _.
    apply admitted_bind; [apply safe_ok_or|]. intros rec Hr.
    destruct (renderbuffers b !! r) as [r'|] eqn:Er; [|done]. injection Hr as ->.
    destruct (Z.eqb_spec (rb_owner rec) canvas) as [<-|]; [cbn|done].
    apply prepare_transition_admitted; [done..|]. cbn. split_and!; [done| |done]. by destruct rec.
Qed.

(** * Commit *)

(** The budget after its object was replaced and its account moved. *)
Lemma replace_ok b b' canvas old new account :
  budget_ok b →
  contexts b !! canvas = Some account → old ≤ account →
  account - old + new ≤ max_context_bytes (limits b) →
  limits b' = limits b → bindings b' = bindings b →
  contexts b' = <[canvas := account - old + new]> (contexts b) →
  (∀ t r, textures b' !! t = Some r → storage_ok (storage r) ∧ is_Some (contexts b !! tex_owner r)) →
  (∀ t r, renderbuffers b' !! t = Some r → 0 ≤ rb_bytes r ∧ is_Some (contexts b !! rb_owner r)) →
  (∀ c, owned_bytes c b' = owned_bytes c b + if canvas =? c then new - old else 0) →
  budget_ok b'.
Proof.
  intros Hb Ha Hle Hmax Hl Hbd Hc Ht Hr Ho.
  assert (Hsome : ∀ c, is_Some (contexts b !! c) → is_Some (contexts b' !! c)).
  { intros c Hs. rewrite Hc. destruct (decide (canvas = c)) as [->|]; [by rewrite lookup_insert_eq|].
    by rewrite lookup_insert_ne. }
  split.
  - rewrite Hl. by apply ok_limits.
  - rewrite Hbd. by apply ok_bindings.
  - intros t r Htr. destruct (Ht t r Htr) as [? Hs]. auto.
  - intros t r Htr. destruct (Hr t r Htr) as [? Hs]. auto.
  - intros c n. rewrite Hc, Hl, Ho. destruct (Z.eqb_spec canvas c) as [<-|Hn].
    + rewrite lookup_insert_eq. intros [= <-]. destruct (ok_accounts b Hb _ _ Ha) as [-> _]. lia.
    + rewrite lookup_insert_ne by done. intros Hcn. destruct (ok_accounts b Hb _ _ Hcn) as [-> ?]. lia.
Qed.

Lemma set_storage_owned t s r b c :
  textures b !! t = Some r →
  owned_bytes c (set_storage t s r b) =
    owned_bytes c b + if tex_owner r =? c then byte_len s - byte_len (storage r) else 0.
Proof.
  intros Ht. unfold owned_bytes, set_storage. cbn [textures renderbuffers set_field].
  rewrite (map_sum_replace _ _ _ _ _ Ht). unfold texture_bytes at 2 3. cbn [tex_owner storage].
  destruct (tex_owner r =? c); lia.
Qed.

Lemma commit_kind_ok canvas old new k b account :
  budget_ok b → names_object canvas old new k b →
  contexts b !! canvas = Some account → old ≤ account →
  account - old + new ≤ max_context_bytes (limits b) →
  ∃ b', commit_kind k (b <| contexts := <[canvas := account - old + new]> (contexts b) |>) = Ret b' ∧
    budget_ok b' ∧ limits b' = limits b ∧ contexts b' = <[canvas := account - old + new]> (contexts b).
Proof.
  intros Hb Hk Ha Hle Hmax. destruct k as [t s n|t n|r n]; cbn in Hk.
  - destruct Hk as (images & Hn & Ht & Hold & Hnew). cbn. rewrite Ht. cbn. eexists. split; [done|].
    split; [|done]. destruct (ok_textures b Hb _ _ Ht) as [Hs Hown]. cbn in Hs, Hown.
    apply (replace_ok b _ canvas old new account); try done.
    + intros t' r'. cbn. destruct (decide (t' = t)) as [->|].
      * rewrite lookup_insert_eq. intros [= <-]. cbn. split; [|done]. intros k m.
        destruct (decide (k = s)) as [->|]; [rewrite lookup_insert_eq; by intros [= <-]|].
        rewrite lookup_insert_ne by done. apply Hs.
      * rewrite lookup_insert_ne by done. apply (ok_textures b Hb).
    + apply (ok_renderbuffers b Hb).
    + intros c. pose proof (set_storage_owned t (Mutable (<[s:=n]> images)) _ b c Ht) as Hso. cbn in Hso.
      unfold owned_bytes in *. cbn in *. rewrite Hso. rewrite map_sum_put. unfold default in Hnew.
      destruct (canvas =? c), (images !! s); cbn in *; lia.
  - destruct Hk as (images & Hn & Ht & Hold & ->). cbn. rewrite Ht. cbn. eexists. split; [done|].
    split; [|done]. destruct (ok_textures b Hb _ _ Ht) as [Hs Hown]. cbn in Hs, Hown.
    apply (replace_ok b _ canvas old n account); try done.
    + intros t' r'. cbn. destruct (decide (t' = t)) as [->|].
      * rewrite lookup_insert_eq. intros [= <-]. by split.
      * rewrite lookup_insert_ne by done. apply (ok_textures b Hb).
    + apply (ok_renderbuffers b Hb).
    + intros c. pose proof (set_storage_owned t (Immutable n) _ b c Ht) as Hso. cbn in Hso.
      unfold owned_bytes in *. cbn in *. rewrite Hso. subst old. done.
  - destruct Hk as (Hn & Hr & ->). cbn. rewrite Hr. cbn. eexists. split; [done|].
    split; [|done]. destruct (ok_renderbuffers b Hb _ _ Hr) as [Hs Hown]. cbn in Hs, Hown.
    apply (replace_ok b _ canvas old n account); try done.
    + apply (ok_textures b Hb).
    + intros t' r'. cbn. destruct (decide (t' = r)) as [->|].
      * rewrite lookup_insert_eq. intros [= <-]. by split.
      * rewrite lookup_insert_ne by done. apply (ok_renderbuffers b Hb).
    + intros c. unfold owned_bytes. cbn. rewrite (map_sum_replace _ _ _ _ _ Hr).
      unfold renderbuffer_bytes at 2 3. cbn. destruct (canvas =? c); lia.
Qed.

(** The owner of the object a token names has an account that covers it. *)
Lemma names_object_account canvas old new k b :
  budget_ok b → names_object canvas old new k b → is_Some (contexts b !! canvas).
Proof.
  intros Hb. destruct k as [t s n|t n|r n]; cbn.
  - intros (images & _ & Ht & _). by destruct (ok_textures b Hb _ _ Ht).
  - intros (images & _ & Ht & _). by destruct (ok_textures b Hb _ _ Ht).
  - intros (_ & Hr & _). by destruct (ok_renderbuffers b Hb _ _ Hr).
Qed.

(** Everything the contexts of a budget are charged. *)
Definition charged (b : WebGlGpuBudget) : Z := map_total (contexts b).

Lemma account_le_charged b c n : budget_ok b → contexts b !! c = Some n → 0 ≤ n ≤ charged b.
Proof.
  intros Hb Hc. split; [by eapply account_nonneg|]. apply (map_sum_in id _ c); [|done].
  intros. by eapply account_nonneg.
Qed.

Lemma commit_ok p b u :
  budget_ok b → pending_ok p b → usage_ok u → charged b + in_flight p ≤ bytes u →
  ∃ b' u', commit p b u = Ret (b', u') ∧ budget_ok b' ∧ limits b' = limits b ∧
    grew u u' (charged b' - charged b - in_flight p).
Proof.
  intros Hb Hp Hu Hcov. destruct (names_object_account _ _ _ _ _ Hb (pend_object p b Hp)) as [account Ha].
  destruct (pend_account p b Hp _ Ha) as [Hle Hmax].
  destruct (names_object_natural _ _ _ _ _ Hb (pend_object p b Hp)) as [Ho Hn].
  pose proof (ok_limits b Hb) as Hlim. pose proof (account_le_charged b _ _ Hb Ha) as Hacc.
  unfold commit. rewrite Ha. change (default 0 (Some account)) with account. cbv zeta.
  rewrite (proj2 (Z.ltb_ge _ _)) by done.
  unfold u64_checked_add. rewrite (proj2 (Z.leb_le _ _)) by lia. 
  destruct (commit_kind_ok _ _ _ _ b account Hb (pend_object p b Hp) Ha Hle Hmax) as (b' & -> & Hb' & Hl & Hc).
  rewrite bind_ret. assert (Hch : charged b' = charged b - old_object_bytes p + new_object_bytes p).
  { unfold charged. rewrite Hc, (map_sum_replace _ _ _ _ _ Ha). unfold id. lia. }
  pose proof (pend_growth p b Hp) as Hg.
  assert (Hr : ∃ u', (if new_object_bytes p <? old_object_bytes p
      then release (old_object_bytes p - new_object_bytes p) u else Ret u) = Ret u' ∧
      grew u u' (- Z.max (old_object_bytes p - new_object_bytes p) 0)).
  { destruct (Z.ltb_spec (new_object_bytes p) (old_object_bytes p)).
    - destruct (release_spec (old_object_bytes p - new_object_bytes p) u Hu) as (u' & -> & G); [lia|].
      exists u'. split; [done|]. by rewrite Z.max_l by lia.
    - exists u. split; [done|]. rewrite Z.max_r by lia. split; [lia|]. by split. }
  destruct Hr as (u' & -> & G). rewrite bind_ret. cbn [growth_drop growth_commit armed].
  exists b', u'. split; [done|]. split; [done|]. split; [done|].
  replace (charged b' - charged b - in_flight p) with (- Z.max (old_object_bytes p - new_object_bytes p) 0) by lia.
  exact G.
Qed.

(** * Deletion *)

(** [b1] is [b] without one object of [canvas], of [n] bytes; its account has
    not moved yet. *)
Record removed (b b1 : WebGlGpuBudget) (canvas n : Z) : Prop := {
  rem_limits : limits b1 = limits b;
  rem_contexts : contexts b1 = contexts b;
  rem_bindings : keyed_wf (bindings b1);
  rem_textures : textures b1 ⊆ textures b;
  rem_renderbuffers : renderbuffers b1 ⊆ renderbuffers b;
  rem_owned c : owned_bytes c b1 = owned_bytes c b - if canvas =? c then n else 0;
  rem_natural : 0 ≤ n ≤ owned_bytes canvas b;
  rem_account : is_Some (contexts b !! canvas);
}.

Lemma release_context_bytes_ok b b1 canvas n u :
  budget_ok b → removed b b1 canvas n → usage_ok u → charged b ≤ bytes u →
  ∃ b' u', release_context_bytes canvas n b1 u = Ret (b', u') ∧ budget_ok b' ∧ limits b' = limits b ∧
    grew u u' (charged b' - charged b).
Proof.
  intros Hb Hr Hu Hcov. destruct (rem_account _ _ _ _ Hr) as [account Ha].
  destruct (ok_accounts b Hb _ _ Ha) as [Hacc Hmax]. pose proof (rem_natural _ _ _ _ Hr) as Hn.
  pose proof (account_le_charged b _ _ Hb Ha). unfold release_context_bytes.
  assert (Hok : ∀ b', limits b' = limits b → bindings b' = bindings b1 → textures b' = textures b1 →
    renderbuffers b' = renderbuffers b1 → contexts b' = <[canvas := account - n]> (contexts b) → budget_ok b').
  { intros b' Hl Hbd Ht Hrb Hc.
    assert (Hs : ∀ c, is_Some (contexts b !! c) → is_Some (contexts b' !! c)).
    { intros c Hs. rewrite Hc. destruct (decide (canvas = c)) as [->|]; [by rewrite lookup_insert_eq|].
      by rewrite lookup_insert_ne. }
    assert (Ho : ∀ c, owned_bytes c b' = owned_bytes c b1) by (intros c; unfold owned_bytes; by rewrite Ht, Hrb).
    split.
    - rewrite Hl. by apply ok_limits.
    - rewrite Hbd. by eapply rem_bindings.
    - intros t r. rewrite Ht. intros Htr. pose proof (lookup_weaken _ _ _ _ Htr (rem_textures _ _ _ _ Hr)) as H'.
      destruct (ok_textures b Hb _ _ H'). auto.
    - intros t r. rewrite Hrb. intros Htr. pose proof (lookup_weaken _ _ _ _ Htr (rem_renderbuffers _ _ _ _ Hr)) as H'.
      destruct (ok_renderbuffers b Hb _ _ H'). auto.
    - intros c m. rewrite Hc, Hl, Ho, (rem_owned _ _ _ _ Hr). destruct (Z.eqb_spec canvas c) as [<-|Hne].
      + rewrite lookup_insert_eq. intros [= <-]. lia.
      + rewrite lookup_insert_ne by done. intros Hcm. destruct (ok_accounts b Hb _ _ Hcm) as [-> ?]. lia. }
  destruct (Z.eqb_spec n 0) as [->|Hn0].
  - exists b1, u. split; [done|]. split.
    + apply Hok; [by eapply rem_limits|done..|]. rewrite Z.sub_0_r, insert_id by done. by eapply rem_contexts.
    + split; [by eapply rem_limits|]. unfold charged. rewrite (rem_contexts _ _ _ _ Hr). split; [lia|]. by split.
  - rewrite (rem_contexts _ _ _ _ Hr), Ha. rewrite (proj2 (Z.ltb_ge _ _)) by lia.
    destruct (release_spec n u Hu) as (u' & -> & G); [lia|]. rewrite bind_ret.
    eexists _, u'. split; [done|]. split; [apply Hok; cbn; try done; by eapply rem_limits|].
    split; [cbn; by eapply rem_limits|]. unfold charged. cbn [contexts set_field].
    rewrite (map_sum_replace _ _ _ _ _ Ha). unfold id.
    match goal with |- grew _ _ ?x => replace x with (- n) by lia end. exact G.
Qed.

Lemma delete_texture_ok t b u :
  budget_ok b → usage_ok u → charged b ≤ bytes u →
  ∃ n b' u', delete_texture t b u = Ret (n, (b', u')) ∧ budget_ok b' ∧ limits b' = limits b ∧
    grew u u' (charged b' - charged b).
Proof.
  intros Hb Hu Hcov. unfold delete_texture. destruct (textures b !! t) as [r|] eqn:Ht.
  2:{ exists 0, b, u. split; [done|]. split; [done|]. split; [done|]. split; [lia|]. by split. }
  cbv zeta. pose proof (byte_len_fits b t r Hb Ht) as Hfit. rewrite (proj2 (Z.ltb_ge _ _)) by lia.
  set (b1 := (b <| textures := _ |> <| bindings := _ |>)).
  assert (Hrem : removed b b1 (tex_owner r) (byte_len (storage r))).
  { split; try done.
    - apply values_map_spec. by apply ok_bindings.
    - apply delete_subseteq.
    - intros c. unfold owned_bytes, b1. cbn. rewrite (map_sum_take _ _ _ _ Ht).
      unfold texture_bytes at 2. destruct (tex_owner r =? c); lia.
    - by eapply texture_owned.
    - by eapply ok_textures. }
  destruct (release_context_bytes_ok b b1 _ _ u Hb Hrem Hu Hcov) as (b' & u' & -> & H').
  rewrite bind_ret. by eexists _, b', u'.
Qed.

Lemma delete_renderbuffer_ok t b u :
  budget_ok b → usage_ok u → charged b ≤ bytes u →
  ∃ n b' u', delete_renderbuffer t b u = Ret (n, (b', u')) ∧ budget_ok b' ∧ limits b' = limits b ∧
    grew u u' (charged b' - charged b).
Proof.
  intros Hb Hu Hcov. unfold delete_renderbuffer. destruct (renderbuffers b !! t) as [r|] eqn:Ht.
  2:{ exists 0, b, u. split; [done|]. split; [done|]. split; [done|]. split; [lia|]. by split. }
  cbv zeta. set (b1 := (b <| renderbuffers := _ |> <| bindings := _ |>)).
  assert (Hrem : removed b b1 (rb_owner r) (rb_bytes r)).
  { split; try done.
    - apply values_map_spec. by apply ok_bindings.
    - apply delete_subseteq.
    - intros c. unfold owned_bytes, b1. cbn. rewrite (map_sum_take _ _ _ _ Ht).
      unfold renderbuffer_bytes at 2. destruct (rb_owner r =? c); lia.
    - by eapply renderbuffer_owned.
    - by eapply ok_renderbuffers. }
  destruct (release_context_bytes_ok b b1 _ _ u Hb Hrem Hu Hcov) as (b' & u' & -> & H').
  rewrite bind_ret. by eexists _, b', u'.
Qed.

Lemma release_context_ok canvas b u :
  budget_ok b → usage_ok u → charged b ≤ bytes u →
  ∃ n b' u', release_context canvas b u = Ret (n, (b', u')) ∧ budget_ok b' ∧ limits b' = limits b ∧
    grew u u' (charged b' - charged b).
Proof.
  intros Hb Hu Hcov. unfold release_context. cbv zeta.
  set (n := default 0 (contexts b !! canvas)).
  assert (Hn : 0 ≤ n ≤ charged b ∧ map_sum id (delete canvas (contexts b)) = charged b - n).
  { unfold n. destruct (contexts b !! canvas) as [m|] eqn:E; cbn.
    - split; [by eapply account_le_charged|]. unfold charged. rewrite (map_sum_take id _ _ _ E). unfold id. lia.
    - rewrite delete_id by done. split; [|unfold charged; lia]. split; [done|]. apply map_sum_nonneg.
      intros. by eapply account_nonneg. }
  destruct (release_spec n u Hu) as (u' & -> & G); [lia|]. rewrite bind_ret.
  eexists n, _, u'. split; [done|]. split; [|split; [done|]].
  - assert (Hf : ∀ c, c ≠ canvas → owned_bytes c b = map_sum (texture_bytes c) (filter (λ kv, tex_owner kv.2 ≠ canvas) (textures b)) +
      map_sum (renderbuffer_bytes c) (filter (λ kv, rb_owner kv.2 ≠ canvas) (renderbuffers b))).
    { intros c Hc. unfold owned_bytes. rewrite !map_sum_filter; [done|..]; intros k r _ Hne; cbn in Hne;
        apply dec_stable in Hne; unfold texture_bytes, renderbuffer_bytes; rewrite Hne; by rewrite (proj2 (Z.eqb_neq _ _)). }
    split; cbn.
    + by apply ok_limits.
    + apply keyed_remove_spec. by apply ok_bindings.
    + intros t r [Htr Hne]%map_lookup_filter_Some. destruct (ok_textures b Hb _ _ Htr) as [? ?].
      split; [done|]. by rewrite lookup_delete_ne.
    + intros t r [Htr Hne]%map_lookup_filter_Some. destruct (ok_renderbuffers b Hb _ _ Htr) as [? ?].
      split; [done|]. by rewrite lookup_delete_ne.
    + intros c m [Hne Hc]%lookup_delete_Some. destruct (ok_accounts b Hb _ _ Hc) as [-> Hmax].
      split; [|done]. unfold owned_bytes at 2. cbn. by apply Hf.
  - cbn. unfold charged at 1. cbn. destruct Hn as [_ ->].
    match goal with |- grew _ _ ?x => replace x with (- n) by lia end. exact G.
Qed.

Lemma with_parts_ok l : 0 ≤ max_context_bytes l ≤ u64_max → budget_ok (with_parts l).
Proof. split; cbn; try done. apply NoDup_nil_2. Qed.

Lemma budget_clear_ok b u :
  budget_ok b → usage_ok u → charged b ≤ bytes u →
  ∃ n b' u', budget_clear b u = Ret (n, (b', u')) ∧ budget_ok b' ∧ limits b' = limits b ∧
    grew u u' (charged b' - charged b).
Proof.
  intros Hb Hu Hcov. unfold budget_clear. cbv zeta. fold (charged b). destruct Hu as [Hu1 Hu2].
  assert (0 ≤ charged b) by (apply map_sum_nonneg; intros; by eapply account_nonneg).
  rewrite (proj2 (Z.ltb_ge _ _)) by lia.
  destruct (release_spec (charged b) u) as (u' & -> & G); [by split|lia|]. rewrite bind_ret.
  eexists _, _, u'. split; [done|]. split; [apply with_parts_ok; by apply ok_limits|]. split; [done|].
  change (charged (with_parts (limits b))) with 0. by replace (0 - charged b) with (- charged b) by lia.
Qed.

(** * Creation and bindings *)

(** A change of the bindings, and new objects without storage. *)
Lemma on_bindings_ok c f b : budget_ok b → budget_ok (on_bindings c f b).
Proof.
  intros Hb. pose proof (entry_modify_spec binding_default (bindings b) c (λ s, (tt, f s)) (ok_bindings b Hb)) as H.
  cbn in H. destruct H as (t' & Ht & Wt & _). unfold on_bindings. rewrite Ht.
  split; cbn; try apply Hb; done.
Qed.

Lemma open_account_ok b c n m :
  budget_ok b →
  n = match contexts b !! c with Some _ => contexts b | None => <[c := 0]> (contexts b) end →
  m = (entry_modify binding_default (bindings b) c (λ s, (tt, s))).2 →
  keyed_wf m ∧ is_Some (n !! c) ∧ map_total n = charged b ∧ (∀ d, is_Some (contexts b !! d) → is_Some (n !! d)) ∧
  ∀ d x, n !! d = Some x → contexts b !! d = Some x ∨ (contexts b !! d = None ∧ d = c ∧ x = 0).
Proof.
  intros Hb -> ->. pose proof (entry_modify_spec binding_default (bindings b) c (λ s, (tt, s)) (ok_bindings b Hb)) as H.
  cbn in H. destruct H as (t' & Ht & Wt & _). rewrite Ht. split; [done|]. unfold charged.
  destruct (contexts b !! c) as [x|] eqn:E; [by eauto 10|].
  rewrite lookup_insert_eq, map_sum_insert by done. split; [by eexists|]. split; [done|]. split.
  - intros d Hd. destruct (decide (c = d)) as [->|]; [by rewrite lookup_insert_eq|by rewrite lookup_insert_ne].
  - intros d y. destruct (decide (c = d)) as [<-|]; [rewrite lookup_insert_eq; intros [= <-]; by right|].
    rewrite lookup_insert_ne by done. by left.
Qed.

(** A canvas without an account owns nothing. *)
Lemma no_account_owns_nothing b c : budget_ok b → contexts b !! c = None → owned_bytes c b = 0.
Proof.
  intros Hb Hc. unfold owned_bytes. rewrite !map_sum_zero; [done|..]; intros k r Hk;
    unfold texture_bytes, renderbuffer_bytes; case_match; try done; bool_to_prop; subst.
  - destruct (ok_renderbuffers b Hb _ _ Hk) as [_ [? ?]]. congruence.
  - destruct (ok_textures b Hb _ _ Hk) as [_ [? ?]]. congruence.
Qed.

Lemma create_texture_ok reserved c t b :
  budget_ok b →
  match create_texture reserved c t b with
  | Ret b' => budget_ok b' ∧ limits b' = limits b ∧ charged b' = charged b
  | Fail _ => True
  | _ => False
  end.
Proof.
  intros Hb. unfold create_texture. destruct (_ || _) eqn:E; [done|]. destruct reserved; [cbn|done].
  apply orb_false_iff in E as [_ E]. apply bool_decide_eq_false_1, eq_None_not_Some in E.
  destruct (open_account_ok b c _ _ Hb eq_refl eq_refl) as (Wm & Hc & Htot & Hs & Hback).
  split; [|split; [done|exact Htot]]. split; cbn; [by apply ok_limits|done|..].
  - intros t' r'. destruct (decide (t' = t)) as [->|].
    + rewrite lookup_insert_eq. intros [= <-]. cbn. split; [|done]. intros k n. by rewrite lookup_empty.
    + rewrite lookup_insert_ne by done. intros Ht. destruct (ok_textures b Hb _ _ Ht). auto.
  - intros t' r' Hr. destruct (ok_renderbuffers b Hb _ _ Hr). auto.
  - intros d x Hd. unfold owned_bytes. cbn. rewrite map_sum_insert by done.
    assert (Hz : texture_bytes d {| tex_owner := c; storage := Mutable ∅ |} = 0)
      by (unfold texture_bytes; cbn [tex_owner storage byte_len]; destruct (c =? d); [apply map_sum_empty|done]).
    rewrite Hz. fold (owned_bytes d b). destruct (Hback d x Hd) as [H'|(H' & -> & ->)].
    + destruct (ok_accounts b Hb _ _ H'). unfold owned_bytes in *. lia.
    + pose proof (no_account_owns_nothing b c Hb H') as H0. unfold owned_bytes in H0.
      pose proof (ok_limits b Hb). lia.
Qed.

Lemma create_renderbuffer_ok reserved c t b :
  budget_ok b →
  match create_renderbuffer reserved c t b with
  | Ret b' => budget_ok b' ∧ limits b' = limits b ∧ charged b' = charged b
  | Fail _ => True
  | _ => False
  end.
Proof.
  intros Hb. unfold create_renderbuffer. destruct (_ || _) eqn:E; [done|]. destruct reserved; [cbn|done].
  apply orb_false_iff in E as [_ E]. apply bool_decide_eq_false_1, eq_None_not_Some in E.
  destruct (open_account_ok b c _ _ Hb eq_refl eq_refl) as (Wm & Hc & Htot & Hs & Hback).
  split; [|split; [done|exact Htot]]. split; cbn; [by apply ok_limits|done|..].
  - intros t' r' Ht. destruct (ok_textures b Hb _ _ Ht). auto.
  - intros t' r'. destruct (decide (t' = t)) as [->|].
    + rewrite lookup_insert_eq. intros [= <-]. cbn. by split.
    + rewrite lookup_insert_ne by done. intros Ht. destruct (ok_renderbuffers b Hb _ _ Ht). auto.
  - intros d x Hd. unfold owned_bytes. cbn. rewrite map_sum_insert by done.
    assert (Hz : renderbuffer_bytes d {| rb_owner := c; rb_bytes := 0 |} = 0)
      by (unfold renderbuffer_bytes; cbn [rb_owner rb_bytes]; by destruct (c =? d)).
    rewrite Hz. destruct (Hback d x Hd) as [H'|(H' & -> & ->)].
    + destruct (ok_accounts b Hb _ _ H'). unfold owned_bytes in *. lia.
    + pose proof (no_account_owns_nothing b c Hb H') as H0. unfold owned_bytes in H0.
      pose proof (ok_limits b Hb). lia.
Qed.

(** * Render threads sharing the process counter *)

(** A budget with the token of the allocation under way on its thread. *)
Record Owner := { budget : WebGlGpuBudget; held : option PreparedGpuAllocation }.

Inductive BudgetOp :=
  | OpCreateTexture (reserved : bool) (canvas texture : Z)
  | OpCreateRenderbuffer (reserved : bool) (canvas rb : Z)
  | OpActiveTexture (canvas unit_ : Z)
  | OpBindTexture (canvas target : Z) (texture : option Z)
  | OpBindRenderbuffer (canvas target : Z) (rb : option Z)
  | OpPrepare (q : AllocationRequest)
  | OpCommit
  | OpRollback
  | OpDeleteTexture (texture : Z)
  | OpDeleteRenderbuffer (rb : Z)
  | OpReleaseContext (canvas : Z)
  | OpClear.

(** The renderer holds a token across one driver call and does nothing else to
    the budget meanwhile. *)
Definition enabled (op : BudgetOp) (o : Owner) : bool :=
  match op, held o with
  | OpCommit, Some _ | OpRollback, Some _ => true
  | OpCommit, None | OpRollback, None => false
  | _, None => true
  | _, Some _ => false
  end.

Definition idle (b : WebGlGpuBudget) : Owner := {| budget := b; held := None |}.

Definition owner_step (op : BudgetOp) (o : Owner) (u : ProcessUsage) : res (Owner * ProcessUsage) :=
  let b := budget o in
  match op with
  | OpCreateTexture reserved c t => b ← create_texture reserved c t b; Ret (idle b, u)
  | OpCreateRenderbuffer reserved c r => b ← create_renderbuffer reserved c r b; Ret (idle b, u)
  | OpActiveTexture c unit_ => Ret (idle (set_active_texture c unit_ b), u)
  | OpBindTexture c t tex => Ret (idle (bind_texture c t tex b), u)
  | OpBindRenderbuffer c t rb => Ret (idle (bind_renderbuffer c t rb b), u)
  | OpPrepare q => '(p, u) ← prepare q b u; Ret ({| budget := b; held := Some p |}, u)
  | OpCommit =>
      match held o with Some p => '(b, u) ← commit p b u; Ret (idle b, u) | None => Ret (o, u) end
  | OpRollback =>
      match held o with Some p => u ← rollback p u; Ret (idle b, u) | None => Ret (o, u) end
  | OpDeleteTexture t => '(_, (b, u)) ← delete_texture t b u; Ret (idle b, u)
  | OpDeleteRenderbuffer r => '(_, (b, u)) ← delete_renderbuffer r b u; Ret (idle b, u)
  | OpReleaseContext c => '(_, (b, u)) ← release_context c b u; Ret (idle b, u)
  | OpClear => '(_, (b, u)) ← budget_clear b u; Ret (idle b, u)
  end.

(** A history: each step is one thread's operation.  An error changes nothing. *)
Fixpoint run_budgets (ops : list (nat * BudgetOp)) (owners : list Owner) (u : ProcessUsage) :
    result (list Owner * ProcessUsage) :=
  match ops with
  | [] => Ret (owners, u)
  | (i, op) :: ops =>
      match owners !! i with
      | Some o =>
          if enabled op o then
            match owner_step op o u with
            | Ret (o, u) => run_budgets ops (<[i := o]> owners) u
            | Fail _ => run_budgets ops owners u
            | Panic => Panic
            | OutOfFuel => OutOfFuel
            end
          else run_budgets ops owners u
      | None => run_budgets ops owners u
      end
  end.

Definition owner_ok (o : Owner) : Prop :=
  budget_ok (budget o) ∧ match held o with Some p => pending_ok p (budget o) | None => True end.

(** What an owner holds of the process: its accounts and the growth under way. *)
Definition stake (o : Owner) : Z :=
  charged (budget o) + match held o with Some p => in_flight p | None => 0 end.

Definition stakes (owners : list Owner) : Z := foldr (λ o n, stake o + n) 0 owners.

Lemma grew_nothing u : usage_ok u → grew u u 0.
Proof. intros Hu. split; [lia|by split]. Qed.

Lemma in_flight_nonneg p b : pending_ok p b → 0 ≤ in_flight p.
Proof. intros Hp. rewrite (pend_growth p b Hp). lia. Qed.

Lemma charged_nonneg b : budget_ok b → 0 ≤ charged b.
Proof. intros Hb. apply map_sum_nonneg. intros. by eapply account_nonneg. Qed.

Lemma stake_nonneg o : owner_ok o → 0 ≤ stake o.
Proof.
  intros [Hb Hp]. unfold stake. pose proof (charged_nonneg _ Hb). destruct (held o) as [p|]; [|lia].
  pose proof (in_flight_nonneg _ _ Hp). lia.
Qed.

Definition step_fine (m : res (Owner * ProcessUsage)) (o : Owner) (u : ProcessUsage) : Prop :=
  match m with
  | Ret (o', u') => owner_ok o' ∧ grew u u' (stake o' - stake o)
  | Fail _ => True
  | _ => False
  end.

Lemma rollback_ok p b u :
  pending_ok p b → usage_ok u → in_flight p ≤ bytes u →
  ∃ u', rollback p u = Ret u' ∧ grew u u' (- in_flight p).
Proof.
  intros Hp Hu Hle. pose proof (in_flight_nonneg _ _ Hp) as Hn. unfold rollback, growth_drop, in_flight in *.
  destruct (armed _); [by apply release_spec|]. exists u. split; [done|]. by apply grew_nothing.
Qed.

(** An operation that leaves the charges alone. *)
Lemma idle_fine b b' u :
  budget_ok b' → charged b' = charged b → usage_ok u → step_fine (Ret (idle b', u)) (idle b) u.
Proof.
  intros Hb Hc Hu. split; [by split|]. unfold stake. cbn. rewrite Hc.
  replace (charged b + 0 - (charged b + 0)) with 0 by lia. by apply grew_nothing.
Qed.

(** One that moves them with the process counter. *)
Lemma moved_fine b b' u u' :
  budget_ok b' → grew u u' (charged b' - charged b) → step_fine (Ret (idle b', u')) (idle b) u.
Proof.
  intros Hb Hg. split; [by split|]. unfold stake. cbn.
  by replace (charged b' + 0 - (charged b + 0)) with (charged b' - charged b) by lia.
Qed.

Lemma owner_step_fine op o u :
  enabled op o = true → owner_ok o → usage_ok u → stake o ≤ bytes u → step_fine (owner_step op o u) o u.
Proof.
  intros He [Hb Hp] Hu Hs. destruct o as [b [p|]]; cbn [budget held stake] in *.
  - destruct op; try discriminate He; cbn [owner_step held budget].
    + unfold stake in Hs. cbn in Hs. destruct (commit_ok p b u Hb Hp Hu Hs) as (b' & u' & -> & Hb' & _ & Hg).
      cbn. split; [by split|]. unfold stake. cbn.
      by replace (charged b' + 0 - (charged b + in_flight p)) with (charged b' - charged b - in_flight p) by lia.
    + pose proof (charged_nonneg b Hb). unfold stake in Hs. cbn in Hs.
      destruct (rollback_ok p b u Hp Hu) as (u' & -> & Hg); [lia|]. cbn. split; [by split|]. unfold stake. cbn.
      by replace (charged b + 0 - (charged b + in_flight p)) with (- in_flight p) by lia.
  - assert (Hs' : charged b ≤ bytes u) by (unfold stake in Hs; cbn in Hs; lia). clear Hs.
    change {| budget := b; held := None |} with (idle b).
    destruct op; try discriminate He; cbn [owner_step held budget idle].
    + pose proof (create_texture_ok reserved canvas texture b Hb) as H.
      destruct (create_texture _ _ _ _); try done. destruct H as (? & _ & ?). by apply idle_fine.
    + pose proof (create_renderbuffer_ok reserved canvas rb b Hb) as H.
      destruct (create_renderbuffer _ _ _ _); try done. destruct H as (? & _ & ?). by apply idle_fine.
    + unfold set_active_texture. case_match; [by apply idle_fine|].
      apply idle_fine; [by apply on_bindings_ok|done|done].
    + unfold bind_texture. case_match; [|by apply idle_fine].
      apply idle_fine; [by apply on_bindings_ok|done|done].
    + unfold bind_renderbuffer. case_match; [|by apply idle_fine].
      apply idle_fine; [by apply on_bindings_ok|done|done].
    + pose proof (prepare_admitted q b u Hb Hu) as H. destruct (prepare q b u) as [[p u']| | |]; try done.
      destruct H as [Hpe Hg]. cbn. split; [by split|]. unfold stake. cbn.
      by replace (charged b + in_flight p - (charged b + 0)) with (in_flight p) by lia.
    + destruct (delete_texture_ok texture b u Hb Hu Hs') as (n & b' & u' & -> & ? & _ & ?). by apply moved_fine.
    + destruct (delete_renderbuffer_ok rb b u Hb Hu Hs') as (n & b' & u' & -> & ? & _ & ?). by apply moved_fine.
    + destruct (release_context_ok canvas b u Hb Hu Hs') as (n & b' & u' & -> & ? & _ & ?). by apply moved_fine.
    + destruct (budget_clear_ok b u Hb Hu Hs') as (n & b' & u' & -> & ? & _ & ?). by apply moved_fine.
Qed.

Lemma stakes_insert owners i o o' :
  owners !! i = Some o → stakes (<[i := o']> owners) = stakes owners - stake o + stake o'.
Proof.
  revert i. induction owners as [|x owners IH]; intros [|i] Hi; try done.
  - injection Hi as ->. cbn. lia.
  - change (stake x + stakes (<[i := o']> owners) = stake x + stakes owners - stake o + stake o').
    rewrite (IH i Hi). lia.
Qed.

Lemma stake_le_stakes owners i o : Forall owner_ok owners → owners !! i = Some o → stake o ≤ stakes owners.
Proof.
  intros HF. revert i. induction HF as [|x owners Hx HF IH]; intros [|i] Hi; try done;
    change (stakes (x :: owners)) with (stake x + stakes owners).
  - cbn in Hi. injection Hi as ->. assert (0 ≤ stakes owners); [|lia]. clear IH.
    induction HF as [|y l Hy HF IH]; [done|]. pose proof (stake_nonneg y Hy).
    change (stakes (y :: l)) with (stake y + stakes l). lia.
  - pose proof (stake_nonneg x Hx). pose proof (IH i Hi). lia.
Qed.

Lemma run_budgets_ok ops owners u :
  Forall owner_ok owners → usage_ok u → bytes u = stakes owners →
  ∃ owners' u', run_budgets ops owners u = Ret (owners', u') ∧ Forall owner_ok owners' ∧ usage_ok u' ∧
    bytes u' = stakes owners' ∧ max_bytes u' = max_bytes u.
Proof.
  revert owners u. induction ops as [|[i op] ops IH]; intros owners u HF Hu Hs; cbn [run_budgets]; [by eauto 10|].
  destruct (owners !! i) as [o|] eqn:Hi; [|by apply IH]. destruct (enabled op o) eqn:He; [|by apply IH].
  assert (Ho : owner_ok o) by by eapply Forall_lookup_1.
  pose proof (owner_step_fine op o u He Ho Hu) as Hf. rewrite Hs in Hf. specialize (Hf (stake_le_stakes _ _ _ HF Hi)).
  destruct (owner_step op o u) as [[o' u']| | |]; cbn in Hf; [|by apply IH|done|done].
  destruct Hf as (Ho' & Hb & Hm & Hu'). rewrite <- Hm. apply IH; [by apply Forall_insert|done|].
  rewrite (stakes_insert _ _ _ _ Hi). lia.
Qed.

(** C22: whatever the render threads of a process do to their budgets, in any
    interleaving, none of the accounting's panics is reachable; the process
    counter is exactly what the contexts are charged plus the allocations under
    way, and within the process limit; and every context is charged exactly the
    sum of its own objects, within its limit. *)
Theorem accounting_exact max budgets ops :
  0 ≤ max ≤ u64_max → Forall (λ l, 0 ≤ max_context_bytes l ≤ u64_max) budgets →
  ∃ owners u, run_budgets ops (idle <$> (with_parts <$> budgets)) (process_new max) = Ret (owners, u) ∧
    bytes u = stakes owners ∧ bytes u ≤ max ∧
    Forall (λ o, ∀ c n, contexts (budget o) !! c = Some n →
      n = owned_bytes c (budget o) ∧ n ≤ max_context_bytes (limits (budget o))) owners.
Proof.
  intros Hmax Hl.
  assert (Hst : stakes (idle <$> (with_parts <$> budgets)) = 0) by (clear Hl; induction budgets as [|l ls IH]; [done|exact IH]).
  destruct (run_budgets_ok ops (idle <$> (with_parts <$> budgets)) (process_new max))
    as (owners & u & -> & HF & Hu & Hs & Hm).
  - apply Forall_fmap, Forall_fmap. eapply Forall_impl; [exact Hl|]. intros l Hok. split; [|done].
    by apply with_parts_ok.
  - split; cbn; lia.
  - by rewrite Hst.
  - exists owners, u. split; [done|]. split; [done|]. destruct Hu as [[_ Hu] _]. cbn in Hm. split; [lia|].
    eapply Forall_impl; [exact HF|]. intros o [Hb _] c n Hc. by apply (ok_accounts _ Hb).
Qed.

(** Two threads, each with a texture of 8 by 8 RGBA pixels, one of them resized. *)
Lemma accounting_exact_witness :
  let image w := OpPrepare (TexImage2d true 1 GL_TEXTURE_2D 0 0x1908 w 8 0 0x1908 0x1401) in
  let upload i := [(i, OpCreateTexture true 1 7); (i, OpBindTexture 1 GL_TEXTURE_2D (Some 7));
                   (i, image 8); (i, OpCommit)] in
  ∃ owners u, run_budgets (upload 0%nat ++ upload 1%nat ++ [(0%nat, image 16); (1%nat, OpDeleteTexture 7); (0%nat, OpCommit)])
      (idle <$> (with_parts <$> [PRODUCTION; PRODUCTION])) (process_new MAX_PROCESS_BYTES) = Ret (owners, u) ∧
    bytes u = stakes owners ∧ bytes u ≤ MAX_PROCESS_BYTES ∧
    Forall (λ o, ∀ c n, contexts (budget o) !! c = Some n →
      n = owned_bytes c (budget o) ∧ n ≤ max_context_bytes (limits (budget o))) owners.
Proof.
  intros image upload. apply accounting_exact; [by vm_compute|]. repeat constructor; by vm_compute.
Defined.

Example accounting_sample :
  let image w := OpPrepare (TexImage2d true 1 GL_TEXTURE_2D 0 0x1908 w 8 0 0x1908 0x1401) in
  match run_budgets [(0%nat, OpCreateTexture true 1 7); (0%nat, OpBindTexture 1 GL_TEXTURE_2D (Some 7));
      (0%nat, image 8); (0%nat, OpCommit); (0%nat, image 16)]
      [idle (with_parts PRODUCTION)] (process_new MAX_PROCESS_BYTES) with
  | Ret (owners, u) => bytes u = 512 ∧ (charged ∘ budget <$> owners) = [256]
  | _ => False
  end.
Proof. by vm_compute. Qed.
