(* ===== verification/Shadow.v ===== *)
(** The dedup shadow of one canvas's GL state ([engine/crates/graphics],
    [canvas/manager/types.rs] and [backend/gl/uniform_cache.rs]).

    Each family of GL state with a small key space has a shadow of its own, an
    array and bit masks; the rest of [CanvasGLState] is an [Option] per setter.
    Every shadow answers one question, "must this driver call be issued?", and
    they keep one contract, the class [Dedup]: a call is skipped only when every
    slot it writes is recorded with its value, and after a call is recorded the
    shadow claims nothing about any slot beyond that call and what it already
    claimed.  the tracker is proved against the class. *)
From S2P Require Import Prelude Keyed Commands.

Set Default Proof Using "Type".

(** * Enumerants (OpenGL ES 3.0 and WebGL; the code takes them from [glow]) *)

Definition BLEND : Z := 0x0BE2.
Definition CULL_FACE : Z := 0x0B44.
Definition DEPTH_TEST : Z := 0x0B71.
Definition DITHER : Z := 0x0BD0.
Definition POLYGON_OFFSET_FILL : Z := 0x8037.
Definition SAMPLE_ALPHA_TO_COVERAGE : Z := 0x809E.
Definition SAMPLE_COVERAGE : Z := 0x80A0.
Definition SCISSOR_TEST : Z := 0x0C11.
Definition STENCIL_TEST : Z := 0x0B90.
Definition RASTERIZER_DISCARD : Z := 0x8C89.
Definition TEXTURE0 : Z := 0x84C0.
Definition TEXTURE_2D : Z := 0x0DE1.
Definition FRONT : Z := 0x0404.
Definition BACK : Z := 0x0405.
Definition FRONT_AND_BACK : Z := 0x0408.
Definition FRAMEBUFFER : Z := 0x8D40.
Definition DRAW_FRAMEBUFFER : Z := 0x8CA9.
Definition READ_FRAMEBUFFER : Z := 0x8CA8.
Definition PACK_ALIGNMENT : Z := 0x0D05.
Definition UNPACK_ALIGNMENT : Z := 0x0CF5.
Definition UNPACK_ROW_LENGTH : Z := 0x0CF2.
Definition UNPACK_SKIP_PIXELS : Z := 0x0CF4.
Definition UNPACK_SKIP_ROWS : Z := 0x0CF3.
Definition UNPACK_IMAGE_HEIGHT : Z := 0x806E.
Definition UNPACK_SKIP_IMAGES : Z := 0x806D.
Definition PACK_ROW_LENGTH : Z := 0x0D02.
Definition PACK_SKIP_PIXELS : Z := 0x0D04.
Definition PACK_SKIP_ROWS : Z := 0x0D03.

(** * The contract of a shadow *)

(** [record s k v] is the shadow's answer to the call that sets the slots
    [writes k] to [v]: whether the driver call must be issued, and the shadow
    afterwards.  [claims s j] is what the shadow believes of slot [j]. *)
Class Dedup (S K J V : Type) := {
  record : K → V → S → bool * S;
  writes : K → list J;
  claims : S → J → option V;
  forget_all : S → S;
  good : S → Prop;
}.

Class DedupLaws (S K J V : Type) `{!Dedup S K J V} := {
  record_good k v s : good s → good (record k v s).2;
  forget_good s : good s → good (forget_all s);
  (** A skipped call would write what is recorded. *)
  record_skipped k v s j :
    good s → (record k v s).1 = false → j ∈ writes k → claims s j = Some v;
  (** Every claim afterwards is the call's, or was there before. *)
  record_claims k v s j w :
    good s → claims (record k v s).2 j = Some w →
    (j ∈ writes k ∧ w = v) ∨ (j ∉ writes k ∧ claims s j = Some w);
}.

(** Shadows that keep every call they are told about also dedup a repeat. *)
Class DedupRepeats (S K J V : Type) `{!Dedup S K J V} := {
  record_repeats k v s : good s → writes k ≠ [] → (record k v (record k v s).2).1 = false;
}.

(** The first index of [x] in a table of enumerants. *)
Fixpoint index_of (x : Z) (l : list Z) : option nat :=
  match l with
  | [] => None
  | y :: l => if y =? x then Some O else fmap S (index_of x l)
  end.

(** * Capabilities *)

Definition TOGGLEABLE_CAPS : list Z := [
  BLEND; CULL_FACE; DEPTH_TEST; DITHER; POLYGON_OFFSET_FILL; SAMPLE_ALPHA_TO_COVERAGE;
  SAMPLE_COVERAGE; SCISSOR_TEST; STENCIL_TEST; RASTERIZER_DISCARD].

(** Two [u16] masks. *)
Record CapabilityShadow := { known : Z; enabled : Z }.
Definition cap_default : CapabilityShadow := {| known := 0; enabled := 0 |}.

(** [!bit] on a [u16]. *)
Definition u16_not (x : Z) : Z := Z.lxor x (2 ^ 16 - 1).

Definition bit (cap : Z) : option Z := fmap (λ i, Z.shiftl 1 (Z.of_nat i)) (index_of cap TOGGLEABLE_CAPS).

Definition cap_enable (cap : Z) (s : CapabilityShadow) : bool * CapabilityShadow :=
  match bit cap with
  | None => (true, s)
  | Some b =>
      let already_enabled := negb (Z.land (known s) b =? 0) && negb (Z.land (enabled s) b =? 0) in
      (negb already_enabled, {| known := Z.lor (known s) b; enabled := Z.lor (enabled s) b |})
  end.

Definition cap_disable (cap : Z) (s : CapabilityShadow) : bool * CapabilityShadow :=
  match bit cap with
  | None => (true, s)
  | Some b =>
      let already_disabled := negb (Z.land (known s) b =? 0) && (Z.land (enabled s) b =? 0) in
      (negb already_disabled,
       {| known := Z.lor (known s) b; enabled := Z.land (enabled s) (u16_not b) |})
  end.

Definition cap_forget_all (s : CapabilityShadow) : CapabilityShadow := {| known := 0; enabled := 0 |}.

(** * Texture units *)

Definition MAX_TRACKED_TEXTURE_UNITS : Z := 32.

Record TextureUnitShadow := { bindings : list (option Z); tex_observed : Z }.
Definition tex_default : TextureUnitShadow :=
  {| bindings := replicate (Z.to_nat MAX_TRACKED_TEXTURE_UNITS) None; tex_observed := 0 |}.

Definition u32_wrapping_sub (a b : Z) : Z := (a - b) mod 2 ^ 32.

Definition tex_index (unit_ : Z) : option nat :=
  let i := u32_wrapping_sub unit_ TEXTURE0 in
  if i <? MAX_TRACKED_TEXTURE_UNITS then Some (Z.to_nat i) else None.

Definition tex_bind (unit_ : Z) (tex : option Z) (s : TextureUnitShadow) : bool * TextureUnitShadow :=
  match tex_index unit_ with
  | None => (true, s)
  | Some i =>
      let b := Z.shiftl 1 (Z.of_nat i) in
      if negb (Z.land (tex_observed s) b =? 0) && bool_decide (bindings s !! i = Some tex)
      then (false, s)
      else (true, {| bindings := <[i := tex]> (bindings s); tex_observed := Z.lor (tex_observed s) b |})
  end.

(** The loop of [forget_texture], from unit [i] on. *)
Fixpoint forget_texture_from (texture : Z) (i : nat) (l : list (option Z)) (observed : Z) :
    list (option Z) * Z :=
  match l with
  | [] => ([], observed)
  | b :: l =>
      let '(b', observed) :=
        if bool_decide (b = Some texture)
        then (None, Z.land observed (u32_not (Z.shiftl 1 (Z.of_nat i)))) else (b, observed) in
      let '(l', observed) := forget_texture_from texture (S i) l observed in
      (b' :: l', observed)
  end.

Definition forget_texture (texture : Z) (s : TextureUnitShadow) : TextureUnitShadow :=
  let '(l, observed) := forget_texture_from texture 0 (bindings s) (tex_observed s) in
  {| bindings := l; tex_observed := observed |}.

Definition tex_forget_all (s : TextureUnitShadow) : TextureUnitShadow :=
  {| bindings := bindings s; tex_observed := 0 |}.

(** * Stencil faces *)

Record PerFace (T : Type) := { front : option T; back : option T }.
Arguments front {T}.
Arguments back {T}.

Definition face_default {T} : PerFace T := {| front := None; back := None |}.

Definition face_update {T} `{EqDecision T} (face : Z) (value : T) (s : PerFace T) : bool * PerFace T :=
  if face =? FRONT_AND_BACK then
    if bool_decide (front s = Some value) && bool_decide (back s = Some value) then (false, s)
    else (true, {| front := Some value; back := Some value |})
  else if face =? FRONT then
    if bool_decide (front s = Some value) then (false, s)
    else (true, {| front := Some value; back := back s |})
  else if face =? BACK then
    if bool_decide (back s = Some value) then (false, s)
    else (true, {| front := front s; back := Some value |})
  else (true, s).

Definition face_forget_all {T} (s : PerFace T) : PerFace T := {| front := None; back := None |}.

(** * Pixel storage *)

Definition UNPACK_FLIP_Y_WEBGL : Z := 0x9240.
Definition UNPACK_PREMULTIPLY_ALPHA_WEBGL : Z := 0x9241.
Definition UNPACK_COLORSPACE_CONVERSION_WEBGL : Z := 0x9243.

Definition PIXEL_STORE_PNAMES : list Z := [
  PACK_ALIGNMENT; UNPACK_ALIGNMENT; UNPACK_FLIP_Y_WEBGL; UNPACK_PREMULTIPLY_ALPHA_WEBGL;
  UNPACK_COLORSPACE_CONVERSION_WEBGL; UNPACK_ROW_LENGTH; UNPACK_SKIP_PIXELS; UNPACK_SKIP_ROWS;
  UNPACK_IMAGE_HEIGHT; UNPACK_SKIP_IMAGES; PACK_ROW_LENGTH; PACK_SKIP_PIXELS; PACK_SKIP_ROWS].

Record PixelStoreShadow := { params : list Z; px_observed : Z }.
Definition px_default : PixelStoreShadow :=
  {| params := replicate (length PIXEL_STORE_PNAMES) 0; px_observed := 0 |}.

Definition px_slot (pname : Z) : option nat := index_of pname PIXEL_STORE_PNAMES.

Definition px_update (pname param : Z) (s : PixelStoreShadow) : bool * PixelStoreShadow :=
  match px_slot pname with
  | None => (true, s)
  | Some i =>
      let b := Z.shiftl 1 (Z.of_nat i) in
      if negb (Z.land (px_observed s) b =? 0) && bool_decide (params s !! i = Some param)
      then (false, s)
      else (true, {| params := <[i := param]> (params s); px_observed := Z.lor (px_observed s) b |})
  end.

Definition px_forget_all (s : PixelStoreShadow) : PixelStoreShadow :=
  {| params := params s; px_observed := 0 |}.

(** * Indexed uniform buffers *)

Definition MAX_TRACKED_UNIFORM_BUFFER_BINDINGS : Z := 32.

(** [(buffer, offset, size)]; a binding of the whole buffer is [(buffer, 0, 0)]. *)
Abbreviation UboEntry := (option Z * Z * Z)%type.

Record IndexedUniformBufferShadow := { ubo_slots : list (option UboEntry) }.
Definition ubo_default : IndexedUniformBufferShadow :=
  {| ubo_slots := replicate (Z.to_nat MAX_TRACKED_UNIFORM_BUFFER_BINDINGS) None |}.

Definition ubo_update (index : Z) (entry : UboEntry) (s : IndexedUniformBufferShadow) :
    bool * IndexedUniformBufferShadow :=
  match ubo_slots s !! Z.to_nat index with
  | None => (true, s)
  | Some slot =>
      if bool_decide (slot = Some entry) then (false, s)
      else (true, {| ubo_slots := <[Z.to_nat index := Some entry]> (ubo_slots s) |})
  end.

Definition ubo_forget_all (s : IndexedUniformBufferShadow) : IndexedUniformBufferShadow :=
  {| ubo_slots := replicate (Z.to_nat MAX_TRACKED_UNIFORM_BUFFER_BINDINGS) None |}.

(** * Framebuffer targets *)

Record FramebufferShadow := { fb_slots : list (option (option Z)) }.
Definition fb_default : FramebufferShadow := {| fb_slots := replicate 3 None |}.

Definition fb_slot (target : Z) : option nat :=
  if target =? FRAMEBUFFER then Some 0%nat
  else if target =? DRAW_FRAMEBUFFER then Some 1%nat
  else if target =? READ_FRAMEBUFFER then Some 2%nat
  else None.

Definition fb_update (target : Z) (fb : option Z) (s : FramebufferShadow) : bool * FramebufferShadow :=
  match fb_slot target with
  | None => (true, s)
  | Some i =>
      if bool_decide (fb_slots s !! i = Some (Some fb)) then (false, s)
      else (true, {| fb_slots := <[i := Some fb]> (fb_slots s) |})
  end.

Definition fb_set_all (fb : option Z) (s : FramebufferShadow) : FramebufferShadow :=
  {| fb_slots := replicate 3 (Some fb) |}.

Definition fb_get (target : Z) (s : FramebufferShadow) : option (option Z) :=
  i ← fb_slot target; mjoin (fb_slots s !! i).

Definition fb_forget_all (s : FramebufferShadow) : FramebufferShadow := {| fb_slots := replicate 3 None |}.

(** * Vertex arrays *)

Record VertexAttribPointerFp := {
  fp_size : Z;
  fp_type_ : Z;
  fp_normalized : bool;
  fp_stride : Z;
  fp_offset : Z;
  fp_array_buffer : option Z;
}.

#[global] Instance VertexAttribPointerFp_eq_dec : EqDecision VertexAttribPointerFp.
Proof. solve_decision. Defined.

Record AttribSlot := { pointer : option VertexAttribPointerFp; divisor : option Z }.
Definition slot_default : AttribSlot := {| pointer := None; divisor := None |}.

(** [enabled]: bit [i] of a [u32] is set when attribute array [i] is enabled. *)
Record VaoAttribs := { slots : list AttribSlot; attr_enabled : Z }.
Definition vao_default : VaoAttribs := {| slots := []; attr_enabled := 0 |}.

(** The entries and their memo are a keyed table by vertex array name. *)
Definition VertexArrayShadow : Type := CanvasKeyed VaoAttribs.

Definition MAX_TRACKED_ATTRIBS : Z := 32.

(** [f(self.vao_mut(vao))] *)
Definition vao_mut {R} (vao : Z) (f : VaoAttribs → R * VaoAttribs) (s : VertexArrayShadow) :
    R * VertexArrayShadow :=
  entry_modify vao_default s vao f.

(** [attribs.slots.resize(i + 1, AttribSlot::default())] when [i] is past the end. *)
Definition grow_slots (l : list AttribSlot) (i : nat) : list AttribSlot :=
  if (length l <=? i)%nat then l ++ replicate (i + 1 - length l) slot_default else l.

(** [f] applied to the slot [slot_mut] returns; [true] past the tracked range. *)
Definition with_slot (vao index : Z) (f : AttribSlot → bool * AttribSlot) (s : VertexArrayShadow) :
    bool * VertexArrayShadow :=
  if MAX_TRACKED_ATTRIBS <=? index then (true, s)
  else vao_mut vao (λ attribs,
    let l := grow_slots (slots attribs) (Z.to_nat index) in
    let '(issue, slot) := f (default slot_default (l !! Z.to_nat index)) in
    (issue, {| slots := <[Z.to_nat index := slot]> l; attr_enabled := attr_enabled attribs |})) s.

Definition update_pointer (vao index : Z) (fp : VertexAttribPointerFp) (s : VertexArrayShadow) :
    bool * VertexArrayShadow :=
  with_slot vao index (λ slot,
    if bool_decide (pointer slot = Some fp) then (false, slot)
    else (true, {| pointer := Some fp; divisor := divisor slot |})) s.

Definition update_divisor (vao index d : Z) (s : VertexArrayShadow) : bool * VertexArrayShadow :=
  with_slot vao index (λ slot,
    if bool_decide (divisor slot = Some d) then (false, slot)
    else (true, {| pointer := pointer slot; divisor := Some d |})) s.

Definition va_enable (vao index : Z) (s : VertexArrayShadow) : bool * VertexArrayShadow :=
  if MAX_TRACKED_ATTRIBS <=? index then (true, s)
  else
    let b := Z.shiftl 1 (Z.of_nat (Z.to_nat index)) in
    vao_mut vao (λ attribs,
      if negb (Z.land (attr_enabled attribs) b =? 0) then (false, attribs)
      else (true, {| slots := slots attribs; attr_enabled := Z.lor (attr_enabled attribs) b |})) s.

Definition va_disable (vao index : Z) (s : VertexArrayShadow) : bool * VertexArrayShadow :=
  if MAX_TRACKED_ATTRIBS <=? index then (true, s)
  else
    let b := Z.shiftl 1 (Z.of_nat (Z.to_nat index)) in
    vao_mut vao (λ attribs,
      if Z.land (attr_enabled attribs) b =? 0 then (false, attribs)
      else (true, {| slots := slots attribs; attr_enabled := Z.land (attr_enabled attribs) (u32_not b) |})) s.

Definition va_forget_all (s : VertexArrayShadow) : VertexArrayShadow :=
  {| entries := fmap (λ e, (e.1, {| slots := []; attr_enabled := 0 |})) (entries s); hot := 0 |}.

Definition forget_vao (vao : Z) (s : VertexArrayShadow) : VertexArrayShadow := (keyed_remove s vao).2.

(** * Uniform values *)

Definition MAX_UNIFORM_CACHE : Z := 256.
Definition MAX_CACHED_UNIFORM_VALUE_BYTES : Z := 64 * 1024.

Abbreviation UniformCache := (gmap (Z * Z) (list Z)).

(** [HashMap] promises no iteration order: [keys().next()] is some key of a map
    that has one. *)
Class HashOrder (K : Type) `{Countable K} := {
  first_key {V} : gmap K V → option K;
  first_key_in {V} (m : gmap K V) k : first_key m = Some k → is_Some (m !! k);
  first_key_none {V} (m : gmap K V) : first_key m = None → m = ∅;
}.

(** [uniform_cache::update]; [maximum_entries] is positive (asserted). *)
Definition uniform_update `{!HashOrder (Z * Z)} (maximum_entries program location : Z) (value : list Z)
    (cache : UniformCache) : bool * UniformCache :=
  let key := (program, location) in
  if MAX_CACHED_UNIFORM_VALUE_BYTES <? lenZ value then (true, delete key cache)
  else match cache !! key with
  | Some stored =>
      if bool_decide (stored = value) then (false, cache) else (true, <[key := value]> cache)
  | None =>
      let cache :=
        if maximum_entries <=? Z.of_nat (size cache) then
          match first_key cache with Some evicted => delete evicted cache | None => cache end
        else cache in
      (true, <[key := value]> cache)
  end.

(** * The state of a canvas *)

Inductive ScissorState :=
  | ScissorDisabled
  | ScissorEnabled (x y width height : Z)
  | ScissorEnabledUnknownRect.

Record BlendFactors := { src_rgb : Z; dst_rgb : Z; src_alpha : Z; dst_alpha : Z }.
Record BlendEq := { mode_rgb : Z; mode_alpha : Z }.

#[global] Instance ScissorState_eq_dec : EqDecision ScissorState.
Proof. solve_decision. Defined.
#[global] Instance BlendFactors_eq_dec : EqDecision BlendFactors.
Proof. solve_decision. Defined.
#[global] Instance BlendEq_eq_dec : EqDecision BlendEq.
Proof. solve_decision. Defined.

Record CanvasGLState := {
  current_program : option Z;
  viewport : option (Z * Z * Z * Z);
  bound_texture_2d : TextureUnitShadow;
  bound_array_buffer : option (option Z);
  bound_element_array_buffer : option (option Z);
  bound_uniform_buffer : option (option Z);
  bound_pixel_unpack_buffer : option (option Z);
  bound_pixel_pack_buffer : option (option Z);
  bound_copy_read_buffer : option (option Z);
  bound_copy_write_buffer : option (option Z);
  bound_transform_feedback_buffer : option (option Z);
  bound_uniform_buffer_indexed : IndexedUniformBufferShadow;
  active_texture_unit : option Z;
  draws_to_default_fbo : bool;
  scissor : ScissorState;
  last_scissor_rect : option (Z * Z * Z * Z);
  color_mask : bool * bool * bool * bool;
  capabilities : CapabilityShadow;
  blend_factors : option BlendFactors;
  blend_equation : option BlendEq;
  blend_color : option (F32 * F32 * F32 * F32);
  depth_func : option Z;
  depth_mask : option bool;
  depth_range : option (F32 * F32);
  cull_face : option Z;
  front_face : option Z;
  line_width : option F32;
  polygon_offset : option (F32 * F32);
  bound_vao : option Z;
  uniform_cache : UniformCache;
  bound_framebuffer : FramebufferShadow;
  bound_renderbuffer : option (option Z);
  vertex_attribs : VertexArrayShadow;
  stencil_func : PerFace (Z * Z * Z);
  stencil_op : PerFace (Z * Z * Z);
  stencil_mask : PerFace Z;
  pixel_store_i32 : PixelStoreShadow;
}.

#[global] Instance eta_CanvasGLState : Eta CanvasGLState := λ r, {|
  current_program := current_program r; viewport := viewport r;
  bound_texture_2d := bound_texture_2d r; bound_array_buffer := bound_array_buffer r;
  bound_element_array_buffer := bound_element_array_buffer r;
  bound_uniform_buffer := bound_uniform_buffer r;
  bound_pixel_unpack_buffer := bound_pixel_unpack_buffer r;
  bound_pixel_pack_buffer := bound_pixel_pack_buffer r;
  bound_copy_read_buffer := bound_copy_read_buffer r;
  bound_copy_write_buffer := bound_copy_write_buffer r;
  bound_transform_feedback_buffer := bound_transform_feedback_buffer r;
  bound_uniform_buffer_indexed := bound_uniform_buffer_indexed r;
  active_texture_unit := active_texture_unit r; draws_to_default_fbo := draws_to_default_fbo r;
  scissor := scissor r; last_scissor_rect := last_scissor_rect r; color_mask := color_mask r;
  capabilities := capabilities r; blend_factors := blend_factors r;
  blend_equation := blend_equation r; blend_color := blend_color r; depth_func := depth_func r;
  depth_mask := depth_mask r; depth_range := depth_range r; cull_face := cull_face r;
  front_face := front_face r; line_width := line_width r; polygon_offset := polygon_offset r;
  bound_vao := bound_vao r; uniform_cache := uniform_cache r;
  bound_framebuffer := bound_framebuffer r; bound_renderbuffer := bound_renderbuffer r;
  vertex_attribs := vertex_attribs r; stencil_func := stencil_func r; stencil_op := stencil_op r;
  stencil_mask := stencil_mask r; pixel_store_i32 := pixel_store_i32 r |}.

(** [CanvasGLState::default()] *)
Definition gl_state_default : CanvasGLState := {|
  current_program := None; viewport := None; bound_texture_2d := tex_default;
  bound_array_buffer := None; bound_element_array_buffer := None; bound_uniform_buffer := None;
  bound_pixel_unpack_buffer := None; bound_pixel_pack_buffer := None;
  bound_copy_read_buffer := None; bound_copy_write_buffer := None;
  bound_transform_feedback_buffer := None; bound_uniform_buffer_indexed := ubo_default;
  active_texture_unit := None; draws_to_default_fbo := true; scissor := ScissorDisabled;
  last_scissor_rect := None; color_mask := (true, true, true, true); capabilities := cap_default;
  blend_factors := None; blend_equation := None; blend_color := None; depth_func := None;
  depth_mask := None; depth_range := None; cull_face := None; front_face := None;
  line_width := None; polygon_offset := None; bound_vao := None; uniform_cache := ∅;
  bound_framebuffer := fb_default; bound_renderbuffer := None; vertex_attribs := keyed_default;
  stencil_func := face_default; stencil_op := face_default; stencil_mask := face_default;
  pixel_store_i32 := px_default |}.

Definition invalidate_p11_shadow (s : CanvasGLState) : CanvasGLState :=
  s <| bound_framebuffer := fb_forget_all (bound_framebuffer s) |>
    <| bound_renderbuffer := None |>
    <| vertex_attribs := va_forget_all (vertex_attribs s) |>
    <| stencil_func := face_forget_all (stencil_func s) |>
    <| stencil_op := face_forget_all (stencil_op s) |>
    <| stencil_mask := face_forget_all (stencil_mask s) |>
    <| pixel_store_i32 := px_forget_all (pixel_store_i32 s) |>.

Definition invalidate_after_external_gl_use (s : CanvasGLState) : CanvasGLState :=
  invalidate_p11_shadow (
    s <| current_program := None |> <| viewport := None |>
      <| bound_texture_2d := tex_forget_all (bound_texture_2d s) |>
      <| bound_array_buffer := None |> <| bound_element_array_buffer := None |>
      <| bound_uniform_buffer := None |> <| bound_pixel_unpack_buffer := None |>
      <| bound_pixel_pack_buffer := None |> <| bound_copy_read_buffer := None |>
      <| bound_copy_write_buffer := None |> <| bound_transform_feedback_buffer := None |>
      <| bound_uniform_buffer_indexed := ubo_forget_all (bound_uniform_buffer_indexed s) |>
      <| active_texture_unit := None |> <| scissor := ScissorEnabledUnknownRect |>
      <| last_scissor_rect := None |> <| color_mask := (true, true, true, true) |>
      <| capabilities := cap_forget_all (capabilities s) |>
      <| blend_factors := None |> <| blend_equation := None |> <| blend_color := None |>
      <| depth_func := None |> <| depth_mask := None |> <| depth_range := None |>
      <| cull_face := None |> <| front_face := None |> <| line_width := None |>
      <| polygon_offset := None |> <| bound_vao := None |>).

(** * The shadows keep the contract *)

(** ** Masks *)

Lemma bit_spec i j : 0 ≤ i → 0 ≤ j → Z.testbit (Z.shiftl 1 i) j = (j =? i).
Proof.
  intros Hi Hj. rewrite Z.shiftl_spec by lia. destruct (Z.eqb_spec j i) as [->|].
  - by rewrite Z.sub_diag.
  - destruct (Z.ltb_spec j i); [by rewrite Z.testbit_neg_r by lia|].
    apply Z.bits_above_log2; cbn; lia.
Qed.

Lemma land_bit m i : 0 ≤ i → negb (Z.land m (Z.shiftl 1 i) =? 0) = Z.testbit m i.
Proof.
  intros Hi. destruct (Z.testbit m i) eqn:Em.
  - apply negb_true_iff, Z.eqb_neq. intros E.
    assert (H : Z.testbit (Z.land m (Z.shiftl 1 i)) i = false) by (rewrite E; apply Z.bits_0).
    by rewrite Z.land_spec, bit_spec, Z.eqb_refl, Em in H by lia.
  - apply negb_false_iff, Z.eqb_eq, Z.bits_inj'. intros n Hn.
    rewrite Z.bits_0, Z.land_spec, bit_spec by lia.
    destruct (Z.eqb_spec n i) as [->|]; [by rewrite Em|apply andb_false_r].
Qed.

Lemma testbit_set m i j : 0 ≤ i → 0 ≤ j → Z.testbit (Z.lor m (Z.shiftl 1 i)) j = Z.testbit m j || (j =? i).
Proof. intros. by rewrite Z.lor_spec, bit_spec. Qed.

(** Clearing a bit with the complement of a [w]-bit mask. *)
Lemma testbit_clear w m i j :
  0 ≤ i → 0 ≤ j < w →
  Z.testbit (Z.land m (Z.lxor (Z.shiftl 1 i) (2 ^ w - 1))) j = Z.testbit m j && negb (j =? i).
Proof.
  intros Hi Hj. rewrite Z.land_spec, Z.lxor_spec, bit_spec by lia.
  replace (2 ^ w - 1) with (Z.ones w) by (rewrite Z.ones_equiv; lia).
  rewrite Z.ones_spec_low by lia. by destruct (j =? i).
Qed.

Lemma nth_index_of x l i : index_of x l = Some i → l !! i = Some x.
Proof.
  revert i. induction l as [|y l IH]; intros i; cbn [index_of]; [done|].
  destruct (Z.eqb_spec y x) as [->|]; [by intros [= <-]|].
  destruct (index_of x l) as [k|]; [|done]. intros [= <-]. by apply IH.
Qed.

Lemma index_of_inj x y l i : index_of x l = Some i → index_of y l = Some i → x = y.
Proof. intros Hx%nth_index_of Hy%nth_index_of. congruence. Qed.

(** ** Capabilities *)

#[export] Instance cap_dedup : Dedup CapabilityShadow Z Z bool := {|
  record cap (b : bool) s := if b then cap_enable cap s else cap_disable cap s;
  writes cap := match index_of cap TOGGLEABLE_CAPS with Some _ => [cap] | None => [] end;
  claims s cap := i ← index_of cap TOGGLEABLE_CAPS;
                  if Z.testbit (known s) (Z.of_nat i) then Some (Z.testbit (enabled s) (Z.of_nat i)) else None;
  forget_all := cap_forget_all;
  good _ := True;
|}.

Lemma cap_index cap i : index_of cap TOGGLEABLE_CAPS = Some i → (i < 10)%nat.
Proof. intros H%nth_index_of%lookup_lt_Some. exact H. Qed.

(** What a capability call records, in bits. *)
Lemma cap_record cap b s i :
  index_of cap TOGGLEABLE_CAPS = Some i →
  let '(issue, s') := record cap b s in
  issue = negb (Z.testbit (known s) (Z.of_nat i) && eqb (Z.testbit (enabled s) (Z.of_nat i)) b) ∧
  ∀ k, (k < 16)%nat →
    Z.testbit (known s') (Z.of_nat k) = Z.testbit (known s) (Z.of_nat k) || (k =? i)%nat ∧
    Z.testbit (enabled s') (Z.of_nat k) = if (k =? i)%nat then b else Z.testbit (enabled s) (Z.of_nat k).
Proof.
  intros Hi. assert (Hlt := cap_index _ _ Hi).
  assert (Hk : ∀ k, (Z.of_nat k =? Z.of_nat i) = (k =? i)%nat)
    by (intros k; destruct (Nat.eqb_spec k i); [apply Z.eqb_eq|apply Z.eqb_neq]; lia).
  destruct b; cbn [record cap_dedup]; unfold cap_enable, cap_disable, bit; rewrite Hi; cbn [fmap option_fmap option_map].
  - rewrite !land_bit by lia. split; [by destruct (Z.testbit (known s) _), (Z.testbit (enabled s) _)|].
    intros k Hk16. cbn [known enabled]. rewrite !testbit_set, Hk by lia.
    split; [done|]. by destruct (k =? i)%nat, (Z.testbit (enabled s) (Z.of_nat k)).
  - rewrite land_bit by lia. rewrite <- (negb_involutive (Z.land (enabled s) _ =? 0)), land_bit by lia.
    split; [by destruct (Z.testbit (known s) _), (Z.testbit (enabled s) _)|].
    intros k Hk16. cbn [known enabled]. unfold u16_not. rewrite testbit_set, testbit_clear, Hk by lia.
    split; [done|]. by destruct (k =? i)%nat, (Z.testbit (enabled s) (Z.of_nat k)).
Qed.

Lemma cap_record_untracked cap b s :
  index_of cap TOGGLEABLE_CAPS = None → record cap b s = (true, s).
Proof. intros H. destruct b; cbn [record cap_dedup]; unfold cap_enable, cap_disable, bit; by rewrite H. Qed.

#[export] Instance cap_laws : DedupLaws CapabilityShadow Z Z bool.
Proof.
  split; [done|done| |].
  - intros cap b s j _ Hf. cbn [writes cap_dedup]. destruct (index_of cap TOGGLEABLE_CAPS) as [i|] eqn:Hi.
    + pose proof (cap_record cap b s i Hi) as HR. destruct (record cap b s) as [issue s'].
      cbn in Hf. subst issue. destruct HR as [HR _]. symmetry in HR.
      apply negb_false_iff, andb_true_iff in HR as [Hkn Hen]. apply eqb_prop in Hen.
      rewrite list_elem_of_singleton. intros ->. cbn [claims cap_dedup]. rewrite Hi. cbn. by rewrite Hkn, Hen.
    + intros []%not_elem_of_nil.
  - intros cap b s j w _. cbn [writes cap_dedup]. destruct (index_of cap TOGGLEABLE_CAPS) as [i|] eqn:Hi.
    + pose proof (cap_record cap b s i Hi) as HR. destruct (record cap b s) as [issue s'].
      destruct HR as [_ HR]. cbn [snd claims cap_dedup]. rewrite list_elem_of_singleton.
      destruct (index_of j TOGGLEABLE_CAPS) as [k|] eqn:Hj; [cbn|done].
      pose proof (cap_index _ _ Hj). destruct (HR k) as [-> ->]; [lia|].
      destruct (Nat.eqb_spec k i) as [->|Hk].
      * rewrite orb_true_r. intros [= ->]. left. split; [by apply (index_of_inj _ _ TOGGLEABLE_CAPS i)|done].
      * rewrite orb_false_r. intros Hw. right. split; [|done]. intros ->. congruence.
    + rewrite cap_record_untracked by done. intros Hw. right. split; [apply not_elem_of_nil|done].
Qed.

#[export] Instance cap_repeats : DedupRepeats CapabilityShadow Z Z bool.
Proof.
  split. intros cap b s _. cbn [writes cap_dedup].
  destruct (index_of cap TOGGLEABLE_CAPS) as [i|] eqn:Hi; [intros _|done].
  pose proof (cap_record cap b s i Hi) as HR. destruct (record cap b s) as [issue s'].
  destruct HR as [_ HR]. destruct (HR i) as [Hk He]; [pose proof (cap_index _ _ Hi); lia|].
  rewrite Nat.eqb_refl in Hk, He. rewrite orb_true_r in Hk. cbn [snd].
  pose proof (cap_record cap b s' i Hi) as HR'. destruct (record cap b s') as [issue' s''].
  destruct HR' as [-> _]. cbn. by rewrite Hk, He, eqb_reflx.
Qed.

(** ** Arrays with a mask of the observed entries *)

Definition masked {A} (l : list A) (m : Z) (i : nat) : option A :=
  if Z.testbit m (Z.of_nat i) then l !! i else None.

Lemma masked_update {A} (l : list A) m i x k :
  (i < length l)%nat →
  masked (<[i := x]> l) (Z.lor m (Z.shiftl 1 (Z.of_nat i))) k = if (k =? i)%nat then Some x else masked l m k.
Proof.
  intros Hi. unfold masked. rewrite testbit_set by lia. destruct (Nat.eqb_spec k i) as [->|Hk].
  - rewrite Z.eqb_refl, orb_true_r. by apply list_lookup_insert_eq.
  - rewrite (proj2 (Z.eqb_neq _ _)), orb_false_r by lia. by rewrite list_lookup_insert_ne.
Qed.

(** The test both shadows make before they skip. *)
Lemma masked_test {A} `{EqDecision A} (l : list A) m i x :
  negb (Z.land m (Z.shiftl 1 (Z.of_nat i)) =? 0) && bool_decide (l !! i = Some x) =
  bool_decide (masked l m i = Some x).
Proof. rewrite land_bit by lia. unfold masked. by destruct (Z.testbit m _). Qed.

(** ** Texture units *)

#[export] Instance tex_dedup : Dedup TextureUnitShadow Z nat (option Z) := {|
  record := tex_bind;
  writes unit_ := match tex_index unit_ with Some i => [i] | None => [] end;
  claims s i := masked (bindings s) (tex_observed s) i;
  forget_all := tex_forget_all;
  good s := length (bindings s) = 32%nat;
|}.

Lemma tex_index_lt unit_ i : tex_index unit_ = Some i → (i < 32)%nat.
Proof.
  unfold tex_index, u32_wrapping_sub, MAX_TRACKED_TEXTURE_UNITS. case_match; [|done].
  intros [= <-]. bool_to_prop. lia.
Qed.

#[export] Instance tex_laws : DedupLaws TextureUnitShadow Z nat (option Z).
Proof.
  split; cbn [good writes claims record tex_dedup]; unfold tex_bind.
  - intros unit_ tex s Hg. destruct (tex_index unit_); [|done]. case_match; cbn; [done|].
    by rewrite length_insert.
  - done.
  - intros unit_ tex s j Hg. destruct (tex_index unit_) as [i|]; [|done].
    rewrite masked_test. case_bool_decide as Hm; cbn; [|done]. by intros _ ->%list_elem_of_singleton.
  - intros unit_ tex s j w Hg. destruct (tex_index unit_) as [i|] eqn:Hi; cbn iota.
    2:{ right. split; [apply not_elem_of_nil|done]. }
    rewrite masked_test, list_elem_of_singleton. case_bool_decide as Hm; cbn [snd bindings tex_observed].
    + intros Hw. destruct (decide (j = i)) as [->|]; [left; split; [done|congruence]|by right].
    + rewrite masked_update by (rewrite Hg; by eapply tex_index_lt).
      destruct (Nat.eqb_spec j i) as [->|]; [intros [= ->]; by left|by right].
Qed.

#[export] Instance tex_repeats : DedupRepeats TextureUnitShadow Z nat (option Z).
Proof.
  split; cbn [good writes record tex_dedup]; unfold tex_bind. intros unit_ tex s Hg.
  destruct (tex_index unit_) as [i|] eqn:Hi; cbn iota; [intros _|done].
  rewrite !masked_test. destruct (decide (masked (bindings s) (tex_observed s) i = Some tex)) as [Hm|Hm].
  - by rewrite !(bool_decide_eq_true_2 _ Hm).
  - rewrite !(bool_decide_eq_false_2 _ Hm). cbn [snd bindings tex_observed].
    rewrite masked_update by (rewrite Hg; by eapply tex_index_lt). rewrite Nat.eqb_refl.
    by rewrite (bool_decide_eq_true_2 _ eq_refl).
Qed.

(** ** Pixel storage *)

#[export] Instance px_dedup : Dedup PixelStoreShadow Z nat Z := {|
  record := px_update;
  writes pname := match px_slot pname with Some i => [i] | None => [] end;
  claims s i := masked (params s) (px_observed s) i;
  forget_all := px_forget_all;
  good s := length (params s) = 13%nat;
|}.

Lemma px_slot_lt pname i : px_slot pname = Some i → (i < 13)%nat.
Proof. intros H%nth_index_of%lookup_lt_Some. exact H. Qed.

#[export] Instance px_laws : DedupLaws PixelStoreShadow Z nat Z.
Proof.
  split; cbn [good writes claims record px_dedup]; unfold px_update.
  - intros pname v s Hg. destruct (px_slot pname); [|done]. case_match; cbn; [done|].
    by rewrite length_insert.
  - done.
  - intros pname v s j Hg. destruct (px_slot pname) as [i|]; [|done].
    rewrite masked_test. case_bool_decide as Hm; cbn; [|done]. by intros _ ->%list_elem_of_singleton.
  - intros pname v s j w Hg. destruct (px_slot pname) as [i|] eqn:Hi; cbn iota.
    2:{ right. split; [apply not_elem_of_nil|done]. }
    rewrite masked_test, list_elem_of_singleton. case_bool_decide as Hm; cbn [snd params px_observed].
    + intros Hw. destruct (decide (j = i)) as [->|]; [left; split; [done|congruence]|by right].
    + rewrite masked_update by (rewrite Hg; by eapply px_slot_lt).
      destruct (Nat.eqb_spec j i) as [->|]; [intros [= ->]; by left|by right].
Qed.

#[export] Instance px_repeats : DedupRepeats PixelStoreShadow Z nat Z.
Proof.
  split; cbn [good writes record px_dedup]; unfold px_update. intros pname v s Hg.
  destruct (px_slot pname) as [i|] eqn:Hi; cbn iota; [intros _|done].
  rewrite !masked_test. destruct (decide (masked (params s) (px_observed s) i = Some v)) as [Hm|Hm].
  - by rewrite !(bool_decide_eq_true_2 _ Hm).
  - rewrite !(bool_decide_eq_false_2 _ Hm). cbn [snd params px_observed].
    rewrite masked_update by (rewrite Hg; by eapply px_slot_lt). rewrite Nat.eqb_refl.
    by rewrite (bool_decide_eq_true_2 _ eq_refl).
Qed.

(** ** Faces *)

#[export] Instance face_dedup {T} `{EqDecision T} : Dedup (PerFace T) Z bool T := {|
  record := face_update;
  writes face := if face =? FRONT_AND_BACK then [true; false]
                 else if face =? FRONT then [true] else if face =? BACK then [false] else [];
  claims s j := if (j : bool) then front s else back s;
  forget_all := face_forget_all;
  good _ := True;
|}.

#[export] Instance face_laws {T} `{EqDecision T} : DedupLaws (PerFace T) Z bool T.
Proof.
  split; [done|done| |]; cbn [good writes claims record face_dedup]; unfold face_update.
  - intros face v s j _. repeat case_match; bool_to_prop; cbn; try done; intros _;
      destruct j; rewrite ?elem_of_cons, ?list_elem_of_singleton; try done; intros; set_solver.
  - intros face v s j w _.
    repeat case_match; bool_to_prop; cbn [snd front back]; intros Hw; destruct j;
      simplify_eq; try (right; split; [set_solver|done]); try (left; split; [set_solver|congruence]).
Qed.

#[export] Instance face_repeats {T} `{EqDecision T} : DedupRepeats (PerFace T) Z bool T.
Proof.
  split; cbn [writes record face_dedup]; unfold face_update. intros face v [f b] _ Hw. cbn [front back].
  assert (Hf : f = Some v ∨ f ≠ Some v) by (destruct (decide (f = Some v)); auto).
  assert (Hb : b = Some v ∨ b ≠ Some v) by (destruct (decide (b = Some v)); auto).
  destruct (face =? FRONT_AND_BACK), (face =? FRONT), (face =? BACK); cbn iota; try done;
    destruct Hf as [->|Hf], Hb as [->|Hb]; rewrite ?(bool_decide_eq_true_2 _ eq_refl);
    rewrite ?(bool_decide_eq_false_2 _ Hf), ?(bool_decide_eq_false_2 _ Hb); cbn [fst snd front back andb];
    by rewrite ?(bool_decide_eq_true_2 _ eq_refl).
Qed.

(** ** Arrays of optional entries *)

(** Two shadows are an array whose entries are [None] until they are observed. *)
Definition array_record {V} `{EqDecision V} (i : nat) (v : V) (l : list (option V)) : bool * list (option V) :=
  match l !! i with
  | None => (true, l)
  | Some slot => if bool_decide (slot = Some v) then (false, l) else (true, <[i := Some v]> l)
  end.

Lemma array_record_skipped {V} `{EqDecision V} i (v : V) l :
  (array_record i v l).1 = false → mjoin (l !! i) = Some v.
Proof. unfold array_record. destruct (l !! i) as [s|]; [|done]. case_bool_decide as E; [|done]. by rewrite E. Qed.

Lemma array_record_claims {V} `{EqDecision V} i (v w : V) l j :
  mjoin ((array_record i v l).2 !! j) = Some w →
  (j = i ∧ (i < length l)%nat ∧ w = v) ∨ (¬ (j = i ∧ (i < length l)%nat) ∧ mjoin (l !! j) = Some w).
Proof.
  unfold array_record. destruct (l !! i) as [s|] eqn:E.
  - assert (Hlt := lookup_lt_Some _ _ _ E). case_bool_decide as Es; cbn [snd].
    + intros Hw. destruct (decide (j = i)) as [->|]; [left|right; split; [naive_solver|done]].
      rewrite E in Hw. cbn in Hw. by simplify_eq.
    + intros Hw. destruct (decide (j = i)) as [->|Hj]; [left|right; split; [naive_solver|]].
      * rewrite list_lookup_insert_eq in Hw by done. cbn in Hw. by simplify_eq.
      * by rewrite list_lookup_insert_ne in Hw by done.
  - cbn [snd]. intros Hw. right. split; [|done]. intros [_ Hlt]. apply lookup_lt_is_Some_2 in Hlt as [? ?].
    congruence.
Qed.

Lemma array_record_repeats {V} `{EqDecision V} i (v : V) l :
  (i < length l)%nat → (array_record i v (array_record i v l).2).1 = false.
Proof.
  intros Hi. apply lookup_lt_is_Some_2 in Hi as Hs. destruct Hs as [s E].
  unfold array_record at 2. rewrite E. case_bool_decide as Es; cbn [snd]; unfold array_record.
  - rewrite E, Es. by rewrite (bool_decide_eq_true_2 _ eq_refl).
  - rewrite list_lookup_insert_eq by done. by rewrite (bool_decide_eq_true_2 _ eq_refl).
Qed.

Lemma array_record_length {V} `{EqDecision V} i (v : V) l : length (array_record i v l).2 = length l.
Proof. unfold array_record. destruct (l !! i); [|done]. case_bool_decide; [done|]. apply length_insert. Qed.

(** ** Indexed uniform buffers *)

#[export] Instance ubo_dedup : Dedup IndexedUniformBufferShadow Z nat UboEntry := {|
  record := ubo_update;
  writes index := if (Z.to_nat index <? 32)%nat then [Z.to_nat index] else [];
  claims s i := mjoin (ubo_slots s !! i);
  forget_all := ubo_forget_all;
  good s := length (ubo_slots s) = 32%nat;
|}.

Lemma ubo_update_array index entry s :
  (ubo_update index entry s).1 = (array_record (Z.to_nat index) entry (ubo_slots s)).1 ∧
  ubo_slots (ubo_update index entry s).2 = (array_record (Z.to_nat index) entry (ubo_slots s)).2.
Proof.
  unfold ubo_update, array_record. destruct (ubo_slots s !! _) as [slot|]; [|done].
  by destruct (bool_decide _).
Qed.

#[export] Instance ubo_laws : DedupLaws IndexedUniformBufferShadow Z nat UboEntry.
Proof.
  split; cbn [good writes claims record ubo_dedup].
  - intros index v s Hg. destruct (ubo_update_array index v s) as [_ ->]. by rewrite array_record_length.
  - done.
  - intros index v s j Hg. destruct (ubo_update_array index v s) as [-> _].
    intros H%array_record_skipped. case_match; [|intros []%not_elem_of_nil].
    by intros ->%list_elem_of_singleton.
  - intros index v s j w Hg. destruct (ubo_update_array index v s) as [_ ->].
    intros [(-> & Hlt & ->)|[Hn Hw]]%array_record_claims; rewrite Hg in *.
    + left. apply Nat.ltb_lt in Hlt. rewrite Hlt. by rewrite list_elem_of_singleton.
    + right. split; [|done]. case_match eqn:Hlt; [|apply not_elem_of_nil].
      apply Nat.ltb_lt in Hlt. rewrite list_elem_of_singleton. naive_solver.
Qed.

#[export] Instance ubo_repeats : DedupRepeats IndexedUniformBufferShadow Z nat UboEntry.
Proof.
  split; cbn [good writes record ubo_dedup]. intros index v s Hg.
  case_match eqn:Hlt; [intros _|done]. apply Nat.ltb_lt in Hlt.
  destruct (ubo_update_array index v (ubo_update index v s).2) as [-> _].
  destruct (ubo_update_array index v s) as [_ ->]. apply array_record_repeats. by rewrite Hg.
Qed.

(** ** Framebuffer targets *)

#[export] Instance fb_dedup : Dedup FramebufferShadow Z nat (option Z) := {|
  record := fb_update;
  writes target := match fb_slot target with Some i => [i] | None => [] end;
  claims s i := mjoin (fb_slots s !! i);
  forget_all := fb_forget_all;
  good s := length (fb_slots s) = 3%nat;
|}.

Lemma fb_slot_lt target i : fb_slot target = Some i → (i < 3)%nat.
Proof. unfold fb_slot. repeat case_match; intros; simplify_eq; lia. Qed.

Lemma fb_update_array target i fb s :
  fb_slot target = Some i → length (fb_slots s) = 3%nat →
  (fb_update target fb s).1 = (array_record i fb (fb_slots s)).1 ∧
  fb_slots (fb_update target fb s).2 = (array_record i fb (fb_slots s)).2.
Proof.
  intros Hi Hg. unfold fb_update, array_record. rewrite Hi.
  destruct (lookup_lt_is_Some_2 (fb_slots s) i) as [slot E]; [rewrite Hg; by eapply fb_slot_lt|].
  rewrite E. destruct (decide (slot = Some fb)) as [->|Hn].
  - by rewrite !(bool_decide_eq_true_2 _ eq_refl).
  - rewrite (bool_decide_eq_false_2 _ Hn), (bool_decide_eq_false_2 (Some slot = _)) by congruence. done.
Qed.

#[export] Instance fb_laws : DedupLaws FramebufferShadow Z nat (option Z).
Proof.
  split; cbn [good writes claims record fb_dedup].
  - intros target fb s Hg. destruct (fb_slot target) as [i|] eqn:Hi.
    + destruct (fb_update_array target i fb s Hi Hg) as [_ ->]. by rewrite array_record_length.
    + unfold fb_update. by rewrite Hi.
  - done.
  - intros target fb s j Hg. destruct (fb_slot target) as [i|] eqn:Hi; [|intros _ []%not_elem_of_nil].
    destruct (fb_update_array target i fb s Hi Hg) as [-> _].
    intros H%array_record_skipped. by intros ->%list_elem_of_singleton.
  - intros target fb s j w Hg. destruct (fb_slot target) as [i|] eqn:Hi.
    + destruct (fb_update_array target i fb s Hi Hg) as [_ ->]. rewrite list_elem_of_singleton.
      pose proof (fb_slot_lt _ _ Hi). intros [(-> & _ & ->)|[Hn Hw]]%array_record_claims; [by left|].
      right. split; [|done]. intros ->. apply Hn. by rewrite Hg.
    + unfold fb_update. rewrite Hi. intros Hw. right. split; [apply not_elem_of_nil|done].
Qed.

#[export] Instance fb_repeats : DedupRepeats FramebufferShadow Z nat (option Z).
Proof.
  split; cbn [good writes record fb_dedup]. intros target fb s Hg.
  destruct (fb_slot target) as [i|] eqn:Hi; [intros _|done].
  destruct (fb_update_array target i fb s Hi Hg) as [_ E].
  destruct (fb_update_array target i fb (fb_update target fb s).2 Hi) as [-> _].
  - by rewrite E, array_record_length.
  - rewrite E. apply array_record_repeats. rewrite Hg. by eapply fb_slot_lt.
Qed.

(** ** Uniform values *)

Definition uniform_dedup `{!HashOrder (Z * Z)} (maximum_entries : Z) : Dedup UniformCache (Z * Z) (Z * Z) (list Z) := {|
  record key v cache := uniform_update maximum_entries key.1 key.2 v cache;
  writes key := [key];
  claims cache key := cache !! key;
  forget_all cache := cache;
  good _ := True;
|}.

Lemma uniform_laws `{!HashOrder (Z * Z)} maximum_entries :
  @DedupLaws UniformCache (Z * Z) (Z * Z) (list Z) (uniform_dedup maximum_entries).
Proof.
  split; [done|done| |]; cbn [writes claims record uniform_dedup]; unfold uniform_update; intros [p loc] v s j;
    cbn [fst snd].
  - intros _ Hf ->%list_elem_of_singleton. case_match; [done|]. destruct (s !! (p, loc)); [|done].
    case_bool_decide; [by subst|done].
  - intros w _ Hw. rewrite !list_elem_of_singleton. case_match; cbn [snd] in Hw.
    { destruct (decide (j = (p, loc))) as [->|Hj]; [by rewrite lookup_delete_eq in Hw|].
      rewrite lookup_delete_ne in Hw by done. by right. }
    destruct (s !! (p, loc)) as [stored|] eqn:E.
    + case_bool_decide as Es; cbn [snd] in Hw.
      * destruct (decide (j = (p, loc))) as [->|Hj]; [left; split; [done|congruence]|by right].
      * destruct (decide (j = (p, loc))) as [->|Hj].
        -- rewrite lookup_insert_eq in Hw. left. split; congruence.
        -- rewrite lookup_insert_ne in Hw by done. by right.
    + cbn [snd] in Hw. destruct (decide (j = (p, loc))) as [->|Hj].
      { rewrite lookup_insert_eq in Hw. left. split; congruence. }
      rewrite lookup_insert_ne in Hw by done. right. split; [done|].
      repeat case_match; [|done..]. by apply lookup_delete_Some in Hw as [_ Hw].
Qed.

(** The cache never holds more than it is allowed to, nor a value too long to
    keep. *)
Lemma uniform_update_size `{!HashOrder (Z * Z)} maximum_entries p loc v cache :
  0 < maximum_entries → Z.of_nat (size cache) ≤ maximum_entries →
  Z.of_nat (size (uniform_update maximum_entries p loc v cache).2) ≤ maximum_entries.
Proof.
  intros Hm Hs. unfold uniform_update. case_match; cbn [snd].
  { rewrite map_size_delete. destruct (cache !! (p, loc)); cbn; lia. }
  destruct (cache !! (p, loc)) as [stored|] eqn:E.
  { case_bool_decide; cbn [snd]; [done|]. by rewrite map_size_insert_Some. }
  cbn [snd]. destruct (Z.leb_spec maximum_entries (Z.of_nat (size cache))).
  - destruct (first_key cache) as [k|] eqn:Ek.
    + destruct (first_key_in _ _ Ek) as [w Hw]. 
      rewrite map_size_insert_None, map_size_delete, Hw by (apply lookup_delete_None; auto).
      assert (size cache ≠ 0%nat) by (intros E0%map_size_empty_inv; subst cache; by rewrite lookup_empty in Hw). lia.
    + rewrite (first_key_none _ Ek), map_size_insert_None, map_size_empty; [lia|apply lookup_empty].
  - rewrite map_size_insert_None by done. lia.
Qed.

(** ** Vertex arrays *)

(** What a vertex array shadow says of attribute [i] of array [vao]. *)
Definition attr_slot (s : VertexArrayShadow) (vao : Z) (i : nat) : AttribSlot :=
  default slot_default (keyed_view s vao ≫= λ a, slots a !! i).
Definition attr_on (s : VertexArrayShadow) (vao : Z) (i : nat) : bool :=
  Z.testbit (default 0 (attr_enabled <$> keyed_view s vao)) (Z.of_nat i).

Lemma grow_slots_lookup l i j :
  default slot_default (grow_slots l i !! j) = default slot_default (l !! j).
Proof.
  unfold grow_slots. case_match; [|done]. destruct (l !! j) as [x|] eqn:E.
  - by erewrite lookup_app_l_Some.
  - apply lookup_ge_None in E. rewrite lookup_app_r by done.
    destruct (replicate _ _ !! _) as [y|] eqn:Ey; [|done].
    by apply lookup_replicate in Ey as [-> _].
Qed.

Lemma grow_slots_length l i : (i < length (grow_slots l i))%nat.
Proof.
  unfold grow_slots. case_match eqn:E.
  - apply Nat.leb_le in E. rewrite length_app, length_replicate. lia.
  - apply Nat.leb_gt in E. lia.
Qed.

Lemma attr_slot_update s s' vao (f : VaoAttribs) i sl' vao' j :
  keyed_view s' vao' = (if vao' =? vao then
    Some {| slots := <[i := sl']> (grow_slots (slots f) i); attr_enabled := attr_enabled f |}
    else keyed_view s vao') →
  f = default vao_default (keyed_view s vao) →
  attr_slot s' vao' j = (if (vao' =? vao) && (j =? i)%nat then sl' else attr_slot s vao' j) ∧
  attr_on s' vao' j = attr_on s vao' j.
Proof.
  intros Hv ->. unfold attr_slot, attr_on. rewrite Hv.
  destruct (Z.eqb_spec vao' vao) as [->|]; [|done]. cbn [andb mbind option_bind slots attr_enabled fmap option_fmap option_map default].
  split; [|by destruct (keyed_view s vao)].
  destruct (Nat.eqb_spec j i) as [->|Hj].
  - by rewrite list_lookup_insert_eq by apply grow_slots_length.
  - rewrite list_lookup_insert_ne, grow_slots_lookup by done. by destruct (keyed_view s vao).
Qed.

Lemma with_slot_spec vao index f s :
  keyed_wf s → index < MAX_TRACKED_ATTRIBS →
  let i := Z.to_nat index in
  let '(issue, sl) := f (attr_slot s vao i) in
  ∃ s', with_slot vao index f s = (issue, s') ∧ keyed_wf s' ∧
    ∀ vao' j, attr_slot s' vao' j = (if (vao' =? vao) && (j =? i)%nat then sl else attr_slot s vao' j) ∧
              attr_on s' vao' j = attr_on s vao' j.
Proof.
  intros W Hi. cbn zeta. unfold with_slot. rewrite (proj2 (Z.leb_gt _ _)) by done.
  unfold vao_mut. set (g := λ attribs : VaoAttribs, _).
  pose proof (entry_modify_spec vao_default s vao g W) as HE.
  assert (Hg : g (default vao_default (keyed_view s vao)) =
    let '(issue, sl) := f (attr_slot s vao (Z.to_nat index)) in
    (issue, {| slots := <[Z.to_nat index := sl]> (grow_slots (slots (default vao_default (keyed_view s vao))) (Z.to_nat index));
               attr_enabled := attr_enabled (default vao_default (keyed_view s vao)) |})).
  { unfold g. cbn zeta. rewrite grow_slots_lookup. unfold attr_slot. by destruct (keyed_view s vao). }
  rewrite Hg in HE. destruct (f _) as [issue sl]. destruct HE as (s' & -> & W' & Hv).
  exists s'. split; [done|]. split; [done|]. intros vao' j. by eapply attr_slot_update.
Qed.

Lemma with_slot_untracked vao index f s : MAX_TRACKED_ATTRIBS ≤ index → with_slot vao index f s = (true, s).
Proof. intros. unfold with_slot. by rewrite (proj2 (Z.leb_le _ _)). Qed.

Definition attr_writes (k : Z * Z) : list (Z * nat) :=
  if k.2 <? MAX_TRACKED_ATTRIBS then [(k.1, Z.to_nat k.2)] else [].

#[export] Instance pointer_dedup : Dedup VertexArrayShadow (Z * Z) (Z * nat) VertexAttribPointerFp := {|
  record k := update_pointer k.1 k.2;
  writes := attr_writes;
  claims s j := pointer (attr_slot s j.1 j.2);
  forget_all := va_forget_all;
  good := keyed_wf;
|}.

#[export] Instance divisor_dedup : Dedup VertexArrayShadow (Z * Z) (Z * nat) Z := {|
  record k := update_divisor k.1 k.2;
  writes := attr_writes;
  claims s j := divisor (attr_slot s j.1 j.2);
  forget_all := va_forget_all;
  good := keyed_wf;
|}.

(** An array nothing has touched is known to be disabled. *)
#[export] Instance enabled_dedup : Dedup VertexArrayShadow (Z * Z) (Z * nat) bool := {|
  record k (b : bool) := if b then va_enable k.1 k.2 else va_disable k.1 k.2;
  writes := attr_writes;
  claims s j := if (j.2 <? 32)%nat then Some (attr_on s j.1 j.2) else None;
  forget_all := va_forget_all;
  good := keyed_wf;
|}.

Lemma va_forget_all_view s vao :
  keyed_wf s → keyed_wf (va_forget_all s) ∧
  keyed_view (va_forget_all s) vao = (λ _, vao_default) <$> keyed_view s vao.
Proof.
  intros W. destruct (values_map_spec (λ _, vao_default) s W) as [W' Hv]. split; [done|].
  rewrite <- Hv. done.
Qed.

Lemma attr_writes_tracked (k : Z * Z) j : j ∈ attr_writes k ↔ k.2 < MAX_TRACKED_ATTRIBS ∧ j = (k.1, Z.to_nat k.2).
Proof.
  unfold attr_writes. destruct (Z.ltb_spec k.2 MAX_TRACKED_ATTRIBS).
  - rewrite list_elem_of_singleton. naive_solver.
  - split; [intros []%not_elem_of_nil|lia].
Qed.

Lemma attr_here (vao : Z) (i : nat) (j : Z * nat) : (j.1 =? vao) && (j.2 =? i)%nat = bool_decide (j = (vao, i)).
Proof.
  destruct j as [v k]; cbn. destruct (Z.eqb_spec v vao) as [->|], (Nat.eqb_spec k i) as [->|]; cbn; symmetry.
  - by apply bool_decide_eq_true_2.
  - apply bool_decide_eq_false_2. congruence.
  - apply bool_decide_eq_false_2. congruence.
  - apply bool_decide_eq_false_2. congruence.
Qed.

(** A setter of one field of a slot keeps the contract. *)
Section slot_field.
Context {V : Type} `{EqDecision V} (get_field : AttribSlot → option V) (put : V → AttribSlot → AttribSlot).
Hypothesis get_put : ∀ x sl, get_field (put x sl) = Some x.
Context (k : Z * Z) (v : V) (s : VertexArrayShadow).
Hypothesis W : keyed_wf s.

Let set_slot (sl : AttribSlot) : bool * AttribSlot :=
  if bool_decide (get_field sl = Some v) then (false, sl) else (true, put v sl).

Lemma slot_field_spec :
  let '(issue, s') := with_slot k.1 k.2 set_slot s in
  keyed_wf s' ∧ ∀ j,
  (issue = false → j ∈ attr_writes k → get_field (attr_slot s j.1 j.2) = Some v) ∧
  (∀ w, get_field (attr_slot s' j.1 j.2) = Some w →
    (j ∈ attr_writes k ∧ w = v) ∨ (j ∉ attr_writes k ∧ get_field (attr_slot s j.1 j.2) = Some w)).
Proof using get_put W.
  destruct (Z.ltb_spec k.2 MAX_TRACKED_ATTRIBS) as [Hi|Hi].
  - pose proof (with_slot_spec k.1 k.2 set_slot s W Hi) as HS. cbn zeta in HS. unfold set_slot at 1 in HS.
    case_bool_decide as Hk; destruct HS as (s' & -> & W' & Hs).
    all: split; [done|]; intros j; split; [|intros w]; rewrite !attr_writes_tracked.
    + intros _ [_ ->]. exact Hk.
    + destruct (Hs j.1 j.2) as [-> _]. rewrite attr_here. case_bool_decide as Hj; intros Hw.
      * left. split; [done|]. congruence.
      * right. split; [naive_solver|done].
    + done.
    + destruct (Hs j.1 j.2) as [-> _]. rewrite attr_here. case_bool_decide as Hj; intros Hw.
      * left. split; [done|]. rewrite get_put in Hw. congruence.
      * right. split; [naive_solver|done].
  - rewrite with_slot_untracked by done. split; [done|]. intros j.
    split; [done|]. intros w Hw. right. rewrite attr_writes_tracked. split; [lia|done].
Qed.

Lemma slot_field_good : keyed_wf (with_slot k.1 k.2 set_slot s).2.
Proof using get_put W. pose proof slot_field_spec as H. destruct (with_slot _ _ _ _). apply H. Qed.
Lemma slot_field_skipped j :
  (with_slot k.1 k.2 set_slot s).1 = false → j ∈ attr_writes k → get_field (attr_slot s j.1 j.2) = Some v.
Proof using get_put W. pose proof slot_field_spec as H. destruct (with_slot _ _ _ _). apply H. Qed.
Lemma slot_field_claims j w :
  get_field (attr_slot (with_slot k.1 k.2 set_slot s).2 j.1 j.2) = Some w →
  (j ∈ attr_writes k ∧ w = v) ∨ (j ∉ attr_writes k ∧ get_field (attr_slot s j.1 j.2) = Some w).
Proof using get_put W. pose proof slot_field_spec as H. destruct (with_slot _ _ _ _). apply H. Qed.
End slot_field.

#[export] Instance pointer_laws : DedupLaws VertexArrayShadow (Z * Z) (Z * nat) VertexAttribPointerFp.
Proof.
  pose (put := λ x sl, {| pointer := Some x; divisor := divisor sl |}).
  split; [intros k v s W|intros s W; by apply (va_forget_all_view s 0)|intros k v s j W|intros k v s j w W].
  - by apply (slot_field_good pointer put (λ _ _, eq_refl) k v s).
  - by apply (slot_field_skipped pointer put (λ _ _, eq_refl) k v s).
  - by apply (slot_field_claims pointer put (λ _ _, eq_refl) k v s).
Qed.

#[export] Instance divisor_laws : DedupLaws VertexArrayShadow (Z * Z) (Z * nat) Z.
Proof.
  pose (put := λ x sl, {| pointer := pointer sl; divisor := Some x |}).
  split; [intros k v s W|intros s W; by apply (va_forget_all_view s 0)|intros k v s j W|intros k v s j w W].
  - by apply (slot_field_good divisor put (λ _ _, eq_refl) k v s).
  - by apply (slot_field_skipped divisor put (λ _ _, eq_refl) k v s).
  - by apply (slot_field_claims divisor put (λ _ _, eq_refl) k v s).
Qed.


(** A change of the mask of one array. *)
Lemma vao_mask_spec vao f s r m :
  keyed_wf s →
  let a := default vao_default (keyed_view s vao) in
  f a = (r, {| slots := slots a; attr_enabled := m |}) →
  ∃ s', vao_mut (R:=bool) vao f s = (r, s') ∧ keyed_wf s' ∧
    (∀ v j, attr_slot s' v j = attr_slot s v j) ∧
    ∀ v j, attr_on s' v j = if v =? vao then Z.testbit m (Z.of_nat j) else attr_on s v j.
Proof.
  intros W a Hf. pose proof (entry_modify_spec vao_default s vao f W) as HE. fold a in HE. rewrite Hf in HE.
  destruct HE as (s' & HE & W' & Hv). exists s'. split; [exact HE|]. split; [done|].
  unfold attr_slot, attr_on. split; intros v j; rewrite Hv; destruct (Z.eqb_spec v vao) as [->|]; try done.
  cbn. unfold a. by destruct (keyed_view s vao).
Qed.

(** What a change of the enabled arrays leaves. *)
Lemma enable_spec (on : bool) (k : Z * Z) (s : VertexArrayShadow) :
  keyed_wf s → k.2 < MAX_TRACKED_ATTRIBS →
  let i := Z.to_nat k.2 in
  ∃ s', record (J:=Z * nat) k on s = (negb (eqb (attr_on s k.1 i) on), s') ∧
    keyed_wf s' ∧ (∀ vao j, attr_slot s' vao j = attr_slot s vao j) ∧
    ∀ vao j, (j < 32)%nat → attr_on s' vao j = if (vao =? k.1) && (j =? i)%nat then on else attr_on s vao j.
Proof.
  intros W Hi i. destruct k as [vao index]. cbn [fst snd] in *. set (a := default vao_default (keyed_view s vao)).
  assert (Ha : ∀ j, Z.testbit (attr_enabled a) (Z.of_nat j) = attr_on s vao j)
    by (intros j; unfold attr_on, a; by destruct (keyed_view s vao)).
  assert (Hbit : ∀ j, (Z.of_nat j =? Z.of_nat i) = (j =? i)%nat)
    by (intros j; destruct (Nat.eqb_spec j i); [apply Z.eqb_eq|apply Z.eqb_neq]; lia).
  assert (Heta : a = {| slots := slots a; attr_enabled := attr_enabled a |}) by by destruct a.
  destruct on; cbn [record enabled_dedup fst snd]; unfold va_enable, va_disable;
    rewrite (proj2 (Z.leb_gt _ _)) by done; cbn zeta; fold i.
  - set (f := λ attribs : VaoAttribs, _).
    assert (Hf : f a = (negb (eqb (attr_on s vao i) true),
      {| slots := slots a; attr_enabled := if attr_on s vao i then attr_enabled a
           else Z.lor (attr_enabled a) (Z.shiftl 1 (Z.of_nat i)) |})).
    { unfold f. rewrite land_bit, Ha by lia. destruct (attr_on s vao i); [by rewrite <- Heta|done]. }
    destruct (vao_mask_spec vao f s _ _ W Hf) as (s' & HE & W' & Hs & Hon).
    exists s'. split; [exact HE|]. split; [done|]. split; [done|]. intros v j Hj. rewrite Hon.
    destruct (Z.eqb_spec v vao) as [->|]; [cbn [andb]|done].
    destruct (attr_on s vao i) eqn:Ei; rewrite ?testbit_set, ?Hbit, Ha by lia;
      destruct (Nat.eqb_spec j i) as [->|]; by rewrite ?orb_true_r, ?orb_false_r.
  - set (f := λ attribs : VaoAttribs, _).
    assert (Hf : f a = (negb (eqb (attr_on s vao i) false),
      {| slots := slots a; attr_enabled := if attr_on s vao i then
           Z.land (attr_enabled a) (u32_not (Z.shiftl 1 (Z.of_nat i))) else attr_enabled a |})).
    { unfold f. rewrite <- (negb_involutive (Z.land _ _ =? 0)), land_bit, Ha by lia.
      destruct (attr_on s vao i); [done|by rewrite <- Heta]. }
    destruct (vao_mask_spec vao f s _ _ W Hf) as (s' & HE & W' & Hs & Hon).
    exists s'. split; [exact HE|]. split; [done|]. split; [done|]. intros v j Hj. rewrite Hon.
    destruct (Z.eqb_spec v vao) as [->|]; [cbn [andb]|done]. unfold u32_not, u32_max.
    destruct (attr_on s vao i) eqn:Ei; rewrite ?testbit_clear, ?Hbit, Ha by lia;
      destruct (Nat.eqb_spec j i) as [->|]; by rewrite ?andb_false_r, ?andb_true_r.
Qed.

Lemma enable_untracked (on : bool) (k : Z * Z) (s : VertexArrayShadow) :
  MAX_TRACKED_ATTRIBS ≤ k.2 → record (J:=Z * nat) k on s = (true, s).
Proof.
  intros. destruct on; cbn [record enabled_dedup]; unfold va_enable, va_disable;
    by rewrite (proj2 (Z.leb_le _ _)).
Qed.

#[export] Instance enabled_laws : DedupLaws VertexArrayShadow (Z * Z) (Z * nat) bool.
Proof.
  split; [intros k on s W|intros s W; by apply (va_forget_all_view s 0)
         |intros k on s j W|intros k on s j w W].
  - destruct (Z.ltb_spec k.2 MAX_TRACKED_ATTRIBS).
    + by destruct (enable_spec on k s W ltac:(done)) as (s' & -> & ? & _).
    + by rewrite enable_untracked.
  - destruct (Z.ltb_spec k.2 MAX_TRACKED_ATTRIBS) as [Hi|Hi].
    + destruct (enable_spec on k s W Hi) as (s' & -> & _). cbn [fst]. intros Hf%negb_false_iff%eqb_prop.
      intros [_ ->]%attr_writes_tracked. cbn [claims enabled_dedup fst snd]. rewrite Hf.
      unfold MAX_TRACKED_ATTRIBS in Hi. by rewrite (proj2 (Nat.ltb_lt _ _)) by lia.
    + by rewrite enable_untracked.
  - destruct (Z.ltb_spec k.2 MAX_TRACKED_ATTRIBS) as [Hi|Hi].
    + destruct (enable_spec on k s W Hi) as (s' & -> & _ & _ & Hon). cbn [snd claims enabled_dedup writes].
      destruct (Nat.ltb_spec j.2 32) as [Hj|]; [|done]. rewrite Hon, attr_here by done.
      intros [= <-]. rewrite attr_writes_tracked. case_bool_decide; [by left|right; naive_solver].
    + rewrite enable_untracked by done. intros Hw. right. split; [|done]. cbn [writes enabled_dedup].
      rewrite attr_writes_tracked. lia.
Qed.

(** Deleting a vertex array forgets its attributes and no others. *)
Lemma forget_vao_spec vao s :
  keyed_wf s → keyed_wf (forget_vao vao s) ∧
  ∀ v i, attr_slot (forget_vao vao s) v i = (if v =? vao then slot_default else attr_slot s v i) ∧
         attr_on (forget_vao vao s) v i = if v =? vao then false else attr_on s v i.
Proof.
  intros W. unfold forget_vao. destruct (keyed_remove_spec s vao W) as (_ & W' & Hv). split; [done|].
  intros v i. unfold attr_slot, attr_on. rewrite Hv. destruct (v =? vao); [|done]. by rewrite Z.bits_0.
Qed.

(** Deleting a texture forgets every unit that names it and no others. *)
Lemma forget_texture_from_spec texture base l m :
  Z.of_nat base + lenZ l ≤ 32 →
  let '(l', m') := forget_texture_from texture base l m in
  length l' = length l ∧
  (∀ j, (j < base)%nat → Z.testbit m' (Z.of_nat j) = Z.testbit m (Z.of_nat j)) ∧
  ∀ j b, l !! j = Some b →
    if bool_decide (b = Some texture) then Z.testbit m' (Z.of_nat (base + j)) = false
    else Z.testbit m' (Z.of_nat (base + j)) = Z.testbit m (Z.of_nat (base + j)) ∧ l' !! j = Some b.
Proof.
  revert base m. induction l as [|x l IH]; intros base m Hlen; cbn [forget_texture_from]; [done|].
  cbn [length] in Hlen.
  set (st := if bool_decide (x = Some texture) then _ else _).
  assert (Hst : ∀ j, (j < 32)%nat → Z.testbit st.2 (Z.of_nat j) =
      Z.testbit m (Z.of_nat j) && negb (bool_decide (x = Some texture) && (j =? base)%nat)).
  { intros j Hj. unfold st. case_bool_decide; cbn [snd negb andb]; [|by rewrite andb_true_r].
    unfold u32_not, u32_max. rewrite testbit_clear by lia. f_equal. f_equal.
    destruct (Nat.eqb_spec j base); [apply Z.eqb_eq|apply Z.eqb_neq]; lia. }
  assert (Hx : ¬ x = Some texture → st.1 = x) by (intros Hn; unfold st; by rewrite (bool_decide_eq_false_2 _ Hn)).
  destruct st as [x' m1]. cbn [fst snd] in *.
  specialize (IH (S base) m1 ltac:(lia)). destruct (forget_texture_from texture (S base) l m1) as [l' m'].
  destruct IH as (Hl & Hlow & Hat). cbn [length]. split; [by rewrite Hl|]. split.
  - intros j Hj. rewrite Hlow, Hst by lia. rewrite (proj2 (Nat.eqb_neq _ _)), andb_false_r by lia.
    apply andb_true_r.
  - intros [|j] b Hb; cbn in Hb.
    + injection Hb as ->. rewrite Nat.add_0_r, Hlow, Hst, Nat.eqb_refl, andb_true_r by lia.
      case_bool_decide as E; cbn [negb]; [apply andb_false_r|]. rewrite andb_true_r. split; [done|].
      cbn. by rewrite Hx.
    + specialize (Hat j b Hb). assert (Hj := lookup_lt_Some _ _ _ Hb).
      replace (base + S j)%nat with (S base + j)%nat by lia.
      destruct (bool_decide (b = Some texture)); [exact Hat|]. destruct Hat as [-> ?]. split; [|done].
      rewrite Hst by lia. rewrite (proj2 (Nat.eqb_neq _ _)), andb_false_r by lia. apply andb_true_r.
Qed.

Lemma forget_texture_spec texture s :
  good s → good (forget_texture texture s) ∧
  ∀ i w, claims (forget_texture texture s) i = Some w ↔ claims s i = Some w ∧ w ≠ Some texture.
Proof.
  cbn [good claims tex_dedup]. intros Hg. unfold forget_texture.
  pose proof (forget_texture_from_spec texture 0 (bindings s) (tex_observed s)) as HF.
  destruct (forget_texture_from _ _ _ _) as [l m]. destruct HF as (Hl & _ & Hat); [lia|].
  cbn [bindings tex_observed]. split; [lia|]. intros i w. unfold masked.
  destruct (bindings s !! i) as [b|] eqn:Eb.
  - specialize (Hat i b Eb). cbn [Nat.add] in Hat. case_bool_decide as E.
    + rewrite Hat. split; [done|]. intros [Hw Hn]. case_match; congruence.
    + destruct Hat as [-> ->]. split; [|by intros [? _]]. intros Hw. split; [done|].
      case_match; congruence.
  - apply lookup_ge_None in Eb. rewrite (proj2 (lookup_ge_None l i)) by lia.
    split; [by case_match|intros [Hw _]; by case_match].
Qed.
