(* ===== verification/FrameStats.v ===== *)
(** The diagnostic counters of a frame ([engine/crates/graphics],
    [render_frame_state.rs] and the thread-local half of [render_diagnostics.rs]).

    The renderer bumps plain counters while it executes commands and drains them
    once a frame.  Two of them are decided at the draw: whether anything reached
    the driver since the previous draw, and whether the draw continues the
    previous one's range.  [draws_counted] states what they count, as a function
    of the frame's events alone. *)
From S2P Require Import Prelude.

Set Default Proof Using "Type".

Definition DEFERRED_CLEANUP_INTERVAL : Z := 250 * 1000000.
Definition DEFERRED_CLEANUP_UNUSED_AGE : Z := 200 * 1000000.

(** [DeferredCleanupCadence]: the instant of the last sweep. *)
Record DeferredCleanupCadence := { last_run : Z }.
Definition cadence_new (now : Z) : DeferredCleanupCadence := {| last_run := now |}.

Definition should_run (now : Z) (c : DeferredCleanupCadence) : bool * DeferredCleanupCadence :=
  if Z.max (now - last_run c) 0 <? DEFERRED_CLEANUP_INTERVAL then (false, c)
  else (true, {| last_run := now |}).
Definition mark_forced (now : Z) (c : DeferredCleanupCadence) : DeferredCleanupCadence :=
  {| last_run := now |}.

Record FrameDiagnosticBatch := {
  draw_calls : Z;
  state_changes : Z;
  adjacent_draws : Z;
  mergeable_draws : Z;
  texture_upload_bytes : Z;
  measure_text_hits : Z;
  measure_text_misses : Z;
  shape_cache_hits : Z;
  shape_cache_misses : Z;
  sk_image_wrapper_hits : Z;
  sk_image_wrapper_misses : Z;
  skia_context_resets : Z;
  canvas2d_snapshots_taken : Z;
  canvas2d_snapshot_fallbacks : Z;
  canvas2d_snapshot_uploads : Z;
  canvas2d_snapshot_forced_readbacks : Z;
  shadow_filter_hits : Z;
  shadow_filter_misses : Z;
  dash_effect_hits : Z;
  dash_effect_misses : Z;
  gradient_hits : Z;
  gradient_misses : Z;
  text_cache_hits : Z;
  text_cache_misses : Z;
  text_cache_bytes : option Z;
  text_cache_entries : option Z;
  render_queue_len : option Z;
  sk_image_wrappers : option Z;
  deferred_uploads : option Z;
}.

#[global] Instance eta_FrameDiagnosticBatch : Eta FrameDiagnosticBatch := λ r, {|
  draw_calls := draw_calls r; state_changes := state_changes r; adjacent_draws := adjacent_draws r;
  mergeable_draws := mergeable_draws r; texture_upload_bytes := texture_upload_bytes r;
  measure_text_hits := measure_text_hits r; measure_text_misses := measure_text_misses r;
  shape_cache_hits := shape_cache_hits r; shape_cache_misses := shape_cache_misses r;
  sk_image_wrapper_hits := sk_image_wrapper_hits r; sk_image_wrapper_misses := sk_image_wrapper_misses r;
  skia_context_resets := skia_context_resets r; canvas2d_snapshots_taken := canvas2d_snapshots_taken r;
  canvas2d_snapshot_fallbacks := canvas2d_snapshot_fallbacks r;
  canvas2d_snapshot_uploads := canvas2d_snapshot_uploads r;
  canvas2d_snapshot_forced_readbacks := canvas2d_snapshot_forced_readbacks r;
  shadow_filter_hits := shadow_filter_hits r; shadow_filter_misses := shadow_filter_misses r;
  dash_effect_hits := dash_effect_hits r; dash_effect_misses := dash_effect_misses r;
  gradient_hits := gradient_hits r; gradient_misses := gradient_misses r;
  text_cache_hits := text_cache_hits r; text_cache_misses := text_cache_misses r;
  text_cache_bytes := text_cache_bytes r; text_cache_entries := text_cache_entries r;
  render_queue_len := render_queue_len r; sk_image_wrappers := sk_image_wrappers r;
  deferred_uploads := deferred_uploads r |}.

Definition EMPTY : FrameDiagnosticBatch := {|
  draw_calls := 0; state_changes := 0; adjacent_draws := 0; mergeable_draws := 0;
  texture_upload_bytes := 0; measure_text_hits := 0; measure_text_misses := 0; shape_cache_hits := 0;
  shape_cache_misses := 0; sk_image_wrapper_hits := 0; sk_image_wrapper_misses := 0;
  skia_context_resets := 0; canvas2d_snapshots_taken := 0; canvas2d_snapshot_fallbacks := 0;
  canvas2d_snapshot_uploads := 0; canvas2d_snapshot_forced_readbacks := 0; shadow_filter_hits := 0;
  shadow_filter_misses := 0; dash_effect_hits := 0; dash_effect_misses := 0; gradient_hits := 0;
  gradient_misses := 0; text_cache_hits := 0; text_cache_misses := 0; text_cache_bytes := None;
  text_cache_entries := None; render_queue_len := None; sk_image_wrappers := None;
  deferred_uploads := None |}.

(** * Draw shapes *)

Record DrawShape := { mode : Z; elements : bool; start : Z; len : Z }.

#[global] Instance DrawShape_eq_dec : EqDecision DrawShape.
Proof. solve_decision. Defined.

Definition i32_checked_add (a b : Z) : option Z :=
  if (i32_min <=? a + b) && (a + b <=? i32_max) then Some (a + b) else None.

Definition continues_into (self next : DrawShape) : bool :=
  (mode self =? mode next) && Bool.eqb (elements self) (elements next) &&
  (0 <? len self) && (0 <? len next) &&
  bool_decide (i32_checked_add (start self) (len self) = Some (start next)).

Definition UNSIGNED_BYTE : Z := 0x1401.
Definition UNSIGNED_SHORT : Z := 0x1403.
Definition UNSIGNED_INT : Z := 0x1405.

(** Rust's [/] truncates toward zero. *)
Definition indices_from_byte_offset (offset index_type : Z) : Z :=
  if index_type =? UNSIGNED_BYTE then Z.quot offset 1
  else if index_type =? UNSIGNED_SHORT then Z.quot offset 2
  else if index_type =? UNSIGNED_INT then Z.quot offset 4
  else -1.

(** * The accumulator *)

Record FrameDiagnosticAccumulator := {
  pending : FrameDiagnosticBatch;
  state_changes_at_last_draw : Z;
  last_draw : option DrawShape;
}.

Definition accumulator_new : FrameDiagnosticAccumulator :=
  {| pending := EMPTY; state_changes_at_last_draw := 0; last_draw := None |}.

Definition u32_saturating_add (a b : Z) : Z := Z.min (a + b) u32_max.

Definition with_pending (a : FrameDiagnosticAccumulator) (b : FrameDiagnosticBatch) :
    FrameDiagnosticAccumulator :=
  {| pending := b; state_changes_at_last_draw := state_changes_at_last_draw a; last_draw := last_draw a |}.

Definition record_draw (shape : option DrawShape) (a : FrameDiagnosticAccumulator) :
    FrameDiagnosticAccumulator :=
  let p := pending a in
  let adjacent := (0 <? draw_calls p) && (state_changes p =? state_changes_at_last_draw a) in
  let p :=
    if adjacent then
      let p := p <| adjacent_draws := u32_saturating_add (adjacent_draws p) 1 |> in
      match last_draw a, shape with
      | Some prev, Some next =>
          if continues_into prev next
          then p <| mergeable_draws := u32_saturating_add (mergeable_draws p) 1 |> else p
      | _, _ => p
      end
    else p in
  {| pending := p <| draw_calls := u32_saturating_add (draw_calls p) 1 |>;
     state_changes_at_last_draw := state_changes p;
     last_draw := shape |}.

Definition bump_draw_call (a : FrameDiagnosticAccumulator) := record_draw None a.
Definition bump_draw_call_shaped (shape : DrawShape) (a : FrameDiagnosticAccumulator) :=
  record_draw (Some shape) a.

(** The methods [counter_method!] writes: a saturating increment of one counter. *)
Definition counter_method (field : FrameDiagnosticBatch → Z) `{!Setter field}
    (a : FrameDiagnosticAccumulator) : FrameDiagnosticAccumulator :=
  with_pending a ((pending a) <| field := u32_saturating_add (field (pending a)) 1 |>).

Definition bump_state_change := counter_method state_changes.
Definition hit_measure_cache := counter_method measure_text_hits.
Definition miss_measure_cache := counter_method measure_text_misses.
Definition hit_shape_cache := counter_method shape_cache_hits.
Definition miss_shape_cache := counter_method shape_cache_misses.
Definition hit_sk_image_wrapper := counter_method sk_image_wrapper_hits.
Definition miss_sk_image_wrapper := counter_method sk_image_wrapper_misses.
Definition bump_skia_context_reset := counter_method skia_context_resets.
Definition bump_canvas2d_snapshot_taken := counter_method canvas2d_snapshots_taken.
Definition bump_canvas2d_snapshot_fallback := counter_method canvas2d_snapshot_fallbacks.
Definition bump_canvas2d_snapshot_upload := counter_method canvas2d_snapshot_uploads.
Definition bump_canvas2d_snapshot_forced_readback := counter_method canvas2d_snapshot_forced_readbacks.
Definition hit_shadow_filter_cache := counter_method shadow_filter_hits.
Definition miss_shadow_filter_cache := counter_method shadow_filter_misses.
Definition hit_dash_effect_cache := counter_method dash_effect_hits.
Definition miss_dash_effect_cache := counter_method dash_effect_misses.
Definition hit_gradient_cache := counter_method gradient_hits.
Definition miss_gradient_cache := counter_method gradient_misses.
Definition hit_text_cache := counter_method text_cache_hits.
Definition miss_text_cache := counter_method text_cache_misses.

Definition add_upload_bytes (bytes : Z) (a : FrameDiagnosticAccumulator) : FrameDiagnosticAccumulator :=
  with_pending a ((pending a) <| texture_upload_bytes :=
    u32_saturating_add (texture_upload_bytes (pending a)) bytes |>).
Definition set_text_cache_gauges (bytes entries : Z) (a : FrameDiagnosticAccumulator) :
    FrameDiagnosticAccumulator :=
  with_pending a ((pending a) <| text_cache_bytes := Some bytes |> <| text_cache_entries := Some entries |>).
Definition set_render_queue_len (n : Z) (a : FrameDiagnosticAccumulator) : FrameDiagnosticAccumulator :=
  with_pending a ((pending a) <| render_queue_len := Some n |>).
Definition set_sk_image_wrapper_count (n : Z) (a : FrameDiagnosticAccumulator) : FrameDiagnosticAccumulator :=
  with_pending a ((pending a) <| sk_image_wrappers := Some n |>).
Definition set_deferred_uploads (n : Z) (a : FrameDiagnosticAccumulator) : FrameDiagnosticAccumulator :=
  with_pending a ((pending a) <| deferred_uploads := Some n |>).

(** [std::mem::take(&mut self.pending)]: the two references of the adjacency
    test keep their stale values. *)
Definition drain (a : FrameDiagnosticAccumulator) : FrameDiagnosticBatch * FrameDiagnosticAccumulator :=
  (pending a, with_pending a EMPTY).

(** * The thread's sink *)

Record HotDiagnostics := { active : bool; accumulator : FrameDiagnosticAccumulator }.

Definition hot_new : HotDiagnostics := {| active := false; accumulator := accumulator_new |}.
Definition install (h : HotDiagnostics) : HotDiagnostics :=
  {| active := true; accumulator := accumulator_new |}.
Definition with_accumulator (f : FrameDiagnosticAccumulator → FrameDiagnosticAccumulator)
    (h : HotDiagnostics) : HotDiagnostics :=
  if active h then {| active := true; accumulator := f (accumulator h) |} else h.

(** [flush_frame]: the batch to publish, when a sink is installed. *)
Definition flush_frame (h : HotDiagnostics) : option FrameDiagnosticBatch * HotDiagnostics :=
  if active h then
    let '(batch, a) := drain (accumulator h) in (Some batch, {| active := true; accumulator := a |})
  else (None, h).

(** * What the draw counters count *)

(** The events of a frame the counters see. *)
Inductive FrameEvent := StateChange | Draw (shape : option DrawShape).

Definition count_event (a : FrameDiagnosticAccumulator) (e : FrameEvent) : FrameDiagnosticAccumulator :=
  match e with
  | StateChange => bump_state_change a
  | Draw shape => record_draw shape a
  end.

(** The specification: [prev] is the previous draw of the frame when nothing was
    issued since it. *)
Fixpoint adjacent_spec (prev : option (option DrawShape)) (events : list FrameEvent) : Z * Z :=
  match events with
  | [] => (0, 0)
  | StateChange :: events => adjacent_spec None events
  | Draw shape :: events =>
      let '(a, m) := adjacent_spec (Some shape) events in
      match prev with
      | None => (a, m)
      | Some (Some p) =>
          (a + 1, m + match shape with Some s => if continues_into p s then 1 else 0 | None => 0 end)
      | Some None => (a + 1, m)
      end
  end.

Fixpoint draws_of (events : list FrameEvent) : Z :=
  match events with
  | [] => 0
  | Draw _ :: events => 1 + draws_of events
  | StateChange :: events => draws_of events
  end.

Fixpoint changes_of (events : list FrameEvent) : Z :=
  match events with
  | [] => 0
  | Draw _ :: events => changes_of events
  | StateChange :: events => 1 + changes_of events
  end.

(** * Lemmas *)

Lemma draws_of_bounds events : 0 ≤ draws_of events ≤ lenZ events.
Proof. induction events as [|[|]]; cbn [draws_of length]; lia. Qed.
Lemma changes_of_bounds events : 0 ≤ changes_of events ≤ lenZ events.
Proof. induction events as [|[|]]; cbn [changes_of length]; lia. Qed.

Lemma adjacent_spec_bounds prev events :
  0 ≤ (adjacent_spec prev events).2 ≤ (adjacent_spec prev events).1 ∧
  (adjacent_spec prev events).1 ≤ lenZ events.
Proof.
  revert prev. induction events as [|[|shape] events IH]; intros prev; cbn [adjacent_spec length]; [done| |].
  - specialize (IH None). cbn. lia.
  - specialize (IH (Some shape)). destruct (adjacent_spec (Some shape) events) as [a m]. cbn in *.
    destruct prev as [[p|]|]; cbn; [destruct shape as [s|]; [destruct (continues_into p s)|]|..]; lia.
Qed.

(** The previous draw the accumulator would compare with. *)
Definition previous (a : FrameDiagnosticAccumulator) : option (option DrawShape) :=
  if (0 <? draw_calls (pending a)) && (state_changes (pending a) =? state_changes_at_last_draw a)
  then Some (last_draw a) else None.

(** The reference was taken in this frame, at or before now. *)
Definition coherent (a : FrameDiagnosticAccumulator) : Prop :=
  0 ≤ draw_calls (pending a) ∧ 0 ≤ state_changes (pending a) ∧
  (0 < draw_calls (pending a) → state_changes_at_last_draw a ≤ state_changes (pending a)).

Lemma sat_add a b : a + b ≤ u32_max → u32_saturating_add a b = a + b.
Proof. unfold u32_saturating_add. lia. Qed.

(** One event, with room in the counters. *)
Lemma count_step a e events :
  coherent a →
  draw_calls (pending a) < u32_max → state_changes (pending a) < u32_max →
  adjacent_draws (pending a) < u32_max → mergeable_draws (pending a) < u32_max →
  let a' := count_event a e in
  coherent a' ∧
  draw_calls (pending a') = draw_calls (pending a) + draws_of [e] ∧
  state_changes (pending a') = state_changes (pending a) + changes_of [e] ∧
  adjacent_draws (pending a) ≤ adjacent_draws (pending a') ≤ adjacent_draws (pending a) + 1 ∧
  mergeable_draws (pending a) ≤ mergeable_draws (pending a') ≤ mergeable_draws (pending a) + 1 ∧
  (adjacent_spec (previous a) (e :: events)).1 =
    adjacent_draws (pending a') - adjacent_draws (pending a) + (adjacent_spec (previous a') events).1 ∧
  (adjacent_spec (previous a) (e :: events)).2 =
    mergeable_draws (pending a') - mergeable_draws (pending a) + (adjacent_spec (previous a') events).2.
Proof.
  intros (Hd & Hs & Hr) B1 B2 B3 B4. destruct e as [|shape]; cbn [count_event].
  - unfold bump_state_change, counter_method, with_pending, coherent, previous. cbn. rewrite sat_add by lia.
    replace ((0 <? draw_calls (pending a)) && (state_changes (pending a) + 1 =? state_changes_at_last_draw a))
      with false; [split; lia|].
    symmetry. apply andb_false_iff. destruct (Z.ltb_spec 0 (draw_calls (pending a))); [right|by left].
    apply Z.eqb_neq. lia.
  - unfold record_draw, previous at 1 3. cbn zeta.
    set (adj := (0 <? _) && (_ =? _)). set (p2 := if adj then _ else _).
    assert (Hp : draw_calls p2 = draw_calls (pending a) ∧ state_changes p2 = state_changes (pending a) ∧
      adjacent_draws p2 = adjacent_draws (pending a) + (if adj then 1 else 0) ∧
      mergeable_draws p2 = mergeable_draws (pending a) +
        (if adj then match last_draw a, shape with
          | Some p, Some s => if continues_into p s then 1 else 0 | _, _ => 0 end else 0)).
    { unfold p2. destruct adj; [|lia]. destruct (last_draw a) as [p|], shape as [s|];
        [destruct (continues_into p s)|..]; cbn; rewrite !sat_add by lia; lia. }
    destruct Hp as (P1 & P2 & P3 & P4). clearbody p2.
    unfold coherent, previous. cbn. rewrite !P1, P2, sat_add by lia. rewrite Z.eqb_refl.
    rewrite (proj2 (Z.ltb_lt 0 (draw_calls (pending a) + 1))) by lia. cbn [andb].
    rewrite P3, P4. destruct (adjacent_spec (Some shape) events) as [x m].
    destruct adj; cbn; [|lia]. destruct (last_draw a) as [p|], shape as [s|]; cbn; try lia.
    destruct (continues_into p s); lia.
Qed.

(** Draws and state changes counted from any coherent accumulator. *)
Lemma counted_from a events :
  coherent a →
  draw_calls (pending a) + lenZ events ≤ u32_max →
  state_changes (pending a) + lenZ events ≤ u32_max →
  adjacent_draws (pending a) + lenZ events ≤ u32_max →
  mergeable_draws (pending a) + lenZ events ≤ u32_max →
  let p := pending (fold_left count_event events a) in
  draw_calls p = draw_calls (pending a) + draws_of events ∧
  state_changes p = state_changes (pending a) + changes_of events ∧
  adjacent_draws p = adjacent_draws (pending a) + (adjacent_spec (previous a) events).1 ∧
  mergeable_draws p = mergeable_draws (pending a) + (adjacent_spec (previous a) events).2.
Proof.
  revert a. induction events as [|e events IH]; intros a Hc B1 B2 B3 B4; [cbn; lia|].
  cbn [length] in *. cbn [fold_left]. cbn zeta in IH |- *.
  destruct (count_step a e events Hc) as (Hc' & E1 & E2 & L1 & L2 & E3 & E4); [lia..|].
  pose proof (draws_of_bounds [e]) as Hb1. pose proof (changes_of_bounds [e]) as Hb2. cbn [length] in Hb1, Hb2.
  destruct (IH (count_event a e) Hc') as (-> & -> & -> & ->); [lia..|].
  rewrite E3, E4, E1, E2. destruct e; cbn [draws_of changes_of]; lia.
Qed.

(** What a frame's draw counters hold is a function of the frame's own
    events.  Whatever the accumulator held when it was drained, stale references
    included, the next frame counts its draws, its state changes, the draws that
    directly follow another, and among these the ones that continue its range. *)
Theorem draws_counted a events :
  lenZ events ≤ u32_max →
  let p := (drain (fold_left count_event events (drain a).2)).1 in
  draw_calls p = draws_of events ∧ state_changes p = changes_of events ∧
  (adjacent_draws p, mergeable_draws p) = adjacent_spec None events.
Proof.
  intros Hlen. cbn zeta. set (a0 := (drain a).2).
  destruct (counted_from a0 events) as (E1 & E2 & E3 & E4); [by cbn; unfold coherent; cbn|cbn; lia..|].
  cbn [drain fst]. rewrite E1, E2, E3, E4. cbn.
  by destruct (adjacent_spec None events).
Qed.

(** The events of a batch of two sprites: the second continues the first. *)
Lemma draws_counted_witness :
  let tri s := Draw (Some {| mode := 4; elements := false; start := s; len := 6 |}) in
  let events := [StateChange; tri 0; tri 6; StateChange; tri 12] in
  lenZ events ≤ u32_max ∧
  let p := (drain (fold_left count_event events (drain accumulator_new).2)).1 in
  draw_calls p = 3 ∧ state_changes p = 2 ∧ (adjacent_draws p, mergeable_draws p) = (1, 1).
Proof.
  cbn zeta. split; [by vm_compute|]. apply draws_counted. by vm_compute.
Defined.
