(* ===== verification/StateTracker.v ===== *)
(** The state tracker: which GL state calls must reach the driver
    ([engine/crates/graphics], [backend/gl/state_tracker.rs]).

    Every [update_*] compares a call with the canvas's shadow, records it, and
    answers whether the driver call must be issued.  A positive answer goes
    through [issue_if], which counts it; the two are threaded together as the
    state [Tracked]. *)
From S2P Require Import Prelude Keyed Commands Shadow FrameStats.

Set Default Proof Using "Type".

(** * Floating-point comparison *)

(** [PartialEq] of [f32], on its bits: a NaN equals nothing, the two zeros are
    equal. *)
Definition is_nan (x : F32) : bool := 0x7F800000 <? Z.land (bits x) 0x7FFFFFFF.
Definition is_zero (x : F32) : bool := Z.land (bits x) 0x7FFFFFFF =? 0.
Definition f32_eq (x y : F32) : bool :=
  negb (is_nan x) && negb (is_nan y) && ((bits x =? bits y) || is_zero x && is_zero y).

Definition opt_eq {A} (eq : A → A → bool) (o : option A) (x : A) : bool :=
  match o with Some y => eq y x | None => false end.

Definition f32_pair_eq (x y : F32 * F32) : bool := f32_eq x.1 y.1 && f32_eq x.2 y.2.
Definition f32_quad_eq (x y : F32 * F32 * F32 * F32) : bool :=
  let '(r, g, b, a) := x in let '(r', g', b', a') := y in
  f32_eq r r' && f32_eq g g' && f32_eq b b' && f32_eq a a'.

(** * The tracker's state and its counter *)

(** A canvas's shadow and the diagnostics of the thread. *)
Record Tracked := { gl : CanvasGLState; diag : HotDiagnostics }.
#[global] Instance eta_Tracked : Eta Tracked := λ r, {| gl := gl r; diag := diag r |}.

Definition issue_if (must_issue : bool) (t : Tracked) : bool * Tracked :=
  if must_issue then (must_issue, t <| diag := with_accumulator bump_state_change (diag t) |>)
  else (must_issue, t).

Definition put (t : Tracked) (s : CanvasGLState) : Tracked := {| gl := s; diag := diag t |}.

(** * Programs and uniforms *)

Definition update_use_program (new : Z) (t : Tracked) : bool * Tracked :=
  let s := gl t in
  if bool_decide (current_program s = Some new) then (false, t)
  else issue_if true (put t (s <| current_program := Some new |>)).

(** [state.uniform_cache.retain(|(prog, _), _| *prog != program)] *)
Definition invalidate_program_uniforms (program : Z) (s : CanvasGLState) : CanvasGLState :=
  s <| uniform_cache := filter (λ kv, kv.1.1 ≠ program) (uniform_cache s) |>.

Definition forget_deleted_program (program : Z) (s : CanvasGLState) : CanvasGLState :=
  invalidate_program_uniforms program
    (if bool_decide (current_program s = Some program) then s <| current_program := None |> else s).

Definition update_uniform `{!HashOrder (Z * Z)} (program location : Z) (value_bytes : list Z) (t : Tracked) :
    bool * Tracked :=
  let s := gl t in
  let '(must, cache) := uniform_update MAX_UNIFORM_CACHE program location value_bytes (uniform_cache s) in
  issue_if must (put t (s <| uniform_cache := cache |>)).

(** * Buffers and vertex arrays *)

Definition GL_ARRAY_BUFFER : Z := 0x8892.
Definition GL_ELEMENT_ARRAY_BUFFER : Z := 0x8893.
Definition GL_UNIFORM_BUFFER : Z := 0x8A11.
Definition GL_PIXEL_UNPACK_BUFFER : Z := 0x88EC.
Definition GL_PIXEL_PACK_BUFFER : Z := 0x88EB.
Definition GL_COPY_READ_BUFFER : Z := 0x8F36.
Definition GL_COPY_WRITE_BUFFER : Z := 0x8F37.
Definition GL_TRANSFORM_FEEDBACK_BUFFER : Z := 0x8C8E.

(** The [dedup_slot!] macro, on one buffer slot. *)
Definition dedup_slot (slot : CanvasGLState → option (option Z)) `{!Setter slot} (new : option Z)
    (t : Tracked) : bool * Tracked :=
  let s := gl t in
  if bool_decide (slot s = Some new) then (false, t)
  else issue_if true (put t (s <| slot := Some new |>)).

Definition update_bind_buffer (target : Z) (new : option Z) (t : Tracked) : bool * Tracked :=
  if target =? GL_ARRAY_BUFFER then dedup_slot bound_array_buffer new t
  else if target =? GL_ELEMENT_ARRAY_BUFFER then dedup_slot bound_element_array_buffer new t
  else if target =? GL_UNIFORM_BUFFER then dedup_slot bound_uniform_buffer new t
  else if target =? GL_PIXEL_UNPACK_BUFFER then dedup_slot bound_pixel_unpack_buffer new t
  else if target =? GL_PIXEL_PACK_BUFFER then dedup_slot bound_pixel_pack_buffer new t
  else if target =? GL_COPY_READ_BUFFER then dedup_slot bound_copy_read_buffer new t
  else if target =? GL_COPY_WRITE_BUFFER then dedup_slot bound_copy_write_buffer new t
  else if target =? GL_TRANSFORM_FEEDBACK_BUFFER then dedup_slot bound_transform_feedback_buffer new t
  else issue_if true t.

Definition update_bind_buffer_base (target index : Z) (buffer : option Z) (t : Tracked) : bool * Tracked :=
  if negb (target =? GL_UNIFORM_BUFFER) then issue_if true t
  else
    let s := gl t in
    let '(must, u) := ubo_update index (buffer, 0, 0) (bound_uniform_buffer_indexed s) in
    issue_if must (put t (s <| bound_uniform_buffer_indexed := u |>)).

Definition update_bind_buffer_range (target index : Z) (buffer : option Z) (offset size : Z) (t : Tracked) :
    bool * Tracked :=
  if negb (target =? GL_UNIFORM_BUFFER) then issue_if true t
  else
    let s := gl t in
    let '(must, u) := ubo_update index (buffer, offset, size) (bound_uniform_buffer_indexed s) in
    issue_if must (put t (s <| bound_uniform_buffer_indexed := u |>)).

Definition update_bind_vertex_array (new : option Z) (t : Tracked) : bool * Tracked :=
  let s := gl t in
  let new := default 0 new in
  if bool_decide (bound_vao s = Some new) then (false, t)
  else issue_if true (put t (s <| bound_vao := Some new |> <| bound_array_buffer := None |>
                               <| bound_element_array_buffer := None |>)).

(** * Textures *)

Definition update_active_texture (unit_ : Z) (t : Tracked) : bool * Tracked :=
  let s := gl t in
  if bool_decide (active_texture_unit s = Some unit_) then (false, t)
  else issue_if true (put t (s <| active_texture_unit := Some unit_ |>)).

Definition update_bind_texture_2d (tex : option Z) (t : Tracked) : bool * Tracked :=
  let s := gl t in
  match active_texture_unit s with
  | None => issue_if true t
  | Some unit_ =>
      let '(must, b) := tex_bind unit_ tex (bound_texture_2d s) in
      issue_if must (put t (s <| bound_texture_2d := b |>))
  end.

(** * Viewport, blending, depth *)

Definition update_viewport (x y width height : Z) (t : Tracked) : bool * Tracked :=
  let s := gl t in
  let new := (x, y, width, height) in
  if bool_decide (viewport s = Some new) then (false, t)
  else issue_if true (put t (s <| viewport := Some new |>)).

Definition update_blend_func_separate (src_rgb dst_rgb src_alpha dst_alpha : Z) (t : Tracked) : bool * Tracked :=
  let s := gl t in
  let new := {| Shadow.src_rgb := src_rgb; Shadow.dst_rgb := dst_rgb;
                Shadow.src_alpha := src_alpha; Shadow.dst_alpha := dst_alpha |} in
  if bool_decide (blend_factors s = Some new) then (false, t)
  else issue_if true (put t (s <| blend_factors := Some new |>)).

Definition update_blend_func (src dst : Z) (t : Tracked) : bool * Tracked :=
  update_blend_func_separate src dst src dst t.

Definition update_blend_equation_separate (mode_rgb mode_alpha : Z) (t : Tracked) : bool * Tracked :=
  let s := gl t in
  let new := {| Shadow.mode_rgb := mode_rgb; Shadow.mode_alpha := mode_alpha |} in
  if bool_decide (blend_equation s = Some new) then (false, t)
  else issue_if true (put t (s <| blend_equation := Some new |>)).

Definition update_blend_equation (mode : Z) (t : Tracked) : bool * Tracked :=
  update_blend_equation_separate mode mode t.

Definition update_blend_color (r g b a : F32) (t : Tracked) : bool * Tracked :=
  let s := gl t in
  let new := (r, g, b, a) in
  if opt_eq f32_quad_eq (blend_color s) new then (false, t)
  else issue_if true (put t (s <| blend_color := Some new |>)).

Definition update_depth_func (func : Z) (t : Tracked) : bool * Tracked :=
  let s := gl t in
  if bool_decide (depth_func s = Some func) then (false, t)
  else issue_if true (put t (s <| depth_func := Some func |>)).

Definition update_depth_mask (flag : bool) (t : Tracked) : bool * Tracked :=
  let s := gl t in
  if bool_decide (depth_mask s = Some flag) then (false, t)
  else issue_if true (put t (s <| depth_mask := Some flag |>)).

Definition update_depth_range (near far : F32) (t : Tracked) : bool * Tracked :=
  let s := gl t in
  let new := (near, far) in
  if opt_eq f32_pair_eq (depth_range s) new then (false, t)
  else issue_if true (put t (s <| depth_range := Some new |>)).

(** * Stencil and pixel storage *)

Definition update_stencil_func (face func ref_ mask : Z) (t : Tracked) : bool * Tracked :=
  let s := gl t in
  let '(must, f) := face_update face (func, ref_, mask) (stencil_func s) in
  issue_if must (put t (s <| stencil_func := f |>)).

Definition update_stencil_op (face sfail dpfail dppass : Z) (t : Tracked) : bool * Tracked :=
  let s := gl t in
  let '(must, f) := face_update face (sfail, dpfail, dppass) (stencil_op s) in
  issue_if must (put t (s <| stencil_op := f |>)).

Definition update_stencil_mask (face mask : Z) (t : Tracked) : bool * Tracked :=
  let s := gl t in
  let '(must, f) := face_update face mask (stencil_mask s) in
  issue_if must (put t (s <| stencil_mask := f |>)).

Definition update_pixel_store_i32 (pname param : Z) (t : Tracked) : bool * Tracked :=
  let s := gl t in
  let '(must, p) := px_update pname param (pixel_store_i32 s) in
  issue_if must (put t (s <| pixel_store_i32 := p |>)).

(** * Rasterization *)

Definition update_cull_face (mode : Z) (t : Tracked) : bool * Tracked :=
  let s := gl t in
  if bool_decide (cull_face s = Some mode) then (false, t)
  else issue_if true (put t (s <| cull_face := Some mode |>)).

Definition update_front_face (mode : Z) (t : Tracked) : bool * Tracked :=
  let s := gl t in
  if bool_decide (front_face s = Some mode) then (false, t)
  else issue_if true (put t (s <| front_face := Some mode |>)).

Definition update_scissor (x y width height : Z) (t : Tracked) : bool * Tracked :=
  let s := gl t in
  let rect := (x, y, width, height) in
  if bool_decide (last_scissor_rect s = Some rect) then (false, t)
  else
    let s := s <| last_scissor_rect := Some rect |> in
    let s := if bool_decide (scissor s = ScissorDisabled) then s
             else s <| scissor := ScissorEnabled x y width height |> in
    issue_if true (put t s).

Definition update_line_width (width : F32) (t : Tracked) : bool * Tracked :=
  let s := gl t in
  if opt_eq f32_eq (line_width s) width then (false, t)
  else issue_if true (put t (s <| line_width := Some width |>)).

Definition update_polygon_offset (factor units : F32) (t : Tracked) : bool * Tracked :=
  let s := gl t in
  let new := (factor, units) in
  if opt_eq f32_pair_eq (polygon_offset s) new then (false, t)
  else issue_if true (put t (s <| polygon_offset := Some new |>)).

(** * Capabilities *)

Definition update_enable (cap : Z) (t : Tracked) : bool * Tracked :=
  let s := gl t in
  let '(changed, c) := cap_enable cap (capabilities s) in
  issue_if (changed || (cap =? STENCIL_TEST)) (put t (s <| capabilities := c |>)).

Definition update_disable (cap : Z) (t : Tracked) : bool * Tracked :=
  let s := gl t in
  let '(changed, c) := cap_disable cap (capabilities s) in
  issue_if (changed || (cap =? STENCIL_TEST)) (put t (s <| capabilities := c |>)).

(** * Framebuffers *)

Definition update_bind_framebuffer (target : Z) (fb : option Z) (t : Tracked) : bool * Tracked :=
  let s := gl t in
  let '(must, f) := fb_update target fb (bound_framebuffer s) in
  issue_if must (put t (s <| bound_framebuffer := f |>)).

Definition record_default_framebuffer_bind (s : CanvasGLState) : CanvasGLState :=
  s <| bound_framebuffer := fb_set_all None (bound_framebuffer s) |> <| draws_to_default_fbo := true |>.

Definition update_bind_renderbuffer (rb : option Z) (t : Tracked) : bool * Tracked :=
  dedup_slot bound_renderbuffer rb t.

Definition update_color_mask (r g b a : bool) (t : Tracked) : bool * Tracked :=
  let s := gl t in
  let new := (r, g, b, a) in
  if bool_decide (color_mask s = new) then (false, t)
  else issue_if true (put t (s <| color_mask := new |>)).

(** * Vertex attributes *)

Definition update_enable_vertex_attrib (index : Z) (t : Tracked) : bool * Tracked :=
  let s := gl t in
  let vao := default 0 (bound_vao s) in
  let '(must, v) := va_enable vao index (vertex_attribs s) in
  issue_if must (put t (s <| vertex_attribs := v |>)).

Definition update_disable_vertex_attrib (index : Z) (t : Tracked) : bool * Tracked :=
  let s := gl t in
  let vao := default 0 (bound_vao s) in
  let '(must, v) := va_disable vao index (vertex_attribs s) in
  issue_if must (put t (s <| vertex_attribs := v |>)).

Definition update_vertex_attrib_pointer (index size type_ : Z) (normalized : bool) (stride offset : Z)
    (t : Tracked) : bool * Tracked :=
  let s := gl t in
  let vao := default 0 (bound_vao s) in
  let fp := {| fp_size := size; fp_type_ := type_; fp_normalized := normalized; fp_stride := stride;
               fp_offset := offset; fp_array_buffer := mjoin (bound_array_buffer s) |} in
  let '(must, v) := update_pointer vao index fp (vertex_attribs s) in
  issue_if must (put t (s <| vertex_attribs := v |>)).

Definition update_vertex_attrib_divisor (index d : Z) (t : Tracked) : bool * Tracked :=
  let s := gl t in
  let vao := default 0 (bound_vao s) in
  let '(must, v) := update_divisor vao index d (vertex_attribs s) in
  issue_if must (put t (s <| vertex_attribs := v |>)).
