(* ===== verification/Errors.v ===== *)
(** The error codes every engine crate reports ([engine/crates/shared/src/error/codes.rs]). *)
From S2P Require Import Prelude.

Set Default Proof Using "Type".

Inductive ErrorCode :=
  | Ok | Internal | InvalidArgument | NotFound | PermissionDenied | Timeout | Unsupported | NotImplemented
  | Cancelled | Disconnected | InvalidOperation | InputSaturated | IoError | BadFileDescriptor
  | ExceedMaxConcurrentFdLimit | ArrayBufferDoesNotExist | JsException | ModuleLoadError | OutOfMemory
  | JsExecutionTimeout | HostPanic | Anr | CodeSignatureInvalid | CodeIntegrityFailed | ImageReadError
  | InvalidImageBuffer | RenderBackendError | ShaderCompileError | ProgramLinkError | RenderLibraryLoadError
  | RenderSymbolLoadError | RenderBindApiError | RenderGetDisplayError | RenderInitializeError
  | RenderChooseConfigError | RenderCreateSurfaceError | RenderCreateContextError | RenderMakeCurrentError
  | RenderSwapIntervalError | RenderSwapBuffersError | RenderInvalidStateError | Render2DInitError
  | Render2DResourceError.
#[global] Instance ErrorCode_eq_dec : EqDecision ErrorCode.
Proof. solve_decision. Defined.

Definition default_message (code : ErrorCode) : string :=
  match code with
  | Ok => "ok"
  | Internal => "internal error"
  | InvalidArgument => "invalid argument"
  | NotFound => "not found"
  | PermissionDenied => "permission denied"
  | Timeout => "timeout"
  | Unsupported => "unsupported"
  | NotImplemented => "not implemented"
  | Cancelled => "cancelled"
  | Disconnected => "disconnected"
  | InvalidOperation => "invalid operation"
  | InputSaturated => "input transport saturated"
  | IoError => "io error"
  | BadFileDescriptor => "bad file descriptor"
  | ExceedMaxConcurrentFdLimit => "too many open files"
  | ArrayBufferDoesNotExist => "array buffer does not exist"
  | JsException => "js exception"
  | ModuleLoadError => "module load error"
  | OutOfMemory => "out of memory"
  | JsExecutionTimeout => "js execution timeout"
  | HostPanic => "host thread panic"
  | Anr => "application not responding"
  | CodeSignatureInvalid => "code signature invalid"
  | CodeIntegrityFailed => "code integrity check failed"
  | ImageReadError => "image read error"
  | InvalidImageBuffer => "invalid image buffer"
  | RenderBackendError => "render backend error"
  | ShaderCompileError => "shader compile error"
  | ProgramLinkError => "program link error"
  | RenderLibraryLoadError => "render library load error"
  | RenderSymbolLoadError => "render symbol load error"
  | RenderBindApiError => "render bind api error"
  | RenderGetDisplayError => "render get display error"
  | RenderInitializeError => "render initialize error"
  | RenderChooseConfigError => "render choose config error"
  | RenderCreateSurfaceError => "render create surface error"
  | RenderCreateContextError => "render create context error"
  | RenderMakeCurrentError => "render make current error"
  | RenderSwapIntervalError => "render swap interval error"
  | RenderSwapBuffersError => "render swap buffers error"
  | RenderInvalidStateError => "render invalid state error"
  | Render2DInitError => "render 2d init error"
  | Render2DResourceError => "render 2d resource error"
  end.

(** [#[repr(u16)]]: the discriminants. *)
Definition as_u16 (code : ErrorCode) : Z :=
  match code with
  | Ok => 0 | Internal => 1 | InvalidArgument => 2 | NotFound => 3 | PermissionDenied => 4 | Timeout => 5
  | Unsupported => 6 | NotImplemented => 7 | Cancelled => 8 | Disconnected => 9 | InvalidOperation => 10
  | InputSaturated => 11 | IoError => 100 | BadFileDescriptor => 101 | ExceedMaxConcurrentFdLimit => 102
  | ArrayBufferDoesNotExist => 200 | JsException => 201 | ModuleLoadError => 202 | OutOfMemory => 203
  | JsExecutionTimeout => 204 | HostPanic => 205 | Anr => 206 | CodeSignatureInvalid => 207
  | CodeIntegrityFailed => 208 | ImageReadError => 300 | InvalidImageBuffer => 301
  | RenderBackendError => 400 | ShaderCompileError => 401 | ProgramLinkError => 402
  | RenderLibraryLoadError => 403 | RenderSymbolLoadError => 404 | RenderBindApiError => 405
  | RenderGetDisplayError => 406 | RenderInitializeError => 407 | RenderChooseConfigError => 408
  | RenderCreateSurfaceError => 409 | RenderCreateContextError => 410 | RenderMakeCurrentError => 411
  | RenderSwapIntervalError => 412 | RenderSwapBuffersError => 413 | RenderInvalidStateError => 414
  | Render2DInitError => 420 | Render2DResourceError => 421
  end.

(** [TryFrom<u16>]. *)
Definition code_try_from (v : Z) : option ErrorCode :=
  match v with
  | 0 => Some Ok | 1 => Some Internal | 2 => Some InvalidArgument | 3 => Some NotFound
  | 4 => Some PermissionDenied | 5 => Some Timeout | 6 => Some Unsupported | 7 => Some NotImplemented
  | 8 => Some Cancelled | 9 => Some Disconnected | 10 => Some InvalidOperation | 11 => Some InputSaturated
  | 100 => Some IoError | 101 => Some BadFileDescriptor | 102 => Some ExceedMaxConcurrentFdLimit
  | 200 => Some ArrayBufferDoesNotExist | 201 => Some JsException | 202 => Some ModuleLoadError
  | 203 => Some OutOfMemory | 204 => Some JsExecutionTimeout | 205 => Some HostPanic | 206 => Some Anr
  | 207 => Some CodeSignatureInvalid | 208 => Some CodeIntegrityFailed | 300 => Some ImageReadError
  | 301 => Some InvalidImageBuffer | 400 => Some RenderBackendError | 401 => Some ShaderCompileError
  | 402 => Some ProgramLinkError | 403 => Some RenderLibraryLoadError | 404 => Some RenderSymbolLoadError
  | 405 => Some RenderBindApiError | 406 => Some RenderGetDisplayError | 407 => Some RenderInitializeError
  | 408 => Some RenderChooseConfigError | 409 => Some RenderCreateSurfaceError
  | 410 => Some RenderCreateContextError | 411 => Some RenderMakeCurrentError
  | 412 => Some RenderSwapIntervalError | 413 => Some RenderSwapBuffersError
  | 414 => Some RenderInvalidStateError | 420 => Some Render2DInitError | 421 => Some Render2DResourceError
  | _ => None
  end.

(** The two tables agree. *)
Lemma code_round_trip v code : code_try_from v = Some code ↔ as_u16 code = v.
Proof.
  split; [|intros <-; by destruct code].
  unfold code_try_from. repeat case_match; by intros [= <-].
Qed.
