(* ===== verification/FrameDamage.v ===== *)
(** What a frame damages, from the effect of each operation to the region that is
    presented ([engine/crates/graphics/src/damage_effect.rs], and
    [current_damage_region] and [commit_present_outcome] of
    [canvas/manager/mod.rs]).

    The theorem is that no pixel of the surface is lost between the two. *)
From S2P Require Import Prelude Damage.

Set Default Proof Using "Type".

(** * Effects and their accumulation *)

Inductive DamageEffect :=
  | NoDamage
  | OnscreenRect (x y width height : Z)
  | FullSurface.

#[global] Instance DamageEffect_eq_dec : EqDecision DamageEffect.
Proof. solve_decision. Defined.

Definition intersect_rects {E} (a b : Z * Z * Z * Z) : outcome E (option (Z * Z * Z * Z)) :=
  let '(ax, ay, aw, ah) := a in
  let '(bx, by_, bw, bh) := b in
  let left := Z.max ax bx in
  let top := Z.max ay by_ in
  aright ← i32_add ax aw; bright ← i32_add bx bw;
  let right := Z.min aright bright in
  abottom ← i32_add ay ah; bbottom ← i32_add by_ bh;
  let bottom := Z.min abottom bbottom in
  if (left <? right) && (top <? bottom) then
    w ← i32_sub right left; h ← i32_sub bottom top; Ret (Some (left, top, w, h))
  else Ret None.

Record FrameDamageAccumulator := { acc_rects : list Tracker.rect; acc_full : bool }.

Definition acc_new : FrameDamageAccumulator := {| acc_rects := []; acc_full := false |}.

(** Past the cap the held rects and the incoming one become their bounding box:
    the corners are grown from the incoming rect, as [Tracker.box_of] does. *)
Definition acc_add (effect : DamageEffect) (acc : FrameDamageAccumulator) : result FrameDamageAccumulator :=
  match effect with
  | NoDamage => mret acc
  | OnscreenRect x y width height =>
      if (width <=? 0) || (height <=? 0) then mret acc else
      if lenZ (acc_rects acc) <? Tracker.MAX_DAMAGE_RECTS
      then mret {| acc_rects := acc_rects acc ++ [(x, y, width, height)]; acc_full := acc_full acc |}
      else
        box ← Tracker.box_of (x, y, width, height) (acc_rects acc);
        mret {| acc_rects := [box]; acc_full := acc_full acc |}
  | FullSurface => mret {| acc_rects := acc_rects acc; acc_full := true |}
  end.

Definition acc_tracker (acc : FrameDamageAccumulator) (surface_size : Z * Z) : result Tracker.DamageTracker :=
  tracker ← Tracker.mark_all (Tracker.new surface_size) (acc_rects acc);
  mret (if acc_full acc then Tracker.mark_requires_full_redraw tracker else tracker).

Definition acc_resolve (acc : FrameDamageAccumulator) (surface_size : Z * Z) : result Tracker.ResolvedDamage :=
  tracker ← acc_tracker acc surface_size; Tracker.resolve tracker.

Definition acc_resolve_rects (acc : FrameDamageAccumulator) (surface_size : Z * Z) :
    result (option (list Tracker.rect)) :=
  tracker ← acc_tracker acc surface_size; Tracker.resolve_rects tracker.

Definition has_damage (acc : FrameDamageAccumulator) : bool :=
  negb (lenZ (acc_rects acc) =? 0) || acc_full acc.

Definition accumulated_rect (acc : FrameDamageAccumulator) : result (option Tracker.rect) :=
  Tracker.dirty_aabb (acc_rects acc).

Definition acc_reset (acc : FrameDamageAccumulator) : FrameDamageAccumulator := {| acc_rects := []; acc_full := false |}.

(** * Presenting *)

(** The loop over the resolved rects. *)
Fixpoint region_of_rects (region : option Present.DamageRegion) (rs : list Tracker.rect) : result Present.DamageRegion :=
  match rs with
  | [] => mret (default Present.FullSurface region)
  | (x, y, w, h) :: rs =>
      match Present.new x y w h with
      | None => mret Present.FullSurface
      | Some rect =>
          region ← match region with
                   | None => mret (Present.from_rect rect)
                   | Some acc => Present.union acc (Present.from_rect rect)
                   end;
          region_of_rects (Some region) rs
      end
  end.

Definition current_damage_region (acc : FrameDamageAccumulator) (surface_w surface_h : Z) :
    result Present.DamageRegion :=
  rs ← acc_resolve_rects acc (u32_as_i32 surface_w, u32_as_i32 surface_h);
  match rs with
  | None => mret Present.FullSurface
  | Some rs => region_of_rects None rs
  end.

Definition region_to_resolved (region : Present.DamageRegion) : result Tracker.ResolvedDamage :=
  rect ← Present.bounding_rect region;
  mret (match rect with
        | None => Tracker.FullSurface
        | Some r => let '(x, y, w, h) := Present.xywh r in Tracker.Partial x y w h
        end).

Inductive PresentCommit :=
  | Retry
  | Presented (damage : Tracker.ResolvedDamage)
  | PresentedPartial.

Definition commit_present_outcome (damage : FrameDamageAccumulator) (history : Present.PresentDamageHistory)
    (swap_succeeded blit_succeeded : bool) (plan : Present.PresentDamagePlan) :
    result (PresentCommit * FrameDamageAccumulator * Present.PresentDamageHistory) :=
  if negb swap_succeeded then mret (Retry, damage, history) else
  let damage := acc_reset damage in
  if blit_succeeded then
    history ← Present.history_push history (Present.current plan);
    shown ← region_to_resolved (Present.current plan);
    mret (Presented shown, damage, history)
  else
    history ← Present.history_push (Present.history_clear history) Present.FullSurface;
    damage ← acc_add FullSurface damage;
    mret (PresentedPartial, damage, history).

(** * The specification *)

Definition in_rect (x y w h : Z) (p : Z * Z) : Prop := x ≤ p.1 < x + w ∧ y ≤ p.2 < y + h.

Definition in_damage (e : DamageEffect) (p : Z * Z) : Prop :=
  match e with
  | NoDamage => False
  | OnscreenRect x y w h => in_rect x y w h p
  | FullSurface => True
  end.

Definition acc_covers (acc : FrameDamageAccumulator) (p : Z * Z) : Prop :=
  acc_full acc = true ∨ Exists (λ r, Tracker.covers r p) (acc_rects acc).

(** A rect with [i32] fields and an inside. *)
Definition held (r : Tracker.rect) : Prop :=
  let '(x, y, w, h) := r in is_i32 x ∧ is_i32 y ∧ 0 < w ≤ i32_max ∧ 0 < h ≤ i32_max.

Definition acc_ok (acc : FrameDamageAccumulator) : Prop :=
  lenZ (acc_rects acc) ≤ Tracker.MAX_DAMAGE_RECTS ∧ Forall held (acc_rects acc).

Definition effect_i32 (e : DamageEffect) : Prop :=
  match e with OnscreenRect x y w h => is_i32 x ∧ is_i32 y ∧ is_i32 w ∧ is_i32 h | _ => True end.

(** ** Adding *)

Lemma i32_add_inv {E} a b c : i32_add (E:=E) a b = Ret c → c = a + b ∧ is_i32 c.
Proof.
  unfold i32_add, is_i32. destruct (Z.leb_spec i32_min (a + b)), (Z.leb_spec (a + b) i32_max); cbn [andb]; intros [= <-].
  unfold i32_min, i32_max in *. lia.
Qed.

Lemma i32_sub_inv {E} a b c : i32_sub (E:=E) a b = Ret c → c = a - b ∧ is_i32 c.
Proof.
  unfold i32_sub, is_i32. destruct (Z.leb_spec i32_min (a - b)), (Z.leb_spec (a - b) i32_max); cbn [andb]; intros [= <-].
  unfold i32_min, i32_max in *. lia.
Qed.

(** Whatever the corners, those returned are around them and around the rects. *)
Lemma grow_grows rs : ∀ l t r b l' t' r' b',
  Tracker.grow l t r b rs = Ret (l', t', r', b') →
  l' ≤ l ∧ t' ≤ t ∧ r ≤ r' ∧ b ≤ b' ∧ (is_i32 l → Forall held rs → is_i32 l') ∧ (is_i32 t → Forall held rs → is_i32 t') ∧
  Forall (λ '(x, y, w, h), l' ≤ x ∧ t' ≤ y ∧ x + w ≤ r' ∧ y + h ≤ b') rs.
Proof.
  induction rs as [|[[[x y] w] h] rs IH]; intros l t r b l' t' r' b'; cbn [Tracker.grow].
  { intros [= <- <- <- <-]. split_and!; try lia; auto. }
  destruct (i32_add x w) as [xr|e| |] eqn:Ex; try done. cbn [mbind outcome_bind mret outcome_ret].
  destruct (i32_add y h) as [yb|e| |] eqn:Ey; try done. cbn [mbind outcome_bind mret outcome_ret].
  apply i32_add_inv in Ex as [-> _], Ey as [-> _]. intros E%IH. destruct E as (H1 & H2 & H3 & H4 & H5 & H6 & H7).
  split_and!; try lia.
  - intros Hl Hf. apply Forall_cons in Hf as [(Hx & _) Hf]. apply H5; [|done]. by destruct (Z.min_spec l x) as [[_ ->]|[_ ->]].
  - intros Ht Hf. apply Forall_cons in Hf as [(_ & Hy & _) Hf]. apply H6; [|done]. by destruct (Z.min_spec t y) as [[_ ->]|[_ ->]].
  - apply Forall_cons. split; [lia|done].
Qed.

(** The shape of an accumulator, whatever its numbers. *)
Definition acc_shaped (acc : FrameDamageAccumulator) : Prop :=
  lenZ (acc_rects acc) ≤ Tracker.MAX_DAMAGE_RECTS ∧ Forall (λ '(x, y, w, h), 0 < w ∧ 0 < h) (acc_rects acc).

Lemma acc_add_covers e acc acc' :
  acc_shaped acc → acc_add e acc = Ret acc' →
  acc_shaped acc' ∧ ∀ p, acc_covers acc p ∨ in_damage e p → acc_covers acc' p.
Proof.
  intros [Hl Hh]. destruct e as [|x y w h|]; cbn [acc_add].
  - intros [= <-]. split; [done|]. cbn. tauto.
  - destruct (Z.leb_spec w 0), (Z.leb_spec h 0); cbn [orb];
      try (intros [= <-]; split; [done|]; cbn; unfold in_rect; intros p [?|?]; [done|lia]).
    destruct (Z.ltb_spec (lenZ (acc_rects acc)) Tracker.MAX_DAMAGE_RECTS) as [Hlt|Hge].
    + intros [= <-]. split.
      * split; cbn [acc_rects]; [rewrite length_app; cbn; unfold Tracker.MAX_DAMAGE_RECTS in *; lia|].
        apply Forall_app. split; [done|]. by apply Forall_singleton.
      * unfold acc_covers. cbn [acc_rects acc_full]. intros p. rewrite Exists_app, Exists_cons, Exists_nil.
        cbn [Tracker.covers in_damage fst snd]. unfold in_rect. tauto.
    + unfold Tracker.box_of. destruct (i32_add x w) as [xr|e| |] eqn:Ex; try done. cbn [mbind outcome_bind].
      destruct (i32_add y h) as [yb|e| |] eqn:Ey; try done. cbn [mbind outcome_bind].
      apply i32_add_inv in Ex as [-> _], Ey as [-> _].
      destruct (Tracker.grow _ _ _ _ _) as [[[[l t] r] b]|e| |] eqn:Eg; try done. cbn [mbind outcome_bind].
      destruct (i32_sub r l) as [bw|e| |] eqn:Ew; try done. cbn [mbind outcome_bind].
      destruct (i32_sub b t) as [bh|e| |] eqn:Eh; try done. cbn [mbind outcome_bind].
      apply i32_sub_inv in Ew as [-> _], Eh as [-> _]. intros [= <-].
      apply grow_grows in Eg as (H1 & H2 & H3 & H4 & _ & _ & H7). split.
      * split; cbn [acc_rects]; [cbn; unfold Tracker.MAX_DAMAGE_RECTS; lia|]. apply Forall_singleton. lia.
      * unfold acc_covers. cbn [acc_rects acc_full in_damage]. intros p [[Hf|Hp]|Hp]; [by left|right..]; apply Exists_cons; left;
          unfold Tracker.covers, in_rect in *; cbn [fst snd].
        -- apply Exists_exists in Hp as ([[[x' y'] w'] h'] & Hin & Hp). rewrite Forall_forall in H7.
           specialize (H7 _ Hin). cbn in H7, Hp. lia.
        -- lia.
  - intros [= <-]. split; [done|]. intros p _. by left.
Qed.

(** With [i32] numbers, as the fields have. *)
Definition acc_i32 (acc : FrameDamageAccumulator) : Prop :=
  Forall (λ '(x, y, w, h), is_i32 x ∧ is_i32 y ∧ is_i32 w ∧ is_i32 h) (acc_rects acc).

Lemma held_iff acc : acc_ok acc ↔ acc_shaped acc ∧ acc_i32 acc.
Proof.
  unfold acc_ok, acc_shaped, acc_i32. rewrite !Forall_forall. split.
  - intros [Hl Hh]. split; [split; [done|]|]; intros [[[x y] w] h] Hin; specialize (Hh _ Hin);
      unfold held, is_i32, i32_max in *; lia.
  - intros [[Hl Hs] Hi]. split; [done|]. intros [[[x y] w] h] Hin. specialize (Hs _ Hin). specialize (Hi _ Hin).
    cbn in Hs, Hi. unfold held, is_i32, i32_max in *. lia.
Qed.

Lemma acc_add_i32 e acc acc' : effect_i32 e → acc_ok acc → acc_add e acc = Ret acc' → acc_i32 acc'.
Proof.
  intros He [Hl Hh]. assert (Hi : acc_i32 acc) by by apply held_iff. destruct e as [|x y w h|]; cbn [acc_add].
  - by intros [= <-].
  - destruct (_ || _); [by intros [= <-]|]. destruct (_ <? _).
    { intros [= <-]. apply Forall_app. split; [done|]. by apply Forall_singleton. }
    unfold Tracker.box_of. destruct (i32_add x w) as [xr|e| |]; try done. cbn [mbind outcome_bind].
    destruct (i32_add y h) as [yb|e| |]; try done. cbn [mbind outcome_bind].
    destruct (Tracker.grow _ _ _ _ _) as [[[[l t] r] b]|e| |] eqn:Eg; try done. cbn [mbind outcome_bind].
    destruct (i32_sub r l) as [bw|e| |] eqn:Ew; try done. cbn [mbind outcome_bind].
    destruct (i32_sub b t) as [bh|e| |] eqn:Eh; try done. cbn [mbind outcome_bind]. intros [= <-].
    apply i32_sub_inv in Ew as [_ Hw], Eh as [_ Hbh]. apply grow_grows in Eg as (_ & _ & _ & _ & H5 & H6 & _).
    destruct He as (Hx & Hy & _). apply Forall_singleton. split_and!; [by apply H5|by apply H6|done|done].
  - by intros [= <-].
Qed.

Lemma acc_add_spec e acc acc' :
  effect_i32 e → acc_ok acc → acc_add e acc = Ret acc' →
  acc_ok acc' ∧ ∀ p, acc_covers acc p ∨ in_damage e p → acc_covers acc' p.
Proof.
  intros He Ha E. assert (Hs : acc_shaped acc) by by apply held_iff.
  destruct (acc_add_covers e acc acc' Hs E) as [Hs' Hc]. split; [|done]. apply held_iff. split; [done|]. by eapply acc_add_i32.
Qed.

(** ** Resolving *)

(** Up to the cap no mark collapses the tracker: each rect is kept, or makes the
    frame a full one. *)
Lemma mark_few rs : ∀ t,
  lenZ (Tracker.dirty t) + lenZ rs ≤ Tracker.MAX_DAMAGE_RECTS → Forall Tracker.usable (Tracker.dirty t) → Forall held rs →
  ∃ t', Tracker.mark_all t rs = Ret t' ∧ Forall Tracker.usable (Tracker.dirty t') ∧
    lenZ (Tracker.dirty t') ≤ Tracker.MAX_DAMAGE_RECTS ∧ Tracker.surface_size t' = Tracker.surface_size t ∧
    ∀ p, Tracker.recorded t p ∨ Exists (λ r, Tracker.covers r p) rs → Tracker.recorded t' p.
Proof.
  induction rs as [|[[[x y] w] h] rs IH]; intros t Hl Ht Hrs; cbn [Tracker.mark_all].
  { exists t. cbn in Hl. split_and!; try done; try lia. intros p [?|H]; [done|by apply Exists_nil in H]. }
  apply Forall_cons in Hrs as [(Hx & Hy & Hw & Hh) Hrs]. unfold is_i32 in Hx, Hy. cbn [length] in Hl. unfold Tracker.mark_rect.
  rewrite (proj2 (Z.leb_gt w 0)), (proj2 (Z.leb_gt h 0)) by lia. cbn [orb].
  destruct (Z.ltb_spec i32_max (x + w)) as [Ho|Ho]; [|destruct (Z.ltb_spec i32_max (y + h)) as [Ho'|Ho']]; cbn [orb].
  1,2: cbn [mbind outcome_bind mret outcome_ret]; destruct (IH {| Tracker.surface_size := Tracker.surface_size t; Tracker.dirty := Tracker.dirty t;
        Tracker.force_full := true |}) as (t' & -> & H1 & H2 & H3 & H4); [cbn [Tracker.dirty]; lia|done|done|];
      exists t'; split_and!; try done; intros p _; apply H4; left; by left.
  rewrite (proj2 (Z.ltb_lt _ _)) by lia. cbn [mbind outcome_bind mret outcome_ret].
  match goal with |- context [Tracker.mark_all ?t0 rs] => destruct (IH t0) as (t' & -> & H1 & H2 & H3 & H4) end; [|..|done|].
  - cbn [Tracker.dirty]. rewrite length_app. cbn [length]. lia.
  - cbn [Tracker.dirty]. apply Forall_app. split; [done|]. apply Forall_singleton. unfold Tracker.usable, i32_min, i32_max in *. lia.
  - exists t'. split_and!; try done. intros p Hp. apply H4. unfold Tracker.recorded in *.
    cbn [Tracker.dirty Tracker.force_full]. rewrite Exists_app, Exists_cons, Exists_nil. rewrite Exists_cons in Hp. tauto.
Qed.

Lemma acc_tracker_spec acc size :
  acc_ok acc → ∃ t, acc_tracker acc size = Ret t ∧ Forall Tracker.usable (Tracker.dirty t) ∧
    lenZ (Tracker.dirty t) ≤ Tracker.MAX_DAMAGE_RECTS ∧ Tracker.surface_size t = size ∧
    ∀ p, acc_covers acc p → Tracker.recorded t p.
Proof.
  intros [Hl Hh]. unfold acc_tracker.
  destruct (mark_few (acc_rects acc) (Tracker.new size)) as (t & -> & H1 & H2 & H3 & H4); [done|done|done|].
  cbn [mbind outcome_bind mret outcome_ret]. destruct (acc_full acc) eqn:Ef; eexists; (split; [reflexivity|]); split_and!; try done.
  - intros p _. by left.
  - intros p [Hf|Hp]; [congruence|]. apply H4. by right.
Qed.

(** A box around every rect there is. *)
Definition everywhere : Tracker.rect := (i32_min, i32_min, i32_max, i32_max).

Lemma usable_kept r : Tracker.usable r → Tracker.kept everywhere r.
Proof. destruct r as [[[x y] w] h]. intros Hu. split; [done|]. unfold Tracker.usable in Hu. cbn. lia. Qed.

Lemma acc_resolve_rects_spec acc w h :
  acc_ok acc → is_i32 w → is_i32 h →
  ∃ o, acc_resolve_rects acc (w, h) = Ret o ∧
    match o with
    | None => True
    | Some out => ∀ p, 0 ≤ p.1 < w → 0 ≤ p.2 < h → acc_covers acc p → Exists (λ r, Tracker.covers r p) out
    end.
Proof.
  intros Ha Hw Hh. unfold acc_resolve_rects.
  destruct (acc_tracker_spec acc (w, h) Ha) as (t & -> & H1 & H2 & H3 & H4). cbn [mbind outcome_bind mret outcome_ret].
  destruct (Tracker.resolve_rects_spec everywhere t) as (o & -> & Ho).
  - split; [done|]. eapply Forall_impl; [exact H1|]. apply usable_kept.
  - unfold Tracker.sized. rewrite H3. done.
  - exists o. split; [done|]. destruct o as [out|]; [|done]. destruct Ho as (_ & _ & Ho). intros p Hp1 Hp2 Hp.
    apply Ho. split; [unfold Tracker.on_surface; by rewrite H3|by apply H4].
Qed.

(** What is clipped starts at the origin or past it. *)
Lemma clip_nonneg sw sh rs : ∀ out, Tracker.clip_rects sw sh rs = Ret out → Forall (λ '(x, y, w, h), 0 ≤ x ∧ 0 ≤ y) out.
Proof.
  induction rs as [|[[[x y] w] h] rs IH]; intros out; cbn [Tracker.clip_rects]; [by intros [= <-]|].
  destruct (i32_add x w) as [xr|e| |]; try done. cbn [mbind outcome_bind mret outcome_ret].
  destruct (i32_add y h) as [yb|e| |]; try done. cbn [mbind outcome_bind mret outcome_ret]. destruct (_ || _); [apply IH|].
  destruct (i32_sub _ (Z.max x 0)) as [bw|e| |]; try done. cbn [mbind outcome_bind mret outcome_ret].
  destruct (i32_sub _ (Z.max y 0)) as [bh|e| |]; try done. cbn [mbind outcome_bind mret outcome_ret].
  destruct (Tracker.clip_rects sw sh rs) as [out'|e| |]; try done. cbn [mbind outcome_bind mret outcome_ret]. intros [= <-].
  apply Forall_cons. split; [lia|by apply IH].
Qed.

Lemma resolved_nonneg acc size out :
  acc_resolve_rects acc size = Ret (Some out) → Forall (λ '(x, y, w, h), 0 ≤ x ∧ 0 ≤ y) out.
Proof.
  unfold acc_resolve_rects. destruct (acc_tracker acc size) as [t|e| |]; try done. cbn [mbind outcome_bind mret outcome_ret].
  unfold Tracker.resolve_rects. destruct (Tracker.force_full t); [done|]. destruct (Tracker.surface_size t) as [sw sh].
  destruct (_ || _); [done|]. destruct (Tracker.clip_rects sw sh (Tracker.dirty t)) as [l|e| |] eqn:E; try done.
  cbn [mbind outcome_bind mret outcome_ret]. destruct l as [|r l]; [done|]. destruct (existsb _ _); [done|]. intros [= <-].
  by eapply clip_nonneg.
Qed.

Lemma new_spec x y w h r :
  0 ≤ x → 0 ≤ y → Present.new x y w h = Some r →
  Present.rect_ok r ∧ ∀ p, Present.covers r p ↔ Tracker.covers (x, y, w, h) p.
Proof.
  intros Hx Hy. unfold Present.new. destruct (Z.leb_spec w 0), (Z.leb_spec h 0); cbn [orb]; try done.
  destruct (i64_checked_add x w) as [r0|] eqn:E1; [|done]. destruct (i64_checked_add y h) as [t0|] eqn:E2; [|done].
  assert (r0 = x + w ∧ t0 = y + h) as [-> ->] by (unfold i64_checked_add in *; split; repeat case_match; congruence).
  destruct (Z.ltb_spec i32_max (x + w)), (Z.ltb_spec i32_max (y + h)); cbn [orb]; try done. intros E.
  assert (r = {| Present.x := x; Present.y := y; Present.width := w; Present.height := h |}) as -> by congruence.
  split; [|intros p; reflexivity]. unfold Present.rect_ok, i32_min, i32_max in *. cbn. lia.
Qed.

Lemma region_of_rects_spec rs : ∀ region,
  Forall (λ '(x, y, w, h), 0 ≤ x ∧ 0 ≤ y) rs → (∀ d, region = Some d → Present.region_ok d) →
  ∃ d, region_of_rects region rs = Ret d ∧ Present.region_ok d ∧
    ∀ p, (∃ d0, region = Some d0 ∧ Present.region_covers d0 p) ∨ Exists (λ r, Tracker.covers r p) rs → Present.region_covers d p.
Proof.
  induction rs as [|[[[x y] w] h] rs IH]; intros region Hrs Hreg; cbn [region_of_rects].
  { exists (default Present.FullSurface region). split; [done|]. destruct region as [d|]; cbn.
    - split; [by apply Hreg|]. intros p [(d0 & [= <-] & ?)|H]; [done|by apply Exists_nil in H].
    - done. }
  apply Forall_cons in Hrs as [[Hx Hy] Hrs]. destruct (Present.new x y w h) as [r|] eqn:En; [|by exists Present.FullSurface].
  destruct (new_spec _ _ _ _ _ Hx Hy En) as [Hr Hc].
  assert (Hf : Present.region_ok (Present.from_rect r) ∧ ∀ p, Present.covers r p → Present.region_covers (Present.from_rect r) p).
  { split; [apply Present.partial_ok_holds; eexists; by apply Present.single_ok|]. intros p Hp. cbn. by constructor. }
  destruct Hf as [Hfo Hfc].
  destruct region as [d0|].
  - destruct (Present.union_spec d0 (Present.from_rect r) (Hreg d0 eq_refl) Hfo) as (u & -> & Hu). cbn [mbind outcome_bind mret outcome_ret].
    destruct (IH (Some u) Hrs) as (d & -> & Hd & Hp); [intros ? [= <-]; apply Hu|]. exists d. split_and!; try done.
    intros p [(? & [= <-] & H)|H]; apply Hp; [left; exists u; split; [done|]; apply Hu; by left|].
    apply Exists_cons in H as [H|H]; [left; exists u; split; [done|]; apply Hu; right; by apply Hfc, Hc|by right].
  - cbn [mbind outcome_bind mret outcome_ret].
    destruct (IH (Some (Present.from_rect r)) Hrs) as (d & -> & Hd & Hp); [by intros ? [= <-]|]. exists d. split_and!; try done.
    intros p [(? & [=] & _)|H]; apply Hp. apply Exists_cons in H as [H|H]; [left; eexists; split; [done|]; by apply Hfc, Hc|by right].
Qed.

(** Never a panic, and never a lost pixel of the surface. *)
Lemma current_damage_region_spec acc w h :
  acc_ok acc → is_u32 w → is_u32 h →
  ∃ region, current_damage_region acc w h = Ret region ∧ Present.region_ok region ∧
    ∀ p, 0 ≤ p.1 < u32_as_i32 w → 0 ≤ p.2 < u32_as_i32 h → acc_covers acc p → Present.region_covers region p.
Proof.
  intros Ha Hw Hh. assert (Hi : ∀ z, is_u32 z → is_i32 (u32_as_i32 z)).
  { intros z Hz. unfold u32_as_i32, is_u32, is_i32 in *. destruct (Z.ltb_spec z (2 ^ 31)); lia. }
  unfold current_damage_region.
  destruct (acc_resolve_rects_spec acc (u32_as_i32 w) (u32_as_i32 h) Ha (Hi _ Hw) (Hi _ Hh)) as (o & Eo & Ho).
  rewrite Eo. cbn [mbind outcome_bind mret outcome_ret]. destruct o as [out|]; [|by exists Present.FullSurface].
  destruct (region_of_rects_spec out None) as (d & -> & Hd & Hp); [by eapply resolved_nonneg|done|].
  exists d. split_and!; try done. intros p Hp1 Hp2 Hc. apply Hp. right. by apply Ho.
Qed.

(** * The theorems *)

Fixpoint acc_add_all (effects : list DamageEffect) (acc : FrameDamageAccumulator) : result FrameDamageAccumulator :=
  match effects with
  | [] => mret acc
  | e :: effects => acc ← acc_add e acc; acc_add_all effects acc
  end.

(** An effect whose rect, when it has an inside, lies in [box]. *)
Definition effect_in (box : Tracker.rect) (e : DamageEffect) : Prop :=
  match e with
  | OnscreenRect x y w h => is_i32 x ∧ is_i32 y ∧ is_i32 w ∧ is_i32 h ∧ (0 < w → 0 < h → Tracker.kept box (x, y, w, h))
  | _ => True
  end.

Lemma acc_add_total box e acc :
  Tracker.small box → Forall (Tracker.kept box) (acc_rects acc) → effect_in box e →
  ∃ acc', acc_add e acc = Ret acc' ∧ Forall (Tracker.kept box) (acc_rects acc').
Proof.
  intros Hs Hk He. destruct e as [|x y w h|]; cbn [acc_add]; [by eexists| |by eexists].
  destruct He as (_ & _ & _ & _ & He). destruct (Z.leb_spec w 0), (Z.leb_spec h 0); cbn [orb]; try by eexists.
  specialize (He ltac:(done) ltac:(done)). destruct (_ <? _).
  - eexists. split; [done|]. cbn [acc_rects]. apply Forall_app. split; [done|]. by apply Forall_singleton.
  - destruct (Tracker.box_of_spec box (x, y, w, h) (acc_rects acc) Hs He Hk) as (u & -> & Hu & _).
    eexists. split; [done|]. by apply Forall_singleton.
Qed.

Lemma acc_add_all_total box effects : ∀ acc,
  Tracker.small box → Forall (Tracker.kept box) (acc_rects acc) → Forall (effect_in box) effects → acc_ok acc →
  ∃ acc', acc_add_all effects acc = Ret acc' ∧ acc_ok acc' ∧
    ∀ p, acc_covers acc p ∨ Exists (λ e, in_damage e p) effects → acc_covers acc' p.
Proof.
  induction effects as [|e effects IH]; intros acc Hs Hk He Ha; cbn [acc_add_all].
  { eexists. split; [done|]. split; [done|]. intros p [?|H]; [done|by apply Exists_nil in H]. }
  apply Forall_cons in He as [He Hes]. destruct (acc_add_total box e acc Hs Hk He) as (acc1 & E & Hk1).
  assert (Hi : effect_i32 e) by (destruct e; naive_solver). destruct (acc_add_spec e acc acc1 Hi Ha E) as [Ha1 Hc1].
  rewrite E. cbn [mbind outcome_bind]. destruct (IH acc1 Hs Hk1 Hes Ha1) as (acc2 & -> & Ha2 & Hc2).
  exists acc2. split; [done|]. split; [done|]. intros p Hp. apply Hc2. rewrite Exists_cons in Hp.
  destruct Hp as [Hp|[Hp|Hp]]; [left; apply Hc1; by left|left; apply Hc1; by right|by right].
Qed.

(** The region a frame presents covers what its operations damaged.  When the
    damaged rects fit a box with [i32] sides, accumulating any number of effects
    and resolving them for any surface never overflows, and every pixel of the
    surface that some effect covers is in the region. *)
Theorem presented_region_covers effects box w h :
  Tracker.small box → Forall (effect_in box) effects → is_u32 w → is_u32 h →
  ∃ acc region, acc_add_all effects acc_new = Ret acc ∧ current_damage_region acc w h = Ret region ∧
    Present.region_ok region ∧
    ∀ p, 0 ≤ p.1 < u32_as_i32 w → 0 ≤ p.2 < u32_as_i32 h →
      Exists (λ e, in_damage e p) effects → Present.region_covers region p.
Proof.
  intros Hs He Hw Hh. assert (Hn : acc_ok acc_new) by by split.
  destruct (acc_add_all_total box effects acc_new Hs) as (acc & E & Ha & Hc); [by constructor|done|done|].
  destruct (current_damage_region_spec acc w h Ha Hw Hh) as (region & E' & Hr & Hp). exists acc, region.
  split_and!; try done. intros p Hp1 Hp2 Hx. apply Hp; [done..|]. apply Hc. by right.
Qed.

Lemma region_to_resolved_total d : Present.region_ok d → ∃ shown, region_to_resolved d = Ret shown.
Proof.
  intros Hok. unfold region_to_resolved, Present.bounding_rect. destruct d as [|p]; [by eexists|]. cbn [Present.rects].
  apply Present.partial_ok_holds in Hok as [rs Hrs]. rewrite (proj1 (Present.holds_live p rs Hrs)).
  destruct Hrs as (_ & _ & Hn & Hf & _). destruct rs as [|r rs]; [cbn in Hn; lia|]. apply Forall_cons in Hf as [Hr Hf].
  cbn [mbind outcome_bind mret outcome_ret]. destruct (Present.union_all_spec rs r Hr Hf) as (o & -> & _). by eexists.
Qed.

(** The bookkeeping of a present.  A failed swap changes nothing; a complete one
    empties the accumulator and records the frame's own damage, not the repair; one
    whose blit failed leaves a history and an accumulator that make the next frame
    a full one. *)
Theorem present_outcome damage log plan blit_succeeded :
  Present.region_ok (Present.current plan) →
  commit_present_outcome damage (Present.history_of log) false blit_succeeded plan =
    Ret (Retry, damage, Present.history_of log) ∧
  (∃ shown, commit_present_outcome damage (Present.history_of log) true true plan =
    Ret (Presented shown, acc_new, Present.history_of (Present.current plan :: log))) ∧
  ∃ damage', commit_present_outcome damage (Present.history_of log) true false plan =
    Ret (PresentedPartial, damage', Present.history_of [Present.FullSurface]) ∧
    ∀ w h, current_damage_region damage' w h = Ret Present.FullSurface.
Proof.
  intros Hok. split; [done|]. split.
  - unfold commit_present_outcome. cbn [negb]. rewrite Present.history_push_spec. cbn [mbind outcome_bind].
    destruct (region_to_resolved_total _ Hok) as [shown ->]. by exists shown.
  - eexists. split; [reflexivity|]. intros w h. unfold current_damage_region, acc_resolve_rects, acc_tracker. cbn.
    reflexivity.
Qed.

(** The accumulator adds edges unchecked where the tracker checks them: a fifth
    rect that reaches past the last [i32] overflows. *)
Lemma fifth_rect_overflows :
  acc_add_all ((λ i, OnscreenRect i 0 1 1) <$> [0; 2; 4; 6]) acc_new =
    Ret {| acc_rects := [(0, 0, 1, 1); (2, 0, 1, 1); (4, 0, 1, 1); (6, 0, 1, 1)]; acc_full := false |} ∧
  acc_add_all ((λ i, OnscreenRect i 0 1 1) <$> [0; 2; 4; 6; i32_max]) acc_new = Panic ∧
  acc_add_all [OnscreenRect i32_max 0 1 1] acc_new = Ret {| acc_rects := [(i32_max, 0, 1, 1)]; acc_full := false |} ∧
  current_damage_region {| acc_rects := [(i32_max, 0, 1, 1)]; acc_full := false |} 1080 1920 = Ret Present.FullSurface.
Proof. by vm_compute. Qed.

(** ** Witnesses *)

Definition sample_effects : list DamageEffect :=
  [OnscreenRect 10 20 30 40; NoDamage; OnscreenRect (-5) 0 10 10; OnscreenRect 100 100 5 5; OnscreenRect 300 0 4 4;
   OnscreenRect 0 500 9 9].

Lemma presented_region_covers_witness : ∃ acc region,
  acc_add_all sample_effects acc_new = Ret acc ∧ current_damage_region acc 1080 1920 = Ret region ∧
  Present.is_full_surface region = false ∧ Present.region_covers region (3, 4).
Proof.
  destruct (presented_region_covers sample_effects (-100, -100, 5000, 5000) 1080 1920) as (acc & region & E & E' & _ & H).
  - cbn. unfold i32_max. lia.
  - repeat (apply Forall_cons; split; [cbn; unfold is_i32, Tracker.kept, Tracker.usable, i32_min, i32_max; cbn; try done; lia|]).
    constructor.
  - split; vm_compute; congruence.
  - split; vm_compute; congruence.
  - exists acc, region. split_and!; [done|done| |].
    + vm_compute in E. injection E as <-. vm_compute in E'. by injection E' as <-.
    + apply H; [split; vm_compute; congruence|split; vm_compute; congruence|]. right. right. left. cbn. unfold in_rect. cbn. lia.
Defined.

Lemma present_outcome_witness :
  let plan := {| Present.current := Present.from_rect Present.rect_a; Present.repair := Present.FullSurface |} in
  ∃ damage', commit_present_outcome acc_new Present.history_new true false plan =
    Ret (PresentedPartial, damage', Present.history_of [Present.FullSurface]).
Proof.
  destruct (present_outcome acc_new [] {| Present.current := Present.from_rect Present.rect_a; Present.repair := Present.FullSurface |}
    true (proj1 Present.sample_ok)) as (_ & _ & damage' & E & _). by exists damage'.
Defined.
