(* ===== verification/Driver.v ===== *)
(** The OpenGL ES context a renderer drives: its calls and the state they set.

    The driver is not part of the repository.  [GlCall] lists the calls of the
    [glow] bindings the command handler makes; [call_writes] states, as the
    OpenGL ES 3.0 specification documents it, which pieces of context state each
    call sets; and the class [GlDriver] is a driver that does so for the calls it
    accepts.  Calls that draw, read or change objects rather than context state
    write nothing here.

    Two contexts are compared by [≡]: the same state, with the two zeros of a
    floating-point parameter identified, as [==] on floats identifies them. *)
From S2P Require Import Prelude Commands Shadow StateTracker.

Set Default Proof Using "Type".

(** * Calls *)

(** Native names are non-zero; [None] is the zero name. *)
Inductive GlCall :=
  | gl_viewport (x y width height : Z)
  | gl_clear (mask : Z)
  | gl_clear_color (r g b a : F32)
  | gl_clear_depth_f32 (depth : F32)
  | gl_clear_stencil (s : Z)
  | gl_enable (cap : Z)
  | gl_disable (cap : Z)
  | gl_use_program (program : option Z)
  | gl_bind_buffer (target : Z) (buffer : option Z)
  | gl_bind_texture (target : Z) (texture : option Z)
  | gl_active_texture (unit_ : Z)
  | gl_bind_framebuffer (target : Z) (framebuffer : option Z)
  | gl_bind_renderbuffer (target : Z) (renderbuffer : option Z)
  | gl_bind_vertex_array (vao : option Z)
  | gl_bind_sampler (unit_ : Z) (sampler : option Z)
  | gl_enable_vertex_attrib_array (index : Z)
  | gl_disable_vertex_attrib_array (index : Z)
  | gl_vertex_attrib_pointer_f32 (index size type_ : Z) (normalized : bool) (stride offset : Z)
  | gl_vertex_attrib_divisor (index divisor : Z)
  | gl_blend_func (src dst : Z)
  | gl_blend_func_separate (src_rgb dst_rgb src_alpha dst_alpha : Z)
  | gl_blend_equation (mode : Z)
  | gl_blend_equation_separate (mode_rgb mode_alpha : Z)
  | gl_blend_color (r g b a : F32)
  | gl_depth_func (func : Z)
  | gl_depth_mask (flag : bool)
  | gl_depth_range_f32 (near far : F32)
  | gl_stencil_func (func ref_ mask : Z)
  | gl_stencil_func_separate (face func ref_ mask : Z)
  | gl_stencil_op (fail zfail zpass : Z)
  | gl_stencil_op_separate (face fail zfail zpass : Z)
  | gl_stencil_mask (mask : Z)
  | gl_stencil_mask_separate (face mask : Z)
  | gl_cull_face (mode : Z)
  | gl_front_face (mode : Z)
  | gl_color_mask (r g b a : bool)
  | gl_scissor (x y width height : Z)
  | gl_line_width (width : F32)
  | gl_polygon_offset (factor units : F32)
  | gl_tex_parameter_i32 (target pname param : Z)
  | gl_tex_parameter_f32 (target pname : Z) (param : F32)
  | gl_generate_mipmap (target : Z)
  | gl_pixel_store_i32 (pname param : Z)
  | gl_hint (target mode : Z)
  | gl_sampler_parameter_i32 (sampler pname param : Z)
  | gl_sampler_parameter_f32 (sampler pname : Z) (param : F32)
  | gl_draw_arrays (mode first count : Z)
  | gl_draw_elements (mode count index_type offset : Z)
  | gl_draw_arrays_instanced (mode first count instance_count : Z)
  | gl_draw_elements_instanced (mode count index_type offset instance_count : Z)
  | gl_bind_buffer_base (target index : Z) (buffer : option Z)
  | gl_bind_buffer_range (target index : Z) (buffer : option Z) (offset size : Z)
  | gl_read_buffer (src : Z)
  (** [uniform_1_i32] to [uniform_4_f32] and their slices, [n] components. *)
  | gl_uniform_i32 (n : nat) (location : Z) (value : list Z)
  | gl_uniform_f32 (n : nat) (location : Z) (value : list F32)
  (** [uniform_matrix_n_f32_slice] *)
  | gl_uniform_matrix_f32 (n : nat) (location : Z) (transpose : bool) (value : list F32).

#[global] Instance GlCall_eq_dec : EqDecision GlCall.
Proof. solve_decision. Defined.

(** * The state of a context *)

(** A vertex array is its native name, zero for the default one. *)
Inductive Slot :=
  | SProgram
  | SUniform (program location : Z)
  | SViewport
  | SActiveTexture
  | STexture2D (unit_ : Z)
  | SBuffer (target : Z)
  | SElementArray (vao : Z)
  | SUniformBuffer (index : nat)
  | SVao
  | SAttribEnabled (vao : Z) (index : nat)
  | SAttribPointer (vao : Z) (index : nat)
  | SAttribDivisor (vao : Z) (index : nat)
  | SCap (cap : Z)
  | SBlendFunc
  | SBlendEquation
  | SBlendColor
  | SDepthFunc
  | SDepthMask
  | SDepthRange
  | SStencilFunc (front : bool)
  | SStencilOp (front : bool)
  | SStencilMask (front : bool)
  | SPixelStore (pname : Z)
  | SCullFace
  | SFrontFace
  | SScissor
  | SLineWidth
  | SPolygonOffset
  | SColorMask
  | SDrawFramebuffer
  | SReadFramebuffer
  | SRenderbuffer.

#[global] Instance Slot_eq_dec : EqDecision Slot.
Proof. solve_decision. Defined.

Inductive Val :=
  | VInts (l : list Z)
  | VFloats (l : list F32)
  | VBools (l : list bool)
  | VName (name : option Z)
  | VBytes (l : list Z)
  | VPointer (size type_ : Z) (normalized : bool) (stride offset : Z) (buffer : option Z)
  | VRange (buffer : option Z) (offset size : Z).

(** Equal, or two zeros. *)
Definition same_float (x y : F32) : bool := (bits x =? bits y) || is_zero x && is_zero y.

#[global] Instance Val_equiv : Equiv Val := λ v w,
  match v, w with
  | VFloats l, VFloats l' => Forall2 (λ x y, same_float x y = true) l l'
  | _, _ => v = w
  end.

Definition GlState : Type := Slot → Val.
#[global] Instance GlState_equiv : Equiv GlState := λ d d', ∀ k, d k ≡ d' k.

(** * What each call sets *)

Definition name_of (v : Val) : option Z := match v with VName h => h | _ => None end.
Definition current_vao (d : GlState) : Z := default 0 (name_of (d SVao)).
Definition current_unit (d : GlState) : Z := match d SActiveTexture with VInts [u] => u | _ => TEXTURE0 end.

Definition stencil_faces (face : Z) : list bool :=
  if face =? FRONT_AND_BACK then [true; false]
  else if face =? FRONT then [true] else if face =? BACK then [false] else [].

Definition buffer_slot (d : GlState) (target : Z) : Slot :=
  if target =? GL_ELEMENT_ARRAY_BUFFER then SElementArray (current_vao d) else SBuffer target.

Definition i32_bytes (x : Z) : list Z := le_bytes 4 (x mod 2 ^ 32).
Definition f32_bytes (x : F32) : list Z := le_bytes 4 (bits x).

(** An uploaded uniform is the bytes of its components, a matrix with its
    transposition first. *)
Definition uniform_write (d : GlState) (location : Z) (bytes : list Z) : list (Slot * Val) :=
  match name_of (d SProgram) with
  | Some p => [(SUniform p location, VBytes bytes)]
  | None => []
  end.

Definition call_writes (d : GlState) (c : GlCall) : list (Slot * Val) :=
  match c with
  | gl_viewport x y w h => [(SViewport, VInts [x; y; w; h])]
  | gl_enable cap => [(SCap cap, VBools [true])]
  | gl_disable cap => [(SCap cap, VBools [false])]
  | gl_use_program p => [(SProgram, VName p)]
  | gl_bind_buffer t b => [(buffer_slot d t, VName b)]
  | gl_bind_buffer_base t i b =>
      (SBuffer t, VName b) :: if t =? GL_UNIFORM_BUFFER then [(SUniformBuffer (Z.to_nat i), VRange b 0 0)] else []
  | gl_bind_buffer_range t i b o s =>
      (SBuffer t, VName b) :: if t =? GL_UNIFORM_BUFFER then [(SUniformBuffer (Z.to_nat i), VRange b o s)] else []
  | gl_bind_vertex_array v => [(SVao, VName v)]
  | gl_active_texture u => [(SActiveTexture, VInts [u])]
  | gl_bind_texture t x => if t =? TEXTURE_2D then [(STexture2D (current_unit d), VName x)] else []
  | gl_bind_framebuffer t f =>
      if t =? FRAMEBUFFER then [(SDrawFramebuffer, VName f); (SReadFramebuffer, VName f)]
      else if t =? DRAW_FRAMEBUFFER then [(SDrawFramebuffer, VName f)]
      else if t =? READ_FRAMEBUFFER then [(SReadFramebuffer, VName f)] else []
  | gl_bind_renderbuffer _ r => [(SRenderbuffer, VName r)]
  | gl_enable_vertex_attrib_array i => [(SAttribEnabled (current_vao d) (Z.to_nat i), VBools [true])]
  | gl_disable_vertex_attrib_array i => [(SAttribEnabled (current_vao d) (Z.to_nat i), VBools [false])]
  | gl_vertex_attrib_pointer_f32 i size ty n st o =>
      [(SAttribPointer (current_vao d) (Z.to_nat i), VPointer size ty n st o (name_of (d (SBuffer GL_ARRAY_BUFFER))))]
  | gl_vertex_attrib_divisor i x => [(SAttribDivisor (current_vao d) (Z.to_nat i), VInts [x])]
  | gl_blend_func s t => [(SBlendFunc, VInts [s; t; s; t])]
  | gl_blend_func_separate s t sa ta => [(SBlendFunc, VInts [s; t; sa; ta])]
  | gl_blend_equation m => [(SBlendEquation, VInts [m; m])]
  | gl_blend_equation_separate m ma => [(SBlendEquation, VInts [m; ma])]
  | gl_blend_color r g b a => [(SBlendColor, VFloats [r; g; b; a])]
  | gl_depth_func f => [(SDepthFunc, VInts [f])]
  | gl_depth_mask b => [(SDepthMask, VBools [b])]
  | gl_depth_range_f32 n f => [(SDepthRange, VFloats [n; f])]
  | gl_stencil_func f r m => (λ s, (SStencilFunc s, VInts [f; r; m])) <$> [true; false]
  | gl_stencil_func_separate face f r m => (λ s, (SStencilFunc s, VInts [f; r; m])) <$> stencil_faces face
  | gl_stencil_op f zf zp => (λ s, (SStencilOp s, VInts [f; zf; zp])) <$> [true; false]
  | gl_stencil_op_separate face f zf zp => (λ s, (SStencilOp s, VInts [f; zf; zp])) <$> stencil_faces face
  | gl_stencil_mask m => (λ s, (SStencilMask s, VInts [m])) <$> [true; false]
  | gl_stencil_mask_separate face m => (λ s, (SStencilMask s, VInts [m])) <$> stencil_faces face
  | gl_cull_face m => [(SCullFace, VInts [m])]
  | gl_front_face m => [(SFrontFace, VInts [m])]
  | gl_color_mask r g b a => [(SColorMask, VBools [r; g; b; a])]
  | gl_scissor x y w h => [(SScissor, VInts [x; y; w; h])]
  | gl_line_width w => [(SLineWidth, VFloats [w])]
  | gl_polygon_offset f u => [(SPolygonOffset, VFloats [f; u])]
  | gl_pixel_store_i32 p x => [(SPixelStore p, VInts [x])]
  | gl_uniform_i32 _ loc v => uniform_write d loc (concat (i32_bytes <$> v))
  | gl_uniform_f32 _ loc v => uniform_write d loc (concat (f32_bytes <$> v))
  | gl_uniform_matrix_f32 _ loc t v =>
      uniform_write d loc ((if t then 1 else 0) :: concat (f32_bytes <$> v))
  | _ => []
  end.

(** The state after the writes of a call, the first of a slot counting. *)
Fixpoint assigned (k : Slot) (l : list (Slot * Val)) : option Val :=
  match l with
  | [] => None
  | (j, v) :: l => if bool_decide (j = k) then Some v else assigned k l
  end.

Definition after (d : GlState) (c : GlCall) : GlState := λ k, default (d k) (assigned k (call_writes d c)).

(** The initial state of a context (OpenGL ES 3.0, tables 6.x), where the shadow
    relies on it. *)
Record initial (d : GlState) : Prop := {
  init_vao : d SVao = VName None;
  init_color_mask : d SColorMask = VBools [true; true; true; true];
  init_attribs vao i : d (SAttribEnabled vao i) = VBools [false];
}.

(** * The equivalence *)

Lemma same_float_spec x y : same_float x y = true ↔ bits x = bits y ∨ is_zero x = true ∧ is_zero y = true.
Proof. unfold same_float. by rewrite orb_true_iff, andb_true_iff, Z.eqb_eq. Qed.

#[global] Instance same_float_equivalence : Equivalence (λ x y, same_float x y = true).
Proof.
  split.
  - intros x. apply same_float_spec. by left.
  - intros x y. rewrite !same_float_spec. naive_solver.
  - intros x y z. rewrite !same_float_spec. unfold is_zero. intros [E|[Hx Hy]] [E'|[Hy' Hz]].
    + left. congruence.
    + right. by rewrite E.
    + right. by rewrite <- E'.
    + by right.
Qed.

#[global] Instance Val_equivalence : Equivalence (≡@{Val}).
Proof.
  split.
  - intros []; try reflexivity. unfold equiv, Val_equiv. reflexivity.
  - intros [] []; unfold equiv, Val_equiv; try congruence. by symmetry.
  - intros [] [] []; unfold equiv, Val_equiv; try congruence. intros. by etrans.
Qed.

#[global] Instance GlState_equivalence : Equivalence (≡@{GlState}).
Proof.
  split.
  - intros d k. reflexivity.
  - intros d d' H k. symmetry. apply H.
  - intros d d' d'' H H' k. etrans; [apply H|apply H'].
Qed.

Lemma name_of_proper v w : v ≡ w → name_of v = name_of w.
Proof. destruct v, w; unfold equiv, Val_equiv; intros H; simplify_eq; done. Qed.

(** What a call sets does not depend on the floats of the state. *)
Lemma call_writes_proper d d' c : d ≡ d' → call_writes d c = call_writes d' c.
Proof.
  intros H. assert (Hn : ∀ k, name_of (d k) = name_of (d' k)) by (intros k; apply name_of_proper, H).
  assert (Hu : current_unit d = current_unit d').
  { unfold current_unit. specialize (H SActiveTexture). revert H. unfold equiv, Val_equiv.
    destruct (d SActiveTexture), (d' SActiveTexture); intros H; simplify_eq; done. }
  unfold call_writes, buffer_slot, uniform_write, current_vao. by rewrite Hu, !Hn.
Qed.

Lemma after_proper d d' c : d ≡ d' → after d c ≡ after d' c.
Proof.
  intros H k. unfold after. rewrite (call_writes_proper d d') by done. destruct (assigned _ _); [reflexivity|apply H].
Qed.

(** * Drivers *)

(** A context that can be driven and read.  Contexts are [≡] when no call and no
    query tells them apart.  A call is accepted when it raises no error and is not
    a uniform call for one element of an array that is set through another
    element's location too.  An accepted call sets what [call_writes] says, and
    one that sets nothing to a new value changes nothing. *)
Class GlDriver := {
  context : Type;
  issue : context → GlCall → context;
  state : context → GlState;
  accepts : context → GlCall → Prop;
  #[global] context_equiv :: Equiv context;
  #[global] context_equivalence :: Equivalence (≡@{context});
  #[global] issue_proper :: Proper ((≡) ==> (=) ==> (≡)) issue;
  #[global] state_proper :: Proper ((≡) ==> (≡)) state;
  #[global] accepts_proper :: Proper ((≡) ==> (=) ==> iff) accepts;
  issue_state ctx c : accepts ctx c → state (issue ctx c) ≡ after (state ctx) c;
  issue_again ctx c : accepts ctx c → after (state ctx) c ≡ state ctx → issue ctx c ≡ ctx;
}.

(** A driver that is its state. *)
#[refine] Definition reference_driver : GlDriver := {|
  context := GlState;
  issue := after;
  state d := d;
  accepts _ _ := True;
|}.
Proof.
  all: try done.
  - apply GlState_equivalence.
  - intros d d' H ? ? ->. by apply after_proper.
  - by intros d d' H.
Defined.
