(* ===== verification/Handler.v ===== *)
(** Executing WebGL commands ([engine/crates/graphics], [renderergl/handler.rs]
    and the parts of [canvas/manager/mod.rs] it calls): the commands the wire
    carries.

    The manager's state is [CanvasManager]; a handler is a computation [M] over
    it that may fail, keeping what it changed, and that emits the driver calls it
    makes, each with the context that is current.  Errors are their code.

    The handler is written over [must], what is done with the tracker's answer:
    [Handler.handle_command] is [must := id], the code; with [λ _, true] every
    call is issued, the reference the tracker is compared with. *)
From S2P Require Import Prelude FrameDamage Keyed Budget Commands Shadow FrameStats StateTracker Driver Errors.

Set Default Proof Using "Type".

(** * The manager *)

Inductive BoundContext := Resource | Canvas (id : Z) | Shared2D (id : Z).
#[global] Instance BoundContext_eq_dec : EqDecision BoundContext.
Proof. solve_decision. Defined.

(** The first canvas, shown on the screen. *)
Definition ONSCREEN : Z := 1.

(** The framebuffer and the size; the attachments are objects of the driver. *)
Record DrawingBuffer := { fbo : Z; db_width : Z; db_height : Z }.

(** [is_pbuffer] is the kind of its surface. *)
Record CanvasEntry := {
  physical_width : Z; physical_height : Z; is_pbuffer : bool;
  drawing_buffer : option DrawingBuffer;
  bypass_drawing_buffer : bool;
}.
#[global] Instance eta_CanvasEntry : Eta CanvasEntry := λ r, {|
  physical_width := physical_width r; physical_height := physical_height r; is_pbuffer := is_pbuffer r;
  drawing_buffer := drawing_buffer r; bypass_drawing_buffer := bypass_drawing_buffer r |}.

(** Buffers, textures, renderbuffers and samplers: [gl_handle], [owner_canvas],
    [deleted].  Framebuffers and vertex arrays have an [owner], never [None]. *)
Record ObjectMeta := { gl_handle : option Z; owner_canvas : option Z; deleted : bool }.

Record CanvasManager := {
  bound : BoundContext;
  canvases : gmap Z CanvasEntry;
  (** The tag of the shared 2D context, and of every canvas's 2D context. *)
  shared_2d : option Z;
  contexts_2d : CanvasKeyed Z;
  programs : gmap Z ObjectMeta;
  buffers : gmap Z ObjectMeta;
  textures : gmap Z ObjectMeta;
  framebuffers : gmap Z ObjectMeta;
  renderbuffers : gmap Z ObjectMeta;
  vaos : gmap Z ObjectMeta;
  samplers : gmap Z ObjectMeta;
  gl_state : CanvasKeyed CanvasGLState;
  webgl_gpu_budget : WebGlGpuBudget;
  hot : HotDiagnostics;
  damage : FrameDamageAccumulator;
  (** Calls of [eglMakeCurrent] made so far. *)
  egl_calls : nat;
}.

#[global] Instance eta_CanvasManager : Eta CanvasManager := λ r, {|
  bound := bound r; canvases := canvases r; shared_2d := shared_2d r; contexts_2d := contexts_2d r;
  programs := programs r; buffers := buffers r; textures := textures r; framebuffers := framebuffers r;
  renderbuffers := renderbuffers r; vaos := vaos r; samplers := samplers r; gl_state := gl_state r;
  webgl_gpu_budget := webgl_gpu_budget r; hot := hot r; damage := damage r; egl_calls := egl_calls r |}.

(** Whether the [n]th call of [eglMakeCurrent] succeeds. *)
Class Egl := { egl_make_current : nat → bool }.

(** * The computations *)

(** A driver call and the context it is made in. *)
Definition Event : Type := BoundContext * GlCall.

Definition M (A : Type) : Type := CanvasManager → outcome ErrorCode A * list Event * CanvasManager.

#[global] Instance M_ret : MRet M := λ A x cm, (Ret x, [], cm).
#[global] Instance M_bind : MBind M := λ A B f m cm,
  match m cm with
  | (Ret x, l, cm) => let '(r, l', cm) := f x cm in (r, l ++ l', cm)
  | (Fail e, l, cm) => (Fail e, l, cm)
  | (Panic, l, cm) => (Panic, l, cm)
  | (OutOfFuel, l, cm) => (OutOfFuel, l, cm)
  end.

Definition lift {A} (o : outcome ErrorCode A) : M A := λ cm, (o, [], cm).
Definition err {A} (e : ErrorCode) : M A := lift (Fail e).
Definition gets {A} (f : CanvasManager → A) : M A := λ cm, (Ret (f cm), [], cm).
Definition modify (f : CanvasManager → CanvasManager) : M unit := λ cm, (Ret tt, [], f cm).
Definition gl_call (c : GlCall) : M unit := λ cm, (Ret tt, [(bound cm, c)], cm).

(** * Damage *)

Definition draw_damage_effect (draws_to_default : bool) (viewport : option (Z * Z * Z * Z)) (sc : ScissorState) :
    outcome ErrorCode DamageEffect :=
  if negb draws_to_default then Ret NoDamage else
  match viewport with
  | None => Ret FullSurface
  | Some vp =>
      match sc with
      | ScissorEnabled x y w h =>
          b ← intersect_rects vp (x, y, w, h);
          Ret (match b with
               | Some (x, y, w, h) => OnscreenRect x y w h
               | None => NoDamage
               end)
      | _ => let '(x, y, w, h) := vp in Ret (OnscreenRect x y w h)
      end
  end.

Definition COLOR_BUFFER_BIT : Z := 0x4000.

Definition clear_damage_effect (bit_field : Z) (is_onscreen_default_fbo : bool) (sc : ScissorState)
    (mask : bool * bool * bool * bool) : DamageEffect :=
  if Z.land bit_field COLOR_BUFFER_BIT =? 0 then NoDamage else
  let '(r, g, b, a) := mask in
  if negb r && negb g && negb b && negb a then NoDamage else
  if negb is_onscreen_default_fbo then NoDamage else
  match sc with
  | ScissorEnabled x y w h => OnscreenRect x y w h
  | _ => FullSurface
  end.

Definition damage_for_draw (canvas : Z) : M DamageEffect :=
  if negb (canvas =? ONSCREEN) then mret NoDamage else
  s ← gets (λ cm, get (gl_state cm) canvas);
  match s with
  | None => mret FullSurface
  | Some s => lift (draw_damage_effect (draws_to_default_fbo s) (viewport s) (scissor s))
  end.

Definition damage_for_clear (canvas bit_field : Z) : M DamageEffect :=
  s ← gets (λ cm, get (gl_state cm) canvas);
  let is_default := if negb (canvas =? ONSCREEN) then false
                    else match s with Some s => draws_to_default_fbo s | None => true end in
  let sc := match s with Some s => scissor s | None => ScissorDisabled end in
  let mask := match s with Some s => color_mask s | None => (true, true, true, true) end in
  mret (clear_damage_effect bit_field is_default sc mask).

(** * Contexts *)

Section contexts.
Context `{!Egl} `{!HashOrder Z}.

Definition make_current (b : BoundContext) : M unit :=
  n ← gets egl_calls;
  modify (λ cm, cm <| egl_calls := S n |>);;
  if egl_make_current n then modify (λ cm, cm <| bound := b |>) else err RenderBackendError.

Definition canvas_uses_shared_2d (cm : CanvasManager) (id : Z) : bool :=
  match shared_2d cm with
  | Some tag => bool_decide (get (contexts_2d cm) id = Some tag)
  | None => false
  end.

(** With the shared context in being ([canvas_uses_shared_2d]); its creation is
    not reached from here. *)
Definition bind_shared_2d_context (serving : Z) : M unit :=
  b ← gets bound;
  match b with
  | Shared2D _ => modify (λ cm, cm <| bound := Shared2D serving |>)
  | _ => make_current (Shared2D serving)
  end.

Definition make_current_needed (id : Z) : M unit :=
  shared ← gets (λ cm, canvas_uses_shared_2d cm id);
  if (shared : bool) then bind_shared_2d_context id else
  b ← gets bound;
  if bool_decide (b = Canvas id) then mret tt else
  entry ← gets (λ cm, canvases cm !! id);
  match entry with
  | None => err NotFound
  | Some _ => make_current (Canvas id)
  end.

Definition bind_resource : M unit := make_current Resource.

Definition ensure_any_canvas_current : M Z :=
  b ← gets bound;
  match b with
  | Canvas id => mret id
  | Shared2D id => mret id
  | Resource =>
      cs ← gets canvases;
      if bool_decide (is_Some (cs !! ONSCREEN)) then make_current_needed ONSCREEN;; mret ONSCREEN
      else match first_key cs with
           | Some id => make_current_needed id;; mret id
           | None => bind_resource;; mret 0
           end
  end.
End contexts.

Definition default_framebuffer_of (bypass : bool) (drawing_buffer_fbo : option Z) : option Z :=
  if bypass then None else drawing_buffer_fbo.

Definition get_drawing_buffer_fbo (cm : CanvasManager) (id : Z) : option Z :=
  entry ← canvases cm !! id;
  default_framebuffer_of (bypass_drawing_buffer entry) (fbo <$> drawing_buffer entry).

(** * Objects *)

Definition check_owner (owner : option Z) (canvas : Z) : M unit :=
  if bool_decide (owner = Some canvas) then mret tt else err InvalidOperation.

(** The handle of the object named, for the commands that check its owner, for
    those that only want it alive, and for those that check nothing. *)
Definition owned_object (table : CanvasManager → gmap Z ObjectMeta) (canvas id : Z) : M (option Z) :=
  meta ← gets (λ cm, table cm !! id);
  match meta with
  | None => err NotFound
  | Some meta =>
      check_owner (owner_canvas meta) canvas;;
      if deleted meta then err InvalidOperation else mret (gl_handle meta)
  end.

Definition live_object (table : CanvasManager → gmap Z ObjectMeta) (id : Z) : M (option Z) :=
  meta ← gets (λ cm, table cm !! id);
  match meta with
  | None => err NotFound
  | Some meta => if deleted meta then err InvalidOperation else mret (gl_handle meta)
  end.

Definition any_object (table : CanvasManager → gmap Z ObjectMeta) (id : option Z) : M (option Z) :=
  gets (λ cm, id ← id; meta ← table cm !! id; gl_handle meta).

Definition named (find : Z → M (option Z)) (id : option Z) : M (option Z) :=
  match id with Some id => find id | None => mret None end.

(** * The tracker *)

(** [f(cm.gl_state.entry(canvas).or_default())] *)
Definition on_state {A} (canvas : Z) (f : CanvasGLState → A * CanvasGLState) : M A := λ cm,
  let '(a, t) := entry_modify gl_state_default (gl_state cm) canvas f in
  (Ret a, [], cm <| gl_state := t |>).

(** An update of the tracker, which counts through the thread's diagnostics. *)
Definition update (canvas : Z) (f : Tracked → bool * Tracked) : M bool :=
  d ← gets hot;
  '(b, d) ← on_state canvas (λ s, let '(b, t) := f {| gl := s; diag := d |} in ((b, diag t), gl t));
  modify (λ cm, cm <| hot := d |>);;
  mret b.

Definition budget (f : WebGlGpuBudget → WebGlGpuBudget) : M unit :=
  modify (λ cm, cm <| webgl_gpu_budget := f (webgl_gpu_budget cm) |>).

Definition count_draw (shape : option DrawShape) : M unit :=
  modify (λ cm, cm <| hot := with_accumulator (record_draw shape) (hot cm) |>).

Section handler.
Context (must : bool → bool).
Context `{!Egl} `{!HashOrder Z, !HashOrder (Z * Z)}.

(** [if update(..) { call }] *)
Definition guarded (canvas : Z) (f : Tracked → bool * Tracked) (c : GlCall) : M unit :=
  b ← update canvas f;
  if must b then gl_call c else mret tt.

(** [if should_issue_uniform(..) { call }]; no location, no call. *)
Definition should_issue_uniform (program_bytes : list Z) (loc : Z) (t : Tracked) : bool * Tracked :=
  match current_program (gl t) with
  | None => (true, t)
  | Some program => update_uniform program loc program_bytes t
  end.

Definition uniform (canvas : Z) (location : option Z) (bytes : list Z) (c : Z → GlCall) : M DamageEffect :=
  make_current_needed canvas;;
  match location with
  | None => mret tt
  | Some loc => guarded canvas (should_issue_uniform bytes loc) (c loc)
  end;;
  mret NoDamage.

Definition int_bytes (l : list Z) : list Z := concat (i32_bytes <$> l).
Definition float_bytes (l : list F32) : list Z := concat (f32_bytes <$> l).

Definition mat_uniform_bytes (transpose : bool) (data : list F32) : list Z :=
  (if transpose then 1 else 0) :: float_bytes data.

(** Arms that make the context current, run one update, and damage nothing; and
    arms that make the context current and issue one call. *)
Definition state_arm (canvas : Z) (f : Tracked → bool * Tracked) (c : GlCall) : M DamageEffect :=
  make_current_needed canvas;; guarded canvas f c;; mret NoDamage.
Definition call_arm (canvas : Z) (c : GlCall) : M DamageEffect :=
  make_current_needed canvas;; gl_call c;; mret NoDamage.

Definition use_program (canvas program : Z) : M DamageEffect :=
  make_current_needed canvas;;
  handle ← owned_object programs canvas program;
  match handle with
  | Some ph => guarded canvas (update_use_program program) (gl_use_program (Some ph))
  | None => mret tt
  end;;
  mret NoDamage.

Definition enable_cap (canvas cap : Z) : M DamageEffect :=
  make_current_needed canvas;;
  guarded canvas (update_enable cap) (gl_enable cap);;
  (if cap =? SCISSOR_TEST then
     on_state canvas (λ s, (tt, s <| scissor := match last_scissor_rect s with
       | Some (x, y, w, h) => ScissorEnabled x y w h
       | None => ScissorEnabledUnknownRect end |>))
   else mret tt);;
  mret NoDamage.

Definition disable_cap (canvas cap : Z) : M DamageEffect :=
  make_current_needed canvas;;
  guarded canvas (update_disable cap) (gl_disable cap);;
  (if cap =? SCISSOR_TEST then on_state canvas (λ s, (tt, s <| scissor := ScissorDisabled |>)) else mret tt);;
  mret NoDamage.

Definition bind_framebuffer (canvas target : Z) (framebuffer : option Z) : M DamageEffect :=
  make_current_needed canvas;;
  native ← match framebuffer with
           | Some id => live_object framebuffers id
           | None => gets (λ cm, get_drawing_buffer_fbo cm canvas)
           end;
  guarded canvas (update_bind_framebuffer target framebuffer) (gl_bind_framebuffer target native);;
  (if (target =? FRAMEBUFFER) || (target =? DRAW_FRAMEBUFFER) then
     on_state canvas (λ s, (tt, s <| draws_to_default_fbo := bool_decide (framebuffer = None) |>))
   else mret tt);;
  mret NoDamage.

Definition bind_buffer (canvas target : Z) (buffer : option Z) : M DamageEffect :=
  make_current_needed canvas;;
  native ← named (owned_object buffers canvas) buffer;
  guarded canvas (update_bind_buffer target buffer) (gl_bind_buffer target native);;
  mret NoDamage.

Definition bind_texture (canvas target : Z) (texture : option Z) : M DamageEffect :=
  make_current_needed canvas;;
  native ← named (live_object textures) texture;
  (if target =? TEXTURE_2D
   then guarded canvas (update_bind_texture_2d texture) (gl_bind_texture target native)
   else gl_call (gl_bind_texture target native));;
  budget (Budget.bind_texture canvas target texture);;
  mret NoDamage.

Definition active_texture (canvas unit_ : Z) : M DamageEffect :=
  make_current_needed canvas;;
  if negb (is_valid_texture_unit unit_) then gl_call (gl_active_texture unit_);; mret NoDamage
  else
    guarded canvas (update_active_texture unit_) (gl_active_texture unit_);;
    budget (Budget.set_active_texture canvas unit_);;
    mret NoDamage.

Definition bind_renderbuffer (canvas target : Z) (renderbuffer : option Z) : M DamageEffect :=
  make_current_needed canvas;;
  native ← named (live_object renderbuffers) renderbuffer;
  guarded canvas (update_bind_renderbuffer renderbuffer) (gl_bind_renderbuffer target native);;
  budget (Budget.bind_renderbuffer canvas target renderbuffer);;
  mret NoDamage.

Definition bind_vertex_array (canvas : Z) (vao : option Z) : M DamageEffect :=
  make_current_needed canvas;;
  handle ← any_object vaos vao;
  guarded canvas (update_bind_vertex_array vao) (gl_bind_vertex_array handle);;
  mret NoDamage.

Definition bind_buffer_base (canvas target index : Z) (buffer : option Z) : M DamageEffect :=
  make_current_needed canvas;;
  handle ← any_object buffers buffer;
  guarded canvas (update_bind_buffer_base target index buffer) (gl_bind_buffer_base target index handle);;
  mret NoDamage.

Definition bind_buffer_range (canvas target index : Z) (buffer : option Z) (offset size : Z) : M DamageEffect :=
  make_current_needed canvas;;
  handle ← any_object buffers buffer;
  guarded canvas (update_bind_buffer_range target index buffer offset size)
    (gl_bind_buffer_range target index handle offset size);;
  mret NoDamage.

Definition bind_sampler (canvas unit_ : Z) (sampler : option Z) : M DamageEffect :=
  make_current_needed canvas;;
  handle ← any_object samplers sampler;
  gl_call (gl_bind_sampler unit_ handle);;
  mret NoDamage.

Definition sampler_parameter (sampler : Z) (c : Z → GlCall) : M DamageEffect :=
  ensure_any_canvas_current;;
  handle ← any_object samplers (Some sampler);
  match handle with Some h => gl_call (c h) | None => mret tt end;;
  mret NoDamage.

Definition draw_arm (canvas : Z) (c : GlCall) (shape : option DrawShape) : M DamageEffect :=
  make_current_needed canvas;; gl_call c;; count_draw shape;; damage_for_draw canvas.

Definition clear_arm (canvas bit_field : Z) : M DamageEffect :=
  make_current_needed canvas;; gl_call (gl_clear bit_field);; damage_for_clear canvas bit_field.

Definition handle_with (cmd : GLCmd) : M DamageEffect :=
  match cmd with
  | Viewport id x y width height =>
      let w := u32_as_i32 width in let h := u32_as_i32 height in
      state_arm id (update_viewport x y w h) (gl_viewport x y w h)
  | Clear id bit_field => clear_arm id bit_field
  | ClearColor id r g b a => call_arm id (gl_clear_color r g b a)
  | ClearDepth id depth => call_arm id (gl_clear_depth_f32 depth)
  | ClearStencil id s => call_arm id (gl_clear_stencil s)
  | Enable id cap => enable_cap id cap
  | Disable id cap => disable_cap id cap
  | UseProgram id program_id => use_program id program_id
  | BindBuffer id target buffer => bind_buffer id target buffer
  | BindTexture id target texture => bind_texture id target texture
  | ActiveTexture id unit_ => active_texture id unit_
  | BindFramebuffer id target framebuffer => bind_framebuffer id target framebuffer
  | BindRenderbuffer id target renderbuffer => bind_renderbuffer id target renderbuffer
  | BindVertexArray id vao => bind_vertex_array id vao
  | BindSampler id unit_ sampler => bind_sampler id unit_ sampler
  | EnableVertexAttribArray id index =>
      state_arm id (update_enable_vertex_attrib index) (gl_enable_vertex_attrib_array index)
  | DisableVertexAttribArray id index =>
      state_arm id (update_disable_vertex_attrib index) (gl_disable_vertex_attrib_array index)
  | VertexAttribPointer id index size type_ normalized stride offset =>
      state_arm id (update_vertex_attrib_pointer index size type_ normalized stride offset)
        (gl_vertex_attrib_pointer_f32 index size type_ normalized stride offset)
  | VertexAttribDivisor id index divisor =>
      state_arm id (update_vertex_attrib_divisor index divisor) (gl_vertex_attrib_divisor index divisor)
  | BlendFunc id sfactor dfactor => state_arm id (update_blend_func sfactor dfactor) (gl_blend_func sfactor dfactor)
  | BlendFuncSeparate id s d sa da =>
      state_arm id (update_blend_func_separate s d sa da) (gl_blend_func_separate s d sa da)
  | BlendEquation id mode => state_arm id (update_blend_equation mode) (gl_blend_equation mode)
  | BlendEquationSeparate id rgb alpha =>
      state_arm id (update_blend_equation_separate rgb alpha) (gl_blend_equation_separate rgb alpha)
  | BlendColor id r g b a => state_arm id (update_blend_color r g b a) (gl_blend_color r g b a)
  | DepthFunc id func => state_arm id (update_depth_func func) (gl_depth_func func)
  | DepthMask id flag => state_arm id (update_depth_mask flag) (gl_depth_mask flag)
  | DepthRange id near far => state_arm id (update_depth_range near far) (gl_depth_range_f32 near far)
  | StencilFunc id func ref_ mask =>
      state_arm id (update_stencil_func FRONT_AND_BACK func ref_ mask) (gl_stencil_func func ref_ mask)
  | StencilFuncSeparate id face func ref_ mask =>
      state_arm id (update_stencil_func face func ref_ mask) (gl_stencil_func_separate face func ref_ mask)
  | StencilOp id fail zfail zpass =>
      state_arm id (update_stencil_op FRONT_AND_BACK fail zfail zpass) (gl_stencil_op fail zfail zpass)
  | StencilOpSeparate id face fail zfail zpass =>
      state_arm id (update_stencil_op face fail zfail zpass) (gl_stencil_op_separate face fail zfail zpass)
  | StencilMask id mask => state_arm id (update_stencil_mask FRONT_AND_BACK mask) (gl_stencil_mask mask)
  | StencilMaskSeparate id face mask =>
      state_arm id (update_stencil_mask face mask) (gl_stencil_mask_separate face mask)
  | CullFace id mode => state_arm id (update_cull_face mode) (gl_cull_face mode)
  | FrontFace id mode => state_arm id (update_front_face mode) (gl_front_face mode)
  | ColorMask id r g b a => state_arm id (update_color_mask r g b a) (gl_color_mask r g b a)
  | Scissor id x y width height => state_arm id (update_scissor x y width height) (gl_scissor x y width height)
  | LineWidth id width => state_arm id (update_line_width width) (gl_line_width width)
  | PolygonOffset id factor units => state_arm id (update_polygon_offset factor units) (gl_polygon_offset factor units)
  | TexParameteri id target pname param => call_arm id (gl_tex_parameter_i32 target pname param)
  | TexParameterf id target pname param => call_arm id (gl_tex_parameter_f32 target pname param)
  | GenerateMipmap id target => call_arm id (gl_generate_mipmap target)
  | PixelStorei id pname param => state_arm id (update_pixel_store_i32 pname param) (gl_pixel_store_i32 pname param)
  | Hint id target mode => call_arm id (gl_hint target mode)
  | SamplerParameteri sampler pname param => sampler_parameter sampler (λ h, gl_sampler_parameter_i32 h pname param)
  | SamplerParameterf sampler pname param => sampler_parameter sampler (λ h, gl_sampler_parameter_f32 h pname param)
  | DrawArrays id mode first count =>
      draw_arm id (gl_draw_arrays mode first count)
        (Some {| FrameStats.mode := mode; elements := false; start := first; len := count |})
  | DrawElements id mode count index_type offset =>
      draw_arm id (gl_draw_elements mode count index_type offset)
        (Some {| FrameStats.mode := mode; elements := true;
                 start := indices_from_byte_offset offset index_type; len := count |})
  | DrawArraysInstanced id mode first count instance_count =>
      draw_arm id (gl_draw_arrays_instanced mode first count instance_count) None
  | DrawElementsInstanced id mode count index_type offset instance_count =>
      draw_arm id (gl_draw_elements_instanced mode count index_type offset instance_count) None
  | BindBufferBase id target index buffer => bind_buffer_base id target index buffer
  | BindBufferRange id target index buffer offset size => bind_buffer_range id target index buffer offset size
  | ReadBuffer id src => call_arm id (gl_read_buffer src)
  | Uniform1i id location x => uniform id location (int_bytes [x]) (λ l, gl_uniform_i32 1 l [x])
  | Uniform1f id location x => uniform id location (float_bytes [x]) (λ l, gl_uniform_f32 1 l [x])
  | Uniform2f id location x y => uniform id location (float_bytes [x; y]) (λ l, gl_uniform_f32 2 l [x; y])
  | Uniform3f id location x y z => uniform id location (float_bytes [x; y; z]) (λ l, gl_uniform_f32 3 l [x; y; z])
  | Uniform4f id location x y z w =>
      uniform id location (float_bytes [x; y; z; w]) (λ l, gl_uniform_f32 4 l [x; y; z; w])
  | Uniform1iv id location value => uniform id location (int_bytes value) (λ l, gl_uniform_i32 1 l value)
  | Uniform1fv id location value => uniform id location (float_bytes value) (λ l, gl_uniform_f32 1 l value)
  | Uniform2iv id location value => uniform id location (int_bytes value) (λ l, gl_uniform_i32 2 l value)
  | Uniform2fv id location value => uniform id location (float_bytes value) (λ l, gl_uniform_f32 2 l value)
  | Uniform3iv id location value => uniform id location (int_bytes value) (λ l, gl_uniform_i32 3 l value)
  | Uniform3fv id location value => uniform id location (float_bytes value) (λ l, gl_uniform_f32 3 l value)
  | Uniform4iv id location value => uniform id location (int_bytes value) (λ l, gl_uniform_i32 4 l value)
  | Uniform4fv id location value => uniform id location (float_bytes value) (λ l, gl_uniform_f32 4 l value)
  | UniformMatrix2fv id location transpose value =>
      uniform id location (mat_uniform_bytes transpose value) (λ l, gl_uniform_matrix_f32 2 l transpose value)
  | UniformMatrix3fv id location transpose value =>
      uniform id location (mat_uniform_bytes transpose value) (λ l, gl_uniform_matrix_f32 3 l transpose value)
  | UniformMatrix4fv id location transpose value =>
      uniform id location (mat_uniform_bytes transpose value) (λ l, gl_uniform_matrix_f32 4 l transpose value)
  end.

(** [cm.add_damage(effect)] *)
Definition add_damage (effect : DamageEffect) : M unit := λ cm,
  match acc_add effect (damage cm) with
  | Ret acc => (Ret tt, [], cm <| damage := acc |>)
  | Fail e => match e with end
  | Panic => (Panic, [], cm)
  | OutOfFuel => (OutOfFuel, [], cm)
  end.

(** The command loop of a batch: an error ends its command only.  Whether a
    command damaged the screen, and the number that failed. *)
Fixpoint run_batch (cmds : list GLCmd) : M (bool * Z) := λ cm,
  match cmds with
  | [] => (Ret (false, 0), [], cm)
  | cmd :: cmds =>
      let '(r, l, cm) := (effect ← handle_with cmd; add_damage effect;; mret effect) cm in
      match r with
      | Ret effect =>
          let '(rest, l', cm) := run_batch cmds cm in
          ('(hit, errors) ← rest; Ret (bool_decide (effect ≠ NoDamage) || hit, errors), l ++ l', cm)
      | Fail _ =>
          let '(rest, l', cm) := run_batch cmds cm in
          ('(hit, errors) ← rest; Ret (hit, errors + 1), l ++ l', cm)
      | Panic => (Panic, l, cm)
      | OutOfFuel => (OutOfFuel, l, cm)
      end
  end.
End handler.

Definition handle_command `{!Egl} `{!HashOrder Z, !HashOrder (Z * Z)} : GLCmd → M DamageEffect := handle_with (λ b, b).
Definition execute_gl_batch `{!Egl} `{!HashOrder Z, !HashOrder (Z * Z)} : list GLCmd → M (bool * Z) :=
  run_batch (λ b, b).
