(* ===== verification/Dedup.v ===== *)
(** Skipping a redundant driver call is invisible ([engine/crates/graphics],
    [renderergl/handler.rs] over [backend/gl/state_tracker.rs]).

    [claim] is what a shadow says of the context it shadows, slot by slot, in the
    names of the client; [sound] that the context agrees.  Every update of the
    tracker, issued or skipped, keeps it; a skipped call would have changed
    nothing. *)
From S2P Require Import Prelude Keyed Budget Commands Shadow FrameStats StateTracker Driver Errors Handler.

Set Default Proof Using "Type".

(** * Names *)

(** The native names of a client's objects, and of its default framebuffer. *)
Record Names := {
  n_program : Z → option Z;
  n_texture : Z → option Z;
  n_buffer : Z → option Z;
  n_framebuffer : Z → option Z;
  n_renderbuffer : Z → option Z;
  n_vao : Z → option Z;
  n_default : option Z;
}.

Definition handle_in (table : gmap Z ObjectMeta) (id : Z) : option Z := meta ← table !! id; gl_handle meta.

Definition names_of (cm : CanvasManager) (canvas : Z) : Names := {|
  n_program := handle_in (programs cm); n_texture := handle_in (textures cm); n_buffer := handle_in (buffers cm);
  n_framebuffer := handle_in (framebuffers cm); n_renderbuffer := handle_in (renderbuffers cm);
  n_vao := handle_in (vaos cm); n_default := get_drawing_buffer_fbo cm canvas |}.

(** Programs and vertex arrays are slots of the context as well as values: their
    native names tell them apart, and are not zero. *)
Record names_ok (N : Names) : Prop := {
  program_inj p q h : n_program N p = Some h → n_program N q = Some h → p = q;
  vao_inj v w h : n_vao N v = Some h → n_vao N w = Some h → v = w;
  vao_nonzero v h : n_vao N v = Some h → h ≠ 0;
}.

Section claims.
Context (N : Names).

(** The default vertex array is the client's zero and the driver's zero. *)
Definition vao_name (v : Z) : option Z := if v =? 0 then None else n_vao N v.
Definition vao_live (v : Z) : bool := (v =? 0) || bool_decide (is_Some (n_vao N v)).
Definition vao_number (v : Z) : Z := default 0 (vao_name v).

Definition framebuffer_name (f : option Z) : option Z :=
  match f with Some f => n_framebuffer N f | None => n_default N end.

(** The slot of the context that a slot of the client is. *)
Definition native (k : Slot) : Slot :=
  match k with
  | SUniform p l => SUniform (default 0 (n_program N p)) l
  | SElementArray v => SElementArray (vao_number v)
  | SAttribEnabled v i => SAttribEnabled (vao_number v) i
  | SAttribPointer v i => SAttribPointer (vao_number v) i
  | SAttribDivisor v i => SAttribDivisor (vao_number v) i
  | k => k
  end.

(** * What a shadow claims *)

Definition buffer_shadow (s : CanvasGLState) (target : Z) : option (option Z) :=
  if target =? GL_ARRAY_BUFFER then bound_array_buffer s
  else if target =? GL_UNIFORM_BUFFER then bound_uniform_buffer s
  else if target =? GL_PIXEL_UNPACK_BUFFER then bound_pixel_unpack_buffer s
  else if target =? GL_PIXEL_PACK_BUFFER then bound_pixel_pack_buffer s
  else if target =? GL_COPY_READ_BUFFER then bound_copy_read_buffer s
  else if target =? GL_COPY_WRITE_BUFFER then bound_copy_write_buffer s
  else if target =? GL_TRANSFORM_FEEDBACK_BUFFER then bound_transform_feedback_buffer s
  else None.

Definition name_val (names : Z → option Z) (o : option Z) : Val := VName (o ≫= names).

Definition pointer_val (fp : VertexAttribPointerFp) : Val :=
  VPointer (fp_size fp) (fp_type_ fp) (fp_normalized fp) (fp_stride fp) (fp_offset fp)
    (fp_array_buffer fp ≫= n_buffer N).

Definition ints4 (x : Z * Z * Z * Z) : Val := let '(a, b, c, d) := x in VInts [a; b; c; d].
Definition ints3 (x : Z * Z * Z) : Val := let '(a, b, c) := x in VInts [a; b; c].

Definition tracked_attrib (v : Z) (i : nat) : bool := vao_live v && (i <? 32)%nat.

Definition claim (s : CanvasGLState) (k : Slot) : option Val :=
  match k with
  | SProgram => (λ p, VName (n_program N p)) <$> current_program s
  | SUniform p l => _ ← n_program N p; VBytes <$> uniform_cache s !! (p, l)
  | SViewport => ints4 <$> viewport s
  | SActiveTexture => (λ u, VInts [u]) <$> active_texture_unit s
  | STexture2D u =>
      if (TEXTURE0 <=? u) && (u <? TEXTURE0 + 32)
      then name_val (n_texture N) <$> claims (bound_texture_2d s) (Z.to_nat (u - TEXTURE0)) else None
  | SBuffer t => name_val (n_buffer N) <$> buffer_shadow s t
  | SElementArray v =>
      if v =? default 0 (bound_vao s) then name_val (n_buffer N) <$> bound_element_array_buffer s else None
  | SUniformBuffer i =>
      (λ e : UboEntry, let '(b, o, z) := e in VRange (b ≫= n_buffer N) o z) <$>
        claims (bound_uniform_buffer_indexed s) i
  | SVao => Some (VName (vao_name (default 0 (bound_vao s))))
  | SAttribEnabled v i =>
      if tracked_attrib v i then (λ b : bool, VBools [b]) <$> claims (vertex_attribs s) (v, i) else None
  | SAttribPointer v i => if tracked_attrib v i then pointer_val <$> claims (vertex_attribs s) (v, i) else None
  | SAttribDivisor v i =>
      if tracked_attrib v i then (λ x : Z, VInts [x]) <$> claims (vertex_attribs s) (v, i) else None
  | SCap c => (λ b : bool, VBools [b]) <$> claims (capabilities s) c
  | SBlendFunc => (λ b, VInts [src_rgb b; dst_rgb b; src_alpha b; dst_alpha b]) <$> blend_factors s
  | SBlendEquation => (λ b, VInts [mode_rgb b; mode_alpha b]) <$> blend_equation s
  | SBlendColor => (λ c, let '(r, g, b, a) := c in VFloats [r; g; b; a]) <$> blend_color s
  | SDepthFunc => (λ f, VInts [f]) <$> depth_func s
  | SDepthMask => (λ b, VBools [b]) <$> depth_mask s
  | SDepthRange => (λ r, VFloats [r.1; r.2]) <$> depth_range s
  | SStencilFunc f => ints3 <$> claims (stencil_func s) f
  | SStencilOp f => ints3 <$> claims (stencil_op s) f
  | SStencilMask f => (λ m : Z, VInts [m]) <$> claims (stencil_mask s) f
  | SPixelStore p => i ← px_slot p; (λ x : Z, VInts [x]) <$> claims (pixel_store_i32 s) i
  | SCullFace => (λ m, VInts [m]) <$> cull_face s
  | SFrontFace => (λ m, VInts [m]) <$> front_face s
  | SScissor => ints4 <$> last_scissor_rect s
  | SLineWidth => (λ w, VFloats [w]) <$> line_width s
  | SPolygonOffset => (λ r, VFloats [r.1; r.2]) <$> polygon_offset s
  | SColorMask => let '(r, g, b, a) := color_mask s in Some (VBools [r; g; b; a])
  | SDrawFramebuffer => (λ f, VName (framebuffer_name f)) <$> mjoin (fb_slots (bound_framebuffer s) !! 0%nat)
  | SReadFramebuffer => (λ f, VName (framebuffer_name f)) <$> mjoin (fb_slots (bound_framebuffer s) !! 0%nat)
  | SRenderbuffer => name_val (n_renderbuffer N) <$> bound_renderbuffer s
  end.

Definition sound (s : CanvasGLState) (d : GlState) : Prop :=
  ∀ k v, claim s k = Some v → d (native k) ≡ v.

(** The shape of a shadow. *)
Record shaped (s : CanvasGLState) : Prop := {
  tex_shaped : good (bound_texture_2d s);
  tex_active : active_texture_unit s = None → ∀ i : nat, claims (bound_texture_2d s) i = None;
  tex_unit u : active_texture_unit s = Some u → is_u32 u;
  px_shaped : good (pixel_store_i32 s);
  ubo_shaped : good (bound_uniform_buffer_indexed s);
  fb_shaped : length (fb_slots (bound_framebuffer s)) = 3%nat;
  va_shaped : keyed_wf (vertex_attribs s);
  program_live p : current_program s = Some p → is_Some (n_program N p);
  bound_live : vao_live (default 0 (bound_vao s)) = true;
}.
End claims.

(** * One update *)

Lemma assigned_elem k l v : assigned k l = Some v → (k, v) ∈ l.
Proof.
  induction l as [|[j w] l IH]; cbn [assigned]; [done|]. case_bool_decide as E.
  - intros [= ->]. subst j. left.
  - intros H. right. by apply IH.
Qed.

(** A call that writes what is there changes nothing. *)
Lemma after_same d c : Forall (λ kv, d kv.1 ≡ kv.2) (call_writes d c) → after d c ≡ d.
Proof.
  intros HF k. unfold after. destruct (assigned k (call_writes d c)) as [v|] eqn:E; [cbn|reflexivity].
  apply assigned_elem in E. rewrite Forall_forall in HF. symmetry. exact (HF (k, v) E).
Qed.

Section step.
Context (N : Names).

(** Every claim afterwards is the call's, or was there before and not written. *)
Definition claims_step (s s' : CanvasGLState) (d : GlState) (c : GlCall) : Prop :=
  ∀ k v, claim N s' k = Some v →
    match assigned (native N k) (call_writes d c) with
    | Some w => w ≡ v
    | None => claim N s k = Some v
    end.

Lemma sound_step s s' d c : claims_step s s' d c → sound N s d → sound N s' (after d c).
Proof.
  intros Hstep Hs k v Hk. specialize (Hstep k v Hk). unfold after.
  destruct (assigned _ _); [exact Hstep|]. by apply Hs.
Qed.

Lemma sound_equiv s d d' : d ≡ d' → sound N s d → sound N s d'.
Proof. intros E Hs k v Hk. rewrite <- (E (native N k)). by apply Hs. Qed.

(** The update keeps the shadow and the context in agreement whether or not the
    call is issued, and a call it skips would have changed nothing. *)
Definition tracks (f : Tracked → bool * Tracked) (c : GlCall) (s : CanvasGLState) (d : GlState) : Prop :=
  ∀ dg, let r := f {| gl := s; diag := dg |} in
    shaped N (gl r.2) ∧ sound N (gl r.2) (after d c) ∧ (r.1 = false → after d c ≡ d).

Lemma issue_if_spec b t : (issue_if b t).1 = b ∧ gl (issue_if b t).2 = gl t.
Proof. by destruct b. Qed.

(** The form of the updates of one option: skip, or record and issue. *)
Lemma option_tracks f c s d b s' :
  (∀ dg, f {| gl := s; diag := dg |} =
    if (b : bool) then (false, {| gl := s; diag := dg |}) else issue_if true {| gl := s'; diag := dg |}) →
  shaped N s → sound N s d →
  (b = true → Forall (λ kv, d kv.1 ≡ kv.2) (call_writes d c)) →
  (b = false → shaped N s' ∧ claims_step s s' d c) →
  tracks f c s d.
Proof.
  intros Hf Hg Hs Hskip Hissue dg. rewrite Hf. destruct b; cbn [fst snd gl].
  - assert (E := after_same _ _ (Hskip eq_refl)). split; [done|]. split; [|done].
    eapply sound_equiv; [symmetry; exact E|done].
  - destruct (Hissue eq_refl) as [Hg' Hstep]. split; [done|]. split; [|done]. by eapply sound_step.
Qed.
End step.

(** Closes [claims_step] when one slot changes: by cases on the slot. *)
Ltac slot_cases :=
  let k := fresh "k" in
  intros k ?; destruct k; cbn [claim native call_writes assigned];
  repeat (case_bool_decide; simplify_eq); cbn; try done; try (intros [= <-]; reflexivity).

(** The proof of an update of one option whose slot is [k]. *)
Ltac option_update k :=
  let Hg := fresh "Hg" in let Hs := fresh "Hs" in
  intros Hg Hs; eapply option_tracks;
  [ intros; cbv beta zeta delta [gl diag put]; reflexivity | exact Hg | exact Hs
  | let H := fresh "H" in intros H%bool_decide_eq_true_1; specialize (Hs k); cbn [claim native] in Hs;
    rewrite H in Hs; repeat constructor; by apply Hs
  | intros _; split; [by destruct Hg; split|slot_cases] ].

(** ** Updates of one option *)

Lemma viewport_tracks N x y w h s d :
  shaped N s → sound N s d → tracks N (update_viewport x y w h) (gl_viewport x y w h) s d.
Proof. unfold update_viewport. option_update SViewport. Qed.

Lemma blend_func_separate_tracks N a b c e s d :
  shaped N s → sound N s d → tracks N (update_blend_func_separate a b c e) (gl_blend_func_separate a b c e) s d.
Proof. unfold update_blend_func_separate. option_update SBlendFunc. Qed.

Lemma blend_func_tracks N a b s d :
  shaped N s → sound N s d → tracks N (update_blend_func a b) (gl_blend_func a b) s d.
Proof. unfold update_blend_func, update_blend_func_separate. option_update SBlendFunc. Qed.

Lemma blend_equation_separate_tracks N a b s d :
  shaped N s → sound N s d → tracks N (update_blend_equation_separate a b) (gl_blend_equation_separate a b) s d.
Proof. unfold update_blend_equation_separate. option_update SBlendEquation. Qed.

Lemma blend_equation_tracks N a s d :
  shaped N s → sound N s d → tracks N (update_blend_equation a) (gl_blend_equation a) s d.
Proof. unfold update_blend_equation, update_blend_equation_separate. option_update SBlendEquation. Qed.

Lemma depth_func_tracks N a s d :
  shaped N s → sound N s d → tracks N (update_depth_func a) (gl_depth_func a) s d.
Proof. unfold update_depth_func. option_update SDepthFunc. Qed.

Lemma depth_mask_tracks N a s d :
  shaped N s → sound N s d → tracks N (update_depth_mask a) (gl_depth_mask a) s d.
Proof. unfold update_depth_mask. option_update SDepthMask. Qed.

Lemma cull_face_tracks N a s d :
  shaped N s → sound N s d → tracks N (update_cull_face a) (gl_cull_face a) s d.
Proof. unfold update_cull_face. option_update SCullFace. Qed.

Lemma front_face_tracks N a s d :
  shaped N s → sound N s d → tracks N (update_front_face a) (gl_front_face a) s d.
Proof. unfold update_front_face. option_update SFrontFace. Qed.

Lemma color_mask_tracks N r g b a s d :
  shaped N s → sound N s d → tracks N (update_color_mask r g b a) (gl_color_mask r g b a) s d.
Proof. unfold update_color_mask. option_update SColorMask. Qed.

Lemma bind_renderbuffer_tracks N t r s d :
  shaped N s → sound N s d → tracks N (update_bind_renderbuffer r) (gl_bind_renderbuffer t (r ≫= n_renderbuffer N)) s d.
Proof. unfold update_bind_renderbuffer, dedup_slot. option_update SRenderbuffer. Qed.

Lemma active_texture_tracks N u s d :
  is_u32 u → shaped N s → sound N s d → tracks N (update_active_texture u) (gl_active_texture u) s d.
Proof.
  intros Hu Hg Hs. unfold update_active_texture. eapply option_tracks;
    [intros; cbv beta zeta delta [gl diag put]; reflexivity|exact Hg|exact Hs| |].
  - intros H%bool_decide_eq_true_1. apply Forall_singleton. apply (Hs SActiveTexture). cbn. by rewrite H.
  - intros _. split; [destruct Hg; split; try done; cbn; by intros ? [= <-]|slot_cases].
Qed.

(** ** Floats *)

Lemma f32_eq_same x y : f32_eq x y = true → same_float x y = true.
Proof.
  unfold f32_eq. rewrite !andb_true_iff, orb_true_iff, andb_true_iff, Z.eqb_eq. intros [_ H].
  apply same_float_spec. naive_solver.
Qed.

Lemma opt_eq_some {A} (eq : A → A → bool) o x : opt_eq eq o x = true → ∃ y, o = Some y ∧ eq y x = true.
Proof. destruct o as [y|]; [|done]. intros H. by exists y. Qed.

(** As [option_update], for a comparison of floats. *)
Ltac float_update k :=
  let Hg := fresh "Hg" in let Hs := fresh "Hs" in
  intros Hg Hs; eapply option_tracks;
  [ intros; cbv beta zeta delta [gl diag put]; reflexivity | exact Hg | exact Hs
  | let y := fresh "y" in let H := fresh "H" in let E := fresh "E" in
    intros (y & H & E)%opt_eq_some; specialize (Hs k); cbn [claim native] in Hs;
    rewrite H in Hs; repeat constructor; cbn [fst snd]; etrans; [by apply Hs|];
    unfold f32_pair_eq, f32_quad_eq in E; destruct_and?; destruct_prod y;
    rewrite ?andb_true_iff in E; destruct_and?; repeat constructor; by apply f32_eq_same
  | intros _; split; [by destruct Hg; split|slot_cases] ]
with destruct_prod y :=
  match type of y with prod _ _ => let a := fresh in let b := fresh in destruct y as [a b]; destruct_prod a; destruct_prod b | _ => idtac end.

Lemma line_width_tracks N w s d :
  shaped N s → sound N s d → tracks N (update_line_width w) (gl_line_width w) s d.
Proof. unfold update_line_width. float_update SLineWidth. Qed.

Lemma depth_range_tracks N a b s d :
  shaped N s → sound N s d → tracks N (update_depth_range a b) (gl_depth_range_f32 a b) s d.
Proof. unfold update_depth_range. float_update SDepthRange. Qed.

Lemma polygon_offset_tracks N a b s d :
  shaped N s → sound N s d → tracks N (update_polygon_offset a b) (gl_polygon_offset a b) s d.
Proof. unfold update_polygon_offset. float_update SPolygonOffset. Qed.

Lemma blend_color_tracks N r g b a s d :
  shaped N s → sound N s d → tracks N (update_blend_color r g b a) (gl_blend_color r g b a) s d.
Proof. unfold update_blend_color. float_update SBlendColor. Qed.

(** ** Programs, buffers, the scissor box *)

Lemma use_program_tracks N p h s d :
  n_program N p = Some h → shaped N s → sound N s d →
  tracks N (update_use_program p) (gl_use_program (Some h)) s d.
Proof.
  intros Hp Hg Hs. unfold update_use_program. eapply option_tracks;
    [intros; cbv beta zeta delta [gl diag put]; reflexivity|exact Hg|exact Hs| |].
  - intros H%bool_decide_eq_true_1. specialize (Hs SProgram). cbn [claim native] in Hs. rewrite H in Hs.
    repeat constructor. rewrite <- Hp. by apply Hs.
  - intros _. split; [destruct Hg; split; try done; cbn; by intros ? [= <-]|].
    rewrite <- Hp. slot_cases.
Qed.

Lemma scissor_tracks N x y w h s d :
  shaped N s → sound N s d → tracks N (update_scissor x y w h) (gl_scissor x y w h) s d.
Proof.
  intros Hg Hs. unfold update_scissor. eapply option_tracks;
    [intros; cbv beta zeta delta [gl diag put]; reflexivity|exact Hg|exact Hs| |].
  - intros H%bool_decide_eq_true_1. specialize (Hs SScissor). cbn [claim native] in Hs. rewrite H in Hs.
    repeat constructor. by apply Hs.
  - intros _. split; [destruct Hg; split; by case_bool_decide|].
    set (s' := if bool_decide (scissor _ = _) then _ else _).
    assert (E : ∃ sc, s' = (s <| last_scissor_rect := Some (x, y, w, h) |>) <| scissor := sc |>).
    { unfold s'. case_bool_decide as E; eexists; [|reflexivity]. by instantiate (1 := scissor s). }
    destruct E as [sc ->]. slot_cases.
Qed.

(** ** Vertex arrays as slots *)

Lemma current_vao_sound N s d : sound N s d → current_vao d = vao_number N (default 0 (bound_vao s)).
Proof. intros Hs. unfold current_vao, vao_number. assert (E := name_of_proper _ _ (Hs SVao _ eq_refl)).
  cbn [native name_of] in E. by rewrite E. Qed.

Lemma vao_number_inj N v w :
  names_ok N → vao_live N v = true → vao_live N w = true → vao_number N v = vao_number N w → v = w.
Proof.
  intros HN. unfold vao_live, vao_number, vao_name. rewrite !orb_true_iff, !bool_decide_eq_true.
  destruct (Z.eqb_spec v 0) as [->|Hv], (Z.eqb_spec w 0) as [->|Hw]; try done.
  - intros _ [?|[h Hh]]; [done|]. rewrite Hh. cbn. intros <-. by destruct (vao_nonzero _ HN _ _ Hh).
  - intros [?|[h Hh]] _; [done|]. rewrite Hh. cbn. intros ->. by destruct (vao_nonzero _ HN _ _ Hh).
  - intros [?|[h Hh]] [?|[h' Hh']]; try done. rewrite Hh, Hh'. cbn. intros ->. by apply (vao_inj _ HN _ _ h').
Qed.

Lemma buffer_slot_shared d t : t ≠ GL_ELEMENT_ARRAY_BUFFER → buffer_slot d t = SBuffer t.
Proof. intros H. unfold buffer_slot. by rewrite (proj2 (Z.eqb_neq _ _)). Qed.

(** Shared by the targets whose binding is a slot of its own. *)
Lemma buffer_step N s s' d t b :
  t ≠ GL_ELEMENT_ARRAY_BUFFER → buffer_shadow s' t = Some b →
  (∀ u, u ≠ t → buffer_shadow s' u = buffer_shadow s u) →
  (∀ k, (∀ u, k ≠ SBuffer u) → claim N s' k = claim N s k) →
  claims_step N s s' d (gl_bind_buffer t (b ≫= n_buffer N)).
Proof.
  intros Ht Hb Ho Hc k v. cbn [call_writes]. rewrite buffer_slot_shared by done. cbn [assigned].
  assert (Hd : (∃ u, k = SBuffer u) ∨ ∀ u, k ≠ SBuffer u) by (destruct k; eauto).
  destruct Hd as [[u ->]|Hk].
  - cbn [native claim]. case_bool_decide as E; simplify_eq.
    + rewrite Hb. cbn. by intros [= <-].
    + rewrite Ho by congruence. done.
  - rewrite Hc by naive_solver. rewrite bool_decide_eq_false_2; [done|]. intros E. destruct k; naive_solver.
Qed.

(** The proof for one target that is a slot of its own. *)
Ltac buffer_others :=
  let u := fresh "u" in let Hu := fresh "Hu" in
  intros u Hu; unfold buffer_shadow; cbn;
  repeat match goal with |- context [u =? ?c] =>
    destruct (Z.eqb_spec u c); [first [reflexivity | exfalso; by apply Hu]|] end; reflexivity.

Ltac buffer_update t Hg Hs :=
  eapply option_tracks;
  [ intros; cbv beta zeta delta [gl diag put]; reflexivity | exact Hg | exact Hs
  | let H := fresh "H" in intros H%bool_decide_eq_true_1; apply Forall_singleton; cbn [fst snd];
    apply (Hs (SBuffer t)); cbn; by rewrite H
  | intros _; split; [by destruct Hg; split|];
    apply buffer_step; [done|done|buffer_others|intros [] Hk; solve [reflexivity | by destruct (Hk _ eq_refl)]] ].

Lemma bind_buffer_tracks N t b s d :
  names_ok N → shaped N s → sound N s d →
  tracks N (update_bind_buffer t b) (gl_bind_buffer t (b ≫= n_buffer N)) s d.
Proof.
  intros HN Hg Hs. unfold update_bind_buffer, dedup_slot.
  destruct (Z.eqb_spec t GL_ARRAY_BUFFER) as [->|]; [buffer_update GL_ARRAY_BUFFER Hg Hs|].
  destruct (Z.eqb_spec t GL_ELEMENT_ARRAY_BUFFER) as [->|].
  { eapply option_tracks; [intros; cbv beta zeta delta [gl diag put]; reflexivity|exact Hg|exact Hs| |].
    - intros H%bool_decide_eq_true_1. apply Forall_singleton. cbn [fst snd].
      change (buffer_slot d GL_ELEMENT_ARRAY_BUFFER) with (SElementArray (current_vao d)).
      rewrite (current_vao_sound _ _ _ Hs). apply (Hs (SElementArray (default 0 (bound_vao s)))).
      cbn. by rewrite Z.eqb_refl, H.
    - intros _. split; [by destruct Hg; split|]. intros k v. cbn [call_writes].
      change (buffer_slot d GL_ELEMENT_ARRAY_BUFFER) with (SElementArray (current_vao d)).
      rewrite (current_vao_sound _ _ _ Hs).
      destruct k; cbn [assigned native]; case_bool_decide as E; simplify_eq; cbn [claim]; try done; cbn.
      + destruct (Z.eqb_spec vao (default 0 (bound_vao s))) as [->|]; [by intros [= <-]|done].
      + destruct (Z.eqb_spec vao (default 0 (bound_vao s))) as [->|]; done. }
  destruct (Z.eqb_spec t GL_UNIFORM_BUFFER) as [->|]; [buffer_update GL_UNIFORM_BUFFER Hg Hs|].
  destruct (Z.eqb_spec t GL_PIXEL_UNPACK_BUFFER) as [->|]; [buffer_update GL_PIXEL_UNPACK_BUFFER Hg Hs|].
  destruct (Z.eqb_spec t GL_PIXEL_PACK_BUFFER) as [->|]; [buffer_update GL_PIXEL_PACK_BUFFER Hg Hs|].
  destruct (Z.eqb_spec t GL_COPY_READ_BUFFER) as [->|]; [buffer_update GL_COPY_READ_BUFFER Hg Hs|].
  destruct (Z.eqb_spec t GL_COPY_WRITE_BUFFER) as [->|]; [buffer_update GL_COPY_WRITE_BUFFER Hg Hs|].
  destruct (Z.eqb_spec t GL_TRANSFORM_FEEDBACK_BUFFER) as [->|]; [buffer_update GL_TRANSFORM_FEEDBACK_BUFFER Hg Hs|].
  intros dg. cbn zeta. change (gl (issue_if true _).2) with s. split; [done|]. split; [|done].
  eapply sound_step; [|exact Hs]. intros k v. cbn [call_writes]. rewrite buffer_slot_shared by done.
  cbn [assigned]. case_bool_decide as E; [|done]. destruct k; cbn [native] in E; simplify_eq; cbn [claim]. unfold buffer_shadow.
  repeat match goal with |- context [?u =? ?c] => destruct (Z.eqb_spec u c); [done|] end. done.
Qed.

(** ** Updates of a shadow that keeps the contract *)

Section shadow.
Context (N : Names) {S K J V : Type} `{Laws : DedupLaws S K J V} `{!EqDecision J}.
Context (sh : S) (key : K) (v : V) (s : CanvasGLState) (d : GlState) (c : GlCall) (next : S → CanvasGLState).
(** The entry of the shadow a slot is, and what its value means. *)
Context (family : Slot → option J) (val : V → Val).
Local Abbreviation sh' := (record key v sh).2.
Local Abbreviation s' := (next sh').

Lemma shadow_tracks f b :
  (∀ dg, f {| gl := s; diag := dg |} = issue_if (b || (record key v sh).1) {| gl := s'; diag := dg |}) →
  good sh → shaped N s' → sound N s d →
  (∀ k j, family k = Some j → claim N s k = val <$> claims sh j ∧ claim N s' k = val <$> claims sh' j) →
  (∀ k w, family k = None → claim N s' k = Some w →
    claim N s k = Some w ∧ assigned (native N k) (call_writes d c) = None) →
  (∀ k j x, family k = Some j → claims sh' j = Some x →
    assigned (native N k) (call_writes d c) = if bool_decide (j ∈ writes key) then Some (val v) else None) →
  ((record key v sh).1 = false → Forall (λ kv, ∃ k j, kv = (native N k, val v) ∧ family k = Some j ∧ j ∈ writes key)
    (call_writes d c)) →
  tracks N f c s d.
Proof using Laws.
  intros Hf Hg Hg' Hs Hfam Hother Hin Hw dg. rewrite Hf. cbn zeta.
  destruct (issue_if_spec (b || (record key v sh).1) {| gl := s'; diag := dg |}) as [-> ->]. cbn [gl].
  split; [done|]. split.
  - eapply sound_step; [|exact Hs]. intros k w Hk. destruct (family k) as [j|] eqn:Ek.
    + destruct (Hfam k j Ek) as [E E']. rewrite E' in Hk. apply fmap_Some in Hk as (x & Hx & ->).
      rewrite (Hin k j x Ek Hx). destruct (record_claims key v sh j x Hg Hx) as [[Hj ->]|[Hj Hc]].
      * by rewrite bool_decide_eq_true_2.
      * rewrite bool_decide_eq_false_2 by done. by rewrite E, Hc.
    + destruct (Hother k w Ek Hk) as [? ->]. done.
  - intros [_ Hr]%orb_false_iff. apply after_same. eapply Forall_impl; [exact (Hw Hr)|].
    intros ? (k & j & -> & Ek & Hj). cbn [fst snd]. apply Hs. destruct (Hfam k j Ek) as [-> _].
    by rewrite (record_skipped key v sh j Hg Hr Hj).
Qed.
End shadow.

(** A call of which nothing is recorded: no slot it writes is claimed. *)
Lemma unrecorded_tracks N f s d c :
  (∀ dg, f {| gl := s; diag := dg |} = issue_if true {| gl := s; diag := dg |}) →
  (∀ k w, claim N s k = Some w → assigned (native N k) (call_writes d c) = None) →
  shaped N s → sound N s d → tracks N f c s d.
Proof.
  intros Hf Hw Hg Hs dg. rewrite Hf. cbn [fst snd issue_if]. change (gl (_ <| diag := _ |>)) with s.
  split; [done|]. split; [|done]. eapply sound_step; [|exact Hs]. intros k w Hk. by rewrite (Hw k w Hk).
Qed.

Lemma assigned_fmap_none {A} (g : A → Slot) w (l : list A) k :
  (∀ a, g a ≠ k) → assigned k (fmap (λ a, (g a, w)) l) = None.
Proof.
  intros Hk. induction l as [|a l IH]; [done|]. cbn. rewrite bool_decide_eq_false_2 by apply Hk. exact IH.
Qed.

Lemma assigned_fmap_some {A} `{EqDecision A} (g : A → Slot) w (l : list A) j :
  (∀ a, g a = g j → a = j) →
  assigned (g j) (fmap (λ a, (g a, w)) l) = if bool_decide (j ∈ l) then Some w else None.
Proof.
  intros Hinj. induction l as [|a l IH]; [by rewrite bool_decide_eq_false_2 by apply not_elem_of_nil|]. cbn.
  rewrite IH. destruct (decide (a = j)) as [->|Hn].
  - rewrite bool_decide_eq_true_2 by done. by rewrite bool_decide_eq_true_2 by left.
  - rewrite bool_decide_eq_false_2 by naive_solver. by rewrite (bool_decide_ext (j ∈ a :: l) (j ∈ l)) by (rewrite elem_of_cons; naive_solver).
Qed.

(** The form of the shadows whose entries are slots. *)
Lemma slots_tracks N {S K J V} `{Laws : DedupLaws S K J V} `{!EqDecision J} (sh : S) (key : K) (v : V)
    s d c (next : S → CanvasGLState) (slot : J → Slot) (family : Slot → option J) (val : V → Val) f b :
  (∀ dg, f {| gl := s; diag := dg |} =
    issue_if (b || (record key v sh).1) {| gl := next (record key v sh).2; diag := dg |}) →
  good sh → shaped N (next (record key v sh).2) → sound N s d →
  (∀ k j, family k = Some j ↔ k = slot j) →
  (∀ j, native N (slot j) = slot j) → (∀ k j, native N k = slot j → k = slot j) →
  (∀ j, claim N s (slot j) = val <$> claims sh j ∧
        claim N (next (record key v sh).2) (slot j) = val <$> claims (record key v sh).2 j) →
  (∀ k w, family k = None → claim N (next (record key v sh).2) k = Some w → claim N s k = Some w) →
  call_writes d c = fmap (λ j, (slot j, val v)) (writes key) →
  tracks N f c s d.
Proof.
  intros Hf Hg Hg' Hs Hfam Hnat Hnat' Hcl Ho Hw.
  eapply (shadow_tracks N sh key v s d c next family val); try done.
  - by intros k j ->%Hfam.
  - intros k w Hk Hc. split; [by eapply Ho|]. rewrite Hw. apply assigned_fmap_none.
    intros j E. symmetry in E. apply Hnat' in E as ->. destruct (Hfam (slot j) j) as [_ H]. by rewrite H in Hk.
  - intros k j x ->%Hfam _. rewrite Hnat, Hw. apply assigned_fmap_some.
    intros a E. destruct (Hfam (slot j) a) as [_ H]. destruct (Hfam (slot j) j) as [_ H'].
    rewrite H in H' by done. specialize (H' eq_refl). congruence.
  - intros _. rewrite Hw. apply Forall_fmap, Forall_forall. intros j Hj. exists (slot j), j. cbn.
    rewrite Hnat. split; [done|]. split; [by apply Hfam|done].
Qed.

(** The proof for a shadow whose entries are the slots of one constructor. *)
Tactic Notation "shadow_update" open_constr(step) :=
  eapply step;
  [ let dg := fresh in intros dg; cbn -[face_update px_update];
    match goal with |- context [let '(_, _) := ?x in _] => by destruct x end
  | first [exact I | by match goal with H : shaped _ _ |- _ => destruct H end]
  | by match goal with H : shaped _ _ |- _ => destruct H; split end | done
  | by intros [] ?; cbn; split; intros; simplify_eq | done | by intros [] ? | done | by intros [] | done ].

Definition stencil_func_slot (k : Slot) := match k with SStencilFunc f => Some f | _ => None end.
Definition stencil_op_slot (k : Slot) := match k with SStencilOp f => Some f | _ => None end.
Definition stencil_mask_slot (k : Slot) := match k with SStencilMask f => Some f | _ => None end.

Lemma stencil_func_tracks N face a b m s d :
  shaped N s → sound N s d →
  tracks N (update_stencil_func face a b m) (gl_stencil_func_separate face a b m) s d.
Proof.
  intros Hg Hs. unfold update_stencil_func.
  shadow_update (slots_tracks N (stencil_func s) face (a, b, m) s d _ (λ x, s <| stencil_func := x |>)
    SStencilFunc stencil_func_slot ints3 _ false).
Qed.

Lemma stencil_op_tracks N face a b m s d :
  shaped N s → sound N s d →
  tracks N (update_stencil_op face a b m) (gl_stencil_op_separate face a b m) s d.
Proof.
  intros Hg Hs. unfold update_stencil_op.
  shadow_update (slots_tracks N (stencil_op s) face (a, b, m) s d _ (λ x, s <| stencil_op := x |>)
    SStencilOp stencil_op_slot ints3 _ false).
Qed.

Lemma stencil_mask_tracks N face m s d :
  shaped N s → sound N s d →
  tracks N (update_stencil_mask face m) (gl_stencil_mask_separate face m) s d.
Proof.
  intros Hg Hs. unfold update_stencil_mask.
  shadow_update (slots_tracks N (stencil_mask s) face m s d _ (λ x, s <| stencil_mask := x |>)
    SStencilMask stencil_mask_slot (λ m, VInts [m]) _ false).
Qed.

(** The calls without a face are the calls for both. *)
Lemma tracks_call N f c c' s d : call_writes d c = call_writes d c' → tracks N f c' s d → tracks N f c s d.
Proof.
  intros Hw Ht dg. assert (E : after d c = after d c') by (unfold after; by rewrite Hw).
  specialize (Ht dg). cbn zeta in *. by rewrite E.
Qed.

(** ** Capabilities *)

Lemma cap_tracks N cap (on : bool) s d b :
  shaped N s → sound N s d →
  tracks N (λ t, issue_if ((record cap on (capabilities (gl t))).1 || b)
                   (put t ((gl t) <| capabilities := (record cap on (capabilities (gl t))).2 |>)))
    (if on then gl_enable cap else gl_disable cap) s d.
Proof.
  intros Hg Hs. destruct (index_of cap TOGGLEABLE_CAPS) as [i|] eqn:Ei.
  - eapply (slots_tracks N (capabilities s) cap on s d _ (λ x, s <| capabilities := x |>)
      SCap (λ k, match k with SCap c => Some c | _ => None end) (λ b, VBools [b]) _ b).
    + intros dg. by rewrite orb_comm.
    + done.
    + by destruct Hg; split.
    + done.
    + intros [] ?; split; intros; simplify_eq; done.
    + done.
    + by intros [] j.
    + done.
    + by intros [].
    + cbn [writes cap_dedup]. rewrite Ei. by destruct on.
  - assert (E : record cap on (capabilities s) = (true, capabilities s)) by by apply cap_record_untracked.
    apply unrecorded_tracks; try done.
    + intros dg. cbn [gl]. rewrite E. cbn [fst snd orb]. f_equal. unfold put. f_equal. by destruct s.
    + intros k w Hk. assert (call_writes d (if on then gl_enable cap else gl_disable cap) = [(SCap cap, VBools [on])])
        as -> by by destruct on. cbn [assigned]. rewrite bool_decide_eq_false_2; [done|].
      intros E'. destruct k; cbn in E'; simplify_eq. cbn [claim claims cap_dedup] in Hk. by rewrite Ei in Hk.
Qed.

Lemma enable_tracks N cap s d :
  shaped N s → sound N s d → tracks N (update_enable cap) (gl_enable cap) s d.
Proof.
  intros Hg Hs dg. pose proof (cap_tracks N cap true s d (cap =? STENCIL_TEST) Hg Hs dg) as Ht.
  unfold update_enable. cbn [gl record cap_dedup] in *. by destruct (cap_enable cap (capabilities s)).
Qed.

Lemma disable_tracks N cap s d :
  shaped N s → sound N s d → tracks N (update_disable cap) (gl_disable cap) s d.
Proof.
  intros Hg Hs dg. pose proof (cap_tracks N cap false s d (cap =? STENCIL_TEST) Hg Hs dg) as Ht.
  unfold update_disable. cbn [gl record cap_dedup] in *. by destruct (cap_disable cap (capabilities s)).
Qed.

(** ** Pixel storage *)

Lemma pixel_store_tracks N p x s d :
  shaped N s → sound N s d → tracks N (update_pixel_store_i32 p x) (gl_pixel_store_i32 p x) s d.
Proof.
  intros Hg Hs. destruct (px_slot p) as [i|] eqn:Ei.
  - eapply (shadow_tracks N (pixel_store_i32 s) p x s d _ (λ y, s <| pixel_store_i32 := y |>)
      (λ k, match k with SPixelStore q => px_slot q | _ => None end) (λ y, VInts [y]) _ false).
    + intros dg. unfold update_pixel_store_i32. cbn [gl orb record px_dedup]. by destruct (px_update _ _ _).
    + by destruct Hg.
    + destruct Hg as [? ? ? Hp]; split; try done. exact (record_good p x _ Hp).
    + done.
    + intros [] j Hj; try done. cbn [claim]. by rewrite Hj.
    + intros k w Hk Hw. split; [destruct k; try exact Hw; cbn [claim] in Hw; by rewrite Hk in Hw|].
      destruct k; try done. cbn [native call_writes assigned]. rewrite bool_decide_eq_false_2; [done|naive_solver].
    + intros [] j y Hj _; try done. cbn [native call_writes assigned writes px_dedup]. rewrite Ei.
      destruct (decide (pname = p)) as [->|Hn].
      * rewrite !bool_decide_eq_true_2; [done|apply list_elem_of_singleton; congruence|done].
      * rewrite !bool_decide_eq_false_2; [done| |congruence]. rewrite list_elem_of_singleton. intros ->.
        by destruct Hn, (index_of_inj _ _ _ _ Hj Ei).
    + intros _. apply Forall_singleton. exists (SPixelStore p), i. split; [done|]. split; [done|].
      cbn [writes px_dedup]. rewrite Ei. by apply list_elem_of_singleton.
  - assert (E : px_update p x (pixel_store_i32 s) = (true, pixel_store_i32 s)) by by unfold px_update; rewrite Ei.
    apply unrecorded_tracks; try done.
    + intros dg. unfold update_pixel_store_i32. cbn [gl]. rewrite E. f_equal. unfold put. f_equal. by destruct s.
    + intros k w Hk. cbn [call_writes assigned]. rewrite bool_decide_eq_false_2; [done|].
      intros E'. destruct k; cbn in E'; simplify_eq. cbn [claim] in Hk. by rewrite Ei in Hk.
Qed.

(** ** Textures *)

Lemma current_unit_sound N s d u : sound N s d → active_texture_unit s = Some u → current_unit d = u.
Proof.
  intros Hs Hu. pose proof (Hs SActiveTexture (VInts [u])) as H. cbn [claim native] in H. rewrite Hu in H.
  specialize (H eq_refl). unfold current_unit. revert H. unfold equiv, Val_equiv.
  destruct (d SActiveTexture); intros H; simplify_eq; done.
Qed.

Definition unit_entry (u : Z) : option nat :=
  if (TEXTURE0 <=? u) && (u <? TEXTURE0 + 32) then Some (Z.to_nat (u - TEXTURE0)) else None.

Lemma tex_index_entry u : is_u32 u → tex_index u = unit_entry u.
Proof.
  unfold is_u32, tex_index, unit_entry, u32_wrapping_sub, TEXTURE0, MAX_TRACKED_TEXTURE_UNITS. intros Hu.
  destruct (Z.leb_spec 0x84C0 u) as [H|H]; cbn [andb].
  - rewrite Z.mod_small by lia. destruct (Z.ltb_spec (u - 0x84C0) 32), (Z.ltb_spec u (0x84C0 + 32)); try lia; done.
  - rewrite (proj2 (Z.ltb_ge _ _)); [done|].
    replace (u - 0x84C0) with (u - 0x84C0 + 1 * 2 ^ 32 - 1 * 2 ^ 32) by lia.
    rewrite <- (Z_mod_plus_full (u - 0x84C0 + 1 * 2 ^ 32 - 1 * 2 ^ 32) 1). rewrite Z.mod_small; lia.
Qed.

Lemma unit_entry_inj u v i : unit_entry u = Some i → unit_entry v = Some i → u = v.
Proof. unfold unit_entry, TEXTURE0. intros. repeat case_match; simplify_eq. bool_to_prop. lia. Qed.

Definition texture_entry (k : Slot) : option nat := match k with STexture2D u => unit_entry u | _ => None end.

Lemma claim_texture N s u :
  claim N s (STexture2D u) = i ← unit_entry u; name_val (n_texture N) <$> claims (bound_texture_2d s) i.
Proof. cbn [claim]. unfold unit_entry. by destruct (_ && _). Qed.

Lemma bind_texture_tracks N tex s d :
  shaped N s → sound N s d →
  tracks N (update_bind_texture_2d tex) (gl_bind_texture TEXTURE_2D (tex ≫= n_texture N)) s d.
Proof.
  intros Hg Hs. destruct (active_texture_unit s) as [u|] eqn:Eu.
  - assert (Hw : call_writes d (gl_bind_texture TEXTURE_2D (tex ≫= n_texture N)) =
                 [(STexture2D u, name_val (n_texture N) tex)]).
    { cbn [call_writes]. rewrite Z.eqb_refl. by rewrite (current_unit_sound _ _ _ u Hs Eu). }
    assert (Hu := tex_unit _ _ Hg u Eu).
    eapply (shadow_tracks N (bound_texture_2d s) u tex s d _ (λ y, s <| bound_texture_2d := y |>)
      texture_entry (name_val (n_texture N)) _ (bool_decide (unit_entry u = None))).
    + intros dg. unfold update_bind_texture_2d. cbn [gl record tex_dedup]. rewrite Eu.
      unfold tex_bind. rewrite tex_index_entry by done. destruct (unit_entry u); [|done]. by destruct (_ && _).
    + by destruct Hg.
    + destruct Hg as [Ht Ha ? ? ? ? ? ?]; split; try done; cbn [bound_texture_2d set_field].
      * exact (record_good u tex _ Ht).
      * intros Hn. cbn in Hn. congruence.
    + done.
    + intros [] j Hj; try done. cbn [texture_entry] in Hj. rewrite !claim_texture, Hj. done.
    + intros k w Hk Hc. split.
      * destruct k; try exact Hc. rewrite claim_texture in Hc. cbn [texture_entry] in Hk. by rewrite Hk in Hc.
      * rewrite Hw. cbn [assigned].
        destruct (decide (k = STexture2D u)) as [->|Hn].
        -- rewrite claim_texture in Hc. cbn [texture_entry] in Hk. by rewrite Hk in Hc.
        -- rewrite bool_decide_eq_false_2; [done|]. intros E. destruct k; cbn in E; simplify_eq.
    + intros [] j y Hj _; try done. rewrite Hw. cbn [native assigned writes tex_dedup texture_entry] in *.
      rewrite tex_index_entry by done. destruct (decide (unit_ = u)) as [->|Hn].
      * rewrite Hj. rewrite !bool_decide_eq_true_2; [done|by apply list_elem_of_singleton|done].
      * rewrite !bool_decide_eq_false_2; [done| |congruence].
        destruct (unit_entry u) as [i|] eqn:Ei; [|apply not_elem_of_nil]. rewrite list_elem_of_singleton.
        intros ->. by destruct Hn, (unit_entry_inj _ _ _ Hj Ei).
    + cbn [record tex_dedup]. unfold tex_bind. rewrite tex_index_entry, Hw by done.
      destruct (unit_entry u) as [i|] eqn:Ei; [|done]. intros _. apply Forall_singleton.
      exists (STexture2D u), i. split; [done|]. split; [done|]. cbn [writes tex_dedup].
      rewrite tex_index_entry, Ei by done. by apply list_elem_of_singleton.
  - apply unrecorded_tracks; try done.
    + intros dg. unfold update_bind_texture_2d. cbn [gl]. by rewrite Eu.
    + intros k w Hk. cbn [call_writes]. rewrite Z.eqb_refl. cbn [assigned]. rewrite bool_decide_eq_false_2; [done|].
      intros E. destruct k; cbn in E; simplify_eq. rewrite claim_texture in Hk.
      destruct (unit_entry _) as [i|]; [|done]. cbn [mbind option_bind] in Hk. by rewrite (tex_active _ _ Hg Eu) in Hk.
Qed.

(** ** Framebuffers *)

Lemma framebuffer_writes d f :
  call_writes d (gl_bind_framebuffer FRAMEBUFFER f) = [(SDrawFramebuffer, VName f); (SReadFramebuffer, VName f)].
Proof. cbn [call_writes]. by rewrite Z.eqb_refl. Qed.

Lemma bind_framebuffer_tracks N f s d :
  shaped N s → sound N s d →
  tracks N (update_bind_framebuffer FRAMEBUFFER f) (gl_bind_framebuffer FRAMEBUFFER (framebuffer_name N f)) s d.
Proof.
  intros Hg Hs. assert (Hsl : fb_slot FRAMEBUFFER = Some 0%nat) by (unfold fb_slot; by rewrite Z.eqb_refl).
  eapply (shadow_tracks N (bound_framebuffer s) FRAMEBUFFER f s d _ (λ y, s <| bound_framebuffer := y |>)
    (λ k, match k with SDrawFramebuffer | SReadFramebuffer => Some 0%nat | _ => None end)
    (λ f, VName (framebuffer_name N f)) _ false).
  - intros dg. unfold update_bind_framebuffer. cbn [gl orb record fb_dedup]. by destruct (fb_update _ _ _).
  - by destruct Hg.
  - destruct Hg as [? ? ? ? ? Hf ? ? ?]; split; try done. exact (record_good FRAMEBUFFER f _ Hf).
  - done.
  - by intros [] j [= <-].
  - intros k w Hk Hc. split; [by destruct k|]. rewrite framebuffer_writes. by destruct k.
  - intros k j y Hk _. rewrite framebuffer_writes. cbn [writes fb_dedup]. rewrite Hsl.
    destruct k; simplify_eq; by rewrite bool_decide_eq_true_2 by by apply list_elem_of_singleton.
  - intros _. rewrite framebuffer_writes. cbn [writes fb_dedup]. rewrite Hsl. repeat constructor.
    + exists SDrawFramebuffer, 0%nat. split; [done|]. split; [done|]. by apply list_elem_of_singleton.
    + exists SReadFramebuffer, 0%nat. split; [done|]. split; [done|]. by apply list_elem_of_singleton.
Qed.

(** ** The vertex array *)

Lemma bind_vertex_array_tracks N v s d :
  names_ok N → vao_live N (default 0 v) = true → shaped N s → sound N s d →
  tracks N (update_bind_vertex_array v) (gl_bind_vertex_array (vao_name N (default 0 v))) s d.
Proof.
  intros HN Hv Hg Hs. unfold update_bind_vertex_array. eapply option_tracks;
    [intros; cbv beta zeta delta [gl diag put]; reflexivity|exact Hg|exact Hs| |].
  - intros H%bool_decide_eq_true_1. apply Forall_singleton. apply (Hs SVao). cbn. by rewrite H.
  - intros _. split; [by destruct Hg; split|]. slot_cases.
    + unfold buffer_shadow. cbn. by destruct (target =? GL_ARRAY_BUFFER).
    + by destruct (vao =? _).
Qed.

(** ** Vertex attributes *)

Definition here (s : CanvasGLState) : Z := default 0 (bound_vao s).

(** The writes of an attribute call of the bound vertex array. *)
Lemma attr_slot_name N s d (mk : Z → nat → Slot) v i :
  names_ok N → shaped N s → sound N s d → vao_live N v = true →
  (∀ a b c e, mk a b = mk c e → a = c ∧ b = e) →
  ∀ j, mk (vao_number N v) i = mk (current_vao d) j ↔ (v, i) = (here s, j).
Proof.
  intros HN Hg Hs Hv Hmk j. rewrite (current_vao_sound _ _ _ Hs). fold (here s). split.
  - intros [E ->]%Hmk. apply vao_number_inj in E; [by subst|done..|by apply bound_live].
  - by intros [= -> ->].
Qed.

(** An update of one attribute, for a shadow of the attributes. *)
Section attribute.
Context (N : Names) {V : Type} `{Laws : DedupLaws VertexArrayShadow (Z * Z) (Z * nat) V}.
Context (mk : Z → nat → Slot) (entry : Slot → option (Z * nat)) (val : V → Val).
Hypothesis (writes_attr : ∀ key : Z * Z, writes key = attr_writes key) (good_wf : ∀ sh : VertexArrayShadow, keyed_wf sh ↔ good sh).
Hypothesis (past_range : ∀ (key : Z * Z) x (sh : VertexArrayShadow), MAX_TRACKED_ATTRIBS ≤ key.2 → (record key x sh).1 = true).
Hypothesis (entry_mk : ∀ k v i, entry k = Some (v, i) ↔ k = mk v i).
Hypothesis (native_mk : ∀ v i, native N (mk v i) = mk (vao_number N v) i).
Hypothesis (native_other : ∀ k, entry k = None → ∀ v i, native N k ≠ mk v i).
Hypothesis (mk_inj : ∀ a b c e, mk a b = mk c e → a = c ∧ b = e).
Hypothesis (claim_mk : ∀ s v i,
  claim N s (mk v i) = if tracked_attrib N v i then val <$> claims (vertex_attribs s) (v, i) else None).

Definition attribute_entry (k : Slot) : option (Z * nat) :=
  e ← entry k; if tracked_attrib N e.1 e.2 then Some e else None.

Lemma attribute_tracks index (x : V) f c s d :
  let sh' := (record (here s, index) x (vertex_attribs s)).2 in
  names_ok N → shaped N s → sound N s d → keyed_wf sh' →
  (∀ dg, f {| gl := s; diag := dg |} =
    issue_if (record (here s, index) x (vertex_attribs s)).1 {| gl := s <| vertex_attribs := sh' |>; diag := dg |}) →
  (∀ k w, entry k = None → claim N (s <| vertex_attribs := sh' |>) k = Some w → claim N s k = Some w) →
  call_writes d c = [(mk (current_vao d) (Z.to_nat index), val x)] →
  tracks N f c s d.
Proof using Laws writes_attr good_wf past_range entry_mk native_mk native_other mk_inj claim_mk.
  intros sh' HN Hg Hs Hwf Hf Ho Hw.
  assert (Hname : ∀ v i, vao_live N v = true →
    mk (vao_number N v) i = mk (current_vao d) (Z.to_nat index) ↔ (v, i) = (here s, Z.to_nat index)).
  { intros v i Hv. by apply (attr_slot_name N s d mk). }
  assert (Hentry : ∀ k v i, attribute_entry k = Some (v, i) → k = mk v i ∧ vao_live N v = true ∧ (i < 32)%nat).
  { intros k v i. unfold attribute_entry. destruct (entry k) as [[v' i']|] eqn:Ek; [|done]. cbn.
    destruct (tracked_attrib N v' i') eqn:Et; [|done]. intros [= -> ->].
    apply andb_true_iff in Et as [? ?%Nat.ltb_lt]. split; [by apply entry_mk|done]. }
  eapply (shadow_tracks N (vertex_attribs s) (here s, index) x s d c (λ y, s <| vertex_attribs := y |>)
    attribute_entry val f false).
  - done.
  - apply good_wf, Hg.
  - destruct Hg; split; done.
  - done.
  - intros k [v i] Hk. destruct (Hentry _ _ _ Hk) as (-> & Hv & Hi). rewrite !claim_mk.
    unfold tracked_attrib. by rewrite Hv, (proj2 (Nat.ltb_lt _ _) Hi).
  - intros k w Hk Hc. destruct (entry k) as [[v i]|] eqn:Ek.
    + assert (Hk' : attribute_entry k = None) by done. unfold attribute_entry in Hk'. rewrite Ek in Hk'. cbn in Hk'.
      apply entry_mk in Ek as ->. rewrite claim_mk in Hc. by destruct (tracked_attrib N v i).
    + split; [by apply Ho|]. rewrite Hw. cbn [assigned]. rewrite bool_decide_eq_false_2; [done|].
      intros E. symmetry in E. by eapply native_other.
  - intros k [v i] y Hk _. destruct (Hentry _ _ _ Hk) as (-> & Hv & Hi). rewrite Hw, native_mk, writes_attr.
    cbn [assigned]. destruct (decide ((v, i) = (here s, Z.to_nat index))) as [E|E].
    + rewrite bool_decide_eq_true_2 by (symmetry; by apply Hname). rewrite bool_decide_eq_true_2; [done|].
      apply attr_writes_tracked. cbn [fst snd]. split; [|done]. injection E as -> ->.
      unfold MAX_TRACKED_ATTRIBS. lia.
    + rewrite bool_decide_eq_false_2 by (intros E'; apply E, Hname; [done|by symmetry]).
      rewrite bool_decide_eq_false_2; [done|]. rewrite attr_writes_tracked. cbn [fst snd]. naive_solver.
  - intros Hr. rewrite Hw. apply Forall_singleton. exists (mk (here s) (Z.to_nat index)), (here s, Z.to_nat index).
    rewrite native_mk, (current_vao_sound _ _ _ Hs). split; [done|].
    assert (Hi : index < MAX_TRACKED_ATTRIBS).
    { destruct (Z.ltb_spec index MAX_TRACKED_ATTRIBS) as [|Hge]; [done|].
      by rewrite (past_range (here s, index) x _ Hge) in Hr. }
    split; [|rewrite writes_attr; by apply attr_writes_tracked].
    unfold attribute_entry. destruct (entry_mk (mk (here s) (Z.to_nat index)) (here s) (Z.to_nat index)) as [_ ->]; [|done].
    cbn. unfold tracked_attrib. unfold MAX_TRACKED_ATTRIBS in Hi.
    rewrite (bound_live _ _ Hg : vao_live N (here s) = true). by rewrite (proj2 (Nat.ltb_lt _ _)) by lia.
Qed.
End attribute.

(** What an attribute call leaves of the other two shadows of the attributes. *)
Lemma pointer_keeps index fp s v i :
  keyed_wf (vertex_attribs s) → let sh := (record (here s, index) (fp : VertexAttribPointerFp) (vertex_attribs s)).2 in
  divisor (attr_slot sh v i) = divisor (attr_slot (vertex_attribs s) v i) ∧
  attr_on sh v i = attr_on (vertex_attribs s) v i.
Proof.
  intros W. cbn zeta. cbn [record pointer_dedup fst snd]. unfold update_pointer.
  destruct (Z.ltb_spec index MAX_TRACKED_ATTRIBS) as [Hi|Hi]; [|by rewrite with_slot_untracked].
  pose proof (with_slot_spec (here s) index (λ slot, if bool_decide (pointer slot = Some fp) then (false, slot)
    else (true, {| pointer := Some fp; divisor := divisor slot |})) _ W Hi) as HS. cbv beta zeta in HS.
  case_bool_decide; destruct HS as (sh & -> & _ & HS); cbn zeta; cbn [snd]; destruct (HS v i) as [-> ->]; split; try done;
    destruct (Z.eqb_spec v (here s)) as [->|], (Nat.eqb_spec i (Z.to_nat index)) as [->|]; done.
Qed.

Lemma divisor_keeps index x s v i :
  keyed_wf (vertex_attribs s) → let sh := (record (here s, index) (x : Z) (vertex_attribs s)).2 in
  pointer (attr_slot sh v i) = pointer (attr_slot (vertex_attribs s) v i) ∧
  attr_on sh v i = attr_on (vertex_attribs s) v i.
Proof.
  intros W. cbn zeta. cbn [record divisor_dedup fst snd]. unfold update_divisor.
  destruct (Z.ltb_spec index MAX_TRACKED_ATTRIBS) as [Hi|Hi]; [|by rewrite with_slot_untracked].
  pose proof (with_slot_spec (here s) index (λ slot, if bool_decide (divisor slot = Some x) then (false, slot)
    else (true, {| pointer := pointer slot; divisor := Some x |})) _ W Hi) as HS. cbv beta zeta in HS.
  case_bool_decide; destruct HS as (sh & -> & _ & HS); cbn zeta; cbn [snd]; destruct (HS v i) as [-> ->]; split; try done;
    destruct (Z.eqb_spec v (here s)) as [->|], (Nat.eqb_spec i (Z.to_nat index)) as [->|]; done.
Qed.

Lemma enabled_keeps index (on : bool) s v i :
  keyed_wf (vertex_attribs s) → let sh := (record (J:=Z * nat) (here s, index) on (vertex_attribs s)).2 in
  attr_slot sh v i = attr_slot (vertex_attribs s) v i.
Proof.
  intros W. destruct (Z.ltb_spec index MAX_TRACKED_ATTRIBS) as [Hi|Hi].
  - destruct (enable_spec on (here s, index) _ W Hi) as (sh & -> & _ & HS & _). apply HS.
  - by rewrite enable_untracked.
Qed.

(** Discharges the section's hypotheses for a constructor of [Slot]; what is left
    is that the other two shadows keep their claims, and the call's write. *)
Ltac attribute_update N mk entry val i w keeps :=
  eapply (attribute_tracks N mk entry val) with (index := i) (x := w);
  [ done | done
  | let Hi := fresh in intros [] ? ? Hi; cbn [fst snd] in Hi;
    first [ by rewrite enable_untracked | by cbn [record pointer_dedup divisor_dedup fst snd];
            unfold update_pointer, update_divisor; rewrite with_slot_untracked ]
  | by intros [] ? ?; split; intros; simplify_eq | done | by intros [] | by intros; simplify_eq | done
  | done | done | done
  | match goal with H : shaped _ ?s |- _ => exact (record_good (J:=Z * nat) (here s, i) w _ (va_shaped _ _ H)) end
  | intros dg
  | let k := fresh "k" in let Hk := fresh "Hk" in
    intros k ? Hk; destruct k; try discriminate Hk; try (intros Hc; exact Hc); cbn [claim];
    match goal with H : shaped _ ?s |- context [tracked_attrib _ ?v ?j] =>
      generalize (keeps i w s v j (va_shaped _ _ H))
    end; cbn [claims record pointer_dedup divisor_dedup enabled_dedup fst snd vertex_attribs set_field]; intros Hkeep
  | ].

Lemma vertex_attrib_pointer_tracks N i size ty n st o b s d :
  names_ok N → shaped N s → sound N s d → bound_array_buffer s = Some b →
  tracks N (update_vertex_attrib_pointer i size ty n st o) (gl_vertex_attrib_pointer_f32 i size ty n st o) s d.
Proof.
  intros HN Hg Hs Hb. set (fp := {| fp_size := size; fp_type_ := ty; fp_normalized := n; fp_stride := st;
    fp_offset := o; fp_array_buffer := b |}).
  assert (Hbuf : name_of (d (SBuffer GL_ARRAY_BUFFER)) = b ≫= n_buffer N).
  { apply (name_of_proper _ (VName _)), (Hs (SBuffer GL_ARRAY_BUFFER)). cbn. by rewrite Hb. }
  attribute_update N SAttribPointer (λ k, match k with SAttribPointer v i => Some (v, i) | _ => None end)
    (pointer_val N) i fp pointer_keeps.
  - unfold update_vertex_attrib_pointer. cbn [gl]. rewrite Hb. change (mjoin (Some b)) with b.
    cbn [record pointer_dedup fst snd]. fold (here s) fp. by destruct (update_pointer _ _ _ _).
  - by rewrite (proj2 Hkeep).
  - by rewrite (proj1 Hkeep).
  - cbn [call_writes]. unfold pointer_val. cbn. by rewrite Hbuf.
Qed.

Lemma vertex_attrib_divisor_tracks N i x s d :
  names_ok N → shaped N s → sound N s d →
  tracks N (update_vertex_attrib_divisor i x) (gl_vertex_attrib_divisor i x) s d.
Proof.
  intros HN Hg Hs.
  attribute_update N SAttribDivisor (λ k, match k with SAttribDivisor v i => Some (v, i) | _ => None end)
    (λ x : Z, VInts [x]) i x divisor_keeps.
  - unfold update_vertex_attrib_divisor. cbn [gl].
    cbn [record divisor_dedup fst snd]. fold (here s). by destruct (update_divisor _ _ _ _).
  - by rewrite (proj2 Hkeep).
  - by rewrite (proj1 Hkeep).
  - done.
Qed.

Lemma attrib_enabled_tracks N i (on : bool) f c s d :
  names_ok N → shaped N s → sound N s d →
  (∀ dg, f {| gl := s; diag := dg |} =
    let '(b, sh) := record (J:=Z * nat) (here s, i) on (vertex_attribs s) in
    issue_if b {| gl := s <| vertex_attribs := sh |>; diag := dg |}) →
  call_writes d c = [(SAttribEnabled (current_vao d) (Z.to_nat i), VBools [on])] →
  tracks N f c s d.
Proof.
  intros HN Hg Hs Hf Hw.
  attribute_update N SAttribEnabled (λ k, match k with SAttribEnabled v i => Some (v, i) | _ => None end)
    (λ b : bool, VBools [b]) i on enabled_keeps.
  - rewrite Hf. by destruct (record _ _ _).
  - by rewrite Hkeep.
  - by rewrite Hkeep.
  - done.
Qed.

(** ** Uniforms *)

Lemma current_program_sound N s d p : sound N s d → current_program s = Some p → name_of (d SProgram) = n_program N p.
Proof.
  intros Hs Hp. apply (name_of_proper _ (VName _)), (Hs SProgram). cbn. by rewrite Hp.
Qed.

Definition uniform_entry (N : Names) (k : Slot) : option (Z * Z) :=
  match k with SUniform p l => _ ← n_program N p; Some (p, l) | _ => None end.

Lemma uniform_entry_spec N k p l :
  uniform_entry N k = Some (p, l) → ∃ h, n_program N p = Some h ∧ k = SUniform p l ∧ native N k = SUniform h l.
Proof.
  destruct k as [|q m| | | | | | | | | | | | | | | | | | | | | | | | | | | | | |]; try done. cbn [uniform_entry native].
  destruct (n_program N q) as [h|] eqn:E; [|done]. intros [= -> ->]. by exists h.
Qed.

Lemma uniform_tracks `{!HashOrder (Z * Z)} N bytes loc c s d p :
  names_ok N → shaped N s → sound N s d → current_program s = Some p →
  call_writes d c = uniform_write d loc bytes →
  tracks N (should_issue_uniform bytes loc) c s d.
Proof.
  intros HN Hg Hs Hp Hc. pose proof (uniform_laws MAX_UNIFORM_CACHE) as Laws.
  destruct (program_live _ _ Hg p Hp) as [h Hh].
  assert (Hw : call_writes d c = [(SUniform h loc, VBytes bytes)]).
  { rewrite Hc. unfold uniform_write. by rewrite (current_program_sound _ _ _ _ Hs Hp), Hh. }
  eapply (shadow_tracks (Laws:=Laws) N (uniform_cache s) (p, loc) bytes s d _ (λ y, s <| uniform_cache := y |>)
    (uniform_entry N) VBytes _ false).
  - intros dg. unfold should_issue_uniform, update_uniform. cbn [gl]. rewrite Hp.
    cbn [orb record uniform_dedup fst snd]. by destruct (uniform_update _ _ _ _ _).
  - done.
  - by destruct Hg; split.
  - done.
  - intros k [q l] (h' & Hq & -> & _)%uniform_entry_spec. cbn [claim]. by rewrite Hq.
  - intros k w Hk Hw'. split.
    + destruct k as [|q m| | | | | | | | | | | | | | | | | | | | | | | | | | | | | |]; try exact Hw'.
      cbn [claim uniform_entry] in *. destruct (n_program N q); [discriminate Hk|exact Hw'].
    + rewrite Hw. cbn [assigned]. rewrite bool_decide_eq_false_2; [done|]. intros E.
      destruct k as [|q m| | | | | | | | | | | | | | | | | | | | | | | | | | | | | |]; cbn in E; simplify_eq.
      cbn [claim uniform_entry] in *. destruct (n_program N q); [discriminate Hk|discriminate Hw'].
  - intros k [q l] y (h' & Hq & -> & ->)%uniform_entry_spec _. rewrite Hw. cbn [assigned writes uniform_dedup].
    destruct (decide ((q, l) = (p, loc))) as [[= -> ->]|Hn].
    + rewrite !bool_decide_eq_true_2; [done|by apply list_elem_of_singleton|congruence].
    + rewrite !bool_decide_eq_false_2; [done|by rewrite list_elem_of_singleton|]. intros [= -> ->].
      by destruct Hn; rewrite (program_inj _ HN p q h').
  - intros _. rewrite Hw. apply Forall_singleton. exists (SUniform p loc), (p, loc). cbn [native uniform_entry writes uniform_dedup].
    rewrite Hh. split; [done|]. split; [done|]. by apply list_elem_of_singleton.
Qed.

(** ** Indexed buffer bindings *)

(** The call also binds its target, which the update does not record: the target
    must be known to have that buffer, or be unknown and the call not skipped. *)
Definition generic_ok (s : CanvasGLState) (t i : Z) (entry : UboEntry) : Prop :=
  buffer_shadow s t = Some (entry.1.1) ∨
  buffer_shadow s t = None ∧
    (t = GL_UNIFORM_BUFFER → (record i entry (bound_uniform_buffer_indexed s)).1 = true).

Definition range_val (N : Names) (e : UboEntry) : Val := let '(b, o, z) := e in VRange (b ≫= n_buffer N) o z.

Lemma generic_claim N s t i entry v :
  generic_ok s t i entry → claim N s (SBuffer t) = Some v → v = name_val (n_buffer N) entry.1.1.
Proof. cbn [claim]. intros [->|[-> _]]; [|done]. by intros [= <-]. Qed.

Lemma ubo_record i entry u :
  good u →
  good (ubo_update i entry u).2 ∧
  ((ubo_update i entry u).1 = false → claims u (Z.to_nat i) = Some entry) ∧
  ∀ j w, claims (ubo_update i entry u).2 j = Some w →
    (j = Z.to_nat i ∧ w = entry) ∨ (j ≠ Z.to_nat i ∧ claims u j = Some w).
Proof.
  intros Hg. destruct (ubo_update_array i entry u) as [E1 E2]. cbn [good claims ubo_dedup] in *.
  rewrite E1, E2. split; [by rewrite array_record_length|]. split; [apply array_record_skipped|].
  intros j w [(-> & _ & ->)|[Hn Hj]]%array_record_claims; [by left|]. right. split; [|done]. intros ->.
  apply Hn. split; [done|]. apply lookup_lt_is_Some_1. by destruct (ubo_slots u !! _).
Qed.

Lemma indexed_tracks N t i entry f c s d :
  shaped N s → sound N s d → generic_ok s t i entry →
  (∀ dg, f {| gl := s; diag := dg |} =
    if negb (t =? GL_UNIFORM_BUFFER) then issue_if true {| gl := s; diag := dg |}
    else let '(b, u) := ubo_update i entry (bound_uniform_buffer_indexed s) in
         issue_if b {| gl := s <| bound_uniform_buffer_indexed := u |>; diag := dg |}) →
  call_writes d c = (SBuffer t, name_val (n_buffer N) entry.1.1) ::
    (if t =? GL_UNIFORM_BUFFER then [(SUniformBuffer (Z.to_nat i), range_val N entry)] else []) →
  tracks N f c s d.
Proof.
  intros Hg Hs Hgen Hf Hw dg. rewrite Hf. destruct (Z.eqb_spec t GL_UNIFORM_BUFFER) as [Ht|Ht]; cbn [negb].
  - destruct (ubo_record i entry _ (ubo_shaped _ _ Hg)) as (Hgood & Hskip & Hcl).
    assert (Hgen' := generic_claim N s t i entry). unfold generic_ok in Hgen, Hgen'. cbn [record ubo_dedup] in *.
    destruct (ubo_update i entry (bound_uniform_buffer_indexed s)) as [b u]. cbn [fst snd] in *. cbn zeta.
    destruct (issue_if_spec b {| gl := s <| bound_uniform_buffer_indexed := u |>; diag := dg |}) as [-> ->]. cbn [gl].
    split; [by destruct Hg; split|]. split.
    + eapply sound_step; [|exact Hs]. intros k w Hk. rewrite Hw. cbn [assigned].
      destruct k; try exact Hk; cbn [native].
      * case_bool_decide as E; [|exact Hk]. simplify_eq. by rewrite (Hgen' w Hgen Hk).
      * rewrite bool_decide_eq_false_2 by done. cbn [claim] in Hk. apply fmap_Some in Hk as (x & Hx & ->).
        destruct (Hcl _ _ Hx) as [[-> ->]|[Hn Hc]]; [by rewrite bool_decide_eq_true_2|].
        rewrite bool_decide_eq_false_2 by congruence. cbn [claim]. by rewrite Hc.
    + intros ->. apply after_same. rewrite Hw. destruct Hgen as [Hgen|[_ Hgen]]; [|by specialize (Hgen Ht)].
      repeat constructor; cbn [fst snd].
      * apply (Hs (SBuffer t)). cbn [claim]. by rewrite Hgen.
      * apply (Hs (SUniformBuffer _)). cbn [claim]. by rewrite Hskip.
  - cbn [fst snd issue_if]. change (gl (_ <| diag := _ |>)) with s. split; [done|]. split; [|done].
    eapply sound_step; [|exact Hs]. intros k w Hk. rewrite Hw. cbn [assigned].
    destruct k; try exact Hk; cbn [native]. case_bool_decide as E; [|exact Hk]. simplify_eq.
    by rewrite (generic_claim _ _ _ _ _ _ Hgen Hk).
Qed.

Lemma bind_buffer_base_tracks N t i b s d :
  shaped N s → sound N s d → generic_ok s t i (b, 0, 0) →
  tracks N (update_bind_buffer_base t i b) (gl_bind_buffer_base t i (b ≫= n_buffer N)) s d.
Proof. intros. by eapply indexed_tracks. Qed.

Lemma bind_buffer_range_tracks N t i b o z s d :
  shaped N s → sound N s d → generic_ok s t i (b, o, z) →
  tracks N (update_bind_buffer_range t i b o z) (gl_bind_buffer_range t i (b ≫= n_buffer N) o z) s d.
Proof. intros. by eapply indexed_tracks. Qed.
