(* ===== verification/Invisible.v ===== *)
(** The dedup of driver calls cannot be seen ([engine/crates/graphics],
    [renderergl/handler.rs]).

    A batch is run twice from one state: by the handler, and by the handler that
    issues every call.  Results and manager agree, the calls left out changed
    nothing, and every drawing call meets a context it cannot tell from the other.

    Contexts are taken one by one: what [state] describes is the bindings of a
    context, and the uniforms of the programs it uses, which [check_owner] keeps
    to one canvas. *)
From S2P Require Import Prelude FrameDamage Keyed Budget Commands Shadow FrameStats StateTracker Driver Errors Handler Dedup.

Set Default Proof Using "Type".

(** * Runs of calls *)

Section world.
Context `{Drv : !GlDriver}.

Definition World : Type := BoundContext → context.
#[global] Instance World_equiv : Equiv World := λ w w', ∀ b, w b ≡ w' b.

#[global] Instance World_equivalence : Equivalence (≡@{World}).
Proof.
  split.
  - intros w b. reflexivity.
  - intros w w' H b. symmetry. apply H.
  - intros w w' w'' H H' b. etrans; [apply H|apply H'].
Qed.

Definition play (w : World) (e : Event) : World := λ b, if bool_decide (b = e.1) then issue (w b) e.2 else w b.
Definition play_all (w : World) (l : list Event) : World := foldl play w l.

#[global] Instance play_proper : Proper ((≡) ==> (=) ==> (≡)) play.
Proof. intros w w' H e ? <- b. unfold play. case_bool_decide; [by apply issue_proper|apply H]. Qed.

#[global] Instance play_all_proper : Proper ((≡) ==> (=) ==> (≡)) play_all.
Proof.
  intros w w' H l ? <-. revert w w' H. induction l as [|e l IH]; intros w w' H; [done|]. cbn. apply IH. by rewrite H.
Qed.

Fixpoint accepted (w : World) (l : list Event) : Prop :=
  match l with
  | [] => True
  | e :: l => accepts (w e.1) e.2 ∧ accepted (play w e) l
  end.

Lemma accepted_app w l l' : accepted w (l ++ l') ↔ accepted w l ∧ accepted (play_all w l) l'.
Proof. revert w. induction l as [|e l IH]; intros w; cbn; [naive_solver|]. rewrite IH. naive_solver. Qed.

(** The calls whose effect is seen: they draw, or compute from what is bound. *)
Definition draws (c : GlCall) : bool :=
  match c with
  | gl_clear _ | gl_draw_arrays _ _ _ | gl_draw_elements _ _ _ _ | gl_draw_arrays_instanced _ _ _ _
  | gl_draw_elements_instanced _ _ _ _ _ | gl_generate_mipmap _ => true
  | _ => false
  end.

(** The drawing calls of a run, each with the context it meets. *)
Fixpoint drawn (w : World) (l : list Event) : list (context * GlCall) :=
  match l with
  | [] => []
  | e :: l => (if draws e.2 then [(w e.1, e.2)] else []) ++ drawn (play w e) l
  end.

(** The second run is the first less calls that would have changed nothing. *)
Inductive elided : World → list Event → list Event → Prop :=
  | elided_nil w : elided w [] []
  | elided_keep w e l l' : elided (play w e) l l' → elided w (e :: l) (e :: l')
  | elided_skip w e l l' :
      draws e.2 = false → issue (w e.1) e.2 ≡ w e.1 → elided (play w e) l l' → elided w (e :: l) l'.

Lemma elided_refl w l : elided w l l.
Proof. revert w. induction l; intros w; constructor; auto. Qed.

Lemma elided_app w l1 l1' l2 l2' :
  elided w l1 l1' → elided (play_all w l1) l2 l2' → elided w (l1 ++ l2) (l1' ++ l2').
Proof. induction 1; cbn; intros; [done|constructor; auto|constructor; auto]. Qed.

Lemma play_skip w e : issue (w e.1) e.2 ≡ w e.1 → play w e ≡ w.
Proof. intros H b. unfold play. case_bool_decide; [by subst|done]. Qed.

Lemma elided_world w w0 l l' : w0 ≡ w → elided w l l' → play_all w l ≡ play_all w0 l'.
Proof.
  intros Hw H. revert w0 Hw. induction H as [w|w e l l' H IH|w e l l' Hd He H IH]; intros w0 Hw; cbn.
  - done.
  - apply IH. by rewrite Hw.
  - apply IH. by rewrite (play_skip w e He).
Qed.

Definition same_sight : relation (context * GlCall) := λ x y, x.1 ≡ y.1 ∧ x.2 = y.2.

Lemma elided_drawn w w0 l l' : w0 ≡ w → elided w l l' → Forall2 same_sight (drawn w l) (drawn w0 l').
Proof.
  intros Hw H. revert w0 Hw. induction H as [w|w e l l' H IH|w e l l' Hd He H IH]; intros w0 Hw; cbn.
  - constructor.
  - apply Forall2_app; [|apply IH; by rewrite Hw]. destruct (draws e.2); [|constructor].
    apply Forall2_cons. split; [|constructor]. split; [|done]. cbn. symmetry. apply Hw.
  - rewrite Hd. cbn. apply IH. by rewrite (play_skip w e He).
Qed.

Lemma elided_sublist w l l' : elided w l l' → l' `sublist_of` l.
Proof. induction 1; by constructor. Qed.
End world.

(** * Agreement of a manager with the contexts *)

Definition shadow (cm : CanvasManager) (id : Z) : CanvasGLState :=
  default gl_state_default (keyed_view (gl_state cm) id).

Record good_world `{Drv : !GlDriver} (cm : CanvasManager) (w : World) : Prop := {
  good_keyed : keyed_wf (gl_state cm);
  good_names id : names_ok (names_of cm id);
  good_shaped id : shaped (names_of cm id) (shadow cm id);
  good_sound id : sound (names_of cm id) (shadow cm id) (state (w (Canvas id)));
  good_shared id : canvas_uses_shared_2d cm id = false;
}.

(** What the agreement is about, and the handler leaves alone but for the tracker. *)
Definition base (cm : CanvasManager) :=
  (canvases cm, shared_2d cm, contexts_2d cm, programs cm, buffers cm, textures cm, framebuffers cm, renderbuffers cm,
   vaos cm).

Record idle (cm cm' : CanvasManager) : Prop := { idle_base : base cm' = base cm; idle_state : gl_state cm' = gl_state cm }.

Lemma idle_refl cm : idle cm cm.
Proof. done. Qed.

Lemma base_names cm cm' id : base cm' = base cm → names_of cm' id = names_of cm id.
Proof. unfold base. intros [= E E1 E2 E3 E4 E5 E6 E7 E8]. unfold names_of, get_drawing_buffer_fbo. congruence. Qed.

Lemma base_shared cm cm' id : base cm' = base cm → canvas_uses_shared_2d cm' id = canvas_uses_shared_2d cm id.
Proof. unfold base. intros [= E E1 E2 E3 E4 E5 E6 E7 E8]. unfold canvas_uses_shared_2d. by rewrite E1, E2. Qed.

Lemma good_idle `{!GlDriver} cm cm' w : idle cm cm' → good_world cm w → good_world cm' w.
Proof.
  intros [Hb Hs] [Hk Hn Hsh Hso Hu].
  split; intros; rewrite ?(base_names cm), ?(base_shared cm) by done; unfold shadow in *; rewrite ?Hs; done.
Qed.

(** * Two runs *)

Section related.
Context `{Drv : !GlDriver}.

Definition related {A} (m m' : M A) (Q : A → CanvasManager → Prop) (cm : CanvasManager) (w : World) : Prop :=
  ∀ r l' cm', m' cm = (r, l', cm') → accepted w l' →
  ∃ l, m cm = (r, l, cm') ∧ elided w l' l ∧ good_world cm' (play_all w l') ∧ ∀ a, r = Ret a → Q a cm'.

Lemma related_bind {A B} (m m' : M A) (f f' : A → M B) P Q cm w :
  related m m' P cm w → (∀ a cm w, good_world cm w → P a cm → related (f a) (f' a) Q cm w) →
  related (m ≫= f) (m' ≫= f') Q cm w.
Proof.
  intros Hm Hf r l' cm'. unfold mbind, M_bind. destruct (m' cm) as [[r1 l1'] cm1] eqn:E1. intros Hr Ha.
  assert (Ha1 : accepted w l1').
  { destruct r1; simplify_eq; try done. destruct (f' a cm1) as [[r2 l2'] cm2]. simplify_eq. by apply accepted_app in Ha as [? _]. }
  destruct (Hm r1 l1' cm1 E1 Ha1) as (l1 & -> & Hel & Hg & HP). destruct r1 as [a|e| |]; simplify_eq; try (by exists l1).
  destruct (f' a cm1) as [[r2 l2'] cm2] eqn:E2. simplify_eq. apply accepted_app in Ha as [_ Ha].
  destruct (Hf a cm1 _ Hg (HP a eq_refl) _ _ _ E2 Ha) as (l2 & -> & Hel2 & Hg2 & HQ).
  exists (l1 ++ l2). unfold play_all in *. rewrite foldl_app. split; [done|]. split; [|done]. by apply elided_app.
Qed.

(** A computation that makes no call and leaves the tracker alone. *)
Lemma related_silent {A} (m : M A) Q cm w :
  good_world cm w →
  (∃ r cm', m cm = (r, [], cm') ∧ idle cm cm' ∧ ∀ a, r = Ret a → Q a cm') →
  related m m Q cm w.
Proof.
  intros Hg (r & cm' & E & Hi & HQ) r' l' cm''. rewrite E. intros [= <- <- <-] _. exists [].
  split; [done|]. split; [constructor|]. split; [by apply (good_idle cm)|done].
Qed.

Lemma related_mono {A} (m m' : M A) (P Q : A → CanvasManager → Prop) cm w :
  (∀ a cm, P a cm → Q a cm) → related m m' P cm w → related m m' Q cm w.
Proof. intros HPQ H r l' cm' E Ha. destruct (H r l' cm' E Ha) as (l & ? & ? & ? & ?). exists l. naive_solver. Qed.

Lemma related_ret {A} (a : A) (Q : A → CanvasManager → Prop) cm w :
  good_world cm w → Q a cm → related (mret a) (mret a) Q cm w.
Proof. intros. apply related_silent; [done|]. exists (Ret a), cm. split; [done|]. split; [done|]. by intros ? [= <-]. Qed.

(** A call that sets no state the tracker follows. *)
Lemma related_call c Q cm w :
  (∀ d, call_writes d c = []) → good_world cm w → Q tt cm → related (gl_call c) (gl_call c) Q cm w.
Proof.
  intros Hc Hg HQ r l' cm' [= <- <- <-] [Ha _]. cbn in Ha. exists [(bound cm, c)]. split; [done|].
  split; [apply elided_refl|]. split; [|by intros [] _].
  destruct Hg as [Hk Hn Hsh Hso Hu]. split; try done. intros id. cbn. unfold play. cbn [fst snd].
  case_bool_decide as E; [|apply Hso]. eapply sound_equiv; [|apply Hso]. rewrite <- E in Ha.
  rewrite (issue_state _ _ Ha). symmetry. apply after_same. by rewrite Hc.
Qed.

(** An update of the tracker that changes no claim. *)
Lemma related_on_state id f Q cm w :
  (∀ N s, shaped N s → shaped N (f s) ∧ ∀ k, claim N (f s) k = claim N s k) →
  good_world cm w → (∀ t, Q tt (cm <| gl_state := t |>)) →
  related (on_state id (λ s, (tt, f s))) (on_state id (λ s, (tt, f s))) Q cm w.
Proof.
  intros Hf Hg HQ r l' cm'. unfold on_state.
  pose proof (entry_modify_spec gl_state_default (gl_state cm) id (λ s, (tt, f s)) (good_keyed _ _ Hg)) as H.
  cbn zeta beta in H. destruct H as (t & -> & Hk & Hv). intros [= <- <- <-] _. exists []. split; [done|].
  split; [constructor|]. split; [|by intros [] _]. destruct Hg as [_ Hn Hsh Hso Hu].
  split; [exact Hk|exact Hn| | |exact Hu]; intros j; unfold shadow in *; cbn [gl_state set_field]; rewrite Hv.
  - destruct (Z.eqb_spec j id) as [->|]; [|apply Hsh]. by apply Hf, Hsh.
  - destruct (Z.eqb_spec j id) as [->|]; [|apply Hso]. intros k v. cbn [default].
    destruct (Hf _ _ (Hsh id)) as [_ ->]. apply Hso.
Qed.

(** ** A guarded call *)

Lemma entry_modify_fst_snd {R V} d (t : CanvasKeyed V) id (f : V → R * V) :
  keyed_wf t → let r := f (default d (keyed_view t id)) in
  ∃ t', entry_modify d t id f = (r.1, t') ∧ keyed_wf t' ∧
    ∀ j, keyed_view t' j = if j =? id then Some r.2 else keyed_view t j.
Proof. intros Hk. pose proof (entry_modify_spec d t id f Hk) as H. cbn zeta. by destruct (f _). Qed.

Lemma update_spec id f cm :
  keyed_wf (gl_state cm) →
  let r := f {| gl := shadow cm id; diag := hot cm |} in
  ∃ t, update id f cm = (Ret r.1, [], cm <| gl_state := t |> <| hot := diag r.2 |>) ∧ keyed_wf t ∧
    ∀ j, keyed_view t j = if j =? id then Some (gl r.2) else keyed_view (gl_state cm) j.
Proof.
  intros Hk. unfold update, mbind, M_bind, gets, on_state.
  destruct (entry_modify_fst_snd gl_state_default (gl_state cm) id
    (λ s, let '(b, t) := f {| gl := s; diag := hot cm |} in ((b, diag t), gl t)) Hk) as (t & E & Hk' & Hv).
  rewrite E. fold (shadow cm id) in Hv |- *. exists t. unfold shadow in *.
  revert Hv. destruct (f _) as [b t']. done.
Qed.

Lemma related_guarded id f c Q cm w :
  good_world cm w → bound cm = Canvas id → draws c = false → (∀ cm', Q tt cm') →
  tracks (names_of cm id) f c (shadow cm id) (state (w (Canvas id))) →
  related (guarded (λ b, b) id f c) (guarded (λ _, true) id f c) Q cm w.
Proof.
  intros Hg Hb Hd HQ Ht r l' cm'. unfold guarded.
  destruct (update_spec id f cm (good_keyed _ _ Hg)) as (t & E & Hk & Hv). specialize (Ht (hot cm)).
  destruct (f {| gl := shadow cm id; diag := hot cm |}) as [b t']. cbn [fst snd] in *. cbn zeta in Ht.
  destruct Ht as (Hsh & Hso & Hskip). unfold mbind, M_bind. rewrite E. cbn [gl_call app]. intros [= <- <- <-] [Ha _].
  cbn [bound set_field fst snd] in *. rewrite Hb in *.
  exists (if b then [(Canvas id, c)] else []). split; [by destruct b; cbn; rewrite ?Hb|].
  split.
  { destruct b; [apply elided_refl|]. apply elided_skip; [done| |constructor]. cbn [fst snd].
    by apply issue_again, Hskip. }
  split; [|by intros [] _]. destruct Hg as [_ Hn Hsh' Hso' Hu].
  split; [exact Hk|exact Hn| | |exact Hu]; intros j; unfold shadow in *; cbn [gl_state set_field play_all foldl]; rewrite Hv.
  - destruct (Z.eqb_spec j id) as [->|]; [exact Hsh|apply Hsh'].
  - unfold play. cbn [fst snd]. destruct (Z.eqb_spec j id) as [->|].
    + rewrite bool_decide_eq_true_2 by done. eapply sound_equiv; [symmetry; by apply issue_state|exact Hso].
    + rewrite bool_decide_eq_false_2 by congruence. apply Hso'.
Qed.
End related.

(** ** The arms of the handler *)

Section arms.
Context `{Drv : !GlDriver} `{Surf : !Egl} `{!HashOrder Z, !HashOrder (Z * Z)}.

(** [cm'] follows [cm] with no call and the tracker as it was. *)
Definition silent {A} (m : M A) (cm : CanvasManager) (P : A → CanvasManager → Prop) : Prop :=
  ∃ r cm', m cm = (r, [], cm') ∧ idle cm cm' ∧ ∀ a, r = Ret a → P a cm'.

Lemma silent_bind {A B} (m : M A) (f : A → M B) P Q cm :
  silent m cm P → (∀ a cm', idle cm cm' → P a cm' → silent (f a) cm' Q) → silent (m ≫= f) cm Q.
Proof.
  intros (r & cm' & E & Hi & HP) Hf. unfold silent, mbind, M_bind. rewrite E.
  destruct r as [a|e| |]; try (by eexists _, cm'; split; [done|]; split; [done|]).
  destruct (Hf a cm' Hi (HP a eq_refl)) as (r2 & cm2 & -> & [Hb2 Hs2] & HQ). exists r2, cm2. split; [done|].
  split; [|done]. destruct Hi as [Hb Hs]. split; congruence.
Qed.

Lemma silent_gets {A B} (g : CanvasManager → A) (f : A → M B) Q cm :
  silent (f (g cm)) cm Q → silent (gets g ≫= f) cm Q.
Proof.
  intros (r & cm' & E & Hi & HQ). exists r, cm'. unfold mbind, M_bind, gets. by rewrite E.
Qed.

Lemma silent_ret {A} (a : A) (P : A → CanvasManager → Prop) cm : P a cm → silent (mret a) cm P.
Proof. intros HP. exists (Ret a), cm. split; [done|]. split; [done|]. by intros ? [= <-]. Qed.

Lemma silent_err {A} e (P : A → CanvasManager → Prop) cm : silent (err e) cm P.
Proof. by exists (Fail e), cm. Qed.

Lemma silent_make_current b cm : silent (make_current b) cm (λ _ cm', bound cm' = b).
Proof.
  unfold silent, make_current, mbind, M_bind, gets, modify. destruct (egl_make_current _); by eexists _, _.
Qed.

Lemma silent_make_current_needed id cm :
  canvas_uses_shared_2d cm id = false → silent (make_current_needed id) cm (λ _ cm', bound cm' = Canvas id).
Proof.
  intros Hs. unfold make_current_needed. apply silent_gets. rewrite Hs. apply silent_gets.
  case_bool_decide; [by apply silent_ret|]. apply silent_gets.
  destruct (canvases cm !! id); [apply silent_make_current|apply silent_err].
Qed.

Lemma silent_true {A} (m : M A) P cm : silent m cm P → silent m cm (λ _ _, True).
Proof. intros (r & cm' & E & Hi & _). by exists r, cm'. Qed.

Lemma silent_ensure_any_canvas_current cm :
  (∀ id, canvas_uses_shared_2d cm id = false) → silent ensure_any_canvas_current cm (λ _ _, True).
Proof.
  intros Hs. unfold ensure_any_canvas_current. apply silent_gets.
  assert (Hm : ∀ id, silent (make_current_needed id;; mret id) cm (λ _ _, True)).
  { intros id. eapply silent_bind; [by apply silent_make_current_needed|]. intros. by apply silent_ret. }
  destruct (bound cm); [|by apply silent_ret..]. apply silent_gets. case_bool_decide; [apply Hm|].
  destruct (first_key _); [apply Hm|]. eapply silent_bind; [|intros; by apply silent_ret].
  eapply silent_true, silent_make_current.
Qed.

(** ** Objects *)

Lemma silent_any_object table id cm :
  silent (any_object table id) cm (λ h cm', h = id ≫= handle_in (table cm) ∧ cm' = cm).
Proof. unfold any_object. eexists _, cm. split; [reflexivity|]. split; [done|]. by intros ? [= <-]. Qed.

Lemma silent_live_object table id cm :
  silent (live_object table id) cm (λ h cm', h = handle_in (table cm) id ∧ cm' = cm).
Proof.
  unfold live_object. apply silent_gets. unfold handle_in. destruct (table cm !! id) as [meta|]; [|apply silent_err].
  destruct (deleted meta); [apply silent_err|by apply silent_ret].
Qed.

Lemma silent_owned_object table canvas id cm :
  silent (owned_object table canvas id) cm (λ h cm', h = handle_in (table cm) id ∧ cm' = cm).
Proof.
  unfold owned_object. apply silent_gets. unfold handle_in. destruct (table cm !! id) as [meta|]; [|apply silent_err].
  unfold check_owner. case_bool_decide.
  - eapply (silent_bind _ _ (λ _ cm', cm' = cm)); [by apply silent_ret|]. intros _ ? _ ->.
    destruct (deleted meta); [apply silent_err|by apply silent_ret].
  - eapply (silent_bind _ _ (λ _ _, False)); [apply silent_err|done].
Qed.

Lemma silent_named table find o cm :
  (∀ id, silent (find id) cm (λ h cm', h = handle_in (table cm) id ∧ cm' = cm)) →
  silent (named find o) cm (λ h cm', h = o ≫= handle_in (table cm) ∧ cm' = cm).
Proof. intros Hf. destruct o as [id|]; [apply Hf|by apply silent_ret]. Qed.

(** ** Arms *)

Lemma related_after {A B} (m : M A) (f f' : A → M B) P Q cm w :
  good_world cm w → silent m cm P →
  (∀ a cm' w, idle cm cm' → P a cm' → good_world cm' w → related (f a) (f' a) Q cm' w) →
  related (m ≫= f) (m ≫= f') Q cm w.
Proof.
  intros Hg (r & cm' & E & Hi & HP) Hf. eapply (related_bind _ _ _ _ (λ a cm', idle cm cm' ∧ P a cm')).
  - apply related_silent; [done|]. exists r, cm'. split; [done|]. split; [done|]. intros a Ha. split; [done|by apply HP].
  - intros a cm2 w2 Hg2 [Hi2 HP2]. by apply Hf.
Qed.

Local Abbreviation runs m m' cm w := (related m m' (λ _ _, True) cm w).

Lemma runs_then {B} (m m' : M unit) (b : M B) cm w :
  runs m m' cm w → (∀ cm w, good_world cm w → runs b b cm w) → runs (m ;; b) (m' ;; b) cm w.
Proof. intros Hm Hb. eapply related_bind; [exact Hm|]. intros ? cm' w' Hg _. by apply Hb. Qed.

Lemma runs_no_damage cm w : good_world cm w → runs (mret NoDamage) (mret NoDamage) cm w.
Proof. intros. by apply related_ret. Qed.

Lemma runs_budget f cm w : good_world cm w → runs (budget f) (budget f) cm w.
Proof. intros Hg. apply related_silent; [done|]. by eexists _, _. Qed.

Lemma runs_current {B} id (m m' : M B) cm w :
  good_world cm w → (∀ cm' w, idle cm cm' → bound cm' = Canvas id → good_world cm' w → runs m m' cm' w) →
  runs (make_current_needed id ;; m) (make_current_needed id ;; m') cm w.
Proof.
  intros Hg Hm. eapply related_after; [done|apply silent_make_current_needed, (good_shared _ _ Hg)|].
  intros ? cm' w' Hi Hb Hg'. by apply Hm.
Qed.

(** The claims of an update at a manager the context was made current in. *)
Definition tracked_at (id : Z) (f : Tracked → bool * Tracked) (c : GlCall) (cm : CanvasManager) : Prop :=
  ∀ d, shaped (names_of cm id) (shadow cm id) → sound (names_of cm id) (shadow cm id) d →
  names_ok (names_of cm id) → tracks (names_of cm id) f c (shadow cm id) d.

Lemma runs_guarded id f c cm w :
  good_world cm w → bound cm = Canvas id → draws c = false → tracked_at id f c cm →
  runs (guarded (λ b, b) id f c) (guarded (λ _, true) id f c) cm w.
Proof. intros Hg Hb Hd Ht. apply related_guarded; try done. by apply Ht; apply Hg. Qed.

Lemma runs_state_arm id f c cm w :
  good_world cm w → draws c = false → (∀ cm', idle cm cm' → tracked_at id f c cm') →
  runs (state_arm (λ b, b) id f c) (state_arm (λ _, true) id f c) cm w.
Proof.
  intros Hg Hd Ht. apply runs_current; [done|]. intros cm1 w1 Hi Hb Hg1.
  apply runs_then; [apply runs_guarded; auto|apply runs_no_damage].
Qed.

Lemma runs_call_arm id c cm w :
  good_world cm w → (∀ d, call_writes d c = []) → runs (call_arm id c) (call_arm id c) cm w.
Proof.
  intros Hg Hc. apply runs_current; [done|]. intros cm1 w1 _ _ Hg1.
  apply runs_then; [by apply related_call|apply runs_no_damage].
Qed.

Lemma runs_read {A B} (g : CanvasManager → A) (f f' : A → M B) cm w :
  good_world cm w → (∀ w, good_world cm w → runs (f (g cm)) (f' (g cm)) cm w) → runs (gets g ≫= f) (gets g ≫= f') cm w.
Proof.
  intros Hg Hf. eapply (related_after _ _ _ (λ a cm', a = g cm ∧ cm' = cm)); [done| |].
  - exists (Ret (g cm)), cm. split; [done|]. split; [done|]. by intros ? [= <-].
  - intros a cm' w' _ [-> ->]. apply Hf.
Qed.

Lemma runs_damage_for_draw id cm w : good_world cm w → runs (damage_for_draw id) (damage_for_draw id) cm w.
Proof.
  intros Hg. unfold damage_for_draw. destruct (negb _); [by apply runs_no_damage|].
  apply runs_read; [done|]. intros w' Hg'. destruct (get _ _); [|by apply related_ret].
  apply related_silent; [done|]. by eexists _, _.
Qed.

Lemma runs_damage_for_clear id b cm w : good_world cm w → runs (damage_for_clear id b) (damage_for_clear id b) cm w.
Proof. intros Hg. apply runs_read; [done|]. intros. by apply related_ret. Qed.

Lemma runs_draw_arm id c shape cm w :
  good_world cm w → (∀ d, call_writes d c = []) → runs (draw_arm id c shape) (draw_arm id c shape) cm w.
Proof.
  intros Hg Hc. apply runs_current; [done|]. intros cm1 w1 _ _ Hg1.
  apply runs_then; [by apply related_call|]. intros cm2 w2 Hg2.
  apply runs_then; [|apply runs_damage_for_draw]. apply related_silent; [done|]. by eexists _, _.
Qed.

Lemma runs_on_state {B} id f (b : M B) cm w :
  (∀ N s, shaped N s → shaped N (f s) ∧ ∀ k, claim N (f s) k = claim N s k) →
  good_world cm w → (∀ cm w, good_world cm w → runs b b cm w) →
  runs (on_state id (λ s, (tt, f s)) ;; b) (on_state id (λ s, (tt, f s)) ;; b) cm w.
Proof. intros Hf Hg Hb. apply runs_then; [by apply related_on_state|done]. Qed.
End arms.

(** * The handler *)

(** The uses of the commands the tracker answers for: valid texture units, the
    combined framebuffer target, vertex arrays that exist, attributes over a known
    array buffer, uniforms of a known program, and indexed bindings that leave the
    tracker's idea of their target right. *)
Definition clean (cm : CanvasManager) (cmd : GLCmd) : Prop :=
  match cmd with
  | ActiveTexture _ u => is_valid_texture_unit u = true
  | BindFramebuffer _ t _ => t = FRAMEBUFFER
  | BindVertexArray _ v => ∀ id, v = Some id → id ≠ 0 ∧ is_Some (handle_in (vaos cm) id)
  | VertexAttribPointer id _ _ _ _ _ _ => is_Some (bound_array_buffer (shadow cm id))
  | BindBufferBase id t i b => generic_ok (shadow cm id) t i (b, 0, 0)
  | BindBufferRange id t i b o z => generic_ok (shadow cm id) t i (b, o, z)
  | Uniform1i id _ _ | Uniform1f id _ _ | Uniform2f id _ _ _ | Uniform3f id _ _ _ _ | Uniform4f id _ _ _ _ _
  | Uniform1iv id _ _ | Uniform1fv id _ _ | Uniform2iv id _ _ | Uniform2fv id _ _ | Uniform3iv id _ _
  | Uniform3fv id _ _ | Uniform4iv id _ _ | Uniform4fv id _ _ | UniformMatrix2fv id _ _ _
  | UniformMatrix3fv id _ _ _ | UniformMatrix4fv id _ _ _ => is_Some (current_program (shadow cm id))
  | _ => True
  end.

Section handler.
Context `{Drv : !GlDriver} `{Surf : !Egl} `{!HashOrder Z, !HashOrder (Z * Z)}.
Local Abbreviation runs m m' cm w := (related m m' (λ _ _, True) cm w).
Local Abbreviation code := (λ b : bool, b).
Local Abbreviation every := (λ _ : bool, true).

Lemma idle_shadow cm cm' id : idle cm cm' → shadow cm' id = shadow cm id.
Proof. intros [_ Hs]. unfold shadow. by rewrite Hs. Qed.

Lemma idle_vaos cm cm' : idle cm cm' → vaos cm' = vaos cm.
Proof. intros [Hb _]. unfold base in Hb. congruence. Qed.

Lemma runs_use_program id p cm w : good_world cm w → runs (use_program code id p) (use_program every id p) cm w.
Proof.
  intros Hg. apply runs_current; [done|]. intros cm1 w1 Hi Hb Hg1.
  eapply related_after; [done|apply silent_owned_object|]. cbn beta. intros h cm2 w2 _ [Hh ->] Hg2.
  apply runs_then; [|apply runs_no_damage]. destruct h as [ph|]; [|by apply related_ret].
  apply runs_guarded; try done. intros d ? ? _. by apply use_program_tracks.
Qed.

Lemma runs_enable id cap cm w : good_world cm w → runs (enable_cap code id cap) (enable_cap every id cap) cm w.
Proof.
  intros Hg. apply runs_current; [done|]. intros cm1 w1 Hi Hb Hg1. apply runs_then.
  { apply runs_guarded; try done. intros d ? ? _. by apply enable_tracks. }
  intros cm2 w2 Hg2. destruct (cap =? SCISSOR_TEST); [|by apply runs_then; [apply related_ret|apply runs_no_damage]].
  apply runs_on_state; [|done|apply runs_no_damage]. intros N s Hs. split; [by destruct Hs; split|by intros []].
Qed.

Lemma runs_disable id cap cm w : good_world cm w → runs (disable_cap code id cap) (disable_cap every id cap) cm w.
Proof.
  intros Hg. apply runs_current; [done|]. intros cm1 w1 Hi Hb Hg1. apply runs_then.
  { apply runs_guarded; try done. intros d ? ? _. by apply disable_tracks. }
  intros cm2 w2 Hg2. destruct (cap =? SCISSOR_TEST); [|by apply runs_then; [apply related_ret|apply runs_no_damage]].
  apply runs_on_state; [|done|apply runs_no_damage]. intros N s Hs. split; [by destruct Hs; split|by intros []].
Qed.

Lemma runs_bind_framebuffer id f cm w :
  good_world cm w →
  runs (bind_framebuffer code id FRAMEBUFFER f) (bind_framebuffer every id FRAMEBUFFER f) cm w.
Proof.
  intros Hg. apply runs_current; [done|]. intros cm1 w1 Hi Hb Hg1.
  eapply (related_after _ _ _ (λ h cm', h = framebuffer_name (names_of cm1 id) f ∧ cm' = cm1)); [done| |].
  { destruct f as [f|]; [apply silent_live_object|]. eexists _, cm1. split; [reflexivity|]. split; [done|].
    by intros ? [= <-]. }
  intros h cm2 w2 _ [-> ->] Hg2. apply runs_then.
  { apply runs_guarded; try done. intros d ? ? _. by apply bind_framebuffer_tracks. }
  intros cm2 w3 Hg3. rewrite Z.eqb_refl. cbn [orb].
  apply runs_on_state; [|done|apply runs_no_damage]. intros N s Hs. split; [by destruct Hs; split|by intros []].
Qed.

Lemma runs_bind_buffer id t b cm w : good_world cm w → runs (bind_buffer code id t b) (bind_buffer every id t b) cm w.
Proof.
  intros Hg. apply runs_current; [done|]. intros cm1 w1 Hi Hb Hg1.
  eapply related_after; [done|apply silent_named; intros; apply silent_owned_object|]. cbn beta.
  intros h cm2 w2 _ [-> ->] Hg2. apply runs_then; [|apply runs_no_damage].
  apply runs_guarded; try done. intros d ? ? ?. by apply bind_buffer_tracks.
Qed.

Lemma runs_bind_texture id t x cm w : good_world cm w → runs (bind_texture code id t x) (bind_texture every id t x) cm w.
Proof.
  intros Hg. apply runs_current; [done|]. intros cm1 w1 Hi Hb Hg1.
  eapply related_after; [done|apply silent_named; intros; apply silent_live_object|]. cbn beta.
  intros h cm2 w2 _ [-> ->] Hg2. apply runs_then.
  - destruct (Z.eqb_spec t TEXTURE_2D) as [->|Ht].
    + apply runs_guarded; try done. intros d ? ? _. by apply bind_texture_tracks.
    + apply related_call; try done. intros d. cbn [call_writes]. by rewrite (proj2 (Z.eqb_neq _ _) Ht).
  - intros. apply runs_then; [by apply runs_budget|apply runs_no_damage].
Qed.

Lemma runs_active_texture id u cm w :
  is_valid_texture_unit u = true → good_world cm w → runs (active_texture code id u) (active_texture every id u) cm w.
Proof.
  intros Hu Hg. apply runs_current; [done|]. intros cm1 w1 Hi Hb Hg1. rewrite Hu. cbn [negb]. apply runs_then.
  - apply runs_guarded; try done. intros d ? ? _. apply active_texture_tracks; try done.
    apply andb_true_iff in Hu as [?%Z.leb_le ?%Z.ltb_lt]. unfold is_u32, GL_TEXTURE0, WEBGL_TEXTURE_UNIT_COUNT in *. lia.
  - intros. apply runs_then; [by apply runs_budget|apply runs_no_damage].
Qed.

Lemma runs_bind_renderbuffer id t r cm w :
  good_world cm w → runs (bind_renderbuffer code id t r) (bind_renderbuffer every id t r) cm w.
Proof.
  intros Hg. apply runs_current; [done|]. intros cm1 w1 Hi Hb Hg1.
  eapply related_after; [done|apply silent_named; intros; apply silent_live_object|]. cbn beta.
  intros h cm2 w2 _ [-> ->] Hg2. apply runs_then.
  - apply runs_guarded; try done. intros d ? ? _. by apply bind_renderbuffer_tracks.
  - intros. apply runs_then; [by apply runs_budget|apply runs_no_damage].
Qed.

(** The arms that bind an object of a table without a check. *)
Lemma runs_any_object {A} table o (k k' : option Z → M A) cm w :
  good_world cm w → (∀ w, good_world cm w → runs (k (o ≫= handle_in (table cm))) (k' (o ≫= handle_in (table cm))) cm w) →
  runs (any_object table o ≫= k) (any_object table o ≫= k') cm w.
Proof.
  intros Hg Hk. eapply related_after; [done|apply silent_any_object|]. cbn beta.
  intros h cm' w' _ [-> ->]. apply Hk.
Qed.

Lemma vao_bind_name cm id v :
  (∀ x, v = Some x → x ≠ 0 ∧ is_Some (handle_in (vaos cm) x)) →
  v ≫= handle_in (vaos cm) = vao_name (names_of cm id) (default 0 v) ∧
  vao_live (names_of cm id) (default 0 v) = true.
Proof.
  destruct v as [x|]; [|done]. intros H. destruct (H x eq_refl) as [Hx Hs].
  change (default 0 (Some x)) with x. cbn [mbind option_bind].
  unfold vao_name, vao_live. rewrite (proj2 (Z.eqb_neq _ _) Hx). split; [done|]. by apply bool_decide_eq_true_2.
Qed.

Lemma runs_bind_vertex_array id v cm w :
  clean cm (BindVertexArray id v) → good_world cm w →
  runs (bind_vertex_array code id v) (bind_vertex_array every id v) cm w.
Proof.
  intros Hc Hg. apply runs_current; [done|]. intros cm1 w1 Hi Hb Hg1.
  apply runs_any_object; [done|]. intros w2 Hg2. cbn [clean] in Hc. rewrite <- (idle_vaos _ _ Hi) in Hc.
  destruct (vao_bind_name cm1 id v Hc) as [-> Hl]. apply runs_then; [|apply runs_no_damage].
  apply runs_guarded; try done. intros d ? ? ?. by apply bind_vertex_array_tracks.
Qed.

Lemma runs_bind_buffer_base id t i b cm w :
  generic_ok (shadow cm id) t i (b, 0, 0) → good_world cm w →
  runs (bind_buffer_base code id t i b) (bind_buffer_base every id t i b) cm w.
Proof.
  intros Hc Hg. apply runs_current; [done|]. intros cm1 w1 Hi Hb Hg1.
  apply runs_any_object; [done|]. intros w2 Hg2. apply runs_then; [|apply runs_no_damage].
  apply runs_guarded; try done. intros d ? ? _. apply bind_buffer_base_tracks; try done. by rewrite (idle_shadow cm).
Qed.

Lemma runs_bind_buffer_range id t i b o z cm w :
  generic_ok (shadow cm id) t i (b, o, z) → good_world cm w →
  runs (bind_buffer_range code id t i b o z) (bind_buffer_range every id t i b o z) cm w.
Proof.
  intros Hc Hg. apply runs_current; [done|]. intros cm1 w1 Hi Hb Hg1.
  apply runs_any_object; [done|]. intros w2 Hg2. apply runs_then; [|apply runs_no_damage].
  apply runs_guarded; try done. intros d ? ? _. apply bind_buffer_range_tracks; try done. by rewrite (idle_shadow cm).
Qed.

Lemma runs_bind_sampler id u s cm w : good_world cm w → runs (bind_sampler id u s) (bind_sampler id u s) cm w.
Proof.
  intros Hg. apply runs_current; [done|]. intros cm1 w1 Hi Hb Hg1.
  apply runs_any_object; [done|]. intros w2 Hg2. apply runs_then; [by apply related_call|apply runs_no_damage].
Qed.

Lemma runs_sampler_parameter s c cm w :
  (∀ d h, call_writes d (c h) = []) → good_world cm w → runs (sampler_parameter s c) (sampler_parameter s c) cm w.
Proof.
  intros Hc Hg. eapply related_after; [done|apply silent_ensure_any_canvas_current, (good_shared _ _ Hg)|].
  intros ? cm1 w1 _ _ Hg1. apply runs_any_object; [done|]. intros w2 Hg2.
  apply runs_then; [|apply runs_no_damage]. destruct (Some s ≫= _); [by apply related_call|by apply related_ret].
Qed.

Lemma runs_uniform id location bytes c cm w :
  is_Some (current_program (shadow cm id)) →
  (∀ l, draws (c l) = false ∧ ∀ d, call_writes d (c l) = uniform_write d l bytes) → good_world cm w →
  runs (uniform code id location bytes c) (uniform every id location bytes c) cm w.
Proof.
  intros [p Hp] Hc Hg. apply runs_current; [done|]. intros cm1 w1 Hi Hb Hg1.
  apply runs_then; [|apply runs_no_damage]. destruct location as [l|]; [|by apply related_ret].
  destruct (Hc l) as [Hd Hw]. apply runs_guarded; try done. intros d ? ? ?.
  eapply uniform_tracks; try done. by rewrite (idle_shadow cm).
Qed.

Create HintDb invisible.
#[local] Hint Resolve runs_use_program runs_enable runs_disable runs_bind_buffer runs_bind_texture runs_active_texture
  runs_bind_renderbuffer runs_bind_vertex_array runs_bind_buffer_base runs_bind_buffer_range runs_bind_sampler : invisible.
#[local] Hint Resolve viewport_tracks blend_func_tracks blend_func_separate_tracks blend_equation_tracks
  blend_equation_separate_tracks blend_color_tracks depth_func_tracks depth_mask_tracks depth_range_tracks
  stencil_func_tracks stencil_op_tracks stencil_mask_tracks cull_face_tracks front_face_tracks color_mask_tracks
  scissor_tracks line_width_tracks polygon_offset_tracks pixel_store_tracks vertex_attrib_divisor_tracks : invisible.

Lemma handle_related cmd cm w :
  good_world cm w → clean cm cmd → runs (handle_with code cmd) (handle_with every cmd) cm w.
Proof.
  intros Hg Hc. destruct cmd; cbn [handle_with]; cbn [clean] in Hc; subst; auto with invisible;
    try (by apply runs_call_arm); try (by apply runs_draw_arm); try (by apply runs_sampler_parameter);
    try (by apply runs_uniform).
  all: try (apply runs_state_arm; [done|done|]; intros cm' Hi d ? ? ?; by auto with invisible).
  - apply runs_current; [done|]. intros cm1 w1 _ _ Hg1.
    apply runs_then; [by apply related_call|intros; by apply runs_damage_for_clear].
  - by apply runs_bind_framebuffer.
  - apply runs_state_arm; [done|done|]. intros cm' Hi d ? ? ?. by eapply (attrib_enabled_tracks _ index true).
  - apply runs_state_arm; [done|done|]. intros cm' Hi d ? ? ?. by eapply (attrib_enabled_tracks _ index false).
  - apply runs_state_arm; [done|done|]. intros cm' Hi d ? ? ?. destruct Hc as [b Hb].
    apply (vertex_attrib_pointer_tracks _ _ _ _ _ _ _ b); try done. by rewrite (idle_shadow cm).
  - apply runs_state_arm; [done|done|]. intros cm' Hi d ? ? ?. by eapply tracks_call, stencil_func_tracks.
  - apply runs_state_arm; [done|done|]. intros cm' Hi d ? ? ?. by eapply tracks_call, stencil_op_tracks.
  - apply runs_state_arm; [done|done|]. intros cm' Hi d ? ? ?. by eapply tracks_call, stencil_mask_tracks.
Qed.

(** Every command of the batch is clean when its turn comes. *)
Fixpoint clean_run (cmds : list GLCmd) (cm : CanvasManager) : Prop :=
  match cmds with
  | [] => True
  | cmd :: cmds => clean cm cmd ∧ clean_run cmds ((handle_command cmd ≫= add_damage) cm).2
  end.

(** A command and its damage, the body of the loop. *)
Definition step (must : bool → bool) (cmd : GLCmd) : M DamageEffect :=
  effect ← handle_with must cmd; add_damage effect;; mret effect.

Lemma runs_add_damage e cm w : good_world cm w → runs (add_damage e) (add_damage e) cm w.
Proof.
  intros Hg. apply related_silent; [done|]. unfold add_damage.
  destruct (acc_add e (damage cm)) as [acc|[]| |]; by eexists _, _.
Qed.

Lemma step_manager must cmd cm : (step must cmd cm).2 = ((handle_with must cmd ≫= add_damage) cm).2.
Proof.
  unfold step, mbind, M_bind. destruct (handle_with must cmd cm) as [[[e|e| |] l] cm1]; try done.
  by destruct (add_damage e cm1) as [[[[]|[]| |] ?] ?].
Qed.

Lemma step_related cmd cm w : good_world cm w → clean cm cmd → runs (step code cmd) (step every cmd) cm w.
Proof.
  intros Hg Hc. eapply related_bind; [by apply handle_related|]. intros e cm1 w1 Hg1 _.
  apply runs_then; [by apply runs_add_damage|]. intros. by apply related_ret.
Qed.

Lemma batch_related cmds cm w :
  good_world cm w → clean_run cmds cm → runs (run_batch code cmds) (run_batch every cmds) cm w.
Proof.
  revert cm w. induction cmds as [|cmd cmds IH]; intros cm w Hg Hc; [by apply related_silent; [done|]; eexists _, _|].
  destruct Hc as [Hc Hcs]. intros r l' cm'. cbn [run_batch]. fold (step every cmd) (step code cmd).
  destruct (step every cmd cm) as [[r1 l1'] cm1] eqn:E. intros Hr Ha.
  destruct (run_batch every cmds cm1) as [[r2 l2'] cm2] eqn:E2.
  assert (Ha1 : accepted w l1') by (destruct r1; simplify_eq; try done; by apply accepted_app in Ha as [? _]).
  destruct (step_related cmd cm w Hg Hc _ _ _ E Ha1) as (l1 & E1 & Hel & Hg1 & _).
  unfold handle_command in Hcs. rewrite <- (step_manager code cmd cm), E1 in Hcs. rewrite E1. cbn [snd] in Hcs.
  destruct r1 as [eff|e| |]; simplify_eq; try (by exists l1);
    apply accepted_app in Ha as [_ Ha];
    destruct (IH cm1 _ Hg1 Hcs _ _ _ E2 Ha) as (l2 & -> & Hel2 & Hg2 & _);
    exists (l1 ++ l2); unfold play_all in *; rewrite foldl_app; (split; [done|]);
    (split; [by apply elided_app|]); (split; [done|]); done.
Qed.

Lemma good_equiv cm w w' : w ≡ w' → good_world cm w → good_world cm w'.
Proof.
  intros H [Hk Hn Hsh Hso Hu]. split; try done. intros id. eapply sound_equiv; [|apply Hso]. by rewrite (H (Canvas id)).
Qed.

Lemma masked_none {A} (l : list A) i : masked l 0 i = None.
Proof. unfold masked. by rewrite Z.bits_0. Qed.

Lemma fresh_slot (v : Z) i : attr_slot keyed_default v i = slot_default ∧ attr_on keyed_default v i = false.
Proof. split; [done|]. apply Z.bits_0. Qed.

(** What a fresh shadow claims is the initial state. *)
Lemma initial_sound N d : initial d → sound N gl_state_default d.
Proof.
  intros [Hv Hc Ha] k v.
  destruct k; cbn [native]; try discriminate;
    cbn [claim gl_state_default bound_texture_2d bound_uniform_buffer_indexed vertex_attribs capabilities stencil_func
      stencil_op stencil_mask pixel_store_i32 color_mask bound_framebuffer bound_vao uniform_cache
      bound_element_array_buffer].
  - destruct (n_program N program); [|done]. cbn. by rewrite lookup_empty.
  - destruct (_ && _); [|done]. cbn [claims tex_dedup tex_default bindings tex_observed]. by rewrite masked_none.
  - unfold buffer_shadow. by repeat case_match.
  - by destruct (vao =? _).
  - cbn [claims ubo_dedup ubo_default ubo_slots]. destruct (replicate _ _ !! index) eqn:E; [|done].
    by apply lookup_replicate in E as [-> _].
  - intros [= <-]. by rewrite Hv.
  - destruct (tracked_attrib _ _ _) eqn:Et; [|done]. apply andb_true_iff in Et as [_ Et].
    cbn [claims enabled_dedup fst snd]. rewrite Et. destruct (fresh_slot vao index) as [_ ->]. intros [= <-]. by rewrite Ha.
  - destruct (tracked_attrib _ _ _); [|done]. cbn [claims pointer_dedup fst snd]. by destruct (fresh_slot vao index) as [-> _].
  - destruct (tracked_attrib _ _ _); [|done]. cbn [claims divisor_dedup fst snd]. by destruct (fresh_slot vao index) as [-> _].
  - cbn [claims cap_dedup cap_default known enabled]. destruct (index_of _ _); [|done]. cbn [mbind option_bind].
    by rewrite Z.bits_0.
  - by destruct front.
  - by destruct front.
  - by destruct front.
  - destruct (px_slot pname); [|done]. cbn [mbind option_bind claims px_dedup px_default params px_observed].
    by rewrite masked_none.
  - intros [= <-]. by rewrite Hc.
Qed.

(** A fresh tracker agrees with fresh contexts. *)
Lemma initial_good cm w :
  gl_state cm = keyed_default → (∀ id, names_ok (names_of cm id)) → (∀ id, canvas_uses_shared_2d cm id = false) →
  (∀ id, initial (state (w (Canvas id)))) → good_world cm w.
Proof.
  intros E Hn Hu Hi. assert (Hs : ∀ id, shadow cm id = gl_state_default) by (intros id; unfold shadow; by rewrite E).
  split; [rewrite E; apply NoDup_nil_2|done| | |done]; intros id; rewrite Hs.
  - split; try done; [intros _ i; apply masked_none|apply NoDup_nil_2].
  - by apply initial_sound.
Qed.

(** ** The theorem *)

End handler.

(** ** A frame *)

(** A hash map that is walked in the order of its list. *)
#[refine] Definition list_order (K : Type) `{Countable K} : HashOrder K := {| first_key V m := fst <$> head (map_to_list m) |}.
Proof.
  - intros V m k. destruct (map_to_list m) as [|[k' v] l] eqn:E; [done|]. intros [= ->]. exists v.
    apply elem_of_map_to_list. rewrite E. left.
  - intros V m. destruct (map_to_list m) as [|[k v] l] eqn:E; [|done]. intros _. by apply map_to_list_empty_iff.
Defined.

Definition sample_object (h : Z) : ObjectMeta := {| gl_handle := Some h; owner_canvas := Some 1; deleted := false |}.

Definition sample_manager : CanvasManager := {|
  bound := Resource; canvases := {[1 := {| physical_width := 1080; physical_height := 1920; is_pbuffer := false;
    drawing_buffer := Some {| fbo := 3; db_width := 1080; db_height := 1920 |}; bypass_drawing_buffer := false |}]};
  shared_2d := None; contexts_2d := keyed_default; programs := {[5 := sample_object 50]};
  buffers := {[7 := sample_object 70]}; textures := {[9 := sample_object 90]}; framebuffers := ∅; renderbuffers := ∅;
  vaos := {[4 := sample_object 40]}; samplers := ∅; gl_state := keyed_default;
  webgl_gpu_budget := with_parts PRODUCTION; hot := hot_new; damage := acc_new; egl_calls := 0 |}.

Definition sample_state : GlState := λ k,
  match k with
  | SVao => VName None
  | SColorMask => VBools [true; true; true; true]
  | SAttribEnabled _ _ => VBools [false]
  | SDrawFramebuffer => VName (Some 3)
  | _ => VInts []
  end.

(** Everything is said twice. *)
Definition sample_frame : list GLCmd :=
  concat ((λ cmd, [cmd; cmd]) <$> [
    UseProgram 1 5; Viewport 1 0 0 100 100; BindVertexArray 1 (Some 4); BindBuffer 1 GL_ARRAY_BUFFER (Some 7);
    VertexAttribPointer 1 0 2 5126 false 0 0; EnableVertexAttribArray 1 0; ActiveTexture 1 TEXTURE0;
    BindTexture 1 TEXTURE_2D (Some 9); Uniform1i 1 (Some 2) 42; BindFramebuffer 1 FRAMEBUFFER None;
    DrawArrays 1 4 0 3]).

Lemma singleton_names (x h : Z) id i : handle_in {[x := sample_object h]} id = Some i → id = x ∧ i = h.
Proof.
  unfold handle_in. intros E. apply bind_Some in E as (m & Hm & E). apply lookup_singleton_Some in Hm as [<- <-].
  by injection E as <-.
Qed.

Definition sample_world : World (Drv:=reference_driver) := λ _, sample_state.

Lemma sample_good : good_world sample_manager sample_world.
Proof.
  apply initial_good; try done.
  - intros id. split; cbn [names_of n_program n_vao sample_manager programs vaos].
    + intros p q h [-> _]%singleton_names [-> _]%singleton_names. done.
    + intros p q h [-> _]%singleton_names [-> _]%singleton_names. done.
    + intros v h [-> ->]%singleton_names. done.
Qed.

Lemma run_split {A B C} (x : A * B * C) : x = (x.1.1, x.1.2, x.2).
Proof. by destruct x as [[]]. Qed.

Lemma all_accepted w l : accepted (Drv:=reference_driver) w l.
Proof. revert w. induction l as [|e l IH]; intros w; [done|]. by split. Qed.

Definition sample_egl : Egl := {| egl_make_current _ := true |}.
#[local] Existing Instance sample_egl.


(** ** What the tracker does not follow *)

(** The state of canvas 1 after the batch, as the handler leaves it and as it is
    when every call is issued. *)
Definition both_ends (cmds : list GLCmd) (k : Slot) : Val * Val :=
  let cm := sample_manager <| framebuffers := {[11 := sample_object 110; 12 := sample_object 120]} |>
                           <| buffers := {[7 := sample_object 70; 8 := sample_object 80]} |>
                           <| vaos := {[4 := sample_object 40; 5 := sample_object 50]} |> in
  let run (must : bool → bool) := (run_batch (HashOrder0:=list_order Z) (HashOrder1:=list_order (Z * Z)) must cmds cm).1.2 in
  let end_of l : GlState := play_all sample_world l (Canvas 1) in
  (end_of (run (λ b, b)) k, end_of (run (λ _, true)) k).

(** A draw framebuffer bound on its own is not seen by the combined target's slot:
    binding the first framebuffer again is skipped, and drawing stays on the second. *)
Lemma split_target_is_lost :
  both_ends [BindFramebuffer 1 FRAMEBUFFER (Some 11); BindFramebuffer 1 DRAW_FRAMEBUFFER (Some 12);
             BindFramebuffer 1 FRAMEBUFFER (Some 11)] SDrawFramebuffer = (VName (Some 120), VName (Some 110)).
Proof. by vm_compute. Qed.

(** An indexed binding also binds the target, which the tracker forgets. *)
Lemma indexed_binding_is_lost :
  both_ends [BindBuffer 1 GL_UNIFORM_BUFFER (Some 7); BindBufferBase 1 GL_UNIFORM_BUFFER 0 (Some 8);
             BindBuffer 1 GL_UNIFORM_BUFFER (Some 7)] (SBuffer GL_UNIFORM_BUFFER) = (VName (Some 80), VName (Some 70)).
Proof. by vm_compute. Qed.

(** Binding a vertex array makes the array buffer unknown, which an attribute
    records as no buffer: the same attribute over another unknown buffer is skipped. *)
Lemma unknown_buffer_is_lost :
  let pointer := VertexAttribPointer 1 0 2 5126 false 0 0 in
  both_ends [BindBuffer 1 GL_ARRAY_BUFFER (Some 7); BindVertexArray 1 (Some 4); pointer;
             BindBuffer 1 GL_ARRAY_BUFFER (Some 8); BindVertexArray 1 (Some 5); BindVertexArray 1 (Some 4); pointer]
    (SAttribPointer 40 0) = (VPointer 2 5126 false 0 0 (Some 70), VPointer 2 5126 false 0 0 (Some 80)).
Proof. by vm_compute. Qed.
