(* ===== verification/Reach.v ===== *)
(** Where a command's calls go and what they change ([engine/crates/graphics],
    [renderergl/handler.rs], [canvas/manager/mod.rs]).

    The calls of a command that names a canvas are made in that canvas's context
    ([handle_issues_home]); and the damage a drawing command reports covers every
    pixel of the screen that the driver state lets it change
    ([damage_covers]). *)
From S2P Require Import Prelude FrameDamage Keyed Budget Commands Shadow FrameStats StateTracker Driver Errors Handler Dedup Invisible.

Set Default Proof Using "Type".

(** * The context of a command *)

Definition cmd_canvas (cmd : GLCmd) : option Z :=
  match cmd with
  | SamplerParameteri _ _ _ | SamplerParameterf _ _ _ => None
  | Viewport id _ _ _ _ | Clear id _ | ClearColor id _ _ _ _ | ClearDepth id _ | ClearStencil id _ | Enable id _
  | Disable id _ | UseProgram id _ | BindBuffer id _ _ | BindTexture id _ _ | ActiveTexture id _
  | BindFramebuffer id _ _ | BindRenderbuffer id _ _ | BindVertexArray id _ | BindSampler id _ _
  | EnableVertexAttribArray id _ | DisableVertexAttribArray id _ | VertexAttribPointer id _ _ _ _ _ _
  | VertexAttribDivisor id _ _ | BlendFunc id _ _ | BlendFuncSeparate id _ _ _ _ | BlendEquation id _
  | BlendEquationSeparate id _ _ | BlendColor id _ _ _ _ | DepthFunc id _ | DepthMask id _ | DepthRange id _ _
  | StencilFunc id _ _ _ | StencilFuncSeparate id _ _ _ _ | StencilOp id _ _ _ | StencilOpSeparate id _ _ _ _
  | StencilMask id _ | StencilMaskSeparate id _ _ | CullFace id _ | FrontFace id _ | ColorMask id _ _ _ _
  | Scissor id _ _ _ _ | LineWidth id _ | PolygonOffset id _ _ | TexParameteri id _ _ _ | TexParameterf id _ _ _
  | GenerateMipmap id _ | PixelStorei id _ _ | Hint id _ _ | DrawArrays id _ _ _ | DrawElements id _ _ _ _
  | DrawArraysInstanced id _ _ _ _ | DrawElementsInstanced id _ _ _ _ _ | BindBufferBase id _ _ _
  | BindBufferRange id _ _ _ _ _ | ReadBuffer id _ | Uniform1i id _ _ | Uniform1f id _ _ | Uniform2f id _ _ _
  | Uniform3f id _ _ _ _ | Uniform4f id _ _ _ _ _ | Uniform1iv id _ _ | Uniform1fv id _ _ | Uniform2iv id _ _
  | Uniform2fv id _ _ | Uniform3iv id _ _ | Uniform3fv id _ _ | Uniform4iv id _ _ | Uniform4fv id _ _
  | UniformMatrix2fv id _ _ _ | UniformMatrix3fv id _ _ _ | UniformMatrix4fv id _ _ _ => Some id
  end.

(** A canvas is drawn in its own context, or in the shared one under its tag. *)
Definition home (cm : CanvasManager) (id : Z) : BoundContext :=
  if canvas_uses_shared_2d cm id then Shared2D id else Canvas id.

(** The calls that change pixels of the framebuffer, and the commands that make them. *)
Definition visible (c : GlCall) : bool :=
  match c with
  | gl_clear _ | gl_draw_arrays _ _ _ | gl_draw_elements _ _ _ _ | gl_draw_arrays_instanced _ _ _ _
  | gl_draw_elements_instanced _ _ _ _ _ => true
  | _ => false
  end.

Definition visible_call (cmd : GLCmd) : option GlCall :=
  match cmd with
  | Clear _ bits => Some (gl_clear bits)
  | DrawArrays _ mode first count => Some (gl_draw_arrays mode first count)
  | DrawElements _ mode count ty offset => Some (gl_draw_elements mode count ty offset)
  | DrawArraysInstanced _ mode first count n => Some (gl_draw_arrays_instanced mode first count n)
  | DrawElementsInstanced _ mode count ty offset n => Some (gl_draw_elements_instanced mode count ty offset n)
  | _ => None
  end.

(** ** Computations that stay in a context *)

(** Started in context [b], the calls are made there, of the kind [P], and it is
    still current at the end. *)
Definition stays (b : BoundContext) (P : GlCall → Prop) {A} (m : M A) : Prop := ∀ cm,
  bound cm = b → Forall (λ e : Event, e.1 = b ∧ P e.2) (m cm).1.2 ∧ bound (m cm).2 = b.

Section stays.
Context (b : BoundContext) (P : GlCall → Prop).

Lemma stays_bind {A B} (m : M A) (f : A → M B) :
  stays b P m → (∀ a, stays b P (f a)) → stays b P (m ≫= f).
Proof.
  intros Hm Hf cm Hb. destruct (Hm cm Hb) as [Hl Hb']. unfold mbind, M_bind.
  destruct (m cm) as [[[a|e| |] l] cm1]; cbn [fst snd] in *; try done.
  destruct (Hf a cm1 Hb') as [Hl2 Hb2]. destruct (f a cm1) as [[r l2] cm2]. cbn [fst snd] in *.
  split; [by apply Forall_app|done].
Qed.

Lemma stays_quiet {A} (m : M A) : (∀ cm, (m cm).1.2 = [] ∧ bound (m cm).2 = bound cm) → stays b P m.
Proof. intros Hm cm Hb. destruct (Hm cm) as [-> ->]. by split; [constructor|]. Qed.

Lemma stays_call c : P c → stays b P (gl_call c).
Proof. intros Hc cm Hb. split; [by apply Forall_singleton|done]. Qed.

Lemma stays_ret {A} (a : A) : stays b P (mret a).
Proof. by apply stays_quiet. Qed.
Lemma stays_lift {A} (o : outcome ErrorCode A) : stays b P (lift o).
Proof. by apply stays_quiet. Qed.
Lemma stays_err {A} e : stays b P (@err A e).
Proof. by apply stays_quiet. Qed.
Lemma stays_gets {A} (f : CanvasManager → A) : stays b P (gets f).
Proof. by apply stays_quiet. Qed.
Lemma stays_budget f : stays b P (budget f).
Proof. by apply stays_quiet. Qed.
Lemma stays_count_draw s : stays b P (count_draw s).
Proof. by apply stays_quiet. Qed.
Lemma stays_on_state {A} id (f : CanvasGLState → A * CanvasGLState) : stays b P (on_state id f).
Proof. apply stays_quiet. intros cm. unfold on_state. by destruct (entry_modify _ _ _ _). Qed.
End stays.

Create HintDb stays.
#[export] Hint Resolve stays_bind stays_call stays_ret stays_lift stays_err stays_gets stays_budget stays_count_draw
  stays_on_state : stays.

Section objects.
Context (b : BoundContext) (P : GlCall → Prop).

Lemma stays_update id f : stays b P (update id f).
Proof.
  unfold update. apply stays_bind; [apply stays_gets|]. intros d. apply stays_bind; [apply stays_on_state|].
  intros [x d']. apply stays_bind; [by apply stays_quiet|]. intros. apply stays_ret.
Qed.

Lemma stays_guarded must id f c : P c → stays b P (guarded must id f c).
Proof.
  intros Hc. apply stays_bind; [apply stays_update|]. intros x. destruct (must x); auto with stays.
Qed.

Lemma stays_live_object table id : stays b P (live_object table id).
Proof.
  apply stays_bind; [apply stays_gets|]. intros [meta|]; [|apply stays_err]. destruct (deleted meta); auto with stays.
Qed.

Lemma stays_owned_object table canvas id : stays b P (owned_object table canvas id).
Proof.
  apply stays_bind; [apply stays_gets|]. intros [meta|]; [|apply stays_err]. unfold check_owner.
  apply stays_bind; [case_bool_decide; auto with stays|]. intros. destruct (deleted meta); auto with stays.
Qed.

Lemma stays_any_object table id : stays b P (any_object table id).
Proof. apply stays_gets. Qed.

Lemma stays_named find o : (∀ id, stays b P (find id)) → stays b P (named find o).
Proof. intros Hf. destruct o; [apply Hf|apply stays_ret]. Qed.

Lemma stays_damage_for_draw id : stays b P (damage_for_draw id).
Proof.
  unfold damage_for_draw. destruct (negb _); [apply stays_ret|]. apply stays_bind; [apply stays_gets|].
  intros [s|]; auto with stays.
Qed.

Lemma stays_damage_for_clear id bits : stays b P (damage_for_clear id bits).
Proof. apply stays_bind; [apply stays_gets|]. intros. apply stays_ret. Qed.
End objects.
#[export] Hint Resolve stays_update stays_guarded stays_live_object stays_owned_object stays_any_object stays_named
  stays_damage_for_draw stays_damage_for_clear : stays.

Section home.
Context `{Surf : !Egl} `{!HashOrder Z, !HashOrder (Z * Z)}.

(** After [make_current_needed], which makes no call, the rest runs at home. *)
Lemma make_current_needed_home id cm :
  let '(r, l, cm') := make_current_needed id cm in
  l = [] ∧ (∀ a, r = Ret a → bound cm' = home cm id) ∧ idle cm cm'.
Proof.
  unfold make_current_needed, home, mbind, M_bind, gets. destruct (canvas_uses_shared_2d cm id).
  - unfold bind_shared_2d_context, mbind, M_bind, gets. destruct (bound cm) eqn:Eb; cbn [app].
    1,2: unfold make_current, mbind, M_bind, gets, modify; destruct (egl_make_current _); cbn;
      (split; [done|]; split; [|done]; by intros).
    cbn. done.
  - cbn [app]. case_bool_decide as Eb; [done|]. destruct (canvases cm !! id); [|done].
    unfold make_current, mbind, M_bind, gets, modify. destruct (egl_make_current _); cbn;
      (split; [done|]; split; [|done]; by intros).
Qed.

Definition issues_home (P : GlCall → Prop) {A} (id : Z) (m : M A) (cm : CanvasManager) : Prop :=
  Forall (λ e : Event, e.1 = home cm id ∧ P e.2) (m cm).1.2.

Lemma issues_current P {A} id (m : M A) cm :
  stays (home cm id) P m → issues_home P id (make_current_needed id ;; m) cm.
Proof.
  intros Hm. unfold issues_home, mbind, M_bind. pose proof (make_current_needed_home id cm) as H.
  destruct (make_current_needed id cm) as [[[a|e| |] l] cm1]; destruct H as (-> & Hb & _); cbn [fst snd]; try constructor.
  specialize (Hm cm1 (Hb a eq_refl)). destruct (m cm1) as [[r l'] cm2]. apply Hm.
Qed.

Definition only (o : option GlCall) (c : GlCall) : Prop := visible c = true → o = Some c.

(** Steps through an arm after its context is current. *)
Ltac stay :=
  match goal with
  | |- stays _ _ (mbind _ _) => apply stays_bind; [stay|intros ?; stay]
  | |- stays _ _ (gl_call _) => apply stays_call; by first [intros ?|done]
  | |- stays _ _ (guarded _ _ _ _) => apply stays_guarded; by intros ?
  | |- stays _ _ (named _ _) => apply stays_named; intros ?; stay
  | |- stays _ _ (match ?x with _ => _ end) => destruct x; stay
  | _ => auto with stays
  end.

Lemma handle_home must id cmd cm :
  cmd_canvas cmd = Some id → issues_home (only (visible_call cmd)) id (handle_with must cmd) cm.
Proof.
  destruct cmd; intros [= <-]; apply issues_current; stay.
Qed.

(** Whatever context is current when a command that names a canvas is handled,
    and whatever fails on the way, each driver call it makes is made in the context
    of that canvas, its own or the shared one under its tag. *)
Theorem handle_issues_home cmd id cm r l cm' :
  cmd_canvas cmd = Some id → handle_command cmd cm = (r, l, cm') → Forall (λ e : Event, e.1 = home cm id) l.
Proof.
  intros Hc E. pose proof (handle_home (λ b, b) id cmd cm Hc) as H. unfold issues_home in H.
  unfold handle_command in E. rewrite E in H. eapply Forall_impl; [exact H|]. by intros e [? _].
Qed.
End home.

(** * What a shadow says of the pixels in reach *)

(** The scissor state is that of the capability, and a canvas that draws elsewhere
    than to its default framebuffer has another one bound. *)
Record reach_ok (s : CanvasGLState) : Prop := {
  reach_test : scissor s ≠ ScissorDisabled → claims (capabilities s) SCISSOR_TEST = Some true;
  reach_rect x y w h : scissor s = ScissorEnabled x y w h → last_scissor_rect s = Some (x, y, w, h);
  reach_fb : length (fb_slots (bound_framebuffer s)) = 3%nat;
  reach_target : draws_to_default_fbo s = false → ∃ f, mjoin (fb_slots (bound_framebuffer s) !! 0%nat) = Some (Some f);
}.

(** Of canvas [id] that [P], of the others that they are in order. *)
Definition mostly (id : Z) (P : CanvasGLState → Prop) (cm : CanvasManager) : Prop :=
  keyed_wf (gl_state cm) ∧ ∀ j, if j =? id then P (shadow cm j) else reach_ok (shadow cm j).
Definition all_reach_ok (cm : CanvasManager) : Prop := keyed_wf (gl_state cm) ∧ ∀ id, reach_ok (shadow cm id).

Lemma mostly_all id cm : mostly id reach_ok cm ↔ all_reach_ok cm.
Proof.
  split; intros [Hk Hr]; (split; [done|]); intros j; specialize (Hr j); by destruct (j =? id).
Qed.

(** An update that leaves the four fields alone. *)
Definition apart (f : Tracked → bool * Tracked) : Prop := ∀ s d, let s' := gl (f {| gl := s; diag := d |}).2 in
  scissor s' = scissor s ∧ last_scissor_rect s' = last_scissor_rect s ∧ capabilities s' = capabilities s ∧
  bound_framebuffer s' = bound_framebuffer s ∧ draws_to_default_fbo s' = draws_to_default_fbo s.

Lemma apart_reach f s d : apart f → reach_ok s → reach_ok (gl (f {| gl := s; diag := d |}).2).
Proof.
  intros Hf [H1 H2 H3 H4]. destruct (Hf s d) as (E1 & E2 & E3 & E4 & E5). split; rewrite ?E1, ?E2, ?E3, ?E4, ?E5; done.
Qed.

Lemma scissor_reach x y w h s d : reach_ok s → reach_ok (gl (update_scissor x y w h {| gl := s; diag := d |}).2).
Proof.
  intros [H1 H2 H3 H4]. unfold update_scissor. cbn [gl]. case_bool_decide as E; [by split|]. cbn [snd issue_if gl put].
  case_bool_decide as E'; split; cbn in *; try done; [|naive_solver|naive_solver].
  intros x' y' w' h' E2. congruence.
Qed.

(** From [P], ends in [Q], or fails with every canvas in order. *)
Definition leads {A} (P : CanvasManager → Prop) (m : M A) (Q : CanvasManager → Prop) : Prop := ∀ cm,
  P cm → match (m cm).1.1 with Ret _ => Q (m cm).2 | _ => all_reach_ok (m cm).2 end.
Local Abbreviation keeps_reach m := (leads all_reach_ok m all_reach_ok).

Lemma leads_bind {A B} P Q R (m : M A) (f : A → M B) : leads P m Q → (∀ a, leads Q (f a) R) → leads P (m ≫= f) R.
Proof.
  intros Hm Hf cm Hc. specialize (Hm cm Hc). unfold mbind, M_bind.
  destruct (m cm) as [[[a|e| |] l] cm1]; cbn [fst snd] in *; try done.
  specialize (Hf a cm1 Hm). by destruct (f a cm1) as [[[] l2] cm2].
Qed.

Lemma leads_state {A} (m : M A) : (∀ cm, gl_state (m cm).2 = gl_state cm) → keeps_reach m.
Proof.
  intros Hm cm [Hk Hr]. assert (Hc : all_reach_ok (m cm).2).
  { split; [by rewrite Hm|]. intros id. unfold shadow. rewrite Hm. apply Hr. }
  by destruct (m cm).1.1.
Qed.

Lemma leads_mostly {A} id P (m : M A) :
  (∀ cm, gl_state (m cm).2 = gl_state cm ∧ ∃ a, (m cm).1.1 = Ret a) → leads (mostly id P) m (mostly id P).
Proof.
  intros Hm cm [Hk Hr]. destruct (Hm cm) as [E [a ->]]. split; [by rewrite E|]. unfold shadow. by rewrite E.
Qed.

Lemma leads_on_state {A} id P Q (f : CanvasGLState → A * CanvasGLState) :
  (∀ s, P s → Q (f s).2) → leads (mostly id P) (on_state id f) (mostly id Q).
Proof.
  intros Hf cm [Hk Hr]. unfold on_state.
  destruct (entry_modify_fst_snd gl_state_default (gl_state cm) id f Hk) as (t & -> & Hk' & Hv). split; [done|].
  intros j. unfold shadow in *. cbn [snd gl_state set_field]. rewrite Hv. specialize (Hr j).
  destruct (Z.eqb_spec j id) as [E|]; [|done]. apply Hf. by rewrite <- E.
Qed.

Lemma leads_guarded must id P Q f c :
  (∀ s d, P s → Q (gl (f {| gl := s; diag := d |}).2)) → leads (mostly id P) (guarded must id f c) (mostly id Q).
Proof.
  intros Hf. apply (leads_bind _ (mostly id Q)).
  - intros cm [Hk Hr]. destruct (update_spec id f cm Hk) as (t & -> & Hk' & Hv).
    cbn [fst snd]. split; [done|].
    intros j. unfold shadow in *. cbn [snd gl_state set_field]. rewrite Hv. specialize (Hr j).
    destruct (Z.eqb_spec j id) as [E|]; [|done]. apply Hf. by rewrite <- E.
  - intros b. apply leads_mostly. intros cm. by destruct (must b); (split; [done|]); eexists.
Qed.

Lemma leads_all {A} id (m : M A) : leads (mostly id reach_ok) m (mostly id reach_ok) ↔ keeps_reach m.
Proof.
  split; intros Hm cm Hc; apply (mostly_all id) in Hc; specialize (Hm cm Hc); destruct (m cm).1.1; try done;
    by apply (mostly_all id) in Hm.
Qed.

Lemma keeps_guarded must id f c : apart f → keeps_reach (guarded must id f c).
Proof. intros Hf. apply (leads_all id), leads_guarded. intros s d. by apply apart_reach. Qed.

Section keeps.
Context `{Surf : !Egl} `{!HashOrder Z, !HashOrder (Z * Z)}.

Lemma keeps_current {A} id (m : M A) : keeps_reach m → keeps_reach (make_current_needed id ;; m).
Proof.
  intros Hm. eapply leads_bind; [|intros; exact Hm]. apply leads_state. intros cm.
  pose proof (make_current_needed_home id cm) as H. destruct (make_current_needed id cm) as [[r l] cm'].
  apply H.
Qed.

Create HintDb updates.
#[local] Hint Unfold update_viewport update_blend_func_separate update_blend_func update_blend_equation_separate
  update_blend_equation update_depth_func update_depth_mask update_cull_face update_front_face update_color_mask
  update_bind_renderbuffer dedup_slot update_active_texture update_line_width update_depth_range update_polygon_offset
  update_blend_color update_use_program update_bind_buffer update_stencil_func update_stencil_op update_stencil_mask
  update_pixel_store_i32 update_bind_texture_2d update_bind_vertex_array update_bind_buffer_base update_bind_buffer_range
  update_enable_vertex_attrib update_disable_vertex_attrib update_vertex_attrib_pointer update_vertex_attrib_divisor
  should_issue_uniform update_uniform : updates.

Lemma gl_issue_if b t : gl (issue_if b t).2 = gl t.
Proof. apply issue_if_spec. Qed.

Ltac apart_update :=
  intros ? ?; autounfold with updates; cbn [gl put];
  repeat match goal with
  | |- context [gl (snd (issue_if ?b ?t))] => rewrite (gl_issue_if b t); cbn [gl]
  | |- context [gl (snd (let '(_, _) := ?x in _))] => destruct x
  | |- context [gl (snd (if ?x then _ else _))] => destruct x
  | |- context [gl (snd (match ?x with Some _ => _ | None => _ end))] => destruct x
  end; done.

Lemma leads_silent {A} (m : M A) P : (∀ cm, silent m cm (P cm)) → keeps_reach m.
Proof. intros Hm. apply leads_state. intros cm. by destruct (Hm cm) as (r & cm' & -> & [_ Hs] & _). Qed.

Lemma keeps_live_object table id : keeps_reach (live_object table id).
Proof. eapply leads_silent, silent_live_object. Qed.
Lemma keeps_owned_object table canvas id : keeps_reach (owned_object table canvas id).
Proof. eapply leads_silent, silent_owned_object. Qed.
Lemma keeps_ret {A} (a : A) : keeps_reach (mret a).
Proof. by apply leads_state. Qed.
Lemma keeps_gets {A} (f : CanvasManager → A) : keeps_reach (gets f).
Proof. by apply leads_state. Qed.

Lemma keeps_named find o : (∀ id, keeps_reach (find id)) → keeps_reach (named find o).
Proof. intros Hf. destruct o; [apply Hf|apply keeps_ret]. Qed.

(** Steps through an arm none of whose updates is of the four fields. *)
Ltac keep :=
  match goal with
  | |- leads _ (make_current_needed _ ;; _) _ => apply keeps_current; keep
  | |- leads _ (owned_object _ _ _) _ => apply keeps_owned_object
  | |- leads _ (live_object _ _) _ => apply keeps_live_object
  | |- leads _ (named _ _) _ => apply keeps_named; intros ?; keep
  | |- leads _ (mbind _ _) _ => eapply leads_bind; [keep|intros ?; keep]
  | |- leads _ (guarded _ _ _ _) _ => apply keeps_guarded; apart_update
  | |- leads _ (match ?x with _ => _ end) _ => destruct x; keep
  | |- leads _ (state_arm _ _ _ _) _ => unfold state_arm; keep
  | |- leads _ (call_arm _ _) _ => unfold call_arm; keep
  | |- leads _ (draw_arm _ _ _) _ => unfold draw_arm; keep
  | |- leads _ (damage_for_draw _) _ => unfold damage_for_draw; keep
  | |- leads _ (any_object _ _) _ => apply keeps_gets
  | |- leads _ _ _ => by apply leads_state
  end.

Lemma keeps_damage_for_draw id : keeps_reach (damage_for_draw id).
Proof. unfold damage_for_draw. keep. Qed.

Lemma keeps_make_current b : keeps_reach (make_current b).
Proof. eapply leads_silent, silent_make_current. Qed.

Lemma keeps_make_current_needed id : keeps_reach (make_current_needed id).
Proof.
  apply leads_state. intros cm. pose proof (make_current_needed_home id cm) as H.
  destruct (make_current_needed id cm) as [[r l] cm']. apply H.
Qed.

Lemma keeps_any_canvas : keeps_reach ensure_any_canvas_current.
Proof.
  eapply leads_bind; [apply keeps_gets|]. intros [|id|id]; [|apply keeps_ret..].
  eapply leads_bind; [apply keeps_gets|]. intros cs. case_bool_decide; [apply keeps_current, keeps_ret|].
  destruct (first_key cs); [apply keeps_current, keeps_ret|]. eapply leads_bind; [|intros; apply keeps_ret].
  apply keeps_make_current.
Qed.

(** The scissor test is switched in two steps, the capability and what is derived
    from it; the framebuffer likewise. *)
Lemma cap_kept cap b (c : CapabilityShadow) j : j ≠ cap → claims (record cap b c).2 j = claims c j.
Proof.
  intros Hj. destruct (index_of cap TOGGLEABLE_CAPS) as [i|] eqn:Ei; [|by rewrite cap_record_untracked].
  pose proof (cap_record cap b c i Ei) as HR. destruct (record cap b c) as [issue c']. destruct HR as [_ HR].
  cbn [snd claims cap_dedup]. destruct (index_of j TOGGLEABLE_CAPS) as [k|] eqn:Ek; [|done]. cbn [mbind option_bind].
  destruct (HR k) as [-> ->]; [pose proof (cap_index _ _ Ek); lia|]. destruct (Nat.eqb_spec k i) as [->|_]; [|by rewrite orb_false_r].
  by destruct Hj, (index_of_inj _ _ _ _ Ek Ei).
Qed.

Lemma cap_set cap b (c : CapabilityShadow) : is_Some (index_of cap TOGGLEABLE_CAPS) → claims (record cap b c).2 cap = Some b.
Proof.
  intros [i Ei]. assert (Hw : cap ∈ writes cap) by (cbn [writes cap_dedup]; rewrite Ei; by apply list_elem_of_singleton).
  eapply record_skipped; [done| |exact Hw]. apply record_repeats; [done|]. intros E. rewrite E in Hw. by apply not_elem_of_nil in Hw.
Qed.

Definition toggle (b : bool) : Z → Tracked → bool * Tracked := if b then update_enable else update_disable.

Lemma toggle_gl b cap s d :
  gl (toggle b cap {| gl := s; diag := d |}).2 = s <| capabilities := (record cap b (capabilities s)).2 |>.
Proof.
  destruct b; cbn [toggle]; unfold update_enable, update_disable; cbn [gl record cap_dedup].
  - by destruct (cap_enable cap (capabilities s)); rewrite gl_issue_if.
  - by destruct (cap_disable cap (capabilities s)); rewrite gl_issue_if.
Qed.

Lemma keeps_toggle must id b cap c (f : CanvasGLState → CanvasGLState) :
  (∀ s, ∃ sc, f s = s <| scissor := sc |> ∧ match sc with
    | ScissorDisabled => b = false
    | ScissorEnabled x y w h => b = true ∧ last_scissor_rect s = Some (x, y, w, h)
    | ScissorEnabledUnknownRect => b = true
    end) →
  keeps_reach (guarded must id (toggle b cap) c ;;
    (if cap =? SCISSOR_TEST then on_state id (λ s, (tt, f s)) else mret tt) ;; mret NoDamage).
Proof.
  intros Hf. apply (leads_all id). destruct (Z.eqb_spec cap SCISSOR_TEST) as [->|Hn].
  - apply (leads_bind _ (mostly id (λ s, reach_ok (s <| scissor := ScissorDisabled |>) ∧
      claims (capabilities s) SCISSOR_TEST = Some b))).
    + apply leads_guarded. intros s d [H1 H2 H3 H4]. rewrite toggle_gl. split; [by split|]. by apply cap_set.
    + intros _. apply (leads_bind _ (mostly id reach_ok)).
      * apply leads_on_state. intros s [[H1 H2 H3 H4] Hc]. destruct (Hf s) as (sc & E & Hsc). cbn [snd]. rewrite E.
        split; cbn; try done; [|by intros x y w h ->; destruct Hsc]. destruct sc; naive_solver.
      * intros _. apply leads_all, keeps_ret.
  - apply (leads_bind _ (mostly id reach_ok)).
    + apply leads_guarded. intros s d [H1 H2 H3 H4]. rewrite toggle_gl. split; try done.
      cbn [scissor capabilities set_field]. rewrite cap_kept by congruence. done.
    + intros _. apply leads_all. eapply leads_bind; [apply keeps_ret|]. intros _. apply keeps_ret.
Qed.

Lemma keeps_enable must id cap : keeps_reach (enable_cap must id cap).
Proof.
  apply keeps_current, (keeps_toggle must id true cap). intros s. destruct (last_scissor_rect s) as [[[[x y] w] h]|]; by eexists.
Qed.

Lemma keeps_disable must id cap : keeps_reach (disable_cap must id cap).
Proof. apply keeps_current, (keeps_toggle must id false cap). intros s. by eexists. Qed.

Lemma keeps_bind_framebuffer must id f : keeps_reach (bind_framebuffer must id FRAMEBUFFER f).
Proof.
  apply keeps_current. eapply leads_bind; [destruct f; [apply keeps_live_object|apply keeps_gets]|].
  intros native. apply (leads_all id). rewrite Z.eqb_refl. cbn [orb].
  apply (leads_bind _ (mostly id (λ s, reach_ok (s <| draws_to_default_fbo := true |>) ∧
    mjoin (fb_slots (bound_framebuffer s) !! 0%nat) = Some f))).
  - apply leads_guarded. intros s d [H1 H2 H3 H4]. unfold update_bind_framebuffer. cbn [gl].
    assert (Hsl : fb_slot FRAMEBUFFER = Some 0%nat) by (unfold fb_slot; by rewrite Z.eqb_refl).
    destruct (fb_update_array FRAMEBUFFER 0 f (bound_framebuffer s) Hsl H3) as [_ Ha].
    destruct (fb_update FRAMEBUFFER f (bound_framebuffer s)) as [b fb]. cbn [snd] in Ha. rewrite gl_issue_if. cbn [gl put].
    cbn [bound_framebuffer set_field]. rewrite Ha. split.
    + split; cbn; try done. by rewrite Ha, array_record_length.
    + apply (array_record_skipped 0 f (array_record 0 f _).2), array_record_repeats. rewrite H3. lia.
  - intros _. apply (leads_bind _ (mostly id reach_ok)); [|intros _; apply leads_all, keeps_ret].
    apply leads_on_state. intros s [[H1 H2 H3 _] Hf]. cbn [snd]. split; try done. cbn.
    intros Hd%bool_decide_eq_false_1. destruct f as [f|]; [|done]. by exists f.
Qed.

Lemma keeps_scissor must id x y w h :
  keeps_reach (state_arm must id (update_scissor x y w h) (gl_scissor x y w h)).
Proof.
  apply keeps_current. eapply leads_bind; [|intros _; apply keeps_ret]. apply (leads_all id), leads_guarded.
  intros s d. apply scissor_reach.
Qed.

Lemma handle_keeps must cmd :
  (∀ id t f, cmd = BindFramebuffer id t f → t = FRAMEBUFFER) → keeps_reach (handle_with must cmd).
Proof.
  intros Hf. destruct cmd; cbn [handle_with];
    unfold clear_arm, use_program, bind_buffer, bind_texture, active_texture, bind_renderbuffer, bind_vertex_array,
      bind_sampler, bind_buffer_base, bind_buffer_range, sampler_parameter, uniform; try (keep; fail).
  - apply keeps_enable.
  - apply keeps_disable.
  - rewrite (Hf _ _ _ eq_refl). apply keeps_bind_framebuffer.
  - apply keeps_scissor.
  - eapply leads_bind; [apply keeps_any_canvas|]. intros ?. keep.
  - eapply leads_bind; [apply keeps_any_canvas|]. intros ?. keep.
Qed.
End keeps.

(** * Damage *)

(** The pixels a state lets a call change; a draw, those of polygons. *)
Definition in_viewport (d : GlState) (p : Z * Z) : Prop :=
  match d SViewport with VInts [x; y; w; h] => in_rect x y w h p | _ => True end.
Definition in_scissor (d : GlState) (p : Z * Z) : Prop :=
  match d (SCap SCISSOR_TEST), d SScissor with
  | VBools [true], VInts [x; y; w; h] => in_rect x y w h p
  | _, _ => True
  end.
Definition mask_open (d : GlState) : bool := match d SColorMask with VBools l => existsb (λ b, b) l | _ => true end.

Definition changes (c : GlCall) (d : GlState) (p : Z * Z) : Prop :=
  match c with
  | gl_clear bits => Z.land bits COLOR_BUFFER_BIT ≠ 0 ∧ mask_open d = true ∧ in_scissor d p
  | c => visible c = true ∧ in_viewport d p ∧ in_scissor d p
  end.

Lemma changes_visible c d p : changes c d p → visible c = true.
Proof. by destruct c; intros []. Qed.

Lemma changes_scissor c d p : changes c d p → in_scissor d p.
Proof. destruct c; intros (_ & _ & H); exact H. Qed.

Lemma intersect_covers x y w h x' y' w' h' o p :
  intersect_rects (E:=ErrorCode) (x, y, w, h) (x', y', w', h') = Ret o → in_rect x y w h p → in_rect x' y' w' h' p →
  ∃ x0 y0 w0 h0, o = Some (x0, y0, w0, h0) ∧ in_rect x0 y0 w0 h0 p.
Proof.
  unfold intersect_rects, i32_add, i32_sub, in_rect. intros E H H'.
  repeat match type of E with
  | context [if ?b then Ret _ else Panic] => destruct b; cbn [mbind outcome_bind] in E; [|done]
  end.
  destruct (Z.ltb_spec (Z.max x x') (Z.min (x + w) (x' + w'))); [|lia].
  destruct (Z.ltb_spec (Z.max y y') (Z.min (y + h) (y' + h'))); [|lia]. cbn [andb] in E.
  repeat match type of E with
  | context [if ?b then Ret _ else Panic] => destruct b; cbn [mbind outcome_bind] in E; [|done]
  end.
  injection E as <-. do 4 eexists. split; [done|]. lia.
Qed.

(** The framebuffer object a canvas has bound, not its default one. *)
Definition bound_framebuffer_is (s : CanvasGLState) (f : Z) : Prop :=
  mjoin (fb_slots (bound_framebuffer s) !! 0%nat) = Some (Some f).

Lemma val_eq v w : v ≡ w → (∀ l, w ≠ VFloats l) → v = w.
Proof. destruct v, w; unfold equiv, Val_equiv; intros H Hw; try done. by destruct (Hw l0). Qed.

Section damage.
Context (N : Names) (s : CanvasGLState) (d : GlState).
Context (Hs : sound N s d) (Hr : reach_ok s).
Hypothesis (other : ∀ f, bound_framebuffer_is s f → n_framebuffer N f ≠ n_default N).
Hypothesis (onscreen : d SDrawFramebuffer = VName (n_default N)).

Lemma draws_onscreen : draws_to_default_fbo s = true.
Proof using Hs Hr other onscreen.
  apply not_false_is_true. intros E. destruct (reach_target _ Hr E) as [f Hf].
  assert (Hc : claim N s SDrawFramebuffer = Some (VName (n_framebuffer N f))) by (cbn [claim]; by rewrite Hf).
  specialize (Hs _ _ Hc). cbn [native] in Hs. rewrite onscreen in Hs. destruct (other f Hf).
  unfold equiv, Val_equiv in Hs. congruence.
Qed.

Lemma viewport_known v : viewport s = Some v → d SViewport = ints4 v.
Proof using Hs. intros E. destruct v as [[[x y] w] h]. apply val_eq; [|done]. apply (Hs SViewport). cbn. by rewrite E. Qed.

Lemma scissor_known x y w h p : scissor s = ScissorEnabled x y w h → in_scissor d p → in_rect x y w h p.
Proof using Hs Hr.
  intros E. unfold in_scissor.
  assert (Hc : d (SCap SCISSOR_TEST) = VBools [true]).
  { apply val_eq; [|done]. apply (Hs (SCap SCISSOR_TEST)). cbn [claim]. by rewrite (reach_test _ Hr) by congruence. }
  assert (Hrect : d SScissor = VInts [x; y; w; h]).
  { apply val_eq; [|done]. apply (Hs SScissor). cbn [claim]. by rewrite (reach_rect _ Hr _ _ _ _ E). }
  by rewrite Hc, Hrect.
Qed.

Lemma draw_damage_covers eff p :
  draw_damage_effect (draws_to_default_fbo s) (viewport s) (scissor s) = Ret eff →
  in_viewport d p → in_scissor d p → in_damage eff p.
Proof using Hs Hr other onscreen.
  unfold draw_damage_effect. rewrite draws_onscreen. cbn [negb]. intros E Hv Hsc.
  destruct (viewport s) as [[[[x y] w] h]|] eqn:Ev; [|by injection E as <-].
  unfold in_viewport in Hv. rewrite (viewport_known _ Ev) in Hv. cbn [ints4] in Hv.
  destruct (scissor s) as [|x' y' w' h'|] eqn:Esc; [by injection E as <-| |by injection E as <-].
  destruct (intersect_rects _ _) as [o| | |] eqn:Ei; try done.
  destruct (intersect_covers _ _ _ _ _ _ _ _ o p Ei Hv) as (x0 & y0 & w0 & h0 & -> & Hp); [by eapply scissor_known|].
  by injection E as <-.
Qed.

Lemma clear_damage_covers bits p :
  changes (gl_clear bits) d p →
  in_damage (clear_damage_effect bits (draws_to_default_fbo s) (scissor s) (color_mask s)) p.
Proof using Hs Hr other onscreen.
  intros (Hb & Hm & Hsc). unfold clear_damage_effect. rewrite (proj2 (Z.eqb_neq _ _) Hb), draws_onscreen.
  assert (Hmask : d SColorMask = let '(r, g, b, a) := color_mask s in VBools [r; g; b; a]).
  { destruct (color_mask s) as [[[r g] b] a] eqn:E. apply val_eq; [|done]. apply (Hs SColorMask). cbn [claim]. by rewrite E. }
  unfold mask_open in Hm. rewrite Hmask in Hm. destruct (color_mask s) as [[[r g] b] a]. cbn in Hm.
  assert (negb r && negb g && negb b && negb a = false) as -> by by destruct r, g, b, a. cbn [negb].
  destruct (scissor s) as [|x y w h|] eqn:E; [done| |done]. by eapply scissor_known.
Qed.
End damage.

(** ** The handler *)

Section covers.
Context `{Drv : !GlDriver} `{Surf : !Egl} `{!HashOrder Z, !HashOrder (Z * Z)}.

(** The arm of a visible command: context, call, and the damage read off the tracker. *)
Lemma visible_arm {A} id (c : GlCall) (rest : M A) cm r l cm' :
  (make_current_needed id ;; gl_call c ;; rest) cm = (r, l, cm') → ∀ a, r = Ret a →
  ∃ cm1 l', idle cm cm1 ∧ rest cm1 = (r, l', cm').
Proof.
  unfold mbind, M_bind. pose proof (make_current_needed_home id cm) as H.
  destruct (make_current_needed id cm) as [[[u|e| |] l1] cm1]; destruct H as (-> & _ & Hi); try (intros [= <- _ _] ? [=]).
  cbn [gl_call]. destruct (rest cm1) as [[r' l'] cm2] eqn:E. intros [= <- <- <-] a ->. by exists cm1, l'.
Qed.

Lemma count_then {A} shape (m : M A) cm : ∃ cm1, idle cm cm1 ∧ (count_draw shape ;; m) cm = m cm1.
Proof.
  exists (count_draw shape cm).2. split; [done|]. unfold mbind, M_bind. cbn [count_draw modify snd].
  by destruct (m _) as [[? ?] ?].
Qed.

Lemma draw_damage_read cm : keyed_wf (gl_state cm) →
  (∃ s, keyed_view (gl_state cm) ONSCREEN = Some s ∧
    damage_for_draw ONSCREEN cm = (draw_damage_effect (draws_to_default_fbo s) (viewport s) (scissor s), [], cm)) ∨
  damage_for_draw ONSCREEN cm = (Ret FullSurface, [], cm).
Proof.
  intros Hk. unfold damage_for_draw, mbind, M_bind, gets. rewrite Z.eqb_refl. cbn [negb]. cbv beta iota zeta. rewrite get_view by done.
  destruct (keyed_view (gl_state cm) ONSCREEN) as [s|]; [left; by exists s|by right].
Qed.

Section screen.
Context (cm : CanvasManager) (w : World).
Local Abbreviation N := (names_of cm ONSCREEN).
Local Abbreviation d := (state (w (Canvas ONSCREEN))).
Context (Hg : good_world cm w) (Hr : all_reach_ok cm).
Context (Hother : ∀ f, bound_framebuffer_is (shadow cm ONSCREEN) f → n_framebuffer N f ≠ n_default N).
Context (Hscreen : d SDrawFramebuffer = VName (n_default N)).

Lemma draw_arm_covers c shape eff l cm' p :
  draw_arm ONSCREEN c shape cm = (Ret eff, l, cm') → in_viewport d p → in_scissor d p → in_damage eff p.
Proof using Hg Hr Hother Hscreen.
  intros E Hv Hsc. destruct (visible_arm _ _ _ _ _ _ _ E eff eq_refl) as (cm1 & l1 & Hi & E1).
  destruct (count_then shape (damage_for_draw ONSCREEN) cm1) as (cm2 & Hi2 & E2). rewrite E2 in E1.
  assert (Hst : gl_state cm2 = gl_state cm) by (rewrite (idle_state _ _ Hi2); apply Hi). destruct Hr as [Hk Hr'].
  destruct (draw_damage_read cm2) as [(s & Es & Er)|Er]; [by rewrite Hst| |];
    rewrite Er in E1; injection E1 as E1 _ _; [|by subst].
  rewrite Hst in Es. assert (s = shadow cm ONSCREEN) as -> by (unfold shadow; by rewrite Es).
  by eapply (draw_damage_covers N _ d); [apply (good_sound _ _ Hg)|apply Hr'|..].
Qed.

Lemma clear_arm_covers bits eff l cm' p :
  clear_arm ONSCREEN bits cm = (Ret eff, l, cm') → changes (gl_clear bits) d p → in_damage eff p.
Proof using Hg Hr Hother Hscreen.
  intros E Hp. destruct (visible_arm _ _ _ _ _ _ _ E eff eq_refl) as (cm1 & l1 & Hi & E1). destruct Hr as [Hk Hr'].
  unfold damage_for_clear, mbind, M_bind, gets in E1. rewrite Z.eqb_refl in E1. cbn [negb] in E1. cbv beta iota zeta in E1.
  rewrite get_view in E1 by by rewrite (idle_state _ _ Hi). rewrite (idle_state _ _ Hi) in E1. injection E1 as <- _ _.
  destruct (keyed_view (gl_state cm) ONSCREEN) as [s|] eqn:Es.
  - assert (s = shadow cm ONSCREEN) as -> by (unfold shadow; by rewrite Es).
    by eapply (clear_damage_covers N _ d); [apply (good_sound _ _ Hg)|apply Hr'|..].
  - unfold clear_damage_effect. destruct Hp as [Hb _]. by rewrite (proj2 (Z.eqb_neq _ _) Hb).
Qed.
End screen.


Lemma step_keeps must cmd :
  (∀ id t f, cmd = BindFramebuffer id t f → t = FRAMEBUFFER) → leads all_reach_ok (step must cmd) all_reach_ok.
Proof.
  intros Hf. eapply leads_bind; [by apply handle_keeps|]. intros e. eapply leads_bind; [|intros; apply keeps_ret].
  apply leads_state. intros cm. unfold add_damage. by destruct (acc_add e (damage cm)) as [|[]| |].
Qed.

(** The scissor state stays in order over a batch. *)
Lemma batch_keeps must cmds :
  Forall (λ cmd, ∀ id t f, cmd = BindFramebuffer id t f → t = FRAMEBUFFER) cmds →
  ∀ cm, all_reach_ok cm → all_reach_ok (run_batch must cmds cm).2.
Proof.
  induction 1 as [|cmd cmds Hc _ IH]; intros cm Hr; [done|]. cbn [run_batch]. fold (step must cmd).
  pose proof (step_keeps must cmd Hc cm Hr) as H. destruct (step must cmd cm) as [[r l] cm1].
  cbn [fst snd] in H. assert (Hr1 : all_reach_ok cm1) by by destruct r. specialize (IH cm1 Hr1).
  destruct (run_batch must cmds cm1) as [[r2 l2] cm2]. by destruct r.
Qed.
End covers.

(** ** A canvas that draws in a corner *)

Section sample.
#[local] Existing Instance sample_egl.
#[local] Existing Instance list_order.

Definition corner : list GLCmd := [Viewport 1 2 2 10 10].
Definition corner_manager : CanvasManager := (execute_gl_batch corner sample_manager).2.
Definition corner_world : World (Drv:=reference_driver) := play_all sample_world [(Canvas 1, gl_viewport 2 2 10 10)].

Lemma corner_good : good_world corner_manager corner_world.
Proof.
  destruct (batch_related (Drv:=reference_driver) corner sample_manager sample_world sample_good
    (conj I I) _ _ _ (run_split _) (all_accepted _ _)) as (l & _ & _ & Hg & _). exact Hg.
Qed.

Lemma corner_reach : all_reach_ok corner_manager.
Proof.
  apply batch_keeps; [by apply Forall_singleton|]. split; [apply NoDup_nil_2|]. intros id. by split.
Qed.

Lemma handle_issues_home_witness :
  let '(_, l, _) := handle_command (DrawArrays 1 4 0 3) corner_manager in
  length l = 1%nat ∧ Forall (λ e : Event, e.1 = Canvas 1) l.
Proof.
  split; [by vm_compute|].
  exact (handle_issues_home (DrawArrays 1 4 0 3) 1 corner_manager _ _ _ eq_refl (run_split _)).
Defined.

End sample.
