(* ===== verification/FrameReach.v ===== *)
(** From the commands of a batch to the region that is presented
    ([engine/crates/graphics]: [renderergl/handler.rs], [render_thread.rs],
    [damage_effect.rs], [canvas/manager/mod.rs]).

    Every pixel of the screen that some call of a batch can change is in the region
    presented at the end of the frame ([batch_reaches_region]). *)
From S2P Require Import Prelude Damage FrameDamage Keyed Budget Commands Shadow FrameStats StateTracker Driver Errors Handler Dedup Invisible Reach.

Set Default Proof Using "Type".

(** * A command leaves the names and the damage alone *)

(** The objects and their charges; the bindings of the budget may change. *)
Definition ledger (b : WebGlGpuBudget) := (limits b, contexts b, Budget.textures b, Budget.renderbuffers b).
Definition kept (cm : CanvasManager) := (base cm, damage cm, samplers cm, ledger (webgl_gpu_budget cm)).

(** What is bound exists. *)
Definition bound_ok (cm : CanvasManager) : Prop :=
  match bound cm with
  | Resource => True
  | Canvas id => is_Some (canvases cm !! id)
  | Shared2D _ => is_Some (shared_2d cm)
  end.
Definition fit (cm : CanvasManager) : Prop := budget_ok (webgl_gpu_budget cm) ∧ bound_ok cm.

Definition steady {A} (m : M A) : Prop := ∀ cm, kept (m cm).2 = kept cm ∧ (fit cm → fit (m cm).2).

Lemma steady_bind {A B} (m : M A) (f : A → M B) : steady m → (∀ a, steady (f a)) → steady (m ≫= f).
Proof.
  intros Hm Hf cm. specialize (Hm cm). unfold mbind, M_bind. destruct (m cm) as [[[a|e| |] l] cm1]; cbn [snd] in *; try done.
  specialize (Hf a cm1). destruct (f a cm1) as [[r l2] cm2]. cbn [snd] in *. destruct Hm, Hf. split; [congruence|auto].
Qed.

Lemma steady_on_state {A} id (f : CanvasGLState → A * CanvasGLState) : steady (on_state id f).
Proof. intros cm. unfold on_state. by destruct (entry_modify _ _ _ _). Qed.

Lemma steady_update id f : steady (update id f).
Proof.
  apply steady_bind; [done|]. intros d. apply steady_bind; [apply steady_on_state|]. intros [b d'].
  by apply steady_bind.
Qed.

Lemma steady_guarded must id f c : steady (guarded must id f c).
Proof. apply steady_bind; [apply steady_update|]. intros b. by destruct (must b). Qed.

Lemma on_bindings_ledger c f b : ledger (on_bindings c f b) = ledger b.
Proof. done. Qed.

Lemma steady_budget f :
  (∀ b, ledger (f b) = ledger b ∧ (budget_ok b → budget_ok (f b))) → steady (budget f).
Proof.
  intros Hf cm. unfold budget, modify. cbn [snd]. destruct (Hf (webgl_gpu_budget cm)) as [Hl Hb]. split.
  - unfold kept. cbn. by rewrite Hl.
  - intros [H1 H2]. split; [by apply Hb|exact H2].
Qed.

Lemma bind_texture_ledger id target texture b :
  ledger (Budget.bind_texture id target texture b) = ledger b ∧
  (budget_ok b → budget_ok (Budget.bind_texture id target texture b)).
Proof. unfold Budget.bind_texture. destruct (normalize_binding_target target); [|done]. split; [done|apply on_bindings_ok]. Qed.
Lemma active_texture_ledger id unit_ b :
  ledger (set_active_texture id unit_ b) = ledger b ∧ (budget_ok b → budget_ok (set_active_texture id unit_ b)).
Proof. unfold set_active_texture. destruct (negb _); [done|]. split; [done|apply on_bindings_ok]. Qed.
Lemma bind_renderbuffer_ledger id target rb b :
  ledger (Budget.bind_renderbuffer id target rb b) = ledger b ∧
  (budget_ok b → budget_ok (Budget.bind_renderbuffer id target rb b)).
Proof. unfold Budget.bind_renderbuffer. destruct (_ =? _); [|done]. split; [done|apply on_bindings_ok]. Qed.

Lemma gets_bind {A B} (f : CanvasManager → A) (k : A → M B) cm : (gets f ≫= k) cm = k (f cm) cm.
Proof. unfold mbind, M_bind, gets. by destruct (k (f cm) cm) as [[r l] cm']. Qed.

(** A context that exists is made current. *)
Lemma make_current_steady `{Surf : !Egl} b cm :
  kept (make_current b cm).2 = kept cm ∧ (bound_ok (cm <| bound := b |>) → fit cm → fit (make_current b cm).2).
Proof.
  unfold make_current, mbind, M_bind, gets, modify. destruct (egl_make_current _); [|done].
  split; [done|]. intros Hb [H1 _]. by split.
Qed.

Lemma steady_live_object table id : steady (live_object table id).
Proof.
  apply steady_bind; [done|]. intros [meta|]; [|done]. by destruct (deleted meta).
Qed.

Lemma steady_owned_object table canvas id : steady (owned_object table canvas id).
Proof.
  apply steady_bind; [done|]. intros [meta|]; [|done].
  apply steady_bind; [unfold check_owner; by case_bool_decide|]. intros _. by destruct (deleted meta).
Qed.
Lemma steady_named find o : (∀ id, steady (find id)) → steady (named find o).
Proof. intros Hf. destruct o; [apply Hf|done]. Qed.

Section steady.
Context `{Surf : !Egl} `{!HashOrder Z, !HashOrder (Z * Z)}.

Lemma steady_current id : steady (make_current_needed id).
Proof.
  intros cm. unfold make_current_needed. rewrite gets_bind. destruct (canvas_uses_shared_2d cm id) eqn:E.
  - assert (Hs : is_Some (shared_2d cm)) by (unfold canvas_uses_shared_2d in E; by destruct (shared_2d cm)).
    unfold bind_shared_2d_context. rewrite gets_bind. destruct (bound cm);
      try (destruct (make_current_steady (Shared2D id) cm) as [H1 H2]; split; [done|]; apply H2; exact Hs).
    split; [done|]. intros [H _]. by split.
  - rewrite gets_bind. case_bool_decide; [done|]. rewrite gets_bind. destruct (canvases cm !! id) as [entry|] eqn:Ee; [|done].
    destruct (make_current_steady (Canvas id) cm) as [H1 H2]. split; [done|]. apply H2. by exists entry.
Qed.

Lemma steady_any_canvas : steady ensure_any_canvas_current.
Proof.
  apply steady_bind; [done|]. intros [|id|id]; [|done..]. apply steady_bind; [done|]. intros cs.
  case_bool_decide; [apply steady_bind; [apply steady_current|done]|].
  destruct (first_key cs); [apply steady_bind; [apply steady_current|done]|].
  apply steady_bind; [|done]. intros cm. destruct (make_current_steady Resource cm) as [H1 H2]. split; [done|by apply H2].
Qed.

Ltac hold :=
  match goal with
  | |- steady (make_current_needed _) => apply steady_current
  | |- steady ensure_any_canvas_current => apply steady_any_canvas
  | |- steady (owned_object _ _ _) => apply steady_owned_object
  | |- steady (live_object _ _) => apply steady_live_object
  | |- steady (named _ _) => apply steady_named; intros ?; hold
  | |- steady (guarded _ _ _ _) => apply steady_guarded
  | |- steady (on_state _ _) => apply steady_on_state
  | |- steady (mbind _ _) => apply steady_bind; [hold|intros ?; hold]
  | |- steady (match ?x with _ => _ end) => destruct x; hold
  | |- steady (damage_for_draw _) => unfold damage_for_draw; hold
  | |- steady (budget (Budget.bind_texture _ _ _)) => apply steady_budget, bind_texture_ledger
  | |- steady (budget (set_active_texture _ _)) => apply steady_budget, active_texture_ledger
  | |- steady (budget (Budget.bind_renderbuffer _ _ _)) => apply steady_budget, bind_renderbuffer_ledger
  | |- _ => done
  end.

Lemma handle_steady must cmd : steady (handle_with must cmd).
Proof.
  destruct cmd; cbn [handle_with];
    unfold clear_arm, draw_arm, state_arm, call_arm, use_program, bind_buffer, bind_texture, active_texture,
      bind_renderbuffer, bind_vertex_array, bind_sampler, bind_buffer_base, bind_buffer_range, sampler_parameter, uniform,
      enable_cap, disable_cap, bind_framebuffer; hold.
Qed.

Lemma step_base must cmd cm : base (step must cmd cm).2 = base cm.
Proof.
  unfold step, mbind, M_bind. destruct (handle_steady must cmd cm) as [H _].
  destruct (handle_with must cmd cm) as [[[e|e| |] l] cm1]; cbn [snd] in *;
    (assert (Hb : base cm1 = base cm) by (unfold kept in H; congruence)); try exact Hb.
  unfold add_damage. destruct (acc_add e (damage cm1)) as [|[]| |]; exact Hb.
Qed.
End steady.

(** * The pixels a run touches *)

Section touches.
Context `{Drv : !GlDriver} (screen : Z).

(** A call in the context of the first canvas, while its default framebuffer, the
    native [screen], is bound for drawing, can change the pixel. *)
Definition touched (w : World) (e : Event) (p : Z * Z) : Prop :=
  let d := state (w (Canvas ONSCREEN)) in
  e.1 = Canvas ONSCREEN ∧ d SDrawFramebuffer = VName (Some screen) ∧ changes e.2 d p.

Fixpoint touches (w : World) (l : list Event) (p : Z * Z) : Prop :=
  match l with
  | [] => False
  | e :: l => touched w e p ∨ touches (play w e) l p
  end.

Lemma touches_app w l l' p : touches w (l ++ l') p ↔ touches w l p ∨ touches (play_all w l) l' p.
Proof. revert w. induction l as [|e l IH]; intros w; cbn; [tauto|]. rewrite IH. unfold play_all. cbn. tauto. Qed.

Lemma touches_visible w l p : touches w l p → Exists (λ e : Event, visible e.2 = true) l.
Proof.
  revert w. induction l as [|e l IH]; intros w; cbn; [done|]. intros [(_ & _ & H)|H]; [left; by eapply changes_visible|].
  right. by eapply IH.
Qed.

Lemma invisible_touches w l p : Forall (λ e : Event, only None e.2) l → ¬ touches w l p.
Proof.
  intros Hl Ht%touches_visible. apply Exists_exists in Ht as (e & He & Hv). rewrite Forall_forall in Hl.
  by specialize (Hl e He Hv).
Qed.
End touches.

(** The default framebuffer of the first canvas is the native [screen], which is no
    other framebuffer of the client's. *)
Definition screen_ok (screen : Z) (cm : CanvasManager) : Prop :=
  get_drawing_buffer_fbo cm ONSCREEN = Some screen ∧ ∀ f, handle_in (framebuffers cm) f ≠ Some screen.

(** Outcomes that may panic but do not fail. *)
Definition nofail {A} (o : outcome ErrorCode A) : Prop := ∀ e, o ≠ Fail e.

Lemma nofail_bind {A B} (o : outcome ErrorCode A) (f : A → outcome ErrorCode B) :
  nofail o → (∀ a, nofail (f a)) → nofail (o ≫= f).
Proof. intros Ho Hf. destruct o as [a|e| |]; [apply Hf|by destruct (Ho e)|done|done]. Qed.

Lemma nofail_i32 a b : nofail (i32_add a b) ∧ nofail (i32_sub a b).
Proof. unfold i32_add, i32_sub. split; by destruct (_ && _). Qed.

Lemma intersect_nofail a b : nofail (intersect_rects a b).
Proof.
  destruct a as [[[x y] w] h], b as [[[x' y'] w'] h']. unfold intersect_rects.
  repeat (apply nofail_bind; [apply nofail_i32|intros ?]). destruct (_ && _); [|done].
  repeat (apply nofail_bind; [apply nofail_i32|intros ?]). done.
Qed.

Section command.
Context `{Drv : !GlDriver} `{Surf : !Egl} `{!HashOrder Z, !HashOrder (Z * Z)}.
Context (screen : Z) (cm : CanvasManager) (w : World) (p : Z * Z).
Context (Hg : good_world cm w) (Hr : all_reach_ok cm) (Hscr : screen_ok screen cm).

(** What a visible command does: nothing, or its call and then the damage. *)
Lemma arm_events {A} id c (rest : M A) r l cm' :
  (∀ cm, (rest cm).1.2 = []) → (∀ cm e, (rest cm).1.1 ≠ Fail e) →
  (make_current_needed id ;; gl_call c ;; rest) cm = (r, l, cm') →
  l = [] ∨ l = [(Canvas id, c)] ∧ ∀ e, r ≠ Fail e.
Proof using Hg.
  intros Hq Hf. unfold mbind, M_bind. pose proof (make_current_needed_home id cm) as H. unfold home in H.
  rewrite (good_shared _ _ Hg) in H.
  destruct (make_current_needed id cm) as [[[u|e| |] l1] cm1]; destruct H as (-> & Hb & _); try (intros [= <- <- <-]; by left).
  cbn [gl_call]. rewrite (Hb u eq_refl). specialize (Hq cm1). specialize (Hf cm1).
  destruct (rest cm1) as [[r' l'] cm2]. cbn [fst snd] in *. subst l'. intros [= <- <- <-]. by right.
Qed.

Lemma damage_for_draw_quiet id cm0 : (damage_for_draw id cm0).1.2 = [] ∧ ∀ e, (damage_for_draw id cm0).1.1 ≠ Fail e.
Proof.
  unfold damage_for_draw, mbind, M_bind, gets. destruct (negb _); [done|]. destruct (get _ _) as [s|]; [|done].
  cbn [lift]. split; [done|]. intros e. unfold draw_damage_effect. cbn [fst]. destruct (negb _); [done|].
  destruct (viewport s) as [[[[x y] vw] vh]|]; [|done]. destruct (scissor s); try done.
  apply nofail_bind; [apply intersect_nofail|done].
Qed.

Lemma touched_onscreen id c : touches screen w [(Canvas id, c)] p →
  id = ONSCREEN ∧ state (w (Canvas ONSCREEN)) SDrawFramebuffer = VName (n_default (names_of cm ONSCREEN)) ∧
  changes c (state (w (Canvas ONSCREEN))) p.
Proof using Hscr.
  intros [(H1 & H2 & H3)|[]]. injection H1 as ->. cbn [names_of n_default]. by rewrite (proj1 Hscr).
Qed.

Lemma screen_other f : bound_framebuffer_is (shadow cm ONSCREEN) f →
  n_framebuffer (names_of cm ONSCREEN) f ≠ n_default (names_of cm ONSCREEN).
Proof using Hscr. intros _. cbn [names_of n_default n_framebuffer]. rewrite (proj1 Hscr). apply (proj2 Hscr). Qed.

Lemma draw_touches id c shape r l cm' :
  (∀ b, c ≠ gl_clear b) → draw_arm id c shape cm = (r, l, cm') → touches screen w l p →
  (∀ e, r ≠ Fail e) ∧ ∀ eff, r = Ret eff → in_damage eff p.
Proof using Hg Hr Hscr.
  intros Hc E Ht.
  assert (Hrest : ∀ cm0, (count_draw shape ;; damage_for_draw id) cm0 = damage_for_draw id (count_draw shape cm0).2).
  { intros cm0. unfold mbind, M_bind. cbn [count_draw modify snd]. by destruct (damage_for_draw _ _) as [[? ?] ?]. }
  destruct (arm_events id c (count_draw shape ;; damage_for_draw id) r l cm') as [->|[-> Hf]]; [..|done|].
  - intros cm0. rewrite Hrest. apply damage_for_draw_quiet.
  - intros cm0. rewrite Hrest. apply damage_for_draw_quiet.
  - exact E.
  - destruct (touched_onscreen id c Ht) as (-> & Hd & Hch). split; [done|]. intros eff ->.
    assert (Hv : in_viewport (state (w (Canvas ONSCREEN))) p ∧ in_scissor (state (w (Canvas ONSCREEN))) p).
    { destruct c; try (by destruct Hch as (_ & ? & ?)). by edestruct Hc. }
    eapply (draw_arm_covers cm w Hg Hr screen_other Hd); [exact E|apply Hv|apply Hv].
Qed.

Lemma clear_touches id bits r l cm' :
  clear_arm id bits cm = (r, l, cm') → touches screen w l p → (∀ e, r ≠ Fail e) ∧ ∀ eff, r = Ret eff → in_damage eff p.
Proof using Hg Hr Hscr.
  intros E Ht. destruct (arm_events id (gl_clear bits) (damage_for_clear id bits) r l cm') as [->|[-> Hf]]; [done|done|exact E|done|].
  destruct (touched_onscreen id _ Ht) as (-> & Hd & Hch). split; [done|]. intros eff ->.
  by eapply (clear_arm_covers cm w Hg Hr screen_other Hd).
Qed.

(** The commands that name no canvas draw nothing. *)
Lemma sampler_invisible s c : (∀ h, visible (c h) = false) →
  Forall (λ e : Event, only None e.2) (sampler_parameter s c cm).1.2.
Proof using Hg.
  intros Hc. unfold sampler_parameter, mbind at 1, M_bind at 1.
  destruct (silent_ensure_any_canvas_current cm (good_shared _ _ Hg)) as (r & cm1 & -> & _).
  destruct r as [id|e| |]; try constructor.
  assert (Hs : stays (bound cm1) (only None)
    (handle ← any_object samplers (Some s); match handle with Some h => gl_call (c h) | None => mret tt end ;; mret NoDamage)).
  { apply stays_bind; [auto with stays|]. intros [h|]; (apply stays_bind; [|intros; apply stays_ret]); [|apply stays_ret].
    apply stays_call. intros Hv. by rewrite Hc in Hv. }
  destruct (Hs cm1 eq_refl) as [Hl _]. revert Hl.
  match goal with |- context [let '(_, _) := ?x in _] => destruct x as [[r2 l2] cm2] end. cbn [fst snd app].
  intros Hl. eapply Forall_impl; [exact Hl|]. by intros e [_ ?].
Qed.

Lemma command_touches cmd r l cm' :
  handle_command cmd cm = (r, l, cm') → touches screen w l p →
  (∀ e, r ≠ Fail e) ∧ ∀ eff, r = Ret eff → in_damage eff p.
Proof using Hg Hr Hscr.
  intros E Ht. destruct (visible_call cmd) as [c|] eqn:Ev.
  - destruct cmd; try discriminate; [eapply clear_touches; [exact E|exact Ht]|eapply draw_touches; [|exact E|exact Ht]; done..].
  - exfalso. eapply invisible_touches; [|exact Ht]. unfold handle_command in E. destruct (cmd_canvas cmd) as [id|] eqn:Ec.
    + pose proof (handle_home (λ b, b) id cmd cm Ec) as H. unfold issues_home in H. rewrite E, Ev in H.
      eapply Forall_impl; [exact H|]. by intros e [_ ?].
    + destruct cmd; try discriminate; cbn [handle_with] in E;
        match type of E with sampler_parameter ?s ?c cm = _ => pose proof (sampler_invisible s c ltac:(done)) as H end;
        by rewrite E in H.
Qed.
End command.

(** * A batch *)

Section batch.
Context `{Drv : !GlDriver} `{Surf : !Egl} `{!HashOrder Z, !HashOrder (Z * Z)}.
Context (screen : Z).

#[global] Instance accepted_proper : Proper ((≡) ==> (=) ==> iff) accepted.
Proof.
  intros w w' Hw l ? <-. revert w w' Hw. induction l as [|e l IH]; intros w w' Hw; cbn; [done|].
  rewrite (Hw e.1). by rewrite (IH (play w e) (play w' e)) by by rewrite Hw.
Qed.

Lemma clean_framebuffer cm cmd : clean cm cmd → ∀ id t f, cmd = BindFramebuffer id t f → t = FRAMEBUFFER.
Proof. by intros H id t f ->. Qed.

Definition ends_well {A} (r : outcome ErrorCode A) : Prop := r ≠ Panic ∧ r ≠ OutOfFuel.

(** The loop's body: what its calls can change is in the damage it leaves. *)
Lemma step_touches cmd cm w r l cm' p :
  good_world cm w → all_reach_ok cm → screen_ok screen cm → acc_shaped (damage cm) →
  step (λ b, b) cmd cm = (r, l, cm') → ends_well r →
  acc_shaped (damage cm') ∧ (acc_covers (damage cm) p ∨ touches screen w l p → acc_covers (damage cm') p).
Proof.
  intros Hg Hr Hscr Hs. unfold step, mbind, M_bind. destruct (handle_steady (λ b, b) cmd cm) as [Hk _].
  destruct (handle_with (λ b, b) cmd cm) as [[r1 l1] cm1] eqn:E. cbn [snd] in Hk.
  assert (Hd : damage cm1 = damage cm) by (unfold kept in Hk; congruence).
  assert (Ht : touches screen w l1 p → (∀ e, r1 ≠ Fail e) ∧ ∀ eff, r1 = Ret eff → in_damage eff p)
    by exact (command_touches screen cm w p Hg Hr Hscr cmd r1 l1 cm1 E).
  destruct r1 as [eff|e| |]; intros Er [Hp Ho]; simplify_eq; try done.
  - unfold add_damage in Er. destruct (acc_add eff (damage cm1)) as [acc|[]| |] eqn:Ea; simplify_eq; try done.
    unfold mret, M_ret in Er. injection Er as <- <- <-.
    cbn [damage set_field]. rewrite Hd in Ea. destruct (acc_add_covers eff (damage cm) acc Hs Ea) as [Hs' Hc].
    split; [done|]. rewrite !app_nil_r. intros [Hx|Hx]; apply Hc; [by left|right]. by apply Ht.
  - rewrite Hd. split; [done|]. intros [Hx|Hx]; [done|]. by destruct (proj1 (Ht Hx) e).
Qed.

Lemma screen_base cm cm' : base cm' = base cm → screen_ok screen cm → screen_ok screen cm'.
Proof.
  unfold base. intros [= E E1 E2 E3 E4 E5 E6 E7 E8] [H1 H2]. split; [unfold get_drawing_buffer_fbo in *; by rewrite E|].
  by rewrite E6.
Qed.

Lemma batch_touches cmds p : ∀ cm w r l cm' r' l' cm'',
  good_world cm w → all_reach_ok cm → screen_ok screen cm → acc_shaped (damage cm) → clean_run cmds cm →
  run_batch (λ b, b) cmds cm = (r, l, cm') → ends_well r →
  run_batch (λ _, true) cmds cm = (r', l', cm'') → accepted w l' →
  acc_shaped (damage cm') ∧ (acc_covers (damage cm) p ∨ touches screen w l p → acc_covers (damage cm') p).
Proof.
  induction cmds as [|cmd cmds IH]; intros cm w r l cm' r' l' cm'' Hg Hr Hscr Hs Hc; cbn [run_batch].
  { intros [= <- <- <-] _ _ _. split; [done|]. by intros [?|[]]. }
  destruct Hc as [Hc Hcs]. fold (step (λ b, b) cmd) (step (λ _, true) cmd).
  destruct (step (λ _, true) cmd cm) as [[r1' l1'] cm1'] eqn:E1'.
  destruct (run_batch (λ _, true) cmds cm1') as [[r2' l2'] cm2'] eqn:E2'.
  destruct (step (λ b, b) cmd cm) as [[r1 l1] cm1] eqn:E1.
  destruct (run_batch (λ b, b) cmds cm1) as [[r2 l2] cm2] eqn:E2. intros Er Hw Er' Ha.
  assert (Ha1 : accepted w l1') by (destruct r1'; simplify_eq; try done; by apply accepted_app in Ha as [? _]).
  destruct (step_related cmd cm w Hg Hc _ _ _ E1' Ha1) as (l0 & E0 & Hel & Hg1 & _).
  rewrite E1 in E0. injection E0 as -> <- ->.
  assert (Hw1 : ends_well r1') by (destruct r1'; simplify_eq; try done; by destruct Hw).
  destruct (step_touches cmd cm w r1' l1 cm1' p Hg Hr Hscr Hs E1 Hw1) as [Hs1 Ht1].
  assert (Hrest : acc_shaped (damage cm2) ∧
    (acc_covers (damage cm1') p ∨ touches screen (play_all w l1) l2 p → acc_covers (damage cm2) p)).
  { assert (Hworld : play_all w l1' ≡ play_all w l1) by by apply elided_world.
    apply (IH cm1' (play_all w l1) r2 l2 cm2 r2' l2' cm2'); try done.
    - by eapply good_equiv.
    - pose proof (step_keeps (λ b, b) cmd (clean_framebuffer cm cmd Hc) cm Hr) as H. rewrite E1 in H. by destruct r1'.
    - apply (screen_base cm); [|done]. pose proof (step_base (λ b, b) cmd cm) as H. by rewrite E1 in H.
    - unfold handle_command in Hcs. rewrite <- (step_manager (λ b, b) cmd cm), E1 in Hcs. exact Hcs.
    - destruct r1' as [eff|e| |]; simplify_eq; try (by destruct Hw1); destruct r2 as [[]| | |]; simplify_eq; done.
    - rewrite <- Hworld. destruct r1' as [eff|e| |]; simplify_eq; try (by destruct Hw1); by apply accepted_app in Ha as [_ ?]. }
  destruct Hrest as [Hs2 Ht2].
  assert (cm' = cm2 ∧ l = l1 ++ l2) as [-> ->] by (destruct r1' as [eff|e| |]; simplify_eq; try (by destruct Hw1); done).
  split; [done|]. rewrite touches_app. intros [H|[H|H]]; apply Ht2; [left; apply Ht1; by left|left; apply Ht1; by right|by right].
Qed.
End batch.

(** * From commands to the presented region *)

(** C20: every pixel a batch can change on the screen is presented.  From a tracker in
    agreement with the contexts and with a known default framebuffer, after a batch
    of clean commands that ends without overflow, the region resolved for the
    surface exists and covers each of its pixels that was damaged before or that
    some call of the batch can change, by the driver's own viewport, scissor and
    color mask when the call is made. *)
Theorem batch_reaches_region `{Drv : !GlDriver} `{Surf : !Egl} `{!HashOrder Z, !HashOrder (Z * Z)}
    screen cmds cm w res l cm' r' l' cm'' wd ht :
  good_world cm w → all_reach_ok cm → screen_ok screen cm → acc_shaped (damage cm) → clean_run cmds cm →
  execute_gl_batch cmds cm = (Ret res, l, cm') →
  run_batch (λ _, true) cmds cm = (r', l', cm'') → accepted w l' →
  acc_i32 (damage cm') → is_u32 wd → is_u32 ht →
  ∃ region, current_damage_region (damage cm') wd ht = Ret region ∧ Present.region_ok region ∧
    ∀ p, 0 ≤ p.1 < u32_as_i32 wd → 0 ≤ p.2 < u32_as_i32 ht →
      acc_covers (damage cm) p ∨ touches screen w l p → Present.region_covers region p.
Proof.
  intros Hg Hr Hscr Hs Hc E E' Ha Hi Hwd Hht.
  assert (Hw : ends_well (Ret res : outcome ErrorCode (bool * Z))) by by split.
  assert (Hb := λ p, batch_touches screen cmds p cm w _ l cm' r' l' cm'' Hg Hr Hscr Hs Hc E Hw E' Ha).
  destruct (current_damage_region_spec (damage cm') wd ht) as (region & -> & Hok & Hp); [|done|done|].
  - apply held_iff. split; [apply (Hb (0, 0))|done].
  - exists region. split; [done|]. split; [done|]. intros p Hp1 Hp2 Hx. apply Hp; [done..|]. by apply Hb.
Qed.

Section sample.
#[local] Existing Instance sample_egl.
#[local] Existing Instance list_order.

Definition corner_draw : list GLCmd := [Viewport 1 2 2 10 10; DrawArrays 1 4 0 3].

Lemma batch_reaches_region_witness : ∃ region,
  current_damage_region (damage (execute_gl_batch corner_draw sample_manager).2) 1080 1920 = Ret region ∧
  Present.is_full_surface region = false ∧ Present.region_covers region (3, 4).
Proof.
  set (full := run_batch (λ _, true) corner_draw sample_manager).
  destruct (batch_reaches_region (Drv:=reference_driver) 3 corner_draw sample_manager sample_world (true, 0)
    [(Canvas 1, gl_viewport 2 2 10 10); (Canvas 1, gl_draw_arrays 4 0 3)] (execute_gl_batch corner_draw sample_manager).2
    full.1.1 full.1.2 full.2 1080 1920) as (region & E & _ & Hp).
  - exact sample_good.
  - split; [apply NoDup_nil_2|]. intros id. by split.
  - split; [done|]. intros f. unfold handle_in. cbn. by rewrite lookup_empty.
  - by split.
  - done.
  - by vm_compute.
  - apply run_split.
  - apply all_accepted.
  - unfold acc_i32. replace (acc_rects _) with [(2, 2, 10, 10)] by by vm_compute.
    apply Forall_singleton. repeat split; vm_compute; congruence.
  - split; vm_compute; congruence.
  - split; vm_compute; congruence.
  - exists region. split; [exact E|]. split; [vm_compute in E; by injection E as <-|].
    apply Hp; [split; vm_compute; congruence|split; vm_compute; congruence|]. right. right. left. split; [done|]. split; [done|].
    vm_compute. repeat split; congruence.
Defined.

(** ** What the damage does not follow *)

(** A framebuffer is bound, the drawing target then bound back to the screen on its
    own, and the framebuffer bound again, which the tracker skips: the driver draws
    on the screen what the handler takes for the framebuffer's. *)
Definition split_draw : list GLCmd :=
  [Viewport 1 2 2 10 10; BindFramebuffer 1 FRAMEBUFFER (Some 11); BindFramebuffer 1 DRAW_FRAMEBUFFER None;
   BindFramebuffer 1 FRAMEBUFFER (Some 11); DrawArrays 1 4 0 3].

Definition split_manager : CanvasManager := sample_manager <| framebuffers := {[11 := sample_object 110]} |>.

(** The screen changes, no damage is recorded and the batch says that nothing of it
    is visible. *)
Lemma split_target_undamaged :
  let end_ := execute_gl_batch split_draw split_manager in
  end_.1.1 = Ret (false, 0) ∧ touches (Drv:=reference_driver) 3 sample_world end_.1.2 (3, 4) ∧
  ¬ acc_covers (damage end_.2) (3, 4).
Proof.
  cbv zeta. split; [by vm_compute|]. split.
  - replace (execute_gl_batch split_draw split_manager).1.2 with
      [(Canvas 1, gl_viewport 2 2 10 10); (Canvas 1, gl_bind_framebuffer FRAMEBUFFER (Some 110));
       (Canvas 1, gl_bind_framebuffer DRAW_FRAMEBUFFER (Some 3)); (Canvas 1, gl_draw_arrays 4 0 3)] by by vm_compute.
    do 3 right. left. vm_compute. repeat split; congruence.
  - replace (damage _) with acc_new by by vm_compute. by intros [H|H%Exists_nil].
Qed.
End sample.
