(* ===== verification/ObjectLife.v ===== *)
(** The lives of GL objects and canvases ([engine/crates/graphics]: the commands of
    [renderergl/handler.rs] that create, allocate and delete objects,
    [canvas/manager/gl_object.rs], and the operations of [canvas/manager/mod.rs]
    that register and destroy canvases and tear down the share group).

    [Manager] is the rest of the canvas manager's state around [CanvasManager];
    a computation emits [Deed]s, which say what it does to the driver and in which
    context.  What the driver and EGL answer is the class [Answers].

    Left out are the parts of the manager that belong to Skia and to the image
    registry, and a shader's source. *)
From S2P Require Import Prelude Damage FrameDamage Keyed Budget Commands Shadow FrameStats StateTracker Driver Errors Handler.

Set Default Proof Using "Type".

(** * Objects *)

Inductive GlObject :=
  | Buffer (handle : Z)
  | Program (handle : Z)
  | Renderbuffer (handle : Z)
  | Sampler (handle : Z)
  | Shader (handle : Z)
  | Sync (handle : Z)
  | Texture (handle : Z)
  | Framebuffer (handle owner : Z)
  | Query (handle owner : Z)
  | TransformFeedback (handle owner : Z)
  | VertexArray (handle owner : Z).

Definition owning_context (object : GlObject) : option Z :=
  match object with
  | Buffer _ | Program _ | Renderbuffer _ | Sampler _ | Shader _ | Sync _ | Texture _ => None
  | Framebuffer _ owner | Query _ owner | TransformFeedback _ owner | VertexArray _ owner => Some owner
  end.

(** What [glGen*] and [glDelete*] distinguish. *)
Inductive Kind :=
  | KBuffer | KProgram | KRenderbuffer | KSampler | KShader | KSync | KTexture
  | KFramebuffer | KQuery | KTransformFeedback | KVertexArray.
#[global] Instance Kind_eq_dec : EqDecision Kind.
Proof. solve_decision. Defined.
Definition kind_code (k : Kind) : nat :=
  match k with
  | KBuffer => 0 | KProgram => 1 | KRenderbuffer => 2 | KSampler => 3 | KShader => 4 | KSync => 5 | KTexture => 6
  | KFramebuffer => 7 | KQuery => 8 | KTransformFeedback => 9 | KVertexArray => 10
  end.
Definition kind_of_code (n : nat) : option Kind :=
  [KBuffer; KProgram; KRenderbuffer; KSampler; KShader; KSync; KTexture; KFramebuffer; KQuery; KTransformFeedback;
   KVertexArray] !! n.
#[global] Program Instance Kind_countable : Countable Kind :=
  inj_countable kind_code kind_of_code _.
Next Obligation. by intros []. Qed.

Definition object_kind (object : GlObject) : Kind :=
  match object with
  | Buffer _ => KBuffer | Program _ => KProgram | Renderbuffer _ => KRenderbuffer | Sampler _ => KSampler
  | Shader _ => KShader | Sync _ => KSync | Texture _ => KTexture | Framebuffer _ _ => KFramebuffer
  | Query _ _ => KQuery | TransformFeedback _ _ => KTransformFeedback | VertexArray _ _ => KVertexArray
  end.
Definition object_handle (object : GlObject) : Z :=
  match object with
  | Buffer h | Program h | Renderbuffer h | Sampler h | Shader h | Sync h | Texture h => h
  | Framebuffer h _ | Query h _ | TransformFeedback h _ | VertexArray h _ => h
  end.

(** * The manager *)

Record Manager := {
  core : CanvasManager;
  shaders : gmap Z ObjectMeta;
  syncs : gmap Z ObjectMeta;
  queries : gmap Z ObjectMeta;
  transform_feedbacks : gmap Z ObjectMeta;
  pending_links : list Z;
  image_copy_fbos : gmap Z Z;
  dirty_2d : gset Z;
  needs_default_fbo_readback : bool;
  damage_history : Present.PresentDamageHistory;
  pending_present_plan : option (Z * Present.PresentDamagePlan);
  (** The process-wide counter the budget shares. *)
  usage : ProcessUsage;
  (** Questions asked of the driver, of the allocator and of EGL so far. *)
  asked : nat;
}.

#[global] Instance eta_Manager : Eta Manager := λ r, {|
  core := core r; shaders := shaders r; syncs := syncs r; queries := queries r;
  transform_feedbacks := transform_feedbacks r; pending_links := pending_links r; image_copy_fbos := image_copy_fbos r;
  dirty_2d := dirty_2d r; needs_default_fbo_readback := needs_default_fbo_readback r;
  damage_history := damage_history r; pending_present_plan := pending_present_plan r; usage := usage r;
  asked := asked r |}.

(** The answer to the [n]th question: the name [glGen*] gives, if any; whether an
    allocation is reserved; whether a pbuffer context is made. *)
Class Answers := {
  gen_name : nat → option Z;
  try_reserve : nat → bool;
  create_pbuffer_context : nat → bool;
}.

Inductive Deed :=
  | Called (e : Event)
  | Created (k : Kind) (b : BoundContext) (h : Z)
  | Deleted (k : Kind) (b : BoundContext) (h : Z)
  | Allocated (b : BoundContext) (q : AllocationRequest)
  | ContextMade (canvas : Z)
  | ContextDestroyed (canvas : Z)
  (** The resource context and every canvas's. *)
  | GroupDestroyed.

(** The table of a kind, by the client's names. *)
Definition table (k : Kind) (m : Manager) : gmap Z ObjectMeta :=
  match k with
  | KBuffer => buffers (core m) | KProgram => programs (core m) | KRenderbuffer => Handler.renderbuffers (core m)
  | KSampler => samplers (core m) | KShader => shaders m | KSync => syncs m | KTexture => Handler.textures (core m)
  | KFramebuffer => framebuffers (core m) | KQuery => queries m | KTransformFeedback => transform_feedbacks m
  | KVertexArray => vaos (core m)
  end.

Definition set_table (k : Kind) (t : gmap Z ObjectMeta) (m : Manager) : Manager :=
  match k with
  | KBuffer => m <| core := (core m) <| buffers := t |> |>
  | KProgram => m <| core := (core m) <| programs := t |> |>
  | KRenderbuffer => m <| core := (core m) <| Handler.renderbuffers := t |> |>
  | KSampler => m <| core := (core m) <| samplers := t |> |>
  | KShader => m <| shaders := t |>
  | KSync => m <| syncs := t |>
  | KTexture => m <| core := (core m) <| Handler.textures := t |> |>
  | KFramebuffer => m <| core := (core m) <| framebuffers := t |> |>
  | KQuery => m <| queries := t |>
  | KTransformFeedback => m <| transform_feedbacks := t |>
  | KVertexArray => m <| core := (core m) <| vaos := t |> |>
  end.

(** * The computations *)

Definition O (A : Type) : Type := Manager → outcome ErrorCode A * list Deed * Manager.

#[global] Instance O_ret : MRet O := λ A x m, (Ret x, [], m).
#[global] Instance O_bind : MBind O := λ A B f c m,
  match c m with
  | (Ret x, l, m) => let '(r, l', m) := f x m in (r, l ++ l', m)
  | (Fail e, l, m) => (Fail e, l, m)
  | (Panic, l, m) => (Panic, l, m)
  | (OutOfFuel, l, m) => (OutOfFuel, l, m)
  end.

Definition ofail {A} (e : ErrorCode) : O A := λ m, (Fail e, [], m).
Definition oget {A} (f : Manager → A) : O A := λ m, (Ret (f m), [], m).
Definition omodify (f : Manager → Manager) : O unit := λ m, (Ret tt, [], f m).
Definition deed (d : CanvasManager → Deed) : O unit := λ m, (Ret tt, [d (core m)], m).
Definition on_core {A} (c : M A) : O A := λ m,
  let '(r, l, cm) := c (core m) in (r, Called <$> l, m <| core := cm |>).
Definition ask {A} (f : nat → A) : O A := λ m, (Ret (f (asked m)), [], m <| asked := S (asked m) |>).

(** [let _ = c] and [c.is_ok()] *)
Definition attempt (c : O unit) : O bool := λ m,
  match c m with
  | (Ret _, l, m) => (Ret true, l, m)
  | (Fail _, l, m) => (Ret false, l, m)
  | (Panic, l, m) => (Panic, l, m)
  | (OutOfFuel, l, m) => (OutOfFuel, l, m)
  end.

Definition gpu_allocation_error (e : GpuAllocationError) : ErrorCode :=
  match e with
  | InvalidEnum | InvalidValue => InvalidArgument
  | Budget.InvalidOperation => InvalidOperation
  | Budget.OutOfMemory => OutOfMemory
  end.

(** An operation of the budget and of the process's counter. *)
Definition on_budget {A} (f : WebGlGpuBudget → ProcessUsage → res (A * (WebGlGpuBudget * ProcessUsage))) : O A := λ m,
  match f (webgl_gpu_budget (core m)) (usage m) with
  | Ret (a, (b, u)) => (Ret a, [], m <| core := (core m) <| webgl_gpu_budget := b |> |> <| usage := u |>)
  | Fail e => (Fail (gpu_allocation_error e), [], m)
  | Panic => (Panic, [], m)
  | OutOfFuel => (OutOfFuel, [], m)
  end.

(** * Commands *)

Section lifecycle.
Context `{Surf : !Egl} `{Ans : !Answers} `{HO : !HashOrder Z}.

Definition current_canvas_id (cm : CanvasManager) : option Z :=
  match bound cm with Canvas id | Shared2D id => Some id | Resource => None end.

Definition gl_create (k : Kind) : O (option Z) :=
  name ← ask gen_name;
  match name with
  | Some h => deed (λ cm, Created k (bound cm) h);; mret (Some h)
  | None => mret None
  end.

Definition gl_delete (k : Kind) (h : Z) : O unit := deed (λ cm, Deleted k (bound cm) h).

Definition delete_gl_object (object : GlObject) : O unit :=
  match owning_context object with
  | Some owner =>
      present ← oget (λ m, canvases (core m) !! owner);
      match present with
      | Some _ => on_core (make_current_needed owner);; gl_delete (object_kind object) (object_handle object)
      | None => mret tt
      end
  | None => on_core ensure_any_canvas_current;; gl_delete (object_kind object) (object_handle object)
  end.

Definition insert_object (k : Kind) (id : Z) (meta : ObjectMeta) : O unit :=
  omodify (λ m, set_table k (<[id := meta]> (table k m)) m).

(** [HashMap::remove] *)
Definition remove_object (k : Kind) (id : Z) : O (option ObjectMeta) :=
  meta ← oget (λ m, table k m !! id);
  omodify (λ m, set_table k (delete id (table k m)) m);;
  mret meta.

(** [take_for_delete] of the container kinds: the handle and the owner. *)
Definition take_for_delete (k : Kind) (id : Z) : O (option (Z * Z)) :=
  meta ← oget (λ m, table k m !! id);
  match meta with
  | Some {| gl_handle := Some h; owner_canvas := owner |} =>
      insert_object k id {| gl_handle := None; owner_canvas := owner; deleted := true |};;
      mret (Some (h, default 0 owner))
  | _ => mret None
  end.

(** What is done with samplers and fences, which are marked even without a handle. *)
Definition take_handle (k : Kind) (id : Z) : O (option Z) :=
  meta ← oget (λ m, table k m !! id);
  match meta with
  | Some meta =>
      insert_object k id {| gl_handle := None; owner_canvas := owner_canvas meta; deleted := true |};;
      mret (gl_handle meta)
  | None => mret None
  end.

Definition delete_if {A} (mk : A → GlObject) (found : option A) : O unit :=
  match found with Some x => delete_gl_object (mk x) | None => mret tt end.

Definition sweep_states (f : CanvasGLState → CanvasGLState) : O unit :=
  omodify (λ m, m <| core := (core m) <| gl_state := values_map f (gl_state (core m)) |> |>).

(** ** Creation *)

(** Programs, shaders and buffers: no entry when the driver gives no name. *)
Definition create_named (k : Kind) (canvas client : Z) : O DamageEffect :=
  on_core (make_current_needed canvas);;
  owner ← oget (λ m, current_canvas_id (core m));
  name ← gl_create k;
  match name with
  | Some h => insert_object k client {| gl_handle := Some h; owner_canvas := owner; deleted := false |}
  | None => mret tt
  end;;
  mret NoDamage.

Definition create_framebuffer (canvas client : Z) : O DamageEffect :=
  on_core (make_current_needed canvas);;
  name ← gl_create KFramebuffer;
  match name with
  | Some h => insert_object KFramebuffer client {| gl_handle := Some h; owner_canvas := Some canvas; deleted := false |}
  | None => mret tt
  end;;
  mret NoDamage.

(** Vertex arrays, samplers, fences, queries, transform feedbacks: an entry always. *)
Definition create_slot (k : Kind) (canvas client : Z) : O DamageEffect :=
  on_core (make_current_needed canvas);;
  name ← gl_create k;
  insert_object k client {| gl_handle := name; owner_canvas := Some canvas; deleted := false |};;
  mret NoDamage.

(** Textures and renderbuffers: the budget opens an account, or the name goes back. *)
Definition create_budgeted (k : Kind) (open : bool → Z → Z → WebGlGpuBudget → res WebGlGpuBudget) (canvas client : Z) :
    O DamageEffect :=
  on_core (make_current_needed canvas);;
  owner ← oget (λ m, current_canvas_id (core m));
  name ← gl_create k;
  match name with
  | Some h =>
      match owner with
      | None => ofail InvalidOperation
      | Some owner =>
          reserved ← ask try_reserve;
          b ← oget (λ m, webgl_gpu_budget (core m));
          match open reserved owner client b with
          | Ret b =>
              omodify (λ m, m <| core := (core m) <| webgl_gpu_budget := b |> |>);;
              insert_object k client {| gl_handle := Some h; owner_canvas := Some owner; deleted := false |}
          | Fail e => gl_delete k h;; ofail (gpu_allocation_error e)
          | Panic => λ m, (Panic, [], m)
          | OutOfFuel => λ m, (OutOfFuel, [], m)
          end
      end
  | None => mret tt
  end;;
  mret NoDamage.

(** ** Deletion *)

Definition forget_pending_link (program : Z) : O unit :=
  omodify (λ m, m <| pending_links := filter (λ id, id ≠ program) (pending_links m) |>).

Definition delete_program (program : Z) : O DamageEffect :=
  forget_pending_link program;;
  meta ← remove_object KProgram program;
  match meta with
  | Some meta =>
      sweep_states (forget_deleted_program program);;
      delete_if Program (gl_handle meta)
  | None => mret tt
  end;;
  mret NoDamage.

(** Shaders and buffers. *)
Definition delete_named (k : Kind) (mk : Z → GlObject) (id : Z) : O DamageEffect :=
  meta ← remove_object k id;
  match meta with Some meta => delete_if mk (gl_handle meta) | None => mret tt end;;
  mret NoDamage.

Definition delete_texture (texture : Z) : O DamageEffect :=
  meta ← remove_object KTexture texture;
  match meta with
  | Some meta =>
      sweep_states (λ s, s <| bound_texture_2d := forget_texture texture (bound_texture_2d s) |>);;
      delete_if Texture (gl_handle meta);;
      on_budget (Budget.delete_texture texture);;
      mret tt
  | None => mret tt
  end;;
  mret NoDamage.

Definition delete_renderbuffer (rb : Z) : O DamageEffect :=
  meta ← remove_object KRenderbuffer rb;
  match meta with
  | Some meta =>
      delete_if Renderbuffer (gl_handle meta);;
      on_budget (Budget.delete_renderbuffer rb);;
      mret tt
  | None => mret tt
  end;;
  mret NoDamage.

Definition delete_framebuffer (framebuffer : Z) : O DamageEffect :=
  taken ← take_for_delete KFramebuffer framebuffer;
  remove_object KFramebuffer framebuffer;;
  delete_if (λ '(h, owner), Framebuffer h owner) taken;;
  mret NoDamage.

Definition delete_vertex_array (vao : Z) : O DamageEffect :=
  taken ← take_for_delete KVertexArray vao;
  sweep_states (λ s, s <| vertex_attribs := forget_vao vao (vertex_attribs s) |>);;
  delete_if (λ '(h, owner), VertexArray h owner) taken;;
  mret NoDamage.

(** Queries and transform feedbacks; samplers and fences. *)
Definition delete_owned (k : Kind) (mk : Z → Z → GlObject) (id : Z) : O DamageEffect :=
  taken ← take_for_delete k id;
  delete_if (λ '(h, owner), mk h owner) taken;;
  mret NoDamage.
Definition delete_shared (k : Kind) (mk : Z → GlObject) (id : Z) : O DamageEffect :=
  taken ← take_handle k id;
  delete_if mk taken;;
  mret NoDamage.

(** ** Storage *)

Definition allocate (canvas : Z) (q : bool → AllocationRequest) : O DamageEffect :=
  on_core (make_current_needed canvas);;
  reserved ← ask try_reserve;
  prepared ← on_budget (λ b u, '(p, u) ← prepare (q reserved) b u; Ret (p, (b, u)));
  deed (λ cm, Allocated (bound cm) (q reserved));;
  on_budget (λ b u, bu ← commit prepared b u; Ret (tt, bu));;
  mret NoDamage.

Inductive ShaderType := Vertex | Fragment.

(** Commands that [Commands.GLCmd] does not have, as they come from no record.  The
    pixels of [TexImage3D] change no object's account and are left out. *)
Inductive ObjectCmd :=
  | CreateProgram (canvas_id client_id : Z)
  | DeleteProgram (program_id : Z)
  | CreateShader (canvas_id client_id : Z) (shader_type : ShaderType)
  | DeleteShader (shader_id : Z)
  | CreateBuffer (canvas_id client_id : Z)
  | DeleteBuffer (buffer_id : Z)
  | CreateTexture (canvas_id client_id : Z)
  | DeleteTexture (texture_id : Z)
  | CreateFramebuffer (canvas_id client_id : Z)
  | DeleteFramebuffer (framebuffer_id : Z)
  | CreateRenderbuffer (canvas_id client_id : Z)
  | DeleteRenderbuffer (renderbuffer_id : Z)
  | CreateVertexArray (canvas_id client_id : Z)
  | DeleteVertexArray (vao : Z)
  | CreateSampler (canvas_id client_id : Z)
  | DeleteSampler (sampler : Z)
  | FenceSync (canvas_id client_id condition flags : Z)
  | DeleteSync (sync : Z)
  | CreateQuery (canvas_id client_id : Z)
  | DeleteQuery (query : Z)
  | CreateTransformFeedback (canvas_id client_id : Z)
  | DeleteTransformFeedback (tf : Z)
  | TexStorage2D (canvas_id target levels internal_format width height : Z)
  | TexStorage3D (canvas_id target levels internal_format width height depth : Z)
  | TexImage3D (canvas_id target level internal_format width height depth border format ty : Z)
  | RenderbufferStorageCmd (canvas_id target internalformat width height : Z)
  | RenderbufferStorageMultisample (canvas_id target samples internal_format width height : Z).

Definition handle_object (cmd : ObjectCmd) : O DamageEffect :=
  match cmd with
  | CreateProgram canvas id => create_named KProgram canvas id
  | DeleteProgram id => delete_program id
  | CreateShader canvas id _ => create_named KShader canvas id
  | DeleteShader id => delete_named KShader Shader id
  | CreateBuffer canvas id => create_named KBuffer canvas id
  | DeleteBuffer id => delete_named KBuffer Buffer id
  | CreateTexture canvas id => create_budgeted KTexture Budget.create_texture canvas id
  | DeleteTexture id => delete_texture id
  | CreateFramebuffer canvas id => create_framebuffer canvas id
  | DeleteFramebuffer id => delete_framebuffer id
  | CreateRenderbuffer canvas id => create_budgeted KRenderbuffer Budget.create_renderbuffer canvas id
  | DeleteRenderbuffer id => delete_renderbuffer id
  | CreateVertexArray canvas id => create_slot KVertexArray canvas id
  | DeleteVertexArray id => delete_vertex_array id
  | CreateSampler canvas id => create_slot KSampler canvas id
  | DeleteSampler id => delete_shared KSampler Sampler id
  | FenceSync canvas id _ _ => create_slot KSync canvas id
  | DeleteSync id => delete_shared KSync Sync id
  | CreateQuery canvas id => create_slot KQuery canvas id
  | DeleteQuery id => delete_owned KQuery Query id
  | CreateTransformFeedback canvas id => create_slot KTransformFeedback canvas id
  | DeleteTransformFeedback id => delete_owned KTransformFeedback TransformFeedback id
  | TexStorage2D c t l i w h => allocate c (λ _, TexStorage2d c t l i w h)
  | TexStorage3D c t l i w h d => allocate c (λ _, TexStorage3d c t l i w h d)
  | TexImage3D c t l i w h d bd f ty => allocate c (λ reserved, TexImage3d reserved c t l i w h d bd f ty)
  | RenderbufferStorageCmd c t i w h => allocate c (λ _, RenderbufferStorage c t i w h 1)
  | RenderbufferStorageMultisample c t s i w h => allocate c (λ _, RenderbufferStorage c t i w h s)
  end.

(** * Canvases *)

(** ** The bypass of the drawing buffer *)

Definition can_bypass_drawing_buffer (canvas_count : Z)
    (needs_default_fbo_readback onscreen_has_2d_context onscreen_db_matches_surface : bool) : bool :=
  (canvas_count =? 1) && negb needs_default_fbo_readback && negb onscreen_has_2d_context && onscreen_db_matches_surface.

Inductive BypassRebind := Nothing | DefaultFramebuffer (f : option Z).

Definition plan_bypass_rebind (mode_changed onscreen_context_is_current draws_to_default : bool)
    (default_framebuffer : option Z) : BypassRebind :=
  if mode_changed && onscreen_context_is_current && draws_to_default then DefaultFramebuffer default_framebuffer
  else Nothing.

(** [self.damage.add(FullSurface)] *)
Definition full_damage (acc : FrameDamageAccumulator) : FrameDamageAccumulator :=
  match acc_add FullSurface acc with Ret acc => acc | _ => acc end.

(** A new presentation mode starts at a full frame. *)
Definition new_presentation (m : Manager) : Manager :=
  m <| damage_history := Present.history_clear (damage_history m) |>
    <| pending_present_plan := None |>
    <| core := (core m) <| damage := full_damage (damage (core m)) |> |>.

Definition db_matches_surface (entry : CanvasEntry) : bool :=
  match drawing_buffer entry with
  | Some db => (db_width db =? physical_width entry) && (db_height db =? physical_height entry)
  | None => false
  end.

Definition evaluate_bypass : O unit := λ m,
  let cm := core m in
  let matches := match canvases cm !! ONSCREEN with Some e => db_matches_surface e | None => false end in
  let can_bypass := can_bypass_drawing_buffer (Z.of_nat (size (canvases cm))) (needs_default_fbo_readback m)
    (contains_key (contexts_2d cm) ONSCREEN) matches in
  let '(mode_changed, m) :=
    match canvases cm !! ONSCREEN with
    | Some entry =>
        if eqb (bypass_drawing_buffer entry) can_bypass then (false, m) else
        (true, new_presentation (m <| core := cm <| canvases :=
          <[ONSCREEN := entry <| bypass_drawing_buffer := can_bypass |>]> (canvases cm) |> |>))
    | None => (false, m)
    end in
  let draws := match get (gl_state (core m)) ONSCREEN with Some s => draws_to_default_fbo s | None => true end in
  match plan_bypass_rebind mode_changed (bool_decide (bound (core m) = Canvas ONSCREEN)) draws
      (get_drawing_buffer_fbo (core m) ONSCREEN) with
  | DefaultFramebuffer f => (Ret tt, [Called (bound (core m), gl_bind_framebuffer FRAMEBUFFER f)], m)
  | Nothing => (Ret tt, [], m)
  end.

(** After the blit of a present. *)
Definition bind_default_framebuffer (id : Z) : O unit :=
  target ← oget (λ m, get_drawing_buffer_fbo (core m) id);
  match target with
  | None => mret tt
  | Some target =>
      on_core (gl_call (gl_bind_framebuffer FRAMEBUFFER (Some target)));;
      on_core (on_state id (λ s, (tt, record_default_framebuffer_bind s)))
  end.

(** ** Canvases come and go *)

Definition MAX_CANVAS_DIMENSION : Z := 8192.
Definition MAX_IMAGE_PIXELS : Z := 8192 * 8192.

Definition checked_canvas_pixel_count (width height : Z) : option Z :=
  if (MAX_CANVAS_DIMENSION <? width) || (MAX_CANVAS_DIMENSION <? height) then None else
  pixels ← u64_checked_mul width height;
  if pixels <=? MAX_IMAGE_PIXELS then Some pixels else None.

Definition register_offscreen (id w h : Z) : O unit :=
  match checked_canvas_pixel_count w h with
  | None => ofail InvalidArgument
  | Some _ =>
      present ← oget (λ m, canvases (core m) !! id);
      match present with
      | Some _ => mret tt
      | None =>
          made ← ask create_pbuffer_context;
          if (made : bool) then
            deed (λ _, ContextMade id);;
            omodify (λ m, m <| core := (core m) <| canvases := <[id := {|
              physical_width := w; physical_height := h; is_pbuffer := true;
              drawing_buffer := None; bypass_drawing_buffer := false |}]> (canvases (core m)) |> |>);;
            evaluate_bypass
          else ofail RenderBackendError
      end
  end.

Definition restore_bound (saved : BoundContext) : O unit :=
  match saved with
  | Resource => on_core bind_resource
  | Shared2D id => on_core (bind_shared_2d_context id)
  | Canvas id =>
      present ← oget (λ m, canvases (core m) !! id);
      match present with
      | Some _ => on_core (make_current_needed id)
      | None => on_core bind_resource
      end
  end.

(** The keys of a table, in the order it gives them. *)
Fixpoint keys_from {V} (fuel : nat) (t : gmap Z V) : list Z :=
  match fuel with
  | 0%nat => []
  | S fuel => match first_key t with Some k => k :: keys_from fuel (delete k t) | None => [] end
  end.
Definition keys {V} (t : gmap Z V) : list Z := keys_from (size t) t.

Definition owned_by (canvas : Z) (t : gmap Z ObjectMeta) : list Z :=
  keys (filter (λ kv : Z * ObjectMeta, owner_canvas kv.2 = Some canvas) t).

(** The objects of a destroyed canvas, deleted in whatever context is current. *)
Fixpoint delete_swept (k : Kind) (account : Z → WebGlGpuBudget → ProcessUsage → res (Z * (WebGlGpuBudget * ProcessUsage)))
    (ids : list Z) : O unit :=
  match ids with
  | [] => mret tt
  | id :: ids =>
      meta ← remove_object k id;
      match meta ≫= gl_handle with Some h => gl_delete k h | None => mret tt end;;
      on_budget (account id);;
      delete_swept k account ids
  end.

(** [destroy_canvas] up to the loss of the context: what was bound before. *)
Definition destroy_context (id : Z) : O BoundContext :=
  omodify (λ m, m <| core := (core m) <| canvases := delete id (canvases (core m)) |> |>);;
  saved ← oget (λ m, bound (core m));
  current ← attempt (on_core (make_current (Canvas id)));
  omodify (λ m, m <| core := (core m) <| contexts_2d := (keyed_remove (contexts_2d (core m)) id).2 |> |>);;
  (if (current : bool) then attempt (on_core bind_resource);; mret tt else mret tt);;
  deed (λ _, ContextDestroyed id);;
  mret saved.

(** The framebuffer of image copies, deleted in whatever context is current. *)
Definition drop_copy_fbo (id : Z) : O unit :=
  fbo ← oget (λ m, image_copy_fbos m !! id);
  omodify (λ m, m <| image_copy_fbos := delete id (image_copy_fbos m) |>);;
  match fbo with Some h => gl_delete KFramebuffer h | None => mret tt end.

Definition destroy_canvas (id : Z) : O unit :=
  if id =? ONSCREEN then ofail InvalidArgument else
  entry ← oget (λ m, canvases (core m) !! id);
  match entry with
  | None => mret tt
  | Some _ =>
      saved ← destroy_context id;
      omodify (λ m, m <| dirty_2d := dirty_2d m ∖ {[id]} |>
                      <| core := (core m) <| gl_state := (keyed_remove (gl_state (core m)) id).2 |> |>);;
      texture_ids ← oget (λ m, owned_by id (table KTexture m));
      delete_swept KTexture Budget.delete_texture texture_ids;;
      renderbuffer_ids ← oget (λ m, owned_by id (table KRenderbuffer m));
      delete_swept KRenderbuffer Budget.delete_renderbuffer renderbuffer_ids;;
      on_budget (release_context id);;
      drop_copy_fbo id;;
      attempt (restore_bound saved);;
      mret tt
  end;;
  evaluate_bypass.

(** In the context that is current. *)
Definition ensure_image_copy_fbo (canvas : Z) : O Z :=
  known ← oget (λ m, image_copy_fbos m !! canvas);
  match known with
  | Some fbo => mret fbo
  | None =>
      name ← gl_create KFramebuffer;
      match name with
      | Some fbo => omodify (λ m, m <| image_copy_fbos := <[canvas := fbo]> (image_copy_fbos m) |>);; mret fbo
      | None => ofail Internal
      end
  end.

(** How a copy of an image begins. *)
Definition begin_image_copy (canvas : Z) : O Z :=
  on_core (make_current_needed canvas);;
  ensure_image_copy_fbo canvas.

(** The copy reads from its own framebuffer, which the shadow is told by its native
    name, and puts back what the shadow had, which it takes for a native name. *)
Definition borrow_read_framebuffer (canvas copy_fbo : Z) : M (option Z) :=
  prev ← gets (λ cm, s ← get (gl_state cm) canvas; mjoin (fb_get READ_FRAMEBUFFER (bound_framebuffer s)));
  guarded (λ b, b) canvas (update_bind_framebuffer READ_FRAMEBUFFER (Some copy_fbo))
    (gl_bind_framebuffer READ_FRAMEBUFFER (Some copy_fbo));;
  mret prev.
Definition return_read_framebuffer (canvas : Z) (prev : option Z) : M unit :=
  guarded (λ b, b) canvas (update_bind_framebuffer READ_FRAMEBUFFER prev) (gl_bind_framebuffer READ_FRAMEBUFFER prev).

(** What the loss of the GPU leaves of the manager; nothing is deleted by name. *)
Definition tear_down_share_group : O unit :=
  omodify (λ m, m <| core := (core m) <| contexts_2d := (keyed_drain (contexts_2d (core m))).2 |> <| canvases := ∅ |> |>
                  <| dirty_2d := ∅ |>);;
  deed (λ _, GroupDestroyed);;
  omodify (λ m, m <| core := (core m) <| programs := ∅ |> <| buffers := ∅ |> <| Handler.textures := ∅ |>
                                      <| framebuffers := ∅ |> <| Handler.renderbuffers := ∅ |> |>
                  <| shaders := ∅ |>);;
  on_budget budget_clear;;
  omodify (λ m, m <| core := (core m) <| vaos := ∅ |> <| gl_state := keyed_clear (gl_state (core m)) |> |>
                  <| queries := ∅ |> <| transform_feedbacks := ∅ |> <| image_copy_fbos := ∅ |>
                  <| damage_history := Present.history_clear (damage_history m) |> <| pending_present_plan := None |>).
End lifecycle.
