(* ===== verification/Accounts.v ===== *)
(** Every object the driver holds has one entry ([engine/crates/graphics],
    [renderergl/handler.rs], [canvas/manager/mod.rs], [canvas/manager/gl_object.rs]).

    [alive] plays the deeds of a run on the set of objects the driver holds, by
    kind, space of names and name; [accounted] says that the slots of the manager
    are in bijection with them.  Commands and the coming and going of canvases keep
    it, and keep the budget's objects the tables' ([objects_accounted]). *)
From S2P Require Import Prelude Damage FrameDamage Keyed Budget Commands Shadow FrameStats StateTracker Driver Errors Handler Dedup Invisible Reach FrameReach ObjectLife.

Set Default Proof Using "Type".

(** * The objects of the driver *)

#[global] Program Instance BoundContext_countable : Countable BoundContext :=
  inj_countable (λ b, match b with Resource => None | Canvas id => Some (false, id) | Shared2D id => Some (true, id) end)
    (λ x, Some (match x with None => Resource | Some (false, id) => Canvas id | Some (true, id) => Shared2D id end)) _.
Next Obligation. by intros []. Qed.

(** Names of these kinds are the share group's; of the others, their context's. *)
Definition shared (k : Kind) : bool :=
  match k with KFramebuffer | KQuery | KTransformFeedback | KVertexArray => false | _ => true end.

(** A kind, the context whose names they are when it has its own, and a name. *)
Abbreviation Obj := (Kind * option BoundContext * Z)%type.

(** The canvases the shared 2D context serves share its names. *)
Definition context_of (b : BoundContext) : BoundContext :=
  match b with Shared2D _ => Shared2D 0 | _ => b end.
Definition space (k : Kind) (b : BoundContext) : option BoundContext := if shared k then None else Some (context_of b).

Definition alive (live : gset Obj) (d : Deed) : gset Obj :=
  match d with
  | Created k b h => {[(k, space k b, h)]} ∪ live
  | Deleted k b h => live ∖ {[(k, space k b, h)]}
  | ContextDestroyed id => filter (λ o : Obj, o.1.2 ≠ Some (Canvas id)) live
  | GroupDestroyed => ∅
  | Called _ | Allocated _ _ | ContextMade _ => live
  end.
Definition alive_all (live : gset Obj) (l : list Deed) : gset Obj := foldl alive live l.

(** [glGen*] gives names not in use. *)
Definition fresh (live : gset Obj) (d : Deed) : Prop :=
  match d with Created k b h => (k, space k b, h) ∉ live | _ => True end.
Fixpoint fresh_all (live : gset Obj) (l : list Deed) : Prop :=
  match l with [] => True | d :: l => fresh live d ∧ fresh_all (alive live d) l end.

Lemma alive_app live l l' : alive_all live (l ++ l') = alive_all (alive_all live l) l'.
Proof. apply foldl_app. Qed.
Lemma fresh_app live l l' : fresh_all live (l ++ l') ↔ fresh_all live l ∧ fresh_all (alive_all live l) l'.
Proof. revert live. induction l as [|d l IH]; intros live; cbn; [tauto|]. rewrite IH. tauto. Qed.

Lemma alive_called live l : alive_all live (Called <$> l) = live.
Proof. by induction l. Qed.

(** * The slots of the manager *)

Inductive ObjSlot := InTable (k : Kind) (id : Z) | CopyFbo (canvas : Z).
#[global] Instance ObjSlot_eq_dec : EqDecision ObjSlot.
Proof. solve_decision. Defined.

(** Where the entry's name is: a container of a canvas that is gone is nowhere. *)
Definition placed (cs : gset Z) (k : Kind) (meta : ObjectMeta) : option (option BoundContext) :=
  if shared k then Some None else
  owner ← owner_canvas meta;
  if bool_decide (owner ∈ cs) then Some (Some (Canvas owner)) else None.

Definition meta_obj (cs : gset Z) (k : Kind) (meta : ObjectMeta) : option Obj :=
  h ← gl_handle meta; sp ← placed cs k meta; Some (k, sp, h).
Definition copy_obj (cs : gset Z) (canvas fbo : Z) : option Obj :=
  if bool_decide (canvas ∈ cs) then Some (KFramebuffer, Some (Canvas canvas), fbo) else None.

Definition living (m : Manager) : gset Z := dom (canvases (core m)).
Lemma living_entry m c : c ∈ living m ↔ is_Some (canvases (core m) !! c).
Proof. apply elem_of_dom. Qed.

Definition slot_obj (m : Manager) (s : ObjSlot) : option Obj :=
  match s with
  | InTable k id => meta ← table k m !! id; meta_obj (living m) k meta
  | CopyFbo c => fbo ← image_copy_fbos m !! c; copy_obj (living m) c fbo
  end.

Definition accounted (live : gset Obj) (m : Manager) : Prop :=
  (∀ o, o ∈ live ↔ ∃ s, slot_obj m s = Some o) ∧
  (∀ s s' o, slot_obj m s = Some o → slot_obj m s' = Some o → s = s').

Lemma accounted_same live m m' : (∀ s, slot_obj m' s = slot_obj m s) → accounted live m → accounted live m'.
Proof. intros E [H1 H2]. split; [intros o; rewrite H1; by setoid_rewrite E|]. intros s s' o. rewrite !E. apply H2. Qed.

Lemma accounted_put live m m' s o :
  accounted live m → o ∉ live → slot_obj m s = None →
  (∀ s', slot_obj m' s' = if decide (s' = s) then Some o else slot_obj m s') → accounted ({[o]} ∪ live) m'.
Proof.
  intros [H1 H2] Ho Hs E. split.
  - intros o'. rewrite elem_of_union, elem_of_singleton, H1. setoid_rewrite E. split.
    + intros [->|[s' Hs']]; [exists s; by rewrite decide_True|]. exists s'. rewrite decide_False; [done|congruence].
    + intros [s' Hs']. destruct (decide (s' = s)); [left; congruence|right; by exists s'].
  - intros s1 s2 o'. rewrite !E. destruct (decide (s1 = s)) as [->|], (decide (s2 = s)) as [->|]; try done.
    + intros [= <-] Hx. destruct Ho. apply H1. by exists s2.
    + intros Hx [= <-]. destruct Ho. apply H1. by exists s1.
    + apply H2.
Qed.

Lemma accounted_take live m m' s o :
  accounted live m → slot_obj m s = Some o →
  (∀ s', slot_obj m' s' = if decide (s' = s) then None else slot_obj m s') → accounted (live ∖ {[o]}) m'.
Proof.
  intros [H1 H2] Hs E. split.
  - intros o'. rewrite elem_of_difference, elem_of_singleton, H1. setoid_rewrite E. split.
    + intros [[s' Hs'] Ho]. exists s'. rewrite decide_False; [done|congruence].
    + intros [s' Hs']. destruct (decide (s' = s)); [done|]. split; [by exists s'|]. intros ->. by apply n, (H2 _ _ o).
  - intros s1 s2 o'. rewrite !E. destruct (decide (s1 = s)), (decide (s2 = s)); try done. apply H2.
Qed.

(** The canvas's context is gone, and its containers with it. *)
Lemma accounted_leave live m m' c :
  accounted live m →
  (∀ s, slot_obj m' s = o ← slot_obj m s; if decide (o.1.2 = Some (Canvas c)) then None else Some o) →
  accounted (filter (λ o : Obj, o.1.2 ≠ Some (Canvas c)) live) m'.
Proof.
  intros [H1 H2] E. split.
  - intros o. rewrite elem_of_filter, H1. setoid_rewrite E. split.
    + intros [Ho [s Hs]]. exists s. rewrite Hs. cbn. by rewrite decide_False.
    + intros [s Hs]. destruct (slot_obj m s) as [o'|] eqn:Es; [|done]. cbn in Hs. case_decide; [done|].
      assert (o' = o) as -> by congruence. split; [done|]. by exists s.
  - intros s s' o. rewrite !E. destruct (slot_obj m s) as [o1|] eqn:E1; [|done].
    destruct (slot_obj m s') as [o2|] eqn:E2; [|done]. cbn. do 2 (case_decide; [done|]). intros [= ->] [= ->]. by eapply H2.
Qed.

(** * The invariant *)

(** The owner the budget has for an object of a kind it charges. *)
Definition budgeted (k : Kind) : bool := match k with KTexture | KRenderbuffer => true | _ => false end.
Definition charged_to (k : Kind) (b : WebGlGpuBudget) (id : Z) : option Z :=
  match k with
  | KTexture => tex_owner <$> Budget.textures b !! id
  | KRenderbuffer => rb_owner <$> Budget.renderbuffers b !! id
  | _ => None
  end.

(** Between the steps of an operation: [X] is alive without a slot, and [y] has left
    its table with its charge still standing. *)
Record good_but (X : gset Obj) (y : option (Kind * Z)) (live : gset Obj) (m : Manager) : Prop := {
  g_sub : X ⊆ live;
  g_accounted : accounted (live ∖ X) m;
  g_unshared : shared_2d (core m) = None;
  g_bound : bound_ok (core m);
  g_budget : budget_ok (webgl_gpu_budget (core m));
  g_usage : usage_ok (usage m);
  g_covered : charged (webgl_gpu_budget (core m)) ≤ bytes (usage m);
  g_ledger k id : budgeted k = true → y ≠ Some (k, id) →
    Some <$> charged_to k (webgl_gpu_budget (core m)) id = owner_canvas <$> table k m !! id;
  g_gone k id : y = Some (k, id) → table k m !! id = None;
  g_owned k id meta : shared k = false → table k m !! id = Some meta → is_Some (owner_canvas meta);
}.
Abbreviation good := (good_but ∅ None).

(** What the invariant reads of the manager, but for what is bound. *)
Definition view (m : Manager) :=
  ((shaders m, syncs m, queries m, transform_feedbacks m, image_copy_fbos m, usage m, webgl_gpu_budget (core m)),
   (programs (core m), buffers (core m), Handler.textures (core m), framebuffers (core m), Handler.renderbuffers (core m),
    vaos (core m), samplers (core m)), shared_2d (core m), living m).

Lemma view_table m m' k : view m' = view m → table k m' = table k m.
Proof. intros [=]. by destruct k. Qed.
Lemma view_slot m m' s : view m' = view m → slot_obj m' s = slot_obj m s.
Proof.
  intros Hv. assert (El : living m' = living m) by (unfold view in Hv; congruence).
  destruct s as [k id|c]; cbn [slot_obj]; rewrite El; [by rewrite (view_table _ _ _ Hv)|].
  assert (image_copy_fbos m' = image_copy_fbos m) as -> by (unfold view in Hv; congruence). done.
Qed.

Lemma good_view X y live m m' :
  view m' = view m → bound_ok (core m') → good_but X y live m → good_but X y live m'.
Proof.
  intros Hv Hb [G1 G2 G3 G4 G5 G6 G7 G8 G9 G10].
  assert (webgl_gpu_budget (core m') = webgl_gpu_budget (core m) ∧ usage m' = usage m ∧ shared_2d (core m') = shared_2d (core m))
    as (E1 & E2 & E3) by (unfold view in Hv; split_and!; congruence).
  split; rewrite ?E1, ?E2, ?E3; try done.
  - eapply accounted_same; [|exact G2]. intros s. by apply view_slot.
  - intros k id. rewrite (view_table _ _ _ Hv). apply G8.
  - intros k id. rewrite (view_table _ _ _ Hv). apply G9.
  - intros k id meta. rewrite (view_table _ _ _ Hv). apply G10.
Qed.

(** A change of the bindings of canvases only. *)
Lemma good_quiet X y live m m' :
  view m' = view m → bound (core m') = bound (core m) → canvases (core m') = canvases (core m) →
  good_but X y live m → good_but X y live m'.
Proof.
  intros Hv Hb Hc G. apply (good_view _ _ _ m); [done| |done]. unfold bound_ok. rewrite Hb, Hc.
  assert (shared_2d (core m') = shared_2d (core m)) as -> by (unfold view in Hv; congruence). apply (g_bound _ _ _ _ G).
Qed.

(** * Computations that keep it *)

Abbreviation Assertion := (gset Obj → Manager → Prop).

(** From [P] the computation ends in [Q], or fails with the invariant in force. *)
Definition triple {A : Type} (P : Assertion) (c : O A) (Q : A → Assertion) : Prop :=
  ∀ live m r l m', P live m → c m = (r, l, m') → fresh_all live l →
    match r with
    | Ret a => Q a (alive_all live l) m'
    | Fail _ => good (alive_all live l) m'
    | Panic | OutOfFuel => False
    end.

Lemma t_bind {A B : Type} (P : Assertion) (c : O A) (Q : A → Assertion) (f : A → O B) (R : B → Assertion) :
  triple P c Q → (∀ a, triple (Q a) (f a) R) → triple P (c ≫= f) R.
Proof.
  intros Hc Hf live m r l m' HP. unfold mbind, O_bind. destruct (c m) as [[rc lc] mc] eqn:E.
  destruct rc as [a|e| |].
  - destruct (f a mc) as [[r2 l2] m2] eqn:E2. intros [= <- <- <-] [F1 F2]%fresh_app. rewrite alive_app.
    exact (Hf a _ mc r2 l2 m2 (Hc live m (Ret a) lc mc HP E F1) E2 F2).
  - intros [= <- <- <-] F. exact (Hc live m (Fail e) lc mc HP E F).
  - intros [= <- <- <-] F. exact (Hc live m Panic lc mc HP E F).
  - intros [= <- <- <-] F. exact (Hc live m OutOfFuel lc mc HP E F).
Qed.

Lemma t_pre {A : Type} (P P' : Assertion) (c : O A) (Q : A → Assertion) : (∀ live m, P live m → P' live m) → triple P' c Q → triple P c Q.
Proof. intros HP Hc live m r l m' H. eapply Hc. by apply HP. Qed.
Lemma t_post {A : Type} (P : Assertion) (c : O A) (Q Q' : A → Assertion) :
  triple P c Q → (∀ a live m, Q a live m → Q' a live m) → triple P c Q'.
Proof. intros Hc HQ live m r l m' H E F. specialize (Hc live m r l m' H E F). destruct r; auto. Qed.
(** An assertion's pure part. *)
Lemma t_pure {A : Type} (φ : Prop) (P : Assertion) (c : O A) (Q : A → Assertion) : (φ → triple P c Q) → triple (λ live m, φ ∧ P live m) c Q.
Proof. intros Hc live m r l m' [H1 H2]. by apply Hc. Qed.

Lemma t_ret {A : Type} (a : A) (Q : A → Assertion) : triple (Q a) (mret a) Q.
Proof. by intros live m r l m' H [= <- <- <-] _. Qed.
Lemma t_done {A : Type} (a : A) (P : Assertion) (Q : A → Assertion) : (∀ live m, P live m → Q a live m) → triple P (mret a) Q.
Proof. intros H live m r l m' HP [= <- <- <-] _. by apply H. Qed.
Lemma t_get {A : Type} (f : Manager → A) (P : Assertion) : triple P (oget f) (λ a live m, a = f m ∧ P live m).
Proof. by intros live m r l m' H [= <- <- <-] _. Qed.
Lemma t_ask {A : Type} (f : nat → A) (P : Assertion) : (∀ live m, P live m → P live (m <| asked := S (asked m) |>)) → triple P (ask f) (λ _, P).
Proof. intros HP live m r l m' H [= <- <- <-] _. by apply HP. Qed.
Lemma t_modify (f : Manager → Manager) (P Q : Assertion) : (∀ live m, P live m → Q live (f m)) → triple P (omodify f) (λ _, Q).
Proof. intros HP live m r l m' H [= <- <- <-] _. by apply HP. Qed.
Lemma t_deed (d : CanvasManager → Deed) (P Q : Assertion) :
  (∀ live m, P live m → fresh live (d (core m)) → Q (alive live (d (core m))) m) → triple P (deed d) (λ _, Q).
Proof. intros HP live m r l m' H [= <- <- <-] [F _]. by apply HP. Qed.
Lemma t_fail {A : Type} (e : ErrorCode) (P : Assertion) (Q : A → Assertion) : (∀ live m, P live m → good live m) → triple P (ofail e) Q.
Proof. intros HP live m r l m' H [= <- <- <-] _. by apply HP. Qed.
Lemma t_attempt (P : Assertion) (c : O unit) : triple P c (λ _, good) → triple P (attempt c) (λ _, good).
Proof.
  intros Hc live m r l m' H. unfold attempt. destruct (c m) as [[rc lc] mc] eqn:E. intros Er F.
  destruct rc; injection Er as <- <- <-; exact (Hc live m _ lc mc H E F).
Qed.
Lemma t_finish {A B : Type} (P : Assertion) (c : O A) (b : B) (Q : Assertion) : triple P c (λ _, Q) → triple P (c;; mret b) (λ _, Q).
Proof. intros H. eapply t_bind; [exact H|]. intros a. exact (t_ret b (λ _, Q)). Qed.

(** ** Tables *)

(** An entry put in a table, or taken out. *)
Definition put (k : Kind) (id : Z) (v : option ObjectMeta) (m : Manager) : Manager :=
  set_table k (partial_alter (λ _, v) id (table k m)) m.

Lemma put_table k id v m k' id' :
  table k' (put k id v m) !! id' = if decide ((k', id') = (k, id)) then v else table k' m !! id'.
Proof.
  assert (table k' (put k id v m) = if decide (k' = k) then partial_alter (λ _, v) id (table k m) else table k' m) as ->
    by (unfold put; by destruct k, k').
  destruct (decide (k' = k)) as [->|Hk]; [|by rewrite decide_False by congruence].
  destruct (decide (id' = id)) as [->|Hi]; [by rewrite lookup_partial_alter_eq, decide_True|].
  rewrite lookup_partial_alter_ne by done. by rewrite decide_False by congruence.
Qed.

Lemma put_rest k id v m :
  image_copy_fbos (put k id v m) = image_copy_fbos m ∧ living (put k id v m) = living m ∧
  usage (put k id v m) = usage m ∧ webgl_gpu_budget (core (put k id v m)) = webgl_gpu_budget (core m) ∧
  bound (core (put k id v m)) = bound (core m) ∧ shared_2d (core (put k id v m)) = shared_2d (core m) ∧
  canvases (core (put k id v m)) = canvases (core m).
Proof. by destruct k. Qed.

Lemma put_slot k id v m s :
  slot_obj (put k id v m) s =
    if decide (s = InTable k id) then meta ← v; meta_obj (living m) k meta else slot_obj m s.
Proof.
  destruct (put_rest k id v m) as (E1 & E2 & _). destruct s as [k' id'|c]; cbn [slot_obj]; rewrite E2.
  - rewrite put_table. destruct (decide ((k', id') = (k, id))) as [[= -> ->]|Hne]; [by rewrite decide_True|].
    by rewrite decide_False by congruence.
  - by rewrite E1, decide_False by done.
Qed.

(** What is left to show of a changed entry. *)
Lemma good_put X X' y y' live m k id v :
  good_but X y live m → X' ⊆ live → accounted (live ∖ X') (put k id v m) →
  (∀ k' id', y' ≠ Some (k', id') → (k', id') ≠ (k, id) → y ≠ Some (k', id')) →
  (budgeted k = true → y' ≠ Some (k, id) → Some <$> charged_to k (webgl_gpu_budget (core m)) id = owner_canvas <$> v) →
  (y' = Some (k, id) → v = None) → (∀ k' id', y' = Some (k', id') → (k', id') ≠ (k, id) → table k' m !! id' = None) →
  (shared k = false → ∀ meta, v = Some meta → is_Some (owner_canvas meta)) →
  good_but X' y' live (put k id v m).
Proof.
  intros G HX Ha Hy Hl Hg Hg' Ho. destruct (put_rest k id v m) as (E1 & E2 & E3 & E4 & E5 & E6 & E7).
  split; rewrite ?E3, ?E4; try apply G; try done.
  - rewrite E6. apply G.
  - unfold bound_ok. rewrite E5, E6, E7. apply (g_bound _ _ _ _ G).
  - intros k' id' Hk Hne. rewrite put_table. destruct (decide ((k', id') = (k, id))) as [[= -> ->]|Hn]; [by apply Hl|].
    apply G; [done|by apply Hy].
  - intros k' id' He. rewrite put_table. destruct (decide ((k', id') = (k, id))) as [[= -> ->]|Hn]; [by apply Hg|by apply Hg'].
  - intros k' id' meta Hk. rewrite put_table. destruct (decide ((k', id') = (k, id))) as [[= -> ->]|Hn]; [by apply Ho|by apply G].
Qed.

Definition optset (o : option Obj) : gset Obj := match o with Some o => {[o]} | None => ∅ end.

(** An entry loses its name, or leaves its table. *)
Lemma good_clear k id v live m :
  good live m → (∀ meta, v = Some meta → gl_handle meta = None ∧ (shared k = false → is_Some (owner_canvas meta))) →
  (budgeted k = true → v = None) →
  good_but (optset (slot_obj m (InTable k id))) (if budgeted k then Some (k, id) else None) live (put k id v m).
Proof.
  intros G Hv Hb. pose proof (g_accounted _ _ _ _ G) as Ha. rewrite difference_empty_L in Ha.
  assert (Hn : (meta ← v; meta_obj (living m) k meta) = None).
  { destruct v as [meta|]; [|done]. destruct (Hv meta eq_refl) as [Hh _]. unfold meta_obj. cbn. by rewrite Hh. }
  apply (good_put ∅ _ None); [done| | |done| | | |].
  - destruct (slot_obj m (InTable k id)) as [o|] eqn:E; cbn; [|set_solver].
    apply singleton_subseteq_l, (proj1 Ha). by exists (InTable k id).
  - destruct (slot_obj m (InTable k id)) as [o|] eqn:E; cbn [optset].
    + apply (accounted_take _ m _ (InTable k id)); [done..|]. intros s. rewrite put_slot. by rewrite Hn.
    + rewrite difference_empty_L. apply (accounted_same _ m); [|done]. intros s. rewrite put_slot, Hn. case_decide; congruence.
  - intros Hk. by rewrite Hk.
  - destruct (budgeted k); [by intros _; apply Hb|done].
  - destruct (budgeted k); [|done]. intros k' id' [= <- <-] []. done.
  - intros Hs meta Hm. destruct (Hv meta Hm) as [_ Hx]. by apply Hx.
Qed.

(** A new entry takes up a name that was alive without a slot. *)
Lemma good_fill y k id meta live m :
  y = None ∨ y = Some (k, id) →
  good_but (optset (meta_obj (living m) k meta)) y live m → table k m !! id = None →
  (budgeted k = true → charged_to k (webgl_gpu_budget (core m)) id = owner_canvas meta) →
  is_Some (owner_canvas meta) → good live (put k id (Some meta) m).
Proof.
  intros Hy G Hid Hb Ho. pose proof (g_accounted _ _ _ _ G) as Ha. pose proof (g_sub _ _ _ _ G) as Hs.
  assert (Hnone : slot_obj m (InTable k id) = None) by (cbn; by rewrite Hid).
  apply (good_put _ ∅ y None _ _ _ _ _ G); [set_solver| | | |done|done|].
  - rewrite difference_empty_L. destruct (meta_obj (living m) k meta) as [o|] eqn:E; cbn [optset] in *.
    + replace live with ({[o]} ∪ live ∖ {[o]}) by (symmetry; apply union_difference_L; done).
      apply (accounted_put _ m _ (InTable k id)); [done|set_solver|done|]. intros s. rewrite put_slot. cbn. by rewrite E.
    + rewrite difference_empty_L in Ha. apply (accounted_same _ m); [|done]. intros s. rewrite put_slot. cbn. rewrite E.
      case_decide; congruence.
  - intros k' id' _ Hne. destruct Hy as [->| ->]; [done|]. intros [= -> ->]. by destruct Hne.
  - intros Hk _. rewrite (Hb Hk). cbn. by destruct (owner_canvas meta).
  - by intros _ ? [= <-].
Qed.

(** ** The driver's answers *)

Definition stable (φ : Manager → Prop) : Prop := ∀ m m', view m' = view m → φ m → φ m'.
Lemma stable_const (φ : Prop) : stable (λ _, φ).
Proof. by intros m m'. Qed.
Lemma stable_table k id v : stable (λ m, table k m !! id = v).
Proof. intros m m' Hv. by rewrite (view_table _ _ _ Hv). Qed.
Lemma stable_and φ ψ : stable φ → stable ψ → stable (λ m, φ m ∧ ψ m).
Proof. intros H1 H2 m m' Hv [? ?]. split; [by eapply H1|by eapply H2]. Qed.
Lemma stable_living c : stable (λ m, c ∈ living m).
Proof. intros m m' Hv. by injection Hv as _ _ _ _ _ _ _ _ _ _ _ _ _ _ _ ->. Qed.
#[local] Hint Resolve stable_const stable_table stable_and stable_living : core.

(** With [φ] in force; and in the context of a canvas. *)
Definition having (φ : Manager → Prop) (X : gset Obj) (y : option (Kind * Z)) : Assertion :=
  λ live m, φ m ∧ good_but X y live m.
Definition within (c : Z) (φ : Manager → Prop) (X : gset Obj) (y : option (Kind * Z)) : Assertion :=
  λ live m, (bound (core m) = Canvas c ∧ c ∈ living m) ∧ having φ X y live m.

Lemma having_quiet φ X y live m m' :
  stable φ → view m' = view m → bound (core m') = bound (core m) → canvases (core m') = canvases (core m) →
  having φ X y live m → having φ X y live m'.
Proof. intros Hφ Hv Hb Hc [H1 H2]. split; [by eapply Hφ|by eapply good_quiet]. Qed.
Lemma within_quiet c φ X y live m m' :
  stable φ → view m' = view m → bound (core m') = bound (core m) → canvases (core m') = canvases (core m) →
  within c φ X y live m → within c φ X y live m'.
Proof.
  intros Hφ Hv Hb Hc [[H1 H2] H3]. split; [|by eapply having_quiet]. rewrite Hb. unfold living. by rewrite Hc.
Qed.
Lemma within_having c φ X y live m : within c φ X y live m → having φ X y live m.
Proof. by intros [_ ?]. Qed.
Lemma having_good live m : having (λ _, True) ∅ None live m → good live m.
Proof. by intros [_ ?]. Qed.

Section steps.
Context `{Surf : !Egl} `{Ans : !Answers} `{HO : !HashOrder Z}.
Context (Hegl : ∀ n, egl_make_current n = true).
Set Default Proof Using "Type Hegl".

Lemma current_result cm c :
  shared_2d cm = None → bound_ok cm →
  match canvases cm !! c with
  | Some _ => ∃ n, make_current_needed c cm = (Ret tt, [], cm <| bound := Canvas c |> <| egl_calls := n |>)
  | None => make_current_needed c cm = (Fail NotFound, [], cm)
  end.
Proof.
  intros Hs Hb. unfold make_current_needed. rewrite gets_bind. unfold canvas_uses_shared_2d. rewrite Hs, gets_bind.
  case_bool_decide as Hc.
  - unfold bound_ok in Hb. rewrite Hc in Hb. destruct Hb as [e ->]. exists (egl_calls cm). unfold mret, M_ret.
    f_equal. destruct cm. cbn in *. by subst.
  - rewrite gets_bind. destruct (canvases cm !! c) as [e|]; [|done]. exists (S (egl_calls cm)).
    unfold make_current, mbind, M_bind, gets, modify. by rewrite Hegl.
Qed.

Lemma on_core_view X y live m cm φ :
  stable φ → view (m <| core := cm |>) = view m → bound_ok cm → having φ X y live m → having φ X y live (m <| core := cm |>).
Proof. intros Hφ Hv Hb [H1 H2]. split; [by eapply Hφ|by eapply good_view]. Qed.

(** The context of a canvas that exists. *)
Lemma t_home c φ X y :
  stable φ → triple (having (λ m, c ∈ living m ∧ φ m) X y) (on_core (make_current_needed c)) (λ _, within c φ X y).
Proof.
  intros Hφ live m r l m' [[Hc Hm] G] E _. pose proof (current_result (core m) c (g_unshared _ _ _ _ G) (g_bound _ _ _ _ G)) as H.
  pose proof Hc as [e He]%living_entry. rewrite He in H. destruct H as [n H]. unfold on_core in E. rewrite H in E.
  injection E as <- <- <-. cbn [alive_all foldl fmap list_fmap]. split; [split; [done|exact Hc]|].
  apply on_core_view; [done|done| |by split]. unfold bound_ok. cbn. by exists e.
Qed.

Lemma t_current c φ : stable φ → triple (having φ ∅ None) (on_core (make_current_needed c)) (λ _, within c φ ∅ None).
Proof.
  intros Hφ live m r l m' [Hm G] E F. pose proof (current_result (core m) c (g_unshared _ _ _ _ G) (g_bound _ _ _ _ G)) as H.
  destruct (canvases (core m) !! c) as [e|] eqn:He.
  - eapply t_home; [done| |exact E|exact F]. split; [|done]. split; [|done]. apply living_entry. by exists e.
  - unfold on_core in E. rewrite H in E. injection E as <- <- <-. cbn. eapply good_quiet; [..|exact G]; done.
Qed.

Lemma bind_resource_result cm : bind_resource cm = (Ret tt, [], cm <| bound := Resource |> <| egl_calls := S (egl_calls cm) |>).
Proof. unfold bind_resource, make_current, mbind, M_bind, gets, modify. by rewrite Hegl. Qed.

Lemma t_resource φ X y : stable φ → triple (having φ X y) (on_core bind_resource) (λ _, having φ X y).
Proof.
  intros Hφ live m r l m' H E _. unfold on_core in E. rewrite bind_resource_result in E. injection E as <- <- <-.
  by apply on_core_view.
Qed.

(** Whatever is current, something is. *)
Lemma t_any φ X y : stable φ → triple (having φ X y) (on_core ensure_any_canvas_current) (λ _, having φ X y).
Proof.
  intros Hφ live m r l m' [Hm G] E F. unfold ensure_any_canvas_current, on_core in E. rewrite gets_bind in E.
  assert (Hid : ∀ (a : Z) cm, (mret a : M Z) cm = (Ret a, [], cm)) by done.
  assert (Hcur : ∀ c a, c ∈ living m → ∃ n, (make_current_needed c;; mret a : M Z) (core m) =
    (Ret a, [], (core m) <| bound := Canvas c |> <| egl_calls := n |>)).
  { intros c a [e He]%living_entry.
    pose proof (current_result (core m) c (g_unshared _ _ _ _ G) (g_bound _ _ _ _ G)) as H. rewrite He in H.
    destruct H as [n H]. exists n. unfold mbind, M_bind. by rewrite H. }
  assert (Hdone : ∀ c n, c ∈ living m → having φ X y live (m <| core := (core m) <| bound := Canvas c |> <| egl_calls := n |> |>)).
  { intros c n [e He]%living_entry. apply on_core_view; [done|done| |by split]. unfold bound_ok. cbn. by exists e. }
  destruct (bound (core m)) as [|id|id].
  2,3: rewrite Hid in E; injection E as <- <- <-; cbn; (apply on_core_view; [done|by destruct m|apply (g_bound _ _ _ _ G)|by split]).
  rewrite gets_bind in E. case_bool_decide as Hon.
  - apply living_entry in Hon. destruct (Hcur ONSCREEN ONSCREEN Hon) as [n Hn]. rewrite Hn in E. injection E as <- <- <-. by apply Hdone.
  - destruct (first_key (canvases (core m))) as [c|] eqn:Ef.
    + apply first_key_in, living_entry in Ef. destruct (Hcur c c Ef) as [n Hn]. rewrite Hn in E. injection E as <- <- <-. by apply Hdone.
    + unfold mbind, M_bind in E. rewrite bind_resource_result, Hid in E. injection E as <- <- <-.
      apply on_core_view; [done|done|done|by split].
Qed.

(** ** Creation *)

Lemma good_created o live m : good live m → o ∉ live → good_but {[o]} None ({[o]} ∪ live) m.
Proof.
  intros G Ho. pose proof (g_accounted _ _ _ _ G) as Ha. rewrite difference_empty_L in Ha.
  split; try apply G; [set_solver|]. replace (({[o]} ∪ live) ∖ {[o]}) with live by set_solver. done.
Qed.
Lemma good_deleted o y live m : good_but {[o]} y live m → good_but ∅ y (live ∖ {[o]}) m.
Proof. intros G. split; try apply G; [set_solver|]. rewrite difference_empty_L. apply G. Qed.

Lemma t_gl_create c φ k :
  stable φ → triple (within c φ ∅ None) (gl_create k)
    (λ name, within c φ (optset ((λ h, (k, space k (Canvas c), h)) <$> name)) None).
Proof.
  intros Hφ. eapply t_bind; [apply t_ask; intros live m; by apply within_quiet|]. intros [h|]; [|by apply t_done].
  eapply t_bind; [apply (t_deed _ _ (within c φ {[(k, space k (Canvas c), h)]} None))|intros a; by apply t_done].
  intros live m [[Hb Hc] [Hm G]] F. cbn [fresh alive] in *. rewrite Hb in *. split; [done|]. split; [done|]. by apply good_created.
Qed.

Lemma t_insert k id meta o :
  budgeted k = false → is_Some (owner_canvas meta) →
  triple (having (λ m, table k m !! id = None ∧ meta_obj (living m) k meta = o) (optset o) None)
    (insert_object k id meta) (λ _, good).
Proof.
  intros Hk Ho. apply t_modify. intros live m [[Hid <-] G]. apply (good_fill None k id meta); [by left|done..| |done]. by rewrite Hk.
Qed.

Lemma having_weaken (φ ψ : Manager → Prop) X y live m : (φ m → ψ m) → having φ X y live m → having ψ X y live m.
Proof. intros H [? ?]. split; auto. Qed.

(** An entry for the name the driver gave, if it gave one. *)
Lemma t_named c k id name owner :
  budgeted k = false → (shared k = false → owner = c) →
  triple (within c (λ m, table k m !! id = None) (optset ((λ h, (k, space k (Canvas c), h)) <$> name)) None)
    (insert_object k id {| gl_handle := name; owner_canvas := Some owner; deleted := false |}) (λ _, good).
Proof.
  intros Hk Ho. eapply t_pre; [|apply t_insert; [done|by eexists]]. intros live m [[_ Hc] [Hid G]].
  split; [|exact G]. split; [done|]. unfold meta_obj, placed, space. cbn. destruct name as [h|]; [|done]. cbn.
  destruct (shared k); [done|]. rewrite Ho by done. cbn. by rewrite bool_decide_true.
Qed.

Lemma t_create_named k canvas id :
  budgeted k = false → shared k = true →
  triple (having (λ m, table k m !! id = None) ∅ None) (create_named k canvas id) (λ _, good).
Proof.
  intros Hk Hs. eapply t_bind; [by apply t_current|]. intros ?. eapply t_bind; [apply t_get|]. intros owner.
  eapply t_bind; [|intros name; apply t_finish].
  - eapply t_pre; [|apply (t_gl_create canvas (λ m, owner = Some canvas ∧ table k m !! id = None))].
    + intros live m [-> [[Hb Hc] [H1 H2]]]. unfold current_canvas_id. rewrite Hb. by split.
    + apply (stable_and (λ _, owner = Some canvas)); auto.
  - destruct name as [h|].
    + eapply t_pre; [|apply (t_pure (owner = Some canvas)); intros ->; apply (t_named canvas); [done|congruence]].
      intros live m [H1 [[H2 H3] H4]]. split; [done|]. split; [done|]. by split.
    + apply t_done. by intros live m [_ [_ ?]].
Qed.

Lemma t_create_framebuffer canvas id :
  triple (having (λ m, table KFramebuffer m !! id = None) ∅ None) (create_framebuffer canvas id) (λ _, good).
Proof.
  eapply t_bind; [by apply t_current|]. intros ?. eapply t_bind; [by apply t_gl_create|]. intros [h|]; apply t_finish.
  - by apply (t_named canvas KFramebuffer id (Some h)).
  - apply t_done. by intros live m [_ [_ ?]].
Qed.

Lemma t_create_slot k canvas id :
  budgeted k = false → triple (having (λ m, table k m !! id = None) ∅ None) (create_slot k canvas id) (λ _, good).
Proof.
  intros Hk. eapply t_bind; [by apply t_current|]. intros ?. eapply t_bind; [by apply t_gl_create|]. intros name.
  apply t_finish. by apply t_named.
Qed.

(** ** Deletion *)

Definition object_obj (object : GlObject) : Obj :=
  (object_kind object, Canvas <$> owning_context object, object_handle object).

Lemma object_space object b :
  match owning_context object with None => True | Some c => b = Canvas c end →
  (object_kind object, space (object_kind object) b, object_handle object) = object_obj object.
Proof. destruct object; cbn; by try intros ->. Qed.

Lemma t_gl_delete φ y object :
  (∀ b, (object_kind object, space (object_kind object) b, object_handle object) = object_obj object) →
  triple (having φ {[object_obj object]} y) (gl_delete (object_kind object) (object_handle object)) (λ _, having φ ∅ y).
Proof.
  intros He. apply t_deed. intros live m [Hm G] _. split; [done|]. cbn [alive]. rewrite He. by apply good_deleted.
Qed.

(** An object of the share group, from whatever context there is. *)
Lemma t_delete_shared_object φ y object :
  stable φ → owning_context object = None →
  triple (having φ {[object_obj object]} y) (delete_gl_object object) (λ _, having φ ∅ y).
Proof.
  intros Hφ Ho. unfold delete_gl_object. rewrite Ho. eapply t_bind; [by apply t_any|]. intros ?.
  apply t_gl_delete. intros b. apply object_space. by rewrite Ho.
Qed.

(** A container: of a canvas that is gone, nothing is left to delete. *)
Lemma t_delete_container y object owner :
  owning_context object = Some owner →
  triple (λ live m, good_but (optset (if bool_decide (owner ∈ living m) then Some (object_obj object) else None)) y live m)
    (delete_gl_object object) (λ _, good_but ∅ y).
Proof.
  intros Ho. unfold delete_gl_object. rewrite Ho. eapply t_bind; [apply t_get|]. intros [entry|].
  - eapply t_bind.
    + eapply t_pre; [|apply (t_home owner (λ _, True) {[object_obj object]} y (stable_const _))].
      intros live m [He G]. assert (Hl : owner ∈ living m) by (apply living_entry; by exists entry).
      rewrite bool_decide_true in G by done. by split.
    + intros ?. apply t_deed. intros live m [[Hb _] [_ G]] _. cbn [alive]. rewrite object_space; [by apply good_deleted|].
      by rewrite Ho.
  - apply t_done. intros live m [He G]. rewrite bool_decide_false in G; [done|].
    rewrite living_entry, <- He. by intros [? ?].
Qed.

(** The handle of a container is taken out of its entry. *)
Definition taken (k : Kind) (id : Z) (r : option (Z * Z)) : Assertion := λ live m,
  good_but (optset ('(h, owner) ← r; if bool_decide (owner ∈ living m) then Some (k, Some (Canvas owner), h) else None))
    None live m ∧
  ∀ meta, table k m !! id = Some meta → gl_handle meta = None.

Lemma t_take k id : shared k = false → triple good (take_for_delete k id) (taken k id).
Proof.
  intros Hs. assert (Hk : budgeted k = false) by by destruct k. eapply t_bind; [apply t_get|]. intros meta.
  destruct meta as [[[h|] owner del]|].
  2,3: apply t_done; intros live m [E G]; split; [done|]; intros meta'; rewrite <- E; by intros [= <-].
  eapply t_bind; [apply (t_modify _ _ (taken k id (Some (h, default 0 owner))))|intros a; by apply t_done].
  intros live m [E G]. change (set_table _ _ m) with (put k id (Some {| gl_handle := None; owner_canvas := owner; deleted := true |}) m).
  destruct (g_owned _ _ _ _ G k id _ Hs (eq_sym E)) as [c Hc]. cbn in Hc. subst owner. cbn [default].
  split; [|intros meta; rewrite put_table, decide_True by done; by intros [= <-]].
  pose proof (good_clear k id (Some {| gl_handle := None; owner_canvas := Some c; deleted := true |}) live m G) as H.
  rewrite Hk in H. destruct (put_rest k id (Some {| gl_handle := None; owner_canvas := Some c; deleted := true |}) m) as (_ & E2 & _).
  cbn [mbind option_bind]. rewrite E2. replace (if bool_decide _ then _ else _) with (slot_obj m (InTable k id)); [|by cbn; rewrite <- E; cbn; unfold meta_obj, placed; cbn; rewrite Hs; case_bool_decide].
  apply H; [|done]. intros meta [= <-]. by split.
Qed.

Lemma t_delete_taken k id r (mk : Z → Z → GlObject) :
  (∀ h c, object_obj (mk h c) = (k, Some (Canvas c), h) ∧ owning_context (mk h c) = Some c) →
  triple (taken k id r) (delete_if (λ '(h, owner), mk h owner) r) (λ _, good).
Proof.
  intros Hmk. destruct r as [[h c]|]; cbn [delete_if]; [|apply t_done; by intros live m [? _]].
  destruct (Hmk h c) as [E1 E2]. eapply t_pre; [|by apply t_delete_container]. intros live m [G _]. rewrite E1. exact G.
Qed.

(** An entry without a name leaves its table. *)
Lemma t_remove_taken k id r :
  shared k = false → triple (taken k id r) (remove_object k id) (λ _, taken k id r).
Proof.
  intros Hs. assert (Hk : budgeted k = false) by by destruct k. eapply t_bind; [apply t_get|]. intros meta.
  eapply t_bind; [apply (t_modify _ _ (taken k id r))|intros a; by apply t_done].
  intros live m [_ [G Hn]]. change (set_table _ _ m) with (put k id None m).
  split; [|intros ?; by rewrite put_table, decide_True].
  destruct (put_rest k id None m) as (_ & E2 & _). rewrite E2.
  apply (good_put _ _ None None _ _ _ _ _ G); try done.
  - apply (g_sub _ _ _ _ G).
  - eapply accounted_same; [|apply (g_accounted _ _ _ _ G)]. intros s. rewrite put_slot. case_decide as Es; [|done]. subst s. cbn.
    destruct (table k m !! id) as [meta'|] eqn:E; [|done]. cbn. unfold meta_obj. by rewrite (Hn meta' eq_refl).
  - by rewrite Hk.
Qed.

Definition handle_obj (k : Kind) (h : option Z) : option Obj := (λ h, (k, None, h)) <$> h.

Lemma shared_slot k id m : shared k = true → slot_obj m (InTable k id) = handle_obj k (table k m !! id ≫= gl_handle).
Proof.
  intros Hs. cbn. destruct (table k m !! id) as [meta|]; [|done]. cbn. unfold meta_obj, placed. rewrite Hs.
  by destruct (gl_handle meta).
Qed.

Lemma t_take_handle k id :
  shared k = true → budgeted k = false →
  triple good (take_handle k id) (λ r, good_but (optset (handle_obj k r)) None).
Proof.
  intros Hs Hk. eapply t_bind; [apply t_get|]. intros [meta|]; [|apply t_done; by intros live m [_ ?]].
  eapply t_bind; [apply (t_modify _ _ (good_but (optset (handle_obj k (gl_handle meta))) None))|intros a; by apply t_done].
  intros live m [E G].
  pose proof (good_clear k id (Some {| gl_handle := None; owner_canvas := owner_canvas meta; deleted := true |}) live m G) as H.
  rewrite Hk, shared_slot, <- E in H by done. apply H; [|done]. intros ? [= <-]. split; [done|congruence].
Qed.

Lemma put_absent k id m : table k m !! id = None → view (put k id None m) = view m.
Proof.
  intros E. assert (partial_alter (λ _, None) id (table k m) = table k m) as Ht by exact (delete_id (table k m) id E).
  unfold put. rewrite Ht. by destruct k.
Qed.

Lemma t_remove k id :
  shared k = true →
  triple good (remove_object k id) (λ meta, match meta with
    | Some meta => good_but (optset (handle_obj k (gl_handle meta))) (if budgeted k then Some (k, id) else None)
    | None => good
    end).
Proof.
  intros Hs. eapply t_bind; [apply t_get|]. intros [meta|].
  - eapply t_bind; [apply (t_modify _ _ (good_but (optset (handle_obj k (gl_handle meta))) (if budgeted k then Some (k, id) else None)))|
      intros a; by apply t_done].
    intros live m [E G]. pose proof (good_clear k id None live m G) as H. rewrite shared_slot, <- E in H by done.
    apply H; [|done]. by intros ? [=].
  - eapply t_bind; [apply (t_modify _ _ good)|intros a; by apply t_done].
    intros live m [E G]. change (set_table _ _ m) with (put k id None m). destruct (put_rest k id None m) as (_ & _ & _ & _ & E5 & _ & E7).
    apply (good_quiet _ _ _ m); [by apply put_absent|done..].
Qed.

Lemma t_delete_if k y r (mk : Z → GlObject) :
  (∀ h, object_obj (mk h) = (k, None, h) ∧ owning_context (mk h) = None) →
  triple (good_but (optset (handle_obj k r)) y) (delete_if mk r) (λ _, good_but ∅ y).
Proof.
  intros Hmk. destruct r as [h|]; cbn [delete_if]; [|by apply t_done]. destruct (Hmk h) as [E1 E2].
  eapply t_pre; [|eapply t_post; [apply (t_delete_shared_object (λ _, True) y (mk h)); [done|exact E2]|]].
  - intros live m G. split; [done|]. by rewrite E1.
  - by intros a live m [_ ?].
Qed.

Lemma t_sweep X y f : triple (good_but X y) (sweep_states f) (λ _, good_but X y).
Proof. apply t_modify. intros live m. by apply good_quiet. Qed.

(** ** Charges *)

(** A deletion's account: the object is gone and its bytes are given back. *)
Definition accounts (k : Kind) (account : Z → WebGlGpuBudget → ProcessUsage → res (Z * (WebGlGpuBudget * ProcessUsage))) : Prop :=
  ∀ id b u, budget_ok b → usage_ok u → charged b ≤ bytes u →
  ∃ n b' u', account id b u = Ret (n, (b', u')) ∧ budget_ok b' ∧ usage_ok u' ∧ charged b' ≤ bytes u' ∧
    ∀ k' id', charged_to k' b' id' = if decide ((k', id') = (k, id)) then None else charged_to k' b id'.

Lemma release_bytes_objects c n b u b' u' :
  release_context_bytes c n b u = Ret (b', u') →
  Budget.textures b' = Budget.textures b ∧ Budget.renderbuffers b' = Budget.renderbuffers b.
Proof.
  unfold release_context_bytes. destruct (n =? 0); [by intros [= <- <-]|]. destruct (contexts b !! c) as [x|]; [|done].
  destruct (x <? n); [done|]. destruct (release n u); try done. cbn. by intros [= <- <-].
Qed.

Lemma delete_texture_accounts : accounts KTexture Budget.delete_texture.
Proof.
  intros id b u Hb Hu Hc. destruct (delete_texture_ok id b u Hb Hu Hc) as (n & b' & u' & E & Hb' & _ & (G1 & G2 & G3)).
  exists n, b', u'. split_and!; try done; [lia|]. intros k' id'.
  assert (Ht : Budget.textures b' = delete id (Budget.textures b) ∧ Budget.renderbuffers b' = Budget.renderbuffers b).
  { unfold Budget.delete_texture in E. destruct (Budget.textures b !! id) as [rec|] eqn:Er; [|injection E as <- <- <-; by rewrite delete_id].
    destruct (_ <? _); [done|]. destruct (release_context_bytes _ _ _ _) as [[b1 u1]|e| |] eqn:E1; try done. cbn in E.
    injection E as <- <- <-. by apply release_bytes_objects in E1. }
  destruct Ht as [Ht Hr]. destruct k'; cbn [charged_to]; try (by rewrite decide_False by congruence).
  - by rewrite Hr, decide_False by congruence.
  - rewrite Ht. destruct (decide (id' = id)) as [->|]; [by rewrite lookup_delete_eq, decide_True|].
    by rewrite lookup_delete_ne, decide_False by congruence.
Qed.

Lemma delete_renderbuffer_accounts : accounts KRenderbuffer Budget.delete_renderbuffer.
Proof.
  intros id b u Hb Hu Hc. destruct (delete_renderbuffer_ok id b u Hb Hu Hc) as (n & b' & u' & E & Hb' & _ & (G1 & G2 & G3)).
  exists n, b', u'. split_and!; try done; [lia|]. intros k' id'.
  assert (Ht : Budget.renderbuffers b' = delete id (Budget.renderbuffers b) ∧ Budget.textures b' = Budget.textures b).
  { unfold Budget.delete_renderbuffer in E. destruct (Budget.renderbuffers b !! id) as [rec|] eqn:Er; [|injection E as <- <- <-; by rewrite delete_id].
    cbv zeta in E. destruct (release_context_bytes _ _ _ _) as [[b1 u1]|e| |] eqn:E1; try done. cbn in E.
    injection E as <- <- <-. by apply release_bytes_objects in E1 as [-> ->]. }
  destruct Ht as [Ht Hr]. destruct k'; cbn [charged_to]; try (by rewrite decide_False by congruence).
  - rewrite Ht. destruct (decide (id' = id)) as [->|]; [by rewrite lookup_delete_eq, decide_True|].
    by rewrite lookup_delete_ne, decide_False by congruence.
  - by rewrite Hr, decide_False by congruence.
Qed.

(** A new budget and usage, of the same objects but for what the charges say. *)
Lemma good_rebudget X y y' live m b u :
  good_but X y live m → budget_ok b → usage_ok u → charged b ≤ bytes u →
  (∀ k id, budgeted k = true → y' ≠ Some (k, id) → Some <$> charged_to k b id = owner_canvas <$> table k m !! id) →
  (∀ k id, y' = Some (k, id) → table k m !! id = None) →
  good_but X y' live (m <| core := (core m) <| webgl_gpu_budget := b |> |> <| usage := u |>).
Proof.
  intros [G1 G2 G3 G4 G5 G6 G7 G8 G9 G10] Hb Hu Hc Hl Hg.
  by split.
Qed.

Lemma t_account k account id :
  budgeted k = true → accounts k account → triple (good_but ∅ (Some (k, id))) (on_budget (account id)) (λ _, good).
Proof.
  intros Hk Ha live m r l m' G E _. unfold on_budget in E.
  destruct (Ha id _ _ (g_budget _ _ _ _ G) (g_usage _ _ _ _ G) (g_covered _ _ _ _ G)) as (n & b' & u' & E1 & Hb & Hu & Hc & Hl).
  rewrite E1 in E. injection E as <- <- <-. cbn [alive_all foldl].
  eapply good_rebudget; [exact G|done..| |done]. intros k' id' Hk' _. rewrite Hl. case_decide as Hd.
  - injection Hd as -> ->. by rewrite (g_gone _ _ _ _ G k id eq_refl).
  - apply (g_ledger _ _ _ _ G); [done|congruence].
Qed.

(** An operation that leaves the objects of the budget their owners. *)
Lemma t_budget {A} (f : WebGlGpuBudget → ProcessUsage → res (A * (WebGlGpuBudget * ProcessUsage))) (P : A → Assertion) :
  (∀ live m, good live m → match f (webgl_gpu_budget (core m)) (usage m) with
    | Ret (a, (b, u)) => P a live (m <| core := (core m) <| webgl_gpu_budget := b |> |> <| usage := u |>)
    | Fail _ => True
    | _ => False
    end) → triple good (on_budget f) P.
Proof.
  intros Hf live m r l m' G E _. unfold on_budget in E. specialize (Hf live m G).
  destruct (f _ _) as [[a [b u]]|e| |]; try done; injection E as <- <- <-; done.
Qed.

(** ** Objects that are charged for *)

Lemma t_known {A : Type} (φ : Prop) (P : Assertion) (c : O A) (Q : A → Assertion) :
  (∀ live m, P live m → φ) → (φ → triple P c Q) → triple P c Q.
Proof. intros H Hc live m r l m' HP. apply Hc; [by eapply H|done]. Qed.

(** Opening an account for an object of no bytes. *)
Definition opens (k : Kind) (open : bool → Z → Z → WebGlGpuBudget → res WebGlGpuBudget) : Prop :=
  ∀ reserved c id b, budget_ok b →
  match open reserved c id b with
  | Ret b' => budget_ok b' ∧ charged b' = charged b ∧
      ∀ k' id', charged_to k' b' id' = if decide ((k', id') = (k, id)) then Some c else charged_to k' b id'
  | Fail _ => True
  | _ => False
  end.

Lemma create_texture_opens : opens KTexture Budget.create_texture.
Proof.
  intros reserved c id b Hb. pose proof (create_texture_ok reserved c id b Hb) as H. unfold Budget.create_texture in *.
  destruct (_ || _); [done|]. destruct (negb reserved); [done|]. destruct H as (H1 & _ & H2). split; [done|]. split; [done|].
  intros k' id'. destruct k'; cbn; try (by rewrite decide_False by congruence).
  destruct (decide (id' = id)) as [->|]; [by rewrite lookup_insert_eq, decide_True|].
  by rewrite lookup_insert_ne, decide_False by congruence.
Qed.

Lemma create_renderbuffer_opens : opens KRenderbuffer Budget.create_renderbuffer.
Proof.
  intros reserved c id b Hb. pose proof (create_renderbuffer_ok reserved c id b Hb) as H. unfold Budget.create_renderbuffer in *.
  destruct (_ || _); [done|]. destruct (negb reserved); [done|]. destruct H as (H1 & _ & H2). split; [done|]. split; [done|].
  intros k' id'. destruct k'; cbn; try (by rewrite decide_False by congruence).
  destruct (decide (id' = id)) as [->|]; [by rewrite lookup_insert_eq, decide_True|].
  by rewrite lookup_insert_ne, decide_False by congruence.
Qed.

Lemma t_create_budgeted k open canvas id :
  budgeted k = true → opens k open →
  triple (having (λ m, table k m !! id = None) ∅ None) (create_budgeted k open canvas id) (λ _, good).
Proof.
  intros Hk Ho. assert (Hs : shared k = true) by by destruct k.
  eapply t_bind; [by apply t_current|]. intros ?. eapply t_bind; [apply t_get|]. intros owner.
  eapply t_bind; [|intros name; apply t_finish].
  { eapply t_pre; [|apply (t_gl_create canvas (λ m, owner = Some canvas ∧ table k m !! id = None))].
    - intros live m [-> [[Hb Hc] [H1 H2]]]. unfold current_canvas_id. rewrite Hb. by split.
    - apply (stable_and (λ _, owner = Some canvas)); auto. }
  destruct name as [h|]; [|apply t_done; by intros live m [_ [_ ?]]]. cbn [fmap option_fmap option_map optset].
  unfold space. rewrite Hs. apply (t_known (owner = Some canvas)); [by intros live m [_ [[? _] _]]|]. intros ->.
  eapply t_bind; [apply t_ask; intros live m; apply within_quiet; [apply (stable_and (λ _, Some canvas = Some canvas)); auto|done..]|].
  intros reserved. eapply t_bind; [apply t_get|]. intros b.
  apply (t_known (budget_ok b)); [intros live m [-> [_ [_ G]]]; apply (g_budget _ _ _ _ G)|]. intros Hb.
  specialize (Ho reserved canvas id b Hb). destruct (open reserved canvas id b) as [b'|e| |]; try done.
  - destruct Ho as (Hb' & Hch & Hl). eapply t_bind.
    + apply (t_modify _ _ (having (λ m, table k m !! id = None ∧ charged_to k (webgl_gpu_budget (core m)) id = Some canvas)
        {[(k, None, h)]} (Some (k, id)))).
      intros live m [-> [_ [[_ Hid] G]]]. split; [split; [by destruct k|cbn; by rewrite Hl, decide_True]|].
      assert (m <| core := (core m) <| webgl_gpu_budget := b' |> |> = m <| core := (core m) <| webgl_gpu_budget := b' |> |> <| usage := usage m |>) as -> by by destruct m.
      eapply good_rebudget; [exact G|done|apply (g_usage _ _ _ _ G)|rewrite Hch; apply (g_covered _ _ _ _ G)| |].
      * intros k' id' Hk' Hne. rewrite Hl, decide_False by congruence. by apply (g_ledger _ _ _ _ G).
      * intros k' id' [= <- <-]. exact Hid.
    + intros ?. apply t_modify. intros live m [[Hid Hc] G].
      apply (good_fill (Some (k, id)) k id {| gl_handle := Some h; owner_canvas := Some canvas; deleted := false |});
        [by right| |done|by intros _|by eexists].
      unfold meta_obj, placed. rewrite Hs. exact G.
  - eapply t_bind; [apply (t_deed _ _ good)|intros ?; by apply t_fail].
    intros live m [_ [_ [_ G]]] _. cbn [alive]. unfold space. rewrite Hs. by apply good_deleted.
Qed.

(** ** Storage *)

Lemma commit_owners p b u b' u' : commit p b u = Ret (b', u') → ∀ k id, charged_to k b' id = charged_to k b id.
Proof.
  unfold commit. destruct (_ <? _); [done|]. destruct (u64_checked_add _ _) as [next|]; [|done].
  destruct (commit_kind _ _) as [b1|e| |] eqn:E; try done. cbn [mbind outcome_bind].
  destruct (if _ <? _ then _ else _) as [u1|e| |]; try done. cbn [mbind outcome_bind].
  destruct (growth_drop _ u1) as [u2|e| |]; try done. intros [= <- <-] k id. clear -E. unfold commit_kind in E.
  destruct (kind p) as [t s n|t n|r n]; cbn in E.
  1,2: destruct (Budget.textures b !! t) as [rec|] eqn:Et; [|done].
  1: destruct (storage rec); [|done].
  3: destruct (Budget.renderbuffers b !! r) as [rec|] eqn:Et; [|done].
  all: injection E as <-; destruct k; cbn [charged_to]; try done; cbn.
  1,2: destruct (decide (id = t)) as [->|]; [by rewrite lookup_insert_eq, Et|by rewrite lookup_insert_ne].
  destruct (decide (id = r)) as [->|]; [by rewrite lookup_insert_eq, Et|by rewrite lookup_insert_ne].
Qed.

(** An allocation is admitted, and not yet made. *)
Definition admitted_to (p : PreparedGpuAllocation) : Assertion := λ live m,
  good live m ∧ pending_ok p (webgl_gpu_budget (core m)) ∧ charged (webgl_gpu_budget (core m)) + in_flight p ≤ bytes (usage m).

Lemma t_allocate canvas q : triple good (allocate canvas q) (λ _, good).
Proof.
  eapply t_bind; [eapply t_pre; [|by apply (t_current canvas (λ _, True))]; by split|]. intros ?.
  eapply t_bind; [apply t_ask; intros live m; by apply within_quiet|]. intros reserved.
  eapply t_bind; [eapply t_pre; [|apply (t_budget _ admitted_to)]|].
  - by intros live m [_ [_ ?]].
  - intros live m G. pose proof (prepare_admitted (q reserved) _ _ (g_budget _ _ _ _ G) (g_usage _ _ _ _ G)) as H.
    pose proof (g_covered _ _ _ _ G). unfold admitted in H.
    destruct (prepare (q reserved) _ _) as [[p u]|e| |]; try done. cbn [mbind outcome_bind].
    destruct H as [Hp (G1 & G2 & G3)].
    pose proof (in_flight_nonneg _ _ Hp). split; [|split; [done|cbn; lia]].
    eapply good_rebudget; [exact G|apply (g_budget _ _ _ _ G)|done|lia| |done]. apply (g_ledger _ _ _ _ G).
  - intros p. eapply t_bind; [apply (t_deed _ _ (admitted_to p)); by intros live m H _|]. intros ?. apply t_finish.
    intros live m r l m' (G & Hp & Hc) E _. unfold on_budget in E.
    destruct (commit_ok p _ _ (g_budget _ _ _ _ G) Hp (g_usage _ _ _ _ G) Hc) as (b' & u' & Ec & Hb' & _ & (G1 & G2 & G3)).
    rewrite Ec in E. cbn [mbind outcome_bind] in E. injection E as <- <- <-. cbn [alive_all foldl].
    eapply good_rebudget; [exact G|done|done|lia| |done]. intros k id Hk Hne. rewrite (commit_owners _ _ _ _ _ Ec).
    by apply (g_ledger _ _ _ _ G).
Qed.

(** ** The commands *)

Lemma t_delete_program id : triple good (delete_program id) (λ _, good).
Proof.
  eapply t_bind; [apply (t_modify _ _ good); intros live m; by apply good_quiet|]. intros ?.
  eapply t_bind; [by apply (t_remove KProgram)|]. intros [meta|]; cbn [budgeted]; apply t_finish; [|by apply t_done].
  eapply t_bind; [apply t_sweep|]. intros ?. by apply (t_delete_if KProgram).
Qed.

Lemma t_delete_named k mk id :
  shared k = true → budgeted k = false → (∀ h, object_obj (mk h) = (k, None, h) ∧ owning_context (mk h) = None) →
  triple good (delete_named k mk id) (λ _, good).
Proof.
  intros Hs Hk Hmk. eapply t_bind; [by apply t_remove|]. rewrite Hk. intros [meta|]; apply t_finish; [|by apply t_done].
  by apply (t_delete_if k).
Qed.

Lemma t_delete_texture id : triple good (delete_texture id) (λ _, good).
Proof.
  eapply t_bind; [by apply (t_remove KTexture)|]. intros [meta|]; cbn [budgeted]; apply t_finish; [|by apply t_done].
  eapply t_bind; [apply t_sweep|]. intros ?. eapply t_bind; [by apply (t_delete_if KTexture)|]. intros ?.
  apply t_finish. apply (t_account KTexture); [done|apply delete_texture_accounts].
Qed.

Lemma t_delete_renderbuffer id : triple good (delete_renderbuffer id) (λ _, good).
Proof.
  eapply t_bind; [by apply (t_remove KRenderbuffer)|]. intros [meta|]; cbn [budgeted]; apply t_finish; [|by apply t_done].
  eapply t_bind; [by apply (t_delete_if KRenderbuffer)|]. intros ?.
  apply t_finish. apply (t_account KRenderbuffer); [done|apply delete_renderbuffer_accounts].
Qed.

Lemma t_delete_owned k mk id :
  shared k = false → (∀ h c, object_obj (mk h c) = (k, Some (Canvas c), h) ∧ owning_context (mk h c) = Some c) →
  triple good (delete_owned k mk id) (λ _, good).
Proof.
  intros Hs Hmk. eapply t_bind; [by apply t_take|]. intros r. apply t_finish. by apply (t_delete_taken k id).
Qed.

Lemma t_delete_shared k mk id :
  shared k = true → budgeted k = false → (∀ h, object_obj (mk h) = (k, None, h) ∧ owning_context (mk h) = None) →
  triple good (delete_shared k mk id) (λ _, good).
Proof.
  intros Hs Hk Hmk. eapply t_bind; [by apply t_take_handle|]. intros r. apply t_finish. by apply (t_delete_if k).
Qed.

Lemma t_delete_framebuffer id : triple good (delete_framebuffer id) (λ _, good).
Proof.
  eapply t_bind; [by apply t_take|]. intros r. eapply t_bind; [by apply t_remove_taken|]. intros ?.
  apply t_finish. by apply (t_delete_taken KFramebuffer id).
Qed.

Lemma t_delete_vertex_array id : triple good (delete_vertex_array id) (λ _, good).
Proof.
  eapply t_bind; [by apply t_take|]. intros r.
  eapply t_bind; [apply (t_modify _ _ (taken KVertexArray id r)); intros live m [G Hn]; split; [|done]; eapply good_quiet; [| | |exact G]; done|].
  intros ?. apply t_finish. by apply (t_delete_taken KVertexArray id).
Qed.

(** The name a command creates. *)
Definition creates (cmd : ObjectCmd) : option (Kind * Z) :=
  match cmd with
  | CreateProgram _ id => Some (KProgram, id) | CreateShader _ id _ => Some (KShader, id)
  | CreateBuffer _ id => Some (KBuffer, id) | CreateTexture _ id => Some (KTexture, id)
  | CreateFramebuffer _ id => Some (KFramebuffer, id) | CreateRenderbuffer _ id => Some (KRenderbuffer, id)
  | CreateVertexArray _ id => Some (KVertexArray, id) | CreateSampler _ id => Some (KSampler, id)
  | FenceSync _ id _ _ => Some (KSync, id) | CreateQuery _ id => Some (KQuery, id)
  | CreateTransformFeedback _ id => Some (KTransformFeedback, id)
  | _ => None
  end.
Definition unused (cmd : ObjectCmd) (m : Manager) : Prop :=
  match creates cmd with Some (k, id) => table k m !! id = None | None => True end.

Lemma t_handle_object cmd : triple (having (unused cmd) ∅ None) (handle_object cmd) (λ _, good).
Proof.
  destruct cmd; cbn [handle_object];
    first [by apply t_create_named | apply t_create_framebuffer | by apply t_create_slot
          | apply t_create_budgeted; [done|apply create_texture_opens || apply create_renderbuffer_opens]
          | eapply t_pre; [intros live m [_ G]; exact G|]];
    first [apply t_delete_program | by apply t_delete_named | apply t_delete_texture | apply t_delete_renderbuffer
          | apply t_delete_framebuffer | apply t_delete_vertex_array | by apply t_delete_owned | by apply t_delete_shared
          | apply t_allocate].
Qed.
End steps.
