(* ===== verification/CanvasLife.v ===== *)
(** Canvases, objects and the driver together ([engine/crates/graphics],
    [canvas/manager/mod.rs], [renderergl/handler.rs]).

    Registering and destroying canvases keep the accounts of [Accounts], and so
    does every run of commands and canvas operations ([objects_accounted]); a
    container is only deleted in the context of its canvas
    ([containers_deleted_at_home]).  The end of the file shows what is not kept. *)
From S2P Require Import Prelude Damage FrameDamage Keyed Budget Commands Shadow FrameStats StateTracker Driver Errors Handler Dedup Invisible Reach FrameReach ObjectLife Accounts.

Set Default Proof Using "Type".

Section canvases.
Context `{Surf : !Egl} `{Ans : !Answers} `{HO : !HashOrder Z}.
Context (Hegl : ∀ n, egl_make_current n = true).
Set Default Proof Using "Type Hegl".

(** * The bypass *)

Lemma evaluate_bypass_result m :
  ∃ l cs, evaluate_bypass m = (Ret tt, Called <$> l,
    match cs with
    | Some cs => new_presentation (m <| core := (core m) <| canvases := cs |> |>)
    | None => m
    end) ∧ ∀ c, is_Some (default (canvases (core m)) cs !! c) ↔ is_Some (canvases (core m) !! c).
Proof using Type.
  unfold evaluate_bypass. destruct (canvases (core m) !! ONSCREEN) as [entry|] eqn:E.
  - destruct (eqb _ _).
    + cbn [fst snd]. destruct (plan_bypass_rebind _ _ _ _) as [|f]; [by exists [], None|by eexists [_], None].
    + destruct (plan_bypass_rebind _ _ _ _) as [|f]; [eexists [], (Some _)|eexists [_], (Some _)];
        (split; [reflexivity|]); intros c; cbn [default id];
        (destruct (decide (c = ONSCREEN)) as [->|]; [rewrite lookup_insert_eq, E; by split|by rewrite lookup_insert_ne]).
  - destruct (plan_bypass_rebind _ _ _ _) as [|f]; [by exists [], None|by eexists [_], None].
Qed.

Lemma t_evaluate_bypass : triple good evaluate_bypass (λ _, good).
Proof.
  intros live m r l m' G E _. destruct (evaluate_bypass_result m) as (l0 & cs & E0 & Hcs). rewrite E0 in E.
  injection E as <- <- <-. rewrite alive_called. destruct cs as [cs|]; [|done]. cbn [default id] in Hcs.
  assert (Hl : living (new_presentation (m <| core := (core m) <| canvases := cs |> |>)) = living m).
  { apply set_eq. intros c. rewrite !living_entry. apply Hcs. }
  apply (good_view _ _ _ m); [|unfold bound_ok; cbn|done].
  - unfold view. by rewrite Hl.
  - pose proof (g_bound _ _ _ _ G) as Hb. unfold bound_ok in Hb. destruct (bound (core m)); try done. by apply Hcs.
Qed.

(** * A canvas comes *)

(** No container is left of a canvas of that name. *)
Definition newcomer (id : Z) (m : Manager) : Prop :=
  id ∈ living m ∨
  (∀ k i meta, shared k = false → table k m !! i = Some meta → owner_canvas meta ≠ Some id) ∧ image_copy_fbos m !! id = None.

Lemma good_new_canvas id entry live m :
  newcomer id m → canvases (core m) !! id = None → good live m →
  good live (m <| core := (core m) <| canvases := <[id := entry]> (canvases (core m)) |> |>).
Proof.
  set (m' := m <| core := _ |>). intros [Hn|[Hk Hf]] He G; [apply living_entry in Hn as [? ?]; congruence|].
  assert (Hl : ∀ c, c ≠ id → (c ∈ living m' ↔ c ∈ living m)).
  { intros c Hc. rewrite !living_entry. cbn. by rewrite lookup_insert_ne. }
  assert (Ht : ∀ k, table k m' = table k m) by by intros [].
  split; try apply G.
  - apply (accounted_same _ m); [|apply G]. intros [k i|c]; cbn [slot_obj].
    + rewrite Ht. destruct (table k m !! i) as [meta|] eqn:Ei; [|done]. cbn. unfold meta_obj, placed.
      destruct (shared k) eqn:Es; [done|]. destruct (gl_handle meta); [|done]. cbn.
      destruct (owner_canvas meta) as [c|] eqn:Ec; [|done]. cbn.
      assert (c ≠ id) by (intros ->; by apply (Hk k i meta)).
      by rewrite (bool_decide_ext _ _ (Hl c ltac:(done))).
    + change (image_copy_fbos m') with (image_copy_fbos m). destruct (image_copy_fbos m !! c) as [fbo|] eqn:Ec; [|done]. cbn.
      unfold copy_obj. assert (c ≠ id) by congruence. by rewrite (bool_decide_ext _ _ (Hl c ltac:(done))).
  - pose proof (g_bound _ _ _ _ G) as Hb. unfold bound_ok in *. cbn. destruct (bound (core m)); try done.
    destruct (decide (id0 = id)) as [->|]; [by rewrite lookup_insert_eq|by rewrite lookup_insert_ne].
Qed.

Lemma t_register id w h : triple (having (newcomer id) ∅ None) (register_offscreen id w h) (λ _, good).
Proof.
  unfold register_offscreen. destruct (checked_canvas_pixel_count w h); [|apply t_fail; by intros live m [_ ?]].
  eapply t_bind; [apply t_get|]. intros [e|]; [apply t_done; by intros live m [_ [_ ?]]|].
  eapply t_bind; [apply t_ask; intros live m [E [Hn G]]; split; [done|]; split; [done|]; eapply good_quiet; [| | |exact G]; done|].
  intros [|]; [|apply t_fail; by intros live m [_ [_ ?]]].
  eapply t_bind; [apply (t_deed _ _ (λ live m, canvases (core m) !! id = None ∧ having (newcomer id) ∅ None live m)); by intros live m [? ?] _|].
  intros ?. eapply t_bind; [apply (t_modify _ _ good)|intros ?; apply t_evaluate_bypass].
  intros live m [He [Hn G]]. by apply good_new_canvas.
Qed.

(** * A canvas goes *)

Lemma attempt_make_current b m :
  attempt (on_core (make_current b)) m =
    (Ret true, [], m <| core := (core m) <| bound := b |> <| egl_calls := S (egl_calls (core m)) |> |>).
Proof. unfold attempt, on_core, make_current, mbind, M_bind, gets, modify. by rewrite Hegl. Qed.

(** Its context goes with its containers; what is current is the resource context. *)
Definition gone (id : Z) (m : Manager) : Prop := (id ∉ living m) ∧ bound (core m) = Resource.

Lemma destroy_context_result id m :
  destroy_context id m = (Ret (bound (core m)), [ContextDestroyed id],
    m <| core := (core m) <| canvases := delete id (canvases (core m)) |>
                          <| contexts_2d := (keyed_remove (contexts_2d (core m)) id).2 |>
                          <| bound := Resource |> <| egl_calls := S (S (egl_calls (core m))) |> |>).
Proof.
  unfold destroy_context, mbind, O_bind. cbn [omodify oget]. rewrite attempt_make_current. cbn [omodify].
  unfold bind_resource. cbn [mbind O_bind]. rewrite attempt_make_current. by destruct m as [[]].
Qed.

Lemma t_destroy_context id :
  triple good (destroy_context id) (λ saved live m, (∀ c, saved ≠ Shared2D c) ∧ having (gone id) ∅ None live m).
Proof.
  intros live m r l m' G E _. rewrite destroy_context_result in E. injection E as <- <- <-. cbn [alive_all foldl alive].
  set (m' := m <| core := _ |>).
  assert (Hl : ∀ c, c ∈ living m' ↔ c ≠ id ∧ c ∈ living m).
  { intros c. rewrite !living_entry. cbn. destruct (decide (c = id)) as [->|Hc].
    - rewrite lookup_delete_eq. split; [by intros [? ?]|by intros [? _]].
    - rewrite lookup_delete_ne by done. by split; [|intros [_ ?]]. }
  assert (Ht : ∀ k, table k m' = table k m) by by intros [].
  split.
  { intros c Hc. pose proof (g_bound _ _ _ _ G) as Hb. unfold bound_ok in Hb. rewrite Hc, (g_unshared _ _ _ _ G) in Hb. by destruct Hb. }
  split; [split; [by rewrite Hl; intros [? _]|done]|].
  split; try apply G; [set_solver| |done].
  rewrite difference_empty_L. apply (accounted_leave _ m);
    [pose proof (g_accounted _ _ _ _ G) as Ha; by rewrite difference_empty_L in Ha|].
  intros [k i|c]; cbn [slot_obj].
  - rewrite Ht. destruct (table k m !! i) as [meta|] eqn:Ei; [|done]. cbn. unfold meta_obj, placed.
    destruct (gl_handle meta); [|done]. cbn. destruct (shared k) eqn:Es; [done|].
    destruct (owner_canvas meta) as [c|]; [|done]. cbn. rewrite (bool_decide_ext _ _ (Hl c)). case_bool_decide as Hc.
    + destruct Hc as [? Hc]. rewrite bool_decide_true by done. cbn. by rewrite decide_False by congruence.
    + case_bool_decide; [|done]. cbn. rewrite decide_True; [done|]. do 2 f_equal. destruct (decide (c = id)); tauto.
  - change (image_copy_fbos m') with (image_copy_fbos m). destruct (image_copy_fbos m !! c) as [fbo|]; [|done]. cbn.
    unfold copy_obj. rewrite (bool_decide_ext _ _ (Hl c)). case_bool_decide as Hc.
    + destruct Hc as [? Hc]. rewrite bool_decide_true by done. cbn. by rewrite decide_False by congruence.
    + case_bool_decide; [|done]. cbn. rewrite decide_True; [done|]. do 2 f_equal. destruct (decide (c = id)); tauto.
Qed.

(** The entries of a canvas that are still to be swept. *)
Definition left_of (k : Kind) (c : Z) (ids : list Z) (m : Manager) : Prop :=
  ∀ i meta, table k m !! i = Some meta → owner_canvas meta = Some c → i ∈ ids.

(** What the sweep of one kind leaves alone. *)
Definition aside (k : Kind) (φ : Manager → Prop) : Prop :=
  ∀ m m', (∀ k', k' ≠ k → table k' m' = table k' m) → living m' = living m → bound (core m') = bound (core m) → φ m → φ m'.

Lemma put_aside k φ i v m : aside k φ → φ m → φ (put k i v m).
Proof.
  intros Hφ. destruct (put_rest k i v m) as (_ & E2 & _ & _ & E5 & _). apply Hφ; [|done|done].
  intros k' Hk. unfold put. by destruct k, k'.
Qed.

Lemma t_delete_swept k account c φ ids :
  budgeted k = true → accounts k account → aside k φ →
  triple (having (λ m, φ m ∧ left_of k c ids m) ∅ None) (delete_swept k account ids)
    (λ _, having (λ m, φ m ∧ left_of k c [] m) ∅ None).
Proof.
  intros Hk Ha Hφ. assert (Hs : shared k = true) by by destruct k.
  induction ids as [|i ids IH]; cbn [delete_swept]; [by apply t_done|].
  pose (P := λ m, φ m ∧ left_of k c ids m ∧ table k m !! i = None).
  eapply t_bind; [|intros meta; eapply t_bind; [|intros ?; eapply t_bind; [|intros ?; exact IH]]].
  - instantiate (1 := λ meta, having P (optset (handle_obj k (meta ≫= gl_handle))) (Some (k, i))).
    eapply t_bind; [apply t_get|]. intros meta. eapply t_bind; [apply (t_modify _ _ (having P (optset (handle_obj k (meta ≫= gl_handle))) (Some (k, i))))|intros a; by apply t_done].
    intros live m [-> [[Hm Hl] G]]. change (set_table _ _ m) with (put k i None m).
    split; [split; [by apply put_aside|split]|].
    + intros j meta. rewrite put_table. destruct (decide ((k, j) = (k, i))) as [|Hne]; [done|]. intros Ej Ho.
      specialize (Hl j meta Ej Ho). apply elem_of_cons in Hl as [->|?]; [by destruct Hne|done].
    + by rewrite put_table, decide_True.
    + pose proof (good_clear k i None live m G) as H. rewrite shared_slot, Hk in H by done. apply H; [|done]. by intros ? [=].
  - instantiate (1 := λ _, having P ∅ (Some (k, i))). cbv beta. destruct (meta ≫= gl_handle) as [h|]; cbn; [|by apply t_done].
    apply t_deed. intros live m [Hm G] _. split; [done|]. cbn [alive]. unfold space. rewrite Hs. by apply good_deleted.
  - intros live m r l m' [(Hm & Hl & Hi) G] E F.
    pose proof (t_account Hegl k account i Hk Ha live m r l m' G E F) as H.
    destruct r; [split; [|exact H]|exact H|done..].
    unfold on_budget in E. destruct (account i _ _) as [[a' [b u]]|e| |]; try done. injection E as <- <- <-.
    split; [|exact Hl]. apply (Hφ m); [|done..|exact Hm]. intros k' Hk'. by destruct k'.
Qed.

Lemma charged_not_left c live m :
  good live m → left_of KTexture c [] m → left_of KRenderbuffer c [] m →
  ∀ k i, charged_to k (webgl_gpu_budget (core m)) i ≠ Some c.
Proof.
  intros G Ht Hr k i Hc. assert (Hk : budgeted k = true) by by destruct k.
  pose proof (g_ledger _ _ _ _ G k i Hk ltac:(done)) as Hl. rewrite Hc in Hl.
  destruct (table k m !! i) as [meta|] eqn:E; [|done]. injection Hl as Hl.
  destruct k; try done; [by apply (not_elem_of_nil i), (Hr i meta)|by apply (not_elem_of_nil i), (Ht i meta)].
Qed.

Lemma t_release_context c :
  triple (having (λ m, gone c m ∧ left_of KTexture c [] m ∧ left_of KRenderbuffer c [] m) ∅ None)
    (on_budget (release_context c)) (λ _, having (gone c) ∅ None).
Proof.
  intros live m r l m' [(Hg & Ht & Hr) G] E _. unfold on_budget in E.
  destruct (release_context_ok c _ _ (g_budget _ _ _ _ G) (g_usage _ _ _ _ G) (g_covered _ _ _ _ G)) as
    (n & b' & u' & Ec & Hb' & _ & (G1 & G2 & G3)).
  pose proof (g_covered _ _ _ _ G). pose proof (charged_not_left c live m G Ht Hr) as Hc.
  rewrite Ec in E. injection E as <- <- <-. split; [exact Hg|]. cbn [alive_all foldl].
  eapply (good_rebudget Hegl); [exact G|done|done|lia| |done]. intros k i Hk _. rewrite <- (g_ledger _ _ _ _ G) by done. f_equal.
  assert (Budget.textures b' = filter (λ kv, tex_owner kv.2 ≠ c) (Budget.textures (webgl_gpu_budget (core m))) ∧
    Budget.renderbuffers b' = filter (λ kv, rb_owner kv.2 ≠ c) (Budget.renderbuffers (webgl_gpu_budget (core m)))) as [E1 E2].
  { unfold release_context in Ec. cbv zeta in Ec. destruct (release _ _); try done. by injection Ec as <- <- <-. }
  specialize (Hc k i). destruct k; try done; cbn [charged_to] in *; rewrite ?E1, ?E2.
  - destruct (Budget.renderbuffers _ !! i) as [rec|] eqn:Ei in *; cbn in Hc.
    + f_equal. rewrite (proj2 (map_lookup_filter_Some _ _ i rec)); [done|]. split; [done|]. cbn. congruence.
    + rewrite (proj2 (map_lookup_filter_None _ _ i)); [done|]. by left.
  - destruct (Budget.textures _ !! i) as [rec|] eqn:Ei in *; cbn in Hc.
    + f_equal. rewrite (proj2 (map_lookup_filter_Some _ _ i rec)); [done|]. split; [done|]. cbn. congruence.
    + rewrite (proj2 (map_lookup_filter_None _ _ i)); [done|]. by left.
Qed.

(** The framebuffer of image copies died with the context; its name is given back
    in another, where no such name is alive. *)
Lemma t_drop_copy_fbo id : triple (having (gone id) ∅ None) (drop_copy_fbo id) (λ _, good).
Proof.
  intros live m r l m' [[Hid Hb] G]. set (m1 := m <| image_copy_fbos := delete id (image_copy_fbos m) |>).
  assert (G1 : good live m1).
  { split; try apply G. apply (accounted_same _ m); [|apply G]. intros [k i|c]; [done|]. cbn [slot_obj].
    change (image_copy_fbos m1) with (delete id (image_copy_fbos m)). change (living m1) with (living m).
    destruct (decide (c = id)) as [->|]; [|by rewrite lookup_delete_ne]. rewrite lookup_delete_eq.
    destruct (image_copy_fbos m !! id); [|done]. cbn. unfold copy_obj. by rewrite bool_decide_false. }
  unfold drop_copy_fbo, mbind, O_bind. cbn [oget omodify]. fold m1. destruct (image_copy_fbos m !! id) as [h|].
  - cbn. change (bound (core m1)) with (bound (core m)). rewrite Hb. intros [= <- <- <-] _. cbn [alive_all foldl alive space shared context_of].
    replace (live ∖ _) with live; [done|]. apply set_eq. intros o. rewrite elem_of_difference, elem_of_singleton.
    split; [|tauto]. intros Ho. split; [done|]. intros ->. pose proof (g_accounted _ _ _ _ G1) as [Ha _].
    rewrite difference_empty_L in Ha. apply Ha in Ho as [s Hs]. destruct s as [k i|c]; cbn [slot_obj] in Hs.
    + destruct (table k m1 !! i) as [meta|]; [|done]. cbn in Hs. unfold meta_obj, placed in Hs.
      destruct (gl_handle meta); [|done]. cbn in Hs. destruct (shared k); [done|]. destruct (owner_canvas meta); [|done].
      cbn in Hs. by case_bool_decide.
    + destruct (image_copy_fbos m1 !! c); [|done]. cbn in Hs. unfold copy_obj in Hs. by case_bool_decide.
  - by intros [= <- <- <-] _.
Qed.

Lemma keys_from_in {V} fuel : ∀ (t : gmap Z V) k v, (size t ≤ fuel)%nat → t !! k = Some v → k ∈ keys_from fuel t.
Proof using HO.
  induction fuel as [|fuel IH]; intros t k v Hf Hk; cbn [keys_from].
  - assert (t = ∅) as -> by (apply map_size_empty_iff; lia). by rewrite lookup_empty in Hk.
  - destruct (first_key t) as [k0|] eqn:E; [|apply first_key_none in E as ->; by rewrite lookup_empty in Hk].
    destruct (first_key_in _ _ E) as [v0 H0]. apply elem_of_cons. destruct (decide (k = k0)) as [->|Hne]; [by left|right].
    apply (IH _ _ v); [|by rewrite lookup_delete_ne]. rewrite map_size_delete_Some by by exists v0. lia.
Qed.

Lemma owned_by_left k c m : left_of k c (owned_by c (table k m)) m.
Proof using HO.
  intros i meta Hi Ho. unfold owned_by, keys. apply (keys_from_in _ _ _ meta); [done|].
  by apply map_lookup_filter_Some.
Qed.

Lemma t_restore_bound saved : (∀ c, saved ≠ Shared2D c) → triple good (restore_bound saved) (λ _, good).
Proof.
  intros Hs. assert (Hres : triple good (on_core bind_resource) (λ _, good)).
  { eapply t_pre; [|eapply t_post; [apply (t_resource Hegl (λ _, True) ∅ None (stable_const _))|]]; [by split|by intros a live m [_ ?]]. }
  destruct saved as [|c|c]; [done| |by destruct (Hs c)].
  eapply t_bind; [apply t_get|]. intros [e|].
  - eapply t_pre; [|eapply t_post; [apply (t_home Hegl c (λ _, True) ∅ None (stable_const _))|]].
    + intros live m [He G]. split; [|done]. split; [|done]. apply living_entry. by exists e.
    + by intros a live m [_ [_ ?]].
  - eapply t_pre; [|exact Hres]. by intros live m [_ ?].
Qed.

Lemma t_destroy_canvas id : triple good (destroy_canvas id) (λ _, good).
Proof.
  unfold destroy_canvas. destruct (id =? ONSCREEN); [by apply t_fail|].
  eapply t_bind; [apply t_get|]. intros entry. eapply t_bind; [|intros ?; apply t_evaluate_bypass].
  eapply t_pre; [intros live m [_ G]; exact G|]. destruct entry; [|by apply t_done].
  eapply t_bind; [apply t_destroy_context|]. intros saved. apply t_pure. intros Hsaved.
  eapply t_bind; [apply (t_modify _ _ (having (gone id) ∅ None)); intros live m [? G]; split; [done|]; eapply good_quiet; [| | |exact G]; done|].
  intros ?. eapply t_bind; [apply t_get|]. intros ids.
  eapply t_bind.
  { eapply t_pre; [|apply (t_delete_swept KTexture _ id (gone id) ids); [done|by apply delete_texture_accounts|]].
    - intros live m [-> [Hg G]]. split; [|done]. split; [done|apply owned_by_left].
    - intros m m' _ Hl Hb [? ?]. unfold gone. by rewrite Hl, Hb. }
  intros ?. eapply t_bind; [apply t_get|]. intros ids'.
  eapply t_bind.
  { eapply t_pre; [|apply (t_delete_swept KRenderbuffer _ id (λ m, gone id m ∧ left_of KTexture id [] m) ids'); [done|by apply delete_renderbuffer_accounts|]].
    - intros live m [-> [[Hg Ht] G]]. split; [|done]. split; [done|apply owned_by_left].
    - intros m m' Ht Hl Hb [[? ?] Hx]. split; [unfold gone; by rewrite Hl, Hb|]. unfold left_of. by rewrite Ht. }
  intros ?. eapply t_bind; [eapply t_pre; [|apply (t_release_context id)]|].
  { intros live m [[[Hg Ht] Hr] G]. split; [|done]. by split. }
  intros ?. eapply t_bind; [apply t_drop_copy_fbo|]. intros ?. apply t_finish. apply t_attempt. by apply t_restore_bound.
Qed.

(** ** The copy framebuffer *)

Lemma t_ensure_copy_fbo c : triple good (begin_image_copy c) (λ _, good).
Proof.
  eapply t_bind; [eapply t_pre; [|by apply (t_current Hegl c (λ _, True))]; by split|]. intros ?.
  eapply t_bind; [apply t_get|]. intros [fbo|]; [apply t_done; by intros live m [_ [_ [_ ?]]]|].
  eapply t_bind; [eapply t_pre; [|apply (t_gl_create Hegl c (λ m, None = image_copy_fbos m !! c) KFramebuffer)]|].
  - intros live m [E [Hw [_ G]]]. split; [done|]. by split.
  - intros m m' Hv. injection Hv. congruence.
  - intros [h|]; [|apply t_fail; by intros live m [_ [_ ?]]]. apply t_finish.
    apply t_modify. intros live m [[Hb Hc] [E G]]. set (m1 := m <| image_copy_fbos := _ |>).
    pose proof (g_accounted _ _ _ _ G) as Ha. pose proof (g_sub _ _ _ _ G) as Hs. cbn [fmap option_fmap option_map optset] in *.
    split; try apply G; [set_solver|]. rewrite difference_empty_L.
    replace live with ({[(KFramebuffer, Some (Canvas c), h)]} ∪ live ∖ {[(KFramebuffer, Some (Canvas c), h)]})
      by (symmetry; by apply union_difference_L).
    apply (accounted_put _ m _ (CopyFbo c)); [exact Ha|set_solver|cbn; by rewrite <- E|].
    intros [k i|c']; cbn [slot_obj]; [by rewrite decide_False|].
    change (image_copy_fbos m1) with (<[c := h]> (image_copy_fbos m)). change (living m1) with (living m).
    destruct (decide (c' = c)) as [->|]; [|by rewrite lookup_insert_ne, decide_False by congruence].
    rewrite lookup_insert_eq, decide_True by done. cbn. unfold copy_obj. by rewrite bool_decide_true.
Qed.
End canvases.
Set Default Proof Using "Type".

(** * Commands of the wire *)

Definition draws (cmd : GLCmd) : bool :=
  match cmd with
  | DrawArrays _ _ _ _ | DrawElements _ _ _ _ _ | DrawArraysInstanced _ _ _ _ _ | DrawElementsInstanced _ _ _ _ _ _ => true
  | _ => false
  end.

(** The computation returns or fails: it does not panic. *)
Definition sure {A} (m : M A) : Prop := ∀ cm, match (m cm).1.1 with Ret _ | Fail _ => True | _ => False end.

Lemma sure_bind {A B} (m : M A) (f : A → M B) : sure m → (∀ a, sure (f a)) → sure (m ≫= f).
Proof.
  intros Hm Hf cm. specialize (Hm cm). unfold mbind, M_bind. destruct (m cm) as [[[a|e| |] l] cm1]; cbn [fst] in *; try done.
  specialize (Hf a cm1). by destruct (f a cm1) as [[r l2] cm2].
Qed.
Lemma sure_on_state {A} id (f : CanvasGLState → A * CanvasGLState) : sure (on_state id f).
Proof. intros cm. unfold on_state. by destruct (entry_modify _ _ _ _). Qed.
Lemma sure_guarded must id f c : sure (guarded must id f c).
Proof.
  apply sure_bind; [|intros b; by destruct (must b)]. apply sure_bind; [done|]. intros d.
  apply sure_bind; [apply sure_on_state|]. intros [b d']. by apply sure_bind.
Qed.
Lemma sure_find table canvas id : sure (owned_object table canvas id) ∧ sure (live_object table id).
Proof.
  split; (apply sure_bind; [done|]); intros [meta|]; try done.
  - apply sure_bind; [unfold check_owner; by case_bool_decide|]. intros _. by destruct (deleted meta).
  - by destruct (deleted meta).
Qed.
Lemma sure_named find o : (∀ id, sure (find id)) → sure (named find o).
Proof. intros Hf. destruct o; [apply Hf|done]. Qed.

Section wire.
Context `{Surf : !Egl} `{!HashOrder Z, !HashOrder (Z * Z)}.

Lemma sure_make_current b : sure (make_current b).
Proof. intros cm. unfold make_current, mbind, M_bind, gets, modify. by destruct (egl_make_current _). Qed.
Lemma sure_current id : sure (make_current_needed id).
Proof.
  apply sure_bind; [done|]. intros [|].
  - unfold bind_shared_2d_context. apply sure_bind; [done|]. intros [| |]; try apply sure_make_current. done.
  - apply sure_bind; [done|]. intros b. case_bool_decide; [done|]. apply sure_bind; [done|].
    intros [entry|]; [apply sure_make_current|done].
Qed.
Lemma sure_any_canvas : sure ensure_any_canvas_current.
Proof.
  apply sure_bind; [done|]. intros [|id|id]; [|done..]. apply sure_bind; [done|]. intros cs.
  case_bool_decide; [by apply sure_bind; [apply sure_current|]|].
  destruct (first_key cs); apply sure_bind; try done; [apply sure_current|apply sure_make_current].
Qed.

Ltac sure :=
  match goal with
  | |- sure (make_current_needed _) => apply sure_current
  | |- sure ensure_any_canvas_current => apply sure_any_canvas
  | |- sure (owned_object _ _ _) => apply sure_find
  | |- sure (live_object _ _) => apply (sure_find _ 0)
  | |- sure (named _ _) => apply sure_named; intros ?; sure
  | |- sure (guarded _ _ _ _) => apply sure_guarded
  | |- sure (on_state _ _) => apply sure_on_state
  | |- sure (mbind _ _) => apply sure_bind; [sure|intros ?; sure]
  | |- sure (match ?x with _ => _ end) => destruct x; sure
  | |- _ => done
  end.

Lemma handle_sure cmd : draws cmd = false → sure (handle_command cmd).
Proof.
  destruct cmd; intros [=]; unfold handle_command; cbn [handle_with];
    unfold clear_arm, damage_for_clear, state_arm, call_arm, use_program, bind_buffer, bind_texture, active_texture,
      bind_renderbuffer, bind_vertex_array, bind_sampler, bind_buffer_base, bind_buffer_range, sampler_parameter, uniform,
      enable_cap, disable_cap, bind_framebuffer; sure.
Qed.

(** No object is made, lost or charged. *)
Lemma t_wire cmd : draws cmd = false → triple good (on_core (handle_command cmd)) (λ _, good).
Proof.
  intros Hd live m r l m' G E _. unfold on_core in E.
  destruct (handle_steady (λ b, b) cmd (core m)) as [Hk Hf]. pose proof (handle_sure cmd Hd (core m)) as Hs.
  unfold handle_command in *. destruct (handle_with (λ b, b) cmd (core m)) as [[r0 l0] cm']. cbn [fst snd] in *.
  injection E as <- <- <-. rewrite alive_called.
  destruct Hf as [Hb Hbd]; [split; [apply (g_budget _ _ _ _ G)|apply (g_bound _ _ _ _ G)]|].
  unfold kept, base, ledger in Hk. injection Hk as E1 E2 E3 E4 E5 E6 E7 E8 E9 E10 E11 L1 L2 L3 L4.
  assert (Ht : ∀ k, table k (m <| core := cm' |>) = table k m) by (intros []; cbn; done).
  assert (Hch : ∀ k i, charged_to k (webgl_gpu_budget cm') i = charged_to k (webgl_gpu_budget (core m)) i)
    by (intros [] i; cbn; rewrite ?L3, ?L4; done).
  assert (Hl : living (m <| core := cm' |>) = living m) by (unfold living; cbn; by rewrite E1).
  assert (Hgood : good live (m <| core := cm' |>)).
  { split; try apply G; try done.
    - apply (accounted_same _ m); [|apply G]. intros [k i|c]; cbn [slot_obj]; rewrite Hl; [by rewrite Ht|done].
    - cbn. rewrite E2. apply (g_unshared _ _ _ _ G).
    - cbn. unfold charged. rewrite L2. apply (g_covered _ _ _ _ G).
    - intros k i Hk Hne. rewrite Ht. cbn [core]. cbn. rewrite Hch. by apply (g_ledger _ _ _ _ G).
    - intros k i meta. rewrite Ht. apply (g_owned _ _ _ _ G). }
  by destruct r0.
Qed.
End wire.

(** * Whole runs *)

Inductive Op :=
  | WireCommand (cmd : GLCmd)
  | ObjectCommand (cmd : ObjectCmd)
  | RegisterOffscreen (id w h : Z)
  | DestroyCanvas (id : Z)
  | CopyImage (canvas : Z).

Section run.
Context `{Surf : !Egl} `{Ans : !Answers} `{HO : !HashOrder Z, HO2 : !HashOrder (Z * Z)}.

Definition perform (op : Op) : O unit :=
  match op with
  | WireCommand cmd => on_core (handle_command cmd);; mret tt
  | ObjectCommand cmd => handle_object cmd;; mret tt
  | RegisterOffscreen id w h => register_offscreen id w h
  | DestroyCanvas id => destroy_canvas id
  | CopyImage canvas => begin_image_copy canvas;; mret tt
  end.

(** An error ends its operation only. *)
Fixpoint run_ops (ops : list Op) : O unit :=
  match ops with
  | [] => mret tt
  | op :: ops => attempt (perform op);; run_ops ops
  end.

(** Commands of the wire that draw change no object ([handle_steady]) and may
    overflow; a client's names and a canvas's are new when they are first used. *)
Definition op_ok (op : Op) (m : Manager) : Prop :=
  match op with
  | WireCommand cmd => draws cmd = false
  | ObjectCommand cmd => unused cmd m
  | RegisterOffscreen id _ _ => newcomer id m
  | DestroyCanvas _ | CopyImage _ => True
  end.
Fixpoint ops_ok (ops : list Op) (m : Manager) : Prop :=
  match ops with [] => True | op :: ops => op_ok op m ∧ ops_ok ops (perform op m).2 end.

Lemma t_perform op : (∀ n, egl_make_current n = true) → triple (having (op_ok op) ∅ None) (perform op) (λ _, good).
Proof.
  intros Hegl. destruct op as [cmd|cmd|id w h|id|c]; cbn [perform op_ok].
  - apply t_finish. apply (t_pure (draws cmd = false)). apply t_wire.
  - apply t_finish. by apply t_handle_object.
  - by apply t_register.
  - eapply t_pre; [|by apply t_destroy_canvas]. by intros live m [_ ?].
  - apply t_finish. eapply t_pre; [|by apply t_ensure_copy_fbo]. by intros live m [_ ?].
Qed.

Lemma run_good ops : (∀ n, egl_make_current n = true) → ∀ m live r l m', good live m → ops_ok ops m →
  run_ops ops m = (r, l, m') → fresh_all live l → r = Ret tt ∧ good (alive_all live l) m'.
Proof.
  intros Hegl. induction ops as [|op ops IH]; intros m live r l m' G Hops; cbn [run_ops].
  { by intros [= <- <- <-] _. }
  destruct Hops as [Hop Hops]. unfold mbind, O_bind, attempt.
  pose proof (t_perform op Hegl live m) as H. destruct (perform op m) as [[r1 l1] m1] eqn:E1. cbn [snd] in Hops.
  specialize (H r1 l1 m1 (conj Hop G) eq_refl).
  destruct r1 as [[]|e| |]; intros Er F; destruct (run_ops ops m1) as [[r2 l2] m2] eqn:E2; cbn in Er;
    rewrite ?E2 in Er; injection Er as <- <- <-.
  3,4: by destruct (H F).
  all: apply fresh_app in F as [F1 F2]; rewrite alive_app; by apply (IH m1 _ r2 l2 m2 (H F1) Hops E2).
Qed.
(** An entry with a name names an object alive, but for the container of a canvas
    that is gone. *)
Lemma entry_alive live m k id meta h :
  good live m → table k m !! id = Some meta → gl_handle meta = Some h →
  (∃ sp, (k, sp, h) ∈ live) ∨ (shared k = false ∧ ∀ c, owner_canvas meta = Some c → c ∉ living m).
Proof.
  intros G Et Eh. destruct (g_accounted _ _ _ _ G) as [H _]. rewrite difference_empty_L in H.
  destruct (meta_obj (living m) k meta) as [[[k' sp] h']|] eqn:E.
  - left. exists sp. apply H. exists (InTable k id). cbn [slot_obj]. rewrite Et. cbn. rewrite E.
    unfold meta_obj in E. rewrite Eh in E. cbn in E. destruct (placed _ _ _); [|done]. cbn in E. congruence.
  - right. unfold meta_obj, placed in E. rewrite Eh in E. cbn in E. destruct (shared k); [done|]. split; [done|].
    intros c Ec Hc. rewrite Ec in E. cbn in E. by rewrite bool_decide_true in E.
Qed.

(** C26: the manager's entries account for the objects of the driver.  While EGL makes
    contexts current and the driver gives fresh names, a run of commands that create,
    allocate, bind and delete objects under names that are new, of wire commands that
    do not draw and of canvas operations never panics, and ends with the slots of
    shared objects and of the canvases that are there in bijection with the objects
    alive: no object leaks and none is deleted twice.  An entry that names no object
    alive is that of a container whose canvas is gone, which destroying a canvas
    leaves in its table ([destroy_keeps_containers]).  The objects the budget charges
    for are those of the tables, with their owners, and its invariants hold. *)
Theorem objects_accounted ops m live r l m' :
  (∀ n, egl_make_current n = true) → good live m → ops_ok ops m →
  run_ops ops m = (r, l, m') → fresh_all live l →
  r = Ret tt ∧ good (alive_all live l) m' ∧
  ∀ k id meta h, table k m' !! id = Some meta → gl_handle meta = Some h →
    (∃ sp, (k, sp, h) ∈ alive_all live l) ∨ (shared k = false ∧ ∀ c, owner_canvas meta = Some c → c ∉ living m').
Proof.
  intros Hegl G Ho E F. destruct (run_good ops Hegl _ _ _ _ _ G Ho E F) as [Hr G']. split; [done|]. split; [done|].
  intros k id meta h. by apply entry_alive.
Qed.
End run.

(** * Containers are deleted at home *)

Section home.
Context `{Surf : !Egl} `{Ans : !Answers} `{HO : !HashOrder Z, HO2 : !HashOrder (Z * Z)}.

Definition is_container_delete (d : Deed) : bool :=
  match d with Deleted k _ _ => negb (shared k) | _ => false end.

(** The computation deletes no container. *)
Definition spares {A : Type} (c : O A) : Prop := ∀ m, Forall (λ d, is_container_delete d = false) (c m).1.2.

Lemma spares_bind {A B : Type} (c : O A) (f : A → O B) : spares c → (∀ a, spares (f a)) → spares (c ≫= f).
Proof.
  intros Hc Hf m. specialize (Hc m). unfold mbind, O_bind. destruct (c m) as [[[a|e| |] l] m1]; cbn [fst snd] in *; try done.
  specialize (Hf a m1). destruct (f a m1) as [[r l'] m2]. cbn [fst snd] in *. by apply Forall_app.
Qed.
Lemma spares_on_core {A : Type} (c : M A) : spares (on_core c).
Proof.
  intros m. unfold on_core. destruct (c (core m)) as [[r l] cm]. cbn. by induction l; [apply Forall_nil|apply Forall_cons].
Qed.
Lemma spares_budget {A : Type} (f : WebGlGpuBudget → ProcessUsage → res (A * (WebGlGpuBudget * ProcessUsage))) : spares (on_budget f).
Proof. intros m. unfold on_budget. destruct (f _ _) as [[a [b u]]|e| |]; by constructor. Qed.
Lemma spares_deed d : (∀ cm, is_container_delete (d cm) = false) → spares (deed d).
Proof. intros Hd m. by apply Forall_singleton. Qed.
Lemma spares_attempt c : spares c → spares (attempt c).
Proof. intros Hc m. specialize (Hc m). unfold attempt. by destruct (c m) as [[[a|e| |] l] m1]. Qed.

Lemma spares_object object : shared (object_kind object) = true → spares (delete_gl_object object).
Proof.
  intros Hs. assert (Ho : owning_context object = None) by by destruct object. unfold delete_gl_object. rewrite Ho.
  apply spares_bind; [apply spares_on_core|intros ?]. apply spares_deed. intros cm. cbn. by rewrite Hs.
Qed.
Lemma spares_if {A : Type} (mk : A → GlObject) found : (∀ x, shared (object_kind (mk x)) = true) → spares (delete_if mk found).
Proof. intros Hs. destruct found; [by apply spares_object|intros m; apply Forall_nil_2]. Qed.

Ltac spare :=
  match goal with
  | |- spares (on_core _) => apply spares_on_core
  | |- spares (on_budget _) => apply spares_budget
  | |- spares (delete_if _ _) => by apply spares_if
  | |- spares (deed _) => by apply spares_deed
  | |- spares (gl_delete _ _) => by apply spares_deed
  | |- spares (mbind _ _) => apply spares_bind; [spare|intros ?; spare]
  | |- spares (match ?x with _ => _ end) => destruct x; spare
  | |- spares _ => intros ?; apply Forall_nil_2
  | |- _ => done
  end.

(** The name of a container a command deletes. *)
Definition deletes_container (cmd : ObjectCmd) : option (Kind * Z) :=
  match cmd with
  | DeleteFramebuffer id => Some (KFramebuffer, id) | DeleteVertexArray id => Some (KVertexArray, id)
  | DeleteQuery id => Some (KQuery, id) | DeleteTransformFeedback id => Some (KTransformFeedback, id)
  | _ => None
  end.

Lemma others_spare cmd : deletes_container cmd = None → spares (handle_object cmd).
Proof.
  destruct cmd; intros [=]; cbn [handle_object];
    unfold create_named, create_framebuffer, create_slot, create_budgeted, delete_program, delete_named, delete_texture,
      delete_renderbuffer, delete_shared, allocate, gl_create, remove_object, take_handle, insert_object; spare.
Qed.

Lemma bind_quiet {A B : Type} (c : O A) (f : A → O B) m a m1 : c m = (Ret a, [], m1) → (c ≫= f) m = f a m1.
Proof. intros E. unfold mbind, O_bind. rewrite E. by destruct (f a m1) as [[r l] m2]. Qed.

(** What [take_for_delete] found in [m]. *)
Definition found (k : Kind) (id : Z) (m : Manager) (r : option (Z * Z)) : Prop :=
  ∀ h c, r = Some (h, c) → ∃ meta, table k m !! id = Some meta ∧ gl_handle meta = Some h ∧ default 0 (owner_canvas meta) = c.
(** Nothing changed that says where canvases draw. *)
Definition near (m m1 : Manager) : Prop :=
  canvases (core m1) = canvases (core m) ∧ contexts_2d (core m1) = contexts_2d (core m) ∧ shared_2d (core m1) = shared_2d (core m).

Definition delete_at_home (k : Kind) (id : Z) (m : Manager) (d : Deed) : Prop :=
  is_container_delete d = true → ∃ meta h c,
    table k m !! id = Some meta ∧ gl_handle meta = Some h ∧ default 0 (owner_canvas meta) = c ∧
    is_Some (canvases (core m) !! c) ∧ d = Deleted k (home (core m) c) h.

Lemma take_found k id m :
  ∃ r m1, take_for_delete k id m = (Ret r, [], m1) ∧ found k id m r ∧ near m m1.
Proof.
  unfold take_for_delete, mbind, O_bind, oget. destruct (table k m !! id) as [[[h|] owner del]|] eqn:E; cbn.
  - eexists _, _. split; [done|]. split; [|by destruct k]. intros ? ? [= <- <-]. eexists. by split.
  - by eexists None, _.
  - by eexists None, _.
Qed.

Lemma delete_container_home object c m :
  owning_context object = Some c → Forall (λ d, is_container_delete d = true →
    is_Some (canvases (core m) !! c) ∧ d = Deleted (object_kind object) (home (core m) c) (object_handle object))
    (delete_gl_object object m).1.2.
Proof.
  intros Ho. unfold delete_gl_object. rewrite Ho. unfold mbind, O_bind, oget.
  destruct (canvases (core m) !! c) as [entry|] eqn:Ec; [|apply Forall_nil_2].
  pose proof (make_current_needed_home c (core m)) as H. unfold on_core, gl_delete, deed.
  destruct (make_current_needed c (core m)) as [[r l] cm]. destruct H as (-> & Hb & _).
  destruct r as [[]|e| |]; cbn; try apply Forall_nil_2. apply Forall_singleton. intros _. split; [by exists entry|].
  by rewrite (Hb tt eq_refl).
Qed.

Lemma delete_found k id (mk : Z → Z → GlObject) r m m1 :
  (∀ h c, object_kind (mk h c) = k ∧ object_handle (mk h c) = h ∧ owning_context (mk h c) = Some c) →
  found k id m r → near m m1 →
  Forall (delete_at_home k id m) ((delete_if (λ '(h, owner), mk h owner) r;; mret NoDamage) m1).1.2.
Proof.
  intros Hmk Hr (E1 & E2 & E3). unfold mbind, O_bind. destruct r as [[h c]|]; cbn [delete_if]; [|apply Forall_nil_2].
  destruct (Hmk h c) as (K1 & K2 & K3). pose proof (delete_container_home (mk h c) c m1 K3) as H.
  destruct (delete_gl_object (mk h c) m1) as [[q l] m2]. cbn [fst snd] in H.
  assert (Hl : Forall (delete_at_home k id m) l).
  { eapply Forall_impl; [exact H|]. intros d Hd Hc. destruct (Hd Hc) as [Hp ->]. destruct (Hr h c eq_refl) as (meta & ? & ? & ?).
    exists meta, h, c. rewrite K1, K2, <- E1. split_and!; try done. f_equal. unfold home, canvas_uses_shared_2d. by rewrite E2, E3. }
  destruct q; cbn; by rewrite ?app_nil_r.
Qed.

Lemma command_deletes cmd m r l m' k b h :
  handle_object cmd m = (r, l, m') → Deleted k b h ∈ l → shared k = false →
  ∃ id meta c, deletes_container cmd = Some (k, id) ∧
    table k m !! id = Some meta ∧ gl_handle meta = Some h ∧ default 0 (owner_canvas meta) = c ∧
    is_Some (canvases (core m) !! c) ∧ b = home (core m) c.
Proof.
  intros E Hd Hs. assert (Hc : is_container_delete (Deleted k b h) = true) by (cbn; by rewrite Hs).
  assert (Hl : match deletes_container cmd with
    | Some (k, id) => Forall (delete_at_home k id m) l
    | None => Forall (λ d, is_container_delete d = false) l end).
  { replace l with (handle_object cmd m).1.2 by by rewrite E. clear E Hd.
    destruct (deletes_container cmd) as [[k0 id]|] eqn:Ec; [|by apply others_spare].
    destruct cmd; try done; injection Ec as <- <-; cbn [handle_object]; unfold delete_owned, delete_framebuffer, delete_vertex_array;
      match goal with |- context [take_for_delete ?k ?id] => destruct (take_found k id m) as (r0 & m1 & Et & Hf & Hn) end;
      rewrite (bind_quiet _ _ _ _ _ Et).
    - rewrite (bind_quiet (remove_object _ _) _ m1 _ _ eq_refl). by eapply (delete_found _ _ Framebuffer).
    - rewrite (bind_quiet (sweep_states _) _ m1 _ _ eq_refl). by eapply (delete_found _ _ VertexArray).
    - by eapply (delete_found _ _ Query).
    - by eapply (delete_found _ _ TransformFeedback). }
  destruct (deletes_container cmd) as [[k0 id]|].
  - rewrite Forall_forall in Hl. destruct (Hl _ Hd Hc) as (meta & h0 & c & H1 & H2 & H3 & H4 & [= -> -> ->]). by exists id, meta, c.
  - rewrite Forall_forall in Hl. by rewrite (Hl _ Hd) in Hc.
Qed.
(** The containers that end with a canvas: its framebuffer for image copies, whichever
    context is current then. *)
Definition copy_deleted (id : Z) (m : Manager) (d : Deed) : Prop :=
  is_container_delete d = true → ∃ b h, d = Deleted KFramebuffer b h ∧ image_copy_fbos m !! id = Some h.
Definition ends_copy {A : Type} (id : Z) (c : O A) : Prop := ∀ m, Forall (copy_deleted id m) (c m).1.2.
(** The computation does not touch them. *)
Definition keeps_copies {A : Type} (c : O A) : Prop := spares c ∧ ∀ m, image_copy_fbos (c m).2 = image_copy_fbos m.

Lemma spares_ends {A : Type} id (c : O A) : spares c → ends_copy id c.
Proof. intros Hc m. eapply Forall_impl; [apply Hc|]. intros d Hd. unfold copy_deleted. by rewrite Hd. Qed.

Lemma ends_after {A B : Type} id (c : O A) (f : A → O B) : keeps_copies c → (∀ a, ends_copy id (f a)) → ends_copy id (c ≫= f).
Proof.
  intros [Hs Hk] Hf m. specialize (Hk m). pose proof (spares_ends id c Hs m) as H. unfold mbind, O_bind.
  destruct (c m) as [[[a|e| |] l] m1]; cbn [fst snd] in *; try done. specialize (Hf a m1). destruct (f a m1) as [[r l'] m2].
  cbn [fst snd] in *. apply Forall_app. split; [done|]. eapply Forall_impl; [exact Hf|]. intros d. unfold copy_deleted. by rewrite Hk.
Qed.

Lemma ends_before {A B : Type} id (c : O A) (f : A → O B) : ends_copy id c → (∀ a, spares (f a)) → ends_copy id (c ≫= f).
Proof.
  intros Hc Hf m. specialize (Hc m). unfold mbind, O_bind. destruct (c m) as [[[a|e| |] l] m1]; cbn [fst snd] in *; try done.
  specialize (Hf a m1). destruct (f a m1) as [[r l'] m2]. cbn [fst snd] in *. apply Forall_app. split; [done|].
  eapply Forall_impl; [exact Hf|]. intros d Hd. unfold copy_deleted. by rewrite Hd.
Qed.

Lemma keeps_bind {A B : Type} (c : O A) (f : A → O B) : keeps_copies c → (∀ a, keeps_copies (f a)) → keeps_copies (c ≫= f).
Proof.
  intros [Hs Hk] Hf. split; [by apply spares_bind; [|intros a; apply Hf]|]. intros m. specialize (Hk m).
  unfold mbind, O_bind. destruct (c m) as [[[a|e| |] l] m1]; cbn [snd] in *; try done.
  pose proof (proj2 (Hf a) m1) as H. destruct (f a m1) as [[r l'] m2]. cbn [snd] in *. congruence.
Qed.
Lemma keeps_on_core {A : Type} (c : M A) : keeps_copies (on_core c).
Proof. split; [apply spares_on_core|]. intros m. unfold on_core. by destruct (c (core m)) as [[r l] cm]. Qed.
Lemma keeps_budget {A : Type} (f : WebGlGpuBudget → ProcessUsage → res (A * (WebGlGpuBudget * ProcessUsage))) : keeps_copies (on_budget f).
Proof. split; [apply spares_budget|]. intros m. unfold on_budget. by destruct (f _ _) as [[a [b u]]|e| |]. Qed.
Lemma keeps_attempt c : keeps_copies c → keeps_copies (attempt c).
Proof.
  intros [Hs Hk]. split; [by apply spares_attempt|]. intros m. specialize (Hk m). unfold attempt.
  by destruct (c m) as [[[a|e| |] l] m1].
Qed.
Lemma keeps_deed d : (∀ cm, is_container_delete (d cm) = false) → keeps_copies (deed d).
Proof. intros Hd. split; [by apply spares_deed|done]. Qed.
Lemma keeps_modify f : (∀ m, image_copy_fbos (f m) = image_copy_fbos m) → keeps_copies (omodify f).
Proof. intros Hf. split; [intros m; apply Forall_nil_2|apply Hf]. Qed.
Lemma keeps_get {A : Type} (f : Manager → A) : keeps_copies (oget f).
Proof. split; [intros m; apply Forall_nil_2|done]. Qed.
Lemma keeps_remove k id : keeps_copies (remove_object k id).
Proof. split; [intros m; apply Forall_nil_2|by destruct k]. Qed.
Lemma keeps_nothing {A : Type} (a : A) : keeps_copies (mret a).
Proof. split; [intros m; apply Forall_nil_2|done]. Qed.

Ltac keeps :=
  match goal with
  | |- keeps_copies (on_core _) => apply keeps_on_core
  | |- keeps_copies (on_budget _) => apply keeps_budget
  | |- keeps_copies (oget _) => apply keeps_get
  | |- keeps_copies (mret _) => apply keeps_nothing
  | |- keeps_copies (remove_object _ _) => apply keeps_remove
  | |- keeps_copies (omodify _) => by apply keeps_modify
  | |- keeps_copies (deed _) => by apply keeps_deed
  | |- keeps_copies (gl_delete _ _) => by apply keeps_deed
  | |- keeps_copies (attempt _) => apply keeps_attempt; keeps
  | |- keeps_copies (mbind _ _) => apply keeps_bind; [keeps|intros ?; keeps]
  | |- keeps_copies (match ?x with _ => _ end) => destruct x; keeps
  | |- _ => done
  end.

Lemma keeps_swept k account ids : shared k = true → keeps_copies (delete_swept k account ids).
Proof.
  intros Hk. induction ids as [|id ids IH]; cbn [delete_swept]; [keeps|].
  apply keeps_bind; [keeps|]. intros meta. apply keeps_bind; [|intros ?; keeps].
  destruct (meta ≫= gl_handle); [|keeps]. apply keeps_deed. intros cm. cbn. by rewrite Hk.
Qed.

Lemma drop_ends id : ends_copy id (drop_copy_fbo id).
Proof.
  intros m. unfold drop_copy_fbo, mbind, O_bind, oget, omodify. destruct (image_copy_fbos m !! id) as [h|] eqn:E; [|apply Forall_nil_2].
  apply Forall_singleton. intros _. by exists (bound (core m)), h.
Qed.

Lemma spares_evaluate : spares evaluate_bypass.
Proof.
  intros m. destruct (evaluate_bypass_result m) as (l & cs & -> & _). cbn [fst snd]. by induction l; constructor.
Qed.

Lemma destroy_ends id : ends_copy id (destroy_canvas id).
Proof.
  unfold destroy_canvas. destruct (id =? ONSCREEN); [intros m; apply Forall_nil_2|].
  apply ends_after; [keeps|]. intros [entry|]; [|apply spares_ends, spares_bind; [intros m; apply Forall_nil_2|intros ?; apply spares_evaluate]].
  apply ends_before; [|intros ?; apply spares_evaluate].
  apply ends_after; [unfold destroy_context; keeps|intros saved].
  do 2 (apply ends_after; [keeps|intros ?]). apply ends_after; [by apply keeps_swept|intros ?].
  apply ends_after; [keeps|intros ?]. apply ends_after; [by apply keeps_swept|intros ?]. apply ends_after; [keeps|intros ?].
  apply ends_before; [apply drop_ends|]. intros ?. apply spares_bind; [|intros ? ?; apply Forall_nil_2].
  apply spares_attempt. destruct saved; cbn [restore_bound]; spare.
Qed.

(** The operations that are no command of their own. *)
Lemma other_spare op : match op with ObjectCommand _ | DestroyCanvas _ => True | _ => spares (perform op) end.
Proof.
  destruct op; cbn [perform]; try done.
  - spare.
  - unfold register_offscreen. destruct (checked_canvas_pixel_count _ _); [|spare].
    apply spares_bind; [spare|intros [?|]; [spare|]]. apply spares_bind; [spare|intros [|]; [|spare]].
    do 2 (apply spares_bind; [spare|intros ?]). apply spares_evaluate.
  - unfold begin_image_copy, ensure_image_copy_fbo, gl_create. spare.
Qed.

End home.

(** * Samples *)

#[global] Instance fresh_dec live d : Decision (fresh live d).
Proof. destruct d; cbn [fresh]; apply _. Defined.
#[global] Instance fresh_all_dec live l : Decision (fresh_all live l).
Proof. revert live. induction l as [|d l IH]; intros live; cbn [fresh_all]; [apply _|]. pose proof (IH (alive live d)). apply _. Defined.

(** A manager with its canvases and no object yet. *)
Definition first_manager (canvases : gmap Z CanvasEntry) (limits : GpuBudgetLimits) (max_process : Z) : Manager := {|
  core := {| bound := Resource; canvases := canvases; shared_2d := None; contexts_2d := keyed_default; programs := ∅;
    buffers := ∅; Handler.textures := ∅; framebuffers := ∅; Handler.renderbuffers := ∅; vaos := ∅; samplers := ∅;
    gl_state := keyed_default; webgl_gpu_budget := with_parts limits; hot := hot_new; damage := acc_new; egl_calls := 0 |};
  shaders := ∅; syncs := ∅; queries := ∅; transform_feedbacks := ∅; pending_links := []; image_copy_fbos := ∅; dirty_2d := ∅;
  needs_default_fbo_readback := false; damage_history := Present.history_new; pending_present_plan := None;
  usage := process_new max_process; asked := 0 |}.

Lemma first_accounts canvases limits max_process :
  0 ≤ max_context_bytes limits ≤ u64_max → 0 ≤ max_process ≤ u64_max → good ∅ (first_manager canvases limits max_process).
Proof.
  intros Hl Hp. set (m := first_manager canvases limits max_process).
  assert (Ht : ∀ k i, table k m !! i = None) by (intros [] i; apply lookup_empty).
  split; try done.
  - assert (Hs : ∀ s, slot_obj m s = None) by (intros [k i|c]; cbn [slot_obj]; [by rewrite Ht|done]).
    split; [|by intros s s' o; rewrite Hs]. intros o. split; [set_solver|]. intros [s E]. by rewrite Hs in E.
  - by apply with_parts_ok.
  - split; cbn; lia.
  - intros k i _ _. rewrite Ht. by destruct k.
  - intros k i meta _. by rewrite Ht.
Qed.

Definition sample_answers : Answers := {| gen_name n := Some (100 + Z.of_nat n); try_reserve _ := true; create_pbuffer_context _ := true |}.

Section samples.
#[local] Existing Instance sample_egl.
#[local] Existing Instance sample_answers.
#[local] Existing Instance list_order.

Definition start : Manager := first_manager (Handler.canvases sample_manager) PRODUCTION MAX_PROCESS_BYTES.

(** Objects of two canvases; the second goes, and its texture with it. *)
Definition two_canvases : list Op :=
  [RegisterOffscreen 2 64 64; ObjectCommand (CreateTexture 2 9); WireCommand (BindTexture 2 TEXTURE_2D (Some 9));
   ObjectCommand (TexStorage2D 2 TEXTURE_2D 1 32856 16 16); ObjectCommand (CreateFramebuffer 2 3);
   ObjectCommand (CreateBuffer 1 7); CopyImage 1; CopyImage 2; ObjectCommand (CreateFramebuffer 1 4);
   ObjectCommand (DeleteBuffer 7); DestroyCanvas 2; ObjectCommand (DeleteFramebuffer 3); ObjectCommand (DeleteFramebuffer 4)].

Lemma two_canvases_ok : ops_ok two_canvases start.
Proof.
  split; [right; split; [|by vm_compute]; intros k i meta _; by destruct k; cbn; rewrite lookup_empty|].
  repeat (split; [by vm_compute|]). exact I.
Qed.

Lemma objects_accounted_witness :
  let run := run_ops two_canvases start in
  run.1.1 = Ret tt ∧ alive_all ∅ run.1.2 = {[(KFramebuffer, Some (Canvas 1), 106)]} ∧ bytes (usage run.2) = 0 ∧
  good (alive_all ∅ run.1.2) run.2.
Proof.
  intros run. destruct (objects_accounted two_canvases start ∅ run.1.1 run.1.2 run.2) as (Hr & G & _).
  - done.
  - by apply first_accounts.
  - apply two_canvases_ok.
  - apply run_split.
  - apply (bool_decide_unpack _). by vm_compute.
  - split; [exact Hr|]. split; [by vm_compute|]. split; [by vm_compute|exact G].
Defined.

(** A framebuffer of canvas 1, deleted while canvas 2 is current. *)
Definition two_framebuffers : list Op :=
  [RegisterOffscreen 2 64 64; ObjectCommand (CreateFramebuffer 1 4); ObjectCommand (CreateFramebuffer 2 3)].


(** ** What is not kept *)

(** The framebuffer for image copies, which canvas 2's context made, is deleted in
    the resource context. *)
Lemma copy_fbo_deleted_elsewhere :
  let l := (run_ops [RegisterOffscreen 2 64 64; CopyImage 2; DestroyCanvas 2] start).1.2 in
  l = [ContextMade 2; Created KFramebuffer (Canvas 2) 101; ContextDestroyed 2; Deleted KFramebuffer Resource 101].
Proof. by vm_compute. Qed.

(** With the last offscreen canvas the bypass comes on while the onscreen context is
    not current: its driver keeps the drawing buffer's framebuffer bound where the
    default one is now the window's, and neither the command that makes the context
    current again nor a binding of the default framebuffer, which is skipped,
    corrects it. *)
Lemma destroy_strands_default :
  let '(_, l, m) := run_ops [RegisterOffscreen 2 64 64; WireCommand (BindFramebuffer 1 FRAMEBUFFER None);
    WireCommand (Viewport 2 0 0 64 64); DestroyCanvas 2; WireCommand (Viewport 1 0 0 8 8);
    WireCommand (BindFramebuffer 1 FRAMEBUFFER None)] start in
  l = [ContextMade 2; Called (Canvas 1, gl_bind_framebuffer FRAMEBUFFER (Some 3)); Called (Canvas 2, gl_viewport 0 0 64 64);
       ContextDestroyed 2; Called (Canvas 1, gl_viewport 0 0 8 8)] ∧
  bypass_drawing_buffer <$> canvases (core m) !! ONSCREEN = Some true ∧ get_drawing_buffer_fbo (core m) ONSCREEN = None.
Proof. by vm_compute. Qed.

(** When no context can be made current the texture's entry goes and its charge
    stays. *)
Lemma failed_delete_keeps_charge :
  let m := (run_ops [ObjectCommand (CreateTexture 1 9)] start).2 in
  let '(r, l, m') := delete_texture (Surf:={| egl_make_current _ := false |}) 9 (m <| core := (core m) <| bound := Resource |> |>) in
  r = Fail RenderBackendError ∧ l = [] ∧ table KTexture m' !! 9 = None ∧
  charged_to KTexture (webgl_gpu_budget (core m')) 9 = Some 1.
Proof. by vm_compute. Qed.

(** A copy of an image leaves another framebuffer to be read than it found: for the
    client's framebuffer 3, of native name 100, the driver is told 3, and for the
    default framebuffer, which is the drawing buffer's, the window's. *)
Lemma copy_loses_read_framebuffer :
  let m := (run_ops [ObjectCommand (CreateFramebuffer 1 3)] start).2 in
  let copied framebuffer :=
    (on_core (handle_command (BindFramebuffer 1 READ_FRAMEBUFFER framebuffer));;
     fbo ← begin_image_copy 1; prev ← on_core (borrow_read_framebuffer 1 fbo); on_core (return_read_framebuffer 1 prev)) m in
  (copied (Some 3)).1.2 = [Called (Canvas 1, gl_bind_framebuffer READ_FRAMEBUFFER (Some 100)); Created KFramebuffer (Canvas 1) 101;
    Called (Canvas 1, gl_bind_framebuffer READ_FRAMEBUFFER (Some 101)); Called (Canvas 1, gl_bind_framebuffer READ_FRAMEBUFFER (Some 3))] ∧
  (copied None).1.2 = [Called (Canvas 1, gl_bind_framebuffer READ_FRAMEBUFFER (Some 3)); Created KFramebuffer (Canvas 1) 101;
    Called (Canvas 1, gl_bind_framebuffer READ_FRAMEBUFFER (Some 101)); Called (Canvas 1, gl_bind_framebuffer READ_FRAMEBUFFER None)].
Proof. by vm_compute. Qed.

(** A destroyed canvas's containers keep their entries. *)
Lemma destroy_keeps_containers :
  let m := (run_ops [RegisterOffscreen 2 64 64; ObjectCommand (CreateVertexArray 2 5); DestroyCanvas 2] start).2 in
  canvases (core m) !! 2 = None ∧
  table KVertexArray m !! 5 = Some {| gl_handle := Some 101; owner_canvas := Some 2; deleted := false |}.
Proof. by vm_compute. Qed.
End samples.

(** The loss of the GPU empties every table but two; what is left of them names
    objects of the group that is gone, and the record of the shared 2D context
    stays with them. *)
Lemma teardown_leaves m r l m' :
  tear_down_share_group m = (r, l, m') → samplers (core m') = samplers (core m) ∧ syncs m' = syncs m ∧
  shared_2d (core m') = shared_2d (core m) ∧
  (r = Ret tt → ∀ k, k ≠ KSampler → k ≠ KSync → table k m' = ∅).
Proof.
  unfold tear_down_share_group, mbind, O_bind. cbn [omodify deed app]. unfold on_budget. cbn [core usage].
  destruct (budget_clear _ _) as [[a [b u]]|e| |]; cbn; intros [= <- <- <-]; cbn; (split_and!; [done..|]); try done.
  intros _ k H1 H2. by destruct k.
Qed.
