(* ===== verification/HostChannel.v ===== *)
(** The queue of commands to a host ([engine/crates/shared], [host_channel.rs]).

    Every operation holds the queue's mutex, so a run of the channel is a sequence
    of steps.  The wake-ups of a receiver that waits are left out.

    A command that is accepted is delivered, once and in order, unless it is
    replaceable state that something newer of its stream replaced
    ([channel_delivers]); the budgets of the lanes hold ([channel_keeps_budgets]). *)
From S2P Require Import Prelude.

Set Default Proof Using "Type".

(** * Data *)

Inductive InputStream := Touch | Pointer | Composition | Gamepad (index : Z).
#[global] Instance InputStream_eq_dec : EqDecision InputStream.
Proof. solve_decision. Defined.

Inductive InputSendOutcome := Enqueued | Coalesced | Reserved.

Inductive QueueLane := LaneNormal | LaneReserved | LaneCritical.
#[global] Instance QueueLane_eq_dec : EqDecision QueueLane.
Proof. solve_decision. Defined.

Record InputMetadata := { stream : InputStream; coalescible : bool }.

(** Over the type of commands. *)
Record QueuedHostCommand {C : Type} := { command : C; lane : QueueLane; input : option InputMetadata }.
Arguments QueuedHostCommand C : clear implicits.

Record QueueState {C : Type} := {
  entries : list (QueuedHostCommand C);
  normal_len : Z;
  reserved_len : Z;
  receiver_open : bool;
  normal_senders : Z;
  critical_senders : Z;
}.
Arguments QueueState C : clear implicits.
#[global] Instance eta_QueueState {C} : Eta (QueueState C) := λ r, {|
  entries := entries r; normal_len := normal_len r; reserved_len := reserved_len r; receiver_open := receiver_open r;
  normal_senders := normal_senders r; critical_senders := critical_senders r |}.

Inductive TrySendError {C : Type} := Full (c : C) | Closed (c : C).
Arguments TrySendError C : clear implicits.
Inductive TryRecvError := Empty | Disconnected.

Definition DEFAULT_RELIABLE_INPUT_RESERVE : Z := 64.

(** [Iterator::rposition] *)
Fixpoint rposition {A} (p : A → bool) (l : list A) : option nat :=
  match l with
  | [] => None
  | x :: l => match rposition p l with Some i => Some (S i) | None => if p x then Some 0%nat else None end
  end.

(** [VecDeque::retain] with a running index. *)
Fixpoint retain {A} (keep : nat → A → bool) (index : nat) (l : list A) : list A :=
  match l with
  | [] => []
  | x :: l => if keep index x then x :: retain keep (S index) l else retain keep (S index) l
  end.

(** * Operations *)

(** The budgets of a channel. *)
Record Budgets := { normal_capacity : Z; reliable_capacity : Z }.

Definition channel_with_reserve {C} (q : Budgets) : result (QueueState C) :=
  if negb (0 <? normal_capacity q) then Panic else
  if negb (0 <? reliable_capacity q) then Panic else
  Ret {| entries := []; normal_len := 0; reserved_len := 0; receiver_open := true; normal_senders := 1; critical_senders := 1 |}.

Section channel.
Context {C : Type} (q : Budgets).
Implicit Types (s : QueueState C) (e : QueuedHostCommand C) (c : C) (i : InputStream).

(** A sender's answer: the state it leaves, or its error, and then the state is as
    it was. *)
Abbreviation Sent A := (outcome (TrySendError C) (A * QueueState C)).

Definition is_critical e : bool := bool_decide (lane e = LaneCritical).
Definition of_stream i e : bool := match input e with Some m => bool_decide (stream m = i) | None => false end.
Definition is_coalescible e : bool := match input e with Some m => coalescible m | None => false end.

Definition input_epoch_start (l : list (QueuedHostCommand C)) : nat :=
  match rposition is_critical l with Some index => S index | None => 0%nat end.

Definition push {E} s c (ln : QueueLane) (meta : option InputMetadata) : outcome E (QueueState C) :=
  s ← match ln with
      | LaneNormal => n ← u64_add (normal_len s) 1; Ret (s <| normal_len := n |>)
      | LaneReserved => n ← u64_add (reserved_len s) 1; Ret (s <| reserved_len := n |>)
      | LaneCritical => Ret s
      end;
  Ret (s <| entries := entries s ++ [{| command := c; lane := ln; input := meta |}] |>).

Definition pop {E} s : outcome E (option (QueuedHostCommand C * QueueState C)) :=
  match entries s with
  | [] => Ret None
  | queued :: rest =>
      let s := s <| entries := rest |> in
      s ← match lane queued with
          | LaneNormal => n ← u64_sub (normal_len s) 1; Ret (s <| normal_len := n |>)
          | LaneReserved => n ← u64_sub (reserved_len s) 1; Ret (s <| reserved_len := n |>)
          | LaneCritical => Ret s
          end;
      Ret (Some (queued, s))
  end.

Definition senders_closed s : bool := (normal_senders s =? 0) && (critical_senders s =? 0).

Definition try_send c s : Sent unit :=
  if negb (receiver_open s) then Fail (Closed c) else
  if normal_len s =? normal_capacity q then Fail (Full c) else
  s ← push s c LaneNormal None;
  Ret (tt, s).

(** The newest entry of the stream in this epoch, if it may be replaced. *)
Definition replaceable i s : option (nat * QueuedHostCommand C) :=
  let epoch_start := input_epoch_start (entries s) in
  newest ← rposition (of_stream i) (drop epoch_start (entries s));
  e ← entries s !! (epoch_start + newest)%nat;
  if is_coalescible e then Some ((epoch_start + newest)%nat, e) else None.

Definition try_send_coalescible i c s : Sent InputSendOutcome :=
  if negb (receiver_open s) then Fail (Closed c) else
  match replaceable i s with
  | Some (at_, e) =>
      Ret (Coalesced, s <| entries := <[at_ := {| command := c; lane := lane e; input := input e |}]> (entries s) |>)
  | None =>
      if normal_len s =? normal_capacity q then Fail (Full c) else
      s ← push s c LaneNormal (Some {| stream := i; coalescible := true |});
      Ret (Enqueued, s)
  end.

Definition removable e i : bool := bool_decide (lane e = LaneNormal) && of_stream i e && is_coalescible e.

Definition try_send_transition (si : option InputStream) c (supersede_coalescible : bool) s : Sent InputSendOutcome :=
  if negb (receiver_open s) then Fail (Closed c) else
  let epoch_start := input_epoch_start (entries s) in
  let removable_normal :=
    if supersede_coalescible then
      match si with
      | Some i => lenZ (filter (λ e, removable e i = true) (drop epoch_start (entries s)))
      | None => 0
      end
    else 0 in
  normal_after_supersession ← u64_sub (normal_len s) removable_normal;
  '(ln, out) ← (if normal_after_supersession <? normal_capacity q then Ret (LaneNormal, Enqueued)
                else if reserved_len s <? reliable_capacity q then Ret (LaneReserved, Reserved)
                else Fail (Full c));
  let s :=
    match si with
    | Some i =>
        if supersede_coalescible then
          s <| entries := retain (λ index e, (index <? epoch_start)%nat || negb (of_stream i e && is_coalescible e)) 0 (entries s) |>
        else s
    | None => s
    end in
  let s := s <| normal_len := normal_after_supersession |> in
  s ← push s c ln ((λ i, {| stream := i; coalescible := false |}) <$> si);
  Ret (out, s).

Definition try_send_reliable si c s : Sent InputSendOutcome := try_send_transition si c false s.
Definition try_send_terminal si c s : Sent InputSendOutcome := try_send_transition si c true s.

Definition send c s : Sent unit :=
  if negb (receiver_open s) then Fail (Closed c) else
  s ← push s c LaneCritical None;
  Ret (tt, s).

Definition try_recv s : outcome TryRecvError (QueuedHostCommand C * QueueState C) :=
  popped ← pop s;
  match popped with
  | Some r => Ret r
  | None => if senders_closed s then Fail Disconnected else Fail Empty
  end.

Definition drop_receiver s : QueueState C :=
  s <| receiver_open := false |> <| entries := [] |> <| normal_len := 0 |> <| reserved_len := 0 |>.

Definition clone_sender s : result (QueueState C) :=
  n ← u64_add (normal_senders s) 1; Ret (s <| normal_senders := n |>).
Definition clone_critical s : result (QueueState C) :=
  n ← u64_add (critical_senders s) 1; Ret (s <| critical_senders := n |>).
(** The state, and whether the waiters are woken. *)
Definition drop_sender s : result (bool * QueueState C) :=
  n ← u64_sub (normal_senders s) 1; let s := s <| normal_senders := n |> in Ret (senders_closed s, s).
Definition drop_critical s : result (bool * QueueState C) :=
  n ← u64_sub (critical_senders s) 1; let s := s <| critical_senders := n |> in Ret (senders_closed s, s).
End channel.

(** * Lemmas on lists *)

Lemma rposition_split {A} (p : A → bool) l n :
  rposition p l = Some n →
  ∃ pre x post, l = pre ++ x :: post ∧ length pre = n ∧ p x = true ∧ Forall (λ y, p y = false) post.
Proof.
  assert (Hn : ∀ l, rposition p l = None → Forall (λ y, p y = false) l).
  { clear l n. intros l. induction l as [|x l IH]; cbn; [constructor|]. destruct (rposition p l); [done|].
    destruct (p x) eqn:E; [done|]. intros _. constructor; auto. }
  revert n. induction l as [|x l IH]; intros n; cbn; [done|]. destruct (rposition p l) as [m|] eqn:E.
  - intros [= <-]. destruct (IH m eq_refl) as (pre & y & post & -> & <- & Hy & Hp). by exists (x :: pre), y, post.
  - destruct (p x) eqn:Ex; [|done]. intros [= <-]. exists [], x, l. split_and!; auto.
Qed.

Lemma retain_from {A} (k : nat) (keep : A → bool) (l : list A) n :
  retain (λ index x, (index <? k)%nat || keep x) n l = take (k - n) l ++ filter (λ x, keep x = true) (drop (k - n) l).
Proof.
  revert n. induction l as [|x l IH]; intros n; cbn [retain]; [by rewrite take_nil, drop_nil|].
  destruct (Nat.ltb_spec n k) as [Hn|Hn]; cbn [orb].
  - rewrite IH. replace (k - n)%nat with (S (k - S n)) by lia. done.
  - replace (k - n)%nat with 0%nat by lia. cbn [take drop app]. rewrite IH. replace (k - S n)%nat with 0%nat by lia. cbn [take drop app].
    rewrite filter_cons. by destruct (keep x).
Qed.

Lemma filter_filter_off {A} (P Q : A → Prop) `{∀ x, Decision (P x), ∀ x, Decision (Q x)} (l : list A) :
  (∀ x, x ∈ l → P x → Q x) → filter P (filter Q l) = filter P l.
Proof.
  intros HPQ. induction l as [|x l IH]; [done|]. rewrite !filter_cons. specialize (IH (λ y Hy, HPQ y (list_elem_of_further _ _ _ Hy))).
  specialize (HPQ x (list_elem_of_here _ _)). destruct (decide (Q x)) as [Hq|Hq].
  - rewrite filter_cons, IH. done.
  - rewrite IH. destruct (decide (P x)); [|done]. tauto.
Qed.

Lemma sublist_filter_mono {A} (P : A → Prop) `{∀ x, Decision (P x)} (l k : list A) :
  sublist l k → sublist (filter P l) (filter P k).
Proof.
  induction 1 as [|x l k _ IH|x l k _ IH]; [constructor|..]; rewrite ?filter_cons; try rewrite (filter_cons P x k);
    destruct (decide (P x)); try done; by constructor.
Qed.

(** * The invariant *)

Section invariant.
Context {C : Type} (q : Budgets).
Implicit Types (s : QueueState C) (e : QueuedHostCommand C) (l : list (QueuedHostCommand C)).

Definition in_lane (ln : QueueLane) l : Z := lenZ (filter (λ e, lane e = ln) l).

(** State that may be replaced holds normal budget; a critical command is of no
    stream. *)
Definition well_laned e : Prop :=
  (is_coalescible e = true → lane e = LaneNormal) ∧ (lane e = LaneCritical → input e = None).

Record channel_ok s : Prop := {
  ok_normal : normal_len s = in_lane LaneNormal (entries s) ∧ normal_len s ≤ normal_capacity q;
  ok_reserved : reserved_len s = in_lane LaneReserved (entries s) ∧ reserved_len s ≤ reliable_capacity q;
  ok_laned : Forall well_laned (entries s);
  ok_senders : 0 ≤ normal_senders s ≤ u64_max ∧ 0 ≤ critical_senders s ≤ u64_max;
}.

Definition budgets_ok : Prop := 0 < normal_capacity q < u64_max ∧ 0 < reliable_capacity q < u64_max.

Lemma in_lane_app ln l k : in_lane ln (l ++ k) = in_lane ln l + in_lane ln k.
Proof. unfold in_lane. rewrite filter_app, length_app. lia. Qed.
Lemma in_lane_one ln e : in_lane ln [e] = if decide (lane e = ln) then 1 else 0.
Proof. unfold in_lane. rewrite filter_cons, filter_nil. by case_decide. Qed.
Lemma in_lane_nonneg ln l : 0 ≤ in_lane ln l.
Proof. unfold in_lane. lia. Qed.
Lemma in_lane_map ln l k : lane <$> l = lane <$> k → in_lane ln l = in_lane ln k.
Proof.
  unfold in_lane. revert k. induction l as [|e l IH]; intros [|e' k]; try done. intros [= He Hl].
  rewrite !filter_cons, He. specialize (IH k Hl). destruct (decide (lane e' = ln)); cbn [length]; lia.
Qed.

Lemma total_bound s :
  channel_ok s → lenZ (entries s) ≤ normal_capacity q + reliable_capacity q + in_lane LaneCritical (entries s).
Proof.
  intros [[Hn Hn'] [Hr Hr'] _ _]. enough (lenZ (entries s) = in_lane LaneNormal (entries s) + in_lane LaneReserved (entries s) + in_lane LaneCritical (entries s)) by lia.
  clear. induction (entries s) as [|e l IH]; [done|]. change (e :: l) with ([e] ++ l). rewrite !in_lane_app, !in_lane_one, length_app.
  destruct (lane e); repeat case_decide; cbn [length]; try done; lia.
Qed.

(** No entry after the epoch's start is critical. *)
Lemma epoch_split l :
  ∃ pre post, l = pre ++ post ∧ length pre = input_epoch_start l ∧ Forall (λ e, is_critical e = false) post.
Proof.
  unfold input_epoch_start. destruct (rposition is_critical l) as [n|] eqn:E.
  - apply rposition_split in E as (pre & x & post & -> & <- & _ & Hp). exists (pre ++ [x]), post.
    rewrite <- app_assoc, length_app. cbn. split_and!; [done|lia|done].
  - exists [], l. split_and!; [done..|]. clear -E. induction l as [|x l IH]; [constructor|]. cbn in E.
    destruct (rposition is_critical l); [done|]. destruct (is_critical x) eqn:Ex; [done|]. constructor; auto.
Qed.

Lemma epoch_drop l pre post : l = pre ++ post → length pre = input_epoch_start l → drop (input_epoch_start l) l = post ∧ take (input_epoch_start l) l = pre.
Proof. intros -> <-. by rewrite drop_app_length, take_app_length. Qed.

(** What is replaced: nothing of its stream and nothing critical follows it. *)
Lemma replaceable_split i s n e :
  replaceable i s = Some (n, e) →
  ∃ pre post, entries s = pre ++ e :: post ∧ length pre = n ∧ of_stream i e = true ∧ is_coalescible e = true ∧
    Forall (λ e, of_stream i e = false ∧ is_critical e = false) post.
Proof.
  unfold replaceable. destruct (epoch_split (entries s)) as (pre & post & E & Hp & Hc).
  destruct (epoch_drop _ _ _ E Hp) as [-> _]. rewrite <- Hp.
  destruct (rposition (of_stream i) post) as [m|] eqn:Er; [|done]. apply rposition_split in Er as (p1 & x & p2 & -> & <- & Hx & Hf).
  cbn [mbind option_bind]. rewrite E. rewrite lookup_app_r by lia. replace (length pre + length p1 - length pre)%nat with (length p1) by lia.
  rewrite list_lookup_middle by done. cbn [mbind option_bind]. destruct (is_coalescible x) eqn:Ex; [|done]. intros [= <- <-].
  exists (pre ++ p1), p2. rewrite length_app, <- app_assoc. split_and!; try done.
  apply Forall_app in Hc as [_ Hc]. inversion Hc; subst. by apply Forall_and.
Qed.

(** The entries a terminal command leaves. *)
Definition superseded (si : option InputStream) (b : bool) l : list (QueuedHostCommand C) :=
  match si with
  | Some i =>
      if b then take (input_epoch_start l) l ++ filter (λ e, negb (of_stream i e && is_coalescible e) = true) (drop (input_epoch_start l) l)
      else l
  | None => l
  end.

Lemma in_lane_superseded si b l :
  Forall well_laned l →
  in_lane LaneNormal (superseded si b l) = in_lane LaneNormal l -
    (if b then match si with Some i => lenZ (filter (λ e, removable e i = true) (drop (input_epoch_start l) l)) | None => 0 end else 0) ∧
  in_lane LaneReserved (superseded si b l) = in_lane LaneReserved l.
Proof.
  intros Hl. unfold superseded. destruct si as [i|], b; try lia. rewrite !in_lane_app.
  assert (Hd : ∀ d, Forall well_laned d →
    in_lane LaneNormal (filter (λ e, negb (of_stream i e && is_coalescible e) = true) d) = in_lane LaneNormal d - lenZ (filter (λ e, removable e i = true) d) ∧
    in_lane LaneReserved (filter (λ e, negb (of_stream i e && is_coalescible e) = true) d) = in_lane LaneReserved d).
  { induction 1 as [|e d [He _] _ IH]; [done|]. change (e :: d) with ([e] ++ d). rewrite !filter_app, !in_lane_app, length_app, Nat2Z.inj_add.
    destruct IH as [-> ->]. rewrite !filter_cons, !filter_nil. unfold removable. destruct (of_stream i e); cbn [andb negb].
    - destruct (is_coalescible e) eqn:Ec; rewrite ?andb_false_r, ?andb_true_r; cbn [negb].
      + rewrite !in_lane_one, (He eq_refl), bool_decide_true by done. repeat (case_decide; try done). change (in_lane _ []) with 0.
        cbn [length]. lia.
      + repeat (case_decide; try done). cbn [length]. lia.
    - rewrite andb_false_r. cbn [andb]. repeat (case_decide; try done). cbn [length]. lia. }
  destruct (Hd (drop (input_epoch_start l) l)) as [-> ->]; [by apply Forall_drop|].
  pose proof (in_lane_app LaneNormal (take (input_epoch_start l) l) (drop (input_epoch_start l) l)) as H1.
  pose proof (in_lane_app LaneReserved (take (input_epoch_start l) l) (drop (input_epoch_start l) l)) as H2.
  rewrite take_drop in H1, H2. lia.
Qed.

(** * What the operations do *)

Lemma push_ok {E} s c ln meta :
  budgets_ok → channel_ok s → well_laned {| command := c; lane := ln; input := meta |} →
  (ln = LaneNormal → normal_len s < normal_capacity q) → (ln = LaneReserved → reserved_len s < reliable_capacity q) →
  ∃ s', push (E:=E) s c ln meta = Ret s' ∧ channel_ok s' ∧ entries s' = entries s ++ [{| command := c; lane := ln; input := meta |}] ∧
    receiver_open s' = receiver_open s ∧ normal_senders s' = normal_senders s ∧ critical_senders s' = critical_senders s.
Proof.
  intros [Hq1 Hq2] [[Hn Hn'] [Hr Hr'] Hl Hs] Hw H1 H2. unfold push.
  destruct ln; try specialize (H1 eq_refl); try specialize (H2 eq_refl); rewrite ?u64_add_ret by lia; cbn [mbind outcome_bind];
    (eexists; split; [reflexivity|]; split; [|by split_and!]); split; cbn; rewrite ?in_lane_app, ?in_lane_one; cbn [lane];
    repeat (case_decide; try done); try (apply Forall_app; split; [done|by apply Forall_singleton]); try done; try lia.
Qed.

(** What an accepted send does: it appends, after taking away what it supersedes, or
    it replaces. *)
Inductive sent : list (QueuedHostCommand C) → QueuedHostCommand C → list (QueuedHostCommand C) → Prop :=
  | sent_appended l e : is_coalescible e = true ∨ input e = None → sent l e (l ++ [e])
  | sent_transition l e si b :
      input e = (λ i, {| stream := i; coalescible := false |}) <$> si → sent l e (superseded si b l ++ [e])
  | sent_replaced pre e post i c :
      of_stream i e = true → is_coalescible e = true → Forall (λ e, of_stream i e = false ∧ is_critical e = false) post →
      sent (pre ++ e :: post) {| command := c; lane := lane e; input := input e |}
        (pre ++ {| command := c; lane := lane e; input := input e |} :: post).

Definition channel_keeps s s' : Prop :=
  receiver_open s' = receiver_open s ∧ normal_senders s' = normal_senders s ∧ critical_senders s' = critical_senders s.

Lemma try_send_spec c s :
  budgets_ok → channel_ok s →
  match try_send q c s with
  | Ret (_, s') => sent (entries s) {| command := c; lane := LaneNormal; input := None |} (entries s') ∧ channel_ok s' ∧ channel_keeps s s'
  | Fail (Full c') => c' = c ∧ receiver_open s = true ∧ in_lane LaneNormal (entries s) = normal_capacity q
  | Fail (Closed c') => c' = c ∧ receiver_open s = false
  | _ => False
  end.
Proof.
  intros Hq Hs. unfold try_send. destruct (receiver_open s) eqn:Eo; [|done]. cbn [negb]. pose proof (ok_normal _ Hs) as [Hn Hn'].
  destruct (Z.eqb_spec (normal_len s) (normal_capacity q)); [split_and!; [done..|lia]|].
  destruct (push_ok (E:=TrySendError C) s c LaneNormal None) as (s' & -> & Hs' & He & Hk); try done; [lia|].
  cbn [mbind outcome_bind]. split_and!; try done; try apply Hk. rewrite He. apply sent_appended. by right.
Qed.

Lemma try_send_coalescible_spec i c s :
  budgets_ok → channel_ok s →
  match try_send_coalescible q i c s with
  | Ret (out, s') =>
      sent (entries s) {| command := c; lane := LaneNormal; input := Some {| stream := i; coalescible := true |} |} (entries s') ∧
      channel_ok s' ∧ channel_keeps s s'
  | Fail (Full c') => c' = c ∧ receiver_open s = true ∧ in_lane LaneNormal (entries s) = normal_capacity q ∧ replaceable i s = None
  | Fail (Closed c') => c' = c ∧ receiver_open s = false
  | _ => False
  end.
Proof.
  intros Hq Hs. unfold try_send_coalescible. destruct (receiver_open s) eqn:Eo; [|done]. cbn [negb].
  destruct (replaceable i s) as [[n e]|] eqn:Er.
  - apply replaceable_split in Er as (pre & post & E & <- & Hi & Hc & Hp).
    assert (Hin : input e = Some {| stream := i; coalescible := true |}).
    { unfold of_stream, is_coalescible in *. destruct (input e) as [[st co]|]; [|done]. cbn in *. bool_to_prop. by subst. }
    pose proof (ok_laned _ Hs) as Hl. rewrite E in Hl. apply Forall_app in Hl as [Hl1 Hl2]. inversion Hl2 as [|? ? He Hl3]; subst.
    assert (Hln : lane e = LaneNormal) by by apply He. rewrite E, insert_app_r_alt by lia. rewrite Nat.sub_diag. cbn [insert list_insert].
    rewrite Hin, Hln. cbn [entries set_field]. split; [|split; [|done]].
    + replace {| command := c; lane := LaneNormal; input := _ |} with {| command := c; lane := lane e; input := input e |}
        by by rewrite Hin, Hln. by apply (sent_replaced pre e post i).
    + destruct Hs as [[Hn Hn'] [Hr Hr'] _ Hs]. rewrite E in Hn, Hr. split; cbn; try done.
      * rewrite (in_lane_map _ _ (pre ++ e :: post)); [done|]. rewrite !fmap_app. cbn. by rewrite Hln.
      * rewrite (in_lane_map _ _ (pre ++ e :: post)); [done|]. rewrite !fmap_app. cbn. by rewrite Hln.
      * apply Forall_app. split; [done|]. constructor; [|done]. by split.
  - pose proof (ok_normal _ Hs) as [Hn Hn']. destruct (Z.eqb_spec (normal_len s) (normal_capacity q)); [split_and!; [done..|lia|done]|].
    destruct (push_ok (E:=TrySendError C) s c LaneNormal (Some {| stream := i; coalescible := true |})) as (s' & -> & Hs' & He & Hk);
      try done; [lia|]. cbn [mbind outcome_bind]. split_and!; try done; try apply Hk. rewrite He. apply sent_appended. by left.
Qed.

(** Pending state of the stream that a terminal command would take away. *)
Definition supersedes (si : option InputStream) (b : bool) s : list (QueuedHostCommand C) :=
  match si with
  | Some i => if b then filter (λ e, removable e i = true) (drop (input_epoch_start (entries s)) (entries s)) else []
  | None => []
  end.

Lemma superseded_laned si b l : Forall well_laned l → Forall well_laned (superseded si b l).
Proof.
  intros Hl. unfold superseded. destruct si, b; try done. apply Forall_app. split; [by apply Forall_take|].
  apply Forall_forall. intros e [_ He]%list_elem_of_filter. pose proof (Forall_drop well_laned (input_epoch_start l) l Hl) as Hd.
  rewrite Forall_forall in Hd. by apply Hd.
Qed.

Lemma try_send_transition_spec si c b s :
  budgets_ok → channel_ok s →
  let item ln := {| command := c; lane := ln; input := (λ i, {| stream := i; coalescible := false |}) <$> si |} in
  match try_send_transition q si c b s with
  | Ret (out, s') =>
      ((out = Enqueued ∧ entries s' = superseded si b (entries s) ++ [item LaneNormal]) ∨
       (out = Reserved ∧ entries s' = superseded si b (entries s) ++ [item LaneReserved])) ∧ channel_ok s' ∧ channel_keeps s s'
  | Fail (Full c') => c' = c ∧ receiver_open s = true ∧
      in_lane LaneNormal (entries s) = normal_capacity q ∧ supersedes si b s = [] ∧ in_lane LaneReserved (entries s) = reliable_capacity q
  | Fail (Closed c') => c' = c ∧ receiver_open s = false
  | _ => False
  end.
Proof.
  intros Hq Hs item. unfold try_send_transition. destruct (receiver_open s) eqn:Eo; [|done]. cbn [negb]. cbv zeta.
  pose proof (in_lane_superseded si b (entries s) (ok_laned _ Hs)) as [Hn1 Hr1].
  pose proof (in_lane_nonneg LaneNormal (superseded si b (entries s))) as Hpos.
  pose proof (ok_normal _ Hs) as [Hn Hn']. pose proof (ok_reserved _ Hs) as [Hr Hr'].
  assert (Hrm : (if b then match si with Some i => lenZ (filter (λ e, removable e i = true) (drop (input_epoch_start (entries s)) (entries s)))
                 | None => 0 end else 0) = lenZ (supersedes si b s)) by (unfold supersedes; by destruct si, b).
  rewrite Hrm in *. rewrite u64_sub_ret by lia. cbn [mbind outcome_bind].
  set (s1 := s <| entries := superseded si b (entries s) |> <| normal_len := normal_len s - lenZ (supersedes si b s) |>).
  assert (Es1 : (match si with Some i => if b then s <| entries := retain (λ index e, (index <? input_epoch_start (entries s))%nat || negb (of_stream i e && is_coalescible e)) 0 (entries s) |> else s | None => s end)
    <| normal_len := normal_len s - lenZ (supersedes si b s) |> = s1).
  { unfold s1, superseded. destruct si as [i|], b; try reflexivity.
    pose proof (retain_from (input_epoch_start (entries s)) (λ e, negb (of_stream i e && is_coalescible e)) (entries s) 0) as Hret.
    cbv beta in Hret. rewrite Nat.sub_0_r in Hret. by rewrite Hret. }
  assert (Hs1 : channel_ok s1).
  { split; cbn; [lia|lia|apply superseded_laned, Hs|apply Hs]. }
  assert (Hw : ∀ ln, ln ≠ LaneCritical → well_laned (item ln)).
  { intros ln Hln. split; [|done]. unfold is_coalescible, item. by destruct si. }
  destruct (Z.ltb_spec (normal_len s - lenZ (supersedes si b s)) (normal_capacity q)) as [Hlt|Hge]; cbn [mbind outcome_bind].
  - rewrite Es1. destruct (push_ok (E:=TrySendError C) s1 c LaneNormal ((λ i, {| stream := i; coalescible := false |}) <$> si)) as (s' & -> & Hs' & He & Hk);
      try done; try by apply Hw. cbn [mbind outcome_bind]. split; [|by split]. left. by rewrite He.
  - assert (supersedes si b s = []) as Hnil by (destruct (supersedes si b s); [done|cbn [length] in *; lia]). rewrite Hnil in Hge. cbn in Hge.
    destruct (Z.ltb_spec (reserved_len s) (reliable_capacity q)) as [Hlt|Hge']; cbn [mbind outcome_bind]; [|split_and!; try done; lia].
    rewrite Es1. destruct (push_ok (E:=TrySendError C) s1 c LaneReserved ((λ i, {| stream := i; coalescible := false |}) <$> si)) as (s' & -> & Hs' & He & Hk);
      try done; try by apply Hw. cbn [mbind outcome_bind]. split; [|by split]. right. by rewrite He.
Qed.

Lemma send_spec c s :
  budgets_ok → channel_ok s →
  match send c s with
  | Ret (_, s') => sent (entries s) {| command := c; lane := LaneCritical; input := None |} (entries s') ∧ channel_ok s' ∧ channel_keeps s s'
  | Fail (Full _) => False
  | Fail (Closed c') => c' = c ∧ receiver_open s = false
  | _ => False
  end.
Proof.
  intros Hq Hs. unfold send. destruct (receiver_open s) eqn:Eo; [|done]. cbn [negb].
  destruct (push_ok (E:=TrySendError C) s c LaneCritical None) as (s' & -> & Hs' & He & Hk); try done.
  cbn [mbind outcome_bind]. split_and!; try done; try apply Hk. rewrite He. apply sent_appended. by right.
Qed.

Lemma try_recv_spec s :
  channel_ok s →
  match try_recv s with
  | Ret (e, s') => entries s = e :: entries s' ∧ channel_ok s' ∧ channel_keeps s s'
  | Fail r => entries s = [] ∧ r = (if senders_closed s then Disconnected else Empty)
  | _ => False
  end.
Proof.
  intros [[Hn Hn'] [Hr Hr'] Hl Hs]. unfold try_recv, pop. destruct (entries s) as [|e l] eqn:E; [cbn; by destruct (senders_closed s)|].
  inversion Hl as [|? ? Hw Hl']; subst. change (e :: l) with ([e] ++ l) in Hn, Hr. rewrite in_lane_app, in_lane_one in Hn, Hr.
  pose proof (in_lane_nonneg LaneNormal l). pose proof (in_lane_nonneg LaneReserved l).
  destruct (lane e) eqn:El; repeat (case_decide; try done); cbn [mbind outcome_bind];
    rewrite ?u64_sub_ret by (cbn; lia); cbn [mbind outcome_bind]; (split; [done|]); (split; [|done]); split; cbn; try done; lia.
Qed.
End invariant.

(** * Runs *)

Inductive ChannelOp {C : Type} :=
  | TrySend (c : C)
  | TrySendCoalescible (i : InputStream) (c : C)
  | TrySendReliable (si : option InputStream) (c : C)
  | TrySendTerminal (si : option InputStream) (c : C)
  | SendCritical (c : C)
  | TryRecv
  | CloneSender | DropSender | CloneCritical | DropCritical | DropReceiver.
Arguments ChannelOp C : clear implicits.

(** A channel with what it took and what it gave, as entries, in order. *)
Record Log {C : Type} := { queue : QueueState C; accepted : list (QueuedHostCommand C); delivered : list (QueuedHostCommand C) }.
Arguments Log C : clear implicits.

Section runs.
Context {C : Type} (q : Budgets).
Implicit Types (g : Log C) (op : ChannelOp C) (e : QueuedHostCommand C).

(** The lane an accepted input was given. *)
Definition lane_of (out : InputSendOutcome) : QueueLane := if out is Reserved then LaneReserved else LaneNormal.

Definition took {A} (entry : A → QueuedHostCommand C) (r : outcome (TrySendError C) (A * QueueState C)) g : result (Log C) :=
  match r with
  | Ret (a, s) => Ret {| queue := s; accepted := accepted g ++ [entry a]; delivered := delivered g |}
  | Fail _ => Ret g
  | Panic => Panic
  | OutOfFuel => OutOfFuel
  end.
Definition became (r : result (QueueState C)) g : result (Log C) :=
  s ← r; Ret {| queue := s; accepted := accepted g; delivered := delivered g |}.

Definition channel_step op g : result (Log C) :=
  match op with
  | TrySend c => took (λ _, {| command := c; lane := LaneNormal; input := None |}) (try_send q c (queue g)) g
  | TrySendCoalescible i c =>
      took (λ _, {| command := c; lane := LaneNormal; input := Some {| stream := i; coalescible := true |} |})
        (try_send_coalescible q i c (queue g)) g
  | TrySendReliable si c =>
      took (λ out, {| command := c; lane := lane_of out; input := (λ i, {| stream := i; coalescible := false |}) <$> si |})
        (try_send_reliable q si c (queue g)) g
  | TrySendTerminal si c =>
      took (λ out, {| command := c; lane := lane_of out; input := (λ i, {| stream := i; coalescible := false |}) <$> si |})
        (try_send_terminal q si c (queue g)) g
  | SendCritical c => took (λ _, {| command := c; lane := LaneCritical; input := None |}) (send c (queue g)) g
  | TryRecv =>
      match try_recv (queue g) with
      | Ret (e, s) => Ret {| queue := s; accepted := accepted g; delivered := delivered g ++ [e] |}
      | Fail _ => Ret g
      | Panic => Panic
      | OutOfFuel => OutOfFuel
      end
  | CloneSender => became (clone_sender (queue g)) g
  | CloneCritical => became (clone_critical (queue g)) g
  | DropSender => became ('(_, s) ← drop_sender (queue g); Ret s) g
  | DropCritical => became ('(_, s) ← drop_critical (queue g); Ret s) g
  | DropReceiver => became (Ret (drop_receiver (queue g))) g
  end.

Fixpoint channel_run (ops : list (ChannelOp C)) g : result (Log C) :=
  match ops with
  | [] => Ret g
  | op :: ops => g ← channel_step op g; channel_run ops g
  end.

(** A sender is cloned or dropped by someone who holds one, and there are fewer of
    them than addresses. *)
Definition held op g : Prop :=
  match op with
  | CloneSender => 0 < normal_senders (queue g) < u64_max
  | CloneCritical => 0 < critical_senders (queue g) < u64_max
  | DropSender => 0 < normal_senders (queue g)
  | DropCritical => 0 < critical_senders (queue g)
  | _ => True
  end.
Fixpoint all_held (ops : list (ChannelOp C)) g : Prop :=
  match ops with
  | [] => True
  | op :: ops => held op g ∧ match channel_step op g with Ret g => all_held ops g | _ => True end
  end.

(** ** What is kept *)

Definition out g : list (QueuedHostCommand C) := delivered g ++ entries (queue g).

Definition fence i e : Prop := of_stream i e = true ∨ lane e = LaneCritical.
#[global] Instance fence_dec i e : Decision (fence i e).
Proof. unfold fence. apply _. Defined.

Definition durable e : Prop := is_coalescible e = false.
#[global] Instance durable_dec e : Decision (durable e).
Proof. unfold durable. apply _. Defined.

(** The log of a channel whose receiver is there. *)
Record delivers (acc l : list (QueuedHostCommand C)) : Prop := {
  d_durable : filter durable l = filter durable acc;
  d_fifo i : sublist (filter (fence i) l) (filter (fence i) acc);
  d_newest i : last (filter (λ e, of_stream i e = true) l) = last (filter (λ e, of_stream i e = true) acc);
}.

Lemma delivers_append acc l e : delivers acc l → delivers (acc ++ [e]) (l ++ [e]).
Proof.
  intros [H1 H2 H3]. split; rewrite ?filter_app.
  - by rewrite H1.
  - intros i. rewrite !filter_app. by apply sublist_app.
  - intros i. rewrite !filter_app, !last_app, H3. done.
Qed.

Lemma of_stream_other i j e : of_stream i e = true → of_stream j e = true → i = j.
Proof. unfold of_stream. destruct (input e); [|done]. intros ??. bool_to_prop. congruence. Qed.

Lemma delivers_replace acc l pre post e e' i :
  of_stream i e = true → is_coalescible e = true → input e' = input e → lane e' = lane e → lane e ≠ LaneCritical →
  Forall (λ e, of_stream i e = false ∧ is_critical e = false) post →
  delivers acc (l ++ pre ++ e :: post) → delivers (acc ++ [e']) (l ++ pre ++ e' :: post).
Proof.
  intros Hi Hc Ein Eln Hln Hp [H1 H2 H3].
  assert (Hof : ∀ j, of_stream j e' = of_stream j e) by by intros j; unfold of_stream; rewrite Ein.
  assert (Hco : is_coalescible e' = true) by by unfold is_coalescible; rewrite Ein.
  assert (Hno : ∀ P `{∀ x, Decision (P x)}, (∀ e, of_stream i e = false ∧ is_critical e = false → ¬ P e) → filter P post = []).
  { intros P HP Hn. clear -Hp Hn. induction Hp as [|x p Hx _ IH]; [done|]. rewrite filter_cons, IH. rewrite decide_False; [done|by apply Hn]. }
  split.
  - rewrite !filter_app, !filter_cons, !filter_nil in *. rewrite decide_False in H1 by (unfold durable; congruence).
    rewrite !decide_False by (unfold durable; congruence). by rewrite app_nil_r.
  - intros j. specialize (H2 j). rewrite !filter_app, !filter_cons, !filter_nil in *. destruct (decide (j = i)) as [->|Hj].
    + rewrite (Hno (fence i)) in * by (intros x [Hx Hx'] [?|Hx'']; [congruence|by unfold is_critical in Hx'; bool_to_prop]).
      rewrite decide_True in H2 by by left. rewrite !decide_True by (by left; rewrite Hof).
      rewrite !app_assoc in *. apply sublist_app; [|done]. etrans; [|exact H2]. by apply sublist_inserts_r.
    + rewrite decide_False in H2 by (intros [?|?]; [by eapply Hj, of_stream_other|done]).
      rewrite !decide_False by (intros [Hx|?]; [rewrite Hof in Hx; by eapply Hj, of_stream_other|congruence]). by rewrite app_nil_r.
  - intros j. specialize (H3 j). rewrite !filter_app, !filter_cons, !filter_nil in *. destruct (decide (j = i)) as [->|Hj].
    + rewrite (Hno (λ e, of_stream i e = true)) in * by (intros x [Hx _]; congruence).
      rewrite !decide_True by by rewrite Hof. by rewrite !app_assoc, !last_snoc.
    + rewrite decide_False in H3 by (intros ?; by eapply Hj, of_stream_other).
      rewrite !decide_False by (intros Hx; rewrite Hof in Hx; by eapply Hj, of_stream_other). by rewrite app_nil_r.
Qed.

Lemma superseded_sublist si b (l : list (QueuedHostCommand C)) : sublist (superseded si b l) l.
Proof.
  unfold superseded. destruct si, b; try done. etrans; [apply sublist_app; [done|apply sublist_filter]|]. by rewrite take_drop.
Qed.

Lemma superseded_filter (P : QueuedHostCommand C → Prop) `{∀ e, Decision (P e)} si b l :
  (∀ e i, si = Some i → of_stream i e = true → is_coalescible e = true → ¬ P e) → filter P (superseded si b l) = filter P l.
Proof.
  intros HP. unfold superseded. destruct si as [i|], b; try done. rewrite filter_app, filter_filter_off.
  - by rewrite <- filter_app, take_drop.
  - intros e _ He. destruct (of_stream i e) eqn:E1, (is_coalescible e) eqn:E2; try done. by destruct (HP e i).
Qed.

Lemma delivers_transition acc l k e si b :
  input e = (λ i, {| stream := i; coalescible := false |}) <$> si →
  delivers acc (l ++ k) → delivers (acc ++ [e]) (l ++ superseded si b k ++ [e]).
Proof.
  intros Hin [H1 H2 H3]. split.
  - rewrite !filter_app in *. rewrite superseded_filter by (intros x i _ _ Hx; unfold durable; congruence).
    by rewrite app_assoc, H1.
  - intros i. specialize (H2 i). rewrite !filter_app in *. rewrite app_assoc. apply sublist_app; [|done]. etrans; [|exact H2].
    apply sublist_app; [done|]. apply sublist_filter_mono, superseded_sublist.
  - intros i. specialize (H3 i). rewrite !filter_app in *. rewrite filter_cons, filter_nil. case_decide as Hi.
    + by rewrite !app_assoc, !last_snoc.
    + rewrite !app_nil_r. rewrite superseded_filter; [done|]. intros x j -> Hx _ Hxi. apply Hi.
      rewrite (of_stream_other _ _ _ Hxi Hx). unfold of_stream. rewrite Hin. cbn. by rewrite bool_decide_true.
Qed.

Lemma delivers_sent acc l k e k' :
  Forall well_laned k → sent k e k' → delivers acc (l ++ k) → delivers (acc ++ [e]) (l ++ k').
Proof.
  intros Hw Hs Hd. destruct Hs as [k e _|k e si b Hin|pre e post i c Hi Hc Hp].
  - rewrite app_assoc. by apply delivers_append.
  - by apply delivers_transition.
  - eapply (delivers_replace acc l pre post e); try done. apply Forall_app in Hw as [_ Hw]. inversion Hw as [|? ? [He _] _]; subst.
    by rewrite (He Hc).
Qed.

Definition log_ok g : Prop :=
  channel_ok q (queue g) ∧ (receiver_open (queue g) = true → delivers (accepted g) (out g)).

Lemma sent_ok g e s' :
  log_ok g → sent (entries (queue g)) e (entries s') → channel_ok q s' → channel_keeps (queue g) s' →
  log_ok {| queue := s'; accepted := accepted g ++ [e]; delivered := delivered g |}.
Proof.
  intros [Hs Hd] Hsent Hs' (Ho & _). split; [done|]. cbn. rewrite Ho. intros Hopen. specialize (Hd Hopen).
  unfold out in *. cbn. eapply delivers_sent; [apply (ok_laned _ _ Hs)|done..].
Qed.

Lemma transition_sent si b out (k k' : list (QueuedHostCommand C)) c :
  let item ln := {| command := c; lane := ln; input := (λ i, {| stream := i; coalescible := false |}) <$> si |} in
  (out = Enqueued ∧ k' = superseded si b k ++ [item LaneNormal]) ∨ (out = Reserved ∧ k' = superseded si b k ++ [item LaneReserved]) →
  sent k (item (lane_of out)) k'.
Proof. intros item [[-> ->]|[-> ->]]; by apply (sent_transition _ _ si). Qed.

Lemma log_step op g :
  budgets_ok q → held op g → log_ok g → ∃ g', channel_step op g = Ret g' ∧ log_ok g'.
Proof.
  intros Hq Hh Hg. pose proof Hg as [Hs Hd]. pose proof (ok_senders _ _ Hs) as [Hns Hcs].
  assert (Hsenders : ∀ n m, 0 ≤ n ≤ u64_max → 0 ≤ m ≤ u64_max →
    log_ok {| queue := (queue g) <| normal_senders := n |> <| critical_senders := m |>; accepted := accepted g; delivered := delivered g |}).
  { intros n m Hn Hm. split; [split; cbn; try apply Hs; done|exact Hd]. }
  destruct op; cbn [channel_step held] in *; unfold took, became.
  - pose proof (try_send_spec q c _ Hq Hs) as H. destruct (try_send q c (queue g)) as [[a s']|[]| |]; try done;
      (eexists; split; [reflexivity|]); [|done..]. destruct H as (? & ? & ?). by apply sent_ok.
  - pose proof (try_send_coalescible_spec q i c _ Hq Hs) as H. destruct (try_send_coalescible q i c (queue g)) as [[a s']|[]| |]; try done;
      (eexists; split; [reflexivity|]); [|done..]. destruct H as (? & ? & ?). by apply sent_ok.
  - pose proof (try_send_transition_spec q si c false _ Hq Hs) as H. unfold try_send_reliable.
    destruct (try_send_transition q si c false (queue g)) as [[a s']|[]| |]; try done;
      (eexists; split; [reflexivity|]); [|done..]. destruct H as (? & ? & ?). apply sent_ok; try done. by eapply transition_sent.
  - pose proof (try_send_transition_spec q si c true _ Hq Hs) as H. unfold try_send_terminal.
    destruct (try_send_transition q si c true (queue g)) as [[a s']|[]| |]; try done;
      (eexists; split; [reflexivity|]); [|done..]. destruct H as (? & ? & ?). apply sent_ok; try done. by eapply transition_sent.
  - pose proof (send_spec q c _ Hq Hs) as H. destruct (send c (queue g)) as [[a s']|[]| |]; try done;
      (eexists; split; [reflexivity|]); [|done..]. destruct H as (? & ? & ?). by apply sent_ok.
  - pose proof (try_recv_spec q _ Hs) as H. destruct (try_recv (queue g)) as [[e s']|r| |]; try done; (eexists; split; [reflexivity|]); [|done].
    destruct H as (E & Hs' & Ho & _). split; [done|]. cbn. rewrite Ho. unfold out in *. cbn. rewrite E in Hd. by rewrite <- app_assoc.
  - unfold clone_sender. rewrite u64_add_ret by lia. eexists. split; [reflexivity|]. apply (Hsenders (normal_senders (queue g) + 1) (critical_senders (queue g))); [lia|done].
  - unfold drop_sender. rewrite u64_sub_ret by lia. eexists. split; [reflexivity|]. apply (Hsenders (normal_senders (queue g) - 1) (critical_senders (queue g))); [lia|done].
  - unfold clone_critical. rewrite u64_add_ret by lia. eexists. split; [reflexivity|]. apply (Hsenders (normal_senders (queue g)) (critical_senders (queue g) + 1)); [done|lia].
  - unfold drop_critical. rewrite u64_sub_ret by lia. eexists. split; [reflexivity|]. apply (Hsenders (normal_senders (queue g)) (critical_senders (queue g) - 1)); [done|lia].
  - eexists. split; [reflexivity|]. split; [|done]. split; cbn; try done; destruct Hq; unfold in_lane; cbn; lia.
Qed.

Lemma log_run ops g : budgets_ok q → all_held ops g → log_ok g → ∃ g', channel_run ops g = Ret g' ∧ log_ok g'.
Proof.
  intros Hq. revert g. induction ops as [|op ops IH]; intros g Hh Hg; [by exists g|]. destruct Hh as [Hh Hr].
  destruct (log_step op g Hq Hh Hg) as (g1 & E & Hg1). rewrite E in Hr. cbn [channel_run]. rewrite E. by apply IH.
Qed.

(** A channel just made. *)
Definition new_log : Log C := {|
  queue := {| entries := []; normal_len := 0; reserved_len := 0; receiver_open := true; normal_senders := 1; critical_senders := 1 |};
  accepted := []; delivered := [] |}.

Lemma new_log_made : budgets_ok q → channel_with_reserve q = Ret (queue new_log).
Proof. intros [H1 H2]. unfold channel_with_reserve. rewrite !(proj2 (Z.ltb_lt _ _)) by lia. done. Qed.

Lemma new_log_ok : budgets_ok q → log_ok new_log.
Proof. intros [H1 H2]. split; [split; cbn; unfold in_lane; cbn; try done; lia|]. intros _. by split. Qed.

(** C25: while the receiver is there, no run of the channel's operations loses or
    reorders what it accepted but for replaced state: what was received, followed by
    what is pending, has every command that is not coalescible exactly once in the
    order it was accepted; of each input stream and of the critical commands it has
    a subsequence of what was accepted, so nothing is doubled and nothing crosses a
    critical command; and the newest command of each stream is the newest accepted. *)
Theorem channel_delivers ops g :
  budgets_ok q → all_held ops new_log → channel_run ops new_log = Ret g → receiver_open (queue g) = true →
  filter durable (out g) = filter durable (accepted g) ∧
  (∀ i, sublist (filter (fence i) (out g)) (filter (fence i) (accepted g))) ∧
  (∀ i, last (filter (λ e, of_stream i e = true) (out g)) = last (filter (λ e, of_stream i e = true) (accepted g))).
Proof.
  intros Hq Hh E Ho. destruct (log_run ops new_log Hq Hh (new_log_ok Hq)) as (g' & E' & _ & Hd).
  assert (g' = g) as -> by congruence. by destruct (Hd Ho).
Qed.

(** No operation on a channel panics, its counters are what is pending in their
    lanes, within their budgets, and only critical commands can make the queue longer
    than the two budgets together. *)
Theorem channel_keeps_budgets ops :
  budgets_ok q → all_held ops new_log →
  ∃ g, channel_run ops new_log = Ret g ∧
    normal_len (queue g) = in_lane LaneNormal (entries (queue g)) ∧ normal_len (queue g) ≤ normal_capacity q ∧
    reserved_len (queue g) = in_lane LaneReserved (entries (queue g)) ∧ reserved_len (queue g) ≤ reliable_capacity q ∧
    lenZ (entries (queue g)) ≤ normal_capacity q + reliable_capacity q + in_lane LaneCritical (entries (queue g)).
Proof.
  intros Hq Hh. destruct (log_run ops new_log Hq Hh (new_log_ok Hq)) as (g & E & Hs & _). exists g. split; [done|].
  pose proof (total_bound _ _ Hs). destruct (ok_normal _ _ Hs), (ok_reserved _ _ Hs). by split_and!.
Qed.

(** A transition or terminal command sent to a channel in order is refused only
    when the receiver is gone, or when both budgets are used up and no pending state
    of its stream would make room; it comes back to its sender and nothing pending is
    lost.  Otherwise it goes behind everything pending, and a terminal one takes away
    exactly the replaceable state of its stream that no critical command follows. *)
Theorem transition_admitted (si : option InputStream) (c : C) (b : bool) (s : QueueState C) :
  budgets_ok q → channel_ok q s →
  match try_send_transition q si c b s with
  | Ret (o, s') => receiver_open s = true ∧
      entries s' = superseded si b (entries s) ++
        [{| command := c; lane := lane_of o; input := (λ i, {| stream := i; coalescible := false |}) <$> si |}]
  | Fail (Full c') => c' = c ∧ in_lane LaneNormal (entries s) = normal_capacity q ∧ supersedes si b s = [] ∧
      in_lane LaneReserved (entries s) = reliable_capacity q
  | Fail (Closed c') => c' = c ∧ receiver_open s = false
  | Panic | OutOfFuel => False
  end.
Proof.
  intros Hq Hs. pose proof (try_send_transition_spec q si c b s Hq Hs) as H.
  destruct (try_send_transition q si c b s) as [[o s']|[]| |] eqn:E; try done; [|by destruct H as (? & _ & ?)].
  destruct H as ([[-> ->]|[-> ->]] & _); (split; [|done]); unfold try_send_transition in E; by destruct (receiver_open s).
Qed.
End runs.

(** * A sample *)

Section sample.
Let q : Budgets := {| normal_capacity := 3; reliable_capacity := 1 |}.

(** Motion, a button, a key and a change of focus; the numbers stand for commands. *)
Definition sample_input : list (ChannelOp Z) :=
  [TrySendCoalescible Pointer 1; TrySend 2; TrySendCoalescible Pointer 3; TryRecv; TrySendCoalescible Pointer 4;
   SendCritical 5; TrySendCoalescible Pointer 6; TrySendTerminal (Some Pointer) 7; TrySendReliable (Some Touch) 8; TrySend 9].

Definition sample_log : Log Z := match channel_run q sample_input new_log with Ret g => g | _ => new_log end.

Lemma sample_held : all_held q sample_input (new_log (C:=Z)).
Proof. vm_compute. by split_and!. Qed.

Lemma channel_delivers_witness :
  channel_run q sample_input new_log = Ret sample_log ∧ command <$> delivered sample_log = [3] ∧
  command <$> entries (queue sample_log) = [2; 4; 5; 7; 8] ∧ command <$> accepted sample_log = [1; 2; 3; 4; 5; 6; 7; 8] ∧
  filter durable (out sample_log) = filter durable (accepted sample_log).
Proof.
  split; [by vm_compute|]. split; [by vm_compute|]. split; [by vm_compute|]. split; [by vm_compute|].
  apply (channel_delivers q sample_input); [split; by vm_compute|apply sample_held|by vm_compute|done].
Defined.

Lemma channel_keeps_budgets_witness :
  ∃ g, channel_run q sample_input new_log = Ret g ∧ normal_len (queue g) = in_lane LaneNormal (entries (queue g)).
Proof.
  destruct (channel_keeps_budgets q sample_input) as (g & E & Hn & _); [split; by vm_compute|apply sample_held|].
  exists g. exact (conj E Hn).
Defined.

(** Both budgets are used up. *)
Lemma transition_admitted_witness :
  let s := (queue (new_log (C:=Z))) <| entries := [{| command := 1; lane := LaneNormal; input := None |};
      {| command := 2; lane := LaneReserved; input := None |}] |> <| normal_len := 1 |> <| reserved_len := 1 |> in
  let q1 := {| normal_capacity := 1; reliable_capacity := 1 |} in
  try_send_terminal q1 (Some Touch) 3 s = Fail (Full 3) ∧
  match try_send_transition q1 (Some Touch) 3 true s with Fail (Full c') => c' = 3 | _ => True end.
Proof.
  intros s q1. split; [by vm_compute|]. pose proof (transition_admitted q1 (Some Touch) 3 true s) as H.
  assert (Hok : channel_ok q1 s) by (split; [by vm_compute|by vm_compute|repeat constructor; by intros|by vm_compute]).
  specialize (H ltac:(split; by vm_compute) Hok). destruct (try_send_transition _ _ _ _ _) as [[]|[]| |]; try done. by destruct H.
Defined.
End sample.
