(* ===== verification/HostIngress.v ===== *)
(** Input on its way to a host ([engine/crates/core], [runtime/registry.rs],
    [HostIngress]; [engine/crates/shared], [payload_pool.rs]).

    A touch batch or a gamepad sample travels in a slot of a pool, which comes back
    when the command that carries it is dropped, wherever that is.  The pools are as
    large as they are so that they never run out before the queue is full
    ([input_refused_only_when_full]).  That sizing counts on one producer, so taking a
    slot and sending it are one step here; clones of an ingress that send at the same
    time are not modelled.

    Bluetooth payloads, whose pool grows, and the timestamps of frames are left out. *)
From S2P Require Import Prelude HostChannel.

Set Default Proof Using "Type".

(** * The pool *)

(** A bounded channel of boxed slots, by their number. *)
Class FreeList (F : Type) := {
  free_bounded : Z → F;
  slots : F → Z;
  slots_capacity : F → Z;
  (** [None]: empty; full. *)
  take_slot : F → option F;
  give_slot : F → option F;
  slots_bounded n : 0 ≤ n → slots (free_bounded n) = 0 ∧ slots_capacity (free_bounded n) = n;
  slots_range f : 0 ≤ slots f ≤ slots_capacity f;
  take_slot_law f :
    match take_slot f with
    | Some f' => slots f' = slots f - 1 ∧ slots_capacity f' = slots_capacity f
    | None => slots f = 0
    end;
  give_slot_law f :
    match give_slot f with
    | Some f' => slots f' = slots f + 1 ∧ slots_capacity f' = slots_capacity f
    | None => slots f = slots_capacity f
    end;
}.

Section pool.
Context {F : Type} `{FL : !FreeList F}.

Fixpoint fill (n : nat) (f : F) : result F :=
  match n with
  | O => Ret f
  | S n => match give_slot f with Some f => fill n f | None => Panic end
  end.

(** [PayloadPool::new] *)
Definition pool_new (capacity : Z) : result F :=
  if negb (0 <? capacity) then Panic else fill (Z.to_nat capacity) (free_bounded capacity).

(** [Pooled::drop]; a slot for which there is no room is released. *)
Definition pool_drop (f : F) : F := match give_slot f with Some f => f | None => f end.

Lemma fill_ok n f :
  slots f + Z.of_nat n ≤ slots_capacity f →
  ∃ f', fill n f = Ret f' ∧ slots f' = slots f + Z.of_nat n ∧ slots_capacity f' = slots_capacity f.
Proof.
  revert f. induction n as [|n IH]; intros f Hn; [exists f; split_and!; [done|lia|done]|]. cbn [fill]. pose proof (give_slot_law f) as H.
  destruct (give_slot f) as [f1|]; [|lia]. destruct H as [H1 H2]. destruct (IH f1) as (f' & E & E1 & E2); [lia|].
  exists f'. split_and!; [done|lia|congruence].
Qed.

Lemma pool_new_ok n : 0 < n → ∃ f, pool_new n = Ret f ∧ slots f = n ∧ slots_capacity f = n.
Proof.
  intros Hn. unfold pool_new. rewrite (proj2 (Z.ltb_lt _ _)) by done. cbn [negb].
  destruct (slots_bounded n) as [H1 H2]; [lia|]. destruct (fill_ok (Z.to_nat n) (free_bounded n)) as (f & -> & E1 & E2); [lia|].
  exists f. split_and!; [done|lia|lia].
Qed.

Lemma pool_drop_ok f :
  slots f < slots_capacity f → slots (pool_drop f) = slots f + 1 ∧ slots_capacity (pool_drop f) = slots_capacity f.
Proof. intros Hf. unfold pool_drop. pose proof (give_slot_law f). destruct (give_slot f); [done|lia]. Qed.
End pool.

(** * Commands *)

Inductive TouchType := TouchStart | TouchMove | TouchEnd | TouchCancel.

(** What the ingress does not look at. *)
Class InputPayloads := { TouchRest : Type; GamepadSample : Type; OtherCommand : Type }.

Section commands.
Context `{IP : InputPayloads}.

Record TouchData := { touch_type : TouchType; touch_rest : TouchRest }.
Record GamepadState := { gamepad_index : Z; gamepad_sample : GamepadSample }.

(** Floats are their bits.  [OtherCommand] stands for the commands that are sent
    through [try_send] only, or on the critical lane. *)
Inductive HostCommand :=
  | OnTouch (touch : TouchData)
  | OnGamepadState (sample : GamepadState)
  | OnMouseDown (x y : Z) (button : Z) (timestamp_ms : Z)
  | OnMouseMove (x y : Z) (button : Z) (timestamp_ms : Z)
  | OnMouseUp (x y : Z) (button : Z) (timestamp_ms : Z)
  | OnKeyDown (key code : string) (timestamp_ms : Z) (modifiers : Z) (repeat : bool)
  | OnKeyUp (key code : string) (timestamp_ms : Z) (modifiers : Z) (repeat : bool)
  | OnKeyboardComplete (value : string) (runtime_generation : option Z)
  | OnCompositionStart (data : string)
  | OnCompositionUpdate (data : string)
  | OnCompositionEnd (data : string)
  | OnGamepadConnected (index : Z) (id mapping : string) (axis_count button_count : Z)
  | OnGamepadDisconnected (index : Z)
  | Other (c : OtherCommand).
End commands.

(** * The ingress *)

Definition HOST_NORMAL_COMMAND_CAPACITY : Z := 512.
Definition HOST_RELIABLE_INPUT_RESERVE : Z := 64.
Definition HOST_PAYLOAD_POOL_CAPACITY : Z := HOST_NORMAL_COMMAND_CAPACITY + HOST_RELIABLE_INPUT_RESERVE + 2.

Definition host_budgets : Budgets := {|
  normal_capacity := HOST_NORMAL_COMMAND_CAPACITY; reliable_capacity := HOST_RELIABLE_INPUT_RESERVE |}.

Inductive HostIngressSendError := IngressFull | IngressClosed.

(** The counters of [DebugStats] that the ingress touches, of 32 bits. *)
Record InputStats := {
  command_drops : Z; input_coalesced : Z; input_reliable_reserve_uses : Z; input_saturation_events : Z;
}.
#[global] Instance eta_InputStats : Eta InputStats := λ r, {|
  command_drops := command_drops r; input_coalesced := input_coalesced r;
  input_reliable_reserve_uses := input_reliable_reserve_uses r; input_saturation_events := input_saturation_events r |}.

(** A host's ingress with what its clones share, and the command the host holds. *)
Record HostIngress {F : Type} `{IP : InputPayloads} := {
  tx : QueueState HostCommand;
  touch_pool : F;
  gamepad_pool : F;
  input_saturation_notified : bool;
  stats : InputStats;
  in_hand : list HostCommand;
}.
Arguments HostIngress F {IP}.
#[global] Instance eta_HostIngress {F} `{IP : InputPayloads} : Eta (HostIngress F) := λ r, {|
  tx := tx r; touch_pool := touch_pool r; gamepad_pool := gamepad_pool r;
  input_saturation_notified := input_saturation_notified r; stats := stats r; in_hand := in_hand r |}.

Section ingress.
Context {F : Type} `{FL : !FreeList F} `{IP : InputPayloads}.
Implicit Types (st : HostIngress F) (cmd : HostCommand).

(** A command that goes out of scope gives its slot back. *)
Definition drop_command st cmd : HostIngress F :=
  match cmd with
  | OnTouch _ => st <| touch_pool := pool_drop (touch_pool st) |>
  | OnGamepadState _ => st <| gamepad_pool := pool_drop (gamepad_pool st) |>
  | _ => st
  end.
Definition drop_commands st (cmds : list HostCommand) : HostIngress F := foldl drop_command st cmds.

Definition add1 (n : Z) : Z := u32_wrapping_add n 1.

(** [claim_input_saturation_notification] *)
Definition claim_notification st : bool * HostIngress F :=
  if input_saturation_notified st then (false, st) else (true, st <| input_saturation_notified := true |>).

Definition ingress_try_send cmd st : outcome HostIngressSendError unit * HostIngress F :=
  match try_send host_budgets cmd (tx st) with
  | Ret (_, s) => (Ret tt, st <| tx := s |>)
  | Fail (Full cmd) =>
      (Fail IngressFull, drop_command (st <| stats := (stats st) <| command_drops := add1 (command_drops (stats st)) |> |>) cmd)
  | Fail (Closed cmd) => (Fail IngressClosed, drop_command st cmd)
  | Panic => (Panic, st)
  | OutOfFuel => (OutOfFuel, st)
  end.

Definition record_input_saturation st : HostIngress F :=
  st <| stats := (stats st) <| command_drops := add1 (command_drops (stats st)) |>
                            <| input_saturation_events := add1 (input_saturation_events (stats st)) |> |>.

(** [gone] is what the channel drops when it accepts. *)
Definition map_input_result (r : outcome (TrySendError HostCommand) (InputSendOutcome * QueueState HostCommand))
    (gone : list HostCommand) st : outcome HostIngressSendError InputSendOutcome * HostIngress F :=
  match r with
  | Ret (o, s) =>
      let st := (drop_commands (st <| tx := s |>) gone) <| input_saturation_notified := false |> in
      (Ret o, match o with
              | Enqueued => st
              | Coalesced => st <| stats := (stats st) <| input_coalesced := add1 (input_coalesced (stats st)) |> |>
              | Reserved =>
                  st <| stats := (stats st) <| input_reliable_reserve_uses := add1 (input_reliable_reserve_uses (stats st)) |> |>
              end)
  | Fail (Full cmd) => (Fail IngressFull, record_input_saturation (drop_command st cmd))
  | Fail (Closed cmd) => (Fail IngressClosed, drop_command st cmd)
  | Panic => (Panic, st)
  | OutOfFuel => (OutOfFuel, st)
  end.

(** The command that a coalescing send drops, and those a terminal one drops. *)
Definition coalesced_away (i : InputStream) (s : QueueState HostCommand) : list HostCommand :=
  match replaceable i s with Some (_, e) => [command e] | None => [] end.
Definition terminal_away (i : InputStream) (s : QueueState HostCommand) : list HostCommand :=
  command <$> filter (λ e, of_stream i e && is_coalescible e = true) (drop (input_epoch_start (entries s)) (entries s)).

Definition send_coalescible (i : InputStream) cmd st :=
  map_input_result (try_send_coalescible host_budgets i cmd (tx st)) (coalesced_away i (tx st)) st.
Definition send_reliable (si : option InputStream) cmd st :=
  map_input_result (try_send_reliable host_budgets si cmd (tx st)) [] st.
Definition send_terminal (si : option InputStream) cmd st :=
  map_input_result (try_send_terminal host_budgets si cmd (tx st))
    (match si with Some i => terminal_away i (tx st) | None => [] end) st.

(** [self.tx.try_send(command).map(|()| Enqueued)] *)
Definition send_plain cmd st :=
  map_input_result ('(_, s) ← try_send host_budgets cmd (tx st); Ret (Enqueued, s)) [] st.

Definition try_send_touch (touch : TouchData) st : outcome HostIngressSendError InputSendOutcome * HostIngress F :=
  match take_slot (touch_pool st) with
  | None => (Fail IngressFull, record_input_saturation st)
  | Some pool =>
      let st := st <| touch_pool := pool |> in
      match touch_type touch with
      | TouchMove => send_coalescible Touch (OnTouch touch) st
      | TouchStart => send_reliable (Some Touch) (OnTouch touch) st
      | TouchEnd | TouchCancel => send_terminal (Some Touch) (OnTouch touch) st
      end
  end.

Definition try_send_gamepad_state (sample : GamepadState) st : outcome HostIngressSendError InputSendOutcome * HostIngress F :=
  match take_slot (gamepad_pool st) with
  | None => (Fail IngressFull, record_input_saturation st)
  | Some pool => send_coalescible (Gamepad (gamepad_index sample)) (OnGamepadState sample) (st <| gamepad_pool := pool |>)
  end.

Definition try_send_pointer cmd st :=
  match cmd with
  | OnMouseMove _ _ _ _ => send_coalescible Pointer cmd st
  | OnMouseDown _ _ _ _ => send_reliable (Some Pointer) cmd st
  | OnMouseUp _ _ _ _ => send_terminal (Some Pointer) cmd st
  | _ => send_plain cmd st
  end.

Definition try_send_key cmd st :=
  match cmd with OnKeyUp _ _ _ _ _ => send_terminal None cmd st | _ => send_plain cmd st end.

Definition try_send_keyboard cmd st :=
  match cmd with OnKeyboardComplete _ _ => send_terminal None cmd st | _ => send_plain cmd st end.

Definition try_send_composition cmd st :=
  match cmd with
  | OnCompositionUpdate _ => send_coalescible Composition cmd st
  | OnCompositionStart _ => send_reliable (Some Composition) cmd st
  | OnCompositionEnd _ => send_terminal (Some Composition) cmd st
  | _ => send_plain cmd st
  end.

Definition try_send_gamepad_connection cmd st :=
  match cmd with
  | OnGamepadConnected index _ _ _ _ => send_reliable (Some (Gamepad index)) cmd st
  | OnGamepadDisconnected index => send_terminal (Some (Gamepad index)) cmd st
  | _ => send_plain cmd st
  end.

(** The registry's critical sends. *)
Definition send_reliable_command cmd st : outcome HostIngressSendError unit * HostIngress F :=
  match send cmd (tx st) with
  | Ret (_, s) => (Ret tt, st <| tx := s |>)
  | Fail (Full cmd) | Fail (Closed cmd) => (Fail IngressClosed, drop_command st cmd)
  | Panic => (Panic, st)
  | OutOfFuel => (OutOfFuel, st)
  end.

(** The host takes a command, and is done with it. *)
Definition host_recv st : outcome TryRecvError unit * HostIngress F :=
  match try_recv (tx st) with
  | Ret (e, s) => (Ret tt, st <| tx := s |> <| in_hand := command e :: in_hand st |>)
  | Fail r => (Fail r, st)
  | Panic => (Panic, st)
  | OutOfFuel => (OutOfFuel, st)
  end.
Definition host_done st : HostIngress F := drop_commands (st <| in_hand := [] |>) (in_hand st).

(** The host's end goes, with what is pending. *)
Definition host_gone st : HostIngress F :=
  drop_commands (st <| tx := drop_receiver (tx st) |>) (command <$> entries (tx st)).
End ingress.

(** * The slots are all accounted for *)

Inductive Pooling := TouchPool | GamepadPool.

Section accounts.
Context {F : Type} `{FL : !FreeList F} `{IP : InputPayloads}.
Implicit Types (st : HostIngress F) (cmd : HostCommand) (k : Pooling) (s : QueueState HostCommand).

Definition slot_of (cmd : HostCommand) : option Pooling :=
  match cmd with OnTouch _ => Some TouchPool | OnGamepadState _ => Some GamepadPool | _ => None end.
#[global] Instance Pooling_eq_dec : EqDecision Pooling.
Proof. solve_decision. Defined.
Definition pool_of k st : F := match k with TouchPool => touch_pool st | GamepadPool => gamepad_pool st end.

Definition holding k (cmds : list HostCommand) : Z := lenZ (filter (λ c, slot_of c = Some k) cmds).

Lemma holding_app k l l' : holding k (l ++ l') = holding k l + holding k l'.
Proof. unfold holding. rewrite filter_app, length_app. lia. Qed.
Lemma holding_nonneg k l : 0 ≤ holding k l.
Proof. unfold holding. lia. Qed.
Lemma holding_le k l : holding k l ≤ lenZ l.
Proof. unfold holding. pose proof (length_filter (λ c, slot_of c = Some k) l). lia. Qed.
Lemma holding_cons k c l : holding k (c :: l) = holding k [c] + holding k l.
Proof. apply (holding_app k [c]). Qed.
Lemma holding_head k c l : holding k (c :: l) = (if decide (slot_of c = Some k) then 1 else 0) + holding k l.
Proof. unfold holding. rewrite filter_cons. destruct (decide (slot_of c = Some k)); cbn [length]; lia. Qed.
Lemma holding_none k c : slot_of c = None → holding k [c] = 0.
Proof. intros E. unfold holding. rewrite filter_cons, filter_nil. by rewrite decide_False by by rewrite E. Qed.

(** [n] slots of the pool are out besides the pending commands and the one in hand. *)
Definition slots_ok (n : Pooling → Z) st : Prop := ∀ k,
  slots_capacity (pool_of k st) = HOST_PAYLOAD_POOL_CAPACITY ∧
  slots (pool_of k st) + holding k (command <$> entries (tx st)) + holding k (in_hand st) + n k = HOST_PAYLOAD_POOL_CAPACITY.

Lemma drop_command_pools n st cmd :
  (∀ k, 0 ≤ n k) → slots_ok (λ k, n k + holding k [cmd]) st → slots_ok n (drop_command st cmd).
Proof.
  intros Hn H k. specialize (H k) as [Hc H]. pose proof (Hn k). pose proof (holding_nonneg k (command <$> entries (tx st))).
  pose proof (holding_nonneg k (in_hand st)).
  destruct cmd, k; cbn [drop_command pool_of touch_pool gamepad_pool tx in_hand set_field] in *; cbv beta in H;
    try (rewrite holding_none in H by done; split; [done|lia]);
    try (unfold holding in H at 3; rewrite filter_cons, filter_nil in H; cbn [slot_of] in H; case_decide; try done; cbn [length] in H);
    try (split; [done|lia]).
  all: match goal with |- context [pool_drop ?f] => destruct (pool_drop_ok f) as [E1 E2]; [lia|split; lia] end.
Qed.

Lemma drop_commands_pools n st cmds :
  (∀ k, 0 ≤ n k) → slots_ok (λ k, n k + holding k cmds) st → slots_ok n (drop_commands st cmds).
Proof.
  intros Hn. revert st. induction cmds as [|c cmds IH]; intros st H.
  - intros k. specialize (H k). cbv beta in H. replace (holding k []) with 0 in H by done. by rewrite Z.add_0_r in H.
  - cbn [drop_commands foldl]. apply IH. apply drop_command_pools.
    + intros k. pose proof (Hn k). pose proof (holding_nonneg k cmds). lia.
    + intros k. specialize (H k). cbv beta in H. rewrite holding_cons in H. destruct H. split; [done|lia].
Qed.

Lemma drop_command_rest st cmd :
  tx (drop_command st cmd) = tx st ∧ in_hand (drop_command st cmd) = in_hand st ∧
  input_saturation_notified (drop_command st cmd) = input_saturation_notified st.
Proof. by destruct cmd. Qed.
Lemma drop_commands_rest st cmds :
  tx (drop_commands st cmds) = tx st ∧ in_hand (drop_commands st cmds) = in_hand st ∧
  input_saturation_notified (drop_commands st cmds) = input_saturation_notified st.
Proof.
  revert st. induction cmds as [|c cmds IH]; intros st; [done|].
  change (drop_commands st (c :: cmds)) with (drop_commands (drop_command st c) cmds).
  destruct (IH (drop_command st c)) as (-> & -> & ->). apply drop_command_rest.
Qed.

(** ** What the channel takes and drops *)

Definition unpooled s : Prop := Forall (λ e, lane e = LaneCritical → slot_of (command e) = None) (entries s).

Definition moves (r : outcome (TrySendError HostCommand) (InputSendOutcome * QueueState HostCommand)) (gone : list HostCommand)
    cmd s : Prop :=
  match r with
  | Ret (_, s') => channel_ok host_budgets s' ∧ unpooled s' ∧
      ∀ k, holding k (command <$> entries s') + holding k gone = holding k (command <$> entries s) + holding k [cmd]
  | Fail (Full c) | Fail (Closed c) => c = cmd
  | Panic | OutOfFuel => False
  end.

Lemma host_budgets_ok : budgets_ok host_budgets.
Proof. split; by vm_compute. Qed.

Lemma push_entries {E C} (s s' : QueueState C) c ln meta :
  push (E:=E) s c ln meta = Ret s' → entries s' = entries s ++ [{| command := c; lane := ln; input := meta |}].
Proof. unfold push. intros H. destruct ln; cbn [mbind outcome_bind] in H; inv_outcome; done. Qed.

Lemma unpooled_app s s' e : entries s' = entries s ++ [e] → lane e ≠ LaneCritical → unpooled s → unpooled s'.
Proof. unfold unpooled. intros -> He Hu. apply Forall_app. split; [done|]. by apply Forall_singleton. Qed.

Lemma plain_moves cmd s :
  channel_ok host_budgets s → unpooled s → moves ('(_, s) ← try_send host_budgets cmd s; Ret (Enqueued, s)) [] cmd s.
Proof.
  intros Hs Hu. pose proof (try_send_spec _ cmd s host_budgets_ok Hs) as H. destruct (try_send host_budgets cmd s) as [[[] s']|[]| |] eqn:E; cbn [mbind outcome_bind]; try done; try apply H.
  destruct H as (_ & Hs' & _). unfold try_send in E. destruct (negb (receiver_open s)); [done|]. destruct (_ =? _); [done|].
  destruct (push s cmd LaneNormal None) as [s1| | |] eqn:Ep; try done. injection E as ->. pose proof (push_entries _ _ _ _ _ Ep) as He.
  split; [done|]. split; [by eapply unpooled_app|]. intros k. rewrite He, fmap_app, holding_app. cbn. replace (holding k []) with 0 by done. lia.
Qed.

Lemma coalescible_moves i cmd s :
  channel_ok host_budgets s → unpooled s → moves (try_send_coalescible host_budgets i cmd s) (coalesced_away i s) cmd s.
Proof.
  intros Hs Hu. pose proof (try_send_coalescible_spec _ i cmd s host_budgets_ok Hs) as H. unfold coalesced_away.
  destruct (try_send_coalescible host_budgets i cmd s) as [[o s']|[]| |] eqn:E; cbn [moves]; try done; try apply H.
  destruct H as (_ & Hs' & _). unfold try_send_coalescible in E. destruct (negb (receiver_open s)); [done|].
  destruct (replaceable i s) as [[n e]|] eqn:Er.
  - injection E as <- <-. split; [done|]. apply replaceable_split in Er as (pre & post & Ee & <- & _ & Hco & _). unfold unpooled in *. cbn [entries set_field] in *.
    rewrite Ee in *. rewrite insert_app_r_alt by lia. rewrite Nat.sub_diag. cbn [insert list_insert].
    assert (Hh : ∀ x k, holding k (command <$> (pre ++ x :: post)) = holding k (command <$> pre) + holding k [command x] + holding k (command <$> post)).
    { intros x k. rewrite fmap_app, holding_app, fmap_cons, holding_cons. lia. }
    split; [|intros k; rewrite !Hh; cbn [command]; lia]. apply Forall_app in Hu as [Hu1 Hu2]. inversion Hu2 as [|? ? He Hu3]; subst.
    apply Forall_app. split; [done|]. constructor; [|done]. cbn. intros Hc. exfalso.
    pose proof (ok_laned _ _ Hs) as Hl. rewrite Ee in Hl. apply Forall_app in Hl as [_ Hl]. inversion Hl as [|? ? [Hw _] _]; subst.
    by rewrite (Hw Hco) in Hc.
  - destruct (_ =? _); [done|]. destruct (push s cmd _ _) as [s1| | |] eqn:Ep; try done. injection E as <- <-. pose proof (push_entries _ _ _ _ _ Ep) as He.
    split; [done|]. split; [by eapply unpooled_app|]. intros k. rewrite He, fmap_app, holding_app. cbn. replace (holding k []) with 0 by done. lia.
Qed.

Lemma holding_split k (P : QueuedHostCommand HostCommand → bool) d :
  holding k (command <$> filter (λ e, negb (P e) = true) d) + holding k (command <$> filter (λ e, P e = true) d) =
  holding k (command <$> d).
Proof.
  induction d as [|e d IH]; [done|]. rewrite !filter_cons. destruct (P e); cbn [negb].
  - rewrite decide_False, decide_True, !fmap_cons, !holding_head by done. lia.
  - rewrite decide_True, decide_False, !fmap_cons, !holding_head by done. lia.
Qed.

(** What a transition drops. *)
Definition transition_away (si : option InputStream) (b : bool) s : list HostCommand :=
  match si with Some i => if b then terminal_away i s else [] | None => [] end.

Lemma superseded_holding k si b s :
  holding k (command <$> superseded si b (entries s)) + holding k (transition_away si b s) = holding k (command <$> entries s).
Proof.
  unfold superseded, transition_away, terminal_away. destruct si as [i|], b; try (replace (holding k []) with 0 by done; lia).
  rewrite fmap_app, holding_app. pose proof (holding_split k (λ e, of_stream i e && is_coalescible e) (drop (input_epoch_start (entries s)) (entries s))) as H.
  cbv beta in H. rewrite <- Z.add_assoc, H, <- holding_app, <- fmap_app. by rewrite take_drop.
Qed.

Lemma transition_moves si b cmd s :
  channel_ok host_budgets s → unpooled s →
  moves (try_send_transition host_budgets si cmd b s) (transition_away si b s) cmd s.
Proof.
  intros Hs Hu. pose proof (try_send_transition_spec _ si cmd b s host_budgets_ok Hs) as H. cbv zeta in H.
  destruct (try_send_transition host_budgets si cmd b s) as [[o s']|[]| |]; cbn [moves]; try done; try apply H.
  destruct H as (He & Hs' & _). split; [done|].
  assert (∃ e, entries s' = superseded si b (entries s) ++ [e] ∧ command e = cmd ∧ lane e ≠ LaneCritical) as (e & E & <- & Hl).
  { destruct He as [[_ ->]|[_ ->]]; eexists; by split. }
  split.
  - unfold unpooled in *. rewrite E. apply Forall_app. split; [|by apply Forall_singleton].
    rewrite Forall_forall in Hu |- *. intros x Hx. apply Hu. by eapply elem_of_sublist, superseded_sublist.
  - intros k. rewrite E, fmap_app, holding_app. pose proof (superseded_holding k si b s). cbn [fmap list_fmap]. lia.
Qed.

(** ** The ingress *)

Record ingress_ok st : Prop := {
  i_channel : channel_ok host_budgets (tx st);
  i_unpooled : unpooled (tx st);
  i_slots : slots_ok (λ _, 0) st;
  i_hand : lenZ (in_hand st) ≤ 1;
}.

Lemma slots_ok_stats n st x : slots_ok n st → slots_ok n (st <| stats := x |>).
Proof. intros H k. specialize (H k). by destruct k. Qed.

Lemma moved_ok st s gone n cmd (x : bool) (y : InputStats) :
  lenZ (in_hand st) ≤ 1 → channel_ok host_budgets s → unpooled s →
  (∀ k, holding k (command <$> entries s) + holding k gone = holding k (command <$> entries (tx st)) + holding k [cmd]) →
  slots_ok n st → (∀ k, n k = holding k [cmd]) →
  ingress_ok ((drop_commands (st <| tx := s |>) gone) <| input_saturation_notified := x |> <| stats := y |>).
Proof.
  intros Hi Hs Hu Hh Ho Hn. destruct (drop_commands_rest (st <| tx := s |>) gone) as (E1 & E2 & _). split.
  - cbn. by rewrite E1.
  - cbn. by rewrite E1.
  - assert (slots_ok (λ _, 0) (drop_commands (st <| tx := s |>) gone)) as H; [|intros k; specialize (H k); by destruct k].
    apply drop_commands_pools; [done|]. intros k. specialize (Ho k) as [Hc Ho]. specialize (Hh k). rewrite Hn in Ho.
    destruct k; (split; [exact Hc|]); cbn [pool_of touch_pool gamepad_pool tx in_hand set_field] in *; cbv beta; lia.
  - cbn. by rewrite E2.
Qed.

Lemma dropped_ok st n cmd (y : InputStats) :
  lenZ (in_hand st) ≤ 1 → channel_ok host_budgets (tx st) → unpooled (tx st) → slots_ok n st → (∀ k, n k = holding k [cmd]) →
  ingress_ok (drop_command st cmd) ∧ ingress_ok ((drop_command st cmd) <| stats := y |>).
Proof.
  intros Hi Hs Hu Ho Hn. destruct (drop_command_rest st cmd) as (E1 & E2 & _).
  assert (Hok : slots_ok (λ _, 0) (drop_command st cmd)).
  { apply drop_command_pools; [done|]. intros k. specialize (Ho k). by rewrite Hn in Ho. }
  split; (split; cbn; rewrite ?E1, ?E2; try done; by apply slots_ok_stats).
Qed.

Lemma map_input_result_ok r gone cmd n st :
  moves r gone cmd (tx st) → lenZ (in_hand st) ≤ 1 → channel_ok host_budgets (tx st) → unpooled (tx st) →
  slots_ok n st → (∀ k, n k = holding k [cmd]) →
  ingress_ok (map_input_result r gone st).2 ∧ safe (map_input_result r gone st).1.
Proof.
  intros Hm Hi Hs Hu Ho Hn. unfold map_input_result. destruct r as [[o s]|[c|c]| |]; try done; cbn [moves fst snd] in *; (split; [|done]).
  - destruct Hm as (Hs' & Hu' & Hh). pose proof (λ x y, moved_ok st s gone n cmd x y Hi Hs' Hu' Hh Ho Hn) as H.
    destruct o; [|apply H..]. apply (H false (stats (drop_commands (st <| tx := s |>) gone))).
  - subst c. unfold record_input_saturation. by apply (dropped_ok st n).
  - subst c. by apply (dropped_ok st n cmd (stats st)).
Qed.

(** ** Its operations keep it *)

Definition kept_ok {A} (r : outcome HostIngressSendError A * HostIngress F) : Prop := ingress_ok r.2 ∧ safe r.1.

Lemma slots_free st k : ingress_ok st → 0 < slots (pool_of k st).
Proof.
  intros [Hs Hu Hp Hi]. destruct (Hp k) as [_ H]. pose proof (holding_le k (in_hand st)).
  pose proof (ok_normal _ _ Hs) as [En Hn]. pose proof (ok_reserved _ _ Hs) as [Er Hr].
  assert (holding k (command <$> entries (tx st)) ≤ in_lane LaneNormal (entries (tx st)) + in_lane LaneReserved (entries (tx st))).
  { unfold unpooled in Hu. clear -Hu. induction Hu as [|e l He _ IH]; [done|]. rewrite fmap_cons, holding_head. change (e :: l) with ([e] ++ l).
    rewrite !in_lane_app, !in_lane_one. destruct (decide (slot_of (command e) = Some k)) as [Hk|Hk], (lane e) eqn:El;
      try (rewrite He in Hk by done; done); repeat first [rewrite decide_True by done | rewrite decide_False by done]; lia. }
  change (normal_capacity host_budgets) with 512 in *. change (reliable_capacity host_budgets) with 64 in *.
  change HOST_PAYLOAD_POOL_CAPACITY with 578 in *. lia.
Qed.

Lemma send_ok r gone cmd st :
  (channel_ok host_budgets (tx st) → unpooled (tx st) → moves r gone cmd (tx st)) → slot_of cmd = None → ingress_ok st →
  kept_ok (map_input_result r gone st).
Proof.
  intros Hm Hc [Hs Hu Hp Hi]. apply (map_input_result_ok r gone cmd (λ _, 0)); auto. intros k. by rewrite holding_none.
Qed.

Lemma coalescible_ok i cmd st : slot_of cmd = None → ingress_ok st → kept_ok (send_coalescible i cmd st).
Proof. apply send_ok. apply coalescible_moves. Qed.
Lemma reliable_ok si cmd st : slot_of cmd = None → ingress_ok st → kept_ok (send_reliable si cmd st).
Proof. apply send_ok. intros Hs Hu. pose proof (transition_moves si false cmd _ Hs Hu) as H. by destruct si. Qed.
Lemma terminal_ok si cmd st : slot_of cmd = None → ingress_ok st → kept_ok (send_terminal si cmd st).
Proof. apply send_ok. intros Hs Hu. pose proof (transition_moves si true cmd _ Hs Hu) as H. by destruct si. Qed.
Lemma plain_ok cmd st : slot_of cmd = None → ingress_ok st → kept_ok (send_plain cmd st).
Proof. apply send_ok. apply plain_moves. Qed.

(** A slot is free, and the channel answers. *)
Lemma taken_slot k cmd st :
  slot_of cmd = Some k → ingress_ok st →
  ∃ pool, take_slot (pool_of k st) = Some pool ∧
    let st' := match k with TouchPool => st <| touch_pool := pool |> | GamepadPool => st <| gamepad_pool := pool |> end in
    ∀ r gone, moves r gone cmd (tx st) → kept_ok (map_input_result r gone st').
Proof.
  intros Hc Hok. pose proof (slots_free st k Hok) as Hf. pose proof (take_slot_law (pool_of k st)) as Ht.
  destruct (take_slot (pool_of k st)) as [pool|]; [|lia]. destruct Ht as [E1 E2]. exists pool. split; [done|]. cbv zeta.
  destruct Hok as [Hs Hu Hp Hi]. intros r gone Hm.
  apply (map_input_result_ok r gone cmd (λ j, holding j [cmd])); try by destruct k.
  intros j. specialize (Hp j) as [H1 H2]. rewrite holding_head, Hc. change (holding j []) with 0.
  destruct k, j; cbn [pool_of touch_pool gamepad_pool tx in_hand set_field] in *; case_decide; try done; split; try done; try lia; congruence.
Qed.

Lemma try_send_touch_answers touch st :
  ingress_ok st → ∃ pool, let st' := st <| touch_pool := pool |> in
    try_send_touch touch st = match touch_type touch with
      | TouchMove => send_coalescible Touch (OnTouch touch) st'
      | TouchStart => send_reliable (Some Touch) (OnTouch touch) st'
      | _ => send_terminal (Some Touch) (OnTouch touch) st'
      end ∧ kept_ok (try_send_touch touch st).
Proof.
  intros Hok. destruct (taken_slot TouchPool (OnTouch touch) st eq_refl Hok) as (pool & E & Hk). exists pool. cbv zeta.
  unfold try_send_touch. cbn [pool_of] in E. rewrite E. split; [by destruct (touch_type touch)|].
  destruct Hok as [Hs Hu _ _]. destruct (touch_type touch); apply Hk; [apply (transition_moves (Some Touch) false)| |
    apply (transition_moves (Some Touch) true)..]; try done. by apply coalescible_moves.
Qed.

Lemma try_send_gamepad_answers sample st :
  ingress_ok st → ∃ pool,
    try_send_gamepad_state sample st =
      send_coalescible (Gamepad (gamepad_index sample)) (OnGamepadState sample) (st <| gamepad_pool := pool |>) ∧
    kept_ok (try_send_gamepad_state sample st).
Proof.
  intros Hok. destruct (taken_slot GamepadPool (OnGamepadState sample) st eq_refl Hok) as (pool & E & Hk). exists pool.
  unfold try_send_gamepad_state. cbn [pool_of] in E. rewrite E. split; [done|]. destruct Hok. by apply Hk, coalescible_moves.
Qed.

Lemma critical_ok cmd st : slot_of cmd = None → ingress_ok st → kept_ok (send_reliable_command cmd st).
Proof.
  intros Hc [Hs Hu Hp Hi]. unfold send_reliable_command. pose proof (send_spec _ cmd _ host_budgets_ok Hs) as H.
  destruct (send cmd (tx st)) as [[[] s]|[c|c]| |] eqn:E; try done.
  - destruct H as (_ & Hs' & _). unfold send in E. destruct (negb _); [done|]. destruct (push _ _ _ _) as [s1| | |] eqn:Ep; try done.
    injection E as ->. pose proof (push_entries _ _ _ _ _ Ep) as He. split; [|done]. cbn [snd]. split; try done; cbn [tx set_field].
    + unfold unpooled. rewrite He. apply Forall_app. split; [done|]. by apply Forall_singleton.
    + intros k. specialize (Hp k) as [H1 H2].
      assert (Hh : holding k (command <$> entries s) = holding k (command <$> entries (tx st)))
        by (rewrite He, fmap_app, holding_app; cbn [fmap list_fmap command]; rewrite holding_none by done; lia).
      destruct k; cbn [pool_of tx touch_pool gamepad_pool in_hand set_field] in *; rewrite Hh; done.
  - destruct H as [-> _]. split; [|done]. apply (dropped_ok st (λ _, 0) cmd (stats st)); try done. intros k. by rewrite holding_none.
Qed.

Lemma ingress_try_send_ok cmd st : slot_of cmd = None → ingress_ok st → kept_ok (ingress_try_send cmd st).
Proof.
  intros Hc [Hs Hu Hp Hi]. unfold ingress_try_send. pose proof (try_send_spec _ cmd _ host_budgets_ok Hs) as H.
  pose proof (plain_moves cmd _ Hs Hu) as Hm. destruct (try_send host_budgets cmd (tx st)) as [[[] s]|[c|c]| |] eqn:E; try done; cbn [mbind outcome_bind moves] in Hm.
  - destruct Hm as (Hs' & Hu' & Hh). split; [|done]. split; try done. intros k. specialize (Hh k). specialize (Hp k) as [H1 H2].
    rewrite (holding_none k cmd) in Hh by done. change (holding k []) with 0 in Hh.
    destruct k; cbn [snd pool_of tx touch_pool gamepad_pool in_hand set_field] in *; split; try done; lia.
  - destruct H as [-> _]. split; [|done]. apply (dropped_ok (st <| stats := _ |>) (λ _, 0) cmd (stats st)); try done; try by apply slots_ok_stats. intros k. by rewrite holding_none.
  - destruct H as [-> _]. split; [|done]. apply (dropped_ok st (λ _, 0) cmd (stats st)); try done. intros k. by rewrite holding_none.
Qed.

(** ** Runs *)

Inductive IngressOp :=
  | Touches (touch : TouchData)
  | Sample (sample : GamepadState)
  | PointerInput (cmd : HostCommand)
  | KeyInput (cmd : HostCommand)
  | KeyboardInput (cmd : HostCommand)
  | CompositionInput (cmd : HostCommand)
  | GamepadConnection (cmd : HostCommand)
  | PlainCommand (cmd : HostCommand)
  | CriticalCommand (cmd : HostCommand)
  | HostRecv | HostDone | HostGone
  | ClaimNotification.

(** What is seen of the saturation's notifications. *)
Inductive Note := InputAccepted | Claimed.

Definition after {A E} (r : outcome E A * HostIngress F) : result (HostIngress F) :=
  match r.1 with Ret _ | Fail _ => Ret r.2 | Panic => Panic | OutOfFuel => OutOfFuel end.
Definition noted {A E} (r : outcome E A * HostIngress F) : list Note := if r.1 is Ret _ then [InputAccepted] else [].

Definition ingress_step (op : IngressOp) st : result (list Note * HostIngress F) :=
  let input (r : outcome HostIngressSendError InputSendOutcome * HostIngress F) := st ← after r; Ret (noted r, st) in
  match op with
  | Touches touch => input (try_send_touch touch st)
  | Sample sample => input (try_send_gamepad_state sample st)
  | PointerInput cmd => input (try_send_pointer cmd st)
  | KeyInput cmd => input (try_send_key cmd st)
  | KeyboardInput cmd => input (try_send_keyboard cmd st)
  | CompositionInput cmd => input (try_send_composition cmd st)
  | GamepadConnection cmd => input (try_send_gamepad_connection cmd st)
  | PlainCommand cmd => st ← after (ingress_try_send cmd st); Ret ([], st)
  | CriticalCommand cmd => st ← after (send_reliable_command cmd st); Ret ([], st)
  | HostRecv => st ← after (host_recv st); Ret ([], st)
  | HostDone => Ret ([], host_done st)
  | HostGone => Ret ([], host_gone st)
  | ClaimNotification => let '(won, st) := claim_notification st in Ret (if won then [Claimed] else [], st)
  end.

Fixpoint ingress_run (ops : list IngressOp) st : result (list Note * HostIngress F) :=
  match ops with
  | [] => Ret ([], st)
  | op :: ops => '(l, st) ← ingress_step op st; '(l', st) ← ingress_run ops st; Ret (l ++ l', st)
  end.

(** Commands with a slot are made by the two operations that take one; the host
    takes its next command when it is done with the last. *)
Definition op_legal (op : IngressOp) st : Prop :=
  match op with
  | PointerInput cmd | KeyInput cmd | KeyboardInput cmd | CompositionInput cmd | GamepadConnection cmd | PlainCommand cmd
  | CriticalCommand cmd => slot_of cmd = None
  | HostRecv => in_hand st = []
  | _ => True
  end.
Fixpoint ops_legal (ops : list IngressOp) st : Prop :=
  match ops with
  | [] => True
  | op :: ops => op_legal op st ∧ match ingress_step op st with Ret (_, st) => ops_legal ops st | _ => True end
  end.

(** [register_sender] with a channel of the host's budgets. *)
Definition register : result (HostIngress F) :=
  tx ← channel_with_reserve host_budgets;
  touch ← pool_new HOST_PAYLOAD_POOL_CAPACITY;
  gamepad ← pool_new HOST_PAYLOAD_POOL_CAPACITY;
  Ret {| tx := tx; touch_pool := touch; gamepad_pool := gamepad; input_saturation_notified := false;
         stats := {| command_drops := 0; input_coalesced := 0; input_reliable_reserve_uses := 0; input_saturation_events := 0 |};
         in_hand := [] |}.

Lemma register_ok : ∃ st, register = Ret st ∧ ingress_ok st ∧ input_saturation_notified st = false.
Proof.
  unfold register. destruct (pool_new_ok HOST_PAYLOAD_POOL_CAPACITY) as (f & E & E1 & E2); [done|]. rewrite E. cbn [mbind outcome_bind].
  change (channel_with_reserve host_budgets) with (Ret (E:=Empty_set) (queue (new_log (C:=HostCommand)))). cbn [mbind outcome_bind].
  eexists. split; [reflexivity|]. split; [|done]. split; cbn.
  - apply (new_log_ok (C:=HostCommand) host_budgets host_budgets_ok).
  - constructor.
  - intros k. cbn. change (holding k []) with 0. destruct k; cbn; lia.
  - done.
Qed.

Lemma recv_ok st : in_hand st = [] → ingress_ok st → ∃ st', after (host_recv st) = Ret st' ∧ ingress_ok st'.
Proof.
  intros Hh [Hs Hu Hp Hi]. unfold host_recv. pose proof (try_recv_spec _ _ Hs) as H. destruct (try_recv (tx st)) as [[e s]|r| |]; try done.
  - eexists. split; [reflexivity|]. destruct H as (E & Hs' & _). unfold unpooled in Hu. rewrite E in Hu. apply Forall_cons in Hu as [Hu1 Hu2]. cbn [snd].
    split; cbn [tx in_hand set_field]; try done; [|by rewrite Hh].
    intros k. specialize (Hp k) as [H1 H2]. rewrite E, fmap_cons, holding_head, Hh in H2. change (holding k []) with 0 in H2.
    destruct k; cbn [pool_of tx touch_pool gamepad_pool in_hand set_field] in *; (split; [done|]); rewrite Hh, holding_head;
      change (holding _ []) with 0; lia.
  - eexists. split; [reflexivity|]. by split.
Qed.

Lemma done_ok st : ingress_ok st → ingress_ok (host_done st).
Proof.
  intros [Hs Hu Hp Hi]. destruct (drop_commands_rest (st <| in_hand := [] |>) (in_hand st)) as (E1 & E2 & _). unfold host_done.
  split; rewrite ?E1, ?E2; try done. apply drop_commands_pools; [done|]. intros k. specialize (Hp k) as [H1 H2].
  destruct k; cbn [pool_of tx touch_pool gamepad_pool in_hand set_field] in *; (split; [done|]); change (holding _ []) with 0; lia.
Qed.

Lemma gone_ok st : ingress_ok st → ingress_ok (host_gone st).
Proof.
  intros [Hs Hu Hp Hi]. destruct (drop_commands_rest (st <| tx := drop_receiver (tx st) |>) (command <$> entries (tx st))) as (E1 & E2 & _).
  unfold host_gone. split; rewrite ?E1, ?E2; try done.
  - split; cbn; try done. apply Hs.
  - constructor.
  - apply drop_commands_pools; [done|]. intros k. specialize (Hp k) as [H1 H2].
    destruct k; cbn [pool_of tx touch_pool gamepad_pool in_hand set_field entries drop_receiver fmap list_fmap] in *;
      (split; [done|]); change (holding _ []) with 0; lia.
Qed.

Lemma input_ok op st :
  op_legal op st → ingress_ok st → ∃ l st', ingress_step op st = Ret (l, st') ∧ ingress_ok st'.
Proof.
  intros Hl Hok.
  assert (Hin : ∀ A (r : outcome HostIngressSendError A * HostIngress F) (f : list Note), kept_ok r →
    ∃ l st', (st ← after r; Ret (f, st)) = Ret (E:=Empty_set) (l, st') ∧ ingress_ok st').
  { intros A [[a|e| |] s] f [H1 H2]; try done; by eexists _, _. }
  destruct op; cbn [ingress_step op_legal] in *; try (apply Hin).
  - by destruct (try_send_touch_answers touch st Hok) as (pool & _ & H).
  - by destruct (try_send_gamepad_answers sample st Hok) as (pool & _ & H).
  - destruct cmd; cbn [try_send_pointer]; first [by apply coalescible_ok|by apply reliable_ok|by apply terminal_ok|by apply plain_ok].
  - destruct cmd; cbn [try_send_key]; first [by apply terminal_ok|by apply plain_ok].
  - destruct cmd; cbn [try_send_keyboard]; first [by apply terminal_ok|by apply plain_ok].
  - destruct cmd; cbn [try_send_composition]; first [by apply coalescible_ok|by apply reliable_ok|by apply terminal_ok|by apply plain_ok].
  - destruct cmd; cbn [try_send_gamepad_connection]; first [by apply reliable_ok|by apply terminal_ok|by apply plain_ok].
  - by apply ingress_try_send_ok.
  - by apply critical_ok.
  - destruct (recv_ok st Hl Hok) as (st' & -> & ?). by eexists _, _.
  - eexists _, _. split; [reflexivity|by apply done_ok].
  - eexists _, _. split; [reflexivity|by apply gone_ok].
  - unfold claim_notification. destruct (input_saturation_notified st); eexists _, _; (split; [reflexivity|]); [done|].
    by destruct Hok.
Qed.

Lemma ingress_runs ops st : ops_legal ops st → ingress_ok st → ∃ l st', ingress_run ops st = Ret (l, st') ∧ ingress_ok st'.
Proof.
  revert st. induction ops as [|op ops IH]; intros st Hl Hok; [by exists [], st|]. destruct Hl as [Hl Hr].
  destruct (input_ok op st Hl Hok) as (l & st1 & E & Hok1). rewrite E in Hr. destruct (IH st1 Hr Hok1) as (l' & st2 & E2 & Hok2).
  exists (l ++ l'), st2. split; [|done]. cbn [ingress_run]. rewrite E. cbn [mbind outcome_bind]. by rewrite E2.
Qed.

(** * Properties *)

(** C34: whatever was sent, received and dropped before, an ingress never panics, and
    every slot of its pools is free, pending or in the host's hand.  So a touch batch
    is never refused for want of a slot: it is refused as full only when the normal
    budget is used up and, for motion, nothing pending can be replaced, or, for a
    start, an end or a cancel, the reserve is used up too; a gamepad sample likewise. *)
Theorem input_refused_only_when_full ops st0 :
  register = Ret st0 → ops_legal ops st0 →
  ∃ l st, ingress_run ops st0 = Ret (l, st) ∧
    (∀ k, slots (pool_of k st) + holding k (command <$> entries (tx st)) + holding k (in_hand st) = HOST_PAYLOAD_POOL_CAPACITY) ∧
    (∀ touch, match (try_send_touch touch st).1 with
      | Ret _ => receiver_open (tx st) = true
      | Fail IngressFull => in_lane LaneNormal (entries (tx st)) = HOST_NORMAL_COMMAND_CAPACITY ∧
          match touch_type touch with
          | TouchMove => replaceable Touch (tx st) = None
          | _ => in_lane LaneReserved (entries (tx st)) = HOST_RELIABLE_INPUT_RESERVE
          end
      | Fail IngressClosed => receiver_open (tx st) = false
      | Panic | OutOfFuel => False
      end) ∧
    (∀ sample, match (try_send_gamepad_state sample st).1 with
      | Ret _ => receiver_open (tx st) = true
      | Fail IngressFull => in_lane LaneNormal (entries (tx st)) = HOST_NORMAL_COMMAND_CAPACITY ∧
          replaceable (Gamepad (gamepad_index sample)) (tx st) = None
      | Fail IngressClosed => receiver_open (tx st) = false
      | Panic | OutOfFuel => False
      end).
Proof.
  intros Hr Hl. destruct register_ok as (st0' & Hr' & Hok0 & _). assert (st0' = st0) as -> by congruence.
  destruct (ingress_runs ops st0 Hl Hok0) as (l & st & E & Hok). exists l, st. split; [done|].
  pose proof Hok as [Hs Hu Hp _]. split; [intros k; specialize (Hp k) as [_ Hp]; lia|].
  assert (Hco : ∀ i cmd (s : HostIngress F), tx s = tx st →
    match (send_coalescible i cmd s).1 with
    | Ret _ => receiver_open (tx st) = true
    | Fail IngressFull => in_lane LaneNormal (entries (tx st)) = HOST_NORMAL_COMMAND_CAPACITY ∧ replaceable i (tx st) = None
    | Fail IngressClosed => receiver_open (tx st) = false
    | _ => False
    end).
  { intros i cmd s Es. unfold send_coalescible. rewrite Es. pose proof (try_send_coalescible_spec _ i cmd (tx st) host_budgets_ok Hs) as H.
    destruct (try_send_coalescible host_budgets i cmd (tx st)) as [[o s']|[c|c]| |] eqn:Ec; try done; cbn [map_input_result fst].
    - unfold try_send_coalescible in Ec. by destruct (receiver_open (tx st)).
    - by destruct H as (_ & _ & ? & ?).
    - by destruct H. }
  assert (Htr : ∀ si b cmd gone (s : HostIngress F),
    match (map_input_result (try_send_transition host_budgets si cmd b (tx st)) gone s).1 with
    | Ret _ => receiver_open (tx st) = true
    | Fail IngressFull => in_lane LaneNormal (entries (tx st)) = HOST_NORMAL_COMMAND_CAPACITY ∧
        in_lane LaneReserved (entries (tx st)) = HOST_RELIABLE_INPUT_RESERVE
    | Fail IngressClosed => receiver_open (tx st) = false
    | _ => False
    end).
  { intros si b cmd gone s. pose proof (try_send_transition_spec _ si cmd b (tx st) host_budgets_ok Hs) as H. cbv zeta in H.
    destruct (try_send_transition host_budgets si cmd b (tx st)) as [[o s']|[c|c]| |] eqn:Ec; try done; cbn [map_input_result fst].
    - unfold try_send_transition in Ec. by destruct (receiver_open (tx st)).
    - by destruct H as (_ & _ & ? & _ & ?).
    - by destruct H. }
  split.
  - intros touch. destruct (try_send_touch_answers touch st Hok) as (pool & Ea & _). cbv zeta in Ea. rewrite Ea.
    destruct (touch_type touch); [apply Htr|by apply Hco|apply Htr..].
  - intros sample. destruct (try_send_gamepad_answers sample st Hok) as (pool & Ea & _). rewrite Ea. by apply Hco.
Qed.

Lemma map_input_result_note r gone st :
  let '(a, st') := map_input_result r gone st in
  input_saturation_notified st' = match a with Ret _ => false | _ => input_saturation_notified st end.
Proof.
  unfold map_input_result. destruct r as [[[] s]|[c|c]| |]; try done; destruct (drop_command_rest st c) as (_ & _ & H); exact H.
Qed.

(** What a step says of the notification, and how it leaves it. *)
Definition note_step (l : list Note) (b b' : bool) : Prop :=
  (l = [] ∧ b' = b) ∨ (l = [InputAccepted] ∧ b' = false) ∨ (l = [Claimed] ∧ b = false ∧ b' = true).

Lemma step_notes op st l st' :
  ingress_step op st = Ret (l, st') → note_step l (input_saturation_notified st) (input_saturation_notified st').
Proof.
  assert (Hin : ∀ r gone (s : HostIngress F), input_saturation_notified s = input_saturation_notified st →
    (let x := map_input_result r gone s in st ← after x; Ret (E:=Empty_set) (noted x, st)) = Ret (l, st') →
    note_step l (input_saturation_notified st) (input_saturation_notified st')).
  { intros r gone s Es. pose proof (map_input_result_note r gone s) as H. destruct (map_input_result r gone s) as [[a|e| |] s']; cbn; try done;
      intros [= <- <-]; [right; left|left]; (split; [done|congruence]). }
  assert (Hq : ∀ A (r : outcome HostIngressSendError A * HostIngress F),
    input_saturation_notified r.2 = input_saturation_notified st → (st ← after r; Ret (E:=Empty_set) ([], st)) = Ret (l, st') →
    note_step l (input_saturation_notified st) (input_saturation_notified st')).
  { intros A [[a|e| |] s] Es; cbn; try done; intros [= <- <-]; by left. }
  destruct op; cbn [ingress_step]; cbv zeta.
  - unfold try_send_touch. destruct (take_slot (touch_pool st)) as [pool|]; [destruct (touch_type touch); by apply Hin|].
    intros [= <- <-]. by left.
  - unfold try_send_gamepad_state. destruct (take_slot (gamepad_pool st)) as [pool|]; [by apply Hin|]. intros [= <- <-]. by left.
  - destruct cmd; by apply Hin.
  - destruct cmd; by apply Hin.
  - destruct cmd; by apply Hin.
  - destruct cmd; by apply Hin.
  - destruct cmd; by apply Hin.
  - apply Hq. unfold ingress_try_send. destruct (try_send _ _ _) as [[[] s]|[c|c]| |]; try done; by destruct c.
  - apply Hq. unfold send_reliable_command. destruct (send _ _) as [[[] s]|[c|c]| |]; try done; by destruct c.
  - unfold host_recv. destruct (try_recv (tx st)) as [[e s]|r| |]; cbn; try done; intros [= <- <-]; by left.
  - intros [= <- <-]. left. split; [done|]. unfold host_done. by destruct (drop_commands_rest (st <| in_hand := [] |>) (in_hand st)) as (_ & _ & ->).
  - intros [= <- <-]. left. split; [done|]. unfold host_gone.
    by destruct (drop_commands_rest (st <| tx := drop_receiver (tx st) |>) (command <$> entries (tx st))) as (_ & _ & ->).
  - unfold claim_notification. destruct (input_saturation_notified st) eqn:Eb; intros [= <- <-]; [by left|]. right; right. by split_and!.
Qed.

(** The adapter is notified once in an episode of saturation: between two claims
    that win there is an input that was accepted, whatever else happens. *)
Theorem notified_once ops st l st' :
  ingress_run ops st = Ret (l, st') →
  (input_saturation_notified st = true → head l ≠ Some Claimed) ∧
  ∀ i, l !! i = Some Claimed → l !! S i ≠ Some Claimed.
Proof.
  revert st l. induction ops as [|op ops IH]; intros st l; cbn [ingress_run]; [by intros [= <- _]|].
  intros E. destruct (ingress_step op st) as [[l1 st1]| | |] eqn:E1; try done. cbn [mbind outcome_bind] in E.
  destruct (ingress_run ops st1) as [[l2 st2]| | |] eqn:E2; try done. cbn [mbind outcome_bind] in E. injection E as <- <-.
  destruct (IH st1 l2 E2) as [Hh Hi]. destruct (step_notes op st l1 st1 E1) as [[-> Hb]|[[-> Hb]|(-> & Hb & Hb')]]; cbn [app].
  - rewrite <- Hb. by split.
  - split; [done|]. intros [|i]; [done|apply Hi].
  - split; [congruence|]. intros [|i]; [|apply Hi]. intros _. specialize (Hh Hb'). by destruct l2.
Qed.
End accounts.

(** * A sample *)

(** A channel of slots, by its capacity and how many it has. *)
Definition counted : Type := {cn : Z * Z | bool_decide (0 ≤ cn.2 ≤ cn.1) = true}.
Definition counted_of (c n : Z) : option counted :=
  match decide (bool_decide (0 ≤ n ≤ c) = true) with left H => Some ((c, n) ↾ H) | right _ => None end.

Lemma counted_of_spec c n :
  match counted_of c n with Some f => (`f) = (c, n) | None => ¬ 0 ≤ n ≤ c end.
Proof. unfold counted_of. case_decide as H; [done|]. intros Hn. apply H. by apply bool_decide_eq_true_2. Qed.

#[refine] Definition sample_list : FreeList counted := {|
  free_bounded n := default ((0, 0) ↾ eq_refl) (counted_of n 0); slots f := (`f).2; slots_capacity f := (`f).1;
  take_slot f := counted_of (`f).1 ((`f).2 - 1); give_slot f := counted_of (`f).1 ((`f).2 + 1) |}.
Proof.
  - intros n Hn. pose proof (counted_of_spec n 0) as H. destruct (counted_of n 0) as [f|]; [by cbn; rewrite H|lia].
  - intros [[c n] H]. pose proof (bool_decide_eq_true_1 _ H) as Hr. cbn in *. lia.
  - intros [[c n] H]. pose proof (bool_decide_eq_true_1 _ H) as Hr. cbn in *. pose proof (counted_of_spec c (n - 1)) as Hc.
    destruct (counted_of c (n - 1)); [by rewrite Hc|lia].
  - intros [[c n] H]. pose proof (bool_decide_eq_true_1 _ H) as Hr. cbn in *. pose proof (counted_of_spec c (n + 1)) as Hc.
    destruct (counted_of c (n + 1)); [by rewrite Hc|lia].
Defined.

Definition sample_payloads : InputPayloads := {| TouchRest := Z; GamepadSample := Z; OtherCommand := Z |}.

Section sample.
#[local] Existing Instance sample_list.
#[local] Existing Instance sample_payloads.

Definition sample_touch (t : TouchType) (x : Z) : TouchData := {| touch_type := t; touch_rest := x |}.

(** Motion, which ends, among commands that fill the queue; the last is refused. *)
Definition sample_touches : list IngressOp :=
  [Touches (sample_touch TouchStart 1); Touches (sample_touch TouchMove 2); Touches (sample_touch TouchMove 3); HostRecv; HostDone;
   CriticalCommand (Other 4); Touches (sample_touch TouchMove 5); Touches (sample_touch TouchEnd 6); HostRecv] ++
  replicate 512 (PlainCommand (Other 7)) ++ [ClaimNotification; KeyInput (OnKeyDown "a" "KeyA" 0 0 false); ClaimNotification].

Definition sample_ingress : HostIngress counted := match register with Ret st => st | _ =>
  {| tx := queue new_log; touch_pool := (0, 0) ↾ eq_refl; gamepad_pool := (0, 0) ↾ eq_refl; input_saturation_notified := false;
     stats := {| command_drops := 0; input_coalesced := 0; input_reliable_reserve_uses := 0; input_saturation_events := 0 |};
     in_hand := [] |} end.

#[local] Instance op_legal_dec op (st : HostIngress counted) : Decision (op_legal op st).
Proof. destruct op; cbn [op_legal]; apply _. Defined.
#[local] Instance ops_legal_dec ops (st : HostIngress counted) : Decision (ops_legal ops st).
Proof.
  revert st. induction ops as [|op ops IH]; intros st; cbn [ops_legal]; [apply _|].
  destruct (ingress_step op st) as [[l st']| | |]; [pose proof (IH st')|..]; apply _.
Defined.

Lemma sample_legal : ops_legal sample_touches sample_ingress.
Proof. apply (bool_decide_unpack _). by vm_compute. Qed.

Definition sample_notes : list Note := [InputAccepted; InputAccepted; InputAccepted; InputAccepted; InputAccepted; Claimed].
Definition sample_end : HostIngress counted :=
  match ingress_run sample_touches sample_ingress with Ret (_, st) => st | _ => sample_ingress end.

Lemma sample_run : ingress_run sample_touches sample_ingress = Ret (sample_notes, sample_end).
Proof. by vm_compute. Qed.

Lemma sample_registered : register = Ret sample_ingress.
Proof. by vm_compute. Qed.

(** Motion is refused, as the queue is full, and 576 slots are free; an end of the
    touch has the reserve. *)
Example sample_refused :
  slots (touch_pool sample_end) = 576 ∧
  (try_send_touch (sample_touch TouchMove 8) sample_end).1 = Fail IngressFull ∧
  (try_send_touch (sample_touch TouchEnd 8) sample_end).1 = Ret Reserved.
Proof. by vm_compute. Qed.

Lemma input_refused_only_when_full_witness :
  ∃ l st, ingress_run sample_touches sample_ingress = Ret (l, st) ∧
  match (try_send_touch (sample_touch TouchMove 8) st).1 with
  | Ret _ => receiver_open (tx st) = true
  | Fail IngressFull => in_lane LaneNormal (entries (tx st)) = HOST_NORMAL_COMMAND_CAPACITY ∧ replaceable Touch (tx st) = None
  | Fail IngressClosed => receiver_open (tx st) = false
  | Panic | OutOfFuel => False
  end.
Proof.
  destruct (input_refused_only_when_full sample_touches sample_ingress sample_registered sample_legal) as (l & st & E & _ & Ht & _).
  exists l, st. exact (conj E (Ht (sample_touch TouchMove 8))).
Defined.

Lemma notified_once_witness :
  ingress_run sample_touches sample_ingress = Ret (sample_notes, sample_end) ∧
  ∀ i, sample_notes !! i = Some Claimed → sample_notes !! S i ≠ Some Claimed.
Proof. split; [apply sample_run|]. by eapply notified_once, sample_run. Defined.
End sample.
